(* ===== verification/_CoqProject ===== *)
-Q . S2P
Prelude.v
Word.v
Glob.v
Pattern.v
Gitignore.v
Lists.v
Rules.v
RulesSpec.v
DocSet.v
Cursor.v
Postings.v
Union.v
Until.v
Bytes.v
Manifest.v
LogRecords.v
Trigrams.v
Fold.v
Scan.v
Expr.v
Globs.v
Blob.v
Query.v
Candidates.v
CandidatesSpec.v
DocNames.v
Plan.v
PlanBounds.v
PlanSpec.v
PlanRun.v
BTree.v
Runs.v
Dormant.v
Generation.v
LogFrames.v
Projection.v
Overlay.v
OverlayLife.v
OverlayDocs.v
OverlaySpec.v
NameGraph.v
NameRows.v
NameCheck.v
NameKeys.v
NameForest.v
NameCount.v
NameSpec.v
NameLoad.v
NameView.v
NameViewSpec.v
NamePath.v
NameCatalog.v
