(* ===== verification/Prelude.v ===== *)
(** * Super Ferret: a verification library of its pure core

    Super Ferret indexes the names and the contents of a file system and
    answers searches from the index.  Five crates carry the logic verified
    here: [ferret-policy] decides which paths a walk keeps, [ferret-index]
    holds postings and combines them, [ferret-verify] says what a document
    that matches must contain, [ferret-catalog] logs what the crawler found,
    and [ferret-query] reads and evaluates a search.  Source paths below are
    relative to [src/crates/].

    ** Parts

    - Policy.  [Glob] ([ferret-policy/src/gitignore/pattern/glob.rs]) compiles
      and matches one component; [Pattern] ([gitignore/pattern.rs]) a whole
      pattern, stepped directory by directory; [Gitignore]
      ([gitignore/mod.rs]) parses an ignore file and indexes its patterns;
      [Lists] ([lists.rs]) interns rules and lists; [Rules] ([rules.rs],
      [lib.rs]) keeps the rules in force along a walk and decides an entry.
      [RulesSpec] is the abstract specification: the decision read off the
      files in precedence order, with no cursor, index or interning.
    - Index.  [DocSet] ([ferret-index/src/live.rs]) is the live bitset;
      [Cursor] ([cursor.rs]) the Kleene algebra of candidate cursors over an
      interface of leaves; [Postings] ([postings.rs], [segment/read.rs])
      implements that interface for a term; [Union] ([cursor.rs]) merges or
      materialises a disjunction under a cancellation; [Manifest]
      ([manifest.rs]) is the published state's codec.  [Until] is the monad
      of calls that a cancellation may stop, with the rules to reason about
      them.  [Candidates] ([candidate.rs], [ferret-query/src/grep.rs] and
      [content.rs]) estimates, reads and builds the cursor of one content
      atom over a pinned view; [CandidatesSpec] says it stays within the
      atom's truth.
    - Content.  [Trigrams] ([ferret-verify/src/trigram/tree.rs]) is the query
      tree a regex needs, [Fold] ([trigram/fold.rs], [trigram.rs]) its
      derivation from the regex; [Scan] ([scan.rs]) is the substring finder;
      [Blob] ([ferret-text/src/blob.rs]) finds the base64 runs a text is
      indexed without.
    - Query.  [Expr] ([ferret-query/src/expr.rs]) parses and evaluates a
      boolean query; [Globs] ([pattern.rs]) lowers globs to regex text and to
      the literal they guarantee; [Query] ([query.rs], the row tests of
      [plan.rs]) lexes arguments, builds the conjuncts and tests a row.  [DocNames]
      ([plan/doc_names.rs]) is the inverse from documents to names, built and
      adopted; [Plan] ([plan.rs], [plan/explain.rs]) runs a content query up
      to verification: refusals, estimates, the driving tree, its cursor, the
      candidates and their table of certainties.  [PlanBounds], [PlanSpec]
      and [PlanRun] prove it: the bounds, the walks, the whole run.
    - Log.  [LogRecords] ([ferret-catalog/src/log/records.rs]) is the wire form
      of every replacement record; [Generation] ([generation.rs]) the identity
      of a view and the manifest that publishes it; [LogFrames] ([log.rs],
      [log/writer.rs]) frames transactions, opens a published prefix and
      loads its families.
    - Overlay.  [BTree] is the ordered map of the standard library; [Runs]
      ([overlay/runs.rs], [overlay/ids.rs]) keeps the rows a log replaces;
      [Dormant] ([dormant.rs], [dormant/state.rs]) retains the identities of
      documents that died; [Projection] and [Overlay] ([overlay.rs]) replay a
      family of records over a checkpoint and its predecessors, with the
      tables of lifetimes in [OverlayLife] and [OverlayDocs] and the contract
      in [OverlaySpec].
    - Names.  [NameGraph] ([overlay/namespace.rs]) replays the names of a
      transaction with their child keys, reference counts and graph checks;
      [NameRows], [NameCheck], [NameKeys], [NameForest] and [NameCount] prove
      its reads, its loops, its keys, its walks and its counts; [NameSpec] is
      the invariant and its preservation; [NameLoad] loads a namespace over a
      chain of overlays.  [NameView] ([read/names.rs], [read/cursors.rs]) reads
      the names of a view; [NameViewSpec] proves its listings and [NamePath]
      its paths.  [NameCatalog] ([read.rs], [read/inodes.rs],
      [read/changes.rs]) reads the documents of its inodes and what the log
      changed, and makes the view a [DocNames.Catalog].

    [Prelude] (this file) holds results, slices and list lemmas; [Word]
    machine words and little-endian numbers; [Bytes] the fields of a byte
    string and the tactics that read them.

    ** What is shown

    - A walk's decisions follow the precedence of the ignore files, a skipped
      directory hides no path a rule re-includes, and a child that changes
      nothing shares its parent's state ([RulesSpec]); below that, the retry
      loop of a glob is its declarative meaning, stepping a pattern decides
      whole paths, the bucketed index answers with the last matching rule,
      and interning is transparent.
    - A cursor tree stands for Kleene logic on its leaves and answers
      ascending targets with the first document it stands for; a term read
      from segments is such a leaf; a union under a cancellation is the OR
      of its children or a reported cancellation, which is prompt.
    - The derived trigram tree is satisfied by every text the regex matches,
      stays within its key budget, and weakening it loses nothing.
    - A content query loses no document: an atom's cursor stays within the
      atom's truth ([CandidatesSpec]), a compiled tree within its tree's
      ([PlanSpec]), the walk gives exactly the documents of the cursor and
      their names, so every live document the driving tree holds on is a
      candidate, and the run neither panics nor errs by itself ([PlanRun]).
      The names a document is given are its live names, by a full build or by
      an adoption, which agree ([DocNames]).  The dictionary bounds hold.
    - The query parser accepts the grammar and builds its tree, whose height
      is bounded; evaluating it with undecided leaves never contradicts the
      answer their truth would give; the conjuncts of an argument list test a
      row as its tree does, and number its content atoms in order; sizes and
      ages compare exactly.
    - The substring finder returns the first occurrence on every arm and reads
      no byte outside the haystack; the literal taken from a glob occurs in
      every text the glob matches.
    - The codecs are bijections between valid values and the bytes they
      accept, and no decoder panics on any bytes.  What was committed to a log
      is what is read from it, in order, whatever a torn append left behind
      its end, and reading is safe on any file ([LogFrames]).
    - Transactions replayed into the runs leave a map of last writes, however
      it is asked; the dormant table is read back as written, accepts exactly
      the legal transactions, and preparing one keeps it canonical.
    - Loading a view accepts exactly the transactions whose lifetimes are
      legal one after another and whose counts the manifests give, and the
      view answers from the tables they leave ([OverlaySpec]).  An accepted
      namespace is a forest by the log's own rows: lookups find exactly the
      live names, lifetime rows count the names of their inodes, and every
      live directory reaches a root, though each transaction is checked only
      where it touches the graph ([NameLoad]).  So listing a directory gives
      its live names in order, and the path of a name is computed and resolves
      back to it ([NamePath]); and the inverse from documents to names, built
      on a checkpoint and carried over its log, lists live names the view
      gives each document ([NameCatalog]).

    ** What loading does not check

    Three promises of a writer are premises where they are needed, each with
    an [Example] of what passes without it.  A transaction without rows of
    names is taken with whatever its manifest counts, so a chain counts its
    live names if it keeps its counts there ([NameLoad.counts_kept],
    [NameLoad.quiet_count_accepted]).  An inode without a lifetime row is
    counted by the checkpoint, so an adopted inverse lists all the names of a
    document if the log tells the names of its inodes
    ([NameCatalog.names_told], [NameCatalog.untold_adoption_misses]).  A root
    born without a row of its directory is accepted, so paths are computed if
    every directory beyond the checkpoint has its row
    ([NamePath.rows_complete], [NamePath.rowless_root_accepted]).

    ** Conventions

    An operation that can panic returns an [option], [None] being the panic; a
    [Result] is [result].  Loops that are not structural take fuel, and a
    theorem says how much is enough: [Glob.retry_loop_bounded] for a match,
    [fuel_for] the depth of a cursor tree and more than [2 ^ 32] steps for an
    [Advance], the length of the bytes for a log block, the size of a regex
    for its fold, four times the tokens and three more for the query parser,
    one more than the haystack's length for the finder, one more than the
    length of a file for opening its log, the directories that can have an
    edge and two more for a walk to a root, one more than its bytes for
    resolving a path, the length of a chain of overlays
    for loading its namespace, the height of a query's cursors and [2 ^ 32]
    more for its plan.  Integers keep their width where the code can wrap.  A
    cancellation is a [Checkpoint]: a state asked in sequence, so that the
    order and the number of the questions are part of the model.

    Interfaces stand for what is not under [src/] or not modelled yet:
    [Cursor.LeafLaws] for a leaf of a tree (discharged by [Postings]),
    [Postings.IntpackLaws] and [Postings.SegmentLaws] for the packed integers
    and a segment's dictionary, [Candidates.SegmentBounds] for its estimates,
    [Candidates.Contents] with [CandidatesSpec.CorpusLaws] for what the
    verifier and the tokenizer say of a document, [CandidatesSpec.indexes]
    for a view that indexes what it covers, [Query.Engines] for the compiled
    predicates, [DocNames.Catalog] with [DocNames.CatalogLaws] and
    [DocNames.Carried] for two views of a catalog (of which [NameCatalog]
    proves [DocNames.Kept] of a loaded view and its checkpoint, and
    [DocNames.Counted] of a view that tells its names), [Overlay.Base] with
    [OverlaySpec.BaseLaws], [NameRows.NameLaws], [NameLoad.ForestLaws] and
    [NameViewSpec.OrderLaws] for a checked checkpoint, [OverlaySpec.TableLaws]
    for a family of records and its table (discharged for lifetimes, for
    documents and for the fields of inodes), [Fold.HirLaws] for the regex syntax tree of
    the [regex-syntax] crate, and a checksum of sixteen bytes for BLAKE3.  Every theorem over
    an interface has an instance in the file.

    ** Not modelled

    File and socket I/O, threads, the regex engine, the daemon, the command
    line and the benchmarks, which call the modelled parts and have no model
    of their own.  The writer session and its crashes, the checkpoint
    format, the strategies that run a query and the verification of its rows,
    the segment dictionary and its writer, and the grep policy are not
    modelled either. *)
From Stdlib Require Export NArith Lia Sorted.
From Stdlib Require Ascii String.
From stdpp Require Export base numbers option list_numbers strings gmap sorting list.

#[export] Set Warnings "-clear-no-such-hyp".

(** ** Machine words, bytes and strings

    A byte, a [u32] and a [u64] are values of [N]; each definition that can
    wrap writes its wrap-around out.  A [usize] that indexes a sequence is a
    [nat]; a [&str] is the list of its UTF-8 bytes. *)

Abbreviation u8 := N (only parsing).
Abbreviation u16 := N (only parsing).
Abbreviation u32 := N (only parsing).
Abbreviation u64 := N (only parsing).
Abbreviation bytes := (list N) (only parsing).

(** A byte holds eight bits. *)
Definition byte_ok (b : u8) : Prop := (b < 256)%N.
Definition bytes_ok (l : bytes) : Prop := Forall byte_ok l.

(** The boolean form of a byte range test, [lo..=hi]. *)
Definition in_range (lo hi b : u8) : bool := ((lo <=? b) && (b <=? hi))%N.

(** [slice.partition_point(f)], the end of the prefix where [f] holds. *)
Fixpoint partition_point {A} (f : A -> bool) (l : list A) : nat :=
  match l with
  | x :: rest => if f x then S (partition_point f rest) else 0
  | [] => 0
  end.

(** [l[from..to]]. *)
Definition slice {A} (l : list A) (from to : nat) : list A := take (to - from) (drop from l).

#[global] Arguments Nat.modulo : simpl never.
#[global] Arguments Nat.div : simpl never.
#[global] Arguments N.eqb : simpl never.
#[global] Arguments N.ltb : simpl never.
#[global] Arguments N.leb : simpl never.
#[global] Arguments N.modulo : simpl never.
#[global] Arguments N.div : simpl never.
#[global] Arguments N.pow : simpl never.

(** ** Results

    [Result<T, E>], with [?] as a bind. *)
Inductive result (A E : Type) :=
| Ok (a : A)
| Err (e : E).
Arguments Ok {A E} a.
Arguments Err {A E} e.

Definition result_bind {A B E} (r : result A E) (k : A -> result B E) : result B E :=
  match r with Ok a => k a | Err e => Err e end.

(** [Option::ok_or_else]. *)
Definition ok_or {A E} (o : option A) (e : E) : result A E :=
  match o with Some a => Ok a | None => Err e end.

Declare Scope ferret_scope.
Notation "x <~ r ; k" := (result_bind r (fun x => k))
  (at level 100, r at next level, right associativity) : ferret_scope.

(** ** Slices and text

    The slice operations of the Rust standard library that the source uses. *)

Definition is_empty {A} (l : list A) : bool := match l with [] => true | _ => false end.

(** A byte string literal, [b"..."]. *)
Definition ascii_bytes (s : string) : bytes :=
  Ascii.N_of_ascii <$> String.list_ascii_of_string s.

(** [opt.is_some_and(f)]. *)
Definition is_some_and {A} (o : option A) (f : A -> bool) : bool :=
  match o with Some a => f a | None => false end.

(** [opt.is_none_or(f)]. *)
Definition is_none_or {A} (o : option A) (f : A -> bool) : bool :=
  match o with Some a => f a | None => true end.

(** [slice.iter().rposition(f)]. *)
Fixpoint rposition {A} (f : A -> bool) (l : list A) : option nat :=
  match l with
  | [] => None
  | x :: rest =>
      match rposition f rest with
      | Some i => Some (S i)
      | None => if f x then Some 0 else None
      end
  end.

(** [text.split(b)], as the list of its pieces: never empty. *)
Fixpoint split_on (b : u8) (text : bytes) : list bytes :=
  match text with
  | [] => [[]]
  | x :: rest =>
      if (x =? b)%N then [] :: split_on b rest
      else match split_on b rest with
           | [] => [[x]]
           | piece :: pieces => (x :: piece) :: pieces
           end
  end.

(** [slice.windows(n)] for [0 < n] (the source panics at 0). *)
Definition windows {A} (n : nat) (l : list A) : list (list A) :=
  (fun at_ => take n (drop at_ l)) <$> seq 0 (S (length l) - n).

(** ** Generic lemmas *)

Lemma rposition_Some {A} (f : A -> bool) (l : list A) i :
  rposition f l = Some i <->
  (exists x, l !! i = Some x /\ f x = true) /\
  (forall j x, i < j -> l !! j = Some x -> f x = false).
Proof.
  revert i; induction l as [|y l IH]; intros i; simpl.
  { split; [done|]. intros [(x & Hx & _) _]. by rewrite lookup_nil in Hx. }
  destruct (rposition f l) as [k|] eqn:Hr.
  - pose proof (proj1 (IH k) eq_refl) as [(x & Hx & Hfx) Hk]. split.
    + intros [= <-]. split; [by exists x|]. intros [|j] z ?; [lia|]. simpl. apply Hk. lia.
    + intros [(z & Hz & Hfz) Hi]. destruct i as [|i].
      * exfalso. specialize (Hi (S k) x ltac:(lia) Hx). congruence.
      * f_equal. f_equal. simpl in Hz. apply Nat.le_antisymm.
        -- apply Nat.nlt_ge. intros H. specialize (Hi (S k) x ltac:(lia) Hx). congruence.
        -- apply Nat.nlt_ge. intros H. specialize (Hk i z H Hz). congruence.
  - assert (Hno : forall j x, l !! j = Some x -> f x = false).
    { clear -Hr. revert Hr; induction l as [|y l IHl]; intros Hr [|j] x Hx; try done;
        simpl in *; destruct (rposition f l) eqn:Hl; try done; destruct (f y) eqn:Hy; try done.
      - by injection Hx as ->.
      - eauto. }
    destruct (f y) eqn:Hy; split.
    + intros [= <-]. split; [by exists y|]. intros [|j] z ?; [lia|]. simpl. apply Hno.
    + intros [(z & Hz & Hfz) _]. destruct i as [|i]; [done|]. simpl in Hz.
      by rewrite (Hno _ _ Hz) in Hfz.
    + done.
    + intros [(z & Hz & Hfz) _]. destruct i as [|i]; simpl in Hz.
      * injection Hz as ->. congruence.
      * by rewrite (Hno _ _ Hz) in Hfz.
Qed.

Lemma split_on_nonempty b text : split_on b text <> [].
Proof.
  destruct text as [|x text]; [done|]. simpl. destruct (_ =? _)%N; [done|].
  by destruct (split_on b text).
Qed.

(** The pieces of a split hold no separator. *)
Lemma split_on_pieces b text : Forall (Forall (fun x => x <> b)) (split_on b text).
Proof.
  induction text as [|x text IH]; simpl; [by repeat constructor|].
  destruct (N.eqb_spec x b); [by constructor|].
  destruct (split_on b text) as [|piece pieces]; [by repeat constructor|].
  inversion IH; subst. by repeat constructor.
Qed.

(** Joining with the separator undoes a split, and a join of pieces without
    separators splits back into them. *)
Fixpoint join_with (b : u8) (pieces : list bytes) : bytes :=
  match pieces with
  | [] => []
  | [piece] => piece
  | piece :: rest => piece ++ b :: join_with b rest
  end.

Lemma join_split b text : join_with b (split_on b text) = text.
Proof.
  induction text as [|x text IH]; simpl; [done|].
  pose proof (split_on_nonempty b text). destruct (N.eqb_spec x b) as [->|].
  - destruct (split_on b text); [done|]. cbn. f_equal. exact IH.
  - destruct (split_on b text) as [|piece [|]]; [done|..]; simpl in *; by f_equal.
Qed.

Lemma split_on_cons_plain b piece rest :
  Forall (fun x => x <> b) piece ->
  split_on b (piece ++ rest) =
  match split_on b rest with [] => [piece] | p :: ps => (piece ++ p) :: ps end.
Proof.
  induction 1 as [|x piece Hx _ IH]; simpl.
  - pose proof (split_on_nonempty b rest). by destruct (split_on b rest).
  - rewrite (proj2 (N.eqb_neq x b)), IH by done. by destruct (split_on b rest).
Qed.

Lemma split_join b pieces :
  pieces <> [] -> Forall (Forall (fun x => x <> b)) pieces ->
  split_on b (join_with b pieces) = pieces.
Proof.
  intros Hne Hp. induction Hp as [|piece rest Hp Hrest IH]; [done|].
  destruct rest as [|q rest].
  - cbn [join_with]. rewrite <- (app_nil_r piece) at 1.
    rewrite split_on_cons_plain by done. simpl. by rewrite app_nil_r.
  - change (join_with b (piece :: q :: rest)) with (piece ++ b :: join_with b (q :: rest)).
    rewrite split_on_cons_plain by done. cbn [split_on]. rewrite N.eqb_refl.
    rewrite IH by done. by rewrite app_nil_r.
Qed.

Lemma fold_left_snoc {A B} (f : A -> B -> A) (l : list B) (x : B) (a : A) :
  fold_left f (l ++ [x]) a = f (fold_left f l a) x.
Proof. by rewrite fold_left_app. Qed.

Lemma elem_of_concat {A} (x : A) ls : x ∈ concat ls <-> exists l, l ∈ ls /\ x ∈ l.
Proof. setoid_rewrite list_elem_of_In. rewrite in_concat. done. Qed.

Lemma length_concat_same {A} (w : nat) (ls : list (list A)) : Forall (fun x => length x = w) ls -> length (concat ls) = length ls * w.
Proof. induction 1 as [|x ls Hx _ IH]; [done|]. cbn. rewrite length_app. lia. Qed.

Lemma partition_point_ext {A} (f g : A -> bool) l :
  (forall x, f x = g x) -> partition_point f l = partition_point g l.
Proof. intros H. induction l as [|x l IH]; simpl; [done|]. by rewrite H, IH. Qed.

Lemma length_slice {A} (l : list A) from to :
  from <= to -> to <= length l -> length (slice l from to) = to - from.
Proof. intros. unfold slice. rewrite length_take, length_drop. lia. Qed.

Lemma lookup_slice {A} (l : list A) from to i :
  i < to - from -> slice l from to !! i = l !! (from + i).
Proof. intros. unfold slice. by rewrite lookup_take_lt, lookup_drop. Qed.

Lemma filter_all_out {A} (P : A -> Prop) `{forall x, Decision (P x)} (l : list A) :
  (forall x, x ∈ l -> ~ P x) -> filter P l = [].
Proof.
  induction l as [|x l IH]; intros Hl; [done|].
  rewrite filter_cons_False by (apply Hl; constructor). apply IH.
  intros y Hy. apply Hl. by constructor.
Qed.

Lemma filter_all_in {A} (P : A -> Prop) `{forall x, Decision (P x)} (l : list A) :
  (forall x, x ∈ l -> P x) -> filter P l = l.
Proof.
  induction l as [|x l IH]; intros Hl; [done|].
  rewrite filter_cons_True by (apply Hl; constructor). f_equal. apply IH.
  intros y Hy. apply Hl. by constructor.
Qed.

Lemma filter_same {A} (P Q : A -> Prop) `{forall x, Decision (P x), forall x, Decision (Q x)}
    (l : list A) :
  (forall x, x ∈ l -> P x <-> Q x) -> filter P l = filter Q l.
Proof.
  induction l as [|x l IH]; intros Hl; [done|].
  rewrite !filter_cons, IH by (intros y Hy; apply Hl; by constructor).
  pose proof (Hl x ltac:(constructor)) as Hx.
  do 2 case_decide; done || tauto.
Qed.

Lemma filter_fmap {A B} (P : B -> Prop) `{forall x, Decision (P x)} (f : A -> B) (l : list A) :
  filter P (f <$> l) = f <$> filter (fun x => P (f x)) l.
Proof.
  induction l as [|x l IH]; [done|]. rewrite fmap_cons, !filter_cons, IH.
  by case_decide.
Qed.

Lemma fmap_same {A} (f : A -> A) (l : list A) : (forall x, f x = x) -> f <$> l = l.
Proof. intros H. induction l as [|x l IH]; [done|]. by rewrite fmap_cons, H, IH. Qed.

(** ** Ascending lists *)

(** Two strictly ascending lists with the same elements are equal. *)
Lemma ascending_ext (l1 l2 : list N) :
  StronglySorted N.lt l1 -> StronglySorted N.lt l2 -> (forall x, x ∈ l1 <-> x ∈ l2) -> l1 = l2.
Proof.
  intros H1. revert l2. induction H1 as [|x l1 H1 IH Hx]; intros [|y l2] H2 Hel.
  - done.
  - pose proof (proj2 (Hel y) ltac:(by left)) as Hy. by apply not_elem_of_nil in Hy.
  - pose proof (proj1 (Hel x) ltac:(by left)) as Hy. by apply not_elem_of_nil in Hy.
  - inversion_clear H2 as [|? ? H2' Hy]. rewrite Forall_forall in Hx, Hy.
    assert (x = y) as <-.
    { pose proof (proj1 (Hel x) ltac:(by left)) as Hxy. pose proof (proj2 (Hel y) ltac:(by left)) as Hyx.
      apply elem_of_cons in Hxy as [->|Hxy]; [done|]. apply elem_of_cons in Hyx as [->|Hyx]; [done|].
      specialize (Hx y Hyx). specialize (Hy x Hxy). lia. }
    f_equal. apply IH; [done|]. intros z. specialize (Hel z). rewrite !elem_of_cons in Hel.
    split; intros Hz; [assert (z <> x) by (intros ->; specialize (Hx x Hz); lia)
      |assert (z <> x) by (intros ->; specialize (Hy x Hz); lia)]; naive_solver.
Qed.

Lemma ascending_filter (P : N -> Prop) `{forall x, Decision (P x)} l :
  StronglySorted N.lt l -> StronglySorted N.lt (filter P l).
Proof.
  induction 1 as [|x l Hs IH Hx]; [constructor|]. rewrite filter_cons. case_decide; [|done].
  constructor; [done|]. rewrite Forall_forall in *. intros y [_ Hy]%list_elem_of_filter. by apply Hx.
Qed.

Lemma ascending_seq k n : StronglySorted N.lt (N.of_nat <$> seq k n).
Proof.
  revert k; induction n as [|n IH]; intros k; [constructor|]. simpl. constructor; [apply IH|].
  apply Forall_fmap, Forall_forall. intros i Hi%elem_of_seq. simpl. lia.
Qed.

(** Blocks that stand in disjoint ascending ranges concatenate in order. *)
Lemma ascending_concat (f : nat -> list N) (w : N) k n :
  (forall i, StronglySorted N.lt (f i)) ->
  (forall i x, x ∈ f i -> (N.of_nat i * w <= x < N.of_nat (S i) * w)%N) ->
  StronglySorted N.lt (concat (f <$> seq k n)).
Proof.
  intros Hs Hb. revert k; induction n as [|n IH]; intros k; [constructor|].
  rewrite <- cons_seq, fmap_cons. cbn [concat].
  assert (Hrest : forall y, y ∈ concat (f <$> seq (S k) n) -> (N.of_nat (S k) * w <= y)%N).
  { intros y (l & Hl & Hy)%elem_of_concat. apply list_elem_of_fmap in Hl as (i & -> & Hi%elem_of_seq).
    apply Hb in Hy. nia. }
  specialize (IH (S k)). specialize (Hs k). pose proof (fun x => Hb k x) as Hk.
  revert Hk. induction Hs as [|x l Hl IHl Hx]; intros Hk; [done|]. simpl. constructor.
  - apply IHl. intros y Hy. apply Hk. by right.
  - apply Forall_app. split; [done|]. apply Forall_forall. intros y Hy%Hrest.
    specialize (Hk x ltac:(by left)). lia.
Qed.

Lemma ascending_index l i j (d e : N) :
  StronglySorted N.lt l -> l !! i = Some d -> l !! j = Some e -> (e < d)%N -> j < i.
Proof.
  intros Hs. revert i j. induction Hs as [|x l Hs IH Hx]; intros [|i] [|j]; try done; simpl.
  - intros [= ->] [= ->] ?. lia.
  - intros [= ->] He Hlt. rewrite Forall_lookup in Hx. specialize (Hx j e He). lia.
  - intros; lia.
  - intros Hi Hj Hlt. specialize (IH i j Hi Hj Hlt). lia.
Qed.

Lemma ascending_NoDup l : StronglySorted N.lt l -> NoDup l.
Proof.
  induction 1 as [|x l Hs IH Hx]; constructor; [|done].
  intros Hin. rewrite Forall_forall in Hx. specialize (Hx x Hin). lia.
Qed.

(** [r] is the first number from [from] on that satisfies [P]. *)
Definition first_from (P : N -> Prop) (from : N) (r : option N) : Prop :=
  match r with
  | Some d => P d /\ (from <= d)%N /\ forall e, P e -> (from <= e)%N -> (d <= e)%N
  | None => forall e, P e -> (e < from)%N
  end.

Lemma first_from_ext P Q from r :
  (forall d, P d <-> Q d) -> first_from P from r <-> first_from Q from r.
Proof. intros H. destruct r; simpl; by setoid_rewrite H. Qed.

(** Moving the start over numbers that do not satisfy [P] changes nothing. *)
Lemma first_from_skip P from from' r :
  (forall e, P e -> (from <= e <-> from' <= e)%N) -> first_from P from r -> first_from P from' r.
Proof.
  intros H. destruct r as [d|]; simpl.
  - intros (Hd & Hf & Hmin). split; [done|]. split; [by apply H|]. intros e He Hfe.
    apply Hmin; [done|]. by apply H.
  - intros Hn e He. specialize (Hn e He). apply N.nle_gt. intros Hle. apply (H e He) in Hle. lia.
Qed.

Lemma first_from_unique P from r r' : first_from P from r -> first_from P from r' -> r = r'.
Proof.
  destruct r as [d|], r' as [d'|]; simpl; intros H1 H2; try done.
  - f_equal. destruct H1 as (? & ? & H1), H2 as (? & ? & H2).
    specialize (H1 d'). specialize (H2 d). apply N.le_antisymm; auto.
  - destruct H1 as (Hd & Hf & _). specialize (H2 d Hd). lia.
  - destruct H2 as (Hd & Hf & _). specialize (H1 d' Hd). lia.
Qed.
