(* ===== verification/Word.v ===== *)
(** * Word: bits of a machine word

    The bit operations that the bitset components share: [trailing_zeros],
    clearing the lowest set bit with [n & (n - 1)], the set bits of a word in
    ascending order, and the little-endian coding of integers. *)
From S2P Require Import Prelude.

(** ** Definitions *)

Fixpoint pos_trailing_zeros (p : positive) : N :=
  match p with
  | xO q => N.succ (pos_trailing_zeros q)
  | _ => 0%N
  end.

(** [u64::trailing_zeros]. *)
Definition trailing_zeros (n : u64) : N :=
  match n with N0 => 64%N | Npos p => pos_trailing_zeros p end.

(** [n &= n - 1]. *)
Definition clear_lowest (n : u64) : u64 := N.land n (n - 1).

(** The scan the code repeats: take the lowest set bit, clear it, go on. *)
Fixpoint scan_bits (fuel : nat) (n : u64) : list N :=
  match fuel with
  | 0 => []
  | S fuel' =>
      if (n =? 0)%N then []
      else trailing_zeros n :: scan_bits fuel' (clear_lowest n)
  end.

(** All ones of a [u64]. *)
Definition u64_max : u64 := N.ones 64.
(** [!n]. *)
Definition u64_not (n : u64) : u64 := N.lxor n u64_max.
(** [n << k], dropping the bits past 64. *)
Definition u64_shl (n : u64) (k : N) : u64 := N.land (N.shiftl n k) u64_max.

(** [n.to_le_bytes()] of a [w]-byte integer. *)
Fixpoint le_bytes (w : nat) (n : N) : bytes :=
  match w with
  | 0 => []
  | S w' => (n mod 256)%N :: le_bytes w' (n / 256)%N
  end.

(** [from_le_bytes]. *)
Fixpoint le_num (l : bytes) : N :=
  match l with
  | [] => 0%N
  | b :: l' => (b + 256 * le_num l')%N
  end.

(** ** Lowest set bit *)

Lemma trailing_zeros_double p :
  trailing_zeros (2 * N.pos p) = N.succ (trailing_zeros (N.pos p)).
Proof. done. Qed.

Lemma trailing_zeros_set n : n <> 0%N -> N.testbit n (trailing_zeros n) = true.
Proof.
  destruct n as [|p]; [done|]. intros _. induction p as [p IH|p IH|]; try done.
  replace (N.pos p~0) with (2 * N.pos p)%N by lia.
  rewrite trailing_zeros_double, N.testbit_even_succ; [exact IH|lia].
Qed.

Lemma trailing_zeros_below n i : (i < trailing_zeros n)%N -> N.testbit n i = false.
Proof.
  destruct n as [|p]; [intros _; apply N.bits_0|]. revert i.
  induction p as [p IH|p IH|]; intros i Hi; [simpl in Hi; lia| |simpl in Hi; lia].
  replace (N.pos p~0) with (2 * N.pos p)%N in * by lia. rewrite trailing_zeros_double in Hi.
  destruct (N.zero_or_succ i) as [->|[j ->]]; [apply N.testbit_even_0|].
  rewrite N.testbit_even_succ by lia. apply IH. lia.
Qed.

Lemma clear_lowest_testbit n i :
  n <> 0%N -> N.testbit (clear_lowest n) i = N.testbit n i && negb (i =? trailing_zeros n)%N.
Proof.
  destruct n as [|p]; [done|]. intros _. unfold clear_lowest. rewrite N.land_spec.
  revert i. induction p as [p IH|p IH|]; intros i.
  - replace (N.pos p~1 - 1)%N with (2 * N.pos p)%N by lia.
    replace (trailing_zeros (N.pos p~1)) with 0%N by done.
    replace (N.pos p~1) with (2 * N.pos p + 1)%N by lia.
    destruct (N.zero_or_succ i) as [->|[j ->]].
    + by rewrite N.testbit_even_0, !andb_false_r.
    + rewrite N.testbit_even_succ, N.testbit_odd_succ by lia.
      destruct (N.eqb_spec (N.succ j) 0); [lia|]. by destruct (N.testbit (N.pos p) j).
  - replace (N.pos p~0) with (2 * N.pos p)%N by lia.
    replace (2 * N.pos p - 1)%N with (2 * (N.pos p - 1) + 1)%N by lia.
    rewrite trailing_zeros_double.
    destruct (N.zero_or_succ i) as [->|[j ->]]; [by rewrite N.testbit_even_0|].
    rewrite N.testbit_even_succ, N.testbit_odd_succ, IH by lia. f_equal. f_equal.
    destruct (N.eqb_spec j (trailing_zeros (N.pos p))),
      (N.eqb_spec (N.succ j) (N.succ (trailing_zeros (N.pos p)))); lia.
  - simpl (1 - 1)%N. rewrite N.bits_0, andb_false_r.
    destruct (N.zero_or_succ i) as [->|[j ->]]; [done|].
    replace 1%N with (2 * 0 + 1)%N by lia. by rewrite N.testbit_odd_succ, N.bits_0 by lia.
Qed.

Lemma trailing_zeros_lt n w : n <> 0%N -> (n < 2 ^ w)%N -> (trailing_zeros n < w)%N.
Proof.
  intros Hn Hw. destruct (N.lt_ge_cases (trailing_zeros n) w) as [|Hge]; [done|].
  apply trailing_zeros_set in Hn. rewrite N.bits_above_log2 in Hn; [done|].
  destruct (N.eq_dec n 0%N) as [->|]; [by rewrite N.bits_0 in Hn|].
  apply N.lt_le_trans with w; [|done]. apply N.log2_lt_pow2; lia.
Qed.

Lemma clear_lowest_lt n w : (n < 2 ^ w)%N -> (clear_lowest n < 2 ^ w)%N.
Proof.
  intros H. eapply N.le_lt_trans; [|exact H]. unfold clear_lowest.
  apply N.land_le_l.
Qed.

(** ** The set bits of a word, ascending *)

(** The specification: the positions below [w] whose bit is set. *)
Definition set_bits (w : nat) (n : u64) : list N :=
  filter (fun i => N.testbit n i = true) (N.of_nat <$> seq 0 w).

Lemma elem_of_set_bits w n i :
  i ∈ set_bits w n <-> (i < N.of_nat w)%N /\ N.testbit n i = true.
Proof.
  unfold set_bits. rewrite list_elem_of_filter, list_elem_of_fmap. split.
  - intros (Ht & k & -> & Hk%elem_of_seq). split; [lia|done].
  - intros (Hi & Ht). split; [done|]. exists (N.to_nat i). split; [lia|].
    apply elem_of_seq. lia.
Qed.

Lemma set_bits_0 w : set_bits w 0 = [].
Proof. apply filter_all_out. intros x _. by rewrite N.bits_0. Qed.

Lemma set_bits_step w n :
  n <> 0%N -> (n < 2 ^ N.of_nat w)%N ->
  set_bits w n = trailing_zeros n :: set_bits w (clear_lowest n).
Proof.
  intros Hn Hw. pose proof (trailing_zeros_lt n _ Hn Hw) as Ht.
  set (t := N.to_nat (trailing_zeros n)).
  assert (Hsplit : N.of_nat <$> seq 0 w =
    (N.of_nat <$> seq 0 t) ++ trailing_zeros n :: (N.of_nat <$> seq (S t) (w - S t))).
  { replace w with (t + S (w - S t)) at 1 by lia. rewrite seq_app, fmap_app. simpl.
    f_equal. f_equal. unfold t. lia. }
  assert (Hlow : forall m, (forall i, (i < trailing_zeros n)%N -> N.testbit m i = false) ->
    filter (fun i => N.testbit m i = true) (N.of_nat <$> seq 0 t) = []).
  { intros m Hm. apply filter_all_out. intros x (k & -> & Hk%elem_of_seq)%list_elem_of_fmap.
    rewrite Hm; [done|lia]. }
  unfold set_bits. rewrite Hsplit, !filter_app, !filter_cons.
  rewrite (Hlow n) by apply trailing_zeros_below.
  rewrite (Hlow (clear_lowest n)).
  2:{ intros i Hi. rewrite clear_lowest_testbit, trailing_zeros_below by done. done. }
  rewrite decide_True by (by apply trailing_zeros_set).
  rewrite decide_False by (rewrite clear_lowest_testbit, N.eqb_refl, andb_false_r by done; done).
  simpl. f_equal. apply filter_same.
  intros x (k & -> & Hk%elem_of_seq)%list_elem_of_fmap.
  rewrite clear_lowest_testbit by done.
  destruct (N.eqb_spec (N.of_nat k) (trailing_zeros n)); [lia|]. by rewrite andb_true_r.
Qed.

(** Enough fuel: no more bits than the word is wide. *)
Lemma scan_bits_spec fuel w n :
  (n < 2 ^ N.of_nat w)%N -> length (set_bits w n) <= fuel ->
  scan_bits fuel n = set_bits w n.
Proof.
  revert n; induction fuel as [|fuel IH]; intros n Hn Hf; simpl.
  { by destruct (set_bits w n); [|simpl in Hf; lia]. }
  destruct (N.eqb_spec n 0) as [->|Hz]; [by rewrite set_bits_0|].
  rewrite (set_bits_step w) in Hf |- * by done. simpl in Hf. f_equal.
  apply IH; [by apply clear_lowest_lt|lia].
Qed.

Lemma length_set_bits w n : length (set_bits w n) <= w.
Proof.
  unfold set_bits. etrans; [apply length_filter|]. by rewrite length_fmap, length_seq.
Qed.

Lemma scan_bits_64 n : (n < 2 ^ 64)%N -> scan_bits 64 n = set_bits 64 n.
Proof. intros. apply scan_bits_spec; [done|apply length_set_bits]. Qed.

Lemma scan_ascending w : (w < 2 ^ 64)%N -> StronglySorted N.lt (scan_bits 64 w).
Proof. intros Hw. rewrite scan_bits_64 by done. apply ascending_filter, ascending_seq. Qed.

#[global] Arguments scan_bits : simpl never.

(** ** Bounds and single bits *)

Lemma lt_pow2_bits n w : (forall i, (w <= i)%N -> N.testbit n i = false) -> (n < 2 ^ w)%N.
Proof.
  intros H. destruct (N.eq_dec n 0%N) as [->|Hn]; [apply N.neq_0_lt_0, N.pow_nonzero; lia|].
  apply N.log2_lt_pow2; [lia|]. destruct (N.lt_ge_cases (N.log2 n) w) as [|Hge]; [done|].
  pose proof (H _ Hge) as Hb. by rewrite N.bit_log2 in Hb.
Qed.

Lemma bits_above n w i : (n < 2 ^ w)%N -> (w <= i)%N -> N.testbit n i = false.
Proof.
  intros Hn Hi. destruct (N.eq_dec n 0%N) as [->|Hz]; [apply N.bits_0|].
  apply N.bits_above_log2. apply N.lt_le_trans with w; [|done]. apply N.log2_lt_pow2; lia.
Qed.

Lemma lor_lt_pow2 a b w : (a < 2 ^ w)%N -> (b < 2 ^ w)%N -> (N.lor a b < 2 ^ w)%N.
Proof.
  intros Ha Hb. apply lt_pow2_bits. intros i Hi.
  by rewrite N.lor_spec, !(bits_above _ w i).
Qed.

(** [n >> i & 1 == 1] reads bit [i]. *)
Lemma land_shiftr_1 n i : (N.land (N.shiftr n i) 1 =? 1)%N = N.testbit n i.
Proof.
  rewrite <- (N.add_0_l i) at 2. rewrite <- N.shiftr_spec by lia.
  generalize (N.shiftr n i). intros m. change (N.land m 1) with (N.land m (N.ones 1)).
  rewrite N.land_ones. change (2 ^ 1)%N with 2%N. rewrite <- N.bit0_mod.
  by destruct (N.testbit m 0).
Qed.
