(* ===== verification/Glob.v ===== *)
(** * Glob: one path component's pattern

    Models [crates/ferret-policy/src/gitignore/pattern/glob.rs]: the data of
    a compiled component, its compilation from pattern bytes, and the
    last-star retry loop that matches it. *)
From S2P Require Import Prelude.

(** ** Data *)

Record PatternByte := mkPB { value : u8; escaped : bool }.

Inductive PosixClass :=
| Alnum | Alpha | Blank | Cntrl | Digit | Graph
| Lower | Print | Punct | Space | Upper | Xdigit.

Inductive ClassTerm :=
| TByte (b : u8)
| TRange (first last : u8)
| TPosix (c : PosixClass).

Inductive ClassMember :=
| MByte (b : PatternByte)
| MPosix (c : PosixClass).

Record CharacterClass := mkClass { negated : bool; terms : list ClassTerm }.

Inductive Atom :=
| Literal (run : bytes)
| Any
| Star
| Class_ (c : CharacterClass).

Record ComponentGlob := mkGlob { atoms : list Atom }.

Inductive Component :=
| Globstar (allow_zero : bool)
| Glob (g : ComponentGlob)
| Never.

Inductive Syntax := Ignore | Override.

#[export] Instance PatternByte_eq_dec : EqDecision PatternByte.
Proof. solve_decision. Defined.
#[export] Instance PosixClass_eq_dec : EqDecision PosixClass.
Proof. solve_decision. Defined.
#[export] Instance ClassTerm_eq_dec : EqDecision ClassTerm.
Proof. solve_decision. Defined.
#[export] Instance ClassMember_eq_dec : EqDecision ClassMember.
Proof. solve_decision. Defined.
#[export] Instance CharacterClass_eq_dec : EqDecision CharacterClass.
Proof. solve_decision. Defined.
#[export] Instance Atom_eq_dec : EqDecision Atom.
Proof. solve_decision. Defined.
#[export] Instance ComponentGlob_eq_dec : EqDecision ComponentGlob.
Proof. solve_decision. Defined.
#[export] Instance Component_eq_dec : EqDecision Component.
Proof. solve_decision. Defined.
#[export] Instance Syntax_eq_dec : EqDecision Syntax.
Proof. solve_decision. Defined.

(** ** Pattern bytes *)

(** [PatternByte::is]: this value with no backslash before it. *)
Definition pb_is (p : PatternByte) (v : u8) : bool :=
  negb (escaped p) && (value p =? v)%N.

(** [bare]: whether [part[at]] is an unescaped [v]. *)
Definition bare (part : list PatternByte) (at_ : nat) (v : u8) : bool :=
  match part !! at_ with Some b => pb_is b v | None => false end.

(** ** Character classes *)

(** [u8::is_ascii_*], over the byte values the standard library names. *)
Definition ascii_upper (b : u8) : bool := in_range 65 90 b.
Definition ascii_lower (b : u8) : bool := in_range 97 122 b.
Definition ascii_digit (b : u8) : bool := in_range 48 57 b.
Definition ascii_alpha (b : u8) : bool := ascii_upper b || ascii_lower b.
Definition ascii_alnum (b : u8) : bool := ascii_alpha b || ascii_digit b.
Definition ascii_graphic (b : u8) : bool := in_range 33 126 b.
Definition ascii_control (b : u8) : bool := in_range 0 31 b || (b =? 127)%N.
Definition ascii_punct (b : u8) : bool :=
  in_range 33 47 b || in_range 58 64 b || in_range 91 96 b || in_range 123 126 b.
Definition ascii_hexdigit (b : u8) : bool :=
  ascii_digit b || in_range 65 70 b || in_range 97 102 b.

(** [PosixClass::matches]. *)
Definition posix_matches (c : PosixClass) (b : u8) : bool :=
  match c with
  | Alnum => ascii_alnum b
  | Alpha => ascii_alpha b
  | Blank => (b =? 32)%N || (b =? 9)%N
  | Cntrl => ascii_control b
  | Digit => ascii_digit b
  | Graph => ascii_graphic b
  | Lower => ascii_lower b
  | Print => ascii_graphic b || (b =? 32)%N
  | Punct => ascii_punct b
  | Space => (b =? 32)%N || (b =? 9)%N || (b =? 10)%N || (b =? 13)%N
  | Upper => ascii_upper b
  | Xdigit => ascii_hexdigit b
  end.

(** The twelve names [PosixClass::parse] knows, as bytes. *)
Definition posix_names : list (bytes * PosixClass) :=
  [ ([97;108;110;117;109]%N, Alnum); ([97;108;112;104;97]%N, Alpha);
    ([98;108;97;110;107]%N, Blank); ([99;110;116;114;108]%N, Cntrl);
    ([100;105;103;105;116]%N, Digit); ([103;114;97;112;104]%N, Graph);
    ([108;111;119;101;114]%N, Lower); ([112;114;105;110;116]%N, Print);
    ([112;117;110;99;116]%N, Punct); ([115;112;97;99;101]%N, Space);
    ([117;112;112;101;114]%N, Upper); ([120;100;105;103;105;116]%N, Xdigit) ].

(** [PosixClass::parse]. *)
Definition posix_parse (name : bytes) : option PosixClass :=
  snd <$> find (fun nc => bool_decide (nc.1 = name)) posix_names.

(** [ClassTerm::matches]. *)
Definition term_matches (t : ClassTerm) (b : u8) : bool :=
  match t with
  | TByte want => (b =? want)%N
  | TRange first last => (first <=? b)%N && (b <=? last)%N
  | TPosix c => posix_matches c b
  end.

(** [CharacterClass::matches]. *)
Definition class_matches (c : CharacterClass) (b : u8) : bool :=
  negb (Bool.eqb (existsb (fun t => term_matches t b) (terms c)) (negated c)).

(** ** Atoms *)

(** [text.starts_with(run)]. *)
Fixpoint starts_with (text run : bytes) {struct run} : bool :=
  match run, text with
  | [], _ => true
  | r :: run', t :: text' => (r =? t)%N && starts_with text' run'
  | _ :: _, [] => false
  end.

(** [Atom::consumes]: how many bytes the atom takes off the front. *)
Definition consumes (a : Atom) (text : bytes) : option nat :=
  match a with
  | Literal run => if starts_with text run then Some (length run) else None
  | Any => match text with [] => None | _ :: _ => Some 1 end
  | Star => None
  | Class_ c =>
      match text with
      | b :: _ => if class_matches c b then Some 1 else None
      | [] => None
      end
  end.

(** [Atom::fixed_width]. *)
Definition fixed_width (a : Atom) : option nat :=
  match a with
  | Literal run => Some (length run)
  | Any | Class_ _ => Some 1
  | Star => None
  end.

(** All byte values, [0..=u8::MAX]. *)
Definition all_bytes : list u8 := N.of_nat <$> seq 0 256.

(** [Atom::has_witness]. *)
Definition atom_has_witness (a : Atom) : bool :=
  match a with
  | Class_ c => existsb (class_matches c) all_bytes
  | _ => true
  end.

(** ** The last-star retry loop *)

(** The second [while] loop of [matches_observed]: step over the stars. *)
Fixpoint skip_stars (rest : list Atom) : list Atom :=
  match rest with
  | Star :: rest' => skip_stars rest'
  | _ => rest
  end.

(** One pass of the first [while] loop of [ComponentGlob::matches_observed],
    then the second loop.  [star] is the code's [(after_star, retry_at)];
    the result is the answer and how often [step] ran. *)
Fixpoint match_loop (fuel : nat) (ats : list Atom) (text : bytes)
    (atom_at text_at : nat) (star : option (nat * nat)) (steps : nat)
    : option (bool * nat) :=
  match fuel with
  | 0 => None
  | S fuel' =>
      if text_at <? length text then
        match ats !! atom_at with
        | Some Star =>
            match_loop fuel' ats text (S atom_at) text_at
              (Some (S atom_at, text_at)) (S steps)
        | other =>
            match a ← other; consumes a (drop text_at text) with
            | Some consumed =>
                match_loop fuel' ats text (S atom_at) (text_at + consumed)
                  star (S steps)
            | None =>
                match star with
                | None => Some (false, S steps)
                | Some (after_star, retry_at) =>
                    if retry_at =? length text then Some (false, S steps)
                    else match_loop fuel' ats text after_star (S retry_at)
                           (Some (after_star, S retry_at)) (S steps)
                end
            end
        end
      else
        Some (match skip_stars (drop atom_at ats) with [] => true | _ :: _ => false end,
              steps)
  end.

(** Enough fuel for any text: see [match_loop_total]. *)
Definition match_fuel (ats : list Atom) (text : bytes) : nat :=
  S ((length text + 2) * (length ats + 1)).

(** [ComponentGlob::matches_observed]: the answer and the steps taken. *)
Definition matches_observed (g : ComponentGlob) (text : bytes) : bool * nat :=
  default (false, 0) (match_loop (match_fuel (atoms g) text) (atoms g) text 0 0 None 0).

(** [ComponentGlob::matches]. *)
Definition glob_matches (g : ComponentGlob) (text : bytes) : bool :=
  fst (matches_observed g text).
#[global] Arguments glob_matches : simpl never.

(** ** Witness components *)

(** [any_glob]: [?*], every non-empty name. *)
Definition any_glob : ComponentGlob := mkGlob [Any; Star].

(** [normalize_star]. *)
Definition normalize_star (g : ComponentGlob) : ComponentGlob :=
  match atoms g with [Star] => any_glob | _ => g end.

(** [Component::matches]. *)
Definition component_matches (c : Component) (text : bytes) : bool :=
  match c with
  | Globstar _ => true
  | Glob g => glob_matches g text
  | Never => false
  end.

(** [Component::has_witness]. *)
Definition component_has_witness (c : Component) : bool :=
  match c with
  | Globstar _ => true
  | Glob g => forallb atom_has_witness (atoms g)
  | Never => false
  end.

(** [ComponentGlob::literal_bytes]. *)
Fixpoint literal_bytes_of (ats : list Atom) : option bytes :=
  match ats with
  | [] => Some []
  | Literal run :: rest => app run <$> literal_bytes_of rest
  | _ :: _ => None
  end.
Definition literal_bytes (g : ComponentGlob) : option bytes := literal_bytes_of (atoms g).

(** ** Compiling a component *)

Definition is_globstar (c : Component) : bool :=
  match c with Globstar _ => true | _ => false end.

(** [class_terms]: joins [a-z] into a range.  [None] when an override
    pattern reverses a range. *)
Fixpoint class_terms (syntax : Syntax) (members : list ClassMember)
    : option (list ClassTerm) :=
  match members with
  | [] => Some []
  | m :: rest =>
      let single :=
        cons (match m with MByte b => TByte (value b) | MPosix c => TPosix c end)
          <$> class_terms syntax rest in
      match m, rest with
      | MByte first, MByte hyphen :: MByte last :: rest' =>
          if pb_is hyphen 45 then
            if (value first <=? value last)%N then
              cons (TRange (value first) (value last)) <$> class_terms syntax rest'
            else
              if bool_decide (syntax = Override) then None
              else cons (TByte (value first)) <$> class_terms syntax rest'
          else single
      | _, _ => single
      end
  end.

(** The inner loop of [compile_class]: the position of the [:] of the [:]]
    that ends a class name. *)
Fixpoint find_name_end (fuel : nat) (part : list PatternByte) (name_end : nat)
    : option nat :=
  match fuel with
  | 0 => None
  | S fuel' =>
      if bare part name_end 58 && bare part (S name_end) 93 then Some name_end
      else
        match part !! S name_end with
        | None => None
        | Some _ => find_name_end fuel' part (S name_end)
        end
  end.

Definition member_byte_term (m : ClassMember) : option ClassTerm :=
  match m with MByte b => Some (TByte (value b)) | MPosix _ => None end.

(** What one run of [compile_class]'s member loop leaves: the loop's [break]
    with its end and members, or the function's own return. *)
Inductive ClassLoop :=
| Broke (end_ : nat) (members : list ClassMember)
| Returned (r : option (CharacterClass * nat)).

(** The member loop of [compile_class].  The outer [None] is out of fuel:
    [class_loop_total] shows that it is never reached. *)
Fixpoint class_loop (fuel : nat) (part : list PatternByte) (syntax : Syntax)
    (neg : bool) (at_ : nat) (members : list ClassMember) : option ClassLoop :=
  match fuel with
  | 0 => None
  | S fuel' =>
      match part !! at_ with
      | None => Some (Returned None)
      | Some byte =>
          if pb_is byte 93 then Some (Broke (S at_) members)
          else if bool_decide (syntax = Ignore) && pb_is byte 91 && bare part (S at_) 58 then
            let name_start := at_ + 2 in
            match find_name_end (length part) part name_start with
            | None => Some (Returned None)
            | Some name_end =>
                if existsb escaped (slice part name_start name_end) then Some (Returned None)
                else
                  let named :=
                    match posix_parse (value <$> slice part name_start name_end) with
                    | None => Some (Returned None)
                    | Some c => class_loop fuel' part syntax neg (name_end + 2)
                                  (members ++ [MPosix c])
                    end in
                  match last members with
                  | Some (MByte hyphen) =>
                      if pb_is hyphen 45 then
                        let members' := removelast members in
                        match members' with
                        | [] => Some (Returned None)
                        | _ => Some (Returned (Some
                                 (mkClass neg (omap member_byte_term members'), name_end + 2)))
                        end
                      else named
                  | _ => named
                  end
            end
          else class_loop fuel' part syntax neg (S at_) (members ++ [MByte byte])
      end
  end.

(** [compile_class]: the class that starts at [start]'s [[] and the position
    after it. *)
Definition compile_class (part : list PatternByte) (start : nat) (syntax : Syntax)
    : option (CharacterClass * nat) :=
  let at0 := S start in
  let neg := bare part at0 33 || bare part at0 94 in
  let at1 := if neg then S at0 else at0 in
  let '(members, at2) :=
    match part !! at1 with
    | Some b => if pb_is b 93 then ([MByte b], S at1) else ([], at1)
    | None => ([], at1)
    end in
  match class_loop (S (length part)) part syntax neg at2 members with
  | Some (Returned r) => r
  | Some (Broke end_ members) =>
      match members with
      | [] => None
      | _ => ts ← class_terms syntax members; Some (mkClass neg ts, end_)
      end
  | None => None
  end.

(** [flush_literal]: the atoms with the pending literal run appended. *)
Definition flush_literal (ats : list Atom) (literal : bytes) : list Atom :=
  match literal with [] => ats | _ => ats ++ [Literal literal] end.

(** The loop of [compile_component].  The outer [None] is out of fuel, the
    inner one the malformed class that makes the component [Never]. *)
Fixpoint component_loop (fuel : nat) (part : list PatternByte) (syntax : Syntax)
    (at_ : nat) (ats : list Atom) (literal : bytes) : option (option (list Atom)) :=
  match fuel with
  | 0 => None
  | S fuel' =>
      match part !! at_ with
      | None => Some (Some (flush_literal ats literal))
      | Some byte =>
          if escaped byte then
            component_loop fuel' part syntax (S at_) ats (literal ++ [value byte])
          else if (value byte =? 42)%N then
            let ats := flush_literal ats literal in
            let ats := if bool_decide (last ats = Some Star) then ats else ats ++ [Star] in
            component_loop fuel' part syntax (S at_) ats []
          else if (value byte =? 63)%N then
            component_loop fuel' part syntax (S at_) (flush_literal ats literal ++ [Any]) []
          else if (value byte =? 91)%N then
            let ats := flush_literal ats literal in
            match compile_class part at_ syntax with
            | None => Some None
            | Some (c, next) => component_loop fuel' part syntax next (ats ++ [Class_ c]) []
            end
          else component_loop fuel' part syntax (S at_) ats (literal ++ [value byte])
      end
  end.

(** [compile_component]. *)
Definition compile_component (part : list PatternByte) (anchored : bool) (syntax : Syntax)
    : Component :=
  if anchored && (2 <=? length part) && forallb (fun b => pb_is b 42) part then
    Globstar true
  else
    match part with
    | [] => Never
    | _ =>
        match component_loop (S (length part)) part syntax 0 [] [] with
        | Some (Some ats) => Glob (mkGlob ats)
        | _ => Never
        end
    end.

(** ** Specification: what a component matches *)

(** The names a sequence of atoms matches, with no loop and no positions. *)
Inductive atoms_match : list Atom -> bytes -> Prop :=
| am_nil : atoms_match [] []
| am_literal run rest t :
    atoms_match rest t -> atoms_match (Literal run :: rest) (run ++ t)
| am_any b rest t : atoms_match rest t -> atoms_match (Any :: rest) (b :: t)
| am_class c b rest t :
    class_matches c b = true -> atoms_match rest t ->
    atoms_match (Class_ c :: rest) (b :: t)
| am_star taken rest t :
    atoms_match rest t -> atoms_match (Star :: rest) (taken ++ t).

(** The compiler never emits an empty literal run. *)
Definition atom_wf (a : Atom) : Prop := a <> Literal [].
Definition glob_wf (g : ComponentGlob) : Prop := Forall atom_wf (atoms g).
Definition component_wf (c : Component) : Prop :=
  match c with Glob g => glob_wf g | _ => True end.

(** Atoms without a star consume a fixed number of bytes. *)
Fixpoint total_width (ats : list Atom) : option nat :=
  match ats with
  | [] => Some 0
  | a :: rest => w ← fixed_width a; v ← total_width rest; Some (w + v)
  end.

(** ** Termination of the retry loop *)

(** The loop's potential: retries left, then atoms left. *)
Definition potential (ats : list Atom) (text : bytes) (atom_at : nat)
    (star : option (nat * nat)) : nat :=
  (match star with None => S (length text) | Some (_, r) => length text - r end)
    * S (length ats) + (length ats - atom_at).

Lemma match_loop_total fuel ats text atom_at text_at star steps :
  atom_at <= length ats ->
  (forall after r, star = Some (after, r) -> after <= length ats /\ r <= text_at) ->
  potential ats text atom_at star < fuel ->
  exists ok n, match_loop fuel ats text atom_at text_at star steps = Some (ok, n) /\
    n <= steps + S (potential ats text atom_at star).
Proof.
  revert atom_at text_at star steps.
  induction fuel as [|fuel IH]; intros atom_at text_at star steps Ha Hs Hf; [lia|].
  simpl. destruct (Nat.ltb_spec text_at (length text)) as [Hlt|]; [|eexists _, _; split; [done|lia]].
  assert (Hretry : exists ok n,
    match star with
    | None => Some (false, S steps)
    | Some (after_star, retry_at) =>
        if retry_at =? length text then Some (false, S steps)
        else match_loop fuel ats text after_star (S retry_at)
               (Some (after_star, S retry_at)) (S steps)
    end = Some (ok, n) /\ n <= steps + S (potential ats text atom_at star)).
  { destruct star as [[after r]|]; [|eexists _, _; split; [done|lia]].
    destruct (Hs after r eq_refl) as [Hal Hr].
    destruct (Nat.eqb_spec r (length text)); [eexists _, _; split; [done|lia]|].
    assert (Hp : potential ats text after (Some (after, S r)) <
                 potential ats text atom_at (Some (after, r))).
    { unfold potential. replace (length text - r) with (S (length text - S r)) by lia.
      rewrite Nat.mul_succ_l. lia. }
    edestruct (IH after (S r) (Some (after, S r)) (S steps)) as (ok & n' & He & Hn);
      [lia| |lia|eexists _, _; split; [exact He|lia]].
    intros ?? [= -> ->]. lia. }
  destruct (ats !! atom_at) as [a|] eqn:Hat; [|exact Hretry].
  apply lookup_lt_Some in Hat as Hlen.
  assert (Hstep : forall star' text_at',
    (forall after r, star' = Some (after, r) -> after <= length ats /\ r <= text_at') ->
    potential ats text (S atom_at) star' < potential ats text atom_at star ->
    exists ok n, match_loop fuel ats text (S atom_at) text_at' star' (S steps) = Some (ok, n) /\
      n <= steps + S (potential ats text atom_at star)).
  { intros star' text_at' Hs' Hp.
    edestruct (IH (S atom_at) text_at' star' (S steps)) as (ok & n' & He & Hn);
      [lia|done|lia|eexists _, _; split; [exact He|lia]]. }
  assert (Hcons : exists ok n,
    match consumes a (drop text_at text) with
    | Some consumed => match_loop fuel ats text (S atom_at) (text_at + consumed) star (S steps)
    | None =>
      match star with
      | None => Some (false, S steps)
      | Some (after_star, retry_at) =>
          if retry_at =? length text then Some (false, S steps)
          else match_loop fuel ats text after_star (S retry_at)
                 (Some (after_star, S retry_at)) (S steps)
      end
    end = Some (ok, n) /\ n <= steps + S (potential ats text atom_at star)).
  { destruct (consumes a (drop text_at text)) as [c|]; [|exact Hretry].
    apply Hstep; [intros ?? ->; edestruct Hs; [done|lia]|]. unfold potential. lia. }
  destruct a; try exact Hcons.
  apply Hstep; [intros ?? [= <- <-]; lia|].
  unfold potential. destruct star as [[after r]|]; [|nia].
  destruct (Hs after r eq_refl). nia.
Qed.

(** ** Correctness of the retry loop *)

Lemma starts_with_spec text run : starts_with text run = true <-> exists t, text = run ++ t.
Proof.
  revert text; induction run as [|r run IH]; intros [|t text]; simpl; split;
    try done; try (intros [? [=]]); eauto.
  - intros [Hr%N.eqb_eq Ht]%andb_prop. apply IH in Ht as [u ->]. subst. by exists u.
  - subst. rewrite N.eqb_refl. apply IH. eauto.
Qed.

Lemma consumes_width a text c :
  consumes a text = Some c -> fixed_width a = Some c /\ c <= length text.
Proof.
  destruct a; simpl; intros H; try done.
  - destruct (starts_with text run) eqn:Hs; [|done]. injection H as <-. split; [done|].
    apply starts_with_spec in Hs as [t ->]. rewrite length_app. lia.
  - destruct text; [done|]. injection H as <-. simpl. split; [done|lia].
  - destruct text; [done|]. destruct class_matches; [|done]. injection H as <-.
    simpl. split; [done|lia].
Qed.

Lemma atoms_match_cons a R text :
  a <> Star ->
  (atoms_match (a :: R) text <->
   exists c, consumes a text = Some c /\ atoms_match R (drop c text)).
Proof.
  intros Hne. split.
  - inversion 1; subst; simpl; try done.
    + assert (starts_with (run ++ t) run = true) as -> by (apply starts_with_spec; eauto).
      eexists; split; [done|]. by rewrite drop_app_length.
    + eexists; split; [done|]. by rewrite ?drop_0.
    + rewrite H2. eexists; split; [done|]. by rewrite ?drop_0.
  - intros (c & Hc & HR). destruct a; simpl in Hc; try done.
    + destruct (starts_with text run) eqn:Hs; [|done]. injection Hc as <-.
      apply starts_with_spec in Hs as [t ->]. rewrite drop_app_length in HR. by constructor.
    + destruct text; [done|]. injection Hc as <-. rewrite ?drop_0 in HR. by constructor.
    + destruct text; [done|]. destruct class_matches eqn:?; [|done]. injection Hc as <-.
      rewrite ?drop_0 in HR. by constructor.
Qed.

Lemma atoms_match_star R text :
  atoms_match (Star :: R) text <->
  exists k, k <= length text /\ atoms_match R (drop k text).
Proof.
  split.
  - inversion 1; subst. exists (length taken). rewrite length_app, drop_app_length. split; [lia|done].
  - intros (k & Hk & HR). rewrite <- (take_drop k text). by constructor.
Qed.

Lemma atoms_match_star_absorb R text j k :
  j <= k -> atoms_match (Star :: R) (drop k text) -> atoms_match (Star :: R) (drop j text).
Proof.
  intros Hjk. rewrite !atoms_match_star. intros (i & Hi & HR).
  rewrite length_drop in Hi. rewrite drop_drop in HR.
  destruct (decide (k + i <= length text)).
  - exists (k + i - j). rewrite length_drop, drop_drop. split; [lia|].
    by replace (j + (k + i - j)) with (k + i) by lia.
  - exists (length text - j). rewrite length_drop, drop_drop. split; [lia|].
    rewrite drop_ge in HR by lia. by rewrite drop_ge by lia.
Qed.

Lemma atoms_match_fixed A R w text :
  total_width A = Some w -> atoms_match (A ++ R) text ->
  w <= length text /\ atoms_match R (drop w text).
Proof.
  revert w text; induction A as [|a A IH]; intros w text Hw Hm; simpl in *.
  - injection Hw as <-. split; [lia|]. by rewrite ?drop_0.
  - destruct (fixed_width a) as [wa|] eqn:Hfa; simpl in Hw; [|done].
    destruct (total_width A) as [wr|] eqn:Hfr; simpl in Hw; [|done]. injection Hw as <-.
    apply atoms_match_cons in Hm as (c & Hc & Hm); [|by intros ->].
    apply consumes_width in Hc as [Hfc Hlen]. rewrite Hfa in Hfc. injection Hfc as ->.
    destruct (IH wr (drop c text) eq_refl Hm) as [Hl HR].
    rewrite length_drop in Hl. rewrite drop_drop in HR. split; [lia|done].
Qed.

Lemma total_width_snoc A a w v :
  total_width A = Some w -> fixed_width a = Some v -> total_width (A ++ [a]) = Some (w + v).
Proof.
  revert w; induction A as [|b A IH]; intros w; simpl.
  - intros [= <-] ->. simpl. f_equal. lia.
  - destruct (fixed_width b) as [wb|]; [|done]. destruct (total_width A) as [wr|]; [|done].
    simpl. intros [= <-] Hv. rewrite (IH wr eq_refl Hv). simpl. f_equal. lia.
Qed.

(** At the end of the text only stars may remain. *)
Lemma skip_stars_spec ats :
  Forall atom_wf ats ->
  ((match skip_stars ats with [] => true | _ :: _ => false end) = true <-> atoms_match ats []).
Proof.
  induction 1 as [|a ats Ha Hats IH]; simpl.
  - split; [constructor|done].
  - destruct a; simpl; try (split; [done|by inversion 1]).
    + rewrite atoms_match_cons by done. destruct run; [by destruct Ha|].
      split; [done|by intros (? & ? & _)].
    + rewrite IH, atoms_match_star. split; [intros H; exists 0; split; [lia|done]|].
      intros (k & Hk & H). by rewrite drop_nil in H.
Qed.

(** What the loop's state says about the text still to match. *)
Definition loop_goal (ats : list Atom) (text : bytes) (atom_at text_at : nat)
    (star : option (nat * nat)) : Prop :=
  atoms_match (drop atom_at ats) (drop text_at text) \/
  match star with
  | None => False
  | Some (after, r) =>
      exists k, r < k <= length text /\ atoms_match (drop after ats) (drop k text)
  end.

(** The atoms since the last star have consumed exactly the text since the
    retry position. *)
Definition loop_inv (ats : list Atom) (text : bytes) (atom_at text_at : nat)
    (star : option (nat * nat)) : Prop :=
  atom_at <= length ats /\ text_at <= length text /\
  match star with
  | None => True
  | Some (after, r) =>
      exists B w, drop after ats = B ++ drop atom_at ats /\ after <= atom_at /\
        total_width B = Some w /\ text_at = r + w
  end.

(** A retry further on must first consume the same atoms. *)
Lemma loop_goal_later ats text atom_at text_at after r k :
  loop_inv ats text atom_at text_at (Some (after, r)) ->
  atoms_match (drop after ats) (drop k text) -> r < k <= length text ->
  exists j, text_at < j <= length text /\ atoms_match (drop atom_at ats) (drop j text).
Proof.
  intros (_ & _ & B & w & HB & _ & Hw & ->) Hm Hk. rewrite HB in Hm.
  destruct (atoms_match_fixed _ _ _ _ Hw Hm) as [Hl HR].
  rewrite length_drop in Hl. rewrite drop_drop in HR.
  exists (k + w). split; [lia|done].
Qed.

Lemma loop_inv_fresh ats text atom_at text_at :
  atom_at <= length ats -> text_at <= length text ->
  loop_inv ats text atom_at text_at (Some (atom_at, text_at)).
Proof.
  intros Ha Ht. split; [done|split; [done|]]. exists [], 0.
  repeat split; [done|lia].
Qed.

Lemma atoms_match_nil t : atoms_match [] t -> t = [].
Proof. by inversion 1. Qed.

(** Reaching a star forgets the earlier one: it can absorb any later retry. *)
Lemma loop_goal_star ats text atom_at text_at star :
  ats !! atom_at = Some Star -> loop_inv ats text atom_at text_at star ->
  loop_goal ats text (S atom_at) text_at (Some (S atom_at, text_at)) <->
  loop_goal ats text atom_at text_at star.
Proof.
  intros Hat Hinv. pose proof (drop_S _ _ _ Hat) as Hdrop.
  assert (Hmain : loop_goal ats text (S atom_at) text_at (Some (S atom_at, text_at)) <->
                  atoms_match (Star :: drop (S atom_at) ats) (drop text_at text)).
  { destruct Hinv as (_ & Hle & _).
    unfold loop_goal. rewrite atoms_match_star, length_drop. split.
    - intros [Hm|(k & Hk & Hm)].
      + exists 0. rewrite drop_drop, Nat.add_0_r. split; [lia|done].
      + exists (k - text_at). rewrite drop_drop. split; [lia|].
        by replace (text_at + (k - text_at)) with k by lia.
    - intros (k & Hk & Hm). rewrite drop_drop in Hm. destruct k as [|k].
      + left. by rewrite Nat.add_0_r in Hm.
      + right. eexists. split; [|exact Hm]. lia. }
  rewrite Hmain. unfold loop_goal. rewrite Hdrop.
  split; [by left|]. intros [|Hm]; [done|].
  destruct star as [[after r]|]; [|done]. destruct Hm as (k & Hk & Hm).
  destruct (loop_goal_later _ _ _ _ _ _ _ Hinv Hm Hk) as (j & Hj & Hmj).
  rewrite Hdrop in Hmj. eapply atoms_match_star_absorb; [|exact Hmj]. lia.
Qed.

(** Consuming an atom keeps the goal and the invariant. *)
Lemma loop_goal_consume ats text atom_at text_at star a c :
  ats !! atom_at = Some a -> consumes a (drop text_at text) = Some c ->
  loop_inv ats text atom_at text_at star ->
  loop_inv ats text (S atom_at) (text_at + c) star /\
  (loop_goal ats text (S atom_at) (text_at + c) star <->
   loop_goal ats text atom_at text_at star).
Proof.
  intros Hat Hc (Hal & Htl & Hst).
  assert (Hns : a <> Star) by (by intros ->).
  pose proof (drop_S _ _ _ Hat) as Hdrop. apply lookup_lt_Some in Hat.
  pose proof (consumes_width _ _ _ Hc) as [Hfw Hcl]. rewrite length_drop in Hcl. split.
  - split; [lia|split; [lia|]]. destruct star as [[after r]|]; [|done].
    destruct Hst as (B & w & HB & Hle & Hw & ->).
    exists (B ++ [a]), (w + c). rewrite <- app_assoc. simpl. rewrite <- Hdrop.
    repeat split; [done|lia|by apply total_width_snoc|lia].
  - unfold loop_goal. rewrite Hdrop, atoms_match_cons by done. rewrite Hc, <- drop_drop.
    split; (intros [Hm|Hm]; [left|by right]); [by eauto|by destruct Hm as (? & [= <-] & ?)].
Qed.

(** A failed attempt moves the retry position on by one byte. *)
Lemma loop_goal_retry ats text atom_at text_at after r :
  loop_inv ats text atom_at text_at (Some (after, r)) -> text_at < length text ->
  ~ atoms_match (drop atom_at ats) (drop text_at text) ->
  loop_inv ats text after (S r) (Some (after, S r)) /\
  (loop_goal ats text after (S r) (Some (after, S r)) <->
   loop_goal ats text atom_at text_at (Some (after, r))).
Proof.
  intros (Hal & Htl & B & w & HB & Hle & Hw & Htw) Hlt Hno.
  split; [apply loop_inv_fresh; lia|]. unfold loop_goal. split.
  - intros [Hm|(k & Hk & Hm)]; right; [exists (S r)|exists k]; split; try done; lia.
  - intros [|(k & Hk & Hm)]; [done|]. destruct (decide (k = S r)) as [->|]; [by left|].
    right. exists k. split; [lia|done].
Qed.

(** With the text used up only the atoms left can decide. *)
Lemma loop_goal_end ats text atom_at text_at star :
  Forall atom_wf ats -> loop_inv ats text atom_at text_at star -> length text <= text_at ->
  (match skip_stars (drop atom_at ats) with [] => true | _ :: _ => false end) = true <->
  loop_goal ats text atom_at text_at star.
Proof.
  intros Hwf Hinv Hge. rewrite skip_stars_spec by (by apply Forall_drop).
  unfold loop_goal. rewrite (drop_ge text text_at) by lia.
  split; [by left|]. intros [|H]; [done|].
  destruct star as [[after r]|]; [|done]. destruct H as (k & Hk & Hm).
  destruct (loop_goal_later _ _ _ _ _ _ _ Hinv Hm Hk) as (? & ? & _). lia.
Qed.

Lemma match_loop_correct fuel ats text atom_at text_at star steps ok n :
  Forall atom_wf ats ->
  loop_inv ats text atom_at text_at star ->
  match_loop fuel ats text atom_at text_at star steps = Some (ok, n) ->
  ok = true <-> loop_goal ats text atom_at text_at star.
Proof.
  intros Hwf. revert atom_at text_at star steps.
  induction fuel as [|fuel IH]; intros atom_at text_at star steps Hinv He; [done|].
  simpl in He. destruct (Nat.ltb_spec text_at (length text)) as [Hlt|Hge]; last first.
  { injection He as <- <-. by apply loop_goal_end. }
  assert (Hretry : ~ atoms_match (drop atom_at ats) (drop text_at text) ->
    match star with
    | None => Some (false, S steps)
    | Some (after_star, retry_at) =>
        if retry_at =? length text then Some (false, S steps)
        else match_loop fuel ats text after_star (S retry_at)
               (Some (after_star, S retry_at)) (S steps)
    end = Some (ok, n) ->
    ok = true <-> loop_goal ats text atom_at text_at star).
  { intros Hno Hr. destruct star as [[after r]|].
    2:{ injection Hr as <- <-. unfold loop_goal. split; [done|tauto]. }
    destruct (Nat.eqb_spec r (length text)) as [->|].
    { destruct Hinv as (_ & _ & ? & ? & _ & _ & _ & ?). lia. }
    destruct (loop_goal_retry _ _ _ _ _ _ Hinv Hlt Hno) as [Hinv' <-]. by eapply IH. }
  destruct (ats !! atom_at) as [a|] eqn:Hat; last first.
  { apply Hretry; [|done]. apply lookup_ge_None in Hat. rewrite (drop_ge ats) by lia.
    intros Hnil%atoms_match_nil%(f_equal length). rewrite length_drop in Hnil. simpl in Hnil. lia. }
  destruct (decide (a = Star)) as [->|Hns].
  { rewrite <- loop_goal_star by done. eapply IH; [|exact He].
    apply lookup_lt_Some in Hat. apply loop_inv_fresh; lia. }
  destruct (consumes a (drop text_at text)) as [c|] eqn:Hc.
  - destruct (loop_goal_consume _ _ _ _ _ _ _ Hat Hc Hinv) as [Hinv' <-].
    apply (IH _ _ _ (S steps)); [done|].
    by destruct a; simpl in *; simplify_eq; rewrite ?Hc in He.
  - apply Hretry.
    + rewrite (drop_S _ _ _ Hat), atoms_match_cons by done. intros (? & ? & _). congruence.
    + by destruct a; simpl in *; simplify_eq; rewrite ?Hc in He.
Qed.

Lemma matches_observed_total g text :
  exists ok n, match_loop (match_fuel (atoms g) text) (atoms g) text 0 0 None 0 = Some (ok, n) /\
    matches_observed g text = (ok, n) /\ n <= (length text + 2) * (length (atoms g) + 1).
Proof.
  destruct (match_loop_total (match_fuel (atoms g) text) (atoms g) text 0 0 None 0)
    as (ok & n & He & Hn); [lia|done|unfold potential, match_fuel; nia|].
  exists ok, n. split; [done|]. split; [by unfold matches_observed; rewrite He|].
  unfold potential in Hn. nia.
Qed.

Lemma glob_matches_spec g text :
  glob_wf g -> glob_matches g text = true <-> atoms_match (atoms g) text.
Proof.
  intros Hwf. destruct (matches_observed_total g text) as (ok & n & He & Hm & _).
  unfold glob_matches. rewrite Hm. simpl.
  apply match_loop_correct in He as ->; [|done|split; [lia|split; [lia|done]]].
  unfold loop_goal. rewrite !drop_0. tauto.
Qed.

(** ** Specification: what a pattern's bytes match *)

(** A byte with no glob meaning: escaped, or none of [*], [?] and [[]. *)
Definition plain (b : PatternByte) : bool :=
  escaped b || negb ((value b =? 42) || (value b =? 63) || (value b =? 91))%N.

(** The names the pattern bytes from position [at_] on match, read straight
    off the pattern: no atoms, no literal runs, no merged stars. *)
Inductive part_match (part : list PatternByte) (syntax : Syntax) : nat -> bytes -> Prop :=
| pm_end at_ : part !! at_ = None -> part_match part syntax at_ []
| pm_plain at_ b t :
    part !! at_ = Some b -> plain b = true -> part_match part syntax (S at_) t ->
    part_match part syntax at_ (value b :: t)
| pm_star at_ b taken t :
    part !! at_ = Some b -> pb_is b 42 = true -> part_match part syntax (S at_) t ->
    part_match part syntax at_ (taken ++ t)
| pm_any at_ b x t :
    part !! at_ = Some b -> pb_is b 63 = true -> part_match part syntax (S at_) t ->
    part_match part syntax at_ (x :: t)
| pm_class at_ b c next x t :
    part !! at_ = Some b -> pb_is b 91 = true ->
    compile_class part at_ syntax = Some (c, next) -> class_matches c x = true ->
    part_match part syntax next t -> part_match part syntax at_ (x :: t).

(** ** Termination and bounds of the compiler *)

Lemma bare_lookup part at_ v : bare part at_ v = true -> at_ < length part.
Proof. unfold bare. destruct (part !! at_) eqn:H; [|done]. intros _. by apply lookup_lt_Some in H. Qed.

Lemma find_name_end_bounds fuel part from e :
  find_name_end fuel part from = Some e -> from <= e /\ S e < length part.
Proof.
  revert from; induction fuel as [|fuel IH]; intros from; simpl; [done|].
  destruct (bare part from 58 && bare part (S from) 93) eqn:Hb.
  - intros [= <-]. apply andb_prop in Hb as [_ Hb]. apply bare_lookup in Hb. lia.
  - destruct (part !! S from); [|done]. intros H%IH. lia.
Qed.

Lemma find_name_end_fuel f1 f2 part from :
  length part - from < f1 -> length part - from < f2 ->
  find_name_end f1 part from = find_name_end f2 part from.
Proof.
  revert f2 from; induction f1 as [|f1 IH]; intros [|f2] from H1 H2; try lia. simpl.
  destruct (bare part from 58 && bare part (S from) 93); [done|].
  destruct (part !! S from) eqn:Hl; [|done]. apply lookup_lt_Some in Hl. apply IH; lia.
Qed.

(** What a run of the member loop may leave. *)
Definition class_loop_post (part : list PatternByte) (neg : bool) (at_ : nat) (r : ClassLoop)
    : Prop :=
  match r with
  | Broke end_ _ => at_ < end_ <= length part
  | Returned (Some (c, next)) => at_ < next <= length part /\ negated c = neg
  | Returned None => True
  end.

Lemma class_loop_post_mono part neg at_ at_' r :
  at_ <= at_' -> class_loop_post part neg at_' r -> class_loop_post part neg at_ r.
Proof.
  intros Hle. destruct r as [|[[c next]|]]; simpl; [lia| |done].
  intros [? ?]. split; [lia|done].
Qed.

Lemma class_loop_total fuel part syntax neg at_ members :
  length part - at_ < fuel ->
  exists r, class_loop fuel part syntax neg at_ members = Some r /\
    class_loop_post part neg at_ r.
Proof.
  revert at_ members; induction fuel as [|fuel IH]; intros at_ members Hf; [lia|]. simpl.
  destruct (part !! at_) as [b|] eqn:Hb; [|by eexists].
  apply lookup_lt_Some in Hb.
  assert (Hnext : forall next ms, at_ < next ->
    exists r, class_loop fuel part syntax neg next ms = Some r /\ class_loop_post part neg at_ r).
  { intros next ms Hn. destruct (IH next ms) as (r & -> & Hr); [lia|]. exists r. split; [done|].
    eapply class_loop_post_mono; [|exact Hr]. lia. }
  destruct (pb_is b 93); [eexists; split; [done|]; simpl; lia|].
  destruct (_ && bare part (S at_) 58); [|apply Hnext; lia].
  destruct (find_name_end _ part _) as [e|] eqn:He; [|by eexists].
  apply find_name_end_bounds in He.
  destruct (existsb _ _); [by eexists|].
  destruct (last members) as [[hy|]|]; simpl; try destruct (pb_is hy 45);
    try destruct (removelast members); try (destruct (posix_parse _); [apply Hnext; lia|]);
    eexists; (split; [done|]); simpl; try done; split; (done || lia).
Qed.

Lemma compile_class_bounds part start syntax c next :
  compile_class part start syntax = Some (c, next) -> start < next <= length part.
Proof.
  unfold compile_class. intros H.
  set (at1 := if bare part (S start) 33 || bare part (S start) 94 then S (S start) else S start) in *.
  destruct (match part !! at1 with Some b => if pb_is b 93 then ([MByte b], S at1) else ([], at1)
            | None => ([], at1) end) as [ms at2] eqn:E.
  assert (start < at2).
  { assert (start < at1) by (unfold at1; destruct (_ || _); lia).
    destruct (part !! at1) as [b|]; [destruct (pb_is b 93)|]; injection E as <- <-; lia. }
  destruct (class_loop_total (S (length part)) part syntax
    (bare part (S start) 33 || bare part (S start) 94) at2 ms) as (r & Hr & Hpost); [lia|].
  rewrite Hr in H. destruct r as [end_ ms'|[[]|]]; simpl in *; try done.
  - destruct ms'; [done|]. destruct (class_terms _ _); simpl in H; [|done].
    injection H as <- <-. lia.
  - injection H as <- <-. lia.
Qed.

Lemma component_loop_total fuel part syntax at_ ats literal :
  length part - at_ < fuel ->
  is_Some (component_loop fuel part syntax at_ ats literal).
Proof.
  revert at_ ats literal; induction fuel as [|fuel IH]; intros at_ ats literal Hf; [lia|]. simpl.
  destruct (part !! at_) as [b|] eqn:Hb; [|done]. apply lookup_lt_Some in Hb.
  destruct (escaped b); [apply IH; lia|].
  destruct (value b =? 42)%N; [apply IH; lia|].
  destruct (value b =? 63)%N; [apply IH; lia|].
  destruct (value b =? 91)%N; [|apply IH; lia].
  destruct (compile_class part at_ syntax) as [[c next]|] eqn:Hc; [|done].
  apply compile_class_bounds in Hc. apply IH; lia.
Qed.

(** ** Correctness of the compiler *)

Lemma atoms_match_app A B text :
  atoms_match (A ++ B) text <->
  exists t1 t2, text = t1 ++ t2 /\ atoms_match A t1 /\ atoms_match B t2.
Proof.
  revert text; induction A as [|a A IH]; intros text; simpl.
  - split; [intros H; exists [], text; repeat split; [constructor|done]|].
    by intros (? & ? & -> & ->%atoms_match_nil & ?).
  - split.
    + inversion 1 as [|run ? t Ht| b ? t Ht|c b ? t Hb Ht|taken ? t Ht]; subst;
        apply IH in Ht as (t1 & t2 & -> & H1 & H2).
      * exists (run ++ t1), t2. rewrite app_assoc. repeat split; [by constructor|done].
      * exists (b :: t1), t2. repeat split; [by constructor|done].
      * exists (b :: t1), t2. repeat split; [by constructor|done].
      * exists (taken ++ t1), t2. rewrite app_assoc. repeat split; [by constructor|done].
    + intros (t1 & t2 & -> & H1 & H2).
      inversion H1; subst; rewrite <- ?app_assoc; simpl; constructor; try done; apply IH; eauto.
Qed.

Lemma flush_literal_match ats literal t :
  atoms_match (flush_literal ats literal) t <->
  exists t1, t = t1 ++ literal /\ atoms_match ats t1.
Proof.
  unfold flush_literal. destruct literal as [|l literal].
  - split; [intros H; exists t; by rewrite app_nil_r|]. intros (? & -> & ?). by rewrite app_nil_r.
  - rewrite atoms_match_app. split.
    + intros (t1 & t2 & -> & H1 & H2). exists t1. split; [|done].
      inversion H2 as [|? ? t Ht| | |]; subst. apply atoms_match_nil in Ht as ->. by rewrite app_nil_r.
    + intros (t1 & -> & H1). exists t1, (l :: literal). repeat split; [done|].
      pose proof (am_literal (l :: literal) [] [] am_nil) as H. by rewrite app_nil_r in H.
Qed.

Lemma snoc_atom_match ats a t :
  a <> Star ->
  (atoms_match (ats ++ [a]) t <->
   exists t1 t2, t = t1 ++ t2 /\ atoms_match ats t1 /\ consumes a t2 = Some (length t2)).
Proof.
  intros Hs. rewrite atoms_match_app. apply exist_proper; intros t1. apply exist_proper; intros t2.
  rewrite atoms_match_cons by done. split.
  - intros (-> & H1 & c & Hc & Hn%atoms_match_nil). repeat split; try done. rewrite Hc. f_equal.
    apply consumes_width in Hc as [_ Hc]. apply (f_equal length) in Hn.
    rewrite length_drop in Hn. simpl in Hn. lia.
  - intros (-> & H1 & Hc). repeat split; try done. exists (length t2). split; [done|].
    rewrite drop_all. constructor.
Qed.

(** Pushing a star only when the last atom is none. *)
Lemma push_star_match ats t :
  atoms_match (if bool_decide (last ats = Some Star) then ats else ats ++ [Star]) t <->
  exists t1 t2, t = t1 ++ t2 /\ atoms_match ats t1.
Proof.
  assert (Hsn : forall A, atoms_match (A ++ [Star]) t <->
    exists t1 t2, t = t1 ++ t2 /\ atoms_match A t1).
  { intros A. rewrite atoms_match_app. apply exist_proper; intros t1.
    apply exist_proper; intros t2. split; [by intros (-> & ? & _)|].
    intros (-> & ?). repeat split; [done|].
    pose proof (am_star t2 [] [] am_nil) as H'. by rewrite app_nil_r in H'. }
  case_bool_decide as Hl; [|apply Hsn].
  apply last_Some in Hl as [ats' ->]. rewrite Hsn. split.
  - intros (t1 & t2 & -> & H). exists t1, t2. split; [done|].
    apply atoms_match_app. exists t1, []. rewrite app_nil_r. repeat split; [done|].
    apply (am_star [] [] []). constructor.
  - intros (t1 & t2 & -> & (u1 & u2 & -> & H & _)%atoms_match_app).
    exists u1, (u2 ++ t2). by rewrite app_assoc.
Qed.

(** The text is what the finished atoms and the pending literal match,
    then what the rest of the pattern does. *)
Definition loop_matches (part : list PatternByte) (syntax : Syntax) (at_ : nat)
    (ats : list Atom) (literal t : bytes) : Prop :=
  exists t1 t2, t = t1 ++ literal ++ t2 /\ atoms_match ats t1 /\ part_match part syntax at_ t2.

(** Case analysis of [part_match] at a known byte. *)
Lemma part_match_at part syntax at_ b t :
  part !! at_ = Some b ->
  part_match part syntax at_ t <->
  if escaped b then exists t', t = value b :: t' /\ part_match part syntax (S at_) t'
  else if (value b =? 42)%N then exists u t', t = u ++ t' /\ part_match part syntax (S at_) t'
  else if (value b =? 63)%N then exists x t', t = x :: t' /\ part_match part syntax (S at_) t'
  else if (value b =? 91)%N then
    exists c next x t', compile_class part at_ syntax = Some (c, next) /\ t = x :: t' /\
      class_matches c x = true /\ part_match part syntax next t'
  else exists t', t = value b :: t' /\ part_match part syntax (S at_) t'.
Proof.
  intros Hb. split.
  - inversion 1 as [? He|? b' t' He Hp|? b' u t' He Hp|? b' x t' He Hp|? b' c nx x t' He Hp];
      subst; rewrite Hb in He; simplify_eq; unfold plain, pb_is in *;
      destruct (escaped _), (N.eqb_spec (value b') 42), (N.eqb_spec (value b') 63),
        (N.eqb_spec (value b') 91); simpl in *; try done; try lia; eauto 10.
  - intros H. destruct (escaped b) eqn:He; [|destruct (N.eqb_spec (value b) 42);
      [|destruct (N.eqb_spec (value b) 63); [|destruct (N.eqb_spec (value b) 91)]]].
    + destruct H as (t' & -> & H). eapply pm_plain; [done| |done]. unfold plain. by rewrite He.
    + destruct H as (u & t' & -> & H). eapply pm_star; [done| |done].
      unfold pb_is. rewrite He. simpl. by apply N.eqb_eq.
    + destruct H as (x & t' & -> & H). eapply pm_any; [done| |done].
      unfold pb_is. rewrite He. simpl. by apply N.eqb_eq.
    + destruct H as (c & nx & x & t' & Hc & -> & Hx & H). eapply pm_class; try done.
      unfold pb_is. rewrite He. simpl. by apply N.eqb_eq.
    + destruct H as (t' & -> & H). eapply pm_plain; [done| |done]. unfold plain.
      apply N.eqb_neq in n, n0, n1. by rewrite n, n0, n1, orb_true_r.
Qed.

(** A pending literal joins the bytes after it. *)
Lemma loop_matches_push part syntax at_ ats literal b t :
  (exists t1 t2, t = t1 ++ literal ++ t2 /\ atoms_match ats t1 /\
     exists t', t2 = b :: t' /\ part_match part syntax (S at_) t') <->
  loop_matches part syntax (S at_) ats (literal ++ [b]) t.
Proof.
  split.
  - intros (t1 & t2 & -> & H1 & t' & -> & Hp). exists t1, t'. by rewrite <- app_assoc.
  - intros (t1 & t' & -> & H1 & Hp). exists t1, (b :: t'). rewrite <- app_assoc. eauto 10.
Qed.

(** An atom other than a star that takes one byte. *)
Lemma loop_matches_one part syntax next ats literal a t :
  a <> Star ->
  (forall t', consumes a t' = Some (length t') <-> exists x, t' = [x] /\ consumes a [x] = Some 1) ->
  (exists t1 t2, t = t1 ++ literal ++ t2 /\ atoms_match ats t1 /\
     exists x t', t2 = x :: t' /\ consumes a [x] = Some 1 /\ part_match part syntax next t') <->
  loop_matches part syntax next (flush_literal ats literal ++ [a]) [] t.
Proof.
  intros Hs Ha. unfold loop_matches. split.
  - intros (t1 & t2 & -> & H1 & x & t' & -> & Hx & Hp).
    exists ((t1 ++ literal) ++ [x]), t'. split; [by rewrite <- !app_assoc|]. split; [|done].
    apply snoc_atom_match; [done|]. exists (t1 ++ literal), [x]. split; [done|].
    split; [apply flush_literal_match; eauto|]. apply Ha. eauto.
  - intros (u & t' & -> & (t1 & t2 & -> & H1 & Hx)%snoc_atom_match & Hp); [|done].
    apply flush_literal_match in H1 as (t0 & -> & H1).
    apply Ha in Hx as (x & -> & Hx). exists t0, (x :: t').
    simpl. rewrite <- !app_assoc. simpl. eauto 10.
Qed.

Lemma loop_matches_star part syntax next ats literal t :
  let ats' := flush_literal ats literal in
  (exists t1 t2, t = t1 ++ literal ++ t2 /\ atoms_match ats t1 /\
     exists u t', t2 = u ++ t' /\ part_match part syntax next t') <->
  loop_matches part syntax next
    (if bool_decide (last ats' = Some Star) then ats' else ats' ++ [Star]) [] t.
Proof.
  unfold loop_matches. split.
  - intros (t1 & t2 & -> & H1 & u & t' & -> & Hp).
    exists ((t1 ++ literal) ++ u), t'. split; [by rewrite <- !app_assoc|]. split; [|done].
    apply push_star_match. exists (t1 ++ literal), u. split; [done|].
    apply flush_literal_match. eauto.
  - intros (v & t' & -> & (t1 & u & -> & H1)%push_star_match & Hp).
    apply flush_literal_match in H1 as (t0 & -> & H1).
    exists t0, (u ++ t'). simpl. rewrite <- !app_assoc. eauto 10.
Qed.

Lemma consumes_any_one t' :
  consumes Any t' = Some (length t') <-> exists x, t' = [x] /\ consumes Any [x] = Some 1.
Proof.
  split; [|by intros (? & -> & ?)].
  destruct t' as [|x [|y t']]; simpl; [done|eauto|by intros [=]].
Qed.

Lemma consumes_class_one c t' :
  consumes (Class_ c) t' = Some (length t') <->
  exists x, t' = [x] /\ consumes (Class_ c) [x] = Some 1.
Proof.
  split; [|by intros (? & -> & ?)].
  destruct t' as [|x [|y t']]; simpl; [done|eauto|].
  destruct (class_matches c x); [by intros [=]|done].
Qed.

Lemma component_loop_spec fuel part syntax at_ ats literal r t :
  component_loop fuel part syntax at_ ats literal = Some r ->
  match r with Some res => atoms_match res t | None => False end <->
  loop_matches part syntax at_ ats literal t.
Proof.
  revert at_ ats literal; induction fuel as [|fuel IH]; intros at_ ats literal; simpl; [done|].
  destruct (part !! at_) as [b|] eqn:Hb; last first.
  { intros [= <-]. rewrite flush_literal_match. unfold loop_matches. split.
    - intros (t1 & -> & H1). exists t1, []. rewrite app_nil_r. repeat split; [done|by constructor].
    - intros (t1 & t2 & -> & H1 & Hp). exists t1. split; [|done].
      inversion Hp as [? ?|? ? ? He|? ? ? ? He|? ? ? ? He|? ? ? ? ? ? He]; try congruence.
      by rewrite app_nil_r. }
  assert (Hat : loop_matches part syntax at_ ats literal t <->
    exists t1 t2, t = t1 ++ literal ++ t2 /\ atoms_match ats t1 /\
      part_match part syntax at_ t2) by done.
  rewrite Hat. setoid_rewrite (part_match_at part syntax at_ b _ Hb).
  destruct (escaped b).
  { intros H%IH. by rewrite H, <- loop_matches_push. }
  destruct (value b =? 42)%N.
  { intros H%IH. by rewrite H, <- loop_matches_star. }
  destruct (value b =? 63)%N.
  { intros H%IH. rewrite H, <- (loop_matches_one part syntax) by (done || apply consumes_any_one).
    clear. split; intros (t1 & t2 & ? & ? & x & t' & ?); exists t1, t2;
      (split; [done|split; [done|]]); exists x, t'; tauto. }
  destruct (value b =? 91)%N.
  2:{ intros H%IH. by rewrite H, <- loop_matches_push. }
  destruct (compile_class part at_ syntax) as [[c next]|] eqn:Hc.
  - intros H%IH. rewrite H, <- (loop_matches_one part syntax)
      by (done || apply consumes_class_one). simpl.
    split; intros (t1 & t2 & -> & H1 & Hrest); exists t1, t2; (split; [done|split; [done|]]).
    + destruct Hrest as (x & t' & -> & Hx & Hp). exists c, next, x, t'.
      by destruct (class_matches c x).
    + destruct Hrest as (? & ? & x & t' & [= <- <-] & -> & Hx & Hp). exists x, t'.
      by rewrite Hx.
  - intros [= <-]. split; [done|]. by intros (? & ? & _ & _ & ? & ? & ? & ? & ? & _).
Qed.

(** The compiler's atoms hold no empty literal and no star next to a star. *)
Fixpoint no_star_pair (ats : list Atom) : bool :=
  match ats with
  | Star :: (Star :: _) => false
  | _ :: rest => no_star_pair rest
  | [] => true
  end.

Lemma no_star_pair_snoc ats a :
  no_star_pair ats = true -> (last ats = Some Star -> a <> Star) ->
  no_star_pair (ats ++ [a]) = true.
Proof.
  induction ats as [|x ats IH]; intros H Hl; [by destruct a|].
  destruct ats as [|y ats]; [destruct x, a; simpl; try done; by destruct Hl|].
  destruct x; try (apply IH; [exact H|]; exact Hl).
  destruct y; try (apply IH; [exact H|]; exact Hl). done.
Qed.

Definition atoms_normal (ats : list Atom) : Prop :=
  Forall atom_wf ats /\ no_star_pair ats = true.

Lemma atoms_normal_snoc ats a :
  atoms_normal ats -> a <> Literal [] -> (last ats = Some Star -> a <> Star) ->
  atoms_normal (ats ++ [a]).
Proof.
  intros [Hf Hn] Ha Hl. split; [|by apply no_star_pair_snoc].
  apply Forall_app. split; [done|]. by constructor.
Qed.

Lemma flush_literal_normal ats literal :
  atoms_normal ats -> atoms_normal (flush_literal ats literal).
Proof. destruct literal; [done|]. intros H. by apply atoms_normal_snoc. Qed.

Lemma component_loop_normal fuel part syntax at_ ats literal res :
  atoms_normal ats ->
  component_loop fuel part syntax at_ ats literal = Some (Some res) -> atoms_normal res.
Proof.
  revert at_ ats literal; induction fuel as [|fuel IH]; intros at_ ats literal Hn; simpl; [done|].
  apply (flush_literal_normal ats literal) in Hn as Hfl.
  destruct (part !! at_) as [b|]; [|by intros [= <-]].
  destruct (escaped b); [by apply IH|].
  destruct (value b =? 42)%N.
  { apply IH. case_bool_decide; [done|]. by apply atoms_normal_snoc. }
  destruct (value b =? 63)%N; [apply IH; by apply atoms_normal_snoc|].
  destruct (value b =? 91)%N; [|by apply IH].
  destruct (compile_class part at_ syntax) as [[c next]|]; [|done].
  apply IH. by apply atoms_normal_snoc.
Qed.

Lemma compile_component_normal part anchored syntax g :
  compile_component part anchored syntax = Glob g -> atoms_normal (atoms g).
Proof.
  unfold compile_component. destruct (_ && _); [done|]. destruct part; [done|].
  destruct (component_loop _ _ _ _ _ _) as [[res|]|] eqn:H; [|done..].
  intros [= <-]. eapply component_loop_normal; [|exact H]. by split.
Qed.

(** * Properties of the component matcher *)

(** C13: the last-star retry loop that matches a path component decides
    exactly the declarative meaning of the component's atoms: it never
    accepts a name the atoms do not match, and never gives up on one they
    do, although it remembers only the last star. *)
Theorem retry_loop_correct (g : ComponentGlob) (text : bytes) (Hwf : glob_wf g) :
  glob_matches g text = true <-> atoms_match (atoms g) text.
Proof. by apply glob_matches_spec. Qed.

Lemma retry_loop_correct_witness :
  glob_wf (mkGlob [Star; Literal [97%N; 98%N]; Star; Literal [99%N]]) /\
  atoms_match [Star; Literal [97%N; 98%N]; Star; Literal [99%N]] [97; 97; 98; 99; 99]%N.
Proof.
  assert (Hwf : glob_wf (mkGlob [Star; Literal [97%N; 98%N]; Star; Literal [99%N]])).
  { repeat constructor; discriminate. }
  split; [exact Hwf|].
  apply (retry_loop_correct (mkGlob [Star; Literal [97%N; 98%N]; Star; Literal [99%N]])); [exact Hwf|].
  vm_compute. reflexivity.
Defined.

(** C15: the retry loop always finishes, within a number of steps bounded by
    the product of the pattern's atoms and the name's bytes: the O(pattern x
    name) cost the module promises, for every glob and every name. *)
Theorem retry_loop_bounded (g : ComponentGlob) (text : bytes) :
  exists ok steps,
    match_loop (match_fuel (atoms g) text) (atoms g) text 0 0 None 0 = Some (ok, steps) /\
    matches_observed g text = (ok, steps) /\
    steps <= (length text + 2) * (length (atoms g) + 1).
Proof. apply matches_observed_total. Qed.

(** C16: compiling a component preserves its meaning: the compiled component
    matches a name exactly when the pattern bytes, read one at a time with
    no merging of literals or stars, do; a malformed class makes it match
    nothing, an empty component nothing, and a run of two or more stars in an
    anchored pattern is a globstar. *)
Theorem compile_component_correct (part : list PatternByte) (anchored : bool)
    (syntax : Syntax) (text : bytes) :
  component_matches (compile_component part anchored syntax) text = true <->
  if anchored && (2 <=? length part) && forallb (fun b => pb_is b 42) part then True
  else part <> [] /\ part_match part syntax 0 text.
Proof.
  unfold compile_component. destruct (anchored && _ && _); [done|].
  destruct part as [|b part]; [split; [done|by intros []]|].
  destruct (component_loop_total (S (length (b :: part))) (b :: part) syntax 0 [] [])
    as [r Hr]; [lia|].
  pose proof (component_loop_spec _ _ _ _ _ _ _ text Hr) as Hspec. rewrite Hr.
  assert (Hinit : loop_matches (b :: part) syntax 0 [] [] text <->
                  b :: part <> [] /\ part_match (b :: part) syntax 0 text).
  { split.
    - by intros (t1 & t2 & -> & ->%atoms_match_nil & Hp).
    - intros [_ Hp]. exists [], text. repeat split; [constructor|done]. }
  rewrite <- Hinit, <- Hspec. destruct r as [res|]; simpl; [|done].
  apply (glob_matches_spec (mkGlob res)).
  eapply (component_loop_normal _ _ _ _ [] []); [by split|exact Hr].
Qed.
