(* ===== verification/Pattern.v ===== *)
(** * Pattern: one gitignore pattern, compiled and stepped

    Models [crates/ferret-policy/src/gitignore/pattern.rs]: splitting a line
    into components, compiling it, the cursors that follow an anchored
    pattern one directory at a time, and the projection of a cursor onto the
    names of one directory.

    [Pattern::projected] only caches [Pattern::projections], which is pure,
    so the model has no such field. *)
From S2P Require Import Prelude Word Glob.

(** ** Data *)

(** [Match]: what a rule says about an entry it matches. *)
Inductive Match := MIgnore | MWhitelist.

Record Pattern := mkPattern {
  index : N;
  result_ : Match;
  directory_only : bool;
  basename_only : bool;
  components : list Component
}.

(** [RuleText]: what decides a basename pattern's matches. *)
Record RuleText := mkRuleText {
  rt_glob : option ComponentGlob;
  rt_whitelist : bool;
  rt_directory_only : bool
}.

(** Positions reached in one step: three bitsets of 64-bit words. *)
Record Marks := mkMarks { reached : list u64; fed_ : list u64; expanded : list u64 }.

Record SplitPattern := mkSplit {
  leading_separator : bool;
  trailing_separator : bool;
  parts : list (list PatternByte);
  separators : list bool;
  escaped_edge : bool
}.

#[export] Instance Match_eq_dec : EqDecision Match.
Proof. solve_decision. Defined.
#[export] Instance Pattern_eq_dec : EqDecision Pattern.
Proof. solve_decision. Defined.
#[export] Instance RuleText_eq_dec : EqDecision RuleText.
Proof. solve_decision. Defined.

(** ** Splitting a line into components *)

(** [parts.last_mut()], pushing a byte; [None] when there is no part. *)
Definition push_last (ps : list (list PatternByte)) (b : PatternByte)
    : option (list (list PatternByte)) :=
  match last ps with
  | None => None
  | Some current => Some (removelast ps ++ [current ++ [b]])
  end.

(** The scan of [split_components], over the bytes not yet read. *)
Fixpoint split_loop (pattern : bytes) (ps : list (list PatternByte)) (seps : list bool)
    : result (list (list PatternByte) * list bool) string :=
  match pattern with
  | [] => Ok (ps, seps)
  | byte :: rest =>
      if (byte =? 92)%N then
        match rest with
        | [] => Err "trailing backslash"%string
        | esc :: rest' =>
            if (esc =? 47)%N then split_loop rest' (ps ++ [[]]) (seps ++ [false])
            else
              match push_last ps (mkPB esc true) with
              | None => Err "pattern has no component"%string
              | Some ps' => split_loop rest' ps' seps
              end
        end
      else if (byte =? 47)%N then split_loop rest (ps ++ [[]]) (seps ++ [true])
      else
        match push_last ps (mkPB byte false) with
        | None => Err "pattern has no component"%string
        | Some ps' => split_loop rest ps' seps
        end
  end.

(** [pattern.ends_with(suffix)]. *)
Definition ends_with (text suffix : bytes) : bool := starts_with (rev text) (rev suffix).

(** [split_components]. *)
Definition split_components (pattern : bytes) : result SplitPattern string :=
  match split_loop pattern [[]] [] with
  | Err e => Err e
  | Ok (ps, seps) =>
      let leading := is_some_and (head ps) is_empty && (1 <? length ps)
                     && default false (head seps) in
      let edge := starts_with pattern [92; 47]%N || ends_with pattern [92; 47]%N in
      let ps1 := if leading then tail ps else ps in
      let seps1 := if leading then tail seps else seps in
      let trailing := is_some_and (last ps1) is_empty && (1 <? length ps1)
                      && default false (last seps1) in
      let ps2 := if trailing then removelast ps1 else ps1 in
      let seps2 := if trailing then removelast seps1 else seps1 in
      Ok (mkSplit leading trailing ps2 seps2 edge)
  end.

(** ** Compiling a line *)

(** How many backslashes the reversed text starts with. *)
Fixpoint count_backslashes (rtext : bytes) : nat :=
  match rtext with
  | b :: rest => if (b =? 92)%N then S (count_backslashes rest) else 0
  | [] => 0
  end.

(** [trim_trailing_spaces]'s loop, on the reversed line. *)
Fixpoint trim_spaces_rev (rline : bytes) : bytes :=
  match rline with
  | b :: before =>
      if (b =? 32)%N then
        if Nat.odd (count_backslashes before) then rline else trim_spaces_rev before
      else rline
  | [] => []
  end.

(** [trim_trailing_spaces]. *)
Definition trim_trailing_spaces (line : bytes) : bytes := rev (trim_spaces_rev (rev line)).

(** A globstar takes [allow_zero] from the separator after it. *)
Definition set_allow_zero (seps : list bool) (at_ : nat) (c : Component) : Component :=
  match c with
  | Globstar _ => Globstar (default true (seps !! at_))
  | _ => c
  end.

(** [components.dedup_by]: keeps one of a run of zero-allowing globstars. *)
Fixpoint dedup_globstars (kept : option Component) (cs : list Component) : list Component :=
  match cs with
  | [] => []
  | next :: rest =>
      match next, kept with
      | Globstar true, Some (Globstar true) => dedup_globstars kept rest
      | _, _ => next :: dedup_globstars (Some next) rest
      end
  end.

Definition is_never (c : Component) : bool := match c with Never => true | _ => false end.

(** [Pattern::compile_syntax]. *)
Definition compile_syntax (idx : N) (original : bytes) (syntax : Syntax)
    : result (option Pattern) string :=
  let line := trim_trailing_spaces original in
  if is_empty line || starts_with line [35]%N then Ok None
  else
    let '(res, body) := if starts_with line [33]%N then (MWhitelist, drop 1 line)
                        else (MIgnore, line) in
    if bool_decide (res = MWhitelist) && is_empty body then Ok None
    else
      match split_components body with
      | Err e => Err e
      | Ok parsed =>
          if is_empty (parts parsed) then Ok None
          else
            let base := negb (leading_separator parsed) && (length (parts parsed) =? 1) in
            let anchored := negb base in
            let cs := (fun part => compile_component part anchored syntax) <$> parts parsed in
            if bool_decide (syntax = Override) && existsb is_never cs then
              Err "invalid glob character class or range"%string
            else
              let cs := if escaped_edge parsed then
                          match cs with [] => [] | _ :: rest => Never :: rest end
                        else cs in
              let cs := imap (set_allow_zero (separators parsed)) cs in
              Ok (Some (mkPattern idx res (trailing_separator parsed) base
                          (dedup_globstars None cs)))
      end.

(** [Pattern::compile] and [Pattern::compile_override]. *)
Definition compile (idx : N) (original : bytes) : result (option Pattern) string :=
  compile_syntax idx original Ignore.
Definition compile_override (original : bytes) : result (option Pattern) string :=
  compile_syntax 0 original Override.

(** ** Basename patterns *)

Definition is_whitelist (p : Pattern) : bool := bool_decide (result_ p = MWhitelist).

(** [Pattern::matches_name]. *)
Definition matches_name (p : Pattern) (name : bytes) (is_dir : bool) : bool :=
  (negb (directory_only p) || is_dir) &&
  match components p with c :: _ => component_matches c name | [] => false end.

(** [Pattern::basename_glob]. *)
Definition basename_glob (p : Pattern) : option ComponentGlob :=
  match components p with
  | [Glob g] => if basename_only p then Some g else None
  | _ => None
  end.

(** [Pattern::literal_basename]. *)
Definition literal_basename (p : Pattern) : option bytes :=
  g ← basename_glob p; literal_bytes g.

(** [Pattern::simple_extension]. *)
Definition simple_extension (p : Pattern) : option bytes :=
  g ← basename_glob p;
  match atoms g with
  | [Star; Literal suffix] =>
      if (length suffix <? 2) || negb (bool_decide (head suffix = Some 46%N))
         || existsb (fun b => (b =? 46)%N) (drop 1 suffix)
      then None else Some suffix
  | _ => None
  end.

(** [Pattern::basename_prefix]. *)
Definition basename_prefix (p : Pattern) : option bytes :=
  g ← basename_glob p;
  match atoms g with [Literal prefix; Star] => Some prefix | _ => None end.

(** [Pattern::basename_suffix]. *)
Definition basename_suffix (p : Pattern) : option bytes :=
  g ← basename_glob p;
  match atoms g with [Star; Literal suffix] => Some suffix | _ => None end.

(** [Pattern::basename_contains]. *)
Definition basename_contains (p : Pattern) : option bytes :=
  g ← basename_glob p;
  match atoms g with [Star; Literal needle; Star] => Some needle | _ => None end.

(** [Pattern::fixed_basename_suffix_width]; the sum is [total_width]. *)
Definition fixed_basename_suffix_width (p : Pattern) : option nat :=
  g ← basename_glob p;
  match atoms g with Star :: rest => total_width rest | _ => None end.

(** The loop of [matches_fixed_basename_suffix] over the atoms after the star. *)
Fixpoint consume_all (ats : list Atom) (suffix : bytes) (at_ : nat) : option nat :=
  match ats with
  | [] => Some at_
  | a :: rest =>
      match consumes a (drop at_ suffix) with
      | None => None
      | Some consumed => consume_all rest suffix (at_ + consumed)
      end
  end.

(** [Pattern::matches_fixed_basename_suffix]. *)
Definition matches_fixed_basename_suffix (p : Pattern) (basename : bytes) (is_dir : bool)
    (width : nat) : bool :=
  if directory_only p && negb is_dir then false
  else
    match basename_glob p with
    | None => false
    | Some g =>
        if width <=? length basename then
          let suffix := drop (length basename - width) basename in
          match consume_all (drop 1 (atoms g)) suffix 0 with
          | None => false
          | Some at_ => at_ =? length suffix
          end
        else false
    end.

(** [Pattern::text]. *)
Definition text (p : Pattern) : RuleText :=
  mkRuleText (match components p with Glob g :: _ => Some g | _ => None end)
    (is_whitelist p) (directory_only p).

(** [Pattern::renumbered]. *)
Definition renumbered (p : Pattern) (idx : N) : Pattern :=
  mkPattern idx (result_ p) (directory_only p) (basename_only p) (components p).

(** [Pattern::as_basename]. *)
Definition as_basename (p : Pattern) (g : ComponentGlob) : Pattern :=
  mkPattern (index p) (result_ p) (directory_only p) true [Glob g].

(** [Pattern::is_anchored_reinclude]. *)
Definition is_anchored_reinclude (p : Pattern) : bool :=
  bool_decide (result_ p = MWhitelist) && negb (basename_only p)
  && (2 <=? length (components p))
  && negb (is_some_and (head (components p)) is_globstar)
  && forallb component_has_witness (components p).

(** [Pattern::is_superseded_by]. *)
Definition is_superseded_by (p later : Pattern) : bool :=
  bool_decide (result_ p = MWhitelist) && bool_decide (result_ later = MIgnore)
  && Bool.eqb (basename_only p) (basename_only later)
  && bool_decide (components p = components later)
  && (negb (directory_only later) || directory_only p).

(** [Pattern::is_shared_basename]. *)
Definition is_shared_basename (p : Pattern) : bool :=
  basename_only p ||
  match components p with [Globstar true; _] => true | _ => false end.

(** ** Cursors *)

(** A cursor of one pattern: its position, and whether the globstar there has
    already consumed the directory it requires. *)
Abbreviation cursor := (nat * bool)%type (only parsing).

(** [Marks::new]: [count.div_ceil(64)] words of each kind. *)
Definition marks_new (count : nat) : Marks :=
  let words := (count + 63) / 64 in
  mkMarks (replicate words 0%N) (replicate words 0%N) (replicate words 0%N).

Definition word_of (pos : nat) : nat := pos / 64.
Definition bit_of (pos : nat) : u64 := N.shiftl 1 (N.of_nat (pos mod 64)).

(** [Marks::mark]. *)
Definition mark (m : Marks) (pos : nat) (fed : bool) : Marks :=
  mkMarks (alter (N.lor (bit_of pos)) (word_of pos) (reached m))
    (if fed then alter (N.lor (bit_of pos)) (word_of pos) (fed_ m) else fed_ m)
    (expanded m).

(** [Marks::expand]: false if [pos]'s continuation was followed already. *)
Definition expand (m : Marks) (pos : nat) : bool * Marks :=
  let old := default 0%N (expanded m !! word_of pos) in
  ((N.land old (bit_of pos) =? 0)%N,
   mkMarks (reached m) (fed_ m) (alter (N.lor (bit_of pos)) (word_of pos) (expanded m))).

(** [Marks::drain]'s scan of one word. *)
Definition drain_word (word : nat) (bits fed : u64) : list cursor :=
  (fun bit => (word * 64 + N.to_nat bit, (N.land (N.shiftr fed bit) 1 =? 1)%N))
    <$> scan_bits 64 bits.

(** [Marks::drain]: the cursors it appends, and the words scanned. *)
Definition drain (m : Marks) : list cursor * nat :=
  (concat (imap (fun word bits => drain_word word bits (default 0%N (fed_ m !! word)))
             (reached m)),
   length (reached m)).

(** The inner loop of [Pattern::step] for one cursor; [rest] holds the
    components from [pos] on. *)
Fixpoint step_cursor (count : nat) (name : bytes) (rest : list Component) (pos : nat)
    (fed : bool) (mw : Marks * nat) : Marks * nat :=
  match rest with
  | [] => mw
  | component :: rest' =>
      let '(m, work) := mw in
      let work := S work in
      match component with
      | Globstar allow_zero =>
          let m := mark m pos true in
          if allow_zero || fed then
            let '(first, m) := expand m pos in
            if first then step_cursor count name rest' (S pos) false (m, work)
            else (m, work)
          else (m, work)
      | _ =>
          (if (S pos <? count) && component_matches component name
           then mark m (S pos) false else m, work)
      end
  end.

(** The loop of [Pattern::step] over the cursors. *)
Definition step_marks (p : Pattern) (cursors : list cursor) (name : bytes) : Marks * nat :=
  let count := length (components p) in
  fold_left (fun mw c => step_cursor count name (drop c.1 (components p)) c.1 c.2 mw)
    cursors (marks_new count, 0).

(** [Pattern::step]: the child's cursors, which the code appends to [out],
    and the work done. *)
Definition step (p : Pattern) (cursors : list cursor) (name : bytes) : list cursor * nat :=
  let '(m, work) := step_marks p cursors name in
  let '(out, words) := drain m in
  (out, work + words).

(** ** Projections *)

(** What a cursor projects to: [ANY], or the glob at an index. *)
Inductive Target := TAny | TAt (at_ : nat).

(** The backwards pass of [Pattern::projections], as the list of [tail]s from
    position [at_] on. *)
Fixpoint tails (at_ : nat) (cs : list Component) : list (option Target) :=
  match cs with
  | [] => []
  | c :: rest =>
      let later := tails (S at_) rest in
      match c, rest with
      | Globstar _, [] => Some TAny
      | Glob _, [] => Some (TAt at_)
      | Globstar true, _ => default None (head later)
      | _, _ => None
      end :: later
  end.

(** The closure [project]. *)
Definition project (p : Pattern) (target : option Target) : option Pattern :=
  match target with
  | None => None
  | Some TAny => Some (as_basename p any_glob)
  | Some (TAt at_) =>
      match components p !! at_ with
      | Some (Glob g) => Some (as_basename p (normalize_star g))
      | _ => None
      end
  end.

(** What the fed cursor at [pos] targets. *)
Definition fed_target (p : Pattern) (tail_ : list (option Target)) (pos : nat)
    : option Target :=
  match components p !! pos with
  | Some (Globstar _) =>
      if S pos =? length (components p) then Some TAny else default None (tail_ !! S pos)
  | _ => None
  end.

(** [Pattern::projections], at index [2 * pos + fed]. *)
Definition projections (p : Pattern) : list (option Pattern) :=
  let tail_ := tails 0 (components p) in
  concat ((fun pos => [project p (default None (tail_ !! pos)); project p (fed_target p tail_ pos)])
            <$> seq 0 (length (components p))).

(** The projection of one cursor. *)
Definition projection (ps : list (option Pattern)) (c : cursor) : option Pattern :=
  default None (ps !! (c.1 * 2 + if c.2 then 1 else 0)).

(** ** Overrides *)

(** [Pattern::matches_override]. *)
Definition matches_override (p : Pattern) (path : list bytes) (directory : bool) : bool :=
  match last path with
  | None => false
  | Some name =>
      if basename_only p then matches_name p name directory
      else
        let ps := projections p in
        if is_shared_basename p then
          is_some_and (default None (head ps)) (fun q => matches_name q name directory)
        else
          let cursors := fold_left (fun cs parent => fst (step p cs parent)) (removelast path)
                           [(0, false)] in
          existsb (fun c => is_some_and (projection ps c) (fun q => matches_name q name directory))
            cursors
  end.

(** The leading zero-allowing globstars [matches_empty_path] skips. *)
Fixpoint skip_zero_globstars (cs : list Component) : list Component :=
  match cs with
  | Globstar true :: rest => skip_zero_globstars rest
  | _ => cs
  end.

(** [Pattern::matches_empty_path]. *)
Definition matches_empty_path (p : Pattern) : bool :=
  match skip_zero_globstars (components p) with
  | Globstar false :: _ => false
  | [] => true
  | [Glob g] => forallb (fun a => bool_decide (a = Star)) (atoms g)
  | _ => false
  end.

(** ** Specification: paths and cursors *)

(** The paths, as lists of names, that a sequence of components matches. *)
Inductive path_match : list Component -> list bytes -> Prop :=
| pth_nil : path_match [] []
| pth_one c rest name names :
    is_globstar c = false -> component_matches c name = true ->
    path_match rest names -> path_match (c :: rest) (name :: names)
| pth_last az names : names <> [] -> path_match [Globstar az] names
| pth_star az rest taken names :
    rest <> [] -> az = true \/ taken <> [] ->
    path_match rest names -> path_match (Globstar az :: rest) (taken ++ names).

(** The paths below a directory that a cursor in it still matches.  A fed
    globstar may match zero further components. *)
Definition cursor_match (cs : list Component) (c : cursor) (names : list bytes) : Prop :=
  match drop c.1 cs with
  | Globstar az :: rest => path_match (Globstar (az || c.2) :: rest) names
  | rest => c.2 = false /\ path_match rest names
  end.

(** Cursors that [step] keeps: inside the pattern, and fed only on globstars. *)
Definition cursor_ok (cs : list Component) (c : cursor) : Prop :=
  c.1 < length cs /\ (c.2 = true -> exists az, cs !! c.1 = Some (Globstar az)).

(** The cursors of a pattern in the directory reached through [parents]. *)
Definition cursors_at (p : Pattern) (parents : list bytes) : list cursor :=
  fold_left (fun cs parent => fst (step p cs parent)) parents [(0, false)].

(** ** The marks as sets of positions *)

#[local] Arguments mark : simpl never.
#[local] Arguments expand : simpl never.

(** Whether [pos]'s bit is set in a bitset. *)
Definition mtest (l : list u64) (pos : nat) : bool :=
  N.testbit (default 0%N (l !! word_of pos)) (N.of_nat (pos mod 64)).

Definition words_ok (l : list u64) : Prop := Forall (fun w => w < 2 ^ 64)%N l.

Lemma bit_of_testbit pos i :
  N.testbit (bit_of pos) i = (i =? N.of_nat (pos mod 64))%N.
Proof.
  unfold bit_of. rewrite N.shiftl_1_l, N.pow2_bits_eqb. apply N.eqb_sym.
Qed.

Lemma pos_word_bit pos q : word_of pos = word_of q -> pos mod 64 = q mod 64 -> pos = q.
Proof.
  unfold word_of. intros H1 H2. rewrite (Nat.div_mod_eq pos 64), (Nat.div_mod_eq q 64). lia.
Qed.

Lemma mtest_mark l pos q :
  word_of pos < length l ->
  mtest (alter (N.lor (bit_of pos)) (word_of pos) l) q = mtest l q || (q =? pos).
Proof.
  intros Hlt. unfold mtest. destruct (decide (word_of q = word_of pos)) as [Hw|Hw].
  - rewrite Hw, list_lookup_alter_eq.
    destruct (lookup_lt_is_Some_2 l (word_of pos) Hlt) as [x ->].
    cbn [fmap option_fmap option_map default from_option id].
    rewrite N.lor_spec, bit_of_testbit, orb_comm. f_equal.
    destruct (N.eqb_spec (N.of_nat (q mod 64)) (N.of_nat (pos mod 64))) as [He|He],
      (Nat.eqb_spec q pos) as [Hq|Hq]; try done.
    + destruct Hq. apply pos_word_bit; [done|lia].
    + by subst q.
  - rewrite list_lookup_alter_ne by done.
    destruct (Nat.eqb_spec q pos); [subst; done|]. by rewrite orb_false_r.
Qed.

Lemma words_ok_mark l pos : words_ok l -> words_ok (alter (N.lor (bit_of pos)) (word_of pos) l).
Proof.
  intros H. apply Forall_alter; [done|]. intros x Hx Hlt.
  apply lor_lt_pow2; [|done]. unfold bit_of. rewrite N.shiftl_1_l.
  apply N.pow_lt_mono_r; [lia|]. pose proof (Nat.mod_upper_bound pos 64). lia.
Qed.

Lemma expand_first m pos :
  (expand m pos).1 = negb (mtest (expanded m) pos).
Proof.
  unfold expand, mtest. simpl. set (w := default 0%N _).
  destruct (N.eqb_spec (N.land w (bit_of pos)) 0) as [H|H].
  - apply (f_equal (fun n => N.testbit n (N.of_nat (pos mod 64)))) in H.
    rewrite N.land_spec, bit_of_testbit, N.eqb_refl, andb_true_r, N.bits_0 in H. by rewrite H.
  - destruct (N.testbit w _) eqn:E; [done|]. exfalso. apply H. apply N.bits_inj. intros i.
    rewrite N.land_spec, bit_of_testbit, N.bits_0.
    destruct (N.eqb_spec i (N.of_nat (pos mod 64))) as [->|]; [by rewrite E|apply andb_false_r].
Qed.

(** ** Draining the marks *)

Lemma drain_word_spec word bits fed :
  (bits < 2 ^ 64)%N ->
  drain_word word bits fed =
  (fun pos => (pos, N.testbit fed (N.of_nat (pos mod 64)))) <$>
    filter (fun pos => N.testbit bits (N.of_nat (pos mod 64)) = true) (seq (word * 64) 64).
Proof.
  intros Hb. unfold drain_word. rewrite scan_bits_64 by done. unfold set_bits.
  replace (seq (word * 64) 64) with ((fun k => word * 64 + k) <$> seq 0 64).
  2:{ rewrite fmap_add_seq. f_equal. lia. }
  rewrite !filter_fmap, <- !list_fmap_compose.
  assert (Hmod : forall k, k ∈ seq 0 64 -> (word * 64 + k) mod 64 = k).
  { intros k Hk%elem_of_seq. by rewrite Nat.add_comm, Nat.Div0.mod_add, Nat.mod_small by lia. }
  erewrite (filter_same (fun k => N.testbit bits (N.of_nat k) = true)).
  - apply list_fmap_ext. intros i k Hk.
    apply list_elem_of_lookup_2, list_elem_of_filter in Hk as [_ Hk].
    unfold compose. rewrite Nat2N.id, land_shiftr_1.
    do 3 f_equal. symmetry. by apply Hmod.
  - intros k Hk. specialize (Hmod k Hk). cbv beta. by rewrite Hmod.
Qed.

Lemma drain_from fed ws k :
  words_ok ws ->
  concat (imap (fun i bits => drain_word (k + i) bits (default 0%N (fed !! (k + i)))) ws) =
  (fun pos => (pos, mtest fed pos)) <$>
    filter (fun pos => N.testbit (default 0%N (ws !! (word_of pos - k))) (N.of_nat (pos mod 64)) = true)
      (seq (k * 64) (length ws * 64)).
Proof.
  intros Hok. revert k. induction Hok as [|w ws Hw Hok IH]; intros k; [done|].
  simpl imap. simpl concat. rewrite Nat.add_0_r, drain_word_spec by done.
  simpl length. replace (S (length ws) * 64) with (64 + length ws * 64) by lia.
  rewrite seq_app, filter_app, fmap_app. f_equal.
  - assert (Hword : forall pos, pos ∈ seq (k * 64) 64 -> word_of pos = k).
    { intros pos Hp%elem_of_seq. unfold word_of. symmetry. apply (Nat.div_unique pos 64 k (pos - k * 64)); lia. }
    erewrite filter_same; [apply list_fmap_ext|].
    + intros i pos Hp. apply list_elem_of_lookup_2, list_elem_of_filter in Hp as [_ Hp].
      unfold mtest. by rewrite Hword.
    + intros pos Hp. simpl. by rewrite Hword, Nat.sub_diag.
  - replace (k * 64 + 64) with (S k * 64) by lia.
    assert (Himap : imap ((fun i bits => drain_word (k + i) bits (default 0%N (fed !! (k + i)))) ∘ S) ws =
      imap (fun i bits => drain_word (S k + i) bits (default 0%N (fed !! (S k + i)))) ws).
    { apply imap_ext. intros i x _. unfold compose. by rewrite Nat.add_succ_r. }
    rewrite Himap, IH. f_equal. apply filter_same. intros pos Hp%elem_of_seq.
    assert (S k <= word_of pos) as Hle.
    { unfold word_of. apply Nat.div_le_lower_bound; lia. }
    replace (word_of pos - k) with (S (word_of pos - S k)) by lia. done.
Qed.

Lemma drain_spec m :
  words_ok (reached m) ->
  (drain m).1 = (fun pos => (pos, mtest (fed_ m) pos)) <$>
    filter (fun pos => mtest (reached m) pos = true) (seq 0 (length (reached m) * 64)).
Proof.
  intros Hok. unfold drain. simpl. pose proof (drain_from (fed_ m) (reached m) 0 Hok) as H.
  simpl in H. rewrite H. f_equal. apply filter_same. intros pos _.
  unfold mtest. by rewrite Nat.sub_0_r.
Qed.

(** ** What one step marks *)

(** The marks one cursor makes when no continuation has been cut short. *)
Fixpoint step_spec (count : nat) (name : bytes) (rest : list Component) (pos : nat)
    (fed : bool) : list cursor :=
  match rest with
  | [] => []
  | Globstar az :: rest' =>
      (pos, true) :: if az || fed then step_spec count name rest' (S pos) false else []
  | c :: _ => if (S pos <? count) && component_matches c name then [(S pos, false)] else []
  end.

(** The bitsets have a word for every position. *)
Definition marks_wf (count : nat) (m : Marks) : Prop :=
  count <= length (reached m) * 64 /\ count <= length (fed_ m) * 64 /\
  count <= length (expanded m) * 64 /\
  words_ok (reached m) /\ words_ok (fed_ m).

(** The marks [m] contains, as a set of cursors. *)
Definition marked (m : Marks) (c : cursor) : Prop :=
  mtest (reached m) c.1 = true /\ (c.2 = true -> mtest (fed_ m) c.1 = true).

Lemma word_of_lt pos count words : pos < count -> count <= words * 64 -> word_of pos < words.
Proof. intros. unfold word_of. apply Nat.Div0.div_lt_upper_bound. lia. Qed.

Lemma marks_wf_mark count m pos fed :
  marks_wf count m -> marks_wf count (mark m pos fed).
Proof.
  intros (? & ? & ? & ? & ?). unfold mark, marks_wf. destruct fed; simpl;
    rewrite ?length_alter; repeat split; try done; by apply words_ok_mark.
Qed.

Lemma marks_wf_expand count m pos : marks_wf count m -> marks_wf count (expand m pos).2.
Proof. intros (? & ? & ? & ? & ?). unfold marks_wf. simpl. by rewrite length_alter. Qed.

Lemma mark_tests count m pos fed q :
  marks_wf count m -> pos < count ->
  mtest (reached (mark m pos fed)) q = mtest (reached m) q || (q =? pos) /\
  mtest (fed_ (mark m pos fed)) q = mtest (fed_ m) q || (fed && (q =? pos)).
Proof.
  intros (Hr & Hf & _) Hp. unfold mark; simpl. split.
  - apply mtest_mark. eapply word_of_lt; done.
  - destruct fed; simpl; [|by rewrite orb_false_r]. apply mtest_mark. eapply word_of_lt; done.
Qed.

Lemma expand_tests count m pos q :
  marks_wf count m -> pos < count ->
  mtest (expanded (expand m pos).2) q = mtest (expanded m) q || (q =? pos).
Proof. intros (_ & _ & He & _) Hp. apply mtest_mark. eapply word_of_lt; done. Qed.

(** [m'] holds [m]'s marks and those of [l], and no others. *)
Definition adds (m m' : Marks) (l : list cursor) : Prop :=
  (forall q, mtest (reached m') q = true <->
     mtest (reached m) q = true \/ exists f, (q, f) ∈ l) /\
  (forall q, mtest (fed_ m') q = true <-> mtest (fed_ m) q = true \/ (q, true) ∈ l).

(** Every expanded position from [pos] on has had its continuation marked. *)
Definition closed_from (cs : list Component) (name : bytes) (pos : nat) (m : Marks) : Prop :=
  forall q c, pos <= q -> mtest (expanded m) q = true ->
    c ∈ step_spec (length cs) name (drop (S q) cs) (S q) false -> marked m c.

Lemma adds_refl m : adds m m [].
Proof.
  split; intros q; (split; [by left|]); intros [|H]; try done; [destruct H as [? H]|];
    by apply not_elem_of_nil in H.
Qed.

Lemma adds_marked m m' l c : adds m m' l -> marked m c \/ c ∈ l -> marked m' c.
Proof.
  intros [Hr Hf] H. destruct c as [q f]. unfold marked in *. simpl in *. rewrite Hr, Hf.
  destruct H as [[H1 H2]|H]; split; [by left|intros ?; left; auto|right; eauto|intros ->; by right].
Qed.

Lemma adds_absorb m l : (forall c, c ∈ l -> marked m c) -> adds m m l.
Proof.
  intros H. split; intros q; (split; [by left|]).
  - intros [|[f Hf]]; [done|]. by apply (H (q, f)).
  - intros [|Hf]; [done|]. by apply (H (q, true)).
Qed.

Lemma adds_mark count m pos fed :
  marks_wf count m -> pos < count -> adds m (mark m pos fed) [(pos, fed)].
Proof.
  intros Hwf Hp. split; intros q; destruct (mark_tests count m pos fed q Hwf Hp) as [Hr Hf];
    rewrite ?Hr, ?Hf, orb_true_iff, ?andb_true_iff, Nat.eqb_eq; (split; [intros [|]|intros [|]]);
    try (by left); right; set_solver.
Qed.

Lemma adds_trans m1 m2 m3 l1 l2 : adds m1 m2 l1 -> adds m2 m3 l2 -> adds m1 m3 (l1 ++ l2).
Proof.
  intros [Hr1 Hf1] [Hr2 Hf2]. split; intros q.
  - rewrite Hr2, Hr1. setoid_rewrite elem_of_app. naive_solver.
  - rewrite Hf2, Hf1, elem_of_app. tauto.
Qed.

Lemma adds_expand m pos : adds m (expand m pos).2 [].
Proof. apply (adds_refl m). Qed.

Lemma closed_from_adds cs name pos m m' l :
  expanded m' = expanded m -> adds m m' l ->
  closed_from cs name pos m -> closed_from cs name pos m'.
Proof.
  intros He Ha Hc q c Hq Hx Hin. rewrite He in Hx.
  eapply adds_marked; [exact Ha|]. left. by eapply Hc.
Qed.

(** What one cursor's steps establish. *)
Definition step_post (cs : list Component) (name : bytes) (pos : nat) (m m' : Marks)
    (l : list cursor) : Prop :=
  marks_wf (length cs) m' /\ adds m m' l /\ closed_from cs name pos m' /\
  (forall q, q < pos -> mtest (expanded m') q = mtest (expanded m) q).

Lemma step_post_mark cs name pos m at_ fed :
  marks_wf (length cs) m -> closed_from cs name pos m -> at_ < length cs ->
  step_post cs name pos m (mark m at_ fed) [(at_, fed)].
Proof.
  intros Hwf Hcl Hp. pose proof (adds_mark _ _ _ fed Hwf Hp) as Ha.
  split; [by apply marks_wf_mark|split; [done|split; [|done]]].
  by eapply (closed_from_adds _ _ _ m); [|exact Ha|].
Qed.

(** Following a globstar's continuation for the first time. *)
Lemma step_post_first cs name pos m m1 m3 rest az :
  cs !! pos = Some (Globstar az) -> rest = drop (S pos) cs ->
  step_post cs name pos m m1 [(pos, true)] ->
  step_post cs name (S pos) (expand m1 pos).2 m3 (step_spec (length cs) name rest (S pos) false) ->
  step_post cs name pos m m3 ((pos, true) :: step_spec (length cs) name rest (S pos) false).
Proof.
  intros Hc -> (Hwf1 & Ha1 & Hcl1 & He1) (Hwf3 & Ha3 & Hcl3 & He3).
  apply lookup_lt_Some in Hc as Hlt.
  assert (Ha : adds m m3 ([(pos, true)] ++ step_spec (length cs) name (drop (S pos) cs) (S pos) false)).
  { eapply adds_trans; [exact Ha1|]. eapply (adds_trans _ _ _ []); [apply adds_expand|exact Ha3]. }
  split; [done|split; [exact Ha|split]].
  - intros q c Hq Hx Hin. destruct (decide (q = pos)) as [->|].
    + eapply adds_marked; [exact Ha3|]. by right.
    + eapply Hcl3; [|exact Hx|exact Hin]. lia.
  - intros q Hq. rewrite He3 by lia. rewrite (expand_tests _ _ _ _ Hwf1 Hlt).
    destruct (Nat.eqb_spec q pos); [lia|]. rewrite orb_false_r. by apply He1.
Qed.

(** Its continuation was followed already, so its marks are there. *)
Lemma step_post_again cs name pos m rest az :
  cs !! pos = Some (Globstar az) -> rest = drop (S pos) cs ->
  marks_wf (length cs) m -> closed_from cs name pos m -> mtest (expanded m) pos = true ->
  step_post cs name pos m (expand (mark m pos true) pos).2
    ((pos, true) :: step_spec (length cs) name rest (S pos) false).
Proof.
  intros Hc -> Hwf Hcl Hx. apply lookup_lt_Some in Hc as Hlt.
  destruct (step_post_mark cs name pos m pos true Hwf Hcl Hlt) as (Hwf1 & Ha1 & Hcl1 & He1).
  assert (Hsame : forall q, mtest (expanded (expand (mark m pos true) pos).2) q =
                            mtest (expanded m) q).
  { intros q. rewrite (expand_tests _ _ _ _ Hwf1 Hlt). simpl.
    destruct (Nat.eqb_spec q pos) as [->|]; [by rewrite Hx|apply orb_false_r]. }
  split; [by apply marks_wf_expand|split; [|split]].
  - apply (adds_trans _ (mark m pos true) _ [(pos, true)]); [exact Ha1|].
    apply (adds_absorb (mark m pos true)). intros c Hin.
    eapply adds_marked; [exact Ha1|]. left. by eapply (Hcl pos).
  - intros q c Hq Hxq Hin. rewrite Hsame in Hxq.
    eapply (adds_marked m); [exact Ha1|]. left. by eapply Hcl.
  - intros q Hq. apply Hsame.
Qed.

Lemma step_cursor_post name cs rest pos fed m work :
  rest = drop pos cs -> marks_wf (length cs) m -> closed_from cs name pos m ->
  step_post cs name pos m (step_cursor (length cs) name rest pos fed (m, work)).1
    (step_spec (length cs) name rest pos fed).
Proof.
  revert pos fed m work.
  induction rest as [|c rest IH]; intros pos fed m work Hrest Hwf Hcl.
  { split; [done|split; [apply adds_refl|done]]. }
  assert (Hc : cs !! pos = Some c).
  { rewrite <- (Nat.add_0_r pos), <- lookup_drop, <- Hrest. done. }
  assert (Hrest' : rest = drop (S pos) cs).
  { replace (S pos) with (pos + 1) by lia. by rewrite <- drop_drop, <- Hrest. }
  apply lookup_lt_Some in Hc as Hlt.
  assert (Hone : forall b : bool, (b = true -> S pos < length cs) ->
    step_post cs name pos m (if b then mark m (S pos) false else m)
      (if b then [(S pos, false)] else [])).
  { intros [|] Hb; [apply step_post_mark; auto|].
    split; [done|split; [apply adds_refl|done]]. }
  destruct c as [az| |]; cbn [step_cursor step_spec]; try (apply Hone; intros [H%Nat.ltb_lt _]%andb_prop; exact H).
  destruct (az || fed); [|by apply step_post_mark].
  destruct (expand (mark m pos true) pos) as [first m2] eqn:Hex.
  pose proof (expand_first (mark m pos true) pos) as Hf. rewrite Hex in Hf. cbn [fst] in Hf.
  destruct first.
  - eapply step_post_first; [exact Hc|exact Hrest'|by apply step_post_mark|].
    rewrite Hex. apply IH; [done| |].
    + replace m2 with (expand (mark m pos true) pos).2 by by rewrite Hex.
      by apply marks_wf_expand, marks_wf_mark.
    + replace m2 with (expand (mark m pos true) pos).2 by by rewrite Hex.
      intros q x Hq Hx Hin. rewrite (expand_tests (length cs)) in Hx by (done || by apply marks_wf_mark).
      destruct (Nat.eqb_spec q pos); [lia|]. rewrite orb_false_r in Hx.
      eapply (adds_marked m); [by apply (adds_mark (length cs))|]. left. eapply Hcl; [|done..]. lia.
  - replace m2 with (expand (mark m pos true) pos).2 by by rewrite Hex.
    eapply step_post_again; try done.
    change (expanded (mark m pos true)) with (expanded m) in Hf. by destruct (mtest _ pos).
Qed.

(** ** The cursors of a child directory *)

Lemma marks_new_wf count : marks_wf count (marks_new count).
Proof.
  assert (Hw : count <= (count + 63) / 64 * 64).
  { pose proof (Nat.div_mod_eq (count + 63) 64). pose proof (Nat.mod_upper_bound (count + 63) 64 ltac:(lia)). lia. }
  assert (Hok : words_ok (replicate ((count + 63) / 64) 0%N)).
  { by apply Forall_replicate. }
  unfold marks_wf, marks_new. simpl. rewrite length_replicate. done.
Qed.

Lemma mtest_new count q : mtest (replicate count 0%N) q = false.
Proof.
  unfold mtest. destruct (replicate count 0%N !! word_of q) as [w|] eqn:E; [|done].
  by apply lookup_replicate_1 in E as [-> _].
Qed.

Definition step_specs (p : Pattern) (cursors : list cursor) (name : bytes) : list cursor :=
  cursors ≫= fun c => step_spec (length (components p)) name (drop c.1 (components p)) c.1 c.2.

Lemma step_marks_post p cursors name :
  let m := (step_marks p cursors name).1 in
  marks_wf (length (components p)) m /\
  adds (marks_new (length (components p))) m (step_specs p cursors name).
Proof.
  set (cs := components p). unfold step_marks. fold cs.
  assert (Hgen : forall l m w, marks_wf (length cs) m -> closed_from cs name 0 m ->
    let m' := (fold_left (fun mw c => step_cursor (length cs) name (drop c.1 cs) c.1 c.2 mw) l (m, w)).1 in
    marks_wf (length cs) m' /\ adds m m' (step_specs p l name)).
  { induction l as [|c l IH]; intros m w Hwf Hcl; [split; [done|apply adds_refl]|].
    cbn [fold_left].
    assert (Hcl' : closed_from cs name c.1 m) by (intros q x _; apply Hcl; lia).
    destruct (step_cursor_post name cs (drop c.1 cs) c.1 c.2 m w eq_refl Hwf Hcl')
      as (Hwf1 & Ha1 & Hcl1 & He1).
    destruct (step_cursor _ _ _ _ _ _) as [m1 w1]. cbn [fst] in *.
    assert (Hcl0 : closed_from cs name 0 m1).
    { intros q x _ Hx Hin. destruct (decide (c.1 <= q)); [by eapply Hcl1|].
      rewrite He1 in Hx by lia. eapply adds_marked; [exact Ha1|]. left. eapply Hcl; [lia|done..]. }
    destruct (IH m1 w1 Hwf1 Hcl0) as [Hwf2 Ha2]. split; [done|].
    unfold step_specs. rewrite bind_cons. by eapply adds_trans. }
  apply Hgen; [apply marks_new_wf|].
  intros q c _ Hx. simpl in Hx. by rewrite mtest_new in Hx.
Qed.

Lemma step_fst p cursors name : (step p cursors name).1 = (drain (step_marks p cursors name).1).1.
Proof. unfold step. destruct (step_marks p cursors name) as [m w]. done. Qed.

Lemma step_spec_ok cs name rest pos fed c :
  rest = drop pos cs -> c ∈ step_spec (length cs) name rest pos fed -> cursor_ok cs c.
Proof.
  revert pos fed; induction rest as [|x rest IH]; intros pos fed Hrest Hin.
  { by apply not_elem_of_nil in Hin. }
  assert (Hx : cs !! pos = Some x).
  { rewrite <- (Nat.add_0_r pos), <- lookup_drop, <- Hrest. done. }
  assert (Hrest' : rest = drop (S pos) cs).
  { replace (S pos) with (pos + 1) by lia. by rewrite <- drop_drop, <- Hrest. }
  apply lookup_lt_Some in Hx as Hlt.
  assert (Hone : c ∈ (if (S pos <? length cs) && component_matches x name
                      then [(S pos, false)] else []) -> cursor_ok cs c).
  { destruct (Nat.ltb_spec (S pos) (length cs)); simpl; [|set_solver].
    destruct (component_matches x name); [|set_solver].
    intros ->%list_elem_of_singleton. by split. }
  destruct x as [az| |]; cbn [step_spec] in Hin; try by apply Hone.
  apply elem_of_cons in Hin as [->|Hin]; [split; simpl; eauto|].
  destruct (az || fed); [by eapply IH|by apply not_elem_of_nil in Hin].
Qed.

Lemma step_specs_ok p cursors name c :
  c ∈ step_specs p cursors name -> cursor_ok (components p) c.
Proof.
  unfold step_specs. intros (x & Hc & Hx)%list_elem_of_bind.
  by eapply step_spec_ok.
Qed.

(** A step's output as a set: the marked positions, each fed when some cursor
    fed it. *)
Lemma elem_of_step p cursors name q f :
  (q, f) ∈ (step p cursors name).1 <->
  (exists g, (q, g) ∈ step_specs p cursors name) /\
  (f = true <-> (q, true) ∈ step_specs p cursors name).
Proof.
  rewrite step_fst. destruct (step_marks_post p cursors name) as [Hwf [Hr Hf]].
  set (m := (step_marks p cursors name).1) in *.
  rewrite drain_spec by apply Hwf. rewrite list_elem_of_fmap.
  setoid_rewrite list_elem_of_filter. setoid_rewrite elem_of_seq. setoid_rewrite Hr.
  assert (Hnew : forall q, mtest (reached (marks_new (length (components p)))) q = false /\
                      mtest (fed_ (marks_new (length (components p)))) q = false).
  { intros x. simpl. by rewrite mtest_new. }
  specialize (Hf q). destruct (Hnew q) as [_ Hnf]. rewrite Hnf in Hf.
  split.
  - intros (x & [= <- ->] & [[Hx|Hx] _]); [by rewrite (proj1 (Hnew q)) in Hx|].
    split; [done|]. rewrite Hf. naive_solver.
  - intros ([g Hg] & Hft). exists q. split.
    + f_equal. apply Bool.eq_true_iff_eq. rewrite Hft, Hf. naive_solver.
    + split; [right; eauto|]. apply step_specs_ok in Hg as [Hlt _]. simpl in Hlt.
      destruct Hwf as [Hwf _]. lia.
Qed.

Lemma step_ok p cursors name c : c ∈ (step p cursors name).1 -> cursor_ok (components p) c.
Proof.
  destruct c as [q f]. intros [[g Hg] Hf]%elem_of_step. destruct f.
  - apply (step_specs_ok p cursors name). by apply Hf.
  - apply step_specs_ok in Hg as [Hlt _]. by split.
Qed.

Lemma StronglySorted_filter_seq (P : nat -> Prop) `{forall x, Decision (P x)} k n :
  StronglySorted lt (filter P (seq k n)).
Proof.
  revert k; induction n as [|n IH]; intros k; [constructor|]. simpl seq. rewrite filter_cons.
  case_decide; [|apply IH]. constructor; [apply IH|].
  apply Forall_forall. intros x [_ Hx%elem_of_seq]%list_elem_of_filter. lia.
Qed.

Lemma step_sorted p cursors name : StronglySorted lt (fst <$> (step p cursors name).1).
Proof.
  rewrite step_fst, drain_spec by apply step_marks_post.
  rewrite <- list_fmap_compose. unfold compose. simpl. rewrite list_fmap_id.
  apply StronglySorted_filter_seq.
Qed.

(** ** Cursors follow paths *)

Lemma path_match_nil names : path_match [] names <-> names = [].
Proof. split; [by inversion 1|intros ->; constructor]. Qed.

Lemma path_match_nonempty cs names : cs <> [] -> path_match cs names -> names <> [].
Proof.
  intros Hcs Hm. induction Hm as [| |az names Hn|az rest taken names Hr Ht Hm IH]; try done.
  intros [-> ->]%app_eq_nil. by apply IH.
Qed.

Lemma path_match_one c rest name names :
  is_globstar c = false ->
  path_match (c :: rest) (name :: names) <->
  component_matches c name = true /\ path_match rest names.
Proof.
  intros Hc. split; [|intros []; by constructor].
  inversion 1; subst; done.
Qed.

Lemma path_match_last az names : path_match [Globstar az] names <-> names <> [].
Proof.
  split; [|by constructor]. inversion 1; subst; done.
Qed.

Lemma path_match_star az rest name names :
  rest <> [] ->
  path_match (Globstar az :: rest) (name :: names) <->
  (az = true /\ path_match rest (name :: names)) \/ path_match (Globstar true :: rest) names.
Proof.
  intros Hr. split.
  - inversion 1 as [|? ? ? ? Hg| |? ? taken ns ? Haz Hm Heq Htk]; subst; try done.
    destruct taken as [|x taken]; simpl in *; simplify_eq; [naive_solver|].
    right. constructor; auto.
  - intros [[-> Hm]|Hm].
    + apply (pth_star true rest []); auto.
    + inversion Hm as [|? ? ? ? Hg| |? ? taken ns ? Haz Hm']; subst; try done.
      apply (pth_star az rest (name :: taken)); auto.
Qed.

(** The paths a cursor on [rest] still matches. *)
Definition rest_match (rest : list Component) (fed : bool) (names : list bytes) : Prop :=
  match rest with
  | Globstar az :: rest' => path_match (Globstar (az || fed) :: rest') names
  | _ => fed = false /\ path_match rest names
  end.

Lemma cursor_match_rest cs c names : cursor_match cs c names <-> rest_match (drop c.1 cs) c.2 names.
Proof. unfold cursor_match, rest_match. by destruct (drop c.1 cs) as [|[]]. Qed.

Lemma rest_match_unfed rest names : rest_match rest false names <-> path_match rest names.
Proof.
  destruct rest as [|[az| |] rest]; simpl; rewrite ?orb_false_r; naive_solver.
Qed.

Lemma step_spec_match cs name rest pos fed names :
  rest = drop pos cs -> rest <> [] -> names <> [] ->
  (fed = true -> is_some_and (head rest) is_globstar = true) ->
  (exists c, c ∈ step_spec (length cs) name rest pos fed /\ cursor_match cs c names) <->
  rest_match rest fed (name :: names).
Proof.
  revert pos fed; induction rest as [|x rest IH]; intros pos fed Hrest Hne Hn Hfed; [done|].
  assert (Hrest' : rest = drop (S pos) cs).
  { replace (S pos) with (pos + 1) by lia. by rewrite <- drop_drop, <- Hrest. }
  assert (Hlen : length cs = pos + S (length rest)).
  { pose proof (f_equal length Hrest) as Hl. rewrite length_drop in Hl. simpl in Hl. lia. }
  assert (Hone : is_globstar x = false ->
    (exists c, c ∈ (if (S pos <? length cs) && component_matches x name
                    then [(S pos, false)] else []) /\ cursor_match cs c names) <->
    fed = false /\ path_match (x :: rest) (name :: names)).
  { intros Hx. rewrite path_match_one by done.
    assert (Hf : fed = false) by (destruct fed; [|done]; simpl in Hfed; specialize (Hfed eq_refl); congruence).
    destruct (Nat.ltb_spec (S pos) (length cs)) as [Hlt|Hge]; simpl.
    - destruct (component_matches x name); [|set_solver].
      setoid_rewrite list_elem_of_singleton.
      assert (cursor_match cs (S pos, false) names <-> path_match rest names) as Hc.
      { rewrite cursor_match_rest. simpl. rewrite <- Hrest'. apply rest_match_unfed. }
      naive_solver.
    - destruct rest; [|simpl in Hlen; lia]. split; [set_solver|].
      by intros (_ & _ & ->%path_match_nil). }
  destruct x as [az| |]; [|by apply Hone..]. clear Hone. cbn [step_spec rest_match].
  setoid_rewrite elem_of_cons.
  assert (Hhere : cursor_match cs (pos, true) names <-> path_match (Globstar true :: rest) names).
  { rewrite cursor_match_rest. cbn [fst snd]. rewrite <- Hrest. simpl. by rewrite orb_true_r. }
  destruct (decide (rest = [])) as [->|Hr].
  - rewrite path_match_last. split; [done|intros _]. exists (pos, true).
    split; [by left|]. by rewrite Hhere, path_match_last.
  - rewrite path_match_star by done. rewrite <- Hhere.
    destruct (az || fed) eqn:Haf.
    + rewrite <- (rest_match_unfed rest (name :: names)), <- (IH (S pos) false) by done.
      naive_solver.
    + setoid_rewrite elem_of_nil. naive_solver.
Qed.

(** A globstar that may match nothing matches at least as much. *)
Lemma cursor_match_fed cs q names :
  cursor_ok cs (q, true) -> cursor_match cs (q, false) names -> cursor_match cs (q, true) names.
Proof.
  intros [Hq Hg] Hm. destruct (Hg eq_refl) as [az Haz]. simpl in Haz.
  rewrite cursor_match_rest in *. cbn [fst snd] in *. rewrite (drop_S _ _ _ Haz) in *.
  simpl in *. rewrite orb_false_r, orb_true_r in *.
  destruct (decide (drop (S q) cs = [])) as [Hr|Hr]; [rewrite Hr in *; by rewrite path_match_last in *|].
  inversion Hm; subst; try done. constructor; auto.
Qed.

Lemma step_match p cursors name names :
  Forall (cursor_ok (components p)) cursors -> names <> [] ->
  (exists c, c ∈ (step p cursors name).1 /\ cursor_match (components p) c names) <->
  (exists c, c ∈ cursors /\ cursor_match (components p) c (name :: names)).
Proof.
  intros Hok Hn. trans (exists c, c ∈ step_specs p cursors name /\ cursor_match (components p) c names).
  - split.
    + intros ([q f] & [[g Hg] Hf]%elem_of_step & Hm). destruct f.
      * exists (q, true). split; [by apply Hf|done].
      * destruct g; [by apply Hf in Hg|]. eauto.
    + intros ([q f] & Hin & Hm).
      destruct (decide ((q, true) ∈ step_specs p cursors name)) as [Ht|Ht].
      * exists (q, true). split; [apply elem_of_step; naive_solver|].
        destruct f; [done|]. apply cursor_match_fed; [by eapply step_specs_ok|done].
      * exists (q, f). split; [apply elem_of_step; split; [eauto|]|done].
        destruct f; [done|]. naive_solver.
  - unfold step_specs. setoid_rewrite list_elem_of_bind. split.
    + intros (x & (c & Hx & Hc) & Hm). exists c. split; [done|].
      rewrite Forall_forall in Hok. destruct (Hok c Hc) as [Hlt Hf].
      rewrite cursor_match_rest. apply (step_spec_match (components p) name _ c.1); eauto.
      * intros Hd%(f_equal length). rewrite length_drop in Hd. simpl in Hd. lia.
      * intros Hc2. destruct (Hf Hc2) as [az Haz]. by rewrite (drop_S _ _ _ Haz).
    + intros (c & Hc & Hm). rewrite Forall_forall in Hok. destruct (Hok c Hc) as [Hlt Hf].
      rewrite cursor_match_rest in Hm. apply (step_spec_match (components p) name _ c.1) in Hm; eauto.
      * destruct Hm as (x & Hx & Hm). eauto.
      * intros Hd%(f_equal length). rewrite length_drop in Hd. simpl in Hd. lia.
      * intros Hc2. destruct (Hf Hc2) as [az Haz]. by rewrite (drop_S _ _ _ Haz).
Qed.

(** ** Projections decide the last name *)

Lemma any_glob_matches name : name <> [] -> glob_matches any_glob name = true.
Proof.
  intros Hn. apply glob_matches_spec; [by repeat constructor|]. destruct name as [|b name]; [done|].
  simpl. constructor. pose proof (am_star name [] [] am_nil) as H. by rewrite app_nil_r in H.
Qed.

Lemma normalize_star_matches g name :
  name <> [] -> glob_matches (normalize_star g) name = glob_matches g name.
Proof.
  intros Hn. destruct g as [ats]. unfold normalize_star. simpl.
  destruct ats as [|[] [|]]; try done. rewrite any_glob_matches by done. symmetry.
  apply glob_matches_spec; [by repeat constructor|].
  pose proof (am_star name [] [] am_nil) as H. by rewrite app_nil_r in H.
Qed.

(** Whether the rule a target projects to matches a name. *)
Definition target_matches (p : Pattern) (t : option Target) (name : bytes) : bool :=
  is_some_and (project p t)
    (fun q => match components q with c :: _ => component_matches c name | [] => false end).

Lemma matches_name_project p t name is_dir :
  is_some_and (project p t) (fun q => matches_name q name is_dir) =
  (negb (directory_only p) || is_dir) && target_matches p t name.
Proof.
  unfold target_matches. destruct t as [[|i]|]; simpl; [done| |by rewrite andb_false_r].
  destruct (components p !! i) as [[]|]; simpl; by rewrite ?andb_false_r.
Qed.

Lemma path_match_one_end c rest name :
  is_globstar c = false -> rest <> [] -> ~ path_match (c :: rest) [name].
Proof.
  intros Hc Hr [_ Hm]%path_match_one; [|done]. by apply path_match_nonempty in Hm.
Qed.

Lemma tails_head p k rest name :
  rest = drop k (components p) -> rest <> [] -> name <> [] ->
  target_matches p (default None (head (tails k rest))) name = true <-> path_match rest [name].
Proof.
  revert k; induction rest as [|c rest IH]; intros k Hrest Hne Hn; [done|].
  assert (Hc : components p !! k = Some c).
  { rewrite <- (Nat.add_0_r k), <- lookup_drop, <- Hrest. done. }
  assert (Hrest' : rest = drop (S k) (components p)).
  { replace (S k) with (k + 1) by lia. by rewrite <- drop_drop, <- Hrest. }
  destruct (decide (rest = [])) as [Hr|Hr].
  - subst rest. rewrite Hr in *. destruct c as [az|g|]; simpl.
    + rewrite path_match_last. unfold target_matches.
      destruct az; simpl; by rewrite any_glob_matches.
    + rewrite path_match_one, path_match_nil by done. unfold target_matches. simpl.
      rewrite Hc. simpl. rewrite normalize_star_matches by done. naive_solver.
    + rewrite path_match_one by done. unfold target_matches. simpl. naive_solver.
  - assert (Hskip : is_globstar c = false ->
      target_matches p None name = true <-> path_match (c :: rest) [name]).
    { intros Hg. split; [done|]. by intros ?%path_match_one_end. }
    destruct c as [az| |]; simpl; destruct rest as [|c2 rest]; try done; try by apply Hskip.
    rewrite path_match_star by done. rewrite <- (IH (S k)) by done.
    assert (Hnil : ~ path_match (Globstar true :: c2 :: rest) []).
    { intros Hm. by apply path_match_nonempty in Hm. }
    destruct az; naive_solver.
Qed.

Lemma tails_lookup k cs i : tails k cs !! i = head (tails (k + i) (drop i cs)).
Proof.
  revert k i; induction cs as [|c cs IH]; intros k [|i]; try done.
  - by rewrite Nat.add_0_r, drop_0.
  - cbn [tails]. simpl (_ !! S i). rewrite IH. simpl drop. f_equal. f_equal. lia.
Qed.

Lemma lookup_pairs {A} (f g : nat -> A) k n j (b : bool) :
  j < n ->
  concat ((fun i => [f i; g i]) <$> seq k n) !! (j * 2 + if b then 1 else 0) =
  Some (if b then g (k + j) else f (k + j)).
Proof.
  revert k n; induction j as [|j IH]; intros k [|n] Hj; try lia; simpl.
  - rewrite Nat.add_0_r. by destruct b.
  - rewrite IH by lia. by rewrite Nat.add_succ_r.
Qed.

Lemma projection_spec p pos fed :
  pos < length (components p) ->
  projection (projections p) (pos, fed) =
  project p (if fed then fed_target p (tails 0 (components p)) pos
             else default None (tails 0 (components p) !! pos)).
Proof.
  intros Hp. unfold projection, projections. cbn [fst snd].
  rewrite (lookup_pairs
    (fun pos => project p (default None (tails 0 (components p) !! pos)))
    (fun pos => project p (fed_target p (tails 0 (components p)) pos))) by done.
  by destruct fed.
Qed.

(** A cursor's projection matches the last name of the paths it matches. *)
Lemma projection_match p c name is_dir :
  cursor_ok (components p) c -> name <> [] ->
  is_some_and (projection (projections p) c) (fun q => matches_name q name is_dir) = true <->
  (directory_only p = true -> is_dir = true) /\ cursor_match (components p) c [name].
Proof.
  destruct c as [pos fed]. intros [Hpos Hfed] Hn. simpl in Hpos.
  rewrite projection_spec, matches_name_project, andb_true_iff by done.
  assert ((negb (directory_only p) || is_dir = true) <->
          (directory_only p = true -> is_dir = true)) as ->
    by (destruct (directory_only p), is_dir; naive_solver).
  apply and_iff_compat_l. rewrite cursor_match_rest. cbn [fst snd].
  assert (Hne : forall q, q < length (components p) -> drop q (components p) <> []).
  { intros q Hq H%(f_equal length). rewrite length_drop in H. simpl in H. lia. }
  destruct fed.
  - destruct (Hfed eq_refl) as [az Haz]. simpl in Haz. unfold fed_target. rewrite Haz.
    rewrite (drop_S _ _ _ Haz). cbn [rest_match]. rewrite orb_true_r.
    destruct (Nat.eqb_spec (S pos) (length (components p))) as [He|He].
    + rewrite drop_ge by lia. rewrite path_match_last.
      unfold target_matches. simpl. by rewrite any_glob_matches.
    + rewrite tails_lookup, path_match_star by (apply Hne; lia).
      rewrite (tails_head p (S pos)) by (done || apply Hne; lia).
      split; [by left|]. intros [[_ Hm]|Hm]; [done|]. by apply path_match_nonempty in Hm.
  - rewrite tails_lookup, (tails_head p pos) by (done || by apply Hne).
    by rewrite rest_match_unfed.
Qed.

Lemma cursors_at_ok p parents :
  components p <> [] -> Forall (cursor_ok (components p)) (cursors_at p parents).
Proof.
  intros Hne. unfold cursors_at.
  induction parents as [|name parents IH] using rev_ind; simpl.
  - constructor; [|constructor]. split; [|done]. simpl. by destruct (components p); [|simpl; lia].
  - rewrite fold_left_snoc. apply Forall_forall. intros c. apply step_ok.
Qed.

Lemma cursors_at_match p parents names :
  components p <> [] -> names <> [] ->
  (exists c, c ∈ cursors_at p parents /\ cursor_match (components p) c names) <->
  path_match (components p) (parents ++ names).
Proof.
  intros Hne. revert names. unfold cursors_at.
  induction parents as [|name parents IH] using rev_ind; intros names Hn; simpl.
  - setoid_rewrite list_elem_of_singleton. rewrite <- (rest_match_unfed (components p)).
    split; [by intros (? & -> & ?%cursor_match_rest)|]. intros H. exists (0, false).
    split; [done|]. by apply cursor_match_rest.
  - rewrite fold_left_snoc, step_match by (done || by apply cursors_at_ok).
    rewrite <- app_assoc. simpl. by apply IH.
Qed.

Lemma walk_matches p parents name is_dir :
  components p <> [] -> name <> [] ->
  existsb (fun c => is_some_and (projection (projections p) c) (fun q => matches_name q name is_dir))
    (cursors_at p parents) = true <->
  (directory_only p = true -> is_dir = true) /\ path_match (components p) (parents ++ [name]).
Proof.
  intros Hne Hn. pose proof (cursors_at_ok p parents Hne) as Hok. rewrite Forall_forall in Hok.
  rewrite existsb_exists. setoid_rewrite <- list_elem_of_In.
  rewrite <- cursors_at_match by done. split.
  - intros (c & Hc & [Hd Hm]%projection_match); eauto.
  - intros (Hd & c & Hc & Hm). exists c. split; [done|]. apply projection_match; auto.
Qed.

(** [**/X] matches the same last names in every directory. *)
Lemma path_match_shared c parents name :
  path_match [Globstar true; c] (parents ++ [name]) <-> path_match [Globstar true; c] [name].
Proof.
  induction parents as [|n parents IH]; [done|]. simpl.
  rewrite path_match_star, IH by done. split; [|by right].
  intros [[_ Hm]|Hm]; [|done].
  apply path_match_star; [done|]. left. split; [done|].
  destruct (is_globstar c) eqn:Hc.
  - destruct c; try done. by constructor.
  - apply path_match_one in Hm as [_ Hm%path_match_nil]; [|done].
    apply app_eq_nil in Hm as [_ ?]. done.
Qed.

Lemma override_spec p parents name is_dir :
  components p <> [] -> basename_only p = false -> name <> [] ->
  matches_override p (parents ++ [name]) is_dir = true <->
  (directory_only p = true -> is_dir = true) /\ path_match (components p) (parents ++ [name]).
Proof.
  intros Hne Hb Hn. unfold matches_override. rewrite last_snoc, Hb.
  destruct (is_shared_basename p) eqn:Hs.
  - unfold is_shared_basename in Hs. rewrite Hb in Hs. simpl in Hs.
    assert (Hhead : default None (head (projections p)) = projection (projections p) (0, false)).
    { unfold projection. simpl. by destruct (projections p). }
    destruct (components p) as [|[[]| |] [|c []]] eqn:Hcs; try done.
    rewrite path_match_shared, Hhead, <- Hcs.
    rewrite projection_match, cursor_match_rest, Hcs, <- rest_match_unfed; [done| |done].
    rewrite Hcs. split; [simpl; lia|done].
  - rewrite removelast_last. by apply walk_matches.
Qed.

(** ** The work of a step *)

(** No two zero-allowing globstars are neighbours. *)
Fixpoint runs_collapsed (cs : list Component) : bool :=
  match cs with
  | Globstar true :: (Globstar true :: _) => false
  | _ :: rest => runs_collapsed rest
  | [] => true
  end.

Lemma dedup_runs kept cs :
  match kept with
  | Some (Globstar true) => forall rest,
      dedup_globstars kept cs <> Globstar true :: rest
  | _ => True
  end /\ runs_collapsed (dedup_globstars kept cs) = true.
Proof.
  revert kept; induction cs as [|c cs IH]; intros kept.
  - split; [by destruct kept as [[[]| |]|]|done].
  - destruct (decide (c = Globstar true)) as [->|Hc].
    + destruct (IH (Some (Globstar true))) as [Hno Hr].
      destruct (decide (kept = Some (Globstar true))) as [->|Hk]; [by split|].
      assert (Hd : dedup_globstars kept (Globstar true :: cs) =
        Globstar true :: dedup_globstars (Some (Globstar true)) cs)
        by (destruct kept as [[[]| |]|]; done).
      rewrite Hd. split; [by destruct kept as [[[]| |]|]|]. simpl.
      destruct (dedup_globstars _ cs) as [|[[]| |] rest]; try done. by destruct (Hno rest).
    + assert (Hd : dedup_globstars kept (c :: cs) = c :: dedup_globstars (Some c) cs)
        by (destruct c as [[]| |]; done).
      rewrite Hd. destruct (IH (Some c)) as [_ Hr]. split.
      * destruct kept as [[[]| |]|]; try done. intros rest [= -> _]. done.
      * by destruct c as [[]| |].
Qed.

Lemma runs_collapsed_tail c cs : runs_collapsed (c :: cs) = true -> runs_collapsed cs = true.
Proof. destruct c as [[]| |]; simpl; try done. by destruct cs as [|[[]| |]]. Qed.

Lemma runs_collapsed_drop k cs : runs_collapsed cs = true -> runs_collapsed (drop k cs) = true.
Proof.
  revert cs; induction k as [|k IH]; intros cs H; [done|].
  destruct cs as [|c cs]; [done|]. simpl. apply IH. by eapply runs_collapsed_tail.
Qed.

(** A visit that is not on a zero-allowing globstar is the chain's last,
    unless the cursor came in fed. *)
Lemma step_cursor_work count name rest pos m work :
  (forall r, rest <> Globstar true :: r) ->
  (step_cursor count name rest pos false (m, work)).2 <= S work.
Proof. intros Hr. destruct rest as [|[[]| |] rest]; simpl; try lia. by destruct (Hr rest). Qed.

#[local] Instance starts_globstar_dec (rest : list Component) :
  Decision (exists r, rest = Globstar true :: r).
Proof. destruct rest as [|[[]| |] r]; [right|left|right|right|right]; naive_solver. Defined.

Lemma step_cursor_work_two count name rest pos m work :
  runs_collapsed rest = true ->
  (step_cursor count name rest pos false (m, work)).2 <= work + 2.
Proof.
  intros Hr. destruct (decide (exists r, rest = Globstar true :: r)) as [[r ->]|Hn].
  - cbn [step_cursor orb]. destruct (expand _ pos) as [[] m2]; [|simpl; lia].
    etrans; [apply step_cursor_work|lia]. by intros r' ->.
  - etrans; [apply step_cursor_work|lia]. naive_solver.
Qed.

Lemma step_cursor_work_three count name rest pos fed m work :
  runs_collapsed rest = true ->
  (step_cursor count name rest pos fed (m, work)).2 <= work + 3.
Proof.
  intros Hr. destruct rest as [|[az| |] rest]; [simpl; lia| |simpl; lia|simpl; lia].
  cbn [step_cursor]. destruct (az || fed); [|simpl; lia].
  destruct (expand _ pos) as [[] m2]; [|simpl; lia].
  etrans; [apply step_cursor_work_two; by eapply runs_collapsed_tail|lia].
Qed.

Lemma step_marks_work p cursors name :
  runs_collapsed (components p) = true -> (step_marks p cursors name).2 <= 3 * length cursors.
Proof.
  intros Hr. unfold step_marks. set (f := fun _ _ => _). set (z := 0) at 1.
  assert (Hgen : forall mw, (fold_left f cursors mw).2 <= mw.2 + 3 * length cursors).
  { induction cursors as [|c cursors IH]; intros [m w]; simpl; [lia|].
    etrans; [apply IH|]. unfold f at 1.
    pose proof (step_cursor_work_three (length (components p)) name (drop c.1 (components p))
      c.1 c.2 m w (runs_collapsed_drop _ _ Hr)). simpl in *. lia. }
  etrans; [apply Hgen|]. simpl. lia.
Qed.

Lemma length_reached_step p cursors name :
  length (reached (step_marks p cursors name).1) = (length (components p) + 63) / 64.
Proof.
  unfold step_marks. set (f := fun _ _ => _).
  assert (Hcur : forall count name rest pos fed mw,
    length (reached (step_cursor count name rest pos fed mw).1) = length (reached mw.1)).
  { intros count nm rest. induction rest as [|c rest IH]; intros pos fed [m w]; [done|].
    destruct c as [az| |]; cbn [step_cursor].
    - destruct (az || fed); [|simpl; by rewrite length_alter].
      simpl. destruct (_ =? 0)%N; rewrite ?IH; simpl; by rewrite length_alter.
    - destruct (_ && _); simpl; by rewrite ?length_alter.
    - destruct (_ && _); simpl; by rewrite ?length_alter. }
  assert (Hgen : forall mw, length (reached (fold_left f cursors mw).1) = length (reached mw.1)).
  { induction cursors as [|c cursors IH]; intros mw; [done|]. simpl. rewrite IH. apply Hcur. }
  rewrite Hgen. simpl. by rewrite length_replicate.
Qed.

Lemma step_work_bound p cursors name :
  runs_collapsed (components p) = true ->
  (step p cursors name).2 <= 3 * length cursors + (length (components p) + 63) / 64.
Proof.
  intros Hr. pose proof (step_marks_work p cursors name Hr) as Hw.
  pose proof (length_reached_step p cursors name) as Hl. unfold step.
  destruct (step_marks p cursors name) as [m w]. simpl in *. lia.
Qed.

(** ** Splitting: the only error is a trailing backslash *)

Definition all_backslashes (l : bytes) : bool := forallb (fun b => (b =? 92)%N) l.

Lemma count_backslashes_snoc l b :
  count_backslashes (l ++ [b]) =
  if all_backslashes l && (b =? 92)%N then S (length l) else count_backslashes l.
Proof.
  induction l as [|x l IH]; simpl; [by destruct (b =? 92)%N|].
  destruct (x =? 92)%N; [|done]. rewrite IH. simpl. by destruct (_ && _).
Qed.

Lemma all_backslashes_count l : all_backslashes l = true -> count_backslashes l = length l.
Proof.
  induction l as [|x l IH]; simpl; [done|]. destruct (x =? 92)%N; [|done].
  simpl. intros H. by rewrite IH.
Qed.

Lemma all_backslashes_snoc l b :
  all_backslashes (l ++ [b]) = all_backslashes l && (b =? 92)%N.
Proof. unfold all_backslashes. by rewrite forallb_app, <- (andb_true_r (b =? 92)%N). Qed.

(** A byte after an unescaped non-backslash, or a pair after a backslash,
    leaves the parity of the trailing backslashes alone. *)
Lemma odd_backslashes_plain b rest :
  (b =? 92)%N = false ->
  Nat.odd (count_backslashes (rev (b :: rest))) = Nat.odd (count_backslashes (rev rest)).
Proof. intros Hb. simpl. by rewrite count_backslashes_snoc, Hb, andb_false_r. Qed.

Lemma odd_backslashes_pair e rest :
  Nat.odd (count_backslashes (rev (92%N :: e :: rest))) = Nat.odd (count_backslashes (rev rest)).
Proof.
  simpl. rewrite count_backslashes_snoc, N.eqb_refl, andb_true_r, all_backslashes_snoc, length_app.
  rewrite count_backslashes_snoc.
  destruct (all_backslashes (rev rest)) eqn:Ha; simpl; [|done].
  rewrite (all_backslashes_count _ Ha). destruct (e =? 92)%N; [|done].
  replace (S (length (rev rest) + 1)) with (length (rev rest) + 2 * 1) by lia.
  apply Nat.odd_add_mul_2.
Qed.

Lemma push_last_some ps b : ps <> [] -> exists ps', push_last ps b = Some ps' /\ ps' <> [].
Proof.
  intros Hne. unfold push_last. destruct (last ps) eqn:Hl; [|by apply last_None in Hl].
  eexists. split; [done|]. by intros [_ ?]%app_eq_nil.
Qed.

Lemma split_loop_error n pattern ps seps :
  length pattern <= n -> ps <> [] ->
  match split_loop pattern ps seps with
  | Err e => e = "trailing backslash"%string /\
      Nat.odd (count_backslashes (rev pattern)) = true
  | Ok (ps', _) => ps' <> [] /\ Nat.odd (count_backslashes (rev pattern)) = false
  end.
Proof.
  revert pattern ps seps; induction n as [|n IH]; intros pattern ps seps Hlen Hps.
  { destruct pattern; [done|simpl in Hlen; lia]. }
  assert (Happ : forall x, ps ++ [x] <> []) by (intros x H; by apply app_eq_nil in H as [_ ?]).
  destruct pattern as [|b rest]; [done|]. cbn [split_loop].
  destruct (N.eqb_spec b 92) as [->|Hb].
  - destruct rest as [|e rest]; [done|]. rewrite odd_backslashes_pair. simpl in Hlen.
    destruct (e =? 47)%N; [apply IH; [lia|apply Happ]|].
    destruct (push_last_some ps (mkPB e true) Hps) as (ps' & -> & ?). apply IH; [lia|done].
  - apply N.eqb_neq in Hb. rewrite odd_backslashes_plain by done. simpl in Hlen.
    destruct (b =? 47)%N; [apply IH; [lia|apply Happ]|].
    destruct (push_last_some ps (mkPB b false) Hps) as (ps' & -> & ?). apply IH; [lia|done].
Qed.

(** ** Escaped literal names *)

(** A name written as a pattern: every ASCII byte behind a backslash. *)
Definition escape (name : bytes) : bytes :=
  name ≫= fun b => if (b <? 128)%N then [92%N; b] else [b].

Definition escape_part (name : bytes) : list PatternByte :=
  (fun b => mkPB b (b <? 128)%N) <$> name.

Lemma escape_cons b name :
  escape (b :: name) = (if (b <? 128)%N then [92%N; b] else [b]) ++ escape name.
Proof. done. Qed.

Lemma odd_backslashes_escape name rest :
  Nat.odd (count_backslashes (rev (escape name ++ rest))) = Nat.odd (count_backslashes (rev rest)).
Proof.
  induction name as [|b name IH]; [done|]. rewrite escape_cons, <- app_assoc.
  destruct (N.ltb_spec b 128); cbn [app]; [by rewrite odd_backslashes_pair|].
  rewrite odd_backslashes_plain; [done|]. apply N.eqb_neq. lia.
Qed.

Lemma push_last_snoc ps part b : push_last (ps ++ [part]) b = Some (ps ++ [part ++ [b]]).
Proof. unfold push_last. by rewrite last_snoc, removelast_last. Qed.

Lemma split_loop_escape name rest ps part seps :
  Forall (fun b => b <> 47%N) name ->
  split_loop (escape name ++ rest) (ps ++ [part]) seps =
  split_loop rest (ps ++ [part ++ escape_part name]) seps.
Proof.
  intros Hn. revert part. induction Hn as [|b name Hb Hn IH]; intros part.
  { simpl. by rewrite app_nil_r. }
  apply N.eqb_neq in Hb. rewrite escape_cons, <- app_assoc. unfold escape_part. rewrite fmap_cons.
  fold (escape_part name). destruct (N.ltb_spec b 128) as [Hlt|Hge].
  - simpl app. cbn [split_loop]. rewrite N.eqb_refl, Hb, push_last_snoc, IH, <- app_assoc. done.
  - simpl app. cbn [split_loop]. rewrite (proj2 (N.eqb_neq b 92)) by lia.
    rewrite Hb, push_last_snoc, IH, <- app_assoc. done.
Qed.

Lemma component_loop_plain fuel part syntax at_ ats literal :
  Forall (fun b => plain b = true) part -> length part - at_ < fuel ->
  component_loop fuel part syntax at_ ats literal =
  Some (Some (flush_literal ats (literal ++ (value <$> drop at_ part)))).
Proof.
  intros Hp. revert at_ literal. induction fuel as [|fuel IH]; intros at_ literal Hf; [lia|]. simpl.
  destruct (part !! at_) as [b|] eqn:Hb; last first.
  { apply lookup_ge_None in Hb. by rewrite drop_ge, app_nil_r by lia. }
  pose proof (Forall_lookup_1 _ _ _ _ Hp Hb) as Hpb.
  rewrite (drop_S _ _ _ Hb), fmap_cons. apply lookup_lt_Some in Hb.
  assert (Hnext : component_loop fuel part syntax (S at_) ats (literal ++ [value b]) =
    Some (Some (flush_literal ats (literal ++ value b :: (value <$> drop (S at_) part))))).
  { rewrite IH by lia. by rewrite <- app_assoc. }
  unfold plain in Hpb. destruct (escaped b); [done|]. simpl in Hpb.
  destruct (value b =? 42)%N, (value b =? 63)%N, (value b =? 91)%N; done.
Qed.

Lemma compile_escape_part name anchored syntax :
  name <> [] ->
  compile_component (escape_part name) anchored syntax = Glob (mkGlob [Literal name]).
Proof.
  intros Hne. unfold compile_component.
  assert (Hplain : Forall (fun b => plain b = true) (escape_part name)).
  { apply Forall_fmap, Forall_forall. intros b _. unfold compose, plain. simpl.
    destruct (N.ltb_spec b 128); [done|]. simpl.
    by rewrite !(proj2 (N.eqb_neq b _)) by lia. }
  destruct (escape_part name) as [|p0 part] eqn:He; [by destruct name|].
  assert (Hstar : forallb (fun b => pb_is b 42) (p0 :: part) = false).
  { destruct name as [|b name]; [done|]. injection He as <- <-. simpl. unfold pb_is. simpl.
    destruct (N.ltb_spec b 128); [done|]. simpl. by rewrite (proj2 (N.eqb_neq b 42)) by lia. }
  rewrite Hstar, andb_false_r, component_loop_plain by (done || lia).
  rewrite drop_0, <- He. simpl.
  assert (Hv : value <$> escape_part name = name).
  { unfold escape_part. rewrite <- list_fmap_compose. apply list_fmap_id. }
  rewrite Hv. by destruct name.
Qed.

Lemma trim_keep line b :
  b <> 32%N -> trim_trailing_spaces (line ++ [b]) = line ++ [b].
Proof.
  intros Hb%N.eqb_neq. unfold trim_trailing_spaces. rewrite rev_app_distr. simpl. rewrite Hb.
  simpl. by rewrite rev_involutive.
Qed.

Lemma trim_escape name : trim_trailing_spaces (escape name) = escape name.
Proof.
  destruct name as [|b name _] using rev_ind; [done|].
  unfold escape. rewrite bind_app. simpl. rewrite app_nil_r. fold (escape name).
  destruct (N.ltb_spec b 128); [|apply trim_keep; lia].
  destruct (decide (b = 32%N)) as [->|Hb].
  - unfold trim_trailing_spaces. rewrite rev_app_distr. cbn [rev app trim_spaces_rev].
    rewrite N.eqb_refl. cbn [count_backslashes]. rewrite N.eqb_refl, Nat.odd_succ.
    pose proof (odd_backslashes_escape name []) as Ho. rewrite app_nil_r in Ho. simpl in Ho.
    rewrite <- Nat.negb_odd, Ho. simpl. by rewrite rev_involutive, <- app_assoc.
  - change ([92%N; b]) with ([92%N] ++ [b]). rewrite app_assoc. by apply trim_keep.
Qed.

Lemma ends_with_snoc l a b x y :
  ends_with (l ++ [a; b]) [x; y] = (x =? a)%N && (y =? b)%N.
Proof.
  unfold ends_with. rewrite rev_app_distr. cbn [rev app starts_with].
  by destruct (x =? a)%N, (y =? b)%N.
Qed.

(** The last byte of an escaped name is the name's. *)
Lemma escape_last name b : exists l, escape (name ++ [b]) = l ++ [b].
Proof.
  unfold escape. rewrite bind_app. simpl. rewrite app_nil_r.
  destruct (b <? 128)%N; [exists (escape name ++ [92%N])|exists (escape name)];
    by rewrite <- ?app_assoc.
Qed.

Lemma escape_edge_file name :
  name <> [] -> Forall (fun b => b <> 47%N) name ->
  starts_with (escape name) [92; 47]%N || ends_with (escape name) [92; 47]%N = false.
Proof.
  intros Hne Hn. apply orb_false_iff. split.
  - destruct Hn as [|b name Hb Hn]; [done|]. rewrite escape_cons.
    destruct (N.ltb_spec b 128); cbn [app starts_with].
    + rewrite (proj2 (N.eqb_neq 47 b)) by lia. by rewrite andb_false_r.
    + by rewrite (proj2 (N.eqb_neq 92 b)) by lia.
  - destruct name as [|b name _] using rev_ind; [done|].
    destruct (escape_last name b) as [l ->]. apply Forall_app in Hn as [_ Hb].
    inversion Hb as [|? ? Hb47 _]; subst.
    unfold ends_with. rewrite rev_app_distr. cbn [rev app starts_with].
    by rewrite (proj2 (N.eqb_neq 47 b)).
Qed.

Lemma escape_edge_dir name b :
  Forall (fun b => b <> 47%N) (name ++ [b]) ->
  starts_with (escape (name ++ [b]) ++ [47%N]) [92; 47]%N ||
  ends_with (escape (name ++ [b]) ++ [47%N]) [92; 47]%N = (92 =? b)%N.
Proof.
  intros Hn. destruct (escape_last name b) as [l Hl].
  assert (ends_with (escape (name ++ [b]) ++ [47%N]) [92; 47]%N = (92 =? b)%N) as ->.
  { rewrite Hl, <- app_assoc. simpl app. rewrite ends_with_snoc. by rewrite N.eqb_refl, andb_true_r. }
  assert (starts_with (escape (name ++ [b]) ++ [47%N]) [92; 47]%N = false) as ->; [|done].
  clear Hl. destruct name as [|c name]; cbn [app] in Hn |- *; rewrite escape_cons;
    inversion Hn as [|x ? Hx _]; subst;
    match goal with |- context [(?x <? 128)%N] => destruct (N.ltb_spec x 128) end;
    cbn [app starts_with].
  all: try (by rewrite (proj2 (N.eqb_neq 92 _)) by lia).
  all: by rewrite (proj2 (N.eqb_neq 47 _)), andb_false_r by done.
Qed.

(** A line with an escaped first byte is neither a comment nor a [!] line. *)
Lemma escape_start name rest v :
  name <> [] -> (v <? 92)%N = true ->
  starts_with (escape name ++ rest) [v] = false /\ is_empty (escape name ++ rest) = false.
Proof.
  intros Hne Hv%N.ltb_lt. destruct name as [|b name]; [done|]. rewrite escape_cons.
  destruct (N.ltb_spec b 128); cbn [app starts_with is_empty];
    by rewrite (proj2 (N.eqb_neq v _)) by lia.
Qed.

Lemma compile_escape idx name b slash :
  Forall (fun b => b <> 47%N) (name ++ [b]) ->
  compile idx (escape (name ++ [b]) ++ if slash : bool then [47%N] else []) =
  Ok (Some (mkPattern idx MIgnore slash true
    [if slash && (92 =? b)%N then Never else Glob (mkGlob [Literal (name ++ [b])])])).
Proof.
  intros Hn. set (nm := name ++ [b]) in *.
  assert (Hne : nm <> []) by (unfold nm; by intros [_ ?]%app_eq_nil).
  unfold compile, compile_syntax.
  assert (Htrim : trim_trailing_spaces (escape nm ++ if slash then [47%N] else []) =
    escape nm ++ if slash then [47%N] else []).
  { destruct slash; [by apply trim_keep|]. rewrite app_nil_r. apply trim_escape. }
  rewrite Htrim.
  destruct (escape_start nm (if slash then [47%N] else []) 35 Hne eq_refl) as [-> ->].
  destruct (escape_start nm (if slash then [47%N] else []) 33 Hne eq_refl) as [-> _].
  cbn [orb]. rewrite bool_decide_eq_false_2 by done. cbn [andb].
  assert (Hsplit : forall tl, split_loop (escape nm ++ tl) [[]] [] = split_loop tl [escape_part nm] [])
    by (intros tl; exact (split_loop_escape nm tl [] [] [] Hn)).
  assert (Hpe : is_empty (escape_part nm) = false) by (by destruct nm).
  unfold split_components. rewrite Hsplit. destruct slash.
  - change (split_loop [47%N] [escape_part nm] []) with
      (@Ok (list (list PatternByte) * list bool) string ([escape_part nm; []], [true])).
    pose proof (escape_edge_dir name b Hn) as Hedge. fold nm in Hedge. rewrite Hedge.
    simpl. repeat (rewrite Hpe; simpl). rewrite compile_escape_part by done. by destruct (92 =? b)%N.
  - rewrite app_nil_r. cbn [split_loop]. rewrite (escape_edge_file nm Hne Hn).
    simpl. repeat (rewrite Hpe; simpl). by rewrite compile_escape_part.
Qed.

Lemma literal_glob_matches run name :
  run <> [] -> glob_matches (mkGlob [Literal run]) name = true <-> name = run.
Proof.
  intros Hr. rewrite glob_matches_spec by (repeat constructor; by intros [=]).
  simpl. split.
  - inversion 1 as [|? ? t Ht| | |]; subst. apply atoms_match_nil in Ht as ->. by rewrite app_nil_r.
  - intros ->. pose proof (am_literal run [] [] am_nil) as H. by rewrite app_nil_r in H.
Qed.

(** ** Compiled patterns are well formed *)

(** What every pattern that [compile_syntax] returns satisfies. *)
Definition pattern_wf (p : Pattern) : Prop :=
  components p <> [] /\ runs_collapsed (components p) = true /\
  Forall component_wf (components p) /\
  (basename_only p = true -> exists c, components p = [c] /\ is_globstar c = false).

Lemma compile_component_wf part anchored syntax :
  component_wf (compile_component part anchored syntax).
Proof.
  destruct (compile_component part anchored syntax) as [|g|] eqn:H; try done.
  by apply compile_component_normal in H as [H _].
Qed.

Lemma compile_component_basename part syntax :
  is_globstar (compile_component part false syntax) = false.
Proof.
  unfold compile_component. cbn [andb]. destruct part; [done|].
  by destruct (component_loop _ _ _ _ _ _) as [[?|]|].
Qed.

Lemma dedup_subset kept cs c : c ∈ dedup_globstars kept cs -> c ∈ cs.
Proof.
  revert kept; induction cs as [|x cs IH]; intros kept H; [done|].
  destruct x as [[]| |]; simpl in H; try destruct kept as [[[]| |]|];
    (apply elem_of_cons in H as [->|H] || idtac); rewrite elem_of_cons; eauto.
Qed.

Lemma dedup_nonempty cs : cs <> [] -> dedup_globstars None cs <> [].
Proof. by destruct cs as [|[[]| |] cs]. Qed.

Lemma compile_syntax_wf idx line syntax p :
  compile_syntax idx line syntax = Ok (Some p) -> pattern_wf p /\ index p = idx.
Proof.
  unfold compile_syntax. destruct (_ || _); [done|].
  destruct (if starts_with (trim_trailing_spaces line) [33%N] then _ else _) as [res body].
  destruct (_ && is_empty body); [done|].
  destruct (split_components body) as [parsed|]; [|done].
  destruct (parts parsed) as [|part0 rest] eqn:Hparts; [done|]. simpl is_empty.
  set (base := negb (leading_separator parsed) && _).
  set (cs0 := _ <$> _). destruct (_ && existsb is_never cs0); [done|].
  set (cs1 := if escaped_edge parsed then _ else _). intros [= <-].
  assert (Hwf0 : Forall component_wf cs0).
  { apply Forall_fmap, Forall_forall. intros x _. apply compile_component_wf. }
  assert (Hwf1 : Forall component_wf cs1).
  { unfold cs1. destruct (escaped_edge parsed); [|done]. inversion Hwf0; by constructor. }
  assert (Hwf2 : Forall component_wf (imap (set_allow_zero (separators parsed)) cs1)).
  { apply Forall_forall. intros c (i & x & -> & Hx)%elem_of_lookup_imap.
    eapply Forall_lookup_1 in Hwf1; [|exact Hx]. by destruct x. }
  assert (Hlen : length cs1 = length (part0 :: rest)).
  { unfold cs1, cs0. destruct (escaped_edge parsed); simpl; by rewrite ?length_fmap. }
  split; [|done]. split; [|split; [|split]]; simpl.
  - apply dedup_nonempty. intros H. apply (f_equal length) in H.
    rewrite length_imap, Hlen in H. simpl in H. lia.
  - apply dedup_runs.
  - rewrite Forall_forall in *. intros c Hc%dedup_subset. by apply Hwf2.
  - intros Hb. pose proof Hb as [_ Hn]%andb_prop. destruct rest; [|done].
    unfold cs1, cs0. rewrite Hb. cbn [negb].
    assert (Hg : is_globstar (compile_component part0 false syntax) = false)
      by apply compile_component_basename.
    destruct (escaped_edge parsed); simpl; [by eexists|].
    destruct (compile_component part0 false syntax); try done; by eexists.
Qed.

(** * Properties of a pattern *)

(** C17: following an anchored pattern one directory at a time agrees with
    matching it against the whole path.  Stepping its cursors through the
    parents' names, with positions deduplicated in bitsets and continuations
    cut short, and projecting them onto the last name answers exactly whether
    the path matches the component list, in which a globstar stands for any
    number of directories ([**/]), at least one ([**\/]), or a non-empty tail
    (a trailing [**]); a directory-only pattern asks for a directory too. *)
Theorem anchored_pattern_correct (p : Pattern) (parents : list bytes) (name : bytes)
    (is_dir : bool) (Hcs : components p <> []) (Hb : basename_only p = false)
    (Hname : name <> []) :
  matches_override p (parents ++ [name]) is_dir = true <->
  (directory_only p = true -> is_dir = true) /\
  path_match (components p) (parents ++ [name]).
Proof. by apply override_spec. Qed.

Definition sample_anchored : Pattern :=
  mkPattern 3 MIgnore false false
    [Glob (mkGlob [Literal [97%N]]); Globstar true; Globstar false; Glob (mkGlob [Star; Literal [98%N]])].

Lemma anchored_pattern_correct_witness :
  path_match (components sample_anchored) [[97]; [120]; [121]; [99; 98]]%N.
Proof.
  apply (anchored_pattern_correct sample_anchored [[97]; [120]; [121]]%N [99; 98]%N false);
    [discriminate|reflexivity|discriminate|vm_compute; reflexivity].
Defined.

(** The cursors a step returns are canonical: in position order, each
    position once, inside the pattern, and fed only on a globstar. *)
Theorem step_canonical (p : Pattern) (cursors : list cursor) (name : bytes) :
  StronglySorted lt (fst <$> (step p cursors name).1) /\
  Forall (cursor_ok (components p)) (step p cursors name).1.
Proof.
  split; [apply step_sorted|]. apply Forall_forall. intros c. apply step_ok.
Qed.

(** A step of a compiled pattern does at most three component visits per
    cursor plus one word scan per 64 components, however its globstars are
    arranged: the cost the module's comment states. *)
Theorem step_work_bounded (idx : N) (line : bytes) (syntax : Syntax) (p : Pattern)
    (Hp : compile_syntax idx line syntax = Ok (Some p)) (cursors : list cursor) (name : bytes) :
  (step p cursors name).2 <= 3 * length cursors + (length (components p) + 63) / 64.
Proof. apply step_work_bound. by apply compile_syntax_wf in Hp as [(_ & Hr & _) _]. Qed.

Lemma step_work_bounded_witness :
  (step (mkPattern 0 MIgnore false false
     [Globstar true; Glob (mkGlob [Literal [97%N]]); Glob (mkGlob [Literal [98%N]])])
     [(0, false); (1, false)] [97%N]).2 <= 3 * 2 + (3 + 63) / 64.
Proof.
  apply (step_work_bounded 0 [42; 42; 47; 42; 42; 47; 97; 47; 98]%N Ignore);
    vm_compute; reflexivity.
Defined.

(** Splitting a pattern fails only on a trailing backslash: the error is
    returned exactly when the text ends in an odd number of backslashes, and
    the "pattern has no component" error cannot occur. *)
Theorem split_error_iff (pattern : bytes) :
  match split_components pattern with
  | Err e => e = "trailing backslash"%string /\
      Nat.odd (count_backslashes (rev pattern)) = true
  | Ok _ => Nat.odd (count_backslashes (rev pattern)) = false
  end.
Proof.
  pose proof (split_loop_error (length pattern) pattern [[]] [] ltac:(lia) ltac:(done)) as H.
  unfold split_components. destruct (split_loop pattern [[]] []) as [[ps seps]|]; [|done].
  by destruct H.
Qed.

(** A name survives being written as a pattern: with every ASCII byte
    behind a backslash, any name without a slash (leading [!] or [#],
    trailing spaces and glob characters included) compiles to a pattern that
    is indexed under exactly that literal and matches exactly that name. *)
Theorem literal_name_roundtrip (idx : N) (name : bytes) (Hne : name <> [])
    (Hslash : Forall (fun b => b <> 47%N) name) :
  exists p, compile idx (escape name) = Ok (Some p) /\
    literal_basename p = Some name /\
    forall n is_dir, matches_name p n is_dir = true <-> n = name.
Proof.
  destruct name as [|b name _] using rev_ind; [done|].
  pose proof (compile_escape idx name b false Hslash) as H. rewrite app_nil_r in H.
  eexists. split; [exact H|]. split; [by cbn; rewrite ?app_nil_r|].
  intros n is_dir. unfold matches_name. simpl. by rewrite literal_glob_matches.
Qed.

Lemma literal_name_roundtrip_witness :
  exists p, compile 7 (escape [33; 35; 42; 32]%N) = Ok (Some p) /\
    literal_basename p = Some [33; 35; 42; 32]%N /\
    forall n is_dir, matches_name p n is_dir = true <-> n = [33; 35; 42; 32]%N.
Proof.
  apply (literal_name_roundtrip 7 [33; 35; 42; 32]%N); [discriminate|].
  repeat constructor; discriminate.
Defined.

(** C18: a directory pattern for a literal name ([name/] with the name
    escaped) matches exactly the directories of that name, except that when
    the name ends in a backslash the compiled pattern matches nothing: the
    scan for an escaped slash at the pattern's end ([ends_with] of a backslash
    and a slash) also fires on an escaped backslash before a real slash. *)
Theorem literal_directory_pattern (idx : N) (name : bytes) (b : u8)
    (Hslash : Forall (fun b => b <> 47%N) (name ++ [b])) :
  exists p, compile idx (escape (name ++ [b]) ++ [47%N]) = Ok (Some p) /\
    forall n is_dir, matches_name p n is_dir = true <->
      is_dir = true /\ n = name ++ [b] /\ b <> 92%N.
Proof.
  eexists. split; [exact (compile_escape idx name b true Hslash)|].
  intros n is_dir. unfold matches_name. simpl. destruct (N.eqb_spec 92 b) as [<-|Hb]; simpl.
  - rewrite andb_false_r. naive_solver.
  - rewrite andb_true_iff, literal_glob_matches by (by intros [_ ?]%app_eq_nil). naive_solver.
Qed.

Lemma literal_directory_pattern_witness :
  exists p, compile 0 [92; 97; 92; 92; 47]%N = Ok (Some p) /\
    forall n is_dir, matches_name p n is_dir = true <->
      is_dir = true /\ n = [97; 92]%N /\ 92%N <> 92%N.
Proof.
  apply (literal_directory_pattern 0 [97%N] 92). repeat constructor; discriminate.
Defined.
