(* ===== verification/Gitignore.v ===== *)
(** * Gitignore: parsing an ignore file, and a last-match-wins index

    Models [crates/ferret-policy/src/gitignore/mod.rs]: [parse], which
    compiles every line of one ignore file, and the index [Gitignore] over
    basename patterns, which sorts their common shapes into lookup buckets.
    The two hash maps are finite maps keyed by the bytes. *)
From S2P Require Import Prelude Word Glob Pattern.

(** ** Parsing a file *)

(** [LineError]: an invalid line, omitted from the rules. *)
Record LineError := mkLineError { line : N; pattern_ : bytes; detail : string }.

(** [text.strip_prefix('\u{feff}')], on the UTF-8 bytes. *)
Definition strip_bom (text : bytes) : bytes :=
  if starts_with text [239; 187; 191]%N then drop 3 text else text.

(** [line.strip_suffix('\r')]. *)
Definition strip_cr (line : bytes) : bytes :=
  if bool_decide (last line = Some 13%N) then removelast line else line.

(** [original.split('\0').next()]. *)
Definition before_nul (original : bytes) : bytes := default original (head (split_on 0 original)).

(** The loop of [parse] over the numbered lines. *)
Fixpoint parse_lines (idx : N) (lines : list bytes) (patterns : list Pattern)
    (errors : list LineError) : list Pattern * list LineError :=
  match lines with
  | [] => (patterns, errors)
  | line :: rest =>
      let original := before_nul (strip_cr line) in
      match compile idx original with
      | Ok (Some pattern) => parse_lines (idx + 1) rest (patterns ++ [pattern]) errors
      | Ok None => parse_lines (idx + 1) rest patterns errors
      | Err detail =>
          parse_lines (idx + 1) rest patterns (errors ++ [mkLineError (idx + 1) original detail])
      end
  end.

(** [parse]. *)
Definition parse (text : bytes) : list Pattern * list LineError :=
  parse_lines 0 (split_on 10 (strip_bom text)) [] [].

(** ** The index *)

Record FastMatch := mkFast { fm_index : N; fm_result : Match; fm_directory_only : bool }.
Record ByteFastMatch := mkByteFast { bf_bytes : bytes; bf_action : FastMatch }.
Record FixedSuffixMatch := mkFixed { fs_pattern : Pattern; fs_width : nat }.

Record Gitignore := mkGitignore {
  literals : gmap (list N) (list FastMatch);
  extensions : gmap (list N) (list FastMatch);
  prefixes : list ByteFastMatch;
  suffixes : list ByteFastMatch;
  contains : list ByteFastMatch;
  fixed_suffixes : list FixedSuffixMatch;
  general : list Pattern
}.

#[export] Instance FastMatch_eq_dec : EqDecision FastMatch.
Proof. solve_decision. Defined.

(** [Gitignore::default]. *)
Definition empty_gitignore : Gitignore := mkGitignore ∅ ∅ [] [] [] [] [].

(** The action of a pattern. *)
Definition fast (p : Pattern) : FastMatch := mkFast (index p) (result_ p) (directory_only p).

(** [map.entry(key).or_default().push(fast)]. *)
Definition entry_push (m : gmap (list N) (list FastMatch)) (key : bytes) (f : FastMatch)
    : gmap (list N) (list FastMatch) :=
  <[key := default [] (m !! key) ++ [f]]> m.

(** [Gitignore::push]. *)
Definition push (g : Gitignore) (p : Pattern) : Gitignore :=
  let '(mkGitignore li ex pr su co fi ge) := g in
  match literal_basename p with
  | Some literal => mkGitignore (entry_push li literal (fast p)) ex pr su co fi ge
  | None =>
  match simple_extension p with
  | Some extension => mkGitignore li (entry_push ex extension (fast p)) pr su co fi ge
  | None =>
  match basename_prefix p with
  | Some prefix => mkGitignore li ex (pr ++ [mkByteFast prefix (fast p)]) su co fi ge
  | None =>
  match basename_suffix p with
  | Some suffix => mkGitignore li ex pr (su ++ [mkByteFast suffix (fast p)]) co fi ge
  | None =>
  match basename_contains p with
  | Some needle => mkGitignore li ex pr su (co ++ [mkByteFast needle (fast p)]) fi ge
  | None =>
  match fixed_basename_suffix_width p with
  | Some width => mkGitignore li ex pr su co (fi ++ [mkFixed p width]) ge
  | None => mkGitignore li ex pr su co fi (ge ++ [p])
  end end end end end end.

(** The order of [sort_by_key(|pattern| pattern.index)], a stable sort. *)
Definition index_le (p q : Pattern) : Prop := (index p <= index q)%N.
#[export] Instance index_le_dec : RelDecision index_le.
Proof. intros p q. unfold index_le. apply _. Defined.

(** [Gitignore::from_patterns]. *)
Definition from_patterns (patterns : list Pattern) : Gitignore :=
  fold_left push (merge_sort index_le patterns) empty_gitignore.

(** Whether an action applies to this kind of entry. *)
Definition applies (f : FastMatch) (is_dir : bool) : bool := negb (fm_directory_only f) || is_dir.

(** [latest_fast]. *)
Definition latest_fast (entries : list FastMatch) (is_dir : bool) (limit : N) : option FastMatch :=
  find (fun entry => (fm_index entry <? limit)%N && applies entry is_dir) (rev entries).

(** The loop the three scans share: backwards, skipping what is at or above
    the limit, giving up below the best index found so far. *)
Fixpoint scan_loop {A} (action : A -> FastMatch) (hit : A -> bool) (limit : N)
    (entries : list A) (best : option FastMatch) : option FastMatch :=
  match entries with
  | [] => best
  | e :: rest =>
      if (limit <=? fm_index (action e))%N then scan_loop action hit limit rest best
      else if is_some_and best (fun candidate => fm_index (action e) <? fm_index candidate)%N
      then best
      else if hit e then Some (action e)
      else scan_loop action hit limit rest best
  end.

(** [scan_byte_fast]. *)
Definition scan_byte_fast (patterns : list ByteFastMatch) (basename : bytes) (is_dir : bool)
    (limit : N) (best : option FastMatch) (matches : bytes -> bytes -> bool) : option FastMatch :=
  scan_loop bf_action
    (fun e => applies (bf_action e) is_dir && matches basename (bf_bytes e))
    limit (rev patterns) best.

(** [scan_fixed_suffixes]. *)
Definition scan_fixed_suffixes (patterns : list FixedSuffixMatch) (basename : bytes)
    (is_dir : bool) (limit : N) (best : option FastMatch) : option FastMatch :=
  scan_loop (fun e => fast (fs_pattern e))
    (fun e => matches_fixed_basename_suffix (fs_pattern e) basename is_dir (fs_width e))
    limit (rev patterns) best.

(** [scan_patterns]. *)
Definition scan_patterns (patterns : list Pattern) (name : bytes) (is_dir : bool) (limit : N)
    (best : option FastMatch) : option FastMatch :=
  scan_loop fast (fun p => matches_name p name is_dir) limit (rev patterns) best.

(** [name.windows(bytes.len()).any(|window| window == bytes)]. *)
Definition has_window (name needle : bytes) : bool :=
  existsb (fun w => bool_decide (w = needle)) (windows (length needle) name).

(** The entries filed under the name's extension, from its last dot on. *)
Definition extension_entries (g : Gitignore) (name : bytes) : list FastMatch :=
  match rposition (fun b => (b =? 46)%N) name with
  | Some dot => default [] (extensions g !! drop dot name)
  | None => []
  end.

(** [Gitignore::best_below]. *)
Definition best_below (g : Gitignore) (name : bytes) (is_dir : bool) (limit : N)
    : option (N * Match) :=
  let best := latest_fast (default [] (literals g !! name)) is_dir limit in
  let best :=
    match latest_fast (extension_entries g name) is_dir limit with
    | Some candidate =>
        if is_none_or best (fun current => fm_index current <? fm_index candidate)%N
        then Some candidate else best
    | None => best
    end in
  let best := scan_byte_fast (prefixes g) name is_dir limit best starts_with in
  let best := scan_byte_fast (suffixes g) name is_dir limit best ends_with in
  let best := scan_byte_fast (contains g) name is_dir limit best has_window in
  let best := scan_fixed_suffixes (fixed_suffixes g) name is_dir limit best in
  let best := scan_patterns (general g) name is_dir limit best in
  (fun candidate => (fm_index candidate, fm_result candidate)) <$> best.

(** [Gitignore::best]: below [usize::MAX]. *)
Definition best (g : Gitignore) (name : bytes) (is_dir : bool) : option (N * Match) :=
  best_below g name is_dir u64_max.

Example best_example :
  let ps := (parse ([42; 46; 111; 10; 33; 97; 46; 111; 10; 98; 42; 10])%N).1 in
  (best (from_patterns ps) [97; 46; 111]%N false, best (from_patterns ps) [98; 46; 111]%N false,
   best_below (from_patterns ps) [98; 46; 111]%N false 2, best (from_patterns ps) [99%N] false)
  = (Some (1%N, MWhitelist), Some (2%N, MIgnore), Some (0%N, MIgnore), None).
Proof. vm_compute. reflexivity. Qed.

(** ** What each bucket's test means *)

(** A basename pattern as [compile_syntax] and [projections] build them. *)
Definition basename_wf (p : Pattern) : Prop :=
  basename_only p = true /\
  exists c, components p = [c] /\ is_globstar c = false /\ component_wf c.

Lemma compiled_basename_wf p : pattern_wf p -> basename_only p = true -> basename_wf p.
Proof.
  intros (_ & _ & Hwf & Hb) Hp. split; [done|]. destruct (Hb Hp) as (c & Hc & Hg).
  exists c. rewrite Hc in Hwf. by inversion Hwf.
Qed.

Lemma basename_glob_Some p g :
  basename_wf p -> basename_glob p = Some g -> components p = [Glob g] /\ glob_wf g.
Proof.
  intros (Hb & c & Hc & _ & Hwf). unfold basename_glob. rewrite Hc, Hb.
  destruct c; try done. by intros [= ->].
Qed.

Lemma matches_name_glob p g name is_dir :
  components p = [Glob g] -> glob_wf g ->
  matches_name p name is_dir = true <->
  applies (fast p) is_dir = true /\ atoms_match (atoms g) name.
Proof.
  intros Hc Hwf. unfold matches_name. rewrite Hc, andb_true_iff. simpl.
  by rewrite (glob_matches_spec g name Hwf).
Qed.

Lemma atoms_match_literals ats run name :
  literal_bytes_of ats = Some run -> atoms_match ats name <-> name = run.
Proof.
  revert run name; induction ats as [|a ats IH]; intros run name; simpl.
  - intros [= <-]. split; [apply atoms_match_nil|intros ->; constructor].
  - destruct a as [r| | |]; try done. destruct (literal_bytes_of ats) as [s|]; [|done].
    intros [= <-]. split.
    + inversion 1; subst. f_equal. by apply (IH s t eq_refl).
    + intros ->. constructor. by apply (IH s s eq_refl).
Qed.

Lemma atoms_match_all name : atoms_match [Star] name.
Proof. rewrite <- (app_nil_r name). constructor. constructor. Qed.

Lemma atoms_match_literal_cons run rest name :
  atoms_match (Literal run :: rest) name <-> exists t, name = run ++ t /\ atoms_match rest t.
Proof. split; [inversion 1; eauto|]. intros (t & -> & H). by constructor. Qed.

Lemma atoms_match_star_cons rest name :
  atoms_match (Star :: rest) name <-> exists u t, name = u ++ t /\ atoms_match rest t.
Proof.
  rewrite atoms_match_star. split.
  - intros (k & _ & H). exists (take k name), (drop k name). by rewrite take_drop.
  - intros (u & t & -> & H). exists (length u). rewrite length_app, drop_app_length. split; [lia|done].
Qed.

Lemma atoms_match_prefix run name :
  atoms_match [Literal run; Star] name <-> starts_with name run = true.
Proof.
  rewrite atoms_match_literal_cons, starts_with_spec. split; intros (t & H).
  - exists t. tauto.
  - exists t. split; [done|apply atoms_match_all].
Qed.

Lemma ends_with_spec name run : ends_with name run = true <-> exists t, name = t ++ run.
Proof.
  unfold ends_with. rewrite starts_with_spec. split; intros [t H].
  - exists (rev t). apply (f_equal (@rev N)) in H. by rewrite rev_involutive, rev_app_distr, rev_involutive in H.
  - exists (rev t). by rewrite H, rev_app_distr.
Qed.

Lemma atoms_match_suffix run name :
  atoms_match [Star; Literal run] name <-> ends_with name run = true.
Proof.
  rewrite atoms_match_star_cons, ends_with_spec. split.
  - intros (u & t & -> & Ht). exists u. apply (atoms_match_literals _ run) in Ht as ->; [done|].
    simpl. by rewrite app_nil_r.
  - intros (u & ->). exists u, run. split; [done|]. apply (atoms_match_literals _ run); [|done].
    simpl. by rewrite app_nil_r.
Qed.

Lemma has_window_spec name needle :
  needle <> [] -> has_window name needle = true <-> exists u t, name = u ++ needle ++ t.
Proof.
  intros Hn. unfold has_window, windows. rewrite existsb_exists. split.
  - intros (w & Hw%list_elem_of_In & Heq%bool_decide_eq_true). subst w.
    apply list_elem_of_fmap in Hw as (i & Hi & _).
    exists (take i name), (drop (length needle) (drop i name)).
    by rewrite Hi at 1; rewrite !take_drop.
  - intros (u & t & ->). exists needle. split; [|by apply bool_decide_eq_true].
    apply list_elem_of_In, list_elem_of_fmap. exists (length u). split.
    + by rewrite drop_app_length, take_app_length.
    + apply elem_of_seq. rewrite !length_app. destruct needle; [done|]. simpl. lia.
Qed.

Lemma atoms_match_contains run name :
  run <> [] -> atoms_match [Star; Literal run; Star] name <-> has_window name run = true.
Proof.
  intros Hr. rewrite has_window_spec by done. rewrite atoms_match_star_cons. split.
  - intros (u & t & -> & Ht). apply atoms_match_literal_cons in Ht as (v & -> & _). eauto.
  - intros (u & t & ->). exists u, (run ++ t). split; [done|]. apply atoms_match_literal_cons.
    exists t. split; [done|apply atoms_match_all].
Qed.

(** A simple extension is filed under the bytes from a name's last dot on. *)
Lemma ends_with_extension name run :
  head run = Some 46%N -> existsb (fun b => (b =? 46)%N) (drop 1 run) = false ->
  ends_with name run = true <->
  exists dot, rposition (fun b => (b =? 46)%N) name = Some dot /\ drop dot name = run.
Proof.
  intros Hh Hno. destruct run as [|h run]; [done|]. injection Hh as ->. simpl in Hno.
  rewrite drop_0 in Hno. rewrite ends_with_spec. split.
  - intros (t & ->). exists (length t). rewrite drop_app_length. split; [|done].
    apply rposition_Some. split.
    + exists 46%N. by rewrite list_lookup_middle.
    + intros j x Hj Hx. rewrite lookup_app_r in Hx by lia.
      destruct (j - length t) as [|k] eqn:Hk; [lia|]. simpl in Hx.
      apply list_elem_of_lookup_2, list_elem_of_In in Hx.
      destruct (x =? 46)%N eqn:Hxe; [|done]. rewrite <- Hno. symmetry. apply existsb_exists.
      eauto.
  - intros (dot & _ & <-). exists (take dot name). by rewrite take_drop.
Qed.

(** The fixed-width suffix test decides what the glob means. *)
Lemma consume_all_spec ats suffix at_ w :
  total_width ats = Some w -> at_ <= length suffix ->
  atoms_match ats (drop at_ suffix) <-> consume_all ats suffix at_ = Some (length suffix).
Proof.
  revert at_ w; induction ats as [|a ats IH]; intros at_ w; simpl.
  - intros _ Hle. split.
    + intros H%atoms_match_nil%(f_equal length). rewrite length_drop in H. simpl in H.
      f_equal. lia.
    + intros [= ->]; rewrite drop_ge by lia; constructor.
  - destruct (fixed_width a) as [wa|] eqn:Ha; [|done].
    destruct (total_width ats) as [wr|]; [|done]. intros _ Hle. simpl.
    rewrite atoms_match_cons by (by intros ->). split.
    + intros (c & Hc & Hm). rewrite Hc. rewrite drop_drop in Hm.
      apply consumes_width in Hc as [_ Hl]. rewrite length_drop in Hl.
      by apply (IH _ wr eq_refl) in Hm; [|lia].
    + intros H. destruct (consumes a (drop at_ suffix)) as [c|] eqn:Hc; [|done].
      exists c. split; [done|]. rewrite drop_drop.
      apply consumes_width in Hc as [_ Hl]. rewrite length_drop in Hl.
      by apply (IH _ wr eq_refl); [lia|].
Qed.

Lemma atoms_match_total_width ats w text :
  total_width ats = Some w -> atoms_match ats text -> length text = w.
Proof.
  intros Hw H. rewrite <- (app_nil_r ats) in H. apply (atoms_match_fixed _ _ w) in H as [Hl Hn]; [|done].
  apply atoms_match_nil, (f_equal length) in Hn. rewrite length_drop in Hn. simpl in Hn. lia.
Qed.

Lemma fixed_suffix_spec p width name is_dir :
  basename_wf p -> fixed_basename_suffix_width p = Some width ->
  matches_fixed_basename_suffix p name is_dir width = matches_name p name is_dir.
Proof.
  intros Hwf Hw. unfold fixed_basename_suffix_width in Hw.
  destruct (basename_glob p) as [g|] eqn:Hg; [|done]. simpl in Hw.
  pose proof (basename_glob_Some p g Hwf Hg) as [Hc Hgw].
  destruct (atoms g) as [|[| | |] ats] eqn:Hats; try done.
  apply eq_true_iff_eq. rewrite (matches_name_glob p g) by done. rewrite Hats, atoms_match_star_cons.
  unfold matches_fixed_basename_suffix. rewrite Hg, Hats. unfold applies. simpl. rewrite drop_0.
  assert (Ha : negb (directory_only p) || is_dir = negb (directory_only p && negb is_dir))
    by (by destruct (directory_only p), is_dir).
  rewrite Ha. destruct (directory_only p && negb is_dir); simpl; [by split; [|intros [? _]]|].
  clear Ha. destruct (Nat.leb_spec width (length name)) as [Hle|Hlt].
  2:{ split; [done|]. intros [_ (u & t & -> & Ht)].
      apply (atoms_match_total_width _ width) in Ht; [|done]. rewrite length_app in Hlt. lia. }
  set (suffix := drop (length name - width) name).
  assert (Hs : length suffix = width) by (unfold suffix; rewrite length_drop; lia).
  pose proof (consume_all_spec ats suffix 0 width Hw ltac:(lia)) as Hca. rewrite drop_0 in Hca.
  split.
  - intros H. split; [done|]. exists (take (length name - width) name), suffix.
    split; [by unfold suffix; rewrite take_drop|]. apply Hca.
    destruct (consume_all ats suffix 0) as [k|]; [|done]. apply Nat.eqb_eq in H. by subst k.
  - intros [_ (u & t & Hn & Ht)]. assert (t = suffix) as ->.
    { pose proof (atoms_match_total_width _ width _ Hw Ht). unfold suffix. subst name.
      rewrite length_app. replace (length u + length t - width) with (length u) by lia.
      by rewrite drop_app_length. }
    apply Hca in Ht. rewrite Ht. by apply Nat.eqb_eq.
Qed.

(** ** The best of a set of candidates *)

(** [b] is a candidate of highest index among those below [limit]. *)
Definition best_of (limit : N) (hits : FastMatch -> Prop) (b : option FastMatch) : Prop :=
  match b with
  | None => forall f, hits f -> (limit <= fm_index f)%N
  | Some f => hits f /\ (fm_index f < limit)%N /\
      forall g, hits g -> (fm_index g < limit)%N -> (fm_index g <= fm_index f)%N
  end.

Lemma best_of_iff limit h1 h2 b :
  (forall f, h1 f <-> h2 f) -> best_of limit h1 b <-> best_of limit h2 b.
Proof. intros H. destruct b; simpl; by setoid_rewrite H. Qed.

(** The hits among a bucket's entries. *)
Definition hits_in {A} (action : A -> FastMatch) (hit : A -> bool) (entries : list A)
    (f : FastMatch) : Prop :=
  exists e, e ∈ entries /\ hit e = true /\ f = action e.

Definition sorted_entries {A} (action : A -> FastMatch) (entries : list A) : Prop :=
  StronglySorted (fun e f => fm_index (action e) <= fm_index (action f))%N entries.

(** Below the limit and the best so far, an entry cannot improve on it. *)
Lemma best_of_below limit h h' b :
  best_of limit h b ->
  (forall f, h' f -> (fm_index f < limit)%N ->
     exists c, b = Some c /\ (fm_index f <= fm_index c)%N) ->
  best_of limit (fun f => h f \/ h' f) b.
Proof.
  intros Hb Hh. destruct b as [c|]; simpl in *.
  - destruct Hb as (Hc & Hl & Hmax). split; [by left|]. split; [done|].
    intros g [Hg|Hg] Hgl; [by apply Hmax|]. by destruct (Hh g Hg Hgl) as (? & [= <-] & ?).
  - intros f [Hf|Hf]; [by apply Hb|]. apply N.nlt_ge. intros Hl. by destruct (Hh f Hf Hl) as (? & ? & _).
Qed.

Lemma hits_in_snoc {A} (action : A -> FastMatch) hit entries e f :
  hits_in action hit (entries ++ [e]) f <->
  hits_in action hit entries f \/ (hit e = true /\ f = action e).
Proof.
  unfold hits_in. split.
  - intros (x & Hx & Hh & ->). apply elem_of_app in Hx as [Hx|Hx%list_elem_of_singleton]; subst; eauto.
  - intros [(x & Hx & Hh & ->)|[Hh ->]]; [exists x|exists e]; rewrite elem_of_app, list_elem_of_singleton; auto.
Qed.

Lemma sorted_snoc {A} (action : A -> FastMatch) entries e :
  sorted_entries action (entries ++ [e]) <->
  sorted_entries action entries /\
  Forall (fun x => fm_index (action x) <= fm_index (action e))%N entries.
Proof.
  unfold sorted_entries. induction entries as [|x entries IH]; simpl.
  - split; [split; constructor|]. intros _. repeat constructor.
  - split.
    + inversion_clear 1 as [|? ? Hs Hf]. apply IH in Hs as [Hs Hl].
      apply Forall_app in Hf as [Hf He]. rewrite Forall_singleton in He. split; constructor; done.
    + intros [Hs Hl]. inversion_clear Hs as [|? ? Hs' Hf]. inversion_clear Hl as [|? ? He Hl'].
      constructor; [by apply IH|]. apply Forall_app. by rewrite Forall_singleton.
Qed.

Lemma scan_loop_best {A} (action : A -> FastMatch) hit limit entries h b :
  sorted_entries action entries -> best_of limit h b ->
  best_of limit (fun f => h f \/ hits_in action hit entries f)
    (scan_loop action hit limit (rev entries) b).
Proof.
  revert h b. induction entries as [|e entries IH] using rev_ind; intros h b Hs Hb.
  - simpl. eapply best_of_iff; [|exact Hb]. intros f. split; [|by left].
    intros [?|(? & H & _)]; [done|by apply not_elem_of_nil in H].
  - rewrite rev_app_distr. simpl. apply sorted_snoc in Hs as [Hs Hle]. rewrite Forall_forall in Hle.
    assert (Hlater : forall f, hits_in action hit entries f -> (fm_index f <= fm_index (action e))%N).
    { intros f (x & Hx & _ & ->). by apply Hle. }
    assert (Hdone : forall c, best_of limit h (Some c) -> (fm_index (action e) <= fm_index c)%N ->
        best_of limit (fun f => h f \/ hits_in action hit (entries ++ [e]) f) (Some c)).
    { intros c Hc Hec. apply best_of_below; [done|]. intros f Hf _. exists c. split; [done|].
      apply hits_in_snoc in Hf as [Hf|[_ ->]]; [|done]. specialize (Hlater f Hf). lia. }
    assert (Hskip : hit e = false \/ (limit <= fm_index (action e))%N ->
        best_of limit (fun f => h f \/ hits_in action hit (entries ++ [e]) f)
          (scan_loop action hit limit (rev entries) b)).
    { intros He. specialize (IH h b Hs Hb). eapply best_of_iff; cycle 1.
      - apply (best_of_below _ _ (fun f => hit e = true /\ f = action e) _ IH).
        intros f [Hh ->] Hl. destruct He as [He|He]; [congruence|lia].
      - intros f. rewrite hits_in_snoc. tauto. }
    destruct (N.leb_spec limit (fm_index (action e))); [by auto|].
    destruct (is_some_and b _) eqn:Hbest.
    { destruct b as [c|]; [|done]. simpl in Hbest. apply N.ltb_lt in Hbest. apply Hdone; [done|lia]. }
    destruct (hit e) eqn:Hh; [|by auto].
    simpl. split; [right; apply hits_in_snoc; by right|]. split; [done|].
    intros g [Hg|Hg] Hgl.
    + destruct b as [c|]; simpl in *.
      * apply N.ltb_ge in Hbest. destruct Hb as (_ & _ & Hmax). specialize (Hmax g Hg Hgl). lia.
      * specialize (Hb g Hg). lia.
    + apply hits_in_snoc in Hg as [Hg|[_ ->]]; [by apply Hlater|lia].
Qed.

(** The lookup buckets: the last applicable entry below the limit. *)
Lemma latest_fast_scan entries is_dir limit :
  latest_fast entries is_dir limit =
  scan_loop id (fun f => applies f is_dir) limit (rev entries) None.
Proof.
  unfold latest_fast. induction (rev entries) as [|e l IH]; [done|]. simpl.
  destruct (N.ltb_spec (fm_index e) limit), (N.leb_spec limit (fm_index e)); try lia; simpl;
    [by destruct (applies e is_dir)|done].
Qed.

Lemma latest_fast_best entries is_dir limit :
  sorted_entries id entries ->
  best_of limit (hits_in id (fun f => applies f is_dir) entries) (latest_fast entries is_dir limit).
Proof.
  intros Hs. rewrite latest_fast_scan.
  eapply best_of_iff; cycle 1; [apply (scan_loop_best _ _ _ _ (fun _ => False)); [exact Hs|by intros ?]|].
  simpl. tauto.
Qed.

Lemma best_of_join limit h h' b b' :
  best_of limit h b -> best_of limit h' b' ->
  best_of limit (fun f => h f \/ h' f)
    (match b' with
     | Some candidate =>
         if is_none_or b (fun current => fm_index current <? fm_index candidate)%N
         then Some candidate else b
     | None => b
     end).
Proof.
  intros Hb Hb'. destruct b' as [c|]; simpl in Hb'.
  - destruct Hb' as (Hc & Hl & Hmax). destruct (is_none_or b _) eqn:Hn.
    + simpl. split; [by right|]. split; [done|]. intros g [Hg|Hg] Hgl; [|by apply Hmax].
      destruct b as [d|]; simpl in *; [|specialize (Hb g Hg); lia].
      apply N.ltb_lt in Hn. destruct Hb as (_ & _ & Hbm). specialize (Hbm g Hg Hgl). lia.
    + destruct b as [d|]; [|done]. simpl in Hn. apply N.ltb_ge in Hn.
      apply best_of_below; [done|]. intros f Hf Hfl. exists d. split; [done|].
      specialize (Hmax f Hf Hfl). lia.
  - apply best_of_below; [done|]. intros f Hf Hl. specialize (Hb' f Hf). lia.
Qed.

(** ** The index as a set of hits *)

(** The actions of the entries that each bucket of the index finds. *)
Definition index_hits (g : Gitignore) (name : bytes) (is_dir : bool) (f : FastMatch) : Prop :=
  let kind f := applies f is_dir in
  hits_in id kind (default [] (literals g !! name)) f \/
  hits_in id kind (extension_entries g name) f \/
  hits_in bf_action (fun e => kind (bf_action e) && starts_with name (bf_bytes e)) (prefixes g) f \/
  hits_in bf_action (fun e => kind (bf_action e) && ends_with name (bf_bytes e)) (suffixes g) f \/
  hits_in bf_action (fun e => kind (bf_action e) && has_window name (bf_bytes e)) (contains g) f \/
  hits_in (fun e => fast (fs_pattern e))
    (fun e => matches_fixed_basename_suffix (fs_pattern e) name is_dir (fs_width e))
    (fixed_suffixes g) f \/
  hits_in fast (fun p => matches_name p name is_dir) (general g) f.

(** Every bucket is in index order, and within [bound]. *)
Definition bounded_entries {A} (action : A -> FastMatch) (bound : N) (entries : list A) : Prop :=
  sorted_entries action entries /\ Forall (fun e => fm_index (action e) <= bound)%N entries.

Definition index_sorted (g : Gitignore) (bound : N) : Prop :=
  (forall key, bounded_entries id bound (default [] (literals g !! key))) /\
  (forall key, bounded_entries id bound (default [] (extensions g !! key))) /\
  bounded_entries bf_action bound (prefixes g) /\
  bounded_entries bf_action bound (suffixes g) /\
  bounded_entries bf_action bound (contains g) /\
  bounded_entries (fun e => fast (fs_pattern e)) bound (fixed_suffixes g) /\
  bounded_entries fast bound (general g).

Lemma bounded_snoc {A} (action : A -> FastMatch) bound entries e :
  bounded_entries action bound entries -> (bound <= fm_index (action e))%N ->
  bounded_entries action (fm_index (action e)) (entries ++ [e]).
Proof.
  intros [Hs Hb] He. split.
  - apply sorted_snoc. split; [done|]. eapply Forall_impl; [exact Hb|]. simpl. intros; lia.
  - apply Forall_app. split; [|by apply Forall_singleton].
    eapply Forall_impl; [exact Hb|]. simpl. intros; lia.
Qed.

Lemma bounded_mono {A} (action : A -> FastMatch) b1 b2 entries :
  (b1 <= b2)%N -> bounded_entries action b1 entries -> bounded_entries action b2 entries.
Proof. intros Hb [Hs Hf]. split; [done|]. eapply Forall_impl; [exact Hf|]. simpl. intros; lia. Qed.

Lemma entry_push_bounded m bound key f :
  (forall k, bounded_entries id bound (default [] (m !! k))) -> (bound <= fm_index f)%N ->
  forall k, bounded_entries id (fm_index f) (default [] (entry_push m key f !! k)).
Proof.
  intros Hm Hb k. unfold entry_push. rewrite lookup_insert. case_decide; simpl.
  - apply (bounded_snoc id bound); [apply Hm|done].
  - by apply (bounded_mono _ bound).
Qed.

Lemma push_sorted g bound p :
  index_sorted g bound -> (bound <= index p)%N -> index_sorted (push g p) (index p).
Proof.
  intros (H1 & H2 & H3 & H4 & H5 & H6 & H7) Hb. destruct g as [li ex pr su co fi ge].
  assert (Hm : forall A (a : A -> FastMatch) l,
      bounded_entries a bound l -> bounded_entries a (index p) l)
    by (intros A a l; by apply bounded_mono).
  assert (Hs : forall A (a : A -> FastMatch) l e, fm_index (a e) = index p ->
      bounded_entries a bound l -> bounded_entries a (index p) (l ++ [e])).
  { intros A a l e He Hl. rewrite <- He. apply (bounded_snoc a bound); [done|]. by rewrite He. }
  unfold push. simpl in *.
  repeat match goal with |- context [match ?o with Some _ => _ | None => _ end] => destruct o end;
    unfold index_sorted; split_and!; simpl; auto;
    intros key; by apply (entry_push_bounded _ bound _ (fast p)).
Qed.

Lemma entry_push_hits m key k f g kind :
  hits_in id kind (default [] (entry_push m key f !! k)) g <->
  hits_in id kind (default [] (m !! k)) g \/ (key = k /\ kind f = true /\ g = f).
Proof.
  unfold entry_push. rewrite lookup_insert. case_decide as Hk; simpl.
  - subst k. rewrite hits_in_snoc. unfold id. naive_solver.
  - naive_solver.
Qed.

(** What a pushed pattern adds to the hits: itself, where it matches. *)
Definition pushes (p : Pattern) (name : bytes) (is_dir : bool) (f : FastMatch) : Prop :=
  matches_name p name is_dir = true /\ f = fast p.

Lemma pushes_glob p g name is_dir (test : Prop) f :
  components p = [Glob g] -> glob_wf g -> (atoms_match (atoms g) name <-> test) ->
  pushes p name is_dir f <-> test /\ applies (fast p) is_dir = true /\ f = fast p.
Proof.
  intros Hc Hg Ht. unfold pushes. rewrite (matches_name_glob p g) by done. rewrite Ht. tauto.
Qed.

Lemma pushes_byte p g name is_dir (test : bool) f :
  components p = [Glob g] -> glob_wf g -> (atoms_match (atoms g) name <-> test = true) ->
  pushes p name is_dir f <-> applies (fast p) is_dir && test = true /\ f = fast p.
Proof.
  intros Hc Hg Ht. rewrite (pushes_glob p g name is_dir (test = true)) by done.
  rewrite andb_true_iff. tauto.
Qed.

(** Opens a shape query [H : query p = Some run] of a well-formed pattern. *)
Ltac open_query H Hwf :=
  match type of H with
  | context [basename_glob ?p] =>
      let Hg := fresh "Hg" in
      destruct (basename_glob p) as [gl|] eqn:Hg; [|discriminate];
      apply (basename_glob_Some p gl Hwf) in Hg as [Hc Hgw]; cbn in H;
      repeat match type of H with
        | context [match ?l with _ => _ end] => destruct l eqn:?; try discriminate H
        end;
      injection H as <-
  end.

Lemma literal_pushes p run name is_dir f :
  basename_wf p -> literal_basename p = Some run ->
  pushes p name is_dir f <-> name = run /\ applies (fast p) is_dir = true /\ f = fast p.
Proof.
  intros Hwf H. unfold literal_basename in H.
  destruct (basename_glob p) as [gl|] eqn:Hg; [|done].
  apply basename_glob_Some in Hg as [Hc Hgw]; [|done].
  apply (pushes_glob p gl); [done|done|]. by apply atoms_match_literals.
Qed.

Lemma extension_pushes p run name is_dir f :
  basename_wf p -> simple_extension p = Some run ->
  pushes p name is_dir f <->
  (exists dot, rposition (fun b => (b =? 46)%N) name = Some dot /\ drop dot name = run) /\
  applies (fast p) is_dir = true /\ f = fast p.
Proof.
  intros Hwf H. unfold simple_extension in H. open_query H Hwf.
  match goal with Hb : _ || _ = false |- _ =>
    apply orb_false_iff in Hb as [[_ Hh%negb_false_iff]%orb_false_iff Hno] end.
  apply bool_decide_eq_true in Hh. apply (pushes_glob p gl); [done|done|].
  match goal with Ha : atoms gl = _ |- _ => rewrite Ha end.
  rewrite atoms_match_suffix. by apply ends_with_extension.
Qed.

Lemma prefix_pushes p run name is_dir f :
  basename_wf p -> basename_prefix p = Some run ->
  pushes p name is_dir f <-> applies (fast p) is_dir && starts_with name run = true /\ f = fast p.
Proof.
  intros Hwf H. unfold basename_prefix in H. open_query H Hwf.
  apply (pushes_byte p gl); [done|done|].
  match goal with Ha : atoms gl = _ |- _ => rewrite Ha end. apply atoms_match_prefix.
Qed.

Lemma suffix_pushes p run name is_dir f :
  basename_wf p -> basename_suffix p = Some run ->
  pushes p name is_dir f <-> applies (fast p) is_dir && ends_with name run = true /\ f = fast p.
Proof.
  intros Hwf H. unfold basename_suffix in H. open_query H Hwf.
  apply (pushes_byte p gl); [done|done|].
  match goal with Ha : atoms gl = _ |- _ => rewrite Ha end. apply atoms_match_suffix.
Qed.

Lemma contains_pushes p run name is_dir f :
  basename_wf p -> basename_contains p = Some run ->
  pushes p name is_dir f <-> applies (fast p) is_dir && has_window name run = true /\ f = fast p.
Proof.
  intros Hwf H. unfold basename_contains in H. open_query H Hwf.
  apply (pushes_byte p gl); [done|done|].
  match goal with Ha : atoms gl = _ |- _ => rename Ha into Hat end.
  rewrite Hat. apply atoms_match_contains. unfold glob_wf in Hgw. rewrite Hat in Hgw.
  inversion_clear Hgw as [|? ? _ Hw]. inversion_clear Hw as [|? ? Hne _]. by intros ->.
Qed.

Lemma push_hits g p name is_dir f :
  basename_wf p ->
  index_hits (push g p) name is_dir f <-> index_hits g name is_dir f \/ pushes p name is_dir f.
Proof.
  intros Hwf. destruct g as [li ex pr su co fi ge]. unfold push.
  unfold index_hits, extension_entries.
  destruct (literal_basename p) as [run|] eqn:H.
  { rewrite (literal_pushes p run) by done. simpl. rewrite entry_push_hits. naive_solver. }
  clear H. destruct (simple_extension p) as [run|] eqn:H.
  { rewrite (extension_pushes p run) by done. simpl.
    destruct (rposition _ name) as [dot|]; [rewrite entry_push_hits|]; naive_solver. }
  clear H. destruct (basename_prefix p) as [run|] eqn:H.
  { rewrite (prefix_pushes p run) by done. simpl. rewrite hits_in_snoc. simpl. tauto. }
  clear H. destruct (basename_suffix p) as [run|] eqn:H.
  { rewrite (suffix_pushes p run) by done. simpl. rewrite hits_in_snoc. simpl. tauto. }
  clear H. destruct (basename_contains p) as [run|] eqn:H.
  { rewrite (contains_pushes p run) by done. simpl. rewrite hits_in_snoc. simpl. tauto. }
  clear H. unfold pushes. destruct (fixed_basename_suffix_width p) as [w|] eqn:H;
    simpl; rewrite hits_in_snoc; simpl; [rewrite (fixed_suffix_spec p w) by done|]; tauto.
Qed.

Lemma empty_sorted bound : index_sorted empty_gitignore bound.
Proof. unfold index_sorted; split_and!; simpl; intros; split; constructor. Qed.

Lemma empty_hits name is_dir f : ~ index_hits empty_gitignore name is_dir f.
Proof.
  assert (Hn : forall A (a : A -> FastMatch) hit, ~ hits_in a hit [] f)
    by (intros A a hit (e & He & _); by apply not_elem_of_nil in He).
  unfold index_hits, extension_entries. simpl. rewrite lookup_empty. simpl.
  intros H. destruct (rposition _ name); rewrite ?lookup_empty in H; simpl in H;
    repeat destruct H as [H|H]; by apply Hn in H.
Qed.

(** The searched buckets find the best of the hits. *)
Lemma best_below_best g bound name is_dir limit :
  index_sorted g bound ->
  exists b, best_of limit (index_hits g name is_dir) b /\
    best_below g name is_dir limit = (fun c => (fm_index c, fm_result c)) <$> b.
Proof.
  intros (H1 & H2 & [H3 _] & [H4 _] & [H5 _] & [H6 _] & [H7 _]).
  eexists. split; [|reflexivity]. unfold scan_patterns, scan_fixed_suffixes, scan_byte_fast.
  eapply best_of_iff; cycle 1.
  - do 5 (eapply scan_loop_best; [done|]). apply best_of_join.
    + apply latest_fast_best, H1.
    + apply latest_fast_best. unfold extension_entries.
      destruct (rposition _ name); [apply H2|constructor].
  - intros f. unfold index_hits. cbn. tauto.
Qed.

(** The patterns a list of pushes leaves in the index. *)
Lemma fold_push ps g bound :
  Forall basename_wf ps -> index_sorted g bound ->
  StronglySorted index_le ps -> Forall (fun p => bound <= index p)%N ps ->
  (exists b, index_sorted (fold_left push ps g) b) /\
  forall name is_dir f, index_hits (fold_left push ps g) name is_dir f <->
    index_hits g name is_dir f \/ exists p, p ∈ ps /\ pushes p name is_dir f.
Proof.
  intros Hwf. revert g bound. induction Hwf as [|p ps Hp Hps IH]; intros g bound Hg Hs Hb; simpl.
  - split; [by eexists|]. intros. split; [by left|]. intros [?|(? & H & _)]; [done|].
    by apply not_elem_of_nil in H.
  - inversion_clear Hs as [|? ? Hs' Hle]. inversion_clear Hb as [|? ? Hb' _].
    destruct (IH (push g p) (index p)) as [Hbnd Hhits]; [by apply (push_sorted _ bound)|done|done|].
    split; [done|]. intros name is_dir f. rewrite Hhits, push_hits by done.
    setoid_rewrite elem_of_cons. naive_solver.
Qed.

(** [r] names a pattern of highest index among those of [ps] that match the
    entry and lie below [limit]. *)
Definition best_match (ps : list Pattern) (name : bytes) (is_dir : bool) (limit : N)
    (r : option (N * Match)) : Prop :=
  match r with
  | None => forall p, p ∈ ps -> matches_name p name is_dir = true -> (limit <= index p)%N
  | Some (i, res) =>
      (exists p, p ∈ ps /\ matches_name p name is_dir = true /\ index p = i /\ result_ p = res) /\
      (i < limit)%N /\
      forall q, q ∈ ps -> matches_name q name is_dir = true -> (index q < limit)%N ->
        (index q <= i)%N
  end.

Lemma from_patterns_best ps name is_dir limit :
  Forall basename_wf ps ->
  best_match ps name is_dir limit (best_below (from_patterns ps) name is_dir limit).
Proof.
  intros Hwf. unfold from_patterns.
  pose proof (merge_sort_Permutation index_le ps) as Hperm.
  assert (Hsort : StronglySorted index_le (merge_sort index_le ps)).
  { apply StronglySorted_merge_sort.
    - intros p q r. unfold index_le. lia.
    - intros p q. unfold index_le. lia. }
  destruct (fold_push (merge_sort index_le ps) empty_gitignore 0) as [[b Hb] Hhits].
  - by rewrite Hperm.
  - apply empty_sorted.
  - done.
  - apply Forall_forall. intros. apply N.le_0_l.
  - destruct (best_below_best _ b name is_dir limit Hb) as (c & Hc & ->).
    assert (Hh : forall f, index_hits (fold_left push (merge_sort index_le ps) empty_gitignore)
        name is_dir f <-> exists p, p ∈ ps /\ pushes p name is_dir f).
    { intros f. rewrite Hhits. setoid_rewrite Hperm. pose proof (empty_hits name is_dir f). tauto. }
    rewrite (best_of_iff _ _ _ c Hh) in Hc. unfold pushes in Hc.
    destruct c as [c|]; simpl in *.
    + destruct Hc as ((p & Hp & Hm & ->) & Hl & Hmax). split; [by exists p|]. split; [done|].
      intros q Hq Hmq Hql. apply (Hmax (fast q)); [|done]. by exists q.
    + intros p Hp Hm. apply (Hc (fast p)). by exists p.
Qed.

(** ** A numbered list *)

(** The patterns of a list, each renumbered by its place in it. *)
Definition numbered (ps : list Pattern) : list Pattern :=
  imap (fun at_ p => renumbered p (N.of_nat at_)) ps.

Lemma renumbered_wf p idx : basename_wf p -> basename_wf (renumbered p idx).
Proof. done. Qed.

Lemma elem_of_numbered ps q :
  q ∈ numbered ps <-> exists i p, ps !! i = Some p /\ q = renumbered p (N.of_nat i).
Proof.
  unfold numbered. rewrite elem_of_lookup_imap. split; intros (i & p & H1 & H2); eauto.
Qed.

(** In a numbered list the best match is the last one in list order. *)
Definition last_hit (ps : list Pattern) (name : bytes) (is_dir : bool) (limit : N)
    (r : option (N * Match)) : Prop :=
  match r with
  | None => forall i p, ps !! i = Some p -> (N.of_nat i < limit)%N ->
      matches_name p name is_dir = false
  | Some (i, res) =>
      (i < limit)%N /\
      (exists p, ps !! N.to_nat i = Some p /\ matches_name p name is_dir = true /\ result_ p = res) /\
      forall j q, ps !! j = Some q -> N.to_nat i < j -> (N.of_nat j < limit)%N ->
        matches_name q name is_dir = false
  end.

Lemma numbered_last_hit ps name is_dir limit :
  Forall basename_wf ps ->
  last_hit ps name is_dir limit (best_below (from_patterns (numbered ps)) name is_dir limit).
Proof.
  intros Hwf.
  assert (Hn : Forall basename_wf (numbered ps)).
  { apply Forall_forall. intros q (i & p & Hp & ->)%elem_of_numbered.
    apply renumbered_wf. by eapply Forall_lookup_1. }
  pose proof (from_patterns_best (numbered ps) name is_dir limit Hn) as H.
  destruct (best_below _ name is_dir limit) as [[i res]|]; simpl in *.
  - destruct H as ((p & (k & p' & Hk & ->)%elem_of_numbered & Hm & Hi & Hr) & Hl & Hmax).
    simpl in Hi. subst i. rewrite Nat2N.id. split; [done|]. split; [by exists p'|].
    intros j q Hj Hij Hjl. destruct (matches_name q name is_dir) eqn:Hmq; [|done].
    specialize (Hmax (renumbered q (N.of_nat j)) ltac:(apply elem_of_numbered; eauto) Hmq Hjl).
    simpl in Hmax. lia.
  - intros i p Hi Hl. destruct (matches_name p name is_dir) eqn:Hm; [|done].
    specialize (H (renumbered p (N.of_nat i)) ltac:(apply elem_of_numbered; eauto) Hm).
    simpl in H. lia.
Qed.

(** ** What [parse] returns *)

Lemma parse_lines_app idx lines ps errors :
  parse_lines idx lines ps errors =
  let r := parse_lines idx lines [] [] in (ps ++ r.1, errors ++ r.2).
Proof.
  revert idx ps errors; induction lines as [|l lines IH]; intros idx ps errors; simpl.
  - by rewrite !app_nil_r.
  - destruct (compile idx _) as [[p|]|e]; rewrite IH.
    + rewrite (IH _ [p]). simpl. by rewrite <- app_assoc.
    + done.
    + rewrite (IH _ [] [_]). simpl. by rewrite <- app_assoc.
Qed.

Lemma compile_wf idx line p : compile idx line = Ok (Some p) -> pattern_wf p /\ index p = idx.
Proof. apply compile_syntax_wf. Qed.

(** A file's patterns are well formed and in strictly increasing line order. *)
Lemma parse_lines_sorted idx lines :
  StronglySorted N.lt (index <$> (parse_lines idx lines [] []).1) /\
  Forall (fun p => pattern_wf p /\ idx <= index p)%N (parse_lines idx lines [] []).1.
Proof.
  revert idx; induction lines as [|l lines IH]; intros idx; [by split; constructor|].
  destruct (IH (idx + 1)%N) as [Hs Hf].
  assert (Hf' : Forall (fun p => pattern_wf p /\ idx <= index p)%N
      (parse_lines (idx + 1) lines [] []).1).
  { eapply Forall_impl; [exact Hf|]. simpl. intros p [? ?]. split; [done|lia]. }
  cbn [parse_lines]. destruct (compile idx _) as [[p|]|e] eqn:Hc; rewrite parse_lines_app; simpl;
    [|by split..].
  apply compile_wf in Hc as [Hp <-]. split.
  - constructor; [done|]. apply Forall_fmap. eapply Forall_impl; [exact Hf|]. simpl. intros q [_ ?]. lia.
  - constructor; [split; [done|lia]|done].
Qed.

Lemma parse_sorted text :
  StronglySorted N.lt (index <$> (parse text).1) /\ Forall pattern_wf (parse text).1.
Proof.
  destruct (parse_lines_sorted 0 (split_on 10 (strip_bom text))) as [Hs Hf]. split; [done|].
  eapply Forall_impl; [exact Hf|]. simpl. tauto.
Qed.

(** * Properties of the index *)

(** C19: the bucketed index is last-match-wins.  For any basename patterns, in
    any order and with any mix of shapes (literal, extension, prefix, suffix,
    substring, fixed-width, general), a lookup below a limit returns the
    index and action of a matching pattern such that no matching pattern
    below the limit has a higher index, and returns nothing only when no
    pattern below the limit matches. *)
Theorem index_last_match_wins (ps : list Pattern) (name : bytes) (is_dir : bool) (limit : N)
    (Hps : Forall basename_wf ps) :
  best_match ps name is_dir limit (best_below (from_patterns ps) name is_dir limit).
Proof. by apply from_patterns_best. Qed.

Definition sample_patterns : list Pattern :=
  [mkPattern 4 MWhitelist false true [Glob (mkGlob [Literal [97; 46; 111]%N])];
   mkPattern 1 MIgnore false true [Glob (mkGlob [Star; Literal [46; 111]%N])];
   mkPattern 6 MIgnore true true [Glob (mkGlob [Star; Any; Literal [111]%N])]].

Lemma index_last_match_wins_witness :
  best_below (from_patterns sample_patterns) [97; 46; 111]%N true 6 = Some (4%N, MWhitelist) /\
  best_match sample_patterns [97; 46; 111]%N true 6 (Some (4%N, MWhitelist)).
Proof.
  split; [vm_compute; reflexivity|].
  apply (index_last_match_wins sample_patterns [97; 46; 111]%N true 6).
  repeat constructor; eexists; (split; [reflexivity|]); (split; [reflexivity|]);
    repeat constructor; discriminate.
Defined.

(** The fixed-width bucket reads a bare star as a suffix of width zero,
    which every name has: the compiled line [*] is filed there and found for
    every name, so rewriting it to [?*] in a projection is not needed for
    the lookup to be right. *)
Theorem bare_star_matches_all (idx : N) (name : bytes) (is_dir : bool) :
  exists p, compile idx [42%N] = Ok (Some p) /\ fixed_basename_suffix_width p = Some 0 /\
    matches_fixed_basename_suffix p name is_dir 0 = true /\
    best_below (from_patterns [p]) name is_dir (idx + 1) = Some (idx, MIgnore).
Proof.
  set (p := mkPattern idx MIgnore false true [Glob (mkGlob [Star])]).
  exists p. split; [reflexivity|]. split; [reflexivity|].
  assert (Hwf : basename_wf p) by (split; [done|]; eexists; split; [done|]; split; [done|];
    repeat constructor; discriminate).
  assert (Hfix : matches_fixed_basename_suffix p name is_dir 0 = true).
  { unfold matches_fixed_basename_suffix. cbn [p directory_only basename_glob components
      basename_only atoms Nat.leb andb]. by rewrite Nat.sub_0_r, (drop_ge name) by lia. }
  split; [exact Hfix|]. rewrite (fixed_suffix_spec p 0) in Hfix by done.
  pose proof (from_patterns_best [p] name is_dir (idx + 1) ltac:(by apply Forall_singleton)) as Hb.
  destruct (best_below _ name is_dir _) as [[i r]|]; simpl in Hb.
  - destruct Hb as ((q & ->%list_elem_of_singleton & _ & <- & <-) & _). done.
  - specialize (Hb p ltac:(by apply list_elem_of_singleton) Hfix). simpl in Hb. lia.
Qed.
