(* ===== verification/Lists.v ===== *)
(** * Lists: interned rules and rule lists

    Models [crates/ferret-policy/src/lists.rs].  The two tables sit behind
    mutexes in the source; here they are one explicit state, passed through
    the operations that insert into them.  A hash map that is only probed and
    inserted into is an association list in insertion order. *)
From S2P Require Import Prelude Word Glob Pattern Gitignore.

(** ** Data *)

(** [Band]: which kind of ignore file a rule came from, lowest first. *)
Inductive Band := BGlobal | BRepo | BFerret.

Record Rule := mkRule { id_ : nat; rule_pattern : Pattern; band : Band }.

(** [List]: one directory's rules compiled for matching. *)
Record CList := mkCList {
  key : list nat;
  index_of : Gitignore;
  repo_from : nat;
  ferret_from : nat
}.

(** [Lists]: the rule and list tables of one root. *)
Record Lists := mkLists {
  rules_ : list ((RuleText * Band) * Rule);
  lists_ : list (list nat * CList)
}.

#[export] Instance Band_eq_dec : EqDecision Band.
Proof. solve_decision. Defined.
#[export] Instance Rule_eq_dec : EqDecision Rule.
Proof. solve_decision. Defined.

(** The derived order of [Band]. *)
Definition band_rank (b : Band) : nat :=
  match b with BGlobal => 0 | BRepo => 1 | BFerret => 2 end.

(** [Lists::default]. *)
Definition empty_lists : Lists := mkLists [] [].

(** [map.get(key)]. *)
Fixpoint probe {K V} `{EqDecision K} (k : K) (table : list (K * V)) : option V :=
  match table with
  | [] => None
  | (k', v) :: rest => if bool_decide (k = k') then Some v else probe k rest
  end.

(** ** Operations *)

(** [List::compile]. *)
Definition compile_list (rules : list Rule) : CList :=
  mkCList (id_ <$> rules) (from_patterns (numbered (rule_pattern <$> rules)))
    (partition_point (fun r => bool_decide (band r = BGlobal)) rules)
    (partition_point (fun r => band_rank (band r) <? band_rank BFerret) rules).

(** [List::last_match]: whether the last match whitelists, and whether it
    came from a [.ferretignore]. *)
Definition last_match (l : CList) (name : bytes) (is_dir : bool) : option (bool * bool) :=
  (fun '(at_, res) => (bool_decide (res = MWhitelist), (N.of_nat (ferret_from l) <=? at_)%N))
    <$> best (index_of l) name is_dir.

(** [List::repo_whitelists]. *)
Definition repo_whitelists (l : CList) (name : bytes) (is_dir : bool) : bool :=
  is_some_and (best_below (index_of l) name is_dir (N.of_nat (ferret_from l)))
    (fun '(at_, res) => (N.of_nat (repo_from l) <=? at_)%N && bool_decide (res = MWhitelist)).

(** [Lists::rule]. *)
Definition rule (ls : Lists) (pattern : Pattern) (b : Band) : Rule * Lists :=
  let text := (text pattern, b) in
  let id := length (rules_ ls) in
  match probe text (rules_ ls) with
  | Some r => (r, ls)
  | None =>
      let r := mkRule id pattern b in
      (r, mkLists (rules_ ls ++ [(text, r)]) (lists_ ls))
  end.

(** [Lists::list]. *)
Definition list_ (ls : Lists) (k : list nat) (rules : list Rule) : CList * Lists :=
  match probe k (lists_ ls) with
  | Some l => (l, ls)
  | None =>
      let l := compile_list rules in
      match probe (key l) (lists_ ls) with
      | Some l' => (l', ls)
      | None => (l, mkLists (rules_ ls) (lists_ ls ++ [(key l, l)]))
      end
  end.

(** ** What a list answers *)

(** The last rule that matches an entry. *)
Fixpoint last_rule (rules : list Rule) (name : bytes) (is_dir : bool) : option Rule :=
  match rules with
  | [] => None
  | r :: rest =>
      match last_rule rest name is_dir with
      | Some r' => Some r'
      | None => if matches_name (rule_pattern r) name is_dir then Some r else None
      end
  end.

Lemma last_rule_app l1 l2 name is_dir :
  last_rule (l1 ++ l2) name is_dir =
  match last_rule l2 name is_dir with Some r => Some r | None => last_rule l1 name is_dir end.
Proof.
  induction l1 as [|r l1 IH]; simpl; [by destruct last_rule|]. rewrite IH.
  by destruct (last_rule l2 name is_dir).
Qed.

Lemma last_rule_spec rules name is_dir :
  match last_rule rules name is_dir with
  | Some r => exists i, rules !! i = Some r /\ matches_name (rule_pattern r) name is_dir = true /\
      forall j q, rules !! j = Some q -> i < j -> matches_name (rule_pattern q) name is_dir = false
  | None => forall i r, rules !! i = Some r -> matches_name (rule_pattern r) name is_dir = false
  end.
Proof.
  induction rules as [|r rules IH]; simpl; [by intros i r; rewrite lookup_nil|].
  destruct (last_rule rules name is_dir) as [r'|].
  - destruct IH as (i & Hi & Hm & Hl). exists (S i). split; [done|]. split; [done|].
    intros [|j] q Hj ?; [lia|]. apply (Hl j); [done|lia].
  - destruct (matches_name (rule_pattern r) name is_dir) eqn:Hm.
    + exists 0. split; [done|]. split; [done|]. intros [|j] q Hj ?; [lia|]. by apply (IH j).
    + intros [|j] q Hj; [by injection Hj as <-|by apply (IH j)].
Qed.

Lemma last_rule_elem rules name is_dir r :
  last_rule rules name is_dir = Some r -> r ∈ rules /\ matches_name (rule_pattern r) name is_dir = true.
Proof.
  intros H. pose proof (last_rule_spec rules name is_dir) as Hs. rewrite H in Hs.
  destruct Hs as (i & Hi & Hm & _). split; [by eapply list_elem_of_lookup_2|done].
Qed.

(** Rules in band order: what [State::layers] yields. *)
Definition bands_sorted (rules : list Rule) : Prop :=
  StronglySorted (fun r q => band_rank (band r) <= band_rank (band q)) rules.

Lemma partition_point_sorted (rules : list Rule) n :
  bands_sorted rules -> forall i r, rules !! i = Some r ->
  (i < partition_point (fun r => band_rank (band r) <? n) rules <-> band_rank (band r) < n).
Proof.
  induction 1 as [|x rules Hs IH Hx]; intros i r Hi; [by rewrite lookup_nil in Hi|].
  simpl. destruct (Nat.ltb_spec (band_rank (band x)) n) as [Hlt|Hge].
  - destruct i as [|i]; simpl in Hi; [injection Hi as ->; lia|]. rewrite <- (IH i r Hi). lia.
  - split; [lia|]. intros Hr. destruct i as [|i]; simpl in Hi; [injection Hi as ->; lia|].
    eapply Forall_lookup_1 in Hx; [|exact Hi]. simpl in Hx. lia.
Qed.

Lemma repo_from_sorted rules i r :
  bands_sorted rules -> rules !! i = Some r ->
  (i < repo_from (compile_list rules) <-> band r = BGlobal).
Proof.
  intros Hs Hi. simpl. rewrite (partition_point_ext _ (fun r => band_rank (band r) <? 1)).
  - rewrite (partition_point_sorted rules 1 Hs i r Hi). by destruct (band r); simpl; split; try done; lia.
  - intros x. by destruct (band x).
Qed.

Lemma ferret_from_sorted rules i r :
  bands_sorted rules -> rules !! i = Some r ->
  (i < ferret_from (compile_list rules) <-> band r <> BFerret).
Proof.
  intros Hs Hi. simpl. change (band_rank BFerret) with 2.
  rewrite (partition_point_sorted rules 2 Hs i r Hi).
  destruct (band r); simpl; split; try done; lia.
Qed.

(** The rules a list can be compiled from. *)
Definition rules_ok (rules : list Rule) : Prop :=
  bands_sorted rules /\ Forall (fun r => basename_wf (rule_pattern r)) rules.

Lemma rules_last_hit rules name is_dir limit :
  rules_ok rules ->
  last_hit (rule_pattern <$> rules) name is_dir limit
    (best_below (index_of (compile_list rules)) name is_dir limit).
Proof. intros [_ Hwf]. apply numbered_last_hit. by apply Forall_fmap. Qed.

Lemma lookup_patterns (rules : list Rule) i p :
  (rule_pattern <$> rules) !! i = Some p -> exists r, rules !! i = Some r /\ p = rule_pattern r.
Proof. rewrite list_lookup_fmap. destruct (rules !! i) as [r|]; [|done]. intros [= <-]. eauto. Qed.

(** The index below a limit answers with the last matching rule of the
    rules [pre] below that limit. *)
Lemma best_below_last_rule rules pre name is_dir limit :
  rules_ok rules ->
  (forall i r, pre !! i = Some r <-> rules !! i = Some r /\ (N.of_nat i < limit)%N) ->
  match best_below (index_of (compile_list rules)) name is_dir limit with
  | Some (i, res) => exists r, rules !! N.to_nat i = Some r /\ result_ (rule_pattern r) = res /\
      last_rule pre name is_dir = Some r
  | None => last_rule pre name is_dir = None
  end.
Proof.
  intros Hok Hpre. pose proof (rules_last_hit rules name is_dir limit Hok) as H.
  pose proof (last_rule_spec pre name is_dir) as Hr.
  assert (Hmiss : forall j q, pre !! j = Some q -> (rule_pattern <$> rules) !! j = Some (rule_pattern q)
      /\ (N.of_nat j < limit)%N).
  { intros j q [Hq Hl]%Hpre. by rewrite list_lookup_fmap, Hq. }
  destruct (best_below _ name is_dir limit) as [[i res]|]; simpl in H.
  - destruct H as (Hil & (p & Hp & Hm & Hres) & Hlast).
    apply lookup_patterns in Hp as (r & Hi & ->). exists r. split; [done|]. split; [done|].
    assert (Hpi : pre !! N.to_nat i = Some r) by (apply Hpre; split; [done|lia]).
    destruct (last_rule pre name is_dir) as [r'|]; [|by rewrite (Hr _ _ Hpi) in Hm].
    destruct Hr as (j & Hj & Hmj & Hlj). destruct (Hmiss _ _ Hj) as [Hjp Hjl].
    assert (j = N.to_nat i) as ->; [|by simplify_eq].
    destruct (Nat.lt_total j (N.to_nat i)) as [Hlt|[|Hgt]]; [|done|]; exfalso.
    + specialize (Hlj _ r Hpi Hlt). congruence.
    + specialize (Hlast _ _ Hjp Hgt Hjl). congruence.
  - destruct (last_rule pre name is_dir) as [r'|]; [|done].
    destruct Hr as (j & Hj & Hmj & _). destruct (Hmiss _ _ Hj) as [Hjp Hjl].
    by rewrite (H _ _ Hjp Hjl) in Hmj.
Qed.

Lemma last_match_spec rules name is_dir :
  rules_ok rules -> (N.of_nat (length rules) < u64_max)%N ->
  last_match (compile_list rules) name is_dir =
  (fun r => (is_whitelist (rule_pattern r), bool_decide (band r = BFerret)))
    <$> last_rule rules name is_dir.
Proof.
  intros Hok Hlen. pose proof Hok as [Hs _]. unfold last_match, best.
  pose proof (best_below_last_rule rules rules name is_dir u64_max Hok) as H.
  assert (Hpre : forall i r, rules !! i = Some r <->
      rules !! i = Some r /\ (N.of_nat i < u64_max)%N).
  { intros i r. split; [|tauto]. intros Hi. split; [done|]. apply lookup_lt_Some in Hi. lia. }
  specialize (H Hpre). clear Hpre.
  destruct (best_below _ name is_dir u64_max) as [[i res]|]; [|by rewrite H].
  destruct H as (r & Hi & <- & ->).
  cbn [fmap option_fmap option_map]. do 2 f_equal.
  pose proof (ferret_from_sorted rules _ r Hs Hi) as Hf.
  apply eq_true_iff_eq. rewrite N.leb_le, bool_decide_eq_true.
  destruct (decide (band r = BFerret)) as [He|He]; split; try done; intros Hx.
  - assert (~ N.to_nat i < ferret_from (compile_list rules)) by tauto. lia.
  - assert (N.to_nat i < ferret_from (compile_list rules)) by tauto. lia.
Qed.

(** The rules below [ferret_from] are those not from a [.ferretignore]. *)
Lemma take_ferret_from rules :
  bands_sorted rules ->
  take (ferret_from (compile_list rules)) rules = filter (fun r => band r <> BFerret) rules.
Proof.
  simpl. change (band_rank BFerret) with 2. induction 1 as [|x rules Hs IH Hx]; [done|].
  simpl. rewrite filter_cons. destruct (Nat.ltb_spec (band_rank (band x)) 2) as [Hlt|Hge].
  - simpl. rewrite IH. by destruct (band x); simpl in Hlt; [..|lia].
  - rewrite decide_False by (destruct (band x); simpl in Hge; auto; lia).
    symmetry. apply filter_all_out. intros q Hq. rewrite Forall_forall in Hx.
    specialize (Hx q Hq). destruct (band q); simpl in Hx; [lia..|]. auto.
Qed.

Lemma repo_whitelists_spec rules name is_dir :
  rules_ok rules ->
  repo_whitelists (compile_list rules) name is_dir =
  is_some_and (last_rule (filter (fun r => band r <> BFerret) rules) name is_dir)
    (fun r => bool_decide (band r = BRepo) && is_whitelist (rule_pattern r)).
Proof.
  intros Hok. pose proof Hok as [Hs _]. rewrite <- take_ferret_from by done.
  unfold repo_whitelists. set (ff := ferret_from (compile_list rules)).
  pose proof (best_below_last_rule rules (take ff rules) name is_dir (N.of_nat ff) Hok) as H.
  assert (Hpre : forall i r, take ff rules !! i = Some r <->
      rules !! i = Some r /\ (N.of_nat i < N.of_nat ff)%N).
  { intros i r. rewrite lookup_take_Some. split; intros [? ?]; (split; [done|lia]). }
  specialize (H Hpre). destruct (best_below _ name is_dir _) as [[i res]|]; [|by rewrite H].
  destruct H as (r & Hi & <- & Hlast). rewrite Hlast. cbn [is_some_and].
  assert (Hf : band r <> BFerret).
  { apply last_rule_elem in Hlast as [Hr _]. unfold ff in Hr. rewrite take_ferret_from in Hr by done.
    by apply list_elem_of_filter in Hr as [? _]. }
  pose proof (repo_from_sorted rules _ r Hs Hi) as Hg.
  apply eq_true_iff_eq. rewrite !andb_true_iff, N.leb_le, !bool_decide_eq_true.
  assert (N.of_nat (repo_from (compile_list rules)) <= i <-> band r <> BGlobal)%N as ->.
  { rewrite <- Hg. lia. }
  unfold is_whitelist. rewrite bool_decide_eq_true. destruct (band r); naive_solver.
Qed.

(** ** Interning *)

(** Patterns with one text match alike. *)
Lemma text_matches p q name is_dir :
  basename_wf p -> basename_wf q -> text p = text q ->
  matches_name p name is_dir = matches_name q name is_dir /\ is_whitelist p = is_whitelist q.
Proof.
  intros (_ & c & Hc & Hg & _) (_ & d & Hd & Hh & _). unfold text, matches_name.
  rewrite Hc, Hd. destruct c, d; try done; intros [=]; split; congruence.
Qed.

(** A rule is interned when it stands in the table at its id. *)
Definition interned (ls : Lists) (r : Rule) : Prop :=
  rules_ ls !! id_ r = Some ((text (rule_pattern r), band r), r).

(** The tables: each rule stands at its id under its own text, no text twice,
    and each list is the compilation of interned rules with its key's ids. *)
Definition lists_wf (ls : Lists) : Prop :=
  (forall i k r, rules_ ls !! i = Some (k, r) ->
     id_ r = i /\ k = (text (rule_pattern r), band r) /\ basename_wf (rule_pattern r)) /\
  NoDup (fst <$> rules_ ls) /\
  Forall (fun kl => exists rs, Forall (interned ls) rs /\ kl.1 = id_ <$> rs /\ kl.2 = compile_list rs)
    (lists_ ls).

(** The tables only grow. *)
Definition extends (ls ls' : Lists) : Prop := rules_ ls `prefix_of` rules_ ls'.

#[export] Instance extends_preorder : PreOrder extends.
Proof. unfold extends. split; [intros x; reflexivity|intros x y z; apply transitivity]. Qed.

Lemma interned_extends ls ls' r : extends ls ls' -> interned ls r -> interned ls' r.
Proof. intros He. intros Hr. exact (prefix_lookup_Some _ _ _ _ Hr He). Qed.

(** The id determines an interned rule. *)
Lemma interned_id ls r q : interned ls r -> interned ls q -> id_ r = id_ q -> r = q.
Proof. unfold interned. intros Hr Hq Heq. rewrite Heq in Hr. congruence. Qed.

Lemma interned_ids ls rs qs :
  Forall (interned ls) rs -> Forall (interned ls) qs -> id_ <$> rs = id_ <$> qs -> rs = qs.
Proof.
  intros Hrs. revert qs. induction Hrs as [|r rs Hr _ IH]; intros [|q qs] Hqs Heq; try done.
  inversion_clear Hqs. injection Heq as Hid Heq. f_equal; [by apply (interned_id ls)|by apply IH].
Qed.

Lemma probe_Some {K V} `{EqDecision K} (k : K) (table : list (K * V)) v :
  probe k table = Some v -> exists i, table !! i = Some (k, v).
Proof.
  induction table as [|[k' v'] table IH]; simpl; [done|]. case_bool_decide.
  - intros [= ->]. exists 0. by subst.
  - intros (i & Hi)%IH. by exists (S i).
Qed.

Lemma probe_None {K V} `{EqDecision K} (k : K) (table : list (K * V)) :
  probe k table = None <-> k ∉ fst <$> table.
Proof.
  induction table as [|[k' v'] table IH]; simpl; [by split; intros; [apply not_elem_of_nil|]|].
  rewrite not_elem_of_cons. case_bool_decide; naive_solver.
Qed.

(** What [Lists::rule] promises for a pattern. *)
Definition rule_for (ls : Lists) (p : Pattern) (b : Band) (r : Rule) : Prop :=
  interned ls r /\ text (rule_pattern r) = text p /\ band r = b /\ basename_wf (rule_pattern r).

Lemma rule_for_extends ls ls' p b r : extends ls ls' -> rule_for ls p b r -> rule_for ls' p b r.
Proof. intros He (Hi & ?). split; [by eapply interned_extends|done]. Qed.

Lemma rule_for_matches ls p b r name is_dir :
  basename_wf p -> rule_for ls p b r ->
  matches_name (rule_pattern r) name is_dir = matches_name p name is_dir /\
  is_whitelist (rule_pattern r) = is_whitelist p.
Proof. intros Hp (_ & Ht & _ & Hr). by apply text_matches. Qed.

Lemma rule_spec ls p b r ls' :
  lists_wf ls -> basename_wf p -> rule ls p b = (r, ls') ->
  lists_wf ls' /\ extends ls ls' /\ rule_for ls' p b r.
Proof.
  intros Hwf Hp. pose proof Hwf as (Hr & Hnd & Hl). unfold rule.
  destruct (probe _ (rules_ ls)) as [r'|] eqn:Hprobe; intros [= <- <-].
  - apply probe_Some in Hprobe as (i & Hi). pose proof (Hr _ _ _ Hi) as (Hid & Hk & Hrw).
    pose proof (f_equal fst Hk) as Ht. pose proof (f_equal snd Hk) as Hb. simpl fst in Ht. simpl snd in Hb.
    split; [done|]. split; [reflexivity|].
    split; [|by rewrite <- Ht, <- Hb]. unfold interned. by rewrite Hid, Hi, <- Hk.
  - apply probe_None in Hprobe. set (r := mkRule _ p b).
    assert (He : extends ls (mkLists (rules_ ls ++ [((text p, b), r)]) (lists_ ls))).
    { by eexists. }
    split; [|split; [done|]].
    + split; [|split]; simpl.
      * intros i k q Hi. apply lookup_snoc_Some in Hi as [[_ Hi]|[-> [= <- <-]]]; [by apply Hr|done].
      * rewrite fmap_app. apply NoDup_app. split; [done|]. split; [|apply NoDup_singleton].
        intros k Hk ->%list_elem_of_singleton. done.
      * eapply Forall_impl; [exact Hl|]. simpl. intros kl (rs & Hrs & Hk & Hc). exists rs.
        split; [|done]. eapply Forall_impl; [exact Hrs|]. intros q. by apply interned_extends.
    + split; [|done]. unfold interned. simpl. by rewrite list_lookup_middle.
Qed.

Lemma list_spec ls rs l ls' :
  lists_wf ls -> Forall (interned ls) rs -> list_ ls (id_ <$> rs) rs = (l, ls') ->
  l = compile_list rs /\ lists_wf ls' /\ extends ls ls'.
Proof.
  intros Hwf Hrs. pose proof Hwf as (Hr & Hnd & Hl). unfold list_. simpl key.
  destruct (probe _ (lists_ ls)) as [l'|] eqn:Hprobe; intros [= <- <-].
  - split; [|split; [done|reflexivity]]. apply probe_Some in Hprobe as (i & Hi).
    eapply Forall_lookup_1 in Hl as (qs & Hqs & Hk & Hc); [|exact Hi]. simpl in Hk, Hc.
    by rewrite (interned_ids ls rs qs Hrs Hqs Hk).
  - split; [done|]. split; [|unfold extends; simpl; reflexivity]. split; [done|]. split; [done|]. simpl.
    apply Forall_app. split; [done|]. apply Forall_singleton. by exists rs.
Qed.

Lemma empty_lists_wf : lists_wf empty_lists.
Proof. split; [done|]. split; constructor. Qed.

(** * Properties of the tables *)

(** A compiled list of rules in band order answers for an entry with its
    last matching rule: whether that rule whitelists and whether it came from
    a [.ferretignore] (by the [ferret_from] boundary). *)
Theorem list_answers_last_rule (rules : list Rule) (name : bytes) (is_dir : bool)
    (Hsorted : bands_sorted rules)
    (Hwf : Forall (fun r => basename_wf (rule_pattern r)) rules)
    (Hlen : (N.of_nat (length rules) < u64_max)%N) :
  last_match (compile_list rules) name is_dir =
  (fun r => (is_whitelist (rule_pattern r), bool_decide (band r = BFerret)))
    <$> last_rule rules name is_dir.
Proof. by apply last_match_spec. Qed.

Definition sample_rules : list Rule :=
  [mkRule 0 (mkPattern 0 MIgnore false true [Glob (mkGlob [Literal [97%N]])]) BGlobal;
   mkRule 2 (mkPattern 9 MIgnore false true [Glob (mkGlob [Star])]) BRepo;
   mkRule 1 (mkPattern 5 MWhitelist false true [Glob (mkGlob [Literal [97%N]])]) BFerret].

Lemma list_answers_last_rule_witness :
  last_match (compile_list sample_rules) [97%N] false = Some (true, true) /\
  last_match (compile_list sample_rules) [97%N] false =
  (fun r => (is_whitelist (rule_pattern r), bool_decide (band r = BFerret)))
    <$> last_rule sample_rules [97%N] false.
Proof.
  split; [vm_compute; reflexivity|].
  apply (list_answers_last_rule sample_rules [97%N] false).
  - repeat constructor.
  - repeat constructor; eexists; (split; [reflexivity|]); (split; [reflexivity|]);
      repeat constructor; discriminate.
  - vm_compute. reflexivity.
Defined.

(** Revealing a hidden entry looks at the repository's rules alone: the
    last matching rule once [.ferretignore] rules are left out must be a
    whitelist that is not the global file's (D127). *)
Theorem reveals_by_repo_rules (rules : list Rule) (name : bytes) (is_dir : bool)
    (Hsorted : bands_sorted rules)
    (Hwf : Forall (fun r => basename_wf (rule_pattern r)) rules) :
  repo_whitelists (compile_list rules) name is_dir =
  is_some_and (last_rule (filter (fun r => band r <> BFerret) rules) name is_dir)
    (fun r => bool_decide (band r = BRepo) && is_whitelist (rule_pattern r)).
Proof. by apply repo_whitelists_spec. Qed.

Lemma reveals_by_repo_rules_witness :
  repo_whitelists (compile_list sample_rules) [97%N] false =
  is_some_and (last_rule (filter (fun r => band r <> BFerret) sample_rules) [97%N] false)
    (fun r => bool_decide (band r = BRepo) && is_whitelist (rule_pattern r)).
Proof.
  apply (reveals_by_repo_rules sample_rules [97%N] false).
  - repeat constructor.
  - repeat constructor; eexists; (split; [reflexivity|]); (split; [reflexivity|]);
      repeat constructor; discriminate.
Defined.

(** C20: interning is transparent.  Asking a well-formed table for a list
    returns exactly the compilation of the rules asked for, whether it is
    found or compiled, and asking for a rule returns one that matches the
    same entries with the same action and band; both keep the tables well
    formed and every rule handed out earlier in place. *)
Theorem interning_transparent (ls : Lists) (p : Pattern) (b : Band) (rs : list Rule)
    (Hls : lists_wf ls) (Hp : basename_wf p) (Hrs : Forall (interned ls) rs) :
  let '(r, ls1) := rule ls p b in
  let '(l, ls2) := list_ ls1 (id_ <$> rs) rs in
  lists_wf ls2 /\ l = compile_list rs /\ Forall (interned ls2) rs /\ interned ls2 r /\
  band r = b /\ is_whitelist (rule_pattern r) = is_whitelist p /\
  forall name is_dir, matches_name (rule_pattern r) name is_dir = matches_name p name is_dir.
Proof.
  destruct (rule ls p b) as [r ls1] eqn:Hr. destruct (list_ ls1 _ rs) as [l ls2] eqn:Hl.
  apply rule_spec in Hr as (Hwf1 & He1 & Hrf); [|done..].
  assert (Hrs1 : Forall (interned ls1) rs)
    by (eapply Forall_impl; [exact Hrs|]; intros q; by apply interned_extends).
  apply list_spec in Hl as (-> & Hwf2 & He2); [|done..].
  pose proof (rule_for_matches ls1 p b r [] false Hp Hrf) as [_ Hw].
  split; [done|]. split; [done|]. split.
  { eapply Forall_impl; [exact Hrs1|]. intros q. by apply interned_extends. }
  pose proof Hrf as (Hi & _ & Hb & _). split; [by apply (interned_extends ls1)|].
  split; [done|]. split; [done|]. intros name is_dir. by apply (rule_for_matches ls1 p b r).
Qed.

Lemma interning_transparent_witness :
  let p := mkPattern 3 MWhitelist true true [Glob (mkGlob [Literal [98%N]])] in
  let '(r, ls1) := rule empty_lists p BFerret in
  let '(l, ls2) := list_ ls1 (id_ <$> []) [] in
  lists_wf ls2 /\ l = compile_list [] /\ Forall (interned ls2) [] /\ interned ls2 r /\
  band r = BFerret /\ is_whitelist (rule_pattern r) = is_whitelist p /\
  forall name is_dir, matches_name (rule_pattern r) name is_dir = matches_name p name is_dir.
Proof.
  apply (interning_transparent empty_lists
    (mkPattern 3 MWhitelist true true [Glob (mkGlob [Literal [98%N]])]) BFerret []).
  - exact empty_lists_wf.
  - split; [reflexivity|]. eexists. split; [reflexivity|]. split; [reflexivity|].
    repeat constructor; discriminate.
  - constructor.
Defined.
