(* ===== verification/Rules.v ===== *)
(** * Rules: the ignore rules in force for a directory

    Models [crates/ferret-policy/src/rules.rs] and the public types of
    [lib.rs]: compiling an ignore file into a layer, stepping a state of
    layers into a child directory, the list of one directory, and the
    decision for each of its entries.

    A [PathBuf] is the list of its components.  [DirRules] shares its tables
    behind an [Arc]; here the tables ([Lists]) are an explicit state that
    each operation takes and returns.  [count_step_work] does nothing outside
    the tests and is left out. *)
From S2P Require Import Prelude Word Glob Pattern Gitignore Lists.

(** ** The policy's types, [lib.rs] *)

Record Config := mkConfig { size_cap : u64 }.

(** [Config::default]. *)
Definition default_config : Config := mkConfig (N.shiftl 8 20).

Record IgnoreFiles := mkIgnoreFiles {
  ferretignore : option bytes;
  gitignore : option bytes;
  git_root : bool;
  git_exclude : option bytes;
  ignore : option bytes;
  rgignore : option bytes
}.

(** [IgnoreFiles::default]. *)
Definition no_files : IgnoreFiles := mkIgnoreFiles None None false None None None.

Inductive Entry := EDir | EFile (size : u64) | ESymlink | EOther.

Inductive Reason := TooLarge | RSymlink | Special.

Inductive Decision_ := Skip | Descend | Traverse | Catalog (r : Reason) | Index_.

Inductive Content := CText | CBinary.

Inductive IgnoreFile :=
| IFFerret (path : list bytes)
| IFGit (path : list bytes)
| IFGitExclude (path : list bytes)
| IFGlobal
| IFDot (path : list bytes).

(** [PatternError::Line]. *)
Record PatternError := mkPatternError {
  pe_file : IgnoreFile; pe_line : N; pe_pattern : bytes; pe_detail : string
}.

#[export] Instance Entry_eq_dec : EqDecision Entry.
Proof. solve_decision. Defined.
#[export] Instance Decision_eq_dec : EqDecision Decision_.
Proof. unfold EqDecision, Decision. decide equality. decide equality. Defined.

(** [is_ignore_file]. *)
Definition is_ignore_file (name : bytes) : bool :=
  bool_decide (name = ascii_bytes ".ferretignore") ||
  bool_decide (name = ascii_bytes ".gitignore") ||
  bool_decide (name = ascii_bytes ".ignore") ||
  bool_decide (name = ascii_bytes ".rgignore").

(** [SNIFF_LEN]. *)
Definition SNIFF_LEN : N := 8192.

(** [sniff]. *)
Definition sniff (head : bytes) : Content :=
  if existsb (fun b => (b =? 0)%N) head then CBinary else CText.

(** ** Layers *)

(** A position in one anchored pattern. *)
Record Cursor := mkCursor { slot : nat; pos : nat; fed : bool }.

Record Anchored := mkAnchored {
  an_pattern : Pattern;
  an_projections : list (option Rule);
  an_reaches : bool
}.

(** [Source]: one compiled ignore file. *)
Record Source := mkSource {
  shared : list (N * Rule);
  anchored : list Anchored
}.

(** [Layer]: one ignore file and its live cursors in one directory. *)
Record Layer := mkLayer { source : Source; cursors : list Cursor }.

Record WorkTree := mkWorkTree { wt_exclude : option Layer; wt_ignores : list Layer }.

Record State := mkState {
  st_global : option Layer;
  st_git : option WorkTree;
  st_ferret : list Layer;
  st_ignore : list Layer;
  st_rgignore : list Layer
}.

#[export] Instance Cursor_eq_dec : EqDecision Cursor.
Proof. solve_decision. Defined.

(** [State::default]. *)
Definition empty_state : State := mkState None None [] [] [].

(** Interning each projection in turn, [Some(lists.rule(projected?, band))]. *)
Fixpoint intern_projections (ls : Lists) (ps : list (option Pattern)) (b : Band)
    : list (option Rule) * Lists :=
  match ps with
  | [] => ([], ls)
  | None :: rest =>
      let '(rs, ls) := intern_projections ls rest b in (None :: rs, ls)
  | Some p :: rest =>
      let '(r, ls) := rule ls p b in
      let '(rs, ls) := intern_projections ls rest b in (Some r :: rs, ls)
  end.

(** The loop of [Layer::compile_text] over the patterns not yet compiled. *)
Fixpoint compile_patterns (ls : Lists) (patterns : list Pattern) (b : Band)
    : list (N * Rule) * list Anchored * Lists :=
  match patterns with
  | [] => ([], [], ls)
  | pattern :: later =>
      if is_shared_basename pattern then
        match projections pattern with
        | Some projected :: _ =>
            let '(r, ls) := rule ls projected b in
            let '(sh, an, ls) := compile_patterns ls later b in
            ((index pattern, r) :: sh, an, ls)
        | _ => compile_patterns ls later b
        end
      else
        let reaches := bool_decide (b = BFerret) && is_anchored_reinclude pattern
                       && negb (existsb (is_superseded_by pattern) later) in
        let '(projected, ls) := intern_projections ls (projections pattern) b in
        let '(sh, an, ls) := compile_patterns ls later b in
        (sh, mkAnchored pattern projected reaches :: an, ls)
  end.

(** [Layer::compile_text]. *)
Definition compile_text (text : bytes) (b : Band) (ls : Lists)
    : Layer * list LineError * Lists :=
  let '(patterns, errors) := parse text in
  let '(sh, an, ls) := compile_patterns ls patterns b in
  (mkLayer (mkSource sh an) ((fun slot => mkCursor slot 0 false) <$> seq 0 (length an)),
   errors, ls).

(** [Layer::compile]. *)
Definition layer_compile (file : IgnoreFile) (text : bytes) (b : Band) (ls : Lists)
    (errors : list PatternError) : Layer * list PatternError * Lists :=
  let '(layer, line_errors, ls) := compile_text text b ls in
  (layer,
   errors ++ ((fun e => mkPatternError file (line e) (pattern_ e) (detail e)) <$> line_errors),
   ls).

(** [Layer::live]. *)
Definition live (l : Layer) : option Layer :=
  if negb (is_empty (shared (source l))) || negb (is_empty (cursors l)) then Some l else None.

(** [cursors.chunk_by(|a, b| a.slot == b.slot)]. *)
Fixpoint chunk_by_slot (cs : list Cursor) : list (list Cursor) :=
  match cs with
  | [] => []
  | c :: rest =>
      match chunk_by_slot rest with
      | (d :: group) :: groups =>
          if slot c =? slot d then (c :: d :: group) :: groups else [c] :: (d :: group) :: groups
      | groups => [c] :: groups
      end
  end.

(** One group of [Layer::stepped]. *)
Definition step_group (src : Source) (name : bytes) (group : list Cursor) : list Cursor :=
  match group with
  | [] => []
  | c :: _ =>
      match anchored src !! slot c with
      | None => []
      | Some a =>
          (fun '(p, f) => mkCursor (slot c) p f)
            <$> (step (an_pattern a) ((fun c => (pos c, fed c)) <$> group) name).1
      end
  end.

(** [Layer::stepped]: [None] when the cursors do not change. *)
Definition layer_stepped (l : Layer) (name : bytes) : option Layer :=
  if is_empty (cursors l) then None
  else
    let out := concat (step_group (source l) name <$> chunk_by_slot (cursors l)) in
    if bool_decide (out = cursors l) then None else Some (mkLayer (source l) out).

(** [shared.next_if(|(at, _)| *at < line)], as long as it yields. *)
Fixpoint take_shared (line : N) (sh : list (N * Rule)) : list Rule * list (N * Rule) :=
  match sh with
  | (at_, r) :: rest =>
      if (at_ <? line)%N then
        let '(out, rest) := take_shared line rest in (r :: out, rest)
      else ([], sh)
  | [] => ([], [])
  end.

(** The loop of [Layer::rules] over the cursors. *)
Fixpoint merge_rules (src : Source) (sh : list (N * Rule)) (cs : list Cursor) : list Rule :=
  match cs with
  | [] => snd <$> sh
  | c :: rest =>
      match anchored src !! slot c with
      | None => merge_rules src sh rest
      | Some a =>
          let '(out, sh) := take_shared (index (an_pattern a)) sh in
          out ++ match default None (an_projections a !! (2 * pos c + if fed c then 1 else 0)) with
                 | Some r => [r]
                 | None => []
                 end
              ++ merge_rules src sh rest
      end
  end.

(** [Layer::rules]. *)
Definition layer_rules (l : Layer) : list Rule :=
  merge_rules (source l) (shared (source l)) (cursors l).

(** ** States *)

(** The closure [step] of [State::stepped]: the layer in the child, and
    whether it changed. *)
Definition step_layer (name : bytes) (l : Layer) : Layer * bool :=
  match layer_stepped l name with
  | Some next => (next, true)
  | None => (l, false)
  end.

(** [layers.iter().map(&mut step).filter_map(Layer::live).collect()]. *)
Definition step_layers (name : bytes) (ls : list Layer) : list Layer * bool :=
  (omap (fun l => live (step_layer name l).1) ls, existsb (fun l => (step_layer name l).2) ls).

Definition step_opt (name : bytes) (l : option Layer) : option Layer * bool :=
  (l ≫= (fun l => live (step_layer name l).1), is_some_and l (fun l => (step_layer name l).2)).

(** [self.git.as_ref().map(|tree| WorkTree { .. })]. *)
Definition step_git (name : bytes) (git : option WorkTree) : option WorkTree * bool :=
  match git with
  | None => (None, false)
  | Some tree =>
      let '(exclude, c1) := step_opt name (wt_exclude tree) in
      let '(ignores, c2) := step_layers name (wt_ignores tree) in
      (Some (mkWorkTree exclude ignores), c1 || c2)
  end.

(** [State::stepped] for a directory that starts no work tree. *)
Definition stepped_same (s : State) (name : bytes) : option State :=
  let '(global, c1) := step_opt name (st_global s) in
  let '(git, c2) := step_git name (st_git s) in
  let '(ignore, c3) := step_layers name (st_ignore s) in
  let '(rgignore, c4) := step_layers name (st_rgignore s) in
  let '(ferret, c5) := step_layers name (st_ferret s) in
  if c1 || c2 || c3 || c4 || c5
  then Some (mkState global git ferret ignore rgignore) else None.

(** [State::stepped]: [None] when moving into the child changes nothing. *)
Definition stepped (s : State) (name : bytes) (root : bool) : option State :=
  match st_git s with
  | Some _ =>
      if root then
        let next := default s (stepped_same s name) in
        Some (mkState (st_global next) None (st_ferret next) (st_ignore next) (st_rgignore next))
      else stepped_same s name
  | None => stepped_same s name
  end.

(** [layers.extend(Layer::compile(...).live())] for a file that may be absent. *)
Definition extend_layers (layers : list Layer) (file : IgnoreFile) (text : option bytes)
    (b : Band) (ls : Lists) (errors : list PatternError)
    : list Layer * list PatternError * Lists :=
  match text with
  | None => (layers, errors, ls)
  | Some text =>
      let '(layer, errors, ls) := layer_compile file text b ls errors in
      (layers ++ option_list (live layer), errors, ls)
  end.

(** [add_files], a directory that starts a work tree. *)
Definition start_git (git : option WorkTree) (dir : list bytes) (files : IgnoreFiles) (ls : Lists)
    (errors : list PatternError) : option WorkTree * list PatternError * Lists :=
  if git_root files then
    match git_exclude files with
    | None => (Some (mkWorkTree None []), errors, ls)
    | Some text =>
        let file := IFGitExclude
          (dir ++ [ascii_bytes ".git"; ascii_bytes "info"; ascii_bytes "exclude"]) in
        let '(layer, errors, ls) := layer_compile file text BRepo ls errors in
        (Some (mkWorkTree (live layer) []), errors, ls)
    end
  else (git, errors, ls).

(** [add_files], a [.gitignore] inside a work tree. *)
Definition extend_git (git : option WorkTree) (dir : list bytes) (files : IgnoreFiles) (ls : Lists)
    (errors : list PatternError) : option WorkTree * list PatternError * Lists :=
  match git with
  | None => (None, errors, ls)
  | Some tree =>
      let '(ignores, errors, ls) :=
        extend_layers (wt_ignores tree) (IFGit (dir ++ [ascii_bytes ".gitignore"]))
          (gitignore files) BRepo ls errors in
      (Some (mkWorkTree (wt_exclude tree) ignores), errors, ls)
  end.

(** [State::add_files]. *)
Definition add_files (s : State) (dir : list bytes) (files : IgnoreFiles) (ls : Lists)
    (errors : list PatternError) : State * list PatternError * Lists :=
  let '(ferret, errors, ls) :=
    extend_layers (st_ferret s) (IFFerret (dir ++ [ascii_bytes ".ferretignore"]))
      (ferretignore files) BFerret ls errors in
  let '(git, errors, ls) := start_git (st_git s) dir files ls errors in
  let '(git, errors, ls) := extend_git git dir files ls errors in
  let '(ignores, errors, ls) :=
    extend_layers (st_ignore s) (IFDot (dir ++ [ascii_bytes ".ignore"]))
      (ignore files) BRepo ls errors in
  let '(rgignores, errors, ls) :=
    extend_layers (st_rgignore s) (IFDot (dir ++ [ascii_bytes ".rgignore"]))
      (rgignore files) BRepo ls errors in
  (mkState (st_global s) git ferret ignores rgignores, errors, ls).

(** [State::layers], lowest precedence first. *)
Definition layers (s : State) : list Layer :=
  option_list (st_global s)
  ++ match st_git s with
     | None => []
     | Some tree => option_list (wt_exclude tree) ++ wt_ignores tree
     end
  ++ st_ignore s ++ st_rgignore s ++ st_ferret s.

(** [State::rules]. *)
Definition state_rules (s : State) : list Rule := concat (layer_rules <$> layers s).

(** [State::reaches_below]. *)
Definition reaches_below (s : State) (name : bytes) : bool :=
  existsb (fun layer =>
    existsb (fun cursor =>
      match anchored (source layer) !! slot cursor with
      | None => false
      | Some a =>
          if an_reaches a
          then negb (is_empty (step (an_pattern a) [(pos cursor, fed cursor)] name).1)
          else false
      end) (cursors layer)) (st_ferret s).

(** ** Directories *)

(** [Shared], less its tables. *)
Record Shared := mkShared { sh_root : list bytes; sh_config : Config }.

Record DirRules := mkDirRules {
  dr_path : list bytes;
  dr_shared : Shared;
  dr_state : State;
  dr_list : CList;
  dr_traversing : bool
}.

(** [Shared::list]: a child whose key is its parent's reuses its list. *)
Definition shared_list (ls : Lists) (s : State) (parent : option CList) : CList * Lists :=
  let rules := state_rules s in
  let k := id_ <$> rules in
  match parent with
  | Some parent => if bool_decide (key parent = k) then (parent, ls) else list_ ls k rules
  | None => list_ ls k rules
  end.

(** [DirRules::root]. *)
Definition root (path : list bytes) (global : option bytes) (files : IgnoreFiles)
    (config : Config) : DirRules * list PatternError * Lists :=
  let '(global, errors, ls) :=
    match global with
    | None => (None, [], empty_lists)
    | Some text =>
        let '(layer, errors, ls) := layer_compile IFGlobal text BGlobal empty_lists [] in
        (live layer, errors, ls)
    end in
  let '(state, errors, ls) := add_files (mkState global None [] [] []) path files ls errors in
  let '(l, ls) := shared_list ls state None in
  (mkDirRules [] (mkShared path config) state l false, errors, ls).

(** The condition [adds_files] of [DirRules::enter]. *)
Definition adds_files (s : State) (files : IgnoreFiles) : bool :=
  bool_decide (is_Some (ferretignore files)) || bool_decide (is_Some (ignore files))
  || bool_decide (is_Some (rgignore files)) || git_root files
  || (bool_decide (is_Some (gitignore files)) && bool_decide (is_Some (st_git s))).

(** [DirRules::enter]. *)
Definition enter (d : DirRules) (name : bytes) (files : IgnoreFiles) (ls : Lists)
    : DirRules * list PatternError * Lists :=
  let path := dr_path d ++ [name] in
  let next := stepped (dr_state d) name (git_root files) in
  if negb (bool_decide (is_Some next)) && negb (adds_files (dr_state d) files) then
    (mkDirRules path (dr_shared d) (dr_state d) (dr_list d) false, [], ls)
  else
    let state := default (dr_state d) next in
    let '(state, errors, ls) :=
      add_files state (sh_root (dr_shared d) ++ path) files ls [] in
    let '(l, ls) := shared_list ls state (Some (dr_list d)) in
    (mkDirRules path (dr_shared d) state l false, errors, ls).

(** [DirRules::traverse]. *)
Definition traverse (d : DirRules) (name : bytes) (ls : Lists) : DirRules * Lists :=
  let path := dr_path d ++ [name] in
  match stepped (dr_state d) name false with
  | None => (mkDirRules path (dr_shared d) (dr_state d) (dr_list d) true, ls)
  | Some state =>
      let '(l, ls) := shared_list ls state (Some (dr_list d)) in
      (mkDirRules path (dr_shared d) state l true, ls)
  end.

(** [DirRules::in_work_tree], [ignore_match] and [reveals]. *)
Definition in_work_tree (d : DirRules) : bool := bool_decide (is_Some (st_git (dr_state d))).
Definition ignore_match (d : DirRules) (name : bytes) (directory : bool) : option bool :=
  fst <$> last_match (dr_list d) name directory.
Definition reveals (d : DirRules) (name : bytes) (directory : bool) : bool :=
  repo_whitelists (dr_list d) name directory.

(** [DirRules::decide_child]. *)
Definition decide_child (d : DirRules) (name : bytes) (entry : Entry) : Decision_ :=
  let is_dir := bool_decide (entry = EDir) in
  let included :=
    match last_match (dr_list d) name is_dir with
    | Some (true, ferret) => negb (dr_traversing d) || ferret
    | Some (false, _) => false
    | None => negb (dr_traversing d)
    end in
  if negb included then
    if is_dir && reaches_below (dr_state d) name then Traverse else Skip
  else
    match entry with
    | EDir => Descend
    | EFile size => if (size_cap (sh_config (dr_shared d)) <? size)%N then Catalog TooLarge else Index_
    | ESymlink => Catalog RSymlink
    | EOther => Catalog Special
    end.

(** [DirRules::decide]: the last component of a path. *)
Definition decide_path (d : DirRules) (path : bytes) (entry : Entry) : Decision_ :=
  let name := match rposition (fun b => (b =? 47)%N) path with
              | Some slash => drop (S slash) path
              | None => path
              end in
  decide_child d name entry.
