(* ===== verification/RulesSpec.v ===== *)
(** * RulesSpec: what the rules in force promise

    The specification of [Rules]: an abstract directory holds, for each
    ignore file in force, its parsed patterns and the path from the file's
    directory; the decision for an entry is read off the files in precedence
    order, each answering with its last matching line.  The theorems show
    that the lists, cursors and interning of [Rules] implement it. *)
From S2P Require Import Prelude Word Glob Pattern Gitignore Lists Rules.

(** ** The specification *)

(** One ignore file in force, seen from a directory [al_rel] below it. *)
Record ALayer := mkALayer { al_patterns : list Pattern; al_band : Band; al_rel : list bytes }.

(** The last line of a file that matches the entry. *)
Fixpoint file_verdict (ps : list Pattern) (rel : list bytes) (name : bytes) (is_dir : bool)
    : option Pattern :=
  match ps with
  | [] => None
  | p :: rest =>
      match file_verdict rest rel name is_dir with
      | Some q => Some q
      | None => if matches_override p (rel ++ [name]) is_dir then Some p else None
      end
  end.

(** The files in force, each group with the file nearest the root first. *)
Record AState := mkAState {
  a_global : option ALayer;
  a_git : option (option ALayer * list ALayer);
  a_ferret : list ALayer;
  a_ignore : list ALayer;
  a_rgignore : list ALayer
}.

(** Highest precedence first (D13): [.ferretignore] closest first, then
    [.rgignore], [.ignore], the work tree's [.gitignore] files, its exclude
    file, and the global file. *)
Definition a_precedence (s : AState) : list ALayer :=
  rev (a_ferret s) ++ rev (a_rgignore s) ++ rev (a_ignore s)
  ++ match a_git s with
     | None => []
     | Some (exclude, ignores) => rev ignores ++ option_list exclude
     end
  ++ option_list (a_global s).

(** The first file with a matching line decides: whether that line
    whitelists, and whether the file is a [.ferretignore]. *)
Fixpoint first_verdict (ls : list ALayer) (name : bytes) (is_dir : bool) : option (bool * bool) :=
  match ls with
  | [] => None
  | l :: rest =>
      match file_verdict (al_patterns l) (al_rel l) name is_dir with
      | Some p => Some (is_whitelist p, bool_decide (al_band l = BFerret))
      | None => first_verdict rest name is_dir
      end
  end.

(** Moving into a child, and adding the child's files. *)
Definition a_move (name : bytes) (l : ALayer) : ALayer :=
  mkALayer (al_patterns l) (al_band l) (al_rel l ++ [name]).
Definition a_step (name : bytes) (s : AState) : AState :=
  mkAState (a_move name <$> a_global s)
    ((fun ei : option ALayer * list ALayer => (a_move name <$> ei.1, a_move name <$> ei.2)) <$> a_git s)
    (a_move name <$> a_ferret s) (a_move name <$> a_ignore s) (a_move name <$> a_rgignore s).

Definition a_file (text : bytes) (b : Band) : ALayer := mkALayer (parse text).1 b [].
Definition a_files (text : option bytes) (b : Band) : list ALayer :=
  option_list ((fun t => a_file t b) <$> text).

Definition a_add (files : IgnoreFiles) (s : AState) : AState :=
  let git := if git_root files then Some ((fun t => a_file t BRepo) <$> git_exclude files, [])
             else a_git s in
  mkAState (a_global s)
    ((fun ei : option ALayer * list ALayer => (ei.1, ei.2 ++ a_files (gitignore files) BRepo)) <$> git)
    (a_ferret s ++ a_files (ferretignore files) BFerret)
    (a_ignore s ++ a_files (ignore files) BRepo)
    (a_rgignore s ++ a_files (rgignore files) BRepo).

(** Whether a live re-include of a [.ferretignore] steps into [name]. *)
Fixpoint file_reaches (ps : list Pattern) (rel : list bytes) : bool :=
  match ps with
  | [] => false
  | p :: later =>
      negb (is_shared_basename p) && is_anchored_reinclude p
        && negb (existsb (is_superseded_by p) later) && negb (is_empty (cursors_at p rel))
      || file_reaches later rel
  end.

Definition a_reaches (s : AState) (name : bytes) : bool :=
  existsb (fun l => file_reaches (al_patterns l) (al_rel l ++ [name])) (a_ferret s).

(** The decision the specification makes for an entry. *)
Definition spec_decide (s : AState) (cap : u64) (traversing : bool) (name : bytes) (entry : Entry)
    : Decision_ :=
  let is_dir := bool_decide (entry = EDir) in
  let included :=
    match first_verdict (a_precedence s) name is_dir with
    | Some (whitelisted, ferret) => whitelisted && (negb traversing || ferret)
    | None => negb traversing
    end in
  if included then
    match entry with
    | EDir => Descend
    | EFile size => if (size <=? cap)%N then Index_ else Catalog TooLarge
    | ESymlink => Catalog RSymlink
    | EOther => Catalog Special
    end
  else if is_dir && a_reaches s name then Traverse else Skip.

(** ** A pattern's contribution to a directory's list *)

(** The basename rules a pattern puts into the list of a directory. *)
Definition contrib (rel : list bytes) (p : Pattern) : list Pattern :=
  if is_shared_basename p then option_list (default None (head (projections p)))
  else omap (projection (projections p)) (cursors_at p rel).

Definition any_matches (ps : list Pattern) (name : bytes) (is_dir : bool) : bool :=
  existsb (fun q => matches_name q name is_dir) ps.

Lemma omap_existsb {A B} (f : A -> option B) (g : B -> bool) l :
  existsb g (omap f l) = existsb (fun x => is_some_and (f x) g) l.
Proof.
  induction l as [|x l IH]; [done|]. simpl. rewrite <- IH. by destruct (f x).
Qed.

Lemma basename_projection p name is_dir :
  basename_wf p -> name <> [] ->
  any_matches (option_list (default None (head (projections p)))) name is_dir =
  matches_name p name is_dir.
Proof.
  intros (Hb & c & Hc & Hg & Hw) Hn. unfold any_matches, projections. rewrite Hc. simpl.
  unfold matches_name. rewrite Hc. destruct c as [|g|]; try done; simpl.
  - rewrite Hc. simpl. rewrite normalize_star_matches by done. by rewrite orb_false_r.
  - by rewrite andb_false_r.
Qed.

(** A pattern matches an entry exactly when a rule it contributes does. *)
Lemma contrib_matches p rel name is_dir :
  pattern_wf p -> name <> [] ->
  any_matches (contrib rel p) name is_dir = matches_override p (rel ++ [name]) is_dir.
Proof.
  intros Hp Hn. unfold contrib, matches_override. rewrite last_snoc.
  destruct (basename_only p) eqn:Hb.
  - assert (is_shared_basename p = true) as -> by (unfold is_shared_basename; by rewrite Hb).
    apply basename_projection; [by apply compiled_basename_wf|done].
  - destruct (is_shared_basename p).
    + unfold any_matches. destruct (default None (head (projections p))); simpl; [by rewrite orb_false_r|done].
    + unfold any_matches. rewrite omap_existsb. rewrite removelast_last. done.
Qed.

Lemma normalize_star_wf g : glob_wf g -> glob_wf (normalize_star g).
Proof.
  unfold normalize_star. destruct g as [[|[] [|]]]; try done. intros _. repeat constructor; discriminate.
Qed.

(** What is contributed is a basename rule with the pattern's own action. *)
Lemma project_wf p t q :
  pattern_wf p -> project p t = Some q -> basename_wf q /\ is_whitelist q = is_whitelist p.
Proof.
  intros (_ & _ & Hwf & _). destruct t as [[|i]|]; [..|done]; simpl.
  - intros [= <-]. split; [|done]. split; [done|]. eexists; split; [done|]. split; [done|].
    repeat constructor; discriminate.
  - destruct (components p !! i) as [[|g|]|] eqn:Hi; try done. intros [= <-]. split; [|done].
    split; [done|]. eexists; split; [done|]. split; [done|]. simpl. apply normalize_star_wf.
    by eapply Forall_lookup_1 in Hwf; [|exact Hi].
Qed.

Lemma projections_wf p q :
  pattern_wf p -> Some q ∈ projections p -> basename_wf q /\ is_whitelist q = is_whitelist p.
Proof.
  intros Hp Hq. unfold projections in Hq. apply elem_of_concat in Hq as (l & Hin & Hl).
  apply list_elem_of_fmap in Hin as (pos & -> & _).
  apply elem_of_cons in Hl as [Hl|[Hl|[]%not_elem_of_nil]%elem_of_cons];
    eapply project_wf; eauto.
Qed.

(** The last contribution that matches decides for its pattern. *)
Fixpoint last_pattern (ps : list Pattern) (name : bytes) (is_dir : bool) : option Pattern :=
  match ps with
  | [] => None
  | p :: rest =>
      match last_pattern rest name is_dir with
      | Some q => Some q
      | None => if matches_name p name is_dir then Some p else None
      end
  end.

Lemma last_pattern_app l1 l2 name is_dir :
  last_pattern (l1 ++ l2) name is_dir =
  match last_pattern l2 name is_dir with Some r => Some r | None => last_pattern l1 name is_dir end.
Proof.
  induction l1 as [|r l1 IH]; simpl; [by destruct last_pattern|]. rewrite IH.
  by destruct (last_pattern l2 name is_dir).
Qed.

Lemma last_pattern_any ps name is_dir w :
  Forall (fun q => is_whitelist q = w) ps ->
  is_whitelist <$> last_pattern ps name is_dir =
  if any_matches ps name is_dir then Some w else None.
Proof.
  unfold any_matches. induction 1 as [|p ps Hp _ IH]; [done|]. simpl.
  destruct (last_pattern ps name is_dir) as [q|]; simpl in IH; destruct (existsb _ ps); try done;
    destruct (matches_name p name is_dir); simpl; congruence.
Qed.

(** ** Compiling a file *)

Definition opt_rule (ls : Lists) (b : Band) (p : option Pattern) (r : option Rule) : Prop :=
  match p, r with
  | Some p, Some r => rule_for ls p b r
  | None, None => True
  | _, _ => False
  end.

(** How a file's patterns relate to the two halves of its [Source]. *)
Inductive compiled (ls : Lists) (b : Band)
    : list Pattern -> list (N * Rule) -> list Anchored -> Prop :=
| cp_nil : compiled ls b [] [] []
| cp_shared p q r ps sh an :
    is_shared_basename p = true -> head (projections p) = Some (Some q) -> rule_for ls q b r ->
    compiled ls b ps sh an -> compiled ls b (p :: ps) ((index p, r) :: sh) an
| cp_dead p ps sh an :
    is_shared_basename p = true -> default None (head (projections p)) = None ->
    compiled ls b ps sh an -> compiled ls b (p :: ps) sh an
| cp_anchored p proj ps sh an :
    is_shared_basename p = false -> Forall2 (opt_rule ls b) (projections p) proj ->
    compiled ls b ps sh an ->
    compiled ls b (p :: ps) sh
      (mkAnchored p proj
         (bool_decide (b = BFerret) && is_anchored_reinclude p && negb (existsb (is_superseded_by p) ps))
       :: an).

Lemma opt_rule_extends ls ls' b p r : extends ls ls' -> opt_rule ls b p r -> opt_rule ls' b p r.
Proof. intros He. destruct p, r; try done. by apply rule_for_extends. Qed.

Lemma compiled_extends ls ls' b ps sh an :
  extends ls ls' -> compiled ls b ps sh an -> compiled ls' b ps sh an.
Proof.
  intros He. induction 1.
  - constructor.
  - eapply cp_shared; try done. by eapply rule_for_extends.
  - by apply cp_dead.
  - apply cp_anchored; try done. eapply Forall2_impl; [done|]. intros. by eapply opt_rule_extends.
Qed.

Lemma intern_projections_spec ls ps b rs ls' :
  lists_wf ls -> (forall q, Some q ∈ ps -> basename_wf q) ->
  intern_projections ls ps b = (rs, ls') ->
  lists_wf ls' /\ extends ls ls' /\ Forall2 (opt_rule ls' b) ps rs.
Proof.
  revert ls rs ls'; induction ps as [|[p|] ps IH]; intros ls rs ls' Hwf Hps; simpl.
  - intros [= <- <-]. split; [done|]. split; [reflexivity|constructor].
  - destruct (rule ls p b) as [r ls1] eqn:Hr.
    apply rule_spec in Hr as (Hwf1 & He1 & Hrf); [|done|apply Hps; by left].
    destruct (intern_projections ls1 ps b) as [rs1 ls2] eqn:Hi. intros [= <- <-].
    apply IH in Hi as (Hwf2 & He2 & Hf); [|done|intros q Hq; apply Hps; by right].
    split; [done|]. split; [by etransitivity|]. constructor; [|done]. by eapply rule_for_extends.
  - destruct (intern_projections ls ps b) as [rs1 ls2] eqn:Hi. intros [= <- <-].
    apply IH in Hi as (Hwf2 & He2 & Hf); [|done|intros q Hq; apply Hps; by right].
    split; [done|]. split; [done|]. by constructor.
Qed.

Lemma compile_patterns_spec ls ps b sh an ls' :
  lists_wf ls -> Forall pattern_wf ps -> compile_patterns ls ps b = (sh, an, ls') ->
  lists_wf ls' /\ extends ls ls' /\ compiled ls' b ps sh an.
Proof.
  intros Hwf Hps. revert ls sh an ls' Hwf. induction Hps as [|p ps Hp Hps IH]; intros ls sh an ls' Hwf; simpl.
  { intros [= <- <- <-]. split; [done|]. split; [reflexivity|constructor]. }
  destruct (is_shared_basename p) eqn:Hs.
  - destruct (projections p) as [|[q|] projs] eqn:Hproj.
    1,3: intros Hc; apply IH in Hc as (H1 & H2 & H3); [|done]; split; [done|]; split; [done|];
      apply cp_dead; [done| |done]; by rewrite Hproj.
    destruct (rule ls q b) as [r ls1] eqn:Hr.
    assert (Hq : basename_wf q) by (eapply projections_wf; [done|]; rewrite Hproj; by left).
    apply rule_spec in Hr as (Hwf1 & He1 & Hrf); [|done..].
    destruct (compile_patterns ls1 ps b) as [[sh1 an1] ls2] eqn:Hc. intros [= <- <- <-].
    apply IH in Hc as (Hwf2 & He2 & Hcomp); [|done]. split; [done|]. split; [by etransitivity|].
    apply (cp_shared _ _ _ q); [done|by rewrite Hproj|by eapply rule_for_extends|done].
  - destruct (intern_projections ls (projections p) b) as [proj ls1] eqn:Hi.
    apply intern_projections_spec in Hi as (Hwf1 & He1 & Hf);
      [|done|intros q Hq; by eapply projections_wf].
    destruct (compile_patterns ls1 ps b) as [[sh1 an1] ls2] eqn:Hc. intros [= <- <- <-].
    apply IH in Hc as (Hwf2 & He2 & Hcomp); [|done]. split; [done|]. split; [by etransitivity|].
    apply cp_anchored; [done| |done]. eapply Forall2_impl; [done|]. intros. by eapply opt_rule_extends.
Qed.

(** The cursors of a file's anchored patterns, from slot [k] on. *)
Fixpoint layer_cursors (k : nat) (an : list Anchored) (rel : list bytes) : list Cursor :=
  match an with
  | [] => []
  | a :: rest =>
      ((fun c : nat * bool => mkCursor k c.1 c.2) <$> cursors_at (an_pattern a) rel)
      ++ layer_cursors (S k) rest rel
  end.

(** A layer stands for a file seen from [al_rel] below it. *)
Definition layer_inv (ls : Lists) (al : ALayer) (l : Layer) : Prop :=
  StronglySorted N.lt (index <$> al_patterns al) /\ Forall pattern_wf (al_patterns al) /\
  compiled ls (al_band al) (al_patterns al) (shared (source l)) (anchored (source l)) /\
  cursors l = layer_cursors 0 (anchored (source l)) (al_rel al).

Lemma layer_inv_extends ls ls' al l : extends ls ls' -> layer_inv ls al l -> layer_inv ls' al l.
Proof. intros He (H1 & H2 & H3 & H4). split_and!; try done. by eapply compiled_extends. Qed.

Lemma layer_cursors_start k an :
  layer_cursors k an [] = (fun slot => mkCursor slot 0 false) <$> seq k (length an).
Proof. revert k; induction an as [|a an IH]; intros k; [done|]. simpl. f_equal. apply IH. Qed.

Lemma compile_text_spec ls text b l errors ls' :
  lists_wf ls -> compile_text text b ls = (l, errors, ls') ->
  lists_wf ls' /\ extends ls ls' /\ layer_inv ls' (a_file text b) l /\ errors = (parse text).2.
Proof.
  intros Hwf. unfold compile_text. pose proof (parse_sorted text) as [Hs Hp].
  destruct (parse text) as [ps errs] eqn:Hparse. simpl in Hs, Hp.
  destruct (compile_patterns ls ps b) as [[sh an] ls1] eqn:Hc. intros [= <- <- <-].
  apply compile_patterns_spec in Hc as (Hwf1 & He1 & Hcomp); [|done..].
  split; [done|]. split; [done|]. split; [|done]. unfold layer_inv, a_file. rewrite Hparse.
  split_and!; try done. simpl. symmetry. apply layer_cursors_start.
Qed.

(** ** Stepping a layer *)

Lemma step_no_cursors p name : (step p [] name).1 = [].
Proof.
  destruct (step p [] name).1 as [|[q f] l] eqn:H; [done|]. exfalso.
  assert (Hin : (q, f) ∈ (step p [] name).1) by (rewrite H; by left).
  apply elem_of_step in Hin as [(g & Hg) _]. unfold step_specs in Hg. simpl in Hg.
  by apply not_elem_of_nil in Hg.
Qed.

Lemma cursors_at_snoc p rel name :
  cursors_at p (rel ++ [name]) = (step p (cursors_at p rel) name).1.
Proof. unfold cursors_at. by rewrite fold_left_snoc. Qed.

Lemma layer_cursors_slots k an rel : Forall (fun c => k <= slot c) (layer_cursors k an rel).
Proof.
  revert k; induction an as [|a an IH]; intros k; simpl; [constructor|]. apply Forall_app. split.
  - apply Forall_fmap, Forall_forall. simpl. intros; lia.
  - eapply Forall_impl; [apply IH|]. simpl. intros; lia.
Qed.

(** Chunking splits a group off when the next cursor's slot is higher. *)
Lemma chunk_group k g rest :
  g <> [] -> Forall (fun c => slot c = k) g -> Forall (fun c => k < slot c) rest ->
  chunk_by_slot (g ++ rest) = g :: chunk_by_slot rest.
Proof.
  intros Hne Hg Hrest. induction Hg as [|c g Hc Hg IH]; [done|].
  assert (Hhead : forall d group groups, chunk_by_slot rest = (d :: group) :: groups -> k < slot d).
  { destruct rest as [|e rest]; [done|]. inversion_clear Hrest as [|? ? He _]. intros d group groups. simpl.
    destruct (chunk_by_slot rest) as [|[|f fs] gs]; [by intros [= <- _ _]..|].
    destruct (slot e =? slot f); by intros [= <- _ _]. }
  destruct g as [|c2 g].
  - simpl. destruct (chunk_by_slot rest) as [|[|d group] groups] eqn:Hch; try done.
    destruct (Nat.eqb_spec (slot c) (slot d)) as [Heq|]; [|done].
    specialize (Hhead _ _ _ eq_refl). lia.
  - rewrite <- app_comm_cons. cbn [chunk_by_slot]. rewrite IH by done.
    inversion_clear Hg as [|? ? Hc2 _]. by rewrite Hc, Hc2, Nat.eqb_refl.
Qed.

Lemma step_group_at src name k a cs :
  anchored src !! k = Some a ->
  step_group src name ((fun c : nat * bool => mkCursor k c.1 c.2) <$> cs) =
  (fun c : nat * bool => mkCursor k c.1 c.2) <$> (step (an_pattern a) cs name).1.
Proof.
  intros Ha. destruct cs as [|c cs]; [by rewrite step_no_cursors|].
  rewrite fmap_cons. cbn [step_group]. simpl slot. rewrite Ha.
  replace ((fun c => (pos c, fed c)) <$> _) with (c :: cs).
  - apply list_fmap_ext. by intros i [].
  - simpl. destruct c. f_equal. rewrite <- list_fmap_compose. symmetry.
    apply fmap_same. by intros [].
Qed.

Lemma step_layer_cursors src name pre an rel :
  anchored src = pre ++ an ->
  concat (step_group src name <$> chunk_by_slot (layer_cursors (length pre) an rel)) =
  layer_cursors (length pre) an (rel ++ [name]).
Proof.
  revert pre; induction an as [|a an IH]; intros pre Hsrc; [done|]. simpl layer_cursors.
  specialize (IH (pre ++ [a])). rewrite length_app, Nat.add_comm in IH. simpl in IH.
  rewrite <- app_assoc in IH. specialize (IH Hsrc).
  assert (Ha : anchored src !! length pre = Some a) by (rewrite Hsrc; by rewrite list_lookup_middle).
  rewrite cursors_at_snoc, <- (step_group_at src name (length pre) a) by done.
  destruct (cursors_at (an_pattern a) rel) as [|c cs] eqn:Hcs; [exact IH|].
  rewrite (chunk_group (length pre)).
  - rewrite fmap_cons. cbn [concat]. by rewrite IH.
  - done.
  - apply Forall_fmap, Forall_forall. done.
  - eapply Forall_impl; [apply layer_cursors_slots|]. simpl. intros; lia.
Qed.

Lemma layer_cursors_nil an rel name k :
  layer_cursors k an rel = [] -> layer_cursors k an (rel ++ [name]) = [].
Proof.
  revert k; induction an as [|a an IH]; intros k; [done|]. simpl.
  intros [Ha Han]%app_eq_nil. rewrite cursors_at_snoc.
  destruct (cursors_at (an_pattern a) rel); [|done]. rewrite step_no_cursors. simpl. by apply IH.
Qed.

(** Stepping a layer, changed or not, follows the file into the child. *)
Lemma step_layer_inv ls al l name :
  layer_inv ls al l -> layer_inv ls (a_move name al) (step_layer name l).1.
Proof.
  intros (Hs & Hp & Hc & Hcur). unfold step_layer, layer_stepped.
  destruct (is_empty (cursors l)) eqn:He.
  { split_and!; try done. simpl. assert (Hz : cursors l = []) by (by destruct (cursors l)).
    rewrite Hz in *. symmetry. by apply layer_cursors_nil. }
  pose proof (step_layer_cursors (source l) name [] (anchored (source l)) (al_rel al) eq_refl) as Hstep.
  simpl length in Hstep. rewrite <- Hcur in Hstep. rewrite Hstep.
  case_bool_decide as Hsame; split_and!; done.
Qed.

(** A layer that does not change is the same layer in the child. *)
Lemma step_layer_unchanged name l : (step_layer name l).2 = false -> (step_layer name l).1 = l.
Proof. unfold step_layer. by destruct (layer_stepped l name). Qed.

(** A layer that is not live has no rules, here or below. *)
Lemma dead_layer l name : live l = None -> layer_rules l = [] /\ (step_layer name l).1 = l.
Proof.
  unfold live, layer_rules, step_layer, layer_stepped.
  destruct (shared (source l)), (cursors l); done.
Qed.

(** ** The rules of one layer *)

Lemma merge_skip src line r sh cs :
  Forall (fun c => exists a, anchored src !! slot c = Some a /\ (line < index (an_pattern a))%N) cs ->
  merge_rules src ((line, r) :: sh) cs = r :: merge_rules src sh cs.
Proof.
  destruct cs as [|c cs]; [done|]. inversion_clear 1 as [|? ? (a & Ha & Hl) _]. simpl. rewrite Ha.
  rewrite (proj2 (N.ltb_lt _ _) Hl). by destruct (take_shared (index (an_pattern a)) sh).
Qed.

Lemma take_shared_none line sh :
  Forall (fun lr => line <= lr.1)%N sh -> take_shared line sh = ([], sh).
Proof.
  destruct 1 as [|[at_ r] sh Hl _]; [done|]. simpl in *. by rewrite (proj2 (N.ltb_ge _ _) Hl).
Qed.

(** The cursors of one pattern emit its projections in place. *)
Lemma merge_group ls b src sh k a cs rest :
  anchored src !! k = Some a -> Forall (fun lr => index (an_pattern a) <= lr.1)%N sh ->
  Forall2 (opt_rule ls b) (projections (an_pattern a)) (an_projections a) ->
  exists out,
    merge_rules src sh (((fun c : nat * bool => mkCursor k c.1 c.2) <$> cs) ++ rest) =
      out ++ merge_rules src sh rest /\
    Forall2 (fun p r => rule_for ls p b r) (omap (projection (projections (an_pattern a))) cs) out.
Proof.
  intros Ha Hsh Hproj. induction cs as [|[p f] cs (out & Hout & Hrules)]; [by exists []|].
  rewrite fmap_cons, <- app_comm_cons. cbn [merge_rules]. simpl slot. simpl pos. simpl fed.
  rewrite Ha, take_shared_none, Hout by done. cbn [app fst snd].
  rewrite (Nat.mul_comm 2 p). set (j := p * 2 + _).
  set (pr := projection (projections (an_pattern a))) in *.
  change (omap pr ((p, f) :: cs)) with
    (match pr (p, f) with Some y => y :: omap pr cs | None => omap pr cs end).
  assert (Hj : opt_rule ls b (pr (p, f))
      (default None (an_projections a !! j))).
  { unfold pr, projection. simpl. fold j.
    destruct (projections (an_pattern a) !! j) as [x|] eqn:Hx.
    - destruct (Forall2_lookup_l _ _ _ _ _ Hproj Hx) as (y & Hy & Hxy). by rewrite Hy.
    - assert (an_projections a !! j = None) as ->; [|done]. apply lookup_ge_None.
      rewrite <- (Forall2_length _ _ _ Hproj). by apply lookup_ge_None. }
  destruct (pr (p, f)) as [q|],
    (default None (an_projections a !! j)) as [r|]; try done.
  - exists (r :: out). split; [done|]. by constructor.
  - by exists out.
Qed.

Lemma compiled_lines ls b ps sh an line :
  compiled ls b ps sh an -> Forall (fun p => line < index p)%N ps ->
  Forall (fun lr => line < lr.1)%N sh /\ Forall (fun a => line < index (an_pattern a))%N an.
Proof.
  induction 1; intros Hps; [by split; constructor|..]; inversion_clear Hps as [|? ? Hl Hps'];
    destruct (IHcompiled Hps') as [Hsh Han]; split; try done; by constructor.
Qed.

Lemma layer_cursors_lines src pre an rel line :
  anchored src = pre ++ an -> Forall (fun a => line < index (an_pattern a))%N an ->
  Forall (fun c => exists a, anchored src !! slot c = Some a /\ (line < index (an_pattern a))%N)
    (layer_cursors (length pre) an rel).
Proof.
  intros Hsrc Han. revert pre Hsrc. induction Han as [|a an Ha Han IH]; intros pre Hsrc; simpl; [constructor|].
  apply Forall_app. split.
  - apply Forall_fmap, Forall_forall. intros c _. exists a. simpl. split; [|done].
    rewrite Hsrc. by rewrite list_lookup_middle.
  - specialize (IH (pre ++ [a])). rewrite length_app, Nat.add_comm in IH. apply IH.
    by rewrite <- app_assoc.
Qed.

(** The merge of shared rules and projections is the patterns' contributions
    in line order. *)
Lemma merge_rules_spec ls b src ps sh an pre rel :
  anchored src = pre ++ an -> compiled ls b ps sh an -> StronglySorted N.lt (index <$> ps) ->
  Forall2 (fun p r => rule_for ls p b r) (concat (contrib rel <$> ps))
    (merge_rules src sh (layer_cursors (length pre) an rel)).
Proof.
  intros Hsrc Hc. revert pre Hsrc.
  induction Hc as [|p q r ps sh an Hs Hq Hr Hc IH|p ps sh an Hs Hq Hc IH|p proj ps sh an Hs Hproj Hc IH];
    intros pre Hsrc Hsort; [by simpl|..];
    rewrite fmap_cons in Hsort; inversion_clear Hsort as [|? ? Hsort' Hlt]; rewrite Forall_fmap in Hlt;
    destruct (compiled_lines _ _ _ _ _ (index p) Hc Hlt) as [Hsh Han];
    rewrite fmap_cons; cbn [concat]; unfold contrib at 1; rewrite Hs.
  - rewrite Hq. simpl option_list. rewrite merge_skip by (by apply layer_cursors_lines).
    simpl. constructor; [done|]. by apply IH.
  - rewrite Hq. by apply IH.
  - simpl layer_cursors. set (a := mkAnchored p proj (bool_decide (b = BFerret) && is_anchored_reinclude p &&
      negb (existsb (is_superseded_by p) ps))) in *.
    assert (Ha : anchored src !! length pre = Some a) by (rewrite Hsrc; by rewrite list_lookup_middle).
    destruct (merge_group ls b src sh (length pre) a (cursors_at p rel)
      (layer_cursors (S (length pre)) an rel)) as (out & -> & Hout); [done| |done|].
    { eapply Forall_impl; [exact Hsh|]. simpl. intros; lia. }
    apply Forall2_app; [done|]. specialize (IH (pre ++ [a])).
    rewrite length_app, Nat.add_comm in IH. apply IH; [by rewrite <- app_assoc|done].
Qed.

Lemma layer_rules_spec ls al l :
  layer_inv ls al l ->
  Forall2 (fun p r => rule_for ls p (al_band al) r)
    (concat (contrib (al_rel al) <$> al_patterns al)) (layer_rules l).
Proof.
  intros (Hs & _ & Hc & Hcur). unfold layer_rules. rewrite Hcur.
  by apply (merge_rules_spec ls _ (source l) _ _ _ []).
Qed.

(** The verdict a rule or a pattern gives. *)
Definition rule_verdict (r : Rule) : bool * bool :=
  (is_whitelist (rule_pattern r), bool_decide (band r = BFerret)).
Definition pattern_verdict (b : Band) (p : Pattern) : bool * bool :=
  (is_whitelist p, bool_decide (b = BFerret)).

Lemma last_rule_contrib ls b ps rs name is_dir :
  Forall2 (fun p r => rule_for ls p b r) ps rs -> Forall basename_wf ps ->
  rule_verdict <$> last_rule rs name is_dir = pattern_verdict b <$> last_pattern ps name is_dir.
Proof.
  induction 1 as [|p r ps rs Hr _ IH]; intros Hps; [done|]. inversion_clear Hps as [|? ? Hp Hps'].
  specialize (IH Hps'). simpl.
  pose proof (rule_for_matches ls p b r name is_dir Hp Hr) as [Hm Hw].
  destruct Hr as (_ & _ & Hb & _).
  destruct (last_rule rs name is_dir), (last_pattern ps name is_dir); try done.
  rewrite Hm. destruct (matches_name p name is_dir); [|done]. simpl.
  unfold rule_verdict, pattern_verdict. by rewrite Hw, Hb.
Qed.

Lemma contrib_wf p rel : pattern_wf p ->
  Forall basename_wf (contrib rel p) /\ Forall (fun q => is_whitelist q = is_whitelist p) (contrib rel p).
Proof.
  intros Hp.
  assert (Hin : forall q, q ∈ contrib rel p -> Some q ∈ projections p).
  { intros q. unfold contrib. destruct (is_shared_basename p).
    - destruct (projections p) as [|[x|] l]; simpl; [by intros ?%not_elem_of_nil| |by intros ?%not_elem_of_nil].
      intros ->%list_elem_of_singleton. by left.
    - intros (c & _ & Hc)%list_elem_of_omap. unfold projection in Hc.
      destruct (projections p !! _) as [x|] eqn:Hx; [|done]. simpl in Hc. subst x.
      by eapply list_elem_of_lookup_2. }
  split; apply Forall_forall; intros q Hq%Hin; by apply (projections_wf p q).
Qed.

Lemma last_pattern_file ps rel name is_dir :
  Forall pattern_wf ps -> name <> [] ->
  is_whitelist <$> last_pattern (concat (contrib rel <$> ps)) name is_dir =
  is_whitelist <$> file_verdict ps rel name is_dir.
Proof.
  intros Hps Hn. induction Hps as [|p ps Hp Hps IH]; [done|].
  rewrite fmap_cons. cbn [concat]. rewrite last_pattern_app. simpl.
  destruct (last_pattern (concat _) name is_dir) as [q|], (file_verdict ps rel name is_dir) as [q'|];
    try done.
  rewrite (last_pattern_any _ _ _ (is_whitelist p)) by (by apply contrib_wf).
  rewrite contrib_matches by done. by destruct (matches_override p _ is_dir).
Qed.

(** A layer answers with its file's last matching line. *)
Lemma layer_verdict ls al l name is_dir :
  layer_inv ls al l -> name <> [] ->
  rule_verdict <$> last_rule (layer_rules l) name is_dir =
  pattern_verdict (al_band al) <$> file_verdict (al_patterns al) (al_rel al) name is_dir.
Proof.
  intros Hinv Hn. pose proof (layer_rules_spec ls al l Hinv) as H2. destruct Hinv as (_ & Hp & _).
  rewrite (last_rule_contrib ls (al_band al) (concat (contrib (al_rel al) <$> al_patterns al))); [|done|].
  - pose proof (last_pattern_file (al_patterns al) (al_rel al) name is_dir Hp Hn) as H.
    destruct (last_pattern _ name is_dir), (file_verdict _ _ name is_dir); try done.
    simpl in *. unfold pattern_verdict. congruence.
  - apply Forall_forall. intros q (l' & Hl & Hq)%elem_of_concat.
    apply list_elem_of_fmap in Hl as (p & -> & Hin). rewrite Forall_forall in Hp.
    destruct (contrib_wf p (al_rel al) (Hp p Hin)) as [Hc _]. rewrite Forall_forall in Hc. by apply Hc.
Qed.

(** ** Groups of layers *)

(** A group of a state's layers stands for the files of one band, less the
    layers that are not live. *)
Definition sim_list (ls : Lists) (b : Band) (als : list ALayer) (lst : list Layer) : Prop :=
  Forall (fun al => al_band al = b) als /\
  exists full, Forall2 (layer_inv ls) als full /\ lst = omap live full.

Lemma sim_extends ls ls' b als lst : extends ls ls' -> sim_list ls b als lst -> sim_list ls' b als lst.
Proof.
  intros He (Hb & full & Hf & ->). split; [done|]. exists full. split; [|done].
  eapply Forall2_impl; [exact Hf|]. intros. by eapply layer_inv_extends.
Qed.

Lemma sim_nil ls b : sim_list ls b [] [].
Proof. split; [constructor|]. exists []. split; [constructor|done]. Qed.

Lemma sim_app ls b als1 als2 l1 l2 :
  sim_list ls b als1 l1 -> sim_list ls b als2 l2 -> sim_list ls b (als1 ++ als2) (l1 ++ l2).
Proof.
  intros (Hb1 & f1 & Hf1 & ->) (Hb2 & f2 & Hf2 & ->). split; [by apply Forall_app|].
  exists (f1 ++ f2). split; [by apply Forall2_app|]. by rewrite omap_app.
Qed.

Lemma live_Some l l' : live l = Some l' -> l' = l.
Proof. unfold live. destruct (_ || _); [by intros [= ->]|done]. Qed.

Lemma sim_step ls b als lst name :
  sim_list ls b als lst -> sim_list ls b (a_move name <$> als) (step_layers name lst).1.
Proof.
  intros (Hb & full & Hf & ->). split; [by apply Forall_fmap|].
  exists ((fun l => (step_layer name l).1) <$> full). split.
  - apply Forall2_fmap. eapply Forall2_impl; [exact Hf|]. intros. by apply step_layer_inv.
  - simpl. clear Hf Hb. induction full as [|l full IH]; [done|]. rewrite fmap_cons.
    cbn [omap list_omap]. destruct (live l) as [l'|] eqn:Hl.
    + pose proof (live_Some _ _ Hl) as ->. cbn [omap list_omap]. by rewrite IH.
    + destruct (dead_layer l name Hl) as [_ ->]. by rewrite Hl.
Qed.

Lemma sim_unchanged ls b als lst name :
  sim_list ls b als lst -> (step_layers name lst).2 = false -> (step_layers name lst).1 = lst.
Proof.
  intros (_ & full & _ & ->) Hch. simpl in *. induction full as [|l full IH]; [done|].
  cbn [omap list_omap] in *. destruct (live l) as [l'|] eqn:Hl; [|by apply IH].
  pose proof (live_Some _ _ Hl) as ->. cbn [omap list_omap existsb] in *.
  apply orb_false_iff in Hch as [Hc Hch]. rewrite (step_layer_unchanged _ _ Hc), Hl. by rewrite IH.
Qed.

Lemma step_opt_list name o :
  option_list (step_opt name o).1 = (step_layers name (option_list o)).1 /\
  (step_opt name o).2 = (step_layers name (option_list o)).2.
Proof.
  destruct o as [l|]; [|done]. simpl. rewrite orb_false_r. split; [|done].
  by destruct (live (step_layer name l).1).
Qed.

(** The group answers with the nearest file that has a matching line. *)
Lemma first_verdict_app l1 l2 name is_dir :
  first_verdict (l1 ++ l2) name is_dir =
  match first_verdict l1 name is_dir with Some v => Some v | None => first_verdict l2 name is_dir end.
Proof. induction l1 as [|l l1 IH]; simpl; [done|]. by destruct (file_verdict _ _ _ _). Qed.

Lemma sim_verdict ls b als lst name is_dir :
  sim_list ls b als lst -> name <> [] ->
  rule_verdict <$> last_rule (concat (layer_rules <$> lst)) name is_dir =
  first_verdict (rev als) name is_dir.
Proof.
  intros (_ & full & Hf & ->) Hn. induction Hf as [|al l als full Hal Hf IH]; [done|].
  simpl rev. rewrite first_verdict_app, <- IH. cbn [omap list_omap first_verdict].
  pose proof (layer_verdict ls al l name is_dir Hal Hn) as Hv.
  destruct (live l) as [l'|] eqn:Hl.
  - pose proof (live_Some _ _ Hl) as ->. rewrite fmap_cons. cbn [concat]. rewrite last_rule_app.
    destruct (last_rule (concat _) name is_dir); [done|]. rewrite Hv.
    unfold pattern_verdict. by destruct (file_verdict _ _ _ _).
  - destruct (dead_layer l name Hl) as [Hr _]. rewrite Hr in Hv. simpl in Hv.
    destruct (last_rule (concat _) name is_dir); [done|].
    by destruct (file_verdict _ _ _ _).
Qed.

Lemma sim_rules ls b als lst :
  sim_list ls b als lst ->
  Forall (fun r => interned ls r /\ band r = b /\ basename_wf (rule_pattern r))
    (concat (layer_rules <$> lst)).
Proof.
  intros (Hb & full & Hf & ->). apply Forall_forall. intros r (rs & Hrs & Hr)%elem_of_concat.
  apply list_elem_of_fmap in Hrs as (l & -> & Hl). apply list_elem_of_omap in Hl as (l' & Hl' & Hlive).
  pose proof (live_Some _ _ Hlive) as ->. apply list_elem_of_lookup_1 in Hl' as (i & Hi).
  destruct (Forall2_lookup_r _ _ _ _ _ Hf Hi) as (al & Hal & Hinv).
  apply layer_rules_spec in Hinv. apply list_elem_of_lookup_1 in Hr as (j & Hj).
  destruct (Forall2_lookup_r _ _ _ _ _ Hinv Hj) as (p & _ & Hint & _ & Hband & Hwf).
  split; [done|]. split; [|done]. rewrite Hband. by eapply Forall_lookup_1 in Hb; [|exact Hal].
Qed.

(** ** States *)

Definition git_sim (ls : Lists) (a : option (option ALayer * list ALayer)) (t : option WorkTree) : Prop :=
  match a, t with
  | None, None => True
  | Some (e, i), Some tree =>
      sim_list ls BRepo (option_list e) (option_list (wt_exclude tree)) /\
      sim_list ls BRepo i (wt_ignores tree)
  | _, _ => False
  end.

Definition state_sim (ls : Lists) (a : AState) (s : State) : Prop :=
  sim_list ls BGlobal (option_list (a_global a)) (option_list (st_global s)) /\
  git_sim ls (a_git a) (st_git s) /\
  sim_list ls BFerret (a_ferret a) (st_ferret s) /\
  sim_list ls BRepo (a_ignore a) (st_ignore s) /\
  sim_list ls BRepo (a_rgignore a) (st_rgignore s).

Lemma git_sim_extends ls ls' a t : extends ls ls' -> git_sim ls a t -> git_sim ls' a t.
Proof.
  intros He. destruct a as [[e i]|], t as [tree|]; try done. simpl.
  intros [? ?]. split; by eapply sim_extends.
Qed.

Lemma state_sim_extends ls ls' a s : extends ls ls' -> state_sim ls a s -> state_sim ls' a s.
Proof.
  intros He (H1 & H2 & H3 & H4 & H5).
  split_and!; try (by eapply sim_extends). by eapply git_sim_extends.
Qed.

(** Stepping a group and keeping it when nothing changed come to the same. *)
Lemma sim_step_kept ls b als lst name (changed : bool) :
  sim_list ls b als lst -> (changed = false -> (step_layers name lst).2 = false) ->
  sim_list ls b (a_move name <$> als) (if changed then (step_layers name lst).1 else lst).
Proof.
  intros Hs Hc. destruct changed; [by apply sim_step|].
  rewrite <- (sim_unchanged ls b als lst name Hs (Hc eq_refl)) at 1. by apply sim_step.
Qed.

Lemma option_list_fmap {A B} (f : A -> B) (o : option A) : option_list (f <$> o) = f <$> option_list o.
Proof. by destruct o. Qed.

Lemma sim_opt_kept ls b (o : option ALayer) l name (changed : bool) :
  sim_list ls b (option_list o) (option_list l) ->
  (changed = false -> (step_opt name l).2 = false) ->
  sim_list ls b (option_list (a_move name <$> o)) (option_list (if changed then (step_opt name l).1 else l)).
Proof.
  intros Hs Hc. rewrite option_list_fmap. destruct (step_opt_list name l) as [H1 H2].
  rewrite H2 in Hc. pose proof (sim_step_kept ls b _ _ name changed Hs Hc) as H.
  destruct changed; [by rewrite H1|done].
Qed.

Lemma git_sim_kept ls a t name (changed : bool) :
  git_sim ls a t -> (changed = false -> (step_git name t).2 = false) ->
  git_sim ls ((fun ei : option ALayer * list ALayer => (a_move name <$> ei.1, a_move name <$> ei.2)) <$> a)
    (if changed then (step_git name t).1 else t).
Proof.
  destruct a as [[e i]|], t as [tree|]; try done; [|by destruct changed].
  intros [He Hi] Hc. unfold step_git in *.
  destruct (step_opt name (wt_exclude tree)) as [ex d1] eqn:F1.
  destruct (step_layers name (wt_ignores tree)) as [ig d2] eqn:F2.
  assert (Hd : changed = false -> d1 = false /\ d2 = false) by (intros H; by apply orb_false_iff, Hc).
  pose proof (sim_opt_kept ls BRepo _ _ name changed He) as G6. rewrite F1 in G6.
  pose proof (sim_step_kept ls BRepo _ _ name changed Hi) as G7. rewrite F2 in G7. simpl in G6, G7.
  destruct changed; simpl; (split; [apply G6|apply G7]); tauto.
Qed.

Lemma stepped_same_sim ls a s name :
  state_sim ls a s -> state_sim ls (a_step name a) (default s (stepped_same s name)).
Proof.
  intros (H1 & H2 & H3 & H4 & H5). unfold stepped_same.
  destruct (step_opt name (st_global s)) as [global c1] eqn:E1.
  destruct (step_git name (st_git s)) as [git c2] eqn:E2.
  destruct (step_layers name (st_ignore s)) as [ignore c3] eqn:E3.
  destruct (step_layers name (st_rgignore s)) as [rgignore c4] eqn:E4.
  destruct (step_layers name (st_ferret s)) as [ferret c5] eqn:E5.
  set (changed := c1 || c2 || c3 || c4 || c5).
  assert (Hch : changed = false -> c1 = false /\ c2 = false /\ c3 = false /\ c4 = false /\ c5 = false).
  { unfold changed. by destruct c1, c2, c3, c4, c5. }
  assert (Hd : default s (if changed then Some (mkState global git ferret ignore rgignore) else None) =
    mkState (if changed then global else st_global s) (if changed then git else st_git s)
      (if changed then ferret else st_ferret s) (if changed then ignore else st_ignore s)
      (if changed then rgignore else st_rgignore s)).
  { destruct changed; [done|]. by destruct s. }
  rewrite Hd. unfold state_sim. simpl.
  pose proof (sim_opt_kept ls BGlobal _ _ name changed H1) as G1. rewrite E1 in G1.
  pose proof (git_sim_kept ls _ _ name changed H2) as G2. rewrite E2 in G2.
  pose proof (sim_step_kept ls BFerret _ _ name changed H3) as G3. rewrite E5 in G3.
  pose proof (sim_step_kept ls BRepo _ _ name changed H4) as G4. rewrite E3 in G4.
  pose proof (sim_step_kept ls BRepo _ _ name changed H5) as G5. rewrite E4 in G5.
  simpl in G1, G2, G3, G4, G5.
  split_and!; [apply G1|apply G2|apply G3|apply G4|apply G5]; tauto.
Qed.

(** Leaving the enclosing work tree, as a child that starts one does. *)
Definition a_leave (root : bool) (a : AState) : AState :=
  mkAState (a_global a) (if root then None else a_git a) (a_ferret a) (a_ignore a) (a_rgignore a).

Lemma stepped_sim ls a s name root :
  state_sim ls a s -> state_sim ls (a_leave root (a_step name a)) (default s (stepped s name root)).
Proof.
  intros Hs. pose proof (stepped_same_sim ls a s name Hs) as Hn. unfold stepped.
  assert (Hg : git_sim ls (a_git a) (st_git s)) by apply Hs.
  destruct (st_git s) as [tree|] eqn:Hgit.
  - destruct root; [|done]. destruct Hn as (? & ? & ? & ? & ?). split_and!; done.
  - destruct root; [|done]. unfold git_sim in Hg. destruct (a_git a) as [[e i]|] eqn:Ha; [done|].
    unfold a_leave. unfold state_sim in *. simpl in *. by rewrite Ha in Hn.
Qed.

Lemma a_add_leave files a : a_add files (a_leave (git_root files) a) = a_add files a.
Proof. unfold a_add, a_leave. simpl. by destruct (git_root files). Qed.

(** ** Adding a directory's files *)

Lemma layer_compile_spec file text b ls errors l errors' ls' :
  lists_wf ls -> layer_compile file text b ls errors = (l, errors', ls') ->
  lists_wf ls' /\ extends ls ls' /\ sim_list ls' b [a_file text b] (option_list (live l)).
Proof.
  intros Hwf. unfold layer_compile. destruct (compile_text text b ls) as [[l1 errs] ls1] eqn:Hc.
  intros [= <- <- <-]. apply compile_text_spec in Hc as (Hwf1 & He & Hinv & _); [|done].
  split; [done|]. split; [done|]. split; [by apply Forall_singleton|]. exists [l1].
  split; [by constructor|]. simpl. by destruct (live l1).
Qed.

Lemma extend_layers_spec lst file text b ls errors lst' errors' ls' als :
  lists_wf ls -> sim_list ls b als lst ->
  extend_layers lst file text b ls errors = (lst', errors', ls') ->
  lists_wf ls' /\ extends ls ls' /\ sim_list ls' b (als ++ a_files text b) lst'.
Proof.
  intros Hwf Hsim. unfold extend_layers, a_files. destruct text as [text|].
  - destruct (layer_compile file text b ls errors) as [[l errs] ls1] eqn:Hc. intros [= <- <- <-].
    apply layer_compile_spec in Hc as (Hwf1 & He & Hs); [|done].
    split; [done|]. split; [done|]. apply sim_app; [by eapply sim_extends|done].
  - intros [= <- <- <-]. simpl. rewrite app_nil_r. split; [done|]. split; [reflexivity|done].
Qed.

Abbreviation AGit := (option (option ALayer * list ALayer)) (only parsing).

Definition a_start (files : IgnoreFiles) (git : AGit) : AGit :=
  if git_root files then Some ((fun t => a_file t BRepo) <$> git_exclude files, []) else git.
Definition a_extend (files : IgnoreFiles) (git : AGit) : AGit :=
  (fun ei : option ALayer * list ALayer => (ei.1, ei.2 ++ a_files (gitignore files) BRepo)) <$> git.

Lemma start_git_spec ag git dir files ls errors git' errors' ls' :
  lists_wf ls -> git_sim ls ag git -> start_git git dir files ls errors = (git', errors', ls') ->
  lists_wf ls' /\ extends ls ls' /\ git_sim ls' (a_start files ag) git'.
Proof.
  intros Hwf Hs. unfold start_git, a_start. destruct (git_root files).
  - destruct (git_exclude files) as [text|].
    + destruct (layer_compile _ text BRepo ls errors) as [[l e] lsx] eqn:Hc. intros [= <- <- <-].
      apply layer_compile_spec in Hc as (? & ? & ?); [|done]. split; [done|]. split; [done|].
      split; [done|apply sim_nil].
    + intros [= <- <- <-]. split; [done|]. split; [reflexivity|]. split; apply sim_nil.
  - intros [= <- <- <-]. split; [done|]. split; [reflexivity|done].
Qed.

Lemma extend_git_spec ag git dir files ls errors git' errors' ls' :
  lists_wf ls -> git_sim ls ag git -> extend_git git dir files ls errors = (git', errors', ls') ->
  lists_wf ls' /\ extends ls ls' /\ git_sim ls' (a_extend files ag) git'.
Proof.
  intros Hwf Hs. unfold extend_git, a_extend. destruct git as [tree|], ag as [[e i]|]; try done.
  - destruct (extend_layers (wt_ignores tree) _ _ _ _ _) as [[ig e'] lsx] eqn:Hc.
    intros [= <- <- <-]. destruct Hs as [Se Si].
    apply (extend_layers_spec _ _ _ _ _ _ _ _ _ i) in Hc as (? & ? & ?); [|done..].
    split; [done|]. split; [done|]. split; [by eapply sim_extends|done].
  - intros [= <- <- <-]. split; [done|]. split; [reflexivity|done].
Qed.

Lemma add_files_spec a s dir files ls errors s' errors' ls' :
  lists_wf ls -> state_sim ls a s -> add_files s dir files ls errors = (s', errors', ls') ->
  lists_wf ls' /\ extends ls ls' /\ state_sim ls' (a_add files a) s'.
Proof.
  intros Hwf (Sg & Sgit & Sf & Si & Sr). unfold add_files.
  destruct (extend_layers (st_ferret s) _ _ _ _ _) as [[ferret e1] ls1] eqn:E1.
  apply (extend_layers_spec _ _ _ _ _ _ _ _ _ (a_ferret a)) in E1 as (Hwf1 & X1 & S1); [|done..].
  destruct (start_git (st_git s) _ _ _ _) as [[git e2] ls2] eqn:E2.
  apply (start_git_spec (a_git a)) in E2 as (Hwf2 & X2 & S2); [|done|by apply (git_sim_extends ls)].
  destruct (extend_git git _ _ _ _) as [[git' e3] ls3] eqn:E3.
  apply (extend_git_spec (a_start files (a_git a))) in E3 as (Hwf3 & X3 & S3); [|done..].
  assert (X13 : extends ls ls3) by (transitivity ls1; [done|by transitivity ls2]).
  destruct (extend_layers (st_ignore s) _ _ _ _ _) as [[ig e4] ls4] eqn:E4.
  apply (extend_layers_spec _ _ _ _ _ _ _ _ _ (a_ignore a)) in E4 as (Hwf4 & X4 & S4);
    [|done|by apply (sim_extends ls)].
  destruct (extend_layers (st_rgignore s) _ _ _ _ _) as [[rg e5] ls5] eqn:E5.
  assert (X14 : extends ls ls4) by (by transitivity ls3).
  apply (extend_layers_spec _ _ _ _ _ _ _ _ _ (a_rgignore a)) in E5 as (Hwf5 & X5 & S5);
    [|done|by apply (sim_extends ls)].
  intros [= <- <- <-]. split; [done|]. assert (X15 : extends ls ls5) by (by transitivity ls4).
  assert (X35 : extends ls3 ls5) by (by transitivity ls4).
  assert (X25 : extends ls1 ls5) by (transitivity ls2; [done|by transitivity ls3]).
  split; [done|].
  split_and!; simpl; [by apply (sim_extends ls)|by apply (git_sim_extends ls3)
    |by apply (sim_extends ls1)|by apply (sim_extends ls4)|done].
Qed.

(** ** The list of a state *)

Lemma bands_sorted_app l1 l2 :
  bands_sorted l1 -> bands_sorted l2 ->
  (forall r q, r ∈ l1 -> q ∈ l2 -> band_rank (band r) <= band_rank (band q)) ->
  bands_sorted (l1 ++ l2).
Proof.
  intros H1 H2 H. induction H1 as [|r l1 Hs IH Hr]; [done|]. simpl. constructor.
  - apply IH. intros x q Hx. apply H. by right.
  - apply Forall_app. split; [done|]. apply Forall_forall. intros q Hq. apply H; [by left|done].
Qed.

Lemma bands_sorted_const b l : Forall (fun r => band r = b) l -> bands_sorted l.
Proof.
  induction 1 as [|r l Hr Hl IH]; constructor; [done|].
  eapply Forall_impl; [exact Hl|]. simpl. intros q ->. by rewrite Hr.
Qed.

(** The files of a state, in the order of [State::layers]. *)
Definition a_layers (a : AState) : list ALayer :=
  option_list (a_global a)
  ++ match a_git a with None => [] | Some (e, i) => option_list e ++ i end
  ++ a_ignore a ++ a_rgignore a ++ a_ferret a.

Lemma rev_a_layers a : rev (a_layers a) = a_precedence a.
Proof.
  unfold a_layers, a_precedence. rewrite !rev_app_distr, <- !app_assoc. do 3 f_equal.
  assert (Hr : forall o : option ALayer, rev (option_list o) = option_list o) by (by intros []).
  f_equal; [|apply Hr]. destruct (a_git a) as [[e i]|]; [|done]. by rewrite rev_app_distr, Hr.
Qed.

Definition git_layers (t : option WorkTree) : list Layer :=
  match t with None => [] | Some tree => option_list (wt_exclude tree) ++ wt_ignores tree end.

Lemma git_sim_list ls ag t :
  git_sim ls ag t ->
  sim_list ls BRepo (match ag with None => [] | Some (e, i) => option_list e ++ i end) (git_layers t).
Proof.
  destruct ag as [[e i]|], t as [tree|]; try done; [|intros _; apply sim_nil].
  intros [He Hi]. by apply sim_app.
Qed.

Lemma concat_fmap_app {A B} (f : A -> list B) l1 l2 :
  concat (f <$> l1 ++ l2) = concat (f <$> l1) ++ concat (f <$> l2).
Proof. by rewrite fmap_app, concat_app. Qed.

(** The repository's files and layers, between the global and ferret ones. *)
Definition a_repo (a : AState) : list ALayer :=
  match a_git a with None => [] | Some (e, i) => option_list e ++ i end ++ a_ignore a ++ a_rgignore a.
Definition repo_layers (s : State) : list Layer :=
  git_layers (st_git s) ++ st_ignore s ++ st_rgignore s.

Lemma a_layers_groups a : a_layers a = option_list (a_global a) ++ a_repo a ++ a_ferret a.
Proof. unfold a_layers, a_repo. by rewrite <- !app_assoc. Qed.

Lemma layers_groups s : layers s = option_list (st_global s) ++ repo_layers s ++ st_ferret s.
Proof. unfold layers, repo_layers. by rewrite <- !app_assoc. Qed.

Lemma sim_repo ls a s : state_sim ls a s -> sim_list ls BRepo (a_repo a) (repo_layers s).
Proof.
  intros (_ & Hg & _ & Hi & Hr). apply sim_app; [by apply git_sim_list|by apply sim_app].
Qed.

Lemma state_rules_ok ls a s :
  state_sim ls a s -> rules_ok (state_rules s) /\ Forall (interned ls) (state_rules s).
Proof.
  intros Hs. pose proof (sim_repo ls a s Hs) as Hrepo.
  destruct Hs as (Hg & _ & Hf & _). unfold state_rules. rewrite layers_groups, !concat_fmap_app.
  apply sim_rules in Hg, Hf, Hrepo.
  assert (Hb : forall b l, Forall (fun r => interned ls r /\ band r = b /\ basename_wf (rule_pattern r)) l ->
    bands_sorted l /\ (forall r, r ∈ l -> band r = b) /\ Forall (fun r => basename_wf (rule_pattern r)) l
    /\ Forall (interned ls) l).
  { intros b l H. split_and!; [apply (bands_sorted_const b)| | |];
      try (eapply Forall_impl; [exact H|]; simpl; tauto).
    intros r Hr. rewrite Forall_forall in H. by destruct (H r Hr) as (_ & ? & _). }
  apply Hb in Hg as (Sg & Bg & Wg & Ig), Hf as (Sf & Bf & Wf & If), Hrepo as (Sr & Br & Wr & Ir).
  split; [split|].
  - apply bands_sorted_app; [done|apply bands_sorted_app; [done..|]|].
    + intros r q Hr Hq. by rewrite (Br r Hr), (Bf q Hq); simpl; lia.
    + intros r q Hr _. rewrite (Bg r Hr). simpl. lia.
  - by rewrite !Forall_app.
  - by rewrite !Forall_app.
Qed.

Lemma state_verdict ls a s name is_dir :
  state_sim ls a s -> name <> [] ->
  rule_verdict <$> last_rule (state_rules s) name is_dir = first_verdict (a_precedence a) name is_dir.
Proof.
  intros Hs Hn. pose proof (sim_repo ls a s Hs) as Hrepo.
  destruct Hs as (Hg & _ & Hf & _). rewrite <- rev_a_layers, a_layers_groups. unfold state_rules.
  rewrite layers_groups, !concat_fmap_app, !last_rule_app, !rev_app_distr, !first_verdict_app.
  rewrite <- (sim_verdict _ _ _ _ name is_dir Hg Hn), <- (sim_verdict _ _ _ _ name is_dir Hf Hn),
    <- (sim_verdict _ _ _ _ name is_dir Hrepo Hn).
  destruct (last_rule (concat (layer_rules <$> st_ferret s)) name is_dir); [done|].
  by destruct (last_rule (concat (layer_rules <$> repo_layers s)) name is_dir).
Qed.

(** ** Directories *)

#[local] Arguments shared_list : simpl never.
#[local] Arguments add_files : simpl never.

(** A directory's rules implement an abstract state. *)
Definition dir_sim (ls : Lists) (a : AState) (d : DirRules) : Prop :=
  lists_wf ls /\ state_sim ls a (dr_state d) /\ dr_list d = compile_list (state_rules (dr_state d)).

Lemma shared_list_spec ls a s parent l ls' :
  lists_wf ls -> state_sim ls a s ->
  (forall p, parent = Some p -> exists rs, Forall (interned ls) rs /\ p = compile_list rs) ->
  shared_list ls s parent = (l, ls') ->
  l = compile_list (state_rules s) /\ lists_wf ls' /\ extends ls ls'.
Proof.
  intros Hwf Hs Hparent. pose proof (state_rules_ok ls a s Hs) as [_ Hint]. unfold shared_list.
  destruct parent as [p|]; [|by apply list_spec].
  destruct (Hparent p eq_refl) as (rs & Hrs & ->). case_bool_decide as Hk; [|by apply list_spec].
  intros [= <- <-]. split; [|by split].
  by rewrite (interned_ids ls rs (state_rules s) Hrs Hint Hk).
Qed.

Lemma dir_list_interned ls ls' a d :
  dir_sim ls a d -> extends ls ls' ->
  forall p, Some (dr_list d) = Some p -> exists rs, Forall (interned ls') rs /\ p = compile_list rs.
Proof.
  intros (_ & Hs & Hl) He p [= <-]. exists (state_rules (dr_state d)). split; [|done].
  apply state_rules_ok in Hs as [_ Hi]. eapply Forall_impl; [exact Hi|]. intros r.
  by apply interned_extends.
Qed.

(** The state at a configured root. *)
Definition a_root (global : option bytes) (files : IgnoreFiles) : AState :=
  a_add files (mkAState ((fun t => a_file t BGlobal) <$> global) None [] [] []).

Lemma root_sim path global files config d errors ls :
  root path global files config = (d, errors, ls) ->
  dir_sim ls (a_root global files) d /\ dr_traversing d = false /\ sh_config (dr_shared d) = config.
Proof.
  unfold root. destruct (match global with None => _ | Some _ => _ end) as [[g e1] ls1] eqn:Hg.
  assert (H1 : lists_wf ls1 /\
    state_sim ls1 (mkAState ((fun t => a_file t BGlobal) <$> global) None [] [] [])
      (mkState g None [] [] [])).
  { destruct global as [text|].
    - destruct (layer_compile IFGlobal text BGlobal empty_lists []) as [[l e] lsx] eqn:Hc.
      injection Hg as <- <- <-.
      apply layer_compile_spec in Hc as (? & _ & ?); [|apply empty_lists_wf].
      split; [done|]. split_and!; try done; apply sim_nil.
    - injection Hg as <- <- <-. split; [apply empty_lists_wf|]. split_and!; try done; apply sim_nil. }
  destruct H1 as [Hwf1 S1].
  destruct (add_files _ path files ls1 e1) as [[s e2] ls2] eqn:Ha.
  apply (add_files_spec _ _ _ _ _ _ _ _ _ Hwf1 S1) in Ha as (Hwf2 & X2 & S2).
  destruct (shared_list ls2 s None) as [l ls3] eqn:Hl. intros [= <- <- <-].
  apply (shared_list_spec _ _ _ _ _ _ Hwf2 S2) in Hl as (-> & Hwf3 & X3); [|done].
  split; [|done]. split; [done|]. split; [|done]. simpl. by apply (state_sim_extends ls2).
Qed.

Lemma a_add_nothing files a s ls :
  state_sim ls a s -> adds_files s files = false -> a_add files a = a.
Proof.
  unfold adds_files. intros (_ & Hg & _) H. repeat apply orb_false_iff in H as [H ?].
  destruct files as [fe gi gr ge ig rg]. simpl in *.
  destruct fe, ig, rg, gr; try done. unfold a_add, a_files. simpl. rewrite !app_nil_r.
  destruct a as [ag agit af ai ar]; simpl in *. f_equal.
  unfold git_sim in Hg. destruct agit as [[e i]|], (st_git s); try done.
  destruct gi; [done|]. simpl. by rewrite app_nil_r.
Qed.

(** Entering a child directory. *)
Definition a_enter (name : bytes) (files : IgnoreFiles) (a : AState) : AState :=
  a_add files (a_step name a).

Lemma enter_sim ls a d name files d' errors ls' :
  dir_sim ls a d -> enter d name files ls = (d', errors, ls') ->
  dir_sim ls' (a_enter name files a) d' /\ extends ls ls' /\ dr_traversing d' = false /\
  sh_config (dr_shared d') = sh_config (dr_shared d).
Proof.
  intros Hd. pose proof Hd as (Hwf & Hs & Hl). unfold enter, a_enter.
  pose proof (stepped_sim ls a (dr_state d) name (git_root files) Hs) as Hn.
  destruct (stepped (dr_state d) name (git_root files)) as [next|] eqn:Hst.
  - rewrite bool_decide_eq_true_2 by done. simpl in *.
    destruct (add_files next _ files ls []) as [[s e] ls1] eqn:Ha.
    apply (add_files_spec _ _ _ _ _ _ _ _ _ Hwf Hn) in Ha as (Hwf1 & X1 & S1).
    rewrite a_add_leave in S1. destruct (shared_list ls1 s (Some (dr_list d))) as [l ls2] eqn:Hsl.
    intros [= <- <- <-].
    apply (shared_list_spec _ _ _ _ _ _ Hwf1 S1 (dir_list_interned _ _ _ _ Hd X1))
      in Hsl as (-> & Hwf2 & X2).
    split; [|split; [by transitivity ls1|done]]. split; [done|]. split; [|done]. by apply (state_sim_extends ls1).
  - rewrite bool_decide_eq_false_2 by (by intros []). simpl in Hn.
    destruct (adds_files (dr_state d) files) eqn:Hadds; simpl.
    + destruct (add_files (dr_state d) _ files ls []) as [[s e] ls1] eqn:Ha.
      apply (add_files_spec _ _ _ _ _ _ _ _ _ Hwf Hn) in Ha as (Hwf1 & X1 & S1).
      rewrite a_add_leave in S1. destruct (shared_list ls1 s (Some (dr_list d))) as [l ls2] eqn:Hsl.
      intros [= <- <- <-].
      apply (shared_list_spec _ _ _ _ _ _ Hwf1 S1 (dir_list_interned _ _ _ _ Hd X1))
        in Hsl as (-> & Hwf2 & X2).
      split; [|split; [by transitivity ls1|done]]. split; [done|]. split; [|done]. by apply (state_sim_extends ls1).
    + intros [= <- <- <-]. rewrite <- a_add_leave, (a_add_nothing files _ _ ls Hn Hadds).
      split; [|done]. by split.
Qed.

Lemma traverse_sim ls a d name d' ls' :
  dir_sim ls a d -> traverse d name ls = (d', ls') ->
  dir_sim ls' (a_step name a) d' /\ extends ls ls' /\ dr_traversing d' = true /\
  sh_config (dr_shared d') = sh_config (dr_shared d).
Proof.
  intros Hd. pose proof Hd as (Hwf & Hs & Hl). unfold traverse.
  pose proof (stepped_sim ls a (dr_state d) name false Hs) as Hn.
  replace (a_leave false (a_step name a)) with (a_step name a) in Hn by done.
  destruct (stepped (dr_state d) name false) as [next|]; simpl in Hn.
  - destruct (shared_list ls next (Some (dr_list d))) as [l ls2] eqn:Hsl. intros [= <- <-].
    assert (X : extends ls ls) by done.
    apply (shared_list_spec _ _ _ _ _ _ Hwf Hn (dir_list_interned _ _ _ _ Hd X))
      in Hsl as (-> & Hwf2 & X2).
    split; [|done]. split; [done|]. split; [|done]. by apply (state_sim_extends ls).
  - intros [= <- <-]. split; [|done]. by split.
Qed.

(** ** Reaching below an excluded directory *)

Lemma step_single p c name q f :
  (q, f) ∈ (step p [c] name).1 -> c ∈ [c] -> exists g, (q, g) ∈ step_specs p [c] name.
Proof. intros [H _]%elem_of_step _. done. Qed.

(** Some cursor steps into [name] exactly when stepping them all leaves one. *)
Lemma step_any p cs name :
  existsb (fun c => negb (is_empty (step p [c] name).1)) cs = negb (is_empty (step p cs name).1).
Proof.
  assert (Hne : forall l, negb (is_empty (step p l name).1) = true <->
      exists c, c ∈ l /\ exists x, x ∈ step_specs p [c] name).
  { intros l. split.
    - destruct (step p l name).1 as [|[q f] out] eqn:Hout; [done|]. intros _.
      assert (Hin : (q, f) ∈ (step p l name).1) by (rewrite Hout; by left).
      apply elem_of_step in Hin as [(g & Hg) _]. unfold step_specs in *.
      apply list_elem_of_bind in Hg as (c & Hg & Hc). exists c. split; [done|]. exists (q, g).
      simpl. by rewrite app_nil_r.
    - intros (c & Hc & [q g] & Hx). unfold step_specs in Hx. simpl in Hx. rewrite app_nil_r in Hx.
      assert (Hspec : (q, g) ∈ step_specs p l name)
        by (apply list_elem_of_bind; by exists c).
      destruct (step p l name).1 as [|y out] eqn:Hout; [|done]. exfalso.
      destruct (decide ((q, true) ∈ step_specs p l name)) as [Ht|Ht].
      + assert (Hin : (q, true) ∈ (step p l name).1) by (apply elem_of_step; split; [by exists g|done]).
        rewrite Hout in Hin. by apply not_elem_of_nil in Hin.
      + assert (Hin : (q, false) ∈ (step p l name).1) by (apply elem_of_step; split; [by exists g|done]).
        rewrite Hout in Hin. by apply not_elem_of_nil in Hin. }
  apply eq_true_iff_eq. rewrite Hne, existsb_exists. setoid_rewrite <- list_elem_of_In. split.
  - intros (c & Hc & H). apply Hne in H as (c' & ->%list_elem_of_singleton & Hx). by exists c.
  - intros (c & Hc & Hx). exists c. split; [done|]. apply Hne. exists c. split; [by left|done].
Qed.

(** The test [reaches_below] makes on one cursor. *)
Definition cursor_reaches (src : Source) (name : bytes) (c : Cursor) : bool :=
  match anchored src !! slot c with
  | None => false
  | Some a =>
      if an_reaches a then negb (is_empty (step (an_pattern a) [(pos c, fed c)] name).1) else false
  end.

Lemma group_reaches src name k a cs :
  anchored src !! k = Some a ->
  existsb (cursor_reaches src name) ((fun c : nat * bool => mkCursor k c.1 c.2) <$> cs) =
  an_reaches a && negb (is_empty (step (an_pattern a) cs name).1).
Proof.
  intros Ha. rewrite <- step_any. induction cs as [|[q f] cs IH]; [by rewrite andb_false_r|].
  rewrite fmap_cons. cbn [existsb]. rewrite IH. unfold cursor_reaches at 1. simpl. rewrite Ha.
  by destruct (an_reaches a).
Qed.

Lemma layer_reaches ls src ps sh an pre rel name :
  anchored src = pre ++ an -> compiled ls BFerret ps sh an ->
  existsb (cursor_reaches src name) (layer_cursors (length pre) an rel) =
  file_reaches ps (rel ++ [name]).
Proof.
  intros Hsrc Hc. revert pre Hsrc.
  induction Hc as [|p q r ps sh an Hs Hq Hr Hc IH|p ps sh an Hs Hq Hc IH|p proj ps sh an Hs Hproj Hc IH];
    intros pre Hsrc; [done|simpl; rewrite Hs; simpl; auto..].
  set (a := mkAnchored _ _ _) in Hsrc.
  assert (Ha : anchored src !! length pre = Some a) by (rewrite Hsrc; by rewrite list_lookup_middle).
  rewrite existsb_app, (group_reaches src name (length pre) a) by done. simpl.
  rewrite cursors_at_snoc. f_equal. specialize (IH (pre ++ [a])).
  rewrite length_app, Nat.add_comm in IH. apply IH. by rewrite <- app_assoc.
Qed.

Lemma reaches_below_sim ls a s name : state_sim ls a s -> reaches_below s name = a_reaches a name.
Proof.
  intros (_ & _ & (Hb & full & Hf & Hst) & _). unfold reaches_below, a_reaches. rewrite Hst. clear Hst.
  induction Hf as [|al l als full Hal Hf IH]; [done|]. inversion_clear Hb as [|? ? Hband Hb'].
  specialize (IH Hb'). simpl. rewrite <- IH.
  assert (Hl : existsb (cursor_reaches (source l) name) (cursors l) =
    file_reaches (al_patterns al) (al_rel al ++ [name])).
  { destruct Hal as (_ & _ & Hc & Hcur). rewrite Hband in Hc. rewrite Hcur.
    by apply (layer_reaches ls (source l) _ (shared (source l)) _ []). }
  rewrite <- Hl. destruct (live l) as [l'|] eqn:Hlive.
  - by pose proof (live_Some _ _ Hlive) as ->.
  - unfold live in Hlive. by destruct (shared (source l)), (cursors l).
Qed.

(** ** Decisions *)

Lemma dir_verdict ls a d name is_dir :
  dir_sim ls a d -> name <> [] -> (N.of_nat (length (state_rules (dr_state d))) < u64_max)%N ->
  last_match (dr_list d) name is_dir = first_verdict (a_precedence a) name is_dir.
Proof.
  intros (Hwf & Hs & ->) Hn Hlen. pose proof (state_rules_ok ls a _ Hs) as [Hok _].
  rewrite last_match_spec by done. by apply (state_verdict ls).
Qed.

Lemma decide_sim ls a d name entry :
  dir_sim ls a d -> name <> [] -> (N.of_nat (length (state_rules (dr_state d))) < u64_max)%N ->
  decide_child d name entry =
  spec_decide a (size_cap (sh_config (dr_shared d))) (dr_traversing d) name entry.
Proof.
  intros Hd Hn Hlen. unfold decide_child, spec_decide.
  rewrite (dir_verdict ls a d name _ Hd Hn Hlen).
  rewrite (reaches_below_sim ls a) by apply Hd.
  assert (Hcap : forall size, (size_cap (sh_config (dr_shared d)) <? size)%N =
    negb (size <=? size_cap (sh_config (dr_shared d)))%N) by (intros; by rewrite N.ltb_antisym).
  assert (Hfile : forall size, (if (size_cap (sh_config (dr_shared d)) <? size)%N
    then Catalog TooLarge else Index_) =
    if (size <=? size_cap (sh_config (dr_shared d)))%N then Index_ else Catalog TooLarge).
  { intros size. rewrite Hcap. by destruct (size <=? _)%N. }
  destruct (first_verdict _ name _) as [[[] ferret]|]; simpl;
    destruct (dr_traversing d); try destruct ferret; simpl; try done; destruct entry; simpl; auto.
Qed.

(** The directories of a walk, with the tables as they stand; another
    directory of the walk may have grown the tables in between. *)
Inductive walk : Lists -> DirRules -> AState -> Prop :=
| walk_root path global files config d errors ls :
    root path global files config = (d, errors, ls) -> walk ls d (a_root global files)
| walk_enter ls d a name files d' errors ls' :
    walk ls d a -> enter d name files ls = (d', errors, ls') -> walk ls' d' (a_enter name files a)
| walk_traverse ls d a name d' ls' :
    walk ls d a -> traverse d name ls = (d', ls') -> walk ls' d' (a_step name a)
| walk_other ls d a ls' :
    walk ls d a -> lists_wf ls' -> extends ls ls' -> walk ls' d a.

Lemma walk_start path global files config :
  walk (root path global files config).2 (root path global files config).1.1 (a_root global files).
Proof. destruct (root path global files config) as [[d e] ls] eqn:H. by eapply walk_root. Qed.

Lemma walk_sim ls d a : walk ls d a -> dir_sim ls a d.
Proof.
  induction 1 as [path global files config d errors ls H|ls d a name files d' errors ls' _ IH H
    |ls d a name d' ls' _ IH H|ls d a ls' _ IH Hwf He].
  - by apply root_sim in H as [H _].
  - by apply (enter_sim ls a d) in H as [H _].
  - by apply (traverse_sim ls a d) in H as [H _].
  - destruct IH as (_ & Hs & Hl). split; [done|]. split; [|done]. by apply (state_sim_extends ls).
Qed.

Lemma walk_wf ls d a : walk ls d a -> Forall (fun l => Forall pattern_wf (al_patterns l)) (a_ferret a).
Proof.
  intros (_ & (_ & _ & (_ & full & Hf & _) & _) & _)%walk_sim.
  induction Hf as [|al l als full (_ & Hp & _) _ IH]; by constructor.
Qed.

Lemma file_reaches_no ps rel names :
  Forall pattern_wf ps -> file_reaches ps rel = false -> names <> [] ->
  forall i p, ps !! i = Some p -> is_shared_basename p = false -> is_anchored_reinclude p = true ->
  (forall j q, i < j -> ps !! j = Some q -> is_superseded_by p q = false) ->
  ~ path_match (components p) (rel ++ names).
Proof.
  induction 1 as [|p0 ps Hp0 Hps IH]; intros Hr Hn i p Hi Hs Ha Hl; [by rewrite lookup_nil in Hi|].
  simpl in Hr. apply orb_false_iff in Hr as [H0 Hr].
  destruct i as [|i]; simpl in Hi.
  - injection Hi as ->. rewrite Hs, Ha in H0. simpl in H0.
    assert (Hsup : existsb (is_superseded_by p) ps = false).
    { apply not_true_is_false. intros (q & Hq & Hsq)%existsb_exists.
      apply list_elem_of_In, list_elem_of_lookup_1 in Hq as (j & Hj).
      rewrite (Hl (S j) q) in Hsq; [done|lia|done]. }
    rewrite Hsup in H0. simpl in H0. intros Hm.
    apply cursors_at_match in Hm as (c & Hc & _); [|apply Hp0|done].
    destruct (cursors_at p rel); [by apply not_elem_of_nil in Hc|done].
  - apply (IH Hr Hn i p Hi Hs Ha). intros j q Hj Hq. apply (Hl (S j) q); [lia|done].
Qed.

(** Without the [.ferretignore] rules, a state's list is its global and
    repository rules. *)
Lemma filter_state_rules ls a s :
  state_sim ls a s ->
  filter (fun r => band r <> BFerret) (state_rules s) =
  concat (layer_rules <$> option_list (st_global s)) ++ concat (layer_rules <$> repo_layers s).
Proof.
  intros Hs. pose proof (sim_repo ls a s Hs) as Hr. destruct Hs as (Hg & _ & Hf & _).
  unfold state_rules. rewrite layers_groups, !concat_fmap_app.
  apply sim_rules in Hg, Hf, Hr. rewrite Forall_forall in Hg, Hf, Hr.
  assert (Hkeep : forall (l : list Rule) b, b <> BFerret -> (forall r, r ∈ l -> band r = b) ->
      filter (fun r => band r <> BFerret) l = l).
  { intros l b Hb. induction l as [|r l IH]; intros Hl; [done|].
    rewrite filter_cons_True by (rewrite (Hl r); [done|by left]). f_equal. apply IH.
    intros q Hq. apply Hl. by right. }
  rewrite !filter_app. rewrite (Hkeep _ BGlobal), (Hkeep _ BRepo).
  - rewrite (filter_all_out _ (concat (layer_rules <$> st_ferret s))); [by rewrite app_nil_r|].
    intros r Hin Hne. by destruct (Hf r Hin) as (_ & ? & _).
  - done.
  - intros r Hin. by destruct (Hr r Hin) as (_ & ? & _).
  - done.
  - intros r Hin. by destruct (Hg r Hin) as (_ & ? & _).
Qed.

Lemma reveals_sim ls a d name is_dir :
  dir_sim ls a d -> name <> [] ->
  reveals d name is_dir = is_some_and (first_verdict (rev (a_repo a)) name is_dir) fst.
Proof.
  intros (Hwf & Hs & Hl) Hn. unfold reveals. rewrite Hl.
  pose proof (state_rules_ok ls a _ Hs) as [Hok _].
  rewrite repo_whitelists_spec, (filter_state_rules ls a), last_rule_app by done.
  pose proof (sim_repo ls a _ Hs) as Hr. pose proof (proj1 Hs) as Hg.
  rewrite <- (sim_verdict _ _ _ _ name is_dir Hr Hn).
  apply sim_rules in Hg, Hr. rewrite Forall_forall in Hg, Hr.
  destruct (last_rule (concat (layer_rules <$> repo_layers _)) name is_dir) as [r|] eqn:Hlast.
  - apply last_rule_elem in Hlast as [Hin _]. destruct (Hr r Hin) as (_ & Hb & _). simpl.
    by rewrite bool_decide_eq_true_2.
  - destruct (last_rule (concat (layer_rules <$> option_list (st_global (dr_state d)))) name is_dir)
      as [r|] eqn:Hglobal; [|done].
    apply last_rule_elem in Hglobal as [Hin _]. destruct (Hg r Hin) as (_ & Hb & _). simpl.
    by rewrite bool_decide_eq_false_2 by (by rewrite Hb).
Qed.

Lemma Forall_is_none {A B} (f : A -> option B) l :
  forallb (fun x => match f x with None => true | Some _ => false end) l = true ->
  Forall (fun x => f x = None) l.
Proof.
  induction l as [|x l IH]; simpl; [constructor|]. intros [Hx Hl]%andb_prop.
  constructor; [by destruct (f x)|by apply IH].
Qed.

(** A state none of whose layers changes does not change. *)
Lemma step_layers_none name l :
  Forall (fun l => layer_stepped l name = None) l -> (step_layers name l).2 = false.
Proof.
  unfold step_layers. simpl. induction 1 as [|x l Hx _ IH]; [done|]. simpl.
  unfold step_layer at 1. by rewrite Hx.
Qed.

Lemma stepped_none s name :
  Forall (fun l => layer_stepped l name = None) (layers s) -> stepped s name false = None.
Proof.
  unfold layers. rewrite !Forall_app. intros (Hg & Hgit & Hi & Hr & Hf).
  assert (Hst : stepped_same s name = None); [|unfold stepped; rewrite Hst; by destruct (st_git s)].
  unfold stepped_same. apply step_layers_none in Hg, Hi, Hr, Hf.
  rewrite <- (proj2 (step_opt_list name (st_global s))) in Hg.
  assert (Egit : (step_git name (st_git s)).2 = false).
  { unfold step_git. destruct (st_git s) as [tree|]; [|done].
    apply Forall_app in Hgit as [He Hig]. apply step_layers_none in He, Hig.
    rewrite <- (proj2 (step_opt_list name (wt_exclude tree))) in He.
    destruct (step_opt name (wt_exclude tree)), (step_layers name (wt_ignores tree)).
    simpl in *. by rewrite He, Hig. }
  destruct (step_opt _ _), (step_git _ _), (step_layers name (st_ignore _)),
    (step_layers name (st_rgignore _)), (step_layers name (st_ferret _)). simpl in *.
  by rewrite Hg, Egit, Hi, Hr, Hf.
Qed.

(** * Properties of the rules in force *)

(** C5: the decision for an entry is the precedence the module states (D13,
    D19).  In every directory a walk can reach, through any ignore files,
    [decide_child] answers what the specification reads off the files in
    force: the first file, in precedence order, with a matching line decides
    by its last matching line; while traversing an excluded directory only a
    [.ferretignore] re-include includes; an excluded directory is traversed
    exactly when an anchored re-include steps into it.  The merged lists, the
    cursors, the interning, the sharing of unchanged states and the layers
    dropped as dead never show. *)
Theorem decide_follows_precedence (ls : Lists) (d : DirRules) (a : AState) (name : bytes)
    (entry : Entry) (Hwalk : walk ls d a) (Hname : name <> [])
    (Hlen : (N.of_nat (length (state_rules (dr_state d))) < u64_max)%N) :
  decide_child d name entry =
  spec_decide a (size_cap (sh_config (dr_shared d))) (dr_traversing d) name entry.
Proof. apply (decide_sim ls); [by apply walk_sim|done|done]. Qed.

(** A root with [*.o], [/build/] ignored by git and [!/build/keep] in its
    [.ferretignore]. *)
Definition sample_files : IgnoreFiles :=
  mkIgnoreFiles (Some (ascii_bytes "!/build/keep")) (Some (ascii_bytes "*.o" ++ [10%N] ++ ascii_bytes "/build/"))
    true None None None.
Definition sample_root : DirRules * list PatternError * Lists :=
  root [ascii_bytes "r"] (Some (ascii_bytes "keep")) sample_files default_config.
Definition sample_build : DirRules * Lists :=
  traverse sample_root.1.1 (ascii_bytes "build") sample_root.2.

Lemma sample_walk :
  walk sample_build.2 sample_build.1
    (a_step (ascii_bytes "build") (a_root (Some (ascii_bytes "keep")) sample_files)).
Proof.
  apply (walk_traverse sample_root.2 sample_root.1.1).
  - apply walk_start.
  - unfold sample_build. by destruct (traverse _ _ _).
Qed.

Lemma decide_follows_precedence_witness :
  decide_child sample_root.1.1 (ascii_bytes "build") EDir = Traverse /\
  decide_child sample_build.1 (ascii_bytes "keep") (EFile 3) =
  spec_decide (a_step (ascii_bytes "build") (a_root (Some (ascii_bytes "keep")) sample_files))
    (size_cap (sh_config (dr_shared sample_build.1))) (dr_traversing sample_build.1)
    (ascii_bytes "keep") (EFile 3).
Proof.
  split; [vm_compute; reflexivity|].
  apply (decide_follows_precedence sample_build.2 sample_build.1 _ (ascii_bytes "keep") (EFile 3)
    sample_walk); [discriminate|vm_compute; reflexivity].
Defined.

(** C14: skipping an excluded directory loses nothing.  When a directory of a
    walk answers [Skip] for a child directory, no anchored re-include of any
    [.ferretignore] in force that a later line of its file does not supersede
    matches a path below that child. *)
Theorem skip_loses_nothing (ls : Lists) (d : DirRules) (a : AState) (name : bytes)
    (Hwalk : walk ls d a) (Hskip : decide_child d name EDir = Skip)
    (l : ALayer) (Hl : l ∈ a_ferret a) (i : nat) (p : Pattern) (Hp : al_patterns l !! i = Some p)
    (Hanchored : is_shared_basename p = false) (Hre : is_anchored_reinclude p = true)
    (Hlast : forall j q, i < j -> al_patterns l !! j = Some q -> is_superseded_by p q = false)
    (below : list bytes) (Hbelow : below <> []) :
  ~ path_match (components p) (al_rel l ++ name :: below).
Proof.
  pose proof (walk_wf ls d a Hwalk) as Hwf. pose proof (walk_sim ls d a Hwalk) as Hd.
  assert (Hr : a_reaches a name = false).
  { rewrite <- (reaches_below_sim ls a (dr_state d) name) by apply Hd.
    unfold decide_child in Hskip. rewrite bool_decide_eq_true_2 in Hskip by done.
    destruct (match last_match _ _ _ with Some _ => _ | None => _ end); simpl in Hskip; [done|].
    by destruct (reaches_below (dr_state d) name). }
  rewrite Forall_forall in Hwf. specialize (Hwf l Hl).
  assert (Hf : file_reaches (al_patterns l) (al_rel l ++ [name]) = false).
  { apply not_true_is_false. intros Ht. apply not_true_iff_false in Hr. apply Hr, existsb_exists.
    exists l. split; [by apply list_elem_of_In|done]. }
  pose proof (file_reaches_no _ _ below Hwf Hf Hbelow i p Hp Hanchored Hre Hlast) as H.
  by rewrite <- app_assoc in H.
Qed.

Definition sample_skip : DirRules * list PatternError * Lists :=
  root [ascii_bytes "r"] (Some (ascii_bytes "out")) sample_files default_config.
Definition sample_reinclude : Pattern :=
  default sample_anchored ((parse (ascii_bytes "!/build/keep")).1 !! 0).

Lemma skip_loses_nothing_witness :
  ~ path_match (components sample_reinclude) ([] ++ ascii_bytes "out" :: [ascii_bytes "keep"]).
Proof.
  apply (skip_loses_nothing sample_skip.2 sample_skip.1.1
    (a_root (Some (ascii_bytes "out")) sample_files) (ascii_bytes "out"))
    with (l := a_file (ascii_bytes "!/build/keep") BFerret) (i := 0).
  - apply walk_start.
  - vm_compute. reflexivity.
  - by left.
  - vm_compute. reflexivity.
  - vm_compute. reflexivity.
  - vm_compute. reflexivity.
  - intros [|j] q Hj Hq; [lia|]. vm_compute in Hq. discriminate.
  - discriminate.
Defined.

(** C21: a hidden entry is revealed by the repository's files alone (D127).
    In every directory of a walk, [reveals] is whether the first of the
    [.rgignore], [.ignore], [.gitignore] and exclude files with a matching
    line whitelists the entry; [.ferretignore] and the global file neither
    reveal nor hide. *)
Theorem reveals_follows_repo (ls : Lists) (d : DirRules) (a : AState) (name : bytes)
    (is_dir : bool) (Hwalk : walk ls d a) (Hname : name <> []) :
  reveals d name is_dir = is_some_and (first_verdict (rev (a_repo a)) name is_dir) fst.
Proof. apply (reveals_sim ls); [by apply walk_sim|done]. Qed.

Lemma reveals_follows_repo_witness :
  reveals sample_root.1.1 (ascii_bytes ".a") false =
  is_some_and (first_verdict (rev (a_repo (a_root (Some (ascii_bytes "keep")) sample_files)))
    (ascii_bytes ".a") false) fst.
Proof.
  apply (reveals_follows_repo sample_root.2); [|discriminate].
  apply walk_start.
Defined.

(** Entering or traversing a directory that changes no rule costs no new
    list: with no ignore file added and no cursor moved, the child keeps its
    parent's state and list, and the tables do not grow. *)
Theorem unchanged_child_shares (d : DirRules) (name : bytes) (files : IgnoreFiles) (ls : Lists)
    (Hfiles : adds_files (dr_state d) files = false)
    (Hcursors : Forall (fun l => layer_stepped l name = None) (layers (dr_state d))) :
  (enter d name files ls).2 = ls /\ (traverse d name ls).2 = ls /\
  dr_list (enter d name files ls).1.1 = dr_list d /\ dr_state (enter d name files ls).1.1 = dr_state d /\
  dr_list (traverse d name ls).1 = dr_list d.
Proof.
  assert (Hroot : git_root files = false).
  { unfold adds_files in Hfiles. destruct (git_root files); [|done].
    by rewrite orb_true_r in Hfiles. }
  unfold enter, traverse. rewrite Hroot, Hfiles, stepped_none by done. done.
Qed.

Definition sample_plain : DirRules * list PatternError * Lists :=
  root [] (Some (ascii_bytes "keep")) no_files default_config.

Lemma unchanged_child_shares_witness :
  (enter sample_plain.1.1 (ascii_bytes "src") no_files sample_plain.2).2 = sample_plain.2.
Proof.
  apply (unchanged_child_shares sample_plain.1.1 (ascii_bytes "src") no_files sample_plain.2).
  - vm_compute. reflexivity.
  - apply Forall_is_none. vm_compute. reflexivity.
Defined.

(** [decide] looks only at the last component of its path. *)
Theorem decide_last_component (d : DirRules) (parents name : bytes) (entry : Entry)
    (Hname : Forall (fun b => b <> 47%N) name) :
  decide_path d (parents ++ [47%N] ++ name) entry = decide_child d name entry /\
  decide_path d name entry = decide_child d name entry.
Proof.
  assert (Hno : forall i b, name !! i = Some b -> (b =? 47)%N = false).
  { intros i b Hi. apply N.eqb_neq. by eapply Forall_lookup_1 in Hname; [|exact Hi]. }
  unfold decide_path. split.
  - assert (Hpos : rposition (fun b => (b =? 47)%N) (parents ++ [47%N] ++ name) = Some (length parents)).
    { apply rposition_Some. split; [exists 47%N; split; [by apply list_lookup_middle|done]|].
      intros j x Hj Hx. rewrite lookup_app_r in Hx by lia.
      destruct (j - length parents) as [|k] eqn:Hk; [lia|]. simpl in Hx. by apply (Hno k). }
    rewrite Hpos. replace (drop (S (length parents)) (parents ++ [47%N] ++ name)) with name; [done|].
    rewrite app_assoc. change (S (length parents)) with (1 + length parents).
    rewrite drop_app_length' by (rewrite length_app; simpl; lia). done.
  - destruct (rposition _ name) as [i|] eqn:Hi; [|done].
    apply rposition_Some in Hi as [(x & Hx & Hfx) _]. by rewrite (Hno _ _ Hx) in Hfx.
Qed.

Lemma decide_last_component_witness :
  decide_path sample_root.1.1 (ascii_bytes "a/b.o") (EFile 1) =
  decide_child sample_root.1.1 (ascii_bytes "b.o") (EFile 1).
Proof.
  apply (decide_last_component sample_root.1.1 (ascii_bytes "a") (ascii_bytes "b.o") (EFile 1)).
  vm_compute. repeat constructor; discriminate.
Defined.
