(* ===== verification/DocSet.v ===== *)
(** * DocSet: a set of document ids below a bound, as a bitset

    Models [crates/ferret-index/src/live.rs].  A [u32] id is an [N]; a set is
    its words, its bound and its cached size.  The specification is the set
    of its members: [mem], and [members] in ascending order.

    A cancellation test ([Fn() -> bool], a [FnMut] checkpoint) is a step of
    an arbitrary state: each call returns an answer and the next state. *)
From S2P Require Import Prelude Word.

(** ** Checkpoints *)

(** A test that may ask for the work to stop, with the state it keeps. *)
Record Checkpoint := mkCheckpoint { ck_state : Type; ck_ask : ck_state -> bool * ck_state }.

(** [&mut || false]. *)
Definition never : Checkpoint := mkCheckpoint unit (fun c => (false, c)).

(** ** Data and operations *)

Record DocSet := mkDocSet { words : list u64; bound : u32; len : u32 }.

#[export] Instance DocSet_eq_dec : EqDecision DocSet.
Proof. solve_decision. Defined.

(** [u32::div_ceil(64)], as a count of words. *)
Definition words_for (b : u32) : nat := N.to_nat ((b + 63) / 64).

(** [doc as usize / 64]. *)
Definition doc_word (doc : u32) : nat := N.to_nat (doc / 64).
(** [1u64 << (doc % 64)]. *)
Definition doc_bit (doc : u32) : u64 := N.shiftl 1 (doc mod 64).

(** The word at an index the code has checked. *)
Definition word_at (s : DocSet) (i : nat) : u64 := default 0%N (words s !! i).

(** [DocSet::CHECK_EVERY]. *)
Definition CHECK_EVERY : nat := 64 * 64.

(** [DocSet::empty]. *)
Definition empty_docs (b : u32) : DocSet := mkDocSet (replicate (words_for b) 0%N) b 0.

(** [DocSet::insert]. *)
Definition insert_doc (s : DocSet) (doc : u32) : DocSet :=
  if (doc <? bound s)%N then
    if (N.land (word_at s (doc_word doc)) (doc_bit doc) =? 0)%N then
      mkDocSet (alter (N.lor (doc_bit doc)) (doc_word doc) (words s)) (bound s) (len s + 1)
    else s
  else s.

(** [DocSet::remove]. *)
Definition remove_doc (s : DocSet) (doc : u32) : DocSet :=
  if (doc <? bound s)%N then
    if negb (N.land (word_at s (doc_word doc)) (doc_bit doc) =? 0)%N then
      mkDocSet (alter (fun w => N.land w (u64_not (doc_bit doc))) (doc_word doc) (words s))
        (bound s) (len s - 1)
    else s
  else s.

(** [DocSet::new]. *)
Definition new_set (b : u32) (docs : list u32) : DocSet := fold_left insert_doc docs (empty_docs b).

(** [DocSet::grow_to]: [None] where the assertion fails. *)
Definition grow_to (s : DocSet) (b : u32) : option DocSet :=
  if (bound s <=? b)%N then Some (mkDocSet (resize (words_for b) 0%N (words s)) b (len s))
  else None.

(** [DocSet::contains]. *)
Definition contains_doc (s : DocSet) (doc : u32) : bool :=
  (doc <? bound s)%N && (N.land (N.shiftr (word_at s (doc_word doc)) (doc mod 64)) 1 =? 1)%N.

(** [DocSet::is_empty]. *)
Definition is_empty_set (s : DocSet) : bool := (len s =? 0)%N.

(** [!0u64 << (from % 64)]. *)
Definition from_mask (from : u32) : u64 := u64_shl u64_max (from mod 64).

(** [u64::count_ones]. *)
Definition count_ones (w : u64) : N := N.of_nat (length (scan_bits 64 w)).

Section cancellable.
  Context (ck : Checkpoint).

(** The loop of [next_geq_with]: on from a word with no bits left. *)
Fixpoint next_word (ws : list u64) (word : nat) (c : ck_state ck)
    : option u32 * ck_state ck :=
  let '(stop, c) := ck_ask ck c in
  if stop then (None, c)
  else
    match ws with
    | [] => (None, c)
    | bits :: rest =>
        if (bits =? 0)%N then next_word rest (S word) c
        else (Some (N.of_nat word * 64 + trailing_zeros bits)%N, c)
    end.

(** [DocSet::next_geq_with]. *)
Definition next_geq_with (s : DocSet) (from : u32) (c : ck_state ck)
    : option u32 * ck_state ck :=
  let '(stop, c) := ck_ask ck c in
  if stop then (None, c)
  else if (bound s <=? from)%N then (None, c)
  else
    let word := doc_word from in
    let bits := N.land (word_at s word) (from_mask from) in
    if (bits =? 0)%N then next_word (drop (S word) (words s)) (S word) c
    else (Some (N.of_nat word * 64 + trailing_zeros bits)%N, c).

(** [(i - first + 1).is_multiple_of(n) && cancelled()]. *)
Definition ask_every (n done : nat) (c : ck_state ck) : bool * ck_state ck :=
  if done mod n =? 0 then ck_ask ck c else (false, c).

(** The first loop of [tail_until]: the words from [i] on, masked at [first]. *)
Fixpoint copy_words (ws : list u64) (first i : nat) (from : u32) (s : DocSet) (c : ck_state ck)
    : option DocSet * ck_state ck :=
  match ws with
  | [] => (Some s, c)
  | word :: rest =>
      let '(stop, c) := ask_every (CHECK_EVERY / 64) (i - first + 1) c in
      if stop then (None, c)
      else
        let word := if i =? first then N.land word (from_mask from) else word in
        copy_words rest first (S i) from
          (mkDocSet (<[i := word]> (words s)) (bound s) (len s + count_ones word)) c
  end.

(** The second loop of [tail_until]: the ids of [extra]. *)
Fixpoint add_extra (self : DocSet) (extra : list u32) (seen : nat) (s : DocSet) (c : ck_state ck)
    : option DocSet * ck_state ck :=
  match extra with
  | [] => (Some s, c)
  | doc :: rest =>
      let '(stop, c) := ask_every CHECK_EVERY (seen + 1) c in
      if stop then (None, c)
      else add_extra self rest (S seen) (if contains_doc self doc then insert_doc s doc else s) c
  end.

(** [DocSet::tail_until]. *)
Definition tail_until (self : DocSet) (from : u32) (extra : list u32) (c : ck_state ck)
    : option DocSet * ck_state ck :=
  let '(stop, c) := ck_ask ck c in
  if stop then (None, c)
  else
    let from := N.min from (bound self) in
    let first := doc_word from in
    match copy_words (drop first (words self)) first first from (empty_docs (bound self)) c with
    | (None, c) => (None, c)
    | (Some s, c) => add_extra self extra 0 s c
    end.
End cancellable.

(** [DocSet::next_geq]. *)
Definition next_geq (s : DocSet) (from : u32) : option u32 := (next_geq_with never s from tt).1.

(** [DocSet::range]. *)
Definition range (s : DocSet) (from to : u32) : list u32 :=
  let to := N.min to (bound s) in
  let from := N.min from to in
  concat ((fun w =>
    filter (fun doc => (from <= doc /\ doc < to)%N)
      ((fun bit => (N.of_nat w * 64 + bit)%N) <$> scan_bits 64 (word_at s w)))
    <$> seq (doc_word from) (words_for to - doc_word from)).

(** [DocSet::count]. *)
Definition count (s : DocSet) (from to : u32) : u32 := N.of_nat (length (range s from to)).

Example docset_example :
  let s := new_set 256 [0; 255; 64; 300; 63; 64]%N in
  (len s, range s 1 255, next_geq s 65, next_geq s 256, count s 0 400, contains_doc s 300)
  = (4%N, [63; 64]%N, Some 255%N, None, 4%N, false).
Proof. vm_compute. reflexivity. Qed.

(** ** The set of members *)

Definition mem (s : DocSet) (doc : u32) : bool :=
  (doc <? bound s)%N && N.testbit (word_at s (doc_word doc)) (doc mod 64).

Definition ids_below (n : N) : list N := N.of_nat <$> seq 0 (N.to_nat n).

(** The members in ascending order. *)
Definition members (s : DocSet) : list u32 := filter (fun d => mem s d = true) (ids_below (bound s)).

(** The words fit the bound, no bit stands at or past it, and the cached
    size is the number of members. *)
Definition set_wf (s : DocSet) : Prop :=
  length (words s) = words_for (bound s) /\
  Forall (fun w => w < 2 ^ 64)%N (words s) /\
  (forall i b, (b < 64)%N -> N.testbit (word_at s i) b = true -> (N.of_nat i * 64 + b < bound s)%N) /\
  len s = N.of_nat (length (members s)).

(** ** Bits and members *)

(** Bit [doc] of a set's words, whatever its bound. *)
Definition sbit (ws : list u64) (doc : u32) : bool :=
  N.testbit (default 0%N (ws !! doc_word doc)) (doc mod 64).

Lemma doc_split d : d = (N.of_nat (doc_word d) * 64 + d mod 64)%N.
Proof. unfold doc_word. rewrite N2Nat.id. pose proof (N.div_mod d 64 ltac:(lia)). lia. Qed.

Lemma doc_mod d : (d mod 64 < 64)%N.
Proof. apply N.mod_lt. lia. Qed.

(** Splits an id into its word and its bit, as opaque numbers. *)
Ltac split_doc d :=
  pose proof (doc_split d); pose proof (doc_mod d);
  let m := fresh "m" in set (m := (d mod 64)%N) in *; clearbody m.

Lemma doc_word_of i b : (b < 64)%N -> doc_word (N.of_nat i * 64 + b) = i.
Proof.
  intros Hb. unfold doc_word. rewrite N.add_comm, N.div_add, (N.div_small b) by lia. lia.
Qed.

Lemma doc_mod_of i b : (b < 64)%N -> ((N.of_nat i * 64 + b) mod 64)%N = b.
Proof. intros Hb. rewrite N.add_comm, N.Div0.mod_add. by apply N.mod_small. Qed.

Lemma sbit_of ws i b : (b < 64)%N -> sbit ws (N.of_nat i * 64 + b) = N.testbit (default 0%N (ws !! i)) b.
Proof. intros Hb. unfold sbit. by rewrite doc_word_of, doc_mod_of. Qed.

Lemma doc_word_lt d n : (d < N.of_nat n * 64)%N <-> doc_word d < n.
Proof. split_doc d. lia. Qed.

Lemma words_for_bound b : (b <= N.of_nat (words_for b) * 64)%N.
Proof.
  unfold words_for. rewrite N2Nat.id. pose proof (N.div_mod (b + 63) 64 ltac:(lia)).
  pose proof (doc_mod (b + 63)). lia.
Qed.

Lemma doc_word_in d b : (d < b)%N -> doc_word d < words_for b.
Proof. intros H. apply doc_word_lt. pose proof (words_for_bound b). lia. Qed.

Lemma doc_bit_testbit d i : N.testbit (doc_bit d) i = (i =? d mod 64)%N.
Proof.
  unfold doc_bit. rewrite N.shiftl_1_l. destruct (N.eqb_spec i (d mod 64)) as [->|H].
  - apply N.pow2_bits_true.
  - apply N.pow2_bits_false. auto.
Qed.

Lemma doc_bit_lt d : (doc_bit d < 2 ^ 64)%N.
Proof. unfold doc_bit. rewrite N.shiftl_1_l. apply N.pow_lt_mono_r; [lia|apply doc_mod]. Qed.

Lemma land_doc_bit w d : (N.land w (doc_bit d) =? 0)%N = negb (N.testbit w (d mod 64)).
Proof.
  destruct (N.eqb_spec (N.land w (doc_bit d)) 0) as [H|H].
  - apply (f_equal (fun n => N.testbit n (d mod 64))) in H.
    rewrite N.land_spec, doc_bit_testbit, N.eqb_refl, N.bits_0, andb_true_r in H. by rewrite H.
  - destruct (N.testbit w (d mod 64)) eqn:E; [done|]. exfalso. apply H.
    apply N.bits_inj. intros i. rewrite N.land_spec, doc_bit_testbit, N.bits_0.
    destruct (N.eqb_spec i (d mod 64)) as [->|]; by rewrite ?E, ?andb_false_r.
Qed.

Lemma doc_pos_eq d e : doc_word d = doc_word e -> (d mod 64 = e mod 64)%N -> d = e.
Proof. intros Hw Hm. rewrite (doc_split d), (doc_split e). congruence. Qed.

Lemma sbit_alter ws d e f :
  doc_word d < length ws ->
  sbit (alter f (doc_word d) ws) e =
  if doc_word d =? doc_word e
  then N.testbit (f (default 0%N (ws !! doc_word d))) (e mod 64) else sbit ws e.
Proof.
  intros Hlt. unfold sbit. destruct (Nat.eqb_spec (doc_word d) (doc_word e)) as [Heq|Hne].
  - rewrite <- Heq, list_lookup_alter_eq. apply lookup_lt_is_Some in Hlt as [x ->]. done.
  - by rewrite list_lookup_alter_ne.
Qed.

Lemma sbit_set ws d e :
  doc_word d < length ws ->
  sbit (alter (N.lor (doc_bit d)) (doc_word d) ws) e = sbit ws e || (e =? d)%N.
Proof.
  intros Hlt. rewrite sbit_alter by done.
  destruct (Nat.eqb_spec (doc_word d) (doc_word e)) as [Heq|Hne].
  - rewrite N.lor_spec, doc_bit_testbit, orb_comm. unfold sbit. rewrite Heq. f_equal.
    destruct (N.eqb_spec (e mod 64) (d mod 64)), (N.eqb_spec e d); try done; [|by subst].
    exfalso. auto using doc_pos_eq.
  - destruct (N.eqb_spec e d); [by subst|]. by rewrite orb_false_r.
Qed.

Lemma u64_not_testbit w i : (i < 64)%N -> N.testbit (u64_not w) i = negb (N.testbit w i).
Proof.
  intros Hi. unfold u64_not, u64_max. rewrite N.lxor_spec, N.ones_spec_low by done.
  by rewrite xorb_true_r.
Qed.

Lemma sbit_clear ws d e :
  doc_word d < length ws ->
  sbit (alter (fun w => N.land w (u64_not (doc_bit d))) (doc_word d) ws) e = sbit ws e && negb (e =? d)%N.
Proof.
  intros Hlt. rewrite sbit_alter by done.
  destruct (Nat.eqb_spec (doc_word d) (doc_word e)) as [Heq|Hne].
  - rewrite N.land_spec, u64_not_testbit, doc_bit_testbit by apply doc_mod. unfold sbit. rewrite Heq.
    do 2 f_equal. destruct (N.eqb_spec (e mod 64) (d mod 64)), (N.eqb_spec e d); try done; [|by subst].
    exfalso. auto using doc_pos_eq.
  - destruct (N.eqb_spec e d); [by subst|]. by rewrite andb_true_r.
Qed.

Lemma contains_mem s d : contains_doc s d = mem s d.
Proof. unfold contains_doc, mem. by rewrite land_shiftr_1. Qed.

Lemma elem_of_ids n d : d ∈ ids_below n <-> (d < n)%N.
Proof.
  unfold ids_below. rewrite list_elem_of_fmap. setoid_rewrite elem_of_seq. split.
  - intros (i & -> & Hi). lia.
  - intros Hd. exists (N.to_nat d). lia.
Qed.

Lemma elem_of_members s d : d ∈ members s <-> mem s d = true.
Proof.
  unfold members. rewrite list_elem_of_filter, elem_of_ids. unfold mem.
  destruct (N.ltb_spec d (bound s)); naive_solver.
Qed.

Lemma members_ascending s : StronglySorted N.lt (members s).
Proof. apply ascending_filter, ascending_seq. Qed.

(** In a well-formed set the bound test is implied by the bit. *)
Lemma mem_sbit s d : set_wf s -> mem s d = sbit (words s) d.
Proof.
  intros (_ & _ & Hb & _). unfold mem, sbit, word_at.
  destruct (N.testbit _ (d mod 64)) eqn:E; [|by rewrite andb_false_r].
  specialize (Hb (doc_word d) (d mod 64)%N (doc_mod d) E). rewrite <- doc_split in Hb.
  by rewrite (proj2 (N.ltb_lt _ _) Hb).
Qed.

Lemma set_wf_intro s :
  length (words s) = words_for (bound s) -> Forall (fun w => w < 2 ^ 64)%N (words s) ->
  (forall d, sbit (words s) d = true -> (d < bound s)%N) ->
  len s = N.of_nat (length (members s)) -> set_wf s.
Proof.
  intros Hl Hw Hb Hn. split; [done|]. split; [done|]. split; [|done].
  intros i b Hlt Ht. apply Hb. by rewrite sbit_of.
Qed.

Lemma sbit_bound s d : set_wf s -> sbit (words s) d = true -> (d < bound s)%N.
Proof. intros Hwf H. rewrite <- mem_sbit in H by done. by apply andb_prop in H as [?%N.ltb_lt _]. Qed.

(** ** Inserting and removing *)

Lemma empty_wf b : set_wf (empty_docs b) /\ members (empty_docs b) = [].
Proof.
  assert (Hs : forall d, sbit (words (empty_docs b)) d = false).
  { intros d. unfold sbit. simpl. destruct (replicate _ _ !! _) as [w|] eqn:E; [|apply N.bits_0].
    apply lookup_replicate in E as [-> _]. apply N.bits_0. }
  assert (Hm : members (empty_docs b) = []).
  { apply filter_all_out. intros d _. unfold mem. specialize (Hs d). unfold sbit in Hs.
    unfold word_at. by rewrite Hs, andb_false_r. }
  split; [|done]. apply set_wf_intro.
  - simpl. by rewrite length_replicate.
  - apply Forall_replicate. done.
  - intros d. by rewrite Hs.
  - by rewrite Hm.
Qed.

Lemma insert_mem s d e : set_wf s -> mem (insert_doc s d) e = mem s e || ((e =? d)%N && (d <? bound s)%N).
Proof.
  intros Hwf. pose proof Hwf as (Hl & _). unfold insert_doc.
  destruct (N.ltb_spec d (bound s)) as [Hd|]; [|by rewrite andb_false_r, orb_false_r].
  rewrite andb_true_r, land_doc_bit.
  destruct (N.testbit (word_at s (doc_word d)) (d mod 64)) eqn:Hbit; simpl.
  - destruct (N.eqb_spec e d) as [->|]; [|by rewrite orb_false_r]. unfold mem. rewrite Hbit.
    by rewrite (proj2 (N.ltb_lt _ _) Hd).
  - unfold mem at 1, word_at. cbn [bound words]. fold (sbit (alter (N.lor (doc_bit d)) (doc_word d) (words s)) e).
    rewrite sbit_set by (rewrite Hl; by apply doc_word_in). unfold mem, word_at. fold (sbit (words s) e).
    destruct (N.eqb_spec e d) as [->|]; [|by rewrite !orb_false_r].
    rewrite (proj2 (N.ltb_lt _ _) Hd). simpl. by rewrite !orb_true_r.
Qed.

Lemma insert_bound s d : bound (insert_doc s d) = bound s.
Proof. unfold insert_doc. by repeat case_match. Qed.

Lemma remove_bound s d : bound (remove_doc s d) = bound s.
Proof. unfold remove_doc. by repeat case_match. Qed.

Lemma remove_mem s d e : set_wf s -> mem (remove_doc s d) e = mem s e && negb (e =? d)%N.
Proof.
  intros Hwf. pose proof Hwf as (Hl & _). unfold remove_doc.
  destruct (N.ltb_spec d (bound s)) as [Hd|Hd].
  - rewrite land_doc_bit, negb_involutive.
    destruct (N.testbit (word_at s (doc_word d)) (d mod 64)) eqn:Hbit.
    + unfold mem at 1, word_at. cbn [bound words].
      fold (sbit (alter (fun w => N.land w (u64_not (doc_bit d))) (doc_word d) (words s)) e).
      rewrite sbit_clear by (rewrite Hl; by apply doc_word_in). by rewrite andb_assoc.
    + destruct (N.eqb_spec e d) as [->|]; [|by rewrite andb_true_r]. unfold mem.
      by rewrite Hbit, andb_false_r.
  - destruct (N.eqb_spec e d) as [->|]; [|by rewrite andb_true_r]. unfold mem.
    by rewrite (proj2 (N.ltb_ge _ _) Hd).
Qed.

(** Adding a new member, or removing one, moves the count by one. *)
Lemma members_add s s' d :
  mem s d = false -> (forall e, mem s' e = mem s e || (e =? d)%N) ->
  length (members s') = S (length (members s)).
Proof.
  intros Hd Hmem. change (S (length (members s))) with (length (d :: members s)).
  apply Permutation_length, NoDup_Permutation.
  - apply ascending_NoDup, members_ascending.
  - constructor; [by rewrite elem_of_members, Hd|apply ascending_NoDup, members_ascending].
  - intros e. rewrite elem_of_cons, !elem_of_members, Hmem, orb_true_iff, N.eqb_eq. tauto.
Qed.

Lemma insert_wf s d : set_wf s -> set_wf (insert_doc s d).
Proof.
  intros Hwf. pose proof Hwf as (Hl & Hw & Hb & Hn). pose proof (insert_mem s d) as Hm.
  unfold insert_doc in *.
  destruct (N.ltb_spec d (bound s)) as [Hd|]; [|done]. rewrite land_doc_bit in *.
  destruct (N.testbit (word_at s (doc_word d)) (d mod 64)) eqn:Hbit; simpl in *; [done|].
  assert (Hlt : doc_word d < length (words s)) by (rewrite Hl; by apply doc_word_in).
  apply set_wf_intro; simpl.
  - by rewrite length_alter.
  - apply Forall_alter; [done|]. intros w _ Hw'. by apply lor_lt_pow2; [apply doc_bit_lt|].
  - intros e. rewrite sbit_set, orb_true_iff by done. intros [He|He%N.eqb_eq]; [|by subst].
    by apply (sbit_bound s).
  - rewrite (members_add s _ d); [lia| |].
    + unfold mem. by rewrite Hbit, andb_false_r.
    + intros e. rewrite Hm by done. by rewrite andb_true_r.
Qed.

Lemma remove_wf s d : set_wf s -> set_wf (remove_doc s d).
Proof.
  intros Hwf. pose proof Hwf as (Hl & Hw & Hb & Hn). pose proof (remove_mem s d) as Hm.
  unfold remove_doc in *.
  destruct (N.ltb_spec d (bound s)) as [Hd|]; [|done]. rewrite land_doc_bit, negb_involutive in *.
  destruct (N.testbit (word_at s (doc_word d)) (d mod 64)) eqn:Hbit; simpl in *; [|done].
  assert (Hlt : doc_word d < length (words s)) by (rewrite Hl; by apply doc_word_in).
  apply set_wf_intro; simpl.
  - by rewrite length_alter.
  - apply Forall_alter; [done|]. intros w _ Hw'. eapply N.le_lt_trans; [apply N.land_le_l|done].
  - intros e. rewrite sbit_clear, andb_true_iff by done. intros [He _]. by apply (sbit_bound s).
  - set (s' := mkDocSet _ _ _) in *. rewrite Hn, (members_add s' s d); [lia| |].
    + by rewrite Hm, N.eqb_refl, andb_false_r.
    + intros e. rewrite Hm by done. destruct (N.eqb_spec e d) as [->|].
      * unfold mem. rewrite Hbit, (proj2 (N.ltb_lt _ _) Hd). done.
      * by rewrite andb_true_r, orb_false_r.
Qed.

(** ** The first member from a point *)

(** A flag that records a checkpoint's stop and stays up. *)
Class StopFlag (ck : Checkpoint) := {
  stopped : ck_state ck -> Prop;
  stopped_ask c b c' : ck_ask ck c = (b, c') -> b = true \/ stopped c -> stopped c'
}.

#[export] Instance never_flag : StopFlag never.
Proof.
  refine (Build_StopFlag never (fun _ => False) _).
  intros c b c' [= <- <-] [H|H]; [discriminate|done].
Defined.

(** The lowest set bit of a word is the first of its ids. *)
Lemma word_first ws i w :
  ws !! i = Some w -> w <> 0%N -> (w < 2 ^ 64)%N ->
  first_from (fun d => sbit ws d = true) (N.of_nat i * 64) (Some (N.of_nat i * 64 + trailing_zeros w)%N).
Proof.
  intros Hi Hz Hw. pose proof (trailing_zeros_lt w 64 Hz Hw) as Ht.
  split; [|split; [lia|]].
  - rewrite sbit_of, Hi by done. by apply trailing_zeros_set.
  - intros e He Hle. destruct (N.lt_ge_cases e (N.of_nat (S i) * 64)) as [Hlt|]; [|lia].
    assert (Hwe : doc_word e = i).
    { apply Nat.le_antisymm; [apply Nat.lt_succ_r; by apply doc_word_lt|].
      apply Nat.nlt_ge. intros H. apply doc_word_lt in H. lia. }
    pose proof (doc_split e) as Hsplit. unfold sbit in He. rewrite Hwe in He, Hsplit.
    rewrite Hi in He. simpl in He.
    destruct (N.lt_ge_cases (e mod 64) (trailing_zeros w)) as [H|H]; [|lia].
    by rewrite (trailing_zeros_below w _ H) in He.
Qed.

(** A word without bits holds no ids. *)
Lemma word_none ws i e :
  default 0%N (ws !! i) = 0%N -> sbit ws e = true -> (N.of_nat i * 64 <= e <-> N.of_nat (S i) * 64 <= e)%N.
Proof.
  intros Hi He. split; [|lia]. intros Hle. apply N.nlt_ge. intros Hlt%doc_word_lt.
  assert (doc_word e = i) as Hw.
  { apply Nat.le_antisymm; [lia|]. apply Nat.nlt_ge. intros H. apply doc_word_lt in H. lia. }
  unfold sbit in He. by rewrite Hw, Hi, N.bits_0 in He.
Qed.

Section next.
  Context (ck : Checkpoint) {HF : StopFlag ck}.

Lemma next_word_spec ws rest i c r c' :
  rest = drop i ws -> Forall (fun w => w < 2 ^ 64)%N ws ->
  next_word ck rest i c = (r, c') ->
  (stopped c -> stopped c') /\
  (stopped c' \/ first_from (fun d => sbit ws d = true) (N.of_nat i * 64) r).
Proof.
  intros Hrest Hw. revert i c Hrest. induction rest as [|w rest IH]; intros i c Hrest; simpl;
    destruct (ck_ask ck c) as [stop c1] eqn:Hask; pose proof (stopped_ask _ _ _ Hask) as Hst;
    destruct stop.
  - intros [= <- <-]. auto.
  - intros [= <- <-]. split; [auto|]. right. intros e He. apply doc_word_lt.
    assert (Hlen : length ws <= i) by (apply (f_equal length) in Hrest; rewrite length_drop in Hrest; simpl in Hrest; lia).
    apply Nat.nle_gt. intros Hle. unfold sbit in He.
    by rewrite (lookup_ge_None_2 ws (doc_word e)), N.bits_0 in He by lia.
  - intros [= <- <-]. auto.
  - assert (Hi : ws !! i = Some w) by (by rewrite <- (Nat.add_0_r i), <- lookup_drop, <- Hrest).
    assert (Hrest' : rest = drop (S i) ws).
    { replace (S i) with (i + 1) by lia. by rewrite <- drop_drop, <- Hrest. }
    destruct (N.eqb_spec w 0) as [->|Hz].
    + intros H. destruct (IH (S i) c1 Hrest' H) as [Hs Hf]. split; [auto|].
      destruct Hf as [Hf|Hf]; [by left|]. right. eapply first_from_skip; [|exact Hf].
      intros e He. symmetry. apply (word_none ws i e); [by rewrite Hi|done].
    + intros [= <- <-]. split; [auto|]. right. apply word_first; [done..|].
      by eapply Forall_lookup_1 in Hw.
Qed.

Lemma from_mask_testbit from b : (b < 64)%N -> N.testbit (from_mask from) b = (from mod 64 <=? b)%N.
Proof.
  intros Hb. unfold from_mask, u64_shl, u64_max. rewrite N.land_spec, (N.ones_spec_low 64 b), andb_true_r by done.
  generalize (from mod 64)%N. intros k. destruct (N.leb_spec k b).
  - rewrite N.shiftl_spec_high', N.ones_spec_low by lia. done.
  - by rewrite N.shiftl_spec_low by lia.
Qed.

Lemma masked_lt w from : (w < 2 ^ 64)%N -> (N.land w (from_mask from) < 2 ^ 64)%N.
Proof. intros. eapply N.le_lt_trans; [apply N.land_le_l|done]. Qed.

(** Bits of a set whose first word is masked: the ids from [from] on. *)
Lemma sbit_masked ws from e :
  doc_word from < length ws ->
  sbit (alter (fun w => N.land w (from_mask from)) (doc_word from) ws) e =
  sbit ws e && (negb (doc_word e =? doc_word from) || (from <=? e)%N).
Proof.
  intros Hlt. rewrite sbit_alter by done.
  destruct (Nat.eqb_spec (doc_word from) (doc_word e)) as [Heq|Hne].
  - rewrite N.land_spec, from_mask_testbit by apply doc_mod. unfold sbit. rewrite Heq, Nat.eqb_refl. simpl.
    f_equal. split_doc from. split_doc e. rewrite Heq in *.
    destruct (N.leb_spec m m0), (N.leb_spec from e); try done; lia.
  - rewrite (proj2 (Nat.eqb_neq (doc_word e) (doc_word from))) by done. simpl. by rewrite andb_true_r.
Qed.

Definition masked (s : DocSet) (from : u32) : list u64 :=
  alter (fun w => N.land w (from_mask from)) (doc_word from) (words s).

Lemma masked_start from : (N.of_nat (doc_word from) * 64 <= from)%N.
Proof. split_doc from. lia. Qed.

(** The ids of the masked words, from their word on, are the members from
    [from] on. *)
Lemma sbit_masked_mem s from e :
  set_wf s -> (from < bound s)%N -> (N.of_nat (doc_word from) * 64 <= e)%N ->
  sbit (masked s from) e = mem s e && (from <=? e)%N.
Proof.
  intros Hwf Hlt Hle. pose proof Hwf as (Hl & _).
  unfold masked. rewrite sbit_masked, mem_sbit by (done || rewrite Hl; by apply doc_word_in).
  f_equal. destruct (Nat.eqb_spec (doc_word e) (doc_word from)) as [Heq|Hne]; [done|]. simpl. symmetry.
  apply N.leb_le. apply N.nlt_ge. intros H. split_doc from.
  assert (doc_word e < S (doc_word from)) by (apply doc_word_lt; lia).
  apply Hne, Nat.le_antisymm; [lia|]. apply Nat.nlt_ge. intros Hlt'%doc_word_lt. lia.
Qed.

Lemma masked_first s from r :
  set_wf s -> (from < bound s)%N ->
  first_from (fun d => sbit (masked s from) d = true) (N.of_nat (doc_word from) * 64) r ->
  first_from (fun d => mem s d = true) from r.
Proof.
  intros Hwf Hlt. pose proof (masked_start from) as Hstart.
  assert (Hm : forall e, (N.of_nat (doc_word from) * 64 <= e)%N -> sbit (masked s from) e = true ->
      mem s e = true /\ (from <= e)%N).
  { intros e Hle. rewrite sbit_masked_mem by done. by intros [? ?%N.leb_le]%andb_prop. }
  assert (Hm' : forall e, mem s e = true -> (from <= e)%N -> sbit (masked s from) e = true).
  { intros e He Hle. rewrite sbit_masked_mem, He by (done || lia). by apply N.leb_le. }
  destruct r as [d|]; simpl.
  - intros (Hd & Hle & Hmin). destruct (Hm d Hle Hd) as [Hmem Hf]. split; [done|]. split; [done|].
    intros e He Hfe. apply Hmin; [by apply Hm'|lia].
  - intros H0 e He. apply N.nle_gt. intros Hle. specialize (H0 e (Hm' e He Hle)). lia.
Qed.

Lemma next_geq_with_spec s from c r c' :
  set_wf s -> next_geq_with ck s from c = (r, c') ->
  (stopped c -> stopped c') /\ (stopped c' \/ first_from (fun d => mem s d = true) from r).
Proof.
  intros Hwf. pose proof Hwf as (Hl & Hw & _). unfold next_geq_with.
  destruct (ck_ask ck c) as [stop c1] eqn:Hask. pose proof (stopped_ask _ _ _ Hask) as Hst.
  destruct stop; [intros [= <- <-]; auto|].
  destruct (N.leb_spec (bound s) from) as [Hge|Hlt].
  { intros [= <- <-]. split; [auto|]. right. intros e [He%N.ltb_lt _]%andb_prop. lia. }
  assert (Hi : doc_word from < length (words s)) by (rewrite Hl; by apply doc_word_in).
  destruct (lookup_lt_is_Some_2 _ _ Hi) as [w0 Hw0].
  assert (Hw' : Forall (fun w => w < 2 ^ 64)%N (masked s from)).
  { apply Forall_alter; [done|]. intros w _. apply masked_lt. }
  assert (Hlook : masked s from !! doc_word from = Some (N.land w0 (from_mask from)))
    by (unfold masked; by rewrite list_lookup_alter_eq, Hw0).
  assert (Hwa : word_at s (doc_word from) = w0) by (unfold word_at; by rewrite Hw0).
  rewrite Hwa. destruct (N.eqb_spec (N.land w0 (from_mask from)) 0) as [Hz|Hz].
  - intros H. assert (Hdrop : drop (S (doc_word from)) (words s) = drop (S (doc_word from)) (masked s from))
      by (unfold masked; rewrite drop_alter_lt; [done|lia]).
    destruct (next_word_spec (masked s from) _ _ _ _ _ Hdrop Hw' H) as [Hs Hf]. split; [auto|].
    destruct Hf as [Hf|Hf]; [by left|]. right. apply (masked_first s from r Hwf Hlt).
    eapply first_from_skip; [|exact Hf].
    intros e He. symmetry. apply (word_none (masked s from) _ e); [by rewrite Hlook|done].
  - intros [= <- <-]. split; [auto|]. right. apply (masked_first s from _ Hwf Hlt).
    apply word_first; [done|done|]. by eapply Forall_lookup_1 in Hw'.
Qed.
End next.

Lemma next_geq_spec s from : set_wf s -> first_from (fun d => mem s d = true) from (next_geq s from).
Proof.
  intros Hwf. unfold next_geq. destruct (next_geq_with never s from tt) as [r c] eqn:H.
  by apply (next_geq_with_spec never) in H as [_ [[]|H]].
Qed.

(** ** Ranges *)

Lemma elem_of_word_ids s w d :
  set_wf s -> d ∈ ((fun bit => (N.of_nat w * 64 + bit)%N) <$> scan_bits 64 (word_at s w)) <->
  doc_word d = w /\ sbit (words s) d = true.
Proof.
  intros (_ & Hw & _). assert (Hlt : (word_at s w < 2 ^ 64)%N).
  { unfold word_at. destruct (words s !! w) as [x|] eqn:Hx; [by eapply Forall_lookup_1 in Hw|done]. }
  rewrite scan_bits_64, list_elem_of_fmap by done. setoid_rewrite elem_of_set_bits. split.
  - intros (b & -> & Hb & Ht). rewrite doc_word_of, sbit_of by done. done.
  - intros [<- Hs]. exists (d mod 64)%N. split; [apply doc_split|]. split; [apply doc_mod|done].
Qed.

Lemma fmap_shift_ascending l k : StronglySorted N.lt l -> StronglySorted N.lt ((fun b => (k + b)%N) <$> l).
Proof.
  induction 1 as [|x l Hs IH Hx]; [constructor|]. rewrite fmap_cons. constructor; [done|].
  apply Forall_fmap. eapply Forall_impl; [exact Hx|]. simpl. intros; lia.
Qed.

(** [range] lists the members of the half-open interval, ascending. *)
Lemma range_spec s from to :
  set_wf s -> range s from to = filter (fun d => (from <= d /\ d < to)%N) (members s).
Proof.
  intros Hwf. pose proof Hwf as (Hl & Hw & _). unfold range.
  set (to' := N.min to (bound s)). set (from' := N.min from to').
  set (f := fun w : nat => filter (fun doc => (from' <= doc /\ doc < to')%N) _).
  assert (Hin : forall i x, x ∈ f i <->
      (from' <= x /\ x < to')%N /\ doc_word x = i /\ sbit (words s) x = true).
  { intros i x. unfold f. by rewrite list_elem_of_filter, elem_of_word_ids. }
  apply ascending_ext.
  - apply (ascending_concat f 64).
    + intros i. apply ascending_filter, fmap_shift_ascending, scan_ascending.
      unfold word_at. destruct (words s !! i) as [x|] eqn:Hx; [by eapply Forall_lookup_1 in Hw|done].
    + intros i x (_ & <- & _)%Hin. split_doc x. lia.
  - apply ascending_filter, members_ascending.
  - intros x. rewrite list_elem_of_filter, elem_of_members, (mem_sbit s x Hwf), elem_of_concat. split.
    + intros (l & Hfl & Hx). apply list_elem_of_fmap in Hfl as (i & -> & _). apply Hin in Hx as (Hr & _ & Hs).
      split; [|done]. unfold from', to' in Hr. lia.
    + intros [[Hf Ht] Hs]. pose proof (sbit_bound s x Hwf Hs) as Hb. exists (f (doc_word x)). split.
      * apply list_elem_of_fmap. exists (doc_word x). split; [done|]. apply elem_of_seq.
        assert (Hxt : (x < to')%N) by (unfold to'; lia). pose proof (doc_word_in x to' Hxt).
        assert (doc_word from' <= doc_word x); [|lia].
        apply Nat.nlt_ge. intros Hlt%doc_word_lt. pose proof (masked_start from'). unfold from' in *. lia.
      * apply Hin. split; [|done]. unfold from', to'. lia.
Qed.

Lemma new_set_spec b docs :
  set_wf (new_set b docs) /\ bound (new_set b docs) = b /\
  forall e, mem (new_set b docs) e = (e <? b)%N && bool_decide (e ∈ docs).
Proof.
  unfold new_set. induction docs as [|d docs IH] using rev_ind.
  - split; [apply empty_wf|]. split; [done|]. intros e.
    rewrite (bool_decide_eq_false_2 (e ∈ [])) by apply not_elem_of_nil. rewrite andb_false_r.
    apply not_true_is_false. rewrite <- elem_of_members. destruct (empty_wf b) as [_ Hm].
    simpl fold_left. rewrite Hm. apply not_elem_of_nil.
  - rewrite fold_left_snoc. destruct IH as (Hwf & Hb & Hm).
    split; [by apply insert_wf|]. split; [by rewrite insert_bound|]. intros e.
    rewrite insert_mem, Hm, Hb by done.
    destruct (N.eqb_spec e d) as [->|Hne].
    + rewrite (bool_decide_eq_true_2 (d ∈ docs ++ [d]))
        by (apply elem_of_app; right; by apply list_elem_of_singleton).
      by destruct (d <? b)%N, (bool_decide _).
    + rewrite orb_false_r. f_equal. apply bool_decide_ext.
      rewrite elem_of_app, list_elem_of_singleton. naive_solver.
Qed.

(** ** Growing *)

Lemma grow_spec s b s' :
  set_wf s -> grow_to s b = Some s' -> set_wf s' /\ bound s' = b /\ members s' = members s.
Proof.
  intros Hwf. pose proof Hwf as (Hl & Hw & Hb & Hn). unfold grow_to.
  destruct (N.leb_spec (bound s) b) as [Hle|]; [|done]. intros [= <-].
  assert (Hwords : length (words s) <= words_for b).
  { rewrite Hl. unfold words_for.
    pose proof (N.Div0.div_le_mono (bound s + 63) (b + 63) 64 ltac:(lia)) as Hdiv.
    generalize dependent ((bound s + 63) / 64)%N. generalize dependent ((b + 63) / 64)%N. lia. }
  assert (Hs : forall d, sbit (resize (words_for b) 0%N (words s)) d = sbit (words s) d).
  { intros d. unfold sbit. f_equal. destruct (decide (doc_word d < length (words s))) as [Hlt|Hge].
    - by rewrite lookup_resize by lia.
    - rewrite (lookup_ge_None_2 (words s)) by lia. simpl.
      destruct (decide (doc_word d < words_for b)).
      + by rewrite lookup_resize_new by lia.
      + by rewrite lookup_resize_old by lia. }
  assert (Hmem : members (mkDocSet (resize (words_for b) 0%N (words s)) b (len s)) = members s).
  { apply ascending_ext; [apply members_ascending..|]. intros d. rewrite !elem_of_members.
    rewrite (mem_sbit s) by done. unfold mem at 1, word_at. simpl.
    fold (sbit (resize (words_for b) 0%N (words s)) d). rewrite Hs.
    destruct (sbit (words s) d) eqn:E; [|by rewrite andb_false_r].
    rewrite (proj2 (N.ltb_lt _ _)); [done|]. pose proof (sbit_bound s d Hwf E). lia. }
  split; [|done]. apply set_wf_intro; simpl.
  - by rewrite length_resize.
  - apply Forall_resize; done.
  - intros d. rewrite Hs. intros Hd. pose proof (sbit_bound s d Hwf Hd). lia.
  - by rewrite Hmem.
Qed.

(** ** The size of a set is its number of bits *)

Definition popcount (ws : list u64) : N := N.of_nat (sum_list ((fun w => length (scan_bits 64 w)) <$> ws)).

Lemma length_concat {A} (ls : list (list A)) : length (concat ls) = sum_list (length <$> ls).
Proof. induction ls as [|l ls IH]; simpl; [done|]. by rewrite length_app, IH. Qed.

Lemma popcount_members s :
  length (words s) = words_for (bound s) -> Forall (fun w => w < 2 ^ 64)%N (words s) ->
  (forall d, sbit (words s) d = true -> (d < bound s)%N) ->
  popcount (words s) = N.of_nat (length (members s)).
Proof.
  intros Hl Hw Hb. unfold popcount. f_equal.
  set (f := fun i => (fun b => (N.of_nat i * 64 + b)%N) <$> scan_bits 64 (word_at s i)).
  assert (Hin : forall i d, i < length (words s) -> d ∈ f i <-> doc_word d = i /\ sbit (words s) d = true).
  { intros i d Hi. destruct (lookup_lt_is_Some_2 _ _ Hi) as [w Hwi]. unfold f, word_at. rewrite Hwi. simpl.
    rewrite list_elem_of_fmap, scan_bits_64 by (by eapply Forall_lookup_1 in Hw).
    setoid_rewrite elem_of_set_bits. split.
    - intros (b & -> & Hb64 & Ht). rewrite doc_word_of, sbit_of, Hwi by done. done.
    - intros [<- Hs]. exists (d mod 64)%N. split; [apply doc_split|]. split; [apply doc_mod|].
      unfold sbit in Hs. by rewrite Hwi in Hs. }
  assert (Hm : members s = concat (f <$> seq 0 (length (words s)))).
  { apply ascending_ext; [apply members_ascending| |].
    - assert (Hlt : forall i, (word_at s i < 2 ^ 64)%N).
      { intros i. unfold word_at. destruct (words s !! i) eqn:E; [by eapply Forall_lookup_1 in Hw|done]. }
      apply (ascending_concat f 64).
      + intros i. by apply fmap_shift_ascending, scan_ascending.
      + intros i x (b & -> & Hb')%list_elem_of_fmap. rewrite scan_bits_64 in Hb' by done.
        apply elem_of_set_bits in Hb' as [? _]. lia.
    - intros d. rewrite elem_of_members, elem_of_concat. unfold mem, word_at.
      fold (sbit (words s) d). split.
      + intros [Hd%N.ltb_lt Hs]%andb_prop. pose proof (doc_word_in d (bound s) Hd) as Hi. exists (f (doc_word d)).
        split; [apply list_elem_of_fmap; exists (doc_word d); split; [done|apply elem_of_seq; lia]|].
        apply Hin; [lia|done].
      + intros (l & Hfl & Hd). apply list_elem_of_fmap in Hfl as (i & -> & Hi%elem_of_seq).
        apply Hin in Hd as [_ Hs]; [|lia]. rewrite Hs, (proj2 (N.ltb_lt _ _) (Hb d Hs)). done. }
  rewrite Hm, length_concat. f_equal. apply list_eq. intros i.
  rewrite !list_lookup_fmap. destruct (decide (i < length (words s))) as [Hi|Hi].
  - rewrite lookup_seq_lt by done. simpl. unfold f. rewrite length_fmap. unfold word_at.
    destruct (lookup_lt_is_Some_2 _ _ Hi) as [w ->]. done.
  - rewrite (lookup_ge_None_2 (words s)), lookup_seq_ge by lia. done.
Qed.

Lemma popcount_zeros n l : popcount (replicate n 0%N ++ l) = popcount l.
Proof. unfold popcount. f_equal. induction n as [|n IH]; [done|]. exact IH. Qed.

(** ** The tail of a set *)

(** The words of the tail: none before the first, that one masked. *)
Definition tail_words (ws : list u64) (from : u32) : list u64 :=
  imap (fun i w => if i <? doc_word from then 0%N
                   else if i =? doc_word from then N.land w (from_mask from) else w) ws.

Lemma tail_words_sbit s from d :
  set_wf s -> (from <= bound s)%N -> sbit (tail_words (words s) from) d = mem s d && (from <=? d)%N.
Proof.
  intros Hwf Hle. rewrite mem_sbit by done. unfold sbit, tail_words. rewrite list_lookup_imap.
  destruct (words s !! doc_word d) as [w|] eqn:Hw; simpl; [|by rewrite ?N.bits_0].
  destruct (Nat.ltb_spec (doc_word d) (doc_word from)) as [Hlt|Hge].
  - rewrite N.bits_0. symmetry. apply andb_false_intro2, N.leb_gt. pose proof (masked_start from).
    apply doc_word_lt in Hlt. lia.
  - destruct (Nat.eqb_spec (doc_word d) (doc_word from)) as [Heq|Hne].
    + rewrite N.land_spec, from_mask_testbit by apply doc_mod. f_equal.
      split_doc d. split_doc from. rewrite Heq in *.
      destruct (N.leb_spec m0 m), (N.leb_spec from d); try done; lia.
    + symmetry. rewrite (proj2 (N.leb_le _ _)); [by rewrite andb_true_r|].
      apply N.lt_le_incl, N.nle_gt. intros H. apply Hne, Nat.le_antisymm; [|done].
      apply Nat.lt_succ_r, doc_word_lt. split_doc from. lia.
Qed.

Section tail.
  Context (ck : Checkpoint) {HF : StopFlag ck}.

Lemma ask_every_flag n k c b c' :
  ask_every ck n k c = (b, c') -> (stopped c -> stopped c') /\ (b = true -> stopped c').
Proof.
  unfold ask_every. destruct (_ =? 0); [|by intros [= <- <-]].
  intros H. pose proof (stopped_ask _ _ _ H). auto.
Qed.

Lemma copy_words_spec W first from i s c r c' :
  first = doc_word from -> first <= i <= length W ->
  words s = take i (tail_words W from) ++ replicate (length W - i) 0%N ->
  copy_words ck (drop i W) first i from s c = (r, c') ->
  (stopped c -> stopped c') /\
  (stopped c' \/ r = Some (mkDocSet (tail_words W from) (bound s)
                             (len s + popcount (drop i (tail_words W from))))).
Proof.
  intros Hfirst. remember (drop i W) as ws eqn:Hws. revert i s c Hws.
  assert (HlT : length (tail_words W from) = length W) by (unfold tail_words; by rewrite length_imap).
  induction ws as [|w ws IH]; intros i s c Hws Hi Hs.
  - intros [= <- <-]. split; [auto|]. right. f_equal.
    assert (Hlen : length W <= i) by (apply (f_equal length) in Hws; rewrite length_drop in Hws; simpl in Hws; lia).
    rewrite take_ge in Hs by lia. replace (length W - i) with 0 in Hs by lia. simpl in Hs.
    rewrite app_nil_r in Hs. rewrite drop_ge by lia. destruct s; simpl in *. f_equal; [done|].
    unfold popcount. simpl. lia.
  - simpl. destruct (ask_every ck _ _ c) as [stop c1] eqn:Hask. apply ask_every_flag in Hask as [Hst Hst'].
    destruct stop; [intros [= <- <-]; auto|]. intros H.
    assert (HWi : W !! i = Some w) by (by rewrite <- (Nat.add_0_r i), <- lookup_drop, <- Hws).
    pose proof (lookup_lt_Some _ _ _ HWi) as Hlt.
    set (word := if i =? first then N.land w (from_mask from) else w) in *.
    assert (HTi : tail_words W from !! i = Some word).
    { unfold tail_words. rewrite list_lookup_imap, HWi. simpl. f_equal. unfold word.
      destruct (Nat.ltb_spec i (doc_word from)); [lia|]. by rewrite Hfirst. }
    apply IH in H as [Hs1 Hr].
    + split; [auto|]. destruct Hr as [Hr|Hr]; [by left|]. right. rewrite Hr. simpl. do 2 f_equal.
      rewrite (drop_S _ _ _ HTi). unfold popcount, count_ones. rewrite fmap_cons. simpl. lia.
    + replace (S i) with (i + 1) by lia. by rewrite <- drop_drop, <- Hws.
    + lia.
    + simpl. rewrite Hs, (take_S_r _ _ _ HTi), insert_app_r_alt by (rewrite length_take; lia).
      rewrite length_take, HlT, Nat.min_l by lia. rewrite Nat.sub_diag.
      replace (length W - i) with (S (length W - S i)) by lia. simpl. by rewrite <- app_assoc.
Qed.

Lemma add_extra_spec self extra seen s c r c' :
  set_wf s -> bound s = bound self -> add_extra ck self extra seen s c = (r, c') ->
  (stopped c -> stopped c') /\
  (stopped c' \/ exists s', r = Some s' /\ set_wf s' /\ bound s' = bound self /\
    forall d, mem s' d = mem s d || (mem self d && bool_decide (d ∈ extra))).
Proof.
  revert seen s c. induction extra as [|x extra IH]; intros seen s c Hwf Hb; cbn [add_extra].
  - intros [= <- <-]. split; [auto|]. right. exists s. split_and!; try done. intros d.
    rewrite bool_decide_eq_false_2 by apply not_elem_of_nil. by rewrite andb_false_r, orb_false_r.
  - destruct (ask_every ck _ _ c) as [stop c1] eqn:Hask. apply ask_every_flag in Hask as [Hst Hst'].
    destruct stop; [intros [= <- <-]; auto|].
    set (s1 := if contains_doc self x then insert_doc s x else s). intros H.
    assert (Hwf1 : set_wf s1) by (unfold s1; destruct (contains_doc self x); [by apply insert_wf|done]).
    assert (Hb1 : bound s1 = bound self) by (unfold s1; destruct (contains_doc self x); by rewrite ?insert_bound).
    apply IH in H as [Hs1 Hr]; [|done..]. split; [auto|].
    destruct Hr as [Hr|(s' & -> & Hwf' & Hb' & Hm)]; [by left|]. right. exists s'. split_and!; try done.
    intros d. rewrite Hm. unfold s1. rewrite contains_mem. destruct (mem self x) eqn:Hx.
    + rewrite insert_mem by done. rewrite Hb.
      assert ((x <? bound self)%N = true) as -> by (by apply andb_prop in Hx as [? _]). rewrite andb_true_r.
      destruct (N.eqb_spec d x) as [->|Hne].
      * rewrite (bool_decide_eq_true_2 (x ∈ x :: extra)) by (by left). rewrite Hx. simpl.
        by rewrite !orb_true_r.
      * rewrite orb_false_r. f_equal. f_equal. apply bool_decide_ext. rewrite elem_of_cons. tauto.
    + f_equal. destruct (N.eqb_spec d x) as [->|Hne]; [by rewrite Hx|].
      f_equal. apply bool_decide_ext. rewrite elem_of_cons. tauto.
Qed.

Lemma add_extra_flag self extra seen s c r c' :
  add_extra ck self extra seen s c = (r, c') -> stopped c -> stopped c'.
Proof.
  revert seen s c. induction extra as [|x extra IH]; intros seen s c; cbn [add_extra].
  - by intros [= <- <-].
  - destruct (ask_every ck _ _ c) as [stop c1] eqn:Hask. apply ask_every_flag in Hask as [Hst Hst'].
    destruct stop; [intros [= <- <-]; auto|]. intros H Hc. eapply IH; eauto.
Qed.

Lemma tail_words_take ws from :
  doc_word from <= length ws ->
  take (doc_word from) (tail_words ws from) = replicate (doc_word from) 0%N.
Proof.
  intros Hle. apply list_eq. intros i. destruct (decide (i < doc_word from)) as [Hi|Hi].
  - rewrite lookup_take_lt, lookup_replicate_2 by done. unfold tail_words. rewrite list_lookup_imap.
    destruct (lookup_lt_is_Some_2 ws i ltac:(lia)) as [w ->]. simpl.
    by rewrite (proj2 (Nat.ltb_lt _ _) Hi).
  - by rewrite lookup_take_ge, (lookup_ge_None_2 (replicate _ _)) by (rewrite ?length_replicate; lia).
Qed.

(** The set the first loop leaves: the members from [from] on. *)
Lemma tail_set_spec self from :
  set_wf self -> (from <= bound self)%N -> doc_word from <= length (words self) ->
  let s := mkDocSet (tail_words (words self) from) (bound self)
             (popcount (drop (doc_word from) (tail_words (words self) from))) in
  set_wf s /\ forall d, mem s d = mem self d && (from <=? d)%N.
Proof.
  intros Hwf Hle Hfirst s. pose proof Hwf as (Hl & Hw & _).
  assert (Hsb : forall d, sbit (words s) d = mem self d && (from <=? d)%N)
    by (intros d; by apply tail_words_sbit).
  assert (Hbelow : forall d, mem self d = true -> (d < bound self)%N)
    by (by intros d [?%N.ltb_lt _]%andb_prop).
  split.
  - assert (Hb1 : forall d, sbit (words s) d = true -> (d < bound s)%N)
      by (intros d; rewrite Hsb; by intros [?%Hbelow _]%andb_prop).
    assert (Hlw : length (words s) = words_for (bound s))
      by (simpl; unfold tail_words; by rewrite length_imap).
    assert (Hw1 : Forall (fun w => w < 2 ^ 64)%N (words s)).
    { apply Forall_forall. intros w (i & x & -> & Hx)%elem_of_lookup_imap.
      eapply Forall_lookup_1 in Hw; [|exact Hx]. repeat case_match; [done|by apply masked_lt|done]. }
    apply set_wf_intro; try done. rewrite <- popcount_members by done. simpl.
    rewrite <- (take_drop (doc_word from) (tail_words (words self) from)) at 2.
    by rewrite tail_words_take, popcount_zeros.
  - intros d. unfold mem at 1, word_at. fold (sbit (words s) d). rewrite Hsb.
    destruct (mem self d) eqn:Hd; [|by rewrite andb_false_r].
    simpl. by rewrite (proj2 (N.ltb_lt _ _) (Hbelow d Hd)).
Qed.

Lemma tail_until_spec self from extra c r c' :
  set_wf self -> tail_until ck self from extra c = (r, c') ->
  stopped c' \/ exists s, r = Some s /\ set_wf s /\ bound s = bound self /\
    forall d, mem s d = mem self d && ((from <=? d)%N || bool_decide (d ∈ extra)).
Proof.
  intros Hwf. pose proof Hwf as (Hl & Hw & _). unfold tail_until.
  destruct (ck_ask ck c) as [stop c1] eqn:Hask. pose proof (stopped_ask _ _ _ Hask) as Hst.
  destruct stop; [intros [= <- <-]; auto|].
  set (from' := N.min from (bound self)).
  assert (Hfirst : doc_word from' <= length (words self)).
  { rewrite Hl. apply Nat.lt_succ_r, doc_word_lt. pose proof (words_for_bound (bound self)).
    unfold from'. lia. }
  destruct (copy_words ck _ (doc_word from') (doc_word from') from' _ c1) as [r1 c2] eqn:Hcopy.
  apply (copy_words_spec (words self)) in Hcopy as [Hs1 Hr1]; [|done|lia|].
  2:{ simpl. rewrite tail_words_take, <- replicate_add, <- Hl by done. f_equal. lia. }
  destruct Hr1 as [Hr1| ->].
  { destruct r1 as [s1|]; [|intros [= <- <-]; auto]. intros H. left. by eapply add_extra_flag. }
  simpl. destruct (tail_set_spec self from' Hwf ltac:(unfold from'; lia) Hfirst) as [Hwf1 Hm1].
  intros H. apply add_extra_spec in H as [_ [H|(s' & -> & Hwf' & Hb' & Hm)]]; [by left| |done|done].
  right. exists s'. split_and!; try done. intros d. rewrite Hm, Hm1.
  assert (Hmin : mem self d && (from' <=? d)%N = mem self d && (from <=? d)%N).
  { destruct (mem self d) eqn:Hd; [|done]. apply andb_prop in Hd as [Hd%N.ltb_lt _]. simpl.
    unfold from'. destruct (N.leb_spec (N.min from (bound self)) d), (N.leb_spec from d); done || lia. }
  rewrite Hmin. by destruct (mem self d), (from <=? d)%N.
Qed.
End tail.

(** * Properties of the set *)

(** C22: the set's representation invariant: the words fit the bound, no bit
    stands at or past it and the cached size counts the members.  [new],
    [insert], [remove] and [grow_to] keep it, and each changes membership by
    exactly its id: an id at or past the bound is ignored, a duplicate adds
    nothing, growing keeps every member. *)
Theorem docset_invariant (s : DocSet) (Hwf : set_wf s) (d : u32) (b : u32) (docs : list u32) :
  (set_wf (insert_doc s d) /\
   forall e, contains_doc (insert_doc s d) e = contains_doc s e || ((e =? d)%N && (d <? bound s)%N)) /\
  (set_wf (remove_doc s d) /\
   forall e, contains_doc (remove_doc s d) e = contains_doc s e && negb (e =? d)%N) /\
  (match grow_to s b with
   | Some s' => set_wf s' /\ bound s' = b /\ members s' = members s
   | None => (b < bound s)%N
   end) /\
  (set_wf (new_set b docs) /\ members (new_set b docs) = filter (fun e => e ∈ docs) (ids_below b)).
Proof.
  split_and!.
  - by apply insert_wf.
  - intros e. rewrite !contains_mem. by apply insert_mem.
  - by apply remove_wf.
  - intros e. rewrite !contains_mem. by apply remove_mem.
  - destruct (grow_to s b) as [s'|] eqn:Hg; [by apply grow_spec|].
    unfold grow_to in Hg. by destruct (N.leb_spec (bound s) b).
  - by apply new_set_spec.
  - apply ascending_ext; [apply members_ascending|apply ascending_filter, ascending_seq|].
    intros e. rewrite elem_of_members, list_elem_of_filter, elem_of_ids.
    rewrite (proj2 (proj2 (new_set_spec b docs))), andb_true_iff, N.ltb_lt, bool_decide_eq_true. tauto.
Qed.

Definition sample_set : DocSet := new_set 200 [3; 64; 199; 500]%N.

Lemma sample_set_wf : set_wf sample_set.
Proof. apply new_set_spec. Qed.

Lemma docset_invariant_witness :
  set_wf (insert_doc sample_set 65) /\ set_wf (remove_doc sample_set 3).
Proof.
  split.
  - exact (proj1 (proj1 (docset_invariant sample_set sample_set_wf 65 300 []))).
  - exact (proj1 (proj1 (proj2 (docset_invariant sample_set sample_set_wf 3 300 [])))).
Defined.

(** The searches agree with the set.  [next_geq] is the least member from
    a point, [range] lists exactly the members of the half-open interval in
    ascending order, whatever the bounds, and [count] is their number. *)
Theorem docset_searches (s : DocSet) (Hwf : set_wf s) (from to : u32) :
  first_from (fun d => contains_doc s d = true) from (next_geq s from) /\
  range s from to = filter (fun d => (from <= d /\ d < to)%N) (members s) /\
  count s from to = N.of_nat (length (filter (fun d => (from <= d /\ d < to)%N) (members s))) /\
  len s = count s 0 (bound s).
Proof.
  split_and!.
  - eapply first_from_ext; [|by apply next_geq_spec]. intros d. by rewrite contains_mem.
  - by apply range_spec.
  - unfold count. by rewrite range_spec.
  - unfold count. rewrite range_spec by done. pose proof Hwf as (_ & _ & _ & ->). do 2 f_equal.
    symmetry. apply filter_all_in. intros d Hd%elem_of_members. apply andb_prop in Hd as [?%N.ltb_lt _]. lia.
Qed.

Lemma docset_searches_witness : range sample_set 4 199 = [64%N] /\
  first_from (fun d => contains_doc sample_set d = true) 65 (Some 199%N).
Proof.
  split; [vm_compute; reflexivity|]. apply (docset_searches sample_set sample_set_wf 65 0).
Defined.

(** A cancellable tail is all or nothing.  [tail_until] either was told to
    stop, or returns a well-formed set with the same bound whose members are
    the members from [from] on and the members among [extra], wherever its
    cancellation test is asked in between. *)
Theorem tail_all_or_nothing (ck : Checkpoint) (HF : StopFlag ck) (s : DocSet) (from : u32)
    (extra : list u32) (c : ck_state ck) (Hwf : set_wf s) :
  let '(r, c') := tail_until ck s from extra c in
  stopped c' \/ exists t, r = Some t /\ set_wf t /\ bound t = bound s /\
    forall d, contains_doc t d = contains_doc s d && ((from <=? d)%N || bool_decide (d ∈ extra)).
Proof.
  destruct (tail_until ck s from extra c) as [r c'] eqn:H.
  apply (tail_until_spec ck (HF:=HF)) in H as [H|(t & -> & Ht & Hb & Hm)]; [by left| |done].
  right. exists t. split_and!; try done. intros d. by rewrite !contains_mem.
Qed.

Lemma tail_all_or_nothing_witness :
  let '(r, c') := tail_until never sample_set 64 [3; 4]%N tt in
  False \/ exists t, r = Some t /\ set_wf t /\ bound t = bound sample_set /\
    forall d, contains_doc t d = contains_doc sample_set d && ((64 <=? d)%N || bool_decide (d ∈ [3; 4]%N)).
Proof.
  apply (tail_all_or_nothing never never_flag sample_set 64 [3; 4]%N tt sample_set_wf).
Defined.
