(* ===== verification/Cursor.v ===== *)
(** * Cursor: the candidate algebra

    Models [crates/ferret-index/src/cursor.rs]: cursors that yield ascending
    document ids with a certainty, combined by AND, OR, AND-NOT and a filter
    under Kleene's three-valued logic, and their cancellation.

    A postings list's own cursor ([postings::Cursor], over the [intpack]
    crate) is an interface, the class [Leaf]; its laws are the class
    [LeafLaws].  A cursor is mutated by every call, so a call returns the
    cursor after it.  Recursion and loops run on fuel: [None] is out of
    fuel, and the theorems give fuel that suffices. *)
From S2P Require Import Prelude Word DocSet.

(** ** Certainties *)

(** [Certainty], [Maybe < Yes]. *)
Inductive Certainty := CMaybe | CYes.

#[export] Instance Certainty_eq_dec : EqDecision Certainty.
Proof. solve_decision. Defined.

(** [certainty.min(other)] and [other.max(certainty)]. *)
Definition cmin (a b : Certainty) : Certainty :=
  match a, b with CYes, CYes => CYes | _, _ => CMaybe end.
Definition cmax (a b : Certainty) : Certainty :=
  match a, b with CMaybe, CMaybe => CMaybe | _, _ => CYes end.

(** [segment::ReadError]; an I/O error's and a section's own contents are
    left out. *)
Inductive ReadError :=
| Cancelled | Io | NotASegment | HeadError | Version (v : N) | Codec (dictionary postings : N) | Layout | Corrupt.

#[export] Instance ReadError_eq_dec : EqDecision ReadError.
Proof. solve_decision. Defined.

(** A yielded document. *)
Abbreviation hit := (u32 * Certainty)%type (only parsing).

(** [OR_WIDTH] and [OR_DENSITY]. *)
Definition OR_WIDTH : nat := 64.
Definition OR_DENSITY : u32 := 32.

(** [u32::checked_add(1)]. *)
Definition next_u32 (doc : u32) : option u32 :=
  if (doc + 1 <? 2 ^ 32)%N then Some (doc + 1)%N else None.

(** [u64::saturating_add]. *)
Definition sat_add (a b : u64) : u64 := N.min (a + b) u64_max.

(** ** Leaves *)

(** One term's postings cursor: its [next_geq_certainty_with] and [cost]. *)
Class Leaf := {
  leaf : Type;
  leaf_next (ck : Checkpoint) : leaf -> u32 -> ck_state ck -> option hit * leaf * ck_state ck;
  leaf_cost : leaf -> u64
}.

(** ** Cursors *)

(** Where one child of an [Or] stands. *)
Inductive Head := Fresh | At (doc : u32) (certainty : Certainty) | Exhausted.

(** [Cursor]; a probe has one shape, a cursor, and is written as one. *)
#[warnings="-register-all"]
Inductive Cursor `{Leaf} :=
| CPostings (l : leaf)
| CBits (docs : DocSet) (certainty : Certainty) (floor : u32)
| CAnd (children : list Cursor)
| COr (children : list Cursor) (heads : list Head)
| CAndNot (positive negated : Cursor)
| CFilter (driver probe : Cursor)
| CMaybeOf (child : Cursor)
| CEmpty.

Section cursor.
  Context {HL : Leaf}.

(** [Cursor::cost]. *)
Fixpoint cost (cur : Cursor) : u64 :=
  match cur with
  | CPostings l => leaf_cost l
  | CBits docs _ _ => len docs
  | CAnd children =>
      match cost <$> children with
      | [] => 0%N
      | first :: rest => fold_left N.min rest first
      end
  | COr children _ => fold_left sat_add (cost <$> children) 0%N
  | CAndNot positive _ => cost positive
  | CFilter driver _ => cost driver
  | CMaybeOf child => cost child
  | CEmpty => 0%N
  end.

Definition is_empty_cursor (cur : Cursor) : bool := match cur with CEmpty => true | _ => false end.

(** [Cursor::bits]. *)
Definition bits (docs : DocSet) (certainty : Certainty) : Cursor := CBits docs certainty 0.

Definition cost_le (a b : Cursor) : Prop := (cost a <= cost b)%N.
#[export] Instance cost_le_dec : RelDecision cost_le.
Proof. intros a b. unfold cost_le. apply _. Defined.

(** [Cursor::and]. *)
Definition cursor_and (children : list Cursor) : Cursor :=
  if is_empty children || existsb is_empty_cursor children then CEmpty
  else
    match children with
    | [child] => child
    | _ => CAnd (merge_sort cost_le children)
    end.

(** [Or::new]. *)
Definition or_new (children : list Cursor) : Cursor := COr children (replicate (length children) Fresh).

(** [Cursor::and_not]. *)
Definition and_not (positive negated : Cursor) : Cursor :=
  match positive, negated with
  | CEmpty, _ => CEmpty
  | _, CEmpty => positive
  | _, _ => CAndNot positive negated
  end.

(** [Cursor::filter]. *)
Definition cursor_filter (driver probe : Cursor) : Cursor :=
  match driver with CEmpty => CEmpty | _ => CFilter driver probe end.

(** [Cursor::maybe]. *)
Definition maybe_of (child : Cursor) : Cursor :=
  match child with CEmpty => CEmpty | CMaybeOf _ => child | _ => CMaybeOf child end.

Section advance.
  Context (ck : Checkpoint).

(** [.map(|(doc, _)| (doc, Certainty::Maybe))]. *)
Definition downgrade (r : option hit) : option hit :=
  match r with Some (doc, _) => Some (doc, CMaybe) | None => None end.

(** A call's answer: the hit, the cursor and the checkpoint after it; [None]
    when out of fuel. *)
Abbreviation Answer := (option (option hit * Cursor * ck_state ck)) (only parsing).
Abbreviation Adv := (Cursor -> u32 -> ck_state ck -> Answer) (only parsing).

(** How the children of a [leapfrog] met the driver's document. *)
Inductive Follow := Landed (certainty : Certainty) | Overshot (other : u32) | Ended.

(** [for child in rest.iter_mut()] of [leapfrog]. *)
Fixpoint follow (adv : Adv) (rest : list Cursor) (doc : u32) (certainty : Certainty)
    (c : ck_state ck) : option (Follow * list Cursor * ck_state ck) :=
  match rest with
  | [] => Some (Landed certainty, [], c)
  | child :: rest =>
      '(r, child, c) ← adv child doc c;
      match r with
      | None => Some (Ended, child :: rest, c)
      | Some (other, other_certainty) =>
          if (doc <? other)%N then Some (Overshot other, child :: rest, c)
          else
            '(res, rest, c) ← follow adv rest doc (cmin certainty other_certainty) c;
            Some (res, child :: rest, c)
      end
  end.

(** ['driver: loop] of [leapfrog]. *)
Fixpoint leapfrog (adv : Adv) (fuel : nat) (driver : Cursor) (rest : list Cursor) (target : u32)
    (c : ck_state ck) : Answer :=
  match fuel with
  | 0 => None
  | S fuel =>
      let '(stop, c) := ck_ask ck c in
      if stop then Some (None, CAnd (driver :: rest), c)
      else
        '(r, driver, c) ← adv driver target c;
        match r with
        | None => Some (None, CAnd (driver :: rest), c)
        | Some (doc, certainty) =>
            '(res, rest, c) ← follow adv rest doc certainty c;
            match res with
            | Ended => Some (None, CAnd (driver :: rest), c)
            | Overshot other => leapfrog adv fuel driver rest other c
            | Landed certainty => Some (Some (doc, certainty), CAnd (driver :: rest), c)
            end
        end
  end.

(** [Probe::test_with]. *)
Definition test_with (adv : Adv) (probe : Cursor) (doc : u32) (c : ck_state ck)
    : option (option Certainty * Cursor * ck_state ck) :=
  '(r, probe, c) ← adv probe doc c;
  Some (match r with
        | Some (found, certainty) => if (found =? doc)%N then Some certainty else None
        | None => None
        end, probe, c).

(** The loop of the [AndNot] arm of [Cursor::advance]. *)
Fixpoint and_not_loop (adv : Adv) (fuel : nat) (positive negated : Cursor) (target : u32)
    (c : ck_state ck) : Answer :=
  match fuel with
  | 0 => None
  | S fuel =>
      let '(stop, c) := ck_ask ck c in
      if stop then Some (None, CAndNot positive negated, c)
      else
        '(r, positive, c) ← adv positive target c;
        match r with
        | None => Some (None, CAndNot positive negated, c)
        | Some (doc, certainty) =>
            '(t, negated, c) ← test_with adv negated doc c;
            match t with
            | None => Some (Some (doc, certainty), CAndNot positive negated, c)
            | Some CMaybe => Some (Some (doc, CMaybe), CAndNot positive negated, c)
            | Some CYes =>
                match next_u32 doc with
                | None => Some (None, CAndNot positive negated, c)
                | Some target => and_not_loop adv fuel positive negated target c
                end
            end
        end
  end.

(** The loop of the [Filter] arm of [Cursor::advance]. *)
Fixpoint filter_loop (adv : Adv) (fuel : nat) (driver probe : Cursor) (target : u32)
    (c : ck_state ck) : Answer :=
  match fuel with
  | 0 => None
  | S fuel =>
      let '(stop, c) := ck_ask ck c in
      if stop then Some (None, CFilter driver probe, c)
      else
        '(r, driver, c) ← adv driver target c;
        match r with
        | None => Some (None, CFilter driver probe, c)
        | Some (doc, certainty) =>
            '(t, probe, c) ← test_with adv probe doc c;
            match t with
            | Some other => Some (Some (doc, cmin certainty other), CFilter driver probe, c)
            | None =>
                match next_u32 doc with
                | None => Some (None, CFilter driver probe, c)
                | Some target => filter_loop adv fuel driver probe target c
                end
            end
        end
  end.

(** [map_or(Head::Exhausted, ..)] of a child's answer. *)
Definition head_of (r : option hit) : Head :=
  match r with Some (doc, certainty) => At doc certainty | None => Exhausted end.

(** Whether a head must be asked again for [target]. *)
Definition behind (h : Head) (target : u32) : bool :=
  match h with Fresh => true | At doc _ => (doc <? target)%N | Exhausted => false end.

(** The best of the heads so far and one more. *)
Definition best_head (best : option hit) (h : Head) : option hit :=
  match h with
  | At doc certainty =>
      match best with
      | Some (low, other) =>
          if (low <? doc)%N then best
          else if (doc =? low)%N then Some (low, cmax other certainty)
          else Some (doc, certainty)
      | None => Some (doc, certainty)
      end
  | _ => best
  end.

(** The loop of [Or::next_geq] over the children and their heads. *)
Fixpoint or_scan (adv : Adv) (children : list Cursor) (heads : list Head) (target : u32)
    (best : option hit) (c : ck_state ck)
    : option (option hit * list Cursor * list Head * ck_state ck) :=
  match children, heads with
  | child :: children', h :: heads' =>
      let '(stop, c) := ck_ask ck c in
      if stop then Some (None, children, heads, c)
      else
        '(child, h, c) ←
          (if behind h target then
             '(r, child, c) ← adv child target c;
             Some (child, head_of r, c)
           else Some (child, h, c));
        '(r, children', heads', c) ← or_scan adv children' heads' target (best_head best h) c;
        Some (r, child :: children', h :: heads', c)
  | _, _ => Some (best, children, heads, c)
  end.

(** [Cursor::advance]. *)
Fixpoint advance (fuel : nat) (cur : Cursor) (target : u32) (c : ck_state ck) : Answer :=
  match fuel with
  | 0 => None
  | S fuel =>
      let '(stop, c) := ck_ask ck c in
      if stop then Some (None, cur, c)
      else
        match cur with
        | CPostings l => let '(r, l, c) := leaf_next ck l target c in Some (r, CPostings l, c)
        | CBits docs certainty floor =>
            match next_geq_with ck docs (N.max target floor) c with
            | (Some doc, c) => Some (Some (doc, certainty), CBits docs certainty doc, c)
            | (None, c) => Some (None, cur, c)
            end
        | CAnd [] => Some (None, cur, c)
        | CAnd (driver :: rest) => leapfrog (advance fuel) fuel driver rest target c
        | COr children heads =>
            '(r, children, heads, c) ← or_scan (advance fuel) children heads target None c;
            Some (r, COr children heads, c)
        | CAndNot positive negated => and_not_loop (advance fuel) fuel positive negated target c
        | CFilter driver probe => filter_loop (advance fuel) fuel driver probe target c
        | CMaybeOf child =>
            '(r, child, c) ← advance fuel child target c;
            Some (downgrade r, CMaybeOf child, c)
        | CEmpty => Some (None, cur, c)
        end
  end.
End advance.

(** [Cursor::next_geq]. *)
Definition cursor_next (fuel : nat) (cur : Cursor) (target : u32) : option (option hit * Cursor) :=
  '(r, cur, _) ← advance never fuel cur target tt; Some (r, cur).

(** A client's calls, one per target. *)
Fixpoint cursor_walk (fuel : nat) (cur : Cursor) (targets : list u32) : option (list (option hit)) :=
  match targets with
  | [] => Some []
  | target :: targets =>
      '(r, cur) ← cursor_next fuel cur target;
      rs ← cursor_walk fuel cur targets;
      Some (r :: rs)
  end.
End cursor.

(** ** Specification *)

(** Kleene's AND and OR, with absence as No. *)
Definition kand (a b : option Certainty) : option Certainty :=
  match a, b with Some x, Some y => Some (cmin x y) | _, _ => None end.
Definition kor (a b : option Certainty) : option Certainty :=
  match a, b with
  | Some x, Some y => Some (cmax x y)
  | Some x, None => Some x
  | None, y => y
  end.
Lemma kor_None a b : kor a b <> None <-> a <> None \/ b <> None.
Proof. destruct a as [[]|], b as [[]|]; naive_solver. Qed.

(** Kleene's AND with a NOT: NOT Yes is No, NOT Maybe is Maybe. *)
Definition kandnot (a b : option Certainty) : option Certainty :=
  match a, b with
  | Some x, None => Some x
  | Some _, Some CMaybe => Some CMaybe
  | _, _ => None
  end.

(** The floor a call leaves: it is at its target, unless there was nothing to
    answer and it stayed behind. *)
Definition moves (f t : u32) (r : option hit) (f' : u32) : Prop :=
  match r with Some _ => f' = N.max t f | None => (f <= f' <= N.max t f)%N end.

(** What a leaf promises: it stands for a fixed set of documents below
    [2^32], and from a floor it keeps, a call answers with the first document
    at or above both the floor and the target.  [leaf_ok l f] says that [l]
    may be asked as if it stood at [f].  It uses the checkpoint only by asking
    it ([leaf_asks]). *)
Class LeafLaws (HL : Leaf) := {
  leaf_den : leaf -> u32 -> option Certainty;
  leaf_ok : leaf -> u32 -> Prop;
  leaf_u32 l f d k : leaf_ok l f -> leaf_den l d = Some k -> (d < 2 ^ 32)%N;
  leaf_skip l f f' :
    (forall d, leaf_den l d <> None -> (f <= d <-> f' <= d)%N) -> leaf_ok l f -> leaf_ok l f';
  leaf_asks ck (I : ck_state ck -> Prop) l t c r l' c' :
    (forall c b c', ck_ask ck c = (b, c') -> I c -> I c') ->
    leaf_next ck l t c = (r, l', c') -> I c -> I c';
  leaf_spec ck (HF : StopFlag ck) l f t c r l' c' :
    leaf_ok l f -> leaf_next ck l t c = (r, l', c') ->
    (stopped c -> stopped c') /\
    (stopped c' \/
     (first_from (fun d => leaf_den l d <> None) (N.max t f) (fst <$> r) /\
      (forall d k, r = Some (d, k) -> leaf_den l d = Some k) /\
      (forall d, leaf_den l' d = leaf_den l d) /\ exists f', moves f t r f' /\ leaf_ok l' f'))
}.

Section spec.
  Context {HL : Leaf} {HLL : LeafLaws HL}.

(** What a cursor stands for: the certainty of each document. *)
Fixpoint den (cur : Cursor) (d : u32) : option Certainty :=
  match cur with
  | CPostings l => leaf_den l d
  | CBits docs certainty _ => if mem docs d then Some certainty else None
  | CAnd [] => None
  | CAnd children => fold_right kand (Some CYes) ((fun c => den c d) <$> children)
  | COr children _ => fold_right kor None ((fun c => den c d) <$> children)
  | CAndNot positive negated => kandnot (den positive d) (den negated d)
  | CFilter driver probe => kand (den driver d) (den probe d)
  | CMaybeOf child => match den child d with Some _ => Some CMaybe | None => None end
  | CEmpty => None
  end.

Definition yields (cur : Cursor) (d : u32) : Prop := den cur d <> None.

(** Two floors no document of [P] tells apart. *)
Definition same_from (P : u32 -> Prop) (f f' : u32) : Prop :=
  forall d, P d -> (f <= d <-> f' <= d)%N.

(** A head that stands for its child from the floor [f] on, the child itself
    standing at [fi]. *)
Definition head_ok (D : u32 -> option Certainty) (fi f : u32) (h : Head) : Prop :=
  match h with
  | Fresh => same_from (fun d => D d <> None) fi f
  | At doc k =>
      D doc = Some k /\ same_from (fun d => D d <> None) doc f /\
      (forall d, D d <> None -> doc < d -> fi <= d)%N
  | Exhausted => forall d, D d <> None -> (d < f)%N
  end.

(** [ok cur f]: the cursor may be asked as if it stood at [f]. *)
Fixpoint ok (cur : Cursor) (f : u32) : Prop :=
  match cur with
  | CPostings l => leaf_ok l f
  | CBits docs _ floor =>
      set_wf docs /\ (bound docs <= 2 ^ 32)%N /\ same_from (fun d => mem docs d = true) floor f
  | CAnd [] => True
  | CAnd (driver :: rest) =>
      (exists fd, ok driver fd /\ same_from (yields cur) fd f) /\
      (fix all (l : list Cursor) : Prop :=
         match l with
         | [] => True
         | x :: l => (exists fi, ok x fi /\ (forall d, yields cur d -> f <= d -> fi <= d)%N) /\ all l
         end) rest
  | COr children heads =>
      (fix all (l : list Cursor) (hs : list Head) : Prop :=
         match l, hs with
         | [], [] => True
         | x :: l, h :: hs => (exists fi, ok x fi /\ head_ok (den x) fi f h) /\ all l hs
         | _, _ => False
         end) children heads
  | CAndNot positive negated =>
      exists fp fn, ok positive fp /\ ok negated fn /\ same_from (yields cur) fp f /\
        (forall d, yields positive d -> fp <= d -> fn <= d)%N
  | CFilter driver probe =>
      exists fd fp, ok driver fd /\ ok probe fp /\ same_from (yields cur) fd f /\
        (forall d, yields driver d -> fd <= d -> fp <= d)%N
  | CMaybeOf child => ok child f
  | CEmpty => True
  end.

(** The depth of the tree. *)
Fixpoint height (cur : Cursor) : nat :=
  match cur with
  | CAnd children => S (fold_right Nat.max 0 (height <$> children))
  | COr children _ => S (fold_right Nat.max 0 (height <$> children))
  | CAndNot a b | CFilter a b => S (Nat.max (height a) (height b))
  | CMaybeOf child => S (height child)
  | _ => 1
  end.

(** An induction principle that reaches into the lists of children. *)
Lemma Cursor_ind' (P : Cursor -> Prop) :
  (forall l, P (CPostings l)) -> (forall docs k f, P (CBits docs k f)) ->
  (forall cs, Forall P cs -> P (CAnd cs)) -> (forall cs hs, Forall P cs -> P (COr cs hs)) ->
  (forall a b, P a -> P b -> P (CAndNot a b)) -> (forall a b, P a -> P b -> P (CFilter a b)) ->
  (forall a, P a -> P (CMaybeOf a)) -> P CEmpty -> forall cur, P cur.
Proof.
  intros H1 H2 H3 H4 H5 H6 H7 H8. fix IH 1. intros [l|docs k f|cs|cs hs|a b|a b|a|];
    [apply H1|apply H2|apply H3|apply H4|apply H5; apply IH|apply H6; apply IH|apply H7, IH|exact H8].
  - induction cs as [|c cs IHcs]; constructor; [apply IH|exact IHcs].
  - induction cs as [|c cs IHcs]; constructor; [apply IH|exact IHcs].
Qed.

(** The two list conditions, as predicates on lists. *)
Definition follows (P : u32 -> Prop) (f : u32) (cs : list Cursor) : Prop :=
  Forall (fun x => exists fi, ok x fi /\ (forall d, P d -> f <= d -> fi <= d)%N) cs.

Lemma ok_and driver rest f :
  ok (CAnd (driver :: rest)) f <->
  (exists fd, ok driver fd /\ same_from (yields (CAnd (driver :: rest))) fd f) /\
  follows (yields (CAnd (driver :: rest))) f rest.
Proof.
  cbn [ok]. fold ok. unfold follows. generalize (yields (CAnd (driver :: rest))). intros P.
  apply and_iff_compat_l. induction rest as [|c cs IH]; [by split|]. by rewrite Forall_cons, <- IH.
Qed.

Lemma ok_or cs hs f :
  ok (COr cs hs) f <-> Forall2 (fun x h => exists fi, ok x fi /\ head_ok (den x) fi f h) cs hs.
Proof.
  cbn [ok]. revert hs; induction cs as [|c cs IH]; intros [|h hs].
  - split; [constructor|done].
  - split; [done|inversion 1].
  - split; [done|inversion 1].
  - rewrite Forall2_cons, <- IH. done.
Qed.

Lemma den_and c cs d : den (CAnd (c :: cs)) d = kand (den c d) (fold_right kand (Some CYes) ((fun c => den c d) <$> cs)).
Proof. done. Qed.

Lemma same_from_refl P f : same_from P f f.
Proof. by intros d _. Qed.
Lemma same_from_sym P f f' : same_from P f f' -> same_from P f' f.
Proof. intros H d Hd. symmetry. by apply H. Qed.
Lemma same_from_trans P f1 f2 f3 : same_from P f1 f2 -> same_from P f2 f3 -> same_from P f1 f3.
Proof. intros H1 H2 d Hd. by rewrite (H1 d Hd), (H2 d Hd). Qed.
Lemma same_from_weaken (P Q : u32 -> Prop) f f' : (forall d, Q d -> P d) -> same_from P f f' -> same_from Q f f'.
Proof. intros HQ H d Hd. by apply H, HQ. Qed.
Lemma same_from_max P f f' t : same_from P f f' -> same_from P (N.max t f) (N.max t f').
Proof. intros H d Hd. specialize (H d Hd). lia. Qed.

(** Passing a floor over documents the cursor does not yield changes nothing. *)
Lemma or_yields cs hs x d : x ∈ cs -> yields x d -> yields (COr cs hs) d.
Proof.
  unfold yields. cbn [den]. induction cs as [|c cs IH]; [by intros ?%not_elem_of_nil|].
  rewrite fmap_cons. cbn [fold_right]. intros [->|Hx]%elem_of_cons Hd.
  - destruct (den c d); [|done]. by destruct (fold_right _ _ _).
  - specialize (IH Hx Hd). destruct (den c d); simpl; [by destruct (fold_right _ _ _)|done].
Qed.

Lemma head_ok_skip D fi f f' h :
  same_from (fun d => D d <> None) f f' -> head_ok D fi f h -> head_ok D fi f' h.
Proof.
  intros Hs. destruct h as [|doc k|]; simpl.
  - intros H. by eapply same_from_trans.
  - intros (H1 & H2 & H3). split; [done|]. split; [|done]. by eapply same_from_trans.
  - intros H d Hd. specialize (H d Hd). specialize (Hs d Hd). lia.
Qed.

Lemma ok_skip cur f f' : same_from (yields cur) f f' -> ok cur f -> ok cur f'.
Proof.
  revert f f'. induction cur as [l|docs k fl|cs _|cs hs _|a b _ _|a b _ _|a IH|] using Cursor_ind';
    intros f f' Hs; [| | | | | | |done].
  - simpl. by apply leaf_skip.
  - simpl. intros (Hwf & Hb & Hf). split; [done|]. split; [done|]. eapply same_from_trans; [exact Hf|].
    eapply same_from_weaken; [|exact Hs]. intros d Hd. unfold yields. simpl. by rewrite Hd.
  - destruct cs as [|driver rest]; [done|]. rewrite !ok_and. intros [(fd & Hd & Hsd) Hrest]. split.
    + exists fd. split; [done|]. by eapply same_from_trans.
    + eapply Forall_impl; [exact Hrest|]. intros x (fi & Hx & Hf). exists fi. split; [done|].
      intros d Hd' Hle. apply Hf; [done|]. by apply (Hs d Hd').
  - rewrite !ok_or. intros H. apply Forall2_same_length_lookup. apply Forall2_same_length_lookup in H as [Hlen H].
    split; [done|]. intros i x h Hx Hh. destruct (H i x h Hx Hh) as (fi & Hok & Hhd). exists fi. split; [done|].
    eapply head_ok_skip; [|exact Hhd]. eapply same_from_weaken; [|exact Hs].
    intros d Hd. eapply or_yields; [by eapply list_elem_of_lookup_2|done].
  - intros (fp & fn & Hp & Hn & Hsame & Hle). exists fp, fn. split_and!; try done. by eapply same_from_trans.
  - intros (fp & fn & Hp & Hn & Hsame & Hle). exists fp, fn. split_and!; try done. by eapply same_from_trans.
  - simpl. apply IH. eapply same_from_weaken; [|exact Hs]. intros d. unfold yields. simpl.
    by destruct (den a d).
Qed.

(** Every document is a [u32]. *)
Lemma den_u32 cur f d k : ok cur f -> den cur d = Some k -> (d < 2 ^ 32)%N.
Proof.
  revert f k. induction cur as [l|docs k0 fl|cs IH|cs hs IH|a b IHa _|a b IHa _|a IH|] using Cursor_ind';
    intros f k; [| | | | | | |done].
  - apply leaf_u32.
  - simpl. intros (Hwf & Hb & _). destruct (mem docs d) eqn:Hm; [|done].
    apply andb_prop in Hm as [Hm%N.ltb_lt _]. lia.
  - destruct cs as [|c cs]; [done|]. rewrite ok_and, den_and. intros [(fd & Hd & _) _].
    inversion_clear IH as [|? ? IHc _]. destruct (den c d) as [x|] eqn:Hx; [|done]. intros _. by eapply IHc.
  - rewrite ok_or. cbn [den]. intros H. revert k. induction H as [|c h cs hs (fi & Hc & _) _ IHl]; [done|].
    inversion_clear IH as [|? ? IHc IH']. intros k. rewrite fmap_cons. cbn [fold_right].
    destruct (den c d) as [x|] eqn:Hx; [intros _; by eapply IHc|]. by apply IHl.
  - simpl. intros (fp & fn & Hp & _). destruct (den a d) as [x|] eqn:Hx; [|done]. intros _. by eapply IHa.
  - simpl. intros (fp & fn & Hp & _). destruct (den a d) as [x|] eqn:Hx; [|done]. intros _. by eapply IHa.
  - simpl. intros Ho. destruct (den a d) as [x|] eqn:Hx; [|done]. intros _. by eapply IH.
Qed.

(** A cursor after calls: the same documents and shape. *)
Definition alike (x x' : Cursor) : Prop := (forall d, den x' d = den x d) /\ height x' = height x.

Lemma alike_refl x : alike x x.
Proof. done. Qed.
Lemma alike_trans x y z : alike x y -> alike y z -> alike x z.
Proof. intros [H1 H2] [H3 H4]. split; [intros d; by rewrite H3|by rewrite H4]. Qed.

Lemma alike_yields x x' d : alike x x' -> yields x' d <-> yields x d.
Proof. intros [H _]. unfold yields. by rewrite H. Qed.

Lemma alike_list cs cs' :
  Forall2 alike cs cs' ->
  (forall d, (fun c => den c d) <$> cs' = (fun c => den c d) <$> cs) /\ height <$> cs' = height <$> cs.
Proof.
  induction 1 as [|c c' cs cs' [Hd Hh] _ [IHd IHh]]; [done|]. rewrite !fmap_cons. split.
  - intros d. rewrite fmap_cons. by rewrite Hd, IHd.
  - by rewrite Hh, IHh.
Qed.

Lemma alike_and cs cs' : Forall2 alike cs cs' -> alike (CAnd cs) (CAnd cs').
Proof.
  intros H. pose proof (alike_list cs cs' H) as [Hd Hh]. split; [|simpl; by rewrite Hh].
  destruct H as [|c c' cs cs' _ _]; [done|]. intros d. rewrite !den_and. specialize (Hd d).
  rewrite !fmap_cons in Hd. injection Hd as -> ->. done.
Qed.

Lemma alike_or cs cs' hs hs' : Forall2 alike cs cs' -> alike (COr cs hs) (COr cs' hs').
Proof.
  intros H. pose proof (alike_list cs cs' H) as [Hd Hh]. split; [|simpl; by rewrite Hh].
  intros d. cbn [den]. by rewrite Hd.
Qed.

Lemma follows_alike P f cs : follows P f cs -> Forall2 alike cs cs.
Proof. intros _. apply Forall_Forall2_diag, Forall_forall. intros. apply alike_refl. Qed.

End spec.

(** ** A call answers with the first document *)

(** A checkpoint that, once it has stopped, goes on stopping: the cursor's
    own, and [Advance]. *)
Class Sticky (ck : Checkpoint) (HF : StopFlag ck) :=
  sticky c b c' : ck_ask ck c = (b, c') -> stopped c -> b = true.

#[export] Instance never_sticky : Sticky never never_flag.
Proof. intros c b c' _ []. Qed.

Section correct.
  Context {HL : Leaf} {HLL : LeafLaws HL} (ck : Checkpoint) {HF : StopFlag ck} {HS : Sticky ck HF}.

(** What a call on [cur], standing at [f], with target [t], promises. *)
Definition post (cur : Cursor) (f t : u32) (r : option hit) (cur' : Cursor) : Prop :=
  first_from (yields cur) (N.max t f) (fst <$> r) /\
  (forall d k, r = Some (d, k) -> den cur d = Some k) /\
  alike cur cur' /\ exists f', moves f t r f' /\ ok cur' f'.

Definition answers (cur : Cursor) (f t : u32) (c : ck_state ck)
    (a : option (option hit * Cursor * ck_state ck)) : Prop :=
  exists r cur' c', a = Some (r, cur', c') /\ (stopped c -> stopped c') /\
    (stopped c' \/ post cur f t r cur').

(** A function that answers as [advance] must, for cursors of bounded height;
    once stopped, it answers at once. *)
Record adv_ok (adv : Cursor -> u32 -> ck_state ck -> option (option hit * Cursor * ck_state ck))
    (h : nat) : Prop := {
  adv_stopped cur t c : stopped c -> exists c', adv cur t c = Some (None, cur, c') /\ stopped c';
  adv_answers cur f t c : height cur <= h -> ok cur f -> answers cur f t c (adv cur t c)
}.

Lemma answers_stop cur f t c c' (r : option hit) cur' :
  stopped c' -> answers cur f t c (Some (r, cur', c')).
Proof. intros H. exists r, cur', c'. auto. Qed.

Lemma answers_right cur f t c c' r cur' :
  (stopped c -> stopped c') -> post cur f t r cur' -> answers cur f t c (Some (r, cur', c')).
Proof. intros H1 H2. exists r, cur', c'. auto. Qed.

Lemma answers_ask cur f t c c' a : (stopped c -> stopped c') -> answers cur f t c' a -> answers cur f t c a.
Proof. intros H (r & cur' & c2 & -> & Hm & Hr). exists r, cur', c2. auto. Qed.

(** A floor between two, from floors no document tells apart. *)
Lemma floor_between (P : u32 -> Prop) fd f t fd' :
  same_from P fd f -> (fd <= fd' <= N.max t fd)%N ->
  exists f', (f <= f' <= N.max t f)%N /\ same_from P fd' f'.
Proof.
  intros Hs Hb. exists (N.min (N.max fd' f) (N.max t f)). split; [lia|].
  intros m Hm. specialize (Hs m Hm). lia.
Qed.

(** An answer from where an earlier round of the same call has led: a cursor
    alike, and a target that skips no document. *)
Lemma answers_from cur f t c cur1 t1 c1 a :
  alike cur cur1 -> same_from (yields cur) (N.max t1 (N.max t f)) (N.max t f) -> (stopped c -> stopped c1) ->
  answers cur1 (N.max t f) t1 c1 a -> answers cur f t c a.
Proof.
  intros Hal Hs Hm (r & cur' & c' & -> & Hm' & Hr). exists r, cur', c'. split; [done|]. split; [auto|].
  destruct Hr as [Hr|(Hf & Hd & Hal' & f' & Hmv & Hok)]; [by left|]. right.
  assert (Hiff : forall d, yields cur1 d <-> yields cur d) by (intros d; by apply alike_yields).
  assert (Hf' : first_from (yields cur) (N.max t f) (fst <$> r)).
  { eapply first_from_skip; [exact Hs|]. by eapply first_from_ext; [symmetry; apply Hiff|]. }
  split; [done|]. split; [|split; [by eapply alike_trans|]].
  - intros d k Hk. destruct Hal as [<- _]. by apply Hd.
  - exists (N.max t f). split; [destruct r; simpl; [done|lia]|]. eapply ok_skip; [|exact Hok]. intros d Hy.
    rewrite (alike_yields cur1 cur' d Hal'), Hiff in Hy. destruct r as [h|]; simpl in Hmv.
    + subst f'. by apply Hs.
    + specialize (Hf' d Hy). lia.
Qed.

(** What the children of a leapfrog say of the driver's document. *)
Definition followed (P : u32 -> Prop) (g doc : u32) (k : Certainty) (rest : list Cursor) (res : Follow)
    : Prop :=
  match res with
  | Landed k' => kand (Some k) (fold_right kand (Some CYes) ((fun c => den c doc) <$> rest)) = Some k'
  | Overshot o => (doc < o < 2 ^ 32)%N /\ forall m, P m -> (g <= m -> o <= m)%N
  | Ended => forall m, P m -> (m < g)%N
  end.

Lemma kand_assoc a b c : kand (kand a b) c = kand a (kand b c).
Proof. by destruct a as [[]|], b as [[]|], c as [[]|]. Qed.

(** Stopped, the children of a leapfrog answer at once too. *)
Lemma follow_stopped adv h rest doc k c :
  adv_ok adv h -> stopped c ->
  exists res rest' c', follow ck adv rest doc k c = Some (res, rest', c') /\ stopped c'.
Proof.
  intros Hadv Hst. destruct rest as [|x rest]; [by eauto|]. cbn [follow].
  destruct (adv_stopped adv h Hadv x doc c Hst) as (c' & -> & Hc'). cbn [mbind option_bind]. eauto.
Qed.

Lemma follow_spec adv h (P : u32 -> Prop) g rest doc k c :
  adv_ok adv h -> Forall (fun x => height x <= h) rest -> follows P g rest ->
  (forall x m, x ∈ rest -> P m -> yields x m) ->
  (forall m, P m -> (g <= m -> doc <= m)%N) ->
  exists res rest' c', follow ck adv rest doc k c = Some (res, rest', c') /\
    (stopped c -> stopped c') /\
    (stopped c' \/ (Forall2 alike rest rest' /\ follows P g rest' /\ followed P g doc k rest res)).
Proof.
  intros Hadv Hh Hok HP Hdoc. revert k c. induction Hok as [|x rest (fi & Hx & Hfi) Hok IH]; intros k c.
  { exists (Landed k), [], c. split; [done|]. split; [done|]. right. split; [constructor|]. split; [constructor|].
    by destruct k. }
  inversion_clear Hh as [|? ? Hxh Hh']. cbn [follow].
  destruct (adv_answers adv h Hadv x fi doc c Hxh Hx) as (r & x' & c1 & -> & Hmono & Hr). cbn [mbind option_bind].
  assert (HPx : forall m, P m -> yields x m) by (intros m; apply HP; by left).
  assert (HPrest : forall y m, y ∈ rest -> P m -> yields y m) by (intros y m Hy; apply HP; by right).
  specialize (IH Hh' HPrest). destruct Hr as [Hstop|(Hfirst & Hden & Hal & f' & Hmv & Hok')].
  { destruct r as [[o ok_]|]; [destruct (doc <? o)%N|].
    - eexists _, _, _. split; [reflexivity|]. auto.
    - destruct (follow_stopped adv h rest doc (cmin k ok_) c1 Hadv Hstop) as (res & rest' & c2 & Hq & Hst2).
      rewrite Hq. eexists _, _, _. split; [reflexivity|]. auto.
    - eexists _, _, _. split; [reflexivity|]. auto. }
  assert (Hge : forall m, P m -> (g <= m -> N.max doc fi <= m)%N).
  { intros m Hm Hg. specialize (Hdoc m Hm Hg). specialize (Hfi m Hm Hg). lia. }
  assert (Hfi' : forall m, P m -> (g <= m -> f' <= m)%N).
  { intros m Hm Hg. specialize (Hge m Hm Hg). destruct r; simpl in Hmv; lia. }
  assert (Hkeep : follows P g (x' :: rest)) by (constructor; [by exists f'|done]).
  assert (Halike : Forall2 alike (x :: rest) (x' :: rest)).
  { constructor; [done|]. by eapply follows_alike. }
  destruct r as [[o ok_]|]; simpl in Hfirst; [|].
  - destruct Hfirst as (Ho & Hle & Hmin). specialize (Hden o ok_ eq_refl).
    destruct (N.ltb_spec doc o) as [Hlt|Hge'].
    + eexists _, _, _. split; [reflexivity|]. split; [done|]. right. split; [done|]. split; [done|].
      split; [split; [done|by apply (den_u32 x fi o ok_)]|]. intros m Hm Hg. apply Hmin; [by apply HPx|by apply Hge].
    + assert (o = doc) as -> by lia.
      destruct (IH (cmin k ok_) c1) as (res & rest' & c2 & Hq & Hm & Hres). rewrite Hq.
      eexists _, _, _. split; [reflexivity|]. split; [auto|]. destruct Hres as [Hres|(Hal2 & Hok2 & Hres)]; [by left|].
      right. split; [by constructor|]. split; [constructor; [by exists f'|done]|].
      destruct res; try exact Hres. unfold followed in *. rewrite fmap_cons. cbn [fold_right].
      rewrite Hden, <- kand_assoc. exact Hres.
  - eexists _, _, _. split; [reflexivity|]. split; [done|]. right. split; [done|]. split; [done|].
    simpl. intros m Hm. apply N.nle_gt. intros Hg. specialize (Hge m Hm Hg).
    specialize (Hfirst m (HPx m Hm)). lia.
Qed.

Lemma den_and_Some driver rest d :
  yields (CAnd (driver :: rest)) d -> yields driver d /\ forall x, x ∈ rest -> yields x d.
Proof.
  unfold yields. rewrite den_and. destruct (den driver d) as [k|]; [|done]. simpl. intros H. split; [done|].
  destruct (fold_right kand (Some CYes) ((fun c => den c d) <$> rest)) as [k'|] eqn:Hr; [|done]. clear H.
  revert k' Hr. induction rest as [|y rest IH]; intros k' Hr x Hx; [by apply not_elem_of_nil in Hx|].
  rewrite fmap_cons in Hr. cbn [fold_right] in Hr. destruct (den y d) as [ky|] eqn:Hy; [|done].
  destruct (fold_right kand (Some CYes) _) as [k2|] eqn:Hf; [|done].
  apply elem_of_cons in Hx as [->|Hx]; [by rewrite Hy|]. by eapply IH.
Qed.

(** The cursor after a round of a leapfrog, from the children after it. *)
Lemma and_after driver rest driver' rest' fd f :
  let P := yields (CAnd (driver :: rest)) in
  alike driver driver' -> Forall2 alike rest rest' -> ok driver' fd -> same_from P fd f ->
  follows P f rest' ->
  alike (CAnd (driver :: rest)) (CAnd (driver' :: rest')) /\ ok (CAnd (driver' :: rest')) f.
Proof.
  intros P Hal Hals Hok Hs Hfol. assert (Ha : alike (CAnd (driver :: rest)) (CAnd (driver' :: rest')))
    by (apply alike_and; by constructor).
  split; [done|]. apply ok_and. split.
  - exists fd. split; [done|]. eapply same_from_weaken; [|exact Hs].
    intros d. apply (alike_yields _ _ d Ha).
  - eapply Forall_impl; [exact Hfol|]. intros x (fi & Hx & Hfi). exists fi. split; [done|].
    intros d Hd. apply Hfi. by apply (alike_yields _ _ d Ha).
Qed.

Lemma follows_later P f g cs : (f <= g)%N -> follows P f cs -> follows P g cs.
Proof.
  intros Hle H. eapply Forall_impl; [exact H|]. intros x (fi & Hx & Hfi). exists fi. split; [done|].
  intros d Hd Hg. apply Hfi; [done|]. lia.
Qed.

Lemma alike_heights h cs cs' :
  Forall2 alike cs cs' -> Forall (fun x => height x <= h) cs -> Forall (fun x => height x <= h) cs'.
Proof.
  induction 1 as [|x y cs cs' [_ Hxy] _ IH]; [done|]. inversion_clear 1. constructor; [by rewrite Hxy|auto].
Qed.

Lemma leapfrog_stopped adv fuel driver rest t c cur f t0 c0 :
  0 < fuel -> stopped c -> answers cur f t0 c0 (leapfrog ck adv fuel driver rest t c).
Proof.
  intros Hf Hst. destruct fuel as [|fuel]; [lia|]. cbn [leapfrog].
  destruct (ck_ask ck c) as [stop c'] eqn:Hask. rewrite (sticky _ _ _ Hask Hst).
  apply answers_stop. eapply stopped_ask; [exact Hask|auto].
Qed.

(** The loop of a leapfrog ends, as each round's target is larger. *)
Lemma leapfrog_spec adv h fuel driver rest f t c :
  adv_ok adv h -> Forall (fun x => height x <= h) (driver :: rest) ->
  ok (CAnd (driver :: rest)) f -> N.to_nat (2 ^ 32 - t) + 1 < fuel ->
  answers (CAnd (driver :: rest)) f t c (leapfrog ck adv fuel driver rest t c).
Proof.
  intros Hadv. revert driver rest f t c. induction fuel as [|fuel IH]; intros driver rest f t c Hh Hok Hfuel; [lia|].
  cbn [leapfrog]. destruct (ck_ask ck c) as [stop c1] eqn:Hask. pose proof (stopped_ask _ _ _ Hask) as Hst.
  destruct stop; [apply answers_stop; auto|]. pose proof Hok as Hok0.
  set (P := yields (CAnd (driver :: rest))). apply ok_and in Hok as [(fd & Hd & Hsd) Hrest]. fold P in Hsd, Hrest.
  inversion_clear Hh as [|? ? Hdh Hrh].
  destruct (adv_answers adv h Hadv driver fd t c1 Hdh Hd) as (r & driver' & c2 & -> & Hmono & Hr).
  cbn [mbind option_bind].
  assert (HPd : forall m, P m -> yields driver m) by (intros m Hm; by apply den_and_Some in Hm as [? _]).
  assert (HPr : forall x m, x ∈ rest -> P m -> yields x m)
    by (intros x m Hx Hm; apply den_and_Some in Hm as [_ H]; by apply H).
  destruct Hr as [Hstop|(Hfirst & Hden & Hal & fd' & Hmv & Hok')].
  { destruct r as [[doc k]|]; [|apply answers_stop; auto].
    destruct (follow_stopped adv h rest doc k c2 Hadv Hstop) as (res & rest' & c3 & Hq & Hst3). rewrite Hq.
    destruct res; [by apply answers_stop| |by apply answers_stop]. apply leapfrog_stopped; [lia|done]. }
  assert (Hfol : follows P (N.max t f) rest) by (eapply follows_later; [|exact Hrest]; lia).
  assert (Hsm : same_from P (N.max t fd) (N.max t f)) by (by apply same_from_max).
  destruct r as [[doc k]|]; simpl in Hfirst.
  2:{ destruct (floor_between P fd f t fd' Hsd Hmv) as (f' & Hf' & Hs').
      assert (Hfol' : follows P f' rest) by (eapply follows_later; [|exact Hrest]; lia).
      destruct (and_after driver rest driver' rest fd' f' Hal (follows_alike _ _ _ Hfol) Hok' Hs' Hfol') as [? ?].
      apply answers_right; [auto|]. split; [|split; [done|split; [done|by exists f']]].
      intros e He. specialize (Hfirst e (HPd e He)). specialize (Hsm e He). lia. }
  simpl in Hmv. subst fd'.
  destruct Hfirst as (_ & Hle & Hmin). specialize (Hden doc k eq_refl).
  assert (Hdoc : forall m, P m -> (N.max t f <= m -> doc <= m)%N).
  { intros m Hm Hg. apply Hmin; [by apply HPd|]. by apply (Hsm m Hm). }
  destruct (follow_spec adv h P (N.max t f) rest doc k c2 Hadv Hrh Hfol HPr Hdoc)
    as (res & rest' & c3 & -> & Hmono' & Hres). cbn [mbind option_bind].
  destruct Hres as [Hst3|(Hals & Hfol' & Hres)].
  { destruct res; [by apply answers_stop| |by apply answers_stop]. apply leapfrog_stopped; [lia|done]. }
  destruct (and_after driver rest driver' rest' _ _ Hal Hals Hok' Hsm Hfol') as [Hal2 Hok2].
  destruct res as [k'|o|]; simpl in Hres.
  - apply answers_right; [auto|]. assert (Hyd : den (CAnd (driver :: rest)) doc = Some k')
      by (rewrite den_and, Hden; exact Hres).
    assert (HPdoc : P doc) by (unfold P, yields; by rewrite Hyd).
    split; [split; [done|]; split; [by apply (Hsm doc HPdoc)|done]|]. split; [by intros d k0 [= <- <-]|]. split; [done|].
    by exists (N.max t f).
  - destruct Hres as [[Hlo Ho] Hskip].
    eapply (answers_from _ f t c _ o c3 _ Hal2); [|by auto|].
    + intros m Hm. specialize (Hskip m Hm). lia.
    + apply IH; [|exact Hok2|lia].
      by apply (alike_heights h (driver :: rest)); constructor.
  - apply answers_right; [auto|]. split; [exact Hres|]. split; [done|]. split; [done|].
    exists (N.max t f). split; [simpl; lia|done].
Qed.

(** A probe asked at or past its floor says what its cursor stands for. *)
Lemma test_with_spec adv h probe fp doc c :
  adv_ok adv h -> height probe <= h -> ok probe fp -> (fp <= doc)%N ->
  exists res probe' c', test_with ck adv probe doc c = Some (res, probe', c') /\ (stopped c -> stopped c') /\
    (stopped c' \/ (res = den probe doc /\ alike probe probe' /\ exists fp', (fp' <= doc)%N /\ ok probe' fp')).
Proof.
  intros Hadv Hh Hok Hle. unfold test_with.
  destruct (adv_answers adv h Hadv probe fp doc c Hh Hok) as (r & probe' & c' & -> & Hm & Hr).
  cbn [mbind option_bind]. eexists _, _, _. split; [reflexivity|]. split; [done|].
  destruct Hr as [Hr|(Hfirst & Hden & Hal & fp' & Hmv & Hok')]; [by left|]. right.
  replace (N.max doc fp) with doc in * by lia.
  split; [|split; [done|]; exists fp'; split; [destruct r; simpl in Hmv; lia|done]]. destruct r as [[found k]|]; simpl in Hfirst.
  - destruct Hfirst as (_ & Hge & Hmin). destruct (N.eqb_spec found doc) as [->|Hne]; [by rewrite (Hden doc k)|].
    destruct (den probe doc) as [k'|] eqn:Hk; [|done]. exfalso. apply Hne.
    specialize (Hmin doc). unfold yields in Hmin. rewrite Hk in Hmin. specialize (Hmin ltac:(done)). lia.
  - destruct (den probe doc) as [k'|] eqn:Hk; [|done]. specialize (Hfirst doc). unfold yields in Hfirst.
    rewrite Hk in Hfirst. specialize (Hfirst ltac:(done)). lia.
Qed.

(** One round of the [AndNot] and [Filter] loops, for documents [P] the
    driver yields. *)
Record round (P : u32 -> Prop) (driver probe : Cursor) (fd f t : u32) (doc : u32) (k : Certainty)
    (res : option Certainty) (driver' probe' : Cursor) : Prop := {
  round_driver : alike driver driver' /\ ok driver' (N.max t fd);
  round_probe : alike probe probe' /\ exists fp', (fp' <= doc)%N /\ ok probe' fp';
  round_same : same_from P (N.max t fd) (N.max t f);
  round_doc : (t <= doc < 2 ^ 32)%N /\ (N.max t fd <= doc)%N;
  round_den : den driver doc = Some k /\ res = den probe doc;
  round_min : forall m, P m -> (N.max t f <= m -> doc <= m)%N;
  round_least : forall d, yields driver d -> (N.max t fd <= d -> doc <= d)%N
}.

Lemma round_spec adv h (P : u32 -> Prop) driver probe fd fp f t c :
  adv_ok adv h -> height driver <= h -> height probe <= h -> ok driver fd -> ok probe fp -> same_from P fd f ->
  (forall d, yields driver d -> fd <= d -> fp <= d)%N -> (forall m, P m -> yields driver m) ->
  exists r driver' c1, adv driver t c = Some (r, driver', c1) /\ (stopped c -> stopped c1) /\
    match r with
    | None => stopped c1 \/ (alike driver driver' /\ first_from P (N.max t f) None /\
                exists fd' f', ok driver' fd' /\ (fd <= fd')%N /\ moves f t None f' /\ same_from P fd' f')
    | Some (doc, k) =>
        exists res probe' c2, test_with ck adv probe doc c1 = Some (res, probe', c2) /\
          (stopped c -> stopped c2) /\
          (stopped c2 \/ round P driver probe fd f t doc k res driver' probe')
    end.
Proof.
  intros Hadv Hhd Hhp Hd Hp Hs Hle HP.
  destruct (adv_answers adv h Hadv driver fd t c Hhd Hd) as (r & driver' & c1 & -> & Hm & Hr).
  assert (Hsm : same_from P (N.max t fd) (N.max t f)) by (by apply same_from_max).
  exists r, driver', c1. split; [done|]. split; [done|]. destruct r as [[doc k]|].
  - destruct Hr as [Hst|((Hy & Hge & Hmin) & Hden & Hal & fd' & -> & Hok)].
    { unfold test_with. destruct (adv_stopped adv h Hadv probe doc c1 Hst) as (c2 & -> & Hst2).
      eexists _, _, _. split; [reflexivity|]. auto. }
    destruct (test_with_spec adv h probe fp doc c1 Hadv Hhp Hp) as (res & probe' & c2 & -> & Hm2 & Hres).
    { apply Hle; [done|]. simpl in Hge. lia. }
    eexists _, _, _. split; [reflexivity|]. split; [auto|]. destruct Hres as [Hres|(-> & Hal2 & Hok2)]; [by left|].
    right. specialize (Hden doc k eq_refl). simpl in Hy, Hge, Hmin. split; try done.
    + split; [|done]. split; [lia|]. by apply (den_u32 driver fd doc k).
    + intros m HPm Hg. apply Hmin; [by apply HP|]. by apply (Hsm m HPm).
  - destruct Hr as [Hst|(Hfirst & _ & Hal & fd' & Hmv & Hok)]; [by left|]. right. split; [done|]. split.
    + intros e He. specialize (Hfirst e (HP e He)). specialize (Hsm e He). lia.
    + destruct (floor_between P fd f t fd' Hs Hmv) as (f' & Hf' & Hs'). exists fd', f'. split; [done|].
      split; [apply Hmv|]. by split.
Qed.

(** A round that does not answer moves on to the next document. *)
Lemma round_next P driver probe fd f t doc k res driver' probe' :
  (forall m, P m -> (m < 2 ^ 32)%N) -> ~ P doc ->
  round P driver probe fd f t doc k res driver' probe' ->
  match next_u32 doc with
  | None => first_from P (N.max t f) None
  | Some t' => (t < t' < 2 ^ 32)%N /\ same_from P (N.max t' (N.max t f)) (N.max t f)
  end.
Proof.
  intros Hu HP R. pose proof (round_min _ _ _ _ _ _ _ _ _ _ _ R) as Hmin.
  pose proof (round_doc _ _ _ _ _ _ _ _ _ _ _ R) as [Hd _].
  assert (Hlt : forall m, P m -> (N.max t f <= m)%N -> (doc < m)%N).
  { intros m Hm Hg. specialize (Hmin m Hm Hg). assert (m <> doc) by (intros ->; done). lia. }
  unfold next_u32. destruct (N.ltb_spec (doc + 1) (2 ^ 32)).
  - split; [lia|]. intros m Hm. specialize (Hlt m Hm). lia.
  - intros m Hm. specialize (Hu m Hm). specialize (Hlt m Hm). lia.
Qed.

(** A round that answers. *)
Lemma round_answer P driver probe fd f t doc k res driver' probe' :
  P doc -> round P driver probe fd f t doc k res driver' probe' ->
  first_from P (N.max t f) (Some doc).
Proof.
  intros HP R. split; [done|]. split; [|exact (round_min _ _ _ _ _ _ _ _ _ _ _ R)].
  apply (round_same _ _ _ _ _ _ _ _ _ _ _ R doc HP). apply (round_doc _ _ _ _ _ _ _ _ _ _ _ R).
Qed.

Lemma and_not_stopped adv fuel a b t c cur f t0 c0 :
  0 < fuel -> stopped c -> answers cur f t0 c0 (and_not_loop ck adv fuel a b t c).
Proof.
  intros Hf Hst. destruct fuel as [|fuel]; [lia|]. cbn [and_not_loop].
  destruct (ck_ask ck c) as [stop c'] eqn:Hask. rewrite (sticky _ _ _ Hask Hst).
  apply answers_stop. eapply stopped_ask; [exact Hask|auto].
Qed.

Lemma filter_stopped adv fuel a b t c cur f t0 c0 :
  0 < fuel -> stopped c -> answers cur f t0 c0 (filter_loop ck adv fuel a b t c).
Proof.
  intros Hf Hst. destruct fuel as [|fuel]; [lia|]. cbn [filter_loop].
  destruct (ck_ask ck c) as [stop c'] eqn:Hask. rewrite (sticky _ _ _ Hask Hst).
  apply answers_stop. eapply stopped_ask; [exact Hask|auto].
Qed.

Lemma alike_and_not a b a' b' : alike a a' -> alike b b' -> alike (CAndNot a b) (CAndNot a' b').
Proof. intros [H1 H2] [H3 H4]. split; [|simpl; by rewrite H2, H4]. intros d. simpl. by rewrite H1, H3. Qed.
Lemma alike_filter a b a' b' : alike a a' -> alike b b' -> alike (CFilter a b) (CFilter a' b').
Proof. intros [H1 H2] [H3 H4]. split; [|simpl; by rewrite H2, H4]. intros d. simpl. by rewrite H1, H3. Qed.

(** The cursor an [AndNot] is after a round. *)
Lemma and_not_after a b fd f t doc k res a' b' (P := yields (CAndNot a b)) :
  round P a b fd f t doc k res a' b' ->
  alike (CAndNot a b) (CAndNot a' b') /\ ok (CAndNot a' b') (N.max t f).
Proof.
  intros R. destruct (round_driver _ _ _ _ _ _ _ _ _ _ _ R) as [Ha Hoa].
  destruct (round_probe _ _ _ _ _ _ _ _ _ _ _ R) as [Hb (fp' & Hfp' & Hob)].
  pose proof (alike_and_not a b a' b' Ha Hb) as Hal. split; [done|].
  exists (N.max t fd), fp'. split_and!; [done|done| |].
  - eapply same_from_weaken; [|exact (round_same _ _ _ _ _ _ _ _ _ _ _ R)]. intros d. apply (alike_yields _ _ d Hal).
  - intros d Hd Hg. apply (alike_yields _ _ d Ha) in Hd.
    pose proof (round_least _ _ _ _ _ _ _ _ _ _ _ R d Hd Hg). lia.
Qed.

Lemma filter_after a b fd f t doc k res a' b' (P := yields (CFilter a b)) :
  round P a b fd f t doc k res a' b' ->
  alike (CFilter a b) (CFilter a' b') /\ ok (CFilter a' b') (N.max t f).
Proof.
  intros R. destruct (round_driver _ _ _ _ _ _ _ _ _ _ _ R) as [Ha Hoa].
  destruct (round_probe _ _ _ _ _ _ _ _ _ _ _ R) as [Hb (fp' & Hfp' & Hob)].
  pose proof (alike_filter a b a' b' Ha Hb) as Hal. split; [done|].
  exists (N.max t fd), fp'. split_and!; [done|done| |].
  - eapply same_from_weaken; [|exact (round_same _ _ _ _ _ _ _ _ _ _ _ R)]. intros d. apply (alike_yields _ _ d Hal).
  - intros d Hd Hg. apply (alike_yields _ _ d Ha) in Hd.
    pose proof (round_least _ _ _ _ _ _ _ _ _ _ _ R d Hd Hg). lia.
Qed.

Lemma and_not_yields a b m : yields (CAndNot a b) m -> yields a m.
Proof. unfold yields. simpl. by destruct (den a m). Qed.
Lemma filter_yields a b m : yields (CFilter a b) m -> yields a m.
Proof. unfold yields. simpl. by destruct (den a m). Qed.

Lemma yields_u32 cur f m : ok cur f -> yields cur m -> (m < 2 ^ 32)%N.
Proof. unfold yields. intros Hok. destruct (den cur m) as [k|] eqn:Hk; [|done]. intros _. by eapply den_u32. Qed.

(** A round that answers with the cursor's document. *)
Lemma post_round cur cur' driver probe fd f t doc k k' res driver' probe' :
  round (yields cur) driver probe fd f t doc k res driver' probe' -> den cur doc = Some k' ->
  alike cur cur' /\ ok cur' (N.max t f) -> post cur f t (Some (doc, k')) cur'.
Proof.
  intros R Hd H. destruct H as [Hal Hok].
  split; [|split; [by intros d k0 [= <- <-]|split; [done|by exists (N.max t f)]]].
  assert (Hy : yields cur doc) by (unfold yields; by rewrite Hd). exact (round_answer _ _ _ _ _ _ _ _ _ _ _ Hy R).
Qed.

(** The loops of [AndNot] and [Filter] end, as each round's target is larger. *)
Lemma and_not_spec adv h fuel a b f t c :
  adv_ok adv h -> height a <= h -> height b <= h ->
  ok (CAndNot a b) f -> N.to_nat (2 ^ 32 - t) + 1 < fuel ->
  answers (CAndNot a b) f t c (and_not_loop ck adv fuel a b t c).
Proof.
  intros Hadv. revert a b f t c. induction fuel as [|fuel IH]; intros a b f t c Ha Hb Hok Hfuel; [lia|].
  cbn [and_not_loop]. destruct (ck_ask ck c) as [stop c1] eqn:Hask. pose proof (stopped_ask _ _ _ Hask) as Hst.
  destruct stop; [apply answers_stop; auto|].
  pose proof (fun m => yields_u32 _ f m Hok) as Hu. destruct Hok as (fd & fp & Hoa & Hob & Hs & Hle).
  destruct (round_spec adv h (yields (CAndNot a b)) a b fd fp f t c1 Hadv Ha Hb Hoa Hob Hs Hle (and_not_yields a b))
    as (r & a' & c2 & -> & Hm & Hr). cbn [mbind option_bind].
  destruct r as [[doc k]|].
  2:{ destruct Hr as [Hr|(Hal & Hn & fd' & f' & Hoa' & Hfd' & Hmv & Hs')]; [by apply answers_stop|].
      pose proof (alike_and_not a b a' b Hal (alike_refl b)) as Hal'. apply answers_right; [auto|].
      split; [done|]. split; [done|]. split; [done|]. exists f'. split; [done|].
      exists fd', fp. split_and!; [done|done| |].
      - eapply same_from_weaken; [|exact Hs']. intros d. apply (alike_yields _ _ d Hal').
      - intros d Hd Hg. apply Hle; [by apply (alike_yields _ _ d Hal)|lia]. }
  destruct Hr as (res & b' & c3 & -> & Hm3 & [Hst3|R]); cbn [mbind option_bind].
  { destruct res as [[]|]; [by apply answers_stop| |by apply answers_stop].
    destruct (next_u32 doc); [apply and_not_stopped; [lia|done]|by apply answers_stop]. }
  destruct (and_not_after a b fd f t doc k res a' b' R) as [Hal Hok'].
  destruct (round_den _ _ _ _ _ _ _ _ _ _ _ R) as [Hka ->].
  assert (Hyield : forall k', kandnot (Some k) (den b doc) = Some k' ->
    answers (CAndNot a b) f t c (Some (Some (doc, k'), CAndNot a' b', c3))).
  { intros k' Hk'. apply answers_right; [auto|]. eapply post_round; [exact R|simpl; by rewrite Hka|done]. }
  destruct (den b doc) as [[]|] eqn:Hkb; [by apply Hyield| |by apply Hyield].
  assert (HnP : ~ yields (CAndNot a b) doc) by (unfold yields; simpl; rewrite Hka, Hkb; by intros []).
  pose proof (round_next _ _ _ _ _ _ _ _ _ _ _ Hu HnP R) as Hnext.
  destruct (next_u32 doc) as [t'|].
  - destruct Hnext as [Ht' Hsame]. eapply (answers_from _ f t c _ t' c3 _ Hal); [done|by auto|].
    destruct (round_driver _ _ _ _ _ _ _ _ _ _ _ R) as [[_ Hha] _].
    destruct (round_probe _ _ _ _ _ _ _ _ _ _ _ R) as [[_ Hhb] _].
    apply IH; [by rewrite Hha|by rewrite Hhb|exact Hok'|lia].
  - apply answers_right; [auto|]. split; [exact Hnext|]. split; [done|]. split; [done|].
    exists (N.max t f). split; [simpl; lia|done].
Qed.

Lemma filter_spec adv h fuel a b f t c :
  adv_ok adv h -> height a <= h -> height b <= h ->
  ok (CFilter a b) f -> N.to_nat (2 ^ 32 - t) + 1 < fuel ->
  answers (CFilter a b) f t c (filter_loop ck adv fuel a b t c).
Proof.
  intros Hadv. revert a b f t c. induction fuel as [|fuel IH]; intros a b f t c Ha Hb Hok Hfuel; [lia|].
  cbn [filter_loop]. destruct (ck_ask ck c) as [stop c1] eqn:Hask. pose proof (stopped_ask _ _ _ Hask) as Hst.
  destruct stop; [apply answers_stop; auto|].
  pose proof (fun m => yields_u32 _ f m Hok) as Hu. destruct Hok as (fd & fp & Hoa & Hob & Hs & Hle).
  destruct (round_spec adv h (yields (CFilter a b)) a b fd fp f t c1 Hadv Ha Hb Hoa Hob Hs Hle (filter_yields a b))
    as (r & a' & c2 & -> & Hm & Hr). cbn [mbind option_bind].
  destruct r as [[doc k]|].
  2:{ destruct Hr as [Hr|(Hal & Hn & fd' & f' & Hoa' & Hfd' & Hmv & Hs')]; [by apply answers_stop|].
      pose proof (alike_filter a b a' b Hal (alike_refl b)) as Hal'. apply answers_right; [auto|].
      split; [done|]. split; [done|]. split; [done|]. exists f'. split; [done|].
      exists fd', fp. split_and!; [done|done| |].
      - eapply same_from_weaken; [|exact Hs']. intros d. apply (alike_yields _ _ d Hal').
      - intros d Hd Hg. apply Hle; [by apply (alike_yields _ _ d Hal)|lia]. }
  destruct Hr as (res & b' & c3 & -> & Hm3 & [Hst3|R]); cbn [mbind option_bind].
  { destruct res as [k'|]; [by apply answers_stop|].
    destruct (next_u32 doc); [apply filter_stopped; [lia|done]|by apply answers_stop]. }
  destruct (filter_after a b fd f t doc k res a' b' R) as [Hal Hok'].
  destruct (round_den _ _ _ _ _ _ _ _ _ _ _ R) as [Hka ->].
  destruct (den b doc) as [kb|] eqn:Hkb.
  { apply answers_right; [auto|]. eapply post_round; [exact R|simpl; by rewrite Hka, Hkb|done]. }
  assert (HnP : ~ yields (CFilter a b) doc) by (unfold yields; simpl; rewrite Hka, Hkb; by intros []).
  pose proof (round_next _ _ _ _ _ _ _ _ _ _ _ Hu HnP R) as Hnext.
  destruct (next_u32 doc) as [t'|].
  - destruct Hnext as [Ht' Hsame]. eapply (answers_from _ f t c _ t' c3 _ Hal); [done|by auto|].
    destruct (round_driver _ _ _ _ _ _ _ _ _ _ _ R) as [[_ Hha] _].
    destruct (round_probe _ _ _ _ _ _ _ _ _ _ _ R) as [[_ Hhb] _].
    apply IH; [by rewrite Hha|by rewrite Hhb|exact Hok'|lia].
  - apply answers_right; [auto|]. split; [exact Hnext|]. split; [done|]. split; [done|].
    exists (N.max t f). split; [simpl; lia|done].
Qed.

(** The head of a child that has been asked from [g]. *)
Definition head_now (D : u32 -> option Certainty) (g : u32) (h : Head) : Prop :=
  match h with
  | Fresh => False
  | At doc k => D doc = Some k /\ first_from (fun d => D d <> None) g (Some doc)
  | Exhausted => first_from (fun d => D d <> None) g None
  end.

(** A child asked again: its head stands for it from the new floor on. *)
Lemma head_asked x fi f t h r x' :
  head_ok (den x) fi f h -> behind h t = true -> post x fi t r x' ->
  head_now (den x) (N.max t f) (head_of r) /\
  exists fi', ok x' fi' /\ head_ok (den x) fi' (N.max t f) (head_of r).
Proof.
  intros Hh Hb (Hfirst & Hden & _ & fi' & Hmv & Hok).
  assert (Hs : same_from (yields x) (N.max t fi) (N.max t f)).
  { destruct h as [|doc k|]; simpl in *; [by apply same_from_max| |done]. apply N.ltb_lt in Hb.
    destruct Hh as (_ & Hs & Hfi). intros d Hd. specialize (Hs d Hd). specialize (Hfi d Hd). lia. }
  assert (Hfirst' : first_from (yields x) (N.max t f) (fst <$> r)) by (by apply (first_from_skip _ (N.max t fi))).
  destruct r as [[doc k]|]; [|split; [done|by exists fi']]. simpl in Hfirst, Hfirst', Hmv. subst fi'.
  specialize (Hden doc k eq_refl). split; [by split|]. exists (N.max t fi). split; [done|]. split; [done|].
  split; intros d Hd; [|lia]. destruct Hfirst' as (_ & Hge & Hmin). specialize (Hmin d Hd). lia.
Qed.

(** A child not asked: its head still stands for it. *)
Lemma head_kept (D : u32 -> option Certainty) fi f t h :
  head_ok D fi f h -> behind h t = false ->
  head_now D (N.max t f) h /\ head_ok D fi (N.max t f) h.
Proof.
  destruct h as [|doc k|]; simpl; [done| |].
  - intros (Hd & Hs & Hfi) Hb%N.ltb_ge. assert (Hy : D doc <> None) by (by rewrite Hd).
    pose proof (Hs doc Hy) as Hf. split.
    + split; [done|]. split; [done|]. split; [lia|]. intros e He Hge. apply (Hs e He). lia.
    + split; [done|]. split; [|done]. intros d HD. specialize (Hs d HD). lia.
  - intros Hn _. split; intros d Hd; specialize (Hn d Hd); lia.
Qed.

(** The first document of [D] from [g] on, with its certainty. *)
Definition first_hit (D : u32 -> option Certainty) (g : u32) (best : option hit) : Prop :=
  match best with
  | Some (d, k) => D d = Some k /\ (g <= d)%N /\ forall e, (g <= e < d)%N -> D e = None
  | None => forall e, (g <= e)%N -> D e = None
  end.

Lemma not_yields (D : u32 -> option Certainty) (P : u32 -> Prop) :
  (forall e, D e <> None -> ~ P e) <-> forall e, P e -> D e = None.
Proof.
  split; intros H e.
  - intros He. destruct (D e) eqn:Hd; [|done]. exfalso. by apply (H e); [rewrite Hd|].
  - intros Hd He. by apply Hd, H.
Qed.

Lemma first_hit_from D g best :
  first_hit D g best <->
  first_from (fun d => D d <> None) g (fst <$> best) /\ forall d k, best = Some (d, k) -> D d = Some k.
Proof.
  destruct best as [[d k]|]; simpl.
  - rewrite <- (not_yields D (fun e => g <= e < d)%N). split.
    + intros (Hd & Hg & Hn). split; [|by intros ? ? [= <- <-]]. split; [by rewrite Hd|]. split; [done|].
      intros e He Hge. specialize (Hn e He). lia.
    + intros ((Hy & Hg & Hmin) & Hd). split; [by apply Hd|]. split; [done|]. intros e He [H1 H2].
      specialize (Hmin e He H1). lia.
  - rewrite <- (not_yields D (fun e => g <= e)%N). split.
    + intros Hn. split; [|done]. intros e He. specialize (Hn e He). lia.
    + intros [Hn _] e He. specialize (Hn e He). lia.
Qed.

Lemma first_hit_unique D g a b : first_hit D g a -> first_hit D g b -> a = b.
Proof.
  destruct a as [[d k]|], b as [[d' k']|]; simpl; [|intros (H1 & H2 & _) H3; by rewrite H3 in H1
    |intros H3 (H1 & H2 & _); by rewrite H3 in H1|done].
  intros (H1 & H2 & H3) (H4 & H5 & H6). destruct (N.lt_trichotomy d d') as [Hl|[->|Hl]].
  - by rewrite H6 in H1 by lia.
  - by rewrite H1 in H4; injection H4 as ->.
  - by rewrite H3 in H4 by lia.
Qed.

Lemma head_now_hit D g h :
  head_now D g h -> h <> Fresh /\ first_hit D g (match h with At d k => Some (d, k) | _ => None end).
Proof.
  intros H. split; [by intros ->|]. apply first_hit_from. destruct h as [|d k|]; simpl in *; [done| |done].
  destruct H as [Hd H]. split; [done|]. by intros ? ? [= <- <-].
Qed.

Lemma kor_assoc a b c : kor (kor a b) c = kor a (kor b c).
Proof. by destruct a as [[]|], b as [[]|], c as [[]|]. Qed.

(** One more head folds into the best so far. *)
Lemma best_step D1 D2 g best h :
  first_hit D1 g best -> head_now D2 g h -> first_hit (fun d => kor (D1 d) (D2 d)) g (best_head best h).
Proof.
  intros H1 [Hf H2]%head_now_hit. destruct h as [|d2 k2|]; [done| |]; cbn [best_head].
  - destruct H2 as (Hd2 & Hg2 & Hn2). destruct best as [[d1 k1]|]; simpl in H1.
    + destruct H1 as (Hd1 & Hg1 & Hn1). destruct (N.ltb_spec d1 d2); [|destruct (N.eqb_spec d2 d1) as [->|]].
      * split_and!; [rewrite Hd1, Hn2 by lia; done|done|]. intros e He. by rewrite Hn1, Hn2 by lia.
      * split_and!; [by rewrite Hd1, Hd2|done|]. intros e He. by rewrite Hn1, Hn2 by lia.
      * split_and!; [rewrite Hd2, Hn1 by lia; done|done|]. intros e He. by rewrite Hn1, Hn2 by lia.
    + split_and!; [by rewrite Hd2, H1|done|]. intros e He. by rewrite H1, Hn2 by lia.
  - simpl in H2. destruct best as [[d1 k1]|]; simpl in H1 |- *.
    + destruct H1 as (Hd1 & Hg1 & Hn1). split_and!; [by rewrite Hd1, H2|done|]. intros e He. by rewrite Hn1, H2 by lia.
    + intros e He. by rewrite H1, H2.
Qed.

Definition heads_at (f : u32) (cs : list Cursor) (hs : list Head) : Prop :=
  Forall2 (fun x h => exists fi, ok x fi /\ head_ok (den x) fi f h) cs hs.

Lemma head_ok_ext (D D' : u32 -> option Certainty) fi f h : (forall d, D' d = D d) -> head_ok D fi f h -> head_ok D' fi f h.
Proof. intros H. destruct h; simpl; unfold same_from; repeat setoid_rewrite H; done. Qed.

Lemma or_scan_stopped adv cs hs t best c :
  stopped c -> exists r cs' hs' c', or_scan ck adv cs hs t best c = Some (r, cs', hs', c') /\ stopped c'.
Proof.
  intros Hst. destruct cs as [|x cs], hs as [|h hs]; cbn [or_scan];
    try (eexists _, _, _, _; split; [reflexivity|done]).
  destruct (ck_ask ck c) as [stop c'] eqn:Hask. rewrite (sticky _ _ _ Hask Hst).
  eexists _, _, _, _. split; [reflexivity|]. eapply stopped_ask; [exact Hask|auto].
Qed.

(** One child of a scan, asked when its head is behind the target. *)
Definition ask_child (adv : Cursor -> u32 -> ck_state ck -> option (option hit * Cursor * ck_state ck))
    (x : Cursor) (hd : Head) (t : u32) (c : ck_state ck) : option (Cursor * Head * ck_state ck) :=
  if behind hd t then '(r, x, c) ← adv x t c; Some (x, head_of r, c) else Some (x, hd, c).

Lemma ask_child_spec adv h x hd fi f t c :
  adv_ok adv h -> height x <= h -> ok x fi -> head_ok (den x) fi f hd ->
  exists x' hd' c', ask_child adv x hd t c = Some (x', hd', c') /\ (stopped c -> stopped c') /\
    (stopped c' \/ (head_now (den x) (N.max t f) hd' /\ alike x x' /\
                    exists fi', ok x' fi' /\ head_ok (den x') fi' (N.max t f) hd')).
Proof.
  intros Hadv Hh Hx Hhd. unfold ask_child. destruct (behind hd t) eqn:Hb.
  - destruct (adv_answers adv h Hadv x fi t c Hh Hx) as (r & x' & c' & -> & Hm & Hr). cbn [mbind option_bind].
    eexists _, _, _. split; [reflexivity|]. split; [done|]. destruct Hr as [Hr|Hr]; [by left|]. right.
    destruct (head_asked x fi f t hd r x' Hhd Hb Hr) as (Hnow & fi' & Hok & Hhd'). destruct Hr as (_ & _ & Hal & _).
    split; [done|]. split; [done|]. exists fi'. split; [done|]. by apply (head_ok_ext (den x)); [apply Hal|].
  - eexists _, _, _. split; [reflexivity|]. split; [done|]. right.
    destruct (head_kept (den x) fi f t hd Hhd Hb). split; [done|]. split; [apply alike_refl|]. by exists fi.
Qed.

Lemma first_hit_ext D D' g best : (forall d, D d = D' d) -> first_hit D g best -> first_hit D' g best.
Proof. intros H. destruct best as [[d k]|]; simpl; by repeat setoid_rewrite H. Qed.

Lemma or_scan_spec adv h cs hs f t best c D0 :
  adv_ok adv h -> Forall (fun x => height x <= h) cs -> heads_at f cs hs ->
  first_hit D0 (N.max t f) best ->
  exists r cs' hs' c', or_scan ck adv cs hs t best c = Some (r, cs', hs', c') /\ (stopped c -> stopped c') /\
    (stopped c' \/
     (first_hit (fun d => kor (D0 d) (fold_right kor None ((fun x => den x d) <$> cs))) (N.max t f) r /\
      Forall2 alike cs cs' /\ heads_at (N.max t f) cs' hs')).
Proof.
  intros Hadv Hh Hok. revert D0 best c. induction Hok as [|x hd cs hs (fi & Hx & Hhd) Hok IH]; intros D0 best c Hb.
  { cbn [or_scan]. eexists _, _, _, _. split; [reflexivity|]. split; [done|]. right. split; [|by split; constructor].
    eapply first_hit_ext; [|exact Hb]. intros d. simpl. by destruct (D0 d). }
  inversion_clear Hh as [|? ? Hxh Hh']. specialize (IH Hh'). cbn [or_scan].
  destruct (ck_ask ck c) as [stop c1] eqn:Hask. pose proof (stopped_ask _ _ _ Hask) as Hst.
  destruct stop; [eexists _, _, _, _; split; [reflexivity|]; auto|].
  destruct (ask_child_spec adv h x hd fi f t c1 Hadv Hxh Hx Hhd) as (x' & hd' & c2 & Heq & Hm & Hr).
  unfold ask_child in Heq. rewrite Heq. cbn [mbind option_bind].
  destruct Hr as [Hr|(Hnow & Hal & Hok')].
  { destruct (or_scan_stopped adv cs hs t (best_head best hd') c2 Hr) as (r & cs' & hs' & c3 & Hq & Hst3).
    rewrite Hq. eexists _, _, _, _. split; [reflexivity|]. auto. }
  destruct (IH _ _ c2 (best_step _ _ _ _ _ Hb Hnow)) as (r & cs' & hs' & c3 & Hq & Hm3 & Hres).
  rewrite Hq. eexists _, _, _, _. split; [reflexivity|]. split; [auto|]. destruct Hres as [Hres|(Hf & Hals & Hhs)]; [by left|].
  right. split; [|split; by constructor]. eapply first_hit_ext; [|exact Hf].
  intros d. cbn beta. rewrite fmap_cons. cbn [fold_right]. by rewrite kor_assoc.
Qed.

Lemma or_spec adv h cs hs f t c :
  adv_ok adv h -> Forall (fun x => height x <= h) cs -> ok (COr cs hs) f ->
  answers (COr cs hs) f t c ('(r, children, heads, c) ← or_scan ck adv cs hs t None c;
                             Some (r, COr children heads, c)).
Proof.
  intros Hadv Hh Hok%ok_or. destruct (or_scan_spec adv h cs hs f t None c (fun _ => None) Hadv Hh Hok)
    as (r & cs' & hs' & c' & -> & Hm & Hres); [done|]. cbn [mbind option_bind].
  destruct Hres as [Hres|(Hf & Hals & Hhs)]; [by apply answers_stop|]. apply answers_right; [done|].
  assert (Hf' : first_hit (den (COr cs hs)) (N.max t f) r) by exact Hf. apply first_hit_from in Hf' as [Hf1 Hf2].
  split; [exact Hf1|]. split; [exact Hf2|]. split; [by apply alike_or|].
  exists (N.max t f). split; [destruct r; simpl; [done|lia]|]. by apply ok_or.
Qed.

Lemma height_pos cur : 0 < height cur.
Proof. destruct cur; simpl; lia. Qed.

Lemma heights_le h (cs : list Cursor) :
  fold_right Nat.max 0 (height <$> cs) <= h -> Forall (fun x => height x <= h) cs.
Proof. induction cs as [|x cs IH]; [constructor|]. rewrite fmap_cons. simpl. intros H. constructor; [lia|apply IH; lia]. Qed.

Lemma bits_spec docs k fl f t c :
  ok (CBits docs k fl) f ->
  answers (CBits docs k fl) f t c
    (match next_geq_with ck docs (N.max t fl) c with
     | (Some doc, c) => Some (Some (doc, k), CBits docs k doc, c)
     | (None, c) => Some (None, CBits docs k fl, c)
     end).
Proof.
  intros (Hwf & Hb & Hs). destruct (next_geq_with ck docs (N.max t fl) c) as [r c'] eqn:Hn.
  apply (next_geq_with_spec ck) in Hn as [Hm Hr]; [|done].
  destruct Hr as [Hr|Hr]; [destruct r; by apply answers_stop|].
  assert (Hiff : forall d, yields (CBits docs k fl) d <-> mem docs d = true)
    by (intros d; unfold yields; simpl; by destruct (mem docs d)).
  assert (Hsm : same_from (fun d => mem docs d = true) (N.max t fl) (N.max t f)) by (by apply same_from_max).
  assert (Hf : first_from (fun d => mem docs d = true) (N.max t f) r) by (by apply (first_from_skip _ (N.max t fl))).
  destruct r as [doc|]; (apply answers_right; [done|]).
  - split; [by apply (first_from_ext _ _ _ _ Hiff)|]. destruct Hf as (Hd & Hge & Hmin).
    split; [intros d k0 [= <- <-]; simpl; by rewrite Hd|]. split; [done|].
    exists (N.max t f). split; [done|]. split; [done|]. split; [done|]. intros d HD. specialize (Hmin d HD). lia.
  - split; [by apply (first_from_ext _ _ _ _ Hiff)|]. split; [done|]. split; [done|].
    exists f. split; [simpl; lia|]. by split.
Qed.

Lemma downgrade_spec x f t c a :
  answers x f t c a ->
  answers (CMaybeOf x) f t c ('(r, child, c) ← a; Some (downgrade r, CMaybeOf child, c)).
Proof.
  intros (r & x' & c' & -> & Hm & Hr). cbn [mbind option_bind].
  destruct Hr as [Hr|(Hf & Hd & [Hal Hh] & f' & Hmv & Hok)]; [by apply answers_stop|]. apply answers_right; [done|].
  assert (Hiff : forall d, yields (CMaybeOf x) d <-> yields x d)
    by (intros d; unfold yields; simpl; by destruct (den x d)).
  split; [apply (first_from_ext _ _ _ _ Hiff); by destruct r as [[]|]|].
  split; [|split; [split|exists f'; split; [by destruct r as [[]|]|done]]].
  - intros d k Hk. destruct r as [[d' k']|]; [|done]. injection Hk as <- <-. simpl. by rewrite (Hd d' k').
  - intros d. simpl. by rewrite Hal.
  - simpl. by rewrite Hh.
Qed.

(** [Cursor::advance] answers, on fuel for the depth of the tree and one loop
    over the documents. *)
Lemma advance_spec fuel h : h + N.to_nat (2 ^ 32) + 2 <= fuel -> adv_ok (advance ck fuel) h.
Proof.
  revert h. induction fuel as [|fuel IH]; intros h Hfuel; [lia|]. split.
  { intros cur t c Hst. cbn [advance]. destruct (ck_ask ck c) as [stop c'] eqn:Hask.
    rewrite (sticky _ _ _ Hask Hst). exists c'. split; [done|]. eapply stopped_ask; [exact Hask|auto]. }
  intros cur f t c Hh Hok. destruct h as [|h]; [pose proof (height_pos cur); lia|].
  cbn [advance]. destruct (ck_ask ck c) as [stop c1] eqn:Hask. pose proof (stopped_ask _ _ _ Hask) as Hst.
  destruct stop; [apply answers_stop; auto|].
  specialize (IH h ltac:(lia)). assert (Hmono : stopped c -> stopped c1) by auto.
  apply (answers_ask _ _ _ _ c1); [done|].
  destruct cur as [l|docs k fl|[|driver rest]|cs hs|a b|a b|a|]; cbn [height] in Hh.
  - destruct (leaf_next ck l t c1) as [[r l'] c2] eqn:Hl.
    destruct (leaf_spec ck HF l f t c1 r l' c2 Hok Hl) as [Hm [Hr|(Hf & Hd & Hden & Hok')]]; [by apply answers_stop|].
    apply answers_right; [done|]. split; [done|]. split; [done|]. split; [by split|exact Hok'].
  - by apply bits_spec.
  - apply answers_right; [done|]. split; [intros e He; by unfold yields in He|]. split; [done|]. split; [done|].
    exists f. split; [simpl; lia|done].
  - apply (leapfrog_spec _ h); [done|apply heights_le; lia|done|lia].
  - apply (or_spec _ h); [done|apply heights_le; lia|done].
  - apply (and_not_spec _ h); [done|lia|lia|done|lia].
  - apply (filter_spec _ h); [done|lia|lia|done|lia].
  - apply downgrade_spec. apply (adv_answers _ h IH); [lia|exact Hok].
  - apply answers_right; [done|]. split; [intros e He; by unfold yields in He|]. split; [done|]. split; [done|].
    exists f. split; [simpl; lia|done].
Qed.
End correct.

(** ** A cursor asks, and does nothing else to the checkpoint *)

Section asks.
  Context {HL : Leaf} {HLL : LeafLaws HL} (ck : Checkpoint) (I : ck_state ck -> Prop).
  Context (HI : forall c b c', ck_ask ck c = (b, c') -> I c -> I c').

Definition asks_only {A} (c : ck_state ck) (a : option (A * ck_state ck)) : Prop :=
  forall r c', a = Some (r, c') -> I c -> I c'.

Definition adv_asks (adv : Cursor -> u32 -> ck_state ck -> option (option hit * Cursor * ck_state ck)) : Prop :=
  forall cur t c, asks_only c (adv cur t c).

Lemma asks_done {A} (r : A) c c0 : (I c0 -> I c) -> asks_only c0 (Some (r, c)).
Proof. by intros H r' c' [= _ <-]. Qed.

Lemma asks_later {A} (a : option (A * ck_state ck)) c c0 : (I c0 -> I c) -> asks_only c a -> asks_only c0 a.
Proof. intros H Ha r c' Hr Hc. apply (Ha r c' Hr), H, Hc. Qed.

Lemma next_geq_with_asks docs t c r c' : next_geq_with ck docs t c = (r, c') -> I c -> I c'.
Proof.
  unfold next_geq_with. destruct (ck_ask ck c) as [stop c1] eqn:Hask. intros H Hc.
  pose proof (HI _ _ _ Hask Hc) as Hc1. clear Hask Hc. destruct stop; [by injection H as _ <-|].
  destruct (_ <=? _)%N; [by injection H as _ <-|]. destruct (_ =? 0)%N; [|by injection H as _ <-].
  revert c1 Hc1 H. generalize (drop (S (doc_word t)) (words docs)). intros ws.
  generalize (S (doc_word t)). induction ws as [|w ws IH]; intros i c1 Hc1; cbn [next_word]; destruct (ck_ask ck c1) as [stop c2] eqn:Hask;
    pose proof (HI _ _ _ Hask Hc1) as Hc2; destruct stop; try by intros [= _ <-].
  destruct (w =? 0)%N; [by apply IH|by intros [= _ <-]].
Qed.

Lemma follow_asks adv rest doc k c : adv_asks adv -> asks_only c (follow ck adv rest doc k c).
Proof.
  intros Hadv. revert k c. induction rest as [|x rest IH]; intros k c; cbn [follow]; [by apply asks_done|].
  destruct (adv x doc c) as [[[r x'] c1]|] eqn:Ha; cbn [mbind option_bind]; [|done].
  pose proof (Hadv x doc c _ _ Ha) as H1. destruct r as [[o k']|]; [|by apply asks_done].
  destruct (doc <? o)%N; [by apply asks_done|].
  destruct (follow ck adv rest doc (cmin k k') c1) as [[[res rest'] c2]|] eqn:Hf; [|done].
  apply asks_done. intros Hc. by apply (IH _ _ _ _ Hf), H1.
Qed.

Lemma test_asks adv probe doc c : adv_asks adv -> asks_only c (test_with ck adv probe doc c).
Proof.
  intros Hadv. unfold test_with. destruct (adv probe doc c) as [[[r x'] c1]|] eqn:Ha; [|done].
  apply asks_done. by apply (Hadv probe doc c _ _ Ha).
Qed.

Lemma leapfrog_asks adv fuel driver rest t c : adv_asks adv -> asks_only c (leapfrog ck adv fuel driver rest t c).
Proof.
  intros Hadv. revert driver rest t c. induction fuel as [|fuel IH]; intros driver rest t c; [done|]. cbn [leapfrog].
  destruct (ck_ask ck c) as [stop c1] eqn:Hask. pose proof (HI _ _ _ Hask) as H1.
  destruct stop; [by apply asks_done|]. destruct (adv driver t c1) as [[[r x'] c2]|] eqn:Ha; cbn [mbind option_bind]; [|done].
  pose proof (Hadv driver t c1 _ _ Ha) as H2. destruct r as [[doc k]|]; [|apply asks_done; auto].
  destruct (follow ck adv rest doc k c2) as [[[res rest'] c3]|] eqn:Hf; cbn [mbind option_bind]; [|done].
  pose proof (follow_asks adv rest doc k c2 Hadv _ _ Hf) as H3.
  destruct res; [apply asks_done; auto| |apply asks_done; auto]. eapply asks_later; [|apply IH]. auto.
Qed.

Lemma and_not_asks adv fuel a b t c : adv_asks adv -> asks_only c (and_not_loop ck adv fuel a b t c).
Proof.
  intros Hadv. revert a b t c. induction fuel as [|fuel IH]; intros a b t c; [done|]. cbn [and_not_loop].
  destruct (ck_ask ck c) as [stop c1] eqn:Hask. pose proof (HI _ _ _ Hask) as H1.
  destruct stop; [by apply asks_done|]. destruct (adv a t c1) as [[[r x'] c2]|] eqn:Ha; cbn [mbind option_bind]; [|done].
  pose proof (Hadv a t c1 _ _ Ha) as H2. destruct r as [[doc k]|]; [|apply asks_done; auto].
  destruct (test_with ck adv b doc c2) as [[[res b'] c3]|] eqn:Hf; cbn [mbind option_bind]; [|done].
  pose proof (test_asks adv b doc c2 Hadv _ _ Hf) as H3. destruct res as [[]|]; try (apply asks_done; auto).
  destruct (next_u32 doc); [|apply asks_done; auto]. eapply asks_later; [|apply IH]. auto.
Qed.

Lemma filter_asks adv fuel a b t c : adv_asks adv -> asks_only c (filter_loop ck adv fuel a b t c).
Proof.
  intros Hadv. revert a b t c. induction fuel as [|fuel IH]; intros a b t c; [done|]. cbn [filter_loop].
  destruct (ck_ask ck c) as [stop c1] eqn:Hask. pose proof (HI _ _ _ Hask) as H1.
  destruct stop; [by apply asks_done|]. destruct (adv a t c1) as [[[r x'] c2]|] eqn:Ha; cbn [mbind option_bind]; [|done].
  pose proof (Hadv a t c1 _ _ Ha) as H2. destruct r as [[doc k]|]; [|apply asks_done; auto].
  destruct (test_with ck adv b doc c2) as [[[res b'] c3]|] eqn:Hf; cbn [mbind option_bind]; [|done].
  pose proof (test_asks adv b doc c2 Hadv _ _ Hf) as H3. destruct res; [apply asks_done; auto|].
  destruct (next_u32 doc); [|apply asks_done; auto]. eapply asks_later; [|apply IH]. auto.
Qed.

Lemma or_scan_asks adv cs hs t best c r cs' hs' c' :
  adv_asks adv -> or_scan ck adv cs hs t best c = Some (r, cs', hs', c') -> I c -> I c'.
Proof.
  intros Hadv. revert hs best c r cs' hs' c'. induction cs as [|x cs IH]; intros [|h hs] best c r cs' hs' c';
    cbn [or_scan]; try by intros [= _ _ _ <-].
  destruct (ck_ask ck c) as [stop c1] eqn:Hask. pose proof (HI _ _ _ Hask) as H1.
  destruct stop; [by intros [= _ _ _ <-]|].
  destruct (if behind h t then _ else _) as [[[x1 h1] c2]|] eqn:Ha; cbn [mbind option_bind]; [|done].
  assert (H2 : I c1 -> I c2).
  { destruct (behind h t); [|by injection Ha as _ _ <-]. destruct (adv x t c1) as [[[r0 x0] c0]|] eqn:Hx; [|done].
    injection Ha as _ _ <-. by apply (Hadv x t c1 _ _ Hx). }
  destruct (or_scan ck adv cs hs t (best_head best h1) c2) as [[[[r3 cs3] hs3] c3]|] eqn:Hr; [|done].
  intros [= _ _ _ <-] Hc. apply (IH _ _ _ _ _ _ _ Hr). auto.
Qed.

Lemma advance_asks fuel : adv_asks (advance ck fuel).
Proof.
  induction fuel as [|fuel IH]; intros cur t c; [done|]. cbn [advance].
  destruct (ck_ask ck c) as [stop c1] eqn:Hask. pose proof (HI _ _ _ Hask) as H1.
  destruct stop; [by apply asks_done|]. apply (asks_later _ c1); [done|]. clear Hask H1 c. rename c1 into c.
  destruct cur as [l|docs k fl|[|driver rest]|cs hs|a b|a b|a|]; try by apply asks_done.
  - destruct (leaf_next ck l t c) as [[r l'] c2] eqn:Hl. apply asks_done. by apply (leaf_asks _ I _ _ _ _ _ _ HI Hl).
  - destruct (next_geq_with ck docs (N.max t fl) c) as [r c2] eqn:Hn. pose proof (next_geq_with_asks _ _ _ _ _ Hn).
    destruct r; by apply asks_done.
  - by apply leapfrog_asks.
  - destruct (or_scan _ _ cs hs t None c) as [[[[r cs'] hs'] c2]|] eqn:Ho; [|done]. apply asks_done.
    by apply (or_scan_asks _ _ _ _ _ _ _ _ _ _ IH Ho).
  - by apply and_not_asks.
  - by apply filter_asks.
  - destruct (advance ck fuel a t c) as [[[r a'] c2]|] eqn:Ha; [|done]. apply asks_done. by apply (IH a t c _ _ Ha).
Qed.
End asks.

(** ** The constructors *)

Section constructors.
  Context {HL : Leaf} {HLL : LeafLaws HL}.

(** Kleene's AND and OR over the children. *)
Definition all_of (cs : list Cursor) (d : u32) : option Certainty :=
  fold_right kand (Some CYes) ((fun x => den x d) <$> cs).
Definition any_of (cs : list Cursor) (d : u32) : option Certainty :=
  fold_right kor None ((fun x => den x d) <$> cs).

Lemma kand_Yes a : kand a (Some CYes) = a.
Proof. by destruct a as [[]|]. Qed.

Lemma all_of_perm cs cs' d : Permutation cs cs' -> all_of cs d = all_of cs' d.
Proof.
  unfold all_of. induction 1 as [|x cs cs' _ IH|x y cs|cs1 cs2 cs3 _ IH1 _ IH2]; [done| | |by rewrite IH1].
  - rewrite !fmap_cons. cbn [fold_right]. by rewrite IH.
  - rewrite !fmap_cons. cbn [fold_right]. by destruct (den x d) as [[]|], (den y d) as [[]|], (fold_right _ _ _) as [[]|].
Qed.

Lemma is_empty_cursor_spec x : is_empty_cursor x = true -> x = CEmpty.
Proof. by destruct x. Qed.

Lemma all_of_empty cs d : existsb is_empty_cursor cs = true -> all_of cs d = None.
Proof.
  unfold all_of. induction cs as [|y cs IH]; [done|]. rewrite fmap_cons. cbn [existsb fold_right].
  intros [->%is_empty_cursor_spec|H]%orb_prop; [done|]. rewrite IH by done. by destruct (den y d).
Qed.

Lemma cursor_and_den cs d :
  den (cursor_and cs) d = match cs with [] => None | _ => all_of cs d end.
Proof.
  unfold cursor_and. destruct cs as [|x cs]; [done|]. cbn [is_empty orb].
  destruct (existsb is_empty_cursor (x :: cs)) eqn:He; [by rewrite all_of_empty|].
  destruct cs as [|y cs]; [unfold all_of; simpl; by rewrite kand_Yes|].
  rewrite <- (all_of_perm _ _ d (merge_sort_Permutation cost_le (x :: y :: cs))).
  destruct (merge_sort cost_le (x :: y :: cs)) as [|z zs] eqn:Hm; [|done].
  pose proof (Permutation_length (merge_sort_Permutation cost_le (x :: y :: cs))) as Hl. by rewrite Hm in Hl.
Qed.

Lemma cursor_and_ok cs : Forall (fun x => ok x 0) cs -> ok (cursor_and cs) 0.
Proof.
  intros H. unfold cursor_and. destruct (is_empty cs || _) eqn:He; [done|].
  destruct cs as [|x [|y cs]]; [done|by inversion H|].
  assert (Hall : Forall (fun x => ok x 0) (merge_sort cost_le (x :: y :: cs)))
    by (by rewrite merge_sort_Permutation).
  destruct (merge_sort cost_le (x :: y :: cs)) as [|z zs]; [done|]. inversion_clear Hall as [|? ? Hz Hzs].
  apply ok_and. split; [by exists 0%N|]. eapply Forall_impl; [exact Hzs|]. intros w Hw. exists 0%N. split; [done|]. lia.
Qed.

Lemma and_not_den a b d : den (and_not a b) d = kandnot (den a d) (den b d).
Proof.
  assert (Hn : forall o, kandnot o None = o) by (by intros [[]|]).
  destruct a, b; try done; cbn [and_not den]; by rewrite Hn.
Qed.

Lemma maybe_of_den a d : den (maybe_of a) d = (fun _ => CMaybe) <$> den a d.
Proof. destruct a; cbn; by repeat case_match. Qed.

Lemma or_new_ok cs : Forall (fun x => ok x 0) cs -> ok (or_new cs) 0.
Proof.
  intros H. apply ok_or. induction H as [|x cs Hx _ IH]; [constructor|]. simpl. constructor; [|exact IH].
  exists 0%N. split; [done|]. apply same_from_refl.
Qed.
Lemma filter_den a b d : den (cursor_filter a b) d = kand (den a d) (den b d).
Proof. by destruct a. Qed.

Lemma and_not_ok a b : ok a 0 -> ok b 0 -> ok (and_not a b) 0.
Proof.
  intros Ha Hb. assert (ok (CAndNot a b) 0) by (exists 0%N, 0%N; split_and!; try done; lia). by destruct a, b.
Qed.

Lemma filter_ok a b : ok a 0 -> ok b 0 -> ok (cursor_filter a b) 0.
Proof.
  intros Ha Hb. assert (ok (CFilter a b) 0) by (exists 0%N, 0%N; split_and!; try done; lia). by destruct a.
Qed.

Lemma maybe_of_ok a f : ok a f -> ok (maybe_of a) f.
Proof. by destruct a. Qed.

Lemma bits_fresh docs k : set_wf docs -> (bound docs <= 2 ^ 32)%N -> ok (bits docs k) 0.
Proof. intros H1 H2. split; [done|]. split; [done|]. intros d _. done. Qed.

(** The constructors' heights. *)
Lemma heights_under h cs : Forall (fun x => height x <= h) cs <-> fold_right Nat.max 0 (height <$> cs) <= h.
Proof.
  split; [|apply heights_le]. induction 1 as [|x cs Hx _ IH]; [cbn; lia|]. rewrite fmap_cons. cbn [fold_right]. lia.
Qed.

Lemma cursor_and_height h cs : Forall (fun x => height x <= h) cs -> height (cursor_and cs) <= S h.
Proof.
  intros H. unfold cursor_and. destruct (is_empty cs || _); [cbn; lia|].
  destruct cs as [|x [|y cs]]; [cbn; lia|inversion_clear H; lia|].
  assert (Hall : Forall (fun x => height x <= h) (merge_sort cost_le (x :: y :: cs))) by (by rewrite merge_sort_Permutation).
  apply heights_under in Hall. cbn [height]. lia.
Qed.

Lemma or_new_height h cs : Forall (fun x => height x <= h) cs -> height (or_new cs) <= S h.
Proof. intros H%heights_under. cbn [or_new height]. lia. Qed.

Lemma and_not_height a b : height (and_not a b) <= S (Nat.max (height a) (height b)).
Proof. pose proof (height_pos a). pose proof (height_pos b). destruct a, b; cbn [and_not height] in *; lia. Qed.

Lemma filter_height a b : height (cursor_filter a b) <= S (Nat.max (height a) (height b)).
Proof. destruct a; cbn [cursor_filter height] in *; lia. Qed.

Lemma maybe_of_height a : height (maybe_of a) <= S (height a).
Proof. destruct a; cbn [maybe_of height] in *; lia. Qed.
End constructors.

(** ** A leaf over a list *)

(** A leaf that keeps its ascending documents and the document it is on. *)
#[export] Instance list_leaf : Leaf := {
  leaf := (list u32 * u32)%type;
  leaf_next _ l target c :=
    match list_find (fun d => N.max target l.2 <= d)%N l.1 with
    | Some (_, d) => (Some (d, CYes), (l.1, d), c)
    | None => (None, l, c)
    end;
  leaf_cost l := N.of_nat (length l.1)
}.

Definition list_den (l : @leaf list_leaf) (d : u32) : option Certainty :=
  if decide (d ∈ l.1) then Some CYes else None.
Definition list_ok (l : @leaf list_leaf) (f : u32) : Prop :=
  StronglySorted N.lt l.1 /\ Forall (fun d => d < 2 ^ 32)%N l.1 /\ same_from (fun d => d ∈ l.1) l.2 f.

#[export] Instance list_leaf_laws : LeafLaws list_leaf.
Proof.
  refine (Build_LeafLaws list_leaf list_den list_ok _ _ _ _); unfold list_den, list_ok.
  - intros l f d k (_ & Hl & _). destruct (decide (d ∈ l.1)) as [Hd|]; [|done]. intros _.
    rewrite Forall_forall in Hl. by apply Hl.
  - intros l f f' Hs (H1 & H2 & H3). split; [done|]. split; [done|]. intros d Hd. rewrite (H3 d Hd).
    apply Hs. by destruct (decide (d ∈ l.1)).
  - intros ck I l t c r l' c' _. simpl. destruct (list_find _ l.1) as [[]|]; by intros [= _ _ <-].
  - intros ck HF [docs fl] f t c r l' c' (Hso & Hb & Hs). simpl. cbn [fst snd] in *.
    assert (Hsm : same_from (fun d => d ∈ docs) (N.max t fl) (N.max t f)) by (intros d Hd; specialize (Hs d Hd); lia).
    assert (Hd : forall d, (if decide (d ∈ docs) then Some CYes else None) <> None <-> d ∈ docs)
      by (intros d; by destruct (decide (d ∈ docs))).
    destruct (list_find (fun d => N.max t fl <= d)%N docs) as [[i d]|] eqn:Hf; intros [= <- <- <-].
    + apply list_find_Some in Hf as (Hi & Hge & Hbefore). cbn beta in Hge. pose proof (list_elem_of_lookup_2 _ _ _ Hi) as Hin.
      assert (Hmin : forall e, e ∈ docs -> (N.max t fl <= e -> d <= e)%N).
      { intros e [j Hj]%list_elem_of_lookup Hle. apply N.nlt_ge. intros Hlt. apply (Hbefore j e Hj); [|done].
        by apply (ascending_index docs i j d e). }
      split; [done|]. right. split; [|split].
      * apply (first_from_ext _ _ _ _ Hd). apply (first_from_skip _ (N.max t fl)); [done|]. by split.
      * intros d0 k [= <- <-]. by rewrite decide_True.
      * split; [done|]. exists (N.max t f). split; [done|]. split; [done|]. split; [done|].
        intros e He. specialize (Hmin e He). specialize (Hsm e He). cbn [snd]. lia.
    + apply list_find_None in Hf. split; [done|]. right. split; [|split; [done|split; [done|]]].
      * apply (first_from_ext _ _ _ _ Hd). apply (first_from_skip _ (N.max t fl)); [done|].
        intros e He. rewrite Forall_forall in Hf. specialize (Hf e He). lia.
      * exists f. split; [simpl; lia|]. done.
Defined.

(** ** Properties *)

(** Fuel for a call on a cursor. *)
Definition fuel_for `{Leaf} (cur : Cursor) : nat := height cur + N.to_nat (2 ^ 32) + 2.

Section calls.
  Context {HL : Leaf} {HLL : LeafLaws HL}.

(** One call, from a floor the target is not below. *)
Lemma cursor_next_spec fuel cur f t :
  ok cur f -> fuel_for cur <= fuel ->
  exists r cur', cursor_next fuel cur t = Some (r, cur') /\ post cur f t r cur'.
Proof.
  intros Hok Hf. unfold cursor_next.
  destruct (adv_answers never _ _ (advance_spec never fuel (height cur) Hf) cur f t tt (le_n _) Hok)
    as (r & cur' & c' & -> & _ & [[]|Hr]). cbn [mbind option_bind]. eauto.
Qed.

Lemma post_hit cur f t r cur' : post cur f t r cur' -> first_hit (den cur) (N.max t f) r.
Proof. intros (Hf & Hd & _). by apply first_hit_from. Qed.

Lemma cursor_walk_spec fuel cur f targets :
  ok cur f -> fuel_for cur <= fuel -> Forall (fun t => f <= t)%N targets -> StronglySorted N.le targets ->
  exists rs, cursor_walk fuel cur targets = Some rs /\ Forall2 (first_hit (den cur)) targets rs.
Proof.
  revert cur f. induction targets as [|t targets IH]; intros cur f Hok Hfuel Hle Hs; cbn [cursor_walk].
  { exists []. split; [done|constructor]. }
  apply Forall_cons in Hle as [Ht _]. apply StronglySorted_inv in Hs as [Hs Hts].
  destruct (cursor_next_spec fuel cur f t Hok Hfuel) as (r & cur' & -> & Hpost). cbn [mbind option_bind].
  pose proof (post_hit _ _ _ _ _ Hpost) as Hhit. replace (N.max t f) with t in Hhit by lia.
  destruct Hpost as (_ & _ & [Hden Hh] & f' & Hmv & Hok').
  destruct (IH cur' f' Hok') as (rs & Hrs & Hall).
  - unfold fuel_for in *. by rewrite Hh.
  - eapply Forall_impl; [exact Hts|]. intros u Hu. destruct r; simpl in Hmv; lia.
  - done.
  - exists (r :: rs). rewrite Hrs. split; [done|]. constructor; [done|].
    eapply Forall2_impl; [exact Hall|]. intros u ru. by apply first_hit_ext.
Qed.
End calls.

(** A tree for the witnesses: documents of one list and of a bitmap or
    another list, without a third. *)
Definition sample_a : Cursor := CPostings (([2; 3; 64; 150; 199]%N, 0%N) : @leaf list_leaf).
Definition sample_b : Cursor := CPostings (([64; 70]%N, 0%N) : @leaf list_leaf).
Definition sample_tree : Cursor :=
  and_not (cursor_and [or_new [bits sample_set CMaybe; sample_b]; sample_a])
          (maybe_of (CPostings (([64; 65]%N, 0%N) : @leaf list_leaf))).

Lemma list_cursor_ok (l : list u32) :
  StronglySorted N.lt l -> Forall (fun d => d < 2 ^ 32)%N l -> ok (CPostings ((l, 0%N) : @leaf list_leaf)) 0.
Proof. intros H1 H2. split; [done|]. split; [done|]. intros d _. simpl. done. Qed.

Ltac ascending := repeat constructor; lia.

Lemma sample_parts_ok : ok sample_a 0 /\ ok sample_b 0 /\ ok (CPostings (([64; 65]%N, 0%N) : @leaf list_leaf)) 0.
Proof. split_and!; apply list_cursor_ok; ascending. Qed.

Lemma sample_or_ok : ok (or_new [bits sample_set CMaybe; sample_b]) 0.
Proof.
  apply or_new_ok. constructor; [apply bits_fresh; [apply sample_set_wf|done]|].
  constructor; [apply sample_parts_ok|constructor].
Qed.

Lemma sample_tree_ok : ok sample_tree 0.
Proof.
  exists 0%N, 0%N. split; [|split; [apply sample_parts_ok|split; [apply same_from_refl|lia]]].
  apply (cursor_and_ok [_; _]). constructor; [apply sample_or_ok|]. constructor; [apply sample_parts_ok|constructor].
Qed.

(** The Kleene algebra of the constructors.  [Cursor::and], the [Or] of
    [Or::new], [and_not], [filter] and [maybe] stand for the documents that
    Kleene's three-valued logic gives their parts, absence being No and an
    empty AND being No; and from fresh parts they are fresh cursors. *)
Theorem cursor_algebra (HL : Leaf) (HLL : LeafLaws HL) (cs : list Cursor) (a b : Cursor)
    (Hcs : Forall (fun x => ok x 0) cs) (Ha : ok a 0) (Hb : ok b 0) (d : u32) :
  den (cursor_and cs) d = match cs with [] => None | _ => fold_right kand (Some CYes) ((fun x => den x d) <$> cs) end /\
  den (or_new cs) d = fold_right kor None ((fun x => den x d) <$> cs) /\
  den (and_not a b) d = kandnot (den a d) (den b d) /\
  den (cursor_filter a b) d = kand (den a d) (den b d) /\
  den (maybe_of a) d = ((fun _ => CMaybe) <$> den a d) /\
  Forall (fun x => ok x 0) [cursor_and cs; or_new cs; and_not a b; cursor_filter a b; maybe_of a].
Proof.
  split; [apply cursor_and_den|]. split; [done|]. split; [apply and_not_den|].
  split; [apply filter_den|]. split; [apply maybe_of_den|].
  repeat constructor; [by apply cursor_and_ok|by apply or_new_ok|by apply and_not_ok|by apply filter_ok|by apply maybe_of_ok].
Qed.

Lemma cursor_algebra_witness :
  den (and_not sample_a sample_b) 64 = None /\ den (and_not sample_a (maybe_of sample_b)) 64 = Some CMaybe /\
  den (cursor_and [sample_a; sample_b]) 64 = Some CYes.
Proof.
  destruct sample_parts_ok as (Ha & Hb & _).
  assert (Hm : ok (maybe_of sample_b) 0) by exact Hb.
  assert (Hcs : Forall (fun x => ok x 0) [sample_a; sample_b]) by (constructor; [|constructor]; done).
  destruct (cursor_algebra _ _ [sample_a; sample_b] sample_a sample_b Hcs Ha Hb 64) as (H1 & _ & H2 & _).
  destruct (cursor_algebra _ _ [] sample_a (maybe_of sample_b) (Forall_nil_2 _) Ha Hm 64) as (_ & _ & H3 & _).
  split; [rewrite H2; reflexivity|]. split; [rewrite H3; reflexivity|]. rewrite H1. reflexivity.
Defined.

(** C23: A cursor's calls answer.  A fresh cursor asked for ascending targets
    returns each time, and answers with the first document at or above the
    target that the tree stands for, with its certainty, or with nothing when
    there is none. *)
Theorem cursor_answers (HL : Leaf) (HLL : LeafLaws HL) (cur : Cursor) (targets : list u32) (fuel : nat)
    (Hok : ok cur 0) (Hfuel : fuel_for cur <= fuel) (Hs : StronglySorted N.le targets) :
  exists rs, cursor_walk fuel cur targets = Some rs /\ Forall2 (first_hit (den cur)) targets rs.
Proof. apply (cursor_walk_spec fuel cur 0); [done|done| |done]. apply Forall_forall. intros; lia. Qed.

Lemma cursor_answers_witness :
  cursor_walk 9 sample_tree [0; 3; 4; 100; 200]%N =
    Some [Some (3, CMaybe); Some (3, CMaybe); Some (64, CMaybe); Some (199, CMaybe); None]%N /\
  exists rs, cursor_walk (fuel_for sample_tree) sample_tree [0; 3; 4; 100; 200]%N = Some rs /\
    Forall2 (first_hit (den sample_tree)) [0; 3; 4; 100; 200]%N rs.
Proof.
  split; [vm_compute; reflexivity|].
  exact (cursor_answers _ _ sample_tree [0; 3; 4; 100; 200]%N (fuel_for sample_tree) sample_tree_ok (le_n _)
           ltac:(ascending)).
Defined.

(** The cursor stays on its document.  Asked again for a target at or
    below the document it returned, it returns the same document and
    certainty. *)
Theorem cursor_stays (HL : Leaf) (HLL : LeafLaws HL) (cur cur' : Cursor) (t t' : u32) (d : u32) (k : Certainty)
    (fuel : nat) (Hok : ok cur 0) (Hfuel : fuel_for cur <= fuel)
    (Hn : cursor_next fuel cur t = Some (Some (d, k), cur')) (Ht : (t' <= d)%N) :
  exists cur'', cursor_next fuel cur' t' = Some (Some (d, k), cur'').
Proof.
  destruct (cursor_next_spec fuel cur 0 t Hok Hfuel) as (r & cur1 & Heq & Hpost).
  rewrite Hn in Heq. injection Heq as <- <-. pose proof (post_hit _ _ _ _ _ Hpost) as (Hd & Hge & Hmin).
  destruct Hpost as (_ & _ & [Hden Hh] & f' & -> & Hok').
  destruct (cursor_next_spec fuel cur' (N.max t 0) t' Hok') as (r & cur2 & -> & Hp2).
  { unfold fuel_for in *. by rewrite Hh. }
  exists cur2. do 2 f_equal. apply post_hit, (first_hit_ext _ _ _ _ Hden) in Hp2.
  apply (first_hit_unique (den cur) (N.max t' (N.max t 0))); [done|].
  split; [done|]. split; [lia|]. intros e He. apply Hmin. lia.
Qed.

Lemma cursor_stays_witness :
  exists cur'', cursor_next (fuel_for sample_a) (CPostings (([2; 3; 64; 150; 199]%N, 64%N) : @leaf list_leaf)) 7 =
    Some (Some (64%N, CYes), cur'').
Proof.
  refine (cursor_stays _ _ sample_a _ 4 7 64 CYes (fuel_for sample_a) (proj1 sample_parts_ok) (le_n _) _ _); [|done].
  unfold fuel_for. rewrite Nat.add_comm. reflexivity.
Defined.
