(* ===== verification/Postings.v ===== *)
(** * Postings: one term's documents across a view's segments

    Models [crates/ferret-index/src/postings.rs]: reading a [Term] from the
    segments of a view and the cursor over its parts, with the cursor over one
    list ([Postings], [PostingCursor] of [segment/read.rs]).

    The [intpack] crate's sorted cursor is an interface, [Intpack], with its
    documented behaviour as [IntpackLaws]; a segment's dictionary and
    fingerprint lookups are the interface [Segment].  The cursor of a term
    without fingerprint records is an instance of the candidate algebra's
    [Leaf] and [LeafLaws]. *)
From S2P Require Import Prelude Word DocSet Cursor.
#[local] Open Scope ferret_scope.

(** ** Interfaces *)

(** [intpack::pfor128skip]: [SortedCursor] and [decode_sorted]. *)
Class Intpack := {
  sorted_cursor : Type;
  sorted_new (df : nat) (bytes : list u8) : sorted_cursor;
  sorted_next_geq : sorted_cursor -> u32 -> option u32 * sorted_cursor;
  decode_sorted (df : nat) (bytes : list u8) : list u32
}.

(** Its documented behaviour: over the bytes of an ascending list, it yields
    the first value at or above the target and the one it is on. *)
Class IntpackLaws (HI : Intpack) := {
  sorted_valid : nat -> list u8 -> Prop;
  sorted_at : sorted_cursor -> list u32 -> u32 -> Prop;
  sorted_ascending df bytes :
    sorted_valid df bytes -> StronglySorted N.lt (decode_sorted df bytes) /\ length (decode_sorted df bytes) = df;
  sorted_start df bytes : sorted_valid df bytes -> sorted_at (sorted_new df bytes) (decode_sorted df bytes) 0;
  sorted_step c vs f t r c' :
    sorted_at c vs f -> sorted_next_geq c t = (r, c') ->
    first_from (fun v => v ∈ vs) (N.max t f) r /\
    exists f', moves f t ((fun v => (v, CYes)) <$> r) f' /\ sorted_at c' vs f'
}.

(** ** Data *)

Section postings.
  Context {HI : Intpack}.

(** [Postings]: a list read and verified. *)
Record Postings := mkPostings { p_first : u32; p_df : u32; p_bytes : list u8; p_start : nat }.

(** [PostingCursor]. *)
Record PostingCursor := mkPostingCursor { pc_inner : sorted_cursor; pc_first : u32 }.

(** [Hit]. *)
Inductive Hit := Single (doc : u32) | HPostings (list : Postings).

(** [Part]. *)
Record Part := mkPart { last : u32; part_hit : option Hit; part_maybe : list u32 }.

(** [Term]. *)
Record Term := mkTerm { parts : list Part; docs : u64; bytes : u64; records : u64 }.

(** [postings::Cursor]. *)
Record TermCursor := mkTermCursor {
  tc_parts : list Part; tc_at : nat; tc_inner : option PostingCursor; tc_docs : u64
}.

(** ** Operations *)

(** [Postings::len], [Postings::bytes] and [Postings::cursor]. *)
Definition postings_len (p : Postings) : u32 := p_df p.
Definition postings_bytes (p : Postings) : u64 := N.of_nat (length (p_bytes p)).
Definition postings_cursor (p : Postings) : PostingCursor :=
  mkPostingCursor (sorted_new (N.to_nat (p_df p)) (drop (p_start p) (p_bytes p))) (p_first p).

(** [u32::wrapping_add]. *)
Definition wrapping_add (a b : u32) : u32 := ((a + b) mod 2 ^ 32)%N.

(** [Postings::decode]. *)
Definition decode (p : Postings) (out : list u32) : list u32 :=
  out ++ ((fun doc => wrapping_add doc (p_first p)) <$> decode_sorted (N.to_nat (p_df p)) (drop (p_start p) (p_bytes p))).

(** [PostingCursor::next_geq]; [N.sub] saturates as [saturating_sub]. *)
Definition posting_next_geq (pc : PostingCursor) (target : u32) : option u32 * PostingCursor :=
  let '(r, inner) := sorted_next_geq (pc_inner pc) (target - pc_first pc) in
  ((fun doc => wrapping_add doc (pc_first pc)) <$> r, mkPostingCursor inner (pc_first pc)).

(** [Term::exact] and [Term::cursor]. *)
Definition exact (t : Term) : bool := (records t =? 0)%N.
Definition term_cursor (t : Term) : TermCursor := mkTermCursor (parts t) 0 None (docs t).

(** [part.maybe.get(part.maybe.partition_point(|&doc| doc < target))]. *)
Definition maybe_geq (maybe : list u32) (target : u32) : option u32 :=
  snd <$> list_find (fun d => ~ d < target)%N maybe.

(** The hit's own answer, and the list cursor after it. *)
Definition hit_geq (h : option Hit) (inner : option PostingCursor) (target : u32)
    : option u32 * option PostingCursor :=
  match h with
  | Some (Single doc) => (if (target <=? doc)%N then Some doc else None, inner)
  | Some (HPostings list) =>
      let pc := match inner with Some pc => pc | None => postings_cursor list end in
      let '(r, pc) := posting_next_geq pc target in (r, Some pc)
  | None => (None, inner)
  end.

(** [match (found, maybe)]. *)
Definition merge_hits (found maybe : option u32) : option hit :=
  match found, maybe with
  | Some yes, Some maybe => if (maybe <? yes)%N then Some (maybe, CMaybe) else Some (yes, CYes)
  | Some yes, None => Some (yes, CYes)
  | None, Some maybe => Some (maybe, CMaybe)
  | None, None => None
  end.

(** The loop of [next_geq_certainty_with], over the parts from [at] on. *)
Fixpoint next_part (ck : Checkpoint) (rest : list Part) (at_ : nat) (inner : option PostingCursor)
    (target : u32) (c : ck_state ck) : option hit * nat * option PostingCursor * ck_state ck :=
  match rest with
  | [] => (None, at_, inner, c)
  | part :: rest =>
      let '(stop, c) := ck_ask ck c in
      if stop then (None, at_, inner, c)
      else if (target <=? last part)%N then
        let '(found, inner) := hit_geq (part_hit part) inner target in
        match merge_hits found (maybe_geq (part_maybe part) target) with
        | Some h => (Some h, at_, inner, c)
        | None => next_part ck rest (S at_) None target c
        end
      else next_part ck rest (S at_) None target c
  end.

(** [Cursor::next_geq_certainty_with] of a term. *)
Definition term_next (ck : Checkpoint) (tc : TermCursor) (target : u32) (c : ck_state ck)
    : option hit * TermCursor * ck_state ck :=
  let '(stop, c) := ck_ask ck c in
  if stop then (None, tc, c)
  else
    let '(r, at_, inner, c) :=
      next_part ck (drop (tc_at tc) (tc_parts tc)) (tc_at tc) (tc_inner tc) target c in
    (r, mkTermCursor (tc_parts tc) at_ inner (tc_docs tc), c).
End postings.

(** ** Reading a term *)

(** [segment::Segment], as far as a term's reading uses it: its DocId range,
    its dictionary, its lists and its fingerprint records. *)
Class Segment `{Intpack} := {
  segment : Type;
  term_entry : Type;
  seg_first : segment -> u32;
  seg_last : segment -> u32;
  seg_entry : segment -> list u8 -> result (option term_entry) ReadError;
  seg_read : segment -> term_entry -> result Hit ReadError;
  seg_fingerprint_docs (ck : Checkpoint) :
    segment -> list u8 -> ck_state ck -> result (list u32) ReadError * ck_state ck
}.

Section read.
  Context {HI : Intpack} {HSeg : Segment}.

(** [entry.map(|entry| segment.read(&entry)).transpose()]. *)
Definition read_hit (s : segment) (entry : option term_entry) : result (option Hit) ReadError :=
  match entry with
  | None => Ok None
  | Some e => h <~ seg_read s e; Ok (Some h)
  end.

(** What a hit adds to the term's documents and bytes. *)
Definition hit_count (h : option Hit) : u64 :=
  match h with Some (Single _) => 1 | Some (HPostings list) => postings_len list | None => 0 end.
Definition hit_bytes (h : option Hit) : u64 :=
  match h with Some (HPostings list) => postings_bytes list | _ => 0 end.

(** The term with one more segment's documents. *)
Definition add_segment (found : Term) (last : u32) (h : option Hit) (maybe : list u32) : Term :=
  let n := N.of_nat (length maybe) in
  mkTerm
    (parts found ++ match h, maybe with None, [] => [] | _, _ => [mkPart last h maybe] end)
    (docs found + n + hit_count h) (bytes found + hit_bytes h) (records found + n).

(** The loop of [Term::read_until] over the segments. *)
Fixpoint read_loop (ck : Checkpoint) (segs : list segment) (term : list u8) (floor : u64) (found : Term)
    (c : ck_state ck) : result Term ReadError * ck_state ck :=
  match segs with
  | [] => (Ok found, c)
  | s :: segs =>
      let '(stop, c) := ck_ask ck c in
      if stop then (Err Cancelled, c)
      else if (seg_first s <? floor)%N then (Err Layout, c)
      else
        match seg_entry s term with
        | Err e => (Err e, c)
        | Ok entry =>
            let '(stop, c) := ck_ask ck c in
            if stop then (Err Cancelled, c)
            else
              match read_hit s entry with
              | Err e => (Err e, c)
              | Ok h =>
                  match seg_fingerprint_docs ck s term c with
                  | (Err e, c) => (Err e, c)
                  | (Ok maybe, c) =>
                      read_loop ck segs term (seg_last s + 1) (add_segment found (seg_last s) h maybe) c
                  end
              end
        end
  end.

(** [Term::read_until] and [Term::read]. *)
Definition read_until (ck : Checkpoint) (segs : list segment) (term : list u8) (c : ck_state ck)
    : result Term ReadError * ck_state ck :=
  read_loop ck segs term 0 (mkTerm [] 0 0 0) c.
Definition read (segs : list segment) (term : list u8) : result Term ReadError :=
  (read_until never segs term tt).1.
End read.

(** ** Specification *)

Section spec.
  Context {HI : Intpack} {HIL : IntpackLaws HI}.

(** The documents of a hit. *)
Definition hit_docs (h : option Hit) : list u32 :=
  match h with None => [] | Some (Single doc) => [doc] | Some (HPostings p) => decode p [] end.

(** The certainty a part gives a document, its list standing at [fl]. *)
Definition part_left (p : Part) (fl : u32) (d : u32) : option Certainty :=
  kor (if decide (d ∈ hit_docs (part_hit p) /\ (fl <= d)%N) then Some CYes else None)
      (if decide (d ∈ part_maybe p) then Some CMaybe else None).

Definition parts_den (ps : list Part) (d : u32) : option Certainty :=
  fold_right kor None ((fun p => part_left p 0 d) <$> ps).

Definition postings_wf (p : Postings) : Prop :=
  sorted_valid (N.to_nat (p_df p)) (drop (p_start p) (p_bytes p)) /\
  Forall (fun v => v + p_first p < 2 ^ 32)%N (decode_sorted (N.to_nat (p_df p)) (drop (p_start p) (p_bytes p))).

Definition hit_wf (h : option Hit) : Prop :=
  match h with Some (HPostings p) => postings_wf p | _ => True end.

(** A part: its documents lie at or below the segment's last. *)
Definition part_wf (p : Part) : Prop :=
  hit_wf (part_hit p) /\ StronglySorted N.lt (part_maybe p) /\ (last p < 2 ^ 32)%N /\
  forall d, part_left p 0 d <> None -> (d <= last p)%N.

(** Parts in ascending, disjoint ranges. *)
Fixpoint parts_wf (ps : list Part) : Prop :=
  match ps with
  | [] => True
  | p :: ps => part_wf p /\ (forall d, parts_den ps d <> None -> (last p < d)%N) /\ parts_wf ps
  end.

(** The list cursor of a part stands at [fl]. *)
Definition inner_ok (h : option Hit) (inner : option PostingCursor) (fl : u32) : Prop :=
  match h, inner with
  | Some (HPostings p), Some pc =>
      pc_first pc = p_first p /\
      exists fr, fl = (fr + p_first p)%N /\
        sorted_at (pc_inner pc) (decode_sorted (N.to_nat (p_df p)) (drop (p_start p) (p_bytes p))) fr
  | _, _ => fl = 0%N
  end.

Lemma wrapping_add_small a b : (a + b < 2 ^ 32)%N -> wrapping_add a b = (a + b)%N.
Proof. apply N.mod_small. Qed.

Lemma elem_of_decode p d :
  postings_wf p ->
  d ∈ decode p [] <-> exists v, d = (v + p_first p)%N /\
    v ∈ decode_sorted (N.to_nat (p_df p)) (drop (p_start p) (p_bytes p)).
Proof.
  intros [_ Hw]. unfold decode. rewrite app_nil_l, list_elem_of_fmap. rewrite Forall_forall in Hw.
  split; intros (v & -> & Hv); exists v; (split; [|done]); by rewrite wrapping_add_small by (by apply Hw).
Qed.

(** A list cursor answers in documents, not offsets from the first. *)
Lemma posting_next_spec p pc fl t r pc' :
  postings_wf p -> inner_ok (Some (HPostings p)) (Some pc) fl -> posting_next_geq pc t = (r, pc') ->
  first_from (fun d => d ∈ decode p []) (N.max t fl) r /\
  exists fl', inner_ok (Some (HPostings p)) (Some pc') fl' /\ (fl <= fl' <= N.max t fl)%N /\
    (r <> None -> fl' = N.max t fl).
Proof.
  intros Hwf (Hpf & fr & -> & Hat). unfold posting_next_geq.
  destruct (sorted_next_geq (pc_inner pc) (t - pc_first pc)) as [r0 c0] eqn:Hn. intros [= <- <-].
  rewrite Hpf in *. destruct (sorted_step _ _ _ _ _ _ Hat Hn) as [Hf (f' & Hmv & Hat')].
  pose proof (elem_of_decode p) as Hel. destruct Hwf as [Hv Hw] eqn:Hwf'. clear Hwf'. rewrite Forall_forall in Hw.
  split.
  - destruct r0 as [v|]; simpl in *.
    + destruct Hf as (Hin & Hge & Hmin). rewrite wrapping_add_small by (by apply Hw).
      split; [apply Hel; [by split; [|apply Forall_forall]|by exists v]|]. split; [lia|].
      intros e (w & -> & Hw')%Hel Hle; [|by split; [|apply Forall_forall]]. specialize (Hmin w Hw'). lia.
    + intros e (w & -> & Hw')%Hel; [|by split; [|apply Forall_forall]]. specialize (Hf w Hw'). lia.
  - exists (f' + p_first p)%N. split; [split; [done|by exists f']|].
    destruct r0; simpl in Hmv; split; try done; lia.
Qed.

(** The list cursor's new floor [fl'] after a call that found [r]. *)
Definition advanced (h : option Hit) (fl t : u32) (r : option u32) (fl' : u32) : Prop :=
  forall d, d ∈ hit_docs h ->
    (fl' <= d -> fl <= d)%N /\ (fl <= d -> t <= d -> fl' <= d)%N /\
    (r <> None -> fl' <= d -> N.max t fl <= d)%N.

Lemma hit_geq_spec h inner fl t r inner' :
  hit_wf h -> inner_ok h inner fl -> hit_geq h inner t = (r, inner') ->
  first_from (fun d => d ∈ hit_docs h) (N.max t fl) r /\
  exists fl', inner_ok h inner' fl' /\ advanced h fl t r fl'.
Proof.
  destruct h as [[doc|p]|]; intros Hwf Hin; cbn [hit_geq].
  - simpl in Hin. subst fl. intros [= <- <-]. split.
    + destruct (N.leb_spec t doc); simpl; [split; [by left|]; split; [lia|]|];
        intros e He%list_elem_of_singleton; subst e; lia.
    + exists 0%N. split; [done|]. intros d Hd%list_elem_of_singleton. subst d.
      destruct (N.leb_spec t doc); split_and!; intros; (done || lia).
  - set (pc := match inner with Some pc => pc | None => postings_cursor p end).
    destruct (posting_next_geq pc t) as [r0 pc'] eqn:Hn. intros [= <- <-].
    assert (Hge : forall d, d ∈ decode p [] -> (p_first p <= d)%N)
      by (intros d (v & -> & _)%(elem_of_decode p d Hwf); lia).
    assert (Hpc : exists fl0, inner_ok (Some (HPostings p)) (Some pc) fl0 /\
                    forall d, d ∈ decode p [] -> (fl <= d <-> fl0 <= d)%N).
    { destruct inner as [pc0|]; [by exists fl|]. simpl in Hin. subst fl. exists (p_first p). split.
      - split; [done|]. exists 0%N. split; [done|]. apply sorted_start, Hwf.
      - intros d Hd. specialize (Hge d Hd). lia. }
    destruct Hpc as (fl0 & Hok & Hs). destruct (posting_next_spec p pc fl0 t r0 pc' Hwf Hok Hn) as [Hf (fl' & Hok' & Hb & Hr)].
    split.
    + eapply first_from_skip; [|exact Hf]. intros e He. specialize (Hs e He). lia.
    + exists fl'. split; [done|]. intros d Hd. specialize (Hs d Hd). split_and!; [lia..|]. intros Hne. specialize (Hr Hne). lia.
  - simpl in Hin. subst fl. intros [= <- <-]. split; [by intros e He%not_elem_of_nil|].
    exists 0%N. split; [done|]. by intros d Hd%not_elem_of_nil.
Qed.

Lemma maybe_geq_spec maybe t :
  StronglySorted N.lt maybe -> first_from (fun d => d ∈ maybe) t (maybe_geq maybe t).
Proof.
  intros Hs. unfold maybe_geq. destruct (list_find _ maybe) as [[i d]|] eqn:Hf; simpl.
  - apply list_find_Some in Hf as (Hi & Hge%N.nlt_ge & Hbefore). split; [by eapply list_elem_of_lookup_2|].
    split; [done|]. intros e [j Hj]%list_elem_of_lookup Hle. apply N.nlt_ge. intros Hlt.
    apply (Hbefore j e Hj); [by apply (ascending_index maybe i j d e)|lia].
  - apply list_find_None in Hf. rewrite Forall_forall in Hf. intros e He. specialize (Hf e He). lia.
Qed.

(** A part's answer merges its list's and its records'. *)
Lemma merge_spec p fl t found :
  StronglySorted N.lt (part_maybe p) ->
  first_from (fun d => d ∈ hit_docs (part_hit p)) (N.max t fl) found ->
  first_hit (part_left p fl) t (merge_hits found (maybe_geq (part_maybe p) t)).
Proof.
  intros Hs Hf. pose proof (maybe_geq_spec (part_maybe p) t Hs) as Hm. revert Hm.
  generalize (maybe_geq (part_maybe p) t) as m. intros m Hm.
  assert (Hno : forall d, (match found with Some y => d < y | None => True end)%N ->
    (match m with Some y => d < y | None => True end)%N -> (t <= d)%N -> part_left p fl d = None).
  { intros d H1 H2 Hle. unfold part_left. rewrite decide_False, decide_False; [done| |].
    - intros Hin. destruct m as [y|]; simpl in Hm; [|specialize (Hm d Hin); lia].
      destruct Hm as (_ & _ & Hm). specialize (Hm d Hin Hle). lia.
    - intros [Hin Hfl]. destruct found as [y|]; simpl in Hf; [|specialize (Hf d Hin); lia].
      destruct Hf as (_ & _ & Hf). specialize (Hf d Hin). lia. }
  assert (Hyes : forall y, found = Some y -> (t <= y)%N /\ part_left p fl y = Some CYes).
  { intros y ->. destruct Hf as (Hin & Hge & _). split; [lia|]. unfold part_left.
    rewrite decide_True by (split; [done|lia]). by destruct (decide _). }
  destruct found as [y|], m as [z|]; cbn [merge_hits]; [destruct (N.ltb_spec z y)|..]; simpl.
  1,4: destruct Hm as (Hzin & Hzge & _).
  - split; [|split; [done|]; intros e He; apply Hno; lia].
    unfold part_left. rewrite decide_False, decide_True; [done|done|].
    intros [Hin Hfl]. destruct Hf as (_ & _ & Hf). specialize (Hf z Hin). lia.
  - split; [|split; [done|]; intros e He; apply Hno; [done|lia|lia]].
    unfold part_left. rewrite decide_False, decide_True; [done|done|].
    intros [Hin Hfl]. simpl in Hf. specialize (Hf z Hin). lia.
  - destruct (Hyes y eq_refl). split_and!; try done. intros e He. apply Hno; lia.
  - destruct (Hyes y eq_refl). split_and!; try done. intros e He. apply Hno; [lia|done|lia].
  - intros e He. by apply Hno.
Qed.

(** What is left of the parts, the first part's list standing at [fl]. *)
Definition left_den (rest : list Part) (fl : u32) (d : u32) : option Certainty :=
  match rest with [] => None | p :: ps => kor (part_left p fl d) (parts_den ps d) end.

Definition state_ok (rest : list Part) (inner : option PostingCursor) (fl : u32) : Prop :=
  match rest with [] => True | p :: _ => inner_ok (part_hit p) inner fl end.

Definition no_records (ps : list Part) : Prop := Forall (fun p => part_maybe p = []) ps.

Lemma left_start ps d : left_den ps 0 d = parts_den ps d.
Proof. by destruct ps. Qed.

Lemma state_start ps : state_ok ps None 0.
Proof. destruct ps as [|p ps]; [done|]. simpl. by destruct (part_hit p) as [[]|]. Qed.

Lemma part_left_some p fl d :
  part_left p fl d <> None <-> (d ∈ hit_docs (part_hit p) /\ (fl <= d)%N) \/ d ∈ part_maybe p.
Proof.
  unfold part_left. rewrite kor_None.
  destruct (decide (d ∈ hit_docs (part_hit p) /\ _)), (decide (d ∈ part_maybe p)); naive_solver.
Qed.

Lemma part_left_le p fl d : part_left p fl d <> None -> part_left p 0 d <> None.
Proof. rewrite !part_left_some. intros [[H _]|H]; [left; split; [done|lia]|by right]. Qed.

(** An answer within the first part: the later parts hold nothing lower. *)
Lemma first_hit_part p ps fl t r :
  part_wf p -> (forall d, parts_den ps d <> None -> (last p < d)%N) -> r <> None ->
  first_hit (part_left p fl) t r -> first_hit (left_den (p :: ps) fl) t r.
Proof.
  intros (_ & _ & _ & Hlast) Hps Hr Hf. destruct r as [[d k]|]; [|done]. destruct Hf as (Hd & Hge & Hn).
  assert (Hdl : (d <= last p)%N) by (apply Hlast, (part_left_le p fl); by rewrite Hd).
  assert (Hnone : forall e, (e <= d)%N -> parts_den ps e = None).
  { intros e He. destruct (parts_den ps e) eqn:Hq; [|done]. specialize (Hps e). rewrite Hq in Hps.
    specialize (Hps ltac:(done)). lia. }
  simpl. rewrite Hd, Hnone by lia. split; [done|]. split; [done|].
  intros e He. rewrite Hnone by lia. by rewrite (Hn e).
Qed.

(** Nothing of the first part at or above the target: on to the next. *)
Lemma left_skip p ps fl t d :
  (forall e, (t <= e)%N -> part_left p fl e = None) -> (t <= d)%N -> left_den (p :: ps) fl d = parts_den ps d.
Proof. intros H Hd. simpl. by rewrite H. Qed.

Lemma parts_wf_drop n ps : parts_wf ps -> parts_wf (drop n ps).
Proof. revert ps. induction n as [|n IH]; [done|]. intros [|p ps]; [done|]. intros (_ & _ & H). by apply IH. Qed.

Section next.
  Context (ck : Checkpoint) {HF : StopFlag ck}.

(** What a call leaves: a suffix of the parts, holding the same documents from
    the target on, and no others. *)
Record leaves (rest : list Part) (fl t : u32) (r : option hit) (rest' : list Part) (fl' : u32) : Prop := {
  leaves_same d : (t <= d)%N -> left_den rest' fl' d = left_den rest fl d;
  leaves_less d : left_den rest' fl' d <> None -> left_den rest fl d <> None;
  leaves_exact d : no_records rest -> left_den rest' fl' d <> None -> (t <= d)%N;
  leaves_none d : r = None -> left_den rest' fl' d = None
}.

(** A call's outcome on what is left. *)
Definition next_ok (rest : list Part) (at_ : nat) (fl t : u32)
    (c : ck_state ck) (a : option hit * nat * option PostingCursor * ck_state ck) : Prop :=
  let '(r, at', inner', c') := a in
  (stopped c -> stopped c') /\
  (stopped c' \/
   (first_hit (left_den rest fl) t r /\
    exists n fl', at' = at_ + n /\ state_ok (drop n rest) inner' fl' /\ leaves rest fl t r (drop n rest) fl')).

(** Skipping a part that holds nothing at or above the target. *)
Lemma next_skip p ps at_ fl t c c1 a :
  (stopped c -> stopped c1) -> (forall e, (t <= e)%N -> part_left p fl e = None) ->
  (forall d, parts_den ps d <> None -> (last p < d)%N) -> parts_wf ps ->
  next_ok ps (S at_) 0 t c1 a -> next_ok (p :: ps) at_ fl t c a.
Proof.
  intros Hm Hp Hlast Hps. destruct a as [[[r at'] inner'] c']. intros [Hm' Hr]. split; [auto|].
  destruct Hr as [Hr|(Hf & n & fl' & -> & Hok & [H1 H2 H3 H4])]; [by left|]. right.
  assert (Heq : forall d, (t <= d)%N -> left_den ps 0 d = left_den (p :: ps) fl d)
    by (intros d Hd; by rewrite (left_skip p ps fl t), left_start).
  split.
  - destruct r as [[d k]|]; simpl in Hf.
    + destruct Hf as (Hd & Hge & Hn). split; [by rewrite <- Heq|]. split; [done|]. intros e He. rewrite <- Heq by lia. by apply Hn.
    + intros e He. rewrite <- Heq by done. by apply Hf.
  - exists (S n), fl'. split; [lia|]. split; [done|]. split.
    + intros d Hd. cbn [drop]. by rewrite H1, Heq.
    + intros d Hd%H2. rewrite left_start in Hd. cbn [left_den]. apply kor_None. by right.
    + intros d Hno Hd. apply (H3 d); [by inversion Hno|done].
    + done.
Qed.

(** Answering in the first part. *)
Lemma next_found p ps at_ inner' fl fl' t c c1 found h :
  parts_wf (p :: ps) -> (stopped c -> stopped c1) -> (t <= last p)%N ->
  inner_ok (part_hit p) inner' fl' -> advanced (part_hit p) fl t found fl' ->
  first_hit (part_left p fl) t (Some h) -> (part_maybe p = [] -> found <> None) ->
  next_ok (p :: ps) at_ fl t c (Some h, at_, inner', c1).
Proof.
  intros (Hp & Hlast & Hps) Hm Htl Hin Hadv Hf Hfound. split; [done|]. right.
  split; [by apply first_hit_part|]. exists 0, fl'. split; [lia|]. split; [done|].
  assert (Hsame : forall d, (t <= d)%N -> part_left p fl' d = part_left p fl d).
  { intros d Hd. unfold part_left. do 2 f_equal. apply decide_ext. split; intros [Hin' Hle]; (split; [done|]);
      destruct (Hadv d Hin') as (H1 & H2 & _); auto. }
  split; cbn [drop left_den]; [| | |done].
  - intros d Hd. by rewrite Hsame.
  - intros d. rewrite !kor_None, !part_left_some. intros [[[Hd Hge]|Hd]|Hd]; [|by left; right|by right].
    left; left. split; [done|]. by apply (Hadv d Hd).
  - intros d Hno. apply Forall_cons in Hno as [Hno _]. rewrite kor_None, part_left_some, Hno.
    intros [[[Hd Hge]|Hd%not_elem_of_nil]|Hd%Hlast]; [|done|lia].
    destruct (Hadv d Hd) as (_ & _ & H3). specialize (H3 (Hfound Hno) Hge). lia.
Qed.

Lemma next_part_spec rest at_ inner fl t c :
  parts_wf rest -> state_ok rest inner fl -> next_ok rest at_ fl t c (next_part ck rest at_ inner t c).
Proof.
  revert at_ inner fl c. induction rest as [|p ps IH]; intros at_ inner fl c Hwf Hin; cbn [next_part].
  { split; [done|]. right. split; [done|]. exists 0, fl. by split_and!; [lia| |]. }
  destruct (ck_ask ck c) as [stop c1] eqn:Hask. pose proof (stopped_ask _ _ _ Hask) as Hst.
  destruct stop; [split; auto|]. pose proof Hwf as ((Hhit & Hmay & Hl32 & Hlast) & Hps & Hwf').
  specialize (IH (S at_) None 0%N c1 Hwf' (state_start ps)). assert (Hm : stopped c -> stopped c1) by auto.
  destruct (N.leb_spec t (last p)) as [Hle|Hgt].
  - destruct (hit_geq (part_hit p) inner t) as [found inner1] eqn:Hh.
    destruct (hit_geq_spec _ _ _ _ _ _ Hhit Hin Hh) as (Hf & fl' & Hin' & Hadv).
    pose proof (merge_spec p fl t found Hmay Hf) as Hmerge.
    destruct (merge_hits found (maybe_geq (part_maybe p) t)) as [h|] eqn:Hmh.
    + apply (next_found p ps at_ inner1 fl fl' t c c1 found h); try done.
      intros Hno ->. by rewrite Hno in Hmh.
    + by apply (next_skip p ps at_ fl t c c1).
  - apply (next_skip p ps at_ fl t c c1); try done. intros e He.
    destruct (part_left p fl e) eqn:Hq; [|done]. assert (Hn : part_left p 0 e <> None)
      by (apply (part_left_le p fl); by rewrite Hq). specialize (Hlast e Hn). lia.
Qed.

(** What a term's cursor has left. *)
Definition tc_left (tc : TermCursor) : list Part := drop (tc_at tc) (tc_parts tc).

Lemma term_next_spec tc fl t c r tc' c' :
  parts_wf (tc_left tc) -> state_ok (tc_left tc) (tc_inner tc) fl -> term_next ck tc t c = (r, tc', c') ->
  (stopped c -> stopped c') /\
  (stopped c' \/
   (first_hit (left_den (tc_left tc) fl) t r /\ tc_parts tc' = tc_parts tc /\ parts_wf (tc_left tc') /\
    exists fl', state_ok (tc_left tc') (tc_inner tc') fl' /\ leaves (tc_left tc) fl t r (tc_left tc') fl')).
Proof.
  intros Hwf Hok. unfold term_next. destruct (ck_ask ck c) as [stop c1] eqn:Hask.
  pose proof (stopped_ask _ _ _ Hask) as Hst. destruct stop; [intros [= <- <- <-]; auto|].
  pose proof (next_part_spec (tc_left tc) (tc_at tc) (tc_inner tc) fl t c1 Hwf Hok) as Hn. unfold tc_left in *.
  destruct (next_part ck _ _ _ _ c1) as [[[r0 at'] inner'] c2]. intros [= <- <- <-].
  destruct Hn as [Hm Hr]. split; [auto|]. destruct Hr as [Hr|(Hf & n & fl' & -> & Hok' & Hlv)]; [by left|]. right.
  rewrite drop_drop in Hok', Hlv. split; [done|]. split; [done|]. split; [|by exists fl'].
  cbn [tc_at tc_parts]. rewrite <- drop_drop. by apply parts_wf_drop.
Qed.
End next.
End spec.

(** ** The candidate algebra's leaf *)

(** A term's cursor as a leaf of the cursor tree. *)
#[export] Instance term_leaf `{Intpack} : Leaf := {
  leaf := TermCursor; leaf_next := term_next; leaf_cost := tc_docs
}.

Section leaf.
  Context {HI : Intpack} {HIL : IntpackLaws HI}.

(** A term without fingerprint records, standing at [f]. *)
Definition term_ok (tc : TermCursor) (f : u32) : Prop :=
  parts_wf (tc_parts tc) /\ no_records (tc_parts tc) /\
  exists fl, state_ok (tc_left tc) (tc_inner tc) fl /\
    forall d, parts_den (tc_parts tc) d <> None -> (left_den (tc_left tc) fl d <> None <-> (f <= d)%N).

Lemma exact_yes p fl d : part_maybe p = [] -> part_left p fl d <> None -> part_left p fl d = Some CYes.
Proof.
  unfold part_left. intros -> H. rewrite (decide_False (P := d ∈ [])) in * by apply not_elem_of_nil.
  by destruct (decide _).
Qed.

Lemma parts_yes ps d : no_records ps -> parts_den ps d <> None -> parts_den ps d = Some CYes.
Proof.
  unfold parts_den. induction 1 as [|p ps Hp _ IH]; [done|]. rewrite fmap_cons. cbn [fold_right].
  intros [H|H]%kor_None.
  - rewrite (exact_yes p 0 d) by done. by destruct (fold_right _ _ _).
  - rewrite (IH H). by destruct (part_left p 0 d) as [[]|].
Qed.

Lemma left_yes ps fl d : no_records ps -> left_den ps fl d <> None -> left_den ps fl d = Some CYes.
Proof.
  intros Hno. destruct ps as [|p ps]; [done|]. apply Forall_cons in Hno as [Hp Hps]. cbn [left_den].
  intros [H|H]%kor_None.
  - rewrite (exact_yes p fl d) by done. by destruct (parts_den ps d).
  - rewrite (parts_yes ps d) by done. by destruct (part_left p fl d) as [[]|].
Qed.

Lemma left_parts n ps fl d : left_den (drop n ps) fl d <> None -> parts_den ps d <> None.
Proof.
  revert ps. induction n as [|n IH]; intros [|p ps]; try done; cbn [drop].
  - unfold parts_den. rewrite fmap_cons. cbn [fold_right left_den]. rewrite !kor_None. intros [H|H]; [|by right].
    left. by apply (part_left_le p fl).
  - intros H%IH. unfold parts_den. rewrite fmap_cons. cbn [fold_right]. apply kor_None. by right.
Qed.

Lemma parts_u32 ps d : parts_wf ps -> parts_den ps d <> None -> (d < 2 ^ 32)%N.
Proof.
  induction ps as [|p ps IH]; [done|]. intros ((_ & _ & Hl & Hp) & _ & Hps). unfold parts_den.
  rewrite fmap_cons. cbn [fold_right]. intros [H%Hp|H]%kor_None; [lia|]. by apply IH.
Qed.

(** The leaf's call, from its floor. *)
Lemma term_leaf_spec ck (HF : StopFlag ck) tc f t c r tc' c' :
  term_ok tc f -> term_next ck tc t c = (r, tc', c') ->
  (stopped c -> stopped c') /\
  (stopped c' \/
   (first_hit (parts_den (tc_parts tc)) (N.max t f) r /\ tc_parts tc' = tc_parts tc /\
    exists f', moves f t r f' /\ term_ok tc' f')).
Proof.
  intros (Hwf & Hno & fl & Hst & Hleft) Hn.
  destruct (term_next_spec ck tc fl t c r tc' c' (parts_wf_drop _ _ Hwf) Hst Hn) as [Hm Hr]. split; [done|].
  destruct Hr as [Hr|(Hf & Hps & Hwf' & fl' & Hst' & [H1 H2 H3 H4])]; [by left|]. right.
  assert (Hnol : no_records (tc_left tc)) by (by apply Forall_drop).
  assert (Hsome : forall d, left_den (tc_left tc) fl d <> None -> parts_den (tc_parts tc) d = Some CYes).
  { intros d Hd. apply parts_yes; [done|]. by apply (left_parts (tc_at tc) _ fl). }
  assert (Hnone : forall d, (f <= d)%N -> left_den (tc_left tc) fl d = None -> parts_den (tc_parts tc) d = None).
  { intros d Hd Hn0. destruct (parts_den (tc_parts tc) d) eqn:Hp; [|done].
    exfalso. apply (Hleft d); [by rewrite Hp|done|done]. }
  assert (Hhit : first_hit (parts_den (tc_parts tc)) (N.max t f) r).
  { destruct r as [[d k]|]; simpl in Hf |- *.
    - destruct Hf as (Hd & Hge & Hmin). assert (Hdn : left_den (tc_left tc) fl d <> None) by (by rewrite Hd).
      rewrite (Hsome d Hdn). rewrite (left_yes _ _ _ Hnol Hdn) in Hd. injection Hd as <-.
      assert (f <= d)%N by (apply Hleft; [by rewrite (Hsome d Hdn)|done]). split_and!; [done|lia|].
      intros e He. apply Hnone; [lia|]. apply Hmin. lia.
    - intros e He. apply Hnone; [lia|]. apply Hf. lia. }
  split; [done|]. split; [done|]. exists (N.max t f). split; [destruct r; simpl; [done|lia]|].
  unfold term_ok. rewrite Hps. split; [done|]. split; [done|]. exists fl'. split; [done|]. intros d Hd.
  specialize (Hleft d Hd). split.
  - intros Hl. pose proof (proj1 Hleft (H2 d Hl)). pose proof (H3 d Hnol Hl). lia.
  - intros Hge. destruct r as [h|].
    + rewrite H1 by lia. apply Hleft. lia.
    + exfalso. apply Hd, Hhit. lia.
Qed.

(** A term's cursor only asks the checkpoint. *)
Lemma term_next_asks ck (I : ck_state ck -> Prop) (HA : forall c b c', ck_ask ck c = (b, c') -> I c -> I c')
    tc t c r tc' c' : term_next ck tc t c = (r, tc', c') -> I c -> I c'.
Proof.
  unfold term_next. destruct (ck_ask ck c) as [stop c1] eqn:Hask. pose proof (HA _ _ _ Hask) as H1.
  destruct stop; [by intros [= _ _ <-]|].
  destruct (next_part ck _ _ _ t c1) as [[[r0 a0] i0] c2] eqn:Hn. intros [= _ _ <-] Hc. apply H1 in Hc. clear H1 Hask c.
  revert Hn Hc. generalize (drop (tc_at tc) (tc_parts tc)). intros ps.
  generalize (tc_at tc), (tc_inner tc). revert c1. induction ps as [|p ps IH]; intros c n inner; cbn [next_part]; [by intros [= _ _ _ <-]|].
  destruct (ck_ask ck c) as [stop c1] eqn:Hask. pose proof (HA _ _ _ Hask) as H1.
  destruct stop; [by intros [= _ _ _ <-]|]. destruct (t <=? last p)%N; [|intros Hn Hc; apply (IH _ _ _ Hn); auto].
  destruct (hit_geq _ _ _) as [found inner1]. destruct (merge_hits _ _); [by intros [= _ _ _ <-]|].
  intros Hn Hc. apply (IH _ _ _ Hn). auto.
Qed.

#[export] Instance term_leaf_laws : LeafLaws term_leaf.
Proof.
  refine (Build_LeafLaws term_leaf (fun tc => parts_den (tc_parts tc)) term_ok _ _ _ _).
  - intros tc f d k (Hwf & _) Hd. apply (parts_u32 (tc_parts tc)); [done|]. by rewrite Hd.
  - intros tc f f' Hs (Hwf & Hno & fl & Hst & Hleft). split; [done|]. split; [done|]. exists fl. split; [done|].
    intros d Hd. rewrite (Hleft d Hd). by apply Hs.
  - intros ck I tc t c r tc' c' HA Hn. by apply (term_next_asks ck I HA tc t c r tc').
  - intros ck HF tc f t c r tc' c' Hok Hn. destruct (term_leaf_spec ck HF tc f t c r tc' c' Hok Hn) as [Hm Hr].
    split; [done|]. destruct Hr as [Hr|(Hhit & Hps & f' & Hmv & Hok')]; [by left|]. right.
    apply first_hit_from in Hhit as [Hfirst Hd]. split; [done|]. split; [done|]. split; [intros d; by rewrite Hps|].
    by exists f'.
Defined.

(** A new term cursor is a fresh leaf. *)
Lemma term_fresh_ok (t : Term) : parts_wf (parts t) -> no_records (parts t) -> ok (CPostings (term_cursor t : @leaf term_leaf)) 0.
Proof.
  intros Hwf Hno. split; [done|]. split; [done|]. exists 0%N. split; [apply state_start|].
  intros d Hd. unfold tc_left. cbn [term_cursor tc_at tc_parts drop]. rewrite left_start. split; [lia|done].
Qed.
End leaf.

(** ** Ascending targets

    With fingerprint records a cursor may go back within its part, so it
    answers for targets that never decrease. *)

Section walk.
  Context {HI : Intpack} {HIL : IntpackLaws HI}.

(** A client's calls, one per target. *)
Fixpoint term_walk (tc : TermCursor) (targets : list u32) : list (option hit) :=
  match targets with
  | [] => []
  | t :: targets => let '(r, tc, _) := term_next never tc t tt in r :: term_walk tc targets
  end.

Lemma term_walk_spec tc f targets :
  parts_wf (tc_parts tc) ->
  (exists fl, state_ok (tc_left tc) (tc_inner tc) fl /\
    forall d, (f <= d)%N -> left_den (tc_left tc) fl d = parts_den (tc_parts tc) d) ->
  Forall (fun t => f <= t)%N targets -> StronglySorted N.le targets ->
  Forall2 (first_hit (parts_den (tc_parts tc))) targets (term_walk tc targets).
Proof.
  revert tc f. induction targets as [|t targets IH]; intros tc f Hwf (fl & Hst & Hleft) Hle Hs; [constructor|].
  apply Forall_cons in Hle as [Ht _]. apply StronglySorted_inv in Hs as [Hs Hts]. cbn [term_walk].
  destruct (term_next never tc t tt) as [[r tc'] c'] eqn:Hn.
  destruct (term_next_spec never tc fl t tt r tc' c' (parts_wf_drop _ _ Hwf) Hst Hn)
    as (_ & [[]|(Hf & Hps & Hwf' & fl' & Hst' & [H1 H2 H3 H4])]).
  assert (Hhit : first_hit (parts_den (tc_parts tc)) t r).
  { destruct r as [[d k]|]; simpl in Hf |- *.
    - destruct Hf as (Hd & Hge & Hmin). rewrite <- Hleft by lia. split_and!; [done|done|].
      intros e He. rewrite <- Hleft by lia. by apply Hmin.
    - intros e He. rewrite <- Hleft by lia. by apply Hf. }
  constructor; [done|]. rewrite <- Hps. apply (IH tc' t); [by rewrite Hps| |done|done].
  exists fl'. split; [done|]. intros d Hd. rewrite Hps, H1 by done. apply Hleft. lia.
Qed.
End walk.

(** ** Reading *)

(** What a segment promises of a term: its documents lie in the segment's
    range, its list is valid, its records ascend. *)
Class SegmentLaws `{HIL : IntpackLaws} (HSeg : Segment) := {
  seg_range s : (seg_first s <= seg_last s < 2 ^ 32)%N;
  seg_hit s term e h :
    seg_entry s term = Ok (Some e) -> seg_read s e = Ok h ->
    hit_wf (Some h) /\ Forall (fun d => seg_first s <= d <= seg_last s)%N (hit_docs (Some h));
  seg_maybe ck s term c ds c' :
    seg_fingerprint_docs ck s term c = (Ok ds, c') ->
    StronglySorted N.lt ds /\ Forall (fun d => seg_first s <= d <= seg_last s)%N ds
}.

Section reading.
  Context {HI : Intpack} {HIL : IntpackLaws HI} {HSeg : Segment} {HSL : SegmentLaws HSeg}.

(** What one segment answered. *)
Definition seg_answer (term : list u8) (s : segment) (p : Part) : Prop :=
  last p = seg_last s /\
  (exists entry, seg_entry s term = Ok entry /\ read_hit s entry = Ok (part_hit p)) /\
  exists ck c c', seg_fingerprint_docs ck s term c = (Ok (part_maybe p), c').

(** The documents of parts, with repetition. *)
Definition part_docs (p : Part) : list u32 := hit_docs (part_hit p) ++ part_maybe p.

Lemma hit_count_docs h : hit_wf h -> hit_count h = N.of_nat (length (hit_docs h)).
Proof.
  destruct h as [[d|p]|]; [done| |done]. intros [Hv _]. simpl. unfold decode.
  rewrite app_nil_l, length_fmap. destruct (sorted_ascending _ _ Hv) as [_ ->]. unfold postings_len. lia.
Qed.

Lemma part_den_docs p d : part_left p 0 d <> None <-> d ∈ part_docs p.
Proof. rewrite part_left_some. unfold part_docs. rewrite elem_of_app. split; intros [H|H]; auto; [by left; apply H|]. left. split; [done|lia]. Qed.

Lemma parts_den_docs ps d : parts_den ps d <> None <-> d ∈ concat (part_docs <$> ps).
Proof.
  induction ps as [|p ps IH]; [split; [done|by intros ?%not_elem_of_nil]|]. unfold parts_den.
  rewrite !fmap_cons. cbn [fold_right concat]. by rewrite kor_None, elem_of_app, part_den_docs, <- IH.
Qed.

Lemma parts_den_app ps qs d : parts_den (ps ++ qs) d = kor (parts_den ps d) (parts_den qs d).
Proof.
  unfold parts_den. induction ps as [|p ps IH]; [by destruct (fold_right _ _ _)|].
  rewrite fmap_app in *. rewrite fmap_cons. cbn [fold_right app]. by rewrite IH, kor_assoc.
Qed.

(** One segment's answer is a well-formed part of the segment's range. *)
Lemma seg_answer_wf term s p :
  seg_answer term s p -> part_wf p /\ forall d, d ∈ part_docs p -> (seg_first s <= d <= seg_last s)%N.
Proof.
  intros (Hl & (entry & He & Hh) & ck & c & c' & Hm). destruct (seg_maybe _ _ _ _ _ _ Hm) as [Hs Hr].
  assert (Hhit : hit_wf (part_hit p) /\ Forall (fun d => seg_first s <= d <= seg_last s)%N (hit_docs (part_hit p))).
  { unfold read_hit in Hh. destruct entry as [e|]; [|injection Hh as <-; by split; [|constructor]].
    destruct (seg_read s e) as [h|] eqn:Hrd; [|done]. injection Hh as <-. by eapply seg_hit. }
  destruct Hhit as [Hw Hr']. pose proof (seg_range s).
  assert (Hall : forall d, d ∈ part_docs p -> (seg_first s <= d <= seg_last s)%N).
  { rewrite Forall_forall in Hr, Hr'. intros d [Hd|Hd]%elem_of_app; auto. }
  split; [|done]. split; [done|]. split; [done|]. rewrite Hl. split; [lia|].
  intros d Hd%part_den_docs%Hall. lia.
Qed.

(** A segment's part, kept unless it is empty. *)
Definition kept (p : Part) : list Part :=
  match part_hit p, part_maybe p with None, [] => [] | _, _ => [p] end.

Lemma kept_den p d : parts_den (kept p) d = part_left p 0 d.
Proof.
  assert (Hone : forall q, parts_den [q] d = part_left q 0 d)
    by (intros q; unfold parts_den; simpl; by destruct (part_left q 0 d)).
  unfold kept. destruct p as [l [h|] [|m ms]]; cbn [part_hit part_maybe]; [apply Hone..| |apply Hone].
  destruct (part_left (mkPart l None []) 0 d) eqn:Hp; [|done].
  assert (Hn : part_left (mkPart l None []) 0 d <> None) by (by rewrite Hp).
  apply part_left_some in Hn as [[Hn%not_elem_of_nil _]|Hn%not_elem_of_nil]; done.
Qed.

(** What the loop adds to the term found so far. *)
Record read_ok (term : list u8) (floor : u64) (segs : list segment) (found t : Term) (ps : list Part) : Prop := {
  read_answers : Forall2 (seg_answer term) segs ps;
  read_parts : parts t = parts found ++ concat (kept <$> ps);
  read_docs : docs t = (docs found + N.of_nat (length (concat (part_docs <$> ps))))%N;
  read_records : records t = (records found + N.of_nat (length (concat (part_maybe <$> ps))))%N;
  read_floor : Forall (fun s => floor <= seg_first s)%N segs;
  read_order : StronglySorted (fun a b => seg_last a < seg_first b)%N segs
}.

Lemma read_loop_spec ck segs term floor found c t c' :
  read_loop ck segs term floor found c = (Ok t, c') -> exists ps, read_ok term floor segs found t ps.
Proof.
  revert floor found c. induction segs as [|s segs IH]; intros floor found c; cbn [read_loop].
  { intros [= <- <-]. exists []. split; try constructor; [by rewrite app_nil_r|simpl; lia..]. }
  destruct (ck_ask ck c) as [[] c1]; [done|]. destruct (N.ltb_spec (seg_first s) floor) as [|Hge]; [done|].
  destruct (seg_entry s term) as [entry|] eqn:He; [|done]. destruct (ck_ask ck c1) as [[] c2]; [done|].
  destruct (read_hit s entry) as [h|] eqn:Hh; [|done].
  destruct (seg_fingerprint_docs ck s term c2) as [[maybe|] c3] eqn:Hm; [|done]. intros Hloop.
  apply IH in Hloop as (ps & [H1 H2 H3 H4 H5 H6]). set (p := mkPart (seg_last s) h maybe).
  assert (Ha : seg_answer term s p) by (split; [done|]; split; [by exists entry|]; by exists ck, c2, c3).
  destruct (seg_answer_wf term s p Ha) as [(Hw & _) _]. pose proof (seg_range s).
  exists (p :: ps). split.
  - by constructor.
  - rewrite H2. unfold add_segment. cbn [parts]. rewrite fmap_cons. cbn [concat]. rewrite <- app_assoc. done.
  - rewrite H3. unfold add_segment. cbn [docs]. rewrite fmap_cons. cbn [concat]. rewrite length_app.
    unfold part_docs at 2. rewrite length_app. rewrite hit_count_docs by done. cbn [p part_hit part_maybe]. lia.
  - rewrite H4. unfold add_segment. cbn [records]. rewrite fmap_cons. cbn [concat]. rewrite length_app.
    cbn [p part_maybe]. lia.
  - constructor; [done|]. eapply Forall_impl; [exact H5|]. intros s' Hs'. cbn beta in *. lia.
  - constructor; [done|]. eapply Forall_impl; [exact H5|]. intros s' Hs'. cbn beta in *. lia.
Qed.

(** The parts of a term read in order are well formed. *)
Lemma answers_wf term floor segs ps :
  Forall2 (seg_answer term) segs ps -> Forall (fun s => floor <= seg_first s)%N segs ->
  StronglySorted (fun a b => seg_last a < seg_first b)%N segs ->
  parts_wf (concat (kept <$> ps)) /\
  (forall d, parts_den (concat (kept <$> ps)) d = parts_den ps d) /\
  forall d, parts_den ps d <> None -> (floor <= d)%N.
Proof.
  intros Ha. revert floor. induction Ha as [|s p segs ps Hp _ IH]; intros floor Hf Hs; [done|].
  apply StronglySorted_inv in Hs as [Hs Hlt]. apply Forall_cons in Hf as [Hf _].
  destruct (IH (seg_last s + 1)%N) as (Hwf & Hden & Hlow); [|done|].
  { eapply Forall_impl; [exact Hlt|]. intros s' Hs'. cbn beta in *. lia. }
  destruct (seg_answer_wf term s p Hp) as [Hpwf Hrange]. destruct Hp as (Hl & _). rewrite fmap_cons. cbn [concat].
  assert (Heq : forall d, parts_den (p :: ps) d = kor (part_left p 0 d) (parts_den ps d)) by done.
  split; [|split].
  - assert (Hcons : parts_wf (p :: concat (kept <$> ps))).
    { split; [done|]. split; [|done]. intros d. rewrite Hden. intros Hd%Hlow. rewrite Hl. lia. }
    unfold kept. destruct (part_hit p), (part_maybe p); done.
  - intros d. by rewrite parts_den_app, kept_den, Hden.
  - intros d. rewrite Heq. intros [Hd%part_den_docs%Hrange|Hd%Hlow]%kor_None; [lia|].
    pose proof (seg_range s). lia.
Qed.

Lemma no_records_kept ps : concat (part_maybe <$> ps) = [] -> no_records (concat (kept <$> ps)).
Proof.
  induction ps as [|p ps IH]; [constructor|]. rewrite !fmap_cons. cbn [concat]. intros [Hm Hms]%app_nil.
  apply Forall_app. split; [|by apply IH]. unfold kept. rewrite Hm. by destruct (part_hit p); repeat constructor.
Qed.
End reading.

(** ** Properties *)

(** ** A concrete list codec and segments, for the witnesses *)

(** A codec whose bytes are the values themselves. *)
#[export] Instance plain_intpack : Intpack := {
  sorted_cursor := (list u32 * u32)%type;
  sorted_new df bytes := (take df bytes, 0%N);
  sorted_next_geq c target :=
    match list_find (fun v => N.max target c.2 <= v)%N c.1 with
    | Some (_, v) => (Some v, (c.1, v))
    | None => (None, c)
    end;
  decode_sorted df bytes := take df bytes
}.

#[export] Instance plain_intpack_laws : IntpackLaws plain_intpack.
Proof.
  refine (Build_IntpackLaws plain_intpack
    (fun df bytes => StronglySorted N.lt (take df bytes) /\ length (take df bytes) = df)
    (fun c vs f => StronglySorted N.lt vs /\ c.1 = vs /\ same_from (fun v => v ∈ vs) c.2 f) _ _ _).
  - intros df bytes H. exact H.
  - intros df bytes [H1 H2]. split; [done|]. split; [done|]. apply same_from_refl.
  - intros [vs fl] vs' f t r c' (Hs & <- & Hf). cbn [fst snd sorted_next_geq plain_intpack] in *.
    assert (Hsm : same_from (fun v => v ∈ vs) (N.max t fl) (N.max t f)) by (by apply same_from_max).
    destruct (list_find (fun v => N.max t fl <= v)%N vs) as [[i v]|] eqn:Hl; intros [= <- <-].
    + apply list_find_Some in Hl as (Hi & Hge & Hbefore). cbn beta in Hge.
      pose proof (list_elem_of_lookup_2 _ _ _ Hi) as Hin.
      assert (Hmin : forall e, e ∈ vs -> (N.max t fl <= e -> v <= e)%N).
      { intros e [j Hj]%list_elem_of_lookup Hle. apply N.nlt_ge. intros Hlt. apply (Hbefore j e Hj); [|done].
        by apply (ascending_index vs i j v e). }
      split; [apply (first_from_skip _ (N.max t fl)); [done|by split]|]. exists (N.max t f). split; [done|].
      split; [done|]. split; [done|]. intros e He. specialize (Hmin e He). specialize (Hsm e He). cbn [snd]. lia.
    + apply list_find_None in Hl. rewrite Forall_forall in Hl. split.
      * intros e He. specialize (Hl e He). specialize (Hsm e He). lia.
      * exists f. split; [simpl; lia|]. done.
Defined.

(** Two segments: of [t], the first holds a list and the second one document;
    of [u], the second holds a fingerprint record. *)
Inductive DemoSegment := Seg1 | Seg2.

#[export] Instance demo_segment : Segment := {
  segment := DemoSegment;
  term_entry := Hit;
  seg_first s := match s with Seg1 => 10 | Seg2 => 500 end%N;
  seg_last s := match s with Seg1 => 400 | Seg2 => 509 end%N;
  seg_entry s term :=
    if decide (term = [116]%N) then
      Ok (Some match s with Seg1 => HPostings (mkPostings 10 3 [0; 5; 390]%N 0) | Seg2 => Single 509 end)
    else Ok None;
  seg_read _ h := Ok h;
  seg_fingerprint_docs _ s term c :=
    (Ok (if decide (term = [117]%N) then match s with Seg1 => [] | Seg2 => [502; 505]%N end else []), c)
}.

#[export] Instance demo_segment_laws : SegmentLaws demo_segment.
Proof.
  refine (Build_SegmentLaws _ _ demo_segment _ _ _).
  - by intros [].
  - intros s term e h He [= <-]. cbn in He. destruct (decide (term = [116]%N)); [|done]. injection He as <-.
    destruct s; split; [| |done|]; try (apply (bool_decide_unpack _); vm_compute; exact I).
  - intros ck s term c ds c' [= <- <-].
    destruct (decide (term = [117]%N)), s; split; try apply SSorted_nil; try apply Forall_nil_2; [repeat constructor|].
    apply (bool_decide_unpack _); vm_compute; exact I.
Qed.

(** C24: A term's cursor answers from the segments.  When [Term::read_until]
    answers, the view's segments were in ascending disjoint ranges, and each
    answered for the term; the cursor of the term, asked for ascending
    targets, yields the first document at or above each that some segment
    gives, as Yes where a dictionary has it and as Maybe where only a
    fingerprint record does; the term's cost counts every document. *)
Theorem term_cursor_answers (HI : Intpack) (HIL : IntpackLaws HI) (HSeg : Segment) (HSL : SegmentLaws HSeg)
    (ck : Checkpoint) (c c' : ck_state ck) (segs : list segment) (term : list u8) (t : Term)
    (Hread : read_until ck segs term c = (Ok t, c')) (targets : list u32) (Hs : StronglySorted N.le targets) :
  StronglySorted (fun a b => seg_last a < seg_first b)%N segs /\
  exists ps, Forall2 (seg_answer term) segs ps /\
    Forall2 (first_hit (parts_den ps)) targets (term_walk (term_cursor t) targets) /\
    tc_docs (term_cursor t) = N.of_nat (length (concat (part_docs <$> ps))).
Proof.
  apply read_loop_spec in Hread as (ps & [Ha Hp Hd Hr Hf Ho]). split; [done|]. exists ps. split; [done|].
  destruct (answers_wf term 0 segs ps Ha Hf Ho) as (Hwf & Hden & _). cbn [parts app] in Hp. split; [|exact Hd].
  eapply Forall2_impl; [apply (term_walk_spec (term_cursor t) 0)|].
  - cbn [term_cursor tc_parts]. by rewrite Hp.
  - exists 0%N. split; [apply state_start|]. intros d _. apply left_start.
  - apply Forall_forall. intros; lia.
  - done.
  - intros u r. apply first_hit_ext. intros d. cbn [term_cursor tc_parts]. by rewrite Hp.
Qed.

Definition demo_term : Term :=
  mkTerm [mkPart 400 (Some (HPostings (mkPostings 10 3 [0; 5; 390]%N 0))) []; mkPart 509 (Some (Single 509)) []] 4 3 0.

Lemma term_cursor_answers_witness :
  term_walk (term_cursor demo_term) [0; 11; 15; 401; 510]%N =
    [Some (10, CYes); Some (15, CYes); Some (15, CYes); Some (509, CYes); None]%N /\
  exists ps, Forall2 (seg_answer [116]%N) [Seg1; Seg2] ps /\
    Forall2 (first_hit (parts_den ps)) [0; 11; 15; 401; 510]%N (term_walk (term_cursor demo_term) [0; 11; 15; 401; 510]%N) /\
    tc_docs (term_cursor demo_term) = N.of_nat (length (concat (part_docs <$> ps))).
Proof.
  split; [vm_compute; reflexivity|].
  exact (proj2 (term_cursor_answers _ _ _ _ never tt tt [Seg1; Seg2] [116]%N demo_term ltac:(vm_compute; reflexivity)
           [0; 11; 15; 401; 510]%N ltac:(ascending))).
Defined.

(** Exact terms are leaves.  The cursor of a term read without fingerprint
    records keeps the cursor algebra's contract from its start, at any
    sequence of targets, and yields only Yes: exactly the documents the
    dictionaries of the segments give. *)
Theorem exact_term_is_leaf (HI : Intpack) (HIL : IntpackLaws HI) (HSeg : Segment) (HSL : SegmentLaws HSeg)
    (ck : Checkpoint) (c c' : ck_state ck) (segs : list segment) (term : list u8) (t : Term)
    (Hread : read_until ck segs term c = (Ok t, c')) (Hexact : exact t = true) :
  ok (CPostings (term_cursor t : @leaf term_leaf)) 0 /\
  exists ps, Forall2 (seg_answer term) segs ps /\
    forall d, den (CPostings (term_cursor t : @leaf term_leaf)) d =
      if decide (d ∈ concat (part_docs <$> ps)) then Some CYes else None.
Proof.
  apply read_loop_spec in Hread as (ps & [Ha Hp Hd Hr Hf Ho]). cbn [parts app records] in Hp, Hr.
  destruct (answers_wf term 0 segs ps Ha Hf Ho) as (Hwf & Hden & _).
  assert (Hno : no_records (concat (kept <$> ps))).
  { apply no_records_kept. apply N.eqb_eq in Hexact. apply length_zero_iff_nil. lia. }
  split; [apply term_fresh_ok; by rewrite Hp|]. exists ps. split; [done|]. intros d.
  change (parts_den (parts t) d = if decide (d ∈ concat (part_docs <$> ps)) then Some CYes else None).
  rewrite Hp. destruct (decide (d ∈ concat (part_docs <$> ps))) as [Hin|Hin].
  - apply parts_den_docs in Hin. apply parts_yes; [done|]. by rewrite Hden.
  - rewrite Hden. destruct (parts_den ps d) eqn:Hq; [|done]. exfalso. apply Hin, parts_den_docs. by rewrite Hq.
Qed.

Lemma exact_term_is_leaf_witness :
  exact demo_term = true /\ ok (CPostings (term_cursor demo_term : @leaf term_leaf)) 0.
Proof.
  split; [reflexivity|].
  exact (proj1 (exact_term_is_leaf _ _ _ _ never tt tt [Seg1; Seg2] [116]%N demo_term ltac:(vm_compute; reflexivity)
           ltac:(reflexivity))).
Defined.

(** A term with two fingerprint records, and an exact one holding the first. *)
Definition maybe_term : Term := mkTerm [mkPart 200 None [8; 100]%N] 2 0 2.
Definition yes_term : Term := mkTerm [mkPart 200 (Some (Single 8)) []] 1 0 0.
Definition back_tree : @Cursor term_leaf :=
  and_not (CPostings (term_cursor maybe_term : @leaf term_leaf)) (CPostings (term_cursor yes_term : @leaf term_leaf)).

(** Fingerprint records let an AND-NOT go back.  The cursor's
    contract is that a target at or below the document it is on returns that
    document again, when targets never decrease.  The AND-NOT of a term known
    by fingerprint records and an exact term breaks it: asked for 5 it
    passes 8, which the negated term certainly holds, and answers 100; asked
    for 7 it answers 8. *)
Theorem fingerprint_and_not_goes_back :
  parts_wf (parts maybe_term) /\ parts_wf (parts yes_term) /\ den back_tree 8 = None /\
  cursor_walk 9 back_tree [5; 7]%N = Some [Some (100, CMaybe); Some (8, CMaybe)]%N.
Proof.
  assert (Hwf : forall h m, hit_wf h -> StronglySorted N.lt m -> Forall (fun d => d <= 200)%N (hit_docs h ++ m) ->
    parts_wf [mkPart 200 h m]).
  { intros h m Hh Hm Hd. rewrite Forall_forall in Hd. split; [|split; [by intros|done]]. split_and!; [done|done|done|].
    intros d Hin%part_den_docs. by apply Hd. }
  split; [apply Hwf; repeat constructor; lia|]. split; [apply Hwf; repeat constructor; lia|].
  split; vm_compute; reflexivity.
Qed.
