(* ===== verification/Union.v ===== *)
(** * Union: cancellation and materialised unions of cursors

    Models the rest of [crates/ferret-index/src/cursor.rs]: [Advance], the
    budget that asks for cancellation once in 1024 internal steps,
    [Cursor::next_geq_until], and [Cursor::or_until] with [materialise],
    which drains the children of a wide or dense union into two bitmaps.

    [cancelled] is a checkpoint: an arbitrary state machine of answers. *)
From S2P Require Import Prelude Word DocSet Cursor.

(** ** Cancellation *)

(** [Advance]: its budget, its flag and the cancellation it asks. *)
Record Advance (ck : Checkpoint) := mkAdvance { remaining : u32; adv_flag : bool; adv_inner : ck_state ck }.
Arguments mkAdvance {ck} _ _ _.
Arguments remaining {ck} _.
Arguments adv_flag {ck} _.
Arguments adv_inner {ck} _.

(** [Advance::new]. *)
Definition advance_new {ck} (c : ck_state ck) : Advance ck := mkAdvance 0 false c.

(** [Advance::step]. *)
Definition adv_step {ck} (a : Advance ck) : bool * Advance ck :=
  if adv_flag a then (true, a)
  else
    let a :=
      if (remaining a =? 0)%N then
        let '(stop, c) := ck_ask ck (adv_inner a) in mkAdvance 1024 stop c
      else a in
    (adv_flag a, mkAdvance (remaining a - 1) (adv_flag a) (adv_inner a)).

(** [&mut || advance.step()]. *)
Definition stepping (ck : Checkpoint) : Checkpoint := mkCheckpoint (Advance ck) adv_step.

Section until.
  Context {HL : Leaf} (ck : Checkpoint).

(** [Cursor::next_geq_until]. *)
Definition next_geq_until (fuel : nat) (cur : Cursor) (target : u32) (a : Advance ck)
    : option (result (option hit) ReadError * Cursor * Advance ck) :=
  '(found, cur, a) ← advance (stepping ck) fuel cur target a;
  Some (if adv_flag a then Err Cancelled else Ok found, cur, a).

(** ** Materialised unions *)

(** [loop] of [materialise], over one child. *)
Fixpoint drain_child (steps fuel : nat) (child : Cursor) (target : u32) (yes maybe : list u32) (a : Advance ck)
    : option (result (list u32 * list u32) ReadError * Advance ck) :=
  match steps with
  | 0 => None
  | S steps =>
      let '(stop, c) := ck_ask ck (adv_inner a) in
      let a := mkAdvance (remaining a) (adv_flag a) c in
      if stop then Some (Err Cancelled, a)
      else
        '(r, child, a) ← next_geq_until fuel child target a;
        match r with
        | Err e => Some (Err e, a)
        | Ok None => Some (Ok (yes, maybe), a)
        | Ok (Some (doc, certainty)) =>
            let '(yes, maybe) :=
              match certainty with CYes => (yes ++ [doc], maybe) | CMaybe => (yes, maybe ++ [doc]) end in
            match next_u32 doc with
            | None => Some (Ok (yes, maybe), a)
            | Some target => drain_child steps fuel child target yes maybe a
            end
        end
  end.

(** [for mut child in children] of [materialise]. *)
Fixpoint drain_all (steps fuel : nat) (children : list Cursor) (yes maybe : list u32) (a : Advance ck)
    : option (result (list u32 * list u32) ReadError * Advance ck) :=
  match children with
  | [] => Some (Ok (yes, maybe), a)
  | child :: children =>
      '(r, a) ← drain_child steps fuel child 0 yes maybe a;
      match r with
      | Err e => Some (Err e, a)
      | Ok (yes, maybe) => drain_all steps fuel children yes maybe a
      end
  end.

(** [docs.into_iter().take_while(|_| !cancelled())]. *)
Fixpoint take_live (docs : list u32) (c : ck_state ck) : list u32 * ck_state ck :=
  match docs with
  | [] => ([], c)
  | doc :: docs =>
      let '(stop, c) := ck_ask ck c in
      if stop then ([], c) else let '(kept, c) := take_live docs c in (doc :: kept, c)
  end.

(** The closure [owned] of [materialise]. *)
Definition owned (bound : u32) (docs : list u32) (certainty : Certainty) (c : ck_state ck)
    : result Cursor ReadError * ck_state ck :=
  let '(stop, c) := ck_ask ck c in
  if stop then (Err Cancelled, c)
  else
    let '(docs, c) := take_live docs c in
    let docs := new_set bound docs in
    let '(stop, c) := ck_ask ck c in
    if stop then (Err Cancelled, c) else (Ok (bits docs certainty), c).

(** [materialise]. *)
Definition materialise (steps fuel : nat) (children : list Cursor) (bound : u32) (c : ck_state ck)
    : option (result Cursor ReadError * ck_state ck) :=
  '(r, a) ← drain_all steps fuel children [] [] (advance_new c);
  match r with
  | Err e => Some (Err e, adv_inner a)
  | Ok (yes, maybe) =>
      match owned bound yes CYes (adv_inner a) with
      | (Err e, c) => Some (Err e, c)
      | (Ok yes, c) =>
          match owned bound maybe CMaybe c with
          | (Err e, c) => Some (Err e, c)
          | (Ok maybe, c) => Some (Ok (or_new [yes; maybe]), c)
          end
      end
  end.

(** [Cursor::or_until]. *)
Definition or_until (steps fuel : nat) (children : list Cursor) (bound : u32) (c : ck_state ck)
    : option (result Cursor ReadError * ck_state ck) :=
  let '(stop, c) := ck_ask ck c in
  if stop then Some (Err Cancelled, c)
  else
    let children := filter (fun x => is_empty_cursor x = false) children in
    match children with
    | [] => Some (Ok CEmpty, c)
    | [child] => Some (Ok child, c)
    | _ =>
        let cost_ := fold_left sat_add (cost <$> children) 0%N in
        if ((OR_WIDTH <? length children) || (bound / OR_DENSITY <? cost_)%N)
        then materialise steps fuel children bound c
        else Some (Ok (or_new children), c)
    end.
End until.

(** [Cursor::or]. *)
Definition cursor_or `{Leaf} (steps fuel : nat) (children : list Cursor) (bound : u32) : option Cursor :=
  '(r, _) ← or_until never steps fuel children bound tt;
  Some (match r with Ok cur => cur | Err _ => CEmpty end).

(** ** The budget *)

(** The flag is up exactly when a step has stopped. *)
#[export] Instance stepping_flag ck : StopFlag (stepping ck).
Proof.
  refine (Build_StopFlag (stepping ck) (fun a : Advance ck => adv_flag a = true) _).
  intros a b a'. cbn [stepping ck_ask]. unfold adv_step. destruct (adv_flag a) eqn:Hf; [by intros [= <- <-] _|].
  intros [= <- <-] [H|H]; [exact H|congruence].
Defined.

#[export] Instance stepping_sticky ck : Sticky (stepping ck) (stepping_flag ck).
Proof. intros a b a' Hask Hst. cbn in Hask, Hst. unfold adv_step in Hask. rewrite Hst in Hask. by injection Hask as <- _. Qed.

(** The flag is up only if the cancellation was answered. *)
Definition told {ck} {HF : StopFlag ck} (a : Advance ck) : Prop := adv_flag a = true -> stopped (adv_inner a).

Section budget.
  Context (ck : Checkpoint) {HF : StopFlag ck}.

Lemma step_told (a : Advance ck) b a' : adv_step a = (b, a') -> told a -> told a'.
Proof.
  unfold adv_step, told. destruct (adv_flag a) eqn:Hf; [intros [= _ <-]; auto|]. destruct (remaining a =? 0)%N.
  - destruct (ck_ask ck (adv_inner a)) as [stop c] eqn:Hask. intros [= _ <-] _. simpl. intros ->.
    eapply stopped_ask; [exact Hask|by left].
  - intros [= _ <-] _. simpl. congruence.
Qed.

Fixpoint steps (n : nat) (a : Advance ck) : Advance ck :=
  match n with 0 => a | S n => steps n (adv_step a).2 end.

Lemma step_flag (a : Advance ck) : adv_flag a = true -> (adv_step a).2 = a.
Proof. unfold adv_step. by intros ->. Qed.

Lemma steps_flag n (a : Advance ck) : adv_flag a = true -> steps n a = a.
Proof. induction n as [|n IH]; intros Hf; [done|]. cbn [steps]. rewrite step_flag by done. by apply IH. Qed.

Lemma steps_stop (T : ck_state ck -> Prop) n (a : Advance ck) :
  (forall c, T c -> (ck_ask ck c).1 = true) -> T (adv_inner a) ->
  N.to_nat (remaining a) < n -> adv_flag (steps n a) = true.
Proof.
  intros Hask. revert a. induction n as [|n IH]; intros a HT Hn; [lia|]. cbn [steps].
  destruct (adv_flag a) eqn:Hf; [by rewrite step_flag, steps_flag by done|].
  destruct (N.eqb_spec (remaining a) 0) as [Hz|Hz].
  - assert (Hs : adv_flag (adv_step a).2 = true); [|by rewrite steps_flag].
    unfold adv_step. rewrite Hf, Hz. cbn [N.eqb]. specialize (Hask _ HT). by destruct (ck_ask ck (adv_inner a)) as [stop c].
  - apply N.eqb_neq in Hz as Hzb. apply IH; unfold adv_step; rewrite Hf, Hzb; simpl; [done|lia].
Qed.
End budget.

(** ** Drained children *)

Section drain_child.
  Context {HL : Leaf} {HLL : LeafLaws HL} (ck : Checkpoint) {HF : StopFlag ck} {HS : Sticky ck HF}.

(** [next_geq_until] returns: cancelled, when the cancellation answered so, or
    with the cursor's answer. *)
Lemma next_geq_until_spec fuel cur f t (a : Advance ck) :
  ok cur f -> fuel_for cur <= fuel -> told a ->
  exists r cur' a', next_geq_until ck fuel cur t a = Some (r, cur', a') /\
    told a' /\
    (r = Err Cancelled /\ stopped (adv_inner a') \/
     exists h, r = Ok h /\ adv_flag a' = false /\ post cur f t h cur').
Proof.
  intros Hok Hfuel Ht. unfold next_geq_until.
  destruct (adv_answers _ _ _ (advance_spec (stepping ck) fuel (height cur) Hfuel) cur f t a (le_n _) Hok)
    as (h & cur' & a' & Heq & _ & Hr). rewrite Heq. cbn [mbind option_bind]. eexists _, _, _. split; [reflexivity|].
  assert (Ht' : told a').
  { apply (advance_asks (stepping ck) told (step_told ck) fuel cur t a (h, cur') a' Heq Ht). }
  split; [done|]. destruct (adv_flag a') eqn:Hfl.
  - left. split; [done|]. by apply Ht'.
  - right. exists h. split; [done|]. split; [done|]. destruct Hr as [Hr|Hr]; [cbn in Hr; congruence|done].
Qed.

(** The documents a child still has to give, of one certainty. *)
Definition gives (child : Cursor) (t : u32) (k : Certainty) (d : u32) : Prop :=
  (t <= d)%N /\ den child d = Some k.

(** A call's outcome: cancelled, or two lists with the documents added. *)
Definition drained (P : Certainty -> u32 -> Prop) (yes maybe : list u32) (c : ck_state ck)
    (r : result (list u32 * list u32) ReadError) : Prop :=
  r = Err Cancelled /\ stopped c \/
  exists y m, r = Ok (y, m) /\
    (forall d, d ∈ y <-> d ∈ yes \/ P CYes d) /\ (forall d, d ∈ m <-> d ∈ maybe \/ P CMaybe d).

Lemma drain_ask (a : Advance ck) stop c :
  ck_ask ck (adv_inner a) = (stop, c) -> told a -> told (mkAdvance (remaining a) (adv_flag a) c).
Proof. unfold told. cbn. intros Hask Ht Hf. eapply stopped_ask; [exact Hask|right; auto]. Qed.

(** [yes.push(doc)] or [maybe.push(doc)]. *)
Definition pushed (k : Certainty) (doc : u32) (yes maybe : list u32) : list u32 * list u32 :=
  match k with CYes => (yes ++ [doc], maybe) | CMaybe => (yes, maybe ++ [doc]) end.

Lemma gives_step child child' t doc k k' d :
  (t <= doc)%N -> den child doc = Some k -> (forall e, (t <= e < doc)%N -> den child e = None) ->
  (forall e, den child' e = den child e) ->
  gives child t k' d <-> (d = doc /\ k' = k) \/ gives child' (doc + 1) k' d.
Proof.
  intros Hge Hd Hmin Hden. unfold gives. rewrite Hden. split.
  - intros [Hle Hk]. destruct (N.lt_trichotomy d doc) as [Hl|[->|Hl]]; [by rewrite Hmin in Hk by lia| |right; split; [lia|done]].
    left. split; [done|]. congruence.
  - intros [[-> ->]|[Hle Hk]]; split; (done || lia).
Qed.

(** The documents after one is pushed. *)
Lemma drained_step child child' t doc k yes maybe c r :
  (t <= doc)%N -> den child doc = Some k -> (forall e, (t <= e < doc)%N -> den child e = None) ->
  (forall e, den child' e = den child e) ->
  drained (gives child' (doc + 1)) (pushed k doc yes maybe).1 (pushed k doc yes maybe).2 c r ->
  drained (gives child t) yes maybe c r.
Proof.
  intros Hge Hd Hmin Hden [Hr|(y & m & -> & Hy & Hm)]; [by left|]. right. exists y, m. split; [done|].
  pose proof (fun k' d => gives_step child child' t doc k k' d Hge Hd Hmin Hden) as Hg.
  destruct k; cbn [pushed fst snd] in *;
    (split; intros d; [rewrite Hy, Hg|rewrite Hm, Hg]; rewrite ?elem_of_app, ?list_elem_of_singleton; naive_solver).
Qed.

Lemma drained_none child t yes maybe c :
  (forall d, (t <= d)%N -> den child d = None) -> drained (gives child t) yes maybe c (Ok (yes, maybe)).
Proof.
  intros Hn. right. exists yes, maybe. split; [done|].
  split; intros d; (split; [by left|]); (intros [Hd|[Hge Hd]]; [done|]); by rewrite Hn in Hd.
Qed.

Lemma drain_child_spec steps fuel child f t yes maybe (a : Advance ck) :
  ok child f -> (f <= t)%N -> fuel_for child <= fuel -> told a -> adv_flag a = false -> N.to_nat (2 ^ 32 - t) < steps ->
  exists r a', drain_child ck steps fuel child t yes maybe a = Some (r, a') /\
    (r <> Err Cancelled -> adv_flag a' = false) /\ told a' /\ drained (gives child t) yes maybe (adv_inner a') r.
Proof.
  revert child f t yes maybe a.
  induction steps as [|steps IH]; intros child f t yes maybe a Hok Hft Hfuel Ht Hfl Hst; [lia|]. cbn [drain_child].
  destruct (ck_ask ck (adv_inner a)) as [stop c] eqn:Hask. pose proof (stopped_ask _ _ _ Hask) as Hs1.
  pose proof (drain_ask a stop c Hask Ht) as Ht1. rewrite Hfl in *. destruct stop.
  { eexists _, _. split; [reflexivity|]. split; [done|]. split; [done|]. left. auto. }
  destruct (next_geq_until_spec fuel child f t _ Hok Hfuel Ht1) as (r & child' & a2 & Heq & Ht2 & Hr).
  rewrite Heq. cbn [mbind option_bind]. destruct Hr as [[-> Hr]|(h & -> & Hfl2 & Hpost)].
  { eexists _, _. split; [reflexivity|]. split; [done|]. split; [done|]. by left. }
  pose proof (post_hit _ _ _ _ _ Hpost) as Hhit. replace (N.max t f) with t in Hhit by lia.
  destruct h as [[doc k]|]; simpl in Hhit.
  2:{ eexists _, _. split; [reflexivity|]. split; [done|]. split; [done|]. by apply drained_none. }
  destruct Hhit as (Hd & Hge & Hmin). destruct Hpost as (_ & _ & [Hden Hh] & f' & -> & Hok').
  pose proof (den_u32 _ _ _ _ Hok Hd) as Hd32. fold (pushed k doc yes maybe).
  destruct (pushed k doc yes maybe) as [yes' maybe'] eqn:Hp. unfold next_u32.
  pose proof (fun c r => drained_step child child' t doc k yes maybe c r Hge Hd Hmin Hden) as Hstep.
  rewrite Hp in Hstep. cbn [fst snd] in Hstep. destruct (N.ltb_spec (doc + 1) (2 ^ 32)).
  - destruct (IH child' (N.max t f) (doc + 1)%N yes' maybe' a2) as (r & a3 & Heq3 & Hfl3 & Ht3 & Hr3); try done.
    + lia.
    + unfold fuel_for in *. by rewrite Hh.
    + lia.
    + exists r, a3. rewrite Heq3. split_and!; try done. by apply Hstep.
  - eexists _, _. split; [reflexivity|]. split; [done|]. split; [done|]. apply Hstep, drained_none.
    intros d Hdd. destruct (den child' d) eqn:Hq; [|done]. pose proof (den_u32 _ _ _ _ Hok' Hq). lia.
Qed.

(** What some child gives. *)
Definition some_gives (children : list Cursor) (k : Certainty) (d : u32) : Prop :=
  exists x, x ∈ children /\ den x d = Some k.

Lemma drain_all_spec steps fuel children yes maybe (a : Advance ck) :
  Forall (fun x => ok x 0 /\ fuel_for x <= fuel) children -> told a -> adv_flag a = false ->
  N.to_nat (2 ^ 32) < steps ->
  exists r a', drain_all ck steps fuel children yes maybe a = Some (r, a') /\
    drained (some_gives children) yes maybe (adv_inner a') r.
Proof.
  intros Hall. revert yes maybe a. induction Hall as [|x children [Hok Hfuel] _ IH]; intros yes maybe a Ht Hfl Hst; cbn [drain_all].
  { eexists _, _. split; [reflexivity|]. right. exists yes, maybe. split; [done|].
    split; intros d; (split; [by left|]); intros [Hd|(x & Hx & _)]; (done || by apply not_elem_of_nil in Hx). }
  destruct (drain_child_spec steps fuel x 0 0 yes maybe a Hok (N.le_refl _) Hfuel Ht Hfl ltac:(lia))
    as (r & a' & Heq & Hfl' & Ht' & Hr). rewrite Heq. cbn [mbind option_bind].
  destruct Hr as [[-> Hr]|(y & m & -> & Hy & Hm)]; [eexists _, _; split; [reflexivity|]; by left|].
  destruct (IH y m a' Ht' (Hfl' ltac:(done)) Hst) as (r & a2 & Heq2 & Hr2). exists r, a2. split; [done|].
  destruct Hr2 as [Hr2|(y2 & m2 & -> & Hy2 & Hm2)]; [by left|]. right. exists y2, m2. split; [done|].
  assert (Hcons : forall k d, some_gives (x :: children) k d <-> gives x 0 k d \/ some_gives children k d).
  { intros k d. unfold some_gives, gives. setoid_rewrite elem_of_cons. split.
    - intros (z & [->|Hz] & Hk); [left; split; [lia|done]|right; by exists z].
    - intros [[_ Hk]|(z & Hz & Hk)]; [by exists x; auto|exists z; auto]. }
  split; intros d; rewrite Hcons; [rewrite Hy2, Hy|rewrite Hm2, Hm]; tauto.
Qed.
End drain_child.

(** ** Unions *)

Section union.
  Context {HL : Leaf} {HLL : LeafLaws HL} (ck : Checkpoint) {HF : StopFlag ck} {HS : Sticky ck HF}.

Lemma take_live_spec ds c kept c' :
  take_live ck ds c = (kept, c') -> (stopped c -> stopped c') /\ (stopped c' \/ kept = ds).
Proof.
  revert c kept c'. induction ds as [|d ds IH]; intros c kept c'; cbn [take_live]; [intros [= <- <-]; auto|].
  destruct (ck_ask ck c) as [stop c1] eqn:Hask. pose proof (stopped_ask _ _ _ Hask) as Hs.
  destruct stop; [intros [= <- <-]; auto|]. destruct (take_live ck ds c1) as [k c2] eqn:Ht. intros [= <- <-].
  destruct (IH _ _ _ Ht) as [Hm [Hr| ->]]; auto.
Qed.

Lemma owned_spec bound_ ds k c r c' :
  owned ck bound_ ds k c = (r, c') ->
  r = Err Cancelled /\ stopped c' \/ r = Ok (bits (new_set bound_ ds) k).
Proof.
  unfold owned. destruct (ck_ask ck c) as [stop c1] eqn:Hask. pose proof (stopped_ask _ _ _ Hask) as Hs.
  destruct stop; [intros [= <- <-]; auto|]. destruct (take_live ck ds c1) as [kept c2] eqn:Ht.
  destruct (take_live_spec _ _ _ _ Ht) as [_ Hk]. destruct (ck_ask ck c2) as [stop c3] eqn:Hask3.
  pose proof (stopped_ask _ _ _ Hask3) as Hs3. destruct stop; intros [= <- <-]; [auto|]. right.
  destruct Hk as [Hst| ->]; [|done]. by pose proof (sticky _ _ _ Hask3 Hst).
Qed.

Lemma kor_yes a b : kor a b = Some CYes <-> a = Some CYes \/ b = Some CYes.
Proof. destruct a as [[]|], b as [[]|]; naive_solver. Qed.

Lemma any_of_yes cs d : any_of cs d = Some CYes <-> some_gives cs CYes d.
Proof.
  unfold any_of, some_gives. induction cs as [|x cs IH]; [split; [done|by intros (x & ?%not_elem_of_nil & _)]|].
  rewrite fmap_cons. cbn [fold_right]. rewrite kor_yes, IH. setoid_rewrite elem_of_cons. split.
  - intros [Hk|(z & Hz & Hk)]; [by exists x; auto|by exists z; auto].
  - intros (z & [->|Hz] & Hk); [by left|right; by exists z].
Qed.

Lemma any_of_some cs d : any_of cs d <> None <-> exists k, some_gives cs k d.
Proof.
  unfold any_of, some_gives. induction cs as [|x cs IH]; [split; [done|by intros (k & x & ?%not_elem_of_nil & _)]|].
  rewrite fmap_cons. cbn [fold_right]. rewrite kor_None, IH. setoid_rewrite elem_of_cons. split.
  - intros [Hx|(k & z & Hz & Hk)]; [destruct (den x d) as [k|] eqn:Hk; [by exists k, x; auto|done]|by exists k, z; auto].
  - intros (k & z & [->|Hz] & Hk); [left; by rewrite Hk|right; by exists k, z].
Qed.

(** Two bitmaps, Yes and Maybe, stand for the union below the bound. *)
Lemma bitmaps_den bound_ cs y m d :
  (forall e, e ∈ y <-> some_gives cs CYes e) -> (forall e, e ∈ m <-> some_gives cs CMaybe e) ->
  den (or_new [bits (new_set bound_ y) CYes; bits (new_set bound_ m) CMaybe]) d =
    if (d <? bound_)%N then any_of cs d else None.
Proof.
  intros Hy Hm. cbn [or_new den]. rewrite !fmap_cons. cbn [fold_right den bits].
  rewrite !(proj2 (proj2 (new_set_spec _ _))). destruct (d <? bound_)%N; [|done]. cbn [andb].
  destruct (bool_decide_reflect (d ∈ y)) as [Hd|Hd], (bool_decide_reflect (d ∈ m)) as [Hd'|Hd'];
    rewrite Hy in Hd; rewrite Hm in Hd'; cbn.
  - symmetry. by apply any_of_yes.
  - symmetry. by apply any_of_yes.
  - destruct (any_of cs d) as [[]|] eqn:Ha; [done|by apply any_of_yes in Ha|].
    exfalso. apply (proj2 (any_of_some cs d)); [by exists CMaybe|done].
  - destruct (any_of cs d) as [[]|] eqn:Ha; [|by apply any_of_yes in Ha|done]. exfalso.
    assert (Hs : any_of cs d <> None) by (by rewrite Ha). apply any_of_some in Hs as ([] & Hs); done.
Qed.

Lemma materialise_spec steps fuel cs bound_ c :
  Forall (fun x => ok x 0 /\ fuel_for x <= fuel) cs -> N.to_nat (2 ^ 32) < steps -> (bound_ <= 2 ^ 32)%N ->
  exists r c', materialise ck steps fuel cs bound_ c = Some (r, c') /\
    (r = Err Cancelled /\ stopped c' \/
     exists cur, r = Ok cur /\ ok cur 0 /\ height cur = 2 /\ forall d, den cur d = if (d <? bound_)%N then any_of cs d else None).
Proof.
  intros Hall Hst Hb. unfold materialise.
  destruct (drain_all_spec ck steps fuel cs [] [] (advance_new c) Hall) as (r & a & -> & Hr); [done|done|done|].
  cbn [mbind option_bind]. destruct Hr as [[-> Hr]|(y & m & -> & Hy & Hm)]; [eexists _, _; split; [reflexivity|]; auto|].
  destruct (owned ck bound_ y CYes (adv_inner a)) as [r1 c1] eqn:H1.
  destruct (owned_spec _ _ _ _ _ _ H1) as [[-> Hs]| ->]; [eexists _, _; split; [reflexivity|]; auto|].
  destruct (owned ck bound_ m CMaybe c1) as [r2 c2] eqn:H2.
  destruct (owned_spec _ _ _ _ _ _ H2) as [[-> Hs]| ->]; [eexists _, _; split; [reflexivity|]; auto|].
  eexists _, _. split; [reflexivity|]. right. eexists. split; [reflexivity|]. split.
  - apply or_new_ok. assert (Hbits : forall ds k, ok (bits (new_set bound_ ds) k) 0).
    { intros ds k. destruct (new_set_spec bound_ ds) as (Hwf & Hbd & _). split; [done|]. rewrite Hbd. split; [done|].
      apply same_from_refl. }
    constructor; [apply Hbits|]. constructor; [apply Hbits|constructor].
  - split; [done|]. intros d. apply bitmaps_den; intros e; [rewrite Hy|rewrite Hm]; rewrite elem_of_nil; tauto.
Qed.

Lemma any_of_filter cs d : any_of (filter (fun x => is_empty_cursor x = false) cs) d = any_of cs d.
Proof.
  unfold any_of. induction cs as [|x cs IH]; [done|]. rewrite filter_cons. case_decide as Hx.
  - rewrite !fmap_cons. cbn [fold_right]. by rewrite IH.
  - rewrite IH, fmap_cons. cbn [fold_right]. destruct (is_empty_cursor x) eqn:He; [|done].
    by rewrite (is_empty_cursor_spec x He).
Qed.
(** What a union of fresh cursors answers. *)
Definition union_of (children : list Cursor) (bound_ : u32) (cur : Cursor) : Prop :=
  ok cur 0 /\ height cur <= S (Nat.max 1 (fold_right Nat.max 0 (height <$> children))) /\
  forall d, ((d < bound_)%N -> den cur d = any_of children d) /\
            ((bound_ <= d)%N -> den cur d = any_of children d \/ den cur d = None).

Lemma heights_filter (P : Cursor -> Prop) `{!forall x, Decision (P x)} cs :
  fold_right Nat.max 0 (height <$> filter P cs) <= fold_right Nat.max 0 (height <$> cs).
Proof.
  induction cs as [|x cs IH]; [done|]. rewrite filter_cons. case_decide; rewrite ?fmap_cons; cbn [fold_right]; lia.
Qed.

Lemma union_of_filter cs bound_ cur :
  union_of (filter (fun x => is_empty_cursor x = false) cs) bound_ cur -> union_of cs bound_ cur.
Proof.
  intros (Hok & Hh & Hd). split; [done|]. split.
  - pose proof (heights_filter (fun x => is_empty_cursor x = false) cs). lia.
  - intros d. rewrite <- any_of_filter. apply Hd.
Qed.

Lemma or_until_spec steps fuel cs bound_ c :
  Forall (fun x => ok x 0 /\ fuel_for x <= fuel) cs -> N.to_nat (2 ^ 32) < steps -> (bound_ <= 2 ^ 32)%N ->
  exists r c', or_until ck steps fuel cs bound_ c = Some (r, c') /\
    (r = Err Cancelled /\ stopped c' \/ exists cur, r = Ok cur /\ union_of cs bound_ cur).
Proof.
  intros Hok Hsteps Hb. unfold or_until. destruct (ck_ask ck c) as [stop c1] eqn:Hask.
  pose proof (stopped_ask _ _ _ Hask) as Hs. destruct stop; [eexists _, _; split; [reflexivity|]; auto|].
  assert (Hfok : Forall (fun x => ok x 0 /\ fuel_for x <= fuel) (filter (fun x => is_empty_cursor x = false) cs))
    by (rewrite Forall_forall in *; intros x [_ Hx]%list_elem_of_filter; by apply Hok).
  pose proof (fun cur => union_of_filter cs bound_ cur) as Hu. revert Hfok Hu.
  generalize (filter (fun x => is_empty_cursor x = false) cs). clear Hok. intros fs Hfs Hu.
  assert (Hexact : forall cur, ok cur 0 -> (forall d, den cur d = any_of fs d) ->
    height cur <= S (Nat.max 1 (fold_right Nat.max 0 (height <$> fs))) ->
    exists r c', Some (Ok cur, c1) = Some (r, c') /\
    (r = Err Cancelled /\ stopped c' \/ exists cur, r = Ok cur /\ union_of cs bound_ cur)).
  { intros cur Hc Hd Hh. eexists _, _. split; [reflexivity|]. right. exists cur. split; [done|]. apply Hu.
    split; [done|]. split; [done|]. intros d. rewrite Hd. auto. }
  destruct fs as [|x [|x2 fs]].
  - apply Hexact; [done..|]. cbn. lia.
  - apply Hexact; [by inversion_clear Hfs as [|? ? [? _]]| |cbn; lia]. intros d. unfold any_of. simpl. by destruct (den x d).
  - destruct (_ || _).
    + destruct (materialise_spec steps fuel (x :: x2 :: fs) bound_ c1 Hfs Hsteps Hb) as (r & c' & -> & Hr).
      eexists _, _. split; [reflexivity|]. destruct Hr as [Hr|(cur & -> & Hc & Hh & Hd)]; [by left|]. right. exists cur.
      split; [done|]. apply Hu. split; [done|]. split; [lia|]. intros d. rewrite Hd. destruct (N.ltb_spec d bound_); split; auto; lia.
    + apply Hexact; [|done|cbn [or_new height]; lia]. apply or_new_ok. eapply Forall_impl; [exact Hfs|]. by intros z [? _].
Qed.
End union.

(** ** Properties *)

(** C25: A union is the OR of its children.  [Cursor::or_until] returns: either
    the error [Cancelled], and then the cancellation was answered, or a fresh
    cursor that stands below [bound] for the Kleene OR of the children, whether
    it merges them, keeps one of them or drains them into two bitmaps; a
    document at or above the bound is dropped when it is materialised. *)
Theorem or_until_is_union (HL : Leaf) (HLL : LeafLaws HL) (ck : Checkpoint) (HF : StopFlag ck) (HS : Sticky ck HF)
    (children : list Cursor) (bound_ : u32) (c : ck_state ck) (steps fuel : nat)
    (Hok : Forall (fun x => ok x 0 /\ fuel_for x <= fuel) children) (Hsteps : N.to_nat (2 ^ 32) < steps)
    (Hb : (bound_ <= 2 ^ 32)%N) :
  exists r c', or_until ck steps fuel children bound_ c = Some (r, c') /\
    (r = Err Cancelled /\ stopped c' \/
     exists cur, r = Ok cur /\ ok cur 0 /\
       forall d, ((d < bound_)%N -> den cur d = any_of children d) /\
                 ((bound_ <= d)%N -> den cur d = any_of children d \/ den cur d = None)).
Proof.
  destruct (or_until_spec ck steps fuel children bound_ c Hok Hsteps Hb) as (r & c' & Heq & Hr).
  exists r, c'. split; [done|]. destruct Hr as [Hr|(cur & -> & Hc & _ & Hd)]; [by left|]. right. by exists cur.
Qed.

Lemma or_until_is_union_witness :
  exists r c', or_until never (S (N.to_nat (2 ^ 32))) (fuel_for sample_a) [sample_a; CEmpty; sample_b] 100 tt = Some (r, c') /\
    (r = Err Cancelled /\ @stopped never never_flag c' \/
     exists cur, r = Ok cur /\ ok cur 0 /\
       forall d, ((d < 100)%N -> den cur d = any_of [sample_a; CEmpty; sample_b] d) /\
                 ((100 <= d)%N -> den cur d = any_of [sample_a; CEmpty; sample_b] d \/ den cur d = None)).
Proof.
  destruct sample_parts_ok as (Ha & Hb & _).
  refine (or_until_is_union _ _ never never_flag _ [sample_a; CEmpty; sample_b] 100 tt
           (S (N.to_nat (2 ^ 32))) (fuel_for sample_a) _ (Nat.lt_succ_diag_r _) _); [|by vm_compute].
  constructor; [split; [exact Ha|apply le_n]|]. constructor; [split; [exact I|apply le_n]|].
  constructor; [split; [exact Hb|apply le_n]|constructor].
Defined.

(** Cancellation.  [Cursor::next_geq_until] on a fresh cursor returns:
    either the error [Cancelled], and then the cancellation was answered, or
    the first document at or above the target with its certainty. *)
Theorem next_geq_until_cancels (HL : Leaf) (HLL : LeafLaws HL) (ck : Checkpoint) (HF : StopFlag ck)
    (cur : Cursor) (t : u32) (c : ck_state ck) (fuel : nat) (Hok : ok cur 0) (Hfuel : fuel_for cur <= fuel) :
  exists r cur' a, next_geq_until ck fuel cur t (advance_new c) = Some (r, cur', a) /\
    (r = Err Cancelled /\ stopped (adv_inner a) \/ exists h, r = Ok h /\ first_hit (den cur) t h).
Proof.
  destruct (next_geq_until_spec ck fuel cur 0 t (advance_new c) Hok Hfuel) as (r & cur' & a & Heq & _ & Hr); [done|].
  exists r, cur', a. split; [done|]. destruct Hr as [Hr|(h & -> & _ & Hp)]; [by left|]. right. exists h. split; [done|].
  apply post_hit in Hp. by replace (N.max t 0) with t in Hp by lia.
Qed.

Lemma next_geq_until_cancels_witness :
  exists r cur' a, next_geq_until never (fuel_for sample_tree) sample_tree 4 (advance_new (ck := never) tt) = Some (r, cur', a) /\
    (r = Err Cancelled /\ stopped (adv_inner a) \/ exists h, r = Ok h /\ first_hit (den sample_tree) 4 h).
Proof. exact (next_geq_until_cancels _ _ never never_flag sample_tree 4 tt (fuel_for sample_tree) sample_tree_ok (le_n _)). Defined.

(** C26: Cancellation is prompt.  Once the cancellation answers true, an
    [Advance] whatever its history stops within 1025 steps, even when no
    step yields a document. *)
Theorem cancellation_prompt (ck : Checkpoint) (T : ck_state ck -> Prop) (c : ck_state ck) (n : nat)
    (HT : forall c, T c -> (ck_ask ck c).1 = true) (Hc : T (adv_inner (steps ck n (advance_new c)))) :
  adv_flag (steps ck 1025 (steps ck n (advance_new c))) = true.
Proof.
  apply (steps_stop ck T); [done|done|].
  assert (Hr : forall n (a : Advance ck), (remaining a <= 1024)%N -> (remaining (steps ck n a) <= 1024)%N).
  { clear. intros n. induction n as [|n IH]; intros a Ha; [done|]. cbn [steps]. apply IH. unfold adv_step.
    destruct (adv_flag a); [done|]. destruct (remaining a =? 0)%N; [|simpl; lia].
    destruct (ck_ask ck (adv_inner a)); simpl; lia. }
  specialize (Hr n (advance_new c)). cbn [advance_new remaining] in Hr. specialize (Hr ltac:(lia)). lia.
Qed.

(** A cancellation that has been answered. *)
Definition always : Checkpoint := mkCheckpoint unit (fun c => (true, c)).

Lemma cancellation_prompt_witness : adv_flag (steps always 1025 (steps always 3 (advance_new (ck := always) tt))) = true.
Proof. exact (cancellation_prompt always (fun _ => True) tt 3 (fun _ _ => eq_refl) I). Defined.
