(* ===== verification/Until.v ===== *)
(** * Until: calls that may fail, be cancelled or panic

    The planning functions of [crates/ferret-index/src/candidate.rs] and of
    [crates/ferret-query/src/{grep,content,plan}.rs] take a [cancelled]
    closure, ask it at their checkpoints and return [Result<_, ReadError>].
    Here such a call is a function of the checkpoint's state: [None] when it
    panics or runs out of fuel, else its result and the state after its
    questions.

    [runs E m Q] says that [m] always answers: with a value of [Q], with
    [Cancelled] once the cancellation was answered, or with an error of [E]. *)
From S2P Require Import Prelude DocSet Cursor Union.

Section until.
Context (ck : Checkpoint).

Definition Until (A : Type) : Type := ck_state ck -> option (result A ReadError * ck_state ck).

(** [Ok(a)], [Err(e)] and a panic. *)
Definition done {A} (a : A) : Until A := fun c => Some (Ok a, c).
Definition fail {A} (e : ReadError) : Until A := fun c => Some (Err e, c).
Definition panic {A} : Until A := fun _ => None.

(** [m?], then [k]. *)
Definition and_then {A B} (m : Until A) (k : A -> Until B) : Until B := fun c =>
  match m c with
  | None => None
  | Some (Err e, c) => Some (Err e, c)
  | Some (Ok a, c) => k a c
  end.

(** [if cancelled() { return Err(ReadError::Cancelled) }]. *)
Definition check : Until unit := fun c =>
  let '(stop, c) := ck_ask ck c in Some (if stop then Err Cancelled else Ok tt, c).

(** A result computed without a question. *)
Definition lift {A} (r : result A ReadError) : Until A := fun c => Some (r, c).

(** [iter.map(f).collect::<Result<Vec<_>, _>>()]. *)
Section each.
Context {A B : Type} (f : A -> Until B).
Fixpoint each (l : list A) : Until (list B) :=
  match l with
  | [] => done []
  | x :: l => and_then (f x) (fun y => and_then (each l) (fun ys => done (y :: ys)))
  end.
End each.

(** [for x in l { if let Some(found) = f(x)? { return Ok(Some(found)) } }]. *)
Section first.
Context {A B : Type} (f : A -> Until (option B)).
Fixpoint first_some (l : list A) : Until (option B) :=
  match l with
  | [] => done None
  | x :: l => and_then (f x) (fun o => match o with Some y => done (Some y) | None => first_some l end)
  end.
End first.

(** A loop that carries a value. *)
Section fold.
Context {A B : Type} (f : B -> A -> Until B).
Fixpoint fold_until (l : list A) (acc : B) : Until B :=
  match l with
  | [] => done acc
  | x :: l => and_then (f acc x) (fun acc => fold_until l acc)
  end.
End fold.
End until.
Arguments done {ck A} a.
Arguments fail {ck A} e.
Arguments panic {ck A}.
Arguments and_then {ck A B} m k.
Arguments lift {ck A} r.
Arguments each {ck A B} f l.
Arguments first_some {ck A B} f l.
Arguments fold_until {ck A B} f l acc.

Declare Scope until_scope.
Notation "x <- m ; k" := (and_then m (fun x => k))
  (at level 100, m at next level, right associativity) : until_scope.
Notation "m ;; k" := (and_then m (fun _ => k))
  (at level 100, right associativity) : until_scope.
#[local] Open Scope until_scope.

(** ** What a call answers *)

Section runs.
Context {ck : Checkpoint} {HF : StopFlag ck}.

Definition runs {A} (E : ReadError -> Prop) (m : Until ck A) (Q : A -> Prop) : Prop :=
  forall c, exists r c', m c = Some (r, c') /\
    match r with Ok a => Q a | Err Cancelled => stopped c' | Err e => E e end.

(** The errors of a call that reads nothing, and of one that reads. *)
Definition no_error (_ : ReadError) : Prop := False.
Definition any_error (_ : ReadError) : Prop := True.

Lemma runs_done {A} E (a : A) (Q : A -> Prop) : Q a -> runs E (done a) Q.
Proof. intros H c. by exists (Ok a), c. Qed.

Lemma runs_bind {A B} E (m : Until ck A) (k : A -> Until ck B) (P : A -> Prop) Q :
  runs E m P -> (forall a, P a -> runs E (k a) Q) -> runs E (and_then m k) Q.
Proof.
  intros Hm Hk c. destruct (Hm c) as (r & c1 & Heq & Hr). unfold and_then. rewrite Heq.
  destruct r as [a|e]; [by apply Hk|]. by exists (Err e), c1.
Qed.

(** A tail of a call is a call. *)
Lemma runs_regroup {A B C} E (m : Until ck A) (k : A -> Until ck B) (k' : B -> Until ck C) Q :
  runs E (and_then (and_then m k) k') Q -> runs E (and_then m (fun a => and_then (k a) k')) Q.
Proof. intros Hr c. specialize (Hr c). unfold and_then in *. by destruct (m c) as [[[a|e] c']|]. Qed.

Lemma runs_mono {A} E (m : Until ck A) (P Q : A -> Prop) : runs E m P -> (forall a, P a -> Q a) -> runs E m Q.
Proof. intros Hm HPQ c. destruct (Hm c) as (r & c1 & Heq & Hr). exists r, c1. split; [done|]. destruct r; auto. Qed.

Lemma runs_weaken {A} (E E' : ReadError -> Prop) (m : Until ck A) Q : runs E m Q -> (forall e, E e -> E' e) -> runs E' m Q.
Proof.
  intros Hm HE c. destruct (Hm c) as (r & c1 & Heq & Hr). exists r, c1. split; [done|].
  destruct r as [a|e]; [done|]. destruct e; auto.
Qed.

Lemma runs_check E (Q : unit -> Prop) : Q tt -> runs E (check ck) Q.
Proof.
  intros HQ c. unfold check. destruct (ck_ask ck c) as [stop c1] eqn:Hask.
  pose proof (stopped_ask _ _ _ Hask) as Hs. destruct stop; eexists _, _; (split; [reflexivity|]); [by apply Hs; left|done].
Qed.

Lemma runs_each {A B} E (f : A -> Until ck B) (R : A -> B -> Prop) l :
  Forall (fun x => runs E (f x) (R x)) l -> runs E (each f l) (Forall2 R l).
Proof.
  induction 1 as [|x l Hx _ IH]; cbn [each]; [by apply runs_done|]. eapply runs_bind; [exact Hx|]. intros y Hy.
  eapply runs_bind; [exact IH|]. intros ys Hys. apply runs_done. by constructor.
Qed.

Lemma runs_first {A B} E (f : A -> Until ck (option B)) (Q : option B -> Prop) l :
  Forall (fun x => runs E (f x) (fun o => o <> None -> Q o)) l -> Q None -> runs E (first_some f l) Q.
Proof.
  intros Hl HN. induction Hl as [|x l Hx _ IH]; cbn [first_some]; [by apply runs_done|].
  eapply runs_bind; [exact Hx|]. intros [y|] Hy; [|exact IH]. apply runs_done. by apply Hy.
Qed.

Lemma runs_fold {A B} E (f : B -> A -> Until ck B) (I : B -> Prop) l acc :
  Forall (fun x => forall acc, I acc -> runs E (f acc x) I) l -> I acc -> runs E (fold_until f l acc) I.
Proof.
  intros Hl. revert acc. induction Hl as [|x l Hx _ IH]; intros acc Hacc; cbn [fold_until]; [by apply runs_done|].
  eapply runs_bind; [by apply Hx|]. intros acc' Hacc'. by apply IH.
Qed.
(** As [runs_fold], the invariant knowing what has been read. *)
Lemma runs_fold_prefix {A B} E (f : B -> A -> Until ck B) (I : list A -> B -> Prop) l acc :
  I [] acc -> (forall before x rest acc, l = before ++ x :: rest -> I before acc -> runs E (f acc x) (I (before ++ [x]))) ->
  runs E (fold_until f l acc) (I l).
Proof.
  intros Hacc Hstep. assert (Hgen : forall before rest acc, l = before ++ rest -> I before acc -> runs E (fold_until f rest acc) (I l)).
  { intros before rest. revert before. induction rest as [|x rest IH]; intros before b Hl Hb; cbn [fold_until].
    - rewrite app_nil_r in Hl. rewrite Hl. by apply runs_done.
    - eapply runs_bind; [by eapply Hstep|]. intros b' Hb'. apply (IH (before ++ [x])); [by rewrite <- app_assoc|done]. }
  by apply (Hgen []).
Qed.
End runs.

(** ** Unions *)

(** A union of fresh cursors at most [h] high. *)
Lemma runs_union {HL : Leaf} {HLL : LeafLaws HL} (ck : Checkpoint) {HF : StopFlag ck} {HS : Sticky ck HF}
    (steps fuel h : nat) (cs : list Cursor) (bound_ : u32) :
  Forall (fun x => ok x 0 /\ height x <= h) cs -> 1 <= h -> h + N.to_nat (2 ^ 32) + 2 <= fuel ->
  N.to_nat (2 ^ 32) < steps -> (bound_ <= 2 ^ 32)%N ->
  runs no_error (or_until ck steps fuel cs bound_)
    (fun cur => ok cur 0 /\ height cur <= S h /\ forall d, (d < bound_)%N -> den cur d = any_of cs d).
Proof.
  intros Hcs Hh Hfuel Hsteps Hb c. destruct (or_until_spec ck steps fuel cs bound_ c) as (r & c' & Heq & Hr); [|done|done|].
  { eapply Forall_impl; [exact Hcs|]. intros x [Hx Hxh]. split; [done|]. unfold fuel_for. lia. }
  exists r, c'. split; [exact Heq|]. destruct Hr as [[-> Hr]|(cur & -> & Hok & Hcur & Hd)]; [exact Hr|].
  split; [done|]. split; [|intros d Hd'; by apply Hd].
  assert (Hm : fold_right Nat.max 0 (height <$> cs) <= h); [|lia].
  apply heights_under. eapply Forall_impl; [exact Hcs|]. by intros x [_ ?].
Qed.

Create HintDb until discriminated.
#[export] Hint Resolve runs_done runs_check : until.

(** One checkpoint, then the rest of the call. *)
Ltac checkpoint := eapply runs_bind; [by apply (runs_check _ (fun _ => True))|intros _ _].
