(* ===== verification/Bytes.v ===== *)
(** * Bytes: little-endian fields of a byte string

    Models [u32_at] and [u64_at] of [crates/ferret-index/src/segment/mod.rs]
    and [crates/ferret-catalog/src/format.rs], and slicing by a range.  Both
    panic out of range, so a read is an [option]: [None] is the panic.  The text
    functions are the standard library's: ASCII case and UTF-8.

    The lemmas say where a field of a concatenation lies, that consecutive
    fields join, and that the numbers and their little-endian bytes
    correspond.  [layout] proves the first kind, [joined] the second. *)
From S2P Require Import Prelude Word.

(** [&bytes[from..to]]. *)
Definition sub_bytes (l : bytes) (from to : nat) : option bytes :=
  if (from <=? to) && (to <=? length l) then Some (slice l from to) else None.

(** [u32_at] and [u64_at]. *)
Definition u32_at (l : bytes) (at_ : nat) : option u32 := le_num <$> sub_bytes l at_ (at_ + 4).
Definition u64_at (l : bytes) (at_ : nat) : option u64 := le_num <$> sub_bytes l at_ (at_ + 8).

(** [n] zero bytes. *)
Definition zeros (n : nat) : bytes := replicate n 0%N.

(** [u64::checked_add] and [u64::checked_mul]. *)
Definition checked_add (a b : u64) : option u64 := if (a + b <? 2 ^ 64)%N then Some (a + b)%N else None.
Definition checked_mul (a b : u64) : option u64 := if (a * b <? 2 ^ 64)%N then Some (a * b)%N else None.

(** [u8::to_ascii_lowercase] and the ASCII classes of [u8]. *)
Definition to_ascii_lowercase (b : u8) : u8 := if in_range 65 90 b then (b + 32)%N else b.
Definition is_ascii_alphabetic (b : u8) : bool := in_range 65 90 b || in_range 97 122 b.
Definition is_ascii_lowercase (b : u8) : bool := in_range 97 122 b.
Definition is_ascii_uppercase (b : u8) : bool := in_range 65 90 b.
Definition is_ascii_digit (b : u8) : bool := in_range 48 57 b.
Definition is_ascii_alphanumeric (b : u8) : bool := is_ascii_alphabetic b || is_ascii_digit b.
Definition is_ascii_hexdigit (b : u8) : bool := is_ascii_digit b || in_range 65 70 b || in_range 97 102 b.

(** [eq_ignore_ascii_case]. *)
Definition eq_ignore_ascii_case (a b : bytes) : bool :=
  bool_decide (to_ascii_lowercase <$> a = to_ascii_lowercase <$> b).

Lemma to_ascii_lowercase_idem b : to_ascii_lowercase (to_ascii_lowercase b) = to_ascii_lowercase b.
Proof.
  unfold to_ascii_lowercase. destruct (in_range 65 90 b) eqn:E; [|by rewrite E].
  unfold in_range in *. destruct (N.leb_spec (b + 32) 90); [|by rewrite andb_false_r].
  apply andb_true_iff in E as [E1%N.leb_le _]. lia.
Qed.

(** ** Text *)

(** [char]: a Unicode scalar value; [encode_utf8]. *)
Definition scalar (c : u32) : bool := (c <? 55296)%N || ((57344 <=? c) && (c <? 1114112))%N.
Definition encode_utf8 (c : u32) : bytes :=
  if (c <? 128)%N then [c]
  else if (c <? 2048)%N then [192 + c / 64; 128 + c mod 64]%N
  else if (c <? 65536)%N then [224 + c / 4096; 128 + c / 64 mod 64; 128 + c mod 64]%N
  else [240 + c / 262144; 128 + c / 4096 mod 64; 128 + c / 64 mod 64; 128 + c mod 64]%N.

(** [std::str::from_utf8], as the characters. *)
Definition continuation (b : u8) : bool := in_range 128 191 b.
Fixpoint utf8_decode (l : bytes) : option (list u32) :=
  match l with
  | [] => Some []
  | a :: l =>
      if (a <? 128)%N then cons a <$> utf8_decode l
      else
        match l with
        | b :: l1 =>
            if in_range 194 223 a && continuation b then cons ((a - 192) * 64 + (b - 128))%N <$> utf8_decode l1
            else
              match l1 with
              | c :: l2 =>
                  let second := if (a =? 224)%N then in_range 160 191 b
                                else if (a =? 237)%N then in_range 128 159 b else continuation b in
                  if in_range 224 239 a && second && continuation c then
                    cons ((a - 224) * 4096 + (b - 128) * 64 + (c - 128))%N <$> utf8_decode l2
                  else
                    match l2 with
                    | d :: l3 =>
                        let second := if (a =? 240)%N then in_range 144 191 b
                                      else if (a =? 244)%N then in_range 128 143 b else continuation b in
                        if in_range 240 244 a && second && continuation c && continuation d then
                          cons ((a - 240) * 262144 + (b - 128) * 4096 + (c - 128) * 64 + (d - 128))%N <$> utf8_decode l3
                        else None
                    | [] => None
                    end
              | [] => None
              end
        | [] => None
        end
  end.

(** ** Numbers *)

Lemma length_le_bytes w n : length (le_bytes w n) = w.
Proof. revert n. induction w as [|w IH]; intros n; [done|]. cbn [le_bytes length]. by rewrite IH. Qed.

Lemma le_num_bytes w n : (n < 256 ^ N.of_nat w)%N -> le_num (le_bytes w n) = n.
Proof.
  revert n. induction w as [|w IH]; intros n Hn; [simpl in *; lia|]. rewrite Nat2N.inj_succ, N.pow_succ_r' in Hn.
  cbn [le_bytes le_num]. rewrite IH by (apply N.Div0.div_lt_upper_bound; lia).
  rewrite N.add_comm. symmetry. apply N.div_mod'.
Qed.

Lemma le_bytes_num l : bytes_ok l -> le_bytes (length l) (le_num l) = l.
Proof.
  induction 1 as [|b l Hb _ IH]; [done|]. cbn [length le_bytes le_num]. unfold byte_ok in Hb. f_equal.
  - rewrite (N.mul_comm 256), N.Div0.mod_add. by apply N.mod_small.
  - rewrite (N.mul_comm 256), N.div_add by done. rewrite N.div_small by done. by rewrite N.add_0_l.
Qed.

Lemma le_bytes_ok w n : bytes_ok (le_bytes w n).
Proof.
  revert n. induction w as [|w IH]; intros n; constructor; [|apply IH]. unfold byte_ok. by apply N.mod_lt.
Qed.

Lemma le_num_lt l : bytes_ok l -> (le_num l < 256 ^ N.of_nat (length l))%N.
Proof.
  induction 1 as [|b l Hb _ IH]; [done|]. cbn [length le_num]. rewrite Nat2N.inj_succ, N.pow_succ_r'.
  unfold byte_ok in Hb. lia.
Qed.

Lemma bytes_ok_app a b : bytes_ok (a ++ b) <-> bytes_ok a /\ bytes_ok b.
Proof. apply Forall_app. Qed.

Lemma bytes_ok_concat ls : bytes_ok (concat ls) <-> Forall bytes_ok ls.
Proof.
  induction ls as [|l ls IH]; [split; constructor|]. cbn [concat]. by rewrite bytes_ok_app, IH, Forall_cons.
Qed.

Lemma bytes_ok_slice l a b : bytes_ok l -> bytes_ok (slice l a b).
Proof. intros H. by apply Forall_take, Forall_drop. Qed.

(** ** Slices *)

Lemma sub_bytes_in l a b : a <= b -> b <= length l -> sub_bytes l a b = Some (slice l a b).
Proof. intros H1 H2. unfold sub_bytes. by rewrite !leb_correct. Qed.

Lemma u32_at_in l a : a + 4 <= length l -> u32_at l a = Some (le_num (slice l a (a + 4))).
Proof. intros H. unfold u32_at. by rewrite sub_bytes_in by lia. Qed.
Lemma u64_at_in l a : a + 8 <= length l -> u64_at l a = Some (le_num (slice l a (a + 8))).
Proof. intros H. unfold u64_at. by rewrite sub_bytes_in by lia. Qed.

(** The [k]th piece of a concatenation, by its place. *)
Lemma slice_concat (ls : list bytes) (k : nat) (x : bytes) a b :
  ls !! k = Some x -> length (concat (take k ls)) = a -> b = a + length x -> slice (concat ls) a b = x.
Proof.
  intros Hk <- ->. rewrite <- (take_drop_middle ls k x Hk) at 1. rewrite concat_app. cbn [concat].
  unfold slice. rewrite drop_app_length. rewrite take_app_le by lia. apply take_ge. lia.
Qed.

Lemma length_concat_le (ls : list bytes) k x :
  ls !! k = Some x -> length (concat (take k ls)) + length x <= length (concat ls).
Proof.
  intros Hk. rewrite <- (take_drop_middle ls k x Hk) at 2. rewrite concat_app, length_app. cbn [concat].
  rewrite length_app. lia.
Qed.

Lemma sub_concat ls k x a b :
  ls !! k = Some x -> length (concat (take k ls)) = a -> b = a + length x -> sub_bytes (concat ls) a b = Some x.
Proof.
  intros Hk Ha Hb. pose proof (length_concat_le ls k x Hk). rewrite sub_bytes_in by lia. f_equal. by apply (slice_concat ls k).
Qed.

Lemma u32_concat ls k n a :
  ls !! k = Some (le_bytes 4 n) -> length (concat (take k ls)) = a -> (n < 2 ^ 32)%N -> u32_at (concat ls) a = Some n.
Proof.
  intros Hk Ha Hn. unfold u32_at. rewrite (sub_concat ls k (le_bytes 4 n)); [|done|done|by rewrite length_le_bytes].
  cbn [fmap option_fmap option_map]. f_equal. by apply le_num_bytes.
Qed.

Lemma u64_concat ls k n a :
  ls !! k = Some (le_bytes 8 n) -> length (concat (take k ls)) = a -> (n < 2 ^ 64)%N -> u64_at (concat ls) a = Some n.
Proof.
  intros Hk Ha Hn. unfold u64_at. rewrite (sub_concat ls k (le_bytes 8 n)); [|done|done|by rewrite length_le_bytes].
  cbn [fmap option_fmap option_map]. f_equal. by apply le_num_bytes.
Qed.

Lemma byte_concat (ls : list bytes) k (x : u8) a :
  ls !! k = Some [x] -> length (concat (take k ls)) = a -> concat ls !! a = Some x.
Proof.
  intros Hk <-. rewrite <- (take_drop_middle ls k [x] Hk) at 2. rewrite concat_app. cbn [concat].
  by rewrite lookup_app_r, Nat.sub_diag by done.
Qed.

(** A byte as the number of its slice, and back. *)
Lemma byte_in (l : bytes) a : a < length l -> l !! a = Some (le_num (slice l a (a + 1))).
Proof.
  intros H. destruct (lookup_lt_is_Some_2 l a H) as [x Hx]. rewrite Hx. f_equal. unfold slice.
  replace (a + 1 - a) with 1 by lia. rewrite (drop_S l x a Hx). rewrite firstn_cons, take_0. cbn [le_num]. lia.
Qed.

Lemma single_slice (l : bytes) a b : b = a + 1 -> b <= length l -> [le_num (slice l a b)] = slice l a b.
Proof.
  intros -> H. destruct (lookup_lt_is_Some_2 l a ltac:(lia)) as [x Hx]. unfold slice.
  replace (a + 1 - a) with 1 by lia. rewrite (drop_S l x a Hx). rewrite firstn_cons, take_0. cbn [le_num]. f_equal. lia.
Qed.

(** Consecutive slices join. *)
Lemma slice_join (l : bytes) a b c : a <= b -> b <= c -> slice l a b ++ slice l b c = slice l a c.
Proof.
  intros H1 H2. unfold slice. replace (c - a) with ((b - a) + (c - b)) by lia. rewrite <- take_take_drop. f_equal. f_equal.
  rewrite drop_drop. f_equal. lia.
Qed.

Lemma slice_all (l : bytes) b : b = length l -> slice l 0 b = l.
Proof. intros ->. unfold slice. rewrite drop_0. apply take_ge. lia. Qed.

(** A field's bytes are those of its number. *)
Lemma le_slice l a b w : bytes_ok l -> b = a + w -> b <= length l -> le_bytes w (le_num (slice l a b)) = slice l a b.
Proof.
  intros Hl -> Hb. replace w with (length (slice l a (a + w))) at 1 by (rewrite length_slice; lia).
  by apply le_bytes_num, bytes_ok_slice.
Qed.

Lemma le_slice_lt l a b w : bytes_ok l -> b = a + w -> b <= length l -> (le_num (slice l a b) < 256 ^ N.of_nat w)%N.
Proof.
  intros Hl -> Hb. replace (N.of_nat w) with (N.of_nat (length (slice l a (a + w)))) by (rewrite length_slice; lia).
  by apply le_num_lt, bytes_ok_slice.
Qed.

(** ** Fields of a record

    Values that fit their widths, and the tactics that read a record's fields:
    [read k] reads the [k]th field of a concatenation, [in_range] turns reads
    of bytes long enough into their slices, [rejoin] joins the fields read
    back into the bytes they were read from, [field_bounds] bounds them. *)
Definition u32_ok (n : u32) : Prop := (n < 2 ^ 32)%N.
Definition u64_ok (n : u64) : Prop := (n < 2 ^ 64)%N.
Definition digest_ok (d : bytes) : Prop := length d = 16 /\ bytes_ok d.

#[global] Arguments le_bytes : simpl never.

(** A file redefines this to unfold its own lists of fields. *)
Ltac fields_unfold := idtac.

Ltac field_lengths :=
  fields_unfold; cbn [take concat app length]; unfold zeros;
  repeat progress (rewrite ?length_app, ?length_le_bytes, ?length_replicate; cbn [app length]);
  repeat match goal with H : digest_ok ?d |- context [length ?d] => rewrite (proj1 H) end;
  try reflexivity; cbn [length]; lia.

Ltac fields_in :=
  repeat match goal with H : Forall _ (_ :: _) |- _ => apply Forall_cons in H as [? H] end.

Ltac read k :=
  lazymatch goal with
  | |- mbind _ (sub_bytes ?l ?a ?b) = _ =>
      erewrite (sub_concat _ k _ a b); [|reflexivity|field_lengths|field_lengths]
  | |- mbind _ (u32_at ?l ?a) = _ => erewrite (u32_concat _ k _ a); [|reflexivity|field_lengths|first [assumption | reflexivity]]
  | |- mbind _ (_ !! ?a) = _ => erewrite (byte_concat _ k _ a); [|reflexivity|field_lengths]
  | |- mbind _ (u64_at ?l ?a) = _ => erewrite (u64_concat _ k _ a); [|reflexivity|field_lengths|assumption]
  end; cbn [mbind option_bind].

Ltac in_range :=
  repeat first [rewrite sub_bytes_in by lia | rewrite u32_at_in by lia | rewrite u64_at_in by lia | rewrite byte_in by lia];
  cbn [mbind option_bind].

Ltac rejoin :=
  rewrite ?le_slice by (done || lia); rewrite ?single_slice by lia; rewrite <- ?Nat.add_assoc; cbn [Nat.add];
  rewrite ?app_nil_r; rewrite ?slice_join by lia; try done; f_equal; lia.

Ltac field_bounds :=
  repeat match goal with
  | |- Forall _ [] => constructor
  | |- Forall _ (_ :: _) => constructor
  | |- u32_ok _ => by apply (le_slice_lt _ _ _ 4); [done|lia|lia]
  | |- u64_ok _ => by apply (le_slice_lt _ _ _ 8); [done|lia|lia]
  | |- digest_ok _ => split; [rewrite length_slice; lia|by apply bytes_ok_slice]
  end.
