(* ===== verification/Manifest.v ===== *)
(** * Manifest: the index manifest's codec

    Models [crates/ferret-index/src/manifest.rs]: the manifest and its
    segment entries, [encode], [decode] with its consistency check,
    [declared_len], reading from a file in two steps and matching an opened
    segment.  BLAKE3-128 ([checksum]) and the text crate's versions are
    parameters.  A read past the end of the bytes panics in the source and is
    [None] here, outside the [Option] the decoder returns. *)
From S2P Require Import Prelude Word Bytes.

(** [MAGIC], [FORMAT_VERSION], [HEAD] and [ENTRY]. *)
Definition MAGIC : bytes := ascii_bytes "ferretix".
Definition FORMAT_VERSION : u32 := 3.
Definition HEAD : nat := 88.
Definition ENTRY : nat := 104.

(** [SegmentEntry]. *)
Record SegmentEntry := mkEntry {
  se_number : u64; se_first : u32; se_last : u32; se_docs : u32; se_terms : u64; se_pairs : u64;
  se_bytes : u64; se_digest : bytes; se_trigram_bytes : u64; se_trigram_keys : u64;
  se_trigram_pairs : u64; se_trigram_digest : bytes
}.

(** [segment::Info], the facts of an opened segment's head. *)
Record Info := mkInfo { i_tokenizer : u32; i_first : u32; i_last : u32; i_terms : u64; i_pairs : u64 }.

(** [Manifest]. *)
Record Manifest := mkManifest {
  tokenizer_version : u32; trigram_version : u32; incarnation : bytes; high_water : u32; frontier : u32;
  sequence : u64; next_number : u64; last_follow : option u64; last_merge : option u64;
  segments : list SegmentEntry; unreadable : list u32
}.

#[export] Instance SegmentEntry_eq_dec : EqDecision SegmentEntry.
Proof. solve_decision. Defined.
#[export] Instance Manifest_eq_dec : EqDecision Manifest.
Proof. solve_decision. Defined.

(** [SegmentEntry::total_bytes], wrapping as a release build does, [matches]
    and [matches_trigrams]. *)
Definition total_bytes (s : SegmentEntry) : u64 := ((se_bytes s + se_trigram_bytes s) mod 2 ^ 64)%N.
Definition matches (s : SegmentEntry) (info : Info) (digest : bytes) (bytes_ : u64) (tokenizer : u32) : bool :=
  ((i_first info =? se_first s) && (i_last info =? se_last s) && (i_terms info =? se_terms s) &&
   (i_pairs info =? se_pairs s) && (i_tokenizer info =? tokenizer))%N &&
  bool_decide (digest = se_digest s) && (bytes_ =? se_bytes s)%N.
Definition matches_trigrams (s : SegmentEntry) (info : Info) (digest : bytes) (bytes_ : u64) (version : u32) : bool :=
  ((i_first info =? se_first s) && (i_last info =? se_last s) && (i_terms info =? se_trigram_keys s) &&
   (i_pairs info =? se_trigram_pairs s) && (i_tokenizer info =? version))%N &&
  bool_decide (digest = se_trigram_digest s) && (bytes_ =? se_trigram_bytes s)%N.

Section codec.
  Context (checksum : bytes -> bytes).
  Context (TERM_VERSION TRIGRAM_VERSION : u32).

(** [Manifest::empty]. *)
Definition empty_manifest (incarnation : bytes) : Manifest :=
  mkManifest TERM_VERSION TRIGRAM_VERSION incarnation 0 0 0 0 None None [] [].

(** ** Encoding *)

(** The head's fields, in the order [encode] writes them. *)
Definition head_fields (m : Manifest) : list bytes :=
  [MAGIC; le_bytes 4 FORMAT_VERSION; le_bytes 4 (tokenizer_version m); incarnation m;
   le_bytes 4 (high_water m); le_bytes 4 (frontier m); le_bytes 8 (sequence m); le_bytes 8 (next_number m);
   le_bytes 4 (N.of_nat (length (segments m))); le_bytes 4 (N.of_nat (length (unreadable m)));
   le_bytes 8 (default 0%N (last_follow m)); le_bytes 8 (default 0%N (last_merge m));
   le_bytes 4 (trigram_version m); zeros 4].

Definition entry_fields (s : SegmentEntry) : list bytes :=
  [le_bytes 8 (se_number s); le_bytes 4 (se_first s); le_bytes 4 (se_last s); le_bytes 4 (se_docs s); zeros 4;
   le_bytes 8 (se_terms s); le_bytes 8 (se_pairs s); le_bytes 8 (se_bytes s); se_digest s;
   le_bytes 8 (se_trigram_bytes s); le_bytes 8 (se_trigram_keys s); le_bytes 8 (se_trigram_pairs s);
   se_trigram_digest s].

Definition encode_body (m : Manifest) : bytes :=
  concat (head_fields m) ++ concat ((fun s => concat (entry_fields s)) <$> segments m) ++
  concat (le_bytes 4 <$> unreadable m).

(** [Manifest::encode]. *)
Definition encode (m : Manifest) : bytes := encode_body m ++ checksum (encode_body m).

(** ** Decoding *)

(** [declared_len]. *)
Definition declared_len (b : bytes) : option (option u64) :=
  if length b <? HEAD then Some None
  else
    magic ← sub_bytes b 0 8;
    if bool_decide (magic <> MAGIC) then Some None
    else
      version ← u32_at b 8;
      if negb (version =? FORMAT_VERSION)%N then Some None
      else
        pad ← sub_bytes b 84 88;
        if bool_decide (pad <> zeros 4) then Some None
        else
          count ← u32_at b 56;
          unreadable ← u32_at b 60;
          Some (entries ← checked_mul count (N.of_nat ENTRY);
                head ← checked_add (N.of_nat HEAD + 16) entries;
                docs ← checked_mul unreadable 4;
                checked_add head docs).

(** One iteration of the loop over the segments of [decode]. *)
Definition entry_at (b : bytes) (at_ : nat) : option (option SegmentEntry) :=
  digest ← sub_bytes b (at_ + 48) (at_ + 64);
  pad ← sub_bytes b (at_ + 20) (at_ + 24);
  if bool_decide (pad <> zeros 4) then Some None
  else
    number ← u64_at b at_;
    first ← u32_at b (at_ + 8);
    last ← u32_at b (at_ + 12);
    docs ← u32_at b (at_ + 16);
    terms ← u64_at b (at_ + 24);
    pairs ← u64_at b (at_ + 32);
    bytes_ ← u64_at b (at_ + 40);
    trigram_bytes ← u64_at b (at_ + 64);
    trigram_keys ← u64_at b (at_ + 72);
    trigram_pairs ← u64_at b (at_ + 80);
    trigram_digest ← sub_bytes b (at_ + 88) (at_ + 104);
    Some (Some (mkEntry number first last docs terms pairs bytes_ digest trigram_bytes trigram_keys
                        trigram_pairs trigram_digest)).

(** The loop over the segments, [n] of them from [at_]. *)
Fixpoint entries_at (b : bytes) (at_ n : nat) : option (option (list SegmentEntry)) :=
  match n with
  | 0 => Some (Some [])
  | S n =>
      s ← entry_at b at_;
      match s with
      | None => Some None
      | Some s =>
          rest ← entries_at b (at_ + ENTRY) n;
          Some (match rest with Some l => Some (s :: l) | None => None end)
      end
  end.

(** [(0..unreadable).map(|i| u32_at(bytes, at + i * 4))]. *)
Fixpoint docs_at (b : bytes) (at_ n : nat) : option (list u32) :=
  match n with
  | 0 => Some []
  | S n => d ← u32_at b at_; rest ← docs_at b (at_ + 4) n; Some (d :: rest)
  end.

(** [windows(2).all(..)]. *)
Fixpoint adjacent {A} (f : A -> A -> bool) (l : list A) : bool :=
  match l with
  | a :: (b :: _) as rest => f a b && adjacent f rest
  | _ => true
  end.

(** [Manifest::is_consistent]. *)
Definition is_consistent (m : Manifest) : bool :=
  let ranges :=
    forallb (fun s => (se_first s <=? se_last s) && (se_last s <? frontier m) && (se_number s <? next_number m))%N
      (segments m) &&
    adjacent (fun p q => se_last p <? se_first q)%N (segments m) in
  let unreadable_ :=
    adjacent (fun p q => p <? q)%N (unreadable m) &&
    is_none_or (last (unreadable m)) (fun d => d <? frontier m)%N in
  ranges && unreadable_ && (frontier m <=? high_water m)%N.

Definition nonzero (n : u64) : option u64 := if (n =? 0)%N then None else Some n.

(** [Manifest::decode]. *)
Definition decode (b : bytes) : option (option Manifest) :=
  declared ← declared_len b;
  match declared with
  | None => Some None
  | Some n =>
      if negb (n =? N.of_nat (length b))%N then Some None
      else
        let body := length b - 16 in
        front ← sub_bytes b 0 body;
        sum ← sub_bytes b body (length b);
        if bool_decide (checksum front <> sum) then Some None
        else
          incarnation ← sub_bytes b 16 32;
          count ← u32_at b 56;
          unreadable ← u32_at b 60;
          tokenizer_version ← u32_at b 12;
          trigram_version ← u32_at b 80;
          high_water ← u32_at b 32;
          frontier ← u32_at b 36;
          sequence ← u64_at b 40;
          next_number ← u64_at b 48;
          last_follow ← u64_at b 64;
          last_merge ← u64_at b 72;
          segments ← entries_at b HEAD (N.to_nat count);
          match segments with
          | None => Some None
          | Some segments =>
              docs ← docs_at b (HEAD + N.to_nat count * ENTRY) (N.to_nat unreadable);
              let m := mkManifest tokenizer_version trigram_version incarnation high_water frontier
                         sequence next_number (nonzero last_follow) (nonzero last_merge) segments docs in
              Some (if is_consistent m then Some m else None)
          end
  end.

(** [Manifest::read_from], of a file that held [len] bytes when it was opened
    and holds [file] now; I/O errors and a failed reservation are left out. *)
Definition read_from (file : bytes) (len : u64) : option (option Manifest) :=
  if ((len <? N.of_nat HEAD)%N || (length file <? HEAD))%bool then Some None
  else
    declared ← declared_len (take HEAD file);
    if bool_decide (declared <> Some len) then Some None
    else if (length file <? N.to_nat len) then Some None
    else if (N.to_nat len <? length file) then Some None
    else decode (take (N.to_nat len) file).
End codec.

(** ** Well-formed values *)

Record entry_wf (s : SegmentEntry) : Prop := {
  ew_u64 : Forall u64_ok [se_number s; se_terms s; se_pairs s; se_bytes s; se_trigram_bytes s; se_trigram_keys s; se_trigram_pairs s];
  ew_u32 : Forall u32_ok [se_first s; se_last s; se_docs s];
  ew_digest : digest_ok (se_digest s);
  ew_trigram_digest : digest_ok (se_trigram_digest s)
}.

(** A manifest's fields fit their widths, as Rust's types have it; a time of
    zero is written as none. *)
Record manifest_wf (m : Manifest) : Prop := {
  mw_u32 : Forall u32_ok [tokenizer_version m; trigram_version m; high_water m; frontier m];
  mw_u64 : Forall u64_ok [sequence m; next_number m; default 0%N (last_follow m); default 0%N (last_merge m)];
  mw_times : last_follow m <> Some 0%N /\ last_merge m <> Some 0%N;
  mw_incarnation : digest_ok (incarnation m);
  mw_segments : Forall entry_wf (segments m);
  mw_unreadable : Forall u32_ok (unreadable m);
  mw_counts : u32_ok (N.of_nat (length (segments m))) /\ u32_ok (N.of_nat (length (unreadable m)))
}.

(** The field lists of a manifest, for [field_lengths]. *)
Ltac fields_unfold ::= unfold head_fields, entry_fields.

Lemma length_entry s : entry_wf s -> length (concat (entry_fields s)) = ENTRY.
Proof. intros [_ _ H1 H2]. field_lengths. Qed.

Lemma entry_at_fields s rest : entry_wf s -> entry_at (concat (entry_fields s ++ [rest])) 0 = Some (Some s).
Proof.
  intros [H64 H32 H1 H2]. unfold entry_at. cbn [Nat.add].
  fields_in. read 8. read 4.
  rewrite bool_decide_false by (by intros Hne; apply Hne).
  read 0. read 1. read 2. read 3. read 5. read 6. read 7. read 9. read 10. read 11. read 12.
  by destruct s.
Qed.

(** ** Decoding what was encoded *)

Lemma sub_bytes_app pre l a b : sub_bytes (pre ++ l) (length pre + a) (length pre + b) = sub_bytes l a b.
Proof.
  unfold sub_bytes. rewrite length_app.
  replace (length pre + a <=? length pre + b) with (a <=? b) by (destruct (Nat.leb_spec a b), (Nat.leb_spec (length pre + a) (length pre + b)); lia).
  replace (length pre + b <=? length pre + length l) with (b <=? length l) by (destruct (Nat.leb_spec b (length l)), (Nat.leb_spec (length pre + b) (length pre + length l)); lia).
  destruct (_ && _); [|done]. f_equal. unfold slice. rewrite drop_app_add. f_equal. lia.
Qed.

Lemma u32_at_app pre l a : u32_at (pre ++ l) (length pre + a) = u32_at l a.
Proof. unfold u32_at. by rewrite <- Nat.add_assoc, sub_bytes_app. Qed.
Lemma u64_at_app pre l a : u64_at (pre ++ l) (length pre + a) = u64_at l a.
Proof. unfold u64_at. by rewrite <- Nat.add_assoc, sub_bytes_app. Qed.

Lemma u32_at_app0 pre l : u32_at (pre ++ l) (length pre) = u32_at l 0.
Proof. rewrite <- (u32_at_app pre l 0). f_equal. lia. Qed.
Lemma u64_at_app0 pre l : u64_at (pre ++ l) (length pre) = u64_at l 0.
Proof. rewrite <- (u64_at_app pre l 0). f_equal. lia. Qed.

Lemma entry_at_app pre l : entry_at (pre ++ l) (length pre) = entry_at l 0.
Proof.
  unfold entry_at. cbn [Nat.add]. rewrite !sub_bytes_app, !u32_at_app, !u64_at_app.
  by rewrite u64_at_app0.
Qed.

Lemma entries_at_fields pre es rest :
  Forall entry_wf es ->
  entries_at (pre ++ concat ((fun s => concat (entry_fields s)) <$> es) ++ rest) (length pre) (length es) = Some (Some es).
Proof.
  intros Hes. revert pre. induction Hes as [|s es Hs _ IH]; intros pre; [done|].
  cbn [length entries_at]. rewrite fmap_cons. cbn [concat]. rewrite entry_at_app, <- app_assoc.
  assert (Hc : concat (entry_fields s) ++ concat ((fun s => concat (entry_fields s)) <$> es) ++ rest =
    concat (entry_fields s ++ [concat ((fun s => concat (entry_fields s)) <$> es) ++ rest]))
    by (rewrite concat_app; cbn [concat]; by rewrite app_nil_r).
  rewrite Hc at 1. rewrite entry_at_fields by done. cbn [mbind option_bind].
  specialize (IH (pre ++ concat (entry_fields s))). rewrite length_app, length_entry, <- app_assoc in IH by done.
  by rewrite IH.
Qed.

Lemma docs_at_fields pre ds rest :
  Forall u32_ok ds -> docs_at (pre ++ concat (le_bytes 4 <$> ds) ++ rest) (length pre) (length ds) = Some ds.
Proof.
  intros Hds. revert pre. induction Hds as [|d ds Hd _ IH]; intros pre; [done|].
  cbn [length docs_at]. rewrite fmap_cons. cbn [concat]. rewrite <- app_assoc.
  rewrite u32_at_app0.
  assert (Hr : u32_at (le_bytes 4 d ++ concat (le_bytes 4 <$> ds) ++ rest) 0 = Some d).
  { replace (le_bytes 4 d ++ concat (le_bytes 4 <$> ds) ++ rest)
      with (concat [le_bytes 4 d; concat (le_bytes 4 <$> ds) ++ rest]) by (cbn [concat]; by rewrite app_nil_r).
    by apply (u32_concat _ 0). }
  rewrite Hr. cbn [mbind option_bind]. specialize (IH (pre ++ le_bytes 4 d)).
  rewrite length_app, length_le_bytes, <- app_assoc in IH. by rewrite IH.
Qed.

Lemma length_entries es :
  Forall entry_wf es -> length (concat ((fun s => concat (entry_fields s)) <$> es)) = length es * ENTRY.
Proof.
  induction 1 as [|s es Hs _ IH]; [done|]. rewrite fmap_cons. cbn [concat length]. by rewrite length_app, length_entry, IH.
Qed.

Lemma length_docs ds : length (concat (le_bytes 4 <$> ds)) = length ds * 4.
Proof.
  induction ds as [|d ds IH]; [done|]. rewrite fmap_cons. cbn [concat length].
  by rewrite length_app, length_le_bytes, IH.
Qed.

Lemma nonzero_default o : o <> Some 0%N -> nonzero (default 0%N o) = o.
Proof. destruct o as [n|]; [|done]. simpl. unfold nonzero. destruct (N.eqb_spec n 0) as [->|]; done. Qed.

(** The declared length of counts that fit is never an overflow. *)
Lemma declared_total count docs :
  u32_ok count -> u32_ok docs ->
  (entries ← checked_mul count (N.of_nat ENTRY); head ← checked_add (N.of_nat HEAD + 16) entries;
   docs ← checked_mul docs 4; checked_add head docs) = Some (104 + count * 104 + docs * 4)%N.
Proof.
  unfold u32_ok. intros H1 H2. unfold checked_mul, checked_add, ENTRY, HEAD.
  change (N.of_nat 104) with 104%N. change (N.of_nat 88 + 16)%N with 104%N.
  assert (Hb : forall n, (n < 2 ^ 64)%N -> (n <? 2 ^ 64)%N = true) by (intros n; apply N.ltb_lt).
  rewrite (Hb (count * 104)%N) by lia. cbn [mbind option_bind]. rewrite Hb by lia. cbn [mbind option_bind].
  rewrite Hb by lia. cbn [mbind option_bind]. rewrite Hb by lia. f_equal.
Qed.

Section roundtrip.
  Context (checksum : bytes -> bytes) (Hsum : forall l, length (checksum l) = 16).

Definition tail_bytes (m : Manifest) : bytes :=
  concat ((fun s => concat (entry_fields s)) <$> segments m) ++
  (concat (le_bytes 4 <$> unreadable m) ++ checksum (encode_body m)).

Lemma encode_shape m : encode checksum m = concat (head_fields m ++ [tail_bytes m]).
Proof.
  unfold encode, encode_body at 1, tail_bytes. rewrite concat_app. cbn [concat].
  by rewrite app_nil_r, <- !app_assoc.
Qed.

Lemma length_head m : manifest_wf m -> length (concat (head_fields m)) = HEAD.
Proof. intros []. field_lengths. Qed.

Lemma length_encode m :
  manifest_wf m ->
  length (encode checksum m) = HEAD + length (segments m) * ENTRY + length (unreadable m) * 4 + 16 /\
  length (encode_body m) = length (encode checksum m) - 16.
Proof.
  intros Hm. unfold encode. rewrite length_app, Hsum. split; [|lia]. unfold encode_body.
  rewrite !length_app, (length_head m Hm), length_entries, length_docs by apply Hm. lia.
Qed.

Lemma declared_encode m :
  manifest_wf m -> declared_len (encode checksum m) = Some (Some (N.of_nat (length (encode checksum m)))).
Proof.
  intros Hm. pose proof (length_encode m Hm) as [Hl _]. unfold declared_len.
  replace (length (encode checksum m) <? HEAD) with false by (symmetry; apply Nat.ltb_ge; lia).
  rewrite encode_shape. destruct Hm as [H32 H64 _ Hinc _ _ [Hc1 Hc2]]. fields_in.
  read 0. rewrite bool_decide_false by (by intros Hne; apply Hne).
  read 1. rewrite (N.eqb_refl FORMAT_VERSION). cbn [negb]. read 13.
  rewrite bool_decide_false by (by intros Hne; apply Hne). read 8. read 9.
  rewrite declared_total by done. rewrite <- encode_shape, Hl. do 2 f_equal. unfold HEAD, ENTRY. lia.
Qed.

(** What was encoded decodes to itself. *)
Lemma decode_encode m :
  manifest_wf m -> is_consistent m = true -> decode checksum (encode checksum m) = Some (Some m).
Proof.
  intros Hm Hc. pose proof (length_encode m Hm) as [Hl Hb]. unfold decode.
  rewrite declared_encode by done. cbn [mbind option_bind]. rewrite N.eqb_refl. cbn [negb]. rewrite <- Hb.
  assert (Hfront : sub_bytes (encode checksum m) 0 (length (encode_body m)) = Some (encode_body m)).
  { unfold encode. rewrite sub_bytes_in by (rewrite ?length_app; lia). f_equal. unfold slice.
    rewrite drop_0, Nat.sub_0_r. by apply take_app_length. }
  assert (Hback : sub_bytes (encode checksum m) (length (encode_body m)) (length (encode checksum m)) =
                  Some (checksum (encode_body m))).
  { unfold encode. rewrite sub_bytes_in by (rewrite ?length_app; lia). f_equal. unfold slice.
    rewrite drop_app_length. apply take_ge. rewrite length_app. lia. }
  rewrite Hfront, Hback. cbn [mbind option_bind]. rewrite bool_decide_false by (by intros Hne; apply Hne).
  pose proof (length_head m Hm) as Hh. pose proof Hm as [H32 H64 [Hf Hg] Hinc Hes Hds [Hc1 Hc2]].
  assert (Hents : entries_at (encode checksum m) HEAD (length (segments m)) = Some (Some (segments m))).
  { rewrite encode_shape, concat_app, <- Hh. cbn [concat]. rewrite app_nil_r. unfold tail_bytes. by apply entries_at_fields. }
  assert (Hdocs : docs_at (encode checksum m) (HEAD + length (segments m) * ENTRY) (length (unreadable m)) = Some (unreadable m)).
  { rewrite encode_shape, concat_app. cbn [concat]. rewrite app_nil_r. unfold tail_bytes. rewrite app_assoc.
    rewrite <- (length_entries (segments m)), <- Hh, <- length_app by done. by apply docs_at_fields. }
  rewrite encode_shape in *. fields_in.
  read 3. read 8. read 9. read 2. read 12. read 4. read 5. read 6. read 7. read 10. read 11.
  rewrite !Nat2N.id. rewrite Hents. cbn [mbind option_bind]. rewrite Hdocs. cbn [mbind option_bind].
  rewrite !nonzero_default by done. destruct m. cbn in *. by rewrite Hc.
Qed.
End roundtrip.

(** ** Any bytes decode, and only to what encodes to them *)

Lemma entry_at_total b at_ :
  at_ + 104 <= length b ->
  exists r, entry_at b at_ = Some r /\
    forall s, r = Some s -> bytes_ok b -> entry_wf s /\ concat (entry_fields s) = slice b at_ (at_ + 104).
Proof.
  intros Hl. unfold entry_at. in_range. case_bool_decide as Hpad; [by exists None|].
  eexists. split; [reflexivity|]. intros s [= <-] Hok. split.
  - split; cbn [se_number se_first se_last se_docs se_terms se_pairs se_bytes se_digest se_trigram_bytes se_trigram_keys se_trigram_pairs se_trigram_digest]; field_bounds.
  - unfold entry_fields. cbn [concat se_number se_first se_last se_docs se_terms se_pairs se_bytes se_digest se_trigram_bytes se_trigram_keys se_trigram_pairs se_trigram_digest].
    rewrite <- Hpad. rejoin.
Qed.

Lemma entries_at_total b at_ n :
  at_ + n * ENTRY <= length b ->
  exists r, entries_at b at_ n = Some r /\
    forall es, r = Some es -> bytes_ok b ->
      Forall entry_wf es /\ length es = n /\ concat ((fun s => concat (entry_fields s)) <$> es) = slice b at_ (at_ + n * ENTRY).
Proof.
  unfold ENTRY. revert at_. induction n as [|n IH]; intros at_ Hl; cbn [entries_at].
  { eexists. split; [reflexivity|]. intros es [= <-] _. split; [constructor|]. split; [done|].
    unfold slice. by replace (at_ + 0 * 104 - at_) with 0 by lia. }
  destruct (entry_at_total b at_ ltac:(lia)) as (r & -> & Hr). cbn [mbind option_bind].
  destruct r as [s|]; [|by exists None]. destruct (IH (at_ + ENTRY) ltac:(unfold ENTRY; lia)) as (rs & -> & Hrs).
  cbn [mbind option_bind]. eexists. split; [reflexivity|]. intros es Hes Hok. destruct rs as [rs|]; [|done].
  injection Hes as <-. destruct (Hr s eq_refl Hok) as [Hw Hc], (Hrs rs eq_refl Hok) as (Hws & Hn & Hcs).
  split; [by constructor|]. split; [simpl; by rewrite Hn|]. rewrite fmap_cons. cbn [concat]. rewrite Hc, Hcs.
  unfold ENTRY. rewrite slice_join by lia. f_equal. lia.
Qed.

Lemma docs_at_total b at_ n :
  at_ + n * 4 <= length b ->
  exists ds, docs_at b at_ n = Some ds /\ length ds = n /\
    (bytes_ok b -> Forall u32_ok ds /\ concat (le_bytes 4 <$> ds) = slice b at_ (at_ + n * 4)).
Proof.
  revert at_. induction n as [|n IH]; intros at_ Hl; cbn [docs_at].
  { exists []. split; [done|]. split; [done|]. intros _. split; [constructor|].
    unfold slice. by replace (at_ + 0 * 4 - at_) with 0 by lia. }
  in_range. destruct (IH (at_ + 4) ltac:(lia)) as (ds & -> & Hn & Hds). cbn [mbind option_bind].
  eexists. split; [reflexivity|]. split; [simpl; by rewrite Hn|]. intros Hok. destruct (Hds Hok) as [Hw Hc].
  split; [constructor; [field_bounds|done]|]. rewrite fmap_cons. cbn [concat]. rewrite Hc, le_slice by (done || lia).
  rewrite slice_join by lia. f_equal. lia.
Qed.

Lemma declared_exact count docs n :
  (entries ← checked_mul count (N.of_nat ENTRY); head ← checked_add (N.of_nat HEAD + 16) entries;
   docs ← checked_mul docs 4; checked_add head docs) = Some n -> n = (104 + count * 104 + docs * 4)%N.
Proof.
  unfold checked_mul, checked_add. destruct (count * _ <? _)%N; cbn [mbind option_bind]; [|done].
  destruct (N.of_nat HEAD + 16 + _ <? _)%N; cbn [mbind option_bind]; [|done]. destruct (docs * 4 <? _)%N; cbn [mbind option_bind]; [|done].
  destruct (_ <? _)%N; [|done]. intros [= <-]. unfold HEAD, ENTRY. lia.
Qed.

(** What a declared length says of the head. *)
Lemma declared_total_head b :
  exists r, declared_len b = Some r /\
    forall n, r = Some n ->
      HEAD <= length b /\ slice b 0 8 = MAGIC /\ le_num (slice b 8 12) = FORMAT_VERSION /\ slice b 84 88 = zeros 4 /\
      N.to_nat n = HEAD + N.to_nat (le_num (slice b 56 60)) * ENTRY + N.to_nat (le_num (slice b 60 64)) * 4 + 16.
Proof.
  unfold declared_len. destruct (Nat.ltb_spec (length b) HEAD) as [|Hl]; [by exists None|]. unfold HEAD in *.
  in_range. case_bool_decide as Hm; [by exists None|]. in_range. cbn [Nat.add].
  destruct (N.eqb_spec (le_num (slice b 8 12)) FORMAT_VERSION) as [Hv|]; cbn [negb]; [|by exists None].
  in_range. case_bool_decide as Hp; [by exists None|]. in_range. cbn [Nat.add].
  eexists. split; [reflexivity|]. intros n Hn. split_and!; try done.
  change (N.of_nat 88) with (N.of_nat HEAD) in Hn. rewrite (declared_exact _ _ _ Hn). unfold ENTRY. lia.
Qed.

Lemma default_nonzero n : default 0%N (nonzero n) = n.
Proof. unfold nonzero. by destruct (N.eqb_spec n 0) as [->|]. Qed.

Lemma nonzero_some n : nonzero n <> Some 0%N.
Proof. unfold nonzero. destruct (N.eqb_spec n 0); [done|]. by intros [= ->]. Qed.

Section total.
  Context (checksum : bytes -> bytes).

(** The bytes of a manifest that decoded. *)
Lemma body_joined b m n (k := N.to_nat (le_num (slice b 56 60))) (j := N.to_nat (le_num (slice b 60 64))) :
  bytes_ok b -> length b = HEAD + k * ENTRY + j * 4 + 16 ->
  n = length b - 16 ->
  concat (head_fields m) = slice b 0 HEAD ->
  concat ((fun s => concat (entry_fields s)) <$> segments m) = slice b HEAD (HEAD + k * ENTRY) ->
  concat (le_bytes 4 <$> unreadable m) = slice b (HEAD + k * ENTRY) (HEAD + k * ENTRY + j * 4) ->
  encode_body m = slice b 0 n.
Proof.
  intros Hok Hl -> Hh He Hd. unfold encode_body. rewrite Hh, He, Hd, !slice_join by lia. f_equal. lia.
Qed.

Lemma decode_total b :
  exists r, decode checksum b = Some r /\
    forall m, r = Some m -> bytes_ok b ->
      manifest_wf m /\ is_consistent m = true /\ encode checksum m = b.
Proof.
  unfold decode. destruct (declared_total_head b) as (r & -> & Hr). cbn [mbind option_bind].
  destruct r as [n|]; [|by exists None]. specialize (Hr n eq_refl) as (_ & Hmagic & Hver & Hpad & Hn).
  destruct (N.eqb_spec n (N.of_nat (length b))) as [->|]; cbn [negb]; [|by exists None].
  rewrite Nat2N.id in Hn. unfold HEAD, ENTRY in Hn.
  set (k := N.to_nat (le_num (slice b 56 60))) in *. set (j := N.to_nat (le_num (slice b 60 64))) in *.
  in_range. case_bool_decide as Hsum; [by exists None|]. in_range. cbn [Nat.add].
  change (N.to_nat (le_num (slice b 56 60))) with k. change (N.to_nat (le_num (slice b 60 64))) with j.
  destruct (entries_at_total b HEAD k) as (rs & -> & Hrs); [unfold HEAD, ENTRY; lia|]. cbn [mbind option_bind].
  destruct rs as [es|]; [|by exists None].
  destruct (docs_at_total b (HEAD + k * ENTRY) j) as (ds & -> & Hj & Hds); [unfold HEAD, ENTRY; lia|].
  cbn [mbind option_bind]. eexists. split; [reflexivity|]. intros m Hm Hok.
  destruct (Hrs es eq_refl Hok) as (Hwes & Hlen & Hes), (Hds Hok) as [Hwds Hcds].
  destruct (is_consistent _) eqn:Hc; [|done]. injection Hm as <-.
  assert (Hcounts : le_num (slice b 56 60) = N.of_nat (length es) /\ le_num (slice b 60 64) = N.of_nat (length ds))
    by (rewrite Hlen, Hj; unfold k, j; lia).
  split; [|split; [done|]].
  - split; cbn [tokenizer_version trigram_version high_water frontier sequence next_number last_follow last_merge
        incarnation segments unreadable]; rewrite ?default_nonzero; try done; field_bounds.
    + split; apply nonzero_some.
    + rewrite <- (proj1 Hcounts), <- (proj2 Hcounts). split; field_bounds.
  - unfold encode. rewrite (body_joined b _ (length b - 16) Hok); [|unfold HEAD, ENTRY; lia|done| |done|done].
    + rewrite Hsum, slice_join by lia. by apply slice_all.
    + unfold head_fields. cbn [concat tokenizer_version trigram_version high_water frontier sequence next_number
        last_follow last_merge incarnation segments unreadable].
      rewrite !default_nonzero, <- Hmagic, <- Hver, <- (proj1 Hcounts), <- (proj2 Hcounts), <- Hpad. rejoin.
Qed.

Lemma slice_take (l : bytes) n a b : b <= n -> slice (take n l) a b = slice l a b.
Proof. intros H. unfold slice. rewrite skipn_firstn_comm, take_take. f_equal. lia. Qed.

(** The head alone declares the length. *)
Lemma declared_len_head b : HEAD <= length b -> declared_len (take HEAD b) = declared_len b.
Proof.
  intros Hl. unfold declared_len. assert (Ht : length (take HEAD b) = HEAD) by (rewrite length_take; lia).
  rewrite Ht. replace (length b <? HEAD) with false by (symmetry; by apply Nat.ltb_ge).
  rewrite Nat.ltb_irrefl. unfold HEAD in *. in_range. cbn [Nat.add]. by rewrite !slice_take by lia.
Qed.

(** Reading in two steps is decoding the file, unless its length is not the
    one it was opened with. *)
Lemma read_from_decode file len :
  read_from checksum file len =
    if (len =? N.of_nat (length file))%N then decode checksum file else Some None.
Proof.
  unfold read_from. destruct (Nat.ltb_spec (length file) HEAD) as [Hl|Hl].
  { rewrite orb_true_r. destruct (_ =? _)%N; [|done]. unfold decode, declared_len.
    replace (length file <? HEAD) with true by (symmetry; by apply Nat.ltb_lt). done. }
  rewrite orb_false_r, declared_len_head by done. destruct (declared_total_head file) as (r & Hd & _).
  destruct (N.eqb_spec len (N.of_nat (length file))) as [->|Hne].
  - replace (N.of_nat (length file) <? N.of_nat HEAD)%N with false by (symmetry; apply N.ltb_ge; lia).
    unfold decode. rewrite Hd. cbn [mbind option_bind]. rewrite Nat2N.id, Nat.ltb_irrefl, firstn_all.
    destruct r as [n|]; [|by rewrite bool_decide_true].
    destruct (N.eqb_spec n (N.of_nat (length file))) as [->|Hne]; cbn [negb].
    + rewrite bool_decide_false by (by intros Hne; apply Hne). unfold decode. by rewrite Hd; cbn [mbind option_bind]; rewrite N.eqb_refl.
    + rewrite bool_decide_true; [done|]. congruence.
  - destruct (_ <? _)%N; [done|]. rewrite Hd. cbn [mbind option_bind]. case_bool_decide; [done|].
    destruct (Nat.ltb_spec (length file) (N.to_nat len)); [done|].
    destruct (Nat.ltb_spec (N.to_nat len) (length file)); [done|]. lia.
Qed.
End total.

(** ** Properties *)

(** C27: The manifest's codec is a bijection.  Every consistent manifest whose
    fields fit their types decodes from its own encoding; and decoding any
    bytes answers, without a panic, and what it answers with, if anything, is a
    consistent manifest whose fields fit their types and whose encoding the
    bytes are.  So two manifests never share an encoding, and a changed byte is
    refused or is another consistent manifest's encoding with its own digest. *)
Theorem manifest_codec (checksum : bytes -> bytes) (Hsum : forall l, length (checksum l) = 16) :
  (forall m, manifest_wf m -> is_consistent m = true -> decode checksum (encode checksum m) = Some (Some m)) /\
  (forall b, bytes_ok b -> exists r, decode checksum b = Some r /\
     forall m, r = Some m -> manifest_wf m /\ is_consistent m = true /\ encode checksum m = b).
Proof.
  split; [by apply decode_encode|]. intros b Hb. destruct (decode_total checksum b) as (r & Heq & Hr).
  exists r. split; [exact Heq|]. intros m Hm. by apply Hr.
Qed.

(** The decoder never panics.  On any bytes at all every read of
    [decode] is in range, and so is every read of [read_from], which reads the
    head before the rest: it answers as decoding the whole file does, or with
    none when the file changed its length since it was opened. *)
Theorem decode_never_panics (checksum : bytes -> bytes) (b : bytes) (len : u64) :
  (exists r, decode checksum b = Some r) /\
  read_from checksum b len = (if (len =? N.of_nat (length b))%N then decode checksum b else Some None).
Proof.
  split; [|apply read_from_decode]. destruct (decode_total checksum b) as (r & Hr & _). by exists r.
Qed.

(** A stand-in digest for the witness: the length in sixteen bytes. *)
Definition length_sum (l : bytes) : bytes := le_bytes 16 (N.of_nat (length l)).
Definition sample_manifest : Manifest :=
  mkManifest 2 7 (replicate 16 7%N) 100 90 4 3 (Some 100%N) None
    [mkEntry 0 0 40 30 500 900 8000 (replicate 16 1%N) 100 10 20 (replicate 16 3%N);
     mkEntry 2 41 80 40 600 950 9000 (replicate 16 2%N) 100 10 20 (replicate 16 4%N)] [5; 77]%N.

Lemma sample_manifest_wf : manifest_wf sample_manifest.
Proof.
  split; try (split; (done || discriminate)); try (repeat constructor; done).
Qed.

(** The sample with a segment past its high-water mark is not consistent. *)
Definition sample_inconsistent : Manifest :=
  mkManifest 2 7 (replicate 16 7%N) 60 50 4 3 (Some 100%N) None (segments sample_manifest) [5]%N.

Lemma manifest_codec_witness :
  is_consistent sample_manifest = true /\
  decode length_sum (encode length_sum sample_manifest) = Some (Some sample_manifest) /\
  is_consistent sample_inconsistent = false /\ decode length_sum (encode length_sum sample_inconsistent) = Some None /\
  exists r, decode length_sum (encode length_sum sample_inconsistent) = Some r /\
    forall m, r = Some m -> manifest_wf m /\ is_consistent m = true /\ encode length_sum m = encode length_sum sample_inconsistent.
Proof.
  pose proof (manifest_codec length_sum (fun l => length_le_bytes 16 _)) as [Henc Hdec].
  split; [vm_compute; reflexivity|]. split; [exact (Henc sample_manifest sample_manifest_wf ltac:(vm_compute; reflexivity))|].
  split; [vm_compute; reflexivity|]. split; [vm_compute; reflexivity|].
  exact (Hdec (encode length_sum sample_inconsistent) ltac:(apply (bool_decide_unpack _); vm_compute; exact I)).
Defined.
