(* ===== verification/LogRecords.v ===== *)
(** * LogRecords: the change log's replacement records

    Models [crates/ferret-catalog/src/log/records.rs], with the types its
    records carry ([Kind], [Stat], [ContentState], [WorkTreeKind]): the wire
    form of a record, its encoder, and the decoder that checks every record
    against the transaction's counters and sequence.

    Both codecs return one error, [bad]; a read out of range would panic and
    is [None] around the decoder's result.  An encoder that fails has written
    part of a record to its buffer, which the caller discards: the model
    returns the record's own bytes. *)
From S2P Require Import Prelude Word Bytes.
#[local] Open Scope ferret_scope.

(** ** Types *)

(** [format::NONE]. *)
Definition NONE : u32 := 4294967295.
Definition NONE64 : u64 := 18446744073709551615.

(** [DecodeError]. *)
Inductive DecodeError := NotACatalog | Version (n : u32) | Layout | Corrupt (label : string).
(** [bad()]. *)
Definition bad : DecodeError := Corrupt "log record".

(** [Kind], [ContentState], [WorkTreeKind]. *)
Inductive Kind := Dir | File | Symlink | Fifo | Socket | Block | Character.
Inductive ContentState := Unindexed | Binary | Hashed | Fault.
Inductive WorkTreeKind := Main | Linked | Submodule.

(** [Family], a transaction's payload projections. *)
Inductive Family := Namespace | Inodes | Aux | Docs.

#[export] Instance Kind_eq_dec : EqDecision Kind.
Proof. solve_decision. Defined.
#[export] Instance ContentState_eq_dec : EqDecision ContentState.
Proof. solve_decision. Defined.
#[export] Instance WorkTreeKind_eq_dec : EqDecision WorkTreeKind.
Proof. solve_decision. Defined.
#[export] Instance Family_eq_dec : EqDecision Family.
Proof. solve_decision. Defined.

(** [kind as u8], [state as u8], and back. *)
Definition kind_byte (k : Kind) : u8 :=
  match k with Dir => 0 | File => 1 | Symlink => 2 | Fifo => 3 | Socket => 4 | Block => 5 | Character => 6 end.
Definition kind (n : u8) : result Kind DecodeError :=
  if (n =? 0)%N then Ok Dir else if (n =? 1)%N then Ok File else if (n =? 2)%N then Ok Symlink
  else if (n =? 3)%N then Ok Fifo else if (n =? 4)%N then Ok Socket else if (n =? 5)%N then Ok Block
  else if (n =? 6)%N then Ok Character else Err bad.

Definition state_byte (s : ContentState) : u8 :=
  match s with Unindexed => 0 | Binary => 1 | Hashed => 2 | Fault => 3 end.
(** [ContentState::from_bits]. *)
Definition from_bits (bits : u8) : ContentState :=
  let n := N.land bits 3 in
  if (n =? 0)%N then Unindexed else if (n =? 1)%N then Binary else if (n =? 2)%N then Hashed else Fault.

Definition work_tree_byte (k : WorkTreeKind) : u8 := match k with Main => 0 | Linked => 1 | Submodule => 2 end.
(** [WorkTreeKind::from_byte]. *)
Definition from_byte (byte : u8) : option WorkTreeKind :=
  if (byte =? 0)%N then Some Main else if (byte =? 1)%N then Some Linked
  else if (byte =? 2)%N then Some Submodule else None.

(** [Kind::from_mode]: the file type bits of a mode. *)
Definition from_mode (mode : u32) : Kind :=
  let t := N.land mode 61440 in
  if (t =? 16384)%N then Dir else if (t =? 40960)%N then Symlink else if (t =? 4096)%N then Fifo
  else if (t =? 49152)%N then Socket else if (t =? 24576)%N then Block else if (t =? 8192)%N then Character
  else File.

(** [Kind::from_ignored_child]. *)
Definition from_ignored_child (child : u32) : option Kind :=
  let n := (NONE - child)%N in
  if (n =? 1)%N then Some Dir else if (n =? 2)%N then Some File else if (n =? 3)%N then Some Symlink
  else if (n =? 4)%N then Some Fifo else if (n =? 5)%N then Some Socket else if (n =? 6)%N then Some Block
  else if (n =? 7)%N then Some Character else None.

(** [Stat]; the times' seconds are [i64]. *)
Record Stat := mkStat {
  dev : u64; ino : u64; size : u64; mtime_sec : Z; mtime_nsec : u32; ctime_sec : Z; ctime_nsec : u32;
  mode : u32; uid : u32; gid : u32; nlink : u64
}.

(** [n as u64] and [n as i64]. *)
Definition as_u64 (n : Z) : u64 := Z.to_N (n mod 2 ^ 64).
Definition as_i64 (n : u64) : Z := if (n <? 2 ^ 63)%N then Z.of_N n else (Z.of_N n - 2 ^ 64)%Z.

(** [Record]. *)
Inductive Record_ :=
| LifePut (id : u32) (k : Kind) (flags : u8) (names : u32)
| InodeDelete (id : u32)
| NamePut (id parent child : u32) (name : bytes) (revealed : bool)
| NameDelete (id : u32)
| DirPut (id : u32) (name entries : option u32) (flags : u32) (retained_at : option u64)
| RootPut (id : u32) (path : bytes)
| RootDelete (id : u32)
| PolicyPut (hash : bytes)
| InodePut (id : u32) (k : Kind) (state : ContentState) (doc : option u32) (stat : Stat)
| LinkPut (id : u32) (target : bytes)
| LinkDelete (id : u32)
| WorkTreePut (id : u32) (k : WorkTreeKind) (common_id : u64 * u64) (path : bytes)
| WorkTreeDelete (id : u32)
| DocPut (id references : u32) (hash : bytes)
| DocDelete (id : u32)
| DocDormant (id : u32) (hash : bytes)
| DocForget (id : u32).

(** [Record::family]. *)
Definition family (r : Record_) : Family :=
  match r with
  | InodePut _ _ _ _ _ => Inodes
  | LinkPut _ _ | LinkDelete _ | WorkTreePut _ _ _ _ | WorkTreeDelete _ => Aux
  | DocPut _ _ _ | DocDelete _ | DocDormant _ _ | DocForget _ => Docs
  | _ => Namespace
  end.

(** ** Encoding *)

(** [put32], [put64] and [delete]. *)
Definition put32 (n : u32) : bytes := le_bytes 4 n.
Definition put64 (n : u64) : bytes := le_bytes 8 n.
Definition delete_ (id : u32) : list bytes := [put32 id; put32 0].

(** [string]: the count with its NUL, the bytes, the NUL. *)
Definition string_ (s : bytes) : result (list bytes) DecodeError :=
  if (N.of_nat (length s) + 1 <? 2 ^ 32)%N then Ok [put32 (N.of_nat (length s) + 1); s; zeros 1] else Err bad.

(** The reserved sentinels the encoder refuses. *)
Definition reserved (r : Record_) : bool :=
  match r with
  | DirPut _ name entries _ retained =>
      bool_decide (name = Some NONE) || bool_decide (entries = Some NONE) || bool_decide (retained = Some NONE64)
  | InodePut _ _ _ doc _ => bool_decide (doc = Some NONE)
  | _ => false
  end.

(** The first byte of a record, and its second. *)
Definition op (r : Record_) : u8 :=
  match r with
  | LifePut _ _ _ _ => 1 | InodeDelete _ => 2 | NamePut _ _ _ _ _ => 3 | NameDelete _ => 4
  | DirPut _ _ _ _ _ => 5 | RootPut _ _ => 6 | RootDelete _ => 7 | PolicyPut _ => 8
  | InodePut _ _ _ _ _ => 9 | LinkPut _ _ => 10 | LinkDelete _ => 11 | WorkTreePut _ _ _ _ => 12
  | WorkTreeDelete _ => 13 | DocPut _ _ _ => 14 | DocDelete _ => 15 | DocDormant _ _ => 16 | DocForget _ => 17
  end.
Definition flag (r : Record_) : u8 := match r with NamePut _ _ _ _ true => 1 | _ => 0 end.

(** The fields after the eight bytes of a record's head. *)
Definition payload (r : Record_) : result (list bytes) DecodeError :=
  match r with
  | LifePut id k flags names => Ok [put32 id; [kind_byte k]; [flags]; zeros 2; put32 names; put32 0]
  | NamePut id parent child name _ =>
      s <~ string_ name; Ok ([put32 id; put32 parent; put32 child] ++ s)
  | DirPut id name entries flags retained =>
      Ok [put32 id; put32 (default NONE name); put32 (default NONE entries); put32 flags; put64 (default NONE64 retained)]
  | RootPut id path => s <~ string_ path; Ok ([put32 id] ++ s)
  | PolicyPut hash => Ok [hash]
  | InodePut id k state doc st =>
      Ok [put32 id; [kind_byte k]; [state_byte state]; zeros 2; put32 (default NONE doc); put64 (dev st); put64 (ino st);
          put64 (size st); put64 (as_u64 (mtime_sec st)); put32 (mtime_nsec st); put64 (as_u64 (ctime_sec st));
          put32 (ctime_nsec st); put32 (mode st); put32 (uid st); put32 (gid st); put64 (nlink st)]
  | LinkPut id target => s <~ string_ target; Ok ([put32 id] ++ s)
  | WorkTreePut id k common path =>
      s <~ string_ path;
      Ok ([put32 id; [work_tree_byte k]; zeros 3; put64 common.1; put64 common.2] ++ s)
  | DocPut id references hash => Ok [put32 id; put32 references; hash]
  | DocDormant id hash => Ok [put32 id; put32 0; hash]
  | InodeDelete id | NameDelete id | RootDelete id | LinkDelete id | WorkTreeDelete id | DocDelete id
  | DocForget id => Ok (delete_ id)
  end.

(** [n.next_multiple_of(8)]. *)
Definition next_multiple (n : nat) : nat := (n + 7) / 8 * 8.

(** [Record::encode]: the bytes it appends. *)
Definition encode (r : Record_) : result bytes DecodeError :=
  if reserved r then Err bad
  else
    fields <~ payload r;
    let body := concat fields in
    let len := next_multiple (8 + length body) in
    if (N.of_nat len <? 2 ^ 32)%N then
      Ok (concat ([[op r]; [flag r]; zeros 2; put32 (N.of_nat len)] ++ fields ++ [zeros (len - (8 + length body))]))
    else Err bad.

(** ** Decoding

    [None] is a panic; the sequencing of fallible steps is [r <~? m; k]. *)
Abbreviation outcome A := (option (result A DecodeError)).
Definition outcome_bind {A B} (m : outcome A) (k : A -> outcome B) : outcome B :=
  match m with Some (Ok a) => k a | Some (Err e) => Some (Err e) | None => None end.
#[local] Notation "x <~? m ; k" := (outcome_bind m (fun x => k)) (at level 100, m at next level, right associativity).

(** [text]. *)
Definition text (b : bytes) (count_at start : nat) : outcome bytes :=
  count ← u32_at b count_at;
  let count := N.to_nat count in
  let end_ := start + count in
  if negb (end_ <=? length b) then Some (Err bad)
  else if count <? 2 then Some (Err bad)
  else
    nul ← b !! (end_ - 1);
    if negb (nul =? 0)%N then Some (Err bad)
    else
      body ← sub_bytes b start (end_ - 1);
      if bool_decide (0%N ∈ body) then Some (Err bad)
      else
        pad ← sub_bytes b end_ (length b);
        if existsb (fun x => negb (x =? 0)%N) pad then Some (Err bad)
        else if negb (length b =? next_multiple end_) then Some (Err bad)
        else Some (Ok body).

(** The closures [exact] and [deleted] of [record]. *)
Definition exact (b : bytes) (n : nat) : outcome unit := if length b =? n then Some (Ok tt) else Some (Err bad).
Definition deleted (b : bytes) : outcome unit :=
  _ <~? exact b 16;
  pad ← sub_bytes b 12 16;
  if bool_decide (pad <> zeros 4) then Some (Err bad) else Some (Ok tt).

(** [counters], [[u32; 3]]: the bounds of inode, name and document ids. *)
Record Counters := mkCounters { inodes : u32; names : u32; docs : u32 }.

(** [(n != NONE).then_some(n)]. *)
Definition then_some (sentinel n : N) : option N := if (n =? sentinel)%N then None else Some n.

Section record.
  Context (counters : Counters) (sequence : u64).

(** The arms of [record]'s match on [b[0]] that have fields to check. *)
Definition record_life (b : bytes) (id : u32) : outcome Record_ :=
  _ <~? exact b 24;
  pad ← sub_bytes b 14 16;
  pad2 ← sub_bytes b 20 24;
  flags ← b !! 13;
  names_ ← u32_at b 16;
  k ← b !! 12;
  if bool_decide (pad <> zeros 2) || bool_decide (pad2 <> zeros 4) || negb (flags =? 0)%N || (names counters <? names_)%N
  then Some (Err bad)
  else
    nameless <~? (if (names_ =? 0)%N then x <~? Some (kind k); Some (Ok (bool_decide (x <> Dir))) else Some (Ok false));
    if nameless then Some (Err bad)
    else x <~? Some (kind k); Some (Ok (LifePut id x flags names_)).

Definition record_name (b : bytes) (id : u32) : outcome Record_ :=
  if length b <? 32 then Some (Err bad)
  else
    parent ← u32_at b 12;
    child ← u32_at b 16;
    name <~? text b 20 24;
    flag ← b !! 1;
    if (inodes counters <=? parent)%N ||
       ((inodes counters <=? child)%N && bool_decide (from_ignored_child child = None)) ||
       bool_decide (47%N ∈ name) || bool_decide (name = [46]%N) || bool_decide (name = [46; 46]%N)
    then Some (Err bad)
    else Some (Ok (NamePut id parent child name (flag =? 1)%N)).

Definition record_dir (b : bytes) (id : u32) : outcome Record_ :=
  _ <~? exact b 32;
  name ← u32_at b 12;
  flags ← u32_at b 20;
  retained ← u64_at b 24;
  entries ← u32_at b 16;
  if (negb (name =? NONE)%N && (names counters <=? name)%N) ||
     negb (N.land flags (NONE - 15) =? 0)%N ||
     (negb (retained =? NONE64)%N && (sequence <? retained)%N) ||
     negb (Bool.eqb (negb (N.land flags 8 =? 0)%N) (negb (retained =? NONE64)%N))
  then Some (Err bad)
  else Some (Ok (DirPut id (then_some NONE name) (then_some NONE entries) flags (then_some NONE64 retained))).

Definition record_root (b : bytes) (id : u32) : outcome Record_ :=
  path <~? text b 12 16;
  if negb (bool_decide (head path = Some 47%N)) then Some (Err bad) else Some (Ok (RootPut id path)).

Definition record_policy (b : bytes) : outcome Record_ :=
  _ <~? exact b 24;
  hash ← sub_bytes b 8 24;
  Some (Ok (PolicyPut hash)).

Definition record_inode (b : bytes) (id : u32) : outcome Record_ :=
  _ <~? exact b 88;
  kb ← b !! 12;
  k <~? Some (kind kb);
  state ← b !! 13;
  doc ← u32_at b 16;
  dev ← u64_at b 20;
  ino ← u64_at b 28;
  size ← u64_at b 36;
  mtime_sec ← u64_at b 44;
  mtime_nsec ← u32_at b 52;
  ctime_sec ← u64_at b 56;
  ctime_nsec ← u32_at b 64;
  mode_ ← u32_at b 68;
  uid ← u32_at b 72;
  gid ← u32_at b 76;
  nlink ← u64_at b 80;
  pad ← sub_bytes b 14 16;
  if bool_decide (pad <> zeros 2) || (3 <? state)%N ||
     negb (Bool.eqb (state =? 2)%N (negb (doc =? NONE)%N)) ||
     (negb (doc =? NONE)%N && (docs counters <=? doc)%N) ||
     (1000000000 <=? mtime_nsec)%N || (1000000000 <=? ctime_nsec)%N ||
     bool_decide (from_mode mode_ <> k) || (bool_decide (k <> File) && negb (state =? 0)%N)
  then Some (Err bad)
  else Some (Ok (InodePut id k (from_bits state) (then_some NONE doc)
         (mkStat dev ino size (as_i64 mtime_sec) mtime_nsec (as_i64 ctime_sec) ctime_nsec mode_ uid gid nlink))).

Definition record_link (b : bytes) (id : u32) : outcome Record_ :=
  target <~? text b 12 16;
  Some (Ok (LinkPut id target)).

Definition record_work_tree (b : bytes) (id : u32) : outcome Record_ :=
  if length b <? 40 then Some (Err bad)
  else
    pad ← sub_bytes b 13 16;
    if bool_decide (pad <> zeros 3) then Some (Err bad)
    else
      kb ← b !! 12;
      k <~? Some (ok_or (from_byte kb) bad);
      path <~? text b 32 36;
      if negb (bool_decide (head path = Some 47%N)) then Some (Err bad)
      else
        x ← u64_at b 16;
        y ← u64_at b 24;
        Some (Ok (WorkTreePut id k (x, y) path)).

Definition record_doc (b : bytes) (id : u32) : outcome Record_ :=
  _ <~? exact b 32;
  references ← u32_at b 12;
  if (references =? 0)%N || (inodes counters <? references)%N then Some (Err bad)
  else
    hash ← sub_bytes b 16 32;
    Some (Ok (DocPut id references hash)).

Definition record_dormant (b : bytes) (id : u32) : outcome Record_ :=
  _ <~? exact b 32;
  pad ← sub_bytes b 12 16;
  if bool_decide (pad <> zeros 4) then Some (Err bad)
  else
    hash ← sub_bytes b 16 32;
    Some (Ok (DocDormant id hash)).

(** [record]. *)
Definition record (b : bytes) : outcome Record_ :=
  id ← u32_at b 8;
  op_ ← b !! 0;
  let tombstone r := _ <~? deleted b; Some (Ok (r id)) in
  if (op_ =? 1)%N then record_life b id
  else if (op_ =? 2)%N then tombstone InodeDelete
  else if (op_ =? 3)%N then record_name b id
  else if (op_ =? 4)%N then tombstone NameDelete
  else if (op_ =? 5)%N then record_dir b id
  else if (op_ =? 6)%N then record_root b id
  else if (op_ =? 7)%N then tombstone RootDelete
  else if (op_ =? 8)%N then record_policy b
  else if (op_ =? 9)%N then record_inode b id
  else if (op_ =? 10)%N then record_link b id
  else if (op_ =? 11)%N then tombstone LinkDelete
  else if (op_ =? 12)%N then record_work_tree b id
  else if (op_ =? 13)%N then tombstone WorkTreeDelete
  else if (op_ =? 14)%N then record_doc b id
  else if (op_ =? 15)%N then tombstone DocDelete
  else if (op_ =? 16)%N then record_dormant b id
  else if (op_ =? 17)%N then tombstone DocForget
  else Some (Err bad).

(** The counter that bounds a record's own id, in [decode]. *)
Definition limit (r : Record_) : option u32 :=
  match r with
  | PolicyPut _ => None
  | NamePut _ _ _ _ _ | NameDelete _ => Some (names counters)
  | DocPut _ _ _ | DocDelete _ | DocDormant _ _ | DocForget _ => Some (docs counters)
  | _ => Some (inodes counters)
  end.

(** The checks on a record's head: [len], where the next record starts. *)
Definition framed (rest : bytes) : outcome nat :=
  if length rest <? 8 then Some (Err bad)
  else
    pad ← sub_bytes rest 2 4;
    op_ ← rest !! 0;
    flag ← rest !! 1;
    if bool_decide (pad <> zeros 2) || ((if (op_ =? 3)%N then 1 else 0) <? flag)%N then Some (Err bad)
    else
      len ← u32_at rest 4;
      let len := N.to_nat len in
      if (len <? 16) || negb (len mod 8 =? 0) || (length rest <? len) then Some (Err bad) else Some (Ok len).

(** [decode]'s loop, with fuel; running out of it would be [None]. *)
Fixpoint decode_loop (fuel : nat) (rest : bytes) (count : u32) (wanted : Family) (records : list Record_)
    : outcome (list Record_) :=
  match fuel with
  | 0 => None
  | S fuel =>
      if is_empty rest then
        if (N.of_nat (length records) =? count)%N then Some (Ok records) else Some (Err bad)
      else
        len <~? framed rest;
        b ← sub_bytes rest 0 len;
        id ← u32_at b 8;
        r <~? record b;
        if bool_decide (family r <> wanted) then Some (Err bad)
        else if is_some_and (limit r) (fun n => n <=? id)%N then Some (Err bad)
        else
          let records := records ++ [r] in
          if (count <? N.of_nat (length records))%N then Some (Err bad)
          else
            rest ← sub_bytes rest len (length rest);
            decode_loop fuel rest count wanted records
  end.

(** [decode]: a record takes sixteen bytes at least, so the length is fuel
    enough. *)
Definition decode (b : bytes) (count : u32) (wanted : Family) : outcome (list Record_) :=
  decode_loop (S (length b)) b count wanted [].
End record.

(** [encode]'s loop over the records of one family. *)
Fixpoint encode_all (rs : list Record_) : result bytes DecodeError :=
  match rs with
  | [] => Ok []
  | r :: rs => b <~ encode r; rest <~ encode_all rs; Ok (b ++ rest)
  end.

(** ** Valid records

    The abstract contract of the log: what a record of a transaction with
    these counters and this sequence may hold. *)
Record string_ok (s : bytes) : Prop := {
  so_some : s <> [];
  so_bytes : bytes_ok s;
  so_nul : 0%N ∉ s
}.

Record stat_ok (st : Stat) : Prop := {
  st_u64 : Forall u64_ok [dev st; ino st; size st; nlink st];
  st_u32 : Forall u32_ok [mode st; uid st; gid st];
  st_sec : (- 2 ^ 63 <= mtime_sec st < 2 ^ 63 /\ - 2 ^ 63 <= ctime_sec st < 2 ^ 63)%Z;
  st_nsec : (mtime_nsec st < 1000000000 /\ ctime_nsec st < 1000000000)%N
}.

(** Each field's own bound. *)
Definition checked (counters : Counters) (sequence : u64) (r : Record_) : Prop :=
  match r with
  | LifePut _ k flags names_ => flags = 0%N /\ (names_ <= names counters)%N /\ (names_ = 0%N -> k = Dir)
  | NamePut _ parent child name _ =>
      (parent < inodes counters)%N /\ u32_ok child /\
      ((child < inodes counters)%N \/ from_ignored_child child <> None) /\
      string_ok name /\ (47%N ∉ name) /\ name <> [46]%N /\ name <> [46; 46]%N
  | DirPut _ name entries flags retained =>
      (forall n, name = Some n -> n < names counters)%N /\ (forall n, entries = Some n -> n < NONE)%N /\
      (flags < 16)%N /\ (forall n, retained = Some n -> n <= sequence /\ n < NONE64)%N /\
      ((N.land flags 8 <> 0%N) <-> (retained <> None))
  | RootPut _ path => string_ok path /\ head path = Some 47%N
  | PolicyPut hash => digest_ok hash
  | InodePut _ k state doc st =>
      (forall n, doc = Some n -> n < docs counters)%N /\ ((state = Hashed) <-> (doc <> None)) /\
      from_mode (mode st) = k /\ (k <> File -> state = Unindexed) /\ stat_ok st
  | LinkPut _ target => string_ok target
  | WorkTreePut _ _ common path => Forall u64_ok [common.1; common.2] /\ string_ok path /\ head path = Some 47%N
  | DocPut _ references hash => (0 < references <= inodes counters)%N /\ digest_ok hash
  | DocDormant _ hash => digest_ok hash
  | _ => True
  end.

(** The row a record replaces. *)
Definition row (r : Record_) : option u32 :=
  match r with
  | PolicyPut _ => None
  | LifePut id _ _ _ | InodeDelete id | NamePut id _ _ _ _ | NameDelete id | DirPut id _ _ _ _ | RootPut id _
  | RootDelete id | InodePut id _ _ _ _ | LinkPut id _ | LinkDelete id | WorkTreePut id _ _ _ | WorkTreeDelete id
  | DocPut id _ _ | DocDelete id | DocDormant id _ | DocForget id => Some id
  end.

(** A valid record of a family: its fields are in bounds and its row is
    allocated. *)
Record valid (counters : Counters) (sequence : u64) (wanted : Family) (r : Record_) : Prop := {
  v_checked : checked counters sequence r;
  v_row : forall id n, row r = Some id -> limit counters r = Some n -> (id < n)%N;
  v_family : family r = wanted
}.

Definition counters_ok (c : Counters) : Prop := Forall u32_ok [inodes c; names c; docs c].

(** ** Encoded values read back *)

#[local] Arguments put32 : simpl never.
#[local] Arguments put64 : simpl never.

Lemma kind_kind_byte k : kind (kind_byte k) = Ok k.
Proof. by destruct k. Qed.
Lemma from_bits_state s : from_bits (state_byte s) = s.
Proof. by destruct s. Qed.
Lemma from_byte_work_tree k : from_byte (work_tree_byte k) = Some k.
Proof. by destruct k. Qed.

(** A decoder of a code, by its tests. *)
Ltac by_code n :=
  repeat match goal with |- context [(n =? ?c)%N] => destruct (N.eqb_spec n c) as [->|]; [by intros [= <-]|] end; done.

Lemma kind_ok n k : kind n = Ok k -> kind_byte k = n.
Proof. unfold kind. by_code n. Qed.
Lemma from_byte_some n k : from_byte n = Some k -> work_tree_byte k = n.
Proof. unfold from_byte. by_code n. Qed.
Lemma state_from_bits n : (n <= 3)%N -> state_byte (from_bits n) = n.
Proof. intros H. assert (n = 0 \/ n = 1 \/ n = 2 \/ n = 3)%N as [->|[->|[->| ->]]] by lia; reflexivity. Qed.

(** Two's complement. *)
Lemma mod_64 n : (- 2 ^ 63 <= n < 2 ^ 64)%Z -> (n mod 2 ^ 64 = if n <? 0 then n + 2 ^ 64 else n)%Z.
Proof.
  intros H. destruct (Z.ltb_spec n 0).
  - symmetry. apply (Z.mod_unique_pos _ _ (-1)); lia.
  - apply Z.mod_small. lia.
Qed.

Lemma as_i64_u64 n : (- 2 ^ 63 <= n < 2 ^ 63)%Z -> as_i64 (as_u64 n) = n.
Proof.
  intros H. unfold as_i64, as_u64. rewrite mod_64 by lia.
  destruct (Z.ltb_spec n 0); case_match eqn:E; rewrite ?N.ltb_lt, ?N.ltb_ge in E; lia.
Qed.
Lemma as_u64_i64 n : u64_ok n -> as_u64 (as_i64 n) = n.
Proof.
  unfold u64_ok, as_i64, as_u64. intros H. destruct (N.ltb_spec n (2 ^ 63)); rewrite mod_64 by lia.
  - destruct (Z.ltb_spec (Z.of_N n) 0); lia.
  - destruct (Z.ltb_spec (Z.of_N n - 2 ^ 64) 0); lia.
Qed.
Lemma as_u64_ok n : u64_ok (as_u64 n).
Proof. unfold u64_ok, as_u64. pose proof (Z.mod_pos_bound n (2 ^ 64)). lia. Qed.
Lemma as_i64_range n : u64_ok n -> (- 2 ^ 63 <= as_i64 n < 2 ^ 63)%Z.
Proof. unfold u64_ok, as_i64. intros H. destruct (N.ltb_spec n (2 ^ 63)); lia. Qed.

Lemma then_some_default s o : o <> Some s -> then_some s (default s o) = o.
Proof.
  unfold then_some. destruct o as [n|]; simpl; intros H; [|by rewrite N.eqb_refl].
  destruct (N.eqb_spec n s) as [->|]; done.
Qed.
Lemma default_then_some s n : default s (then_some s n) = n.
Proof. unfold then_some. by destruct (N.eqb_spec n s) as [->|]. Qed.
Lemma then_some_some s n m : then_some s n = Some m -> n = m /\ m <> s.
Proof. unfold then_some. destruct (N.eqb_spec n s); [done|]. by intros [= <-]. Qed.

Lemma next_multiple_spec n : n <= next_multiple n < n + 8 /\ next_multiple n mod 8 = 0.
Proof.
  unfold next_multiple. pose proof (Nat.div_mod_eq (n + 7) 8) as H. pose proof (Nat.mod_upper_bound (n + 7) 8).
  split; [lia|]. by apply Nat.Div0.mod_mul.
Qed.
Lemma next_multiple_id n : n mod 8 = 0 -> next_multiple n = n.
Proof.
  intros H. unfold next_multiple. pose proof (Nat.div_mod_eq n 8) as E. rewrite H in E.
  rewrite E at 1. rewrite Nat.add_0_r, (Nat.mul_comm 8), Nat.div_add_l by done. change (7 / 8) with 0. lia.
Qed.

(** Zero bytes. *)
Lemma existsb_zeros n : existsb (fun x => negb (x =? 0)%N) (zeros n) = false.
Proof. induction n as [|n IH]; [done|]. cbn. exact IH. Qed.
Lemma zeros_existsb l : existsb (fun x => negb (x =? 0)%N) l = false -> l = zeros (length l).
Proof.
  induction l as [|x l IH]; [done|]. cbn [existsb length]. intros [Hx Hl]%orb_false_elim.
  apply negb_false_iff, N.eqb_eq in Hx as ->. rewrite IH at 1 by done. reflexivity.
Qed.

(** A string's fields and the zeros after them. *)
Lemma text_fields pre s p at_ start :
  string_ok s -> length (concat pre) = at_ -> start = at_ + 4 -> (N.of_nat (length s) + 1 < 2 ^ 32)%N ->
  p = next_multiple (start + length s + 1) - (start + length s + 1) ->
  text (concat (pre ++ [put32 (N.of_nat (length s) + 1); s; zeros 1; zeros p])) at_ start = Some (Ok s).
Proof.
  intros [Hne _ Hnul] Hat -> Hlen Hp. unfold text, put32.
  set (fs := [le_bytes 4 _; s; zeros 1; zeros p]). set (b := concat (pre ++ fs)).
  assert (Hk : forall i x, fs !! i = Some x -> (pre ++ fs) !! (length pre + i) = Some x)
    by (intros i x Hx; rewrite lookup_app_r by lia; rewrite <- Hx; f_equal; lia).
  assert (Ht : forall i, length (concat (take (length pre + i) (pre ++ fs))) = at_ + length (concat (take i fs)))
    by (intros i; rewrite take_app_add, concat_app, length_app; lia).
  assert (Hl : length b = at_ + 4 + length s + 1 + p)
    by (unfold b, fs; rewrite concat_app, length_app, Hat; unfold zeros; cbn [concat];
        rewrite !length_app, length_le_bytes, !length_replicate; cbn [length]; lia).
  unfold b. erewrite (u32_concat _ (length pre + 0)); [|by apply Hk|rewrite Ht; simpl; lia|done]. cbn [mbind option_bind].
  fold b. rewrite N2Nat.inj_add, Nat2N.id. change (N.to_nat 1) with 1.
  destruct (Nat.leb_spec (at_ + 4 + (length s + 1)) (length b)); [|lia]. cbn [negb].
  destruct s as [|c s]; [done|]. destruct (Nat.ltb_spec (length (c :: s) + 1) 2) as [H2|_]; [simpl in H2; lia|].
  assert (H3 : length (concat (take 3 fs)) = 4 + length (c :: s) + 1)
    by (unfold fs, zeros; cbn [take concat]; rewrite !length_app, length_le_bytes, length_replicate; simpl; lia).
  assert (H2 : length (concat (take 2 fs)) = 4 + length (c :: s))
    by (unfold fs, zeros; cbn [take concat]; rewrite !length_app, length_le_bytes; simpl; lia).
  unfold b. erewrite (byte_concat _ (length pre + 2)); [|by apply Hk|rewrite Ht, H2; lia].
  cbn [mbind option_bind]. change (0 =? 0)%N with true. cbn [negb].
  erewrite (sub_concat _ (length pre + 1) (c :: s) (at_ + 4)); [|by apply Hk|rewrite Ht; unfold fs; cbn [take concat]; rewrite length_app, length_le_bytes; cbn [length]; lia|lia].
  cbn [mbind option_bind]. rewrite bool_decide_false by done.
  erewrite (sub_concat _ (length pre + 3) (zeros p)); [|by apply Hk|rewrite Ht, H3; lia|fold b; unfold zeros; rewrite length_replicate; lia].
  cbn [mbind option_bind]. rewrite existsb_zeros. fold b. rewrite Hl.
  replace (at_ + 4 + (length (c :: s) + 1)) with (at_ + 4 + length (c :: s) + 1) by lia.
  pose proof (next_multiple_spec (at_ + 4 + length (c :: s) + 1)) as [Hm _].
  replace (_ =? _) with true; [done|]. symmetry. apply Nat.eqb_eq. lia.
Qed.

(** ** Decoding what was encoded *)

Ltac fields_unfold ::= unfold put32, put64.

(** A record's bytes, by its fields. *)
Definition wire (r : Record_) (fields : list bytes) : list bytes :=
  let e := 8 + length (concat fields) in
  [[op r]; [flag r]; zeros 2; put32 (N.of_nat (next_multiple e))] ++ fields ++ [zeros (next_multiple e - e)].

Lemma encode_wire r b :
  encode r = Ok b <->
  reserved r = false /\ exists fields, payload r = Ok fields /\
    (N.of_nat (next_multiple (8 + length (concat fields))) < 2 ^ 32)%N /\ b = concat (wire r fields).
Proof.
  unfold encode. destruct (reserved r); [by split; [|intros [? _]]|].
  destruct (payload r) as [fields|]; cbn [result_bind]; [|by split; [|intros (_ & ? & ? & _)]].
  destruct (N.ltb_spec (N.of_nat (next_multiple (8 + length (concat fields)))) (2 ^ 32)) as [Hl|Hl].
  - split; [intros [= <-]; split; [done|by exists fields]|]. by intros (_ & fs & [= <-] & _ & ->).
  - split; [done|]. intros (_ & fs & [= <-] & H & _). lia.
Qed.

Lemma length_wire r fields :
  length (concat (wire r fields)) = next_multiple (8 + length (concat fields)).
Proof.
  unfold wire, put32. rewrite !concat_app, !length_app. set (e := 8 + length (concat fields)).
  pose proof (next_multiple_spec e) as [He _]. unfold zeros. cbn [concat]. rewrite !length_app, length_le_bytes, !length_replicate.
  cbn [length]. lia.
Qed.

(** The fields after a record's head, [pad] zeros after them. *)
Definition framed_fields (o f : u8) (n : u32) (fields : list bytes) (pad : nat) : list bytes :=
  [[o]; [f]; zeros 2; put32 n] ++ fields ++ [zeros pad].

(** The reads of one arm, its length and its tests. *)
Ltac sized :=
  unfold exact; match goal with |- context [length ?l =? ?n] =>
    replace (length l =? n) with true by (symmetry; apply Nat.eqb_eq; unfold framed_fields; field_lengths) end;
  cbn [outcome_bind]; unfold framed_fields; cbn [app].

Section forward.
  Context (c : Counters) (sequence : u64) (n : u32) (id : u32) (Hid : u32_ok id).

Lemma tombstone_fields o :
  deleted (concat (framed_fields o 0 n (delete_ id) 0)) = Some (Ok tt).
Proof.
  unfold deleted, delete_. sized. read 5. by rewrite bool_decide_false by (by intros Hne; apply Hne).
Qed.

Lemma life_fields k flags names_ :
  counters_ok c -> checked c sequence (LifePut id k flags names_) ->
  record_life c (concat (framed_fields 1 0 n [put32 id; [kind_byte k]; [flags]; zeros 2; put32 names_; put32 0] 0)) id =
    Some (Ok (LifePut id k flags names_)).
Proof.
  intros Hc (-> & Hn & Hk). unfold counters_ok in Hc. fields_in. unfold u32_ok in *. assert (names_ < 2 ^ 32)%N by lia.
  unfold record_life. sized. read 7. read 9. read 6. read 8. read 5.
  rewrite !bool_decide_false by (by intros Hne; apply Hne). cbn [orb]. rewrite (N.eqb_refl 0). cbn [negb orb].
  replace (names c <? names_)%N with false by (symmetry; by apply N.ltb_ge). rewrite kind_kind_byte. cbn [outcome_bind].
  destruct (N.eqb_spec names_ 0) as [->|]; cbn [outcome_bind]; [|done]. rewrite bool_decide_false; [done|].
  intros Hne. by apply Hne, Hk.
Qed.

Lemma flags_low flags : u32_ok flags -> N.land flags (NONE - 15) = 0%N <-> (flags < 16)%N.
Proof.
  unfold u32_ok. intros Hf. change (NONE - 15)%N with (N.shiftl (N.ones 28) 4).
  assert (E : N.land flags (N.shiftl (N.ones 28) 4) = N.shiftl (N.land (N.shiftr flags 4) (N.ones 28)) 4).
  { apply N.bits_inj. intros i. rewrite N.land_spec. destruct (N.lt_ge_cases i 4) as [Hi|Hi].
    - rewrite !N.shiftl_spec_low by done. apply andb_false_r.
    - rewrite !N.shiftl_spec_high', N.land_spec, N.shiftr_spec' by done. by rewrite N.sub_add by done. }
  rewrite E, N.land_ones, N.shiftr_div_pow2, N.shiftl_mul_pow2. change (2 ^ 4)%N with 16%N. change (2 ^ 28)%N with 268435456%N.
  pose proof (N.div_mod' flags 16). pose proof (N.mod_lt flags 16 ltac:(done)).
  change (2 ^ 32)%N with 4294967296%N in Hf. rewrite N.mod_small by (apply N.Div0.div_lt_upper_bound; exact Hf). clear E Hid Hf. revert H H0.
  generalize (flags / 16)%N. intros q. generalize (flags mod 16)%N. lia.
Qed.

Lemma dir_fields name entries flags retained :
  counters_ok c -> u64_ok sequence -> checked c sequence (DirPut id name entries flags retained) ->
  record_dir c sequence
    (concat (framed_fields 5 0 n [put32 id; put32 (default NONE name); put32 (default NONE entries); put32 flags;
                                  put64 (default NONE64 retained)] 0)) id =
    Some (Ok (DirPut id name entries flags retained)).
Proof.
  intros Hc Hs (Hn & He & Hf & Hr & H8). unfold counters_ok in Hc. fields_in. unfold u32_ok, u64_ok in *.
  assert (default NONE name < 2 ^ 32)%N by (destruct name as [x|]; simpl; [specialize (Hn x eq_refl); lia|done]).
  assert (default NONE entries < 2 ^ 32)%N by (destruct entries as [x|]; simpl; [specialize (He x eq_refl); unfold NONE in He; lia|done]).
  assert (default NONE64 retained < 2 ^ 64)%N by (destruct retained as [x|]; simpl; [specialize (Hr x eq_refl); unfold NONE64 in Hr; lia|done]).
  assert (flags < 2 ^ 32)%N by lia.
  unfold record_dir. sized. read 5. read 7. read 8. read 6.
  rewrite !then_some_default.
  2: { intros ->. specialize (Hr NONE64 eq_refl). lia. }
  2: { intros ->. specialize (He NONE eq_refl). lia. }
  2: { intros ->. specialize (Hn NONE eq_refl). unfold NONE in Hn. lia. }
  rewrite (proj2 (flags_low flags ltac:(done))) by done. change (negb (0 =? 0)%N) with false.
  assert (A : negb (default NONE name =? NONE)%N && (names c <=? default NONE name)%N = false)
    by (destruct name; [|done]; by apply andb_false_intro2, N.leb_gt, Hn).
  assert (B : negb (default NONE64 retained =? NONE64)%N && (sequence <? default NONE64 retained)%N = false)
    by (destruct retained; [|done]; by apply andb_false_intro2, N.ltb_ge, Hr).
  assert (C : negb (Bool.eqb (negb (N.land flags 8 =? 0)%N) (negb (default NONE64 retained =? NONE64)%N)) = false).
  { destruct retained as [y|]; simpl.
    - specialize (Hr y eq_refl). destruct (N.eqb_spec y NONE64); [lia|]. destruct (N.eqb_spec (N.land flags 8) 0) as [E|]; [|done].
      by apply H8 in E.
    - destruct (N.eqb_spec (N.land flags 8) 0) as [E|E]; [done|]. by apply H8 in E. }
  by rewrite A, B, C.
Qed.

Lemma policy_fields hash : digest_ok hash ->
  record_policy (concat (framed_fields 8 0 n [hash] 0)) = Some (Ok (PolicyPut hash)).
Proof. intros Hh. unfold record_policy. sized. by read 4. Qed.

Lemma inode_fields k state doc st :
  counters_ok c -> checked c sequence (InodePut id k state doc st) ->
  record_inode c
    (concat (framed_fields 9 0 n [put32 id; [kind_byte k]; [state_byte state]; zeros 2; put32 (default NONE doc);
       put64 (dev st); put64 (ino st); put64 (size st); put64 (as_u64 (mtime_sec st)); put32 (mtime_nsec st);
       put64 (as_u64 (ctime_sec st)); put32 (ctime_nsec st); put32 (mode st); put32 (uid st); put32 (gid st);
       put64 (nlink st)] 0)) id =
    Some (Ok (InodePut id k state doc st)).
Proof.
  intros Hc (Hd & Hs & Hm & Hf & [H64 H32 [Hs1 Hs2] [Hn1 Hn2]]). unfold counters_ok in Hc. fields_in. unfold u32_ok, u64_ok in *.
  pose proof (as_u64_ok (mtime_sec st)) as Ht1. pose proof (as_u64_ok (ctime_sec st)) as Ht2. unfold u64_ok in *.
  assert (default NONE doc < 2 ^ 32)%N by (destruct doc as [x|]; simpl; [specialize (Hd x eq_refl); lia|done]).
  assert (mtime_nsec st < 2 ^ 32)%N by lia. assert (ctime_nsec st < 2 ^ 32)%N by lia.
  unfold record_inode. sized. read 5. rewrite kind_kind_byte. cbn [outcome_bind]. read 6. read 8. read 9. read 10. read 11. read 12. read 13.
  read 14. read 15. read 16. read 17. read 18. read 19. read 7.
  rewrite bool_decide_false by (by intros Hne; apply Hne). cbn [orb].
  replace (3 <? state_byte state)%N with false by (by destruct state).
  assert (A : negb (Bool.eqb (state_byte state =? 2)%N (negb (default NONE doc =? NONE)%N)) = false).
  { destruct doc as [x|]; simpl.
    - specialize (Hd x eq_refl). destruct (N.eqb_spec x NONE); [unfold NONE in *; lia|]. by rewrite (proj2 Hs) by done.
    - destruct state; [done|done| |done]. by destruct (proj1 Hs). }
  assert (B : negb (default NONE doc =? NONE)%N && (docs c <=? default NONE doc)%N = false)
    by (destruct doc; [|done]; by apply andb_false_intro2, N.leb_gt, Hd).
  rewrite A, B. rewrite (proj2 (N.leb_gt _ _) Hn1), (proj2 (N.leb_gt _ _) Hn2), (bool_decide_false (from_mode _ <> _)) by (by intros Hne; apply Hne).
  assert (C : bool_decide (k <> File) && negb (state_byte state =? 0)%N = false).
  { case_bool_decide as Hk; [|done]. by rewrite (Hf Hk). }
  rewrite C. cbn [orb]. rewrite from_bits_state, then_some_default, !as_i64_u64 by done || (intros ->; specialize (Hd NONE eq_refl); unfold NONE in *; lia).
  by destruct st.
Qed.

Lemma doc_fields references hash :
  counters_ok c -> checked c sequence (DocPut id references hash) ->
  record_doc c (concat (framed_fields 14 0 n [put32 id; put32 references; hash] 0)) id = Some (Ok (DocPut id references hash)).
Proof.
  intros Hc (Hr & Hh). unfold counters_ok in Hc. fields_in. unfold u32_ok in *. assert (references < 2 ^ 32)%N by lia.
  unfold record_doc. sized. read 5. rewrite (proj2 (N.eqb_neq _ _)), (proj2 (N.ltb_ge _ _)) by lia. cbn [orb]. by read 6.
Qed.

Lemma dormant_fields hash : digest_ok hash ->
  record_dormant (concat (framed_fields 16 0 n [put32 id; put32 0; hash] 0)) id = Some (Ok (DocDormant id hash)).
Proof.
  intros Hh. unfold record_dormant. sized. read 5. rewrite bool_decide_false by (by intros Hne; apply Hne). by read 6.
Qed.

(** The padding after a string whose field starts at [start]. *)
Definition padding (start : nat) (s : bytes) : nat :=
  next_multiple (start + length s + 1) - (start + length s + 1).

Lemma padded_ge start s q : string_ok s -> 8 * q < start + 10 -> 8 * q <= start + length s + 1 + padding start s.
Proof.
  intros [Hne _ _] Hm. unfold padding. destruct s as [|x s]; [done|].
  pose proof (next_multiple_spec (start + length (x :: s) + 1)) as [H1 H2].
  pose proof (Nat.div_mod_eq (next_multiple (start + length (x :: s) + 1)) 8) as H3. rewrite H2 in H3. cbn [length] in *. lia.
Qed.

Ltac textual pre start :=
  match goal with |- context [text _ ?a start] =>
    match goal with Hs : string_ok ?s, Hl : (N.of_nat (length ?s) + 1 < 2 ^ 32)%N |- _ =>
      let Ht := fresh "Ht" in
      pose proof (text_fields pre s (padding start s) a start Hs eq_refl eq_refl Hl eq_refl) as Ht;
      unfold framed_fields; cbn [app] in Ht |- *; rewrite Ht; clear Ht
    end
  end; cbn [outcome_bind].

Lemma name_fields parent child name revealed :
  counters_ok c -> (N.of_nat (length name) + 1 < 2 ^ 32)%N -> checked c sequence (NamePut id parent child name revealed) ->
  record_name c
    (concat (framed_fields 3 (if revealed then 1 else 0) n
       [put32 id; put32 parent; put32 child; put32 (N.of_nat (length name) + 1); name; zeros 1] (padding 24 name))) id =
    Some (Ok (NamePut id parent child name revealed)).
Proof.
  intros Hc Hl (Hp & Hch & Hin & Hs & Hsl & Hd & Hdd). unfold counters_ok in Hc. fields_in. unfold u32_ok in *.
  assert (parent < 2 ^ 32)%N by lia.
  assert (Hlen : 32 <= length (concat (framed_fields 3 (if revealed then 1 else 0) n
       [put32 id; put32 parent; put32 child; put32 (N.of_nat (length name) + 1); name; zeros 1] (padding 24 name)))).
  { etransitivity; [apply (padded_ge 24 name 4 Hs); lia|]. unfold framed_fields. field_lengths. }
  unfold record_name. rewrite (proj2 (Nat.ltb_ge _ _) Hlen). unfold framed_fields. cbn [app]. read 5. read 6.
  textual [[3%N]; [if revealed then 1 else 0]%N; zeros 2; put32 n; put32 id; put32 parent; put32 child] 24.
  read 1. rewrite (proj2 (N.leb_gt _ _) Hp), !(bool_decide_false (_ = [_])), !(bool_decide_false (_ ∈ _)), (bool_decide_false (_ = [_; _])) by done.
  rewrite !orb_false_r. cbn [orb].
  replace ((inodes c <=? child)%N && bool_decide (from_ignored_child child = None)) with false; [by destruct revealed|].
  symmetry. destruct Hin as [Hin|Hin]; [by rewrite (proj2 (N.leb_gt _ _) Hin)|].
  by rewrite bool_decide_false, andb_false_r.
Qed.

Lemma root_fields path :
  (N.of_nat (length path) + 1 < 2 ^ 32)%N -> checked c sequence (RootPut id path) ->
  record_root (concat (framed_fields 6 0 n [put32 id; put32 (N.of_nat (length path) + 1); path; zeros 1] (padding 16 path))) id =
    Some (Ok (RootPut id path)).
Proof.
  intros Hl [Hs Hh]. unfold record_root. textual [[6%N]; [0%N]; zeros 2; put32 n; put32 id] 16.
  by rewrite bool_decide_true.
Qed.

Lemma link_fields target :
  (N.of_nat (length target) + 1 < 2 ^ 32)%N -> checked c sequence (LinkPut id target) ->
  record_link (concat (framed_fields 10 0 n [put32 id; put32 (N.of_nat (length target) + 1); target; zeros 1] (padding 16 target))) id =
    Some (Ok (LinkPut id target)).
Proof.
  intros Hl Hs. cbn [checked] in Hs. unfold record_link. by textual [[10%N]; [0%N]; zeros 2; put32 n; put32 id] 16.
Qed.

Lemma work_tree_fields k common path :
  (N.of_nat (length path) + 1 < 2 ^ 32)%N -> checked c sequence (WorkTreePut id k common path) ->
  record_work_tree
    (concat (framed_fields 12 0 n [put32 id; [work_tree_byte k]; zeros 3; put64 common.1; put64 common.2;
                                   put32 (N.of_nat (length path) + 1); path; zeros 1] (padding 36 path))) id =
    Some (Ok (WorkTreePut id k common path)).
Proof.
  intros Hl (H64 & Hs & Hh). fields_in. unfold u64_ok in *.
  unfold record_work_tree. unfold framed_fields at 1. rewrite (proj2 (Nat.ltb_ge _ _)).
  2: { etransitivity; [apply (padded_ge 36 path 5 Hs); lia|]. field_lengths. }
  unfold framed_fields. cbn [app]. read 6. rewrite bool_decide_false by (by intros Hne; apply Hne). read 5.
  rewrite from_byte_work_tree. cbn [ok_or outcome_bind].
  textual [[12%N]; [0%N]; zeros 2; put32 n; put32 id; [work_tree_byte k]; zeros 3; put64 common.1; put64 common.2] 36.
  rewrite bool_decide_true by done. cbn [negb]. read 7. read 8. by destruct common.
Qed.
End forward.

Lemma framed_wire r fields :
  payload r = Ok fields -> wire r fields = framed_fields (op r) (flag r)
    (N.of_nat (next_multiple (8 + length (concat fields)))) fields (next_multiple (8 + length (concat fields)) - (8 + length (concat fields))).
Proof. done. Qed.

Lemma string_fields s fields : string_ s = Ok fields ->
  fields = [put32 (N.of_nat (length s) + 1); s; zeros 1] /\ (N.of_nat (length s) + 1 < 2 ^ 32)%N.
Proof. unfold string_. destruct (N.ltb_spec (N.of_nat (length s) + 1) (2 ^ 32)); [|done]. by intros [= <-]. Qed.

(** The arm of a record, after its id and its first byte. *)
Ltac op_read := read 0; cbv beta iota delta [N.eqb Pos.eqb].
Ltac known_end e :=
  match goal with |- context [framed_fields _ _ _ ?fs (next_multiple (8 + ?l) - (8 + ?l))] =>
    replace (8 + l) with e by field_lengths end;
  unfold record, framed_fields; cbn [app].
Ltac string_end e s :=
  match goal with |- context [framed_fields _ _ _ ?fs (next_multiple (8 + ?l) - (8 + ?l))] =>
    replace (8 + l) with (e + length s + 1) by field_lengths end;
  unfold record, framed_fields; cbn [app].

Section forward.
  Context (c : Counters) (sequence : u64) (Hc : counters_ok c) (Hs : u64_ok sequence).

Lemma tombstone_wire r id n o :
  u32_ok id ->
  outcome_bind (deleted (concat (framed_fields o 0 n (delete_ id) 0))) (fun _ => Some (Ok r)) = Some (Ok r) :> outcome Record_.
Proof. intros Hid. by rewrite (tombstone_fields n id). Qed.

Ltac tombstone := known_end 16; read 4; op_read; by apply tombstone_wire.

Lemma record_wire r b :
  checked c sequence r -> (forall id, row r = Some id -> u32_ok id) ->
  encode r = Ok b -> record c sequence b = Some (Ok r).
Proof.
  intros Hr Hid (_ & fields & Hp & Hl & ->)%encode_wire. rewrite (framed_wire r fields Hp). revert Hl.
  generalize (N.of_nat (next_multiple (8 + length (concat fields)))). intros n _.
  assert (Hrow : forall id, row r = Some id -> (id < 2 ^ 32)%N) by exact Hid.
  destruct r; cbn [payload] in Hp; cbn [op flag];
    try (match goal with s : bytes |- _ => destruct (string_ s) as [fs|] eqn:Es; cbn [result_bind] in Hp; [|done];
           apply string_fields in Es as [-> Elen] end);
    injection Hp as <-; try specialize (Hrow id eq_refl).
  - known_end 24. read 4. op_read. by apply life_fields with (sequence := sequence).
  - tombstone.
  - string_end 24 name. read 4. op_read. by apply name_fields with (sequence := sequence).
  - tombstone.
  - known_end 32. read 4. op_read. by apply dir_fields.
  - string_end 16 path. read 4. op_read. by apply (root_fields c sequence).
  - tombstone.
  - cbn [checked] in Hr. known_end 24. rewrite u32_at_in by field_lengths. cbn [mbind option_bind]. op_read. by apply policy_fields.
  - known_end 88. read 4. op_read. by apply inode_fields with (sequence := sequence).
  - string_end 16 target. read 4. op_read. by apply (link_fields c sequence).
  - tombstone.
  - string_end 36 path. read 4. op_read. by apply (work_tree_fields c sequence).
  - tombstone.
  - cbn [checked] in Hr. destruct Hr as [Hr Hh]. known_end 32. read 4. op_read. by apply doc_fields with (sequence := sequence).
  - tombstone.
  - cbn [checked] in Hr. known_end 32. read 4. op_read. by apply dormant_fields.
  - tombstone.
Qed.

Lemma payload_length r fields : payload r = Ok fields -> checked c sequence r -> 8 <= length (concat fields).
Proof.
  intros Hp Hr. destruct r; cbn [payload checked] in *;
    try (match goal with s : bytes |- _ => destruct (string_ s) as [fs|] eqn:Es; cbn [result_bind] in Hp; [|done];
           apply string_fields in Es as [-> Elen] end);
    injection Hp as <-; field_lengths.
Qed.

Lemma flag_range r : ((if (op r =? 3)%N then 1 else 0) <? flag r)%N = false.
Proof. by destruct r as [| |? ? ? ? []| | | | | | | | | | | | | |]. Qed.

Lemma framed_head o f len tail (bs := concat ([[o]; [f]; zeros 2; put32 (N.of_nat len)] ++ tail)) :
  ((if (o =? 3)%N then 1 else 0) <? f)%N = false -> 16 <= len -> len mod 8 = 0 -> len <= length bs ->
  (N.of_nat len < 2 ^ 32)%N -> framed bs = Some (Ok len).
Proof.
  intros Hf Hl Hm Hle Hn. unfold framed. rewrite (proj2 (Nat.ltb_ge _ _)) by lia. revert Hle. subst bs. cbn [app]. intros Hle.
  read 2. read 0. read 1. rewrite bool_decide_false by (by intros Hne; apply Hne). rewrite Hf. cbn [orb]. read 3.
  rewrite Nat2N.id, (proj2 (Nat.ltb_ge _ 16)), (proj2 (Nat.eqb_eq _ _) Hm), (proj2 (Nat.ltb_ge _ len)) by done. done.
Qed.

Lemma framed_record r b rest :
  checked c sequence r -> encode r = Ok b -> framed (b ++ rest) = Some (Ok (length b)) /\ 16 <= length b.
Proof.
  intros Hr (_ & fields & Hp & Hl & ->)%encode_wire.
  pose proof (payload_length r fields Hp Hr) as H8. pose proof (length_wire r fields) as Hlen.
  pose proof (next_multiple_spec (8 + length (concat fields))) as [Hge Hmod].
  split; [|lia]. rewrite Hlen. replace (concat (wire r fields) ++ rest) with (concat (wire r fields ++ [rest]))
    by (rewrite concat_app; cbn [concat]; by rewrite app_nil_r).
  unfold wire. rewrite <- app_assoc. apply framed_head; [apply flag_range|lia|done| |done].
  rewrite app_assoc. fold (wire r fields). rewrite concat_app, length_app, Hlen. lia.
Qed.

Lemma sub_prefix (b rest : bytes) : sub_bytes (b ++ rest) 0 (length b) = Some b.
Proof.
  rewrite sub_bytes_in by (rewrite ?length_app; lia). f_equal. unfold slice. rewrite drop_0, Nat.sub_0_r. by apply take_app_length.
Qed.
Lemma sub_suffix (b rest : bytes) : sub_bytes (b ++ rest) (length b) (length (b ++ rest)) = Some rest.
Proof.
  rewrite sub_bytes_in by (rewrite ?length_app; lia). f_equal. unfold slice. rewrite drop_app_length. apply take_ge.
  rewrite length_app. lia.
Qed.

(** A record's id, where it has one, is at byte eight. *)
Lemma record_id r b :
  checked c sequence r -> encode r = Ok b ->
  exists id, u32_at b 8 = Some id /\ forall i, row r = Some i -> u32_ok i -> i = id.
Proof.
  intros Hr (_ & fields & Hp & Hl & ->)%encode_wire.
  pose proof (payload_length r fields Hp Hr) as H8. pose proof (length_wire r fields) as Hlen.
  pose proof (next_multiple_spec (8 + length (concat fields))) as [Hge _].
  destruct (row r) as [i|] eqn:Ei; [|eexists; split; [apply u32_at_in; lia|done]].
  assert (exists fs, fields = put32 i :: fs) as [fs ->].
  { destruct r; cbn [payload row] in *; try done; injection Ei as ->;
      try (match goal with s : bytes |- _ => destruct (string_ s) as [fs|]; cbn [result_bind] in Hp; [|done] end);
      injection Hp as <-; by eexists. }
  destruct (decide (u32_ok i)) as [Hi|Hi].
  - exists i. split; [|by intros ? [= ->]]. by apply (u32_concat _ 4).
  - eexists. split; [apply u32_at_in; lia|]. by intros ? [= ->].
Qed.

Lemma encode_all_cons r rs b :
  encode_all (r :: rs) = Ok b <-> exists x y, encode r = Ok x /\ encode_all rs = Ok y /\ b = x ++ y.
Proof.
  cbn [encode_all]. destruct (encode r) as [x|]; cbn [result_bind]; [|by split; [|intros (? & ? & ? & _)]].
  destruct (encode_all rs) as [y|]; cbn [result_bind]; [|by split; [|intros (? & ? & ? & ? & _)]].
  split; [intros [= <-]; by exists x, y|]. by intros (? & ? & [= ->] & [= ->] & ->).
Qed.

Lemma counters_limit r n : limit c r = Some n -> u32_ok n.
Proof. unfold counters_ok in Hc. fields_in. destruct r; cbn [limit]; by intros [= <-]. Qed.

Lemma row_limit r id : row r = Some id -> exists n, limit c r = Some n.
Proof. destruct r; cbn; intros; try done; by eexists. Qed.

Lemma decode_loop_encoded wanted rs b fuel count records :
  Forall (valid c sequence wanted) rs -> encode_all rs = Ok b -> length b < fuel ->
  count = N.of_nat (length records + length rs) ->
  decode_loop c sequence fuel b count wanted records = Some (Ok (records ++ rs)).
Proof.
  intros Hv. revert b fuel records. induction Hv as [|r rs [Hr Hrow Hfam] Hv IH]; intros b fuel records He Hf ->.
  - injection He as <-. destruct fuel as [|fuel]; [lia|]. cbn. rewrite app_nil_r, Nat.add_0_r, N.eqb_refl. done.
  - apply encode_all_cons in He as (x & y & Hx & Hy & ->).
    destruct (framed_record r x y Hr Hx) as [Hfr H16]. destruct fuel as [|fuel]; [lia|]. cbn [decode_loop].
    destruct x as [|x0 x]; [cbn [length] in *; lia|]. cbn [app is_empty] in *. rewrite Hfr. cbn [outcome_bind].
    change (x0 :: x ++ y) with ((x0 :: x) ++ y). rewrite sub_prefix. cbn [mbind option_bind].
    destruct (record_id r _ Hr Hx) as (id & -> & Hid). cbn [mbind option_bind].
    assert (Hok : forall i, row r = Some i -> u32_ok i).
    { intros i Hi. destruct (row_limit r i Hi) as [n Hn]. pose proof (Hrow i n Hi Hn). pose proof (counters_limit r n Hn).
      unfold u32_ok in *. lia. }
    rewrite (record_wire r _ Hr Hok Hx). cbn [outcome_bind]. rewrite bool_decide_false by (by intros Hne; apply Hne).
    replace (is_some_and (limit c r) (fun n => (n <=? id)%N)) with false.
    2: { destruct (limit c r) as [n|] eqn:Hn; [|done]. symmetry. apply N.leb_gt.
         destruct (row r) as [i|] eqn:Hi; [|by destruct r]. rewrite <- (Hid i eq_refl (Hok i eq_refl)). by apply (Hrow i n). }
    rewrite (proj2 (N.ltb_ge _ _)) by (rewrite length_app; cbn [length]; lia). rewrite sub_suffix. cbn [mbind option_bind].
    rewrite (IH y fuel (records ++ [r])); [by rewrite <- app_assoc|done|cbn [length] in Hf; rewrite length_app in Hf; lia|].
    rewrite length_app. cbn [length]. f_equal. lia.
Qed.
End forward.

(** ** Any bytes decode, and only to what encodes to them *)

Lemma text_total b at_ start :
  start = at_ + 4 -> start <= length b ->
  exists res, text b at_ start = Some res /\
    forall s (e := start + length s + 1), res = Ok s -> bytes_ok b ->
      string_ok s /\ string_ s = Ok [put32 (N.of_nat (length s) + 1); s; zeros 1] /\
      concat [put32 (N.of_nat (length s) + 1); s; zeros 1] = slice b at_ e /\
      length b = next_multiple e /\ slice b e (length b) = zeros (length b - e).
Proof.
  intros -> Hb. unfold text. in_range. set (count := N.to_nat (le_num (slice b at_ (at_ + 4)))).
  set (e := at_ + 4 + count). destruct (Nat.leb_spec e (length b)) as [He|]; cbn [negb]; [|by eexists].
  destruct (Nat.ltb_spec count 2) as [|H2]; [by eexists|]. in_range.
  destruct (N.eqb_spec (le_num (slice b (e - 1) (e - 1 + 1))) 0) as [Hnul|]; cbn [negb]; [|by eexists].
  in_range. case_bool_decide as Hin; [by eexists|]. in_range.
  destruct (existsb _ _) eqn:Hz; [by eexists|].
  destruct (Nat.eqb_spec (length b) (next_multiple e)) as [Hm|]; cbn [negb]; [|by eexists].
  eexists. split; [reflexivity|]. intros s [= <-] Hok.
  assert (Hlen : length (slice b (at_ + 4) (e - 1)) = count - 1) by (rewrite length_slice; lia).
  rewrite Hlen. replace (at_ + 4 + (count - 1) + 1) with e by lia.
  replace (N.of_nat (count - 1) + 1)%N with (le_num (slice b at_ (at_ + 4))) by lia.
  assert (Hcount : (le_num (slice b at_ (at_ + 4)) < 2 ^ 32)%N) by (by apply (le_slice_lt _ _ _ 4); [done|lia|lia]).
  split_and!.
  - split; [|by apply bytes_ok_slice|done]. intros E. rewrite E in Hlen. simpl in Hlen. lia.
  - unfold string_. rewrite Hlen. replace (N.of_nat (count - 1) + 1)%N with (le_num (slice b at_ (at_ + 4))) by lia.
    by rewrite (proj2 (N.ltb_lt _ _) Hcount).
  - cbn [concat]. unfold put32. rewrite le_slice by (done || lia).
    replace (zeros 1) with (slice b (e - 1) e); [rejoin|].
    replace e with (e - 1 + 1) at 2 by lia. rewrite <- (single_slice b (e - 1)) by lia. by rewrite Hnul.
  - done.
  - rewrite (zeros_existsb _ Hz), length_slice by lia. done.
Qed.

(** What an arm reads back. *)
Record read_back (c : Counters) (sequence : u64) (b : bytes) (o f : u8) (r : Record_) : Prop := {
  rb_checked : checked c sequence r;
  rb_op : op r = o;
  rb_flag : flag r = f;
  rb_row : forall i, row r = Some i -> i = le_num (slice b 8 12);
  rb_fields : exists fields e, payload r = Ok fields /\ concat fields = slice b 8 e /\ 8 <= e /\
    length b = next_multiple e /\ slice b e (length b) = zeros (length b - e)
}.

Definition total (m : outcome Record_) (P : Record_ -> Prop) : Prop :=
  exists res, m = Some res /\ forall r, res = Ok r -> P r.

Lemma total_err e P : total (Some (Err e)) P.
Proof. by eexists. Qed.
Lemma total_ok r (P : Record_ -> Prop) : P r -> total (Some (Ok r)) P.
Proof. intros H. eexists. split; [done|]. by intros ? [= <-]. Qed.
Ltac refused := solve [apply total_err].

Lemma total_exact b n (k : outcome Record_) P :
  (length b = n -> total k P) -> total (outcome_bind (exact b n) (fun _ => k)) P.
Proof. intros H. unfold exact. destruct (Nat.eqb_spec (length b) n); cbn [outcome_bind]; [auto|refused]. Qed.

Lemma no_padding (b : bytes) e : length b = e -> e mod 8 = 0 -> length b = next_multiple e /\ slice b e (length b) = zeros (length b - e).
Proof.
  intros <- H. rewrite next_multiple_id by done. split; [done|]. rewrite Nat.sub_diag. unfold slice. by rewrite Nat.sub_diag.
Qed.

(** Turns a refused test into its negation, piece by piece. *)
Ltac accepted H :=
  repeat match type of H with (_ || _) = false => let H' := fresh "T" in apply orb_false_elim in H as [H H'] end.

Lemma kept_lt s n bound m : negb (n =? s)%N && (bound <=? n)%N = false -> then_some s n = Some m -> (m < bound)%N.
Proof.
  intros T [<- Hne]%then_some_some. rewrite (proj2 (N.eqb_neq _ _) Hne) in T. by apply N.leb_gt in T.
Qed.
Lemma kept_le s n bound m : negb (n =? s)%N && (bound <? n)%N = false -> then_some s n = Some m -> (m <= bound)%N.
Proof.
  intros T [<- Hne]%then_some_some. rewrite (proj2 (N.eqb_neq _ _) Hne) in T. by apply N.ltb_ge in T.
Qed.
Lemma then_some_none s n : then_some s n <> None <-> n <> s.
Proof. unfold then_some. by destruct (N.eqb_spec n s) as [->|]. Qed.
Lemma below_sentinel s n m : (n <= s)%N -> then_some s n = Some m -> (m < s)%N.
Proof. intros Hle [<- Hne]%then_some_some. lia. Qed.

Section backward.
  Context (c : Counters) (sequence : u64) (b : bytes) (Hc : counters_ok c) (Hs : u64_ok sequence) (Hok : bytes_ok b).

Abbreviation id_ := (le_num (slice b 8 12)).

Lemma tombstone_total r o :
  (forall id, op (r id) = o /\ flag (r id) = 0%N /\ checked c sequence (r id) /\ row (r id) = Some id /\ payload (r id) = Ok (delete_ id)) ->
  16 <= length b ->
  total (outcome_bind (deleted b) (fun _ => Some (Ok (r id_)))) (read_back c sequence b o 0).
Proof.
  intros Hr Hb. unfold deleted, exact. destruct (Nat.eqb_spec (length b) 16) as [Hl|]; cbn [outcome_bind]; [|refused].
  in_range. case_bool_decide as Hp; cbn [outcome_bind]; [refused|]. apply total_ok. destruct (Hr id_) as (H1 & H2 & H3 & H4 & H5).
  split; [done|done|done|intros i; rewrite H4; congruence|].
  eexists _, 16. split; [exact H5|]. split; [|split; [lia|by apply no_padding]].
  unfold delete_, put32. cbn [concat]. change (le_bytes 4 0) with (zeros 4). rewrite <- Hp. rejoin.
Qed.

(** The last fields of a row are the bytes they came from. *)
Ltac row_back e :=
  split; [|reflexivity|reflexivity|intros ? [= <-]; reflexivity|eexists _, e; split; [reflexivity|];
    split; [|split; [lia|by apply no_padding]]; unfold put32, put64; cbn [concat]].

Lemma life_total : total (record_life c b id_) (read_back c sequence b 1 0).
Proof.
  unfold record_life. apply total_exact. intros Hl. in_range. cbn [Nat.add].
  set (names_ := le_num (slice b 16 20)). set (kb := le_num (slice b 12 13)). set (flags := le_num (slice b 13 14)).
  case_bool_decide as Hp; cbn [orb]; [refused|]. case_bool_decide as Hp2; cbn [orb]; [refused|].
  destruct (N.eqb_spec flags 0) as [Hf|]; cbn [negb orb]; [|refused]. destruct (N.ltb_spec (names c) names_) as [|Hn]; [refused|].
  destruct (kind kb) as [k|] eqn:Hk; [|destruct (names_ =? 0)%N; cbn [outcome_bind]; refused].
  assert (Hgood : (names_ = 0%N -> k = Dir) -> total (Some (Ok (LifePut id_ k flags names_))) (read_back c sequence b 1 0)).
  { intros Hdir. apply total_ok. row_back 24; [by split|]. rewrite (kind_ok _ _ Hk). change (le_bytes 4 0) with (zeros 4).
    unfold kb, flags, names_. rewrite <- Hp, <- Hp2. rejoin. }
  destruct (N.eqb_spec names_ 0) as [H0|H0]; cbn [outcome_bind]; [|by apply Hgood].
  case_bool_decide as Hd; [refused|]. by apply Hgood.
Qed.

Lemma dir_total : total (record_dir c sequence b id_) (read_back c sequence b 5 0).
Proof.
  unfold record_dir. apply total_exact. intros Hl. in_range. cbn [Nat.add].
  assert (Hb : u32_ok (le_num (slice b 12 16)) /\ u32_ok (le_num (slice b 16 20)) /\ u32_ok (le_num (slice b 20 24))
    /\ u64_ok (le_num (slice b 24 32))) by (split_and!; field_bounds).
  revert Hb. set (name := le_num (slice b 12 _)). set (entries := le_num (slice b 16 _)). set (flags := le_num (slice b 20 _)).
  set (retained := le_num (slice b 24 _)). intros (Bn & Be & Bf & Br).
  match goal with |- total (if ?t then _ else _) _ => destruct t eqn:T end; [refused|].
  accepted T. apply total_ok. row_back 32.
  - apply negb_false_iff, eqb_prop in T0. apply negb_false_iff, N.eqb_eq in T2. split_and!.
    + intros m. by apply kept_lt.
    + intros m. apply below_sentinel. unfold u32_ok, NONE in *. lia.
    + by apply flags_low.
    + intros m Hm. split; [by apply (kept_le _ _ _ _ T1)|]. revert Hm. apply below_sentinel. unfold u64_ok, NONE64 in *. lia.
    + rewrite then_some_none, <- !N.eqb_neq, <- !negb_true_iff. by rewrite T0.
  - rewrite !default_then_some. unfold name, entries, flags, retained. rejoin.
Qed.

Lemma policy_total : total (record_policy b) (read_back c sequence b 8 0).
Proof.
  unfold record_policy. apply total_exact. intros Hl. in_range. apply total_ok.
  split; [cbn [checked]; field_bounds|done|done|done|]. eexists _, 24. split; [reflexivity|].
  split; [cbn [concat]; by rewrite app_nil_r|]. split; [lia|by apply no_padding].
Qed.

Lemma doc_total : total (record_doc c b id_) (read_back c sequence b 14 0).
Proof.
  unfold record_doc. apply total_exact. intros Hl. in_range. cbn [Nat.add].
  destruct (_ || _) eqn:T; [refused|]. accepted T. in_range. apply total_ok. row_back 32; [|rejoin].
  apply N.eqb_neq in T. apply N.ltb_ge in T0. split; [lia|field_bounds].
Qed.

Lemma dormant_total : total (record_dormant b id_) (read_back c sequence b 16 0).
Proof.
  unfold record_dormant. apply total_exact. intros Hl. in_range.
  case_bool_decide as Hp; [refused|]. in_range. apply total_ok. row_back 32; [cbn [checked]; field_bounds|].
  change (le_bytes 4 0) with (zeros 4). rewrite <- Hp. rejoin.
Qed.

Lemma inode_total : total (record_inode c b id_) (read_back c sequence b 9 0).
Proof.
  unfold record_inode. apply total_exact. intros Hl. in_range. cbn [Nat.add].
  destruct (kind _) as [k|] eqn:Hk; cbn [outcome_bind]; [|refused]. in_range. cbn [Nat.add].
  match goal with |- total (if ?t then _ else _) _ => destruct t eqn:T end; [refused|].
  accepted T. apply bool_decide_eq_false, dec_stable in T. apply N.ltb_ge in T6. apply N.leb_gt in T3, T2.
  apply negb_false_iff, eqb_prop in T5. apply bool_decide_eq_false, dec_stable in T1.
  apply total_ok. row_back 88.
  - cbn [dev ino size mtime_sec mtime_nsec ctime_sec ctime_nsec mode uid gid nlink]. split_and!; try done.
    + intros m. by apply kept_lt.
    + rewrite then_some_none, <- N.eqb_neq, <- negb_true_iff, <- T5, N.eqb_eq. split; intros E.
      * rewrite <- (state_from_bits (le_num (slice b 13 14))) by done. by rewrite E.
      * by rewrite E.
    + intros Hf. rewrite bool_decide_true in T0 by done. apply negb_false_iff, N.eqb_eq in T0. by rewrite T0.
    + split; cbn [dev ino size mtime_sec mtime_nsec ctime_sec ctime_nsec mode uid gid nlink]; try field_bounds; [|done].
      split; apply as_i64_range; field_bounds.
  - cbn [dev ino size mtime_sec mtime_nsec ctime_sec ctime_nsec mode uid gid nlink].
    rewrite (kind_ok _ _ Hk), state_from_bits, default_then_some, !as_u64_i64 by (done || field_bounds). rewrite <- T. rejoin.
Qed.

(** A string arm: its text, and what follows for the whole row. *)
Lemma text_row o f r at_ start (k : bytes -> outcome Record_) :
  start = at_ + 4 -> start <= length b -> 8 <= at_ ->
  (forall s, string_ok s ->
     (checked c sequence (r s) -> exists pre, op (r s) = o /\ flag (r s) = f /\ row (r s) = Some id_ /\
        payload (r s) = (fs <~ string_ s; Ok (pre ++ fs)) /\ concat pre = slice b 8 at_) /\
     total (k s) (fun x => x = r s /\ checked c sequence (r s))) ->
  total (outcome_bind (text b at_ start) k) (read_back c sequence b o f).
Proof.
  intros Hstart Hb H8 Hk. destruct (text_total b at_ start Hstart Hb) as (res & -> & Hres).
  destruct res as [s|e]; cbn [outcome_bind]; [|refused]. specialize (Hres s eq_refl Hok) as (Hs1 & Hs2 & Hs3 & Hs4 & Hs5).
  destruct (Hk s Hs1) as (Hrow & res & -> & Htot). eexists. split; [done|]. intros x ->.
  destruct (Htot x eq_refl) as [-> Hch]. destruct (Hrow Hch) as (pre & H1 & H2 & H3 & H4 & H5).
  split; [done|done|done|rewrite H3; congruence|]. rewrite H4, Hs2. cbn [result_bind].
  pose proof (next_multiple_spec (start + length s + 1)).
  eexists _, (start + length s + 1). split; [done|]. rewrite concat_app, H5, Hs3, slice_join by lia. by split_and!; [|lia| |].
Qed.

Lemma total_if (t : bool) e m P : (t = false -> total m P) -> total (if t then Some (Err e) else m) P.
Proof. intros H. destruct t; [refused|by apply H]. Qed.

Lemma name_total f : b !! 1 = Some f -> (f <= 1)%N -> total (record_name c b id_) (read_back c sequence b 3 f).
Proof.
  intros Hf Hf1. unfold record_name. destruct (Nat.ltb_spec (length b) 32); [refused|]. in_range. cbn [Nat.add].
  assert (Hb : u32_ok (le_num (slice b 16 20))) by field_bounds. revert Hb.
  set (parent := le_num (slice b 12 16)). set (child := le_num (slice b 16 20)). intros Hb.
  apply (text_row _ _ (fun s => NamePut id_ parent child s (f =? 1)%N)); [done|lia|lia|]. intros s Hstr. split.
  - intros _. eexists [put32 id_; put32 parent; put32 child]. split_and!; [done| |done|done|].
    + destruct (N.eqb_spec f 1) as [->|]; [done|]. cbn. lia.
    + unfold put32, parent, child. cbn [concat]. rejoin.
  - rewrite byte_in in Hf by lia. injection Hf as Hf. cbn [Nat.add] in Hf. rewrite Hf. cbn [mbind option_bind]. apply total_if. intros T. accepted T.
    apply total_ok. split; [done|]. apply N.leb_gt in T. apply bool_decide_eq_false in T2, T1, T0. split_and!; try done.
    apply andb_false_elim in T3 as [T3|T3]; [left; by apply N.leb_gt|right]. by apply bool_decide_eq_false in T3.
Qed.

Lemma root_total : 16 <= length b -> total (record_root b id_) (read_back c sequence b 6 0).
Proof.
  intros Hb. unfold record_root. apply (text_row _ _ (fun s => RootPut id_ s)); [done|lia|lia|]. intros s Hstr. split.
  - intros _. eexists [put32 id_]. split_and!; try done. unfold put32. cbn [concat]. rejoin.
  - apply total_if. intros T. apply negb_false_iff, bool_decide_eq_true in T. by apply total_ok.
Qed.

Lemma link_total : 16 <= length b -> total (record_link b id_) (read_back c sequence b 10 0).
Proof.
  intros Hb. unfold record_link. apply (text_row _ _ (fun s => LinkPut id_ s)); [done|lia|lia|]. intros s Hstr. split.
  - intros _. eexists [put32 id_]. split_and!; try done. unfold put32. cbn [concat]. rejoin.
  - by apply total_ok.
Qed.

Lemma work_tree_total : total (record_work_tree b id_) (read_back c sequence b 12 0).
Proof.
  unfold record_work_tree. destruct (Nat.ltb_spec (length b) 40); [refused|]. in_range. cbn [Nat.add].
  case_bool_decide as Hp; [refused|]. in_range. cbn [Nat.add].
  destruct (from_byte _) as [k|] eqn:Hk; cbn [ok_or outcome_bind]; [|refused].
  apply (text_row _ _ (fun s => WorkTreePut id_ k (le_num (slice b 16 24), le_num (slice b 24 32)) s)); [done|lia|lia|].
  intros s Hstr. split.
  - intros _. eexists [put32 id_; [work_tree_byte k]; zeros 3; put64 (le_num (slice b 16 24)); put64 (le_num (slice b 24 32))].
    split_and!; try done.
    unfold put32, put64. cbn [concat]. rewrite (from_byte_some _ _ Hk), <- Hp. rejoin.
  - apply total_if. intros T. apply negb_false_iff, bool_decide_eq_true in T. in_range. apply total_ok. split; [done|].
    split_and!; [cbn [fst snd]; field_bounds|done|done].
Qed.

Lemma record_total o f :
  b !! 0 = Some o -> b !! 1 = Some f -> (f <= (if o =? 3 then 1 else 0))%N -> 16 <= length b ->
  total (record c sequence b) (read_back c sequence b o f).
Proof.
  intros Ho Hf Hf1 Hl. unfold record. in_range. cbn [Nat.add]. rewrite byte_in in Ho by lia. injection Ho as Ho. cbn [Nat.add] in Ho. rewrite Ho.
  destruct (N.eqb_spec o 3) as [->|H3].
  { cbv beta iota delta [N.eqb Pos.eqb]. by apply name_total. }
  assert (f = 0%N) as -> by lia.
  repeat match goal with |- context [(o =? ?n)%N] => destruct (N.eqb_spec o n) as [->|]; [|] end; try done;
    try (apply tombstone_total; [by intros id|done]).
  - apply life_total.
  - apply dir_total.
  - by apply root_total.
  - apply policy_total.
  - apply inode_total.
  - by apply link_total.
  - apply work_tree_total.
  - apply doc_total.
  - apply dormant_total.
  - refused.
Qed.
End backward.

Lemma checked_reserved c sequence r : counters_ok c -> checked c sequence r -> reserved r = false.
Proof.
  unfold counters_ok, u32_ok. intros Hc Hr. fields_in. destruct r as [| | | |? name entries ? retained| | | |? ? ? doc| | | | | | | |]; try done; cbn [checked reserved] in *.
  - destruct Hr as (Hn & He & _ & Hr & _). rewrite !bool_decide_false; [done|intros ->..].
    + specialize (Hr _ eq_refl). lia.
    + specialize (He _ eq_refl). lia.
    + specialize (Hn _ eq_refl). unfold NONE in *. lia.
  - destruct Hr as (Hd & _). rewrite bool_decide_false; [done|]. intros ->. specialize (Hd _ eq_refl). unfold NONE in *. lia.
Qed.

(** The head that [decode] checked, and the rest of a row read back. *)
Lemma read_back_encode c sequence b o f r :
  counters_ok c -> bytes_ok b -> 8 <= length b ->
  b !! 0 = Some o -> b !! 1 = Some f -> slice b 2 4 = zeros 2 -> le_num (slice b 4 8) = N.of_nat (length b) ->
  read_back c sequence b o f r -> encode r = Ok b.
Proof.
  intros Hc Hok Hl Ho Hf Hp Hn [Hr <- <- _ (fields & e & Hpay & Hcat & He & Hm & Hz)].
  apply encode_wire. split; [by apply (checked_reserved c sequence)|]. exists fields. split; [done|].
  pose proof (next_multiple_spec e).
  assert (Hfl : 8 + length (concat fields) = e) by (rewrite Hcat, length_slice; lia).
  unfold wire. rewrite Hfl, <- Hm, <- Hn. split; [by apply (le_slice_lt _ _ _ 4); [done|lia|lia]|].
  rewrite !concat_app, Hcat. cbn [concat]. rewrite app_nil_r, <- Hz, <- Hp. unfold put32.
  rewrite byte_in in Ho, Hf by lia. cbn [Nat.add] in *. injection Ho as <-. injection Hf as <-.
  symmetry. transitivity (slice b 0 (length b)); [rejoin|by apply slice_all].
Qed.

Section decoded.
  Context (c : Counters) (sequence : u64) (Hc : counters_ok c) (Hs : u64_ok sequence).

Lemma framed_total rest :
  exists res, framed rest = Some res /\ forall len, res = Ok len ->
    16 <= len <= length rest /\ slice rest 2 4 = zeros 2 /\ le_num (slice rest 4 8) = N.of_nat len /\
    exists o f, rest !! 0 = Some o /\ rest !! 1 = Some f /\ (f <= (if o =? 3 then 1 else 0))%N.
Proof.
  unfold framed. destruct (Nat.ltb_spec (length rest) 8) as [|H8]; [by eexists|].
  destruct (rest !! 0) as [o|] eqn:Ho; [|apply lookup_ge_None in Ho; lia].
  destruct (rest !! 1) as [f|] eqn:Hf; [|apply lookup_ge_None in Hf; lia].
  in_range. destruct (_ || _) eqn:T; [by eexists|]. accepted T. apply bool_decide_eq_false, dec_stable in T. apply N.ltb_ge in T0.
  in_range. cbn [Nat.add]. destruct (_ || _) eqn:V; [by eexists|]. accepted V. apply Nat.ltb_ge in V, T1.
  eexists. split; [reflexivity|]. intros len [= <-]. split; [lia|]. split; [done|]. split; [lia|]. by exists o, f.
Qed.

Lemma slice_sub_slice (l : bytes) n a b : b <= n -> slice (slice l 0 n) a b = slice l a b.
Proof. intros H. unfold slice. rewrite drop_0, Nat.sub_0_r, skipn_firstn_comm, take_take. f_equal. lia. Qed.
Lemma lookup_slice0 (l : bytes) n a : a < n -> slice l 0 n !! a = l !! a.
Proof. intros H. unfold slice. rewrite drop_0, Nat.sub_0_r. by apply lookup_take_lt. Qed.

(** One turn of the loop: a row that is its record's encoding, or an error. *)
Lemma row_total rest len o f :
  bytes_ok rest -> 16 <= len <= length rest -> slice rest 2 4 = zeros 2 -> le_num (slice rest 4 8) = N.of_nat len ->
  rest !! 0 = Some o -> rest !! 1 = Some f -> (f <= (if o =? 3 then 1 else 0))%N ->
  exists id, u32_at (slice rest 0 len) 8 = Some id /\
    total (record c sequence (slice rest 0 len))
      (fun r => checked c sequence r /\ encode r = Ok (slice rest 0 len) /\ forall i, row r = Some i -> i = id).
Proof.
  intros Hok [H16 Hlen] Hp Hn Ho Hf Hfo. set (b := slice rest 0 len).
  assert (Hl : length b = len) by (unfold b; rewrite length_slice; lia).
  assert (Hb : bytes_ok b) by (by apply bytes_ok_slice).
  eexists. split; [apply u32_at_in; lia|].
  destruct (record_total c sequence b Hs Hb o f) as (res & Hres & Hr); try done; [by unfold b; rewrite lookup_slice0 by lia..|lia|].
  exists res. split; [done|]. intros r Hrr. specialize (Hr r Hrr). pose proof Hr as [H1 _ _ H4 _]. split; [done|]. split; [|exact H4].
  apply (read_back_encode c sequence b o f); try done; [lia|by unfold b; rewrite lookup_slice0 by lia..| |];
    unfold b; rewrite slice_sub_slice by lia; [done|]. by rewrite <- Hl in Hn.
Qed.

Lemma decode_loop_total wanted fuel rest count records :
  bytes_ok rest -> length rest < fuel ->
  exists res, decode_loop c sequence fuel rest count wanted records = Some res /\
    forall l, res = Ok l -> exists rs, l = records ++ rs /\ Forall (valid c sequence wanted) rs /\
      encode_all rs = Ok rest /\ count = N.of_nat (length l).
Proof.
  revert rest records. induction fuel as [|fuel IH]; intros rest records Hok Hf; [lia|]. cbn [decode_loop].
  destruct (is_empty rest) eqn:He.
  { destruct rest; [|done]. destruct (N.eqb_spec (N.of_nat (length records)) count) as [<-|]; eexists; (split; [reflexivity|]); [|done].
    intros l [= <-]. exists []. by rewrite app_nil_r. }
  destruct (framed_total rest) as (rf & -> & Hfr). destruct rf as [len|e]; cbn [outcome_bind]; [|by eexists].
  destruct (Hfr len eq_refl) as (Hlen & Hp & Hn & o & f & Ho & Hf1 & Hfo). rewrite (sub_bytes_in rest 0 len) by lia. cbn [mbind option_bind].
  destruct (row_total rest len o f Hok Hlen Hp Hn Ho Hf1 Hfo) as (id & -> & rr & -> & Hr). cbn [mbind option_bind].
  destruct rr as [r|e]; cbn [outcome_bind]; [|by eexists]. destruct (Hr r eq_refl) as (Hch & Henc & Hid).
  case_bool_decide as Hfam; [by eexists|]. destruct (is_some_and _ _) eqn:Hlim; [by eexists|].
  destruct (_ <? _)%N; [by eexists|]. rewrite sub_bytes_in by lia. cbn [mbind option_bind].
  destruct (IH (slice rest len (length rest)) (records ++ [r])) as (res & -> & Hrs); [by apply bytes_ok_slice|rewrite length_slice; lia|].
  eexists. split; [reflexivity|]. intros l ->. destruct (Hrs l eq_refl) as (rs & -> & Hv & Hall & Hcount).
  exists (r :: rs). split; [by rewrite <- app_assoc|]. split; [constructor; [split; [done| |done]|done]|].
  - intros i n Hi Hn'. rewrite Hn' in Hlim. cbn in Hlim. rewrite (Hid i Hi). by apply N.leb_gt.
  - split; [|done]. apply encode_all_cons. eexists _, _. split; [done|]. split; [done|].
    rewrite slice_join by lia. symmetry. by apply slice_all.
Qed.
End decoded.

(** ** Properties *)

(** C28: The decoder of a log block accepts exactly the encodings of valid
    records.  For a block's bytes, the records it decodes to are those whose
    encodings, one after another, are these bytes, each within its counters
    and its family, and as many as the block's descriptor says: no byte of a
    block is ignored, no two lists of records share an encoding, and whatever
    the encoder writes of valid records reads back as them. *)
Theorem log_codec (c : Counters) (sequence : u64) (wanted : Family) (b : bytes) (count : u32) (rs : list Record_)
    (Hc : counters_ok c) (Hs : u64_ok sequence) (Hb : bytes_ok b) :
  decode c sequence b count wanted = Some (Ok rs) <->
  Forall (valid c sequence wanted) rs /\ encode_all rs = Ok b /\ count = N.of_nat (length rs).
Proof.
  unfold decode. split.
  - destruct (decode_loop_total c sequence Hc Hs wanted (S (length b)) b count [] Hb ltac:(lia)) as (res & -> & Hr).
    intros [= ->]. destruct (Hr rs eq_refl) as (l & -> & Hv & He & Hn). done.
  - intros (Hv & He & ->). apply (decode_loop_encoded c sequence Hc Hs wanted rs b); [done|done|lia|done].
Qed.

(** The decoder of a log block never panics and always ends: any bytes
    at all, with any counters, decode to records or to an error. *)
Theorem log_decode_total (c : Counters) (sequence : u64) (wanted : Family) (b : bytes) (count : u32)
    (Hc : counters_ok c) (Hs : u64_ok sequence) (Hb : bytes_ok b) :
  exists res, decode c sequence b count wanted = Some res.
Proof.
  destruct (decode_loop_total c sequence Hc Hs wanted (S (length b)) b count [] Hb ltac:(lia)) as (res & Hres & _).
  by exists res.
Qed.

(** A block of namespace records: a directory, a revealed name below it with
    the policy that reveals it, and a deleted name. *)
Definition sample_counters : Counters := mkCounters 20 30 5.
Definition sample_records : list Record_ :=
  [LifePut 4 Dir 0 0; NamePut 7 4 9 (ascii_bytes ".config") true; DirPut 4 (Some 3%N) None 9 (Some 12%N);
   PolicyPut (le_bytes 16 77); NameDelete 29].
Definition sample_block : bytes := match encode_all sample_records with Ok b => b | Err _ => [] end.

Lemma sample_valid : Forall (valid sample_counters 12 Namespace) sample_records.
Proof.
  repeat apply Forall_cons_2; [..|apply Forall_nil_2]; (split; [|intros id n [= <-] [= <-]; done|done]); cbn [checked].
  - split_and!; [done|discriminate|done].
  - split_and!; try done; [by left| |by apply (bool_decide_unpack _)].
    split; [done| |by apply (bool_decide_unpack _)]. by apply (bool_decide_unpack _).
  - split_and!; try done; try (by intros n [= <-]). 
  - split; [done|]. apply le_bytes_ok.
  - done.
Qed.

Lemma log_codec_witness :
  length sample_block = 128 /\ decode sample_counters 12 sample_block 5 Namespace = Some (Ok sample_records) /\
  decode sample_counters 12 sample_block 4 Namespace = Some (Err bad).
Proof.
  split; [vm_compute; reflexivity|]. split; [|vm_compute; reflexivity].
  apply (proj2 (log_codec sample_counters 12 Namespace sample_block 5 sample_records
    ltac:(repeat constructor) ltac:(done) ltac:(apply (bool_decide_unpack _); vm_compute; exact I))).
  split; [exact sample_valid|]. split; [vm_compute; reflexivity|reflexivity].
Defined.

Lemma log_decode_total_witness :
  exists res, decode sample_counters 12 (replicate 40 9%N) 1 Docs = Some res.
Proof.
  exact (log_decode_total sample_counters 12 Docs (replicate 40 9%N) 1 ltac:(repeat constructor) ltac:(done)
    ltac:(apply (bool_decide_unpack _); vm_compute; exact I)).
Defined.
