(* ===== verification/Trigrams.v ===== *)
(** * Trigrams: the query tree a content regex needs

    Models [crates/ferret-verify/src/trigram/tree.rs]: the tree [Trigrams],
    its smart constructors, its weakening to a budget of keys, and the trait
    [Facts] with its two implementations.  [RequiredLiterals] has the shape
    and the constructors of [Trigrams] with byte strings for keys, so both are
    one type over their keys.  [trigram_key] and [string_trigrams] come from
    [crates/ferret-text/src/lib.rs] and [trigram/fold.rs].

    A subtraction that would overflow and a division by zero panic, and are
    [None] here. *)
From S2P Require Import Prelude Bytes.

(** ** Orders

    [Ord], as [derive] gives it: lexicographic on vectors, constructors in
    their order. *)
Class Ord (A : Type) := cmp : A -> A -> comparison.

Class OrdLaws (A : Type) `{Ord A} : Prop := {
  cmp_eq a b : cmp a b = Eq <-> a = b;
  cmp_antisym a b : cmp b a = CompOpp (cmp a b);
  cmp_trans a b c : cmp a b = Lt -> cmp b c = Lt -> cmp a c = Lt
}.

(** [Vec]'s order, from its elements'. *)
Definition lex {A} (f : A -> A -> comparison) : list A -> list A -> comparison :=
  fix go l m :=
    match l, m with
    | [], [] => Eq
    | [], _ :: _ => Lt
    | _ :: _, [] => Gt
    | x :: l, y :: m => match f x y with Eq => go l m | c => c end
    end.

#[export] Instance N_ord : Ord N := N.compare.
#[export] Instance list_ord {A} `{Ord A} : Ord (list A) := lex cmp.

Definition cmp_le {A} `{Ord A} (a b : A) : bool := match cmp a b with Gt => false | _ => true end.

(** [sort], and [sort_by_cached_key]: stable. *)
Fixpoint insert_by {A} (le : A -> A -> bool) (x : A) (l : list A) : list A :=
  match l with
  | [] => [x]
  | y :: l' => if le x y then x :: l else y :: insert_by le x l'
  end.
Definition sort_by {A} (le : A -> A -> bool) (l : list A) : list A := foldr (insert_by le) [] l.

(** [dedup]: drops repeats of the element before. *)
Fixpoint dedup {A} `{Ord A} (l : list A) : list A :=
  match l with
  | [] => []
  | x :: l =>
      match dedup l with
      | [] => [x]
      | y :: l' => match cmp x y with Eq => y :: l' | _ => x :: y :: l' end
      end
  end.

(** ** The tree *)

(** [Trigrams], and [RequiredLiterals], whose [Literal] is [Key]. *)
#[warnings="-register-all"]
Inductive tree (K : Type) :=
| All
| None_
| Key (key : K)
| And (parts : list (tree K))
| Or (parts : list (tree K)).
Arguments All {K}.
Arguments None_ {K}.
Arguments Key {K} key.
Arguments And {K} parts.
Arguments Or {K} parts.

Abbreviation trigram := (N * N * N)%type.
Abbreviation Trigrams := (tree trigram).
Abbreviation RequiredLiterals := (tree (list N)).

#[export] Instance trigram_ord : Ord trigram :=
  fun '(a, b, c) '(x, y, z) => lex N.compare [a; b; c] [x; y; z].

Section tree.
  Context {K : Type} `{Ord K}.

Definition rank (t : tree K) : N :=
  match t with All => 0 | None_ => 1 | Key _ => 2 | And _ => 3 | Or _ => 4 end.

Fixpoint tree_cmp (a b : tree K) : comparison :=
  match a, b with
  | Key x, Key y => cmp x y
  | And l, And m | Or l, Or m => lex tree_cmp l m
  | _, _ => N.compare (rank a) (rank b)
  end.
#[export] Instance tree_ord : Ord (tree K) := tree_cmp.

(** [Trigrams::collect]. *)
Definition collect (flat : list (tree K)) (identity : tree K) (node : list (tree K) -> tree K) : tree K :=
  match dedup (sort_by cmp_le flat) with
  | [] => identity
  | [t] => t
  | flat => node flat
  end.

(** [Trigrams::and] and [or]: the loops that flatten, [None] for their early
    return. *)
Fixpoint flatten_and (parts : list (tree K)) : option (list (tree K)) :=
  match parts with
  | [] => Some []
  | All :: parts => flatten_and parts
  | None_ :: _ => None
  | And inner :: parts => app inner <$> flatten_and parts
  | other :: parts => cons other <$> flatten_and parts
  end.
Definition and_ (parts : list (tree K)) : tree K :=
  match flatten_and parts with None => None_ | Some flat => collect flat All And end.

Fixpoint flatten_or (parts : list (tree K)) : option (list (tree K)) :=
  match parts with
  | [] => Some []
  | None_ :: parts => flatten_or parts
  | All :: _ => None
  | Or inner :: parts => app inner <$> flatten_or parts
  | other :: parts => cons other <$> flatten_or parts
  end.
Definition or_ (parts : list (tree K)) : tree K :=
  match flatten_or parts with None => All | Some flat => collect flat None_ Or end.

(** [Trigrams::collect_keys] and [keys], a [BTreeSet] as its sorted list. *)
Fixpoint collect_keys (t : tree K) : list K :=
  match t with
  | All | None_ => []
  | Key k => [k]
  | And parts | Or parts => concat (map collect_keys parts)
  end.
Definition keys (t : tree K) : list K := dedup (sort_by cmp_le (collect_keys t)).

(** [Trigrams::weight]. *)
Fixpoint weight (t : tree K) : nat :=
  match t with
  | All | None_ => 0
  | Key _ => 1
  | And parts | Or parts => list_sum (map weight parts)
  end.

(** The order of [fit_by]'s [sort_by_cached_key]: bare keys first, by
    frequency, the largest first among equals; then the rest, lightest
    first. *)
Definition part_le (frequency : K -> u64) (p q : tree K) : bool :=
  match p, q with
  | Key a, Key b =>
      match N.compare (frequency a) (frequency b) with
      | Lt => true
      | Gt => false
      | Eq => cmp_le b a
      end
  | Key _, _ => true
  | _, Key _ => false
  | _, _ => weight p <=? weight q
  end.

(** [left -= n] and [n / d]. *)
Definition checked_sub (n d : nat) : option nat := if d <=? n then Some (n - d) else None.
Definition checked_div (n d : nat) : option nat := if d =? 0 then None else Some (n / d).

(** [fit_by]'s loop over an [And]'s parts, each with its own [fit_by]. *)
Fixpoint keep (parts : list (tree K * (nat -> option (tree K)))) (left : nat) : option (list (tree K)) :=
  match parts with
  | [] => Some []
  | (_, fit) :: parts =>
      part ← fit left;
      left ← checked_sub left (weight part);
      kept ← keep parts left;
      Some (part :: kept)
  end.

(** [Iterator::map] of a step that may panic. *)
Definition try_map {A B} (f : A -> option B) : list A -> option (list B) :=
  fix go l := match l with [] => Some [] | x :: l => y ← f x; ys ← go l; Some (y :: ys) end.

(** [Trigrams::fit_by] and [fit]. *)
Fixpoint fit_by (frequency : K -> u64) (t : tree K) (budget : nat) : option (tree K) :=
  match t with
  | And parts =>
      kept ← keep (sort_by (fun p q => part_le frequency p.1 q.1) (map (fun p => (p, fit_by frequency p)) parts)) budget;
      Some (and_ kept)
  | Or parts =>
      share ← checked_div budget (length parts);
      parts ← try_map (fun p => fit_by frequency p share) parts;
      Some (or_ parts)
  | Key _ => if budget =? 0 then Some All else if weight t <=? budget then Some t else Some All
  | All | None_ => if weight t <=? budget then Some t else Some All
  end.
Definition fit (t : tree K) (budget : nat) : option (tree K) := fit_by (fun _ => 0%N) t budget.

(** What a tree says of a text, from the keys the text has. *)
Fixpoint holds (has : K -> bool) (t : tree K) : bool :=
  match t with
  | All => true
  | None_ => false
  | Key k => has k
  | And parts => forallb (holds has) parts
  | Or parts => existsb (holds has) parts
  end.
End tree.

(** [LIMITS.keys]. *)
Definition KEYS : nat := 64.

(** [Trigrams::fit_by_frequency]; the frequencies are a [BTreeMap]. *)
Definition fit_by_frequency (frequencies : gmap trigram u64) (t : Trigrams) : option Trigrams :=
  if length (keys t) <=? KEYS then Some t
  else fit_by (fun key => default 18446744073709551615%N (frequencies !! key)) t KEYS.

(** ** Keys and strings *)

(** [trigram_key]. *)
Definition trigram_key (k : trigram) : trigram :=
  let '(a, b, c) := k in (to_ascii_lowercase a, to_ascii_lowercase b, to_ascii_lowercase c).

(** [s.windows(3)]. *)
Fixpoint windows3 (s : bytes) : list trigram :=
  match s with
  | a :: ((b :: c :: _) as rest) => (a, b, c) :: windows3 rest
  | _ => []
  end.

(** [string_trigrams]. *)
Definition string_trigrams (s : bytes) : Trigrams := and_ ((fun w => Key (trigram_key w)) <$> windows3 s).

(** ** [Facts] *)

(** [infix s text]: [s] occurs in [text]. *)
Definition infix (s text : bytes) : Prop := exists a b, text = a ++ s ++ b.

(** The trait, and its laws: [holding text q] says a folded text satisfies
    [q]. *)
Class Facts (Q : Type) := {
  all : Q;
  fand : list Q -> Q;
  for_ : list Q -> Q;
  string_fact : bytes -> Q
}.

Class FactsLaws (Q : Type) `{Facts Q} := {
  holding : bytes -> Q -> Prop;
  holding_all text : holding text all;
  holding_and text qs : holding text (fand qs) <-> Forall (holding text) qs;
  holding_or text qs : holding text (for_ qs) <-> Exists (holding text) qs;
  holding_string text s : infix s text -> holding text (string_fact s);
  holding_infix text text' q : infix text text' -> holding text q -> holding text' q
}.

(** ** The orders are orders *)

Section lex.
  Context {A : Type} (f : A -> A -> comparison).

Lemma lex_eq l : Forall (fun x => forall y, f x y = Eq <-> x = y) l -> forall m, lex f l m = Eq <-> l = m.
Proof.
  induction 1 as [|x l Hx _ IH]; intros [|y m]; cbn; try done. destruct (f x y) eqn:E.
  - apply Hx in E as ->. rewrite IH. split; [by intros ->|by intros [=]].
  - split; [done|]. intros [= <- _]. by rewrite (proj2 (Hx x) eq_refl) in E.
  - split; [done|]. intros [= <- _]. by rewrite (proj2 (Hx x) eq_refl) in E.
Qed.

Lemma lex_antisym l : Forall (fun x => forall y, f y x = CompOpp (f x y)) l -> forall m, lex f m l = CompOpp (lex f l m).
Proof. induction 1 as [|x l Hx _ IH]; intros [|y m]; cbn; try done. rewrite Hx. by destruct (f x y); cbn. Qed.

Lemma lex_trans l :
  (forall x y, f x y = Eq <-> x = y) ->
  Forall (fun x => forall y z, f x y = Lt -> f y z = Lt -> f x z = Lt) l ->
  forall m n, lex f l m = Lt -> lex f m n = Lt -> lex f l n = Lt.
Proof.
  intros Heq. induction 1 as [|x l Hx _ IH]; intros [|y m] [|z n]; cbn; try done.
  destruct (f x y) eqn:Exy, (f y z) eqn:Eyz; try done.
  - apply Heq in Exy as ->. rewrite Eyz. apply IH.
  - apply Heq in Exy as ->. by rewrite Eyz.
  - apply Heq in Eyz as ->. by rewrite Exy.
  - by rewrite (Hx y z).
Qed.
End lex.

#[export] Instance N_ord_laws : OrdLaws N.
Proof.
  split; unfold cmp, N_ord.
  - intros a b. apply N.compare_eq_iff.
  - intros a b. apply N.compare_antisym.
  - intros a b c H1%N.compare_lt_iff H2%N.compare_lt_iff. apply N.compare_lt_iff. by transitivity b.
Qed.

#[export] Instance list_ord_laws {A} `{OrdLaws A} : OrdLaws (list A).
Proof.
  split; unfold cmp, list_ord.
  - intros a b. apply lex_eq, Forall_forall. intros x _ y. apply cmp_eq.
  - intros a b. apply lex_antisym, Forall_forall. intros x _ y. apply cmp_antisym.
  - intros a b c. apply lex_trans; [apply cmp_eq|]. apply Forall_forall. intros x _ y z. apply cmp_trans.
Qed.

#[export] Instance trigram_ord_laws : OrdLaws trigram.
Proof.
  split; unfold cmp, trigram_ord.
  - intros [[a b] c] [[x y] z]. change (lex N.compare [a; b; c] [x; y; z]) with (cmp [a; b; c] [x; y; z]).
    rewrite cmp_eq. split; [by intros [= -> -> ->]|by intros [= -> -> ->]].
  - intros [[a b] c] [[x y] z]. pose proof (cmp_antisym (A := list N) [a; b; c] [x; y; z]) as E. exact E.
  - intros [[a b] c] [[x y] z] [[u v] w]. pose proof (cmp_trans (A := list N) [a; b; c] [x; y; z] [u; v; w]) as E. exact E.
Qed.

Section order.
  Context {K : Type} `{OrdLaws K}.

Lemma tree_ind' (P : tree K -> Prop) :
  P All -> P None_ -> (forall k, P (Key k)) ->
  (forall l, Forall P l -> P (And l)) -> (forall l, Forall P l -> P (Or l)) -> forall t, P t.
Proof.
  intros HA HN HK Hand Hor. fix rec 1. intros [| |k|l|l]; [done|done|apply HK|apply Hand|apply Hor];
    (induction l as [|t l IHl]; constructor; [apply rec|exact IHl]).
Qed.

#[export] Instance tree_ord_laws : OrdLaws (tree K).
Proof.
  unfold cmp, tree_ord.
  assert (Heq : forall a b : tree K, tree_cmp a b = Eq <-> a = b).
  { intros a. induction a as [| |k|l IH|l IH] using tree_ind'; intros [| |k'|m|m]; cbn [tree_cmp rank]; try done.
    - rewrite cmp_eq. split; [by intros ->|by intros [=]].
    - rewrite lex_eq by done. split; [by intros ->|by intros [=]].
    - rewrite lex_eq by done. split; [by intros ->|by intros [=]]. }
  split; unfold cmp, tree_ord; [exact Heq| |].
  - intros a. induction a as [| |k|l IH|l IH] using tree_ind'; intros [| |k'|m|m]; cbn [tree_cmp rank]; try done.
    + apply cmp_antisym.
    + by apply lex_antisym.
    + by apply lex_antisym.
  - intros a. induction a as [| |k|l IH|l IH] using tree_ind'; intros [| |k'|m|m] [| |k''|n|n]; cbn [tree_cmp rank]; try done.
    + apply cmp_trans.
    + by apply lex_trans.
    + by apply lex_trans.
Qed.
End order.

(** ** Sorting and deduplication *)

Lemma insert_by_perm {A} (le : A -> A -> bool) x l : insert_by le x l ≡ₚ x :: l.
Proof.
  induction l as [|y l IH]; [done|]. cbn. destruct (le x y); [done|]. rewrite IH. apply Permutation_swap.
Qed.
Lemma sort_by_perm {A} (le : A -> A -> bool) l : sort_by le l ≡ₚ l.
Proof. induction l as [|x l IH]; [done|]. cbn. by rewrite insert_by_perm, IH. Qed.

Section sorted.
  Context {A : Type} `{OrdLaws A}.

Lemma elem_of_dedup x (l : list A) : x ∈ dedup l <-> x ∈ l.
Proof.
  induction l as [|y l IH]; [done|]. cbn [dedup]. destruct (dedup l) as [|z l'] eqn:E.
  - rewrite !elem_of_cons, <- IH. tauto.
  - destruct (cmp y z) eqn:Eyz; [apply cmp_eq in Eyz as <-|..]; rewrite !elem_of_cons, <- IH, !elem_of_cons; tauto.
Qed.

Lemma length_dedup (l : list A) : length (dedup l) <= length l.
Proof.
  induction l as [|y l IH]; [done|]. cbn [dedup]. destruct (dedup l) as [|z l'] eqn:E; [simpl; lia|].
  destruct (cmp y z); simpl in *; lia.
Qed.

(** Ascending, and strictly. *)
Lemma cmp_le_total (a b : A) : cmp_le a b = false -> cmp b a = Lt.
Proof. unfold cmp_le. rewrite (cmp_antisym a b). by destruct (cmp a b). Qed.
Lemma cmp_le_trans (a b c : A) : cmp_le a b = true -> cmp_le b c = true -> cmp_le a c = true.
Proof.
  unfold cmp_le. destruct (cmp a b) eqn:E1; [apply cmp_eq in E1 as ->; done| |done].
  destruct (cmp b c) eqn:E2; [apply cmp_eq in E2 as ->; by rewrite E1| |done]. by rewrite (cmp_trans a b c).
Qed.

Lemma insert_by_sorted x (l : list A) :
  StronglySorted (fun a b => cmp_le a b = true) l -> StronglySorted (fun a b => cmp_le a b = true) (insert_by cmp_le x l).
Proof.
  induction 1 as [|y l Hl IH Hy]; cbn; [by repeat constructor|]. destruct (cmp_le x y) eqn:E.
  - constructor; [by constructor|]. constructor; [done|]. eapply Forall_impl; [exact Hy|]. intros z. by apply cmp_le_trans.
  - constructor; [done|]. rewrite insert_by_perm. constructor; [|done]. apply cmp_le_total in E. unfold cmp_le. by rewrite E.
Qed.
Lemma sort_by_sorted (l : list A) : StronglySorted (fun a b => cmp_le a b = true) (sort_by cmp_le l).
Proof. induction l as [|x l IH]; cbn; [constructor|]. by apply insert_by_sorted. Qed.

Lemma dedup_sorted (l : list A) :
  StronglySorted (fun a b => cmp_le a b = true) l -> StronglySorted (fun a b => cmp a b = Lt) (dedup l).
Proof.
  induction 1 as [|x l Hl IH Hx]; cbn [dedup]; [constructor|].
  assert (Hd : Forall (fun b => cmp_le x b = true) (dedup l)).
  { rewrite Forall_forall in Hx |- *. intros y Hy. rewrite elem_of_dedup in Hy. by apply Hx. }
  destruct (dedup l) as [|y l']; [constructor; constructor|].
  apply Forall_cons in Hd as [Hxy Hd]. apply StronglySorted_inv in IH as [IH1 IH2]. unfold cmp_le in Hxy.
  destruct (cmp x y) eqn:E; [by constructor| |done]. constructor; [by constructor|].
  constructor; [done|]. eapply Forall_impl; [exact IH2|]. intros z. by apply cmp_trans.
Qed.

Lemma dedup_nodup (l : list A) : StronglySorted (fun a b => cmp_le a b = true) l -> NoDup (dedup l).
Proof.
  intros Hl%dedup_sorted. induction Hl as [|x l' _ IH Hx]; constructor; [|done]. intros Hin.
  rewrite Forall_forall in Hx. specialize (Hx x Hin). by rewrite (proj2 (cmp_eq x x) eq_refl) in Hx.
Qed.
End sorted.

(** ** What the constructors mean *)

Section meaning.
  Context {K : Type} `{OrdLaws K} (has : K -> bool).

Lemma forallb_elem {A} (f : A -> bool) l : forallb f l = true <-> forall x, x ∈ l -> f x = true.
Proof. rewrite forallb_forall. by setoid_rewrite list_elem_of_In. Qed.
Lemma existsb_elem {A} (f : A -> bool) l : existsb f l = true <-> exists x, x ∈ l /\ f x = true.
Proof. rewrite existsb_exists. by setoid_rewrite list_elem_of_In. Qed.

Lemma elem_of_collected (x : tree K) l : x ∈ dedup (sort_by cmp_le l) <-> x ∈ l.
Proof. by rewrite elem_of_dedup, sort_by_perm. Qed.

Lemma flatten_and_holds parts :
  forallb (holds has) parts = match flatten_and parts with None => false | Some flat => forallb (holds has) flat end.
Proof.
  induction parts as [|[| |k|l|l] parts IH]; cbn [forallb flatten_and holds]; try done;
    rewrite IH; destruct (flatten_and parts) as [flat|]; cbn [fmap option_fmap option_map]; rewrite ?andb_false_r; try done.
  by rewrite forallb_app.
Qed.

Lemma flatten_or_holds parts :
  existsb (holds has) parts = match flatten_or parts with None => true | Some flat => existsb (holds has) flat end.
Proof.
  induction parts as [|[| |k|l|l] parts IH]; cbn [existsb flatten_or holds]; try done;
    rewrite IH; destruct (flatten_or parts) as [flat|]; cbn [fmap option_fmap option_map]; rewrite ?orb_true_r; try done.
  by rewrite existsb_app.
Qed.

(** [and] holds where all its parts do, [or] where one does. *)
Lemma holds_and parts : holds has (and_ parts) = forallb (holds has) parts.
Proof.
  rewrite flatten_and_holds. unfold and_. destruct (flatten_and parts) as [flat|]; [|done].
  assert (E : forallb (holds has) (dedup (sort_by cmp_le flat)) = forallb (holds has) flat).
  { apply eq_true_iff_eq. rewrite !forallb_elem. by setoid_rewrite elem_of_collected. }
  rewrite <- E. unfold collect. destruct (dedup _) as [|t [|t' l]]; cbn [holds forallb]; [done|by rewrite andb_true_r|done].
Qed.

Lemma holds_or parts : holds has (or_ parts) = existsb (holds has) parts.
Proof.
  rewrite flatten_or_holds. unfold or_. destruct (flatten_or parts) as [flat|]; [|done].
  assert (E : existsb (holds has) (dedup (sort_by cmp_le flat)) = existsb (holds has) flat).
  { apply eq_true_iff_eq. rewrite !existsb_elem. by setoid_rewrite elem_of_collected. }
  rewrite <- E. unfold collect. destruct (dedup _) as [|t [|t' l]]; cbn [holds existsb]; [done|by rewrite orb_false_r|done].
Qed.
End meaning.

(** ** The trait's implementations *)

Lemma infix_refl s : infix s s.
Proof. exists [], []. by rewrite app_nil_r. Qed.
Lemma infix_trans s t u : infix s t -> infix t u -> infix s u.
Proof. intros (a & b & ->) (c & d & ->). exists (c ++ a), (b ++ d). by rewrite !app_assoc. Qed.

(** Whether a byte string occurs. *)
Fixpoint starts_with (p s : bytes) : bool :=
  match p, s with
  | [], _ => true
  | x :: p, y :: s => (x =? y)%N && starts_with p s
  | _ :: _, [] => false
  end.
Fixpoint occurs (s text : bytes) : bool :=
  starts_with s text || match text with [] => false | _ :: text => occurs s text end.

Lemma starts_with_prefix p s : starts_with p s = true <-> exists rest, s = p ++ rest.
Proof.
  revert s. induction p as [|x p IH]; intros s; cbn; [split; [by exists s|done]|].
  destruct s as [|y s]; [split; [done|by intros [? ?]]|]. rewrite andb_true_iff, N.eqb_eq, IH.
  split; [intros [-> [rest ->]]; by exists rest|intros [rest [= -> ->]]; split; [done|by exists rest]].
Qed.

Lemma occurs_spec s text : occurs s text = true <-> infix s text.
Proof.
  revert s. induction text as [|y text IH]; intros s; cbn [occurs]; rewrite orb_true_iff, starts_with_prefix.
  - split; [intros [[b E]|]; [|done]|intros (a & b & E)]; [by exists [], b|].
    left. exists []. destruct a; [|done]. destruct s; [done|done].
  - rewrite IH. split.
    + intros [[b ->]|(a & b & ->)]; [by exists [], b|by exists (y :: a), b].
    + intros ([|z a] & b & E); [left; by exists b|right]. injection E as -> ->. by exists a, b.
Qed.

(** A text's trigrams. *)
Definition has_trigram (text : bytes) (k : trigram) : bool := let '(a, b, c) := k in occurs [a; b; c] text.

Lemma windows3_infix s k : k ∈ windows3 s -> let '(a, b, c) := k in infix [a; b; c] s.
Proof.
  induction s as [|x s IH]; [by rewrite elem_of_nil|]. destruct s as [|y [|z s]]; [by rewrite elem_of_nil..|].
  change (windows3 (x :: y :: z :: s)) with ((x, y, z) :: windows3 (y :: z :: s)).
  rewrite elem_of_cons. intros [->|Hk]; [by exists [], s|]. specialize (IH Hk). destruct k as [[a b] c].
  destruct IH as (u & v & E). exists (x :: u), v. by rewrite E.
Qed.

(** [fold] of [trigram/fold.rs]: a text folded byte by byte. *)
Definition fold_bytes (s : bytes) : bytes := to_ascii_lowercase <$> s.

Lemma fold_idem s : fold_bytes (fold_bytes s) = fold_bytes s.
Proof. unfold fold_bytes. rewrite <- list_fmap_compose. apply list_fmap_ext. intros i b _. apply to_ascii_lowercase_idem. Qed.

Lemma fold_app s t : fold_bytes (s ++ t) = fold_bytes s ++ fold_bytes t.
Proof. apply fmap_app. Qed.

Lemma fold_infix s t : infix s t -> infix (fold_bytes s) (fold_bytes t).
Proof. intros (a & b & ->). exists (fold_bytes a), (fold_bytes b). by rewrite !fold_app. Qed.

Lemma holds_mono {K} `{OrdLaws K} (has has' : K -> bool) (t : tree K) :
  (forall k, has k = true -> has' k = true) -> holds has t = true -> holds has' t = true.
Proof.
  intros Hh. induction t as [| |k|l IH|l IH] using tree_ind'; cbn [holds]; try done; [apply Hh| |].
  - rewrite !forallb_elem. rewrite Forall_forall in IH. auto.
  - rewrite !existsb_elem. rewrite Forall_forall in IH. intros (x & Hx & Ht). eauto.
Qed.

(** The trigrams of a text are those of the index: folded by [trigram_key]. *)
Definition text_trigram (text : bytes) (k : trigram) : bool := has_trigram (fold_bytes text) k.

#[export] Instance trigrams_facts : Facts Trigrams := {
  all := All; fand := and_; for_ := or_; string_fact := string_trigrams
}.

Lemma string_trigrams_hold text s : infix s text -> holds (text_trigram text) (string_trigrams s) = true.
Proof.
  intros Hs. unfold string_trigrams. rewrite holds_and. apply forallb_elem. intros t Ht.
  apply list_elem_of_fmap in Ht as ([[a b] c] & -> & Hk). cbn [holds trigram_key text_trigram has_trigram].
  apply occurs_spec. apply windows3_infix in Hk. eapply infix_trans; [|by apply fold_infix].
  apply (fold_infix [a; b; c]). exact Hk.
Qed.

#[export] Program Instance trigrams_laws : FactsLaws Trigrams := {
  holding text q := holds (text_trigram text) q = true
}.
Next Obligation. done. Qed.
Next Obligation. intros. cbn [fand trigrams_facts]. rewrite holds_and, forallb_elem, Forall_forall. done. Qed.
Next Obligation. intros. cbn [for_ trigrams_facts]. rewrite holds_or, existsb_elem, Exists_exists. done. Qed.
Next Obligation. intros. by apply string_trigrams_hold. Qed.
Next Obligation.
  intros text text' q Hi. apply holds_mono. intros [[a b] c]. unfold text_trigram, has_trigram. rewrite !occurs_spec.
  intros Hk. eapply infix_trans; [exact Hk|]. by apply fold_infix.
Qed.

#[export] Instance literals_facts : Facts RequiredLiterals := {
  all := All; fand := and_; for_ := or_;
  string_fact s := if length s <? 3 then All else Key s
}.

#[export] Program Instance literals_laws : FactsLaws RequiredLiterals := {
  holding text q := holds (fun s => occurs s text) q = true
}.
Next Obligation. done. Qed.
Next Obligation. intros. cbn [fand literals_facts]. rewrite holds_and, forallb_elem, Forall_forall. done. Qed.
Next Obligation. intros. cbn [for_ literals_facts]. rewrite holds_or, existsb_elem, Exists_exists. done. Qed.
Next Obligation. intros text s Hs. cbn [string_fact literals_facts]. destruct (length s <? 3); [done|]. cbn [holds]. by apply occurs_spec. Qed.
Next Obligation.
  intros text text' q Hi. apply holds_mono. intros s. rewrite !occurs_spec. intros Hk. by eapply infix_trans.
Qed.

(** ** Canonical trees

    What the constructors guarantee: a conjunction or disjunction has at
    least two parts, strictly ascending, none of them a constant or a node of
    its own kind. *)
Section canonical.
  Context {K : Type} `{OrdLaws K}.

Definition constant (t : tree K) : bool := match t with All | None_ => true | _ => false end.
Definition is_and (t : tree K) : bool := match t with And _ => true | _ => false end.
Definition is_or (t : tree K) : bool := match t with Or _ => true | _ => false end.

Fixpoint ascending (l : list (tree K)) : bool :=
  match l with
  | a :: ((b :: _) as rest) => match cmp a b with Lt => ascending rest | _ => false end
  | _ => true
  end.

Fixpoint canonical (t : tree K) : bool :=
  match t with
  | All | None_ | Key _ => true
  | And l => (2 <=? length l) && ascending l && forallb (fun p => negb (constant p) && negb (is_and p) && canonical p) l
  | Or l => (2 <=? length l) && ascending l && forallb (fun p => negb (constant p) && negb (is_or p) && canonical p) l
  end.

Lemma sorted_ascending l : StronglySorted (fun a b : tree K => cmp a b = Lt) l -> ascending l = true.
Proof.
  induction 1 as [|x l Hl IH Hx]; [done|]. cbn [ascending]. destruct l as [|y l]; [done|].
  apply Forall_cons in Hx as [Hxy _]. by rewrite Hxy.
Qed.

(** A node collected from parts that may be its parts. *)
Lemma collect_canonical flat identity node (ok : tree K -> bool) :
  canonical identity = true ->
  (forall l, canonical (node l) = (2 <=? length l) && ascending l && forallb (fun p => ok p && canonical p) l) ->
  Forall (fun p => ok p = true /\ canonical p = true) flat -> canonical (collect flat identity node) = true.
Proof.
  intros Hi Hn Hf. unfold collect. pose proof (sort_by_sorted flat) as Hs. apply dedup_sorted, sorted_ascending in Hs.
  assert (Hp : Forall (fun p => ok p = true /\ canonical p = true) (dedup (sort_by cmp_le flat))).
  { rewrite Forall_forall in Hf |- *. intros p Hp. apply Hf. by apply elem_of_collected. }
  destruct (dedup _) as [|t [|t' l]]; [done|by apply Forall_cons in Hp as [[_ ?] _]|].
  rewrite Hn, Hs. cbn [length]. rewrite andb_true_r, andb_true_l. apply forallb_elem. rewrite Forall_forall in Hp.
  intros p Hin. destruct (Hp p Hin) as [-> ->]. done.
Qed.

Lemma flatten_and_parts parts flat :
  flatten_and parts = Some flat -> Forall (fun p => canonical p = true) parts ->
  Forall (fun p => negb (constant p) && negb (is_and p) = true /\ canonical p = true) flat.
Proof.
  revert flat. induction parts as [|p parts IH]; intros flat; [by intros [= <-] _; constructor|].
  intros Hf [Hp Hps]%Forall_cons. destruct p as [| |k|l|l]; cbn [flatten_and] in Hf; [by apply IH|done|..];
    destruct (flatten_and parts) as [rest|]; try done; injection Hf as <-; specialize (IH _ eq_refl Hps);
    [by constructor| |by constructor].
  apply Forall_app. split; [|done]. cbn in Hp. apply andb_true_iff in Hp as [_ Hp]. rewrite forallb_elem in Hp.
  apply Forall_forall. intros q Hq. specialize (Hp q Hq). by apply andb_true_iff in Hp.
Qed.

Lemma flatten_or_parts parts flat :
  flatten_or parts = Some flat -> Forall (fun p => canonical p = true) parts ->
  Forall (fun p => negb (constant p) && negb (is_or p) = true /\ canonical p = true) flat.
Proof.
  revert flat. induction parts as [|p parts IH]; intros flat; [by intros [= <-] _; constructor|].
  intros Hf [Hp Hps]%Forall_cons. destruct p as [| |k|l|l]; cbn [flatten_or] in Hf; [done|by apply IH|..];
    destruct (flatten_or parts) as [rest|]; try done; injection Hf as <-; specialize (IH _ eq_refl Hps);
    [by constructor|by constructor|].
  apply Forall_app. split; [|done]. cbn in Hp. apply andb_true_iff in Hp as [_ Hp]. rewrite forallb_elem in Hp.
  apply Forall_forall. intros q Hq. specialize (Hp q Hq). by apply andb_true_iff in Hp.
Qed.

Lemma and_canonical parts : Forall (fun p => canonical p = true) parts -> canonical (and_ parts) = true.
Proof.
  intros Hp. unfold and_. destruct (flatten_and parts) as [flat|] eqn:E; [|done].
  apply (collect_canonical _ _ _ (fun p => negb (constant p) && negb (is_and p))); [done|done|]. by apply (flatten_and_parts parts).
Qed.
Lemma or_canonical parts : Forall (fun p => canonical p = true) parts -> canonical (or_ parts) = true.
Proof.
  intros Hp. unfold or_. destruct (flatten_or parts) as [flat|] eqn:E; [|done].
  apply (collect_canonical _ _ _ (fun p => negb (constant p) && negb (is_or p))); [done|done|]. by apply (flatten_or_parts parts).
Qed.

(** ** Weights and keys *)

Definition total_weight (l : list (tree K)) : nat := list_sum (map weight l).

Lemma total_weight_cons x l : total_weight (x :: l) = weight x + total_weight l.
Proof. done. Qed.
Lemma weight_and_node l : weight (And l) = total_weight l.
Proof. done. Qed.
Lemma weight_or_node l : weight (Or l) = total_weight l.
Proof. done. Qed.

Lemma total_weight_perm l m : l ≡ₚ m -> total_weight l = total_weight m.
Proof. induction 1; rewrite ?total_weight_cons; lia. Qed.
Lemma total_weight_app l m : total_weight (l ++ m) = total_weight l + total_weight m.
Proof. induction l as [|x l IH]; [done|]. cbn [app]. rewrite !total_weight_cons. lia. Qed.

End canonical.

(** Weights of lists, for [lia]. *)
Ltac weigh :=
  rewrite ?total_weight_cons, ?total_weight_app, ?weight_and_node, ?weight_or_node in *; cbn [weight] in *; lia.

Section weights.
  Context {K : Type} `{OrdLaws K}.

Lemma total_weight_dedup (l : list (tree K)) : total_weight (dedup l) <= total_weight l.
Proof.
  induction l as [|x l IH]; [done|]. cbn [dedup]. destruct (dedup l) as [|y l'] eqn:E; [weigh|].
  destruct (cmp x y); weigh.
Qed.

Lemma weight_collect (flat : list (tree K)) identity node :
  weight identity = 0 -> (forall l, weight (node l) = total_weight l) -> weight (collect flat identity node) <= total_weight flat.
Proof.
  intros Hi Hn. rewrite <- (total_weight_perm (sort_by cmp_le flat) flat) by apply sort_by_perm.
  etransitivity; [|apply total_weight_dedup]. unfold collect. destruct (dedup _) as [|t [|t' l]]; [lia| |by rewrite Hn].
  weigh.
Qed.

Lemma flatten_and_weight (parts flat : list (tree K)) : flatten_and parts = Some flat -> total_weight flat <= total_weight parts.
Proof.
  revert flat. induction parts as [|p parts IH]; intros flat Hf; [by injection Hf as <-|].
  destruct p as [| |k|l|l]; cbn [flatten_and] in Hf; [by apply IH|done|..];
    destruct (flatten_and parts) as [rest|]; try done; injection Hf as <-; specialize (IH _ eq_refl); weigh.
Qed.
Lemma flatten_or_weight (parts flat : list (tree K)) : flatten_or parts = Some flat -> total_weight flat <= total_weight parts.
Proof.
  revert flat. induction parts as [|p parts IH]; intros flat Hf; [by injection Hf as <-|].
  destruct p as [| |k|l|l]; cbn [flatten_or] in Hf; [done|by apply IH|..];
    destruct (flatten_or parts) as [rest|]; try done; injection Hf as <-; specialize (IH _ eq_refl); weigh.
Qed.

Lemma weight_and (parts : list (tree K)) : weight (and_ parts) <= total_weight parts.
Proof.
  unfold and_. destruct (flatten_and parts) as [flat|] eqn:E; [|cbn; lia].
  etransitivity; [by apply weight_collect|]. by apply flatten_and_weight.
Qed.
Lemma weight_or (parts : list (tree K)) : weight (or_ parts) <= total_weight parts.
Proof.
  unfold or_. destruct (flatten_or parts) as [flat|] eqn:E; [|cbn; lia].
  etransitivity; [by apply weight_collect|]. by apply flatten_or_weight.
Qed.

Lemma length_collect_keys (t : tree K) : length (collect_keys t) = weight t.
Proof.
  induction t as [| |k|l IH|l IH] using tree_ind'; cbn [collect_keys weight]; try done;
    (change (length (concat (map collect_keys l)) = total_weight l);
     induction IH as [|p l Hp _ IHl]; [done|]; cbn [map concat]; rewrite length_app, total_weight_cons; lia).
Qed.

Lemma length_keys (t : tree K) : length (keys t) <= weight t.
Proof.
  unfold keys. etransitivity; [apply length_dedup|]. rewrite (Permutation_length (sort_by_perm _ _)).
  by rewrite length_collect_keys.
Qed.
End weights.

(** The shape every fact keeps: the constructors' own. *)
Class FactsShape (Q : Type) `{Facts Q} := {
  shaped : Q -> Prop;
  shaped_all : shaped all;
  shaped_and qs : Forall shaped qs -> shaped (fand qs);
  shaped_or qs : Forall shaped qs -> shaped (for_ qs);
  shaped_string s : shaped (string_fact s)
}.

#[export] Program Instance trigrams_shape : FactsShape Trigrams := { shaped q := canonical q = true }.
Next Obligation. done. Qed.
Next Obligation. exact and_canonical. Qed.
Next Obligation. exact or_canonical. Qed.
Next Obligation. intros s. apply and_canonical, Forall_forall. by intros p (w & -> & _)%list_elem_of_fmap. Qed.

#[export] Program Instance literals_shape : FactsShape RequiredLiterals := { shaped q := canonical q = true }.
Next Obligation. done. Qed.
Next Obligation. exact and_canonical. Qed.
Next Obligation. exact or_canonical. Qed.
Next Obligation. intros s. cbn [string_fact literals_facts]. by destruct (length s <? 3). Qed.

(** ** Fitting a budget *)

Section fit.
  Context {K : Type} `{OrdLaws K} (frequency : K -> u64).

(** What a fitted tree is: in the budget, canonical, weaker, and of no other
    keys. *)
Record fitted (t : tree K) (budget : nat) (t' : tree K) : Prop := {
  fitted_weight : weight t' <= budget;
  fitted_canonical : canonical t' = true;
  fitted_weaker has : holds has t = true -> holds has t' = true;
  fitted_keys k : k ∈ collect_keys t' -> k ∈ collect_keys t
}.

Definition fits (t : tree K) (fit : nat -> option (tree K)) : Prop :=
  forall budget, exists t', fit budget = Some t' /\ fitted t budget t'.

Definition all_keys (l : list (tree K)) : list K := concat (map collect_keys l).

Lemma elem_of_all_keys k l : k ∈ all_keys l <-> exists p, p ∈ l /\ k ∈ collect_keys p.
Proof.
  unfold all_keys. rewrite elem_of_concat. setoid_rewrite list_elem_of_In. setoid_rewrite in_map_iff. split.
  - intros (m & (p & <- & Hp) & Hk). eauto.
  - intros (p & Hp & Hk). eauto.
Qed.

Lemma collect_keys_sub flat identity node k :
  collect_keys identity = [] -> (forall l, collect_keys (node l) = all_keys l) ->
  k ∈ collect_keys (collect flat identity node) -> k ∈ all_keys flat.
Proof.
  intros Hi Hn Hk. apply elem_of_all_keys. setoid_rewrite <- elem_of_collected. apply elem_of_all_keys.
  unfold collect in Hk. destruct (dedup _) as [|t [|t' l]]; [by rewrite Hi in Hk| |by rewrite Hn in Hk].
  unfold all_keys. cbn. by rewrite app_nil_r.
Qed.

Lemma flatten_and_keys parts flat k : flatten_and parts = Some flat -> k ∈ all_keys flat -> k ∈ all_keys parts.
Proof.
  revert flat. induction parts as [|p parts IH]; intros flat Hf; [by injection Hf as <-|]. unfold all_keys in *.
  destruct p as [| |q|l|l]; cbn [flatten_and] in Hf; [by apply IH|done|..];
    destruct (flatten_and parts) as [rest|]; try done; injection Hf as <-; specialize (IH _ eq_refl);
    cbn [map concat app]; rewrite ?map_app, ?concat_app; cbn [collect_keys]; rewrite !elem_of_app; tauto.
Qed.
Lemma flatten_or_keys parts flat k : flatten_or parts = Some flat -> k ∈ all_keys flat -> k ∈ all_keys parts.
Proof.
  revert flat. induction parts as [|p parts IH]; intros flat Hf; [by injection Hf as <-|]. unfold all_keys in *.
  destruct p as [| |q|l|l]; cbn [flatten_or] in Hf; [done|by apply IH|..];
    destruct (flatten_or parts) as [rest|]; try done; injection Hf as <-; specialize (IH _ eq_refl);
    cbn [map concat app]; rewrite ?map_app, ?concat_app; cbn [collect_keys]; rewrite !elem_of_app; tauto.
Qed.

Lemma keys_and parts k : k ∈ collect_keys (and_ parts) -> k ∈ all_keys parts.
Proof.
  unfold and_. destruct (flatten_and parts) as [flat|] eqn:E; [|by rewrite elem_of_nil].
  intros Hk%collect_keys_sub; [|done|done]. by eapply flatten_and_keys.
Qed.
Lemma keys_or parts k : k ∈ collect_keys (or_ parts) -> k ∈ all_keys parts.
Proof.
  unfold or_. destruct (flatten_or parts) as [flat|] eqn:E; [|by rewrite elem_of_nil].
  intros Hk%collect_keys_sub; [|done|done]. by eapply flatten_or_keys.
Qed.

Lemma keep_fitted parts left :
  Forall (fun p => fits p.1 p.2) parts ->
  exists kept, keep parts left = Some kept /\ total_weight kept <= left /\
    Forall (fun p => canonical p = true) kept /\
    (forall has, Forall (fun p => holds has p.1 = true) parts -> Forall (fun p => holds has p = true) kept) /\
    (forall k, k ∈ all_keys kept -> k ∈ all_keys (parts.*1)).
Proof.
  intros Hp. revert left. induction Hp as [|[p fit] parts Hfit _ IH]; intros left; cbn [keep fst snd] in *.
  { exists []. split_and!; [done|unfold total_weight; cbn; lia|constructor|by constructor|done]. }
  destruct (Hfit left) as (p' & -> & [Hw Hc Hh Hk]). cbn [mbind option_bind]. unfold checked_sub.
  rewrite (proj2 (Nat.leb_le _ _) Hw). cbn [mbind option_bind].
  destruct (IH (left - weight p')) as (kept & -> & Hw' & Hc' & Hh' & Hk'). cbn [mbind option_bind].
  exists (p' :: kept). split_and!; [done|weigh|by constructor| |].
  - intros has [H1 H2]%Forall_cons. constructor; [by apply Hh|by apply Hh'].
  - intros k. rewrite fmap_cons. unfold all_keys in *. cbn [map concat]. rewrite !elem_of_app. intros [?|?]; auto.
Qed.

Lemma try_map_cons {A B} (f : A -> option B) x l : try_map f (x :: l) = (y ← f x; ys ← try_map f l; Some (y :: ys)).
Proof. done. Qed.

Lemma try_map_fitted parts share :
  Forall (fun p => fits p (fit_by frequency p)) parts ->
  exists kept, try_map (fun p => fit_by frequency p share) parts = Some kept /\ total_weight kept <= length parts * share /\
    Forall (fun p => canonical p = true) kept /\
    (forall has, Exists (fun p => holds has p = true) parts -> Exists (fun p => holds has p = true) kept) /\
    (forall k, k ∈ all_keys kept -> k ∈ all_keys parts).
Proof.
  induction 1 as [|p parts Hfit _ IH]; [|rewrite try_map_cons].
  { exists []. split_and!; [done|unfold total_weight; cbn; lia|constructor|by intros has ?%Exists_nil|done]. }
  destruct (Hfit share) as (p' & -> & [Hw Hc Hh Hk]). cbn [mbind option_bind].
  destruct IH as (kept & -> & Hw' & Hc' & Hh' & Hk'). cbn [mbind option_bind].
  exists (p' :: kept). split_and!; [done|cbn [length]; weigh|by constructor| |].
  - intros has [H1|H2]%Exists_cons; [by left; apply Hh|right; by apply Hh'].
  - intros k. unfold all_keys in *. cbn [map concat]. rewrite !elem_of_app. intros [?|?]; auto.
Qed.

(** Fitting never overflows, and only weakens. *)
Lemma fit_by_fits t : canonical t = true -> fits t (fit_by frequency t).
Proof.
  assert (Hconst : forall (c : tree K) budget, weight c = 0 -> canonical c = true -> fitted c budget c)
    by (intros c budget Hw Hc; split; [lia|done|done|done]).
  assert (Hall : forall (c : tree K) budget, fitted c budget All) by (intros; split; [cbn; lia|done|done|by intros k ?%elem_of_nil]).
  induction t as [| |k|l IH|l IH] using tree_ind'; intros Hc budget; cbn [fit_by].
  - exists All. by split; [|apply Hall].
  - exists None_. split; [done|by apply Hconst].
  - destruct (Nat.eqb_spec budget 0) as [->|]; [exists All; by split; [|apply Hall]|]. cbn [weight].
    destruct (Nat.leb_spec 1 budget); [|lia]. exists (Key k). split; [done|]. by split; [cbn; lia| | |].
  - cbn [canonical] in Hc. apply andb_true_iff in Hc as [_ Hc]. rewrite forallb_elem in Hc.
    set (pairs := map (fun p => (p, fit_by frequency p)) l). set (le := fun p q => part_le frequency p.1 q.1).
    assert (Hpairs : Forall (fun p => fits p.1 p.2) (sort_by le pairs)).
    { rewrite sort_by_perm. apply Forall_forall. intros pr (p & -> & Hp)%list_elem_of_fmap. cbn.
      rewrite Forall_forall in IH. apply IH; [done|]. specialize (Hc p Hp). by apply andb_true_iff in Hc as [_ Hc]. }
    assert (Hfst : (sort_by le pairs).*1 ≡ₚ l).
    { rewrite sort_by_perm. unfold pairs. clear. induction l as [|x l IHl]; [done|]. cbn. by rewrite IHl. }
    destruct (keep_fitted (sort_by le pairs) budget Hpairs) as (kept & -> & Hw & Hcan & Hh & Hk). cbn [mbind option_bind].
    eexists. split; [reflexivity|]. split; [pose proof (weight_and kept); lia|by apply and_canonical| |].
    + intros has. rewrite holds_and. cbn [holds]. rewrite !forallb_elem. intros Hl. specialize (Hh has).
      rewrite !Forall_forall in Hh. apply Hh. intros pr Hpr. apply Hl. rewrite <- Hfst. by apply list_elem_of_fmap_2.
    + intros k Hin%keys_and%Hk. apply elem_of_all_keys in Hin as (p & Hp & Hin). rewrite Hfst in Hp.
      apply (elem_of_all_keys k l). eauto.
  - cbn [canonical] in Hc. apply andb_true_iff in Hc as [[Hlen _]%andb_true_iff Hc]. apply Nat.leb_le in Hlen.
    rewrite forallb_elem in Hc. unfold checked_div. destruct (Nat.eqb_spec (length l) 0); [lia|]. cbn [mbind option_bind].
    destruct (try_map_fitted l (budget / length l)) as (kept & -> & Hw & Hcan & Hh & Hk).
    { rewrite Forall_forall in IH |- *. intros p Hp. apply IH; [done|]. specialize (Hc p Hp). by apply andb_true_iff in Hc as [_ Hc]. }
    cbn [mbind option_bind]. pose proof (Nat.Div0.mul_div_le budget (length l)).
    eexists. split; [reflexivity|]. split; [pose proof (weight_or kept); lia|by apply or_canonical| |].
    + intros has. rewrite holds_or. cbn [holds]. rewrite !existsb_elem. specialize (Hh has). by rewrite !Exists_exists in Hh.
    + intros k Hin%keys_or%Hk. exact Hin.
Qed.

Lemma NoDup_keys (t : tree K) : NoDup (keys t).
Proof. apply dedup_nodup, sort_by_sorted. Qed.
Lemma elem_of_keys k (t : tree K) : k ∈ keys t <-> k ∈ collect_keys t.
Proof. unfold keys. by rewrite elem_of_dedup, sort_by_perm. Qed.

Lemma fitted_fewer t budget t' : fitted t budget t' -> length (keys t') <= budget /\ length (keys t') <= length (keys t).
Proof.
  intros [Hw _ _ Hk]. split; [pose proof (length_keys t'); lia|]. apply submseteq_length, NoDup_submseteq; [apply NoDup_keys|].
  intros k. rewrite !elem_of_keys. apply Hk.
Qed.
End fit.

Lemma fit_by_frequency_spec (frequencies : gmap trigram u64) (t : Trigrams) : canonical t = true ->
  exists t', fit_by_frequency frequencies t = Some t' /\ canonical t' = true /\ length (keys t') <= KEYS /\
    (t' = t \/ weight t' <= KEYS) /\ forall has, holds has t = true -> holds has t' = true.
Proof.
  intros Hc. unfold fit_by_frequency, KEYS. destruct (Nat.leb_spec (length (keys t)) 64); [exists t; by split_and!; [..|left|]|].
  destruct (fit_by_fits (fun key => default 18446744073709551615%N (frequencies !! key)) t Hc 64) as (t' & Ht & Hfit).
  exists t'. destruct (fitted_fewer _ _ _ Hfit). destruct Hfit. split_and!; auto.
Qed.

(** ** Properties *)

(** Fitting a tree to a budget of keys never panics, stays within the
    budget, keeps the tree canonical, adds no key, and only weakens: a text
    that satisfies the tree satisfies the fitted one.  So an alternative is
    never lost, whatever the frequencies that choose what to drop. *)
Theorem fit_weakens {K : Type} `{OrdLaws K} (frequency : K -> u64) (t : tree K) (budget : nat) (Hc : canonical t = true) :
  exists t', fit_by frequency t budget = Some t' /\ canonical t' = true /\
    weight t' <= budget /\ length (keys t') <= length (keys t) /\
    forall has, holds has t = true -> holds has t' = true.
Proof.
  destruct (fit_by_fits frequency t Hc budget) as (t' & Ht & Hf). exists t'. split; [done|].
  destruct (fitted_fewer t budget t' Hf). destruct Hf. done.
Qed.

(** Two bare keys and an alternative, fitted to two keys. *)
Definition sample_tree : Trigrams := and_ [Key (1, 2, 3); Key (4, 5, 6); or_ [Key (7, 8, 9); Key (1, 1, 1)]]%N.

Lemma fit_weakens_witness :
  fit sample_tree 2 = Some (And [Key (1, 2, 3); Key (4, 5, 6)])%N /\
  exists t', fit_by (fun _ => 0%N) sample_tree 3 = Some t' /\ canonical t' = true /\
    weight t' <= 3 /\ length (keys t') <= length (keys sample_tree) /\
    forall has, holds has sample_tree = true -> holds has t' = true.
Proof.
  split; [vm_compute; reflexivity|]. exact (@fit_weakens trigram trigram_ord trigram_ord_laws (fun _ => 0%N) sample_tree 3 ltac:(vm_compute; reflexivity)).
Defined.
