(* ===== verification/Fold.v ===== *)
(** * Fold: from a regex to its trigram query

    Models [crates/ferret-verify/src/trigram/fold.rs] and the derivation of
    [GrepFlags::compile] ([trigram.rs]): Cox's five facts over folded byte
    strings, derived node by node from a regex and simplified under limits.

    The regex is the [regex-syntax] crate's [Hir], an interface here: the
    class [Hir] is its [kind], and [HirLaws] what that crate documents of the
    byte strings a node matches.  [Strings] is a [BTreeSet], whose order the
    fold never reads: every set ends in [or], which sorts.

    [None] is a panic or the end of the fuel. *)
From S2P Require Import Prelude Bytes Trigrams.

(** ** The regex *)

(** [regex_syntax::hir::Class]: ranges of bytes, or of scalar values. *)
Inductive Class_ :=
| CBytes (ranges : list (u8 * u8))
| CUnicode (ranges : list (u32 * u32)).

(** [HirKind]; an assertion's kind is not read. *)
Inductive HirKind (H : Type) :=
| HEmpty
| HLiteral (literal : bytes)
| HClass (class : Class_)
| HLook
| HRepetition (min : u32) (max : option u32) (sub : H)
| HCapture (sub : H)
| HConcat (parts : list H)
| HAlternation (parts : list H).
Arguments HEmpty {H}.
Arguments HLiteral {H} literal.
Arguments HClass {H} class.
Arguments HLook {H}.
Arguments HRepetition {H} min max sub.
Arguments HCapture {H} sub.
Arguments HConcat {H} parts.
Arguments HAlternation {H} parts.

Class Hir (H : Type) := hir_kind : H -> HirKind H.

(** What a class matches: one byte, or one scalar's encoding. *)
Definition class_matches (class : Class_) (w : bytes) : Prop :=
  match class with
  | CBytes ranges => exists r b, r ∈ ranges /\ (r.1 <= b <= r.2)%N /\ w = [b]
  | CUnicode ranges => exists r c, r ∈ ranges /\ (r.1 <= c <= r.2)%N /\ scalar c = true /\ w = encode_utf8 c
  end.

(** The byte strings a node of a kind may match, from those of its parts. *)
Definition kind_matches {H} (lang : H -> bytes -> Prop) (k : HirKind H) (w : bytes) : Prop :=
  match k with
  | HEmpty | HLook => w = []
  | HLiteral literal => w = literal
  | HClass class => class_matches class w
  | HRepetition min max sub =>
      exists ws, w = concat ws /\ Forall (lang sub) ws /\ (min <= N.of_nat (length ws))%N /\
        match max with Some m => (N.of_nat (length ws) <= m)%N | None => True end
  | HCapture sub => lang sub w
  | HConcat parts => exists ws, w = concat ws /\ Forall2 lang parts ws
  | HAlternation parts => exists part, part ∈ parts /\ lang part w
  end.

Definition parts_of {H} (k : HirKind H) : list H :=
  match k with
  | HRepetition _ _ sub | HCapture sub => [sub]
  | HConcat parts | HAlternation parts => parts
  | _ => []
  end.

Class HirLaws (H : Type) `{Hir H} := {
  lang : H -> bytes -> Prop;
  hir_size : H -> nat;
  lang_kind h w : lang h w -> kind_matches lang (hir_kind h) w;
  part_size h part : part ∈ parts_of (hir_kind h) -> hir_size part < hir_size h
}.

(** ** Limits and facts *)

(** [Limits]; [keys] can be [usize::MAX]. *)
Record Limits := mkLimits {
  l_class : nat; l_exact : nat; l_exact_len : nat; l_set : nat; l_keys : N; l_edge_len : nat
}.
Definition LIMITS : Limits := mkLimits 4 7 4 20 64 2.

(** [Trims], counters of what the limits discarded. *)
Record Trims := mkTrims { tr_class : u32; tr_exact : u32; tr_set : u32; tr_keys : u32 }.
Definition no_trims : Trims := mkTrims 0 0 0 0.
Definition bump (n by_ : u32) : u32 := ((n + by_) mod 2 ^ 32)%N.
Definition trim_class (t : Trims) : Trims := mkTrims (bump (tr_class t) 1) (tr_exact t) (tr_set t) (tr_keys t).
Definition trim_exact (t : Trims) : Trims := mkTrims (tr_class t) (bump (tr_exact t) 1) (tr_set t) (tr_keys t).
Definition trim_set (t : Trims) : Trims := mkTrims (tr_class t) (tr_exact t) (bump (tr_set t) 1) (tr_keys t).
Definition trim_keys (t : Trims) (n : u32) : Trims :=
  mkTrims (tr_class t) (tr_exact t) (tr_set t) (bump (tr_keys t) n).

Abbreviation Strings := (gset (list N)).

Definition set_len (s : Strings) : nat := length (elements s).
Definition longest (s : Strings) : nat := foldr Nat.max 0 (length <$> elements s).
(** [min().unwrap_or(0)]. *)
Definition shortest (s : Strings) : nat :=
  match length <$> elements s with [] => 0 | n :: l => foldr Nat.min n l end.

(** [s.iter().map(f).collect()]. *)
Definition map_strings (f : bytes -> bytes) (s : Strings) : Strings := list_to_set (f <$> elements s).

Definition first_edge (s : bytes) (n : nat) : bytes := take (length s `min` n) s.
Definition last_edge (s : bytes) (n : nat) : bytes := drop (length s - n) s.

(** [product]. *)
Definition product (l r : Strings) : Strings :=
  list_to_set (concat ((fun x => (fun y => x ++ y) <$> elements r) <$> elements l)).

(** [&s[..s.len() - 1]] and [&s[1..]]. *)
Definition cut_last (s : bytes) : option bytes := match s with [] => None | _ => Some (take (length s - 1) s) end.
Definition cut_first (s : bytes) : option bytes := match s with [] => None | _ :: s => Some s end.
(** [starts_with] and [ends_with]. *)
Definition covers_start (s t : bytes) : bool := bool_decide (t `prefix_of` s).
Definition covers_end (s t : bytes) : bool := bool_decide (t `suffix_of` s).

(** [shorten]: one turn, and the loop. *)
Definition cut_longest (cut : bytes -> option bytes) (s : Strings) : option Strings :=
  list_to_set <$> try_map (fun x => if length x =? longest s then cut x else Some x) (elements s).
Definition uncovered (covers : bytes -> bytes -> bool) (s : Strings) : Strings :=
  list_to_set (base.filter (fun x => negb (existsb (fun t => (length t <? length x) && covers x t) (elements s)) = true) (elements s)).
Fixpoint shorten_loop (fuel : nat) (s : Strings) (max : nat) (cut : bytes -> option bytes)
    (covers : bytes -> bytes -> bool) : option Strings :=
  match fuel with
  | 0 => None
  | S fuel =>
      if max <? set_len s then
        s ← cut_longest cut s;
        shorten_loop fuel (uncovered covers s) max cut covers
      else Some s
  end.
Definition shorten (s : Strings) (max : nat) (cut : bytes -> option bytes) (covers : bytes -> bytes -> bool)
    : option Strings :=
  shorten_loop (S (longest s)) s max cut covers.

(** ** The fold *)

Section fold.
  Context {Q : Type} `{Facts Q} (limits : Limits).

(** [Info]. *)
Record Info := mkInfo {
  emptyable : bool; i_exact : option Strings; i_prefix : Strings; i_suffix : Strings; i_matches : Q
}.

(** A step that threads the counters, and may panic. *)
Abbreviation fold_m A := (Trims -> option (A * Trims)).

(** [set_facts]. *)
Definition set_facts (s : Strings) : Q := for_ (string_fact <$> elements s).

(** [single], [empty] and [unknown]. *)
Definition single (s : Strings) : Info := mkInfo (bool_decide ([] ∈ s)) (Some s) ∅ ∅ all.
Definition empty_info : Info := single {[ [] ]}.
Definition unknown (e : bool) : Info := mkInfo e None {[ [] ]} {[ [] ]} all.

(** [Info::release], [starts], [ends], and [finish]. *)
Definition release (i : Info) : Info :=
  match i_exact i with
  | Some e => mkInfo (emptyable i) None e e (fand [i_matches i; set_facts e])
  | None => i
  end.
Definition starts (i : Info) : Strings := default (i_prefix i) (i_exact i).
Definition ends (i : Info) : Strings := default (i_suffix i) (i_exact i).
Definition finish (i : Info) : Q :=
  match i_exact i with Some e => fand [i_matches i; set_facts e] | None => i_matches i end.

(** [simplify]: the cap on the exact set; then, once it is unknown, the edges
    and the caps on the prefix and suffix sets. *)
Definition simplify_exact (i : Info) (tr : Trims) : Info * Trims :=
  match i_exact i with
  | Some e =>
      if (l_exact limits <? set_len e) || (l_exact_len limits <? shortest e) then (release i, trim_exact tr) else (i, tr)
  | None => (i, tr)
  end.
Definition cap_set (s : Strings) (cut : bytes -> option bytes) (covers : bytes -> bytes -> bool) : fold_m Strings :=
  fun tr =>
    if l_set limits <? set_len s then s ← shorten s (l_set limits) cut covers; Some (s, trim_set tr) else Some (s, tr).
Definition simplify (i : Info) : fold_m Info := fun tr =>
  let '(i, tr) := simplify_exact i tr in
  match i_exact i with
  | Some _ => Some (i, tr)
  | None =>
      let prefix := map_strings (fun s => first_edge s (l_edge_len limits)) (i_prefix i) in
      let suffix := map_strings (fun s => last_edge s (l_edge_len limits)) (i_suffix i) in
      '(prefix, tr) ← cap_set prefix cut_last covers_start tr;
      '(suffix, tr) ← cap_set suffix cut_first covers_end tr;
      Some (mkInfo (emptyable i) None prefix suffix (i_matches i), tr)
  end.

(** [concat]. *)
Definition concat_info (left right : Info) : fold_m Info := fun tr =>
  let e := emptyable left && emptyable right in
  match i_exact left, i_exact right with
  | Some l, Some r => simplify (mkInfo e (Some (product l r)) ∅ ∅ (fand [i_matches left; i_matches right])) tr
  | _, _ =>
      let tails := map_strings (fun s => last_edge s (l_edge_len limits)) (ends left) in
      let heads := map_strings (fun s => first_edge s (l_edge_len limits)) (starts right) in
      let boundary := set_facts (product tails heads) in
      let prefix := match i_exact left with Some x => product x (i_prefix right) | None => i_prefix left end in
      let suffix := match i_exact right with Some x => product (i_suffix left) x | None => i_suffix right end in
      let left := release left in
      let right := release right in
      simplify (mkInfo e None prefix suffix (fand [i_matches left; i_matches right; boundary])) tr
  end.

(** [alternate]. *)
Definition alternate (left right : Info) : fold_m Info := fun tr =>
  let e := emptyable left || emptyable right in
  match i_exact left, i_exact right with
  | Some l, Some r => simplify (mkInfo e (Some (l ∪ r)) ∅ ∅ (for_ [i_matches left; i_matches right])) tr
  | _, _ =>
      let left := release left in
      let right := release right in
      simplify (mkInfo e None (i_prefix left ∪ i_prefix right) (i_suffix left ∪ i_suffix right)
                  (for_ [i_matches left; i_matches right])) tr
  end.

(** [UNROLL], and [repeat]: its loop appends copies. *)
Definition UNROLL : u32 := 8.
Fixpoint append_copies (n : nat) (info sub : Info) : fold_m Info := fun tr =>
  match n with
  | 0 => Some (info, tr)
  | S n => '(info, tr) ← concat_info info sub tr; append_copies n info sub tr
  end.
Definition repeat (sub : Info) (min : u32) (max : option u32) : fold_m Info := fun tr =>
  let copies := N.min min UNROLL in
  '(info, tr) ← append_copies (N.to_nat copies - 1) sub sub tr;
  Some (if bool_decide (max = Some min) && (copies =? min)%N then info else release info, tr).

(** [fold_class]: [count] members, and the members. *)
Definition range_count (ranges : list (N * N)) : N := foldr (fun r n => r.2 - r.1 + 1 + n)%N 0%N ranges.
Definition range_members (r : N * N) : list N :=
  (fun k => r.1 + N.of_nat k)%N <$> seq 0 (N.to_nat (r.2 - r.1 + 1)).
Definition class_members (class : Class_) : option Strings :=
  match class with
  | CBytes ranges =>
      if (range_count ranges <=? N.of_nat (2 * l_class limits))%N then
        Some (list_to_set ((fun b => fold_bytes [b]) <$> concat (range_members <$> ranges)))
      else None
  | CUnicode ranges =>
      if (range_count ranges <=? N.of_nat (2 * l_class limits))%N then
        Some (list_to_set ((fun c => fold_bytes (encode_utf8 c)) <$>
                base.filter (fun c => scalar c = true) (concat (range_members <$> ranges))))
      else None
  end.
Definition fold_class (class : Class_) (tr : Trims) : Info * Trims :=
  match class_members class with
  | Some members => if set_len members <=? l_class limits then (single members, tr) else (unknown false, trim_class tr)
  | None => (unknown false, trim_class tr)
  end.

(** The loops of [fold_node] over a concatenation and an alternation. *)
Fixpoint concat_loop {H} (fold_node : H -> fold_m Info) (parts : list H) (info : Info) (conjuncts : list Q)
    : fold_m (Info * list Q) := fun tr =>
  match parts with
  | [] => Some (info, conjuncts, tr)
  | part :: parts =>
      let conjuncts := conjuncts ++ [i_matches info] in
      let info := mkInfo (emptyable info) (i_exact info) (i_prefix info) (i_suffix info) all in
      '(next, tr) ← fold_node part tr;
      '(info, tr) ← concat_info info next tr;
      concat_loop fold_node parts info conjuncts tr
  end.
Fixpoint alternate_loop {H} (fold_node : H -> fold_m Info) (parts : list H) (info : Info) : fold_m Info := fun tr =>
  match parts with
  | [] => Some (info, tr)
  | part :: parts =>
      '(next, tr) ← fold_node part tr;
      '(info, tr) ← alternate info next tr;
      alternate_loop fold_node parts info tr
  end.

(** [fold_node]. *)
Fixpoint fold_node {H} `{Hir H} (fuel : nat) (hir : H) : fold_m Info := fun tr =>
  match fuel with
  | 0 => None
  | S fuel =>
      '(info, tr) ←
        match hir_kind hir with
        | HEmpty | HLook => Some (empty_info, tr)
        | HLiteral literal => Some (single {[ fold_bytes literal ]}, tr)
        | HClass class => Some (fold_class class tr)
        | HCapture sub => fold_node fuel sub tr
        | HRepetition min max sub =>
            if (min =? 0)%N then
              if bool_decide (max = Some 1%N) then
                '(sub, tr) ← fold_node fuel sub tr;
                alternate sub empty_info tr
              else Some (unknown true, tr)
            else
              '(sub, tr) ← fold_node fuel sub tr;
              repeat sub min max tr
        | HConcat parts =>
            '(info, conjuncts, tr) ← concat_loop (fold_node fuel) parts empty_info [] tr;
            let conjuncts := conjuncts ++ [i_matches info] in
            Some (mkInfo (emptyable info) (i_exact info) (i_prefix info) (i_suffix info) (fand conjuncts), tr)
        | HAlternation parts => alternate_loop (fold_node fuel) parts (single ∅) tr
        end;
      simplify info tr
  end.
End fold.
Arguments Info Q : clear implicits.

(** [cap_keys]. *)
Definition cap_keys (query : Trigrams) (max : N) (tr : Trims) : option (Trigrams * Trims) :=
  let before := length (keys query) in
  if (N.of_nat before <=? max)%N then Some (query, tr)
  else
    query ← fit query (N.to_nat max);
    let n := N.of_nat (before - length (keys query)) in
    Some (query, trim_keys tr (if (n <? 2 ^ 32)%N then n else (2 ^ 32 - 1)%N)).

(** [derive], and the two derivations of [GrepFlags::compile]: uncapped, and
    capped at [LIMITS.keys]. *)
Definition derive {H} `{Hir H} (limits : Limits) (fuel : nat) (hir : H) (tr : Trims) : option (Trigrams * Trims) :=
  '(info, tr) ← fold_node limits fuel hir tr;
  cap_keys (finish info) (l_keys limits) tr.
Definition compile_trigrams {H} `{Hir H} (fuel : nat) (hir : H) : option (Trigrams * Trigrams) :=
  let limits := mkLimits 4 7 4 20 18446744073709551615 2 in
  '(planning, _) ← derive limits fuel hir no_trims;
  '(trigrams, _) ← cap_keys planning (l_keys LIMITS) no_trims;
  Some (planning, trigrams).

(** [GrepFlags::required_literals]. *)
Definition required_literals {H} `{Hir H} (fuel : nat) (hir : H) : option RequiredLiterals :=
  let limits := mkLimits 4 7 32 20 64 31 in
  '(info, _) ← fold_node limits fuel hir no_trims;
  Some (finish info).

(** ** Sets of strings *)

Lemma elem_of_map_strings f s x : x ∈ map_strings f s <-> exists y, y ∈ s /\ x = f y.
Proof.
  unfold map_strings. rewrite elem_of_list_to_set, list_elem_of_fmap. setoid_rewrite elem_of_elements.
  split; intros (y & H1 & H2); eauto.
Qed.

Lemma elem_of_product l r x : x ∈ product l r <-> exists a b, a ∈ l /\ b ∈ r /\ x = a ++ b.
Proof.
  unfold product. rewrite elem_of_list_to_set, list_elem_of_In, in_concat. setoid_rewrite <- list_elem_of_In. split.
  - intros (m & (a & -> & Ha%elem_of_elements)%list_elem_of_fmap & (b & -> & Hb%elem_of_elements)%list_elem_of_fmap). eauto.
  - intros (a & b & Ha & Hb & ->). eexists. rewrite list_elem_of_fmap. split; [exists a; split; [done|by apply elem_of_elements]|].
    apply list_elem_of_fmap. exists b. split; [done|by apply elem_of_elements].
Qed.

Lemma le_longest s x : x ∈ s -> length x <= longest s.
Proof.
  unfold longest. rewrite <- elem_of_elements. generalize (elements s). intros l Hx.
  induction l as [|y l IH]; [by apply elem_of_nil in Hx|]. cbn. apply elem_of_cons in Hx as [->|Hx]; [lia|]. specialize (IH Hx). lia.
Qed.

Lemma longest_le s n : (forall x, x ∈ s -> length x <= n) -> longest s <= n.
Proof.
  unfold longest. setoid_rewrite <- elem_of_elements. generalize (elements s). intros l Hl.
  induction l as [|y l IH]; cbn; [lia|]. pose proof (Hl y ltac:(left)). apply Nat.max_lub; [done|].
  apply IH. intros x Hx. apply Hl. by right.
Qed.

Lemma first_edge_prefix s n : first_edge s n `prefix_of` s.
Proof. exists (drop (length s `min` n) s). unfold first_edge. by rewrite take_drop. Qed.
Lemma last_edge_suffix s n : last_edge s n `suffix_of` s.
Proof. exists (take (length s - n) s). unfold last_edge. by rewrite take_drop. Qed.

(** ** Shortening a set *)

(** A cut that takes one byte off, at an end that [covers] compares. *)
Record cutting (cut : bytes -> option bytes) (covers : bytes -> bytes -> bool) (part : bytes -> bytes -> Prop) : Prop := {
  cut_nil : forall s, s <> [] -> exists t, cut s = Some t /\ part t s /\ length t < length s;
  covers_part : forall s t, covers s t = true <-> part t s;
  part_trans : forall a b c, part a b -> part b c -> part a c
}.

Lemma cutting_last : cutting cut_last covers_start prefix.
Proof.
  split; [|intros s t; apply bool_decide_eq_true|intros a b c; by transitivity b].
  intros s Hs. unfold cut_last. destruct s as [|x s]; [done|]. eexists. split; [done|]. split; [exists (drop (length (x :: s) - 1) (x :: s)); by rewrite take_drop|].
  rewrite length_take. cbn [length]. lia.
Qed.
Lemma cutting_first : cutting cut_first covers_end suffix.
Proof.
  split; [|intros s t; apply bool_decide_eq_true|intros a b c; by transitivity b].
  intros s Hs. destruct s as [|x s]; [done|]. exists s. split; [done|]. split; [by exists [x]|]. cbn. lia.
Qed.

Section shorten.
  Context (cut : bytes -> option bytes) (covers : bytes -> bytes -> bool) (part : bytes -> bytes -> Prop)
    (Hcut : cutting cut covers part).

(** [s] still holds a part of [f]. *)
Definition has_part (s : Strings) (f : bytes) : Prop := exists p, p ∈ s /\ part p f.

Lemma cut_elems (g : bytes -> option bytes) l :
  (forall x, x ∈ l -> exists y, g x = Some y) ->
  exists l', try_map g l = Some l' /\ (forall x, x ∈ l -> exists y, g x = Some y /\ y ∈ l') /\
    (forall y, y ∈ l' -> exists x, x ∈ l /\ g x = Some y).
Proof.
  induction l as [|x l IH]; intros Hg; [exists []; split_and!; [done|by intros x ?%elem_of_nil|by intros y ?%elem_of_nil]|].
  rewrite try_map_cons. destruct (Hg x ltac:(left)) as [y Hy]. rewrite Hy. cbn [mbind option_bind].
  destruct IH as (l' & -> & H1 & H2); [intros z Hz; apply Hg; by right|]. cbn [mbind option_bind]. exists (y :: l').
  split_and!; [done| |].
  - intros z [->|Hz]%elem_of_cons; [exists y; split; [done|left]|]. destruct (H1 z Hz) as (w & ? & ?). exists w. split; [done|by right].
  - intros z [->|Hz]%elem_of_cons; [exists x; split; [left|done]|]. destruct (H2 z Hz) as (w & ? & ?). exists w. split; [by right|done].
Qed.

(** One turn: shorter strings, and a part of whatever had one. *)
Lemma cut_longest_step s :
  0 < longest s -> exists s', cut_longest cut s = Some s' /\ longest s' < longest s /\
    forall f, has_part s f -> has_part s' f.
Proof.
  intros Hpos. unfold cut_longest.
  assert (Hstep : forall x, x ∈ s -> exists y, (if length x =? longest s then cut x else Some x) = Some y /\
    length y < longest s /\ (forall f, part x f -> part y f)).
  { intros x Hx. pose proof (le_longest s x Hx) as Hle. destruct (Nat.eqb_spec (length x) (longest s)) as [Hl|Hl].
    - destruct (cut_nil _ _ _ Hcut x) as (y & Hy & Hp & Hlt); [by intros ->; cbn in Hl; lia|]. exists y.
      split_and!; [done|lia|]. intros f Hf. by apply (part_trans _ _ _ Hcut y x f).
    - exists x. split_and!; [done|lia|done]. }
  destruct (cut_elems (fun x => if length x =? longest s then cut x else Some x) (elements s)) as (l & -> & H1 & H2).
  { intros x Hx%elem_of_elements. destruct (Hstep x Hx) as (y & ? & _). eauto. }
  eexists. split; [done|]. split.
  - apply Nat.lt_le_trans with (S (longest (list_to_set l))); [lia|]. apply Nat.le_succ_l.
    assert (longest (list_to_set l) <= longest s - 1); [|lia]. apply longest_le. intros y Hy%elem_of_list_to_set.
    destruct (H2 y Hy) as (x & Hx%elem_of_elements & Hxy). destruct (Hstep x Hx) as (y' & E & Hlt & _). rewrite E in Hxy.
    injection Hxy as <-. lia.
  - intros f (x & Hx & Hf). destruct (H1 x) as (y & Hy & Hin); [by apply elem_of_elements|].
    destruct (Hstep x Hx) as (y' & E & _ & Hp). rewrite E in Hy. injection Hy as <-. exists y'.
    split; [by apply elem_of_list_to_set|by apply Hp].
Qed.

(** Dropping what another covers drops no part: the shortest cover stays. *)
Lemma uncovered_part s f : has_part s f -> has_part (uncovered covers s) f.
Proof.
  intros (p & Hp & Hf). remember (length p) as n eqn:Hn. revert p Hp Hf Hn.
  induction (lt_wf n) as [n _ IH]. intros p Hp Hf ->.
  destruct (existsb (fun t => (length t <? length p) && covers p t) (elements s)) eqn:E.
  - apply existsb_elem in E as (t & Ht%elem_of_elements & [Hlt%Nat.ltb_lt Hc]%andb_true_iff).
    apply (covers_part _ _ _ Hcut) in Hc. apply (IH (length t) Hlt t Ht); [|done]. by apply (part_trans _ _ _ Hcut t p f).
  - exists p. split; [|done]. unfold uncovered. apply elem_of_list_to_set, list_elem_of_filter. split; [|by apply elem_of_elements].
    by rewrite E.
Qed.

Lemma uncovered_sub s x : x ∈ uncovered covers s -> x ∈ s.
Proof. unfold uncovered. rewrite elem_of_list_to_set, list_elem_of_filter, elem_of_elements. by intros [_ ?]. Qed.

(** A set of more than one string has one to cut. *)
Lemma set_len_longest s : 1 < set_len s -> 0 < longest s.
Proof.
  unfold set_len. intros Hl. destruct (Nat.eq_0_gt_0_cases (longest s)) as [Hz|]; [|done]. exfalso.
  assert (Hnil : forall x, x ∈ elements s -> x = []).
  { intros x Hx%elem_of_elements%le_longest. rewrite Hz in Hx. by destruct x; [|cbn in Hx; lia]. }
  pose proof (NoDup_elements s) as Hnd. destruct (elements s) as [|x [|y l]]; cbn in Hl; [lia|lia|].
  rewrite (Hnil x), (Hnil y) in Hnd by (rewrite !elem_of_cons; auto). apply NoDup_cons in Hnd as [Hx _]. apply Hx. left.
Qed.

Lemma shorten_loop_spec fuel s max :
  0 < max -> longest s < fuel ->
  exists s', shorten_loop fuel s max cut covers = Some s' /\ set_len s' <= max /\ forall f, has_part s f -> has_part s' f.
Proof.
  intros Hmax. revert s. induction fuel as [|fuel IH]; intros s Hfuel; [lia|]. cbn [shorten_loop].
  destruct (Nat.ltb_spec max (set_len s)) as [Hl|Hl]; [|by exists s].
  destruct (cut_longest_step s) as (s1 & -> & Hlt & Hp); [apply set_len_longest; lia|]. cbn [mbind option_bind].
  destruct (IH (uncovered covers s1)) as (s2 & -> & Hm & Hp2).
  { apply Nat.le_lt_trans with (longest s1); [|lia]. apply longest_le. intros x Hx%uncovered_sub. by apply le_longest. }
  exists s2. split_and!; [done|done|]. intros f Hf. by apply Hp2, uncovered_part, Hp.
Qed.

(** [shorten] ends, within the cap, and keeps a part of whatever had one. *)
Lemma shorten_spec s max :
  0 < max -> exists s', shorten s max cut covers = Some s' /\ set_len s' <= max /\ forall f, has_part s f -> has_part s' f.
Proof. intros Hmax. apply shorten_loop_spec; [done|lia]. Qed.
End shorten.

(** ** The facts hold of every match *)

Section sound.
  Context {Q : Type} `{FactsLaws Q} `{!FactsShape Q} (limits : Limits) (Hset : 0 < l_set limits).

(** What an [Info] says of a folded match: it is one of the exact strings; or
    it starts with a member of [prefix] and ends with one of [suffix].  And
    it satisfies [matches]. *)
Definition good (i : Info Q) (f : bytes) : Prop :=
  match i_exact i with
  | Some e => f ∈ e
  | None => has_part prefix (i_prefix i) f /\ has_part suffix (i_suffix i) f
  end /\ holding f (i_matches i).

Definition is_shaped (i : Info Q) : Prop := shaped (i_matches i).

Lemma holding_set s text x : x ∈ s -> infix x text -> holding text (set_facts s).
Proof.
  intros Hx Hi. unfold set_facts. apply holding_or, Exists_exists. exists (string_fact x). split; [|by apply holding_string].
  apply list_elem_of_fmap. exists x. split; [done|by apply elem_of_elements].
Qed.
Lemma shaped_set s : shaped (set_facts s).
Proof. unfold set_facts. apply shaped_or, Forall_forall. intros q (x & -> & _)%list_elem_of_fmap. apply shaped_string. Qed.

Lemma holding_pair text a b : holding text a -> holding text b -> holding text (fand [a; b]).
Proof. intros Ha Hb. apply holding_and. by repeat constructor. Qed.

Lemma release_exact (i : Info Q) : i_exact (release i) = None.
Proof. unfold release. by destruct (i_exact i) eqn:E. Qed.
Lemma release_shaped i : is_shaped i -> is_shaped (release i).
Proof.
  unfold is_shaped, release. intros Hi. destruct (i_exact i); [|done]. cbn. apply shaped_and.
  repeat constructor; [done|apply shaped_set].
Qed.
Lemma release_good i f : good i f -> good (release i) f.
Proof.
  unfold good, release. destruct (i_exact i) as [e|] eqn:E; [|by rewrite E]. cbn [i_exact i_prefix i_suffix i_matches].
  intros [He Hm]. split; [by split; exists f|]. apply holding_pair; [done|]. by apply (holding_set e f f); [|apply infix_refl].
Qed.

(** A released fact's parts, for a match around it. *)
Lemma released_parts i f :
  good i f -> has_part prefix (i_prefix (release i)) f /\ has_part suffix (i_suffix (release i)) f /\ holding f (i_matches (release i)).
Proof. intros Hg%release_good. unfold good in Hg. rewrite release_exact in Hg. by destruct Hg as [[? ?] ?]. Qed.

Lemma finish_good i f : good i f -> holding f (finish i).
Proof.
  unfold good, finish. destruct (i_exact i) as [e|]; [|by intros [_ ?]]. intros [He Hm].
  apply holding_pair; [done|]. by apply (holding_set e f f); [|apply infix_refl].
Qed.
Lemma finish_shaped i : is_shaped i -> shaped (finish i).
Proof.
  unfold is_shaped, finish. intros Hi. destruct (i_exact i); [|done]. apply shaped_and. repeat constructor; [done|apply shaped_set].
Qed.

Lemma single_good s f : f ∈ s -> good (single s) f.
Proof. intros Hf. split; [done|apply holding_all]. Qed.
Lemma unknown_good e f : good (unknown e) f.
Proof.
  split; [|apply holding_all]. cbn. split; exists []; (split; [by apply elem_of_singleton|]); [by exists f|by exists f; rewrite app_nil_r].
Qed.
Lemma single_shaped s : is_shaped (single s).
Proof. apply shaped_all. Qed.
Lemma unknown_shaped e : is_shaped (unknown e).
Proof. apply shaped_all. Qed.

(** A step that threads the counters, returns, keeps the shape, and whose
    facts hold where [P] says. *)
Definition sound_step (m : Trims -> option (Info Q * Trims)) (P : bytes -> Prop) : Prop :=
  forall tr, exists i tr', m tr = Some (i, tr') /\ is_shaped i /\ forall f, P f -> good i f.

Lemma cap_set_spec cut covers part s tr :
  cutting cut covers part ->
  exists s' tr', cap_set limits s cut covers tr = Some (s', tr') /\ forall f, has_part part s f -> has_part part s' f.
Proof.
  intros Hcut. unfold cap_set. destruct (Nat.ltb_spec (l_set limits) (set_len s)); [|by exists s, tr].
  destruct (shorten_spec cut covers part Hcut s (l_set limits) Hset) as (s' & -> & _ & Hp). by exists s', (trim_set tr).
Qed.

Lemma edge_part (part : bytes -> bytes -> Prop) (edge : bytes -> bytes) s f :
  (forall x, part (edge x) x) -> (forall a b c, part a b -> part b c -> part a c) ->
  has_part part s f -> has_part part (map_strings edge s) f.
Proof.
  intros He Ht (p & Hp & Hf). exists (edge p). split; [apply elem_of_map_strings; eauto|]. by apply (Ht _ p).
Qed.

Lemma simplify_sound i P : is_shaped i -> (forall f, P f -> good i f) -> sound_step (simplify limits i) P.
Proof.
  intros Hs Hg tr. unfold simplify.
  assert (Hex : exists i1 tr1, simplify_exact limits i tr = (i1, tr1) /\ is_shaped i1 /\ forall f, P f -> good i1 f).
  { unfold simplify_exact. destruct (i_exact i); [|by eexists _, _]. destruct (_ || _); [|by eexists _, _].
    eexists _, _. split; [done|]. split; [by apply release_shaped|]. intros f Hf. by apply release_good, Hg. }
  destruct Hex as (i1 & tr1 & -> & Hs1 & Hg1). destruct (i_exact i1) as [e|] eqn:E; [by eexists _, _|].
  destruct (cap_set_spec cut_last covers_start prefix (map_strings (fun s => first_edge s (l_edge_len limits)) (i_prefix i1)) tr1
    cutting_last) as (pre & tr2 & -> & Hpre). cbn [mbind option_bind].
  destruct (cap_set_spec cut_first covers_end suffix (map_strings (fun s => last_edge s (l_edge_len limits)) (i_suffix i1)) tr2
    cutting_first) as (suf & tr3 & -> & Hsuf). cbn [mbind option_bind].
  eexists _, _. split; [reflexivity|]. split; [done|]. intros f Hf. specialize (Hg1 f Hf). unfold good in Hg1 |- *. rewrite E in Hg1.
  cbn [i_exact i_prefix i_suffix i_matches]. destruct Hg1 as [[Hp Hs'] Hm]. split; [|done]. split.
  - apply Hpre, edge_part; [intros x; apply first_edge_prefix|intros a b c; by transitivity b|done].
  - apply Hsuf, edge_part; [intros x; apply last_edge_suffix|intros a b c; by transitivity b|done].
Qed.

Lemma starts_part i g : good i g -> has_part prefix (starts i) g.
Proof. unfold good, starts. destruct (i_exact i) as [e|]; [|by intros [[? _] _]]. intros [He _]. by exists g. Qed.
Lemma ends_part i f : good i f -> has_part suffix (ends i) f.
Proof. unfold good, ends. destruct (i_exact i) as [e|]; [|by intros [[_ ?] _]]. intros [He _]. by exists f. Qed.

Lemma infix_left f g : infix f (f ++ g).
Proof. by exists [], g. Qed.
Lemma infix_right f g : infix g (f ++ g).
Proof. exists f, []. by rewrite app_nil_r. Qed.

(** The strings across a boundary occur in the match. *)
Lemma boundary_holds left right f g :
  good left f -> good right g ->
  holding (f ++ g) (set_facts (product (map_strings (fun s => last_edge s (l_edge_len limits)) (ends left))
                                       (map_strings (fun s => first_edge s (l_edge_len limits)) (starts right)))).
Proof.
  intros Hl%ends_part Hr%starts_part.
  apply (edge_part suffix (fun s => last_edge s (l_edge_len limits))) in Hl;
    [|intros x; apply last_edge_suffix|intros a b c; by transitivity b].
  apply (edge_part prefix (fun s => first_edge s (l_edge_len limits))) in Hr;
    [|intros x; apply first_edge_prefix|intros a b c; by transitivity b].
  destruct Hl as (a & Ha & a' & ->), Hr as (b & Hb & b' & ->).
  apply (holding_set _ _ (a ++ b)); [apply elem_of_product; eauto|]. exists a', b'. by rewrite !app_assoc.
Qed.

Lemma concat_sound left right (P R : bytes -> Prop) :
  is_shaped left -> is_shaped right -> (forall f, P f -> good left f) -> (forall g, R g -> good right g) ->
  sound_step (concat_info limits left right) (fun h => exists f g, P f /\ R g /\ h = f ++ g).
Proof.
  intros Hsl Hsr Hl Hr.
  assert (Hboth : forall e1 e2, i_exact left = Some e1 -> i_exact right = Some e2 ->
    sound_step (concat_info limits left right) (fun h => exists f g, P f /\ R g /\ h = f ++ g)).
  { intros e1 e2 E1 E2. unfold concat_info. rewrite E1, E2. apply simplify_sound.
    - apply shaped_and. by repeat constructor.
    - intros h (f & g & Hf & Hg & ->). specialize (Hl f Hf). specialize (Hr g Hg). unfold good in *. rewrite E1 in Hl. rewrite E2 in Hr.
      destruct Hl as [He1 Hm1], Hr as [He2 Hm2]. cbn. split; [apply elem_of_product; eauto|].
      apply holding_pair; [by apply (holding_infix f); [apply infix_left|]|by apply (holding_infix g); [apply infix_right|]]. }
  assert (Hopen : (i_exact left = None \/ i_exact right = None) ->
    sound_step (concat_info limits left right) (fun h => exists f g, P f /\ R g /\ h = f ++ g)).
  { intros Hnone.
    assert (E : forall tr, concat_info limits left right tr = simplify limits (mkInfo (emptyable left && emptyable right) None
      match i_exact left with Some x => product x (i_prefix right) | None => i_prefix left end
      match i_exact right with Some x => product (i_suffix left) x | None => i_suffix right end
      (fand [i_matches (release left); i_matches (release right);
        set_facts (product (map_strings (fun s => last_edge s (l_edge_len limits)) (ends left))
                           (map_strings (fun s => first_edge s (l_edge_len limits)) (starts right)))])) tr).
    { intros tr. unfold concat_info. destruct (i_exact left) as [x|] eqn:E1, (i_exact right) as [y|] eqn:E2; try done. by destruct Hnone. }
    intros tr. rewrite E. revert tr. apply simplify_sound.
    - apply shaped_and. constructor; [by apply release_shaped|]. constructor; [by apply release_shaped|].
      constructor; [apply shaped_set|constructor].
    - intros h (f & g & Hf & Hg & ->). specialize (Hl f Hf). specialize (Hr g Hg).
      pose proof (boundary_holds left right f g Hl Hr) as Hb.
      pose proof (released_parts left f Hl) as (_ & _ & Hm1). pose proof (released_parts right g Hr) as (_ & _ & Hm2).
      split; cbn [i_exact i_prefix i_suffix i_matches].
      + unfold good in Hl, Hr. destruct (i_exact left) as [x|], (i_exact right) as [y|]; destruct Hl as [Hl _], Hr as [Hr _].
        * by destruct Hnone.
        * destruct Hr as [(p & Hp & p' & ->) (q & Hq & q' & Eq)]. split.
          -- exists (f ++ p). split; [apply elem_of_product; eauto|]. exists p'. by rewrite app_assoc.
          -- exists q. split; [done|]. exists (f ++ q'). by rewrite Eq, app_assoc.
        * destruct Hl as [(p & Hp & p' & ->) (q & Hq & q' & Eq)]. split.
          -- exists p. split; [done|]. exists (p' ++ g). by rewrite app_assoc.
          -- exists (q ++ g). split; [apply elem_of_product; eauto|]. exists q'. by rewrite Eq, app_assoc.
        * destruct Hl as [(p & Hp & p' & ->) _], Hr as [_ (q & Hq & q' & ->)]. split.
          -- exists p. split; [done|]. exists (p' ++ (q' ++ q)). by rewrite <- !app_assoc.
          -- exists q. split; [done|]. exists ((p ++ p') ++ q'). by rewrite <- !app_assoc.
      + apply holding_and. constructor; [by apply (holding_infix f); [apply infix_left|]|].
        constructor; [by apply (holding_infix g); [apply infix_right|]|]. by repeat constructor. }
  destruct (i_exact left) as [e1|] eqn:E1; [|by apply Hopen; left]. destruct (i_exact right) as [e2|] eqn:E2; [|by apply Hopen; right].
  by apply (Hboth e1 e2).
Qed.

Lemma sound_weaken m (P R : bytes -> Prop) : (forall f, R f -> P f) -> sound_step m P -> sound_step m R.
Proof. intros Hi Hm tr. destruct (Hm tr) as (i & tr' & E & Hs & Hg). exists i, tr'. split_and!; [done|done|auto]. Qed.

Lemma sound_bind m (k : Info Q -> Trims -> option (Info Q * Trims)) (P R : bytes -> Prop) :
  sound_step m P -> (forall i, is_shaped i -> (forall f, P f -> good i f) -> sound_step (k i) R) ->
  sound_step (fun tr => '(i, tr) ← m tr; k i tr) R.
Proof.
  intros Hm Hk tr. destruct (Hm tr) as (i & tr' & -> & Hs & Hg). cbn [mbind option_bind]. by apply Hk.
Qed.

Lemma sound_ret i (P : bytes -> Prop) : is_shaped i -> (forall f, P f -> good i f) -> sound_step (fun tr => Some (i, tr)) P.
Proof. intros Hs Hg tr. by exists i, tr. Qed.

Lemma alternate_sound left right (P R : bytes -> Prop) :
  is_shaped left -> is_shaped right -> (forall f, P f -> good left f) -> (forall f, R f -> good right f) ->
  sound_step (alternate limits left right) (fun h => P h \/ R h).
Proof.
  intros Hsl Hsr Hl Hr.
  assert (Hor : forall (i : Info Q) (a b : Q) h, i_matches i = for_ [a; b] -> holding h a \/ holding h b -> holding h (i_matches i)).
  { intros i a b h -> Hh. apply holding_or. destruct Hh; [by left|by right; left]. }
  assert (Hopen : (i_exact left = None \/ i_exact right = None) -> sound_step (alternate limits left right) (fun h => P h \/ R h)).
  { intros Hnone.
    assert (E : forall tr, alternate limits left right tr = simplify limits (mkInfo (emptyable left || emptyable right) None
      (i_prefix (release left) ∪ i_prefix (release right)) (i_suffix (release left) ∪ i_suffix (release right))
      (for_ [i_matches (release left); i_matches (release right)])) tr).
    { intros tr. unfold alternate. destruct (i_exact left), (i_exact right); try done. by destruct Hnone. }
    intros tr. rewrite E. revert tr. apply simplify_sound.
    - apply shaped_or. by repeat constructor; apply release_shaped.
    - intros h Hh. split; [|eapply Hor; [reflexivity|]; destruct Hh as [Hh|Hh]; [left; by apply released_parts, Hl|right; by apply released_parts, Hr]].
      cbn. destruct Hh as [Hh|Hh].
      + destruct (released_parts left h (Hl h Hh)) as ((p & Hp & ?) & (q & Hq & ?) & _).
        split; [exists p|exists q]; (split; [apply elem_of_union; by left|done]).
      + destruct (released_parts right h (Hr h Hh)) as ((p & Hp & ?) & (q & Hq & ?) & _).
        split; [exists p|exists q]; (split; [apply elem_of_union; by right|done]). }
  destruct (i_exact left) as [e1|] eqn:E1; [|by apply Hopen; left]. destruct (i_exact right) as [e2|] eqn:E2; [|by apply Hopen; right].
  intros tr. unfold alternate. rewrite E1, E2. revert tr. apply simplify_sound; [apply shaped_or; by repeat constructor|].
  intros h Hh. unfold good in Hl, Hr. rewrite E1 in Hl. rewrite E2 in Hr. split; [|eapply Hor; [reflexivity|]].
  - cbn. apply elem_of_union. destruct Hh as [Hh|Hh]; [left; by apply Hl|right; by apply Hr].
  - destruct Hh as [Hh|Hh]; [left; by apply Hl|right; by apply Hr].
Qed.

(** ** Repetition *)

Definition copies (P : bytes -> Prop) (n : nat) (h : bytes) : Prop :=
  exists ws, length ws = n /\ Forall P ws /\ h = concat ws.

Lemma append_copies_sound n k info sub (P : bytes -> Prop) :
  is_shaped info -> is_shaped sub -> (forall f, copies P k f -> good info f) -> (forall f, P f -> good sub f) ->
  sound_step (append_copies limits n info sub) (copies P (k + n)).
Proof.
  intros Hsi Hss Hi Hsub. revert k info Hsi Hi. induction n as [|n IH]; intros k info Hsi Hi; cbn [append_copies].
  - apply sound_ret; [done|]. by rewrite Nat.add_0_r.
  - eapply (sound_bind _ (fun i => append_copies limits n i sub)); [by apply concat_sound; [| |exact Hi|exact Hsub]|].
    intros i His Hig. rewrite <- Nat.add_succ_comm. apply IH; [done|]. intros f (ws & Hl & Hw & ->). apply Hig.
    destruct (exists_last (l := ws)) as (ws' & w & ->); [by intros ->|]. rewrite length_app in Hl. cbn in Hl.
    apply Forall_app in Hw as [Hw Hw']. apply Forall_cons in Hw' as [Hw' _].
    exists (concat ws'), w. rewrite concat_app. cbn. rewrite app_nil_r. split_and!; [|done|done]. exists ws'. split_and!; [lia|done|done].
Qed.

(** Longer repetitions start and end with, and hold, a shorter one. *)
Lemma release_around (P : bytes -> Prop) n i ws :
  (forall f, copies P n f -> good i f) -> n <= length ws -> Forall P ws -> good (release i) (concat ws).
Proof.
  intros Hi Hn Hw.
  assert (Hfirst : copies P n (concat (take n ws))) by (exists (take n ws); split_and!; [rewrite length_take; lia|by apply Forall_take|done]).
  assert (Hlast : copies P n (concat (drop (length ws - n) ws)))
    by (exists (drop (length ws - n) ws); split_and!; [rewrite length_drop; lia|by apply Forall_drop|done]).
  destruct (released_parts i _ (Hi _ Hfirst)) as ((p & Hp & Hpp) & _ & Hm).
  destruct (released_parts i _ (Hi _ Hlast)) as (_ & (q & Hq & Hqq) & _).
  assert (E1 : concat ws = concat (take n ws) ++ concat (drop n ws)) by (rewrite <- concat_app; by rewrite take_drop).
  assert (E2 : concat ws = concat (take (length ws - n) ws) ++ concat (drop (length ws - n) ws)) by (rewrite <- concat_app; by rewrite take_drop).
  unfold good. rewrite release_exact. split; [split|].
  - exists p. split; [done|]. rewrite E1. by apply prefix_app_r.
  - exists q. split; [done|]. rewrite E2. by apply suffix_app_r.
  - apply (holding_infix (concat (take n ws))); [|done]. rewrite E1. apply infix_left.
Qed.

Lemma repeat_sound sub min max (P : bytes -> Prop) :
  is_shaped sub -> (forall f, P f -> good sub f) -> (0 < min)%N ->
  sound_step (repeat limits sub min max) (fun h => exists ws, h = concat ws /\ Forall P ws /\ (min <= N.of_nat (length ws))%N /\
    match max with Some m => (N.of_nat (length ws) <= m)%N | None => True end).
Proof.
  intros Hs Hsub Hmin. unfold repeat. set (n := N.min min UNROLL).
  eapply (sound_bind _ (fun info tr => Some (if bool_decide (max = Some min) && (n =? min)%N then info else release info, tr)));
    [apply (append_copies_sound (N.to_nat n - 1) 1 sub sub P); [done|done| |done]|].
  { intros f (ws & Hl & Hw & ->). destruct ws as [|w [|? ?]]; try done. apply Forall_cons in Hw as [Hw _]. cbn. rewrite app_nil_r. by apply Hsub. }
  assert (Hn : 1 + (N.to_nat n - 1) = N.to_nat n) by (unfold n, UNROLL; lia). rewrite Hn.
  intros i His Hi. case_bool_decide as Hmax; [destruct (N.eqb_spec n min) as [En|]|]; cbn [andb]; apply sound_ret; try done; try by apply release_shaped.
  - intros f (ws & -> & Hw & Hlo & Hhi). subst max. apply Hi. exists ws. split_and!; [lia|done|done].
  - intros f (ws & -> & Hw & Hlo & _). apply (release_around P (N.to_nat n)); [done| |done]. unfold n. lia.
  - intros f (ws & -> & Hw & Hlo & _). apply (release_around P (N.to_nat n)); [done| |done]. unfold n. lia.
Qed.

(** ** Classes *)

Lemma elem_of_range r x : (r.1 <= x <= r.2)%N -> x ∈ range_members r.
Proof.
  intros Hx. unfold range_members. apply list_elem_of_fmap. exists (N.to_nat (x - r.1)). split; [lia|].
  apply elem_of_seq. lia.
Qed.
Lemma elem_of_ranges ranges r x : r ∈ ranges -> (r.1 <= x <= r.2)%N -> x ∈ concat (range_members <$> ranges).
Proof.
  intros Hr Hx. apply list_elem_of_In, in_concat. exists (range_members r). rewrite <- !list_elem_of_In.
  split; [by apply list_elem_of_fmap_2|by apply elem_of_range].
Qed.

Lemma class_members_sound class s w : class_members limits class = Some s -> class_matches class w -> fold_bytes w ∈ s.
Proof.
  destruct class as [ranges|ranges]; cbn [class_members class_matches]; destruct (_ <=? _)%N; try done; intros [= <-].
  - intros (r & b & Hr & Hb & ->). apply elem_of_list_to_set, list_elem_of_fmap. exists b. split; [done|]. by eapply elem_of_ranges.
  - intros (r & b & Hr & Hb & Hsc & ->). apply elem_of_list_to_set, list_elem_of_fmap. exists b. split; [done|].
    apply list_elem_of_filter. split; [done|]. by eapply elem_of_ranges.
Qed.

Lemma fold_class_sound class :
  sound_step (fun tr => Some (fold_class limits class tr)) (fun h => exists w, class_matches class w /\ h = fold_bytes w).
Proof.
  intros tr. unfold fold_class. destruct (class_members limits class) as [s|] eqn:E.
  - destruct (set_len s <=? l_class limits); eexists _, _; (split; [reflexivity|]).
    + split; [apply single_shaped|]. intros f (w & Hw & ->). by apply single_good, (class_members_sound class).
    + split; [apply unknown_shaped|]. intros f _. apply unknown_good.
  - eexists _, _. split; [reflexivity|]. split; [apply unknown_shaped|]. intros f _. apply unknown_good.
Qed.
End sound.

(** ** The whole fold *)

Lemma fold_concat ws : fold_bytes (concat ws) = concat (fold_bytes <$> ws).
Proof. induction ws as [|w ws IH]; [done|]. cbn. by rewrite fold_app, IH. Qed.

Section node.
  Context {Q : Type} `{FactsLaws Q} `{!FactsShape Q} (limits : Limits) (Hset : 0 < l_set limits).
  Context {R : Type} `{HirLaws R}.

(** The folded matches of a node. *)
Definition matches_of (hir : R) (f : bytes) : Prop := exists w, lang hir w /\ f = fold_bytes w.

Definition node_sound (fold : R -> Trims -> option (Info Q * Trims)) (hir : R) : Prop :=
  sound_step (fold hir) (matches_of hir).

(** The set of facts after some parts of a concatenation: those of the
    current [Info], and the conjuncts put aside. *)
Lemma concat_loop_sound fold parts info conjuncts (A : bytes -> Prop) tr :
  Forall (node_sound fold) parts -> is_shaped info -> Forall shaped conjuncts ->
  (forall f, A f -> good info f /\ Forall (holding f) conjuncts) ->
  exists info' conjuncts' tr',
    concat_loop limits fold parts info conjuncts tr = Some (info', conjuncts', tr') /\ is_shaped info' /\ Forall shaped conjuncts' /\
    forall f, (exists a ws, A a /\ Forall2 lang parts ws /\ f = a ++ concat (fold_bytes <$> ws)) ->
      good info' f /\ Forall (holding f) conjuncts'.
Proof.
  intros Hparts. revert info conjuncts A tr. induction Hparts as [|part parts Hpart _ IH]; intros info conjuncts A tr Hsi Hsc HA; cbn [concat_loop].
  { exists info, conjuncts, tr. split_and!; [done..|]. intros f (a & ws & Ha & ->%Forall2_nil_inv_l & ->). rewrite app_nil_r. by apply HA. }
  destruct (Hpart tr) as (next & tr1 & -> & Hsn & Hgn). cbn [mbind option_bind].
  set (info0 := mkInfo (emptyable info) (i_exact info) (i_prefix info) (i_suffix info) all).
  assert (Hs0 : is_shaped info0) by apply shaped_all.
  assert (Hg0 : forall f, A f -> good info0 f) by (intros f Hf; destruct (HA f Hf) as [[? _] _]; split; [done|apply holding_all]).
  destruct (concat_sound limits Hset info0 next A (matches_of part) Hs0 Hsn Hg0 Hgn tr1) as (info1 & tr2 & -> & Hs1 & Hg1).
  cbn [mbind option_bind].
  destruct (IH info1 (conjuncts ++ [i_matches info]) (fun h => exists f g, A f /\ matches_of part g /\ h = f ++ g) tr2)
    as (info' & conjuncts' & tr' & -> & Hs' & Hsc' & Hg'); [done|apply Forall_app; by repeat constructor| |].
  { intros h Hh. split; [by apply Hg1|]. destruct Hh as (f & g & Hf & _ & ->). destruct (HA f Hf) as [[_ Hm] Hc].
    apply Forall_app. split; [|constructor; [|constructor]].
    - eapply Forall_impl; [exact Hc|]. intros q. apply holding_infix, infix_left.
    - apply (holding_infix f); [apply infix_left|done]. }
  exists info', conjuncts', tr'. split_and!; [done..|]. intros f (a & ws & Ha & Hws & ->). apply Forall2_cons_inv_l in Hws as (w & ws' & Hw & Hws & ->).
  apply Hg'. exists (a ++ fold_bytes w), ws'. split_and!; [|done|cbn; by rewrite app_assoc].
  exists a, (fold_bytes w). split_and!; [done|by exists w|done].
Qed.

Lemma alternate_loop_sound fold parts info (A : bytes -> Prop) :
  Forall (node_sound fold) parts -> is_shaped info -> (forall f, A f -> good info f) ->
  sound_step (alternate_loop limits fold parts info) (fun f => A f \/ exists part, part ∈ parts /\ matches_of part f).
Proof.
  intros Hparts. revert info A. induction Hparts as [|part parts Hpart _ IH]; intros info A Hsi HA; cbn [alternate_loop].
  { apply sound_ret; [done|]. intros f [?|(p & Hp%elem_of_nil & _)]; [auto|done]. }
  apply (sound_bind (fold part) (fun next tr => '(info, tr) ← alternate limits info next tr; alternate_loop limits fold parts info tr)
           (matches_of part)); [exact Hpart|].
  intros next Hsn Hgn.
  apply (sound_bind (alternate limits info next) (alternate_loop limits fold parts) (fun h => A h \/ matches_of part h));
    [by apply alternate_sound|].
  intros i Hsi' Hgi'. eapply sound_weaken; [|apply (IH i (fun h => A h \/ matches_of part h)); [done|exact Hgi']].
  intros f [Hf|(p & [->|Hp]%elem_of_cons & Hf)]; [left; by left|left; by right|right; by exists p].
Qed.

Lemma fold_node_sound fuel hir : hir_size hir < fuel -> node_sound (fold_node limits fuel) hir.
Proof.
  revert hir. induction fuel as [|fuel IH]; intros hir Hfuel; [lia|]. unfold node_sound. cbn [fold_node].
  assert (Hpart : forall part, part ∈ parts_of (hir_kind hir) -> node_sound (fold_node limits fuel) part)
    by (intros part Hp%part_size; apply IH; lia).
  eapply (sound_bind _ (simplify limits)); [|intros i Hsi Hgi; by apply simplify_sound].
  apply (sound_weaken _ (fun f => exists w, kind_matches lang (hir_kind hir) w /\ f = fold_bytes w)).
  { intros f (w & Hw%lang_kind & ->). by exists w. }
  destruct (hir_kind hir) as [|l|class| |min max sub|sub|parts|parts]; cbn [kind_matches parts_of] in *.
  - apply sound_ret; [apply single_shaped|]. intros f (w & -> & ->). apply single_good. by apply elem_of_singleton.
  - apply sound_ret; [apply single_shaped|]. intros f (w & -> & ->). apply single_good. by apply elem_of_singleton.
  - by apply fold_class_sound.
  - apply sound_ret; [apply single_shaped|]. intros f (w & -> & ->). apply single_good. by apply elem_of_singleton.
  - assert (Hsub : node_sound (fold_node limits fuel) sub) by (apply Hpart; left).
    destruct (N.eqb_spec min 0) as [->|Hmin]; [case_bool_decide as Hmax|].
    + apply (sound_bind (fold_node limits fuel sub) (fun sub => alternate limits sub empty_info) (matches_of sub)); [exact Hsub|].
      intros i Hsi Hgi. eapply sound_weaken; [|apply (alternate_sound limits Hset i empty_info (matches_of sub) (fun f => f = []));
        [done|apply single_shaped|done|intros f ->; apply single_good; by apply elem_of_singleton]].
      subst max. intros f (w & (ws & -> & Hws & _ & Hle) & ->). destruct ws as [|w [|? ?]]; [by right| |cbn in Hle; lia].
      left. apply Forall_cons in Hws as [Hw _]. exists w. cbn. by rewrite app_nil_r.
    + apply sound_ret; [apply unknown_shaped|]. intros f _. apply unknown_good.
    + apply (sound_bind (fold_node limits fuel sub) (fun sub => repeat limits sub min max) (matches_of sub)); [exact Hsub|].
      intros i Hsi Hgi. eapply sound_weaken; [|apply (repeat_sound limits Hset i min max (matches_of sub)); [done|done|lia]].
      intros f (w & (ws & -> & Hws & Hlo & Hhi) & ->). exists (fold_bytes <$> ws). rewrite length_fmap.
      split_and!; [apply fold_concat| |done|done]. rewrite Forall_fmap. eapply Forall_impl; [exact Hws|]. intros w Hw. by exists w.
  - apply Hpart. left.
  - intros tr. destruct (concat_loop_sound (fold_node limits fuel) parts empty_info [] (fun f => f = []) tr)
      as (info & conj & tr' & -> & Hsi & Hsc & Hg); [by apply Forall_forall|apply single_shaped|constructor| |].
    { intros f ->. split; [|constructor]. apply single_good. by apply elem_of_singleton. }
    cbn [mbind option_bind]. eexists _, _. split; [reflexivity|]. split.
    { apply shaped_and, Forall_app. split; [done|by repeat constructor]. }
    intros f (w & (ws & -> & Hws) & ->). destruct (Hg (fold_bytes (concat ws))) as [[He Hm] Hconj].
    { exists [], ws. split_and!; [done|done|apply fold_concat]. }
    split; [exact He|]. cbn. apply holding_and, Forall_app. split; [done|by repeat constructor].
  - eapply sound_weaken; [|apply (alternate_loop_sound (fold_node limits fuel) parts (single ∅) (fun _ => False));
      [by apply Forall_forall|apply single_shaped|done]].
    intros f (w & (part & Hp & Hw) & ->). right. exists part. split; [done|by exists w].
Qed.

(** Every text that holds a match satisfies the finished facts. *)
Lemma finish_sound fuel hir tr :
  hir_size hir < fuel ->
  exists info tr', fold_node limits fuel hir tr = Some (info, tr') /\ shaped (finish info) /\
    forall w text, lang hir w -> infix w text -> holding (fold_bytes text) (finish info).
Proof.
  intros Hf. destruct (fold_node_sound fuel hir Hf tr) as (info & tr' & -> & Hs & Hg). exists info, tr'.
  split_and!; [done|by apply finish_shaped|]. intros w text Hw Hi.
  apply (holding_infix (fold_bytes w)); [by apply fold_infix|]. apply finish_good, Hg. by exists w.
Qed.
End node.

Lemma cap_keys_spec query max tr :
  canonical query = true ->
  exists query' tr', cap_keys query max tr = Some (query', tr') /\ canonical query' = true /\
    (N.of_nat (length (keys query')) <= max)%N /\ forall has, holds has query = true -> holds has query' = true.
Proof.
  intros Hc. unfold cap_keys. destruct (N.leb_spec (N.of_nat (length (keys query))) max) as [Hle|Hgt]; [by exists query, tr|].
  destruct (fit_by_fits (fun _ => 0%N) query Hc (N.to_nat max)) as (q & Hq & Hfit). unfold fit. rewrite Hq. cbn [mbind option_bind].
  destruct (fitted_fewer _ _ _ Hfit) as [Hb _]. destruct Hfit as [_ Hcan Hw _]. eexists _, _. split_and!; [done|done|lia|done].
Qed.

(** ** Properties *)

(** C6: The derived trigram query is necessary.  Whatever the regex and the
    limits, the derivation returns a canonical tree of at most the limit's
    keys, and every text in which the regex matches anywhere satisfies it: an
    index that reads only the documents the tree admits drops no match. *)
Theorem derived_trigrams_necessary {R : Type} `{HirLaws R} (limits : Limits) (fuel : nat) (hir : R) (tr : Trims)
    (Hset : 0 < l_set limits) (Hfuel : hir_size hir < fuel) :
  exists tree tr', derive limits fuel hir tr = Some (tree, tr') /\ canonical tree = true /\
    (N.of_nat (length (keys tree)) <= l_keys limits)%N /\
    forall w text, lang hir w -> infix w text -> holds (text_trigram text) tree = true.
Proof.
  destruct (finish_sound (Q := Trigrams) limits Hset fuel hir tr Hfuel) as (info & tr1 & E & Hs & Hh).
  destruct (cap_keys_spec (finish info) (l_keys limits) tr1 Hs) as (tree & tr2 & E2 & Hc & Hk & Hw).
  exists tree, tr2. unfold derive. rewrite E. cbn [mbind option_bind]. split_and!; [done..|].
  intros w text Hl Hi. apply Hw. specialize (Hh w text Hl Hi). cbn in Hh. unfold text_trigram in Hh. by rewrite fold_idem in Hh.
Qed.

(** Both queries [compile] keeps are necessary, the uncapped one a
    planner ranks and the capped one, and so is the required-literals tree:
    the fold is one definition over two kinds of fact. *)
Theorem compiled_queries_necessary {R : Type} `{HirLaws R} (fuel : nat) (hir : R) (frequencies : gmap trigram u64)
    (Hfuel : hir_size hir < fuel) :
  exists planning trigrams fitted_ literals,
    compile_trigrams fuel hir = Some (planning, trigrams) /\ length (keys trigrams) <= 64 /\
    fit_by_frequency frequencies planning = Some fitted_ /\ length (keys fitted_) <= 64 /\
    required_literals fuel hir = Some literals /\
    forall w text, lang hir w -> infix w text ->
      Forall (fun t => holds (text_trigram text) t = true) [planning; trigrams; fitted_] /\
      holds (fun s => occurs s (fold_bytes text)) literals = true.
Proof.
  set (limits := mkLimits 4 7 4 20 18446744073709551615 2).
  destruct (finish_sound (Q := Trigrams) limits ltac:(cbn; lia) fuel hir no_trims Hfuel) as (info & tr1 & E & Hs & Hh).
  destruct (cap_keys_spec (finish info) (l_keys limits) tr1 Hs) as (planning & tr2 & E2 & Hc & _ & Hw).
  destruct (cap_keys_spec planning (l_keys LIMITS) no_trims Hc) as (trigrams & tr3 & E3 & _ & Hk & Hw3).
  destruct (finish_sound (Q := RequiredLiterals) (mkLimits 4 7 32 20 64 31) ltac:(cbn; lia) fuel hir no_trims Hfuel) as (linfo & tr4 & E4 & _ & Hh4).
  destruct (fit_by_frequency_spec frequencies planning Hc) as (f & Hf & _ & Hfk & _ & Hfw).
  exists planning, trigrams, f, (finish linfo). unfold compile_trigrams, required_literals, derive. fold limits.
  rewrite E. cbn [mbind option_bind]. rewrite E2. cbn [mbind option_bind]. rewrite E3. cbn [mbind option_bind]. rewrite E4. cbn [mbind option_bind].
  split_and!; [done|unfold LIMITS in Hk; cbn in Hk; lia|done|done|done|].
  intros w text Hl Hi. specialize (Hh w text Hl Hi). cbn in Hh. unfold text_trigram in Hh. rewrite fold_idem in Hh.
  split; [|exact (Hh4 w text Hl Hi)]. specialize (Hw _ Hh). repeat constructor; auto.
Qed.

(** ** An instance

    A regex as a tree of the crate's kinds, with the strings it matches. *)
#[warnings="-register-all"]
Inductive sample :=
| SEmpty | SLiteral (l : bytes) | SClass (c : Class_) | SLook | SRepetition (min : u32) (max : option u32) (sub : sample)
| SCapture (sub : sample) | SConcat (parts : list sample) | SAlternation (parts : list sample).

#[export] Instance sample_hir : Hir sample := fun s =>
  match s with
  | SEmpty => HEmpty | SLiteral l => HLiteral l | SClass c => HClass c | SLook => HLook
  | SRepetition min max sub => HRepetition min max sub | SCapture sub => HCapture sub
  | SConcat parts => HConcat parts | SAlternation parts => HAlternation parts
  end.

#[warnings="-register-all"]
Inductive sample_lang : sample -> bytes -> Prop :=
| sl_empty : sample_lang SEmpty []
| sl_look : sample_lang SLook []
| sl_literal l : sample_lang (SLiteral l) l
| sl_class c w : class_matches c w -> sample_lang (SClass c) w
| sl_repetition min max sub ws :
    Forall (sample_lang sub) ws -> (min <= N.of_nat (length ws))%N ->
    match max with Some m => (N.of_nat (length ws) <= m)%N | None => True end ->
    sample_lang (SRepetition min max sub) (concat ws)
| sl_capture sub w : sample_lang sub w -> sample_lang (SCapture sub) w
| sl_concat parts ws : Forall2 sample_lang parts ws -> sample_lang (SConcat parts) (concat ws)
| sl_alternation part parts w : part ∈ parts -> sample_lang part w -> sample_lang (SAlternation parts) w.

Fixpoint sample_size (s : sample) : nat :=
  match s with
  | SRepetition _ _ sub | SCapture sub => S (sample_size sub)
  | SConcat parts | SAlternation parts => S (list_sum (map sample_size parts))
  | _ => 0
  end.

Lemma sample_part_size part parts : part ∈ parts -> sample_size part < S (list_sum (map sample_size parts)).
Proof.
  induction parts as [|p parts IH]; [by intros ?%elem_of_nil|].
  change (list_sum (map sample_size (p :: parts))) with (sample_size p + list_sum (map sample_size parts)).
  intros [->|Hp]%elem_of_cons; [lia|]. specialize (IH Hp). lia.
Qed.

#[export] Instance sample_laws : HirLaws sample.
Proof.
  refine {| lang := sample_lang; hir_size := sample_size |}.
  - intros h w Hw. destruct Hw; cbn; eauto.
  - intros h part. destruct h; cbn; try (by intros ?%elem_of_nil); try apply sample_part_size; intros ->%list_elem_of_singleton; lia.
Defined.

(** The course's cases: [Search], [ab[cd]e], [a*] and [ab?cef]. *)
Definition str (s : string) : sample := SLiteral (ascii_bytes s).
Definition k3 (s : string) : Trigrams := match ascii_bytes s with [a; b; c] => Key (a, b, c) | _ => None_ end.
Definition derived (s : sample) : option Trigrams := '(t, _) ← derive LIMITS 20 s no_trims; Some t.

Example derive_literal : derived (str "Search") = Some (and_ [k3 "sea"; k3 "ear"; k3 "arc"; k3 "rch"]).
Proof. vm_compute. reflexivity. Qed.
Example derive_class :
  derived (SConcat [str "ab"; SClass (CUnicode [(99, 100)%N]); str "e"]) =
    Some (or_ [and_ [k3 "abc"; k3 "bce"]; and_ [k3 "abd"; k3 "bde"]]).
Proof. vm_compute. reflexivity. Qed.
Example derive_star : derived (SRepetition 0 None (str "a")) = Some All.
Proof. vm_compute. reflexivity. Qed.
Example derive_optional :
  derived (SConcat [str "a"; SRepetition 0 (Some 1%N) (str "b"); str "cef"]) =
    Some (or_ [and_ [k3 "ace"; k3 "cef"]; and_ [k3 "abc"; k3 "bce"; k3 "cef"]]).
Proof. vm_compute. reflexivity. Qed.

(** [[A-Z_]+Error] on a text that holds [MY_ERROR]. *)
Definition sample_regex : sample :=
  SConcat [SRepetition 1 None (SClass (CUnicode [(65, 90)%N; (95, 95)%N])); str "Error"].

Lemma sample_regex_matches : lang sample_regex (ascii_bytes "MY_Error").
Proof.
  change (ascii_bytes "MY_Error") with (concat [ascii_bytes "MY_"; ascii_bytes "Error"]). constructor.
  constructor; [|constructor; [constructor|constructor]].
  change (ascii_bytes "MY_") with (concat [[77]; [89]; [95]]%N). constructor; [|cbn; lia|done].
  repeat constructor; cbn.
  - exists (65, 90)%N, 77%N. split_and!; [left|cbn; lia..|done|done].
  - exists (65, 90)%N, 89%N. split_and!; [left|cbn; lia..|done|done].
  - exists (95, 95)%N, 95%N. split_and!; [right; left|cbn; lia..|done|done].
Qed.

Lemma derived_trigrams_necessary_witness :
  derived sample_regex = Some (and_ [k3 "err"; k3 "rro"; k3 "ror"]) /\
  exists tree tr', derive LIMITS 20 sample_regex no_trims = Some (tree, tr') /\ canonical tree = true /\
    (N.of_nat (length (keys tree)) <= 64)%N /\
    forall w text, lang sample_regex w -> infix w text -> holds (text_trigram text) tree = true.
Proof.
  split; [vm_compute; reflexivity|].
  exact (derived_trigrams_necessary LIMITS 20 sample_regex no_trims ltac:(apply Nat.ltb_lt; reflexivity) ltac:(apply Nat.ltb_lt; reflexivity)).
Defined.

Lemma compiled_queries_necessary_witness :
  lang sample_regex (ascii_bytes "MY_Error") /\
  exists planning trigrams fitted_ literals,
    compile_trigrams 20 sample_regex = Some (planning, trigrams) /\ length (keys trigrams) <= 64 /\
    fit_by_frequency ∅ planning = Some fitted_ /\ length (keys fitted_) <= 64 /\
    required_literals 20 sample_regex = Some literals /\
    forall w text, lang sample_regex w -> infix w text ->
      Forall (fun t => holds (text_trigram text) t = true) [planning; trigrams; fitted_] /\
      holds (fun s => occurs s (fold_bytes text)) literals = true.
Proof.
  split; [exact sample_regex_matches|]. exact (compiled_queries_necessary 20 sample_regex ∅ ltac:(apply Nat.ltb_lt; reflexivity)).
Defined.
