(* ===== verification/Scan.v ===== *)
(** * Scan: substring search with ASCII case folding

    Models [crates/ferret-verify/src/scan.rs]: a [Finder] tests two rare bytes
    of its needle at every start, eight starts at a time in a [u64] (the SWAR
    arm) or 64 and 32 at a time in AVX2 vectors, and compares the whole needle
    only where both agree.

    Reading outside the haystack is [None]: a panic of a slice, and in the
    AVX2 arm, whose loads are [unsafe], undefined behaviour.  A vector is the
    list of its 32 bytes, and the intrinsics act on it byte by byte.  The loops
    run on fuel that [find_from] sets to the haystack's length plus one. *)
From S2P Require Import Prelude Word Bytes.

(** [Arm]. *)
Inductive Arm := Swar | Avx2.

#[export] Instance Arm_eq_dec : EqDecision Arm.
Proof. solve_decision. Defined.

(** [Pair]: its arrays have the two probes in order. *)
Record Pair := mkPair { pair_at : nat * nat; pair_byte : u8 * u8; pair_mask : u8 * u8 }.

Record Finder := mkFinder { needle : bytes; folds : bool; pair : Pair; arm : Arm }.

(** [LETTERS] and [rank]. *)
Definition LETTERS : bytes := ascii_bytes "etaoinsrhldcumfpgwybvkxjqz".

Definition rank (byte : u8) (fold : bool) : u8 :=
  match list_find (fun l => l = to_ascii_lowercase byte) LETTERS with
  | Some (i, _) => if in_range 97 122 byte || fold then (200 - N.of_nat i)%N else (100 - N.of_nat i)%N
  | None =>
      if (byte =? 46)%N then 220%N
      else if in_range 48 57 byte then 150%N
      else if (byte =? 95)%N || (byte =? 45)%N then 140%N
      else 10%N
  end.

(** [iter.min_by_key(key)]: the first of the least. *)
Fixpoint min_by_key (key : nat -> N) (l : list nat) : option nat :=
  match l with
  | [] => None
  | i :: l =>
      match min_by_key key l with
      | Some j => if (key j <? key i)%N then Some j else Some i
      | None => Some i
      end
  end.

(** [needle[i]] of an index below the length. *)
Definition byte_at (l : bytes) (i : nat) : u8 := default 0%N (l !! i).

(** [Pair::choose]. *)
Definition probe_of (needle : bytes) (fold : bool) (i : nat) : u8 * u8 :=
  let byte := byte_at needle i in
  let mask := if fold && is_ascii_alphabetic byte then 32%N else 0%N in
  (N.lor byte mask, mask).

Definition choose (needle : bytes) (fold : bool) : Pair :=
  let rank i := rank (byte_at needle i) fold in
  let first := default 0 (min_by_key rank (seq 0 (length needle))) in
  let second := default first (min_by_key rank
    (filter (fun i => byte_at needle i <> byte_at needle first) (seq 0 (length needle)))) in
  let '(b0, m0) := probe_of needle fold first in
  let '(b1, m1) := probe_of needle fold second in
  mkPair (first, second) (b0, b1) (m0, m1).

(** [Arm::is_available], [available] being the CPU's AVX2. *)
Definition is_available (available : bool) (a : Arm) : bool :=
  match a with Swar => true | Avx2 => available end.

(** [Arm::best]. *)
Definition best_arm (available : bool) : Arm := if is_available available Avx2 then Avx2 else Swar.

(** [Finder::with_arm] (its assertion is the [None]) and [Finder::new]. *)
Definition build (needle : bytes) (fold : bool) (a : Arm) : Finder :=
  let needle := if fold then to_ascii_lowercase <$> needle else needle in
  mkFinder needle fold (choose needle fold) a.

Definition with_arm (available : bool) (needle : bytes) (fold : bool) (a : Arm) : option Finder :=
  if is_available available a then Some (build needle fold a) else None.

Definition finder_new (available : bool) (needle : bytes) (fold : bool) : option Finder :=
  with_arm available needle fold (best_arm available).

(** [Finder::matches_at]. *)
Definition matches_at (f : Finder) (hay : bytes) (start : nat) : option bool :=
  window ← sub_bytes hay start (start + length (needle f));
  Some (if folds f then eq_ignore_ascii_case window (needle f) else bool_decide (window = needle f)).

(** The first candidate, in the order given, that matches. *)
Fixpoint first_match (f : Finder) (hay : bytes) (candidates : list nat) : option (option nat) :=
  match candidates with
  | [] => Some None
  | s :: candidates =>
      ok ← matches_at f hay s;
      if (ok : bool) then Some (Some s) else first_match f hay candidates
  end.

(** ** The SWAR arm *)

Definition LOW7 : u64 := 9187201950435737471%N.

(** [u64::from_ne_bytes([b; 8])]. *)
Definition splat (b : u8) : u64 := le_num (replicate 8 b).

(** [u64::from_le_bytes(hay[at..at + 8])]. *)
Definition word (hay : bytes) (at_ : nat) : option u64 := u64_at hay at_.

(** A byte of [x] is zero exactly where both probes agree. *)
Definition disagree (p : Pair) (w0 w1 : u64) : u64 :=
  N.lor (N.lxor (N.lor w0 (splat (pair_mask p).1)) (splat (pair_byte p).1))
        (N.lxor (N.lor w1 (splat (pair_mask p).2)) (splat (pair_byte p).2)).

Definition zero_bytes (x : u64) : u64 :=
  u64_not (N.lor (N.lor (N.land x LOW7 + LOW7) x) LOW7).

(** [(0..2).all(|k| hay[s + pair.at[k]] | pair.mask[k] == pair.byte[k])]. *)
Definition probes_agree (p : Pair) (hay : bytes) (s : nat) : option bool :=
  h0 ← hay !! (s + (pair_at p).1);
  if (N.lor h0 (pair_mask p).1 =? (pair_byte p).1)%N then
    h1 ← hay !! (s + (pair_at p).2);
    Some (N.lor h1 (pair_mask p).2 =? (pair_byte p).2)%N
  else Some false.

(** The last starts, one by one. *)
Fixpoint swar_tail (f : Finder) (hay : bytes) (starts : list nat) : option (option nat) :=
  match starts with
  | [] => Some None
  | s :: starts =>
      agree ← probes_agree (pair f) hay s;
      ok ← (if (agree : bool) then matches_at f hay s else Some false);
      if (ok : bool) then Some (Some s) else swar_tail f hay starts
  end.

(** [swar]'s loop from [start]; [last] is the last start the needle fits at. *)
Fixpoint swar_loop (fuel : nat) (f : Finder) (hay : bytes) (last start : nat) : option (option nat) :=
  match fuel with
  | 0 => None
  | S fuel =>
      if start + 7 <=? last then
        w0 ← word hay (start + (pair_at (pair f)).1);
        w1 ← word hay (start + (pair_at (pair f)).2);
        let zeros := zero_bytes (disagree (pair f) w0 w1) in
        found ← first_match f hay ((fun bit => start + N.to_nat bit / 8) <$> scan_bits 64 zeros);
        match found with
        | Some s => Some (Some s)
        | None => swar_loop fuel f hay last (start + 8)
        end
      else swar_tail f hay (seq start (S last - start))
  end.

Definition swar (fuel : nat) (f : Finder) (hay : bytes) (from : nat) : option (option nat) :=
  swar_loop fuel f hay (length hay - length (needle f)) from.

(** ** The AVX2 arm *)

Abbreviation m256i := (list u8) (only parsing).

(** [_mm256_set1_epi8], [_mm256_loadu_si256], [_mm256_or_si256],
    [_mm256_and_si256], [_mm256_cmpeq_epi8], [_mm256_testz_si256] and
    [_mm256_movemask_epi8]. *)
Definition set1_epi8 (b : u8) : m256i := replicate 32 b.
Definition loadu_si256 (hay : bytes) (at_ : nat) : option m256i := sub_bytes hay at_ (at_ + 32).
Definition or_si256 (a b : m256i) : m256i := zip_with N.lor a b.
Definition and_si256 (a b : m256i) : m256i := zip_with N.land a b.
Definition cmpeq_epi8 (a b : m256i) : m256i := zip_with (fun x y => if (x =? y)%N then 255%N else 0%N) a b.
Definition testz_si256 (a b : m256i) : bool := forallb (fun x => x =? 0)%N (and_si256 a b).
Fixpoint movemask_epi8 (v : m256i) : u32 :=
  match v with
  | [] => 0%N
  | x :: v => (N.b2n (N.testbit x 7) + 2 * movemask_epi8 v)%N
  end.

(** [scan]'s [block]: [fold] is its const parameter [FOLD]. *)
Definition probe_block (fold : bool) (hay : bytes) (at_ : nat) (m b : u8) : option m256i :=
  bytes ← loadu_si256 hay at_;
  let bytes := if fold then or_si256 bytes (set1_epi8 m) else bytes in
  Some (cmpeq_epi8 bytes (set1_epi8 b)).

Definition block (fold : bool) (f : Finder) (hay : bytes) (at_ : nat) : option m256i :=
  p0 ← probe_block fold hay (at_ + (pair_at (pair f)).1) (pair_mask (pair f)).1 (pair_byte (pair f)).1;
  p1 ← probe_block fold hay (at_ + (pair_at (pair f)).2) (pair_mask (pair f)).2 (pair_byte (pair f)).2;
  Some (and_si256 p0 p1).

(** [scan]'s [verify]. *)
Definition verify (f : Finder) (hay : bytes) (at_ : nat) (v : m256i) : option (option nat) :=
  first_match f hay ((fun bit => at_ + N.to_nat bit) <$> scan_bits 32 (movemask_epi8 v)).

(** [a.or_else(|| b)]. *)
Definition or_else (a : option (option nat)) (b : option (option nat)) : option (option nat) :=
  found ← a;
  match found with Some s => Some (Some s) | None => b end.

(** [scan]'s two loops: the match, or where the SWAR arm takes over. *)
Fixpoint scan_32 (fuel : nat) (fold : bool) (f : Finder) (hay : bytes) (last start : nat)
    : option (option nat * nat) :=
  match fuel with
  | 0 => None
  | S fuel =>
      if start + 31 <=? last then
        v ← block fold f hay start;
        found ← verify f hay start v;
        match found with
        | Some s => Some (Some s, start)
        | None => scan_32 fuel fold f hay last (start + 32)
        end
      else Some (None, start)
  end.

Fixpoint scan_64 (fuel : nat) (fold : bool) (f : Finder) (hay : bytes) (last start : nat)
    : option (option nat * nat) :=
  match fuel with
  | 0 => None
  | S fuel =>
      if start + 63 <=? last then
        lo ← block fold f hay start;
        hi ← block fold f hay (start + 32);
        let any := or_si256 lo hi in
        found ← (if testz_si256 any any then Some None
                 else or_else (verify f hay start lo) (verify f hay (start + 32) hi));
        match found with
        | Some s => Some (Some s, start)
        | None => scan_64 fuel fold f hay last (start + 64)
        end
      else scan_32 (S fuel) fold f hay last start
  end.

(** [avx2::find]. *)
Definition avx2_find (fuel : nat) (f : Finder) (hay : bytes) (from : nat) : option (option nat) :=
  let fold := negb (bool_decide (pair_mask (pair f) = (0%N, 0%N))) in
  '(found, next) ← scan_64 fuel fold f hay (length hay - length (needle f)) from;
  or_else (Some found) (swar fuel f hay next).

(** [Finder::find_from] and [Finder::is_match]. *)
Definition find_from (f : Finder) (hay : bytes) (from : nat) : option (option nat) :=
  if is_empty (needle f) then Some (if from <=? length hay then Some from else None)
  else if length hay <? length (needle f) then Some None
  else
    let last := length hay - length (needle f) in
    if last <? from then Some None
    else
      match arm f with
      | Avx2 => avx2_find (S (length hay)) f hay from
      | Swar => swar (S (length hay)) f hay from
      end.

Definition is_match (f : Finder) (hay : bytes) : option bool :=
  (fun found => match found with Some _ => true | None => false end) <$> find_from f hay 0.

(** ** Bytes of a word *)

Lemma le_num_testbit l i j :
  bytes_ok l -> (j < 8)%N -> N.testbit (le_num l) (8 * N.of_nat i + j) = N.testbit (default 0%N (l !! i)) j.
Proof.
  intros Hl Hj. revert i. induction Hl as [|b l Hb Hl IH]; intros i; [by rewrite lookup_nil, !N.bits_0|].
  unfold byte_ok in Hb. cbn [le_num]. destruct i as [|i]; cbn [lookup list_lookup].
  - rewrite N.mul_0_r, N.add_0_l. rewrite <- (N.mod_pow2_bits_low _ 8) by done. change (2 ^ 8)%N with 256%N.
    rewrite (N.mul_comm 256), N.Div0.mod_add, N.mod_small by done. done.
  - replace (8 * N.of_nat (S i) + j)%N with (8 * N.of_nat i + j + 8)%N by lia.
    rewrite <- N.div_pow2_bits. change (2 ^ 8)%N with 256%N.
    rewrite (N.mul_comm 256), N.div_add, N.div_small, N.add_0_l by done. apply IH.
Qed.

Lemma word_index k : k = (8 * N.of_nat (N.to_nat (k / 8)) + k mod 8)%N.
Proof. rewrite N2Nat.id. apply N.div_mod'. Qed.

Lemma byte_bits a : (forall i, (8 <= i)%N -> N.testbit a i = false) -> byte_ok a.
Proof. apply lt_pow2_bits. Qed.

(** Words with the same bytes. *)
Lemma le_num_bits l n :
  bytes_ok l -> (forall i j, (j < 8)%N -> N.testbit n (8 * N.of_nat i + j) = N.testbit (default 0%N (l !! i)) j) ->
  n = le_num l.
Proof.
  intros Hl H. apply N.bits_inj. intros k. rewrite (word_index k).
  pose proof (N.mod_lt k 8 ltac:(done)). by rewrite H, le_num_testbit.
Qed.

(** A bitwise operation acts byte by byte. *)
Section bitwise.
Context (op : N -> N -> N) (opb : bool -> bool -> bool).
Hypothesis (Hop : forall a b i, N.testbit (op a b) i = opb (N.testbit a i) (N.testbit b i)) (H0 : opb false false = false).

Lemma op_byte_ok a b : byte_ok a -> byte_ok b -> byte_ok (op a b).
Proof. intros Ha Hb. apply byte_bits. intros i Hi. by rewrite Hop, (bits_above a 8), (bits_above b 8). Qed.

Lemma zip_bytes_ok a b : bytes_ok a -> bytes_ok b -> bytes_ok (zip_with op a b).
Proof.
  intros Ha. revert b. induction Ha as [|x a Hx _ IH]; intros [|y b] Hb; cbn; constructor.
  - inversion Hb; subst. by apply op_byte_ok.
  - inversion Hb; subst. by apply IH.
Qed.

Lemma le_num_op a b :
  bytes_ok a -> bytes_ok b -> length a = length b -> op (le_num a) (le_num b) = le_num (zip_with op a b).
Proof.
  intros Ha Hb Hlen. apply le_num_bits; [by apply zip_bytes_ok|]. intros i j Hj.
  rewrite Hop, !le_num_testbit, lookup_zip_with by done.
  destruct (a !! i) as [x|] eqn:Hx.
  - destruct (lookup_lt_is_Some_2 b i) as [y Hy]; [rewrite <- Hlen; by eapply lookup_lt_Some|].
    rewrite Hy. cbn. by rewrite Hop.
  - assert (b !! i = None) as -> by (apply lookup_ge_None; apply lookup_ge_None in Hx; lia).
    cbn. by rewrite H0.
Qed.
End bitwise.

Definition lor_bytes := le_num_op N.lor orb N.lor_spec eq_refl.
Definition lxor_bytes := le_num_op N.lxor xorb N.lxor_spec eq_refl.
Definition land_bytes := le_num_op N.land andb N.land_spec eq_refl.

Lemma add_bytes a b : length a = length b -> (le_num a + le_num b)%N = le_num (zip_with N.add a b).
Proof.
  revert b. induction a as [|x a IH]; intros [|y b] H; try done. injection H as H. cbn [le_num zip_with].
  rewrite <- (IH b H). lia.
Qed.

Lemma replicate_ok n b : byte_ok b -> bytes_ok (replicate n b).
Proof. intros H. induction n; by constructor. Qed.

Lemma zip_replicate {A B C} (f : A -> B -> C) (l : list A) b n : length l = n -> zip_with f l (replicate n b) = (fun x => f x b) <$> l.
Proof. intros <-. induction l as [|x l IH]; [done|]. cbn. by rewrite IH. Qed.

Lemma zip_self {A B C} (f : B -> A -> C) (g : A -> B) (l : list A) : zip_with f (g <$> l) l = (fun x => f (g x) x) <$> l.
Proof. induction l as [|x l IH]; [done|]. cbn. by rewrite IH. Qed.

(** ** The zero-byte test *)

(** What [zero_bytes] makes of one byte. *)
Definition zero_byte (x : u8) : u8 := if (x =? 0)%N then 128%N else 0%N.

Lemma zero_byte_exact x :
  byte_ok x -> N.lxor (N.lor (N.lor (N.land x 127 + 127) x) 127) 255 = zero_byte x /\ byte_ok (N.lor (N.lor (N.land x 127 + 127) x) 127)
  /\ byte_ok (N.land x 127 + 127).
Proof.
  intros Hx. unfold byte_ok in *.
  assert (H : forallb (fun x => (N.lxor (N.lor (N.lor (N.land x 127 + 127) x) 127) 255 =? zero_byte x)%N &&
    (N.lor (N.lor (N.land x 127 + 127) x) 127 <? 256)%N && (N.land x 127 + 127 <? 256)%N) (N.of_nat <$> seq 0 256) = true) by (by vm_compute).
  rewrite forallb_forall in H. specialize (H x). rewrite !andb_true_iff, N.eqb_eq, !N.ltb_lt in H.
  destruct H as [[? ?] ?]; [|done]. apply list_elem_of_In, list_elem_of_fmap. exists (N.to_nat x). split; [lia|].
  apply elem_of_seq. lia.
Qed.

(** No borrow or carry crosses a byte: the word test is the byte test, eight
    times. *)
Lemma zero_bytes_exact xs : bytes_ok xs -> length xs = 8 -> zero_bytes (le_num xs) = le_num (zero_byte <$> xs).
Proof.
  intros Hxs Hlen. unfold zero_bytes, u64_not.
  change LOW7 with (le_num (replicate 8 127%N)). change u64_max with (le_num (replicate 8 255%N)).
  assert (H127 : bytes_ok (replicate 8 127%N)) by (by apply replicate_ok).
  assert (Hok : forall g : u8 -> u8, (forall x, byte_ok x -> byte_ok (g x)) -> bytes_ok (g <$> xs)).
  { intros g Hg. apply Forall_fmap. eapply Forall_impl; [exact Hxs|done]. }
  rewrite land_bytes by (try done; by rewrite length_replicate). rewrite zip_replicate by done.
  rewrite add_bytes by (by rewrite length_fmap, length_replicate). rewrite zip_replicate by (by rewrite length_fmap).
  rewrite <- list_fmap_compose.
  assert (Hadd : bytes_ok ((fun x => x + 127)%N ∘ (fun x => N.land x 127) <$> xs))
    by (apply Hok; intros x Hx; by apply zero_byte_exact).
  rewrite lor_bytes by (try done; by rewrite length_fmap).
  rewrite zip_self. cbn [compose].
  rewrite lor_bytes; [|apply Hok; intros x Hx; apply op_byte_ok with orb; [apply N.lor_spec|done|by apply zero_byte_exact|done]|done
    |by rewrite length_fmap, length_replicate].
  rewrite zip_replicate by (by rewrite length_fmap). rewrite <- list_fmap_compose.
  rewrite lxor_bytes; [|apply Hok; intros x Hx; by apply zero_byte_exact|by apply replicate_ok|by rewrite length_fmap, length_replicate].
  rewrite zip_replicate by (by rewrite length_fmap). rewrite <- list_fmap_compose. f_equal.
  apply list_fmap_ext. intros i x Hx. apply zero_byte_exact. exact (Forall_lookup_1 _ _ _ _ Hxs Hx).
Qed.

(** ** Candidates of a block *)

(** [cands] are the starts among the [n] from [start] where [agree] holds, in
    order. *)
Definition candidates_of (agree : nat -> Prop) (start n : nat) (cands : list nat) : Prop :=
  StronglySorted le cands /\ forall s, s ∈ cands <-> start <= s < start + n /\ agree s.

Lemma sorted_fmap (g : N -> nat) l :
  (forall a b, (a < b)%N -> g a <= g b) -> StronglySorted N.lt l -> StronglySorted le (g <$> l).
Proof.
  intros Hg. induction 1 as [|x l Hs IH Hx]; cbn; constructor; [done|].
  apply Forall_fmap. eapply Forall_impl; [exact Hx|]. intros y ?. by apply Hg.
Qed.

Lemma scan_word_candidates start xs (agree : nat -> Prop) :
  bytes_ok xs -> length xs = 8 -> (forall i x, xs !! i = Some x -> x = 0%N <-> agree (start + i)) ->
  candidates_of agree start 8 ((fun bit => start + N.to_nat bit / 8) <$> scan_bits 64 (zero_bytes (le_num xs))).
Proof.
  intros Hxs Hlen Hag. rewrite zero_bytes_exact by done.
  assert (Hz : bytes_ok (zero_byte <$> xs)).
  { apply Forall_fmap, Forall_forall. intros x _. unfold zero_byte, compose, byte_ok. by case_match. }
  assert (Hlt : (le_num (zero_byte <$> xs) < 2 ^ 64)%N).
  { pose proof (le_num_lt _ Hz) as H. rewrite length_fmap, Hlen in H. exact H. }
  split; [apply sorted_fmap, scan_ascending; [|done]; intros a b ?; apply Nat.add_le_mono_l, Nat.Div0.div_le_mono; lia|].
  intros s. rewrite list_elem_of_fmap, scan_bits_64 by done. setoid_rewrite elem_of_set_bits.
  assert (Hbit : forall i j, (j < 8)%N -> N.testbit (le_num (zero_byte <$> xs)) (8 * N.of_nat i + j) = true <->
    j = 7%N /\ xs !! i = Some 0%N).
  { intros i j Hj. rewrite le_num_testbit, list_lookup_fmap by done. destruct (xs !! i) as [x|]; [|cbn; by naive_solver].
    cbn. unfold zero_byte. destruct (N.eqb_spec x 0) as [->|Hx]; [|rewrite N.bits_0; naive_solver].
    assert (H8 : j = 0%N \/ j = 1%N \/ j = 2%N \/ j = 3%N \/ j = 4%N \/ j = 5%N \/ j = 6%N \/ j = 7%N) by lia.
    destruct H8 as [->|[->|[->|[->|[->|[->|[->| ->]]]]]]]; cbn; naive_solver. }
  split.
  - intros (k & -> & Hk & Ht). rewrite (word_index k) in Ht. apply Hbit in Ht as [Hm Hx]; [|by apply N.mod_lt].
    replace (N.to_nat k / 8) with (N.to_nat (k / 8)) by (by rewrite N2Nat.inj_div). split; [|by apply Hag in Hx; apply Hx].
    assert (k / 8 < 8)%N as Hq by (apply N.Div0.div_lt_upper_bound; clear -Hk; lia).
    revert Hq. generalize (k / 8)%N. clear. lia.
  - intros [Hs Ha]. destruct (lookup_lt_is_Some_2 xs (s - start)) as [x Hx]; [lia|].
    replace s with (start + (s - start)) in Ha by lia. apply (Hag _ _ Hx) in Ha as ->.
    exists (8 * N.of_nat (s - start) + 7)%N. split; [|split; [lia|by apply Hbit]].
    replace (N.to_nat (8 * N.of_nat (s - start) + 7)) with (7 + (s - start) * 8) by lia.
    rewrite Nat.div_add by done. change (7 / 8) with 0. lia.
Qed.

(** The vector's mask, likewise. *)
Lemma movemask_testbit v i : N.testbit (movemask_epi8 v) (N.of_nat i) = N.testbit (default 0%N (v !! i)) 7.
Proof.
  revert i. induction v as [|x v IH]; intros i; [by rewrite lookup_nil, !N.bits_0|]. cbn [movemask_epi8].
  rewrite N.add_comm. destruct i as [|i]; cbn [lookup list_lookup].
  - by rewrite N.testbit_0_r.
  - rewrite Nat2N.inj_succ, N.testbit_succ_r. apply IH.
Qed.

Lemma scan_mask_candidates start v (agree : nat -> Prop) :
  length v = 32 -> (forall i x, v !! i = Some x -> N.testbit x 7 = true <-> agree (start + i)) ->
  candidates_of agree start 32 ((fun bit => start + N.to_nat bit) <$> scan_bits 32 (movemask_epi8 v)).
Proof.
  intros Hlen Hag.
  assert (Hlt : (movemask_epi8 v < 2 ^ N.of_nat 32)%N).
  { apply lt_pow2_bits. intros i Hi. rewrite <- (N2Nat.id i), movemask_testbit.
    rewrite lookup_ge_None_2 by lia. apply N.bits_0. }
  rewrite (scan_bits_spec 32 32) by (done || apply length_set_bits). split.
  - apply sorted_fmap; [intros; lia|]. apply ascending_filter, ascending_seq.
  - intros s. rewrite list_elem_of_fmap. setoid_rewrite elem_of_set_bits. split.
    + intros (k & -> & Hk & Ht). rewrite <- (N2Nat.id k), movemask_testbit in Ht.
      destruct (lookup_lt_is_Some_2 v (N.to_nat k)) as [x Hx]; [lia|]. rewrite Hx in Ht.
      split; [lia|by apply (Hag _ _ Hx)].
    + intros [Hs Ha]. exists (N.of_nat (s - start)). rewrite movemask_testbit.
      destruct (lookup_lt_is_Some_2 v (s - start)) as [x Hx]; [lia|].
      replace s with (start + (s - start)) in Ha by lia. rewrite Hx. split; [lia|]. split; [lia|by apply (Hag _ _ Hx)].
Qed.

(** ** The filter is exact *)

(** [r] is the first start from [from] on where [M] holds. *)
Definition first_at (M : nat -> Prop) (from : nat) (r : option nat) : Prop :=
  match r with
  | Some s => M s /\ from <= s /\ forall e, M e -> from <= e -> s <= e
  | None => forall e, M e -> e < from
  end.

Lemma first_at_skip M from from' r :
  from <= from' -> (forall e, M e -> from <= e -> from' <= e) -> first_at M from' r -> first_at M from r.
Proof.
  intros Hle Hskip. destruct r as [s|]; cbn.
  - intros (Hs & Hf & Hmin). split_and!; [done|lia|]. intros e He Hfe. by apply Hmin; [|apply Hskip].
  - intros Hno e He. destruct (Nat.lt_ge_cases e from) as [|Hge]; [done|].
    specialize (Hskip e He Hge). specialize (Hno e He). lia.
Qed.

(** What [with_arm] builds, for a needle that is not empty. *)
Record finder_ok (f : Finder) : Prop := {
  ok_needle : bytes_ok (needle f);
  ok_at : (pair_at (pair f)).1 < length (needle f) /\ (pair_at (pair f)).2 < length (needle f);
  ok_first : ((pair_byte (pair f)).1, (pair_mask (pair f)).1) = probe_of (needle f) (folds f) (pair_at (pair f)).1;
  ok_second : ((pair_byte (pair f)).2, (pair_mask (pair f)).2) = probe_of (needle f) (folds f) (pair_at (pair f)).2;
  ok_lower : folds f = true -> to_ascii_lowercase <$> needle f = needle f }.

Lemma min_by_key_in key l i : min_by_key key l = Some i -> i ∈ l.
Proof.
  revert i. induction l as [|x l IH]; intros i; [done|]. cbn.
  destruct (min_by_key key l) as [j|]; [|intros [= <-]; by left]. specialize (IH j eq_refl).
  case_match; intros [= <-]; [by right|by left].
Qed.

Lemma lower_byte_ok b : byte_ok b -> byte_ok (to_ascii_lowercase b).
Proof.
  unfold byte_ok, to_ascii_lowercase, in_range. intros H.
  destruct (N.leb_spec 65 b), (N.leb_spec b 90); cbn; lia.
Qed.

Lemma with_arm_ok available n fold a f :
  with_arm available n fold a = Some f -> bytes_ok n -> n <> [] ->
  finder_ok f /\ needle f = (if fold then to_ascii_lowercase <$> n else n) /\ folds f = fold.
Proof.
  unfold with_arm. case_match; [|done]. intros [= <-] Hn Hne. unfold build. cbn zeta.
  set (n' := if fold then to_ascii_lowercase <$> n else n).
  assert (Hlen : length n' = length n) by (unfold n'; destruct fold; [apply length_fmap|done]).
  assert (Hok : bytes_ok n').
  { unfold n'. destruct fold; [|done]. apply Forall_fmap. eapply Forall_impl; [exact Hn|]. apply lower_byte_ok. }
  split; [|done]. unfold choose. cbn zeta.
  set (first := default 0 _). set (second := default first _).
  assert (H0 : 0 < length n') by (rewrite Hlen; destruct n; [done|cbn; lia]).
  assert (Hf : first < length n').
  { unfold first. destruct (min_by_key _ (seq 0 (length n'))) eqn:E; cbn; [|lia]. apply min_by_key_in, elem_of_seq in E. lia. }
  assert (Hs : second < length n').
  { unfold second. destruct (min_by_key _ (filter _ _)) eqn:E; cbn; [|done].
    apply min_by_key_in, list_elem_of_filter in E as [_ E%elem_of_seq]. lia. }
  destruct (probe_of n' fold first) as [b0 m0] eqn:E0, (probe_of n' fold second) as [b1 m1] eqn:E1.
  constructor; cbn; try done. intros ->. unfold n'. rewrite <- list_fmap_compose. apply list_fmap_ext.
  intros i b _. apply to_ascii_lowercase_idem.
Qed.

Section finder.
Context (f : Finder) (hay : bytes) (Hf : finder_ok f) (Hhay : bytes_ok hay).

Definition matches (s : nat) : Prop := matches_at f hay s = Some true.
Definition agrees (s : nat) : Prop := probes_agree (pair f) hay s = Some true.

Lemma matches_at_fits s : s + length (needle f) <= length hay -> exists b, matches_at f hay s = Some b.
Proof. intros H. unfold matches_at. rewrite sub_bytes_in by lia. cbn. eauto. Qed.

Lemma matches_fits s : matches s -> s + length (needle f) <= length hay.
Proof.
  unfold matches, matches_at, sub_bytes. destruct (_ && _) eqn:E; [intros _|done]. apply andb_true_iff in E as [_ E%Nat.leb_le]. done.
Qed.

Definition folded (l : bytes) : bytes := if folds f then to_ascii_lowercase <$> l else l.

Lemma matches_spec s :
  matches s <-> s + length (needle f) <= length hay /\ folded (slice hay s (s + length (needle f))) = needle f.
Proof.
  split.
  - intros H. pose proof (matches_fits s H) as Hle. split; [done|]. unfold matches, matches_at in H.
    rewrite sub_bytes_in in H by lia. cbn in H. unfold folded. injection H as H.
    destruct (folds f) eqn:E; [|by apply bool_decide_eq_true_1 in H].
    apply bool_decide_eq_true_1 in H. by rewrite (ok_lower f Hf E) in H.
  - intros [Hle H]. unfold matches, matches_at. rewrite sub_bytes_in by lia. cbn. f_equal. unfold folded in H.
    destruct (folds f) eqn:E; [|by rewrite H, bool_decide_eq_true_2].
    unfold eq_ignore_ascii_case. rewrite H. by rewrite (ok_lower f Hf E), bool_decide_eq_true_2.
Qed.

(** A letter matches either case exactly when [byte | 0x20] is its lower
    case. *)
Lemma probe_letter h :
  byte_ok h ->
  let n := to_ascii_lowercase h in
  let mask := if is_ascii_alphabetic n then 32%N else 0%N in N.lor h mask = N.lor n mask.
Proof.
  intros Hh. unfold byte_ok in Hh.
  assert (H : forallb (fun h => let n := to_ascii_lowercase h in
    let mask := if is_ascii_alphabetic n then 32%N else 0%N in (N.lor h mask =? N.lor n mask)%N) (N.of_nat <$> seq 0 256) = true)
    by (by vm_compute).
  rewrite forallb_forall in H. apply N.eqb_eq, (H h). apply list_elem_of_In, list_elem_of_fmap.
  exists (N.to_nat h). split; [lia|]. apply elem_of_seq. lia.
Qed.

Lemma probe_exact s i b m :
  matches s -> i < length (needle f) -> (b, m) = probe_of (needle f) (folds f) i ->
  exists h, hay !! (s + i) = Some h /\ N.lor h m = b.
Proof.
  intros [Hle Hm]%matches_spec Hi [= -> ->]. destruct (lookup_lt_is_Some_2 hay (s + i)) as [h Hh]; [lia|].
  exists h. split; [done|].
  assert (Hb : needle f !! i = Some (if folds f then to_ascii_lowercase h else h)).
  { rewrite <- Hm. unfold folded. destruct (folds f); [rewrite list_lookup_fmap|]; rewrite lookup_slice by lia; by rewrite Hh. }
  unfold byte_at. rewrite Hb. cbn. destruct (folds f) eqn:E; [|done]. cbn.
  apply probe_letter. exact (Forall_lookup_1 _ _ _ _ Hhay Hh).
Qed.

Lemma matches_agrees s : matches s -> agrees s.
Proof.
  intros H. pose proof (ok_at f Hf) as [H1 H2].
  destruct (probe_exact s _ _ _ H H1 (ok_first f Hf)) as (h0 & Hh0 & E0).
  destruct (probe_exact s _ _ _ H H2 (ok_second f Hf)) as (h1 & Hh1 & E1).
  unfold agrees, probes_agree. rewrite Hh0. cbn. rewrite E0, N.eqb_refl, Hh1. cbn. by rewrite E1, N.eqb_refl.
Qed.

(** ** One block *)

Lemma first_match_spec cands :
  StronglySorted le cands -> (forall s, s ∈ cands -> s + length (needle f) <= length hay) ->
  exists r, first_match f hay cands = Some r /\
    match r with
    | Some s => s ∈ cands /\ matches s /\ forall e, e ∈ cands -> matches e -> s <= e
    | None => forall e, e ∈ cands -> ~ matches e
    end.
Proof.
  induction 1 as [|s cands Hs IH Hle]; intros Hin; cbn [first_match].
  - eexists. split; [done|]. cbn. by intros e ?%not_elem_of_nil.
  - destruct (matches_at_fits s) as [b Hb]; [apply Hin; by left|]. rewrite Hb. cbn. destruct b.
    + eexists. split; [done|]. split_and!; [by left|done|].
      intros e [->|He]%elem_of_cons _; [lia|]. rewrite Forall_forall in Hle. by apply Hle.
    + destruct IH as (r & -> & Hr); [intros e He; apply Hin; by right|]. exists r. split; [done|].
      assert (Hn : ~ matches s) by (unfold matches; congruence).
      destruct r as [x|]; [destruct Hr as (Hx & Hmx & Hmin); split_and!; [by right|done|]|];
        intros e [->|He]%elem_of_cons; naive_solver.
Qed.

(** A block's candidates give the first match from its start on, if it holds
    one. *)
Lemma block_spec start n cands :
  candidates_of agrees start n cands -> start + n + length (needle f) <= S (length hay) ->
  exists r, first_match f hay cands = Some r /\
    match r with
    | Some s => first_at matches start (Some s)
    | None => forall e, matches e -> start <= e -> start + n <= e
    end.
Proof.
  intros [Hs Hin] Hfit. destruct (first_match_spec cands Hs) as (r & Hr & Hspec).
  { intros s [? _]%Hin. lia. }
  exists r. split; [done|]. destruct r as [s|].
  - destruct Hspec as (Hsin & Hm & Hmin). split_and!; [done|apply Hin in Hsin; lia|].
    intros e He Hle. destruct (Nat.lt_ge_cases e (start + n)) as [Hlt|Hge]; [|apply Hin in Hsin; lia].
    apply Hmin; [|done]. apply Hin. split; [done|]. by apply matches_agrees.
  - intros e He Hle. destruct (Nat.lt_ge_cases e (start + n)) as [Hlt|Hge]; [|done].
    exfalso. apply (Hspec e); [|done]. apply Hin. split; [done|]. by apply matches_agrees.
Qed.

(** ** The SWAR arm *)

(** Where the two probe bytes of a start lie. *)
Lemma probes_lookup s :
  s + length (needle f) <= length hay ->
  exists h0 h1, hay !! (s + (pair_at (pair f)).1) = Some h0 /\ hay !! (s + (pair_at (pair f)).2) = Some h1 /\
    probes_agree (pair f) hay s = Some ((N.lor h0 (pair_mask (pair f)).1 =? (pair_byte (pair f)).1)%N &&
      (N.lor h1 (pair_mask (pair f)).2 =? (pair_byte (pair f)).2)%N).
Proof.
  intros Hs. pose proof (ok_at f Hf) as [H1 H2].
  destruct (lookup_lt_is_Some_2 hay (s + (pair_at (pair f)).1)) as [h0 E0]; [lia|].
  destruct (lookup_lt_is_Some_2 hay (s + (pair_at (pair f)).2)) as [h1 E1]; [lia|].
  exists h0, h1. split_and!; [done..|]. unfold probes_agree. rewrite E0, E1. cbn. by case_match.
Qed.

Lemma probe_of_ok i b m : bytes_ok (needle f) -> (b, m) = probe_of (needle f) (folds f) i -> byte_ok b /\ byte_ok m.
Proof.
  intros Hn [= -> ->]. assert (Hm : byte_ok (if folds f && is_ascii_alphabetic (byte_at (needle f) i) then 32%N else 0%N))
    by (case_match; done).
  split; [|done]. apply op_byte_ok with orb; [apply N.lor_spec|done| |done].
  unfold byte_at. destruct (needle f !! i) eqn:E; [|done]. exact (Forall_lookup_1 _ _ _ _ Hn E).
Qed.

Lemma pair_ok :
  (byte_ok (pair_byte (pair f)).1 /\ byte_ok (pair_mask (pair f)).1) /\
  (byte_ok (pair_byte (pair f)).2 /\ byte_ok (pair_mask (pair f)).2).
Proof. split; eapply probe_of_ok; (apply (ok_needle f Hf) || apply (ok_first f Hf) || apply (ok_second f Hf)). Qed.

Definition disagree_bytes (u v : bytes) : bytes :=
  zip_with N.lor ((fun h => N.lxor (N.lor h (pair_mask (pair f)).1) (pair_byte (pair f)).1) <$> u)
                 ((fun h => N.lxor (N.lor h (pair_mask (pair f)).2) (pair_byte (pair f)).2) <$> v).

Lemma probe_bytes u m b :
  bytes_ok u -> length u = 8 -> byte_ok m -> byte_ok b ->
  N.lxor (N.lor (le_num u) (splat m)) (splat b) = le_num ((fun h => N.lxor (N.lor h m) b) <$> u) /\
  bytes_ok ((fun h => N.lxor (N.lor h m) b) <$> u).
Proof.
  intros Hu Hlen Hm Hb. unfold splat. pose proof (replicate_ok 8 m Hm) as Hrm. pose proof (replicate_ok 8 b Hb) as Hrb.
  rewrite lor_bytes by (try done; by rewrite length_replicate). rewrite zip_replicate by done.
  assert (Hor : bytes_ok ((fun h => N.lor h m) <$> u)).
  { rewrite <- (zip_replicate N.lor u m 8) by done. apply zip_bytes_ok with orb; [apply N.lor_spec|done..]. }
  rewrite lxor_bytes by (try done; by rewrite length_fmap, length_replicate). rewrite zip_replicate by (by rewrite length_fmap).
  rewrite <- list_fmap_compose. split; [done|].
  change (bytes_ok (((fun h => N.lxor h b) ∘ (fun h => N.lor h m)) <$> u)). rewrite list_fmap_compose.
  rewrite <- (zip_replicate N.lxor _ b 8) by (by rewrite length_fmap). apply zip_bytes_ok with xorb; [apply N.lxor_spec|done..].
Qed.

Lemma swar_block start :
  start + 8 + length (needle f) <= S (length hay) ->
  exists w0 w1, word hay (start + (pair_at (pair f)).1) = Some w0 /\ word hay (start + (pair_at (pair f)).2) = Some w1 /\
    candidates_of agrees start 8
      ((fun bit => start + N.to_nat bit / 8) <$> scan_bits 64 (zero_bytes (disagree (pair f) w0 w1))).
Proof.
  intros Hfit. pose proof (ok_at f Hf) as [H1 H2]. pose proof pair_ok as [[Hb0 Hm0] [Hb1 Hm1]].
  unfold word. rewrite !u64_at_in by lia. do 2 eexists. split_and!; [done..|].
  set (u := slice hay _ _). set (v := slice hay (start + (pair_at (pair f)).2) _).
  assert (Hu : length u = 8) by (unfold u; rewrite length_slice; lia).
  assert (Hv : length v = 8) by (unfold v; rewrite length_slice; lia).
  assert (Hou : bytes_ok u) by by apply bytes_ok_slice. assert (Hov : bytes_ok v) by by apply bytes_ok_slice.
  destruct (probe_bytes u _ _ Hou Hu Hm0 Hb0) as [E0 Ho0]. destruct (probe_bytes v _ _ Hov Hv Hm1 Hb1) as [E1 Ho1].
  assert (Hx : disagree (pair f) (le_num u) (le_num v) = le_num (disagree_bytes u v)).
  { unfold disagree. rewrite E0, E1. apply lor_bytes; [done..|by rewrite !length_fmap, Hu]. }
  rewrite Hx. apply scan_word_candidates.
  - apply zip_bytes_ok with orb; [apply N.lor_spec|done..].
  - unfold disagree_bytes. rewrite length_zip_with, !length_fmap, Hu, Hv. done.
  - intros i x. unfold disagree_bytes. rewrite lookup_zip_with, !list_lookup_fmap.
    intros Hi. assert (Hi8 : i < 8).
    { destruct (u !! i) eqn:E; [|done]. apply lookup_lt_Some in E. lia. }
    destruct (probes_lookup (start + i)) as (h0 & h1 & L0 & L1 & Hp); [lia|].
    unfold agrees. rewrite Hp. revert Hi. unfold u, v. rewrite !lookup_slice by lia.
    replace (start + (pair_at (pair f)).1 + i) with (start + i + (pair_at (pair f)).1) by lia.
    replace (start + (pair_at (pair f)).2 + i) with (start + i + (pair_at (pair f)).2) by lia.
    rewrite L0, L1. cbn. intros [= <-]. rewrite N.lor_eq_0_iff, !N.lxor_eq_0_iff.
    split; [intros [-> ->]; by rewrite !N.eqb_refl|]. intros [= [E2%N.eqb_eq E3%N.eqb_eq]%andb_true_iff]. done.
Qed.

Lemma swar_tail_spec start n :
  start + n + length (needle f) = S (length hay) ->
  exists r, swar_tail f hay (seq start n) = Some r /\ first_at matches start r.
Proof.
  revert start. induction n as [|n IH]; intros start Hn; cbn [seq swar_tail].
  { eexists. split; [done|]. intros e He%matches_fits. lia. }
  destruct (probes_lookup start) as (h0 & h1 & _ & _ & Hp); [lia|]. rewrite Hp. cbn [mbind option_bind].
  destruct (matches_at_fits start) as [b Hb]; [lia|].
  assert (Hok : exists ok, (if (N.lor h0 (pair_mask (pair f)).1 =? (pair_byte (pair f)).1)%N &&
      (N.lor h1 (pair_mask (pair f)).2 =? (pair_byte (pair f)).2)%N then matches_at f hay start else Some false) = Some ok /\
      (ok = true <-> matches start)).
  { case_match eqn:E.
    - exists b. split; [done|]. unfold matches. rewrite Hb. naive_solver.
    - exists false. split; [done|]. split; [done|]. intros Hm%matches_agrees. unfold agrees in Hm. congruence. }
  destruct Hok as (ok & -> & Hm). cbn. destruct ok.
  - eexists. split; [done|]. split_and!; [by apply Hm|done|]. intros; lia.
  - destruct (IH (S start)) as (r & -> & Hr); [lia|]. exists r. split; [done|].
    eapply first_at_skip; [| |exact Hr]; [lia|]. intros e He Hle. destruct (decide (e = start)) as [->|]; [naive_solver|lia].
Qed.

Lemma swar_loop_spec fuel start :
  length (needle f) <= length hay -> start <= S (length hay - length (needle f)) -> length hay < fuel + start ->
  exists r, swar_loop fuel f hay (length hay - length (needle f)) start = Some r /\ first_at matches start r.
Proof.
  intros Hlen. assert (0 < length (needle f)) by (pose proof (ok_at f Hf); lia).
  revert start. induction fuel as [|fuel IH]; intros start Hs Hfuel; [lia|]. cbn [swar_loop].
  destruct (Nat.leb_spec (start + 7) (length hay - length (needle f))) as [Hle|Hgt].
  2:{ apply swar_tail_spec. lia. }
  destruct (swar_block start) as (w0 & w1 & -> & -> & Hc); [lia|]. cbn [mbind option_bind].
  destruct (block_spec start 8 _ Hc) as (r & -> & Hr); [lia|]. cbn [mbind option_bind].
  destruct r as [s|]; [by exists (Some s)|].
  destruct (IH (start + 8)) as (r & -> & Hr'); [lia|lia|]. exists r. split; [done|].
  eapply first_at_skip; [| |exact Hr']; [lia|done].
Qed.

(** ** The AVX2 arm *)

Definition fold_const : bool := negb (bool_decide (pair_mask (pair f) = (0%N, 0%N))).

Lemma fold_const_mask : fold_const = false -> (pair_mask (pair f)).1 = 0%N /\ (pair_mask (pair f)).2 = 0%N.
Proof. unfold fold_const. intros H%negb_false_iff%bool_decide_eq_true_1. by rewrite H. Qed.

Lemma probe_block_spec at_ m b :
  at_ + 32 <= length hay -> (fold_const = false -> m = 0%N) ->
  probe_block fold_const hay at_ m b =
    Some ((fun h => if (N.lor h m =? b)%N then 255%N else 0%N) <$> slice hay at_ (at_ + 32)).
Proof.
  intros Hle Hm. unfold probe_block, loadu_si256. rewrite sub_bytes_in by lia. cbn [mbind option_bind]. f_equal.
  assert (Hlen : length (slice hay at_ (at_ + 32)) = 32) by (rewrite length_slice; lia).
  unfold cmpeq_epi8, or_si256, set1_epi8. destruct fold_const.
  - rewrite (zip_replicate N.lor) by done. rewrite zip_replicate by (by rewrite length_fmap). by rewrite <- list_fmap_compose.
  - rewrite zip_replicate by done. rewrite Hm by done. apply list_fmap_ext. intros i x _. by rewrite N.lor_0_r.
Qed.

Lemma avx2_block start :
  start + 32 + length (needle f) <= S (length hay) ->
  exists v, block fold_const f hay start = Some v /\ length v = 32 /\
    forall i x, v !! i = Some x -> (x = 0%N \/ x = 255%N) /\ (x = 255%N <-> agrees (start + i)).
Proof.
  intros Hfit. pose proof (ok_at f Hf) as [H1 H2]. unfold block.
  rewrite !probe_block_spec by (lia || apply fold_const_mask). cbn [mbind option_bind].
  eexists. split; [done|].
  assert (Hlen : forall a, a + 32 <= length hay -> length (slice hay a (a + 32)) = 32) by (intros; rewrite length_slice; lia).
  unfold and_si256. rewrite length_zip_with, !length_fmap, !Hlen by lia. split; [done|].
  intros i x. rewrite lookup_zip_with, !list_lookup_fmap. intros Hi.
  assert (Hi32 : i < 32).
  { destruct (slice hay (start + (pair_at (pair f)).1) _ !! i) eqn:E; [|done]. apply lookup_lt_Some in E. rewrite Hlen in E; lia. }
  destruct (probes_lookup (start + i)) as (h0 & h1 & L0 & L1 & Hp); [lia|]. unfold agrees. rewrite Hp.
  revert Hi. rewrite !lookup_slice by lia.
  replace (start + (pair_at (pair f)).1 + i) with (start + i + (pair_at (pair f)).1) by lia.
  replace (start + (pair_at (pair f)).2 + i) with (start + i + (pair_at (pair f)).2) by lia.
  rewrite L0, L1. cbn. intros [= <-]. by do 2 (destruct (_ =? _)%N); cbn; naive_solver.
Qed.

Lemma verify_spec start v :
  start + 32 + length (needle f) <= S (length hay) -> length v = 32 ->
  (forall i x, v !! i = Some x -> (x = 0%N \/ x = 255%N) /\ (x = 255%N <-> agrees (start + i))) ->
  exists r, verify f hay start v = Some r /\
    match r with
    | Some s => first_at matches start (Some s)
    | None => forall e, matches e -> start <= e -> start + 32 <= e
    end.
Proof.
  intros Hfit Hlen Hv. apply block_spec; [|done]. apply scan_mask_candidates; [done|]. intros i x Hx.
  destruct (Hv i x Hx) as [[->| ->] <-]; by split.
Qed.

(** An all-zero vector has no candidate. *)
Lemma zero_block start v n :
  length v = n -> (forall i x, v !! i = Some x -> x = 255%N <-> agrees (start + i)) -> Forall (fun x => x = 0%N) v ->
  forall e, matches e -> start <= e -> start + n <= e.
Proof.
  intros Hlen Hv Hz e He Hle. destruct (Nat.lt_ge_cases e (start + n)) as [Hlt|]; [|done]. exfalso.
  destruct (lookup_lt_is_Some_2 v (e - start)) as [x Hx]; [lia|].
  pose proof (Forall_lookup_1 _ _ _ _ Hz Hx) as ->. apply matches_agrees in He.
  replace e with (start + (e - start)) in He by lia. by apply (Hv _ _ Hx) in He.
Qed.

Lemma testz_or lo hi :
  length lo = length hi -> testz_si256 (or_si256 lo hi) (or_si256 lo hi) = true ->
  Forall (fun x => x = 0%N) lo /\ Forall (fun x => x = 0%N) hi.
Proof.
  unfold testz_si256, and_si256, or_si256. revert hi. induction lo as [|x lo IH]; intros [|y hi] Hlen; try done.
  injection Hlen as Hlen. cbn [zip_with forallb]. intros [Hx H]%andb_true_iff. apply N.eqb_eq in Hx.
  rewrite N.land_diag in Hx. apply N.lor_eq_0_iff in Hx as [-> ->]. destruct (IH hi Hlen H). by split; constructor.
Qed.

Abbreviation last_start := (length hay - length (needle f)) (only parsing).

(** What a vector loop leaves: the first match, or a start no match before
    which was missed. *)
Definition handed (start : nat) (out : option nat * nat) : Prop :=
  match out.1 with
  | Some s => first_at matches start (Some s)
  | None => start <= out.2 <= S last_start /\ forall e, matches e -> start <= e -> out.2 <= e
  end.

Lemma handed_skip start start' out :
  start <= start' -> (forall e, matches e -> start <= e -> start' <= e) -> handed start' out -> handed start out.
Proof.
  unfold handed. intros Hle Hskip. destruct (out.1) as [s|]; [by apply first_at_skip|].
  intros [? H]. split; [lia|]. intros e He Hs. apply H; [done|by apply Hskip].
Qed.

Lemma scan_32_spec fuel start :
  length (needle f) <= length hay -> start <= S last_start -> length hay < fuel + start ->
  exists out, scan_32 fuel fold_const f hay last_start start = Some out /\ handed start out.
Proof.
  intros Hlen. assert (0 < length (needle f)) by (pose proof (ok_at f Hf); lia).
  revert start. induction fuel as [|fuel IH]; intros start Hs Hfuel; [lia|]. cbn [scan_32].
  destruct (Nat.leb_spec (start + 31) last_start) as [Hle|Hgt].
  2:{ eexists. split; [done|]. split; [cbn; lia|done]. }
  destruct (avx2_block start) as (v & -> & Hv & Hag); [lia|]. cbn [mbind option_bind].
  destruct (verify_spec start v) as (r & -> & Hr); [lia|done..|]. cbn [mbind option_bind].
  destruct r as [s|]; [by eexists|].
  destruct (IH (start + 32)) as (out & -> & Hout); [lia|lia|]. exists out. split; [done|].
  eapply handed_skip; [| |exact Hout]; [lia|done].
Qed.

Lemma scan_64_block start lo hi :
  start + 64 + length (needle f) <= S (length hay) ->
  block fold_const f hay start = Some lo -> block fold_const f hay (start + 32) = Some hi ->
  let any := or_si256 lo hi in
  exists r, (if testz_si256 any any then Some None
             else or_else (verify f hay start lo) (verify f hay (start + 32) hi)) = Some r /\
    match r with
    | Some s => first_at matches start (Some s)
    | None => forall e, matches e -> start <= e -> start + 64 <= e
    end.
Proof.
  intros Hfit Elo Ehi any.
  destruct (avx2_block start) as (lo' & E & Hlo & Hlag); [lia|]. rewrite Elo in E. injection E as <-.
  destruct (avx2_block (start + 32)) as (hi' & E & Hhi & Hhag); [lia|]. rewrite Ehi in E. injection E as <-.
  destruct (testz_si256 any any) eqn:Hz.
  - eexists. split; [done|]. apply testz_or in Hz as [Z1 Z2]; [|by rewrite Hlo, Hhi].
    intros e He Hle. pose proof (zero_block start lo 32 Hlo (fun i x Hx => proj2 (Hlag i x Hx)) Z1 e He Hle) as H1.
    pose proof (zero_block (start + 32) hi 32 Hhi (fun i x Hx => proj2 (Hhag i x Hx)) Z2 e He H1). lia.
  - destruct (verify_spec start lo) as (r1 & -> & Hr1); [lia|done..|].
    destruct (verify_spec (start + 32) hi) as (r2 & -> & Hr2); [lia|done..|].
    unfold or_else. cbn [mbind option_bind]. destruct r1 as [s|]; [by eexists|]. exists r2. split; [done|].
    destruct r2 as [s|]; [eapply first_at_skip; [| |exact Hr2]; [lia|done]|].
    intros e He Hle. specialize (Hr2 e He (Hr1 e He Hle)). lia.
Qed.

Lemma scan_64_spec fuel start :
  length (needle f) <= length hay -> start <= S last_start -> length hay < fuel + start ->
  exists out, scan_64 fuel fold_const f hay last_start start = Some out /\ handed start out.
Proof.
  intros Hlen. assert (0 < length (needle f)) by (pose proof (ok_at f Hf); lia).
  revert start. induction fuel as [|fuel IH]; intros start Hs Hfuel; [lia|]. cbn [scan_64].
  destruct (Nat.leb_spec (start + 63) last_start) as [Hle|Hgt].
  2:{ by apply scan_32_spec. }
  destruct (avx2_block start) as (lo & Elo & _); [lia|]. destruct (avx2_block (start + 32)) as (hi & Ehi & _); [lia|].
  rewrite Elo, Ehi. cbn [mbind option_bind].
  destruct (scan_64_block start lo hi) as (r & -> & Hr); [lia|done..|]. cbn [mbind option_bind].
  destruct r as [s|]; [by eexists|].
  destruct (IH (start + 64)) as (out & -> & Hout); [lia|lia|]. exists out. split; [done|].
  eapply handed_skip; [| |exact Hout]; [lia|done].
Qed.
End finder.

(** The best arm is available: [Finder::new] never panics. *)
Lemma finder_new_build available n fold : finder_new available n fold = Some (build n fold (best_arm available)).
Proof. unfold finder_new, with_arm, best_arm. by destruct available. Qed.

(** ** Properties *)

(** What a search looks for: the needle at [s], in any ASCII case when
    folding. *)
Definition fold_case (fold : bool) (l : bytes) : bytes := if fold then to_ascii_lowercase <$> l else l.
Definition occurs_at (n : bytes) (fold : bool) (hay : bytes) (s : nat) : Prop :=
  s + length n <= length hay /\ fold_case fold (slice hay s (s + length n)) = fold_case fold n.

Lemma with_arm_matches available n fold a f hay s :
  with_arm available n fold a = Some f -> bytes_ok n -> n <> [] -> matches f hay s <-> occurs_at n fold hay s.
Proof.
  intros Hw Hn Hne. destruct (with_arm_ok _ _ _ _ _ Hw Hn Hne) as (Hf & Hneedle & Hfold).
  rewrite matches_spec by done. unfold occurs_at, folded, fold_case. rewrite Hneedle, Hfold.
  assert (length (if fold then to_ascii_lowercase <$> n else n) = length n) as -> by (destruct fold; [apply length_fmap|done]).
  done.
Qed.

Lemma find_from_first available n fold a f hay from :
  with_arm available n fold a = Some f -> bytes_ok n -> bytes_ok hay ->
  exists r, find_from f hay from = Some r /\ first_at (occurs_at n fold hay) from r.
Proof.
  intros Hw Hn Hhay. unfold find_from. destruct (decide (n = [])) as [->|Hne].
  { assert (needle f = []) as ->.
    { unfold with_arm in Hw. case_match; [|done]. injection Hw as <-. by destruct fold. }
    eexists. split; [done|]. cbn [is_empty]. destruct (Nat.leb_spec from (length hay)); cbn.
    - split_and!; [|done|done]. split; [cbn; lia|]. unfold slice. by rewrite Nat.add_0_r, Nat.sub_diag, take_0.
    - intros e [He _]. cbn in He. lia. }
  pose proof (fun s => with_arm_matches _ _ _ _ _ hay s Hw Hn Hne) as Hocc.
  destruct (with_arm_ok _ _ _ _ _ Hw Hn Hne) as (Hf & Hneedle & Hfold).
  assert (Hext : forall r, first_at (matches f hay) from r -> first_at (occurs_at n fold hay) from r).
  { intros [s|]; cbn; setoid_rewrite Hocc; done. }
  assert (0 < length (needle f)) by (pose proof (ok_at f Hf); lia).
  destruct (needle f) as [|x rest] eqn:Enf; [cbn in *; lia|]. cbn [is_empty]. rewrite <- Enf in *.
  destruct (Nat.ltb_spec (length hay) (length (needle f))) as [Hlt|Hge].
  { eexists. split; [done|]. apply Hext. intros e He%matches_fits. lia. }
  destruct (Nat.ltb_spec (length hay - length (needle f)) from) as [Hlt|Hle].
  { eexists. split; [done|]. apply Hext. intros e He%matches_fits. lia. }
  destruct (arm f).
  - destruct (swar_loop_spec f hay Hf Hhay (S (length hay)) from) as (r & Hr & H1); [lia..|]. exists r. auto.
  - destruct (scan_64_spec f hay Hf Hhay (S (length hay)) from) as ([found next] & Hs & Hout); [lia..|].
    unfold avx2_find. fold (fold_const f). rewrite Hs. cbn [mbind option_bind]. unfold or_else. cbn [mbind option_bind].
    unfold handed in Hout. cbn in Hout. destruct found as [s|]; [exists (Some s); by split; [|apply Hext]|].
    destruct Hout as [Hnext Hskip].
    destruct (swar_loop_spec f hay Hf Hhay (S (length hay)) next) as (r & Hr & H1); [lia..|]. exists r. split; [done|].
    apply Hext. eapply first_at_skip; [| |exact H1]; [lia|done].
Qed.

Lemma is_match_occurs available n fold a f hay :
  with_arm available n fold a = Some f -> bytes_ok n -> bytes_ok hay ->
  exists b, is_match f hay = Some b /\ (b = true <-> exists s, occurs_at n fold hay s).
Proof.
  intros Hw Hn Hhay. destruct (find_from_first _ _ _ _ _ hay 0 Hw Hn Hhay) as (r & Hr & H). unfold is_match. rewrite Hr.
  eexists. split; [done|]. destruct r as [s|]; cbn in *; split; try done.
  - intros _. exists s. apply H.
  - intros [s Hs]. specialize (H s Hs). lia.
Qed.

(** C31: a substring search finds exactly the first place from [from] on where
    the needle occurs, in any ASCII case when folding, on either arm and on
    every CPU; it never reads outside the haystack (no slice panics, and no
    [unsafe] vector load is out of bounds); and [is_match] says whether there
    is such a place. *)
Theorem find_from_correct (available : bool) (n : bytes) (fold : bool) (a : Arm) (f : Finder) (hay : bytes) (from : nat)
    (Hnew : with_arm available n fold a = Some f) (Hn : bytes_ok n) (Hhay : bytes_ok hay) :
  (exists r, find_from f hay from = Some r /\ first_at (occurs_at n fold hay) from r) /\
  (exists b, is_match f hay = Some b /\ (b = true <-> exists s, occurs_at n fold hay s)).
Proof. split; [by eapply find_from_first|by eapply is_match_occurs]. Qed.

Definition sample_hay : bytes := ascii_bytes "a Quick brown FoX jumps over the lazy dog, twice over the lazy fOx; then QUICK FOXES run past".

Lemma find_from_correct_witness :
  (f ← with_arm true (ascii_bytes "fOX") true Avx2; find_from f sample_hay 15) = Some (Some 63) /\
  exists f, with_arm true (ascii_bytes "fOX") true Avx2 = Some f /\
    exists r, find_from f sample_hay 15 = Some r /\ first_at (occurs_at (ascii_bytes "fOX") true sample_hay) 15 r.
Proof.
  split; [by vm_compute|]. eexists. split; [reflexivity|].
  apply (find_from_correct true (ascii_bytes "fOX") true Avx2 _ sample_hay 15);
    [reflexivity|vm_compute; repeat constructor..].
Defined.
