(* ===== verification/Expr.v ===== *)
(** * Expr: the boolean grammar of a query

    Models [crates/ferret-query/src/expr.rs]: the recursive descent parser of
    lexed arguments into a [Node] tree and the tree's Kleene evaluation, which
    asks its leaves in order and stops at a deciding one.  The grammar of the
    module's comment is the relations [g_expr], [g_and] and [g_unary].

    The parser's calls run on fuel; [parse] starts with fuel for every list
    of tokens ([parse_total]).  A leaf's answer may change the asker's state
    (a document read, a cache filled), so [eval] threads a state. *)
From S2P Require Import Prelude.

(** [NESTING_LIMIT]. *)
Definition NESTING_LIMIT : nat := 32.

#[warnings="-register-all"]
Inductive Node (L : Type) :=
| NLeaf (leaf : L)
| NAnd (all : list (Node L))
| NOr (any : list (Node L))
| NNot (inner : Node L).
Arguments NLeaf {L} leaf.
Arguments NAnd {L} all.
Arguments NOr {L} any.
Arguments NNot {L} inner.

Inductive Token (A : Type) := TAnd | TOr | TNot | TOpen | TClose | TAtom (atom : A).
Arguments TAnd {A}.
Arguments TOr {A}.
Arguments TNot {A}.
Arguments TOpen {A}.
Arguments TClose {A}.
Arguments TAtom {A} atom.

Inductive Truth := No | Maybe | Yes.

#[export] Instance Truth_eq_dec : EqDecision Truth.
Proof. solve_decision. Defined.

(** [impl From<bool> for Truth]. *)
Definition truth_of (holds : bool) : Truth := if holds then Yes else No.

(** [query::ParseError]; an argument is its bytes, [RE] and [GE] are the
    errors of the regex compilers. *)
Inductive ParseError (RE GE : Type) :=
| ESize (arg : bytes) | ETerm (arg : bytes) | EAge (arg : bytes) | EType (arg : bytes) | EEmpty (arg : bytes)
| ERegex (arg : bytes) (e : RE) | EGrep (arg : bytes) (e : GE) | ENotUtf8 (arg : bytes) | ENul (arg : bytes)
| EText (arg : bytes) | Dangling (op : string) | EmbeddedOperator (arg : bytes)
| Unclosed | Unopened | EmptyGroup | Nesting (limit : nat).
Arguments ESize {RE GE} arg.
Arguments ETerm {RE GE} arg.
Arguments EAge {RE GE} arg.
Arguments EType {RE GE} arg.
Arguments EEmpty {RE GE} arg.
Arguments ERegex {RE GE} arg e.
Arguments EGrep {RE GE} arg e.
Arguments ENotUtf8 {RE GE} arg.
Arguments ENul {RE GE} arg.
Arguments EText {RE GE} arg.
Arguments Dangling {RE GE} op.
Arguments EmbeddedOperator {RE GE} arg.
Arguments Unclosed {RE GE}.
Arguments Unopened {RE GE}.
Arguments EmptyGroup {RE GE}.
Arguments Nesting {RE GE} limit.

(** ** The parser *)

(** [one_or]. *)
Definition one_or {A} (nodes : list (Node A)) (many : list (Node A) -> Node A) : Node A :=
  match nodes with [node] => node | _ => many nodes end.

(** [After]. *)
Inductive After := AfterStart | AfterOr | AfterOpen.

Section parser.
Context {A RE GE : Type}.

(** [matches!(self.tokens.peek(), None | Some(Token::Or | Token::Close))]. *)
Definition ends_and (ts : list (Token A)) : bool :=
  match ts with [] | TOr :: _ | TClose :: _ => true | _ => false end.

(** [matches!(self.tokens.peek(), None | Some(Token::And | Token::Or | Token::Close))]. *)
Definition no_operand (ts : list (Token A)) : bool :=
  match ts with [] | TAnd :: _ | TOr :: _ | TClose :: _ => true | _ => false end.

(** What a parser's method leaves: its node and the tokens after it; the
    outer [None] is out of fuel. *)
Abbreviation Parsed := (option (result (Node A * list (Token A)) (ParseError RE GE))) (only parsing).

Definition then_ (r : Parsed) (k : Node A -> list (Token A) -> Parsed) : Parsed :=
  match r with
  | Some (Ok (node, ts)) => k node ts
  | Some (Err e) => Some (Err e)
  | None => None
  end.

(** [and]'s error when it read nothing. *)
Definition empty_and (after : After) (ts : list (Token A)) : ParseError RE GE :=
  match ts, after with
  | TOr :: _, _ | _, AfterOr => Dangling "OR"
  | _, AfterOpen => EmptyGroup
  | _, _ => Unopened
  end.

(** [Parser::expr], [Parser::and] and [Parser::unary]; [expr_loop] and [and_]
    are the loops, with what they pushed so far. *)
Fixpoint expr (fuel : nat) (after : After) (depth : nat) (ts : list (Token A)) : Parsed :=
  match fuel with
  | 0 => None
  | S fuel => then_ (and_ fuel after depth [] ts) (fun node ts => expr_loop fuel depth [node] ts)
  end
with expr_loop (fuel : nat) (depth : nat) (any : list (Node A)) (ts : list (Token A)) : Parsed :=
  match fuel with
  | 0 => None
  | S fuel =>
      match ts with
      | TOr :: ts => then_ (and_ fuel AfterOr depth [] ts) (fun node ts => expr_loop fuel depth (any ++ [node]) ts)
      | _ => Some (Ok (one_or any NOr, ts))
      end
  end
with and_ (fuel : nat) (after : After) (depth : nat) (all : list (Node A)) (ts : list (Token A)) : Parsed :=
  match fuel with
  | 0 => None
  | S fuel =>
      if ends_and ts then
        if is_empty all then Some (Err (empty_and after ts)) else Some (Ok (one_or all NAnd, ts))
      else
        match ts with
        | TAnd :: ts =>
            if is_empty all || no_operand ts then Some (Err (Dangling "AND"))
            else then_ (unary fuel depth ts) (fun node ts => and_ fuel after depth (all ++ [node]) ts)
        | _ => then_ (unary fuel depth ts) (fun node ts => and_ fuel after depth (all ++ [node]) ts)
        end
  end
with unary (fuel : nat) (depth : nat) (ts : list (Token A)) : Parsed :=
  match fuel with
  | 0 => None
  | S fuel =>
      match ts with
      | TNot :: ts =>
          if NESTING_LIMIT <=? depth then Some (Err (Nesting NESTING_LIMIT))
          else if no_operand ts then Some (Err (Dangling "NOT"))
          else then_ (unary fuel (S depth) ts) (fun node ts => Some (Ok (NNot node, ts)))
      | TOpen :: ts =>
          if NESTING_LIMIT <=? depth then Some (Err (Nesting NESTING_LIMIT))
          else then_ (expr fuel AfterOpen (S depth) ts) (fun inner ts =>
            match ts with
            | TClose :: ts => Some (Ok (inner, ts))
            | _ => Some (Err Unclosed)
            end)
      | TAtom atom :: ts => Some (Ok (NLeaf atom, ts))
      | TAnd :: _ => Some (Err (Dangling "AND"))
      | TOr :: _ | TClose :: _ | [] => Some (Err Unopened)
      end
  end.

(** [parse], with fuel that is enough for its tokens. *)
Definition parse (ts : list (Token A)) : option (result (Node A) (ParseError RE GE)) :=
  match ts with
  | [] => Some (Ok (NAnd []))
  | _ =>
      match expr (4 * length ts + 3) AfterStart 0 ts with
      | Some (Ok (tree, [])) => Some (Ok tree)
      | Some (Ok (_, _ :: _)) => Some (Err Unopened)
      | Some (Err e) => Some (Err e)
      | None => None
      end
  end.
End parser.

(** ** Trees *)

Section trees.
Context {L : Type}.

(** [Node::into_conjuncts]. *)
Fixpoint into_conjuncts (n : Node L) : list (Node L) :=
  match n with
  | NAnd all => (fix go all := match all with [] => [] | n :: all => into_conjuncts n ++ go all end) all
  | other => [other]
  end.

(** [Node::map], with a stateful [f]: leaves are replaced from left to
    right. *)
Section map_loop.
Context {N M S : Type} (f : N -> S -> M * S).
Fixpoint map_list (l : list N) (s : S) : list M * S :=
  match l with
  | [] => ([], s)
  | n :: l => let '(n, s) := f n s in let '(l, s) := map_list l s in (n :: l, s)
  end.
End map_loop.

Fixpoint map_node {M S} (f : L -> S -> M * S) (n : Node L) (s : S) : Node M * S :=
  match n with
  | NLeaf leaf => let '(leaf, s) := f leaf s in (NLeaf leaf, s)
  | NAnd all => let '(all, s) := map_list (map_node f) all s in (NAnd all, s)
  | NOr any => let '(any, s) := map_list (map_node f) any s in (NOr any, s)
  | NNot inner => let '(inner, s) := map_node f inner s in (NNot inner, s)
  end.

(** [Node::all_leaves]. *)
Fixpoint all_leaves (f : L -> bool) (n : Node L) : bool :=
  match n with
  | NLeaf leaf => f leaf
  | NAnd nodes | NOr nodes => forallb (all_leaves f) nodes
  | NNot inner => all_leaves f inner
  end.

(** [Node::eval]; the loops of an AND and of an OR over any evaluator. *)
Section loops.
Context {N S : Type} (ev : N -> S -> Truth * S).

Fixpoint eval_all (all : list N) (result : Truth) (s : S) : Truth * S :=
  match all with
  | [] => (result, s)
  | node :: all =>
      match ev node s with
      | (No, s) => (No, s)
      | (Maybe, s) => eval_all all Maybe s
      | (Yes, s) => eval_all all result s
      end
  end.

Fixpoint eval_any (any : list N) (result : Truth) (s : S) : Truth * S :=
  match any with
  | [] => (result, s)
  | node :: any =>
      match ev node s with
      | (Yes, s) => (Yes, s)
      | (Maybe, s) => eval_any any Maybe s
      | (No, s) => eval_any any result s
      end
  end.
End loops.

Fixpoint eval {S} (leaf : L -> S -> Truth * S) (n : Node L) (s : S) : Truth * S :=
  match n with
  | NLeaf test => leaf test s
  | NAnd all => eval_all (eval leaf) all Yes s
  | NOr any => eval_any (eval leaf) any No s
  | NNot inner =>
      match eval leaf inner s with
      | (No, s) => (Yes, s)
      | (Maybe, s) => (Maybe, s)
      | (Yes, s) => (No, s)
      end
  end.

(** The height of a tree: the frames its evaluation stacks. *)
Fixpoint height (n : Node L) : nat :=
  match n with
  | NLeaf _ => 1
  | NAnd nodes | NOr nodes => S (max_list (height <$> nodes))
  | NNot inner => S (height inner)
  end.
End trees.

(** ** The grammar

    [query = expr?], [expr = and ("OR" and)*], [and = unary (["AND"] unary)*]
    and [unary = "NOT" unary | "(" expr ")" | atom], with the depth of [NOT]s
    and groups around a phrase; [g_and] and [g_or] give the operands. *)
Section grammar.
Context {A : Type}.

Inductive g_unary : nat -> list (Token A) -> Node A -> Prop :=
| g_atom d a : g_unary d [TAtom a] (NLeaf a)
| g_not d ts n : d < NESTING_LIMIT -> g_unary (S d) ts n -> g_unary d (TNot :: ts) (NNot n)
| g_group d ts any : d < NESTING_LIMIT -> g_or (S d) ts any -> g_unary d (TOpen :: ts ++ [TClose]) (one_or any NOr)
with g_and : nat -> list (Token A) -> list (Node A) -> Prop :=
| g_and_one d ts n : g_unary d ts n -> g_and d ts [n]
| g_and_next d ts n ts' all : g_unary d ts n -> g_and d ts' all -> g_and d (ts ++ ts') (n :: all)
| g_and_word d ts n ts' all : g_unary d ts n -> g_and d ts' all -> g_and d (ts ++ TAnd :: ts') (n :: all)
with g_or : nat -> list (Token A) -> list (Node A) -> Prop :=
| g_or_one d ts all : g_and d ts all -> g_or d ts [one_or all NAnd]
| g_or_next d ts all ts' any : g_and d ts all -> g_or d ts' any -> g_or d (ts ++ TOr :: ts') (one_or all NAnd :: any).

Definition g_expr (d : nat) (ts : list (Token A)) (n : Node A) : Prop :=
  exists any, g_or d ts any /\ n = one_or any NOr.

(** A query. *)
Definition g_query (ts : list (Token A)) (n : Node A) : Prop :=
  (ts = [] /\ n = NAnd []) \/ g_expr 0 ts n.

Scheme g_unary_mut := Minimality for g_unary Sort Prop
with g_and_mut := Minimality for g_and Sort Prop
with g_or_mut := Minimality for g_or Sort Prop.
Combined Scheme g_ind from g_unary_mut, g_and_mut, g_or_mut.

(** A phrase starts with an operand. *)
Definition operand (ts : list (Token A)) : Prop := no_operand ts = false.

Lemma operand_app ts ts' : operand ts -> operand (ts ++ ts').
Proof. unfold operand. by destruct ts as [|[]]. Qed.

Lemma operand_ends ts : operand ts -> ends_and ts = false.
Proof. unfold operand. by destruct ts as [|[]]. Qed.

Lemma g_operand :
  (forall d ts n, g_unary d ts n -> operand ts) /\
  (forall d ts all, g_and d ts all -> operand ts /\ all <> []) /\
  (forall d ts any, g_or d ts any -> operand ts /\ any <> []).
Proof. apply g_ind; intros; repeat split; try done; destruct_and?; by try apply operand_app. Qed.
End grammar.

Create HintDb expr discriminated.
#[export] Hint Constructors g_unary g_and g_or : expr.
#[export] Hint Resolve operand_app operand_ends : expr.

Section soundness.
Context {A RE GE : Type}.
Abbreviation P := (option (result (Node A * list (Token A)) (ParseError RE GE))) (only parsing).

(** [r] read a phrase off the front of [ts]. *)
Definition reads (phrase : list (Token A) -> Node A -> Prop) (ts : list (Token A)) (r : P) : Prop :=
  forall n rest, r = Some (Ok (n, rest)) -> exists pre, ts = pre ++ rest /\ phrase pre n.

Lemma then_Ok (r : P) k n rest :
  then_ r k = Some (Ok (n, rest)) -> exists n' ts', r = Some (Ok (n', ts')) /\ k n' ts' = Some (Ok (n, rest)).
Proof. destruct r as [[[n' ts']|]|]; [|done..]. eauto. Qed.

(** The phrase that follows the operands read so far. *)
Definition more_and (d : nat) (all : list (Node A)) (pre : list (Token A)) (n : Node A) : Prop :=
  (pre = [] /\ all <> [] /\ n = one_or all NAnd) \/
  (exists new, n = one_or (all ++ new) NAnd /\
     (g_and d pre new \/ all <> [] /\ exists pre', pre = TAnd :: pre' /\ g_and d pre' new)).

Definition more_or (d : nat) (any : list (Node A)) (pre : list (Token A)) (n : Node A) : Prop :=
  (pre = [] /\ n = one_or any NOr) \/
  exists pre' new, pre = TOr :: pre' /\ g_or d pre' new /\ n = one_or (any ++ new) NOr.

Lemma more_and_first d pre n : more_and d [] pre n -> exists all, g_and d pre all /\ n = one_or all NAnd.
Proof. intros [(_ & ? & _)|(new & -> & [?|[? _]])]; [done| |done]. by exists new. Qed.

Lemma more_and_cons d all pre n pre' n' :
  g_unary d pre n -> more_and d (all ++ [n]) pre' n' ->
  exists new, n' = one_or (all ++ new) NAnd /\ g_and d (pre ++ pre') new.
Proof.
  intros Hn [(-> & _ & ->)|(new & -> & Hnew)].
  - exists [n]. rewrite app_nil_r. by auto with expr.
  - exists (n :: new). rewrite <- app_assoc. split; [done|].
    destruct Hnew as [?|(_ & pre'' & -> & ?)]; by auto with expr.
Qed.

Lemma more_or_cons d any pre all pre' n' :
  g_and d pre all -> more_or d (any ++ [one_or all NAnd]) pre' n' ->
  exists new, n' = one_or (any ++ new) NOr /\ g_or d (pre ++ pre') new.
Proof.
  intros Hall [(-> & ->)|(pre'' & new & -> & Hnew & ->)].
  - exists [one_or all NAnd]. rewrite app_nil_r. by auto with expr.
  - exists (one_or all NAnd :: new). rewrite <- app_assoc. by auto with expr.
Qed.

Lemma parser_sound fuel :
  (forall after d ts, reads (g_expr d) ts (@expr A RE GE fuel after d ts)) /\
  (forall d any ts, reads (more_or d any) ts (@expr_loop A RE GE fuel d any ts)) /\
  (forall after d all ts, reads (more_and d all) ts (@and_ A RE GE fuel after d all ts)) /\
  (forall d ts, reads (g_unary d) ts (@unary A RE GE fuel d ts)).
Proof.
  induction fuel as [|fuel (He & Hl & Ha & Hu)]; [by repeat split|]. repeat split.
  - intros after d ts n rest (n1 & ts1 & (pre & -> & (all & Hall & ->)%more_and_first)%Ha & H1)%then_Ok.
    apply Hl in H1 as (pre' & -> & H1). apply (more_or_cons d [] pre all pre' n) in H1 as (new & -> & Hnew); [|done].
    exists (pre ++ pre'). rewrite app_assoc. split; [done|]. by exists new.
  - intros d any ts n rest. cbn [expr_loop].
    assert (Hstop : (Some (Ok (one_or any NOr, ts)) : P) = Some (Ok (n, rest)) ->
      exists pre, ts = pre ++ rest /\ more_or d any pre n) by (intros [= <- <-]; exists []; split; [done|by left]).
    destruct ts as [|[] ts]; try exact Hstop.
    intros (n1 & ts1 & (pre & -> & (all & Hall & ->)%more_and_first)%Ha & H1)%then_Ok.
    apply Hl in H1 as (pre' & -> & H1). apply (more_or_cons d any pre all pre' n) in H1 as (new & -> & Hnew); [|done].
    exists (TOr :: pre ++ pre'). cbn. rewrite app_assoc. split; [done|]. right. eauto 6.
  - intros after d all ts n rest. cbn [and_]. destruct (ends_and ts) eqn:Hends.
    { destruct all; [done|]. intros [= <- <-]. exists []. split; [done|]. by left. }
    assert (Hgo : forall ts, then_ (unary fuel d ts) (fun node ts => and_ fuel after d (all ++ [node]) ts) = (Some (Ok (n, rest)) : P) ->
      exists pre new, ts = pre ++ rest /\ n = one_or (all ++ new) NAnd /\ g_and d pre new).
    { intros ts0 (n1 & ts1 & (pre & -> & Hn)%Hu & H1)%then_Ok. apply Ha in H1 as (pre' & -> & H1).
      apply (more_and_cons d all pre n1 pre' n) in H1 as (new & -> & Hnew); [|done].
      exists (pre ++ pre'), new. by rewrite app_assoc. }
    assert (Hplain : (exists pre new, ts = pre ++ rest /\ n = one_or (all ++ new) NAnd /\ g_and d pre new) ->
      exists pre, ts = pre ++ rest /\ more_and d all pre n).
    { intros (pre & new & -> & -> & Hnew). exists pre. split; [done|]. right. by eauto. }
    destruct ts as [|[] ts]; try (intros H; by apply Hplain, Hgo).
    destruct all as [|x all]; [done|]. destruct (no_operand ts); [done|]. cbn [is_empty orb].
    intros (pre & new & -> & -> & Hnew)%Hgo. exists (TAnd :: pre). split; [done|]. right. exists new. eauto 6.
  - intros d ts n rest. cbn [unary]. destruct ts as [|[] ts]; try done.
    + case_match eqn:Hd; [done|]. apply Nat.leb_gt in Hd. case_match; [done|].
      intros (n1 & ts1 & (pre & -> & Hn)%Hu & [= <- <-])%then_Ok. exists (TNot :: pre). by auto with expr.
    + case_match eqn:Hd; [done|]. apply Nat.leb_gt in Hd.
      intros (n1 & ts1 & (pre & -> & (any & Hany & ->))%He & H1)%then_Ok.
      destruct ts1 as [|[] ts1]; try done. injection H1 as <- <-.
      exists (TOpen :: pre ++ [TClose]). cbn. rewrite <- app_assoc. by auto with expr.
    + intros [= <- <-]. exists [TAtom atom]. by auto with expr.
Qed.

(** ** Fuel *)

(** A phrase that was read took tokens. *)
Lemma reads_shorter (phrase : list (Token A) -> Node A -> Prop) ts (r : P) n rest :
  reads phrase ts r -> (forall pre n, phrase pre n -> pre <> []) -> r = Some (Ok (n, rest)) -> length rest < length ts.
Proof.
  intros Hr Hpre (pre & -> & Hn)%Hr. rewrite length_app. apply Hpre in Hn. destruct pre; [done|]. cbn. lia.
Qed.

Lemma operand_nonempty (ts : list (Token A)) : operand ts -> ts <> [].
Proof. by destruct ts. Qed.

Lemma unary_shorter fuel d ts n rest : @unary A RE GE fuel d ts = Some (Ok (n, rest)) -> length rest < length ts.
Proof.
  eapply reads_shorter; [apply parser_sound|]. intros pre n' Hn. by apply (proj1 g_operand), operand_nonempty in Hn.
Qed.

Lemma and_shorter fuel after d ts n rest :
  @and_ A RE GE fuel after d [] ts = Some (Ok (n, rest)) -> length rest < length ts.
Proof.
  eapply reads_shorter; [apply parser_sound|]. intros pre n' (all & Hall & _)%more_and_first.
  by eapply operand_nonempty, (proj1 (proj2 g_operand)).
Qed.

Lemma expr_shorter fuel after d ts n rest :
  @expr A RE GE fuel after d ts = Some (Ok (n, rest)) -> length rest < length ts.
Proof.
  eapply reads_shorter; [apply parser_sound|]. intros pre n' (any & Hany & _).
  by eapply operand_nonempty, (proj2 (proj2 g_operand)).
Qed.

Lemma then_total (r : P) k :
  r <> None -> (forall n ts, r = Some (Ok (n, ts)) -> k n ts <> None) -> then_ r k <> None.
Proof. destruct r as [[[n ts]|]|]; cbn; auto. Qed.

Lemma parser_total fuel :
  (forall after d ts, 4 * length ts + 3 <= fuel -> @expr A RE GE fuel after d ts <> None) /\
  (forall d any ts, 4 * length ts + 1 <= fuel -> @expr_loop A RE GE fuel d any ts <> None) /\
  (forall after d all ts, 4 * length ts + 2 <= fuel -> @and_ A RE GE fuel after d all ts <> None) /\
  (forall d ts, 4 * length ts + 1 <= fuel -> @unary A RE GE fuel d ts <> None).
Proof.
  induction fuel as [|fuel (He & Hl & Ha & Hu)]; [repeat split; intros; lia|]. repeat split.
  - intros after d ts Hf. cbn [expr]. apply then_total; [apply Ha; lia|].
    intros n ts' ?%and_shorter. apply Hl. lia.
  - intros d any ts Hf. cbn [expr_loop]. destruct ts as [|[] ts]; try done. cbn [length] in Hf.
    apply then_total; [apply Ha; lia|]. intros n ts' ?%and_shorter. apply Hl. lia.
  - intros after d all ts Hf. cbn [and_]. destruct (ends_and ts) eqn:Hends; [by case_match|].
    assert (Hgo : forall ts0, length ts0 <= length ts ->
      then_ (unary fuel d ts0) (fun node ts => and_ fuel after d (all ++ [node]) ts) <> (None : P)).
    { intros ts0 Hle. apply then_total; [apply Hu; lia|]. intros n ts' ?%unary_shorter. apply Ha. lia. }
    destruct ts as [|[] ts]; try (by apply Hgo). case_match; [done|]. apply Hgo. cbn. lia.
  - intros d ts Hf. cbn [unary]. destruct ts as [|[] ts]; try done; cbn [length] in Hf; case_match; try done.
    + case_match; [done|]. apply then_total; [apply Hu; lia|]. by intros.
    + apply then_total; [apply He; lia|]. intros n ts' _. by destruct ts' as [|[]].
Qed.

Lemma parse_total ts : @parse A RE GE ts <> None.
Proof.
  unfold parse. destruct ts as [|t ts]; [done|].
  pose proof (proj1 (parser_total (4 * length (t :: ts) + 3)) AfterStart 0 (t :: ts) ltac:(lia)) as H.
  by destruct (expr _ _ _ _) as [[[n []]|]|].
Qed.

(** ** Every phrase is read *)

(** What may follow an [and] phrase: the end, [OR] or [)]; an [expr] phrase
    only the end or [)]. *)
Definition after_or (ts : list (Token A)) : bool := match ts with [] | TClose :: _ => true | _ => false end.

Lemma after_or_ends ts : after_or ts = true -> ends_and ts = true.
Proof. by destruct ts as [|[]]. Qed.

(** The method reads [n] off [pre ++ rest], unless it runs out of fuel. *)
Definition takes (r : P) (n : Node A) (rest : list (Token A)) : Prop := r <> None -> r = Some (Ok (n, rest)).

Lemma then_takes (r : P) k n rest n' rest' :
  takes r n rest -> takes (k n rest) n' rest' -> takes (then_ r k) n' rest'.
Proof.
  unfold takes. intros Hr Hk. destruct r as [[[m ts]|]|]; [|specialize (Hr ltac:(done)); done|done].
  specialize (Hr ltac:(done)). injection Hr as -> ->. exact Hk.
Qed.

Lemma takes_none n rest : takes None n rest.
Proof. by intros []. Qed.

Lemma takes_now n rest : takes (Some (Ok (n, rest))) n rest.
Proof. by intros ?. Qed.

Definition unary_takes d ts n : Prop :=
  forall fuel rest, takes (@unary A RE GE fuel d (ts ++ rest)) n rest.
Definition and_takes d ts all' : Prop :=
  forall fuel after all rest, ends_and rest = true ->
    takes (@and_ A RE GE fuel after d all (ts ++ rest)) (one_or (all ++ all') NAnd) rest.
Definition or_takes d ts any' : Prop :=
  (forall fuel after rest, after_or rest = true ->
    takes (@expr A RE GE fuel after d (ts ++ rest)) (one_or any' NOr) rest) /\
  (forall fuel any rest, after_or rest = true ->
    takes (@expr_loop A RE GE fuel d any (TOr :: ts ++ rest)) (one_or (any ++ any') NOr) rest).

Lemma and_steps fuel after d all ts n rest all' rest' :
  operand ts -> unary_takes d ts n ->
  takes (and_ fuel after d (all ++ [n]) rest) (one_or (all ++ n :: all') NAnd) rest' ->
  takes (@and_ A RE GE (S fuel) after d all (ts ++ rest)) (one_or (all ++ n :: all') NAnd) rest'.
Proof.
  intros Hop Hu Hrest. cbn [and_]. rewrite operand_ends by by apply operand_app.
  assert (takes (then_ (unary fuel d (ts ++ rest)) (fun node ts => and_ fuel after d (all ++ [node]) ts))
    (one_or (all ++ n :: all') NAnd) rest') by by eapply then_takes.
  by destruct ts as [|[] ts].
Qed.

Lemma and_skips_word fuel after d all ts :
  operand ts -> all <> [] -> @and_ A RE GE fuel after d all (TAnd :: ts) = and_ fuel after d all ts.
Proof.
  intros Hop Hall. destruct fuel; [done|]. cbn [and_]. rewrite (operand_ends ts Hop). cbn [ends_and].
  rewrite Hop. destruct all; [done|]. cbn [is_empty orb]. by destruct ts as [|[]].
Qed.

Lemma and_stops fuel after d all ts :
  ends_and ts = true -> all <> [] -> takes (@and_ A RE GE fuel after d all ts) (one_or all NAnd) ts.
Proof. intros Hends Hall Hf. destruct fuel; [done|]. cbn [and_]. rewrite Hends. by destruct all. Qed.

Lemma expr_stops fuel d any ts :
  after_or ts = true -> takes (@expr_loop A RE GE fuel d any ts) (one_or any NOr) ts.
Proof. intros Hends Hf. destruct fuel; [done|]. by destruct ts as [|[]]. Qed.

Lemma parser_complete :
  (forall d ts n, g_unary d ts n -> unary_takes d ts n) /\
  (forall d ts all, g_and d ts all -> and_takes d ts all) /\
  (forall d ts any, g_or d ts any -> or_takes d ts any).
Proof.
  pose proof (@g_operand A) as (Ou & Oa & Oo). apply g_ind.
  - intros d a [|fuel] rest; [apply takes_none|apply takes_now].
  - intros d ts n Hd Hn IH [|fuel] rest; [apply takes_none|]. cbn [unary app].
    rewrite (proj2 (Nat.leb_gt _ _) Hd). pose proof (operand_app ts rest (Ou _ _ _ Hn)) as ->.
    eapply then_takes; [apply IH|apply takes_now].
  - intros d ts any Hd Hany [IH _] [|fuel] rest; [apply takes_none|]. cbn [unary app].
    rewrite (proj2 (Nat.leb_gt _ _) Hd), <- app_assoc. eapply then_takes; [by apply IH|apply takes_now].
  - intros d ts n Hn IH [|fuel] after all rest Hends; [apply takes_none|]. apply and_steps; [by eapply Ou|done|].
    apply and_stops; [done|by destruct all].
  - intros d ts n ts' all' Hn IH Hall IH' [|fuel] after all rest Hends; [apply takes_none|]. rewrite <- app_assoc.
    apply and_steps; [by eapply Ou|done|]. specialize (IH' fuel after (all ++ [n]) rest Hends).
    by rewrite <- app_assoc in IH'.
  - intros d ts n ts' all' Hn IH Hall IH' [|fuel] after all rest Hends; [apply takes_none|]. rewrite <- app_assoc.
    apply and_steps; [by eapply Ou|done|]. cbn [app].
    rewrite and_skips_word by (by (apply operand_app; eapply Oa) || by destruct all).
    specialize (IH' fuel after (all ++ [n]) rest Hends). by rewrite <- app_assoc in IH'.
  - intros d ts all Hall IH. split.
    + intros [|fuel] after rest Hends; [apply takes_none|]. cbn [expr].
      eapply then_takes; [apply (IH fuel after [] rest); by apply after_or_ends|]. by apply expr_stops.
    + intros [|fuel] any rest Hends; [apply takes_none|]. cbn [expr_loop].
      eapply then_takes; [apply (IH fuel AfterOr [] rest); by apply after_or_ends|]. by apply expr_stops.
  - intros d ts all ts' any Hall IH Hany [_ IH']. split.
    + intros [|fuel] after rest Hends; [apply takes_none|]. cbn [expr]. rewrite <- app_assoc.
      eapply then_takes; [by apply (IH fuel after [])|]. by apply (IH' fuel [one_or all NAnd]).
    + intros [|fuel] any0 rest Hends; [apply takes_none|]. cbn [expr_loop]. rewrite <- app_assoc.
      eapply then_takes; [by apply (IH fuel AfterOr [])|].
      specialize (IH' fuel (any0 ++ [one_or all NAnd]) rest Hends). by rewrite <- app_assoc in IH'.
Qed.
End soundness.

(** ** Heights *)

Section heights.
Context {A : Type}.

Lemma height_one_or (nodes : list (Node A)) many h :
  (forall nodes, height (many nodes) = S (max_list (height <$> nodes))) ->
  Forall (fun n => height n <= h) nodes -> height (one_or nodes many) <= S h.
Proof.
  intros Hm Hn. assert (max_list (height <$> nodes) <= h) by (induction Hn; cbn; lia).
  destruct Hn as [|n nodes Hx [|n' nodes' ? ?]]; cbn [one_or]; rewrite ?Hm; lia.
Qed.

Lemma g_height :
  (forall d ts n, @g_unary A d ts n -> height n <= 2 * (NESTING_LIMIT - d) + 1) /\
  (forall d ts all, @g_and A d ts all -> Forall (fun n => height n <= 2 * (NESTING_LIMIT - d) + 1) all) /\
  (forall d ts any, @g_or A d ts any -> Forall (fun n => height n <= 2 * (NESTING_LIMIT - d) + 2) any).
Proof.
  assert (forall d all, Forall (fun n : Node A => height n <= 2 * (NESTING_LIMIT - d) + 1) all ->
    height (one_or all NAnd) <= 2 * (NESTING_LIMIT - d) + 2).
  { intros d all Hall. apply (height_one_or all NAnd) in Hall; [|done]. lia. }
  apply g_ind; intros; repeat constructor; auto; cbn [height]; try lia.
  match goal with H : Forall _ any |- _ => apply (height_one_or _ NOr) in H; [lia|done] end.
Qed.
End heights.

(** ** Kleene's logic *)

(** The three operations, and a tree's value when its leaves have values. *)
Definition tmin (a b : Truth) : Truth :=
  match a, b with No, _ | _, No => No | Maybe, _ | _, Maybe => Maybe | Yes, Yes => Yes end.
Definition tmax (a b : Truth) : Truth :=
  match a, b with Yes, _ | _, Yes => Yes | Maybe, _ | _, Maybe => Maybe | No, No => No end.
Definition tnot (a : Truth) : Truth := match a with No => Yes | Maybe => Maybe | Yes => No end.

Fixpoint kleene {L} (v : L -> Truth) (n : Node L) : Truth :=
  match n with
  | NLeaf leaf => v leaf
  | NAnd all => foldr (fun n acc => tmin (kleene v n) acc) Yes all
  | NOr any => foldr (fun n acc => tmax (kleene v n) acc) No any
  | NNot inner => tnot (kleene v inner)
  end.

(** The two-valued reading. *)
Fixpoint holds {L} (b : L -> bool) (n : Node L) : bool :=
  match n with
  | NLeaf leaf => b leaf
  | NAnd all => forallb (holds b) all
  | NOr any => existsb (holds b) any
  | NNot inner => negb (holds b inner)
  end.

(** [u] refines [t]: a Maybe may become anything, Yes and No stay. *)
Definition refines (t u : Truth) : Prop := t = Maybe \/ t = u.

Section kleene.
Context {L : Type}.

Lemma Node_ind' (P : Node L -> Prop) :
  (forall l, P (NLeaf l)) -> (forall all, Forall P all -> P (NAnd all)) ->
  (forall any, Forall P any -> P (NOr any)) -> (forall n, P n -> P (NNot n)) -> forall n, P n.
Proof.
  intros Hl Ha Ho Hn. fix IH 1. intros [l|all|any|n]; [apply Hl|apply Ha|apply Ho|apply Hn, IH];
    [induction all|induction any]; constructor; auto.
Qed.

Lemma kleene_holds (b : L -> bool) n : kleene (fun l => truth_of (b l)) n = truth_of (holds b n).
Proof.
  induction n as [l|all IH|any IH|n IH] using Node_ind'; cbn; [done|..|rewrite IH; by destruct (holds b n)];
    induction IH as [|n nodes Hn _ IH]; [done| |done|]; cbn; rewrite Hn, IH.
  - by destruct (holds b n), (forallb (holds b) nodes).
  - by destruct (holds b n), (existsb (holds b) nodes).
Qed.

(** The conjuncts of a tree are its meaning. *)
Lemma holds_conjuncts (b : L -> bool) n : forallb (holds b) (into_conjuncts n) = holds b n.
Proof.
  induction n as [l|all IH|any IH|n IH] using Node_ind'; [cbn; by rewrite andb_true_r| |cbn; by rewrite andb_true_r..].
  induction IH as [|n all Hn _ IH]; [done|].
  change (into_conjuncts (NAnd (n :: all))) with (into_conjuncts n ++ into_conjuncts (NAnd all)).
  cbn [holds forallb]. rewrite forallb_app, Hn, IH. done.
Qed.

(** A leaf that answers within [R] of [v] makes the evaluation answer within
    [R] of the tree's value, for equality and for refinement alike. *)
Section answers.
Context {S : Type} (leaf : L -> S -> Truth * S) (I : S -> Prop) (v : L -> Truth) (R : Truth -> Truth -> Prop).
Hypothesis (HR : forall t, R t t) (Hno : forall t, R No t -> t = No) (Hyes : forall t, R Yes t -> t = Yes).
Hypothesis (Hmaybe : R = eq \/ R = refines).
Hypothesis (Hleaf : forall l s, I s -> R (leaf l s).1 (v l) /\ I (leaf l s).2).

Definition sound_on (n : Node L) : Prop :=
  forall s, I s -> R (eval leaf n s).1 (kleene v n) /\ I (eval leaf n s).2.

Lemma R_cases t u : R t u -> t = u \/ t = Maybe /\ R = refines.
Proof. intros H. destruct Hmaybe as [->| ->]; [by left|]. destruct H as [->| ->]; [by right|by left]. Qed.

Lemma eval_all_sound all result s r :
  Forall sound_on all -> I s -> R result r -> result <> No ->
  R (eval_all (eval leaf) all result s).1 (tmin r (kleene v (NAnd all))) /\ I (eval_all (eval leaf) all result s).2.
Proof.
  intros Hall. revert result s r. induction Hall as [|n all Hn _ IH]; intros result s r Hs Hr Hres; cbn.
  - split; [|done]. by destruct r.
  - specialize (Hn s Hs). destruct (eval leaf n s) as [t s']. cbn in Hn. destruct Hn as [Ht Hs'].
    assert (E : forall a b c, tmin a (tmin b c) = tmin (tmin a b) c) by (by intros [] [] []).
    change (foldr _ Yes all) with (kleene v (NAnd all)). rewrite E. destruct t.
    + apply Hno in Ht as ->. split; [|done]. by destruct r.
    + apply IH; [done| |done].
      apply R_cases in Ht as [<-|[_ ->]]; [|by left]. apply R_cases in Hr as [<-|[_ ->]]; [|by left]. by destruct result.
    + apply Hyes in Ht as ->. apply IH; [done| |done]. by destruct r.
Qed.

Lemma eval_any_sound any result s r :
  Forall sound_on any -> I s -> R result r -> result <> Yes ->
  R (eval_any (eval leaf) any result s).1 (tmax r (kleene v (NOr any))) /\ I (eval_any (eval leaf) any result s).2.
Proof.
  intros Hany. revert result s r. induction Hany as [|n any Hn _ IH]; intros result s r Hs Hr Hres; cbn.
  - split; [|done]. by destruct r.
  - specialize (Hn s Hs). destruct (eval leaf n s) as [t s']. cbn in Hn. destruct Hn as [Ht Hs'].
    assert (E : forall a b c, tmax a (tmax b c) = tmax (tmax a b) c) by (by intros [] [] []).
    change (foldr _ No any) with (kleene v (NOr any)). rewrite E. destruct t.
    + apply Hno in Ht as ->. apply IH; [done| |done]. by destruct r.
    + apply IH; [done| |done].
      apply R_cases in Ht as [<-|[_ ->]]; [|by left]. apply R_cases in Hr as [<-|[_ ->]]; [|by left]. by destruct result.
    + apply Hyes in Ht as ->. split; [|done]. by destruct r.
Qed.

Lemma eval_sound n : sound_on n.
Proof.
  induction n as [l|all IH|any IH|n IH] using Node_ind'; intros s Hs; cbn [eval].
  - by apply Hleaf.
  - pose proof (eval_all_sound all Yes s Yes IH Hs (HR _) ltac:(done)) as H. by destruct (kleene v (NAnd all)).
  - pose proof (eval_any_sound any No s No IH Hs (HR _) ltac:(done)) as H. by destruct (kleene v (NOr any)).
  - specialize (IH s Hs). destruct (eval leaf n s) as [t s']. cbn in IH. destruct IH as [Ht Hs'].
    cbn [kleene]. destruct t; cbn; split; try done; [by apply Hno in Ht as ->| |by apply Hyes in Ht as ->].
    by apply R_cases in Ht as [<-|[_ ->]]; [apply HR|left].
Qed.
End answers.
End kleene.

(** ** Flattening *)

Section flatten.
Context {L S : Type} (leaf : L -> S -> Truth * S).

Lemma eval_all_app xs ys result s : result <> No ->
  eval_all (eval leaf) (xs ++ ys) result s =
  match eval_all (eval leaf) xs result s with
  | (No, s) => (No, s)
  | (result, s) => eval_all (eval leaf) ys result s
  end.
Proof.
  revert result s; induction xs as [|x xs IH]; intros result s Hr; cbn [app eval_all]; [by destruct result|].
  destruct (eval leaf x s) as [[] s']; [done|..]; by apply IH.
Qed.

Lemma eval_any_app xs ys result s : result <> Yes ->
  eval_any (eval leaf) (xs ++ ys) result s =
  match eval_any (eval leaf) xs result s with
  | (Yes, s) => (Yes, s)
  | (result, s) => eval_any (eval leaf) ys result s
  end.
Proof.
  revert result s; induction xs as [|x xs IH]; intros result s Hr; cbn [app eval_any]; [by destruct result|].
  destruct (eval leaf x s) as [[] s']; [..|done]; by apply IH.
Qed.

(** Once an operand decides, the ones after it are not asked. *)
Lemma eval_and_stops xs ys s s' :
  eval leaf (NAnd xs) s = (No, s') -> eval leaf (NAnd (xs ++ ys)) s = (No, s').
Proof. cbn [eval]. intros H. by rewrite eval_all_app, H. Qed.

Lemma eval_or_stops xs ys s s' :
  eval leaf (NOr xs) s = (Yes, s') -> eval leaf (NOr (xs ++ ys)) s = (Yes, s').
Proof. cbn [eval]. intros H. by rewrite eval_any_app, H. Qed.

(** What an AND that has [result] makes of a further operand's answer. *)
Definition and_then (result : Truth) (r : Truth * S) : Truth * S :=
  match r with (Yes, s) => (result, s) | r => r end.

Lemma eval_all_result all result s : result <> No ->
  eval_all (eval leaf) all result s = and_then result (eval_all (eval leaf) all Yes s).
Proof.
  revert result s; induction all as [|n all IH]; intros result s Hr; cbn [eval_all]; [done|].
  destruct (eval leaf n s) as [[] s']; [done| |by apply IH].
  rewrite IH by done. by destruct (eval_all _ all Yes s') as [[] s''].
Qed.

Lemma eval_conjuncts_from n result s : result <> No ->
  eval_all (eval leaf) (into_conjuncts n) result s = and_then result (eval leaf n s).
Proof.
  revert result s. induction n as [l|all IH|any IH|n IH] using Node_ind'; intros result s Hr;
    try (cbn [into_conjuncts eval_all]; by destruct (eval leaf _ s) as [[] s']).
  cbn [eval]. rewrite <- eval_all_result by done. revert result s Hr.
  induction IH as [|n all Hn _ IH]; intros result s Hr; [done|].
  change (into_conjuncts (NAnd (n :: all))) with (into_conjuncts n ++ into_conjuncts (NAnd all)).
  rewrite eval_all_app, Hn by done. cbn [eval_all].
  destruct (eval leaf n s) as [[] s']; cbn [and_then]; [done|by apply IH|]. destruct result; [done|by apply IH..].
Qed.

(** The conjuncts, asked in order, are the tree: the same answer, and the
    same leaves asked. *)
Lemma eval_conjuncts n s : eval leaf (NAnd (into_conjuncts n)) s = eval leaf n s.
Proof. cbn [eval]. rewrite eval_conjuncts_from by done. by destruct (eval leaf n s) as [[] s']. Qed.
End flatten.

(** Leaves that know the truth make the evaluation the boolean formula. *)
Lemma eval_decided {L} (b : L -> bool) (n : Node L) :
  (eval (fun l (s : unit) => (truth_of (b l), s)) n tt).1 = truth_of (holds b n).
Proof.
  rewrite <- kleene_holds. apply (eval_sound _ (fun _ => True) (fun l => truth_of (b l)) eq); try done. by left.
Qed.

(** ** Properties *)

(** The parser on inputs of [tests/grammar.rs]. *)
Example parse_binds :
  @parse nat unit unit [TAtom 1; TOr; TAtom 2; TAtom 3; TAnd; TNot; TAtom 4] =
  Some (Ok (NOr [NLeaf 1; NAnd [NLeaf 2; NLeaf 3; NNot (NLeaf 4)]])).
Proof. reflexivity. Qed.
Example parse_errors :
  (fun ts => @parse nat unit unit ts) <$>
    [[TAnd; TAtom 1]; [TAtom 1; TOr]; [TAtom 1; TNot]; [TOpen; TAtom 1]; [TAtom 1; TClose]; [TOpen; TClose];
     [TClose]; [TAtom 1; TOr; TClose]; replicate 33 TNot ++ [TAtom 1]] =
  (fun e => Some (Err e)) <$>
    [Dangling "AND"; Dangling "OR"; Dangling "NOT"; Unclosed; Unopened; EmptyGroup; Unopened; Dangling "OR"; Nesting 32].
Proof. reflexivity. Qed.

(** C29: the parser accepts exactly the documented grammar, with [NOT]s and
    groups nested at most [NESTING_LIMIT] deep: it always answers, and the
    answer is a tree exactly when the tokens are a query of that tree.  So a
    list of tokens has at most one tree, and every other list is an error. *)
Theorem parse_grammar {A RE GE} (ts : list (Token A)) :
  exists r, @parse A RE GE ts = Some r /\ forall n, r = Ok n <-> g_query ts n.
Proof.
  destruct (parse ts) as [r|] eqn:Hr; [|by apply parse_total in Hr]. exists r. split; [done|]. intros n.
  pose proof (@g_operand A) as (_ & _ & Oo). split.
  - intros ->. unfold parse in Hr. destruct ts as [|t ts]; [left; by injection Hr as <-|]. right.
    destruct (expr _ _ _ _) as [[[tree [|]]|]|] eqn:He; try done. injection Hr as ->.
    apply (parser_sound _) in He as (pre & -> & He). by rewrite app_nil_r.
  - intros [[-> ->]|(any & Hany & ->)]; [by injection Hr as <-|].
    destruct ts as [|t ts]; [by apply Oo in Hany as [? _]|]. unfold parse in Hr.
    destruct (proj2 (proj2 (@parser_complete A RE GE)) _ _ _ Hany) as [H _].
    specialize (H (4 * length (t :: ts) + 3) AfterStart [] eq_refl). rewrite app_nil_r in H.
    rewrite H in Hr; [by injection Hr as <-|]. apply parser_total. lia.
Qed.

(** However many tokens a query has, its tree is at most 67 nodes high
    ([2 * NESTING_LIMIT + 3]), so the recursion of the evaluation, of the
    cursor compilation and of the tree's drop is bounded. *)
Theorem parse_height {A RE GE} (ts : list (Token A)) n :
  @parse A RE GE ts = Some (Ok n) -> height n <= 67.
Proof.
  intros H. destruct (@parse_grammar A RE GE ts) as (r & Hr & Hn). rewrite H in Hr. injection Hr as <-.
  destruct (proj1 (Hn n) eq_refl) as [[-> ->]|(any & Hany & ->)]; [cbn; lia|].
  apply (proj2 (proj2 g_height)), (height_one_or _ NOr) in Hany; [|done]. cbn in *; lia.
Qed.

Lemma parse_height_witness : height (NNot (NOr [NLeaf 1; NAnd [NLeaf 2; NLeaf 3]])) <= 67.
Proof.
  apply (@parse_height nat unit unit [TNot; TOpen; TAtom 1; TOr; TAtom 2; TAtom 3; TClose]). reflexivity.
Defined.

(** C30: the evaluation is sound for any leaves that answer within the truth:
    if every leaf says the truth or Maybe (and keeps the asker's invariant),
    a Yes or a No of the tree is the truth of its boolean formula; leaves
    that never say Maybe make the tree's answer exactly its truth; and
    evaluating the flattened conjuncts gives the same answer and asks the
    same leaves. *)
Theorem evaluation_sound {L S} (leaf : L -> S -> Truth * S) (I : S -> Prop) (b : L -> bool) (n : Node L) (s : S)
    (Hleaf : forall l s, I s -> refines (leaf l s).1 (truth_of (b l)) /\ I (leaf l s).2) (Hs : I s) :
  refines (eval leaf n s).1 (truth_of (holds b n)) /\
  I (eval leaf n s).2 /\
  ((forall l s, I s -> (leaf l s).1 <> Maybe) -> (eval leaf n s).1 = truth_of (holds b n)) /\
  eval leaf (NAnd (into_conjuncts n)) s = eval leaf n s.
Proof.
  rewrite <- !kleene_holds.
  assert (Hr : sound_on leaf I (fun l => truth_of (b l)) refines n)
    by (apply eval_sound; try (by intros ? [? | ?]); [by right|by right|done]).
  destruct (Hr s Hs) as [H1 H2]. split_and!; [done|done| |apply eval_conjuncts].
  intros Hdec. apply (eval_sound leaf I (fun l => truth_of (b l)) eq); try done; [by left|].
  intros l s' Hs'. destruct (Hleaf l s' Hs') as [[Hm|Hm] ?]; [by destruct (Hdec l s' Hs')|done].
Qed.

(** A leaf that counts its calls: the OR's first operand decides it, and one
    call is made. *)
Lemma evaluation_sound_witness :
  eval (fun (l : nat) s => (if l <? 2 then Yes else Maybe, S s)) (NAnd [NOr [NLeaf 1; NLeaf 5]; NNot (NLeaf 7)]) 0 = (Maybe, 2) /\
  refines (eval (fun (l : nat) s => (if l <? 2 then Yes else Maybe, S s)) (NAnd [NOr [NLeaf 1; NLeaf 5]; NNot (NLeaf 7)]) 0).1
    (truth_of (holds (fun l => l <? 2) (NAnd [NOr [NLeaf 1; NLeaf 5]; NNot (NLeaf 7)]))).
Proof.
  split; [reflexivity|].
  apply (evaluation_sound (fun (l : nat) s => (if l <? 2 then Yes else Maybe, S s)) (fun _ => True) (fun l => l <? 2)); [|done].
  intros l s _. split; [|done]. unfold refines, truth_of. cbn [fst].
  destruct (l <? 2); auto.
Defined.
