(* ===== verification/Globs.v ===== *)
(** * Globs: globs lowered to regexes, and the literals they guarantee

    Models [crates/ferret-query/src/pattern.rs]: [glob_regex] writes the regex
    of a glob, [glob_literal] and [regex_literal] pick the bytes every matching
    name contains, which is what drives the scan of the name heap.

    [comp_match] is what a glob's last component means, over any reading of
    its classes; [glob_literal_occurs] shows the literal occurs in every name
    it matches.  A pattern's text is its characters ([u32]), and its regex is
    written as bytes. *)
From S2P Require Import Prelude Word Bytes Scan.

(** ** Writing the regex *)

(** [class_end]. *)
Definition class_end (component : bytes) (start : nat) : option nat :=
  let i := S start in
  let i := match component !! i with Some 33%N | Some 94%N => S i | _ => i end in
  let i := if bool_decide (component !! i = Some 93%N) then S i else i in
  (fun p => i + p.1) <$> list_find (fun b => b = 93%N) (drop i component).

(** [format!("\\x{b:02x}")] and [push_byte]. *)
Definition hex_digit (d : N) : u8 := if (d <? 10)%N then (48 + d)%N else (87 + d)%N.

Definition push_byte (b : u8) : bytes :=
  if is_ascii_alphanumeric b then [b] else [92; 120; hex_digit (b / 16); hex_digit (b mod 16)]%N.

(** The members of a class: [k] counts them. *)
Fixpoint class_body (len k : nat) (body : bytes) : bytes :=
  match body with
  | [] => []
  | b :: body =>
      (if (b =? 45)%N && (0 <? k) && (S k <? len) then [45%N] else push_byte b) ++ class_body len (S k) body
  end.

Definition class_regex (body : bytes) : bytes :=
  let '(negation, body) :=
    match body with
    | (33 | 94)%N :: rest => ([94%N], rest)
    | _ => ([], body)
    end in
  ascii_bytes "[[" ++ negation ++ class_body (length body) 0 body ++ ascii_bytes "]&&[^/]]".

(** [component_regex], from [i] on; the fuel is the length. *)
Fixpoint component_from (fuel : nat) (component : bytes) (i : nat) : bytes :=
  match fuel, component !! i with
  | S fuel, Some b =>
      if (b =? 42)%N then ascii_bytes "[^/]*" ++ component_from fuel component (S i)
      else if (b =? 63)%N then ascii_bytes "[^/]" ++ component_from fuel component (S i)
      else if (b =? 91)%N then
        match class_end component i with
        | Some end_ => class_regex (slice component (S i) end_) ++ component_from fuel component (S end_)
        | None => push_byte 91 ++ component_from fuel component (S i)
        end
      else push_byte b ++ component_from fuel component (S i)
  | _, _ => []
  end.

Definition component_regex (component : bytes) : bytes := component_from (length component) component 0.

(** [glob_regex]'s loop: [**] is any number of components. *)
Fixpoint components_regex (components : list bytes) : bytes :=
  match components with
  | [] => []
  | [last] => if bool_decide (last = [42; 42]%N) then ascii_bytes ".*" else component_regex last
  | component :: rest =>
      (if bool_decide (component = [42; 42]%N) then ascii_bytes "(?:.*/)?" else component_regex component ++ [47%N]) ++
      components_regex rest
  end.

Definition glob_regex (glob : bytes) : bytes :=
  let '(prefix, rest) :=
    match glob with
    | 47%N :: rest => (ascii_bytes "^/", rest)
    | _ => if bool_decide (47%N ∈ glob) then (ascii_bytes "(?:^|/)", glob) else (ascii_bytes "^", glob)
    end in
  ascii_bytes "(?s-u)" ++ prefix ++ components_regex (split_on 47 rest) ++ ascii_bytes "$".

(** ** The literal of a glob *)

(** [glob_literal]'s [wild_end]. *)
Definition wild_end (last : bytes) (i : nat) : option nat :=
  match last !! i with
  | None => Some i
  | Some b =>
      if (b =? 42)%N || (b =? 63)%N then Some (S i)
      else if (b =? 91)%N then S <$> class_end last i
      else None
  end.

(** Its loop; the fuel is [last.len() + 2]. *)
Fixpoint literal_loop (fuel : nat) (last best : bytes) (run_start i : nat) : bytes :=
  match fuel with
  | 0 => best
  | S fuel =>
      if i <=? length last then
        match wild_end last i with
        | Some end_ =>
            let best := if length best <? i - run_start then slice last run_start i else best in
            literal_loop fuel last best end_ (Nat.max end_ (S i))
        | None => literal_loop fuel last best run_start (S i)
        end
      else best
  end.

(** [glob.rsplit(..).next()]. *)
Definition last_component (glob : bytes) : bytes := List.last (split_on 47 glob) glob.

Definition glob_literal (glob : bytes) : option bytes :=
  let last := last_component glob in
  let best := literal_loop (length last + 2) last [] 0 0 in
  if is_empty best then None else Some best.

(** ** The literal of a regex *)

(** [has_alternation]. *)
Fixpoint alternation_from (escaped : bool) (class : nat) (pattern : list u32) : bool :=
  match pattern with
  | [] => false
  | c :: pattern =>
      if escaped then alternation_from false class pattern
      else if (c =? 92)%N then alternation_from true class pattern
      else if (c =? 91)%N then alternation_from false (S class) pattern
      else if (c =? 93)%N && (0 <? class) then alternation_from false (pred class) pattern
      else if (c =? 124)%N && (class =? 0) then true
      else alternation_from false class pattern
  end.
Definition has_alternation (pattern : list u32) : bool := alternation_from false 0 pattern.

(** [char::len_utf8], [c.is_ascii()] and [c.is_ascii_punctuation()]. *)
Definition len_utf8 (c : u32) : nat :=
  if (c <? 128)%N then 1 else if (c <? 2048)%N then 2 else if (c <? 65536)%N then 3 else 4.
Definition char_is_ascii (c : u32) : bool := (c <? 128)%N.
Definition is_ascii_punctuation (c : u32) : bool :=
  in_range 33 47 c || in_range 58 64 c || in_range 91 96 c || in_range 123 126 c.

(** [String::len]: bytes. *)
Definition str_len (s : list u32) : nat := sum_list (len_utf8 <$> s).

(** [regex_literal]'s [end_run]: [best] after a run. *)
Definition end_run (run best : list u32) : list u32 := if str_len best <? str_len run then run else best.

(** The [(literal, next)] at [i]; [None] is the [break]. *)
Definition literal_at (chars : list u32) (i : nat) (c : u32) : option (option u32 * nat) :=
  if (c =? 40)%N || (c =? 91)%N then None
  else if (c =? 92)%N then
    match chars !! S i with
    | None => None
    | Some e =>
        if existsb (N.eqb e) [120; 117; 85; 112; 80]%N then None
        else if (e =? 60)%N || (e =? 62)%N then Some (None, i + 2)
        else if is_ascii_punctuation e then Some (Some e, i + 2)
        else Some (None, i + 2)
    end
  else if (c =? 123)%N then
    Some (None, match list_find (fun d => d = 125%N) (drop i chars) with Some (at_, _) => i + at_ + 1 | None => length chars end)
  else if existsb (N.eqb c) [46; 94; 36; 41; 93; 63; 42; 43; 125]%N then Some (None, S i)
  else Some (Some c, S i).

Definition usable (fold : bool) (c : u32) : bool :=
  negb (fold && (negb (char_is_ascii c) || existsb (N.eqb c) [107; 75; 115; 83]%N)).

(** Its loop, with fuel for every character; both results are the last
    [end_run]'s. *)
Fixpoint regex_literal_loop (fuel : nat) (fold : bool) (chars best run : list u32) (i : nat) : list u32 :=
  match fuel, chars !! i with
  | S fuel, Some c =>
      match literal_at chars i c with
      | None => end_run run best
      | Some (Some c, next) =>
          match chars !! next with
          | Some 63%N | Some 42%N | Some 123%N =>
              regex_literal_loop fuel fold chars (end_run run best) [] next
          | Some 43%N =>
              let run := if usable fold c then run ++ [c] else run in
              regex_literal_loop fuel fold chars (end_run run best) [] next
          | _ =>
              if usable fold c then regex_literal_loop fuel fold chars best (run ++ [c]) next
              else regex_literal_loop fuel fold chars (end_run run best) [] next
          end
      | Some (None, next) => regex_literal_loop fuel fold chars (end_run run best) [] next
      end
  | _, _ => end_run run best
  end.

(** [pattern.contains("(?")]. *)
Fixpoint has_flag_group (pattern : list u32) : bool :=
  match pattern with
  | 40%N :: (63%N :: _) => true
  | _ :: pattern => has_flag_group pattern
  | [] => false
  end.

(** The characters of the literal. *)
Definition regex_literal (pattern : list u32) (fold : bool) : option (list u32) :=
  if has_flag_group pattern || has_alternation pattern then None
  else
    let best := regex_literal_loop (length pattern) fold pattern [] [] 0 in
    if is_empty best then None else Some best.

(** ** What a component matches *)

(** The bytes that are themselves in a glob. *)
Definition plain_at (c : bytes) (i : nat) : Prop := i < length c /\ wild_end c i = None.

Section meaning.
Context (fold : bool) (in_class : bytes -> u8 -> Prop) (c : bytes).

(** [comp_match i name]: the glob from [i] on matches [name]. [*] and [?] do
    not match a [/], nor does a class; other bytes match themselves, in any
    ASCII case when folding. *)
Inductive comp_match : nat -> bytes -> Prop :=
| cm_end : comp_match (length c) []
| cm_star i u v : c !! i = Some 42%N -> Forall (fun b => b <> 47%N) u -> comp_match (S i) v -> comp_match i (u ++ v)
| cm_any i b v : c !! i = Some 63%N -> b <> 47%N -> comp_match (S i) v -> comp_match i (b :: v)
| cm_class i e b v : c !! i = Some 91%N -> class_end c i = Some e -> in_class (slice c (S i) e) b -> b <> 47%N ->
    comp_match (S e) v -> comp_match i (b :: v)
| cm_plain i x b v : plain_at c i -> c !! i = Some x -> fold_case fold [b] = fold_case fold [x] ->
    comp_match (S i) v -> comp_match i (b :: v).

(** A wildcard ends where the match goes on. *)
Lemma comp_match_wild i end_ name :
  i < length c -> wild_end c i = Some end_ -> comp_match i name ->
  exists u v, name = u ++ v /\ comp_match end_ v.
Proof.
  intros Hi Hw. destruct 1 as [|i u v Hx Hu Hv|i b v Hx Hb Hv|i e b v Hx He Hc Hb Hv|i x b v [_ Hp] Hx Hf Hv]; [lia| | | |congruence];
    unfold wild_end in Hw; rewrite Hx in Hw; cbn in Hw.
  - injection Hw as <-. by exists u, v.
  - injection Hw as <-. by exists [b], v.
  - rewrite He in Hw. injection Hw as <-. by exists [b], v.
Qed.

Lemma comp_match_plain i x name :
  wild_end c i = None -> c !! i = Some x -> comp_match i name ->
  exists b v, name = b :: v /\ fold_case fold [b] = fold_case fold [x] /\ comp_match (S i) v.
Proof.
  intros Hw Hc. unfold wild_end in Hw. rewrite Hc in Hw.
  destruct 1 as [|i u v Hx Hu Hv|i b v Hx Hb Hv|i e b v Hx He Hcl Hb Hv|i y b v [_ Hp] Hx Hf Hv].
  - by rewrite lookup_ge_None_2 in Hc.
  - rewrite Hx in Hc. injection Hc as <-. done.
  - rewrite Hx in Hc. injection Hc as <-. done.
  - rewrite Hx in Hc. injection Hc as <-. cbn in Hw. by rewrite He in Hw.
  - rewrite Hx in Hc. injection Hc as <-. by exists b, v.
Qed.

Lemma comp_match_end name : comp_match (length c) name -> name = [].
Proof.
  inversion 1 as [|? ? ? Hx|? ? ? Hx|? ? ? ? Hx|? ? ? ? [Hx _]]; subst; try done; try lia;
    by rewrite lookup_ge_None_2 in Hx by lia.
Qed.

(** [w] occurs in the name, up to its case. *)
Definition occurs_in (w name : bytes) : Prop := exists u w' v, name = u ++ w' ++ v /\ fold_case fold w' = fold_case fold w.

(** While the loop runs: the best literal so far occurs, and the current run
    ends where the rest of the name goes on. *)
Definition literal_inv (name best : bytes) (run_start i : nat) : Prop :=
  occurs_in best name /\
  exists u w v, name = u ++ w ++ v /\ fold_case fold w = fold_case fold (slice c run_start i) /\ comp_match i v.

Lemma fold_case_app (a b : bytes) : fold_case fold (a ++ b) = fold_case fold a ++ fold_case fold b.
Proof. unfold fold_case. destruct fold; [apply fmap_app|done]. Qed.

Lemma slice_snoc run_start i x : run_start <= i -> c !! i = Some x -> slice c run_start (S i) = slice c run_start i ++ [x].
Proof.
  intros Hle Hx. unfold slice. replace (S i - run_start) with (S (i - run_start)) by lia.
  apply take_S_r. rewrite lookup_drop. by replace (run_start + (i - run_start)) with i by lia.
Qed.

Lemma slice_nil i : slice c i i = [].
Proof. unfold slice. by rewrite Nat.sub_diag, take_0. Qed.

Lemma class_end_bound i e : class_end c i = Some e -> i < e < length c.
Proof.
  unfold class_end. intros ([p b] & (Hp & _)%list_find_Some & ->)%fmap_Some. rewrite lookup_drop in Hp.
  apply lookup_lt_Some in Hp. cbn [fst]. revert Hp. repeat case_match; lia.
Qed.

Lemma wild_end_bound i end_ : i < length c -> wild_end c i = Some end_ -> i < end_ <= length c.
Proof.
  intros Hi. unfold wild_end. destruct (c !! i) eqn:Hc; [|apply lookup_ge_None in Hc; lia].
  destruct (_ || _); [intros [= <-]; lia|]. destruct (_ =? _)%N; [|done].
  intros (e & He%class_end_bound & ->)%fmap_Some. lia.
Qed.

Lemma literal_loop_occurs fuel name best run_start i :
  run_start <= i <= length c -> literal_inv name best run_start i ->
  length c + 2 <= fuel + i -> occurs_in (literal_loop fuel c best run_start i) name.
Proof.
  revert best run_start i. induction fuel as [|fuel IH]; intros best rs i Hi [Hbest (u & w & v & -> & Hw & Hv)] Hfuel; [done|].
  cbn [literal_loop]. rewrite leb_correct by lia.
  assert (Hbest' : occurs_in (if length best <? i - rs then slice c rs i else best) (u ++ w ++ v)).
  { case_match; [|done]. exists u, w, v. by rewrite Hw. }
  destruct (decide (i = length c)) as [->|Hne].
  { assert (wild_end c (length c) = Some (length c)) as -> by (unfold wild_end; by rewrite lookup_ge_None_2).
    destruct fuel; [done|]. cbn [literal_loop]. by rewrite leb_correct_conv by lia. }
  destruct (wild_end c i) as [end_|] eqn:Hend.
  - pose proof (wild_end_bound i end_ ltac:(lia) Hend). rewrite Nat.max_l by lia.
    apply IH; [lia| |lia]. split; [done|].
    destruct (comp_match_wild i end_ v) as (p & q & -> & Hq); [lia|done..|].
    exists (u ++ w ++ p), [], q. rewrite slice_nil. split; [by rewrite <- !app_assoc|done].
  - destruct (lookup_lt_is_Some_2 c i) as [x Hx]; [lia|].
    destruct (comp_match_plain i x v) as (b & q & -> & Hf & Hq); [done..|].
    apply IH; [lia| |lia]. split; [done|]. exists u, (w ++ [b]), q.
    rewrite (slice_snoc rs i x), !fold_case_app, Hw, Hf by (done || lia). split; [by rewrite <- !app_assoc|done].
Qed.
End meaning.

(** ** Properties *)

(** The literal of a glob occurs in every name the glob's last component
    matches, up to ASCII case when the query folds, whatever the classes
    mean: so a scan of the name heap for it misses no matching name. *)
Theorem glob_literal_occurs (fold : bool) (in_class : bytes -> u8 -> Prop) (glob literal name : bytes)
    (Hlit : glob_literal glob = Some literal) (Hm : comp_match fold in_class (last_component glob) 0 name) :
  exists s, occurs_at literal fold name s.
Proof.
  unfold glob_literal in Hlit. destruct (is_empty _); [done|]. injection Hlit as <-. set (c := last_component glob) in *.
  destruct (literal_loop_occurs fold in_class c (length c + 2) name [] 0 0) as (u & w & v & -> & Hw); [lia| |lia|].
  { split; [by exists [], [], name|]. exists [], [], name. by rewrite slice_nil. }
  set (literal := literal_loop _ _ _ _ _) in *. exists (length u).
  assert (Hlen : length w = length literal).
  { apply (f_equal length) in Hw. unfold fold_case in Hw. destruct fold; by rewrite ?length_fmap in Hw. }
  split; [rewrite !length_app; lia|]. rewrite <- Hw. f_equal. unfold slice.
  rewrite drop_app_length, <- Hlen. replace (length u + length w - length u) with (length w) by lia. apply take_app_length.
Qed.

Lemma glob_literal_occurs_witness :
  glob_literal (ascii_bytes "src/[ab]*Main?.rs") = Some (ascii_bytes "Main") /\
  exists s, occurs_at (ascii_bytes "Main") true (ascii_bytes "b_mainX.RS") s.
Proof.
  split; [reflexivity|].
  apply (glob_literal_occurs true (fun _ _ => True) (ascii_bytes "src/[ab]*Main?.rs")); [reflexivity|].
  eapply cm_class; [reflexivity|reflexivity|done|done|].
  apply (cm_star _ _ _ 4 (ascii_bytes "_")); [reflexivity|repeat constructor; done|].
  do 4 (eapply cm_plain; [split; [vm_compute; lia|reflexivity]|reflexivity|reflexivity|]).
  apply cm_any; [reflexivity|done|].
  do 3 (eapply cm_plain; [split; [vm_compute; lia|reflexivity]|reflexivity|reflexivity|]). constructor.
Defined.

Example literals_of_the_tests :
  regex_literal (ascii_bytes "^main\.rs$") true = Some (ascii_bytes "main.r") /\
  regex_literal (ascii_bytes "^main\.rs$") false = Some (ascii_bytes "main.rs") /\
  regex_literal (ascii_bytes "^[a-z]+$") true = None /\
  regex_literal (ascii_bytes "^parse_\w+") false = Some (ascii_bytes "parse_").
Proof. by vm_compute. Qed.

Example regexes_of_globs :
  glob_regex (ascii_bytes "*.rs") = ascii_bytes "(?s-u)^[^/]*\x2ers$" /\
  glob_regex (ascii_bytes "src/**/[!a-c]?") = ascii_bytes "(?s-u)(?:^|/)src/(?:.*/)?[[^a-c]&&[^/]][^/]$".
Proof. by vm_compute. Qed.
