(* ===== verification/Blob.v ===== *)
(** * Blob: base64-like runs, which leave the term index

    Models [crates/ferret-text/src/blob.rs]: [base64_runs], the detector the
    indexer and the query planner share, and [tokenize_terms], the tokenizer
    less every token that overlaps a run.  The tokenizer itself rests on the
    Unicode tables of other crates: its tokens are a list here, of which the
    filter uses the spans alone.

    A slice out of range panics and is [None]. *)
From S2P Require Import Prelude Bytes.

(** ** Text *)

(** [&bytes[from..to]]. *)
Definition slice_at (l : bytes) (from to : nat) : option bytes :=
  if (from <=? to) && (to <=? length l) then Some (slice l from to) else None.

(** [iter.position(f)], and [iter.rev().position(f)]. *)
Definition position {A} (f : A -> bool) (l : list A) : option nat := fst <$> list_find (fun x => f x = true) l.

(** ** The detector *)

(** [BASE64_MIN], [base64_byte] and [joiner]. *)
Definition BASE64_MIN : nat := 20.
Definition base64_byte (b : u8) : bool := is_ascii_alphanumeric b || existsb (N.eqb b) [43; 47; 45; 95]%N.
Definition joiner (b : u8) : bool := existsb (N.eqb b) [45; 95; 47]%N.

(** [hex]. *)
Definition hex (run : bytes) : bool :=
  forallb is_ascii_hexdigit (match run with 48%N :: 120%N :: rest => rest | _ => run end).

(** The counts of [random_looking]; [run_len] is an [i32], which wraps in a
    release build. *)
Record Counts := mkCounts {
  upper : nat; lower : nat; digit : nat; pairs : nat; flips : nat; lower_runs : nat; long_runs : nat;
  voweled : nat; run_len : Z; run_vowel : bool; previous : u8
}.
Definition i32_succ (n : Z) : Z := if (n =? 2 ^ 31 - 1)%Z then (- 2 ^ 31)%Z else (n + 1)%Z.
Definition vowel (b : u8) : bool := existsb (N.eqb b) [97; 101; 105; 111; 117; 121]%N.

(** One turn of [random_looking]'s loop. *)
Definition count_byte (c : Counts) (b : u8) : Counts :=
  let c :=
    if is_ascii_lowercase b then
      mkCounts (upper c) (S (lower c)) (digit c) (pairs c) (flips c)
        (lower_runs c + Nat.b2n (run_len c =? 0)%Z) (long_runs c) (voweled c)
        (i32_succ (run_len c)) (run_vowel c || vowel b) (previous c)
    else
      let long := (2 <=? run_len c)%Z in
      mkCounts (upper c + Nat.b2n (is_ascii_uppercase b)) (lower c) (digit c + Nat.b2n (is_ascii_digit b)) (pairs c) (flips c)
        (lower_runs c) (long_runs c + Nat.b2n long) (voweled c + Nat.b2n (long && run_vowel c)) 0 false (previous c) in
  let both := is_ascii_alphabetic b && is_ascii_alphabetic (previous c) in
  mkCounts (upper c) (lower c) (digit c) (pairs c + Nat.b2n both)
    (flips c + Nat.b2n (both && negb (eqb (is_ascii_uppercase b) (is_ascii_uppercase (previous c)))))
    (lower_runs c) (long_runs c) (voweled c) (run_len c) (run_vowel c) b.

(** [n.div_ceil(10)]. *)
Definition tenth (n : nat) : nat := (n + 9) / 10.

(** [random_looking]. *)
Definition random_looking (run : bytes) : bool :=
  let c := fold_left count_byte (run ++ [0%N]) (mkCounts 0 0 0 0 0 0 0 0 0 false 0) in
  let t := tenth (length run) in
  (0 <? digit c) && (t <=? upper c) && (t <=? lower c) && (pairs c <=? flips c * 4) &&
  (lower c * 10 <=? lower_runs c * 26) && ((long_runs c <? 2) || (voweled c * 10 <? long_runs c * 6)).

(** [written]. *)
Definition written (segment : bytes) : bool :=
  (length segment <=? 16) && forallb (fun b => is_ascii_lowercase b || is_ascii_digit b) segment ||
  negb (random_looking segment).

(** The two loops of [trim_written]. *)
Fixpoint trim_front (fuel : nat) (l : bytes) (start end_ : nat) : option nat :=
  match fuel with
  | 0 => None
  | S fuel =>
      run ← slice_at l start end_;
      match position joiner run with
      | None => Some start
      | Some len =>
          segment ← slice_at l start (start + len);
          if written segment then trim_front fuel l (start + len + 1) end_ else Some start
      end
  end.

Fixpoint trim_back (fuel : nat) (l : bytes) (start end_ : nat) : option nat :=
  match fuel with
  | 0 => None
  | S fuel =>
      run ← slice_at l start end_;
      match position joiner (rev run) with
      | None => Some end_
      | Some len =>
          segment ← slice_at l (end_ - len) end_;
          if written segment then trim_back fuel l start (end_ - (len + 1)) else Some end_
      end
  end.

(** [trim_written]. *)
Definition trim_written (l : bytes) (start end_ : nat) : option (nat * nat) :=
  start ← trim_front (S (length l)) l start end_;
  end_ ← trim_back (S (length l)) l start end_;
  Some (start, Nat.max end_ start).

(** [while at < bytes.len() && base64_byte(bytes[at])]. *)
Fixpoint run_end (l : bytes) (at_ : nat) : nat :=
  match l with
  | b :: l => if base64_byte b then run_end l (S at_) else at_
  | [] => at_
  end.

(** [while end < bytes.len() && end - at < 2 && bytes[end] == b'=']. *)
Fixpoint pad_end (most : nat) (l : bytes) (end_ : nat) : nat :=
  match most, l with
  | S most, b :: l => if (b =? 61)%N then pad_end most l (S end_) else end_
  | _, _ => end_
  end.

(** [base64_runs], its emitted ranges in order. *)
Fixpoint runs_loop (fuel : nat) (l : bytes) (at_ : nat) : option (list (nat * nat)) :=
  match fuel with
  | 0 => None
  | S fuel =>
      match l !! at_ with
      | None => Some []
      | Some b =>
          if negb (base64_byte b) then runs_loop fuel l (S at_)
          else
            let stop := run_end (drop at_ l) at_ in
            if stop - at_ <? BASE64_MIN then runs_loop fuel l stop
            else
              '(start, body_end) ← trim_written l at_ stop;
              let end_ := if body_end =? stop then pad_end 2 (drop body_end l) body_end else body_end in
              body ← slice_at l start body_end;
              rest ← runs_loop fuel l (Nat.max stop end_);
              Some (if (BASE64_MIN <=? length body) && negb (hex body) && random_looking body
                    then (start, end_) :: rest else rest)
      end
  end.
Definition base64_runs (l : bytes) : option (list (nat * nat)) := runs_loop (S (length l)) l 0.

(** [has_base64_run]. *)
Definition has_base64_run (l : bytes) : bool := match base64_runs l with Some (_ :: _) => true | _ => false end.

(** ** The term tokens *)

(** A [Token]'s spelling and span, and the filter of [tokenize_terms]: the
    spans from [at] on. *)
Record Token := mkToken { tok_bytes : bytes; tok_start : nat; tok_end : nat }.

Fixpoint skip_spans (spans : list (nat * nat)) (start : nat) : list (nat * nat) :=
  match spans with
  | (_, e) :: rest => if e <=? start then skip_spans rest start else spans
  | [] => []
  end.

Fixpoint keep_tokens (spans : list (nat * nat)) (tokens : list Token) : list Token :=
  match tokens with
  | [] => []
  | t :: tokens =>
      let spans := skip_spans spans (tok_start t) in
      if is_none_or (head spans) (fun s => tok_end t <=? s.1) then t :: keep_tokens spans tokens else keep_tokens spans tokens
  end.

(** [tokenize_terms], from the tokens of [tokenize]. *)
Definition tokenize_terms (l : bytes) (tokens : list Token) : option (list Token) :=
  spans ← base64_runs l;
  Some (match spans with [] => tokens | _ => keep_tokens spans tokens end).

(** Inputs of [blob/tests.rs]. *)
Example runs_of_words :
  existsb has_base64_run (ascii_bytes <$>
    ["getHTTPResponseCodeForRequest2"; "MAX_BUFFER_SIZE_IN_BYTES_V2"; "550e8400-e29b-41d4-a716-446655440000";
     "src/components/UserProfileCard/index"; "_ZN4core3fmt5write17h0123456789abcdefE"; "oAuth2ClientCredentialsToJSON";
     "0x7a3F9b2C4d6E8f0A1b3C5d7E9f1A3b5C7d9E1f3A"; "/DatePickerPanel-Xk3pQ9aZ"; "_cardHeader_aB3dE_cardHeader"]%string) = false.
Proof. vm_compute. reflexivity. Qed.
Example runs_of_blobs :
  base64_runs <$> (ascii_bytes <$>
    ["1JOTcOPq4q3fcyTvh2TyF4M5UUU/RrO8u3Z0y+bzGU4Kq4CjigRY3CWFBF1S3Q=="; "x 3EPWpXJ5mLVjvQKbIYmT6FJDQy6N3Mu_KdBNU_v4lvSp y";
     "eyJhbGciOiJIUzI1NiIsInR5cCI6IkpXVCJ9"]%string) = [Some [(0, 64)]; Some [(2, 46)]; Some [(0, 36)]].
Proof. vm_compute. reflexivity. Qed.

(** ** The spans *)

Section spans.
Context (l : bytes).

(** A reported span: a body of at least [BASE64_MIN] base64 characters that
    looks random, and at most two characters of padding. *)
Definition span_ok (s e : nat) : Prop :=
  exists body_end, s + BASE64_MIN <= body_end /\ body_end <= e <= body_end + 2 /\ e <= length l /\
    Forall (fun b => base64_byte b = true) (slice l s body_end) /\ Forall (fun b => b = 61%N) (slice l body_end e) /\
    hex (slice l s body_end) = false /\ random_looking (slice l s body_end) = true.

(** Spans in order, from [lo] on. *)
Fixpoint spans_from (lo : nat) (spans : list (nat * nat)) : Prop :=
  match spans with
  | [] => True
  | (s, e) :: spans => lo <= s /\ span_ok s e /\ spans_from e spans
  end.

Lemma spans_from_le lo lo' spans : lo' <= lo -> spans_from lo spans -> spans_from lo' spans.
Proof. intros Hle. destruct spans as [|[s e] spans]; [done|]. intros (? & ? & ?). split_and!; [lia|done|done]. Qed.

Lemma slice_at_ok from to : from <= to <= length l -> slice_at l from to = Some (slice l from to).
Proof. intros [H1 H2]. unfold slice_at. by rewrite (proj2 (Nat.leb_le _ _) H1), (proj2 (Nat.leb_le _ _) H2). Qed.

Lemma position_lt {A} (f : A -> bool) m i : position f m = Some i -> i < length m.
Proof.
  unfold position. destruct (list_find _ m) as [[j x]|] eqn:Hf; [|done]. intros [= <-].
  apply list_find_Some in Hf as (Hj & _). by apply lookup_lt_Some in Hj.
Qed.

Lemma trim_front_spec fuel start end_ : start <= end_ <= length l -> end_ - start < fuel ->
  exists s, trim_front fuel l start end_ = Some s /\ start <= s <= end_.
Proof.
  revert start. induction fuel as [|fuel IH]; intros start Hb Hf; [lia|]. cbn [trim_front].
  rewrite slice_at_ok by done. cbn [mbind option_bind]. destruct (position joiner _) as [len|] eqn:Hp; [|exists start; split; [done|lia]].
  apply position_lt in Hp. rewrite length_slice in Hp by lia. rewrite slice_at_ok by lia. cbn [mbind option_bind].
  destruct (written _); [|exists start; split; [done|lia]].
  destruct (IH (start + len + 1)) as (s & -> & Hs); [lia..|]. exists s. split; [done|lia].
Qed.

Lemma trim_back_spec fuel start end_ : start <= end_ <= length l -> end_ - start < fuel ->
  exists e, trim_back fuel l start end_ = Some e /\ start <= e <= end_.
Proof.
  revert end_. induction fuel as [|fuel IH]; intros end_ Hb Hf; [lia|]. cbn [trim_back].
  rewrite slice_at_ok by done. cbn [mbind option_bind]. destruct (position joiner _) as [len|] eqn:Hp; [|exists end_; split; [done|lia]].
  apply position_lt in Hp. rewrite length_rev, length_slice in Hp by lia. rewrite slice_at_ok by lia. cbn [mbind option_bind].
  destruct (written _); [|exists end_; split; [done|lia]].
  destruct (IH (end_ - (len + 1))) as (e & -> & He); [lia..|]. exists e. split; [done|lia].
Qed.

Lemma trim_written_spec start end_ : start <= end_ <= length l ->
  exists s e, trim_written l start end_ = Some (s, e) /\ start <= s <= e /\ e <= end_.
Proof.
  intros Hb. unfold trim_written. destruct (trim_front_spec (S (length l)) start end_ Hb) as (s & -> & Hs); [lia|].
  cbn [mbind option_bind]. destruct (trim_back_spec (S (length l)) s end_) as (e & -> & He); [lia..|].
  cbn [mbind option_bind]. eexists _, _. split; [done|]. lia.
Qed.
End spans.

Lemma run_end_spec m at_ : at_ <= run_end m at_ <= at_ + length m /\
  Forall (fun b => base64_byte b = true) (take (run_end m at_ - at_) m).
Proof.
  revert at_. induction m as [|b m IH]; intros at_; cbn [run_end]; [split; [cbn; lia|by rewrite take_nil]|].
  destruct (base64_byte b) eqn:Hb; [|split; [cbn; lia|by rewrite Nat.sub_diag]].
  destruct (IH (S at_)) as [H1 H2]. split; [cbn [length]; lia|].
  replace (run_end m (S at_) - at_) with (S (run_end m (S at_) - S at_)) by lia. by constructor.
Qed.

Lemma pad_end_spec most m end_ : end_ <= pad_end most m end_ <= end_ + Nat.min most (length m) /\
  Forall (fun b => b = 61%N) (take (pad_end most m end_ - end_) m).
Proof.
  revert m end_. induction most as [|most IH]; intros m end_; cbn [pad_end]; [split; [cbn; lia|by rewrite Nat.sub_diag]|].
  destruct m as [|b m]; [split; [cbn; lia|by rewrite take_nil]|].
  destruct (N.eqb_spec b 61) as [->|]; [|split; [cbn; lia|by rewrite Nat.sub_diag]].
  destruct (IH m (S end_)) as [H1 H2]. split; [cbn [length]; lia|].
  replace (pad_end most m (S end_) - end_) with (S (pad_end most m (S end_) - S end_)) by lia. by constructor.
Qed.

(** A sub-slice of a stretch of base64 characters. *)
Lemma slice_Forall {A} (P : A -> Prop) (l : list A) from to s e :
  Forall P (take (to - from) (drop from l)) -> from <= s -> e <= to -> Forall P (slice l s e).
Proof.
  intros Hall Hs He. unfold slice. apply Forall_forall. intros x (i & Hx & Hi)%elem_of_take. rewrite lookup_drop in Hx.
  rewrite Forall_lookup in Hall. apply (Hall (s - from + i)). rewrite lookup_take_lt by lia. rewrite lookup_drop. by rewrite <- Hx; f_equal; lia.
Qed.

Lemma runs_loop_spec l fuel at_ : at_ <= length l -> length l - at_ < fuel ->
  exists spans, runs_loop fuel l at_ = Some spans /\ spans_from l at_ spans.
Proof.
  revert at_. induction fuel as [|fuel IH]; intros at_ Hat Hf; [lia|]. cbn [runs_loop].
  destruct (l !! at_) as [b|] eqn:Hb; [|by exists []]. apply lookup_lt_Some in Hb as Hlt.
  destruct (base64_byte b) eqn:Hbb; cbn [negb].
  2:{ destruct (IH (S at_)) as (spans & -> & Hs); [lia..|]. exists spans. split; [done|]. eapply spans_from_le; [|exact Hs]. lia. }
  pose proof (run_end_spec (drop at_ l) at_) as [Hstop Hbase]. rewrite length_drop in Hstop.
  assert (Hgt : at_ < run_end (drop at_ l) at_).
  { rewrite (drop_S _ _ _ Hb). cbn [run_end]. rewrite Hbb. pose proof (run_end_spec (drop (S at_) l) (S at_)). lia. }
  set (stop := run_end (drop at_ l) at_) in *. destruct (stop - at_ <? BASE64_MIN) eqn:Hshort.
  { destruct (IH stop) as (spans & -> & Hs); [lia..|]. exists spans. split; [done|]. eapply spans_from_le; [|exact Hs]. lia. }
  destruct (trim_written_spec l at_ stop) as (s & be & -> & Hse & Hbe); [lia|]. cbn [mbind option_bind].
  set (e := if be =? stop then pad_end 2 (drop be l) be else be).
  assert (He : be <= e <= be + 2 /\ e <= length l /\ Forall (fun b => b = 61%N) (slice l be e)).
  { unfold e, slice. destruct (be =? stop); [|rewrite Nat.sub_diag; split_and!; [lia..|constructor]].
    pose proof (pad_end_spec 2 (drop be l) be) as [H1 H2]. rewrite length_drop in H1. split_and!; [lia..|done]. }
  destruct He as (He1 & He2 & He3). rewrite slice_at_ok by lia. cbn [mbind option_bind].
  destruct (IH (Nat.max stop e)) as (spans & -> & Hs); [lia..|]. cbn [mbind option_bind].
  destruct (_ && random_looking _) eqn:Hrep; eexists; (split; [reflexivity|]); [|eapply spans_from_le; [|exact Hs]; lia].
  apply andb_prop in Hrep as [[Hlen%Nat.leb_le Hhex%negb_true_iff]%andb_prop Hrand].
  rewrite length_slice in Hlen by lia. split; [lia|]. split; [|eapply spans_from_le; [|exact Hs]; lia].
  exists be. split_and!; [lia..| |done|done|done]. eapply slice_Forall; [exact Hbase|lia..].
Qed.

(** ** The tokens kept *)

(** A token and a span share no byte. *)
Definition apart (t : Token) (s : nat * nat) : bool := (tok_end t <=? s.1) || (s.2 <=? tok_start t).

Lemma skip_spans_apart spans start :
  exists gone, spans = gone ++ skip_spans spans start /\ Forall (fun s => s.2 <= start) gone /\
    match skip_spans spans start with [] => True | s :: _ => start < s.2 end.
Proof.
  induction spans as [|[s e] spans (gone & Heq & Hg & Hh)]; cbn [skip_spans]; [by exists []|].
  destruct (Nat.leb_spec e start); [|by exists []; split_and!; [|constructor|]].
  exists ((s, e) :: gone). split; [cbn; by f_equal|]. split; [by constructor|done].
Qed.

(** Spans one after another. *)
Fixpoint in_order (lo : nat) (spans : list (nat * nat)) : Prop :=
  match spans with [] => True | (s, e) :: spans => lo <= s <= e /\ in_order e spans end.

Lemma in_order_above lo spans : in_order lo spans -> Forall (fun s => lo <= s.1) spans.
Proof.
  revert lo. induction spans as [|[s e] spans IH]; intros lo; [constructor|]. intros [Hs Ho]. constructor; [cbn; lia|].
  eapply Forall_impl; [by apply IH|]. cbn. intros; lia.
Qed.

Lemma in_order_app lo gone spans : in_order lo (gone ++ spans) -> exists lo', in_order lo' spans.
Proof. revert lo. induction gone as [|[s e] gone IH]; intros lo; cbn; [eauto|]. intros [_ H]. by apply IH in H. Qed.

Lemma keep_tokens_spec lo spans tokens : in_order lo spans -> StronglySorted (fun a b => tok_start a <= tok_start b) tokens ->
  keep_tokens spans tokens = filter (fun t => forallb (apart t) spans = true) tokens.
Proof.
  intros Ho Hs. revert lo spans Ho. induction Hs as [|t tokens Hs IH Ht]; intros lo spans Ho; [done|]. cbn [keep_tokens].
  destruct (skip_spans_apart spans (tok_start t)) as (gone & Heq & Hgone & Hhead). set (rest := skip_spans spans (tok_start t)) in *.
  assert (Hrest : exists lo', in_order lo' rest) by (rewrite Heq in Ho; by eapply in_order_app). destruct Hrest as [lo' Ho'].
  assert (Hsame : forall u, tok_start t <= tok_start u -> forallb (apart u) spans = forallb (apart u) rest).
  { intros u Hu. rewrite Heq, forallb_app. assert (forallb (apart u) gone = true) as ->; [|done]. apply forallb_forall.
    intros s Hin. rewrite Forall_forall in Hgone. specialize (Hgone s (proj2 (list_elem_of_In _ _) Hin)).
    unfold apart. apply orb_true_iff. right. apply Nat.leb_le. lia. }
  assert (Hcond : is_none_or (head rest) (fun s => tok_end t <=? s.1) = forallb (apart t) rest).
  { clear -Hhead Ho'. destruct rest as [|[s e] rest]; [done|]. cbn [head hd_error is_none_or forallb fst snd apart] in *.
    unfold apart at 1. cbn [fst snd]. rewrite (proj2 (Nat.leb_gt _ _) Hhead), orb_false_r.
    destruct (Nat.leb_spec (tok_end t) s); [|done]. symmetry. cbn [andb]. apply forallb_forall. intros s' Hin.
    destruct Ho' as [Hse Ho']. apply in_order_above in Ho'. rewrite Forall_forall in Ho'.
    specialize (Ho' s' (proj2 (list_elem_of_In _ _) Hin)). unfold apart. apply orb_true_iff. left. apply Nat.leb_le. lia. }
  assert (Htail : keep_tokens rest tokens = filter (fun u => forallb (apart u) spans = true) tokens).
  { rewrite (IH lo' rest Ho'). clear -Hsame Ht. induction Ht as [|u tokens Hu _ IHt]; [done|].
    rewrite !filter_cons, Hsame, IHt by done. done. }
  rewrite Hcond, filter_cons, <- Hsame by lia. rewrite Htail. by destruct (forallb (apart t) spans).
Qed.

(** ** Properties *)

(** The detector's spans.  On any bytes [base64_runs] ends and reads no
    byte out of range; the spans it reports are in bounds, one after another,
    and each is a body of at least [BASE64_MIN] base64 characters that looks
    random and is not hexadecimal, with at most two characters of padding. *)
Theorem base64_spans (l : bytes) : exists spans, base64_runs l = Some spans /\ spans_from l 0 spans.
Proof. apply runs_loop_spec; lia. Qed.

(** The term index leaves out exactly the tokens of the runs.  Of tokens
    whose starts never decrease, [tokenize_terms] keeps in order those that
    share no byte with a reported span; so it keeps every token exactly when
    none touches a span, and all of them when the planner's [has_base64_run]
    says no. *)
Theorem terms_avoid_runs (l : bytes) (tokens : list Token)
    (Hs : StronglySorted (fun a b => tok_start a <= tok_start b) tokens) :
  exists spans, base64_runs l = Some spans /\
    tokenize_terms l tokens = Some (filter (fun t => forallb (apart t) spans = true) tokens) /\
    (has_base64_run l = false -> tokenize_terms l tokens = Some tokens).
Proof.
  destruct (runs_loop_spec l (S (length l)) 0 ltac:(lia) ltac:(lia)) as (spans & Hr & Hsp). exists spans.
  split; [exact Hr|]. unfold tokenize_terms, has_base64_run, base64_runs. rewrite Hr. cbn [mbind option_bind].
  assert (Ho : forall lo spans, spans_from l lo spans -> in_order lo spans).
  { clear. intros lo spans. revert lo. induction spans as [|[s e] spans IH]; intros lo; [done|].
    intros (H1 & (be & H2 & H3 & _) & H4). split; [lia|by apply IH]. }
  split; [|by destruct spans]. f_equal. destruct spans as [|sp spans].
  - symmetry. clear. induction tokens as [|t tokens IH]; [done|]. rewrite filter_cons, decide_True by done. by f_equal.
  - by apply (keep_tokens_spec 0); [apply Ho|].
Qed.

Definition sample_text : bytes := ascii_bytes "key_YWxhZGRpbk9wZW4yU2VzYW1lQjY0 x".
Definition sample_tokens : list Token :=
  [mkToken (ascii_bytes "key_ywxhzgrpbk9wzw4yu2vzyw1lqjy0") 0 32; mkToken (ascii_bytes "key") 0 3; mkToken (ascii_bytes "x") 33 34].

Lemma terms_avoid_runs_witness :
  tokenize_terms sample_text sample_tokens = Some [mkToken (ascii_bytes "key") 0 3; mkToken (ascii_bytes "x") 33 34] /\
  exists spans, base64_runs sample_text = Some spans /\
    tokenize_terms sample_text sample_tokens = Some (filter (fun t => forallb (apart t) spans = true) sample_tokens).
Proof.
  split; [vm_compute; reflexivity|].
  assert (Hs : StronglySorted (fun a b => tok_start a <= tok_start b) sample_tokens) by (repeat constructor).
  destruct (terms_avoid_runs sample_text sample_tokens Hs) as (spans & H1 & H2 & _). by exists spans.
Defined.
