(* ===== verification/Query.v ===== *)
(** * Query: from arguments to tests

    Models [crates/ferret-query/src/query.rs]: an argument is lexed into an
    operator or an atom, the arguments are parsed ([Expr]), and the top-level
    conjuncts that are plain name, path or metadata atoms become lists of
    tests, the others the residual trees evaluated per row.

    The class [Engines] is what the crates [ferret-verify] and [ferret-text]
    give a query: compiled regexes, the content predicates and the name
    tokens; the substring finder is [Scan]'s.  An error carries its argument's
    bytes, [from_utf8_lossy] of which is what the user sees. *)
From S2P Require Import Prelude Word Bytes Scan Globs Expr LogRecords.

(** ** Text *)

(** [slice.strip_prefix(prefix)]. *)
Fixpoint strip_prefix (prefix l : bytes) : option bytes :=
  match prefix, l with
  | [], _ => Some l
  | p :: prefix, x :: l => if (p =? x)%N then strip_prefix prefix l else None
  | _ :: _, [] => None
  end.

(** [u8::is_ascii_whitespace] and [arg.split(..).filter(|w| !w.is_empty())]. *)
Definition is_ascii_whitespace (b : u8) : bool := existsb (N.eqb b) [32; 9; 10; 12; 13]%N.
Fixpoint words_of (word : bytes) (arg : bytes) : list bytes :=
  match arg with
  | [] => if is_empty word then [] else [word]
  | b :: arg =>
      if is_ascii_whitespace b then (if is_empty word then words_of [] arg else word :: words_of [] arg)
      else words_of (word ++ [b]) arg
  end.

(** ** The tests *)

(** What the matching crates give: compiled regexes ([Regex::new],
    [Matcher::is_match]), content predicates and name tokens. *)
Class Engines := {
  Regex : Type;
  RegexError : Type;
  regex_new : list u32 -> bool -> result Regex RegexError;
  regex_is_match : Regex -> bytes -> bool;
  Grep : Type;
  GrepError : Type;
  grep_compile : list u32 -> result Grep GrepError;
  Text : Type;
  text_new : bytes -> bool -> option Text;
  normalize_token : bytes -> option bytes;
  has_token : bytes -> bytes -> bool }.

(** [Finder::new]: [Scan.finder_new_build] says it is the finder built. *)
Class Cpu := avx2_available : bool.
Definition new_finder `{Cpu} (n : bytes) (fold : bool) : Finder :=
  build n fold (best_arm avx2_available).

(** [finder.is_match(hay)], which never panics ([Scan.is_match_occurs]). *)
Definition finder_is_match (f : Finder) (hay : bytes) : bool := default false (is_match f hay).

Inductive Cmp := Less | Greater | Equal.
#[export] Instance Cmp_eq_dec : EqDecision Cmp.
Proof. solve_decision. Defined.

(** [Cmp::holds], on any ordered type: the two comparisons of its values. *)
Definition cmp_holds (c : Cmp) (lt gt eq : bool) : bool :=
  match c with Less => lt | Greater => gt | Equal => eq end.

Section tests.
Context `{Engines}.

Inductive NameTest :=
| NtSubstring (f : Finder) | NtTerm (token : bytes) | NtExt (suffix : bytes) (fold : bool)
| NtGlob (re : Regex) (glob : bytes) | NtRegex (re : Regex) (pattern : list u32).
Inductive PathTest := PtSubstring (f : Finder) | PtGlob (re : Regex) (glob : bytes).
Inductive MetaTest := MSize (c : Cmp) (n : u64) | MAge (c : Cmp) (secs : Z) | MType (k : Kind).
Inductive ContentAtom := CaText (t : Text) | CaGrep (g : Grep).

(** [expr::Test]. *)
Inductive Test := TName (t : NameTest) | TPath (t : PathTest) | TMeta (t : MetaTest) | TContent (i : nat).

Inductive Atom :=
| AName (t : NameTest) (literal : option bytes) | APathGlob (re : Regex) (glob : bytes)
| APath (t : PathTest) | AMeta (t : MetaTest) | AContent (c : ContentAtom).

(** [Driver]; a [from] of [usize::MAX], no name test, is [None]. *)
Record Driver := mkDriver { finder : Finder; driver_from : option nat }.

Record Query := mkQuery {
  names : list NameTest; paths : list PathTest; meta : list MetaTest; driver : option Driver; now : Z;
  residual : list (Node Test); atoms : list ContentAtom }.

Inductive Strategy := HeapScan | InodeScan | AllNames.

(** [Query::has_content] and [Query::strategy]. *)
Definition has_content (q : Query) : bool := negb (is_empty (atoms q)).
Definition strategy (q : Query) : Strategy :=
  match driver q with
  | Some _ => HeapScan
  | None => if is_empty (meta q) then AllNames else InodeScan
  end.

(** [NameTest::matches] and [PathTest::matches]. *)
Definition name_matches (t : NameTest) (name : bytes) : bool :=
  match t with
  | NtSubstring f => finder_is_match f name
  | NtTerm token => has_token name token
  | NtExt suffix fold =>
      if length suffix <? length name then
        let end_ := drop (length name - length suffix) name in
        if fold then eq_ignore_ascii_case end_ suffix else bool_decide (end_ = suffix)
      else false
  | NtGlob re _ | NtRegex re _ => regex_is_match re name
  end.

Definition path_matches (t : PathTest) (path : bytes) : bool :=
  match t with PtSubstring f => finder_is_match f path | PtGlob re _ => regex_is_match re path end.

(** The facts of a row its tests read from the catalog. *)
Record RowFacts := mkRow { row_name : bytes; row_path : bytes; row_size : u64; row_mtime : Z; row_kind : Kind }.

(** [Query::age_holds]: in an [i128], which no two [i64]s overflow. *)
Definition age_holds (now : Z) (c : Cmp) (secs mtime : Z) : bool :=
  cmp_holds c (now - mtime <? secs)%Z (secs <? now - mtime)%Z (now - mtime =? secs)%Z.

(** [Query::meta_holds] and [Query::test_row]. *)
Definition meta_holds (now : Z) (r : RowFacts) (t : MetaTest) : bool :=
  match t with
  | MSize c n => cmp_holds c (row_size r <? n)%N (n <? row_size r)%N (row_size r =? n)%N
  | MAge c secs => age_holds now c secs (row_mtime r)
  | MType k => bool_decide (row_kind r = k)
  end.

Definition test_row (now : Z) (r : RowFacts) (t : Test) : Truth :=
  match t with
  | TName t => truth_of (name_matches t (row_name r))
  | TPath t => truth_of (path_matches t (row_path r))
  | TMeta t => truth_of (meta_holds now r t)
  | TContent _ => Maybe
  end.

(** [Node<Test>::is_content] and [holds_without_document]. *)
Definition is_content (n : Node Test) : bool :=
  all_leaves (fun t => match t with TContent _ => true | _ => false end) n.
Definition holds_without_document (n : Node Test) : bool :=
  bool_decide ((eval (fun (_ : Test) (s : unit) => (No, s)) n tt).1 = Yes).

(** [Query::eval_residual]. *)
Definition eval_residual {S} (q : Query) (leaf : Test -> S -> Truth * S) (s : S) : Truth * S :=
  eval_all (eval leaf) (residual q) Yes s.
End tests.

(** ** Lexing *)

Section lexing.
Context `{Engines, Cpu}.
Abbreviation Error := (ParseError RegexError GrepError) (only parsing).
Abbreviation Lexed A := (result A (ParseError RegexError GrepError)) (only parsing).
Local Open Scope ferret_scope.

(** [embedded_operator]. *)
Definition OPERATORS : list bytes := ascii_bytes <$> ["AND"; "OR"; "NOT"]%string.
Definition GREP_PREFIX : bytes := ascii_bytes "grep:".
Definition PREFIXES : list bytes :=
  (ascii_bytes <$> ["case:"; "name:"; "name-term:"; "re:"; "ext:"; "path:"; "size:"; "mtime:"; "type:"; "text:"; "content:"]%string)
  ++ [GREP_PREFIX].
Definition embedded_operator (arg : bytes) : bool :=
  existsb (fun w => existsb (eq_ignore_ascii_case w) OPERATORS) (words_of [] arg) &&
  existsb (fun w => existsb (fun p => match strip_prefix p w with Some _ => true | None => false end) PREFIXES)
    (drop 1 (words_of [] arg)).

(** [comparison]. *)
Definition comparison (v : bytes) : Cmp * bytes :=
  match v with
  | 60%N :: rest => (Less, rest)
  | 62%N :: rest => (Greater, rest)
  | _ => (Equal, v)
  end.

(** [str::parse::<u64>] of ASCII digits. *)
Definition digits_value (ds : bytes) : N := fold_left (fun acc d => acc * 10 + (d - 48))%N ds 0%N.
Definition parse_u64 (ds : bytes) : option u64 :=
  if is_empty ds then None
  else if (digits_value ds <? 2 ^ 64)%N then Some (digits_value ds) else None.

Fixpoint count_digits (v : bytes) : nat :=
  match v with b :: v => if is_ascii_digit b then S (count_digits v) else 0 | [] => 0 end.

(** [number]. *)
Definition number (v : bytes) : option (u64 * bytes) :=
  n ← parse_u64 (take (count_digits v) v);
  Some (n, drop (count_digits v) v).

(** [parse_size]. *)
Definition size_shift (unit : bytes) : option N :=
  if bool_decide (unit = [] \/ unit = ascii_bytes "b") then Some 0%N
  else if bool_decide (unit = ascii_bytes "k") then Some 10%N
  else if bool_decide (unit = ascii_bytes "m") then Some 20%N
  else if bool_decide (unit = ascii_bytes "g") then Some 30%N
  else if bool_decide (unit = ascii_bytes "t") then Some 40%N
  else None.

Definition parse_size (v : bytes) : option MetaTest :=
  let '(cmp, v) := comparison v in
  '(n, unit) ← number v;
  shift ← size_shift (to_ascii_lowercase <$> unit);
  if (n <=? N.shiftr u64_max shift)%N then Some (MSize cmp (u64_shl n shift)) else None.

(** [parse_age]; [i64::try_from] and [checked_mul]. *)
Definition age_seconds (unit : bytes) : option Z :=
  if bool_decide (unit = ascii_bytes "s") then Some 1%Z
  else if bool_decide (unit = ascii_bytes "m") then Some 60%Z
  else if bool_decide (unit = ascii_bytes "h") then Some 3600%Z
  else if bool_decide (unit = ascii_bytes "d") then Some 86400%Z
  else if bool_decide (unit = ascii_bytes "w") then Some (7 * 86400)%Z
  else if bool_decide (unit = ascii_bytes "y") then Some (365 * 86400)%Z
  else None.

Definition i64_try_from (n : u64) : option Z := if (n <? 2 ^ 63)%N then Some (Z.of_N n) else None.
Definition i64_checked_mul (a b : Z) : option Z :=
  if ((- 2 ^ 63 <=? a * b) && (a * b <? 2 ^ 63))%Z then Some (a * b)%Z else None.

Definition parse_age (v : bytes) : option MetaTest :=
  let '(cmp, v) := comparison v in
  if bool_decide (cmp = Equal) then None
  else
    '(n, unit) ← number v;
    seconds ← age_seconds unit;
    n ← i64_try_from n;
    secs ← i64_checked_mul n seconds;
    Some (MAge cmp secs).

(** [Regex::new(..).map_err(..)]. *)
Definition regex_or (arg : bytes) (pattern : list u32) (fold : bool) : Lexed Regex :=
  match regex_new pattern fold with Ok re => Ok re | Err e => Err (ERegex arg e) end.

(** [word]. *)
Definition word (atom : bytes) (fold : bool) (arg : bytes) : Lexed Atom :=
  let is_glob := existsb (fun b => existsb (N.eqb b) [42; 63; 91]%N) atom in
  let has_slash := bool_decide (47%N ∈ atom) in
  if is_glob then
    regex <~ regex_or arg (glob_regex atom) fold;
    Ok (if has_slash then APathGlob regex atom else AName (NtGlob regex atom) (glob_literal atom))
  else if has_slash then Ok (APath (PtSubstring (new_finder atom fold)))
  else Ok (AName (NtSubstring (new_finder atom fold)) (Some atom)).

(** [parse_atom]'s [value]. *)
Definition value (atom arg : bytes) (prefix : string) : Lexed (option bytes) :=
  match strip_prefix (ascii_bytes prefix) atom with
  | Some [] => Err (EEmpty arg)
  | other => Ok other
  end.

(** The kinds [type:] takes. *)
Definition type_kind (v : bytes) : option Kind :=
  if bool_decide (v = ascii_bytes "f" \/ v = ascii_bytes "file") then Some File
  else if bool_decide (v = ascii_bytes "d" \/ v = ascii_bytes "dir") then Some Dir
  else if bool_decide (v = ascii_bytes "l" \/ v = ascii_bytes "link") then Some Symlink
  else None.

(** [parse_atom]: each prefix in turn, [k] being what follows it. *)
Definition or_value (r : Lexed (option bytes)) (found : bytes -> Lexed Atom) (k : Lexed Atom) : Lexed Atom :=
  v <~ r;
  match v with Some v => found v | None => k end.

Definition re_atom (fold : bool) (arg v : bytes) : Lexed Atom :=
  pattern <~ ok_or (utf8_decode v) (ENotUtf8 arg);
  regex <~ regex_or arg pattern fold;
  Ok (AName (NtRegex regex pattern) ((fun cs => concat (encode_utf8 <$> cs)) <$> regex_literal pattern fold)).

Definition grep_atom (arg v : bytes) : Lexed Atom :=
  pattern <~ ok_or (utf8_decode v) (ENotUtf8 arg);
  match grep_compile pattern with Ok g => Ok (AContent (CaGrep g)) | Err e => Err (EGrep arg e) end.

Definition parse_atom (atom : bytes) (fold : bool) (arg : bytes) : Lexed Atom :=
  let value := value atom arg in
  if is_empty atom then Err (EEmpty arg)
  else
    or_value (value "name-term:"%string)
      (fun v => token <~ ok_or (normalize_token v) (ETerm arg); Ok (AName (NtTerm token) None))
    (or_value (value "re:"%string) (re_atom fold arg)
    (or_value (value "ext:"%string) (fun v => let suffix := 46%N :: v in Ok (AName (NtExt suffix fold) (Some suffix)))
    (or_value (value "path:"%string) (fun v => Ok (APath (PtSubstring (new_finder v fold))))
    (or_value (value "size:"%string) (fun v => meta <~ ok_or (parse_size v) (ESize arg); Ok (AMeta meta))
    (or_value (value "mtime:"%string) (fun v => meta <~ ok_or (parse_age v) (EAge arg); Ok (AMeta meta))
    (or_value (value "type:"%string) (fun v => kind <~ ok_or (type_kind v) (EType arg); Ok (AMeta (MType kind)))
    (or_value (value "grep:"%string) (grep_atom arg)
    (or_value (text <~ value "text:"%string; content <~ value "content:"%string;
               Ok (match text with Some v => Some v | None => content end))
      (fun v => text <~ ok_or (text_new v (negb fold)) (EText arg); Ok (AContent (CaText text)))
    (or_value (value "name:"%string) (fun v => word v fold arg)
      (word atom fold arg)))))))))).

(** One argument of [Query::from_args]. *)
Definition lex_arg (arg : bytes) : Lexed (Token (bool * Atom)) :=
  if bool_decide (0%N ∈ arg) then Err (ENul arg)
  else if embedded_operator arg then Err (EmbeddedOperator arg)
  else if eq_ignore_ascii_case arg (ascii_bytes "AND") then Ok TAnd
  else if eq_ignore_ascii_case arg (ascii_bytes "OR") then Ok TOr
  else if eq_ignore_ascii_case arg (ascii_bytes "NOT") then Ok TNot
  else if bool_decide (arg = ascii_bytes "(") then Ok TOpen
  else if bool_decide (arg = ascii_bytes ")") then Ok TClose
  else
    let '(fold, atom) := match strip_prefix (ascii_bytes "case:") arg with
                         | Some rest => (false, rest)
                         | None => (true, arg)
                         end in
    atom <~ parse_atom atom fold arg;
    Ok (TAtom (fold, atom)).

Fixpoint lex_args (args : list bytes) : Lexed (list (Token (bool * Atom))) :=
  match args with
  | [] => Ok []
  | arg :: args => t <~ lex_arg arg; ts <~ lex_args args; Ok (t :: ts)
  end.

(** ** The query of a tree *)

(** [Atom::test]: a content atom is added to the query's. *)
Definition atom_test (a : bool * Atom) (atoms : list ContentAtom) : Test * list ContentAtom :=
  match a.2 with
  | AName t _ => (TName t, atoms)
  | APathGlob re glob => (TPath (PtGlob re glob), atoms)
  | APath t => (TPath t, atoms)
  | AMeta t => (TMeta t, atoms)
  | AContent c => (TContent (length atoms), atoms ++ [c])
  end.

(** A candidate driver: its literal, its fold and its name test. *)
Abbreviation Literal := (bytes * bool * option nat)%type (only parsing).

(** One conjunct of [from_args]. *)
Definition residual_conjunct (q : Query) (tree : Node (bool * Atom)) : Query :=
  let '(tree, atoms) := map_node atom_test tree (atoms q) in
  mkQuery (names q) (paths q) (meta q) (driver q) (now q) (residual q ++ [tree]) atoms.

Definition add_name (q : Query) (t : NameTest) : Query :=
  mkQuery (names q ++ [t]) (paths q) (meta q) (driver q) (now q) (residual q) (atoms q).
Definition add_path (q : Query) (t : PathTest) : Query :=
  mkQuery (names q) (paths q ++ [t]) (meta q) (driver q) (now q) (residual q) (atoms q).
Definition add_meta (q : Query) (t : MetaTest) : Query :=
  mkQuery (names q) (paths q) (meta q ++ [t]) (driver q) (now q) (residual q) (atoms q).

Definition conjunct (q : Query) (literals : list (bytes * bool * option nat)) (tree : Node (bool * Atom))
    : Query * list (bytes * bool * option nat) :=
  match tree with
  | NLeaf (fold, AName test literal) =>
      (add_name q test,
       match literal with Some l => literals ++ [(l, fold, Some (length (names q)))] | None => literals end)
  | NLeaf (fold, APathGlob regex glob) =>
      (add_path q (PtGlob regex glob),
       match glob_literal glob with Some l => literals ++ [(l, fold, None)] | None => literals end)
  | NLeaf (_, APath test) => (add_path q test, literals)
  | NLeaf (_, AMeta test) => (add_meta q test, literals)
  | tree => (residual_conjunct q tree, literals)
  end.

Fixpoint conjuncts (q : Query) (literals : list (bytes * bool * option nat)) (trees : list (Node (bool * Atom)))
    : Query * list (bytes * bool * option nat) :=
  match trees with
  | [] => (q, literals)
  | tree :: trees => let '(q, literals) := conjunct q literals tree in conjuncts q literals trees
  end.

(** [max_by_key] of [(literal.len(), Reverse(index))], which keeps the last
    of the greatest; [usize::MAX] is the greatest index. *)
Definition key_le (a b : bytes * bool * option nat) : bool :=
  let '(la, _, ia) := a in
  let '(lb, _, ib) := b in
  if length la =? length lb then
    match ia, ib with
    | None, _ => true
    | Some _, None => false
    | Some i, Some j => j <=? i
    end
  else length la <? length lb.

Fixpoint max_by_key (best : bytes * bool * option nat) (l : list (bytes * bool * option nat)) : bytes * bool * option nat :=
  match l with
  | [] => best
  | x :: l => max_by_key (if key_le best x then x else best) l
  end.

Definition choose_driver (literals : list (bytes * bool * option nat)) : option Driver :=
  match literals with
  | [] => None
  | l :: literals =>
      let '(literal, fold, from) := max_by_key l literals in Some (mkDriver (new_finder literal fold) from)
  end.

Definition empty_query (now : Z) : Query := mkQuery [] [] [] None now [] [].

Definition query_of (now : Z) (tree : Node (bool * Atom)) : Query :=
  let '(q, literals) := conjuncts (empty_query now) [] (into_conjuncts tree) in
  mkQuery (names q) (paths q) (meta q) (choose_driver literals) (Query.now q) (residual q) (atoms q).

(** [Query::from_args], [now] being the seconds its [SystemTime] gives. *)
Definition from_args (args : list bytes) (now : Z) : option (Lexed Query) :=
  match lex_args args with
  | Err e => Some (Err e)
  | Ok tokens =>
      tree ← parse tokens;
      Some (tree <~ tree; Ok (query_of now tree))
  end.
End lexing.

(** ** Sizes and ages *)

Section numbers.
Context `{Engines, Cpu}.

(** [v] starts with [ds], the longest run of digits, and goes on with [rest]. *)
Definition digits_of (v ds rest : bytes) : Prop :=
  v = ds ++ rest /\ Forall (fun d => is_ascii_digit d = true) ds /\
  match rest with b :: _ => is_ascii_digit b = false | [] => True end.

Lemma count_digits_spec v ds rest : digits_of v ds rest <-> ds = take (count_digits v) v /\ rest = drop (count_digits v) v.
Proof.
  split.
  - intros (-> & Hds & Hrest). assert (count_digits (ds ++ rest) = length ds) as ->.
    { induction Hds as [|d ds Hd _ IH]; cbn [app count_digits length]; [|by rewrite Hd, IH].
      destruct rest as [|b rest]; [done|]. cbn. by rewrite Hrest. }
    by rewrite take_app_length, drop_app_length.
  - intros [-> ->]. split; [by rewrite take_drop|]. induction v as [|b v IH]; [done|]. cbn [count_digits].
    destruct (is_ascii_digit b) eqn:Hb; [|by split]. destruct IH as [H1 H2]. cbn [take drop]. split; [by constructor|done].
Qed.

(** [number] reads a decimal [u64], its digits and what follows. *)
Lemma number_spec v n rest :
  number v = Some (n, rest) <-> exists ds, digits_of v ds rest /\ ds <> [] /\ n = digits_value ds /\ (n < 2 ^ 64)%N.
Proof.
  unfold number, parse_u64. split.
  - intros (n' & Hn & [= <- <-])%bind_Some. exists (take (count_digits v) v). rewrite count_digits_spec.
    destruct (take (count_digits v) v) eqn:E; [done|]. cbn [is_empty] in Hn. destruct (N.ltb_spec (digits_value (n :: l)) (2 ^ 64)); [|done].
    injection Hn as <-. done.
  - intros (ds & Hds & Hne & -> & Hlt). apply count_digits_spec in Hds as [-> ->].
    destruct (take (count_digits v) v) eqn:E; [done|]. cbn [is_empty]. by rewrite (proj2 (N.ltb_lt _ _) Hlt).
Qed.

(** What a comparison is written as, before its number. *)
Definition cmp_prefix (c : Cmp) : bytes := match c with Less => [60%N] | Greater => [62%N] | Equal => [] end.

Lemma comparison_digit c d v : is_ascii_digit d = true -> comparison (cmp_prefix c ++ d :: v) = (c, d :: v).
Proof.
  intros Hd. destruct c; [done..|]. cbn [cmp_prefix app]. unfold comparison.
  repeat (case_match; try done; subst; try (by vm_compute in Hd)).
Qed.

Lemma comparison_prefix v : v = cmp_prefix (comparison v).1 ++ (comparison v).2.
Proof. unfold comparison. repeat (case_match; try done). Qed.

Lemma number_after v c n rest :
  (exists w, comparison v = (c, w) /\ number w = Some (n, rest)) <->
  exists ds, digits_of (ds ++ rest) ds rest /\ v = cmp_prefix c ++ ds ++ rest /\ ds <> [] /\ n = digits_value ds /\ (n < 2 ^ 64)%N.
Proof.
  split.
  - intros (w & Hc & (ds & Hds & Hrest)%number_spec). exists ds. pose proof Hds as [-> _].
    split; [done|]. split; [|done]. rewrite (comparison_prefix v). by rewrite Hc.
  - intros (ds & Hds & -> & Hne & Hrest). exists (ds ++ rest). split; [|apply number_spec; by eauto].
    destruct ds as [|d ds]; [done|]. apply comparison_digit. destruct Hds as (_ & Hall & _). by inversion Hall.
Qed.

Lemma shifted n shift : (shift < 64)%N -> (n <= N.shiftr u64_max shift)%N <-> (n * 2 ^ shift < 2 ^ 64)%N.
Proof.
  intros Hs. rewrite N.shiftr_div_pow2. assert (2 ^ shift <> 0)%N as H2 by (by apply N.pow_nonzero).
  assert (E : (2 ^ 64 = 2 ^ (64 - shift) * 2 ^ shift)%N) by (rewrite <- N.pow_add_r; f_equal; lia).
  change u64_max with (2 ^ 64 - 1)%N.
  assert (Hd : ((2 ^ 64 - 1) / 2 ^ shift = 2 ^ (64 - shift) - 1)%N).
  { symmetry. apply N.div_unique with (2 ^ shift - 1)%N; [lia|]. rewrite N.mul_sub_distr_l, <- (N.mul_comm (2 ^ (64 - shift))), <- E.
    assert (1 <= 2 ^ (64 - shift))%N by (apply N.lt_pred_le, N.neq_0_lt_0, N.pow_nonzero; lia). nia. }
  rewrite Hd, E. assert (0 < 2 ^ (64 - shift))%N by (by apply N.neq_0_lt_0, N.pow_nonzero). split; intros; [|]; nia.
Qed.

Lemma size_shift_lt unit shift : size_shift unit = Some shift -> (shift < 64)%N.
Proof. unfold size_shift. repeat case_match; intros [= <-]; lia. Qed.

Lemma parse_size_spec v c n :
  parse_size v = Some (MSize c n) <->
  exists ds unit shift, digits_of (ds ++ unit) ds unit /\ v = cmp_prefix c ++ ds ++ unit /\ ds <> [] /\
    size_shift (to_ascii_lowercase <$> unit) = Some shift /\ n = (digits_value ds * 2 ^ shift)%N /\ (n < 2 ^ 64)%N.
Proof.
  unfold parse_size. split.
  - destruct (comparison v) as [c' w] eqn:Hc. intros ([m unit] & Hm & (shift & Hs & Hr)%bind_Some)%bind_Some.
    pose proof (size_shift_lt _ _ Hs) as Hlt. destruct (N.leb_spec m (N.shiftr u64_max shift)) as [Hle|]; [|done].
    injection Hr as -> <-. apply shifted in Hle; [|done].
    destruct (proj1 (number_after v c m unit)) as (ds & Hds & -> & Hne & -> & _); [by exists w|].
    exists ds, unit, shift. split_and!; [done..| |].
    + unfold u64_shl, u64_max. rewrite N.land_ones, N.shiftl_mul_pow2. by apply N.mod_small.
    + unfold u64_shl, u64_max. rewrite N.land_ones, N.shiftl_mul_pow2, N.mod_small by done. done.
  - intros (ds & unit & shift & Hds & -> & Hne & Hs & -> & Hlt). pose proof (size_shift_lt _ _ Hs) as H64.
    assert (Hpow : (1 <= 2 ^ shift)%N) by (apply N.lt_pred_le, N.neq_0_lt_0, N.pow_nonzero; lia).
    destruct (proj2 (number_after (cmp_prefix c ++ ds ++ unit) c (digits_value ds) unit)) as (w & Hc & Hn).
    { exists ds. split_and!; [done..|]. nia. }
    rewrite Hc, Hn. cbn. rewrite Hs. cbn.
    rewrite (proj2 (N.leb_le _ _)) by (by apply shifted). f_equal. f_equal.
    unfold u64_shl, u64_max. rewrite N.land_ones, N.shiftl_mul_pow2. by apply N.mod_small.
Qed.

Lemma parse_age_spec v c secs :
  parse_age v = Some (MAge c secs) <->
  exists ds unit s, digits_of (ds ++ unit) ds unit /\ v = cmp_prefix c ++ ds ++ unit /\ ds <> [] /\ c <> Equal /\
    age_seconds unit = Some s /\ secs = (Z.of_N (digits_value ds) * s)%Z /\ (secs < 2 ^ 63)%Z.
Proof.
  assert (Hpos : forall unit s, age_seconds unit = Some s -> (1 <= s)%Z)
    by (intros unit s; unfold age_seconds; repeat case_match; intros [= <-]; lia).
  unfold parse_age. split.
  - destruct (comparison v) as [c' w] eqn:Hc. case_bool_decide as Heq; [done|].
    intros ([m unit] & Hm & (s & Hs & (m' & Hm' & (secs' & Hsecs & [= -> ->])%bind_Some)%bind_Some)%bind_Some)%bind_Some.
    unfold i64_try_from in Hm'. destruct (N.ltb_spec m (2 ^ 63)) as [Hlt|]; [|done]. injection Hm' as <-.
    unfold i64_checked_mul in Hsecs. destruct (_ && _) eqn:Hb; [|done]. injection Hsecs as <-.
    apply andb_true_iff in Hb as [_ Hb%Z.ltb_lt].
    destruct (proj1 (number_after v c m unit)) as (ds & Hds & -> & Hne & -> & _); [by exists w|].
    exists ds, unit, s. done.
  - intros (ds & unit & s & Hds & -> & Hne & Hc & Hs & -> & Hlt). specialize (Hpos _ _ Hs).
    assert (Hn63 : (digits_value ds < 2 ^ 63)%N) by nia.
    destruct (proj2 (number_after (cmp_prefix c ++ ds ++ unit) c (digits_value ds) unit)) as (w & E & Hn).
    { exists ds. split_and!; [done..|]. lia. }
    rewrite E, Hn. rewrite bool_decide_eq_false_2 by done. cbn. rewrite Hs. cbn. unfold i64_try_from.
    rewrite (proj2 (N.ltb_lt _ _) Hn63). cbn. unfold i64_checked_mul.
    rewrite (proj2 (Z.ltb_lt _ _) Hlt), (proj2 (Z.leb_le _ _)) by nia. done.
Qed.
End numbers.

(** ** A tree and its tests *)

Section flatten.
Context `{Engines, Cpu} (t0 : Z) (r : RowFacts) (c : ContentAtom -> bool).

(** What an atom, and a test over the content atoms [cs], hold for a row. *)
Definition atom_holds (a : bool * Atom) : bool :=
  match a.2 with
  | AName t _ => name_matches t (row_name r)
  | APathGlob re _ => regex_is_match re (row_path r)
  | APath t => path_matches t (row_path r)
  | AMeta t => meta_holds t0 r t
  | AContent a => c a
  end.

Definition test_holds (cs : list ContentAtom) (t : Test) : bool :=
  match t with
  | TName t => name_matches t (row_name r)
  | TPath t => path_matches t (row_path r)
  | TMeta t => meta_holds t0 r t
  | TContent i => match cs !! i with Some a => c a | None => false end
  end.

(** A row passes a query, its content atoms being [cs]. *)
Definition passes (cs : list ContentAtom) (q : Query) : bool :=
  forallb (fun t => name_matches t (row_name r)) (names q) && forallb (fun t => path_matches t (row_path r)) (paths q) &&
  forallb (meta_holds t0 r) (meta q) && forallb (holds (test_holds cs)) (residual q).

(** Replacing a tree's leaves only adds content atoms, and keeps its
    meaning. *)
Definition maps_well {T U} (f : T -> list ContentAtom -> U * list ContentAtom) (hold : T -> bool)
    (hold' : list ContentAtom -> U -> bool) (x : T) : Prop :=
  forall cs, exists ext, (f x cs).2 = cs ++ ext /\ forall more, hold' (cs ++ ext ++ more) (f x cs).1 = hold x.

Lemma atom_test_maps a : maps_well atom_test atom_holds test_holds a.
Proof.
  intros cs. destruct a as [fold [t l|re g|t|t|a]]; unfold atom_test, atom_holds, test_holds; cbn;
    try (exists []; rewrite app_nil_r; by split).
  exists [a]. split; [done|]. intros more. by rewrite lookup_app_r, Nat.sub_diag by lia.
Qed.

Lemma map_list_maps {T U} (f : T -> list ContentAtom -> U * list ContentAtom) hold hold' l cs :
  Forall (maps_well f hold hold') l ->
  exists ext, (map_list f l cs).2 = cs ++ ext /\
    forall more, hold' (cs ++ ext ++ more) <$> (map_list f l cs).1 = hold <$> l.
Proof.
  intros Hl. revert cs. induction Hl as [|x l Hx _ IH]; intros cs; cbn [map_list].
  { exists []. by rewrite app_nil_r. }
  destruct (Hx cs) as (e1 & H1 & H1'). destruct (f x cs) as [y cs1]. cbn in *. subst cs1.
  destruct (IH (cs ++ e1)) as (e2 & H2 & H2'). destruct (map_list f l (cs ++ e1)) as [l' cs2]. cbn in *. subst cs2.
  exists (e1 ++ e2). split; [by rewrite app_assoc|]. intros more. cbn. f_equal.
  - rewrite <- app_assoc. apply H1'.
  - rewrite <- (H2' more). by rewrite <- !app_assoc.
Qed.

Lemma forallb_fmap {T} (f : T -> bool) (l : list T) : forallb f l = forallb id (f <$> l).
Proof. induction l as [|x l IH]; [done|]. cbn. by rewrite IH. Qed.
Lemma existsb_fmap {T} (f : T -> bool) (l : list T) : existsb f l = existsb id (f <$> l).
Proof. induction l as [|x l IH]; [done|]. cbn. by rewrite IH. Qed.

Lemma map_node_maps n : maps_well (map_node atom_test) (holds atom_holds) (fun cs => holds (test_holds cs)) n.
Proof.
  induction n as [a|all IH|any IH|n IH] using Node_ind'; intros cs; cbn [map_node].
  - destruct (atom_test_maps a cs) as (e & H1 & H2). destruct (atom_test a cs) as [t cs1]. by exists e.
  - destruct (map_list_maps _ _ _ _ cs IH) as (e & H1 & H2). destruct (map_list _ all cs) as [all' cs1].
    exists e. split; [done|]. intros more. cbn [holds fst]. rewrite (forallb_fmap _ all'), (forallb_fmap _ all). f_equal. apply H2.
  - destruct (map_list_maps _ _ _ _ cs IH) as (e & H1 & H2). destruct (map_list _ any cs) as [any' cs1].
    exists e. split; [done|]. intros more. cbn [holds fst]. rewrite (existsb_fmap _ any'), (existsb_fmap _ any). f_equal. apply H2.
  - destruct (IH cs) as (e & H1 & H2). destruct (map_node _ n cs) as [n' cs1]. exists e. split; [done|].
    intros more. cbn [holds fst]. f_equal. apply H2.
Qed.

(** One conjunct adds its meaning to the query's, and only adds content
    atoms. *)
Definition adds (q q' : Query) (b : bool) : Prop :=
  exists ext, atoms q' = atoms q ++ ext /\ forall more, passes (atoms q ++ ext ++ more) q' = passes (atoms q ++ ext ++ more) q && b.

Lemma residual_adds q tree : adds q (residual_conjunct q tree) (holds atom_holds tree).
Proof.
  unfold residual_conjunct. destruct (map_node_maps tree (atoms q)) as (e & H1 & H2).
  destruct (map_node atom_test tree (atoms q)) as [tree' cs]. cbn in *. subst cs. exists e. split; [done|].
  intros more. unfold passes. cbn. rewrite forallb_app. cbn. rewrite H2, andb_true_r. by rewrite andb_assoc.
Qed.

Lemma conjunct_adds q literals tree : adds q (conjunct q literals tree).1 (holds atom_holds tree).
Proof.
  assert (Hnone : forall q', atoms q' = atoms q -> (forall cs, passes cs q' = passes cs q && holds atom_holds tree) ->
    adds q q' (holds atom_holds tree)).
  { intros q' Ha Hp. exists []. split; [by rewrite app_nil_r|]. intros more. apply Hp. }
  destruct tree as [[fold [t l|re g|t|t|a]]|all|any|n]; try apply residual_adds;
    apply Hnone; try done; intros cs; unfold passes; cbn; rewrite forallb_app; cbn; rewrite andb_true_r;
    repeat match goal with |- context [forallb ?f ?l] => destruct (forallb f l) end; cbn;
    by rewrite ?andb_true_r, ?andb_false_r.
Qed.

Lemma conjuncts_add q literals trees : adds q (conjuncts q literals trees).1 (forallb (holds atom_holds) trees).
Proof.
  revert q literals. induction trees as [|tree trees IH]; intros q literals; cbn [conjuncts forallb].
  { exists []. split; [by rewrite app_nil_r|]. intros more. by rewrite andb_true_r. }
  pose proof (conjunct_adds q literals tree) as (e1 & H1 & H1'). destruct (conjunct q literals tree) as [q1 lits]. cbn in *.
  destruct (IH q1 lits) as (e2 & H2 & H2'). rewrite H1 in H2, H2'. exists (e1 ++ e2). split; [by rewrite app_assoc|].
  intros more. specialize (H2' more). specialize (H1' (e2 ++ more)). rewrite <- !app_assoc in *. rewrite H2', H1'.
  by rewrite andb_assoc.
Qed.

Lemma query_of_passes tree :
  passes (atoms (query_of t0 tree)) (query_of t0 tree) = holds atom_holds tree.
Proof.
  unfold query_of. pose proof (conjuncts_add (empty_query t0) [] (into_conjuncts tree)) as (e & H1 & H2).
  destruct (conjuncts _ _ _) as [q lits]. cbn in *. rewrite <- holds_conjuncts. specialize (H2 []).
  rewrite app_nil_r in H2. subst e. cbn in H2. unfold passes in *. cbn in *. exact H2.
Qed.
End flatten.

(** ** Indices

    A content test names its atom by its index, the driver its name test. *)

Section indices.
Context `{Engines, Cpu}.

(** The atoms a tree names, from left to right. *)
Fixpoint content_leaves (n : Node Test) : list nat :=
  match n with
  | NLeaf (TContent i) => [i]
  | NLeaf _ => []
  | NAnd all => concat (map content_leaves all)
  | NOr any => concat (map content_leaves any)
  | NNot inner => content_leaves inner
  end.

(** Numbering leaves goes on from the atoms there are. *)
Definition numbers {T U} (f : T -> list ContentAtom -> U * list ContentAtom) (leaves : U -> list nat) (x : T) : Prop :=
  forall cs, exists k, length (f x cs).2 = length cs + k /\ leaves (f x cs).1 = seq (length cs) k.

Lemma map_list_numbers {T U} (f : T -> list ContentAtom -> U * list ContentAtom) leaves l :
  Forall (numbers f leaves) l -> numbers (map_list f) (fun l' => concat (map leaves l')) l.
Proof.
  induction 1 as [|x l Hx _ IH]; intros cs; cbn [map_list]; [by exists 0; split; [cbn; lia|]|].
  destruct (Hx cs) as (k1 & H1 & H1'). destruct (f x cs) as [y cs1]. cbn [fst snd] in *.
  destruct (IH cs1) as (k2 & H2 & H2'). destruct (map_list f l cs1) as [l' cs2]. cbn [fst snd map concat] in *.
  exists (k1 + k2). split; [lia|]. by rewrite seq_app, H1', H2', H1.
Qed.

Lemma map_node_numbers n : numbers (map_node atom_test) content_leaves n.
Proof.
  induction n as [[fold a]|all IH|any IH|n IH] using Node_ind'; intros cs; cbn [map_node].
  - destruct a as [t l|re g|t|t|a]; unfold atom_test; cbn; try (by exists 0; split; [lia|]). exists 1. by rewrite length_app.
  - destruct (map_list_numbers _ _ _ IH cs) as (k & H1 & H2). destruct (map_list _ all cs) as [all' cs']. by exists k.
  - destruct (map_list_numbers _ _ _ IH cs) as (k & H1 & H2). destruct (map_list _ any cs) as [any' cs']. by exists k.
  - destruct (IH cs) as (k & H1 & H2). destruct (map_node _ n cs) as [n' cs']. by exists k.
Qed.

(** A query under construction: its trees number its atoms, and its drivers
    name its name tests. *)
Definition named_before (names : nat) (l : bytes * bool * option nat) : Prop :=
  match l.2 with Some i => i < names | None => True end.
Definition well_indexed (q : Query) (literals : list (bytes * bool * option nat)) : Prop :=
  concat (map content_leaves (residual q)) = seq 0 (length (atoms q)) /\ Forall (named_before (length (names q))) literals.

Lemma named_more n m l : n <= m -> Forall (named_before n) l -> Forall (named_before m) l.
Proof. intros Hle Hl. eapply Forall_impl; [exact Hl|]. intros [x [i|]]; unfold named_before; cbn; lia. Qed.

Lemma residual_indexed q literals tree : well_indexed q literals -> well_indexed (residual_conjunct q tree) literals.
Proof.
  intros [Hq Hl]. unfold residual_conjunct. destruct (map_node_numbers tree (atoms q)) as (k & H1 & H2).
  destruct (map_node atom_test tree (atoms q)) as [tree' cs]. cbn in *. split; [|done]. cbn.
  rewrite map_app, concat_app, Hq, H1, seq_app. cbn. by rewrite app_nil_r, H2.
Qed.

Lemma conjunct_indexed q literals tree : well_indexed q literals ->
  well_indexed (conjunct q literals tree).1 (conjunct q literals tree).2.
Proof.
  intros Hq. destruct tree as [[fold [t l|re g|t|t|a]]|all|any|n]; cbn [conjunct fst snd]; try by apply residual_indexed.
  - destruct Hq as [Hq Hl]. split; [done|]. cbn. rewrite length_app.
    apply (named_more _ (length (names q) + 1)) in Hl; [|lia]. destruct l as [l|]; [|done].
    apply Forall_app. split; [done|]. apply Forall_singleton. unfold named_before. cbn. lia.
  - destruct Hq as [Hq Hl]. split; [done|]. cbn. destruct (glob_literal g); [|done]. apply Forall_app. split; [done|].
    by apply Forall_singleton.
  - by destruct Hq.
  - by destruct Hq.
Qed.

Lemma conjuncts_indexed q literals trees : well_indexed q literals ->
  well_indexed (conjuncts q literals trees).1 (conjuncts q literals trees).2.
Proof.
  revert q literals. induction trees as [|tree trees IH]; intros q literals Hq; [done|]. cbn [conjuncts].
  pose proof (conjunct_indexed q literals tree Hq) as Hc. destruct (conjunct q literals tree) as [q1 l1]. by apply IH.
Qed.

Lemma max_in best l : max_by_key best l ∈ best :: l.
Proof.
  revert best. induction l as [|x l IH]; intros best; [left|]. cbn [max_by_key].
  specialize (IH (if key_le best x then x else best)). destruct (key_le best x); set_solver.
Qed.

Lemma query_of_indexed t0 tree : let q := query_of t0 tree in
  concat (map content_leaves (residual q)) = seq 0 (length (atoms q)) /\
  forall d i, driver q = Some d -> driver_from d = Some i -> i < length (names q).
Proof.
  unfold query_of. pose proof (conjuncts_indexed (empty_query t0) [] (into_conjuncts tree)) as Hc.
  destruct (conjuncts (empty_query t0) [] (into_conjuncts tree)) as [q literals]. cbn -[choose_driver] in *.
  destruct Hc as [Hr Hl]; [split; [done|constructor]|]. split; [done|]. intros d i Hd Hi. destruct literals as [|l literals]; [done|].
  cbn [choose_driver] in Hd. pose proof (max_in l literals) as Hin. rewrite Forall_forall in Hl. apply Hl in Hin.
  destruct (max_by_key l literals) as [[lit fold] from]. injection Hd as <-. cbn in Hi, Hin. by rewrite Hi in Hin.
Qed.

Lemma from_args_query_of args t0 q : from_args args t0 = Some (Ok q) -> exists tree, q = query_of t0 tree.
Proof.
  unfold from_args. destruct (lex_args args) as [tokens|e]; [|done]. destruct (parse tokens) as [[tree|e]|]; [|done..].
  intros [= <-]. by exists tree.
Qed.
End indices.

(** ** Properties *)

(** C32: what the arguments of a query mean is what is tested on a row: the
    accepted arguments are a query of the grammar, and for every row and every
    truth of the content atoms, the row's name, path and metadata tests and
    its residual trees all hold exactly when the parsed tree holds.  A content
    test's index always names its atom. *)
Theorem from_args_flattens `{Engines, Cpu} (args : list bytes) (t0 : Z) (q : Query)
    (Hq : from_args args t0 = Some (Ok q)) :
  exists tokens tree, lex_args args = Ok tokens /\ g_query tokens tree /\
    forall (r : RowFacts) (c : ContentAtom -> bool),
      let leaf t (s : unit) :=
        match t with
        | TContent i => (truth_of (is_some_and (atoms q !! i) c), s)
        | t => (test_row t0 r t, s)
        end in
      forallb (fun t => name_matches t (row_name r)) (names q) && forallb (fun t => path_matches t (row_path r)) (paths q) &&
      forallb (meta_holds t0 r) (meta q) && bool_decide ((eval_residual q leaf tt).1 = Yes) =
      holds (atom_holds t0 r c) tree.
Proof.
  unfold from_args in Hq. destruct (lex_args args) as [tokens|e]; [|done]. exists tokens.
  destruct (parse_grammar (RE := RegexError) (GE := GrepError) tokens) as (res & Hres & Hg). rewrite Hres in Hq.
  destruct res as [tree|e]; [|done]. exists tree. split; [done|]. split; [by apply Hg|]. injection Hq as <-.
  intros r c leaf. rewrite <- query_of_passes. unfold passes. f_equal. unfold eval_residual.
  set (q := query_of t0 tree). change (eval_all (eval leaf) (residual q) Yes tt) with (eval leaf (NAnd (residual q)) tt).
  assert ((eval leaf (NAnd (residual q)) tt).1 = truth_of (holds (test_holds t0 r c (atoms q)) (NAnd (residual q)))) as ->.
  { rewrite <- kleene_holds.
    apply (eval_sound leaf (fun _ => True) (fun t => truth_of (test_holds t0 r c (atoms q) t)) eq); try done; [by left|].
    intros t s _. split; [|done]. by destruct t. }
  cbn [holds]. by destruct (forallb _ (residual q)).
Qed.

(** Sizes and ages are read exactly, and never wrap: [size:] accepts a
    comparison, decimal digits and a unit exactly when the bytes fit a [u64],
    and then tests that many bytes; [mtime:] accepts them exactly when the
    seconds fit an [i64]. *)
Theorem sizes_and_ages_exact `{Engines} (v : bytes) (c : Cmp) :
  (forall n, parse_size v = Some (MSize c n) <->
    exists ds unit shift, digits_of (ds ++ unit) ds unit /\ v = cmp_prefix c ++ ds ++ unit /\ ds <> [] /\
      size_shift (to_ascii_lowercase <$> unit) = Some shift /\ n = (digits_value ds * 2 ^ shift)%N /\ (n < 2 ^ 64)%N) /\
  (forall secs, parse_age v = Some (MAge c secs) <->
    exists ds unit s, digits_of (ds ++ unit) ds unit /\ v = cmp_prefix c ++ ds ++ unit /\ ds <> [] /\ c <> Equal /\
      age_seconds unit = Some s /\ secs = (Z.of_N (digits_value ds) * s)%Z /\ (secs < 2 ^ 63)%Z).
Proof. split; intros; [apply parse_size_spec|apply parse_age_spec]. Qed.

(** C34: The tests of a query are well numbered: read from left to right, the
    content tests of its residual trees name its atoms 0, 1, ... once each
    and in order, and its driver names one of its name tests.  So indexing
    the atoms or the tests by them never panics. *)
Theorem from_args_well_indexed `{Engines, Cpu} (args : list bytes) (t0 : Z) (q : Query)
    (Hq : from_args args t0 = Some (Ok q)) :
  concat (map content_leaves (residual q)) = seq 0 (length (atoms q)) /\
  forall d i, driver q = Some d -> driver_from d = Some i -> i < length (names q).
Proof. destruct (from_args_query_of args t0 q Hq) as [tree ->]. apply query_of_indexed. Qed.

(** ** Samples *)

(** Engines whose regexes match nothing but keep their pattern, and whose
    texts are their bytes. *)
#[local] Instance sample_engines : Engines := {
  Regex := list u32 * bool;
  RegexError := unit;
  regex_new p fold := Ok (p, fold);
  regex_is_match _ _ := false;
  Grep := list u32;
  GrepError := unit;
  grep_compile p := Ok p;
  Text := bytes * bool;
  text_new arg exact := if existsb is_ascii_alphanumeric arg then Some (arg, exact) else None;
  normalize_token t := if forallb is_ascii_alphanumeric t then Some (to_ascii_lowercase <$> t) else None;
  has_token name token := bool_decide ((to_ascii_lowercase <$> name) = token) }.
#[local] Instance sample_cpu : Cpu := true.

Definition args_of (words : list string) : list bytes := ascii_bytes <$> words.

(** A query with every kind of conjunct. *)
Definition sample_args : list bytes :=
  args_of ["Main"; "type:f"; "("; "path:src"; "or"; "NOT"; "text:hello"; ")"; "size:>1k"; "*.rs"].

Example sample_query :
  match from_args sample_args 0 with
  | Some (Ok q) =>
      length (names q) = 2 /\ length (paths q) = 0 /\ meta q = [MType File; MSize Greater 1024] /\
      residual q = [NOr [NLeaf (TPath (PtSubstring (new_finder (ascii_bytes "src") true))); NNot (NLeaf (TContent 0))]] /\
      atoms q = [CaText (ascii_bytes "hello", false)] /\ strategy q = HeapScan /\
      (driver_from <$> driver q) = Some (Some 0) /\ (needle ∘ finder <$> driver q) = Some (ascii_bytes "main")
  | _ => False
  end.
Proof. vm_compute. by repeat split. Qed.

Example malformed_atoms :
  (fun w => from_args (args_of [w]) 0) <$> ["size:big"; "size:>1q"; "mtime:1d"; "mtime:<1x"; "type:socket"; "ext:"; "case:"]%string =
  (fun e => Some (Err e)) <$>
    [ESize (ascii_bytes "size:big"); ESize (ascii_bytes "size:>1q"); EAge (ascii_bytes "mtime:1d"); EAge (ascii_bytes "mtime:<1x");
     EType (ascii_bytes "type:socket"); EEmpty (ascii_bytes "ext:"); EEmpty (ascii_bytes "case:")].
Proof. by vm_compute. Qed.

Definition sample_q : Query :=
  match from_args sample_args 0 with Some (Ok q) => q | _ => empty_query 0 end.
Definition sample_row : RowFacts := mkRow (ascii_bytes "main.rs") (ascii_bytes "/src/main.rs") 4096 0 File.

Lemma from_args_flattens_witness :
  from_args sample_args 0 = Some (Ok sample_q) /\
  exists tokens tree, lex_args sample_args = Ok tokens /\ g_query tokens tree /\
    holds (atom_holds 0 sample_row (fun _ => true)) tree = false.
Proof.
  assert (Hq : from_args sample_args 0 = Some (Ok sample_q)) by (vm_compute; reflexivity).
  split; [done|]. destruct (from_args_flattens sample_args 0 sample_q Hq) as (tokens & tree & H1 & H2 & H3).
  exists tokens, tree. split_and!; [done..|]. rewrite <- (H3 sample_row (fun _ => true)).
  vm_compute. reflexivity.
Defined.

Lemma from_args_well_indexed_witness :
  from_args sample_args 0 = Some (Ok sample_q) /\ concat (map content_leaves (residual sample_q)) = [0] /\
  forall d i, driver sample_q = Some d -> driver_from d = Some i -> i < 2.
Proof.
  assert (Hq : from_args sample_args 0 = Some (Ok sample_q)) by (vm_compute; reflexivity).
  split; [done|]. exact (from_args_well_indexed sample_args 0 sample_q Hq).
Defined.
