(* ===== verification/Candidates.v ===== *)
(** * Candidates: what the index answers for one atom

    Models [crates/ferret-index/src/candidate.rs], the seam between a query
    and the index, and over it [crates/ferret-query/src/grep.rs] and
    [content.rs]: estimating a content atom from the dictionaries, reading its
    lists, and building the cursor of documents that may hold it.  [cap] and
    [exact_under_cap] are [crates/ferret-text/src/lib.rs]'s.

    A [Text] or [Grep] predicate is [Query]'s; the class [Contents] is what
    this code asks of them.  A loop whose order of questions matters is
    written in the monad of [Until]. *)
From S2P Require Import Prelude Word DocSet Cursor Manifest Postings Union Until Trigrams Blob Query.
#[local] Open Scope until_scope.
#[local] Remove Hints list_leaf list_leaf_laws plain_intpack plain_intpack_laws demo_segment demo_segment_laws : typeclass_instances.

(** ** Terms *)

(** [MAX_TOKEN_BYTES]. *)
Definition MAX_TOKEN_BYTES : nat := 64.

(** [token.get(end).is_some_and(|&b| b & 0xc0 == 0x80)]. *)
Definition continues (token : list u8) (end_ : nat) : bool :=
  is_some_and (token !! end_) (fun b => N.land b 192 =? 128)%N.

(** [cap]'s loop and [cap]. *)
Fixpoint cap_end (token : list u8) (end_ : nat) : nat :=
  match end_ with
  | 0 => 0
  | S less => if continues token end_ then cap_end token less else end_
  end.
Definition cap (token : list u8) : list u8 := take (cap_end token (Nat.min (length token) MAX_TOKEN_BYTES)) token.

Definition exact_under_cap (token : list u8) : bool := length token <? MAX_TOKEN_BYTES - 3.

(** ** The seam *)

(** [candidate::Atom]. *)
Inductive IndexAtom := ITerm (term : list u8) | ITrigram (key : trigram).

(** A key's bytes. *)
Definition key_bytes (k : trigram) : list u8 := let '(a, b, c) := k in [a; b; c].

(** [Estimate]. *)
Record Estimate := mkEstimate { e_docs : u64; e_maybe : u64; e_exact : bool; e_enumerable : bool; e_bytes : u64 }.

(** [u64] addition, wrapping as a release build does. *)
Definition u64_add (a b : u64) : u64 := ((a + b) mod 2 ^ 64)%N.

(** What an estimate reads of a segment: an entry's [df] and
    [fingerprint_bound]. *)
Class SegmentBounds `{Segment} := {
  entry_df : term_entry -> u32;
  fingerprint_bound : segment -> list u8 -> u64
}.

(** What this code asks of the content predicates. *)
Class Contents `{Engines} := {
  text_arg : Text -> list u8;
  text_whole : Text -> option (list u8);
  text_units : Text -> list (list u8);
  text_case : Text -> bool;
  text_trigrams : Text -> Trigrams;
  grep_planning : Grep -> Trigrams
}.

Section seam.
Context {HI : Intpack} {HSeg : Segment} {HB : SegmentBounds} (ck : Checkpoint).

(** [View]: the manifest and its open segments. *)
Record View := mkView { v_manifest : Manifest; v_segments : list segment; v_trigrams : list segment }.

Inductive Source := SPostings (view : View) | STrigrams (view : View).

Inductive Candidates := CandPostings (term : Term).

(** The loops of [Source::estimate_until]. *)
Definition estimate_term (term : list u8) (e : Estimate) (s : segment) : Until ck Estimate :=
  check ck ;;
  let n := fingerprint_bound s term in
  entry <- lift (seg_entry s term);
  let docs := u64_add (e_docs e) n in
  let docs := match entry with Some entry => u64_add docs (entry_df entry) | None => docs end in
  done (mkEstimate docs (u64_add (e_maybe e) n) (e_exact e && (n =? 0)%N) true 0).

Definition estimate_key (key : list u8) (e : Estimate) (s : segment) : Until ck Estimate :=
  check ck ;;
  entry <- lift (seg_entry s key);
  done (mkEstimate (match entry with Some entry => u64_add (e_docs e) (entry_df entry) | None => e_docs e end) 0 true true 0).

(** [Source::estimate_until]. *)
Definition estimate_until (s : Source) (atom : IndexAtom) : Until ck (option Estimate) :=
  check ck ;;
  match s, atom with
  | SPostings v, ITerm term =>
      e <- fold_until (estimate_term term) (v_segments v) (mkEstimate 0 0 true true 0); done (Some e)
  | STrigrams v, ITrigram key =>
      e <- fold_until (estimate_key (key_bytes key)) (v_trigrams v) (mkEstimate 0 0 true true 0); done (Some e)
  | _, _ => done None
  end.

(** [Source::read_until]. *)
Definition source_read (s : Source) (atom : IndexAtom) : Until ck (option Candidates) :=
  check ck ;;
  match s, atom with
  | SPostings v, ITerm term =>
      t <- (fun c => Some (Postings.read_until ck (v_segments v) term c)); done (Some (CandPostings t))
  | STrigrams v, ITrigram key =>
      t <- (fun c => Some (Postings.read_until ck (v_trigrams v) (key_bytes key) c)); done (Some (CandPostings t))
  | _, _ => done None
  end.

(** [Candidates::estimate], [cursor] and [probe], which is the cursor. *)
Definition cand_estimate (c : Candidates) : Estimate :=
  match c with CandPostings t => mkEstimate (docs t) (records t) (Postings.exact t) true (Postings.bytes t) end.
Definition cand_cursor (c : Candidates) : Cursor :=
  match c with CandPostings t => CPostings (term_cursor t) end.

(** [Pinned]. *)
Record Pinned := mkPinned { pin_view : option View; live : DocSet; uncovered : DocSet }.

(** [View::uncovered_set_until] and [Pinned::new_until]. *)
Definition uncovered_set_until (v : View) (live : DocSet) (c : ck_state ck) : option DocSet * ck_state ck :=
  tail_until ck live (frontier (v_manifest v)) (unreadable (v_manifest v)) c.
Definition pinned_new_until (view : option View) (live : DocSet) (c : ck_state ck) : option Pinned * ck_state ck :=
  match view with
  | Some v => let '(u, c) := uncovered_set_until v live c in (mkPinned view live <$> u, c)
  | None => (Some (mkPinned view live live), c)
  end.

(** [Pinned::sources]. *)
Definition sources (p : Pinned) : list Source :=
  match pin_view p with Some v => [SPostings v; STrigrams v] | None => [] end.

(** [Pinned::atom], [not] and [top]. *)
Definition pinned_atom (p : Pinned) (tree : Cursor) : Cursor :=
  if is_empty_set (uncovered p) then tree
  else
    let uncovered := bits (uncovered p) CMaybe in
    match tree with CEmpty => uncovered | tree => or_new [tree; uncovered] end.
Definition pinned_not (p : Pinned) (negated : Cursor) : Cursor := and_not (bits (live p) CYes) negated.
Definition pinned_top (p : Pinned) (tree : Cursor) : Cursor := cursor_filter tree (bits (live p) CYes).
End seam.

(** ** Trigram plans *)

Section grep.
Context {HI : Intpack} {HSeg : Segment} {HB : SegmentBounds} (ck : Checkpoint).

(** [u64::saturating_add] is [sat_add]; [u64::from(docs.len())]. *)
Definition live_len (p : Pinned) : u64 := len (live p).

(** [GrepAtom]. *)
Record GrepAtom := mkGrepAtom { g_tree : Trigrams; g_lists : list (trigram * option Candidates) }.

(** [df]. *)
Definition df (p : Pinned) (key : trigram) : Until ck u64 :=
  found <- first_some (fun s => estimate_until ck s (ITrigram key)) (sources p);
  done (match found with Some e => e_docs e | None => live_len p end).

(** The order of [select]'s [sort_by]. *)
Definition bound_le (a b : Trigrams * u64) : bool :=
  match N.compare a.2 b.2 with Lt => true | Gt => false | Eq => cmp_le a.1 b.1 end.

(** [select]. *)
Fixpoint select (frequencies : gmap trigram u64) (live : u64) (tree : Trigrams) : Until ck (Trigrams * u64) :=
  check ck ;;
  match tree with
  | All => done (All, live)
  | None_ => done (None_, 0%N)
  | Key k => done (tree, default live (frequencies !! k))
  | And parts =>
      children <- each (select frequencies live) parts;
      let children := take 4 (sort_by bound_le children) in
      let bound := match snd <$> children with [] => live | b :: bs => fold_left N.min bs b end in
      done (And (fst <$> children), N.min bound live)
  | Or parts =>
      children <- each (select frequencies live) parts;
      let bound := fold_left (fun sum c => sat_add sum (snd c)) children 0%N in
      done (Or (fst <$> children), N.min bound live)
  end.

(** [ranked]: a [BTreeMap] is a [gmap]. *)
Definition ranked (planning : Trigrams) (p : Pinned) : Until ck (Trigrams * gmap trigram u64) :=
  counts <- each (fun key => n <- df p key; done (key, n)) (keys planning);
  let frequencies : gmap trigram u64 := list_to_map counts in
  match fit_by_frequency frequencies planning with
  | Some fitted => done (fitted, frequencies)
  | None => panic
  end.

(** [select_ranked]. *)
Definition select_ranked (planning : Trigrams) (p : Pinned) : Until ck (Trigrams * gmap trigram u64) :=
  r <- ranked planning p;
  selected <- select r.2 (live_len p) r.1;
  done (selected.1, r.2).

(** [GrepReport] and [explain]. *)
Record GrepReport := mkGrepReport {
  r_derived : Trigrams; r_selected : Trigrams; r_frequencies : list (trigram * u64); r_keys : list trigram
}.
Definition explain (planning : Trigrams) (p : Pinned) : Until ck GrepReport :=
  r <- select_ranked planning p;
  done (mkGrepReport planning r.1
          (sort_by (fun a b => cmp_le a.1 b.1) (map_to_list r.2)) (keys r.1)).

(** [GrepAtom::estimate_trigrams_until]. *)
Definition estimate_trigrams_until (planning : Trigrams) (p : Pinned) : Until ck u64 :=
  r <- ranked planning p;
  selected <- select r.2 (live_len p) r.1;
  done (N.min (sat_add selected.2 (len (uncovered p))) (live_len p)).

(** [GrepAtom::read_selected_until] and [read_trigrams_until]. *)
Definition read_selected_until (tree : Trigrams) (p : Pinned) : Until ck GrepAtom :=
  lists <- each (fun key =>
    found <- first_some (fun s => source_read ck s (ITrigram key)) (sources p); done (key, found)) (keys tree);
  done (mkGrepAtom tree lists).
Definition read_trigrams_until (planning : Trigrams) (p : Pinned) : Until ck GrepAtom :=
  r <- select_ranked planning p; read_selected_until r.1 p.

(** [lists.iter().find(|(k, _)| k == key).and_then(|(_, c)| c.as_ref())]. *)
Definition list_of (lists : list (trigram * option Candidates)) (key : trigram) : option Candidates :=
  match list_find (fun e => e.1 = key) lists with Some (_, e) => e.2 | None => None end.

(** [compile]. *)
Fixpoint grep_compile (steps fuel : nat) (lists : list (trigram * option Candidates)) (p : Pinned) (tree : Trigrams)
    : Until ck (Cursor) :=
  check ck ;;
  match tree with
  | All => done (bits (live p) CMaybe)
  | None_ => done CEmpty
  | Key key =>
      done (match list_of lists key with
            | Some c => maybe_of (cand_cursor c)
            | None => bits (live p) CMaybe
            end)
  | And parts => cs <- each (grep_compile steps fuel lists p) parts; done (cursor_and cs)
  | Or parts => cs <- each (grep_compile steps fuel lists p) parts; or_until ck steps fuel cs (bound (live p))
  end.

(** [whole]. *)
Fixpoint whole (lists : list (trigram * option Candidates)) (tree : Trigrams) : option bool :=
  match tree with
  | All => Some true
  | None_ => Some false
  | Key key => match list_of lists key with Some _ => None | None => Some true end
  | And parts =>
      let parts := map (whole lists) parts in
      if bool_decide (Some false ∈ parts) then Some false
      else if forallb (fun p => bool_decide (p = Some true)) parts then Some true else None
  | Or parts =>
      let parts := map (whole lists) parts in
      if bool_decide (None ∈ parts) then None else Some (bool_decide (Some true ∈ parts))
  end.

(** [GrepAtom::tree_cursor_until] and [cursor_until]. *)
Definition tree_cursor_until (steps fuel : nat) (g : GrepAtom) (p : Pinned) : Until ck (Cursor) :=
  cur <- grep_compile steps fuel (g_lists g) p (g_tree g); done (pinned_atom p cur).
Definition grep_cursor_until (steps fuel : nat) (g : GrepAtom) (p : Pinned) : Until ck (Cursor) :=
  check ck ;;
  if bool_decide (whole (g_lists g) (g_tree g) = Some true) then done (bits (live p) CMaybe)
  else tree_cursor_until steps fuel g p.
End grep.

(** [GrepAtom::bound], whose cancellation never answers. *)
Definition grep_bound `{SegmentBounds} (g : GrepAtom) (p : Pinned) : option u64 :=
  let frequencies : gmap trigram u64 :=
    list_to_map ((fun e => (e.1, match e.2 with Some c => e_docs (cand_estimate c) | None => live_len p end)) <$> g_lists g) in
  '(r, _) ← select never frequencies (live_len p) (g_tree g) tt;
  Some (sat_add (match r with Ok (_, bound) => bound | Err _ => live_len p end) (len (uncovered p))).

(** ** Content atoms *)

Section content.
Context {HI : Intpack} {HSeg : Segment} {HB : SegmentBounds} {HE : Engines} {HC : Contents} (ck : Checkpoint).

(** [TextAtom]; a [whole] of [Some(None)] is one no source answers. *)
Record TextAtom := mkTextAtom {
  t_text : Text; t_whole : option (option Candidates); t_units : list (option Candidates); t_screen : option GrepAtom
}.
Inductive ReadAtom := RText (atom : TextAtom) | RGrep (atom : GrepAtom).

(** [answered_by_trigrams]. *)
Definition answered_by_trigrams (t : Text) : bool := has_base64_run (text_arg t).

(** [text.units().len() == 1 && text.units().next() == text.whole()]. *)
Definition term_only (t : Text) : bool :=
  (length (text_units t) =? 1) && bool_decide (head (text_units t) = text_whole t).

(** The closure [lookup] of [TextAtom::read_until]. *)
Definition lookup (p : Pinned) (term : list u8) : Until ck (option Candidates) :=
  first_some (fun s => source_read ck s (ITerm (cap term))) (sources p).

(** [opt.map(f).transpose()?]. *)
Definition map_opt {A B} (f : A -> Until ck B) (o : option A) : Until ck (option B) :=
  match o with Some a => b <- f a; done (Some b) | None => done None end.

(** [TextAtom::read_until]. *)
Definition text_read_until (t : Text) (p : Pinned) : Until ck TextAtom :=
  check ck ;;
  if answered_by_trigrams t then
    screen <- read_trigrams_until ck (text_trigrams t) p;
    done (mkTextAtom t None [] (Some screen))
  else
    whole <- map_opt (lookup p) (text_whole t);
    units <- (if term_only t then done []
              else each (lookup p) (dedup (sort_by cmp_le (text_units t))));
    done (mkTextAtom t whole units None).

(** The closure [df] of [TextAtom::bounds_until], with [sources_exact] and
    [fingerprints]. *)
Definition unit_df (p : Pinned) (acc : bool * u64) (term : list u8) : Until ck (u64 * (bool * u64)) :=
  check ck ;;
  found <- first_some (fun s => estimate_until ck s (ITerm (cap term))) (sources p);
  done (match found with
        | Some e => (e_docs e, (acc.1 && e_exact e, u64_add acc.2 (e_maybe e)))
        | None => (live_len p, (false, u64_add acc.2 (live_len p)))
        end).

(** [TextAtom::bounds_until]. *)
Definition bounds_until (t : Text) (p : Pinned) : Until ck (u64 * Certainty * u64) :=
  check ck ;;
  if answered_by_trigrams t then
    possible <- estimate_trigrams_until ck (text_trigrams t) p;
    done (possible, CMaybe, possible)
  else
    whole <- map_opt (unit_df p (true, 0%N)) (text_whole t);
    let acc := match whole with Some w => w.2 | None => (true, 0%N) end in
    units <- (if term_only t then done (None, acc)
              else fold_until (fun '(least, acc) unit =>
                     n <- unit_df p acc unit;
                     done (Some (match least with Some m => N.min m n.1 | None => n.1 end), n.2))
                   (text_units t) (None, acc));
    let acc := units.2 in
    let docs := u64_add (match whole with Some w => w.1 | None => 0%N end) (default 0%N units.1) in
    let decides := is_some_and (text_whole t) (fun w => negb (text_case t) && exact_under_cap w) in
    let certainty :=
      if acc.1 && term_only t && negb (is_empty (sources p)) && decides then CYes else CMaybe in
    let possible := sat_add docs (len (uncovered p)) in
    done (possible, certainty,
          if term_only t && decides then u64_add acc.2 (len (uncovered p)) else possible).

(** The closure [term] of [TextAtom::cursor_until]. *)
Definition term_or_live (p : Pinned) (found : option Candidates) : Cursor :=
  match found with Some c => cand_cursor c | None => bits (live p) CMaybe end.

(** [TextAtom::cursor_until]. *)
Definition text_cursor_until (steps fuel : nat) (a : TextAtom) (p : Pinned) : Until ck Cursor :=
  check ck ;;
  match t_screen a with
  | Some screen => grep_cursor_until ck steps fuel screen p
  | None =>
      let whole :=
        match t_whole a, text_whole (t_text a) with
        | Some found, Some token =>
            Some (if negb (text_case (t_text a)) && exact_under_cap token then term_or_live p found
                  else maybe_of (term_or_live p found))
        | _, _ => None
        end in
      let units := maybe_of (cursor_and (term_or_live p <$> t_units a)) in
      tree <- match whole with
              | Some whole =>
                  if is_empty (t_units a) then done whole
                  else or_until ck steps fuel [whole; units] (bound (live p))
              | None => done units
              end;
      done (pinned_atom p tree)
  end.

(** [ContentAtom::estimate_until] and [read_until]. *)
Definition content_estimate_until (a : ContentAtom) (p : Pinned) : Until ck (u64 * Certainty * u64) :=
  match a with
  | CaText t => bounds_until t p
  | CaGrep g =>
      possible <- estimate_trigrams_until ck (grep_planning g) p; done (possible, CMaybe, possible)
  end.
Definition content_read_until (a : ContentAtom) (p : Pinned) (plan : option GrepReport) : Until ck ReadAtom :=
  match a with
  | CaText t => atom <- text_read_until t p; done (RText atom)
  | CaGrep g =>
      atom <- match plan with
              | Some plan => read_selected_until ck (r_selected plan) p
              | None => (report <- explain ck (grep_planning g) p; read_selected_until ck (r_selected report) p)
              end;
      done (RGrep atom)
  end.

(** [ReadAtom::cursor_until]. *)
Definition atom_cursor_until (steps fuel : nat) (a : ReadAtom) (p : Pinned) : Until ck Cursor :=
  match a with
  | RText a => text_cursor_until steps fuel a p
  | RGrep g => grep_cursor_until ck steps fuel g p
  end.
End content.
