(* ===== verification/CandidatesSpec.v ===== *)
(** * CandidatesSpec: what reading an atom promises

    The contract of [Candidates]: over an index that holds the keys and the
    capped tokens of the documents it covers, the cursor read for a content
    atom is a fresh cursor whose answer never contradicts the atom's truth on
    a live document: a certain document holds it, an absent one does not
    ([answers_on]).  [Corpus] is the documents' truth, [CorpusLaws] what the
    verifier promises of a predicate and its tokens, [indexed] what a segment
    holds. *)
From S2P Require Import Prelude Word Bytes DocSet Expr Cursor Manifest Postings Union Until Trigrams Blob Query Candidates.
#[local] Open Scope until_scope.
#[local] Remove Hints list_leaf list_leaf_laws plain_intpack plain_intpack_laws demo_segment demo_segment_laws : typeclass_instances.

(** ** Capped terms *)

Lemma leading_byte b : (b < 256)%N -> (b < 128 \/ 192 <= b)%N -> (N.land b 192 =? 128)%N = false.
Proof.
  intros Hb Hr.
  assert (Hall : forallb (fun n => implb ((N.of_nat n <? 128) || (192 <=? N.of_nat n))%N
                                     (negb (N.land (N.of_nat n) 192 =? 128)%N)) (seq 0 256) = true) by (vm_compute; reflexivity).
  assert (Hin : In (N.to_nat b) (seq 0 256)) by (apply in_seq; lia).
  rewrite forallb_forall in Hall. specialize (Hall _ Hin).
  rewrite N2Nat.id in Hall. revert Hall. replace ((b <? 128) || (192 <=? b))%N with true; [by destruct (_ =? _)%N|].
  symmetry. apply orb_true_iff. destruct Hr; [left; by apply N.ltb_lt|right; by apply N.leb_le].
Qed.

(** Text is its first character, of one to four bytes, and text. *)
Lemma utf8_first l : utf8_decode l <> None -> l <> [] ->
  exists a char rest, l = a :: char ++ rest /\ length char <= 3 /\ (N.land a 192 =? 128)%N = false /\
    utf8_decode rest <> None.
Proof.
  assert (Hmap : forall (A B : Type) (f : A -> B) (o : option A), f <$> o <> None -> o <> None)
    by (intros A B f []; done).
  intros Hd Hne. destruct l as [|a l]; [done|]. cbn [utf8_decode] in Hd. exists a.
  destruct (N.ltb_spec a 128) as [Ha|_]; [exists [], l; split_and!; [done|cbn; lia|apply leading_byte; lia|by eapply Hmap]|].
  destruct l as [|b l1]; [done|].
  destruct (in_range 194 223 a && continuation b) eqn:E2.
  { apply andb_prop in E2 as [E2 _]. unfold in_range in E2. apply andb_prop in E2 as [E3%N.leb_le E4%N.leb_le].
    exists [b], l1. split_and!; [done|cbn; lia|apply leading_byte; lia|by eapply Hmap]. }
  destruct l1 as [|c l2]; [done|]. match type of Hd with context [if in_range 224 239 a && ?s && ?t then _ else _] =>
    destruct (in_range 224 239 a && s && t) eqn:E3 end.
  { apply andb_prop in E3 as [[E3 _]%andb_prop _]. unfold in_range in E3. apply andb_prop in E3 as [E3%N.leb_le E4%N.leb_le].
    exists [b; c], l2. split_and!; [done|cbn; lia|apply leading_byte; lia|by eapply Hmap]. }
  destruct l2 as [|d l3]; [done|]. match type of Hd with context [if in_range 240 244 a && ?s && ?t && ?u then _ else _] =>
    destruct (in_range 240 244 a && s && t && u) eqn:E4 end; [|done].
  apply andb_prop in E4 as [[[E4 _]%andb_prop _]%andb_prop _]. unfold in_range in E4. apply andb_prop in E4 as [E4%N.leb_le E5%N.leb_le].
  exists [b; c; d], l3. split_and!; [done|cbn; lia|apply leading_byte; lia|by eapply Hmap].
Qed.

(** Among four bytes of a text in a row, one starts a character or the text
    has ended. *)
Lemma utf8_boundary l i : utf8_decode l <> None -> exists j, j < 4 /\ continues l (i + j) = false.
Proof.
  remember (length l) as n eqn:Hn. revert l i Hn. induction n as [n IH] using lt_wf_ind. intros l i -> Hd.
  destruct l as [|x l]; [exists 0; split; [lia|]; unfold continues; by rewrite lookup_nil|].
  destruct (utf8_first (x :: l) Hd ltac:(done)) as (a & char & rest & Heq & Hc & Ha & Hr).
  rewrite Heq in *. clear x l Heq Hd.
  assert (Hrest : forall k, continues (a :: char ++ rest) (S (length char) + k) = continues rest k).
  { intros k. unfold continues. change ((a :: char ++ rest) !! (S (length char) + k)) with ((char ++ rest) !! (length char + k)).
    rewrite lookup_app_r by lia. by replace (length char + k - length char) with k by lia. }
  destruct i as [|i]; [exists 0; split; [lia|done]|]. destruct (Nat.le_gt_cases (length char) i) as [Hge|Hlt].
  - destruct (IH (length rest)) with (l := rest) (i := i - length char) as (j & Hj & Hcont); [cbn; rewrite length_app; lia|done|done|].
    exists j. split; [done|]. rewrite <- Hcont, <- Hrest. f_equal. lia.
  - exists (length char - i). split; [lia|]. replace (S i + (length char - i)) with (S (length char) + 0) by lia. rewrite Hrest.
    destruct rest as [|b rest]; [by unfold continues; rewrite lookup_nil|].
    destruct (utf8_first (b :: rest) Hr ltac:(done)) as (b' & ? & ? & [= -> _] & _ & Hb & _). exact Hb.
Qed.

Lemma cap_end_spec token n : cap_end token n <= n /\ forall j, cap_end token n < j <= n -> continues token j = true.
Proof.
  induction n as [|n [IH1 IH2]]; cbn [cap_end]; [split; [lia|intros j ?; lia]|].
  destruct (continues token (S n)) eqn:E; [|split; [lia|intros j ?; lia]].
  split; [lia|]. intros j Hj. destruct (decide (j = S n)) as [->|]; [done|]. apply IH2. lia.
Qed.

(** A cut loses at most three bytes. *)
Lemma cap_end_utf8 token : utf8_decode token <> None -> MAX_TOKEN_BYTES < length token ->
  MAX_TOKEN_BYTES - 3 <= cap_end token MAX_TOKEN_BYTES <= MAX_TOKEN_BYTES.
Proof.
  intros Hu Hl. destruct (cap_end_spec token MAX_TOKEN_BYTES) as [H1 H2]. split; [|done].
  destruct (utf8_boundary token (MAX_TOKEN_BYTES - 3) Hu) as (j & Hj & Hc).
  apply Nat.nlt_ge. intros Hlt. rewrite H2 in Hc; [done|unfold MAX_TOKEN_BYTES in *; lia].
Qed.

Lemma cap_short token : length token <= MAX_TOKEN_BYTES -> cap token = token.
Proof.
  intros Hl. unfold cap. replace (Nat.min (length token) MAX_TOKEN_BYTES) with (length token) by lia.
  enough (Hend : cap_end token (length token) = length token) by (rewrite Hend; apply take_ge; lia).
  destruct (length token) as [|n] eqn:Hn; [done|]. cbn [cap_end]. unfold continues.
  by rewrite lookup_ge_None_2 by lia.
Qed.

(** A stored term equal to an exact term's is that term. *)
Lemma exact_cap token stored : exact_under_cap token = true -> utf8_decode stored <> None ->
  cap stored = cap token -> stored = token.
Proof.
  intros Ht%Nat.ltb_lt Hu Hc. unfold MAX_TOKEN_BYTES in Ht. rewrite (cap_short token) in Hc by (unfold MAX_TOKEN_BYTES; lia).
  destruct (Nat.le_gt_cases (length stored) MAX_TOKEN_BYTES) as [Hl|Hl]; [by rewrite cap_short in Hc|].
  exfalso. pose proof (cap_end_utf8 stored Hu Hl) as Hend. unfold cap in Hc.
  replace (Nat.min (length stored) MAX_TOKEN_BYTES) with MAX_TOKEN_BYTES in Hc by lia.
  apply (f_equal length) in Hc. rewrite length_take in Hc. unfold MAX_TOKEN_BYTES in *. lia.
Qed.

(** ** Answers *)

(** A cursor's answer as a truth: absence is No. *)
Definition cert (o : option Certainty) : Truth :=
  match o with None => No | Some CMaybe => Maybe | Some CYes => Yes end.

(** A pinned view: both sets well formed, and the uncovered documents live. *)
Class pinned_wf `{Segment} (p : Pinned) : Prop := {
  live_wf : set_wf (live p);
  live_bound : (bound (live p) <= 2 ^ 32)%N;
  uncovered_wf : set_wf (uncovered p);
  uncovered_bound : (bound (uncovered p) <= 2 ^ 32)%N;
  uncovered_live d : mem (uncovered p) d = true -> mem (live p) d = true
}.

Definition is_live `{Segment} (p : Pinned) (d : u32) : Prop := mem (live p) d = true.
Definition covered `{Segment} (p : Pinned) (d : u32) : Prop := is_live p d /\ mem (uncovered p) d = false.

Section answers.
Context {HI : Intpack} {HIL : IntpackLaws HI} {HSeg : Segment} (p : Pinned) {Hp : pinned_wf p}.

(** A fresh cursor, [h] high at most, within the truth of [b] on every live
    document. *)
Definition answers_on (h : nat) (b : u32 -> bool) (cur : Cursor) : Prop :=
  ok cur 0 /\ height cur <= h /\ forall d, is_live p d -> refines (cert (den cur d)) (truth_of (b d)).

Lemma bits_den docs k d : den (bits docs k) d = if mem docs d then Some k else None.
Proof. done. Qed.

Lemma empty_mem docs d : set_wf docs -> is_empty_set docs = true -> mem docs d = false.
Proof.
  intros (_ & _ & _ & Hlen) Hz%N.eqb_eq. destruct (mem docs d) eqn:Hm; [|done].
  apply elem_of_members in Hm. rewrite Hlen in Hz. destruct (members docs); [by apply not_elem_of_nil in Hm|cbn in Hz; lia].
Qed.

(** [Pinned::atom] adds the uncovered documents as Maybe. *)
Lemma pinned_atom_den tree d :
  den (pinned_atom p tree) d = if mem (uncovered p) d then kor (den tree d) (Some CMaybe) else den tree d.
Proof.
  unfold pinned_atom. pose proof (empty_mem (uncovered p) d uncovered_wf) as He.
  destruct (is_empty_set (uncovered p)); [by rewrite (He eq_refl)|].
  assert (Hk : forall o, kor o None = o) by (by intros [[]|]).
  assert (Ho : den (or_new [tree; bits (uncovered p) CMaybe]) d =
               if mem (uncovered p) d then kor (den tree d) (Some CMaybe) else den tree d).
  { cbn [or_new den bits]. rewrite !fmap_cons. cbn. destruct (mem (uncovered p) d); by rewrite ?Hk. }
  destruct tree; try exact Ho. cbn. by destruct (mem (uncovered p) d).
Qed.

Lemma pinned_atom_fresh h tree : ok tree 0 -> 1 <= h -> height tree <= h ->
  ok (pinned_atom p tree) 0 /\ height (pinned_atom p tree) <= S h.
Proof.
  intros Hok H1 Hh. assert (Hb : ok (bits (uncovered p) CMaybe) 0) by (apply bits_fresh; by destruct Hp).
  assert (Ho : ok (or_new [tree; bits (uncovered p) CMaybe]) 0 /\ height (or_new [tree; bits (uncovered p) CMaybe]) <= S h).
  { split; [apply or_new_ok|apply or_new_height]; apply Forall_cons_2; try done; by apply Forall_singleton. }
  unfold pinned_atom. destruct (is_empty_set _); [split; [done|lia]|]. destruct tree; try exact Ho.
  split; [done|cbn; lia].
Qed.

Lemma pinned_atom_answers h b tree : ok tree 0 -> 1 <= h -> height tree <= h ->
  (forall d, covered p d -> refines (cert (den tree d)) (truth_of (b d))) ->
  (forall d, is_live p d -> mem (uncovered p) d = true -> den tree d <> Some CYes) ->
  answers_on (S h) b (pinned_atom p tree).
Proof.
  intros Hok H1 Hh Hcov Hunc. destruct (pinned_atom_fresh h tree Hok H1 Hh) as [Hok' Hh']. split; [done|]. split; [done|].
  intros d Hd. rewrite pinned_atom_den. destruct (mem (uncovered p) d) eqn:Hu; [|by apply Hcov].
  left. specialize (Hunc d Hd Hu). by destruct (den tree d) as [[]|].
Qed.
End answers.

(** [Pinned::new]'s uncovered documents: the live ones at or above the
    manifest's frontier and its unreadable ones, or every live one. *)
Definition uncovered_of `{Segment} (view : option View) (d : u32) : bool :=
  match view with
  | Some v => (frontier (v_manifest v) <=? d)%N || bool_decide (d ∈ unreadable (v_manifest v))
  | None => true
  end.

Lemma pinned_new_spec `{Segment} ck `{StopFlag ck} view docs c r c' :
  set_wf docs -> (bound docs <= 2 ^ 32)%N -> pinned_new_until ck view docs c = (r, c') ->
  stopped c' \/ exists p, r = Some p /\ pinned_wf p /\ live p = docs /\ pin_view p = view /\
    forall d, mem (uncovered p) d = mem docs d && uncovered_of view d.
Proof.
  intros Hwf Hb. unfold pinned_new_until, uncovered_of. destruct view as [v|].
  - unfold uncovered_set_until. destruct (tail_until ck docs _ _ c) as [u c1] eqn:Ht. intros [= <- <-].
    destruct (tail_until_spec ck _ _ _ _ _ _ Hwf Ht) as [Hs|(s & -> & Hs & Hsb & Hm)]; [by left|]. right.
    exists (mkPinned (Some v) docs s). split; [done|]. split; [|done].
    split; cbn [live uncovered]; [done|done|done|by rewrite Hsb|]. intros d. rewrite Hm. by intros [? _]%andb_prop.
  - intros [= <- <-]. right. exists (mkPinned None docs docs). split; [done|]. split; [by split|].
    split; [done|]. split; [done|]. intros d. by rewrite andb_true_r.
Qed.

(** ** Trigram trees *)

(** No conjunction is empty: an empty AND is no cursor's. *)
Fixpoint full (t : Trigrams) : bool :=
  match t with
  | And parts => negb (is_empty parts) && forallb full parts
  | Or parts => forallb full parts
  | _ => true
  end.

Fixpoint tree_height (t : Trigrams) : nat :=
  match t with
  | And parts | Or parts => S (fold_right Nat.max 1 (map tree_height parts))
  | _ => 2
  end.

Lemma part_height t parts : t ∈ parts -> tree_height t <= fold_right Nat.max 1 (map tree_height parts).
Proof. induction 1; cbn; lia. Qed.

Section grep.
Context {HI : Intpack} {HIL : IntpackLaws HI} {HSeg : Segment} (p : Pinned) {Hp : pinned_wf p}.
Context (ck : Checkpoint) {HF : StopFlag ck} {HS : Sticky ck HF} (steps fuel : nat).
Context (Hsteps : N.to_nat (2 ^ 32) < steps).

(** What the lists read say of a document's keys: a key without a list says
    nothing. *)
Definition list_has (lists : list (trigram * option Candidates)) (d : u32) (key : trigram) : bool :=
  match list_of lists key with Some c => bool_decide (den (cand_cursor c) d <> None) | None => true end.

Definition lists_ok (lists : list (trigram * option Candidates)) : Prop :=
  Forall (fun e => match e.2 with Some c => ok (cand_cursor c) 0 | None => True end) lists.

Lemma list_of_ok lists key c : lists_ok lists -> list_of lists key = Some c -> ok (cand_cursor c) 0.
Proof.
  unfold lists_ok, list_of. rewrite Forall_forall. intros Hl.
  destruct (list_find (fun e => e.1 = key) lists) as [[i e]|] eqn:Hf; [|done].
  apply list_find_Some in Hf as (Hi & _ & _). apply list_elem_of_lookup_2, Hl in Hi. intros He. by rewrite He in Hi.
Qed.

(** A cursor that is Maybe where [b] and No elsewhere. *)
Definition maybe_if (b : bool) : option Certainty := if b then Some CMaybe else None.

Lemma all_of_holds (has : trigram -> bool) parts cs d :
  Forall2 (fun t x => den x d = maybe_if (holds has t)) parts cs -> parts <> [] ->
  all_of cs d = maybe_if (forallb (holds has) parts).
Proof.
  unfold all_of. intros Hall Hne. destruct Hall as [|t x parts cs Hx Hall]; [done|]. clear Hne.
  revert t x Hx. induction Hall as [|t' x' parts cs Hx' _ IH]; intros t x Hx; rewrite fmap_cons; cbn [fold_right forallb].
  - rewrite kand_Yes, Hx, andb_true_r. done.
  - rewrite (IH t' x' Hx'), Hx. unfold maybe_if. cbn [forallb]. by destruct (holds has t), (holds has t' && _).
Qed.

Lemma any_of_holds (has : trigram -> bool) parts cs d :
  Forall2 (fun t x => den x d = maybe_if (holds has t)) parts cs ->
  any_of cs d = maybe_if (existsb (holds has) parts).
Proof.
  unfold any_of. induction 1 as [|t x parts cs Hx _ IH]; [done|]. rewrite fmap_cons. cbn [fold_right existsb].
  rewrite IH, Hx. by destruct (holds has t), (existsb _ parts).
Qed.

Definition grep_cursor (lists : list (trigram * option Candidates)) (t : Trigrams) (cur : Cursor) : Prop :=
  ok cur 0 /\ height cur <= tree_height t /\ forall d, is_live p d -> den cur d = maybe_if (holds (list_has lists d) t).

Lemma live_bits : ok (bits (live p) CMaybe) 0 /\ forall d, is_live p d -> den (bits (live p) CMaybe) d = Some CMaybe.
Proof. split; [apply bits_fresh; by destruct Hp|]. unfold is_live. intros d Hd. rewrite bits_den. by rewrite Hd. Qed.

Lemma live_below d : is_live p d -> (d < bound (live p))%N.
Proof. unfold is_live, mem. by intros [?%N.ltb_lt _]%andb_prop. Qed.

(** What [grep_compile] owes, given enough fuel. *)
Definition compiles lists (t : Trigrams) : Prop :=
  full t = true -> tree_height t + N.to_nat (2 ^ 32) + 2 <= fuel ->
  runs no_error (grep_compile ck steps fuel lists p t) (grep_cursor lists t).

Lemma compiles_parts lists parts : Forall (compiles lists) parts -> forallb full parts = true ->
  S (fold_right Nat.max 1 (map tree_height parts)) + N.to_nat (2 ^ 32) + 2 <= fuel ->
  runs no_error (each (grep_compile ck steps fuel lists p) parts) (Forall2 (grep_cursor lists) parts).
Proof.
  rewrite forallb_forall, Forall_forall. intros Hc Hfull Hfuel. apply runs_each, Forall_forall. intros t Ht.
  pose proof (part_height t parts Ht). apply Hc; [done|by apply Hfull, list_elem_of_In|lia].
Qed.

Lemma parts_fresh lists parts cs : Forall2 (grep_cursor lists) parts cs ->
  Forall (fun x => ok x 0 /\ height x <= fold_right Nat.max 1 (map tree_height parts)) cs.
Proof.
  induction 1 as [|t x parts cs (Hx & Hh & _) _ IH]; [constructor|]. cbn [map fold_right].
  constructor; [split; [done|lia]|]. eapply Forall_impl; [exact IH|]. intros y [? ?]. split; [done|lia].
Qed.

Lemma parts_den_all lists parts cs d : is_live p d -> Forall2 (grep_cursor lists) parts cs ->
  Forall2 (fun t x => den x d = maybe_if (holds (list_has lists d) t)) parts cs.
Proof. intros Hd Hcs. eapply Forall2_impl; [exact Hcs|]. intros t x (_ & _ & Hx). by apply Hx. Qed.

Lemma grep_compile_spec lists t : lists_ok lists -> compiles lists t.
Proof.
  intros Hl. destruct live_bits as [Hlb Hld].
  induction t as [| |key|parts IH|parts IH] using tree_ind'; intros Hfull Hfuel; cbn [grep_compile]; checkpoint.
  - apply runs_done. split; [done|]. split; [cbn; lia|]. exact Hld.
  - apply runs_done. split; [done|]. split; [cbn; lia|]. done.
  - apply runs_done. unfold grep_cursor. cbn [holds]. unfold list_has.
    destruct (list_of lists key) as [c|] eqn:Hc; [|split; [done|]; split; [cbn; lia|exact Hld]].
    pose proof (list_of_ok lists key c Hl Hc) as Hok. split; [by apply maybe_of_ok|]. split.
    + destruct c. cbn. lia.
    + intros d _. rewrite maybe_of_den. by destruct (den (cand_cursor c) d).
  - cbn [full] in Hfull. apply andb_prop in Hfull as [Hne Hfull].
    eapply runs_bind; [by apply (compiles_parts lists)|]. intros cs Hcs. apply runs_done. split; [|split].
    + apply cursor_and_ok. eapply Forall_impl; [by eapply parts_fresh|]. by intros x [? _].
    + apply cursor_and_height. eapply Forall_impl; [by eapply parts_fresh|]. by intros x [_ ?].
    + intros d Hd. rewrite cursor_and_den. pose proof (parts_den_all lists parts cs d Hd Hcs) as Hall.
      apply all_of_holds in Hall; [|by destruct parts]. by destruct Hcs.
  - eapply runs_bind; [by apply (compiles_parts lists)|]. intros cs Hcs. cbn [tree_height] in Hfuel.
    eapply runs_mono; [apply (runs_union ck steps fuel (fold_right Nat.max 1 (map tree_height parts)))|].
    + by eapply parts_fresh.
    + clear. induction parts; cbn; lia.
    + lia.
    + done.
    + by destruct Hp.
    + intros cur (Hok & Hh & Hden). split; [done|]. split; [exact Hh|]. intros d Hd.
      rewrite (Hden d (live_below d Hd)). by apply any_of_holds, parts_den_all.
Qed.
(** A whole tree holds whatever the lists say. *)
Lemma whole_holds lists d t b : whole lists t = Some b -> holds (list_has lists d) t = b.
Proof.
  revert b. induction t as [| |key|parts IH|parts IH] using tree_ind'; intros b; cbn [whole holds].
  - by intros [= <-].
  - by intros [= <-].
  - unfold list_has. destruct (list_of lists key); [done|]. by intros [= <-].
  - destruct (bool_decide_reflect (Some false ∈ map (whole lists) parts)) as [Hin|_].
    + intros [= <-]. apply list_elem_of_In, in_map_iff in Hin as (t & Ht & Hin%list_elem_of_In).
      rewrite Forall_forall in IH. apply (IH t Hin) in Ht. apply not_true_iff_false. intros Hall.
      rewrite forallb_forall in Hall. rewrite Hall in Ht; [done|by apply list_elem_of_In].
    + destruct (forallb _ _) eqn:Hall; [|done]. intros [= <-]. apply forallb_forall. intros t Ht.
      rewrite forallb_forall in Hall. specialize (Hall (whole lists t) (in_map _ _ _ Ht)).
      apply bool_decide_eq_true in Hall. rewrite Forall_forall in IH. apply IH; [by apply list_elem_of_In|done].
  - destruct (bool_decide_reflect (None ∈ map (whole lists) parts)) as [|Hn]; [done|]. intros [= <-].
    assert (Hex : forall t, t ∈ parts -> whole lists t = Some (holds (list_has lists d) t)).
    { intros t Ht. destruct (whole lists t) as [b|] eqn:Hw.
      - f_equal. symmetry. rewrite Forall_forall in IH. by apply IH.
      - destruct Hn. rewrite <- Hw. by apply list_elem_of_In, in_map, list_elem_of_In. }
    apply eq_true_iff_eq. rewrite existsb_exists, bool_decide_eq_true, list_elem_of_In, in_map_iff. split.
    + intros (t & Ht & Hh). exists t. split; [|done]. rewrite Hex by (by apply list_elem_of_In). by rewrite Hh.
    + intros (t & Hw & Ht). exists t. split; [done|]. rewrite Hex in Hw by (by apply list_elem_of_In). by injection Hw.
Qed.

(** The cursor of a grep atom: Maybe on the uncovered documents and on those
    whose lists satisfy the tree. *)
Lemma grep_cursor_until_spec g : lists_ok (g_lists g) -> full (g_tree g) = true ->
  tree_height (g_tree g) + N.to_nat (2 ^ 32) + 2 <= fuel ->
  runs no_error (grep_cursor_until ck steps fuel g p) (fun cur =>
    ok cur 0 /\ height cur <= S (tree_height (g_tree g)) /\
    forall d, is_live p d -> den cur d = maybe_if (mem (uncovered p) d || holds (list_has (g_lists g) d) (g_tree g))).
Proof.
  intros Hl Hfull Hfuel. destruct live_bits as [Hlb Hld]. unfold grep_cursor_until. checkpoint.
  destruct (bool_decide_reflect (whole (g_lists g) (g_tree g) = Some true)) as [Hw|_].
  - apply runs_done. split; [done|]. split; [cbn; lia|]. intros d Hd. rewrite (whole_holds _ d _ _ Hw), orb_true_r. by apply Hld.
  - eapply runs_bind; [by apply grep_compile_spec|]. intros cur (Hok & Hh & Hden). apply runs_done.
    assert (H1 : 1 <= tree_height (g_tree g)) by (destruct (g_tree g); cbn; lia).
    destruct (pinned_atom_fresh p (tree_height (g_tree g)) cur Hok H1 Hh) as [Hok' Hh']. split; [done|]. split; [done|].
    intros d Hd. rewrite pinned_atom_den, Hden by done.
    by destruct (mem (uncovered p) d), (holds _ (g_tree g)).
Qed.

End grep.

(** ** Selection *)

Section selection.
Context (ck : Checkpoint) {HF : StopFlag ck}.

Lemma canonical_full t : canonical t = true -> full t = true.
Proof.
  induction t as [| |key|parts IH|parts IH] using tree_ind'; cbn [canonical full]; try done;
    intros [[Hlen%Nat.leb_le _]%andb_prop Hall]%andb_prop; rewrite forallb_forall in Hall; rewrite Forall_forall in IH.
  - apply andb_true_intro. split; [by destruct parts; cbn in *; [lia|]|]. apply forallb_forall. intros t Ht.
    apply IH; [by apply list_elem_of_In|]. specialize (Hall t Ht). by apply andb_prop in Hall as [_ ?].
  - apply forallb_forall. intros t Ht. apply IH; [by apply list_elem_of_In|]. specialize (Hall t Ht). by apply andb_prop in Hall as [_ ?].
Qed.
(** What selection keeps: nothing empty, nothing higher, nothing stronger. *)
Definition weakened (t t' : Trigrams) : Prop :=
  full t' = true /\ tree_height t' <= tree_height t /\ forall has : trigram -> bool, holds has t = true -> holds has t' = true.

Lemma heights_le_parts (parts parts' : list Trigrams) :
  Forall (fun t' => exists t, t ∈ parts /\ tree_height t' <= tree_height t) parts' ->
  fold_right Nat.max 1 (map tree_height parts') <= fold_right Nat.max 1 (map tree_height parts).
Proof.
  induction 1 as [|t' parts' (t & Ht & Hh) _ IH]; cbn [map fold_right]; [clear; induction parts; cbn; lia|].
  pose proof (part_height t parts Ht). lia.
Qed.

Lemma select_parts frequencies lv parts :
  Forall (fun t => full t = true -> runs no_error (select ck frequencies lv t) (fun r => weakened t r.1)) parts ->
  forallb full parts = true ->
  runs no_error (each (select ck frequencies lv) parts) (fun rs => Forall2 weakened parts (rs.*1)).
Proof.
  rewrite forallb_forall, Forall_forall. intros IH Hfull.
  eapply runs_mono; [apply (runs_each _ _ (fun t r => weakened t r.1)), Forall_forall|].
  - intros t Ht. apply IH; [done|]. by apply Hfull, list_elem_of_In.
  - intros rs. by rewrite Forall2_fmap_r.
Qed.

(** The children an AND keeps. *)
Lemma kept_children parts (children : list (Trigrams * u64)) : parts <> [] -> Forall2 weakened parts (children.*1) ->
  weakened (And parts) (And ((take 4 (sort_by bound_le children)).*1)).
Proof.
  intros Hne Hch. set (kept := take 4 (sort_by bound_le children)).
  assert (Hkept : Forall (fun t' => exists t, t ∈ parts /\ weakened t t') (kept.*1)).
  { apply Forall_forall. intros t' (r & -> & Hr)%list_elem_of_fmap. unfold kept in Hr. apply elem_of_take in Hr as (i & Hr & _).
    apply list_elem_of_lookup_2 in Hr. rewrite sort_by_perm in Hr. apply (list_elem_of_fmap_2 fst) in Hr.
    apply list_elem_of_lookup in Hr as [j Hr]. destruct (Forall2_lookup_r _ _ _ _ _ Hch Hr) as (t & Ht & Hw).
    exists t. split; [by eapply list_elem_of_lookup_2|done]. }
  rewrite Forall_forall in Hkept. split; [|split].
  - cbn [full]. apply andb_true_intro. split.
    + pose proof (Permutation_length (sort_by_perm bound_le children)) as Hl. apply Forall2_length in Hch. rewrite length_fmap in Hch.
      unfold kept. destruct (sort_by bound_le children); [|done]. by destruct parts, children.
    + apply forallb_forall. intros t' Ht'. by destruct (Hkept t') as (t & _ & ? & _); [by apply list_elem_of_In|].
  - cbn [tree_height]. apply le_n_S, heights_le_parts, Forall_forall. intros t' (t & Ht & _ & Hh & _)%Hkept. by exists t.
  - cbn [holds]. intros has Hall. rewrite forallb_forall in Hall. apply forallb_forall. intros t' Ht'.
    destruct (Hkept t') as (t & Ht & _ & _ & Hw); [by apply list_elem_of_In|]. apply Hw, Hall. by apply list_elem_of_In.
Qed.

Lemma select_spec frequencies lv t : full t = true -> runs no_error (select ck frequencies lv t) (fun r => weakened t r.1).
Proof.
  induction t as [| |key|parts IH|parts IH] using tree_ind'; intros Hfull; cbn [select]; checkpoint;
    try (apply runs_done; by split_and!); cbn [full] in Hfull.
  - apply andb_prop in Hfull as [Hne Hfull]. eapply runs_bind; [by apply select_parts|]. intros children Hch.
    apply runs_done, kept_children; [by destruct parts|done].
  - eapply runs_bind; [by apply select_parts|]. intros children Hkept. apply runs_done. cbn [fst]. clear -Hkept.
    induction Hkept as [|t t' parts l (Ht & Hh & Hw) _ (IH1 & IH2 & IH3)]; [done|]. cbn [full tree_height holds] in *.
    split; [|split]; cbn [full tree_height holds forallb map fold_right existsb]; [by rewrite Ht, IH1|lia|].
    intros has [Hp|Hp]%orb_prop; [by rewrite (Hw has Hp)|]. rewrite (IH3 has Hp). apply orb_true_r.
Qed.

End selection.

(** ** Reading *)

(** The interface's errors: only a cancellation is [Cancelled]. *)
Class SegmentCancels `{Segment} := {
  entry_error s term : seg_entry s term <> Err Cancelled;
  read_error s e : seg_read s e <> Err Cancelled;
  records_error ck (HF : StopFlag ck) s term c c' : seg_fingerprint_docs ck s term c = (Err Cancelled, c') -> stopped c'
}.

(** What the index holds: [segs] keep no fingerprint records, and give of a
    term the live documents of [gives]. *)
Record indexed `{Segment} (p : Pinned) (segs : list segment) (gives : list u8 -> u32 -> Prop) : Prop := {
  ix_records s ck term c ds c' : s ∈ segs -> seg_fingerprint_docs ck s term c = (Ok ds, c') -> ds = [];
  ix_docs term d : is_live p d ->
    gives term d <-> exists s e h, s ∈ segs /\ seg_entry s term = Ok (Some e) /\ seg_read s e = Ok h /\ d ∈ hit_docs (Some h)
}.

Section reading.
Context {HI : Intpack} {HIL : IntpackLaws HI} {HSeg : Segment} {HSL : SegmentLaws HSeg} {HSC : SegmentCancels}.
Context (p : Pinned) (ck : Checkpoint) {HF : StopFlag ck}.

Lemma read_loop_cancelled segs term floor found c c' :
  read_loop ck segs term floor found c = (Err Cancelled, c') -> stopped c'.
Proof.
  revert floor found c. induction segs as [|s segs IH]; intros floor found c; cbn [read_loop]; [done|].
  destruct (ck_ask ck c) as [stop c1] eqn:Hask. pose proof (stopped_ask _ _ _ Hask) as Hs1.
  destruct stop; [intros [= <-]; by apply Hs1; left|]. destruct (_ <? _)%N; [done|].
  destruct (seg_entry s term) as [entry|e] eqn:He; [|intros [= -> _]; by apply entry_error in He].
  destruct (ck_ask ck c1) as [stop c2] eqn:Hask2. pose proof (stopped_ask _ _ _ Hask2) as Hs2.
  destruct stop; [intros [= <-]; by apply Hs2; left|].
  destruct (read_hit s entry) as [h|e] eqn:Hh.
  - destruct (seg_fingerprint_docs ck s term c2) as [[maybe|e] c3] eqn:Hm; [by apply IH|].
    intros [= -> ->]. by eapply records_error.
  - intros [= -> _]. unfold read_hit in Hh. destruct entry as [e|]; [|done].
    destruct (seg_read s e) as [h|e'] eqn:Hr; [done|]. injection Hh as ->. by apply read_error in Hr.
Qed.

(** A list of the live documents of [gives], all certain. *)
Definition lists_docs (gives : u32 -> Prop) (c : Candidates) : Prop :=
  ok (cand_cursor c) 0 /\
  forall d, is_live p d -> (den (cand_cursor c) d = Some CYes <-> gives d) /\ den (cand_cursor c) d <> Some CMaybe.

(** The documents of the parts read are those the segments give. *)
Lemma parts_given segs gives term ps d : indexed p segs gives -> is_live p d -> Forall2 (seg_answer term) segs ps ->
  d ∈ concat (part_docs <$> ps) <-> gives term d.
Proof.
  intros [Hrec Hdocs] Hd Ha. rewrite (Hdocs term d Hd). clear Hdocs. rewrite elem_of_concat. split.
  - intros (l & (q & -> & Hq)%list_elem_of_fmap & Hin). apply list_elem_of_lookup in Hq as [i Hq].
    destruct (Forall2_lookup_r _ _ _ _ _ Ha Hq) as (s & Hs & _ & (entry & He & Hh) & ck' & c & c' & Hm).
    apply list_elem_of_lookup_2 in Hs. unfold part_docs in Hin. rewrite (Hrec _ _ _ _ _ _ Hs Hm), app_nil_r in Hin.
    unfold read_hit in Hh. destruct entry as [e|]; [|injection Hh as Hh; rewrite <- Hh in Hin; by apply not_elem_of_nil in Hin].
    destruct (seg_read s e) as [h|] eqn:Hr; [|done]. injection Hh as Hh. rewrite <- Hh in Hin. by exists s, e, h.
  - intros (s & e & h & Hs & He & Hr & Hin). apply list_elem_of_lookup in Hs as [i Hs].
    destruct (Forall2_lookup_l _ _ _ _ _ Ha Hs) as (q & Hq & _ & (entry & He' & Hh) & _).
    exists (part_docs q). split; [apply list_elem_of_fmap_2; by eapply list_elem_of_lookup_2|].
    rewrite He in He'. injection He' as <-. unfold read_hit in Hh. rewrite Hr in Hh. injection Hh as Hh.
    unfold part_docs. rewrite <- Hh. by apply elem_of_app; left.
Qed.

Lemma term_read_spec segs gives term : indexed p segs gives ->
  runs any_error (fun c => Some (Postings.read_until ck segs term c)) (fun t => lists_docs (gives term) (CandPostings t)).
Proof.
  intros Hix c. destruct (Postings.read_until ck segs term c) as [r c'] eqn:Hread. exists r, c'. split; [done|].
  destruct r as [t|e]; [|destruct e; try done; by eapply read_loop_cancelled].
  apply read_loop_spec in Hread as (ps & [Ha Hparts _ _ Hf Ho]). cbn [parts app] in Hparts.
  destruct (answers_wf term 0 segs ps Ha Hf Ho) as (Hwf & Hden & _).
  assert (Hno : no_records (concat (kept <$> ps))).
  { apply no_records_kept. destruct Hix as [Hrec _]. clear -Ha Hrec.
    induction Ha as [|s q segs ps (_ & _ & ck' & c & c' & Hm) _ IH]; [done|]. rewrite fmap_cons. cbn [concat].
    rewrite (Hrec s _ _ _ _ _ ltac:(left) Hm). apply IH. intros s' ? ? ? ? ? Hs'. apply Hrec. by right. }
  split; [apply term_fresh_ok; by rewrite Hparts|]. intros d Hd. pose proof (parts_given segs gives term ps d Hix Hd Ha) as Hg.
  change (den (cand_cursor (CandPostings t)) d) with (parts_den (parts t) d). rewrite Hparts.
  destruct (parts_den (concat (kept <$> ps)) d) as [k|] eqn:Hk.
  - assert (Hy : parts_den (concat (kept <$> ps)) d = Some CYes) by (apply parts_yes; [done|by rewrite Hk]).
    rewrite Hk in Hy. rewrite Hy. split; [|done]. split; [intros _|done]. apply Hg, parts_den_docs. by rewrite <- Hden, Hk.
  - split; [|done]. split; [done|]. intros Hgd%Hg%parts_den_docs. by rewrite <- Hden, Hk in Hgd.
Qed.
End reading.

(** ** The documents *)

(** The documents' truth: their trigrams, the tokens the term index keeps of
    them, and whether each content atom holds of them.  A document that holds
    an atom only through a token of a base64-like run is a documented miss of
    the term index: [doc_holds] is the truth outside such runs. *)
Class Corpus `{Engines} := {
  doc_key : u32 -> trigram -> bool;
  doc_emits : u32 -> list u8 -> Prop;
  doc_holds : ContentAtom -> u32 -> bool
}.

(** What the verifier promises of its predicates, and the tokenizer of its
    tokens ([ferret-verify/src/text.rs], [trigram.rs]). *)
Class CorpusLaws `{Contents} {HCo : Corpus} := {
  emits_utf8 d token : doc_emits d token -> utf8_decode token <> None;
  text_needs t d : has_base64_run (text_arg t) = false -> doc_holds (CaText t) d = true ->
    (exists w, text_whole t = Some w /\ doc_emits d w) \/ Forall (doc_emits d) (text_units t);
  text_suffices t d w : text_case t = false -> text_whole t = Some w -> doc_emits d w -> doc_holds (CaText t) d = true;
  text_keys t d : doc_holds (CaText t) d = true -> holds (doc_key d) (text_trigrams t) = true;
  text_canonical t : canonical (text_trigrams t) = true;
  text_some_unit t : text_units t <> [];
  grep_keys g d : doc_holds (CaGrep g) d = true -> holds (doc_key d) (grep_planning g) = true;
  grep_canonical g : canonical (grep_planning g) = true
}.

(** A view indexes the documents it covers: their capped tokens and their
    trigrams.  With no view every live document is uncovered. *)
Definition indexes `{Corpus} `{Segment} (p : Pinned) : Prop :=
  match pin_view p with
  | Some v =>
      indexed p (v_segments v) (fun term d => covered p d /\ exists token, doc_emits d token /\ cap token = term) /\
      indexed p (v_trigrams v) (fun key d => covered p d /\ exists k, key_bytes k = key /\ doc_key d k = true)
  | None => forall d, is_live p d -> mem (uncovered p) d = true
  end.

(** The heights of the trees an atom's cursor may have. *)
Definition planning_height (t : Trigrams) : nat := Nat.max (KEYS + 2) (tree_height t).

Lemma canonical_height t : canonical t = true ->
  tree_height t <= weight t + 2 /\ (constant t = false -> 1 <= weight t).
Proof.
  revert t.
  assert (Hparts : forall (kind : Trigrams -> bool) parts,
    Forall (fun t => canonical t = true -> tree_height t <= weight t + 2 /\ (constant t = false -> 1 <= weight t)) parts ->
    forallb (fun q => negb (constant q) && kind q && canonical q) parts = true -> 2 <= length parts ->
    fold_right Nat.max 1 (map tree_height parts) <= list_sum (map weight parts) + 1 /\ length parts <= list_sum (map weight parts)).
  { intros kind parts Hall. induction Hall as [|t parts Ht Hall IH]; [cbn; lia|]. cbn [forallb length map fold_right].
    intros [[[Hc _]%andb_prop Hcan]%andb_prop Hrest]%andb_prop Hlen. apply negb_true_iff in Hc. destruct (Ht Hcan) as [Hh Hw].
    specialize (Hw Hc). change (list_sum (weight t :: map weight parts)) with (weight t + list_sum (map weight parts)).
    destruct parts as [|t2 [|t3 parts]]; [cbn in *; lia| |].
    - apply Forall_cons in Hall as [Ht2 _]. cbn in Hrest. apply andb_prop in Hrest as [[[Hc2 _]%andb_prop Hcan2]%andb_prop _].
      apply negb_true_iff in Hc2. destruct (Ht2 Hcan2) as [Hh2 Hw2]. specialize (Hw2 Hc2). cbn. lia.
    - destruct (IH Hrest ltac:(cbn; lia)) as [IH1 IH2]. cbn [length] in *. lia. }
  intros t. induction t as [| |key|parts IH|parts IH] using tree_ind'; cbn [canonical tree_height weight constant]; try (cbn; lia);
    intros [[Hlen%Nat.leb_le _]%andb_prop Hall]%andb_prop; destruct (Hparts _ parts IH Hall Hlen); lia.
Qed.

Section grep_reading.
Context {HI : Intpack} {HIL : IntpackLaws HI} {HSeg : Segment} {HSL : SegmentLaws HSeg} {HSC : SegmentCancels}.
Context {HB : SegmentBounds} {HE : Engines} {HCo : Corpus}.
Context (p : Pinned) (Hix : indexes p) (ck : Checkpoint) {HF : StopFlag ck}.

Lemma runs_entry s term : runs any_error (lift (ck := ck) (seg_entry s term)) (fun _ => True).
Proof.
  intros c. eexists _, _. split; [reflexivity|]. pose proof (entry_error s term). by destruct (seg_entry s term) as [|[]].
Qed.

Lemma estimate_runs s atom : runs any_error (estimate_until ck s atom) (fun _ => True).
Proof.
  unfold estimate_until. checkpoint. destruct s, atom; try (by apply runs_done); (eapply runs_bind;
    [apply (runs_fold _ _ (fun _ => True)); [apply Forall_forall|done]|intros; by apply runs_done]);
    intros s _ e _; unfold estimate_term, estimate_key; checkpoint; (eapply runs_bind; [apply runs_entry|]);
    intros; by apply runs_done.
Qed.

Lemma df_runs key : runs any_error (df ck p key) (fun _ => True).
Proof.
  unfold df. eapply runs_bind; [|intros; by apply runs_done]. apply (runs_first _ _ (fun _ => True)); [|done].
  apply Forall_forall. intros s _. by eapply runs_mono; [apply estimate_runs|].
Qed.

(** The list of a key, from the first source that answers. *)
Lemma key_read_spec k : runs any_error (first_some (fun s => source_read ck s (ITrigram k)) (sources p)) (fun o =>
  match o with
  | Some c => lists_docs p (fun d => covered p d /\ doc_key d k = true) c
  | None => pin_view p = None
  end).
Proof.
  unfold indexes, sources in *. destruct (pin_view p) as [v|]; [|by apply runs_done]. destruct Hix as [_ Hkeys].
  cbn [first_some]. eapply runs_bind; [unfold source_read; checkpoint; by apply (runs_done _ _ (fun o => o = None))|].
  intros o ->. eapply runs_bind with (P := fun o => exists c, o = Some c /\ lists_docs p (fun d => covered p d /\ doc_key d k = true) c).
  - unfold source_read. checkpoint. eapply runs_bind; [by apply (term_read_spec p ck _ _ (key_bytes k) Hkeys)|].
    intros t [Hok Ht]. apply runs_done. eexists. split; [done|]. split; [done|]. intros d Hd. destruct (Ht d Hd) as [Hy Hm].
    split; [|done]. rewrite Hy. split; [|intros [Hc Hk]; split; [done|by exists k]].
    intros (Hc & k' & Heq & Hk'). split; [done|]. destruct k as [[a b] c], k' as [[a' b'] c']. cbn in Heq. by injection Heq as -> -> ->.
  - intros o (c & -> & Hc). by apply runs_done.
Qed.

(** What reading a tree's lists gives. *)
Record grep_read (tree : Trigrams) (g : GrepAtom) : Prop := {
  gr_tree : g_tree g = tree;
  gr_lists : lists_ok (g_lists g);
  gr_has d key : covered p d -> doc_key d key = true -> list_has (g_lists g) d key = true
}.

Lemma read_selected_spec tree : runs any_error (read_selected_until ck tree p) (grep_read tree).
Proof.
  unfold read_selected_until. eapply runs_bind.
  { apply (runs_each _ _ (fun key e => e.1 = key /\ match e.2 with
      Some c => lists_docs p (fun d => covered p d /\ doc_key d key = true) c | None => True end)).
    apply Forall_forall. intros key _. eapply runs_bind; [apply key_read_spec|]. intros o Ho. apply runs_done. by destruct o. }
  intros lists Hl. apply runs_done.
  assert (Hent : forall e c, e ∈ lists -> e.2 = Some c -> lists_docs p (fun d => covered p d /\ doc_key d e.1 = true) c).
  { intros e c He Hc. apply list_elem_of_lookup in He as [i He]. destruct (Forall2_lookup_r _ _ _ _ _ Hl He) as (key & _ & <- & Hd).
    by rewrite Hc in Hd. }
  split; cbn [g_tree g_lists]; [done| |].
  - apply Forall_forall. intros e He. destruct e.2 as [c|] eqn:Hc; [|done]. by destruct (Hent e c He Hc).
  - intros d key Hcov Hk. unfold list_has, list_of. destruct (list_find _ lists) as [[i e]|] eqn:Hf; [|done].
    apply list_find_Some in Hf as (He & <- & _). apply list_elem_of_lookup_2 in He.
    destruct e.2 as [c|] eqn:Hc; [|done]. destruct (Hent e c He Hc) as [_ Hd]. apply bool_decide_eq_true.
    destruct Hcov as [Hlive Hcov]. destruct (Hd d Hlive) as [Hy _]. by rewrite (proj2 Hy).
Qed.

Lemma ranked_spec planning : canonical planning = true ->
  runs any_error (ranked ck planning p) (fun r => canonical r.1 = true /\
    tree_height r.1 <= planning_height planning /\ forall has, holds has planning = true -> holds has r.1 = true).
Proof.
  intros Hc. unfold ranked. eapply runs_bind; [apply (runs_each _ _ (fun _ _ => True)), Forall_forall|].
  { intros key _. eapply runs_bind; [apply df_runs|]. intros n _. by apply runs_done. }
  intros counts _. destruct (fit_by_frequency_spec (list_to_map counts) planning Hc) as (t & -> & Ht & _ & Hw & Hh).
  apply runs_done. cbn [fst]. split; [done|]. split; [|done]. unfold planning_height. destruct Hw as [->|Hw]; [lia|].
  pose proof (proj1 (canonical_height t Ht)). lia.
Qed.

Lemma select_ranked_spec planning : canonical planning = true ->
  runs any_error (select_ranked ck planning p) (fun r =>
    full r.1 = true /\ tree_height r.1 <= planning_height planning /\
    forall has, holds has planning = true -> holds has r.1 = true).
Proof.
  intros Hc. unfold select_ranked. eapply runs_bind; [by apply ranked_spec|]. intros r (Hcan & Hh & Hw). eapply runs_bind.
  { eapply runs_weaken; [apply select_spec; by apply canonical_full|done]. }
  intros s (Hs & Hsh & Hsw). apply runs_done. cbn [fst]. split; [done|]. split; [lia|]. intros has Hp. by apply Hsw, Hw.
Qed.

Lemma estimate_trigrams_runs planning : canonical planning = true ->
  runs any_error (estimate_trigrams_until ck planning p) (fun _ => True).
Proof.
  intros Hc. unfold estimate_trigrams_until. eapply runs_bind; [by apply ranked_spec|]. intros r (Hcan & _). eapply runs_bind.
  { eapply runs_weaken; [apply select_spec; by apply canonical_full|done]. }
  intros s _. by apply runs_done.
Qed.

(** An atom read for a planning tree: enough of its lists were read. *)
Definition screens (planning : Trigrams) (g : GrepAtom) : Prop :=
  lists_ok (g_lists g) /\ full (g_tree g) = true /\ tree_height (g_tree g) <= planning_height planning /\
  forall d, covered p d -> holds (doc_key d) planning = true -> holds (list_has (g_lists g) d) (g_tree g) = true.

Lemma read_trigrams_spec planning : canonical planning = true ->
  runs any_error (read_trigrams_until ck planning p) (screens planning).
Proof.
  intros Hc. eapply runs_bind; [by apply select_ranked_spec|]. intros r (Hf & Hh & Hw).
  eapply runs_mono; [apply read_selected_spec|]. intros g [Ht Hl Hhas]. unfold screens. rewrite Ht. split_and!; [done..|].
  intros d Hcov Hp. apply (holds_mono (doc_key d)); [|by apply Hw]. intros k. by apply Hhas.
Qed.
End grep_reading.

(** ** Text atoms *)

(** The two halves of an answer within the truth. *)
Lemma refines_iff (o : option Certainty) (b : bool) :
  refines (cert o) (truth_of b) <-> (b = true -> o <> None) /\ (o = Some CYes -> b = true).
Proof. unfold refines. destruct o as [[]|], b; cbn; naive_solver. Qed.

Lemma kand_some a b : kand a b <> None <-> a <> None /\ b <> None.
Proof. destruct a as [[]|], b as [[]|]; naive_solver. Qed.

Lemma all_of_some `{LeafLaws} cs d : Forall (fun x => den x d <> None) cs -> all_of cs d <> None.
Proof. unfold all_of. induction 1 as [|x cs Hx _ IH]; [done|]. rewrite fmap_cons. cbn [fold_right]. by apply kand_some. Qed.

Section text.
Context {HI : Intpack} {HIL : IntpackLaws HI} {HSeg : Segment} {HSL : SegmentLaws HSeg} {HSC : SegmentCancels}.
Context {HB : SegmentBounds} {HE : Engines} {HC : Contents} {HCo : Corpus} {HCL : CorpusLaws}.
Context (p : Pinned) {Hp : pinned_wf p} (Hix : indexes p) (ck : Checkpoint) {HF : StopFlag ck}.

(** The documents the index gives for a term. *)
Definition given (term : list u8) (d : u32) : Prop := covered p d /\ exists token, doc_emits d token /\ cap token = cap term.

Definition looked (term : list u8) (o : option Candidates) : Prop :=
  match o with Some c => lists_docs p (given term) c | None => pin_view p = None end.

Lemma lookup_spec term : runs any_error (lookup ck p term) (looked term).
Proof.
  unfold lookup, looked, indexes, sources in *. destruct (pin_view p) as [v|]; [|by apply runs_done]. destruct Hix as [Hterms _].
  cbn [first_some]. eapply runs_bind with (P := fun o => exists c, o = Some c /\ lists_docs p (given term) c).
  - unfold source_read. checkpoint. eapply runs_bind; [by apply (term_read_spec p ck _ _ (cap term) Hterms)|].
    intros t Ht. apply runs_done. by exists (CandPostings t).
  - intros o (c & -> & Hc). by apply runs_done.
Qed.

(** What reading a text atom gives. *)
Definition text_read (t : Text) (a : TextAtom) : Prop :=
  t_text a = t /\
  if has_base64_run (text_arg t) then exists g, t_screen a = Some g /\ screens p (text_trigrams t) g
  else t_screen a = None /\ option_Forall2 looked (text_whole t) (t_whole a) /\
       if term_only t then t_units a = [] else Forall2 looked (dedup (sort_by cmp_le (text_units t))) (t_units a).

Lemma text_read_spec t : runs any_error (text_read_until ck t p) (text_read t).
Proof.
  unfold text_read_until, answered_by_trigrams, text_read. checkpoint. destruct (has_base64_run (text_arg t)).
  - eapply runs_bind; [apply (read_trigrams_spec p Hix ck _ (text_canonical t))|]. intros g Hg. apply runs_done.
    split; [done|]. by exists g.
  - eapply runs_bind with (P := option_Forall2 looked (text_whole t)).
    { unfold map_opt. destruct (text_whole t) as [w|]; [|apply runs_done; constructor].
      eapply runs_bind; [apply lookup_spec|]. intros o Ho. apply runs_done. by constructor. }
    intros whole Hwhole. eapply runs_bind with (P := fun units =>
      if term_only t then units = [] else Forall2 looked (dedup (sort_by cmp_le (text_units t))) units).
    { destruct (term_only t); [by apply runs_done|]. apply runs_each, Forall_forall. intros u _. apply lookup_spec. }
    intros units Hunits. by apply runs_done.
Qed.

(** A term's cursor: it misses no document given, and is certain of no other. *)
Definition says (gives : u32 -> Prop) (x : Cursor) : Prop :=
  ok x 0 /\ height x <= 2 /\
  forall d, is_live p d -> (gives d -> den x d <> None) /\ (den x d = Some CYes -> gives d).

Lemma term_or_live_says term o : looked term o -> says (given term) (term_or_live p o).
Proof.
  unfold looked, term_or_live. destruct o as [c|].
  - intros [Hok Hd]. split; [done|]. split; [destruct c; cbn; lia|]. intros d Hl. destruct (Hd d Hl) as [Hy _].
    split; [intros Hg%Hy; by rewrite Hg|apply Hy].
  - intros _. destruct (live_bits p) as [Hok Hd]. split; [done|]. split; [cbn; lia|]. intros d Hl. by rewrite Hd.
Qed.

Lemma maybe_says gives x : says gives x -> height x <= 1 ->
  says gives (maybe_of x) /\ forall d, den (maybe_of x) d <> Some CYes.
Proof.
  intros (Hok & _ & Hd) Hh. assert (Hn : forall d, den (maybe_of x) d <> Some CYes) by (intros d; rewrite maybe_of_den; by destruct (den x d)).
  split; [|done]. split; [by apply maybe_of_ok|]. split; [pose proof (maybe_of_height x); lia|]. intros d Hl.
  split; [|intros Hy; by destruct (Hn d)]. intros Hg. rewrite maybe_of_den. destruct (Hd d Hl) as [H1 _]. specialize (H1 Hg).
  by destruct (den x d).
Qed.
Lemma term_or_live_height o : height (term_or_live p o) = 1.
Proof. by destruct o as [[]|]. Qed.

(** The cursor of the whole token. *)
Definition whole_cursor (t : Text) (w : list u8) (x : Cursor) : Cursor :=
  if negb (text_case t) && exact_under_cap w then x else maybe_of x.

Lemma whole_cursor_says t w o : text_whole t = Some w -> looked w o ->
  says (given w) (whole_cursor t w (term_or_live p o)) /\
  forall d, is_live p d -> den (whole_cursor t w (term_or_live p o)) d = Some CYes -> doc_holds (CaText t) d = true.
Proof.
  intros Hw Ho. pose proof (term_or_live_says w o Ho) as Hsays. unfold whole_cursor.
  destruct (negb (text_case t) && exact_under_cap w) eqn:Hex.
  - split; [done|]. apply andb_prop in Hex as [Hcase%negb_true_iff Hex]. intros d Hl Hy. destruct Hsays as (_ & _ & Hd).
    destruct (Hd d Hl) as [_ Hg]. destruct (Hg Hy) as [_ (token & Hem & Hcap)].
    apply (text_suffices t d w Hcase Hw). by rewrite <- (exact_cap w token Hex (emits_utf8 _ _ Hem) Hcap).
  - destruct (maybe_says _ _ Hsays) as [Hm Hn]; [by rewrite term_or_live_height|]. split; [done|]. intros d _ Hy. by destruct (Hn d).
Qed.

(** The cursor of the units. *)
Lemma units_cursor_says units os : Forall2 looked units os -> units <> [] ->
  let x := maybe_of (cursor_and (term_or_live p <$> os)) in
  ok x 0 /\ height x <= 3 /\ (forall d, den x d <> Some CYes) /\
  forall d, is_live p d -> Forall (fun u => given u d) units -> den x d <> None.
Proof.
  intros Hos Hne x. split; [|split; [|split]].
  - apply maybe_of_ok, cursor_and_ok. clear Hne x. induction Hos as [|u o us os Ho _ IH]; [constructor|].
    rewrite fmap_cons. constructor; [|done]. by destruct (term_or_live_says u o Ho).
  - unfold x. pose proof (maybe_of_height (cursor_and (term_or_live p <$> os))).
    assert (height (cursor_and (term_or_live p <$> os)) <= 2); [|lia]. apply cursor_and_height, Forall_forall.
    intros y (o & -> & _)%list_elem_of_fmap. by rewrite term_or_live_height.
  - intros d. unfold x. rewrite maybe_of_den. by destruct (den _ d).
  - intros d Hl Hg. unfold x. rewrite maybe_of_den, cursor_and_den.
    assert (Hall : all_of (term_or_live p <$> os) d <> None).
    { apply all_of_some. clear Hne x. induction Hos as [|u o us os Ho _ IH]; [constructor|].
      apply Forall_cons in Hg as [Hg Hgs]. rewrite fmap_cons. constructor; [|by apply IH].
      destruct (term_or_live_says u o Ho) as (_ & _ & Hd). by apply (proj1 (Hd d Hl)). }
    destruct Hos as [|u o us os Ho _]; [done|]. rewrite fmap_cons in *. by destruct (all_of _ d).
Qed.

Lemma dedup_units t : dedup (sort_by cmp_le (text_units t)) <> [].
Proof.
  destruct (text_units t) as [|u us] eqn:Hu; [by destruct (text_some_unit t)|]. intros Hd.
  assert (Hin : u ∈ dedup (sort_by cmp_le (u :: us))); [|rewrite Hd in Hin; by apply not_elem_of_nil in Hin].
  rewrite elem_of_dedup, sort_by_perm. left.
Qed.

(** A document that holds the atom is given for its units or its whole. *)
Lemma holds_given t d : has_base64_run (text_arg t) = false -> covered p d -> doc_holds (CaText t) d = true ->
  (exists w, text_whole t = Some w /\ given w d) \/
  (term_only t = false /\ Forall (fun u => given u d) (dedup (sort_by cmp_le (text_units t)))).
Proof.
  intros Hb Hcov Hh. assert (Hgiven : forall u, doc_emits d u -> given u d) by (intros u Hu; split; [done|by exists u]).
  destruct (text_needs t d Hb Hh) as [(w & Hw & Hem)|Hall]; [left; exists w; auto|].
  destruct (term_only t) eqn:Ht.
  - left. unfold term_only in Ht. apply andb_prop in Ht as [Hlen%Nat.eqb_eq Hhead%bool_decide_eq_true].
    destruct (text_units t) as [|u [|]]; [done| |done]. exists u. cbn in Hhead. split; [done|].
    apply Forall_cons in Hall as [Hu _]. auto.
  - right. split; [done|]. apply Forall_forall. intros u Hu. rewrite elem_of_dedup, sort_by_perm in Hu.
    rewrite Forall_forall in Hall. auto.
Qed.
Lemma answers_weaken h h' b x : answers_on p h b x -> h <= h' -> answers_on p h' b x.
Proof. intros (? & ? & ?) ?. split; [done|]. split; [lia|done]. Qed.

(** Adding the uncovered documents keeps a sound tree sound. *)
Lemma atom_tree_answers h b x : 1 <= h -> ok x 0 -> height x <= h ->
  (forall d, is_live p d -> den x d = Some CYes -> b d = true) ->
  (forall d, is_live p d -> den x d = Some CYes -> covered p d) ->
  (forall d, covered p d -> b d = true -> den x d <> None) -> answers_on p (S h) b (pinned_atom p x).
Proof.
  intros H1 Hok Hh Hyes Hcov Hno. apply pinned_atom_answers; [done..| |].
  - intros d Hd. apply refines_iff. destruct Hd as [Hl Hu]. split; [by apply Hno|by apply Hyes].
  - intros d Hl Hu Hy. destruct (Hcov d Hl Hy) as [_ Hn]. by rewrite Hu in Hn.
Qed.

Context {HS : Sticky ck HF} (steps fuel : nat) (Hsteps : N.to_nat (2 ^ 32) < steps).

Lemma union_cursor_spec t w o units os : has_base64_run (text_arg t) = false -> 3 + N.to_nat (2 ^ 32) + 2 <= fuel ->
  text_whole t = Some w -> looked w o -> Forall2 looked units os -> units <> [] ->
  (forall d, covered p d -> doc_holds (CaText t) d = true -> given w d \/ Forall (fun u => given u d) units) ->
  runs no_error (or_until ck steps fuel [whole_cursor t w (term_or_live p o); maybe_of (cursor_and (term_or_live p <$> os))] (bound (live p)))
    (fun x => answers_on p 5 (doc_holds (CaText t)) (pinned_atom p x)).
Proof.
  intros Hb Hfuel Hw Ho Hos Hne Hneed. destruct (whole_cursor_says t w o Hw Ho) as [(Hok1 & Hh1 & Hd1) Hy1].
  destruct (units_cursor_says units os Hos Hne) as (Hok2 & Hh2 & Hn2 & Hd2).
  set (x1 := whole_cursor _ _ _) in *. set (x2 := maybe_of _) in *.
  eapply runs_mono; [apply (runs_union ck steps fuel 3)|].
  - apply Forall_cons_2; [split; [done|lia]|]. apply Forall_singleton. done.
  - lia.
  - lia.
  - done.
  - apply live_bound.
  - intros x (Hok & Hh & Hden).
    assert (Hx : forall d, is_live p d -> den x d = kor (den x1 d) (den x2 d)).
    { intros d Hl. rewrite Hden by (by apply live_below). unfold any_of. rewrite !fmap_cons. cbn.
      by destruct (den x1 d) as [[]|], (den x2 d) as [[]|]. }
    assert (Hxy : forall d, is_live p d -> den x d = Some CYes -> den x1 d = Some CYes).
    { intros d Hl. rewrite Hx by done. intros [?|Hy]%kor_yes; [done|]. by destruct (Hn2 d). }
    apply atom_tree_answers; [lia|done|lia|auto| |].
    + intros d Hl Hy. destruct (Hd1 d Hl) as [_ Hg]. by destruct (Hg (Hxy d Hl Hy)).
    + intros d Hcov Hh'. pose proof Hcov as [Hl _]. rewrite Hx by done. apply kor_None.
      destruct (Hneed d Hcov Hh') as [Hg|Hg]; [left; by apply (Hd1 d Hl)|right; by apply Hd2].
Qed.

(** A text atom's cursor never contradicts the atom. *)
Lemma text_cursor_spec t a : text_read t a -> planning_height (text_trigrams t) + N.to_nat (2 ^ 32) + 2 <= fuel ->
  runs no_error (text_cursor_until ck steps fuel a p) (answers_on p (S (planning_height (text_trigrams t))) (doc_holds (CaText t))).
Proof.
  intros [<- Hread] Hfuel. set (t := t_text a) in *. assert (Hph : 66 <= planning_height (text_trigrams t)) by (unfold planning_height, KEYS; lia).
  unfold text_cursor_until. checkpoint. fold t. destruct (has_base64_run (text_arg t)) eqn:Hb.
  { destruct Hread as (g & -> & Hl & Hfull & Hth & Hg). eapply runs_mono; [apply (grep_cursor_until_spec p ck steps fuel Hsteps g Hl Hfull); lia|].
    intros x (Hok & Hxh & Hd). split; [done|]. split; [lia|]. intros d Hlive. rewrite (Hd d Hlive). apply refines_iff.
    split; [|by destruct (_ || _)]. intros Hh. destruct (mem (uncovered p) d) eqn:Hu; [done|].
    rewrite (Hg d (conj Hlive Hu)); [done|]. by apply text_keys. }
  destruct Hread as (-> & Hwhole & Hunits).
  assert (Hgrow : forall x, answers_on p 5 (doc_holds (CaText t)) x -> answers_on p (S (planning_height (text_trigrams t))) (doc_holds (CaText t)) x)
    by (intros x Hx; eapply answers_weaken; [exact Hx|lia]).
  pose proof (fun d => holds_given t d Hb) as Hneed.
  destruct (text_whole t) as [w|] eqn:Hw, (t_whole a) as [o|]; inversion_clear Hwhole as [? ? Ho|].
  - fold (whole_cursor t w (term_or_live p o)). destruct (whole_cursor_says t w o Hw Ho) as [(Hok & Hh & Hd) Hy].
    destruct (is_empty (t_units a)) eqn:He.
    + eapply runs_bind; [by apply (runs_done _ _ (fun x => x = whole_cursor t w (term_or_live p o)))|]. intros x ->.
      apply runs_done, Hgrow. eapply answers_weaken; [apply (atom_tree_answers 2); [lia|done|done|exact Hy| |]|lia].
      * intros d Hl Hy'. by destruct (Hd d Hl) as [_ Hg]; destruct (Hg Hy').
      * intros d Hcov Hh'. pose proof Hcov as [Hl _]. apply (Hd d Hl).
        destruct (Hneed d Hcov Hh') as [(w' & Hw' & Hg)|[Hto _]]; [congruence|]. rewrite Hto in Hunits.
        pose proof (dedup_units t). destruct Hunits; done.
    + destruct (term_only t) eqn:Hto; [by rewrite Hunits in He|].
      eapply runs_bind; [apply (union_cursor_spec t w o _ (t_units a) Hb ltac:(lia) Hw Ho Hunits (dedup_units t))|].
      * intros d Hcov Hh'. destruct (Hneed d Hcov Hh') as [(w' & Hw' & Hg)|[_ Hg]]; [left; congruence|by right].
      * intros x Hx. by apply runs_done, Hgrow.
  - assert (Hto : term_only t = false).
    { unfold term_only. rewrite Hw. destruct (text_units t) as [|u [|]]; [done| |done]. by rewrite bool_decide_eq_false_2. }
    rewrite Hto in Hunits. destruct (units_cursor_says _ _ Hunits (dedup_units t)) as (Hok & Hh & Hn & Hd).
    eapply runs_bind; [by apply (runs_done _ _ (fun x => x = maybe_of (cursor_and (term_or_live p <$> t_units a))))|]. intros x ->.
    apply runs_done, Hgrow. eapply answers_weaken; [apply (atom_tree_answers 3); [lia|done|done| | |]|lia].
    + intros d _ Hy. by destruct (Hn d).
    + intros d _ Hy. by destruct (Hn d).
    + intros d Hcov Hh'. pose proof Hcov as [Hl _]. apply Hd; [done|]. by destruct (Hneed d Hcov Hh') as [(w & ? & _)|[_ Hg]].
Qed.
End text.

(** ** Content atoms *)

(** The trigram query an atom may be screened by. *)
Definition atom_planning `{Contents} (a : ContentAtom) : Trigrams :=
  match a with CaText t => text_trigrams t | CaGrep g => grep_planning g end.

(** The height of an atom's cursor, at most. *)
Definition atom_height `{Contents} (a : ContentAtom) : nat := S (planning_height (atom_planning a)).

(** A report that may stand for a grep atom: what it selected is necessary. *)
Definition report_ok (planning : Trigrams) (r : GrepReport) : Prop :=
  full (r_selected r) = true /\ tree_height (r_selected r) <= planning_height planning /\
  forall has, holds has planning = true -> holds has (r_selected r) = true.

Section atoms.
Context {HI : Intpack} {HIL : IntpackLaws HI} {HSeg : Segment} {HSL : SegmentLaws HSeg} {HSC : SegmentCancels}.
Context {HB : SegmentBounds} {HE : Engines} {HC : Contents} {HCo : Corpus} {HCL : CorpusLaws}.
Context (p : Pinned) {Hp : pinned_wf p} (Hix : indexes p) (ck : Checkpoint) {HF : StopFlag ck}.

Definition atom_read (a : ContentAtom) (r : ReadAtom) : Prop :=
  match a, r with
  | CaText t, RText x => text_read p t x
  | CaGrep g, RGrep x => screens p (grep_planning g) x
  | _, _ => False
  end.

(** Estimating an atom always ends. *)
Lemma unit_df_runs acc term : runs any_error (unit_df ck p acc term) (fun _ => True).
Proof.
  unfold unit_df. checkpoint. eapply runs_bind; [|intros; by apply runs_done]. apply (runs_first _ _ (fun _ => True)); [|done].
  apply Forall_forall. intros s _. by eapply runs_mono; [apply estimate_runs|].
Qed.

Lemma bounds_runs t : runs any_error (bounds_until ck t p) (fun _ => True).
Proof.
  unfold bounds_until. checkpoint. destruct (answered_by_trigrams t).
  { eapply runs_bind; [by apply estimate_trigrams_runs, text_canonical|]. intros; by apply runs_done. }
  eapply runs_bind with (P := fun _ => True).
  { unfold map_opt. destruct (text_whole t); [|by apply runs_done]. eapply runs_bind; [apply unit_df_runs|]. intros; by apply runs_done. }
  intros whole _. eapply runs_bind with (P := fun _ => True); [|intros; by apply runs_done].
  destruct (term_only t); [by apply runs_done|]. apply (runs_fold _ _ (fun _ => True)); [|done].
  apply Forall_forall. intros unit _ [least acc] _. eapply runs_bind; [apply unit_df_runs|]. intros; by apply runs_done.
Qed.

Lemma content_estimate_runs a : runs any_error (content_estimate_until ck a p) (fun _ => True).
Proof.
  destruct a as [t|g]; cbn [content_estimate_until]; [apply bounds_runs|].
  eapply runs_bind; [by apply estimate_trigrams_runs, grep_canonical|]. intros; by apply runs_done.
Qed.

Lemma explain_spec planning : canonical planning = true -> runs any_error (explain ck planning p) (report_ok planning).
Proof.
  intros Hc. unfold explain. eapply runs_bind; [by apply select_ranked_spec|]. intros r (Hf & Hh & Hw). by apply runs_done.
Qed.

Lemma read_report_spec planning r : report_ok planning r ->
  runs any_error (read_selected_until ck (r_selected r) p) (screens p planning).
Proof.
  intros (Hf & Hh & Hw). eapply runs_mono; [by apply read_selected_spec|]. intros g [Ht Hl Hhas]. unfold screens. rewrite Ht.
  split_and!; [done..|]. intros d Hcov Hp'. apply (holds_mono (doc_key d)); [|by apply Hw]. intros k. by apply Hhas.
Qed.

Lemma content_read_spec a plan : (forall g r, a = CaGrep g -> plan = Some r -> report_ok (grep_planning g) r) ->
  runs any_error (content_read_until ck a p plan) (atom_read a).
Proof.
  intros Hplan. destruct a as [t|g]; cbn [content_read_until].
  - eapply runs_bind; [by apply text_read_spec|]. intros x Hx. by apply runs_done.
  - eapply runs_bind with (P := screens p (grep_planning g)); [|intros x Hx; by apply runs_done].
    destruct plan as [r|]; [by apply read_report_spec, Hplan|].
    eapply runs_bind; [apply explain_spec, grep_canonical|]. intros r Hr. by apply read_report_spec.
Qed.

Context {HS : Sticky ck HF} (steps fuel : nat) (Hsteps : N.to_nat (2 ^ 32) < steps).

Lemma atom_cursor_spec a r : atom_read a r -> atom_height a + N.to_nat (2 ^ 32) + 2 <= fuel ->
  runs no_error (atom_cursor_until ck steps fuel r p) (answers_on p (atom_height a) (doc_holds a)).
Proof.
  unfold atom_height. destruct a as [t|g], r as [x|x]; cbn [atom_read atom_planning atom_cursor_until]; try done; intros Hr Hfuel.
  - apply text_cursor_spec; [done..|lia].
  - destruct Hr as (Hl & Hfull & Hh & Hg).
    eapply runs_mono; [apply (grep_cursor_until_spec p ck steps fuel Hsteps x Hl Hfull); lia|].
    intros y (Hok & Hyh & Hd). split; [done|]. split; [lia|]. intros d Hlive. rewrite (Hd d Hlive). apply refines_iff.
    split; [|by destruct (_ || _)]. intros Hh'. destruct (mem (uncovered p) d) eqn:Hu; [done|].
    rewrite (Hg d (conj Hlive Hu)); [done|]. by apply grep_keys.
Qed.
End atoms.

(** ** Properties *)

(** C7: An atom's candidates stay within the truth.  Over a view that indexes
    the documents it covers, reading a [text:] or [grep:] atom's lists and
    building its cursor always ends: with an error of the segments, with
    [Cancelled] once the cancellation answered, or with a fresh cursor of
    bounded height such that a live document it yields as Yes holds the atom
    and a live document it does not yield does not; so the uncovered
    documents, the capped terms, the budget of keys, the four children an AND
    keeps and the shortcut for whole trees lose nothing. *)
Theorem atom_within_truth (HI : Intpack) (HIL : IntpackLaws HI) (HSeg : Segment) (HSL : SegmentLaws HSeg)
    (HSC : SegmentCancels) (HB : SegmentBounds) (HE : Engines) (HC : Contents) (HCo : Corpus) (HCL : CorpusLaws)
    (p : Pinned) (Hp : pinned_wf p) (Hix : indexes p) (ck : Checkpoint) (HF : StopFlag ck) (HS : Sticky ck HF)
    (a : ContentAtom) (steps fuel : nat) (Hsteps : N.to_nat (2 ^ 32) < steps)
    (Hfuel : atom_height a + N.to_nat (2 ^ 32) + 2 <= fuel) (c : ck_state ck) :
  exists r c', (atom <- content_read_until ck a p None; atom_cursor_until ck steps fuel atom p) c = Some (r, c') /\
    match r with
    | Ok cur => ok cur 0 /\ height cur <= atom_height a /\
        forall d, mem (live p) d = true ->
          (den cur d = Some CYes -> doc_holds a d = true) /\ (den cur d = None -> doc_holds a d = false)
    | Err Cancelled => stopped c'
    | Err _ => True
    end.
Proof.
  assert (Hrun : runs any_error (atom <- content_read_until ck a p None; atom_cursor_until ck steps fuel atom p)
                   (answers_on p (atom_height a) (doc_holds a))).
  { eapply runs_bind; [by apply content_read_spec|]. intros r Hr. eapply runs_weaken; [by apply atom_cursor_spec|done]. }
  destruct (Hrun c) as (r & c' & Heq & Hr). exists r, c'. split; [exact Heq|].
  destruct r as [cur|e]; [|by destruct e]. destruct Hr as (Hok & Hh & Hd). split; [done|]. split; [done|].
  intros d Hl. destruct (proj1 (refines_iff _ _) (Hd d Hl)) as [H1 H2]. split; [exact H2|].
  intros Hn. destruct (doc_holds a d); [|done]. by destruct (H1 eq_refl).
Qed.

(** ** A small index

    Three live documents, of which the view covers two: document 3 is "err
    log", 5 is "log", and 8 lies at the frontier. *)
Definition sample_words (d : u32) : list (list u8) :=
  ascii_bytes <$> (if (d =? 3)%N then ["err"; "log"] else if (d =? 5)%N then ["log"] else if (d =? 8)%N then ["err"] else [])%string.
Definition sample_windows (d : u32) : list trigram := concat (windows3 <$> sample_words d).

#[local] Instance sample_engines : Engines := {
  Regex := unit; RegexError := unit; regex_new _ _ := Ok tt; regex_is_match _ _ := false;
  Grep := trigram; GrepError := unit; grep_compile _ := Err tt;
  Text := list u8; text_new arg _ := Some arg; normalize_token t := Some t; has_token _ _ := false }.
#[local] Instance sample_contents : Contents := {
  text_arg t := t; text_whole t := Some t; text_units t := [t]; text_case _ := false; text_trigrams _ := All;
  grep_planning g := Key g }.
#[local] Instance sample_corpus : Corpus := {
  doc_key d k := bool_decide (k ∈ sample_windows d);
  doc_emits d token := token ∈ sample_words d;
  doc_holds a d := match a with CaText t => bool_decide (t ∈ sample_words d) | CaGrep g => bool_decide (g ∈ sample_windows d) end }.

(** The words of every document, and a predicate of each. *)
Lemma sample_words_all (P : list u8 -> Prop) `{!forall w, Decision (P w)} :
  forallb (fun w => bool_decide (P w)) (ascii_bytes <$> ["err"; "log"]%string) = true -> forall d w, w ∈ sample_words d -> P w.
Proof.
  intros Hall d w Hw. rewrite forallb_forall in Hall. apply (bool_decide_unpack _), Is_true_true, Hall, list_elem_of_In.
  unfold sample_words in Hw. apply list_elem_of_fmap in Hw as (x & -> & Hx). apply list_elem_of_fmap_2.
  destruct (d =? 3)%N; [done|]. destruct (d =? 5)%N; [right; done|]. destruct (d =? 8)%N; [|by apply not_elem_of_nil in Hx].
  apply list_elem_of_singleton in Hx as ->. left.
Qed.

#[local] Instance sample_corpus_laws : CorpusLaws.
Proof.
  split; cbn; try done.
  - intros d token. apply (sample_words_all (fun w => utf8_decode w <> None)). vm_compute. reflexivity.
  - intros t d _ Hh%bool_decide_eq_true. left. by exists t.
  - intros t d w _ [= <-] Hw. by apply bool_decide_eq_true.
Qed.

(** A segment is a document's tokens or its trigrams, by their spellings. *)
Inductive SampleSegment := SampleTerms | SampleKeys.
Definition sample_entries (s : SampleSegment) (d : u32) : list (list u8) :=
  match s with SampleTerms => cap <$> sample_words d | SampleKeys => key_bytes <$> sample_windows d end.
Definition sample_list (s : SampleSegment) (term : list u8) : list u32 :=
  filter (fun d => term ∈ sample_entries s d) [3; 5]%N.

Definition sample_hit (docs : list u32) : Hit := HPostings (mkPostings 0 (N.of_nat (length docs)) docs 0).

#[local] Existing Instance plain_intpack.
#[local] Existing Instance plain_intpack_laws.
#[local] Instance sample_segment : Segment := {
  segment := SampleSegment; term_entry := list u8; seg_first _ := 3%N; seg_last _ := 5%N;
  seg_entry s term := Ok (if is_empty (sample_list s term) then None else Some term);
  seg_read s term := Ok (sample_hit (sample_list s term));
  seg_fingerprint_docs _ _ _ c := (Ok [], c) }.
#[local] Instance sample_bounds : SegmentBounds := { entry_df _ := 1%N; fingerprint_bound _ _ := 0%N }.

Lemma sample_list_docs s term : StronglySorted N.lt (sample_list s term) /\ Forall (fun d => 3 <= d <= 5)%N (sample_list s term).
Proof.
  unfold sample_list. rewrite !filter_cons, filter_nil. repeat case_decide; (split; [repeat constructor; lia|]);
    repeat first [apply Forall_nil_2 | apply Forall_cons_2; [lia|]].
Qed.

Lemma sample_decode (docs : list u32) : take (N.to_nat (N.of_nat (length docs))) (drop 0 docs) = docs.
Proof. rewrite Nat2N.id. by apply take_ge. Qed.

Lemma sample_hit_wf s term : hit_wf (Some (sample_hit (sample_list s term))).
Proof.
  destruct (sample_list_docs s term) as [H1 H2]. generalize (sample_list s term), H1, H2. clear H1 H2. intros docs H1 H2.
  split; cbn -[drop take N.to_nat]; rewrite sample_decode; [split; [done|by rewrite Nat2N.id]|].
  eapply Forall_impl; [exact H2|]. cbn. intros; lia.
Qed.

Lemma sample_hit_docs s term d : d ∈ hit_docs (Some (sample_hit (sample_list s term))) <-> d ∈ sample_list s term.
Proof.
  cbn [hit_docs sample_hit]. rewrite (elem_of_decode _ _ (sample_hit_wf s term)). generalize (sample_list s term). intros docs.
  cbn -[drop take N.to_nat]. rewrite sample_decode.
  split; [intros (v & -> & Hv); by rewrite N.add_0_r|]. intros Hd. exists d. by rewrite N.add_0_r.
Qed.

#[local] Instance sample_segment_laws : SegmentLaws sample_segment.
Proof.
  split.
  - by intros s.
  - intros s term e h He [= <-]. split; [apply sample_hit_wf|]. apply Forall_forall. intros d Hd%sample_hit_docs.
    destruct (sample_list_docs s e) as [_ Hall]. rewrite Forall_forall in Hall. by apply Hall.
  - intros ck s term c ds c' [= <- <-]. split; constructor.
Qed.
#[local] Instance sample_cancels : SegmentCancels.
Proof. by split. Qed.

Definition sample_view : View :=
  mkView (mkManifest 2 0 [] 6 6 0 0 None None [] []) [SampleTerms] [SampleKeys].
Definition sample_pinned : Pinned := mkPinned (Some sample_view) (new_set 10 [3; 5; 8]%N) (new_set 10 [8]%N).

#[local] Instance sample_pinned_wf : pinned_wf sample_pinned.
Proof.
  destruct (new_set_spec 10 [3; 5; 8]%N) as (H1 & H2 & H3). destruct (new_set_spec 10 [8]%N) as (H4 & H5 & H6).
  split; cbn [live uncovered sample_pinned]; [done|by rewrite H2|done|by rewrite H5|].
  intros d. rewrite H3, H6. intros [-> Hd%bool_decide_eq_true]%andb_prop. apply list_elem_of_singleton in Hd as ->. done.
Qed.

Lemma sample_live d : is_live sample_pinned d <-> d ∈ [3; 5; 8]%N.
Proof.
  unfold is_live. cbn [live sample_pinned]. rewrite (proj2 (proj2 (new_set_spec 10 [3; 5; 8]%N))).
  rewrite andb_true_iff, bool_decide_eq_true. split; [by intros [_ ?]|]. intros Hd. split; [|done].
  apply N.ltb_lt. rewrite !elem_of_cons in Hd. destruct Hd as [->|[->|[->|Hd%elem_of_nil]]]; lia || done.
Qed.

Lemma sample_covered d : covered sample_pinned d <-> d ∈ [3; 5]%N.
Proof.
  unfold covered. rewrite sample_live. cbn [uncovered sample_pinned]. rewrite (proj2 (proj2 (new_set_spec 10 [8]%N))).
  rewrite andb_false_iff, bool_decide_eq_false, N.ltb_ge, !elem_of_cons, !elem_of_nil. split; [|intros [->|[->|[]]]; naive_solver].
  intros [[->|[->|[->|[]]]] [?|?]]; naive_solver lia.
Qed.

Lemma sample_indexed s gives : (forall term d, covered sample_pinned d -> gives term d <-> term ∈ sample_entries s d) ->
  indexed sample_pinned [s] (fun term d => covered sample_pinned d /\ gives term d).
Proof.
  intros Hg. split; [intros s' ck term c ds c' _ Hm; by injection Hm as <- _|]. intros term d _. split.
  - intros [Hcov Hd]. apply Hg in Hd; [|done]. assert (Hin : d ∈ sample_list s term) by (apply list_elem_of_filter; split; [done|by apply sample_covered]).
    exists s, term, (sample_hit (sample_list s term)). split; [left|]. split; [|split; [done|by apply sample_hit_docs]]. cbn -[sample_list].
    destruct (sample_list s term); [by apply not_elem_of_nil in Hin|done].
  - intros (s' & e & h & ->%list_elem_of_singleton & He & [= <-] & Hd%sample_hit_docs). cbn -[sample_list] in He.
    destruct (is_empty _); [done|]. injection He as <-. apply list_elem_of_filter in Hd as [Hd Hin]. apply sample_covered in Hin.
    split; [done|]. by apply Hg.
Qed.

Lemma sample_indexes : indexes sample_pinned.
Proof.
  split; apply sample_indexed; intros term d _; cbn [sample_entries doc_emits doc_key sample_corpus].
  - rewrite list_elem_of_fmap. split; [intros (w & Hw & <-); by exists w|intros (w & -> & Hw); by exists w].
  - rewrite list_elem_of_fmap. split; [intros (k & <- & Hk%bool_decide_eq_true); by exists k|].
    intros (k & -> & Hk). exists k. by rewrite bool_decide_eq_true.
Qed.

Definition sample_steps : nat := S (N.to_nat (2 ^ 32)).
Definition sample_fuel : nat := 100 + N.to_nat (2 ^ 32).

Lemma sample_fuel_enough : atom_height (CaText (ascii_bytes "log")) + N.to_nat (2 ^ 32) + 2 <= sample_fuel.
Proof. change (67 + N.to_nat (2 ^ 32) + 2 <= 100 + N.to_nat (2 ^ 32)). lia. Qed.

(** Of "log", documents 3 and 5 are certain and 8 is not covered. *)
Example sample_candidates :
  match (atom <- content_read_until never (CaText (ascii_bytes "log")) sample_pinned None;
         atom_cursor_until never 20 20 atom sample_pinned) tt with
  | Some (Ok cur, _) => cursor_walk 20 cur [0; 4; 6; 9]%N
  | _ => None
  end = Some [Some (3, CYes); Some (5, CYes); Some (8, CMaybe); None]%N.
Proof. vm_compute. reflexivity. Qed.

Lemma atom_within_truth_witness :
  exists r c', (atom <- content_read_until never (CaText (ascii_bytes "log")) sample_pinned None;
                atom_cursor_until never sample_steps sample_fuel atom sample_pinned) tt = Some (r, c') /\
    match r with
    | Ok cur => ok cur 0 /\ height cur <= atom_height (CaText (ascii_bytes "log")) /\
        forall d, mem (live sample_pinned) d = true ->
          (den cur d = Some CYes -> doc_holds (CaText (ascii_bytes "log")) d = true) /\
          (den cur d = None -> doc_holds (CaText (ascii_bytes "log")) d = false)
    | Err Cancelled => @stopped never never_flag c'
    | Err _ => True
    end.
Proof.
  exact (atom_within_truth _ _ _ _ _ _ _ _ _ _ sample_pinned _ sample_indexes never never_flag _
           (CaText (ascii_bytes "log")) sample_steps sample_fuel (Nat.lt_succ_diag_r _) sample_fuel_enough tt).
Defined.
