(* ===== verification/DocNames.v ===== *)
(** * DocNames: the names of each document

    Models [crates/ferret-query/src/plan/doc_names.rs]: the DocId-to-names
    inverse a content query emits rows through, built by a counting sort over
    the catalog's names ([new_until]) and carried over an overlay's changes
    by [adopt].

    The catalog is read through [Catalog], the answers of one view of
    [ferret-catalog]; loading a section is I/O, and its outcome is part of
    them.  [return Ok(None)] in the body of [new_until] is the [Cancelled] of
    the monad of [Until]; an index out of range is a panic. *)
From S2P Require Import Prelude DocSet Cursor Union Until Trigrams LogRecords.
#[local] Open Scope until_scope.

(** ** The catalog *)

(** [Target] and [Target::from_child]. *)
Inductive Target := TInode (inode : u32) | TIgnored (kind : Kind).
#[export] Instance Target_eq_dec : EqDecision Target.
Proof. solve_decision. Defined.
Definition from_child (child : u32) : Target :=
  match from_ignored_child child with Some kind => TIgnored kind | None => TInode child end.

Section catalog.
Context {OpenError : Type}.

(** One view of the catalog: [load] of the sections this code needs,
    [next_doc], [name_reader().child_ids()], [is_live_name], [name(id).child]
    (a panic for a dead name), [is_live_inode], [doc], [indexed_name_count],
    [changed_names] and [changed_inodes]. *)
Record Catalog := mkCatalog {
  cat_load : result unit OpenError; next_doc : u32; child_ids : list (u32 * u32); is_live_name : u32 -> bool;
  name_child : u32 -> option u32; is_live_inode : u32 -> bool; cat_doc : u32 -> option u32;
  indexed_name_count : u32 -> u32; changed_names : list (u32 * bool); changed_inodes : list u32
}.

(** ** Rows *)

(** [DocNameBase] and [DocNames]; the [Arc]s share and nothing more. *)
Record DocNameBase := mkBase { starts : list u32; b_names : list u32 }.
Record DocNames := mkDocNames { base : DocNameBase; overrides : gmap u32 (list u32) }.

(** [&l[from as usize..to as usize]]. *)
Definition row_slice {A} (l : list A) (from to : u32) : option (list A) :=
  if ((from <=? to) && (to <=? N.of_nat (length l)))%N then Some (slice l (N.to_nat from) (N.to_nat to)) else None.

(** [DocNames::names]. *)
Definition names_of (self : DocNames) (doc : u32) : option (list u32) :=
  match overrides self !! doc with
  | Some names => Some names
  | None =>
      match starts (base self) !! N.to_nat doc, starts (base self) !! S (N.to_nat doc) with
      | Some from, Some to => row_slice (b_names (base self)) from to
      | _, _ => Some []
      end
  end.

(** ** The full build *)

(** [a + b] of two [u32]s. *)
Definition u32_add (a b : u32) : u32 := ((a + b) mod 2 ^ 32)%N.

(** [l[i] += n], and [l[i] = x], on a vector. *)
Definition add_at (l : list u32) (i : nat) (n : u32) : option (list u32) :=
  x ← l !! i; Some (<[i := u32_add x n]> l).
Definition set_at {A} (l : list A) (i : nat) (x : A) : option (list A) := _ ← l !! i; Some (<[i := x]> l).

Section build.
Context (ck : Checkpoint).

(** [if n.is_multiple_of(DocSet::CHECK_EVERY) && cancelled() { return Ok(None) }]. *)
Definition every (n : nat) : Until ck unit := fun c =>
  let '(stop, c) := ask_every ck CHECK_EVERY n c in Some (if stop then Err Cancelled else Ok tt, c).

(** A panic, or a value. *)
Definition or_panic {A} (o : option A) : Until ck A := match o with Some a => done a | None => panic end.

(** The document a row of the name pass counts toward. *)
Definition found_doc (v : Catalog) (id child : u32) : option u32 :=
  match from_child child with
  | TInode inode =>
      if is_live_name v id && is_live_inode v inode then
        match cat_doc v inode with
        | Some doc => if (doc <? next_doc v)%N then Some doc else None
        | None => None
        end
      else None
  | TIgnored _ => None
  end.

(** One turn of each of the three loops of [new_until]. *)
Definition count_row (v : Catalog) (acc : list u32 * list (u32 * u32)) (row : nat * (u32 * u32))
    : Until ck (list u32 * list (u32 * u32)) :=
  every (S row.1) ;;
  match found_doc v row.2.1 row.2.2 with
  | Some doc =>
      starts <- or_panic (add_at acc.1 (S (N.to_nat doc)) 1);
      done (starts, acc.2 ++ [(doc, row.2.1)])
  | None => done acc
  end.
Definition sum_row (starts : list u32) (d : nat) : Until ck (list u32) :=
  every d ;;
  before <- or_panic (starts !! d);
  or_panic (add_at starts (S d) before).
Definition fill_row (acc : list u32 * list u32) (row : nat * (u32 * u32)) : Until ck (list u32 * list u32) :=
  every (S row.1) ;;
  at_ <- or_panic (acc.1 !! N.to_nat row.2.1);
  names <- or_panic (set_at acc.2 (N.to_nat at_) row.2.2);
  fill <- or_panic (add_at acc.1 (N.to_nat row.2.1) 1);
  done (fill, names).

(** [iter.enumerate()], from [n]. *)
Definition enumerate {A} (l : list A) : list (nat * A) := zip (seq 0 (length l)) l.

(** [found.is_sorted_by_key(|&(_, id)| id)]. *)
Fixpoint is_sorted (ids : list u32) : bool :=
  match ids with
  | a :: (b :: _) as rest => (a <=? b)%N && is_sorted rest
  | _ => true
  end.

(** One turn of [order]: the slice sorted in place. *)
Definition order_row (names : list u32) (row : nat * list u32) : Until ck (list u32) :=
  match row.2 with
  | [from; to] =>
      part <- or_panic (row_slice names from to);
      (if (row.1 mod CHECK_EVERY =? 0) || (CHECK_EVERY <=? length part) then check ck else done tt) ;;
      done (take (N.to_nat from) names ++ sort_by cmp_le part ++ drop (N.to_nat to) names)
  | _ => panic
  end.
(** [order]. *)
Definition order (starts names : list u32) : Until ck (list u32) :=
  fold_until order_row (enumerate (windows 2 starts)) names.

(** [DocNames::new_until] after its sections are loaded. *)
Definition build (v : Catalog) : Until ck DocNames :=
  check ck ;;
  let bound := N.to_nat (next_doc v) in
  counted <- fold_until (count_row v) (enumerate (child_ids v)) (replicate (S bound) 0%N, []);
  let found := counted.2 in
  starts <- fold_until sum_row (seq 0 bound) counted.1;
  check ck ;;
  let fill := starts in
  check ck ;;
  total <- or_panic (starts !! bound);
  filled <- fold_until fill_row (enumerate found) (fill, replicate (N.to_nat total) 0%N);
  check ck ;;
  names <- (if is_sorted found.*2 then done filled.2 else order starts filled.2);
  check ck ;;
  done (mkDocNames (mkBase starts names) ∅).

(** [DocNames::new_until]. *)
Definition new_until (v : Catalog) (c : ck_state ck) : option (result (option DocNames) OpenError * ck_state ck) :=
  let '(stop, c) := ck_ask ck c in
  if stop then Some (Ok None, c)
  else
    match cat_load v with
    | Err e => Some (Err e, c)
    | Ok _ =>
        '(r, c) ← build v c;
        Some (match r with Ok names => Ok (Some names) | Err _ => Ok None end, c)
    end.
End build.

(** ** Adoption *)

Definition ADOPT_FANOUT : nat := 4.
Definition ADOPT_FLOOR : nat := 64.

(** [owner]: a panic outside, [None] inside for a name of no document. *)
Definition owner (v : Catalog) (name : u32) : option (option u32) :=
  if is_live_name v name then
    child ← name_child v name;
    match from_child child with
    | TInode inode => Some (if is_live_inode v inode then cat_doc v inode else None)
    | TIgnored _ => Some None
    end
  else Some None.

(** [Changes]. *)
Record Changes := mkChanges { affected : gset u32; rewritten : list u32; gained : list u32; overlay_rows : nat }.

(** [set.extend(option)]. *)
Definition extend (s : gset u32) (o : option u32) : gset u32 := match o with Some d => {[d]} ∪ s | None => s end.

(** The document of an inode that is live. *)
Definition live_doc (v : Catalog) (inode : u32) : option u32 := if is_live_inode v inode then cat_doc v inode else None.

(** One turn of each loop of [Changes::between]. *)
Definition name_change (previous v : Catalog) (acc : Changes) (change : u32 * bool) : option Changes :=
  let '(name, live) := change in
  before ← owner previous name;
  let touched := extend (affected acc) before in
  if live then
    after ← owner v name;
    Some (mkChanges (extend touched after) (rewritten acc ++ [name]) (gained acc) (S (overlay_rows acc)))
  else Some (mkChanges touched (rewritten acc) (gained acc) (S (overlay_rows acc))).
Definition inode_change (previous v : Catalog) (acc : Changes) (inode : u32) : Changes :=
  let before := live_doc previous inode in
  let after := live_doc v inode in
  if bool_decide (before <> after) then
    mkChanges (extend (extend (affected acc) before) after) (rewritten acc)
      (if bool_decide (before = None) && is_live_inode previous inode then gained acc ++ [inode] else gained acc)
      (S (overlay_rows acc))
  else mkChanges (affected acc) (rewritten acc) (gained acc) (S (overlay_rows acc)).

(** A loop that may panic. *)
Fixpoint fold_opt {A B} (f : A -> B -> option A) (l : list B) (acc : A) : option A :=
  match l with [] => Some acc | x :: l => acc ← f acc x; fold_opt f l acc end.

(** [Changes::between]. *)
Definition between (previous v : Catalog) : option Changes :=
  named ← fold_opt (name_change previous v) (changed_names v) (mkChanges ∅ [] [] 0);
  Some (fold_left (inode_change previous v) (changed_inodes v) named).

(** One turn of the count of [gained_names_rewritten]. *)
Definition count_target (v : Catalog) (found : gmap u32 u32) (name : u32) : option (gmap u32 u32) :=
  child ← name_child v name;
  Some (match from_child child with
        | TInode inode => <[inode := u32_add (default 0%N (found !! inode)) 1]> found
        | TIgnored _ => found
        end).

(** [Changes::gained_names_rewritten]. *)
Definition gained_names_rewritten (self : Changes) (v : Catalog) : option bool :=
  if is_empty (gained self) then Some true
  else
    found ← fold_opt (count_target v) (rewritten self) ∅;
    Some (forallb (fun inode => (default 0 (found !! inode) =? indexed_name_count v inode)%N) (gained self)).

(** One turn of the placing loop of [rebuild]. *)
Definition place_name (v : Catalog) (rows : gmap u32 (list u32)) (name : u32) : option (gmap u32 (list u32)) :=
  o ← owner v name;
  Some (match o with
        | Some doc => match rows !! doc with Some row => <[doc := row ++ [name]]> rows | None => rows end
        | None => rows
        end).

(** [DocNames::rebuild]: a set is read in some order, a map of rows likewise. *)
Definition rebuild (self : DocNames) (v : Catalog) (changes : Changes) : option DocNames :=
  let rows : gmap u32 (list u32) := gset_to_gmap [] (affected changes) in
  candidates ← mapM (names_of self) (elements (affected changes));
  rows ← fold_opt (place_name v) (concat candidates ++ rewritten changes) rows;
  Some (mkDocNames (base self) (((fun row => dedup (sort_by cmp_le row)) <$> rows) ∪ overrides self)).

(** [DocNames::adopt]. *)
Definition adopt (v previous_catalog : Catalog) (previous : DocNames) : option (result (option DocNames) OpenError) :=
  match cat_load v with
  | Err e => Some (Err e)
  | Ok _ =>
      changes ← between previous_catalog v;
      rewritten_all ← gained_names_rewritten changes v;
      if negb rewritten_all then Some (Ok None)
      else
        rows ← mapM (names_of previous) (elements (affected changes));
        let work := sum_list (length <$> rows) + length (rewritten changes) + stdpp.base.size (overrides previous) in
        if overlay_rows changes * ADOPT_FANOUT + ADOPT_FLOOR <? work then Some (Ok None)
        else rebuilt ← rebuild previous v changes; Some (Ok (Some rebuilt))
  end.
End catalog.
Arguments Catalog OpenError : clear implicits.

(** ** What the rows are *)

(** The names of a document, ascending. *)
Definition row {OE} (v : Catalog OE) (d : u32) (l : list u32) : Prop :=
  StronglySorted N.lt l /\ forall id, id ∈ l <-> owner v id = Some (Some d).
Definition serves {OE} (v : Catalog OE) (names : DocNames) : Prop :=
  forall d, exists l, names_of names d = Some l /\ row v d l.

(** What a view of the catalog promises: its names are listed once, a live
    name has a child, a live name's inode is live, and a document is below
    [next_doc]. *)
Class CatalogLaws {OE} (v : Catalog OE) : Prop := {
  ids_once : NoDup (child_ids v).*1;
  ids_live id child : (id, child) ∈ child_ids v <-> is_live_name v id = true /\ name_child v id = Some child;
  live_child id : is_live_name v id = true -> exists child, name_child v id = Some child;
  few_names : (N.of_nat (length (child_ids v)) < 2 ^ 32)%N;
  target_live id child inode :
    is_live_name v id = true -> name_child v id = Some child -> from_child child = TInode inode -> is_live_inode v inode = true;
  doc_below inode d : is_live_inode v inode = true -> cat_doc v inode = Some d -> (d < next_doc v)%N
}.

Section owner.
Context {OE : Type} (v : Catalog OE) {HV : CatalogLaws v}.

Lemma owner_some id : exists o, owner v id = Some o.
Proof.
  unfold owner. destruct (is_live_name v id) eqn:Hl; [|eauto]. destruct (live_child id Hl) as [child ->].
  cbn [mbind option_bind]. destruct (from_child child); eauto.
Qed.

(** The name pass and [owner] agree. *)
Lemma found_owner id child d : (id, child) ∈ child_ids v -> found_doc v id child = Some d <-> owner v id = Some (Some d).
Proof.
  intros [Hl Hc]%ids_live. unfold found_doc, owner. rewrite Hl, Hc. cbn [mbind option_bind andb].
  destruct (from_child child) as [inode|kind]; [|naive_solver]. destruct (is_live_inode v inode) eqn:Hi; [|naive_solver].
  destruct (cat_doc v inode) as [d'|] eqn:Hd; [|naive_solver].
  pose proof (doc_below inode d' Hi Hd) as Hb. apply N.ltb_lt in Hb. rewrite Hb. naive_solver.
Qed.

Lemma owner_listed id d : owner v id = Some (Some d) -> exists child, (id, child) ∈ child_ids v.
Proof.
  unfold owner. destruct (is_live_name v id) eqn:Hl; [|done]. destruct (live_child id Hl) as [child Hc].
  intros _. exists child. by apply ids_live.
Qed.
End owner.

(** ** Tables *)

(** A vector given by its entries. *)
Definition tab (f : nat -> N) (n : nat) : list N := f <$> seq 0 n.

Lemma tab_lookup f n i : i < n -> tab f n !! i = Some (f i).
Proof. intros Hi. unfold tab. rewrite list_lookup_fmap, lookup_seq_lt by done. done. Qed.

Lemma tab_ext f g n : (forall i, i < n -> f i = g i) -> tab f n = tab g n.
Proof. intros H. apply list_fmap_ext. intros i x [-> Hx]%lookup_seq. by apply H. Qed.

Lemma tab_const n x : replicate n x = tab (fun _ => x) n.
Proof. unfold tab. generalize 0. induction n as [|n IH]; intros k; [done|]. cbn. by rewrite <- IH. Qed.

Lemma tab_length f n : length (tab f n) = n.
Proof. unfold tab. by rewrite length_fmap, length_seq. Qed.

Lemma add_at_tab f n i x : i < n -> (f i + x < 2 ^ 32)%N ->
  add_at (tab f n) i x = Some (tab (fun j => if j =? i then (f i + x)%N else f j) n).
Proof.
  intros Hi Hx. unfold add_at. rewrite tab_lookup by done. cbn [mbind option_bind]. f_equal.
  unfold u32_add. rewrite N.mod_small by done. apply list_eq. intros j.
  destruct (decide (j = i)) as [->|Hj].
  - rewrite list_lookup_insert_eq by (by rewrite tab_length). rewrite tab_lookup by done. by rewrite Nat.eqb_refl.
  - rewrite list_lookup_insert_ne by done. destruct (Nat.lt_ge_cases j n) as [Hjn|Hjn].
    + rewrite !tab_lookup by done. apply Nat.eqb_neq in Hj. by rewrite Hj.
    + rewrite !lookup_ge_None_2; [done|by rewrite tab_length..].
Qed.

(** The rows found for a document, and how many stand below one. *)
Definition ids_of (d : nat) (found : list (u32 * u32)) : list u32 := (filter (fun e => N.to_nat e.1 = d) found).*2.
Definition count_of (d : nat) (found : list (u32 * u32)) : nat := length (ids_of d found).
Fixpoint below (d : nat) (found : list (u32 * u32)) : nat :=
  match d with 0 => 0 | S d => below d found + count_of d found end.

Lemma ids_of_snoc d found e :
  ids_of d (found ++ [e]) = ids_of d found ++ (if N.to_nat e.1 =? d then [e.2] else []).
Proof.
  unfold ids_of. rewrite filter_app, fmap_app, filter_cons. f_equal.
  destruct (Nat.eqb_spec (N.to_nat e.1) d); by case_decide.
Qed.

Lemma count_of_snoc d found e : count_of d (found ++ [e]) = count_of d found + Nat.b2n (N.to_nat e.1 =? d).
Proof. unfold count_of. rewrite ids_of_snoc, length_app. by destruct (_ =? d). Qed.

Lemma below_snoc d found e : below d (found ++ [e]) = below d found + Nat.b2n (N.to_nat e.1 <? d).
Proof.
  induction d as [|d IH]; [done|]. cbn [below]. rewrite IH, count_of_snoc.
  destruct (Nat.ltb_spec (N.to_nat e.1) d), (Nat.eqb_spec (N.to_nat e.1) d), (Nat.ltb_spec (N.to_nat e.1) (S d)); cbn; lia.
Qed.

Lemma below_nil d : below d [] = 0.
Proof. induction d as [|d IH]; [done|]. cbn [below]. by rewrite IH. Qed.

Lemma below_most d found : below d found <= length found.
Proof.
  induction found as [|e found IH] using rev_ind; [by rewrite below_nil|].
  rewrite below_snoc, length_app. cbn [length]. destruct (_ <? d); cbn [Nat.b2n]; lia.
Qed.

Lemma below_all bound found : Forall (fun e => N.to_nat e.1 < bound) found -> below bound found = length found.
Proof.
  induction found as [|e found IH] using rev_ind; intros Hall.
  { apply below_nil. }
  rewrite Forall_app, Forall_singleton in Hall. destruct Hall as [Hall He].
  rewrite below_snoc, length_app, IH by done. apply Nat.ltb_lt in He. by rewrite He.
Qed.

Lemma below_mono d d' found : d <= d' -> below d found <= below d' found.
Proof. induction 1 as [|d' _ IH]; [done|]. cbn. lia. Qed.

Lemma below_apart d d' found : d < d' -> below d found + count_of d found <= below d' found.
Proof. intros H. apply (below_mono (S d) d' found) in H. exact H. Qed.

(** ** The counting sort *)

Section build.
Context {OE : Type} (v : Catalog OE) {HV : CatalogLaws v} {ck : Checkpoint} {HF : StopFlag ck}.
#[local] Abbreviation bound := (N.to_nat (next_doc v)).

Lemma runs_every E n (Q : unit -> Prop) : Q tt -> runs E (every ck n) Q.
Proof.
  intros HQ c. unfold every. destruct (ask_every ck CHECK_EVERY n c) as [stop c'] eqn:Hask.
  destruct (ask_every_flag ck _ _ _ _ _ Hask) as [_ Hs]. destruct stop; eexists _, _; (split; [reflexivity|]); [by apply Hs|done].
Qed.

Lemma runs_or_panic {A} E (o : option A) (x : A) (Q : A -> Prop) : o = Some x -> Q x -> runs E (or_panic ck o) Q.
Proof. intros -> HQ. by apply runs_done. Qed.

Lemma runs_value {A B} E (o : option A) (x : A) (k : A -> Until ck B) Q :
  o = Some x -> runs E (k x) Q -> runs E (and_then (or_panic ck o) k) Q.
Proof. intros -> Hk. exact Hk. Qed.

Lemma runs_after_every {B} E n (k : unit -> Until ck B) Q : runs E (k tt) Q -> runs E (and_then (every ck n) k) Q.
Proof. intros Hk. eapply runs_bind; [by apply (runs_every _ _ (fun _ => True))|]. by intros [] _. Qed.

(** The rows of the name pass. *)
Definition found_of (l : list (u32 * u32)) : list (u32 * u32) :=
  omap (fun e => (fun d => (d, e.1)) <$> found_doc v e.1 e.2) l.
#[local] Abbreviation found := (found_of (child_ids v)).

Lemma found_of_snoc l e : found_of (l ++ [e]) = found_of l ++ (match found_doc v e.1 e.2 with Some d => [(d, e.1)] | None => [] end).
Proof. unfold found_of. rewrite omap_app. cbn. by destruct (found_doc v e.1 e.2). Qed.

Lemma found_of_length l : length (found_of l) <= length l.
Proof. induction l as [|e l IH] using rev_ind; [done|]. rewrite found_of_snoc, !length_app. destruct (found_doc v e.1 e.2); cbn [length]; lia. Qed.

Lemma enumerate_snd {A} (l : list A) : (enumerate l).*2 = l.
Proof. unfold enumerate. apply snd_zip. by rewrite length_seq. Qed.

Lemma enumerate_prefix {A} (l : list A) before x rest : enumerate l = before ++ x :: rest -> l = before.*2 ++ x.2 :: rest.*2.
Proof. intros H. rewrite <- (enumerate_snd l), H. by rewrite fmap_app, fmap_cons. Qed.

(** [starts] after the name pass has read [l]. *)
Definition counts (l : list (u32 * u32)) (i : nat) : N :=
  match i with 0 => 0%N | S d => N.of_nat (count_of d (found_of l)) end.

Lemma prefix_few l rest : child_ids v = l ++ rest -> (N.of_nat (length (found_of l)) < 2 ^ 32)%N.
Proof. intros H. pose proof few_names as Hf. rewrite H, length_app in Hf. pose proof (found_of_length l). lia. Qed.

Lemma count_of_most d l : count_of d l <= length l.
Proof. unfold count_of, ids_of. rewrite length_fmap. apply length_filter. Qed.

Lemma found_below l : Forall (fun e => N.to_nat e.1 < bound) (found_of l).
Proof.
  apply Forall_forall. intros [d id] Hin. apply list_elem_of_omap in Hin as ([i ch] & _ & Hd). cbn in Hd.
  destruct (found_doc v i ch) as [d'|] eqn:Hf; [|done]. injection Hd as -> ->. cbn. unfold found_doc in Hf.
  destruct (from_child ch); [|done]. destruct (_ && _); [|done]. destruct (cat_doc v inode); [|done].
  destruct (N.ltb_spec n (next_doc v)); [|done]. injection Hf as ->. lia.
Qed.

Lemma count_pass : runs no_error (fold_until (count_row ck v) (enumerate (child_ids v)) (replicate (S bound) 0%N, []))
  (fun acc => acc = (tab (counts (child_ids v)) (S bound), found)).
Proof.
  eapply runs_mono;
    [apply (runs_fold_prefix _ _ (fun before acc => acc = (tab (counts before.*2) (S bound), found_of before.*2)))|
     intros acc ->; by rewrite enumerate_snd].
  { f_equal. rewrite tab_const. apply tab_ext. by intros []. }
  intros before [n e] rest acc Hl ->. apply enumerate_prefix in Hl. cbn [fst snd] in Hl |- *. unfold count_row. cbn [fst snd].
  apply runs_after_every. rewrite fmap_app, fmap_cons. cbn [fmap list_fmap snd].
  rewrite found_of_snoc. destruct (found_doc v e.1 e.2) as [d|] eqn:Hd.
  - assert (Hdb : N.to_nat d < bound).
    { pose proof (found_below (before.*2 ++ [e])) as Hb. rewrite found_of_snoc, Hd in Hb.
      rewrite Forall_app, Forall_singleton in Hb. by destruct Hb. }
    pose proof (prefix_few (before.*2 ++ [e]) (rest.*2)) as Hf. rewrite <- app_assoc in Hf. specialize (Hf Hl).
    rewrite found_of_snoc, Hd, length_app in Hf. cbn [length] in Hf. pose proof (count_of_most (N.to_nat d) (found_of before.*2)).
    eapply runs_value; [apply add_at_tab; [lia|cbn [counts]; lia]|]. apply runs_done. f_equal. apply tab_ext. intros [|i] Hi; [done|]. cbn [counts Nat.eqb]. rewrite found_of_snoc, Hd, count_of_snoc.
    cbn [fst]. rewrite (Nat.eqb_sym (N.to_nat d)). destruct (Nat.eqb_spec i (N.to_nat d)) as [->|]; cbn [Nat.b2n]; lia.
  - apply runs_done. rewrite app_nil_r. f_equal. apply tab_ext. intros [|i] Hi; [done|]. cbn [counts].
    by rewrite found_of_snoc, Hd, app_nil_r.
Qed.

(** The starts of the rows. *)
Lemma sum_pass : runs no_error (fold_until (sum_row ck) (seq 0 bound) (tab (counts (child_ids v)) (S bound)))
  (fun st => st = tab (fun d => N.of_nat (below d found)) (S bound)).
Proof.
  set (mid k := tab (fun i => if i <=? k then N.of_nat (below i found) else counts (child_ids v) i) (S bound)).
  eapply runs_mono; [apply (runs_fold_prefix _ _ (fun before st => st = mid (length before)))|].
  - apply tab_ext. intros [|i] _; [|done]. cbn. done.
  - intros before d rest st Hl ->. assert (Hd : seq 0 bound !! length before = Some d) by (rewrite Hl; by apply list_lookup_middle).
    apply lookup_seq in Hd as [Hd Hlt]. cbn in Hd. subst d. unfold sum_row.
    apply runs_after_every.
    eapply runs_value; [apply tab_lookup; lia|]. rewrite Nat.leb_refl.
    pose proof (below_most (S (length before)) found) as Hb. pose proof (prefix_few (child_ids v) [] ltac:(by rewrite app_nil_r)).
    assert (Hleb : (S (length before) <=? length before) = false) by (apply Nat.leb_gt; lia).
    eapply runs_or_panic; [apply add_at_tab; [lia|rewrite Hleb; cbn [counts below] in *; lia]|].
    rewrite length_app. cbn [length]. apply tab_ext. intros i Hi. rewrite Hleb.
    destruct (Nat.eqb_spec i (S (length before))) as [->|Hne].
    + replace (length before + 1) with (S (length before)) by lia. rewrite Nat.leb_refl. cbn [counts below]. lia.
    + destruct (Nat.leb_spec i (length before)), (Nat.leb_spec i (length before + 1)); done || lia.
  - intros st ->. rewrite length_seq. apply tab_ext. intros i Hi. by rewrite (proj2 (Nat.leb_le _ _)) by lia.
Qed.

(** Rows laid out one after the other. *)
Definition laid (rows : nat -> list u32) (names : list u32) : Prop :=
  length names = length found /\
  forall d j id, rows d !! j = Some id -> names !! (below d found + j) = Some id.

Lemma ids_of_app d a b : ids_of d (a ++ b) = ids_of d a ++ ids_of d b.
Proof. unfold ids_of. by rewrite filter_app, fmap_app. Qed.

Lemma below_found d : below (S d) found <= length found.
Proof. apply below_most. Qed.

Lemma laid_slice rows names d : laid rows names -> length (rows d) = count_of d found ->
  row_slice names (N.of_nat (below d found)) (N.of_nat (below (S d) found)) = Some (rows d).
Proof.
  intros [Hlen Hat] Hd. pose proof (below_found d) as Hb. unfold row_slice. rewrite Hlen.
  rewrite (proj2 (N.leb_le _ _)), (proj2 (N.leb_le _ _)) by (cbn [below] in *; lia). cbn [andb]. rewrite !Nat2N.id. f_equal.
  apply list_eq. intros j. destruct (rows d !! j) as [id|] eqn:Hj.
  - pose proof (lookup_lt_Some _ _ _ Hj) as Hlt. rewrite lookup_slice by (cbn [below]; lia). by apply Hat.
  - apply lookup_ge_None in Hj. apply lookup_ge_None. rewrite length_slice by (cbn [below] in *; lia). cbn [below]. lia.
Qed.

(** The state of the fill after it has placed [before]. *)
Definition filling (before : list (u32 * u32)) (acc : list u32 * list u32) : Prop :=
  acc.1 = tab (fun d => N.of_nat (below d found + count_of d before)) (S bound) /\ laid (fun d => ids_of d before) acc.2.

Lemma filling_step before e rest names : found = before ++ e :: rest -> laid (fun d => ids_of d before) names ->
  laid (fun d => ids_of d (before ++ [e])) (<[below (N.to_nat e.1) found + count_of (N.to_nat e.1) before := e.2]> names).
Proof.
  intros Hl [Hlen Hat]. split; [by rewrite length_insert|]. intros d j id. rewrite ids_of_snoc.
  set (d0 := N.to_nat e.1). pose proof (below_found d0) as Hb.
  assert (Hcount : forall d', count_of d' before + Nat.b2n (d0 =? d') <= count_of d' found).
  { intros d'. unfold count_of. rewrite Hl, (ids_of_app d' before (e :: rest)). change (e :: rest) with ([e] ++ rest).
    rewrite (ids_of_app d' [e]), !length_app. change [e] with ([] ++ [e]) at 1. rewrite ids_of_snoc. fold d0.
    destruct (d0 =? d'); cbn; lia. }
  pose proof (Hcount d0) as H0. rewrite Nat.eqb_refl in H0. cbn [Nat.b2n] in H0. cbn [below] in Hb.
  assert (Hold : ids_of d before !! j = Some id -> below d found + j <> below d0 found + count_of d0 before).
  { intros Hj%lookup_lt_Some. change (length (ids_of d before)) with (count_of d before) in Hj. specialize (Hcount d).
    destruct (Nat.lt_trichotomy d d0) as [H|[->|H]]; [|lia|]; apply below_apart with (found := found) in H; lia. }
  rewrite lookup_app. destruct (ids_of d before !! j) as [id'|] eqn:Hj.
  - intros [= ->]. rewrite list_lookup_insert_ne by (symmetry; by apply Hold). by apply Hat.
  - destruct (Nat.eqb_spec d0 d) as [<-|]; [|done]. apply lookup_ge_None in Hj. intros Hi.
    destruct (j - length (ids_of d0 before)) as [|] eqn:Hz; [|done]. injection Hi as <-.
    replace j with (count_of d0 before) by (unfold count_of; lia). apply list_lookup_insert_eq. lia.
Qed.

Lemma fill_pass : runs no_error
  (fold_until (fill_row ck) (enumerate found)
     (tab (fun d => N.of_nat (below d found)) (S bound), replicate (length found) 0%N))
  (fun acc => laid (fun d => ids_of d found) acc.2).
Proof.
  eapply runs_mono; [apply (runs_fold_prefix _ _ (fun before acc => filling before.*2 acc))|
    intros acc [_ Hacc]; by rewrite enumerate_snd in Hacc].
  { split; cbn [fst snd]; [apply tab_ext; intros d _; cbn; unfold count_of; cbn; f_equal; lia|].
    split; [by rewrite length_replicate|]. intros d j id H. done. }
  intros before [n e] rest [fill names] Hl [Hfill Hnames]. apply enumerate_prefix in Hl. cbn [fst snd] in *. unfold fill_row. cbn [fst snd].
  apply runs_after_every. subst fill. rewrite fmap_app, fmap_cons. cbn [fmap list_fmap snd].
  pose proof (found_below (child_ids v)) as Hb. rewrite Hl, Forall_app, Forall_cons in Hb. destruct Hb as (_ & Hb & _).
  pose proof (count_of_snoc (N.to_nat e.1) before.*2 e) as Hc. rewrite Nat.eqb_refl in Hc. cbn [Nat.b2n] in Hc.
  assert (Hle : below (N.to_nat e.1) found + count_of (N.to_nat e.1) before.*2 < length found).
  { pose proof (below_found (N.to_nat e.1)) as Hf. cbn [below] in Hf. enough (count_of (N.to_nat e.1) before.*2 < count_of (N.to_nat e.1) found) by lia.
    rewrite Hl. unfold count_of in *. change (e :: rest.*2) with ([e] ++ rest.*2). rewrite app_assoc, ids_of_app, length_app. lia. }
  eapply runs_value; [apply tab_lookup; lia|]. rewrite Nat2N.id.
  eapply runs_value.
  { unfold set_at. destruct Hnames as [Hlen _]. destruct (lookup_lt_is_Some_2 names (below (N.to_nat e.1) found + count_of (N.to_nat e.1) before.*2)) as [x ->]; [lia|reflexivity]. }
  pose proof (prefix_few (child_ids v) [] ltac:(by rewrite app_nil_r)).
  eapply runs_value; [apply add_at_tab; lia|]. apply runs_done. split; cbn [fst snd].
  - apply tab_ext. intros d _. rewrite count_of_snoc, (Nat.eqb_sym (N.to_nat e.1)).
    destruct (Nat.eqb_spec d (N.to_nat e.1)) as [->|]; cbn [Nat.b2n]; lia.
  - eapply filling_step; [exact Hl|done].
Qed.

(** The rows after [order] has sorted the first [k] of them. *)
Definition ordered (k d : nat) : list u32 := if d <? k then sort_by cmp_le (ids_of d found) else ids_of d found.

Lemma ordered_length k d : length (ordered k d) = count_of d found.
Proof. unfold ordered. destruct (d <? k); [|done]. apply Permutation_length, sort_by_perm. Qed.

Lemma enumerate_at {A} (l : list A) before x rest : enumerate l = before ++ x :: rest -> x.1 = length before /\ l !! length before = Some x.2.
Proof.
  intros H. assert (Hx : enumerate l !! length before = Some x) by (rewrite H; by apply list_lookup_middle).
  unfold enumerate in Hx. apply lookup_zip_with_Some in Hx as (i & y & -> & Hi%lookup_seq & Hy). cbn. split; [lia|done].
Qed.

Lemma windows_tab (f : nat -> N) n k w : windows 2 (tab f (S n)) !! k = Some w -> k < n /\ w = [f k; f (S k)].
Proof.
  unfold windows. rewrite list_lookup_fmap, tab_length. intros H. apply fmap_Some in H as (i & Hi%lookup_seq & ->).
  destruct Hi as [Hi Hk]. cbn in Hi. subst i. split; [lia|]. apply list_eq. intros j. unfold tab.
  destruct j as [|[|j]]; [rewrite lookup_take_lt, lookup_drop, list_lookup_fmap, lookup_seq_lt by lia; cbn; by rewrite Nat.add_0_r..| |].
  - rewrite lookup_take_lt, lookup_drop, list_lookup_fmap, lookup_seq_lt by lia. cbn. by rewrite Nat.add_1_r.
  - by rewrite lookup_take_ge by lia.
Qed.

(** A row replaced by one as long keeps the others where they are. *)
Lemma laid_replace rows rows' names k : laid rows names -> length (rows' k) = count_of k found ->
  (forall d, d <> k -> rows' d = rows d) -> (forall d, length (rows d) = count_of d found) ->
  laid rows' (take (below k found) names ++ rows' k ++ drop (below (S k) found) names).
Proof.
  intros [Hlen Hat] Hk Hother Hrows. pose proof (below_found k) as Hb. cbn [below] in Hb.
  assert (Ht : length (take (below k found) names) = below k found) by (rewrite length_take; lia). split.
  - rewrite !length_app, Ht, length_drop, Hk, Hlen. cbn [below]. lia.
  - intros d j id Hj. pose proof (lookup_lt_Some _ _ _ Hj) as Hlt. destruct (decide (d = k)) as [->|Hd].
    + rewrite lookup_app_r by lia. rewrite Ht. replace (_ + j - _) with j by lia. by rewrite lookup_app_l.
    + rewrite Hother in Hj, Hlt by done. rewrite Hrows in Hlt. specialize (Hat d j id Hj).
      destruct (Nat.lt_total d k) as [H|[?|H]]; [|done|]; apply below_apart with (found := found) in H.
      * rewrite lookup_app_l by lia. by rewrite lookup_take_lt by lia.
      * rewrite lookup_app_r by lia. rewrite Ht, lookup_app_r by lia. rewrite lookup_drop, Hk. cbn [below].
        by replace (_ + _) with (below d found + j) by lia.
Qed.

Lemma order_pass names : laid (ordered 0) names ->
  runs no_error (order ck (tab (fun d => N.of_nat (below d found)) (S bound)) names) (laid (ordered bound)).
Proof.
  intros Hnames. set (st := tab (fun d => N.of_nat (below d found)) (S bound)).
  eapply runs_mono; [apply (runs_fold_prefix _ _ (fun before => laid (ordered (length before)))); [exact Hnames|]|].
  2:{ intros l Hl. assert (Hlen : length (enumerate (windows 2 st)) = bound); [|by rewrite Hlen in Hl].
      unfold enumerate, windows. rewrite length_zip, !length_fmap, !length_seq. unfold st. rewrite tab_length. lia. }
  intros before [k w] rest l Hl Hlaid. apply enumerate_at in Hl as [Hk Hw]. cbn in Hk. subst k.
  apply windows_tab in Hw as [Hk Hw]. unfold order_row. cbn [fst snd] in *. subst w.
  eapply runs_value; [apply laid_slice; [exact Hlaid|apply ordered_length]|].
  eapply runs_bind with (P := fun _ => True); [destruct (_ || _); [by apply runs_check|by apply runs_done]|]. intros _ _.
  apply runs_done. rewrite !Nat2N.id, length_app. cbn [length].
  assert (Hself : sort_by cmp_le (ordered (length before) (length before)) = ordered (length before + 1) (length before)).
  { unfold ordered. rewrite Nat.ltb_irrefl, (proj2 (Nat.ltb_lt _ _)) by lia. done. }
  rewrite Hself. apply (laid_replace (ordered (length before))); [done|apply ordered_length| |intros; apply ordered_length].
  intros d Hd. unfold ordered. destruct (Nat.ltb_spec d (length before)), (Nat.ltb_spec d (length before + 1)); done || lia.
Qed.

(** ** The full build serves the catalog *)

Lemma sorted_once (l : list N) : StronglySorted (fun a b => cmp_le a b = true) l -> NoDup l -> StronglySorted N.lt l.
Proof.
  induction 1 as [|x l Hs IH Hx]; [constructor|]. intros [Hnx Hnd]%NoDup_cons. constructor; [by apply IH|].
  rewrite Forall_forall in *. intros y Hy. specialize (Hx y Hy). unfold cmp_le, cmp, N_ord in Hx.
  destruct (N.compare_spec x y) as [->|Hlt|]; [done|done|done].
Qed.

Lemma elem_of_ids_of d id : id ∈ ids_of d found <-> owner v id = Some (Some (N.of_nat d)).
Proof.
  unfold ids_of, found_of. rewrite list_elem_of_fmap. split.
  - intros ([d' id'] & -> & [Hd Hin]%list_elem_of_filter). cbn in Hd |- *. apply list_elem_of_omap in Hin as ([i ch] & Hin & Hf).
    cbn in Hf. destruct (found_doc v i ch) as [d2|] eqn:Hfd; [|done]. injection Hf as -> ->.
    apply (found_owner v id' ch) in Hfd; [|done]. subst d. by rewrite N2Nat.id.
  - intros Ho. destruct (owner_listed v id _ Ho) as [ch Hin]. apply (found_owner v id ch _ Hin) in Ho.
    exists (N.of_nat d, id). split; [done|]. apply list_elem_of_filter. split; [apply Nat2N.id|].
    apply list_elem_of_omap. exists (id, ch). split; [done|]. cbn. by rewrite Ho.
Qed.

Lemma found_once : NoDup found.*2.
Proof.
  pose proof ids_once as Hn. unfold found_of. revert Hn. generalize (child_ids v). intros l.
  induction l as [|[id ch] l IH]; [done|]. rewrite fmap_cons. intros [Hni Hn]%NoDup_cons.
  assert (Hsub : forall id', id' ∈ (found_of l).*2 -> id' ∈ l.*1).
  { intros id' ([d' i'] & -> & Hin)%list_elem_of_fmap. apply list_elem_of_omap in Hin as ([i c'] & Hin & Hf). cbn in Hf.
    destruct (found_doc v i c'); [|done]. injection Hf as _ ->. apply list_elem_of_fmap. by exists (i', c'). }
  cbn. destruct (found_doc v id ch) as [d|]; [|by apply IH]. cbn. constructor; [|by apply IH]. intros Hin. apply Hni. by apply Hsub.
Qed.

Lemma sublist_fmap {A B} (f : A -> B) l k : l `sublist_of` k -> f <$> l `sublist_of` f <$> k.
Proof. by induction 1; constructor. Qed.

Lemma ids_sublist d : ids_of d found `sublist_of` found.*2.
Proof. unfold ids_of. apply sublist_fmap, sublist_filter. Qed.

Lemma is_sorted_spec l : is_sorted l = true -> StronglySorted N.le l.
Proof.
  intros H. apply Sorted_StronglySorted; [intros ???; apply N.le_trans|]. induction l as [|a [|b l] IH]; [repeat constructor..|].
  cbn in H. apply andb_prop in H as [Hab%N.leb_le H]. constructor; [by apply IH|by constructor].
Qed.

Lemma sublist_sorted (R : N -> N -> Prop) l k : l `sublist_of` k -> StronglySorted R k -> StronglySorted R l.
Proof.
  induction 1 as [|x l k Hl IH|x l k Hl IH]; intros Hs; [done|..]; apply StronglySorted_inv in Hs as [Hs Hx]; [|by apply IH].
  constructor; [by apply IH|]. rewrite Forall_forall in *. intros y Hy. apply Hx. by eapply elem_of_sublist.
Qed.

(** The rows that [build] leaves: sorted, and each a document's names. *)
Lemma ordered_row d : row v (N.of_nat d) (ordered (S d) d).
Proof.
  unfold ordered. rewrite (proj2 (Nat.ltb_lt _ _)) by lia. split.
  - apply sorted_once; [apply sort_by_sorted|]. rewrite sort_by_perm. eapply sublist_NoDup; [apply found_once|apply ids_sublist].
  - intros id. rewrite sort_by_perm. apply elem_of_ids_of.
Qed.

Lemma plain_row d : is_sorted found.*2 = true -> row v (N.of_nat d) (ids_of d found).
Proof.
  intros Hs%is_sorted_spec. split; [|intros id; apply elem_of_ids_of]. apply sorted_once.
  - assert (Hle : StronglySorted N.le (ids_of d found)) by (eapply sublist_sorted; [apply ids_sublist|done]).
    clear Hs. induction Hle as [|x l Hl IH Hx]; constructor; [done|]. eapply Forall_impl; [exact Hx|]. intros y Hy.
    unfold cmp_le, cmp, N_ord. destruct (N.compare_spec x y); done || lia.
  - eapply sublist_NoDup; [apply found_once|apply ids_sublist].
Qed.

Lemma laid_serves rows names : laid rows names -> (forall d, length (rows d) = count_of d found) ->
  (forall d, d < bound -> row v (N.of_nat d) (rows d)) ->
  serves v (mkDocNames (mkBase (tab (fun d => N.of_nat (below d found)) (S bound)) names) ∅).
Proof.
  intros Hlaid Hlen Hrows d. unfold names_of. cbn [overrides base starts b_names]. rewrite lookup_empty.
  destruct (Nat.lt_ge_cases (N.to_nat d) bound) as [Hd|Hd].
  - rewrite !tab_lookup by lia. exists (rows (N.to_nat d)). split; [by apply laid_slice|].
    specialize (Hrows _ Hd). by rewrite N2Nat.id in Hrows.
  - exists []. split.
    + rewrite (lookup_ge_None_2 _ (S _)) by (rewrite tab_length; lia). by destruct (_ !! N.to_nat d).
    + split; [constructor|]. intros id. split; [by intros ?%not_elem_of_nil|]. intros Ho. exfalso.
      destruct (owner_listed v id d Ho) as [ch Hin]. pose proof (found_owner v id ch d Hin) as Hf. apply Hf in Ho.
      unfold found_doc in Ho. destruct (from_child ch); [|done]. destruct (_ && _); [|done]. destruct (cat_doc v inode); [|done].
      destruct (N.ltb_spec n (next_doc v)); [|done]. injection Ho as ->. lia.
Qed.

Lemma build_spec : runs no_error (build ck v) (serves v).
Proof.
  unfold build. checkpoint. eapply runs_bind; [exact count_pass|]. intros acc ->. cbn [fst snd].
  eapply runs_bind; [exact sum_pass|]. intros st ->. checkpoint. checkpoint.
  eapply runs_value; [apply tab_lookup; lia|]. rewrite (below_all bound found), Nat2N.id by (apply found_below).
  eapply runs_bind; [exact fill_pass|]. intros acc Hacc. checkpoint.
  destruct (is_sorted found.*2) eqn:Hs.
  - eapply runs_bind; [by apply (runs_done _ _ (fun names => names = acc.2))|]. intros names ->. checkpoint. apply runs_done.
    eapply laid_serves; [exact Hacc|done|]. intros d _. by apply plain_row.
  - eapply runs_bind; [by apply order_pass|]. intros names Hn. checkpoint. apply runs_done.
    eapply laid_serves; [exact Hn|apply ordered_length|]. intros d Hd. unfold ordered.
    rewrite (proj2 (Nat.ltb_lt _ _)) by done. pose proof (ordered_row d) as Hr. unfold ordered in Hr. by rewrite (proj2 (Nat.ltb_lt _ _)) in Hr by lia.
Qed.

Lemma new_until_spec c : exists r c', new_until ck v c = Some (r, c') /\
  match r with Ok (Some names) => serves v names | Ok None => stopped c' | Err e => cat_load v = Err e end.
Proof.
  unfold new_until. destruct (ck_ask ck c) as [stop c1] eqn:Hask. pose proof (stopped_ask _ _ _ Hask) as Hs.
  destruct stop; [eexists _, _; split; [reflexivity|by apply Hs; left]|].
  destruct (cat_load v) as [u|e] eqn:Hload; [|by eexists _, _].
  destruct (build_spec c1) as (r & c' & -> & Hr). cbn [mbind option_bind]. eexists _, _. split; [reflexivity|].
  destruct r as [names|[]]; done.
Qed.
End build.

(** ** Adoption *)

(** What two views of one checkpoint's epoch promise each other: the later
    one lists every name and inode that differs, with whether the name is
    live, and counts the names of an inode.  The count is used only to refuse
    an adoption that would lose names. *)
Class Kept {OE} (previous v : Catalog OE) : Prop := {
  name_kept id : id ∉ (changed_names v).*1 ->
    is_live_name v id = is_live_name previous id /\ name_child v id = name_child previous id;
  name_flag id live : (id, live) ∈ changed_names v -> live = is_live_name v id;
  changed_once : NoDup (changed_names v).*1;
  inode_kept inode : inode ∉ changed_inodes v -> is_live_inode v inode = true ->
    is_live_inode previous inode = true /\ cat_doc v inode = cat_doc previous inode
}.
Class Counted {OE} (v : Catalog OE) : Prop := {
  counted inode : is_live_inode v inode = true ->
    indexed_name_count v inode = N.of_nat (length (filter (fun e => from_child e.2 = TInode inode) (child_ids v)))
}.
Class Carried {OE} (previous v : Catalog OE) : Prop := { carried_kept :: Kept previous v; carried_counted :: Counted v }.

Section adopt.
Context {OE : Type} (previous v : Catalog OE) {HP : CatalogLaws previous} {HV : CatalogLaws v} {HC : Kept previous v}.

Lemma elem_of_extend s o d : d ∈ extend s o <-> o = Some d \/ d ∈ s.
Proof. destruct o as [d'|]; cbn; [set_unfold|]; naive_solver. Qed.

(** What the first loop leaves. *)
Lemma name_changes l acc : exists r, fold_opt (name_change previous v) l acc = Some r /\
  rewritten r = rewritten acc ++ (filter (fun c => c.2 = true) l).*1 /\ gained r = gained acc /\
  (forall d, d ∈ affected acc -> d ∈ affected r) /\
  forall id live d, (id, live) ∈ l ->
    owner previous id = Some (Some d) \/ (live = true /\ owner v id = Some (Some d)) -> d ∈ affected r.
Proof.
  revert acc. induction l as [|[name live] l IH]; intros acc.
  { exists acc. split; [done|]. split; [by rewrite app_nil_r|]. split_and!; try done. by intros ??? ?%not_elem_of_nil. }
  cbn [fold_opt]. unfold name_change at 2. destruct (owner_some previous name) as [before Hb]. rewrite Hb. cbn [mbind option_bind].
  destruct (owner_some v name) as [after Ha].
  set (acc' := if live then mkChanges (extend (extend (affected acc) before) after) (rewritten acc ++ [name]) (gained acc) (S (overlay_rows acc))
               else mkChanges (extend (affected acc) before) (rewritten acc) (gained acc) (S (overlay_rows acc))).
  destruct (IH acc') as (r & Heq & Hw & Hg & Hm & Hin). exists r. split; [|split_and!].
  - rewrite <- Heq. subst acc'. destruct live; [by rewrite Ha|done].
  - rewrite Hw. subst acc'. destruct live; cbn [rewritten]; [rewrite filter_cons_True by done|by rewrite filter_cons_False].
    by rewrite fmap_cons, <- app_assoc.
  - rewrite Hg. subst acc'. by destruct live.
  - intros d Hd. apply Hm. subst acc'. destruct live; cbn [affected]; rewrite !elem_of_extend; auto.
  - intros id lv d [[= -> ->]|Hid]%elem_of_cons Hd; [|by eapply Hin]. apply Hm. subst acc'.
    destruct Hd as [Hd|[-> Hd]]; [rewrite Hd in Hb; injection Hb as <-|rewrite Hd in Ha; injection Ha as <-];
      [destruct live|]; cbn [affected]; rewrite !elem_of_extend; auto.
Qed.

(** What the second leaves. *)
Lemma inode_changes l acc : let r := fold_left (inode_change previous v) l acc in
  rewritten r = rewritten acc /\ (forall i, i ∈ gained acc -> i ∈ gained r) /\ (forall d, d ∈ affected acc -> d ∈ affected r) /\
  forall i, i ∈ l -> live_doc previous i <> live_doc v i ->
    (forall d, live_doc previous i = Some d \/ live_doc v i = Some d -> d ∈ affected r) /\
    (live_doc previous i = None -> is_live_inode previous i = true -> i ∈ gained r).
Proof.
  revert acc. induction l as [|i l IH]; intros acc; cbn [fold_left]; [split_and!; try done; by intros ? ?%not_elem_of_nil|].
  destruct (IH (inode_change previous v acc i)) as (Hw & Hg & Hm & Hin).
  assert (Hstep : rewritten (inode_change previous v acc i) = rewritten acc /\
    (forall j, j ∈ gained acc -> j ∈ gained (inode_change previous v acc i)) /\
    (forall d, d ∈ affected acc -> d ∈ affected (inode_change previous v acc i)) /\
    (live_doc previous i <> live_doc v i ->
      (forall d, live_doc previous i = Some d \/ live_doc v i = Some d -> d ∈ affected (inode_change previous v acc i)) /\
      (live_doc previous i = None -> is_live_inode previous i = true -> i ∈ gained (inode_change previous v acc i)))).
  { unfold inode_change. case_bool_decide as Hne; cbn [rewritten gained affected]; [|by split_and!]. split_and!; [done|..].
    - intros j Hj. destruct (_ && _); [|done]. rewrite elem_of_app. by left.
    - intros d Hd. rewrite !elem_of_extend. auto.
    - intros _. split; [intros d Hd; rewrite !elem_of_extend; tauto|]. intros Hn Hl. rewrite bool_decide_eq_true_2, Hl by done.
      cbn [andb]. rewrite elem_of_app, list_elem_of_singleton. by right. }
  destruct Hstep as (Sw & Sg & Sm & Si). split_and!; [by rewrite Hw|auto|auto|].
  intros j [->|Hj]%elem_of_cons Hne; [|by apply Hin]. destruct (Si Hne) as [H1 H2]. split; [intros d Hd; apply Hm, H1, Hd|auto].
Qed.

(** [Changes::between] lists every row that can differ. *)
Record changes_ok (ch : Changes) : Prop := {
  co_rewritten : rewritten ch = (filter (fun c => c.2 = true) (changed_names v)).*1;
  co_names id live d : (id, live) ∈ changed_names v ->
    owner previous id = Some (Some d) \/ (live = true /\ owner v id = Some (Some d)) -> d ∈ affected ch;
  co_inodes i d : i ∈ changed_inodes v -> live_doc previous i <> live_doc v i ->
    live_doc previous i = Some d \/ live_doc v i = Some d -> d ∈ affected ch;
  co_gained i : i ∈ changed_inodes v -> live_doc previous i <> live_doc v i ->
    live_doc previous i = None -> is_live_inode previous i = true -> i ∈ gained ch
}.

Lemma between_spec : exists ch, between previous v = Some ch /\ changes_ok ch.
Proof.
  unfold between. destruct (name_changes (changed_names v) (mkChanges ∅ [] [] 0)) as (r & -> & Hw & _ & _ & Hn). cbn [mbind option_bind].
  eexists. split; [reflexivity|]. destruct (inode_changes (changed_inodes v) r) as (Iw & _ & Im & Ii).
  split; [by rewrite Iw, Hw|intros; apply Im; by eapply Hn|intros i d Hi Hne; by apply (Ii i Hi Hne)|intros i Hi Hne; by apply (Ii i Hi Hne)].
Qed.

(** A live name's document is its inode's. *)
Lemma owner_cases (w : Catalog OE) {HW : CatalogLaws w} id d : owner w id = Some (Some d) <->
  exists child inode, is_live_name w id = true /\ name_child w id = Some child /\ from_child child = TInode inode /\ live_doc w inode = Some d.
Proof.
  unfold owner, live_doc. destruct (is_live_name w id) eqn:Hl; [|naive_solver].
  destruct (live_child id Hl) as [child Hc]. rewrite Hc. cbn [mbind option_bind]. destruct (from_child child) as [inode|kind] eqn:Ht.
  - split; [intros [= Hd]; by exists child, inode|]. intros (ch & i & _ & Hch & Hi & Hd). injection Hch as <-.
    rewrite Ht in Hi. injection Hi as <-. by rewrite Hd.
  - split; [done|]. intros (ch & i & _ & Hch & Hi & _). injection Hch as <-. congruence.
Qed.

Lemma unchanged_or id : id ∉ (changed_names v).*1 \/ exists live, (id, live) ∈ changed_names v.
Proof.
  destruct (decide (id ∈ (changed_names v).*1)) as [Hin|]; [right|by left].
  apply list_elem_of_fmap in Hin as ([i live] & -> & Hin). by exists live.
Qed.

(** A row loses a name only if it is affected. *)
Lemma name_lost ch id d : changes_ok ch -> owner previous id = Some (Some d) -> owner v id <> Some (Some d) -> d ∈ affected ch.
Proof.
  intros Hok Hp Hn. destruct (unchanged_or id) as [Hid|[live Hid]]; [|eapply co_names; eauto].
  destruct (name_kept id Hid) as [Hl Hc]. apply owner_cases in Hp as (child & inode & Hpl & Hpc & Ht & Hd); [|done].
  rewrite Hpl in Hl. rewrite Hpc in Hc. pose proof (target_live id child inode Hl Hc Ht) as Hi.
  assert (Hne : live_doc previous inode <> live_doc v inode).
  { rewrite Hd. intros Heq. apply Hn, owner_cases; [done|]. by exists child, inode. }
  destruct (decide (inode ∈ changed_inodes v)) as [Hch|Hch]; [eapply co_inodes; eauto|].
  destruct (inode_kept inode Hch Hi) as [Hpi Hdoc]. exfalso. apply Hne. unfold live_doc. by rewrite Hi, Hpi, Hdoc.
Qed.

(** A row gains a name only if it is affected; the name was rewritten, or
    stood in an affected row, or its inode gained its document. *)
Lemma name_gained ch id d : changes_ok ch -> owner v id = Some (Some d) -> owner previous id <> Some (Some d) ->
  d ∈ affected ch /\
  (id ∈ rewritten ch \/ (exists d', owner previous id = Some (Some d') /\ d' ∈ affected ch) \/
   exists inode child, inode ∈ gained ch /\ is_live_inode v inode = true /\ (id, child) ∈ child_ids v /\ from_child child = TInode inode).
Proof.
  intros Hok Hv Hp. destruct (unchanged_or id) as [Hid|[live Hid]].
  - destruct (name_kept id Hid) as [Hl Hc]. pose proof Hv as Hv'. apply owner_cases in Hv as (child & inode & Hvl & Hvc & Ht & Hd); [|done].
    rewrite Hvl in Hl. rewrite Hvc in Hc. pose proof (target_live id child inode (eq_sym Hl) (eq_sym Hc) Ht) as Hi.
    pose proof (target_live id child inode Hvl Hvc Ht) as Hvi.
    assert (Hne : live_doc previous inode <> live_doc v inode).
    { rewrite Hd. intros Heq. apply Hp, owner_cases; [done|]. by exists child, inode. }
    destruct (decide (inode ∈ changed_inodes v)) as [Hch|Hch].
    + split; [eapply co_inodes; eauto|]. right. destruct (live_doc previous inode) as [d'|] eqn:Hd'.
      * left. exists d'. split; [apply owner_cases; [done|]; by exists child, inode|]. eapply co_inodes; eauto. by rewrite Hd'.
      * right. exists inode, child. split; [apply (co_gained _ Hok); [done|by rewrite Hd'|done|done]|]. split; [done|]. split; [by apply ids_live|done].
    + destruct (inode_kept inode Hch Hvi) as [Hpi Hdoc]. exfalso. apply Hne. unfold live_doc. by rewrite Hvi, Hpi, Hdoc.
  - assert (Hlive : live = true).
    { rewrite (name_flag id live Hid). apply owner_cases in Hv as (? & ? & ? & _); done. }
    subst live. split; [eapply co_names; eauto|]. left. rewrite (co_rewritten _ Hok), list_elem_of_fmap. exists (id, true).
    split; [done|]. by apply list_elem_of_filter.
Qed.

(** The names that [l] points at an inode, as the code counts them. *)
Definition points (inode : u32) (l : list u32) : list u32 :=
  filter (fun name => from_child <$> name_child v name = Some (TInode inode)) l.

Lemma fold_opt_snoc {A B} (f : A -> B -> option A) l x acc : fold_opt f (l ++ [x]) acc = (r ← fold_opt f l acc; f r x).
Proof.
  revert acc. induction l as [|y l IH]; intros acc; cbn; [by destruct (f acc x)|]. destruct (f acc y); [apply IH|done].
Qed.

Lemma points_snoc inode l name child : name_child v name = Some child ->
  length (points inode (l ++ [name])) = length (points inode l) + (if decide (from_child child = TInode inode) then 1 else 0).
Proof.
  intros Hc. unfold points. rewrite filter_app, length_app, filter_cons. f_equal. rewrite Hc. cbn [fmap option_fmap option_map].
  repeat case_decide; try done; congruence.
Qed.

Lemma count_targets l : Forall (fun name => is_live_name v name = true) l -> (N.of_nat (length l) < 2 ^ 32)%N ->
  exists found, fold_opt (count_target v) l ∅ = Some found /\ forall i, default 0%N (found !! i) = N.of_nat (length (points i l)).
Proof.
  induction l as [|name l IH] using rev_ind; [exists ∅; split; [done|]; intros i; by rewrite lookup_empty|].
  rewrite Forall_app, Forall_singleton. intros [Hl Hn]. rewrite length_app. cbn [length]. intros Hlen. destruct IH as (found & Hf & Hcount); [done|lia|].
  rewrite fold_opt_snoc, Hf. cbn [mbind option_bind]. destruct (live_child name Hn) as [child Hc]. unfold count_target. rewrite Hc. cbn [mbind option_bind].
  eexists. split; [reflexivity|]. intros i. rewrite (points_snoc i l name child Hc). pose proof (length_filter (fun name => from_child <$> name_child v name = Some (TInode i)) l) as Hle.
  change (filter _ l) with (points i l) in Hle. destruct (from_child child) as [inode|kind]; [|rewrite Hcount; case_decide; [done|lia]].
  case_decide as Hd; [injection Hd as <-; rewrite lookup_insert_eq|rewrite lookup_insert_ne by congruence; rewrite Hcount; lia].
  cbn [default from_option id]. unfold u32_add. rewrite Hcount, N.mod_small by lia. lia.
Qed.

Lemma rewritten_live ch : changes_ok ch -> Forall (fun name => is_live_name v name = true) (rewritten ch) /\ NoDup (rewritten ch).
Proof.
  intros Hok. rewrite (co_rewritten _ Hok). split.
  - apply Forall_forall. intros id ([i live] & -> & [Hl Hin]%list_elem_of_filter)%list_elem_of_fmap. cbn in *. subst live.
    symmetry. by apply name_flag.
  - eapply sublist_NoDup; [exact changed_once|]. apply sublist_fmap, sublist_filter.
Qed.

(** The names of an inode, as the catalog lists them. *)
Definition names_at (inode : u32) : list u32 := (filter (fun e => from_child e.2 = TInode inode) (child_ids v)).*1.

Lemma points_sub ch inode : changes_ok ch -> NoDup (points inode (rewritten ch)) /\ points inode (rewritten ch) ⊆ names_at inode.
Proof.
  intros Hok. destruct (rewritten_live ch Hok) as [Hlive Hnd]. split; [by apply NoDup_filter|].
  intros id [Hc Hin]%list_elem_of_filter. rewrite Forall_forall in Hlive. specialize (Hlive id Hin).
  destruct (live_child id Hlive) as [child Hch]. rewrite Hch in Hc. injection Hc as Hc. unfold names_at. rewrite list_elem_of_fmap.
  exists (id, child). split; [done|]. apply list_elem_of_filter. split; [done|]. by apply ids_live.
Qed.

(** When the check passes, the names of an inode that gained a document were
    all rewritten. *)
Lemma gained_spec ch : changes_ok ch -> exists b, gained_names_rewritten ch v = Some b /\
  (Counted v -> b = true -> forall inode id child, inode ∈ gained ch -> is_live_inode v inode = true -> (id, child) ∈ child_ids v ->
     from_child child = TInode inode -> id ∈ rewritten ch).
Proof.
  intros Hok. unfold gained_names_rewritten. destruct (rewritten_live ch Hok) as [Hlive Hnd].
  destruct (gained ch) as [|g gs] eqn:Hg; cbn [is_empty]; [eexists; split; [reflexivity|]; by intros _ _ ??? ?%not_elem_of_nil|]. rewrite <- Hg.
  assert (Hfew : (N.of_nat (length (rewritten ch)) < 2 ^ 32)%N).
  { assert (Hsub : rewritten ch ⊆+ (child_ids v).*1); [|apply submseteq_length in Hsub; rewrite length_fmap in Hsub; pose proof (few_names (v := v)); lia].
    apply NoDup_submseteq; [done|]. intros id Hin. rewrite Forall_forall in Hlive. specialize (Hlive id Hin).
    destruct (live_child id Hlive) as [child Hch]. rewrite list_elem_of_fmap. exists (id, child). split; [done|]. by apply ids_live. }
  destruct (count_targets (rewritten ch) Hlive Hfew) as (found & -> & Hcount). cbn [mbind option_bind]. eexists. split; [reflexivity|].
  rewrite forallb_forall. intros Hcounted Hall inode id child Hin Hi Hid Ht. specialize (Hall inode (proj1 (list_elem_of_In _ _) Hin)).
  apply N.eqb_eq in Hall. rewrite Hcount, (counted inode Hi) in Hall. apply Nat2N.inj in Hall. destruct (points_sub ch inode Hok) as [Hnd' Hsub].
  assert (Hmem : id ∈ names_at inode).
  { unfold names_at. rewrite list_elem_of_fmap. exists (id, child). split; [done|]. by apply list_elem_of_filter. }
  assert (Hperm : points inode (rewritten ch) ≡ₚ names_at inode).
  { apply submseteq_length_Permutation; [by apply NoDup_submseteq|]. unfold names_at. rewrite length_fmap. lia. }
  rewrite <- Hperm in Hmem. by apply list_elem_of_filter in Hmem as [_ ?].
Qed.

(** ** The rebuilt rows *)

Lemma placed l rows : exists r, fold_opt (place_name v) l rows = Some r /\ forall d : u32,
  r !! d = (fun row => row ++ filter (fun id => owner v id = Some (Some d)) l) <$> rows !! d.
Proof.
  revert rows. induction l as [|id l IH]; intros rows.
  { exists rows. split; [done|]. intros d. destruct (rows !! d); [|done]. cbn. by rewrite app_nil_r. }
  cbn [fold_opt]. unfold place_name at 2. destruct (owner_some v id) as [o Ho]. rewrite Ho. cbn [mbind option_bind].
  set (rows' := match o with Some doc => match rows !! doc with Some row => <[doc := row ++ [id]]> rows | None => rows end | None => rows end).
  destruct (IH rows') as (r & Heq & Hr). exists r. split; [exact Heq|]. intros d. rewrite Hr, filter_cons. subst rows'.
  destruct o as [doc|]; [|rewrite decide_False by (rewrite Ho; congruence); done].
  destruct (decide (doc = d)) as [->|Hne].
  - rewrite decide_True by done. destruct (rows !! d) as [rw|] eqn:Hrow; [rewrite lookup_insert_eq|rewrite Hrow; done].
    cbn. by rewrite <- app_assoc.
  - rewrite decide_False by (rewrite Ho; congruence). destruct (rows !! doc) as [rw|]; [|done]. by rewrite lookup_insert_ne.
Qed.

Lemma served_rows names l : serves previous names -> exists rows, mapM (names_of names) l = Some rows /\
  forall id, id ∈ concat rows <-> exists d, d ∈ l /\ owner previous id = Some (Some d).
Proof.
  intros Hs. induction l as [|d l IH]; [exists []; split; [done|]; intros id; split; [by intros ?%not_elem_of_nil|intros (? & ?%not_elem_of_nil & _); done]|].
  destruct IH as (rows & Heq & Hin). destruct (Hs d) as (row & Hrow & _ & Hel). exists (row :: rows). cbn. rewrite Hrow. cbn. rewrite Heq.
  split; [done|]. intros id. rewrite elem_of_app, Hel, Hin. setoid_rewrite elem_of_cons. naive_solver.
Qed.

Lemma cmp_ascending (l : list N) : StronglySorted (fun a b => cmp a b = Lt) l -> StronglySorted N.lt l.
Proof.
  induction 1 as [|x l Hl IH Hx]; constructor; [done|]. eapply Forall_impl; [exact Hx|]. intros y. by apply N.compare_lt_iff.
Qed.

(** Rows that give live names of their documents, if not all. *)
Definition serves_within (names : DocNames) : Prop :=
  forall d, exists l, names_of names d = Some l /\ StronglySorted N.lt l /\ forall id, id ∈ l -> owner v id = Some (Some d).

Lemma rebuild_spec ch names : changes_ok ch -> serves previous names ->
  exists r, rebuild names v ch = Some r /\ serves_within r /\
  ((forall inode id child, inode ∈ gained ch -> is_live_inode v inode = true -> (id, child) ∈ child_ids v ->
     from_child child = TInode inode -> id ∈ rewritten ch) -> serves v r).
Proof.
  intros Hok Hs. unfold rebuild. destruct (served_rows names (elements (affected ch)) Hs) as (cands & -> & Hc). cbn [mbind option_bind].
  destruct (placed (concat cands ++ rewritten ch) (gset_to_gmap [] (affected ch))) as (rows & -> & Hrows). cbn [mbind option_bind].
  eexists. split; [reflexivity|].
  assert (Hl : forall d, exists l, names_of (mkDocNames (base names) (((fun row => dedup (sort_by cmp_le row)) <$> rows) ∪ overrides names)) d = Some l /\
    StronglySorted N.lt l /\ forall id, id ∈ l <-> if decide (d ∈ affected ch) then owner v id = Some (Some d) /\ id ∈ concat cands ++ rewritten ch else owner previous id = Some (Some d)).
  { intros d. specialize (Hrows d). rewrite lookup_gset_to_gmap in Hrows. unfold names_of. cbn [overrides base]. rewrite lookup_union, lookup_fmap, Hrows. case_decide as Hd.
    - rewrite option_guard_True by done. set (row := dedup (sort_by cmp_le (filter (fun id => owner v id = Some (Some d)) (concat cands ++ rewritten ch)))).
      exists row. split; [by destruct (overrides names !! d)|]. split; [apply cmp_ascending, dedup_sorted, sort_by_sorted|]. intros id. subst row. by rewrite elem_of_dedup, sort_by_perm, list_elem_of_filter.
    - rewrite option_guard_False by done. destruct (Hs d) as (row' & Hrow & Hso & Hel). unfold names_of in Hrow. exists row'. split; [by destruct (overrides names !! d)|done]. }
  assert (Hkept : forall d id, d ∉ affected ch -> owner previous id = Some (Some d) -> owner v id = Some (Some d)).
  { intros d id Hd Ho. apply dec_stable. intros Hn. by apply Hd, (name_lost ch id). }
  split; [|intros Hgained]; intros d; destruct (Hl d) as (l & Hnames & Hsorted & Hin); exists l; (split; [exact Hnames|]); (split; [done|]); intros id; rewrite Hin; destruct (decide (d ∈ affected ch)) as [Hd|Hd].
  - by intros [? _].
  - by apply Hkept.
  - split; [by intros [? _]|]. intros Ho. split; [done|]. rewrite elem_of_app, Hc. destruct (decide (owner previous id = Some (Some d))) as [Hp|Hp]; [left; exists d; by rewrite elem_of_elements|].
    destruct (name_gained ch id d Hok Ho Hp) as [_ [Hr|[(d' & Hp' & Hd')|(inode & child & Hg & Hi & Hid & Ht)]]];
      [by right|left; exists d'; by rewrite elem_of_elements|right; by eapply Hgained].
  - split; [by apply Hkept|]. intros Ho. apply dec_stable. intros Hn. apply Hd. by destruct (name_gained ch id d Hok Ho Hn) as [? _].
Qed.

Lemma adopt_spec names : serves previous names -> exists r, adopt v previous names = Some r /\
  match r with Ok (Some names') => serves_within names' /\ (Counted v -> serves v names') | Ok None => True | Err e => cat_load v = Err e end.
Proof.
  intros Hs. unfold adopt. destruct (cat_load v) as [u|e] eqn:Hload; [|by eexists].
  destruct between_spec as (ch & -> & Hok). cbn [mbind option_bind]. destruct (gained_spec ch Hok) as (b & -> & Hb). cbn [mbind option_bind].
  destruct b; cbn [negb]; [|by eexists]. destruct (served_rows names (elements (affected ch)) Hs) as (rows & -> & _). cbn [mbind option_bind].
  destruct (_ <? _); [by eexists|]. destruct (rebuild_spec ch names Hok Hs) as (r & -> & Hw & Hr). eexists. split; [done|].
  split; [done|]. intros Hcounted. by apply Hr, Hb.
Qed.
End adopt.

(** Two lists of rows that serve one catalog are the same. *)
Lemma serves_unique {OE} (v : Catalog OE) n1 n2 d : serves v n1 -> serves v n2 -> names_of n1 d = names_of n2 d.
Proof.
  intros H1 H2. destruct (H1 d) as (l1 & -> & S1 & E1), (H2 d) as (l2 & -> & S2 & E2). f_equal.
  apply ascending_ext; [done..|]. intros id. by rewrite E1, E2.
Qed.

(** ** Properties *)

(** C11: The full build is the inverse of the catalog.  Building the rows of a
    view always ends: with the error of a section that does not load, with
    nothing once the cancellation answered, or with rows that give every
    DocId, below [next_doc] or not, exactly the live names whose inode has
    that document, ascending and once each; no vector is indexed out of
    range and no count wraps. *)
Theorem full_build_inverts (OE : Type) (v : Catalog OE) (HV : CatalogLaws v) (ck : Checkpoint) (HF : StopFlag ck) (c : ck_state ck) :
  exists r c', new_until ck v c = Some (r, c') /\
    match r with
    | Ok (Some names) => forall d, exists l, names_of names d = Some l /\ StronglySorted N.lt l /\
                           forall id, id ∈ l <-> owner v id = Some (Some d)
    | Ok None => stopped c'
    | Err e => cat_load v = Err e
    end.
Proof. destruct (new_until_spec v (ck := ck) c) as (r & c' & Heq & Hr). exists r, c'. split; [done|]. by destruct r as [[names|]|e]. Qed.

(** C12: Adopting is rebuilding.  Rows that serve an earlier view of a
    checkpoint's epoch, carried to a later one, give every document the names
    a full build of the later view gives it, so they can be carried again; or
    the adoption is refused, or a section does not load.  It never panics. *)
Theorem adopt_is_full_build (OE : Type) (previous v : Catalog OE) (HP : CatalogLaws previous) (HV : CatalogLaws v)
    (HC : Carried previous v) (names : DocNames) (Hs : serves previous names) :
  exists r, adopt v previous names = Some r /\
    match r with
    | Ok (Some names') => serves v names' /\
        forall (ck : Checkpoint) (HF : StopFlag ck) c full c', new_until ck v c = Some (Ok (Some full), c') ->
          forall d, names_of names' d = names_of full d
    | Ok None => True
    | Err e => cat_load v = Err e
    end.
Proof.
  destruct (adopt_spec previous v names Hs) as (r & Heq & Hr). exists r. split; [done|]. destruct r as [[names'|]|e]; [|done..].
  destruct Hr as [_ Hserves]. specialize (Hserves carried_counted). split; [done|]. intros ck HF c full c' Hfull d. destruct (new_until_spec v (ck := ck) c) as (r & c2 & Heq2 & Hr2).
  rewrite Hfull in Heq2. injection Heq2 as <- <-. by eapply serves_unique.
Qed.

(** ** A small catalog *)

Section sample.
Context (rows : list (u32 * u32)) (inodes : list (u32 * option u32)) (names : list (u32 * bool)) (changed : list u32).

Definition sample_catalog : Catalog unit :=
  mkCatalog (Ok tt) 10 rows (fun id => bool_decide (is_Some ((list_to_map rows : gmap u32 u32) !! id)))
    (fun id => (list_to_map rows : gmap u32 u32) !! id)
    (fun i => bool_decide (is_Some ((list_to_map inodes : gmap u32 (option u32)) !! i)))
    (fun i => mjoin ((list_to_map inodes : gmap u32 (option u32)) !! i))
    (fun i => N.of_nat (length (filter (fun e => from_child e.2 = TInode i) rows))) names changed.

Lemma sample_catalog_laws : NoDup rows.*1 -> length rows <= 10 ->
  Forall (fun e => forall i, from_child e.2 = TInode i -> i ∈ inodes.*1) rows ->
  Forall (fun e => forall d, e.2 = Some d -> (d < 10)%N) inodes -> CatalogLaws sample_catalog.
Proof.
  intros Hn Hl Ht Hd. split; cbn; [done|..].
  - intros id child. rewrite bool_decide_eq_true. split.
    + intros Hin. rewrite (elem_of_list_to_map_1 rows id child Hn Hin). by split.
    + intros [_ Hc]. by apply elem_of_list_to_map_2.
  - intros id H%bool_decide_eq_true. destruct H as [child Hc]. by exists child.
  - lia.
  - intros id child i _ Hc Hi. apply elem_of_list_to_map_2 in Hc. rewrite Forall_forall in Ht. specialize (Ht _ Hc i Hi).
    apply bool_decide_eq_true. destruct ((list_to_map inodes : gmap u32 (option u32)) !! i) eqn:Hq; [done|].
    by apply not_elem_of_list_to_map in Hq.
  - intros i d _ Hj. destruct ((list_to_map inodes : gmap u32 (option u32)) !! i) as [o|] eqn:Hq; [|done]. cbn in Hj. subst o.
    apply elem_of_list_to_map_2 in Hq. rewrite Forall_forall in Hd. by apply (Hd _ Hq).
Qed.
End sample.

(** A hard link moves, a name goes, a name comes, and an inode gains a
    document. *)
Definition sample_before : Catalog unit :=
  sample_catalog [(0, 20); (1, 21); (2, 22); (3, 20)]%N [(20, Some 4); (21, Some 2); (22, None)]%N [] [].
Definition sample_after : Catalog unit :=
  sample_catalog [(0, 20); (2, 22); (5, 20); (3, 21)]%N [(20, Some 4); (21, Some 2); (22, Some 4)]%N
    [(1, false); (2, true); (3, true); (5, true)]%N [22]%N.

#[local] Ltac sample_laws :=
  apply sample_catalog_laws; [by apply (bool_decide_unpack _)|cbn; lia|..]; rewrite !Forall_cons, Forall_nil; split_and!; try done;
  intros x Hx; vm_compute in Hx; injection Hx as <-; (set_solver || done).

Lemma sample_before_laws : CatalogLaws sample_before.
Proof. sample_laws. Qed.
Lemma sample_after_laws : CatalogLaws sample_after.
Proof. sample_laws. Qed.

Lemma sample_carried : Carried sample_before sample_after.
Proof.
  split; [split|split]; cbn.
  - intros id Hid. rewrite !elem_of_cons in Hid. rewrite !lookup_insert, lookup_empty. repeat case_decide; subst; naive_solver.
  - intros id live H. rewrite !elem_of_cons in H. destruct H as [[= -> ->]|[[= -> ->]|[[= -> ->]|[[= -> ->]|?%not_elem_of_nil]]]]; done.
  - by apply (bool_decide_unpack _).
  - intros i Hi. rewrite list_elem_of_singleton in Hi. rewrite !lookup_insert, lookup_empty. repeat case_decide; subst; naive_solver.
  - done.
Qed.

Definition sample_built : DocNames :=
  match new_until never sample_before tt with Some (Ok (Some names), _) => names | _ => mkDocNames (mkBase [] []) ∅ end.

Example sample_adopted :
  (names_of sample_built <$> [2; 4; 7; 12]%N,
   match adopt sample_after sample_before sample_built with Some (Ok (Some names)) => names_of names <$> [2; 4; 7; 12]%N | _ => [] end) =
  ([Some [1]; Some [0; 3]; Some []; Some []], [Some [3]; Some [0; 2; 5]; Some []; Some []])%N.
Proof. vm_compute. reflexivity. Qed.

Lemma sample_serves : serves sample_before sample_built.
Proof.
  destruct (@new_until_spec unit sample_before sample_before_laws never never_flag tt) as (r & c' & Heq & Hr).
  unfold sample_built. rewrite Heq. destruct r as [[names|]|e]; [done|done|]. by vm_compute in Hr.
Qed.

Lemma full_build_inverts_witness : exists r c', new_until never sample_before tt = Some (r, c') /\
    match r with
    | Ok (Some names) => forall d, exists l, names_of names d = Some l /\ StronglySorted N.lt l /\
                           forall id, id ∈ l <-> owner sample_before id = Some (Some d)
    | Ok None => @stopped never never_flag c'
    | Err e => cat_load sample_before = Err e
    end.
Proof. exact (full_build_inverts unit sample_before sample_before_laws never never_flag tt). Defined.

Lemma adopt_is_full_build_witness : exists r, adopt sample_after sample_before sample_built = Some r /\
    match r with
    | Ok (Some names') => serves sample_after names' /\
        forall (ck : Checkpoint) (HF : StopFlag ck) c full c', new_until ck sample_after c = Some (Ok (Some full), c') ->
          forall d, names_of names' d = names_of full d
    | Ok None => True
    | Err e => cat_load sample_after = Err e
    end.
Proof. exact (adopt_is_full_build unit sample_before sample_after sample_before_laws sample_after_laws sample_carried sample_built sample_serves). Defined.
