(* ===== verification/Plan.v ===== *)
(** * Plan: a content query over the index

    Models [crates/ferret-query/src/plan.rs] from the estimates to the table
    of certainties that verification starts from, and the dictionary plan of
    [plan/explain.rs]: refusing a query, choosing the driving tree, compiling
    it to a cursor, walking the cursor to the candidate documents and their
    names, and probing every atom on them.

    The name index's estimates ([select(..).estimate.hits]) are arguments;
    the expression strings of a report are formatting and left out, a report
    keeps its tree.  [RunError::Index] wraps every [ReadError] of this code,
    so the walk stays in the monad of [Until] and is wrapped once. *)
From S2P Require Import Prelude DocSet Expr Cursor Manifest Postings Union Until Trigrams Query Candidates DocNames.
#[local] Open Scope until_scope.
#[local] Remove Hints list_leaf list_leaf_laws plain_intpack plain_intpack_laws demo_segment demo_segment_laws : typeclass_instances.

(** ** Errors and bounds *)

(** [RunError], for the error types of the catalog. *)
Inductive RunError (OpenError Stale : Type) :=
| ReOpen (e : OpenError) | ReStale (e : Stale) | ReIncomplete (uncovered live : u32) | ReScan (maybe : u64) (live : u32)
| ReIndex (e : ReadError) | ReNoContent.
Arguments ReOpen {OpenError Stale} e.
Arguments ReStale {OpenError Stale} e.
Arguments ReIncomplete {OpenError Stale} uncovered live.
Arguments ReScan {OpenError Stale} maybe live.
Arguments ReIndex {OpenError Stale} e.
Arguments ReNoContent {OpenError Stale}.

(** [Bounds], with [all] and [and]. *)
Record Bounds := mkBounds { b_possible : u64; b_maybe : u64 }.
Definition bounds_all (live : u64) : Bounds := mkBounds live 0.
Definition bounds_and (a b : Bounds) : Bounds :=
  let possible := N.min (b_possible a) (b_possible b) in
  mkBounds possible (N.min possible (sat_add (b_maybe a) (b_maybe b))).

(** [INODES_PER_DOC], and [u64::saturating_mul]. *)
Definition INODES_PER_DOC : u64 * u64 := (6, 5)%N.
Definition sat_mul (a b : u64) : u64 := N.min (a * b) (2 ^ 64 - 1)%N.

Section plan.
Context {HE : Engines}.

(** An atom's estimate: documents, certainty and Maybe documents. *)
Abbreviation AtomEstimate := (u64 * Certainty * u64)%type (only parsing).

(** [matches!(n, Node::Not(_))]. *)
Definition is_not (n : Node Test) : bool := match n with NNot _ => true | _ => false end.

(** A list's values, when none panics. *)
Section all_of_opt.
Context {A B : Type} (f : A -> option B).
Fixpoint every_value (l : list A) : option (list B) :=
  match l with [] => Some [] | x :: l => y ← f x; ys ← every_value l; Some (y :: ys) end.
End all_of_opt.

(** [estimate]; an atom out of range is a panic. *)
Fixpoint estimate (atoms : list AtomEstimate) (live : u64) (tree : Node Test) : option u64 :=
  match tree with
  | NLeaf (TContent i) => (fun a => a.1.1) <$> atoms !! i
  | NLeaf _ | NNot _ => Some live
  | NAnd all =>
      parts ← every_value (fun n => if is_not n then Some None else Some <$> estimate atoms live n) all;
      Some (match omap id parts with [] => live | x :: xs => fold_left N.min xs x end)
  | NOr any =>
      parts ← every_value (estimate atoms live) any;
      Some (fold_left sat_add parts 0%N)
  end.

(** [iter.min_by_key(|&(_, estimate)| estimate)]: the first least. *)
Definition least {A} (l : list (A * u64)) : option (A * u64) :=
  match l with
  | [] => None
  | x :: xs => Some (fold_left (fun best y => if (y.2 <? best.2)%N then y else best) xs x)
  end.

Section errors.
Context {OE ST : Type}.
Abbreviation RE := (RunError OE ST) (only parsing).
Abbreviation Run A := (option (result A (RunError OE ST))) (only parsing).

(** [Query::content_driver]; [name_estimate] is asked only for a driver. *)
Definition content_driver (residual : list (Node Test)) (name_estimate : result u64 RE) (atoms : list AtomEstimate) (live : u32)
    : Run (option (Node Test)) :=
  driver ← every_value (fun tree => e ← estimate atoms live tree; Some (tree, e))
             (filter (fun tree => is_content tree && negb (holds_without_document tree) = true) residual);
  Some (match least driver with
        | None => Ok None
        | Some (tree, e) =>
            match name_estimate with
            | Err e => Err e
            | Ok names =>
                let rows := (sat_mul e INODES_PER_DOC.1 / INODES_PER_DOC.2)%N in
                Ok (if (rows <=? names)%N then Some tree else None)
            end
        end).

(** ** The dictionary plan *)

(** [NodeReport] and [Estimate]'s state: its reports so far. *)
Record NodeReport := mkReport { n_tree : option (Node Test); n_bounds : Bounds }.
Abbreviation Est A := (option (result (A * list NodeReport) (RunError OE ST))) (only parsing).

Definition est_bind {A B} (m : Est A) (k : A -> list NodeReport -> Est B) : Est B :=
  match m with Some (Ok (a, reports)) => k a reports | Some (Err e) => Some (Err e) | None => None end.

(** [Estimate::name]: [hits] is the index's estimate of a name test. *)
Definition est_name (hits : NameTest -> result u64 ST) (live : u64) (test : NameTest) : result Bounds RE :=
  match hits test with Ok n => Ok (mkBounds (N.min n live) 0) | Err e => Err (ReStale e) end.

(** The loops of [Estimate::node]. *)
Section children.
Context (node : Node Test -> list NodeReport -> Est Bounds) (step : Bounds -> Bounds -> Bounds).
Fixpoint est_children (children : list (Node Test)) (acc : Bounds) (reports : list NodeReport) : Est Bounds :=
  match children with
  | [] => Some (Ok (acc, reports))
  | child :: children => est_bind (node child reports) (fun b reports => est_children children (step acc b) reports)
  end.
End children.

(** The step of an OR. *)
Definition bounds_or (live : u64) (a b : Bounds) : Bounds :=
  mkBounds (N.min (sat_add (b_possible a) (b_possible b)) live) (N.min (sat_add (b_maybe a) (b_maybe b)) live).

(** [Estimate::node]. *)
Fixpoint est_node (hits : NameTest -> result u64 ST) (atoms : list AtomEstimate) (live : u64) (tree : Node Test)
    (reports : list NodeReport) : Est Bounds :=
  let report (b : Bounds) (reports : list NodeReport) : Est Bounds := Some (Ok (b, reports ++ [mkReport (Some tree) b])) in
  match tree with
  | NLeaf (TContent i) =>
      a ← atoms !! i;
      let possible := N.min a.1.1 live in
      report (mkBounds possible (N.min a.2 possible)) reports
  | NLeaf (TName test) =>
      match est_name hits live test with Ok b => report b reports | Err e => Some (Err e) end
  | NLeaf _ => report (bounds_all live) reports
  | NNot inner =>
      est_bind (est_node hits atoms live inner reports) (fun b reports => report (mkBounds live (b_maybe b)) reports)
  | NAnd all => est_bind (est_children (est_node hits atoms live) bounds_and all (bounds_all live) reports) report
  | NOr any => est_bind (est_children (est_node hits atoms live) (bounds_or live) any (mkBounds 0 0) reports) report
  end.
End errors.
End plan.

(** ** Walking under a cancellation

    [content_until] asks its flag through [stopped] and, within a walk,
    through one [Advance] that keeps a budget: both ask one cancellation. *)
Definition asking (ck : Checkpoint) : Checkpoint :=
  mkCheckpoint (Advance ck) (fun a =>
    let '(stop, c) := ck_ask ck (adv_inner a) in (stop, mkAdvance (remaining a) (adv_flag a) c)).

(** Code that is given [stopped] alone. *)
Definition within {ck A} (m : Until ck A) : Until (asking ck) A := fun a =>
  match m (adv_inner a) with
  | Some (r, c) => Some (r, mkAdvance (remaining a) (adv_flag a) c)
  | None => None
  end.

(** [slice.chunks(n)]. *)
Fixpoint chunks_from {A} (fuel n : nat) (l : list A) : list (list A) :=
  match fuel, l with
  | S fuel, _ :: _ => take n l :: chunks_from fuel n (drop n l)
  | _, _ => []
  end.
Definition chunks {A} (n : nat) (l : list A) : list (list A) := chunks_from (length l) n l.

Section walk.
Context {HI : Intpack} {HSeg : Segment} {HB : SegmentBounds} {HE : Engines} {HC : Contents} (ck : Checkpoint).

(** [compile]: its loops over the children of an AND that are, or are not,
    negated. *)
Section some_of.
Context {A B : Type} (f : A -> option (Until ck B)).
Fixpoint each_some (l : list A) : Until ck (list B) :=
  match l with
  | [] => done []
  | x :: l =>
      match f x with
      | Some m => y <- m; ys <- each_some l; done (y :: ys)
      | None => each_some l
      end
  end.
End some_of.

Fixpoint plan_compile (steps fuel : nat) (atoms : list ReadAtom) (p : Pinned) (tree : Node Test) : Until ck Cursor :=
  check ck ;;
  match tree with
  | NLeaf (TContent i) =>
      match atoms !! i with Some atom => atom_cursor_until ck steps fuel atom p | None => panic end
  | NLeaf _ => done (bits (live p) CMaybe)
  | NAnd all =>
      cursor <- (if forallb is_not all then done (bits (live p) CYes)
                 else
                   positive <- each_some (fun n =>
                     match n with NNot _ => None | n => Some (plan_compile steps fuel atoms p n) end) all;
                   done (cursor_and positive));
      exclusions <- each_some (fun n =>
        match n with NNot inner => Some (plan_compile steps fuel atoms p inner) | _ => None end) all;
      excluded <- or_until ck steps fuel exclusions (bound (live p));
      done (and_not cursor excluded)
  | NOr any =>
      cs <- each (plan_compile steps fuel atoms p) any;
      or_until ck steps fuel cs (bound (live p))
  | NNot inner => negated <- plan_compile steps fuel atoms p inner; done (pinned_not p negated)
  end.

(** [Query::estimate_atoms] and [read_atoms]. *)
Definition estimate_atoms (atoms : list ContentAtom) (p : Pinned) : Until ck (list (u64 * Certainty * u64)) :=
  each (fun atom => check ck ;; content_estimate_until ck atom p) atoms.
Fixpoint read_atoms (atoms : list ContentAtom) (p : Pinned) (greps : list GrepReport) : Until ck (list ReadAtom) :=
  match atoms with
  | [] => done []
  | atom :: atoms =>
      let '(plan, greps) :=
        match atom with CaGrep _ => (head greps, tail greps) | CaText _ => (None, greps) end in
      r <- content_read_until ck atom p plan;
      rs <- read_atoms atoms p greps;
      done (r :: rs)
  end.

(** One step of a walk: [next_geq_until] when the query can be cancelled,
    [next_geq] when it cannot. *)
Definition next_hit (cancellable : bool) (fuel : nat) (cur : Cursor) (target : u32) : Until (asking ck) (option hit * Cursor) :=
  fun a =>
  if cancellable then
    '(r, cur, a) ← next_geq_until ck fuel cur target a;
    Some (match r with Ok h => Ok (h, cur) | Err e => Err e end, a)
  else
    '(h, cur) ← cursor_next fuel cur target;
    Some (Ok (h, cur), a).

(** [for chunk in names.names(doc).chunks(1024)]. *)
Definition add_names (ids names : list u32) : Until (asking ck) (list u32) :=
  fold_until (fun ids chunk => check (asking ck) ;; done (ids ++ chunk)) (chunks 1024 names) ids.

(** The loop of [content_candidates]. *)
Fixpoint collect (steps fuel : nat) (cancellable : bool) (names : DocNames) (top : Cursor) (target : u32) (ids docs : list u32)
    : Until (asking ck) (list u32 * list u32) :=
  match steps with
  | 0 => panic
  | S steps =>
      check (asking ck) ;;
      next <- next_hit cancellable fuel top target;
      match next.1 with
      | None => done (ids, docs)
      | Some (doc, _) =>
          let docs := docs ++ [doc] in
          rows <- or_panic (asking ck) (names_of names doc);
          ids <- add_names ids rows;
          match next_u32 doc with
          | None => done (ids, docs)
          | Some target => collect steps fuel cancellable names next.2 target ids docs
          end
      end
  end.

(** [content_candidates]. *)
Definition content_candidates (steps fuel : nat) (cancellable : bool) (names : DocNames) (top : Cursor)
    : Until (asking ck) (list u32 * list u32) :=
  found <- collect steps fuel cancellable names top 0 [] [];
  check (asking ck) ;;
  let ids := sort_by cmp_le found.1 in
  check (asking ck) ;;
  done (ids, found.2).

(** The loop that makes [probe]'s table. *)
Fixpoint grow (steps cells : nat) (table : list (option Certainty)) : Until (asking ck) (list (option Certainty)) :=
  if length table <? cells then
    match steps with
    | 0 => panic
    | S steps =>
        check (asking ck) ;;
        let n := Nat.min (length table + 4096) cells in
        grow steps cells (table ++ replicate (n - length table) None)
    end
  else done table.

(** One cell of [probe]'s loop over the documents. *)
Definition probe_doc (fuel width i : nat) (cancellable : bool) (acc : Cursor * list (option Certainty)) (row : nat * u32)
    : Until (asking ck) (Cursor * list (option Certainty)) :=
  check (asking ck) ;;
  next <- next_hit cancellable fuel acc.1 row.2;
  table <- or_panic (asking ck) (set_at acc.2 (row.1 * width + i)
    (match next.1 with Some (found, certainty) => if (found =? row.2)%N then Some certainty else None | None => None end));
  done (next.2, table).

(** One atom of [probe], and [probe]. *)
Definition probe_atom (steps fuel width : nat) (cancellable : bool) (docs : list u32) (p : Pinned)
    (table : list (option Certainty)) (atom : nat * ReadAtom) : Until (asking ck) (list (option Certainty)) :=
  check (asking ck) ;;
  cursor <- within (atom_cursor_until ck steps fuel atom.2 p);
  r <- fold_until (probe_doc fuel width atom.1 cancellable) (enumerate docs) (cursor, table);
  done r.2.
Definition probe (steps fuel : nat) (cancellable : bool) (atoms : list ReadAtom) (docs : list u32) (p : Pinned)
    : Until (asking ck) (list (option Certainty)) :=
  let width := length atoms in
  check (asking ck) ;;
  table <- grow (length docs * width) (length docs * width) [];
  fold_until (probe_atom steps fuel width cancellable docs p) (enumerate atoms) table.

(** [name_candidates], from the rows S1 gives. *)
Definition name_candidates (rows : list (u32 * option u32)) : Until (asking ck) (list u32 * list u32) :=
  check (asking ck) ;;
  let docs := sort_by cmp_le (omap snd rows) in
  check (asking ck) ;;
  let docs := dedup docs in
  check (asking ck) ;;
  done (rows.*1, docs).
End walk.

(** ** The run up to verification *)

Section run.
Context {HI : Intpack} {HSeg : Segment} {HB : SegmentBounds} {HE : Engines} {HC : Contents} (ck : Checkpoint) {OE ST : Type}.
Abbreviation RE := (RunError OE ST) (only parsing).

(** A call that fails with a [RunError]. *)
Definition Running (A : Type) : Type := ck_state (asking ck) -> option (result A RE * ck_state (asking ck)).
Definition running {A B} (m : Running A) (k : A -> Running B) : Running B := fun a =>
  match m a with
  | None => None
  | Some (Err e, a) => Some (Err e, a)
  | Some (Ok x, a) => k x a
  end.
Definition finish {A} (r : result A RE) : Running A := fun a => Some (r, a).
(** [.map_err(RunError::Index)]. *)
Definition indexed_run {A} (m : Until (asking ck) A) : Running A := fun a =>
  match m a with
  | None => None
  | Some (Err e, a) => Some (Err (ReIndex e), a)
  | Some (Ok x, a) => Some (Ok x, a)
  end.

Notation "x <~~ m ; k" := (running m (fun x => k)) (at level 100, m at next level, right associativity).

(** [ContentPlan]. *)
Record ContentPlan := mkPlan { pl_root : Bounds; pl_nodes : list NodeReport; pl_greps : list GrepReport }.

(** What the run reads of the catalog, the name index and its caller:
    [content.docs], [content.bound], [name_estimate], the hits of a name
    test, S1's rows with their documents, and loading a section. *)
Record Host := mkHost {
  h_names : DocNames; h_bound : option u32; h_name_estimate : result u64 RE; h_hits : NameTest -> result u64 ST;
  h_rows : result (list (u32 * option u32)) RE; h_load : result unit OE; h_cancellable : bool
}.

(** [Query::plan_from_estimates]. *)
Fixpoint name_reports (hits : NameTest -> result u64 ST) (live : u64) (tests : list NameTest) (reports : list NodeReport)
    : result (list NodeReport) RE :=
  match tests with
  | [] => Ok reports
  | test :: tests =>
      match est_name hits live test with
      | Ok b => name_reports hits live tests (reports ++ [mkReport None b])
      | Err e => Err e
      end
  end.
Definition plan_from_estimates (q : Query) (h : Host) (p : Pinned) (atoms : list (u64 * Certainty * u64)) : Running ContentPlan :=
  let live := live_len p in
  reports <~~ finish (name_reports (h_hits h) live (names q) []);
  let reports := reports ++ replicate (length (paths q)) (mkReport None (bounds_all live)) in
  let reports := reports ++ replicate (length (meta q)) (mkReport None (bounds_all live)) in
  estimate <~~ finish (h_name_estimate h);
  fun a =>
  match est_children (est_node (h_hits h) atoms live) bounds_and (residual q) (mkBounds (N.min estimate live) 0) reports with
  | None => None
  | Some (Err e) => Some (Err e, a)
  | Some (Ok (root, nodes)) =>
      (greps <~~ indexed_run (within (each_some ck (fun atom =>
         match atom with CaGrep g => Some (explain ck (grep_planning g) p) | CaText _ => None end) (Query.atoms q)));
       finish (Ok (mkPlan root nodes greps))) a
  end.

(** The candidates, the table of certainties and the plan that
    [content_until] hands to [verify_rows]. *)
Record Prepared := mkPrepared {
  pr_content : bool; pr_ids : list u32; pr_docs : list u32; pr_table : list (option Certainty); pr_width : nat; pr_plan : ContentPlan
}.

(** [Query::content_until] from the refusals to [probe]. *)
Definition prepare (steps fuel : nat) (q : Query) (h : Host) (p : Pinned) : Running Prepared :=
  if match h_bound h with Some bound => (bound <? len (uncovered p))%N | None => false end then
    finish (Err (ReIncomplete (len (uncovered p)) (len (live p))))
  else
    atoms <~~ indexed_run (within (estimate_atoms ck (Query.atoms q) p));
    plan <~~ plan_from_estimates q h p atoms;
    if match h_bound h with Some _ => (live_len p / 4 <? b_maybe (pl_root plan))%N | None => false end then
      finish (Err (ReScan (b_maybe (pl_root plan)) (len (live p))))
    else
      driver <~~ (fun a => match content_driver (residual q) (h_name_estimate h) atoms (live_len p) with
                           | Some r => Some (r, a) | None => None end);
      read <~~ indexed_run (within (read_atoms ck (Query.atoms q) p (pl_greps plan)));
      _ <~~ finish (match h_load h with Ok u => Ok u | Err e => Err (ReOpen e) end);
      found <~~ match driver with
                | Some tree =>
                    indexed_run (cur <- within (plan_compile ck steps fuel read p tree);
                                 content_candidates ck steps fuel (h_cancellable h) (h_names h) (pinned_top p cur))
                | None => rows <~~ finish (h_rows h); indexed_run (name_candidates ck rows)
                end;
      table <~~ indexed_run (probe ck steps fuel (h_cancellable h) read found.2 p);
      finish (Ok (mkPrepared (match driver with Some _ => true | None => false end) found.1 found.2 table (length read) plan)).

(** [Query::content_until] up to [verify_rows]: a query without content
    atoms is [None], run by its names alone. *)
Definition content_until (steps fuel : nat) (q : Query) (h : Host) (p : Pinned) : Running (option Prepared) :=
  _ <~~ indexed_run (check (asking ck));
  if negb (has_content q) then finish (Ok None)
  else prepared <~~ prepare steps fuel q h p; finish (Ok (Some prepared)).
End run.
