(* ===== verification/PlanBounds.v ===== *)
(** * PlanBounds: what a plan says before it reads

    The dictionary bounds of [Plan] are bounds: [estimate] on the documents a
    tree may hold on, and [Estimate::node] on those and on the documents its
    atoms leave undecided, for the root and for every node it reports. *)
From S2P Require Import Prelude Word DocSet Expr Cursor Trigrams Query Plan.
#[local] Open Scope N_scope.

Lemma filter_mono_length {A} (P Q : A -> Prop) `{!forall x, Decision (P x), !forall x, Decision (Q x)} (l : list A) :
  (forall x, P x -> Q x) -> (length (filter P l) <= length (filter Q l))%nat.
Proof.
  intros Himp. induction l as [|x l IH]; [done|]. rewrite !filter_cons. pose proof (Himp x).
  repeat case_decide; cbn [length]; tauto || lia.
Qed.

Lemma filter_or_length {A} (P Q R : A -> Prop) `{!forall x, Decision (P x), !forall x, Decision (Q x), !forall x, Decision (R x)} (l : list A) :
  (forall x, P x -> Q x \/ R x) -> (length (filter P l) <= length (filter Q l) + length (filter R l))%nat.
Proof.
  intros Himp. induction l as [|x l IH]; [done|]. rewrite !filter_cons. pose proof (Himp x).
  repeat case_decide; cbn [length]; tauto || lia.
Qed.

Lemma of_nat_mono m n : (m <= n)%nat -> N.of_nat m <= N.of_nat n.
Proof. lia. Qed.

Section bounds.
Context {HE : Engines} (docs : list u32).

(** The documents on which a truth may be other than No, and is Maybe. *)
Definition possibly (T : u32 -> Truth) : N := N.of_nat (length (filter (fun d => T d <> No) docs)).
Definition undecided (T : u32 -> Truth) : N := N.of_nat (length (filter (fun d => T d = Maybe) docs)).

Definition bounded (T : u32 -> Truth) (b : Bounds) : Prop := possibly T <= b_possible b /\ undecided T <= b_maybe b.

Abbreviation live := (N.of_nat (length docs)) (only parsing).
Context (Hfew : live <= u64_max).

Lemma possibly_live T : possibly T <= live.
Proof. clear Hfew. unfold possibly. pose proof (length_filter (fun d => T d <> No) docs). lia. Qed.

Lemma undecided_possible T : undecided T <= possibly T.
Proof.
  unfold undecided, possibly. apply of_nat_mono, filter_mono_length. intros d ->. done.
Qed.

Lemma possibly_mono T U : (forall d, T d <> No -> U d <> No) -> possibly T <= possibly U.
Proof.
  intros H. unfold possibly. by apply of_nat_mono, filter_mono_length.
Qed.

Lemma undecided_mono T U : (forall d, T d = Maybe -> U d = Maybe) -> undecided T <= undecided U.
Proof.
  intros H. unfold undecided. by apply of_nat_mono, filter_mono_length.
Qed.

Lemma possibly_or T U V : (forall d, T d <> No -> U d <> No \/ V d <> No) -> possibly T <= possibly U + possibly V.
Proof. intros H. unfold possibly. pose proof (filter_or_length _ _ _ docs H). lia. Qed.

Lemma undecided_or T U V : (forall d, T d = Maybe -> U d = Maybe \/ V d = Maybe) -> undecided T <= undecided U + undecided V.
Proof. intros H. unfold undecided. pose proof (filter_or_length _ _ _ docs H). lia. Qed.

Lemma undecided_none T : (forall d, T d <> Maybe) -> undecided T = 0.
Proof. intros H. unfold undecided. by rewrite filter_all_out by (intros d _; apply H). Qed.

(** Bounds are of the truths, whatever the function that gives them. *)
Lemma bounded_ext T U b : (forall d, T d = U d) -> bounded T b -> bounded U b.
Proof.
  intros HTU. unfold bounded, possibly, undecided.
  rewrite (filter_same (fun d => T d <> No) (fun d => U d <> No)) by (intros d _; by rewrite HTU).
  by rewrite (filter_same (fun d => T d = Maybe) (fun d => U d = Maybe)) by (intros d _; by rewrite HTU).
Qed.

Lemma bounded_and T U a b : bounded T a -> bounded U b -> bounded (fun d => tmin (T d) (U d)) (bounds_and a b).
Proof.
  intros [Tp Tm] [Up Um]. unfold bounds_and, sat_add. set (W := fun d => tmin (T d) (U d)).
  assert (H1 : possibly W <= possibly T) by (apply possibly_mono; intros d; subst W; cbn; by destruct (T d), (U d)).
  assert (H2 : possibly W <= possibly U) by (apply possibly_mono; intros d; subst W; cbn; by destruct (T d), (U d)).
  assert (H3 : undecided W <= undecided T + undecided U) by (apply undecided_or; intros d; subst W; cbn; destruct (T d), (U d); auto).
  pose proof (undecided_possible W). pose proof (possibly_live W). split; cbn [b_possible b_maybe]; lia.
Qed.

Lemma bounded_or T U a b : bounded T a -> bounded U b -> bounded (fun d => tmax (T d) (U d)) (bounds_or live a b).
Proof.
  intros [Tp Tm] [Up Um]. unfold bounds_or, sat_add. set (W := fun d => tmax (T d) (U d)).
  assert (H1 : possibly W <= possibly T + possibly U) by (apply possibly_or; intros d; subst W; cbn; destruct (T d), (U d); auto).
  assert (H3 : undecided W <= undecided T + undecided U) by (apply undecided_or; intros d; subst W; cbn; destruct (T d), (U d); auto).
  pose proof (undecided_possible W). pose proof (possibly_live W). split; cbn [b_possible b_maybe]; lia.
Qed.

Lemma bounded_not T a : bounded T a -> bounded (fun d => tnot (T d)) (mkBounds live (b_maybe a)).
Proof.
  intros [_ Tm]. split; cbn [b_possible b_maybe]; [apply possibly_live|]. etransitivity; [|exact Tm].
  apply undecided_mono. intros d. by destruct (T d).
Qed.

Lemma bounded_all T : (forall d, T d <> Maybe) -> bounded T (bounds_all live).
Proof. intros H. split; cbn [bounds_all b_possible b_maybe]; [apply possibly_live|by rewrite undecided_none]. Qed.

(** ** The two estimates *)

Context {OE ST : Type} (leaf : Test -> u32 -> Truth) (atoms : list (u64 * Certainty * u64)) (hits : NameTest -> result u64 ST).

Definition value (tree : Node Test) (d : u32) : Truth := kleene (fun t => leaf t d) tree.

(** What the estimates of the leaves promise. *)
Record leaves_bounded : Prop := {
  lb_atom i e : atoms !! i = Some e -> possibly (value (NLeaf (TContent i))) <= e.1.1 /\ undecided (value (NLeaf (TContent i))) <= e.2;
  lb_name t n : hits t = Ok n -> possibly (value (NLeaf (TName t))) <= n;
  lb_exact t d : (forall i, t <> TContent i) -> leaf t d <> Maybe
}.
Context (Hleaves : leaves_bounded).

Lemma every_value_all {A B} (f : A -> option B) l ys : every_value f l = Some ys -> Forall2 (fun x y => f x = Some y) l ys.
Proof.
  revert ys. induction l as [|x l IH]; intros ys; cbn; [intros [= <-]; constructor|].
  destruct (f x) as [y|] eqn:Hf; [|done]. cbn. destruct (every_value f l) as [ys'|]; [|done]. cbn. intros [= <-]. constructor; auto.
Qed.

Lemma fold_min_below xs (x : N) y : (y <= x -> Forall (fun z => y <= z) xs -> y <= fold_left N.min xs x).
Proof. revert x. induction xs as [|z xs IH]; intros x Hx Hall; [done|]. inversion_clear Hall. cbn. apply IH; [lia|done]. Qed.

Lemma sum_above xs ns (acc : N) : Forall2 (fun n e => possibly (value n) <= e) ns xs ->
  N.min (acc + possibly (value (NOr ns))) u64_max <= fold_left sat_add xs acc.
Proof.
  intros H. revert acc. induction H as [|n e ns xs Hn _ IH]; intros acc; cbn [fold_left].
  - assert (Hz : possibly (value (NOr [])) = 0); [|lia]. unfold possibly. by rewrite filter_all_out by (intros d _; cbn; by intros []).
  - specialize (IH (sat_add acc e)). unfold sat_add in IH at 1.
    assert (Hor : possibly (value (NOr (n :: ns))) <= possibly (value n) + possibly (value (NOr ns))); [|lia].
    apply possibly_or. intros d. unfold value. cbn [kleene foldr]. change (foldr _ No ns) with (kleene (fun t => leaf t d) (NOr ns)).
    destruct (kleene _ n), (kleene _ (NOr ns)); auto.
Qed.

Lemma value_and n all d : n ∈ all -> value (NAnd all) d <> No -> value n d <> No.
Proof.
  unfold value. induction all as [|m all IH]; [by intros ?%not_elem_of_nil|]. cbn [kleene foldr].
  change (foldr _ Yes all) with (kleene (fun t => leaf t d) (NAnd all)).
  intros [->|Hn]%elem_of_cons H; [by destruct (kleene _ m)|]. apply IH; [done|]. by destruct (kleene _ m), (kleene _ (NAnd all)).
Qed.

Lemma estimate_bound tree n : estimate atoms live tree = Some n -> possibly (value tree) <= n.
Proof.
  revert n. induction tree as [l|all IH|any IH|t IH] using Node_ind'; intros n; cbn [estimate].
  - destruct l; try (intros [= <-]; apply possibly_live). intros Hi. apply fmap_Some in Hi as (e & He & ->). by apply (lb_atom Hleaves).
  - destruct (every_value _ all) as [parts|] eqn:He; [|done]. cbn [mbind option_bind]. apply every_value_all in He. intros Hn.
    assert (Hall : Forall (fun z => possibly (value (NAnd all)) <= z) (omap id parts)).
    { apply Forall_forall. intros z (o & Ho & Hz)%list_elem_of_omap. cbn in Hz. subst o. apply list_elem_of_lookup in Ho as [i Ho].
      destruct (Forall2_lookup_r _ _ _ _ _ He Ho) as (m & Hm & Hf). cbn in Hf. destruct (is_not m); [done|].
      destruct (estimate atoms live m) as [e|] eqn:Hem; [|done]. cbn in Hf. injection Hf as ->.
      apply list_elem_of_lookup_2 in Hm. rewrite Forall_forall in IH. etransitivity; [|by apply (IH m Hm)].
      apply possibly_mono. intros d. by apply value_and. }
    destruct (omap id parts) as [|x xs]; injection Hn as <-; [apply possibly_live|]. inversion_clear Hall. by apply fold_min_below.
  - destruct (every_value _ any) as [parts|] eqn:He; [|done]. cbn [mbind option_bind]. intros [= <-]. apply every_value_all in He.
    pose proof (sum_above parts any 0) as Hs. pose proof (possibly_live (value (NOr any))). rewrite N.add_0_l in Hs.
    rewrite N.min_l in Hs by lia. apply Hs. clear Hs. induction He as [|m e any parts Hm _ IHe]; [constructor|].
    apply Forall_cons in IH as [IHm IH]. constructor; [by apply IHm|by apply IHe; [|pose proof (possibly_live (value (NOr any)))]].
  - intros [= <-]. apply possibly_live.
Qed.

(** A report bounds its tree. *)
Definition report_bounded (r : NodeReport) : Prop := match n_tree r with Some t => bounded (value t) (n_bounds r) | None => True end.

(** What a call leaves: more reports, each bounded, and its own bounds. *)
Definition estimated (T : u32 -> Truth) (reports : list NodeReport) (m : option (result (Bounds * list NodeReport) (RunError OE ST))) : Prop :=
  forall b reports', m = Some (Ok (b, reports')) ->
    bounded T b /\ exists added, reports' = reports ++ added /\ Forall report_bounded added.

Lemma estimated_ext T U reports m : (forall d, T d = U d) -> estimated T reports m -> estimated U reports m.
Proof. intros HTU Hm b reports' Heq. destruct (Hm b reports' Heq) as [Hb Hr]. split; [by eapply bounded_ext|done]. Qed.

Lemma estimated_bind T U reports m k : estimated T reports m ->
  (forall b reports', bounded T b -> estimated U reports' (k b reports')) -> estimated U reports (est_bind m k).
Proof.
  intros Hm Hk b reports'. unfold est_bind. destruct m as [[[b1 r1]|e]|]; try done. intros Heq.
  destruct (Hm b1 r1 eq_refl) as [Hb (added & -> & Hadded)]. destruct (Hk b1 _ Hb b reports' Heq) as [Hb' (more & -> & Hmore)].
  split; [done|]. exists (added ++ more). rewrite app_assoc. split; [done|]. by apply Forall_app.
Qed.

Lemma estimated_report T tree b reports : (forall d, T d = value tree d) -> bounded (value tree) b ->
  estimated T reports (Some (Ok (b, reports ++ [mkReport (Some tree) b]))).
Proof.
  intros HT Hb b' reports' [= <- <-]. split.
  - eapply bounded_ext; [|exact Hb]. intros d. by rewrite HT.
  - exists [mkReport (Some tree) b]. split; [done|]. by apply Forall_singleton.
Qed.

(** The loop of an AND or an OR. *)
Lemma children_estimated node step (op : Truth -> Truth -> Truth) (unit : Truth) ns :
  (forall T U a b, bounded T a -> bounded U b -> bounded (fun d => op (T d) (U d)) (step a b)) ->
  (forall a b c, op (op a b) c = op a (op b c)) -> (forall a, op a unit = a) ->
  Forall (fun n => forall reports, estimated (value n) reports (node n reports)) ns ->
  forall T acc reports, bounded T acc ->
    estimated (fun d => op (T d) (foldr (fun n t => op (value n d) t) unit ns)) reports (est_children node step ns acc reports).
Proof.
  intros Hstep Hassoc Hunit Hns. induction Hns as [|n ns Hn _ IH]; intros T acc reports Hacc; cbn [est_children].
  - intros b reports' [= <- <-]. split; [|exists []; by rewrite app_nil_r]. cbn [foldr].
    eapply bounded_ext; [|exact Hacc]. intros d. by rewrite Hunit.
  - eapply estimated_bind; [apply Hn|]. intros b reports' Hb b' r' Heq.
    destruct (IH (fun d => op (T d) (value n d)) (step acc b) reports' (Hstep _ _ _ _ Hacc Hb) b' r' Heq) as [Hb' Hr]. split; [|done].
    cbn [foldr]. eapply bounded_ext; [|exact Hb']. intros d. cbn beta. by rewrite Hassoc.
Qed.

Lemma bounded_const t b : (t = No -> True) -> (t <> No -> live <= b_possible b) -> (t = Maybe -> live <= b_maybe b) -> bounded (fun _ => t) b.
Proof.
  intros _ Hp Hm. split.
  - destruct (decide (t = No)) as [->|Hne]; [|etransitivity; [apply possibly_live|by apply Hp]].
    unfold possibly. rewrite filter_all_out by (intros d _ H; by apply H). cbn. lia.
  - destruct (decide (t = Maybe)) as [->|Hne]; [etransitivity; [etransitivity; [apply undecided_possible|apply possibly_live]|by apply Hm]|].
    rewrite undecided_none by done. lia.
Qed.

Lemma est_node_bound tree reports : estimated (value tree) reports (est_node hits atoms live tree reports).
Proof.
  revert reports. induction tree as [l|all IH|any IH|t IH] using Node_ind'; intros reports; cbn [est_node].
  - destruct l as [t|t|t|i].
    + unfold est_name. destruct (hits t) as [n|e] eqn:Hh; [|by intros ?? ?]. apply estimated_report; [done|].
      split; cbn [b_possible b_maybe]; [pose proof (lb_name Hleaves t n Hh); pose proof (possibly_live (value (NLeaf (TName t)))); lia|].
      by rewrite undecided_none by (intros d; by apply (lb_exact Hleaves)).
    + apply estimated_report; [done|]. apply bounded_all. intros d. by apply (lb_exact Hleaves).
    + apply estimated_report; [done|]. apply bounded_all. intros d. by apply (lb_exact Hleaves).
    + destruct (atoms !! i) as [e|] eqn:He; [|done]. cbn [mbind option_bind]. apply estimated_report; [done|].
      destruct (lb_atom Hleaves i e He) as [H1 H2]. pose proof (possibly_live (value (NLeaf (TContent i)))).
      pose proof (undecided_possible (value (NLeaf (TContent i)))). split; cbn [b_possible b_maybe]; lia.
  - eapply (estimated_bind (value (NAnd all))); [|intros b r Hb; by apply estimated_report].
    eapply estimated_ext; [|apply (children_estimated _ bounds_and tmin Yes all) with (T := fun _ => Yes)].
    + intros d. cbn beta. change (value (NAnd all) d) with (foldr (fun n t => tmin (value n d) t) Yes all). by generalize (foldr (fun n t => tmin (value n d) t) Yes all) as x; intros [].
    + intros; by apply bounded_and.
    + by intros [] [] [].
    + by intros [].
    + exact IH.
    + by apply bounded_all.
  - eapply (estimated_bind (value (NOr any))); [|intros b r Hb; by apply estimated_report].
    eapply estimated_ext; [|apply (children_estimated _ (bounds_or live) tmax No any) with (T := fun _ => No)].
    + intros d. cbn beta. change (value (NOr any) d) with (foldr (fun n t => tmax (value n d) t) No any). by generalize (foldr (fun n t => tmax (value n d) t) No any) as x; intros [].
    + intros; by apply bounded_or.
    + by intros [] [] [].
    + by intros [].
    + exact IH.
    + by apply bounded_const.
  - eapply estimated_bind; [apply IH|]. intros b r Hb. apply estimated_report; [done|]. by apply (bounded_not (value t)).
Qed.
End bounds.
