(* ===== verification/PlanSpec.v ===== *)
(** * PlanSpec: a content query loses no document

    The theorems of [Plan]: a compiled tree is within the truth of its query
    tree on every live document ([compile_spec]), the walk returns exactly
    the documents of the compiled cursor and their names ([candidates_spec]),
    a table's cells are the atoms' answers ([probe_spec]), and the
    dictionary bounds are bounds ([bounds_hold]). *)
From S2P Require Import Prelude DocSet Expr Cursor Manifest Postings Union Until Trigrams Query Candidates CandidatesSpec DocNames Plan.
#[local] Open Scope until_scope.
#[local] Remove Hints list_leaf list_leaf_laws plain_intpack plain_intpack_laws demo_segment demo_segment_laws : typeclass_instances.

(** ** Kleene answers *)

Section refines.
Context {HL : Leaf} {HLL : LeafLaws HL}.

Lemma all_of_refines {N} (g : N -> bool) ns cs d :
  Forall2 (fun n x => refines (cert (den x d)) (truth_of (g n))) ns cs ->
  refines (cert (all_of cs d)) (truth_of (forallb g ns)).
Proof.
  unfold all_of. induction 1 as [|n x ns cs Hx _ IH]; [by right|]. rewrite fmap_cons. cbn [fold_right forallb].
  apply refines_iff in Hx, IH. apply refines_iff. rewrite andb_true_iff, kand_some. split; [tauto|].
  destruct (den x d) as [[]|], (fold_right kand (Some CYes) _) as [[]|]; naive_solver.
Qed.

Lemma any_of_refines {N} (g : N -> bool) ns cs d :
  Forall2 (fun n x => refines (cert (den x d)) (truth_of (g n))) ns cs ->
  refines (cert (any_of cs d)) (truth_of (existsb g ns)).
Proof.
  unfold any_of. induction 1 as [|n x ns cs Hx _ IH]; [by right|]. rewrite fmap_cons. cbn [fold_right existsb].
  apply refines_iff in Hx, IH. apply refines_iff. rewrite orb_true_iff, kor_None. split; [tauto|].
  intros [Hy|Hy]%kor_yes; tauto.
Qed.

Lemma kandnot_refines a b x y : refines (cert a) (truth_of x) -> refines (cert b) (truth_of y) ->
  refines (cert (kandnot a b)) (truth_of (x && negb y)).
Proof. unfold refines. destruct a as [[]|], b as [[]|], x, y; cbn; naive_solver. Qed.
End refines.

Lemma runs_each_some {ck} {HF : StopFlag ck} {A B} E (f : A -> option (Until ck B)) (R : A -> B -> Prop) l :
  Forall (fun x => forall m, f x = Some m -> runs E m (R x)) l ->
  runs E (each_some ck f l) (Forall2 R (filter (fun x => is_Some (f x)) l)).
Proof.
  induction 1 as [|x l Hx _ IH]; cbn [each_some]; [by apply runs_done|]. rewrite filter_cons.
  destruct (f x) as [m|] eqn:Hf; [rewrite decide_True by done|rewrite decide_False by (by intros []); exact IH].
  eapply runs_bind; [by apply Hx|]. intros y Hy. eapply runs_bind; [exact IH|]. intros ys Hys. apply runs_done. by constructor.
Qed.

(** ** Compiled trees *)

(** Content leaves name an atom. *)
Definition leaves_in `{Engines} (n : nat) (tree : Node Test) : bool :=
  all_leaves (fun t => match t with TContent i => i <? n | _ => true end) tree.

(** The height of a compiled tree over atoms [h] high. *)
Fixpoint plan_height `{Engines} (h : nat) (tree : Node Test) : nat :=
  match tree with
  | NLeaf _ => h
  | NAnd all => S (S (fold_right Nat.max h (map (plan_height h) all)))
  | NOr any => S (fold_right Nat.max h (map (plan_height h) any))
  | NNot inner => S (plan_height h inner)
  end.

Lemma plan_height_base `{Engines} h tree : h <= plan_height h tree.
Proof.
  induction tree as [l|all IH|any IH|n IH] using Node_ind'; cbn; [done|..|lia];
    [enough (h <= fold_right Nat.max h (map (plan_height h) all)) by lia; clear IH; induction all|
     enough (h <= fold_right Nat.max h (map (plan_height h) any)) by lia; clear IH; induction any]; cbn; lia.
Qed.

Lemma plan_height_part `{Engines} h n ns : n ∈ ns -> plan_height h n <= fold_right Nat.max h (map (plan_height h) ns).
Proof. induction ns as [|m ns IH]; [by intros ?%not_elem_of_nil|]. intros [->|Hn]%elem_of_cons; cbn; [lia|]. specialize (IH Hn). lia. Qed.

Section compile.
Context {HI : Intpack} {HIL : IntpackLaws HI} {HSeg : Segment} {HSL : SegmentLaws HSeg} {HSC : SegmentCancels}.
Context {HB : SegmentBounds} {HE : Engines} {HC : Contents} {HCo : Corpus} {HCL : CorpusLaws}.
Context (p : Pinned) {Hp : pinned_wf p} (ck : Checkpoint) {HF : StopFlag ck} {HS : Sticky ck HF}.
Context (steps fuel : nat) (Hsteps : N.to_nat (2 ^ 32) < steps).
Context (atoms : list ContentAtom) (reads : list ReadAtom) (Hreads : Forall2 (atom_read p) atoms reads).
Context (h : nat) (Hh : Forall (fun a => atom_height a <= h) atoms) (H1 : 1 <= h).
Context (b : Test -> u32 -> bool) (Hb : forall i a d, atoms !! i = Some a -> b (TContent i) d = doc_holds a d).

(** A query tree's truth on a document. *)
Definition tree_holds (tree : Node Test) (d : u32) : bool := Expr.holds (fun t => b t d) tree.

Definition compiled (tree : Node Test) (cur : Cursor) : Prop := answers_on p (plan_height h tree) (tree_holds tree) cur.

(** The cursors of some children of a node, under one height. *)
Lemma parts_under k (B : Node Test -> u32 -> bool) ns cs (f : Node Test -> Node Test) :
  Forall2 (fun n cur => answers_on p (plan_height h (f n)) (B n) cur) ns cs -> (forall n, n ∈ ns -> plan_height h (f n) <= k) ->
  Forall (fun x => ok x 0 /\ height x <= k) cs /\
  forall d, is_live p d -> Forall2 (fun n x => refines (cert (den x d)) (truth_of (B n d))) ns cs.
Proof.
  induction 1 as [|n cur ns cs (Hok & Hht & Hd) _ IH]; intros Hk; [split; [constructor|]; constructor|].
  destruct IH as [I1 I2]; [intros m Hm; apply Hk; by right|]. specialize (Hk n ltac:(left)). split.
  - constructor; [|done]. split; [done|lia].
  - intros d Hl. constructor; [by apply Hd|by apply I2].
Qed.

(** A union over the live documents. *)
Lemma union_under k cs : 1 <= k -> k + N.to_nat (2 ^ 32) + 2 <= fuel -> Forall (fun x => ok x 0 /\ height x <= k) cs ->
  runs no_error (or_until ck steps fuel cs (bound (live p)))
    (fun cur => ok cur 0 /\ height cur <= S k /\ forall d, is_live p d -> den cur d = any_of cs d).
Proof.
  intros Hk Hf Hcs. eapply runs_mono; [apply (runs_union ck steps fuel k); [done..|apply live_bound]|].
  intros cur (Hok & Hht & Hd). split_and!; [done..|]. intros d Hl. apply Hd. by apply live_below.
Qed.

Lemma split_not (g : Node Test -> bool) all :
  forallb g all = forallb g (filter (fun n => is_not n = false) all) && forallb g (filter (fun n => is_not n = true) all).
Proof.
  induction all as [|n all IH]; [done|]. rewrite !filter_cons. cbn [forallb]. rewrite IH.
  destruct (is_not n); repeat case_decide; try done; cbn [forallb];
    destruct (g n); cbn [andb]; by rewrite ?andb_false_r.
Qed.

Lemma live_yes : ok (bits (live p) CYes) 0 /\ forall d, is_live p d -> den (bits (live p) CYes) d = Some CYes.
Proof. split; [apply bits_fresh; by destruct Hp|]. intros d Hd. cbn. unfold is_live in Hd. by rewrite Hd. Qed.

(** What a compiled child is, given what its compilation promises. *)
Definition compiles (tree : Node Test) : Prop :=
  leaves_in (length atoms) tree = true -> plan_height h tree + N.to_nat (2 ^ 32) + 2 <= fuel ->
  runs no_error (plan_compile ck steps fuel reads p tree) (compiled tree).

Lemma and_positive all k : Forall compiles all -> Forall (fun n => leaves_in (length atoms) n = true) all ->
  k = fold_right Nat.max h (map (plan_height h) all) -> k + N.to_nat (2 ^ 32) + 2 <= fuel ->
  runs no_error (if forallb is_not all then done (bits (live p) CYes)
                 else positive <- each_some ck (fun n =>
                        match n with NNot _ => None | n => Some (plan_compile ck steps fuel reads p n) end) all;
                      done (cursor_and positive))
    (answers_on p (S k) (fun d => forallb (fun n => tree_holds n d) (filter (fun n => is_not n = false) all))).
Proof.
  intros IH Hin -> Hf. destruct (forallb is_not all) eqn:Hall.
  - apply runs_done. rewrite filter_all_out.
    2:{ intros n Hn Hf'. rewrite forallb_forall in Hall. specialize (Hall n (proj1 (list_elem_of_In _ _) Hn)). congruence. }
    destruct live_yes as [Hok Hd]. split; [done|]. split; [cbn; lia|]. intros d Hl. rewrite Hd by done. by right.
  - eapply runs_bind; [apply runs_each_some with (R := compiled)|].
    { rewrite Forall_forall in *. intros n Hn m Hm. specialize (IH n Hn). specialize (Hin n Hn). pose proof (plan_height_part h n all Hn).
      destruct n; injection Hm as <- || done; apply IH; done || lia. }
    intros cs Hcs. apply runs_done. rewrite (filter_same _ (fun n => is_not n = false)) in Hcs.
    2:{ intros n _. destruct n; cbn; split; try done; try (by intros []); by eexists. }
    destruct (parts_under (fold_right Nat.max h (map (plan_height h) all)) tree_holds _ cs (fun n => n) Hcs) as [Hfresh Hd].
    { intros n [_ Hn]%list_elem_of_filter. by apply plan_height_part. }
    split; [apply cursor_and_ok; eapply Forall_impl; [exact Hfresh|]; by intros ? []|].
    split; [apply cursor_and_height; eapply Forall_impl; [exact Hfresh|]; by intros ? []|].
    intros d Hl. rewrite cursor_and_den. destruct cs as [|x cs]; [exfalso|by apply all_of_refines, Hd]. apply Forall2_nil_inv_r in Hcs. apply not_true_iff_false in Hall. apply Hall. apply forallb_forall. intros n Hn%list_elem_of_In.
    destruct (is_not n) eqn:He; [done|]. assert (Hx : n ∈ filter (fun n => is_not n = false) all) by (by apply list_elem_of_filter).
    rewrite Hcs in Hx. by apply not_elem_of_nil in Hx.
Qed.

(** The inner tree of a negated child. *)
Definition negated (n : Node Test) : Node Test := match n with NNot inner => inner | n => n end.

Lemma and_excluded all k : Forall compiles all -> Forall (fun n => leaves_in (length atoms) n = true) all ->
  Forall (fun n => match n with NNot inner => compiles inner | _ => True end) all ->
  k = fold_right Nat.max h (map (plan_height h) all) -> k + N.to_nat (2 ^ 32) + 2 <= fuel ->
  runs no_error (exclusions <- each_some ck (fun n =>
                   match n with NNot inner => Some (plan_compile ck steps fuel reads p inner) | _ => None end) all;
                 or_until ck steps fuel exclusions (bound (live p)))
    (answers_on p (S k) (fun d => negb (forallb (fun n => tree_holds n d) (filter (fun n => is_not n = true) all)))).
Proof.
  intros _ Hin IH -> Hf. assert (Hk : 1 <= fold_right Nat.max h (map (plan_height h) all)) by (clear -H1; induction all; cbn; lia).
  eapply runs_bind; [apply runs_each_some with (R := fun n => compiled (negated n))|].
  { rewrite Forall_forall in *. intros n Hn m Hm. specialize (IH n Hn). specialize (Hin n Hn). pose proof (plan_height_part h n all Hn) as Hle.
    destruct n; try done. injection Hm as <-. cbn [negated plan_height] in *. apply IH; [done|lia]. }
  intros cs Hcs. rewrite (filter_same _ (fun n => is_not n = true)) in Hcs.
  2:{ intros n _. destruct n; cbn; split; try done; try (by intros []); by eexists. }
  destruct (parts_under (fold_right Nat.max h (map (plan_height h) all)) (fun n => tree_holds (negated n)) _ cs negated Hcs) as [Hfresh Hd].
  { intros n [Hn Hin']%list_elem_of_filter. pose proof (plan_height_part h n all Hin') as Hle. destruct n; try done. cbn [negated plan_height] in *. lia. }
  eapply runs_mono; [by apply union_under|]. intros cur (Hok & Hht & Hden). split_and!; [done..|]. intros d Hl. rewrite Hden by done.
  assert (Heq : negb (forallb (fun n => tree_holds n d) (filter (fun n => is_not n = true) all)) =
                existsb (fun n => tree_holds (negated n) d) (filter (fun n => is_not n = true) all)).
  { assert (Hall : Forall (fun n => is_not n = true) (filter (fun n => is_not n = true) all))
      by (apply Forall_forall; intros n; by intros [? _]%list_elem_of_filter).
    clear -Hall. induction Hall as [|n ns Hn _ I]; [done|]. cbn [forallb existsb]. rewrite negb_andb, I. destruct n; try done.
    cbn [negated]. unfold tree_holds at 1. cbn [Expr.holds]. by rewrite negb_involutive. }
  rewrite Heq. by apply any_of_refines, Hd.
Qed.

(** [compile]'s cursor is within the truth of its tree. *)
Lemma compile_spec tree : compiles tree.
Proof.
  assert (Hstrong : compiles tree /\ match tree with NNot inner => compiles inner | _ => True end); [|by destruct Hstrong].
  induction tree as [l|all IH|any IH|n IH] using Node_ind'.
  - split; [|done]. intros Hin Hf. cbn [plan_compile]. checkpoint. unfold compiled. cbn [plan_height].
    assert (Hlive : runs no_error (done (bits (live p) CMaybe)) (compiled (NLeaf l)) (ck := ck)).
    { apply runs_done. destruct (live_bits p) as [Hok Hd]. split; [done|]. split; [cbn; lia|]. intros d Hl. rewrite Hd by done. by left. }
    destruct l as [t|t|t|i]; try exact Hlive. cbn in Hin. apply Nat.ltb_lt in Hin.
    destruct (lookup_lt_is_Some_2 atoms i Hin) as [a Ha]. destruct (Forall2_lookup_l _ _ _ _ _ Hreads Ha) as (r & Hr & Hread). rewrite Hr.
    pose proof (proj1 (Forall_lookup _ _) Hh i a Ha) as Hha. cbn in Hha.
    eapply runs_mono; [apply (atom_cursor_spec p ck steps fuel Hsteps a r Hread); cbn [plan_height] in Hf; lia|].
    intros cur Hcur. eapply answers_weaken; [|exact Hha]. destruct Hcur as (Hok & Hht & Hd). split_and!; [done..|].
    intros d Hl. unfold tree_holds. cbn [Expr.holds]. rewrite (Hb i a d Ha). by apply Hd.
  - split; [|done]. intros Hin Hf. cbn [plan_compile plan_height] in *. checkpoint. cbn [leaves_in all_leaves] in Hin. unfold leaves_in in Hin.
    cbn [all_leaves] in Hin. rewrite forallb_forall in Hin.
    assert (Hin' : Forall (fun n => leaves_in (length atoms) n = true) all) by (apply Forall_forall; intros n Hn%list_elem_of_In; by apply Hin).
    eapply runs_bind; [apply and_positive; [eapply Forall_impl; [exact IH|]; by intros ? []|done|reflexivity|lia]|].
    intros cur (Hok & Hht & Hd).
    apply runs_regroup. eapply runs_bind; [apply and_excluded; [eapply Forall_impl; [exact IH|]; by intros ? []|done|
      eapply Forall_impl; [exact IH|]; by intros ? []|reflexivity|lia]|].
    intros ecur (Hok2 & Hht2 & Hd2). apply runs_done. unfold compiled. cbn [plan_height].
    split; [by apply and_not_ok|]. split; [pose proof (and_not_height cur ecur); lia|]. intros d Hl. rewrite and_not_den.
    unfold tree_holds at 1. cbn [Expr.holds]. rewrite split_not.
    rewrite <- (negb_involutive (forallb _ (filter (fun n => is_not n = true) all))). by apply kandnot_refines; [apply Hd|apply Hd2].
  - split; [|done]. intros Hin Hf. cbn [plan_compile plan_height] in *. checkpoint. unfold leaves_in in Hin. cbn [all_leaves] in Hin.
    rewrite forallb_forall in Hin. eapply runs_bind; [apply runs_each with (R := compiled)|].
    { rewrite Forall_forall in *. intros n Hn. pose proof (plan_height_part h n any Hn). apply (IH n Hn); [|lia]. by apply Hin, list_elem_of_In. }
    intros cs Hcs. destruct (parts_under (fold_right Nat.max h (map (plan_height h) any)) tree_holds _ cs (fun n => n) Hcs (fun n Hn => plan_height_part h n any Hn)) as [Hfresh Hd].
    eapply runs_mono; [apply (union_under (fold_right Nat.max h (map (plan_height h) any))); [clear -H1; induction any; cbn; lia|lia|done]|].
    intros cur (Hok & Hht & Hden). split_and!; [done..|]. intros d Hl. rewrite Hden by done. by apply any_of_refines, Hd.
  - destruct IH as [IH _]. split; [|exact IH]. intros Hin Hf. cbn [plan_compile plan_height] in *. checkpoint.
    eapply runs_bind; [apply IH; [done|lia]|]. intros cur (Hok & Hht & Hd). apply runs_done. destruct live_yes as [Hyok Hyd].
    unfold compiled. cbn [plan_height]. split; [by apply and_not_ok|]. pose proof (plan_height_base h n).
    split; [pose proof (and_not_height (bits (live p) CYes) cur) as Hn; change (height (bits (live p) CYes)) with 1 in Hn; unfold pinned_not; lia|]. intros d Hl. unfold pinned_not.
    rewrite and_not_den, Hyd by done. change (tree_holds (NNot n) d) with (true && negb (tree_holds n d)). apply kandnot_refines; [by right|by apply Hd].
Qed.
End compile.

(** ** Walks *)

Lemma chunks_from_concat {A} fuel n (l : list A) : 0 < n -> length l <= fuel -> concat (chunks_from fuel n l) = l.
Proof.
  intros Hn. revert l. induction fuel as [|fuel IH]; intros [|x l] Hl; [done|cbn in Hl; lia|done|]. cbn [chunks_from concat].
  rewrite IH; [by rewrite take_drop|]. rewrite length_drop. cbn [length] in *. lia.
Qed.

(** A call that keeps the [Advance]'s flag down unless it reports a
    cancellation the flag's owner answered. *)
Section steady.
Context {ck : Checkpoint} {HF : StopFlag ck}.

Definition steady {A} (E : ReadError -> Prop) (m : Until (asking ck) A) (Q : A -> Prop) : Prop :=
  forall a, adv_flag a = false -> exists r a', m a = Some (r, a') /\
    match r with Ok x => adv_flag a' = false /\ Q x | Err Cancelled => stopped (adv_inner a') | Err e => E e end.

Lemma steady_done {A} E (x : A) (Q : A -> Prop) : Q x -> steady E (done x) Q.
Proof. intros HQ a Ha. by exists (Ok x), a. Qed.

Lemma steady_bind {A B} E (m : Until (asking ck) A) (k : A -> Until (asking ck) B) (P : A -> Prop) Q :
  steady E m P -> (forall x, P x -> steady E (k x) Q) -> steady E (and_then m k) Q.
Proof.
  intros Hm Hk a Ha. destruct (Hm a Ha) as (r & a1 & Heq & Hr). unfold and_then. rewrite Heq.
  destruct r as [x|e]; [destruct Hr as [Ha1 Hx]; by apply Hk|]. by exists (Err e), a1.
Qed.

Lemma steady_mono {A} E (m : Until (asking ck) A) (P Q : A -> Prop) : steady E m P -> (forall x, P x -> Q x) -> steady E m Q.
Proof. intros Hm HPQ. intros a Ha. destruct (Hm a Ha) as (r & a1 & Heq & Hr). exists r, a1. split; [done|]. destruct r; naive_solver. Qed.

Lemma steady_weaken {A} (E E' : ReadError -> Prop) (m : Until (asking ck) A) Q : steady E m Q -> (forall e, E e -> E' e) -> steady E' m Q.
Proof. intros Hm HE a Ha. destruct (Hm a Ha) as (r & a1 & Heq & Hr). exists r, a1. split; [done|]. destruct r as [x|[]]; auto. Qed.

(** One question, then the rest. *)
Lemma steady_check {B} E (k : unit -> Until (asking ck) B) Q : steady E (k tt) Q -> steady E (and_then (check (asking ck)) k) Q.
Proof.
  intros Hk a Ha. unfold and_then, check. cbn [asking ck_ask ck_state]. destruct (ck_ask ck (adv_inner a)) as [stop c] eqn:Hask.
  pose proof (stopped_ask _ _ _ Hask) as Hs. destruct stop; [|by apply Hk]. eexists _, _. split; [reflexivity|]. apply Hs. by left.
Qed.

Lemma steady_value {A B} E (o : option A) (x : A) (k : A -> Until (asking ck) B) Q :
  o = Some x -> steady E (k x) Q -> steady E (and_then (or_panic (asking ck) o) k) Q.
Proof. intros -> Hk. exact Hk. Qed.

Lemma steady_within {A} E (m : Until ck A) Q : runs E m Q -> steady E (within m) Q.
Proof.
  intros Hm a Ha. destruct (Hm (adv_inner a)) as (r & c & Heq & Hr). unfold within. rewrite Heq.
  eexists _, _. split; [reflexivity|]. destruct r as [x|[]]; done.
Qed.

Lemma steady_fold {A B} E (f : B -> A -> Until (asking ck) B) (I : list A -> B -> Prop) l acc :
  I [] acc -> (forall before x rest acc, l = before ++ x :: rest -> I before acc -> steady E (f acc x) (I (before ++ [x]))) ->
  steady E (fold_until f l acc) (I l).
Proof.
  intros Hacc Hstep. assert (Hgen : forall before rest acc, l = before ++ rest -> I before acc -> steady E (fold_until f rest acc) (I l)).
  { intros before rest. revert before. induction rest as [|x rest IH]; intros before b Hl Hb; cbn [fold_until].
    - rewrite app_nil_r in Hl. rewrite Hl. by apply steady_done.
    - eapply steady_bind; [by eapply Hstep|]. intros b' Hb'. apply (IH (before ++ [x])); [by rewrite <- app_assoc|done]. }
  by apply (Hgen []).
Qed.
End steady.

Section walk.
Context {HL : Intpack} {HIL : IntpackLaws HL} {HSeg : Segment} {ck : Checkpoint} {HF : StopFlag ck} {HS : Sticky ck HF}.

(** One call on a cursor, cancellable or not. *)
Lemma next_hit_spec cancellable fuel cur f t : ok cur f -> fuel_for cur <= fuel ->
  steady no_error (next_hit ck cancellable fuel cur t) (fun r => post cur f t r.1 r.2).
Proof.
  intros Hok Hfuel a Ha. unfold next_hit. destruct cancellable.
  - destruct (next_geq_until_spec ck fuel cur f t a Hok Hfuel) as (r & cur' & a' & -> & _ & Hr); [by intros ?; congruence|].
    cbn [mbind option_bind]. eexists _, _. split; [reflexivity|]. destruct Hr as [[-> Hr]|(hit & -> & Hfl & Hpost)]; [done|]. done.
  - destruct (cursor_next_spec fuel cur f t Hok Hfuel) as (r & cur' & -> & Hpost). cbn [mbind option_bind].
    eexists _, _. split; [reflexivity|]. done.
Qed.

(** The documents a cursor still has to give, ascending. *)
Definition rest_of (cur : Cursor) (t : u32) (l : list u32) : Prop :=
  StronglySorted N.lt l /\ forall d, d ∈ l <-> (t <= d)%N /\ den cur d <> None.

Lemma rest_step cur cur' t doc k l : (t <= doc)%N -> den cur doc = Some k -> (forall e, (t <= e < doc)%N -> den cur e = None) ->
  (forall e, den cur' e = den cur e) -> rest_of cur' (doc + 1) l -> rest_of cur t (doc :: l).
Proof.
  intros Hge Hd Hmin Hden [Hs Hl]. split.
  - constructor; [done|]. apply Forall_forall. intros d Hin. apply Hl in Hin as [? _]. lia.
  - intros d. rewrite elem_of_cons, Hl, Hden. split.
    + intros [->|[Hle Hn]]; [by rewrite Hd|]. split; [lia|done].
    + intros [Hle Hn]. destruct (N.lt_trichotomy d doc) as [H|[H|H]]; [|by left|right; split; [lia|done]].
      by rewrite Hmin in Hn by lia.
Qed.

(** A walk's outcome: the documents from [t] on, and their names. *)
Definition collected (names : DocNames) (cur : Cursor) (t : u32) (ids docs : list u32) (r : list u32 * list u32) : Prop :=
  exists l rows, rest_of cur t l /\ Forall2 (fun d row => names_of names d = Some row) l rows /\
    r = (ids ++ concat rows, docs ++ l).

Lemma add_names_spec ids names : steady no_error (add_names ck ids names) (fun r => r = ids ++ names).
Proof.
  unfold add_names. eapply steady_mono; [apply (steady_fold no_error _ (fun before r => r = ids ++ concat before))|].
  - by rewrite app_nil_r.
  - intros before chunk rest acc _ ->. apply steady_check, steady_done. by rewrite concat_app, app_assoc; cbn; rewrite app_nil_r.
  - intros r ->. unfold chunks. by rewrite chunks_from_concat by lia.
Qed.

Lemma collect_spec steps fuel cancellable names cur f t ids docs :
  (forall d, exists row, names_of names d = Some row) -> ok cur f -> (f <= t)%N -> fuel_for cur <= fuel -> N.to_nat (2 ^ 32 - t) < steps ->
  steady no_error (collect ck steps fuel cancellable names cur t ids docs) (collected names cur t ids docs).
Proof.
  intros Hnames. revert cur f t ids docs. induction steps as [|steps IH]; intros cur f t ids docs Hok Hft Hfuel Hst; [lia|].
  cbn [collect]. apply steady_check. eapply steady_bind; [by apply next_hit_spec|]. intros [hit cur'] Hpost. cbn [fst snd] in *.
  pose proof (post_hit _ _ _ _ _ Hpost) as Hhit. replace (N.max t f) with t in Hhit by lia.
  destruct hit as [[doc k]|]; simpl in Hhit.
  2:{ apply steady_done. exists [], []. rewrite !app_nil_r. split; [|done]. split; [constructor|]. intros d.
      split; [by intros ?%not_elem_of_nil|]. intros [Hle Hn]. by rewrite Hhit in Hn. }
  destruct Hhit as (Hd & Hge & Hmin). destruct Hpost as (_ & _ & [Hden Hht] & f' & -> & Hok').
  pose proof (den_u32 _ _ _ _ Hok Hd) as Hd32. destruct (Hnames doc) as [row Hrow].
  eapply steady_value; [exact Hrow|]. eapply steady_bind; [apply add_names_spec|]. intros ids' ->.
  unfold next_u32. destruct (N.ltb_spec (doc + 1) (2 ^ 32)).
  - eapply steady_mono; [apply (IH cur' (N.max t f) (doc + 1)%N); [done|lia|unfold fuel_for in *; by rewrite Hht|lia]|].
    intros r (l & rows & Hl & Hrows & ->). exists (doc :: l), (row :: rows). split; [by eapply rest_step|]. split; [by constructor|].
    cbn [concat]. by rewrite <- !app_assoc.
  - apply steady_done. exists [doc], [row]. split; [|split; [by constructor|cbn; by rewrite app_nil_r]].
    eapply (rest_step cur cur' t doc k); [done..|]. split; [constructor|]. intros d. split; [by intros ?%not_elem_of_nil|].
    intros [Hle Hn]. destruct (den cur' d) eqn:Hq; [|done]. pose proof (den_u32 _ _ _ _ Hok' Hq). lia.
Qed.

(** The candidates: the cursor's documents, ascending, and the names of
    each. *)
Definition candidates (names : DocNames) (cur : Cursor) (r : list u32 * list u32) : Prop :=
  StronglySorted N.lt r.2 /\ (forall d, d ∈ r.2 <-> den cur d <> None) /\
  exists rows, Forall2 (fun d row => names_of names d = Some row) r.2 rows /\ r.1 = sort_by cmp_le (concat rows).

Lemma candidates_spec steps fuel cancellable names cur :
  (forall d, exists row, names_of names d = Some row) -> ok cur 0 -> fuel_for cur <= fuel -> N.to_nat (2 ^ 32) < steps ->
  steady no_error (content_candidates ck steps fuel cancellable names cur) (candidates names cur).
Proof.
  intros Hnames Hok Hfuel Hst. unfold content_candidates.
  eapply steady_bind; [apply (collect_spec steps fuel cancellable names cur 0 0); [done..|lia]|].
  intros [ids docs] (l & rows & [Hs Hl] & Hrows & [= -> ->]). cbn [fst snd]. do 2 apply steady_check. apply steady_done.
  split; [done|]. split; [|by exists rows]. cbn [snd app]. intros d. rewrite Hl. split; [by intros [_ ?]|]. intros ?. split; [lia|done].
Qed.
End walk.

(** ** The table of certainties *)

Section probe.
Context {HL : Intpack} {HIL : IntpackLaws HL} {HSeg : Segment} {HB : SegmentBounds} {HE : Engines} {HC : Contents}.
Context {ck : Checkpoint} {HF : StopFlag ck} {HS : Sticky ck HF} (p : Pinned).

Lemma grow_table steps cells table : cells - length table <= steps -> length table <= cells ->
  steady no_error (grow ck steps cells table) (fun r => r = table ++ replicate (cells - length table) None).
Proof.
  revert table. induction steps as [|steps IH]; intros table Hst Hle; cbn [grow]; destruct (Nat.ltb_spec (length table) cells) as [Hlt|Hge];
    try (apply steady_done; replace (cells - length table) with 0 by lia; by rewrite app_nil_r); [lia|].
  apply steady_check. set (n := Nat.min (length table + 4096) cells - length table).
  eapply steady_mono; [apply IH; rewrite length_app, length_replicate; lia|]. intros r ->.
  rewrite length_app, length_replicate, <- app_assoc, <- replicate_add. f_equal. f_equal. lia.
Qed.

(** The answer of a cursor at its target. *)
Lemma cell_den cur doc r : first_hit (den cur) doc r ->
  (match r with Some (found, k) => if (found =? doc)%N then Some k else None | None => None end) = den cur doc.
Proof.
  destruct r as [[d k]|]; simpl; [|intros Hn; symmetry; apply Hn; lia]. intros (Hd & Hge & Hmin).
  destruct (N.eqb_spec d doc) as [->|Hne]; [done|]. symmetry. apply Hmin. lia.
Qed.

(** A table one of whose columns has been written for some documents. *)
Definition column (width i : nat) (cur : Cursor) (docs : list u32) (before after : list (option Certainty)) : Prop :=
  length after = length before /\
  (forall j d, docs !! j = Some d -> after !! (j * width + i) = Some (den cur d)) /\
  forall k, (forall j, j < length docs -> k <> j * width + i) -> after !! k = before !! k.

Lemma column_snoc width i cur docs before after d : 0 < width -> length docs * width + i < length before ->
  column width i cur docs before after ->
  exists after', set_at after (length docs * width + i) (den cur d) = Some after' /\ column width i cur (docs ++ [d]) before after'.
Proof.
  intros Hw Hlt (Hlen & Hset & Hkeep). unfold set_at.
  destruct (lookup_lt_is_Some_2 after (length docs * width + i)) as [x ->]; [lia|]. cbn [mbind option_bind].
  eexists. split; [reflexivity|]. split; [by rewrite length_insert|]. split.
  - intros j d' Hj. apply lookup_app_Some in Hj as [Hj|[Hge Hj]].
    + rewrite list_lookup_insert_ne; [by apply Hset|]. apply lookup_lt_Some in Hj. nia.
    + apply list_lookup_singleton_Some in Hj as [Hz ->]. replace j with (length docs) by lia. apply list_lookup_insert_eq. lia.
  - intros k Hk. rewrite length_app in Hk. cbn [length] in Hk. rewrite list_lookup_insert_ne by (symmetry; apply Hk; lia).
    apply Hkeep. intros j Hj. apply Hk. lia.
Qed.

(** One atom's column. *)
Lemma probe_column cancellable fuel width i docs cur table : StronglySorted N.le docs -> 0 < width -> i < width ->
  length docs * width <= length table -> ok cur 0 -> fuel_for cur <= fuel ->
  steady no_error (fold_until (probe_doc ck fuel width i cancellable) (enumerate docs) (cur, table))
    (fun r => column width i cur docs table r.2).
Proof.
  intros Hs Hw Hi Hlen Hok Hfuel.
  eapply steady_mono; [apply (steady_fold no_error _ (fun before acc =>
    (exists f, ok acc.1 f /\ forall d, d ∈ drop (length before) docs -> (f <= d)%N) /\ height acc.1 = height cur /\
    (forall d, den acc.1 d = den cur d) /\ column width i cur before.*2 table acc.2))|].
  - split; [exists 0%N; split; [done|]; intros; lia|]. split; [done|]. split; [done|]. split; [done|]. split; [|done]. intros j d Hj.
    by destruct j.
  - intros before [j d] rest [cur' table'] Hl ((f & Hok' & Hf) & Hht & Hden & Hcol). cbn [fst snd] in *.
    destruct (enumerate_at _ _ _ _ Hl) as [Hj Hd]. cbn in Hj, Hd. apply enumerate_prefix in Hl. cbn [fst snd] in Hl.
    unfold probe_doc. cbn [fst snd]. apply steady_check. assert (Hfd : (f <= d)%N).
    { apply Hf. rewrite (drop_S _ d _ Hd). left. }
    eapply steady_bind; [apply (next_hit_spec cancellable fuel cur' f d Hok'); unfold fuel_for in *; by rewrite Hht|].
    intros [hit cur2] Hpost. cbn [fst snd] in *. pose proof (post_hit _ _ _ _ _ Hpost) as Hhit.
    replace (N.max d f) with d in Hhit by lia. rewrite (cell_den cur' d hit Hhit), Hden.
    destruct Hpost as (_ & _ & [Hden2 Hht2] & f' & Hmv & Hok2). subst j.
    assert (Hb : length before.*2 = length before) by apply length_fmap.
    destruct (column_snoc width i cur before.*2 table table' d) as (after & Hset & Hcol'); [done| |done|].
    { assert (length docs = length before + S (length rest)) by (rewrite Hl, length_app, !length_fmap; cbn [length]; by rewrite length_fmap). nia. }
    rewrite Hb in Hset. eapply steady_value; [exact Hset|]. apply steady_done. cbn [fst snd]. split; [|split; [congruence|split]].
    + exists f'. split; [done|]. intros u Hu. rewrite length_app in Hu. cbn [length] in Hu. rewrite Nat.add_1_r in Hu.
      assert (Hdu : (d <= u)%N).
      { rewrite Hl in Hs, Hu. rewrite drop_app_ge in Hu by (rewrite length_fmap; lia). rewrite length_fmap in Hu.
        replace (S (length before) - length before) with 1 in Hu by lia. cbn [drop] in Hu.
        apply StronglySorted_app_1_r in Hs. apply StronglySorted_inv in Hs as [_ Hall].
        rewrite Forall_forall in Hall. rewrite drop_0 in Hu. by apply Hall. }
      destruct hit as [[e k]|]; simpl in Hmv; lia.
    + intros e. by rewrite Hden2.
    + rewrite fmap_app. exact Hcol'.
  - intros r (_ & _ & _ & Hcol). by rewrite enumerate_snd in Hcol.
Qed.

(** Every cell is its atom's cursor's answer on its document. *)
Definition probed (Q : ReadAtom -> Cursor -> Prop) (reads : list ReadAtom) (docs : list u32) (table : list (option Certainty)) : Prop :=
  length table = length docs * length reads /\
  exists curs, Forall2 Q reads curs /\
    forall i j cur d, curs !! i = Some cur -> docs !! j = Some d -> table !! (j * length reads + i) = Some (den cur d).

Lemma probe_spec steps fuel cancellable reads docs (Q : ReadAtom -> Cursor -> Prop) : StronglySorted N.le docs ->
  Forall (fun r => runs no_error (atom_cursor_until ck steps fuel r p) (Q r)) reads ->
  (forall r cur, Q r cur -> ok cur 0 /\ fuel_for cur <= fuel) ->
  steady no_error (probe ck steps fuel cancellable reads docs p) (probed Q reads docs).
Proof.
  intros Hs Hruns HQ. unfold probe. set (w := length reads). apply steady_check.
  eapply steady_bind; [apply grow_table; cbn [length]; lia|]. intros table ->. cbn [length app]. rewrite Nat.sub_0_r.
  eapply steady_mono; [apply (steady_fold no_error _ (fun before table => length table = length docs * w /\
    exists curs, Forall2 Q before.*2 curs /\
      forall i j cur d, curs !! i = Some cur -> docs !! j = Some d -> table !! (j * w + i) = Some (den cur d)))|].
  - split; [by rewrite length_replicate|]. exists []. split; [constructor|]. intros i j cur d Hi. by rewrite lookup_nil in Hi.
  - intros before [i r] rest table Hl (Hlen & curs & HQs & Hcells). destruct (enumerate_at _ _ _ _ Hl) as [Hi Hr]. cbn [fst snd] in *. subst i.
    pose proof (lookup_lt_Some _ _ _ Hr) as Hlt. fold w in Hlt. unfold probe_atom. cbn [fst snd]. apply steady_check.
    eapply steady_bind; [apply steady_within; by apply (proj1 (Forall_lookup _ _) Hruns _ _ Hr)|]. intros cur Hcur.
    destruct (HQ r cur Hcur) as [Hok Hfuel].
    eapply steady_bind; [apply probe_column; [done|lia|exact Hlt|lia|done|done]|]. intros [cur' table'] (Hlen' & Hset & Hkeep). cbn [fst snd] in *.
    apply steady_done. split; [by rewrite Hlen'|]. exists (curs ++ [cur]). rewrite fmap_app. cbn [fmap list_fmap snd].
    split; [apply Forall2_app; [done|by repeat constructor]|]. pose proof (Forall2_length _ _ _ HQs) as Hlc. rewrite length_fmap in Hlc.
    intros i j c d Hi Hj. apply lookup_app_Some in Hi as [Hi|[Hge Hi]].
    + rewrite Hkeep; [by eapply Hcells|]. apply lookup_lt_Some in Hi. intros j' Hj' Heq.
      assert (j = j') by (clear -Heq Hi Hlt Hlc; nia). subst. lia.
    + apply list_lookup_singleton_Some in Hi as [Hz ->]. replace i with (length before) by lia. by apply Hset.
  - intros table' (Hlen & curs & HQs & Hcells). rewrite enumerate_snd in HQs. split; [done|]. by exists curs.
Qed.
End probe.
