(* ===== verification/PlanRun.v ===== *)
(** * PlanRun: a content query, up to verification

    The theorems of a whole run of [Plan]: its estimates and its dictionary
    plan never panic, the driving tree is one of the residual's that no entry
    without a document satisfies, and the candidates and the table of
    certainties that verification starts from lose no document
    ([content_plan_loses_nothing]); the plan's bounds are bounds
    ([plan_bounds_hold]). *)
From S2P Require Import Prelude Word DocSet Expr Cursor Manifest Postings Union Until Trigrams Query Candidates CandidatesSpec DocNames Plan PlanBounds PlanSpec.
#[local] Open Scope until_scope.
#[local] Remove Hints list_leaf list_leaf_laws plain_intpack plain_intpack_laws demo_segment demo_segment_laws : typeclass_instances.

(** ** Calls that never panic *)

(** A call that ends, that keeps the [Advance]'s flag down, and that is
    cancelled only when the flag's owner answered. *)
Section goes.
Context {ck : Checkpoint} {HF : StopFlag ck} {OE ST : Type}.

Definition goes {A} (E : RunError OE ST -> Prop) (m : Running ck (OE := OE) (ST := ST) A) (Q : A -> Prop) : Prop :=
  forall a, adv_flag a = false -> exists r a', m a = Some (r, a') /\
    match r with
    | Ok x => adv_flag a' = false /\ Q x
    | Err e => E e \/ e = ReIndex Cancelled /\ stopped (adv_inner a')
    end.

Lemma goes_bind {A B} E (m : Running ck A) (k : A -> Running ck B) (P : A -> Prop) Q :
  goes E m P -> (forall x, P x -> goes E (k x) Q) -> goes E (running ck m k) Q.
Proof.
  intros Hm Hk a Ha. destruct (Hm a Ha) as (r & a1 & Heq & Hr). unfold running. rewrite Heq.
  destruct r as [x|e]; [destruct Hr as [Ha1 Hx]; by apply Hk|]. by exists (Err e), a1.
Qed.

Lemma goes_finish {A} (E : RunError OE ST -> Prop) (r : result A (RunError OE ST)) (Q : A -> Prop) :
  match r with Ok x => Q x | Err e => E e end -> goes E (finish ck r) Q.
Proof. intros Hr a Ha. exists r, a. split; [done|]. destruct r; auto. Qed.

Lemma goes_value {A} E (o : option (result A (RunError OE ST))) (Q : A -> Prop) :
  (exists r, o = Some r /\ match r with Ok x => Q x | Err e => E e end) ->
  goes E (fun a => match o with Some r => Some (r, a) | None => None end) Q.
Proof. intros (r & -> & Hr). by apply (goes_finish E r Q). Qed.

Lemma goes_indexed {A} (E : RunError OE ST -> Prop) (m : Until (asking ck) A) Q :
  (forall e, e <> Cancelled -> E (ReIndex e)) -> steady any_error m Q -> goes E (indexed_run ck m) Q.
Proof.
  intros HE Hm a Ha. destruct (Hm a Ha) as (r & a1 & Heq & Hr). unfold indexed_run. rewrite Heq.
  destruct r as [x|e]; [by exists (Ok x), a1|]. exists (Err (ReIndex e)), a1. split; [done|].
  destruct (decide (e = Cancelled)) as [->|Hne]; [by right|left; auto].
Qed.
End goes.

Lemma every_value_total {A B} (f : A -> option B) l :
  Forall (fun x => exists y, f x = Some y) l -> exists ys, every_value f l = Some ys.
Proof. induction 1 as [|x l (y & Hy) _ (ys & Hys)]; cbn; [by eexists|]. rewrite Hy. cbn. rewrite Hys. by eexists. Qed.

(** ** Estimates *)

Section estimates.
Context {HE : Engines} (atoms : list (u64 * Certainty * u64)) (lv : u64).

Lemma leaves_all tree ns : (tree = NAnd ns \/ tree = NOr ns) -> leaves_in (length atoms) tree = true ->
  Forall (fun n => leaves_in (length atoms) n = true) ns.
Proof.
  intros Ht Hin. assert (Hall : forallb (leaves_in (length atoms)) ns = true) by (by destruct Ht as [-> | ->]).
  rewrite forallb_forall in Hall. apply Forall_forall. intros n Hn. by apply Hall, list_elem_of_In.
Qed.

Lemma leaf_atom i : leaves_in (length atoms) (NLeaf (TContent i)) = true -> exists e, atoms !! i = Some e.
Proof. cbn. intros Hi%Nat.ltb_lt. by apply lookup_lt_is_Some_2 in Hi as [e He]; exists e. Qed.

Lemma estimate_total tree : leaves_in (length atoms) tree = true -> exists n, estimate atoms lv tree = Some n.
Proof.
  induction tree as [l|all IH|any IH|n IH] using Node_ind'; intros Hin; cbn [estimate]; [..|by eexists].
  - destruct l as [t|t|t|i]; try (by eexists). destruct (leaf_atom i Hin) as [e ->]. by eexists.
  - destruct (every_value_total (fun n => if is_not n then Some None else Some <$> estimate atoms lv n) all) as [ys ->].
    + pose proof (leaves_all _ all (or_introl eq_refl) Hin) as Hall. rewrite Forall_forall in *. intros n Hn.
      destruct (is_not n); [by eexists|]. destruct (IH n Hn (Hall n Hn)) as [e ->]. by eexists.
    + cbn. by eexists.
  - destruct (every_value_total (estimate atoms lv) any) as [ys ->]; [|cbn; by eexists].
    pose proof (leaves_all _ any (or_intror eq_refl) Hin) as Hall. rewrite Forall_forall in *. auto.
Qed.

(** The least of a list is one of it. *)
Lemma least_in {A} (l : list (A * u64)) x : least l = Some x -> x ∈ l.
Proof.
  destruct l as [|y l]; [done|]. cbn [least]. intros [= <-]. revert y. induction l as [|z l IH]; intros y; [left|].
  cbn [fold_left]. destruct (z.2 <? y.2)%N; [right; apply IH|]. specialize (IH y). set_solver.
Qed.

Lemma every_value_in {A B} (f : A -> option B) l ys y : every_value f l = Some ys -> y ∈ ys -> exists x, x ∈ l /\ f x = Some y.
Proof.
  intros Hys%every_value_all [i Hi]%list_elem_of_lookup. destruct (Forall2_lookup_r _ _ _ _ _ Hys Hi) as (x & Hx & Hf).
  exists x. split; [by eapply list_elem_of_lookup_2|done].
Qed.

(** The driver is a residual tree over content that no entry without a
    document satisfies; choosing it never panics. *)
Lemma content_driver_spec {OE ST} residual (name_estimate : result u64 (RunError OE ST)) :
  Forall (fun tree => leaves_in (length atoms) tree = true) residual ->
  exists r, content_driver residual name_estimate atoms lv = Some r /\
    match r with
    | Ok (Some tree) => tree ∈ residual /\ is_content tree = true /\ Expr.holds (fun _ => false) tree = false
    | Ok None => True
    | Err e => name_estimate = Err e
    end.
Proof.
  intros Hin. unfold content_driver.
  set (sel := filter (fun tree => is_content tree && negb (holds_without_document tree) = true) residual).
  destruct (every_value_total (fun tree => e ← estimate atoms lv tree; Some (tree, e)) sel) as [ys Hys].
  { apply Forall_forall. intros tree [_ Ht]%list_elem_of_filter. rewrite Forall_forall in Hin.
    destruct (estimate_total tree (Hin tree Ht)) as [e ->]. by eexists. }
  rewrite Hys. cbn [mbind option_bind]. eexists. split; [reflexivity|].
  destruct (least ys) as [[tree e]|] eqn:Hl; [|done]. destruct name_estimate as [n|err]; [|done]. destruct (_ <=? n)%N; [|done].
  apply least_in in Hl. destruct (every_value_in _ _ _ _ Hys Hl) as (tree' & Ht & He).
  destruct (estimate atoms lv tree'); [|done]. injection He as -> ->.
  apply list_elem_of_filter in Ht as [[Hc Hno]%andb_prop Ht]. split; [done|]. split; [done|].
  unfold holds_without_document in Hno. rewrite (eval_decided (fun _ => false)) in Hno.
  by destruct (Expr.holds _ tree).
Qed.

(** The dictionary plan never panics; it fails as a name test's estimate
    does. *)
Definition stale_only {A OE ST} (hits : NameTest -> result u64 ST) (r : result A (RunError OE ST)) : Prop :=
  match r with Ok _ => True | Err e => exists t s, hits t = Err s /\ e = ReStale s end.

Lemma est_name_stale {OE ST} (hits : NameTest -> result u64 ST) t : stale_only hits (est_name (OE := OE) hits lv t).
Proof. unfold est_name. destruct (hits t) as [n|s] eqn:Hs; [done|]. by exists t, s. Qed.

Lemma est_bind_total {OE ST A B} hits (m : option (result (A * list NodeReport) (RunError OE ST))) k :
  (exists r, m = Some r /\ stale_only hits r) ->
  (forall x reports, exists r : result (B * list NodeReport) (RunError OE ST), k x reports = Some r /\ stale_only hits r) ->
  exists r, est_bind m k = Some r /\ stale_only hits r.
Proof. intros (r & -> & Hr) Hk. destruct r as [[x reports]|e]; [apply Hk|]. by eexists. Qed.

Lemma est_children_total {OE ST} hits (node : Node Test -> list NodeReport -> option (result (Bounds * list NodeReport) (RunError OE ST))) step ns acc reports :
  Forall (fun n => forall reports, exists r, node n reports = Some r /\ stale_only hits r) ns ->
  exists r, est_children node step ns acc reports = Some r /\ stale_only hits r.
Proof.
  intros Hns. revert acc reports. induction Hns as [|n ns Hn _ IH]; intros acc reports; cbn [est_children]; [by eexists|].
  apply est_bind_total; [apply Hn|]. intros; apply IH.
Qed.

Lemma est_node_total {OE ST} hits tree reports : leaves_in (length atoms) tree = true ->
  exists r, est_node (OE := OE) (ST := ST) hits atoms lv tree reports = Some r /\ stale_only hits r.
Proof.
  revert reports. induction tree as [l|all IH|any IH|n IH] using Node_ind'; intros reports Hin; cbn [est_node].
  - destruct l as [t|t|t|i]; try (by eexists).
    + pose proof (est_name_stale (OE := OE) hits t) as Hs. destruct (est_name hits lv t); by eexists.
    + destruct (leaf_atom i Hin) as [e ->]. by eexists.
  - apply est_bind_total; [|by eexists]. apply est_children_total.
    pose proof (leaves_all _ all (or_introl eq_refl) Hin) as Hall. rewrite Forall_forall in *. auto.
  - apply est_bind_total; [|by eexists]. apply est_children_total.
    pose proof (leaves_all _ any (or_intror eq_refl) Hin) as Hall. rewrite Forall_forall in *. auto.
  - apply est_bind_total; [by apply IH|]. by eexists.
Qed.

Lemma name_reports_stale {OE ST} (hits : NameTest -> result u64 ST) tests reports : stale_only hits (name_reports (OE := OE) hits lv tests reports).
Proof.
  revert reports. induction tests as [|t tests IH]; intros reports; cbn [name_reports]; [done|].
  pose proof (est_name_stale (OE := OE) hits t) as Hs. destruct (est_name hits lv t); [apply IH|exact Hs].
Qed.
End estimates.

(** ** Reading the atoms *)

Definition is_grep `{Engines} (a : ContentAtom) : bool := match a with CaGrep _ => true | CaText _ => false end.

(** The reports the dictionary plan makes: one for each grep atom. *)
Definition reports_for `{Contents} (atoms : list ContentAtom) (greps : list GrepReport) : Prop :=
  Forall2 (fun a r => match a with CaGrep g => report_ok (grep_planning g) r | CaText _ => False end)
    (filter (fun a => is_grep a = true) atoms) greps.

Section reading.
Context {HI : Intpack} {HIL : IntpackLaws HI} {HSeg : Segment} {HSL : SegmentLaws HSeg} {HSC : SegmentCancels}.
Context {HB : SegmentBounds} {HE : Engines} {HC : Contents} {HCo : Corpus} {HCL : CorpusLaws}.
Context (p : Pinned) {Hp : pinned_wf p} (Hix : indexes p) (ck : Checkpoint) {HF : StopFlag ck}.

Lemma estimate_atoms_spec atoms : runs any_error (estimate_atoms ck atoms p) (fun r => length r = length atoms).
Proof.
  unfold estimate_atoms. eapply runs_mono; [apply runs_each with (R := fun _ _ => True)|].
  - apply Forall_forall. intros a _. checkpoint. by apply content_estimate_runs.
  - intros r Hr%Forall2_length. done.
Qed.

Lemma explain_greps_spec atoms :
  runs any_error (each_some ck (fun atom => match atom with CaGrep g => Some (explain ck (grep_planning g) p) | CaText _ => None end) atoms)
    (reports_for atoms).
Proof.
  eapply runs_mono; [apply runs_each_some with (R := fun a r => match a with CaGrep g => report_ok (grep_planning g) r | CaText _ => False end)|].
  - apply Forall_forall. intros [t|g] _ m; [done|]. intros [= <-]. apply explain_spec, grep_canonical.
  - intros r. unfold reports_for. rewrite (filter_same _ (fun a => is_grep a = true)); [done|].
    intros [t|g] _; cbn; split; try done; try (by intros []); by eexists.
Qed.

Lemma read_atoms_spec atoms greps : reports_for atoms greps ->
  runs any_error (read_atoms ck atoms p greps) (Forall2 (atom_read p) atoms).
Proof.
  revert greps. induction atoms as [|[t|g] atoms IH]; intros greps Hg; cbn [read_atoms]; [by apply runs_done|..].
  - eapply runs_bind; [by apply content_read_spec|]. intros r Hr.
    eapply runs_bind; [by apply IH|]. intros rs Hrs. apply runs_done. by constructor.
  - unfold reports_for in Hg. rewrite filter_cons, decide_True in Hg by done.
    apply Forall2_cons_inv_l in Hg as (r & rest & Hr & Hrest & ->). cbn [head tail].
    eapply runs_bind; [apply content_read_spec; [done|]; by intros ? ? [= <-] [= <-]|]. intros x Hx.
    eapply runs_bind; [by apply IH|]. intros rs Hrs. apply runs_done. by constructor.
Qed.
End reading.

(** A call keeps every promise made of it. *)
Lemma runs_all {ck} {HF : StopFlag ck} {A X} E (m : Until ck A) (P : X -> Prop) (Q : X -> A -> Prop) x :
  P x -> (forall x, P x -> runs E m (Q x)) -> runs E m (fun y => forall x, P x -> Q x y).
Proof.
  intros Hx Hm c. destruct (Hm x Hx c) as (r & c' & Heq & Hr). exists r, c'. split; [done|]. destruct r as [y|e]; [|done].
  intros x' Hx'. destruct (Hm x' Hx' c) as (r' & c'' & Heq' & Hr'). rewrite Heq in Heq'. by injection Heq' as <- <-.
Qed.

(** ** A whole run *)

Lemma max_base {A} (f : A -> nat) base l : base <= fold_right Nat.max base (map f l).
Proof. induction l; cbn [map fold_right]; lia. Qed.

Lemma max_part {A} (f : A -> nat) base l x : x ∈ l -> f x <= fold_right Nat.max base (map f l).
Proof.
  induction l as [|y l IH]; [by intros ?%not_elem_of_nil|]. cbn [map fold_right].
  intros [->|Hx]%elem_of_cons; [lia|]. specialize (IH Hx). lia.
Qed.

Section whole.
Context {HI : Intpack} {HIL : IntpackLaws HI} {HSeg : Segment} {HSL : SegmentLaws HSeg} {HSC : SegmentCancels}.
Context {HB : SegmentBounds} {HE : Engines} {HC : Contents} {HCo : Corpus} {HCL : CorpusLaws}.
Context (p : Pinned) {Hp : pinned_wf p} (Hix : indexes p) (ck : Checkpoint) {HF : StopFlag ck} {HS : Sticky ck HF}.
Context {OE ST : Type} (q : Query) (host : Host (OE := OE) (ST := ST)).
Context (Hin : Forall (fun tree => leaves_in (length (atoms q)) tree = true) (residual q)).

(** The height of every cursor of the query's run. *)
Definition atoms_height : nat := fold_right Nat.max 1 (map atom_height (atoms q)).
Definition query_height : nat := S (fold_right Nat.max atoms_height (map (plan_height atoms_height) (residual q))).

(** What a content test and a tree hold on a document. *)
Definition doc_test (t : Test) (d : u32) : bool :=
  match t with TContent i => is_some_and (atoms q !! i) (fun a => doc_holds a d) | _ => true end.
Definition tree_on (tree : Node Test) (d : u32) : bool := Expr.holds (fun t => doc_test t d) tree.

(** The errors of the catalog and of the name index, and those a run may end
    with besides the cancellation of its own walks. *)
Definition host_error (e : RunError OE ST) : Prop :=
  h_name_estimate host = Err e \/ h_rows host = Err e \/
  match e with ReStale s => exists t, h_hits host t = Err s | ReOpen s => h_load host = Err s | _ => False end.
Definition run_error (e : RunError OE ST) : Prop :=
  host_error e \/
  match e with
  | ReIncomplete missing lv =>
      exists bound, h_bound host = Some bound /\ (bound < missing)%N /\ missing = len (uncovered p) /\ lv = len (live p)
  | ReScan maybe lv => h_bound host <> None /\ (live_len p / 4 < maybe)%N /\ lv = len (live p)
  | ReIndex e => e <> Cancelled
  | _ => False
  end.

Lemma stale_run {A} (r : result A (RunError OE ST)) : stale_only (h_hits host) r -> match r with Ok _ => True | Err e => run_error e end.
Proof. destruct r as [x|e]; [done|]. intros (t & s & Hh & ->). left. right. right. by exists t. Qed.

Lemma estimate_goes : goes (ck := ck) run_error (finish ck (h_name_estimate host)) (fun _ => True).
Proof. apply goes_finish. destruct (h_name_estimate host) as [n|e] eqn:He; [done|]. left. by left. Qed.

Lemma indexed_goes {A} (m : Until (asking ck) A) Q : steady any_error m Q -> goes run_error (indexed_run ck m) Q.
Proof. apply goes_indexed. intros e He. by right. Qed.

Lemma plan_spec estimates : length estimates = length (atoms q) ->
  goes (ck := ck) run_error (plan_from_estimates ck q host p estimates) (fun plan => reports_for (atoms q) (pl_greps plan)).
Proof.
  intros Hlen. unfold plan_from_estimates.
  eapply goes_bind; [apply goes_finish, stale_run, name_reports_stale|]. intros reports _.
  eapply goes_bind; [apply estimate_goes|]. intros estimate _. intros a Ha.
  match goal with |- context [est_children ?node ?step ?ns ?acc ?rs] =>
    destruct (est_children_total (OE := OE) (h_hits host) node step ns acc rs) as (r & Hr & Hs) end.
  { rewrite Forall_forall in *. intros n Hn reports'. apply est_node_total. rewrite Hlen. by apply Hin. }
  rewrite Hr. destruct r as [[root nodes]|e].
  - eapply goes_bind; [apply indexed_goes; apply steady_within; by apply explain_greps_spec| |done].
    intros greps Hg. by apply goes_finish.
  - exists (Err e), a. split; [done|]. left. exact (stale_run (A := _) _ Hs).
Qed.
Context (steps fuel : nat) (Hsteps : N.to_nat (2 ^ 32) < steps) (Hfuel : query_height + N.to_nat (2 ^ 32) + 2 <= fuel).
Context (Hnames : forall d, exists row, names_of (h_names host) d = Some row).

(** The candidates of the content side: every live document the driver holds
    on, and their names; and of the name side. *)
Definition content_found (tree : Node Test) (found : list u32 * list u32) : Prop :=
  StronglySorted N.lt found.2 /\ (forall d, d ∈ found.2 -> is_live p d) /\
  (forall d, is_live p d -> tree_on tree d = true -> d ∈ found.2) /\
  exists rows, Forall2 (fun d row => names_of (h_names host) d = Some row) found.2 rows /\ found.1 = sort_by cmp_le (concat rows).
Definition name_found (found : list u32 * list u32) : Prop :=
  exists rows, h_rows host = Ok rows /\ found.1 = rows.*1 /\ StronglySorted N.lt found.2 /\ forall d, d ∈ found.2 <-> Some d ∈ rows.*2.

Lemma atom_below a : a ∈ atoms q -> atom_height a <= atoms_height.
Proof. apply max_part. Qed.

Lemma atoms_height_pos : 1 <= atoms_height.
Proof. apply max_base. Qed.

Lemma base_below : S atoms_height <= query_height.
Proof. apply le_n_S, max_base. Qed.

Lemma tree_below tree : tree ∈ residual q -> S (plan_height atoms_height tree) <= query_height.
Proof. intros Ht. apply le_n_S. by apply (max_part (plan_height atoms_height)). Qed.

Lemma top_spec tree reads : Forall2 (atom_read p) (atoms q) reads -> tree ∈ residual q ->
  runs no_error (plan_compile ck steps fuel reads p tree)
    (fun cur => ok (pinned_top p cur) 0 /\ fuel_for (pinned_top p cur) <= fuel /\
       (forall d, den (pinned_top p cur) d <> None -> is_live p d) /\
       forall d, is_live p d -> tree_on tree d = true -> den (pinned_top p cur) d <> None).
Proof.
  intros Hreads Ht. pose proof (tree_below tree Ht) as Hbelow. pose proof atoms_height_pos as H1.
  pose proof (plan_height_base atoms_height tree) as Hbase.
  eapply runs_mono.
  { apply (compile_spec p ck steps fuel Hsteps (atoms q) reads Hreads atoms_height) with (b := doc_test); [|done|..].
    - apply Forall_forall, atom_below.
    - intros i a d Ha. unfold doc_test. by rewrite Ha.
    - rewrite Forall_forall in Hin. by apply Hin.
    - lia. }
  intros cur (Hok & Hht & Hd). destruct (live_yes p) as [Hyok Hyd]. unfold pinned_top, fuel_for.
  split; [by apply filter_ok|]. pose proof (filter_height cur (bits (live p) CYes)) as Hfh.
  change (height (bits (live p) CYes)) with 1 in Hfh. split; [lia|]. split; intros d.
  - rewrite filter_den, kand_some, bits_den. intros [_ Hl]. unfold is_live. by destruct (mem (live p) d).
  - intros Hl Hh. rewrite filter_den, kand_some, Hyd by done. split; [|done].
    specialize (Hd d Hl). apply refines_iff in Hd as [Hd _]. by apply Hd.
Qed.

Lemma content_side_spec tree reads : Forall2 (atom_read p) (atoms q) reads -> tree ∈ residual q ->
  steady any_error (cur <- within (plan_compile ck steps fuel reads p tree);
                    content_candidates ck steps fuel (h_cancellable host) (h_names host) (pinned_top p cur)) (content_found tree).
Proof.
  intros Hreads Ht. eapply steady_bind.
  { apply steady_within. eapply runs_weaken; [by apply top_spec|done]. }
  intros cur (Hok & Hf & Hlive & Hall). eapply steady_weaken with (E := no_error); [|done].
  eapply steady_mono; [by apply candidates_spec|]. intros found (Hs & Hd & Hr). split; [done|].
  split; [intros d Hx; by apply Hlive, Hd|]. split; [|done]. intros d Hl Hh. by apply Hd, Hall.
Qed.

Lemma name_side_spec rows : h_rows host = Ok rows -> steady any_error (name_candidates ck rows) name_found.
Proof.
  intros Hr. unfold name_candidates. do 3 apply steady_check. apply steady_done. exists rows. cbn [fst snd]. split_and!; [done..| |].
  - apply cmp_ascending, dedup_sorted, sort_by_sorted.
  - intros d. rewrite elem_of_dedup, sort_by_perm, list_elem_of_omap. rewrite list_elem_of_fmap. split.
    + intros ([id o] & Hx & Ho). cbn in Ho. subst o. by exists (id, Some d).
    + intros ([id o] & Ho & Hx). cbn in Ho. subst o. by exists (id, Some d).
Qed.
(** The cells of a table: on a live document, the atom's truth within its
    certainty. *)
Definition table_of (docs : list u32) (table : list (option Certainty)) : Prop :=
  length table = length docs * length (atoms q) /\
  forall i j a d, atoms q !! i = Some a -> docs !! j = Some d -> is_live p d ->
    exists cell, table !! (j * length (atoms q) + i) = Some cell /\
      (cell = Some CYes -> doc_holds a d = true) /\ (cell = None -> doc_holds a d = false).

Definition read_cursor (r : ReadAtom) (cur : Cursor) : Prop :=
  ok cur 0 /\ fuel_for cur <= fuel /\
  forall a, a ∈ atoms q /\ atom_read p a r -> answers_on p (atom_height a) (doc_holds a) cur.

Lemma read_cursor_spec a r : a ∈ atoms q -> atom_read p a r ->
  runs no_error (atom_cursor_until ck steps fuel r p) (read_cursor r).
Proof.
  intros Ha Hr. assert (Hfuels : forall b, b ∈ atoms q -> atom_height b + N.to_nat (2 ^ 32) + 2 <= fuel).
  { intros b Hb. pose proof (atom_below b Hb). pose proof base_below. lia. }
  eapply runs_mono.
  { apply (runs_all no_error _ (fun b => b ∈ atoms q /\ atom_read p b r) (fun b => answers_on p (atom_height b) (doc_holds b)) a); [done|].
    intros b [Hb Hbr]. apply (atom_cursor_spec p ck steps fuel Hsteps b r Hbr). by apply Hfuels. }
  intros cur Hall. destruct (Hall a (conj Ha Hr)) as (Hok & Hht & _). split; [done|]. split; [|done].
  unfold fuel_for. specialize (Hfuels a Ha). lia.
Qed.

Lemma table_spec reads docs : Forall2 (atom_read p) (atoms q) reads -> StronglySorted N.lt docs ->
  steady any_error (probe ck steps fuel (h_cancellable host) reads docs p) (table_of docs).
Proof.
  intros Hreads Hs. pose proof (Forall2_length _ _ _ Hreads) as Hlen. eapply steady_weaken with (E := no_error); [|done].
  eapply steady_mono; [apply probe_spec with (Q := read_cursor)|].
  - clear -Hs. induction Hs as [|d l _ IH Hd]; constructor; [done|]. eapply Forall_impl; [exact Hd|]. intros; lia.
  - apply Forall_forall. intros r [i Hi]%list_elem_of_lookup. destruct (Forall2_lookup_r _ _ _ _ _ Hreads Hi) as (a & Ha & Hr).
    apply (read_cursor_spec a); [by eapply list_elem_of_lookup_2|done].
  - by intros r cur (? & ? & _).
  - intros table (Htl & curs & HQ & Hcells). rewrite <- Hlen in *. split; [done|]. intros i j a d Ha Hd Hl.
    destruct (Forall2_lookup_l _ _ _ _ _ Hreads Ha) as (r & Hr & Har). destruct (Forall2_lookup_l _ _ _ _ _ HQ Hr) as (cur & Hcur & _ & _ & Hans).
    exists (den cur d). split; [by apply Hcells|]. destruct (Hans a) as (_ & _ & Htruth); [split; [by eapply list_elem_of_lookup_2|done]|].
    destruct (proj1 (refines_iff _ _) (Htruth d Hl)) as [T1 T2]. split; [exact T2|]. intros Hn. destruct (doc_holds a d); [|done].
    by destruct (T1 eq_refl).
Qed.

(** What a run hands to verification. *)
Definition prepared_ok (pr : Prepared) : Prop :=
  pr_width pr = length (atoms q) /\ table_of (pr_docs pr) (pr_table pr) /\
  if pr_content pr then
    exists tree, tree ∈ residual q /\ is_content tree = true /\ Expr.holds (fun _ => false) tree = false /\ content_found tree (pr_ids pr, pr_docs pr)
  else name_found (pr_ids pr, pr_docs pr).

Lemma found_spec reads (driver : option (Node Test)) : Forall2 (atom_read p) (atoms q) reads ->
  match driver with Some tree => tree ∈ residual q | None => True end ->
  goes (ck := ck) run_error
    (match driver with
     | Some tree =>
         indexed_run ck (cur <- within (plan_compile ck steps fuel reads p tree);
                         content_candidates ck steps fuel (h_cancellable host) (h_names host) (pinned_top p cur))
     | None => running ck (finish ck (h_rows host)) (fun rows => indexed_run ck (name_candidates ck rows))
     end)
    (match driver with Some tree => content_found tree | None => name_found end).
Proof.
  intros Hreads Hd. destruct driver as [tree|].
  - by apply indexed_goes, content_side_spec.
  - eapply goes_bind with (P := fun rows => h_rows host = Ok rows); [apply goes_finish|].
    + destruct (h_rows host) as [rows|e] eqn:Hr; [done|]. left. right. by left.
    + intros rows Hr. by apply indexed_goes, name_side_spec.
Qed.

Lemma prepare_spec : goes (ck := ck) run_error (prepare ck steps fuel q host p) prepared_ok.
Proof.
  unfold prepare. destruct (match h_bound host with Some bound => (bound <? len (uncovered p))%N | None => false end) eqn:Hbound.
  { apply goes_finish. right. destruct (h_bound host) as [bound|] eqn:Hb; [|done]. exists bound. by apply N.ltb_lt in Hbound. }
  eapply goes_bind; [apply indexed_goes, steady_within; by apply estimate_atoms_spec|]. intros estimates Hest.
  eapply goes_bind; [by apply plan_spec|]. intros plan Hgreps.
  destruct (match h_bound host with Some _ => (live_len p / 4 <? b_maybe (pl_root plan))%N | None => false end) eqn:Hscan.
  { apply goes_finish. right. destruct (h_bound host) as [bound|] eqn:Hb; [|done]. apply N.ltb_lt in Hscan. split; [congruence|done]. }
  eapply goes_bind with (P := fun driver => match driver with
    | Some tree => tree ∈ residual q /\ is_content tree = true /\ Expr.holds (fun _ => false) tree = false | None => True end).
  { apply goes_value. destruct (content_driver_spec (ST := ST) estimates (live_len p) (residual q) (h_name_estimate host)) as (r & Hr & Hspec).
    - by rewrite Hest.
    - exists r. split; [done|]. destruct r as [[tree|]|e]; [done..|]. left. by left. }
  intros driver Hdriver. eapply goes_bind; [apply indexed_goes, steady_within; by apply read_atoms_spec|]. intros reads Hreads.
  eapply goes_bind with (P := fun _ => True).
  { apply goes_finish. destruct (h_load host) as [u|e] eqn:Hload; [done|]. left. right. by right. }
  intros _ _. eapply goes_bind; [apply (found_spec reads driver Hreads); by destruct driver as [tree|]; [destruct Hdriver|]|].
  intros [ids docs] Hfound. eapply goes_bind; [apply indexed_goes, (table_spec reads docs Hreads); destruct driver as [tree|];
    [by destruct Hfound|by destruct Hfound as (? & _ & _ & ? & _)]|].
  intros table Htable. apply goes_finish. cbn [fst snd]. split; [symmetry; by eapply Forall2_length|]. split; [done|].
  cbn [pr_content pr_ids pr_docs]. destruct driver as [tree|]; [|done]. exists tree. naive_solver.
Qed.
End whole.

(** ** Properties *)

Lemma leaf_of_part `{Engines} (ns : list (Node Test)) n i : n ∈ ns -> i ∈ content_leaves n -> i ∈ concat (map content_leaves ns).
Proof.
  intros Hn Hi. apply elem_of_concat. exists (content_leaves n). split; [|done]. by apply (list_elem_of_fmap_2 content_leaves).
Qed.

Lemma leaves_named `{Engines} n tree : (forall i, i ∈ content_leaves tree -> i < n) -> leaves_in n tree = true.
Proof.
  unfold leaves_in. induction tree as [l|all IH|any IH|m IH] using Node_ind'; cbn [content_leaves all_leaves]; intros Hl.
  - destruct l; try done. apply Nat.ltb_lt, Hl. left.
  - apply forallb_forall. intros m Hm%list_elem_of_In. rewrite Forall_forall in IH. apply (IH m Hm). intros i Hi. by apply Hl, (leaf_of_part _ m).
  - apply forallb_forall. intros m Hm%list_elem_of_In. rewrite Forall_forall in IH. apply (IH m Hm). intros i Hi. by apply Hl, (leaf_of_part _ m).
  - by apply IH.
Qed.

Lemma query_leaves `{Engines, Cpu} args t0 q : from_args args t0 = Some (Ok q) ->
  Forall (fun tree => leaves_in (length (atoms q)) tree = true) (residual q).
Proof.
  intros [tree0 ->]%from_args_query_of. destruct (query_of_indexed t0 tree0) as [Hseq _]. apply Forall_forall. intros tree Ht.
  apply leaves_named. intros i Hi. assert (Hin : i ∈ concat (map content_leaves (residual (query_of t0 tree0)))).
  { by apply (leaf_of_part _ tree). }
  rewrite Hseq in Hin. apply elem_of_seq in Hin. lia.
Qed.

(** A plan bounds: its root the documents with a selected name that every
    residual tree may hold on, its nodes their trees. *)
Definition plan_bounded `{Engines} (docs : list u32) (leaf : Test -> u32 -> Truth) (named : u32 -> Truth) (trees : list (Node Test))
    (plan : ContentPlan) : Prop :=
  bounded docs (fun d => tmin (named d) (value leaf (NAnd trees) d)) (pl_root plan) /\
  Forall (report_bounded docs leaf) (pl_nodes plan).

Lemma no_trees_bounded `{Engines} docs leaf rs : Forall (fun r => n_tree r = None) rs -> Forall (report_bounded docs leaf) rs.
Proof. intros Hrs. eapply Forall_impl; [exact Hrs|]. unfold report_bounded. by intros r ->. Qed.

Lemma name_reports_none `{Engines} {OE ST} (hits : NameTest -> result u64 ST) lv tests reports reports' :
  name_reports (OE := OE) hits lv tests reports = Ok reports' -> Forall (fun r => n_tree r = None) reports ->
  Forall (fun r => n_tree r = None) reports'.
Proof.
  revert reports. induction tests as [|t tests IH]; intros reports; cbn [name_reports]; [by intros [= <-]|].
  destruct (est_name hits lv t); [|done]. intros Hr Hn. apply (IH _ Hr). apply Forall_app. split; [done|]. by apply Forall_singleton.
Qed.

(** C33: what a plan says before it reads holds: when the leaves' estimates
    bound the documents a leaf may hold on and those it leaves undecided, so
    does [estimate] for every tree, so does every node the dictionary plan
    reports, and so does its root for the documents that have a name the
    name tests select and that every residual tree may hold on. *)
Theorem plan_bounds_hold (HI : Intpack) (HSeg : Segment) (HB : SegmentBounds) (HE : Engines) (HC : Contents) (ck : Checkpoint)
    (OE ST : Type) (q : Query) (host : Host (OE := OE) (ST := ST)) (p : Pinned) (docs : list u32) (Hlive : live_len p = N.of_nat (length docs))
    (Hfew : (live_len p <= u64_max)%N) (leaf : Test -> u32 -> Truth) (estimates : list (u64 * Certainty * u64))
    (Hleaves : leaves_bounded docs leaf estimates (h_hits host)) (named : u32 -> Truth) (names : u64)
    (Hest : h_name_estimate host = Ok names) (Hnames : (possibly docs named <= names)%N) (Hdec : forall d, named d <> Maybe) :
  (forall tree n, estimate estimates (live_len p) tree = Some n -> (possibly docs (value leaf tree) <= n)%N) /\
  forall a plan a', plan_from_estimates ck q host p estimates a = Some (Ok plan, a') ->
    plan_bounded docs leaf named (residual q) plan.
Proof.
  rewrite Hlive in Hfew. split; [intros tree n; rewrite Hlive; by eapply estimate_bound|]. intros a plan a'.
  unfold plan_from_estimates, running, finish. rewrite Hest, Hlive.
  destruct (name_reports _ _ _ _) as [rs|e] eqn:Hrs; [|done]. apply name_reports_none in Hrs; [|constructor].
  match goal with |- context [est_children ?node ?step ?ns ?acc ?reports] =>
    pose proof (children_estimated docs leaf node step tmin Yes ns) as Hch; set (start := reports); set (first := acc) end.
  assert (Hacc : bounded docs named first).
  { split; cbn; [pose proof (possibly_live docs named); lia|]. by rewrite undecided_none. }
  specialize (Hch ltac:(intros; by apply bounded_and) ltac:(by intros [] [] []) ltac:(by intros [])
    ltac:(apply Forall_forall; intros n _ reports; by apply est_node_bound) named first start Hacc).
  destruct (est_children _ _ _ _ _) as [[[root nodes]|e]|]; [|done..]. intros Hplan.
  destruct (Hch root nodes eq_refl) as [Hroot (added & -> & Hadded)].
  destruct (indexed_run ck _ a) as [[[greps|e] a1]|]; [|done..]. injection Hplan as <- <-. cbn [pl_root pl_nodes]. split; [exact Hroot|].
  apply Forall_app. split; [|done]. apply no_trees_bounded. unfold start. rewrite !Forall_app.
  split_and!; [done|..]; apply Forall_forall; by intros r [-> _]%elem_of_replicate.
Qed.

(** C8: a content query loses no document.  Over a view that indexes the
    documents it covers, a query read from its arguments runs up to
    verification without a panic: it ends with an error of the catalog, of
    the name index or of a segment, with [ReIncomplete] or [ReScan] exactly
    under the caller's bound, with [Cancelled] once the cancellation
    answered, or with its candidates.  On the content side they are, in
    ascending order, live documents, among them every one the driving tree
    holds on, with all their names sorted, and no entry without a document
    satisfies that tree; on the name side they are the rows' documents.  The
    table gives every atom's certainty on every live candidate: Yes only
    where the atom holds, and None only where it does not. *)
Theorem content_plan_loses_nothing (HI : Intpack) (HIL : IntpackLaws HI) (HSeg : Segment) (HSL : SegmentLaws HSeg)
    (HSC : SegmentCancels) (HB : SegmentBounds) (HE : Engines) (HC : Contents) (HCo : Corpus) (HCL : CorpusLaws) (HCpu : Cpu)
    (p : Pinned) (Hp : pinned_wf p) (Hix : indexes p) (ck : Checkpoint) (HF : StopFlag ck) (HS : Sticky ck HF)
    (OE ST : Type) (args : list (list u8)) (t0 : Z) (q : Query) (Hq : from_args args t0 = Some (Ok q))
    (host : Host (OE := OE) (ST := ST)) (Hnames : forall d, exists row, names_of (h_names host) d = Some row)
    (steps fuel : nat) (Hsteps : N.to_nat (2 ^ 32) < steps) (Hfuel : query_height q + N.to_nat (2 ^ 32) + 2 <= fuel) (c : ck_state ck) :
  exists r a, content_until ck steps fuel q host p (advance_new c) = Some (r, a) /\
    match r with
    | Ok None => atoms q = []
    | Ok (Some pr) => prepared_ok p q host pr
    | Err e => run_error p host e \/ e = ReIndex Cancelled /\ stopped (adv_inner a)
    end.
Proof.
  assert (Hrun : goes (ck := ck) (run_error p host) (content_until ck steps fuel q host p)
                   (fun r => match r with Some pr => prepared_ok p q host pr | None => atoms q = [] end)).
  { unfold content_until. eapply goes_bind with (P := fun _ => True).
    { apply indexed_goes. pose proof (steady_check any_error (fun _ => done tt) (fun _ => True) (steady_done _ _ _ I)) as Hc.
      intros a Ha. specialize (Hc a Ha). unfold and_then in Hc. by destruct (check (asking ck) a) as [[[[]|e] a']|]. }
    intros _ _. unfold has_content. rewrite negb_involutive. destruct (is_empty (atoms q)) eqn:He.
    { apply goes_finish. by destruct (atoms q). }
    eapply goes_bind; [apply prepare_spec; done || by eapply query_leaves|]. intros pr Hpr. by apply goes_finish. }
  destruct (Hrun (advance_new c) eq_refl) as (r & a & Heq & Hr). exists r, a. split; [done|].
  destruct r as [[pr|]|e]; [by destruct Hr..|done].
Qed.



(** ** A small run

    Over the index of [CandidatesSpec]'s samples. *)
#[local] Existing Instance CandidatesSpec.sample_engines.
#[local] Existing Instance CandidatesSpec.sample_contents.
#[local] Existing Instance CandidatesSpec.sample_corpus.
#[local] Existing Instance CandidatesSpec.sample_corpus_laws.
#[local] Existing Instance CandidatesSpec.sample_segment.
#[local] Existing Instance CandidatesSpec.sample_bounds.
#[local] Existing Instance CandidatesSpec.sample_segment_laws.
#[local] Existing Instance CandidatesSpec.sample_cancels.
#[local] Existing Instance CandidatesSpec.sample_pinned_wf.
#[local] Existing Instance plain_intpack.
#[local] Existing Instance plain_intpack_laws.
#[local] Instance sample_run_cpu : Cpu := true.

Definition run_args : list (list u8) := args_of ["text:log"; "NOT"; "text:err"].
Definition run_query : Query := match from_args run_args 0 with Some (Ok q) => q | _ => empty_query 0 end.
Definition run_names : DocNames := mkDocNames (mkBase [] []) (list_to_map [(3, [7]); (5, [4; 9]); (8, [2])]%N).
Definition run_host : Host (OE := unit) (ST := unit) :=
  mkHost run_names None (Ok 10%N) (fun _ => Ok 0%N) (Ok []) (Ok tt) false.

(** The driver is "log": documents 3 and 5 hold it and 8 is not covered; "err"
    is known not to hold on 5. *)
Example sample_prepared :
  match content_until never 40 40 run_query run_host sample_pinned (advance_new (ck := never) tt) with
  | Some (Ok (Some pr), _) => Some (pr_content pr, pr_ids pr, pr_docs pr, pr_table pr)
  | _ => None
  end = Some (true, [2; 4; 7; 9]%N, [3; 5; 8]%N, [Some CYes; Some CYes; Some CYes; None; Some CMaybe; Some CMaybe]).
Proof. vm_compute. reflexivity. Qed.

Lemma run_query_args : from_args run_args 0 = Some (Ok run_query).
Proof. vm_compute. reflexivity. Qed.

Lemma run_names_total d : exists row, names_of run_names d = Some row.
Proof. unfold names_of. destruct (overrides run_names !! d) as [row|]; [by exists row|]. exists []. by cbn. Qed.

Lemma run_fuel_enough : query_height run_query + N.to_nat (2 ^ 32) + 2 <= sample_fuel.
Proof.
  assert (Hh : query_height run_query = 69) by (vm_compute; reflexivity). rewrite Hh. unfold sample_fuel. lia.
Qed.

Lemma content_plan_loses_nothing_witness :
  exists r a, content_until never sample_steps sample_fuel run_query run_host sample_pinned (advance_new (ck := never) tt) = Some (r, a) /\
    match r with
    | Ok None => atoms run_query = []
    | Ok (Some pr) => prepared_ok sample_pinned run_query run_host pr
    | Err e => run_error sample_pinned run_host e \/ e = ReIndex Cancelled /\ @stopped never never_flag (adv_inner a)
    end.
Proof.
  exact (content_plan_loses_nothing _ _ _ _ _ _ _ _ _ _ _ sample_pinned _ sample_indexes never never_flag _ unit unit
           run_args 0 run_query run_query_args run_host run_names_total sample_steps sample_fuel (Nat.lt_succ_diag_r _)
           run_fuel_enough tt).
Defined.

(** The truths the leaves' estimates bound: atom 0 may hold on 3, 5 and 8 and
    is undecided on 8; atom 1 holds on 3 and is undecided on 8. *)
Definition run_leaf (t : Test) (d : u32) : Truth :=
  match t with
  | TContent 0 => if (d =? 8)%N then Maybe else Yes
  | TContent 1 => if (d =? 3)%N then Yes else if (d =? 8)%N then Maybe else No
  | TContent _ => No
  | _ => Yes
  end.
Definition run_estimates : list (u64 * Certainty * u64) := [(3, CMaybe, 1); (2, CMaybe, 1)]%N.
Definition run_hits (_ : NameTest) : result u64 unit := Ok 3%N.
Definition bounds_host : Host (OE := unit) (ST := unit) :=
  mkHost run_names None (Ok 10%N) run_hits (Ok []) (Ok tt) false.

Lemma run_leaves : leaves_bounded [3; 5; 8]%N run_leaf run_estimates run_hits.
Proof.
  split.
  - intros [|[|i]] e He; [injection He as <-; by vm_compute..|done].
  - intros t n [= <-]. by vm_compute.
  - intros [t|t|t|i] d Hi; [done..|by destruct (Hi i)].
Qed.

Lemma plan_bounds_hold_witness :
  (forall tree n, estimate run_estimates (live_len sample_pinned) tree = Some n ->
     (possibly [3; 5; 8]%N (value run_leaf tree) <= n)%N) /\
  forall a plan a', plan_from_estimates never run_query bounds_host sample_pinned run_estimates a = Some (Ok plan, a') ->
    plan_bounded [3; 5; 8]%N run_leaf (fun _ => Yes) (residual run_query) plan.
Proof.
  apply (plan_bounds_hold _ _ _ _ _ never unit unit run_query bounds_host sample_pinned [3; 5; 8]%N (eq_refl _) ltac:(by vm_compute)
           run_leaf run_estimates run_leaves (fun _ => Yes) 10%N eq_refl ltac:(by vm_compute) ltac:(done)).
Defined.
