(* ===== verification/BTree.v ===== *)
(** * BTree: ordered maps and sets

    [BTreeMap] and [BTreeSet] as the sorted lists their iterators give, over
    an [Ord] key; and what sorting by a total preorder gives. *)
From S2P Require Import Prelude Trigrams.

Section maps.
Context {K V : Type} `{Ord K}.
#[local] Abbreviation Map := (list (K * V)) (only parsing).

(** [BTreeMap::insert], [get] and [remove]. *)
Fixpoint bt_insert (k : K) (v : V) (m : Map) : Map :=
  match m with
  | [] => [(k, v)]
  | (k', v') :: m' =>
      match cmp k k' with
      | Lt => (k, v) :: m
      | Eq => (k, v) :: m'
      | Gt => (k', v') :: bt_insert k v m'
      end
  end.
Fixpoint bt_get (k : K) (m : Map) : option V :=
  match m with
  | [] => None
  | (k', v) :: m => match cmp k k' with Eq => Some v | _ => bt_get k m end
  end.
Definition bt_remove (k : K) (m : Map) : Map := filter (fun e => cmp k e.1 <> Eq) m.

(** [collect] from an iterator: a later pair replaces an earlier one. *)
Definition bt_collect (l : list (K * V)) : Map := fold_left (fun m e => bt_insert e.1 e.2 m) l [].
End maps.

(** [BTreeSet::insert], with whether the value is new. *)
Fixpoint bs_insert {A} `{Ord A} (x : A) (s : list A) : bool * list A :=
  match s with
  | [] => (true, [x])
  | y :: s' =>
      match cmp x y with
      | Lt => (true, x :: s)
      | Eq => (false, s)
      | Gt => let '(new, s') := bs_insert x s' in (new, y :: s')
      end
  end.
Definition bs_add {A} `{Ord A} (s : list A) (x : A) : list A := (bs_insert x s).2.

Section laws.
Context {K V : Type} `{OrdLaws K}.

Implicit Types (m : list (K * V)) (k : K) (v : V).

(** Pairs in key order. *)
Definition bt_ok (m : list (K * V)) : Prop := StronglySorted (fun a b => cmp a.1 b.1 = Lt) m.

Lemma bt_get_elem m k v : bt_ok m -> bt_get k m = Some v <-> (k, v) ∈ m.
Proof.
  induction 1 as [|[k' v'] m _ IH Hx]; cbn [bt_get]; [by rewrite elem_of_nil|]. rewrite elem_of_cons.
  rewrite Forall_forall in Hx. destruct (cmp k k') eqn:E.
  - apply cmp_eq in E as ->. split; [intros [= ->]; by left|]. intros [[= ->]|Hin]; [done|].
    specialize (Hx _ Hin). cbn in Hx. by rewrite (proj2 (cmp_eq k' k') eq_refl) in Hx.
  - rewrite IH. split; [by right|]. intros [[= -> ->]|Hin]; [|done]. by rewrite (proj2 (cmp_eq k' k') eq_refl) in E.
  - rewrite IH. split; [by right|]. intros [[= -> ->]|Hin]; [|done]. by rewrite (proj2 (cmp_eq k' k') eq_refl) in E.
Qed.

Lemma bt_insert_elem m k v e : e ∈ bt_insert k v m -> e = (k, v) \/ e ∈ m.
Proof.
  induction m as [|[k' v'] m IH]; cbn [bt_insert]; [set_solver|]. destruct (cmp k k'); set_solver.
Qed.

Lemma bt_insert_ok m k v : bt_ok m -> bt_ok (bt_insert k v m).
Proof.
  induction 1 as [|[k' v'] m Hm IH Hx]; cbn [bt_insert]; [by repeat constructor|]. rewrite Forall_forall in Hx. destruct (cmp k k') eqn:E.
  - apply cmp_eq in E as ->. constructor; [done|by apply Forall_forall].
  - constructor; [constructor; [done|by apply Forall_forall]|]. apply Forall_forall. intros e [->|He]%elem_of_cons; [done|].
    cbn. eapply cmp_trans; [exact E|by apply Hx].
  - constructor; [done|]. apply Forall_forall. intros e [->|He]%bt_insert_elem; [|by apply Hx].
    cbn. rewrite (cmp_antisym k k'), E. done.
Qed.

Lemma bt_get_insert m k v k' : bt_ok m -> bt_get k' (bt_insert k v m) = match cmp k' k with Eq => Some v | _ => bt_get k' m end.
Proof.
  intros Hm. induction Hm as [|[k2 v2] m Hm IH Hx]; cbn [bt_insert bt_get]; [done|]. destruct (cmp k k2) eqn:E.
  - apply cmp_eq in E as ->. cbn [bt_get]. by destruct (cmp k' k2).
  - done.
  - cbn [bt_get]. rewrite IH. destruct (cmp k' k2) eqn:E2; [|done..]. apply cmp_eq in E2 as ->.
    destruct (cmp k2 k) eqn:E3; [|done..]. apply cmp_eq in E3 as ->. by rewrite (proj2 (cmp_eq k k) eq_refl) in E.
Qed.

Lemma bt_remove_ok m k : bt_ok m -> bt_ok (bt_remove k m).
Proof.
  unfold bt_remove. induction 1 as [|e m _ IH Hx]; [constructor|]. rewrite filter_cons. case_decide; [|done]. constructor; [done|].
  apply Forall_forall. intros x [_ Hin]%list_elem_of_filter. rewrite Forall_forall in Hx. by apply Hx.
Qed.

Lemma bt_get_remove (m : list (K * V)) k k' : bt_get k' (bt_remove k m) = match cmp k' k with Eq => None | _ => bt_get k' m end.
Proof.
  unfold bt_remove. induction m as [|[k2 v2] m IH]; [by destruct (cmp k' k)|]. rewrite filter_cons. cbn [fst bt_get]. case_decide as Hd; cbn [bt_get].
  - rewrite IH. destruct (cmp k' k2) eqn:E; [|done..]. apply cmp_eq in E as ->. rewrite (cmp_antisym k k2). by destruct (cmp k k2).
  - rewrite IH. destruct (cmp k k2) eqn:E; [|discriminate Hd..]. apply cmp_eq in E as ->. by destruct (cmp k' k2).
Qed.

(** What is collected: the last pair of each key. *)
Lemma bt_collect_snoc (l : list (K * V)) e : bt_collect (l ++ [e]) = bt_insert e.1 e.2 (bt_collect l).
Proof. unfold bt_collect. by rewrite fold_left_app. Qed.

Lemma bt_collect_ok (l : list (K * V)) : bt_ok (bt_collect l).
Proof. induction l as [|e l IH] using rev_ind; [constructor|]. rewrite bt_collect_snoc. by apply bt_insert_ok. Qed.

Lemma bt_collect_get (l : list (K * V)) k :
  bt_get k (bt_collect l) = snd <$> last (filter (fun e => cmp k e.1 = Eq) l).
Proof.
  induction l as [|e l IH] using rev_ind; [done|]. rewrite bt_collect_snoc, bt_get_insert by apply bt_collect_ok.
  rewrite filter_app, filter_cons, filter_nil. destruct (cmp k e.1) eqn:E; case_decide; try done.
  - by rewrite last_snoc.
  - by rewrite app_nil_r.
  - by rewrite app_nil_r.
Qed.

Lemma bt_keys_nodup (m : list (K * V)) : bt_ok m -> NoDup m.*1.
Proof.
  induction 1 as [|[k v] m _ IH Hx]; [constructor|]. rewrite fmap_cons. constructor; [|done].
  intros ([k' v'] & Hk & Hin)%list_elem_of_fmap. rewrite Forall_forall in Hx. specialize (Hx _ Hin). cbn in *. subst.
  by rewrite (proj2 (cmp_eq k' k') eq_refl) in Hx.
Qed.
(** Pairs already in key order are collected as they are. *)
Lemma bt_insert_last m k v : Forall (fun e => cmp e.1 k = Lt) m -> bt_insert k v m = m ++ [(k, v)].
Proof.
  induction 1 as [|[k' v'] m Hx _ IH]; [done|]. cbn [bt_insert fst] in *. by rewrite (cmp_antisym k' k), Hx, IH.
Qed.
Lemma bt_collect_sorted m : bt_ok m -> bt_collect m = m.
Proof.
  induction m as [|[k v] m IH] using rev_ind; [done|]. intros Hm. apply StronglySorted_app in Hm as (Hlt & Hm & _). rewrite bt_collect_snoc, (IH Hm).
  apply bt_insert_last, Forall_forall. intros e He. by apply (Hlt e (k, v)); [|left].
Qed.
End laws.

(** Items collected by the key of their row: the last item of each row. *)
Section rows.
Context {K R : Type} `{OrdLaws K} `{!EqDecision K} (row : R -> option K).

Definition of_row (k : K) (r : R) : Prop := row r = Some k.
#[export] Instance of_row_dec k r : Decision (of_row k r).
Proof. unfold of_row. apply _. Defined.
Definition bt_rows (rs : list R) : list (K * R) := bt_collect (omap (fun r => k ← row r; Some (k, r)) rs).

Lemma bt_rows_get rs k : bt_get k (bt_rows rs) = last (filter (of_row k) rs).
Proof.
  unfold bt_rows. rewrite bt_collect_get. induction rs as [|r rs IH] using rev_ind; [done|].
  rewrite omap_app, !filter_app. cbn [omap list_omap]. destruct (row r) as [k'|] eqn:Er; cbn [mbind option_bind].
  - rewrite !filter_cons, !filter_nil. cbn [fst]. case_decide as H1; case_decide as H2; unfold of_row in H2.
    + by rewrite !last_snoc.
    + apply cmp_eq in H1. cbn in H1. congruence.
    + exfalso. apply H1, cmp_eq. cbn. congruence.
    + by rewrite !app_nil_r.
  - rewrite !filter_cons, !filter_nil. case_decide as H2; [unfold of_row in H2; congruence|]. by rewrite !app_nil_r.
Qed.

Lemma bt_rows_row rs k r : bt_get k (bt_rows rs) = Some r -> row r = Some k /\ r ∈ rs.
Proof. rewrite bt_rows_get. intros Hl%last_Some_elem_of. by apply list_elem_of_filter in Hl. Qed.

Lemma bt_rows_ok rs : bt_ok (bt_rows rs).
Proof. apply bt_collect_ok. Qed.

Lemma bt_rows_elem rs k r : (k, r) ∈ bt_rows rs -> row r = Some k /\ r ∈ rs.
Proof. intros Hin. apply bt_rows_row, bt_get_elem; [apply bt_rows_ok|done]. Qed.

(** Collecting what was collected changes nothing. *)
Lemma bt_rows_idem rs : bt_rows (bt_rows rs).*2 = bt_rows rs.
Proof.
  unfold bt_rows at 1. assert (Ho : omap (fun r => k ← row r; Some (k, r)) (bt_rows rs).*2 = bt_rows rs).
  { pose proof (bt_rows_elem rs) as He. induction (bt_rows rs) as [|[k r] l IH]; [done|]. rewrite fmap_cons. cbn [omap list_omap snd].
    destruct (He k r ltac:(by left)) as [-> _]. cbn [mbind option_bind]. rewrite IH; [done|]. intros k' r' Hin. apply He. by right. }
  rewrite Ho. apply bt_collect_sorted, bt_rows_ok.
Qed.

Lemma bt_rows_last rs k : last (filter (of_row k) (bt_rows rs).*2) = last (filter (of_row k) rs).
Proof. by rewrite <- !bt_rows_get, bt_rows_idem. Qed.

Lemma bt_rows_key rs k : k ∈ (bt_rows rs).*1 <-> bt_get k (bt_rows rs) <> None.
Proof.
  rewrite list_elem_of_fmap. split.
  - intros ([k' r] & -> & Hin). cbn. by rewrite (proj2 (bt_get_elem _ _ _ (bt_rows_ok rs)) Hin).
  - intros Hn. destruct (bt_get k _) as [r|] eqn:E; [|done]. exists (k, r). split; [done|]. by apply bt_get_elem; [apply bt_rows_ok|].
Qed.
End rows.

(** Keys replaced by others in the same order. *)
Lemma bt_insert_map {K K' V} `{Ord K, Ord K'} (f : K -> K') (k : K) (v : V) m :
  (forall e, e ∈ m -> cmp (f k) (f e.1) = cmp k e.1) ->
  bt_insert (f k) v ((fun e => (f e.1, e.2)) <$> m) = (fun e => (f e.1, e.2)) <$> bt_insert k v m.
Proof.
  induction m as [|[k' v'] m IH]; intros Hf; [done|]. rewrite fmap_cons. cbn [bt_insert fst snd]. pose proof (Hf (k', v') ltac:(by left)) as Hk. cbn [fst] in Hk. rewrite Hk.
  destruct (cmp k k'); [done|done|]. rewrite fmap_cons. cbn [fst snd]. f_equal. apply IH. intros e He. apply Hf. by right.
Qed.

(** ** Sorting by a total preorder *)

Section sorting.
Context {A : Type} (le : A -> A -> bool) (Htotal : forall a b, le a b = false -> le b a = true)
        (Htrans : forall a b c, le a b = true -> le b c = true -> le a c = true).

Lemma insert_total_sorted x l : StronglySorted (fun a b => le a b = true) l -> StronglySorted (fun a b => le a b = true) (insert_by le x l).
Proof.
  induction 1 as [|y l Hl IH Hy]; cbn; [by repeat constructor|]. destruct (le x y) eqn:E.
  - constructor; [by constructor|]. constructor; [done|]. eapply Forall_impl; [exact Hy|]. intros z. by apply Htrans.
  - constructor; [done|]. rewrite insert_by_perm. constructor; [by apply Htotal|done].
Qed.

Lemma sort_total_sorted l : StronglySorted (fun a b => le a b = true) (sort_by le l).
Proof. induction l as [|x l IH]; cbn; [constructor|]. by apply insert_total_sorted. Qed.
End sorting.

(** [windows(2)]: the neighbours, and what no two equal ones say of a sorted
    list. *)
Lemma elem_of_windows {A} (l : list A) w : w ∈ windows 2 l <-> exists i a b, l !! i = Some a /\ l !! S i = Some b /\ w = [a; b].
Proof.
  unfold windows. rewrite list_elem_of_fmap. split.
  - intros (i & -> & Hi%elem_of_seq). destruct (lookup_lt_is_Some_2 l i) as [a Ha]; [lia|]. destruct (lookup_lt_is_Some_2 l (S i)) as [b Hb]; [lia|].
    exists i, a, b. by rewrite (drop_S l a i Ha), (drop_S l b (S i) Hb).
  - intros (i & a & b & Ha & Hb & ->). exists i. apply lookup_lt_Some in Hb as Hlt. split; [|apply elem_of_seq; lia].
    by rewrite (drop_S l a i Ha), (drop_S l b (S i) Hb).
Qed.

Lemma neighbours_nodup {A} `{OrdLaws A} (l : list A) : StronglySorted (fun a b => cmp_le a b = true) l ->
  NoDup l <-> forall i a, l !! i = Some a -> l !! S i <> Some a.
Proof.
  intros Hs. split.
  - intros Hn i a Hi Hi'. pose proof (NoDup_lookup _ _ _ _ Hn Hi Hi'). lia.
  - induction Hs as [|x l Hl IH Hx]; intros Hn; [constructor|]. constructor; [|by apply IH; intros i a Hi; apply (Hn (S i))].
    intros Hin. destruct l as [|y l]; [by apply not_elem_of_nil in Hin|]. apply Forall_cons in Hx as [Hxy Hx]. apply StronglySorted_inv in Hl as [_ Hy].
    assert (Hyx : cmp_le y x = true).
    { apply elem_of_cons in Hin as [->|Hin]; [done|]. rewrite Forall_forall in Hy. by apply Hy. }
    apply (Hn 0 x eq_refl). cbn. f_equal. unfold cmp_le in Hxy, Hyx. rewrite (cmp_antisym x y) in Hyx.
    destruct (cmp x y) eqn:E; try done. apply cmp_eq in E. done.
Qed.

Section sets.
Context {A : Type} `{OrdLaws A}.

Definition bs_ok (s : list A) : Prop := StronglySorted (fun a b => cmp a b = Lt) s.

Lemma elem_of_bs_add (s : list A) x y : bs_ok s -> y ∈ bs_add s x <-> y = x \/ y ∈ s.
Proof.
  unfold bs_add. induction 1 as [|z s _ IH _]; cbn [bs_insert]; [set_solver|]. destruct (cmp x z) eqn:E; cbn [snd].
  - apply cmp_eq in E as ->. set_solver.
  - set_solver.
  - destruct (bs_insert x s) as [new s']. cbn [snd] in *. rewrite !elem_of_cons, IH. tauto.
Qed.

Lemma bs_add_ok (s : list A) x : bs_ok s -> bs_ok (bs_add s x).
Proof.
  induction 1 as [|z s Hs IH Hx]; [by repeat constructor|]. unfold bs_add in *. cbn [bs_insert]. destruct (cmp x z) eqn:E; cbn [snd].
  - by constructor.
  - constructor; [by constructor|]. constructor; [done|]. eapply Forall_impl; [exact Hx|]. intros y. by apply cmp_trans.
  - pose proof (elem_of_bs_add s x) as Hin. unfold bs_add in Hin. destruct (bs_insert x s) as [new s']. cbn [snd] in *. constructor; [done|].
    apply Forall_forall. intros y [->|Hy]%(Hin _ Hs); [by rewrite (cmp_antisym x z), E|]. rewrite Forall_forall in Hx. by apply Hx.
Qed.

(** A value above a set joins at its end. *)
Lemma bs_add_last (s : list A) x : Forall (fun y => cmp y x = Lt) s -> bs_add s x = s ++ [x].
Proof.
  induction 1 as [|y s Hy _ IH]; [done|]. unfold bs_add in *. cbn [bs_insert]. rewrite (cmp_antisym y x), Hy. cbn [CompOpp].
  destruct (bs_insert x s) as [new s']. cbn [snd] in *. by rewrite IH.
Qed.

Lemma bs_insert_new (s : list A) x : bs_ok s -> (bs_insert x s).1 = true <-> x ∉ s.
Proof.
  induction 1 as [|z s Hs IH Hx]; cbn [bs_insert]; [set_solver|]. rewrite not_elem_of_cons. rewrite Forall_forall in Hx. destruct (cmp x z) eqn:E.
  - apply cmp_eq in E as ->. cbn. split; [done|tauto].
  - cbn. split; [|done]. intros _. split; [intros ->; by rewrite (proj2 (cmp_eq z z) eq_refl) in E|].
    intros Hin. specialize (Hx x Hin). rewrite (cmp_antisym x z), E in Hx. done.
  - destruct (bs_insert x s) as [new s']. cbn [fst] in *. rewrite IH. split; [|tauto]. intros Hn. split; [|done].
    intros ->. by rewrite (proj2 (cmp_eq z z) eq_refl) in E.
Qed.
End sets.
