(* ===== verification/Runs.v ===== *)
(** * Runs: sorted runs, newest row wins

    Models [crates/ferret-catalog/src/overlay/runs.rs] and the paged id set of
    [overlay/ids.rs], on which the overlay keeps its rows.  A level is a run
    of rows in key order; inserting a transaction's rows carries them through
    the levels as a binary counter carries, and a lookup takes the row of the
    greatest sequence among one per run.

    [slice.binary_search_by] and [partition_point] are what they are documented
    to be on the sorted slices they are given here: the matching row, and the
    end of the prefix.  Weights count rows, and stay below [usize]'s bound for
    as long as the rows fit in memory; they are naturals here. *)
From S2P Require Import Prelude Word DocSet Trigrams BTree.

(** A pair's order, as [derive] and tuples give it. *)
#[export] Instance pair_ord {A B} `{Ord A, Ord B} : Ord (A * B) := fun a b =>
  match cmp a.1 b.1 with Eq => cmp a.2 b.2 | c => c end.

Section runs.
Context {K V : Type} `{Ord K}.

(** [Row], [Run] and [Runs]. *)
Record Row := mkRow { key : K; sequence : u64; value : V }.
Record Run := mkRun { weight : nat; rows : list Row }.
#[local] Abbreviation Runs := (list (option Run)) (only parsing).

(** [a.key == b.key]. *)
Definition key_eq (a b : K) : bool := match cmp a b with Eq => true | _ => false end.

(** [rows.dedup_by(|a, b| a.key == b.key)]: a row that repeats the key of the
    last one kept is dropped. *)
Fixpoint dedup_from (last : K) (l : list Row) : list Row :=
  match l with
  | [] => []
  | x :: l => if key_eq (key x) last then dedup_from last l else x :: dedup_from (key x) l
  end.
Definition dedup_rows (l : list Row) : list Row :=
  match l with [] => [] | x :: l => x :: dedup_from (key x) l end.

(** [sort_by(|a, b| a.key.cmp(&b.key))], and what an insertion makes of the
    rows it is given. *)
Definition by_key (a b : Row) : bool := cmp_le (key a) (key b).
Definition normalise (l : list Row) : list Row := dedup_rows (sort_by by_key (rev l)).

(** The merge of a carry. *)
Fixpoint merge (a : list Row) : list Row -> list Row :=
  fix go b :=
    match a, b with
    | [], b => b
    | a, [] => a
    | x :: a', y :: b' =>
        match cmp (key x) (key y) with
        | Lt => x :: merge a' b
        | Gt => y :: go b'
        | Eq => (if (sequence y <=? sequence x)%N then x else y) :: merge a' b'
        end
    end.

(** The loop of [Runs::insert]: [ilog2], the resize, and the carry. *)
Fixpoint carry (fuel : nat) (levels : Runs) (w : nat) (l : list Row) : option Runs :=
  match fuel with
  | 0 => None
  | S fuel =>
      let level := Nat.log2 w in
      let levels := if length levels <=? level then levels ++ replicate (S level - length levels) None else levels in
      match levels !! level with
      | None => None
      | Some None => Some (<[level := Some (mkRun w l)]> levels)
      | Some (Some old) => carry fuel (<[level := None]> levels) (w + weight old) (merge l (rows old))
      end
  end.

(** [Runs::insert]: each round finds a free level or moves to a higher one. *)
Definition insert_rows (self : Runs) (l : list Row) : option Runs :=
  if is_empty l then Some self else carry (S (length self)) self (length l) (normalise l).

(** [rows.binary_search_by(|r| f(&r.key))]. *)
Fixpoint binary_search (f : K -> comparison) (l : list Row) : option nat :=
  match l with
  | [] => None
  | x :: l => match f (key x) with Eq => Some 0 | _ => S <$> binary_search f l end
  end.

(** [max_by_key(|r| r.sequence)]: the last of the greatest. *)
Definition newest (l : list Row) : option Row :=
  match l with
  | [] => None
  | x :: l => Some (fold_left (fun best y => if (sequence best <=? sequence y)%N then y else best) l x)
  end.

(** [self.levels.iter().flatten()]. *)
Definition runs_of (self : Runs) : list Run := omap id self.

(** [Runs::get_by], and [get]. *)
Definition probe_run (f : K -> comparison) (run : Run) : option Row :=
  if match head (rows run) with None => true | Some r => match f (key r) with Gt => true | _ => false end end
     || match last (rows run) with None => true | Some r => match f (key r) with Lt => true | _ => false end end
  then None
  else i ← binary_search f (rows run); rows run !! i.
Definition get_by (self : Runs) (f : K -> comparison) : option V := value <$> newest (omap (probe_run f) (runs_of self)).
Definition get (self : Runs) (k : K) : option V := get_by self (fun x => cmp x k).

(** [Runs::is_latest]. *)
Definition is_latest (self : Runs) (row : Row) : bool :=
  forallb (fun run =>
    match binary_search (fun x => cmp x (key row)) (rows run) with
    | None => true
    | Some i => match rows run !! i with Some r => (sequence r <=? sequence row)%N | None => false end
    end) (runs_of self).

(** [run.rows[first..last]]: a panic when the range ends before it starts. *)
Definition below (k : K) (r : Row) : bool := match cmp (key r) k with Lt => true | _ => false end.
Definition between_keys (start stop : K) (run : Run) : option (list Row) :=
  let first := partition_point (below start) (rows run) in
  let last := partition_point (below stop) (rows run) in
  if first <=? last then Some (slice (rows run) first last) else None.

(** [Runs::range]. *)
Definition range (self : Runs) (start stop : K) : option (list Row) :=
  parts ← mapM (between_keys start stop) (runs_of self);
  Some (filter (fun r => is_latest self r = true) (concat parts)).

(** [a.key.cmp(&b.key).then_with(|| b.sequence.cmp(&a.sequence))]. *)
Definition by_key_newest (a b : Row) : bool :=
  match cmp (key a) (key b) with Lt => true | Gt => false | Eq => (sequence b <=? sequence a)%N end.

(** [Runs::latest_range]. *)
Definition latest_range (self : Runs) (start stop : K) : option (list Row) :=
  l ← range self start stop; Some (dedup_rows (sort_by by_key_newest l)).

(** [Runs::latest_range_until], [stop] asked before each row read. *)
Section until.
Context (ck : Checkpoint) (self : Runs).

Fixpoint read_rows (l acc : list Row) (c : ck_state ck) : option (list Row) * ck_state ck :=
  match l with
  | [] => (Some acc, c)
  | r :: l =>
      let '(stop, c) := ck_ask ck c in
      if stop then (None, c) else read_rows l (if is_latest self r then acc ++ [r] else acc) c
  end.
Fixpoint read_runs (start stop : K) (l : list Run) (acc : list Row) (c : ck_state ck) : option (option (list Row) * ck_state ck) :=
  match l with
  | [] => Some (Some acc, c)
  | run :: l =>
      part ← between_keys start stop run;
      match read_rows part acc c with
      | (Some acc, c) => read_runs start stop l acc c
      | (None, c) => Some (None, c)
      end
  end.
Definition latest_range_until (start stop : K) (c : ck_state ck) : option (option (list Row) * ck_state ck) :=
  '(r, c) ← read_runs start stop (runs_of self) [] c;
  match r with
  | None => Some (None, c)
  | Some l =>
      let '(stop, c) := ck_ask ck c in
      if stop then Some (None, c) else Some (Some (dedup_rows (sort_by by_key_newest l)), c)
  end.
End until.

(** [Runs::run_count]. *)
Definition run_count (self : Runs) : nat := length (runs_of self).
End runs.
Arguments Row : clear implicits.
Arguments Run : clear implicits.
(** [Runs], its levels. *)
Abbreviation Runs K V := (list (option (Run K V))) (only parsing).

(** ** Orders *)

Lemma cmp_pair {A B} `{Ord A, Ord B} (a a' : A) (b b' : B) :
  cmp (a, b) (a', b') = match cmp a a' with Eq => cmp b b' | c => c end.
Proof. done. Qed.

#[export] Instance pair_ord_laws {A B} `{OrdLaws A, OrdLaws B} : OrdLaws (A * B).
Proof.
  split.
  - intros [a b] [a' b']. rewrite cmp_pair. destruct (cmp a a') eqn:E.
    + apply cmp_eq in E as ->. rewrite cmp_eq. split; [by intros ->|by intros [= ->]].
    + split; [done|]. intros [= -> ->]. by rewrite (proj2 (cmp_eq a' a') eq_refl) in E.
    + split; [done|]. intros [= -> ->]. by rewrite (proj2 (cmp_eq a' a') eq_refl) in E.
  - intros [a b] [a' b']. rewrite !cmp_pair, (cmp_antisym a a'). destruct (cmp a a'); cbn; [apply cmp_antisym|done..].
  - intros [a b] [a' b'] [a2 b2]. rewrite !cmp_pair. destruct (cmp a a') eqn:E1; [apply cmp_eq in E1 as ->| |done].
    + destruct (cmp a' a2) eqn:E2; [apply cmp_trans|done..].
    + intros _. destruct (cmp a' a2) eqn:E2; [apply cmp_eq in E2 as <-; by rewrite E1| |done].
      intros _. by rewrite (cmp_trans a a' a2).
Qed.

Section order.
Context {K : Type} `{OrdLaws K}.

Lemma cmp_refl (a : K) : cmp a a = Eq.
Proof. by apply cmp_eq. Qed.

Lemma cmp_gt_lt (a b : K) : cmp a b = Gt <-> cmp b a = Lt.
Proof. rewrite (cmp_antisym b a). by destruct (cmp b a). Qed.

Lemma lt_irrefl (a : K) : cmp a a <> Lt.
Proof. by rewrite cmp_refl. Qed.

Lemma key_eq_iff (a b : K) : key_eq a b = true <-> a = b.
Proof. unfold key_eq. rewrite <- cmp_eq. by destruct (cmp a b). Qed.
End order.

(** ** Rows in order *)

Section rows.
Context {K V : Type} `{OrdLaws K}.
#[local] Abbreviation Row := (Row K V).

Definition keys_le (a b : Row) : Prop := cmp_le (key a) (key b) = true.
Definition key_lt (a b : Row) : Prop := cmp (key a) (key b) = Lt.
Definition ordered_rows (l : list Row) : Prop := StronglySorted key_lt l.

(** The rows of a key. *)
Definition of_key (k : K) (l : list Row) : list Row := filter (fun r => key_eq (key r) k = true) l.

Lemma elem_of_key k l r : r ∈ of_key k l <-> key r = k /\ r ∈ l.
Proof. unfold of_key. by rewrite list_elem_of_filter, key_eq_iff. Qed.

Lemma of_key_cons k x l : of_key k (x :: l) = if key_eq (key x) k then x :: of_key k l else of_key k l.
Proof. unfold of_key. rewrite filter_cons. by destruct (key_eq (key x) k); case_decide. Qed.

Lemma of_key_rev k l : of_key k (rev l) = rev (of_key k l).
Proof.
  induction l as [|x l IH]; [done|]. cbn [rev]. unfold of_key at 1. rewrite filter_app. fold (of_key k (rev l)) (of_key k [x]).
  rewrite IH, !of_key_cons. by destruct (key_eq (key x) k); cbn [rev]; rewrite ?app_nil_r.
Qed.

Context (le : Row -> Row -> bool).

(** The sort is stable. *)
Lemma insert_stable k x l : (forall a b, key a = key b -> le a b = true) -> of_key k (insert_by le x l) = of_key k (x :: l).
Proof.
  intros Hle. induction l as [|y l IH]; [done|]. cbn [insert_by]. destruct (le x y) eqn:E; [done|].
  rewrite (of_key_cons k y), IH, !of_key_cons. destruct (key_eq (key x) k) eqn:Ex, (key_eq (key y) k) eqn:Ey; try done.
  apply key_eq_iff in Ex, Ey. rewrite Hle in E by congruence. done.
Qed.

Lemma sort_stable k l : (forall a b, key a = key b -> le a b = true) -> of_key k (sort_by le l) = of_key k l.
Proof. intros Hle. induction l as [|x l IH]; [done|].
  change (sort_by le (x :: l)) with (insert_by le x (sort_by le l)). rewrite (insert_stable _ _ _ Hle), !of_key_cons. by rewrite IH. Qed.
End rows.

Section dedup.
Context {K V : Type} `{OrdLaws K}.
#[local] Abbreviation Row := (Row K V).

(** Of rows in key order, the first of each key stays. *)
Definition first_of (l : list Row) : list Row := match l with [] => [] | r :: _ => [r] end.

Lemma no_rows k (l : list Row) : (forall r, r ∈ l -> key r <> k) -> of_key k l = [].
Proof.
  intros Hl. destruct (of_key k l) as [|r rs] eqn:Er; [done|]. exfalso.
  assert (Hr : r ∈ of_key k l) by (rewrite Er; left). apply elem_of_key in Hr as [Hk Hr]. by apply (Hl r).
Qed.

Lemma first_kept x (l d : list Row) : Forall (keys_le x) l -> ordered_rows d -> Forall (key_lt x) d ->
  (forall k, cmp (key x) k = Lt -> of_key k d = first_of (of_key k l)) ->
  ordered_rows (x :: d) /\ forall k, of_key k (x :: d) = first_of (of_key k (x :: l)).
Proof.
  intros Hx Hd Hlt Hk. split; [by constructor|]. intros k. rewrite !of_key_cons. rewrite Forall_forall in Hx, Hlt.
  destruct (key_eq (key x) k) eqn:Ek.
  - apply key_eq_iff in Ek. subst k. cbn. f_equal. apply no_rows. intros r Hr Heq. specialize (Hlt r Hr).
    unfold key_lt in Hlt. rewrite Heq in Hlt. by apply lt_irrefl in Hlt.
  - destruct (cmp (key x) k) eqn:Ec; [apply cmp_eq in Ec; subst; by rewrite (proj2 (key_eq_iff _ _) eq_refl) in Ek|by apply Hk|].
    rewrite !no_rows; [done|..]; intros r Hr Heq.
    + specialize (Hx r Hr). unfold keys_le, cmp_le in Hx. by rewrite Heq, Ec in Hx.
    + specialize (Hlt r Hr). unfold key_lt in Hlt. by rewrite Heq, Ec in Hlt.
Qed.

Lemma dedup_from_spec last (l : list Row) : StronglySorted keys_le l -> Forall (fun r => cmp_le last (key r) = true) l ->
  ordered_rows (dedup_from last l) /\ Forall (fun r => cmp last (key r) = Lt) (dedup_from last l) /\
  forall k, cmp last k = Lt -> of_key k (dedup_from last l) = first_of (of_key k l).
Proof.
  intros Hs. revert last. induction Hs as [|x l Hl IH Hx]; intros last Hlast; [by repeat constructor|]. cbn [dedup_from].
  apply Forall_cons in Hlast as [Hlx Hlast]. destruct (key_eq (key x) last) eqn:E.
  - apply key_eq_iff in E. destruct (IH last Hlast) as (I1 & I2 & I3). split; [done|]. split; [done|]. intros k Hk. rewrite of_key_cons.
    destruct (key_eq (key x) k) eqn:Ek; [|by apply I3]. apply key_eq_iff in Ek. subst. by apply lt_irrefl in Hk.
  - assert (Hlt : cmp last (key x) = Lt).
    { unfold cmp_le in Hlx. destruct (cmp last (key x)) eqn:Ec; [|done|done]. apply cmp_eq in Ec. subst.
      by rewrite (proj2 (key_eq_iff _ _) eq_refl) in E. }
    destruct (IH (key x) Hx) as (I1 & I2 & I3). destruct (first_kept x l (dedup_from (key x) l) Hx I1 I2 I3) as [K1 K2].
    split; [done|]. split; [|intros k _; apply K2]. constructor; [done|]. eapply Forall_impl; [exact I2|].
    intros r Hr. by eapply cmp_trans.
Qed.

Lemma dedup_rows_spec (l : list Row) : StronglySorted keys_le l ->
  ordered_rows (dedup_rows l) /\ forall k, of_key k (dedup_rows l) = first_of (of_key k l).
Proof.
  intros [|x l' Hl Hx]; [by repeat constructor|]. cbn [dedup_rows].
  destruct (dedup_from_spec (key x) l' Hl Hx) as (I1 & I2 & I3). by apply first_kept.
Qed.

(** What an insertion keeps: the last row of each key. *)
Lemma normalise_spec (l : list Row) : ordered_rows (normalise l) /\ forall k, of_key k (normalise l) = first_of (rev (of_key k l)).
Proof.
  unfold normalise. destruct (dedup_rows_spec (sort_by by_key (rev l))) as [D1 D2].
  { apply sort_total_sorted; unfold by_key; [|intros a b c; apply cmp_le_trans].
    intros a b Hab%cmp_le_total. unfold cmp_le. by rewrite Hab. }
  split; [done|]. intros k. rewrite D2. f_equal. rewrite sort_stable.
  - apply of_key_rev.
  - intros a b Hab. unfold by_key, cmp_le. by rewrite Hab, cmp_refl.
Qed.
End dedup.

(** ** Lookups in a run *)

Section lookup.
Context {K V : Type} `{OrdLaws K}.
#[local] Abbreviation Row := (Row K V).

(** A comparator that stands for a key. *)
Definition agrees (f : K -> comparison) (k : K) : Prop := forall x, f x = cmp x k.

Lemma binary_search_spec f k (l : list Row) : agrees f k ->
  match binary_search f l with
  | Some i => exists r, l !! i = Some r /\ key r = k
  | None => forall r, r ∈ l -> key r <> k
  end.
Proof.
  intros Hf. induction l as [|x l IH]; [by intros r ?%not_elem_of_nil|]. cbn [binary_search]. rewrite Hf.
  destruct (cmp (key x) k) eqn:E; [exists x; by apply cmp_eq in E|..]; destruct (binary_search f l) as [i|]; cbn; try done;
    intros r [->|Hr]%elem_of_cons; auto; intros Hk; rewrite Hk, cmp_refl in E; done.
Qed.

(** The row of a key in an ordered run. *)
Lemma ordered_key (l : list Row) r r' : ordered_rows l -> r ∈ l -> r' ∈ l -> key r = key r' -> r = r'.
Proof.
  induction 1 as [|x l _ IH Hx]; [by intros ?%not_elem_of_nil|]. rewrite Forall_forall in Hx.
  intros [->|Hr]%elem_of_cons [->|Hr']%elem_of_cons Hk; [done|..|by apply IH]; exfalso.
  - specialize (Hx r' Hr'). unfold key_lt in Hx. rewrite Hk in Hx. by apply lt_irrefl in Hx.
  - specialize (Hx r Hr). unfold key_lt in Hx. rewrite Hk in Hx. by apply lt_irrefl in Hx.
Qed.

Lemma probe_run_spec f k (run : Run K V) : agrees f k -> ordered_rows (rows run) ->
  forall r, probe_run f run = Some r <-> r ∈ rows run /\ key r = k.
Proof.
  intros Hf Hs r. unfold probe_run.
  assert (Hbs : (i ← binary_search f (rows run); rows run !! i) = Some r <-> r ∈ rows run /\ key r = k).
  { pose proof (binary_search_spec f k (rows run) Hf) as Hb. destruct (binary_search f (rows run)) as [i|]; cbn.
    - destruct Hb as (r' & Hi & Hk). rewrite Hi. apply list_elem_of_lookup_2 in Hi. split.
      + by intros [= <-].
      + intros [Hr Hk']. f_equal. apply (ordered_key (rows run)); [done..|congruence].
    - split; [done|]. intros [Hr Hk]. by destruct (Hb r). }
  destruct (_ || _) eqn:Hout; [|exact Hbs]. split; [done|]. intros [Hr Hk]. exfalso. apply orb_prop in Hout as [Ho|Ho].
  - destruct (rows run) as [|x l]; [by apply not_elem_of_nil in Hr|]. cbn in Ho. rewrite Hf in Ho.
    destruct (cmp (key x) k) eqn:E; try done. apply elem_of_cons in Hr as [->|Hr]; [by rewrite Hk, cmp_refl in E|].
    apply StronglySorted_inv in Hs as [_ Hx]. rewrite Forall_forall in Hx. specialize (Hx r Hr). unfold key_lt in Hx.
    apply cmp_gt_lt in E. rewrite Hk in Hx. apply (lt_irrefl k). by eapply cmp_trans.
  - destruct (last (rows run)) as [x|] eqn:Hlast; [|by apply last_None in Hlast; rewrite Hlast in Hr; apply not_elem_of_nil in Hr].
    rewrite Hf in Ho. destruct (cmp (key x) k) eqn:E; try done. apply last_Some in Hlast as (l & Heq). rewrite Heq in Hs, Hr.
    apply elem_of_app in Hr as [Hr|Hr%list_elem_of_singleton]; [|subst; by rewrite cmp_refl in E].
    assert (Hx : key_lt r x) by (eapply (StronglySorted_app_1_elem_of _ l [x]); [exact Hs|done|left]).
    unfold key_lt in Hx. rewrite Hk in Hx. apply (lt_irrefl k). by eapply cmp_trans.
Qed.

(** The newest of some rows. *)
Lemma newest_spec (l : list Row) :
  match newest l with
  | Some r => r ∈ l /\ forall r', r' ∈ l -> (sequence r' <= sequence r)%N
  | None => l = []
  end.
Proof.
  destruct l as [|x l]; [done|]. cbn [newest]. assert (Hgen : forall best, let r := fold_left (fun best y => if (sequence best <=? sequence y)%N then y else best) l best in
    r ∈ best :: l /\ forall r', r' ∈ best :: l -> (sequence r' <= sequence r)%N); [|apply Hgen].
  induction l as [|y l IH]; intros best; cbn [fold_left]; [split; [left|intros r' ->%list_elem_of_singleton; lia]|].
  destruct (N.leb_spec (sequence best) (sequence y)) as [Hle|Hlt].
  - destruct (IH y) as [I1 I2]. split; [by right|]. intros r' [->|Hr']%elem_of_cons; [|by apply I2]. specialize (I2 y (list_elem_of_here _ _)). lia.
  - destruct (IH best) as [I1 I2]. split; [apply elem_of_cons in I1 as [->|?]; [left|right; by right]|].
    intros r' [->|[->|Hr']%elem_of_cons]%elem_of_cons; [apply I2; left| |apply I2; by right].
    specialize (I2 best (list_elem_of_here _ _)). lia.
Qed.
End lookup.

(** ** The pile of runs

    The specification of a pile of runs is a partial map from keys to the
    newest sequence and value. *)

Section pile.
Context {K V : Type} `{OrdLaws K}.
#[local] Abbreviation Row := (Row K V).
#[local] Abbreviation Map := (K -> option (u64 * V)).

Lemma merge_perm (a b : list Row) : merge a b ⊆+ a ++ b.
Proof.
  revert b. induction a as [|x a IHa]; intros b; [by destruct b|]. induction b as [|y b IHb]; [by rewrite app_nil_r|].
  cbn [merge]. destruct (cmp (key x) (key y)).
  - destruct (_ <=? _)%N; cbn [app].
    + apply submseteq_skip. etransitivity; [apply IHa|]. apply submseteq_app; [done|]. by apply submseteq_cons.
    + etransitivity; [apply submseteq_skip, IHa|]. rewrite Permutation_middle. by apply submseteq_cons.
  - cbn [app]. apply submseteq_skip, IHa.
  - rewrite <- (Permutation_middle (x :: a)). apply submseteq_skip, IHb.
Qed.

Lemma elem_of_merge (a b : list Row) r : r ∈ merge a b -> r ∈ a \/ r ∈ b.
Proof. intros Hr. apply elem_of_app. by apply (elem_of_submseteq _ _ _ Hr), merge_perm. Qed.

Lemma merge_sorted (a b : list Row) : ordered_rows a -> ordered_rows b -> ordered_rows (merge a b).
Proof.
  intros Ha. revert b. induction Ha as [|x a Ha IHa Hx]; intros b Hb; [by destruct b|].
  induction Hb as [|y b Hb IHb Hy]; [by constructor|]. cbn [merge]. rewrite Forall_forall in Hx, Hy.
  assert (Hup : forall z l, (forall r, r ∈ a -> key_lt z r) -> (forall r, r ∈ l -> key_lt z r) -> Forall (key_lt z) (merge a l)).
  { intros z l H1 H2. apply Forall_forall. intros r [Hr|Hr]%elem_of_merge; auto. }
  destruct (cmp (key x) (key y)) eqn:E.
  - apply cmp_eq in E. unfold key_lt in *. constructor; [by apply IHa|]. destruct (_ <=? _)%N; apply Hup; intros r Hr.
    + by apply Hx.
    + rewrite E. by apply Hy.
    + rewrite <- E. by apply Hx.
    + by apply Hy.
  - constructor; [apply IHa; constructor; [done|by apply Forall_forall]|]. apply Hup; [done|]. intros r [->|Hr]%elem_of_cons; [done|].
    eapply cmp_trans; [exact E|by apply Hy].
  - apply cmp_gt_lt in E. constructor; [done|]. apply Forall_forall. intros r Hr.
    assert (Hr' : r ∈ x :: a \/ r ∈ b) by (apply elem_of_merge; exact Hr).
    destruct Hr' as [[->|Hr']%elem_of_cons|Hr']; [done| |by apply Hy]. eapply cmp_trans; [exact E|by apply Hx].
Qed.

(** The row a key keeps is the first of the merge, or one of the rest. *)
Ltac kept_here x := exists x; split; [left|split; [done|lia]].
Ltac kept_later H := destruct H as (r' & ? & ?); exists r'; split; [by right|done].

Lemma merge_keeps (a b : list Row) r : r ∈ a \/ r ∈ b -> exists r', r' ∈ merge a b /\ key r' = key r /\ (sequence r <= sequence r')%N.
Proof.
  revert b. induction a as [|x a IHa]; intros b.
  { intros [?%not_elem_of_nil|Hr]; [done|]. exists r. split; [by destruct b|]. split; [done|lia]. }
  induction b as [|y b IHb].
  { intros [Hr|?%not_elem_of_nil]; [|done]. exists r. split; [done|]. split; [done|lia]. }
  cbn [merge]. destruct (cmp (key x) (key y)) eqn:E.
  - apply cmp_eq in E. destruct (N.leb_spec (sequence y) (sequence x)) as [Hle|Hlt];
      (intros [[->|Hr]%elem_of_cons|[->|Hr]%elem_of_cons]; [..|by kept_later (IHa b (or_intror Hr))]);
      first [kept_here x | kept_here y | kept_later (IHa b (or_introl Hr))].
  - intros [[->|Hr]%elem_of_cons|Hr]; [kept_here x|kept_later (IHa (y :: b) (or_introl Hr))|kept_later (IHa (y :: b) (or_intror Hr))].
  - intros [Hr|[->|Hr]%elem_of_cons]; [kept_later (IHb (or_introl Hr))|kept_here y|kept_later (IHb (or_intror Hr))].
Qed.

Definition stamp (r : Row) : K * u64 := (key r, sequence r).

Record pile_ok (pile : list (list Row)) (m : Map) : Prop := {
  po_sorted : Forall ordered_rows pile;
  po_sound r : r ∈ concat pile -> exists s v, m (key r) = Some (s, v) /\ (sequence r <= s)%N /\ (sequence r = s -> value r = v);
  po_full k s v : m k = Some (s, v) -> exists r, r ∈ concat pile /\ key r = k /\ sequence r = s;
  po_once : NoDup (stamp <$> concat pile)
}.

Lemma pile_perm pile pile' m : pile ≡ₚ pile' -> pile_ok pile m -> pile_ok pile' m.
Proof.
  intros Hp [H1 H2 H3 H4]. assert (Hc : concat pile ≡ₚ concat pile').
  { clear -Hp. induction Hp as [|x l l' _ IH|x y l|l1 l2 l3 _ IH1 _ IH2]; cbn; [done|by rewrite IH| |by rewrite IH1].
    rewrite !app_assoc. by rewrite (Permutation_app_comm y x). }
  split.
  - by rewrite <- Hp.
  - intros r. rewrite <- Hc. apply H2.
  - intros k s v Hm. destruct (H3 k s v Hm) as (r & Hr & ?). exists r. by rewrite <- Hc.
  - by rewrite <- Hc.
Qed.

(** A carry loses no newest row. *)
Lemma pile_merge a b pile m : pile_ok (a :: b :: pile) m -> pile_ok (merge a b :: pile) m.
Proof.
  intros [H1 H2 H3 H4]. apply Forall_cons in H1 as [Ha H1]. apply Forall_cons in H1 as [Hb H1]. cbn [concat] in *.
  assert (Hsub : merge a b ++ concat pile ⊆+ a ++ b ++ concat pile) by (rewrite app_assoc; apply submseteq_app; [apply merge_perm|done]).
  split.
  - constructor; [by apply merge_sorted|done].
  - intros r Hr. apply H2. by apply (elem_of_submseteq _ _ _ Hr).
  - intros k s v Hm. destruct (H3 k s v Hm) as (r & Hr & Hk & Hs). rewrite !elem_of_app in Hr. cbn [concat].
    assert (Hr' : (r ∈ a \/ r ∈ b) \/ r ∈ concat pile) by tauto. destruct Hr' as [Hr'|Hr'].
    + destruct (merge_keeps a b r Hr') as (r' & Hin & Hk' & Hle). exists r'. split; [by apply elem_of_app; left|]. split; [congruence|].
      destruct (H2 r') as (s' & v' & Hm' & Hle' & _); [rewrite !elem_of_app; apply elem_of_merge in Hin; tauto|].
      rewrite Hk', Hk, Hm in Hm'. injection Hm' as <- <-. lia.
    + exists r. split; [by apply elem_of_app; right|done].
  - cbn [concat]. apply submseteq_Permutation in Hsub as (rest & Hp). rewrite Hp, fmap_app in H4. by apply NoDup_app in H4 as [? _].
Qed.
End pile.

(** ** Insertion *)

Section insertion.
Context {K V : Type} `{OrdLaws K}.
#[local] Abbreviation Row := (Row K V).
#[local] Abbreviation Map := (K -> option (u64 * V)).
#[local] Abbreviation Runs := (list (option (Run K V))) (only parsing).

(** A transaction's rows: the last of each key. *)
Definition put_rows (m : Map) (l : list Row) : Map := fun k =>
  match last (of_key k l) with Some r => Some (sequence r, value r) | None => m k end.

Lemma elem_of_normalise (l : list Row) r : r ∈ normalise l <-> last (of_key (key r) l) = Some r.
Proof.
  destruct (normalise_spec l) as [_ Hk]. specialize (Hk (key r)).
  assert (Hiff : r ∈ normalise l <-> r ∈ of_key (key r) (normalise l)) by (rewrite elem_of_key; tauto). rewrite Hiff, Hk.
  destruct (of_key (key r) l) as [|y ys] using rev_ind; [split; [by intros ?%not_elem_of_nil|done]|].
  rewrite rev_app_distr, last_snoc. cbn. rewrite list_elem_of_singleton. split; [by intros ->|by intros [= ->]].
Qed.

Lemma last_of_key k (l : list Row) r : last (of_key k l) = Some r -> key r = k /\ r ∈ l.
Proof. intros Hl%last_Some_elem_of. by apply elem_of_key. Qed.

(** The rows of a [BTreeMap]'s entries. *)
Lemma put_rows_map m q (e : list (K * V)) k : bt_ok e ->
  put_rows m ((fun e => mkRow e.1 q e.2) <$> e) k = match bt_get k e with Some v => Some (q, v) | None => m k end.
Proof.
  intros He. unfold put_rows. destruct (last (of_key k _)) as [r|] eqn:E.
  - apply last_of_key in E as [<- ([k' v] & -> & Hin)%list_elem_of_fmap]. cbn. by rewrite (proj2 (bt_get_elem e k' v He) Hin).
  - destruct (bt_get k e) as [v|] eqn:Eg; [|done]. apply bt_get_elem in Eg; [|done]. apply last_None in E.
    assert (Hr : mkRow k q v ∈ of_key k ((fun e => mkRow e.1 q e.2) <$> e)); [|rewrite E in Hr; by apply not_elem_of_nil in Hr].
    apply elem_of_key. split; [done|]. apply list_elem_of_fmap. by exists (k, v).
Qed.

Lemma pile_put pile m (l : list Row) q : pile_ok pile m -> Forall (fun r => sequence r = q) l ->
  (forall k s v, m k = Some (s, v) -> (s < q)%N) -> pile_ok (normalise l :: pile) (put_rows m l).
Proof.
  intros [H1 H2 H3 H4] Hq Hm. rewrite Forall_forall in Hq. destruct (normalise_spec l) as [Hs _].
  assert (Hseq : forall r, r ∈ normalise l -> sequence r = q).
  { intros r Hr%elem_of_normalise. apply last_of_key in Hr as [_ Hr]. by apply Hq. }
  assert (Hold : forall r, r ∈ concat pile -> (sequence r < q)%N).
  { intros r Hr. destruct (H2 r Hr) as (s & v & Hmr & Hle & _). specialize (Hm _ _ _ Hmr). lia. }
  split.
  - by constructor.
  - intros r. cbn [concat]. rewrite elem_of_app. unfold put_rows. intros [Hr|Hr].
    + pose proof (proj1 (elem_of_normalise l r) Hr) as Hl. rewrite Hl. exists (sequence r), (value r). split; [done|]. split; [lia|done].
    + destruct (H2 r Hr) as (s & v & Hmr & Hle & Hv). destruct (last (of_key (key r) l)) as [r'|] eqn:Hl; [|by exists s, v].
      exists (sequence r'), (value r'). apply last_of_key in Hl as [_ Hr']. rewrite (Hq r' Hr'). specialize (Hold r Hr).
      split; [done|]. split; [lia|]. intros; lia.
  - intros k s v Hk. unfold put_rows in Hk. cbn [concat]. destruct (last (of_key k l)) as [r|] eqn:Hl.
    + injection Hk as <- <-. destruct (last_of_key _ _ _ Hl) as [Hkr _]. exists r. split; [|done]. apply elem_of_app. left.
      apply elem_of_normalise. by rewrite Hkr.
    + destruct (H3 k s v Hk) as (r & Hr & ?). exists r. split; [|done]. apply elem_of_app. by right.
  - cbn [concat]. rewrite fmap_app. apply NoDup_app. split; [|split; [|done]].
    + apply NoDup_fmap_2_strong; [|]. all: clear -H0 Hs Hseq.
      * intros r r' Hr Hr' [= Hk _]. by apply (ordered_key (normalise l)).
      * induction Hs as [|x l' Hl IH Hx]; constructor; [|apply IH; intros; apply Hseq; by right].
        intros Hin. rewrite Forall_forall in Hx. specialize (Hx x Hin). by apply lt_irrefl in Hx.
    + intros x (r & -> & Hr)%list_elem_of_fmap (r' & Hst & Hr')%list_elem_of_fmap. injection Hst as _ Hst.
      specialize (Hold r' Hr'). rewrite (Hseq r Hr) in Hst. lia.
Qed.

(** Levels by weight. *)
Definition pile_of (self : Runs) : list (list Row) := rows <$> runs_of self.
Definition total (self : Runs) : nat := sum_list (weight <$> runs_of self).
Definition levels_ok (self : Runs) : Prop := forall i run, self !! i = Some (Some run) -> Nat.log2 (weight run) = i /\ 0 < weight run.

Lemma runs_of_app (a b : Runs) : runs_of (a ++ b) = runs_of a ++ runs_of b.
Proof. apply omap_app. Qed.

Lemma runs_of_none n : runs_of (replicate n None : Runs) = [].
Proof. induction n as [|n IH]; [done|exact IH]. Qed.

Lemma split_level (self : Runs) i o : self !! i = Some o ->
  runs_of self = runs_of (take i self) ++ option_list o ++ runs_of (drop (S i) self).
Proof. intros Hi. rewrite <- (take_drop_middle self i o Hi) at 1. rewrite runs_of_app. by destruct o. Qed.

Lemma set_level (self : Runs) i o : i < length self ->
  runs_of (<[i:=o]> self) = runs_of (take i self) ++ option_list o ++ runs_of (drop (S i) self).
Proof. intros Hi. rewrite insert_take_drop by done. rewrite runs_of_app. by destruct o. Qed.

Lemma take_level (self : Runs) i old : self !! i = Some (Some old) -> runs_of self ≡ₚ old :: runs_of (<[i:=None]> self).
Proof.
  intros Hi. rewrite (split_level _ _ _ Hi), set_level by (by eapply lookup_lt_Some). cbn [option_list app].
  symmetry. apply Permutation_middle.
Qed.

Lemma fill_level (self : Runs) i run : self !! i = Some None -> runs_of (<[i:=Some run]> self) ≡ₚ run :: runs_of self.
Proof.
  intros Hi. rewrite (split_level _ _ _ Hi), set_level by (by eapply lookup_lt_Some). cbn [option_list app].
  symmetry. apply Permutation_middle.
Qed.

Lemma levels_clear self i : levels_ok self -> levels_ok (<[i:=None]> self).
Proof. intros Hok j run Hj. apply list_lookup_insert_Some in Hj as [(_ & ? & _)|[_ Hj]]; [done|by apply Hok]. Qed.

Lemma carry_spec fuel levels w (l : list Row) m : 0 < w -> levels_ok levels -> pile_ok (l :: pile_of levels) m ->
  length levels - Nat.log2 w < fuel -> length levels <= S (Nat.log2 (w + total levels)) ->
  exists self, carry fuel levels w l = Some self /\ levels_ok self /\ pile_ok (pile_of self) m /\ total self = w + total levels /\
    length self <= S (Nat.log2 (total self)).
Proof.
  revert levels w l. induction fuel as [|fuel IH]; intros levels w l Hw Hok Hpile Hfuel Hlen; [lia|]. cbn [carry].
  set (level := Nat.log2 w) in *.
  set (grown := if length levels <=? level then levels ++ replicate (S level - length levels) None else levels).
  assert (Hruns : runs_of grown = runs_of levels).
  { subst grown. destruct (_ <=? _); [|done]. by rewrite runs_of_app, runs_of_none, app_nil_r. }
  assert (Hgok : levels_ok grown).
  { subst grown. destruct (_ <=? _); [|done]. intros i run [Hi|[_ Hi]]%lookup_app_Some; [by apply Hok|].
    by apply lookup_replicate in Hi as [? _]. }
  assert (Hlog : level <= Nat.log2 (w + total levels)) by (apply Nat.log2_le_mono; lia).
  assert (Hgl : level < length grown /\ length grown <= S (Nat.log2 (w + total levels))).
  { subst grown. destruct (Nat.leb_spec (length levels) level); [rewrite length_app, length_replicate|]; lia. }
  assert (Htot : total grown = total levels) by (unfold total; by rewrite Hruns).
  destruct (lookup_lt_is_Some_2 grown level) as [o Ho]; [lia|]. rewrite Ho. destruct o as [old|].
  - assert (Hlt : level < length levels).
    { subst grown. destruct (Nat.leb_spec (length levels) level) as [Hge|]; [|lia]. exfalso. apply lookup_app_Some in Ho as [Ho|[_ Ho]].
      - apply lookup_lt_Some in Ho. lia.
      - by apply lookup_replicate in Ho as [? _]. }
    assert (Hsame : length grown = length levels) by (subst grown; destruct (Nat.leb_spec (length levels) level); [lia|done]).
    destruct (Hgok _ _ Ho) as [Hwo Hpos]. pose proof (take_level grown level old Ho) as Hperm.
    assert (Hrest : total levels = weight old + total (<[level:=None]> grown)).
    { rewrite <- Htot. unfold total. by rewrite Hperm. }
    pose proof (proj1 (Nat.log2_spec w Hw)) as Hl1. pose proof (proj1 (Nat.log2_spec (weight old) Hpos)) as Hl2. rewrite Hwo in Hl2. fold level in Hl1.
    assert (Hup : S level <= Nat.log2 (w + weight old)) by (apply Nat.log2_le_pow2; [lia|rewrite Nat.pow_succ_r'; lia]).
    destruct (IH (<[level:=None]> grown) (w + weight old) (merge l (rows old))) as (self & Hc & H1 & H2 & H3 & H4).
    + lia.
    + by apply levels_clear.
    + apply pile_merge. eapply pile_perm; [|exact Hpile]. apply Permutation_skip. unfold pile_of. rewrite <- Hruns, Hperm. done.
    + rewrite length_insert. lia.
    + rewrite length_insert. replace (w + weight old + _) with (w + total levels) by lia. lia.
    + exists self. split; [done|]. split_and!; [done..| |done]. rewrite H3. lia.
  - eexists. split; [reflexivity|]. pose proof (fill_level grown level (mkRun w l) Ho) as Hperm. rewrite Hruns in Hperm.
    assert (Hsum : total (<[level:=Some (mkRun w l)]> grown) = w + total levels).
    { unfold total. rewrite (fmap_Permutation weight _ _ Hperm). done. }
    split_and!.
    + intros i run Hi. apply list_lookup_insert_Some in Hi as [(<- & [= <-] & _)|[_ Hi]]; [done|by apply Hgok].
    + eapply pile_perm; [|exact Hpile]. unfold pile_of. symmetry. exact (fmap_Permutation rows _ _ Hperm).
    + exact Hsum.
    + rewrite length_insert, Hsum. lia.
Qed.
End insertion.

(** ** Reads *)

Section reads.
Context {K V : Type} `{OrdLaws K}.
#[local] Abbreviation Row := (Row K V).
#[local] Abbreviation Map := (K -> option (u64 * V)).
#[local] Abbreviation Runs := (list (option (Run K V))) (only parsing).

(** Runs that hold a map, within few levels. *)
Record runs_ok (self : Runs) (m : Map) : Prop := {
  ro_levels : levels_ok self;
  ro_pile : pile_ok (pile_of self) m;
  ro_few : length self <= S (Nat.log2 (total self))
}.

Lemma runs_ok_empty : runs_ok [] (fun _ => None).
Proof. split; [by intros i run Hi|split; [constructor|by intros r ?%not_elem_of_nil|done|constructor]|cbn; lia]. Qed.

Lemma insert_spec self m (l : list Row) q : runs_ok self m -> Forall (fun r => sequence r = q) l ->
  (forall k s v, m k = Some (s, v) -> (s < q)%N) ->
  exists self', insert_rows self l = Some self' /\ runs_ok self' (put_rows m l) /\ total self' = length l + total self.
Proof.
  intros [Hl Hp Hf] Hq Hm. unfold insert_rows. destruct l as [|r l]; cbn [is_empty]; [by exists self|].
  destruct (carry_spec (S (length self)) self (length (r :: l)) (normalise (r :: l)) (put_rows m (r :: l))) as (self' & Hc & H1 & H2 & H3 & H4).
  - cbn. lia.
  - done.
  - by eapply pile_put.
  - lia.
  - etransitivity; [exact Hf|]. apply le_n_S, Nat.log2_le_mono. lia.
  - exists self'. split; [done|]. by split.
Qed.

Context (self : Runs) (m : Map) (Hok : runs_ok self m).

Lemma run_ordered run : run ∈ runs_of self -> ordered_rows (rows run).
Proof. intros Hr. pose proof (po_sorted _ _ (ro_pile _ _ Hok)) as Hs. unfold pile_of in Hs. rewrite Forall_fmap, Forall_forall in Hs. by apply Hs. Qed.

Lemma elem_of_pile r : r ∈ concat (pile_of self) <-> exists run, run ∈ runs_of self /\ r ∈ rows run.
Proof.
  rewrite elem_of_concat. unfold pile_of. split.
  - intros (l & (run & -> & Hrun)%list_elem_of_fmap & Hr). by exists run.
  - intros (run & Hrun & Hr). exists (rows run). split; [by apply list_elem_of_fmap_2|done].
Qed.

Lemma get_by_spec f k : agrees f k -> get_by self f = snd <$> m k.
Proof.
  intros Hf. unfold get_by. destruct (ro_pile _ _ Hok) as [H1 H2 H3 H4].
  assert (Hin : forall r, r ∈ omap (probe_run f) (runs_of self) <-> r ∈ concat (pile_of self) /\ key r = k).
  { intros r. rewrite list_elem_of_omap, elem_of_pile. split.
    - intros (run & Hrun & Hr). apply (probe_run_spec f k run Hf (run_ordered run Hrun)) in Hr as [Hr Hk]. split; [by exists run|done].
    - intros [(run & Hrun & Hr) Hk]. exists run. split; [done|]. by apply (probe_run_spec f k run Hf (run_ordered run Hrun)). }
  pose proof (newest_spec (omap (probe_run f) (runs_of self))) as Hn. destruct (newest _) as [r|].
  - destruct Hn as [Hr Hmax]. apply Hin in Hr as [Hr Hk]. destruct (H2 r Hr) as (s & v & Hm & Hle & Hv). subst k. rewrite Hm. cbn. f_equal.
    destruct (H3 _ _ _ Hm) as (r' & Hr' & Hk' & Hs'). apply Hv. specialize (Hmax r' (proj2 (Hin r') (conj Hr' Hk'))). lia.
  - destruct (m k) as [[s v]|] eqn:Hm; [|done]. destruct (H3 _ _ _ Hm) as (r & Hr & Hk & _). exfalso.
    assert (Hx : r ∈ omap (probe_run f) (runs_of self)) by (by apply Hin). rewrite Hn in Hx. by apply not_elem_of_nil in Hx.
Qed.

(** The newest row of a key is the one the map gives. *)
Lemma is_latest_spec r : r ∈ concat (pile_of self) -> is_latest self r = true <-> m (key r) = Some (sequence r, value r).
Proof.
  intros Hr. destruct (ro_pile _ _ Hok) as [H1 H2 H3 H4]. destruct (H2 r Hr) as (s & v & Hm & Hle & Hv).
  unfold is_latest. rewrite forallb_forall. split.
  - intros Hall. destruct (H3 _ _ _ Hm) as (r' & Hr' & Hk' & Hs'). apply elem_of_pile in Hr' as (run & Hrun & Hr').
    specialize (Hall run (proj1 (list_elem_of_In _ _) Hrun)).
    pose proof (binary_search_spec (fun x => cmp x (key r)) (key r) (rows run) (fun _ => eq_refl)) as Hb.
    destruct (binary_search _ _) as [i|]; [|by destruct (Hb r')]. destruct Hb as (r2 & Hi & Hk2). rewrite Hi in Hall. apply N.leb_le in Hall.
    apply list_elem_of_lookup_2 in Hi. assert (r2 = r') as -> by (apply (ordered_key (rows run)); [by apply run_ordered|done..|congruence]).
    rewrite Hm. assert (sequence r = s) by lia. rewrite Hv by done. congruence.
  - intros Hmr run Hrun%list_elem_of_In. pose proof (binary_search_spec (fun x => cmp x (key r)) (key r) (rows run) (fun _ => eq_refl)) as Hb.
    destruct (binary_search _ _) as [i|]; [|done]. destruct Hb as (r2 & Hi & Hk2). rewrite Hi. apply N.leb_le.
    apply list_elem_of_lookup_2 in Hi. destruct (H2 r2) as (s2 & v2 & Hm2 & Hle2 & _); [apply elem_of_pile; by exists run|].
    rewrite Hk2, Hmr in Hm2. injection Hm2 as <- <-. done.
Qed.

(** ** Ranges *)

Lemma below_prefix k (l : list Row) i r : ordered_rows l -> l !! i = Some r -> i < partition_point (below k) l <-> cmp (key r) k = Lt.
Proof.
  intros Hs. revert i. induction Hs as [|x l _ IH Hx]; intros i Hi; [done|]. cbn [partition_point]. unfold below at 1.
  destruct (cmp (key x) k) eqn:E.
  - split; [lia|]. intros Hr. exfalso. apply cmp_eq in E. destruct i as [|i]; [injection Hi as ->; by rewrite E, cmp_refl in Hr|].
    rewrite Forall_forall in Hx. specialize (Hx r (list_elem_of_lookup_2 l i r Hi)). unfold key_lt in Hx. rewrite E in Hx.
    apply (lt_irrefl k). by eapply cmp_trans.
  - destruct i as [|i]; [injection Hi as ->; split; [done|lia]|]. rewrite <- (IH i Hi). lia.
  - split; [lia|]. intros Hr. exfalso. apply cmp_gt_lt in E. destruct i as [|i].
    + injection Hi as ->. apply (lt_irrefl k). by eapply cmp_trans.
    + rewrite Forall_forall in Hx. specialize (Hx r (list_elem_of_lookup_2 l i r Hi)). unfold key_lt in Hx.
      apply (lt_irrefl k). eapply cmp_trans; [exact E|]. by eapply cmp_trans.
Qed.

Definition within_keys (start stop : K) (r : Row) : Prop := cmp_le start (key r) = true /\ cmp (key r) stop = Lt.

Lemma cmp_le_not (a b : K) : cmp_le a b = true <-> cmp b a <> Lt.
Proof. unfold cmp_le. rewrite (cmp_antisym b a). by destruct (cmp b a). Qed.

Lemma below_keys_mono start stop (l : list Row) : cmp_le start stop = true ->
  partition_point (below start) l <= partition_point (below stop) l.
Proof.
  intros Hle%cmp_le_not. induction l as [|x l IH]; [done|]. cbn [partition_point]. unfold below at 1 3.
  destruct (cmp (key x) start) eqn:E1; [lia| |lia]. destruct (cmp (key x) stop) eqn:E2; [|lia|].
  - apply cmp_eq in E2. congruence.
  - exfalso. apply Hle. apply cmp_gt_lt in E2. by eapply cmp_trans.
Qed.

Lemma between_keys_spec start stop (run : Run K V) : ordered_rows (rows run) -> cmp_le start stop = true ->
  exists part, between_keys start stop run = Some part /\ forall r, r ∈ part <-> r ∈ rows run /\ within_keys start stop r.
Proof.
  intros Hs Hle. unfold between_keys. pose proof (below_keys_mono start stop (rows run) Hle) as Hmono.
  rewrite (proj2 (Nat.leb_le _ _) Hmono). eexists. split; [reflexivity|]. intros r. unfold within_keys. rewrite cmp_le_not.
  rewrite !list_elem_of_lookup. split.
  - intros (i & Hi). assert (Hd : i < partition_point (below stop) (rows run) - partition_point (below start) (rows run)).
    { apply lookup_lt_Some in Hi. unfold slice in Hi. rewrite length_take in Hi. lia. }
    rewrite lookup_slice in Hi by done. split; [by eexists|].
    pose proof (below_prefix start _ _ _ Hs Hi) as B1. pose proof (below_prefix stop _ _ _ Hs Hi) as B2.
    split; [intros ?%B1; lia|apply B2; lia].
  - intros [(i & Hi) [H1 H2]]. pose proof (below_prefix start _ _ _ Hs Hi) as B1. pose proof (below_prefix stop _ _ _ Hs Hi) as B2.
    apply B2 in H2. assert (Hge : ~ i < partition_point (below start) (rows run)) by (intros Hlt; by apply H1, B1).
    exists (i - partition_point (below start) (rows run)). rewrite lookup_slice by lia. rewrite <- Hi. f_equal. lia.
Qed.

(** The newest rows of a range of keys, in key order. *)
Definition newest_in (start stop : K) (l : list Row) : Prop :=
  ordered_rows l /\ forall r, r ∈ l <-> within_keys start stop r /\ m (key r) = Some (sequence r, value r).

Lemma range_parts start stop l : cmp_le start stop = true -> (forall run, run ∈ l -> run ∈ runs_of self) ->
  exists parts, mapM (between_keys start stop) l = Some parts /\
    (exists out, concat (rows <$> l) ≡ₚ concat parts ++ out) /\
    forall r, r ∈ concat parts <-> r ∈ concat (rows <$> l) /\ within_keys start stop r.
Proof.
  intros Hle. induction l as [|run l IH]; intros Hl; [exists []; split; [done|]; split; [by exists []|cbn; set_solver]|].
  destruct (between_keys_spec start stop run (run_ordered run (Hl run (list_elem_of_here _ _))) Hle) as (part & Hpart & Hin).
  destruct IH as (parts & Hparts & (out & Hout) & Hall); [intros; apply Hl; by right|]. exists (part :: parts).
  cbn. rewrite Hpart, Hparts. split; [done|]. split.
  - unfold between_keys in Hpart. destruct (_ <=? _); [|done]. injection Hpart as <-. unfold slice.
    set (f := partition_point (below start) (rows run)). set (n := partition_point (below stop) (rows run) - f).
    exists (take f (rows run) ++ drop n (drop f (rows run)) ++ out). cbn [fmap list_fmap concat]. rewrite Hout.
    rewrite <- (take_drop f (rows run)) at 1. rewrite <- (take_drop n (drop f (rows run))) at 1. solve_Permutation.
  - intros r. cbn [fmap list_fmap concat]. rewrite !elem_of_app, Hin, Hall. tauto.
Qed.

(** The rows a range keeps, before they are put in order. *)
Definition kept (start stop : K) (l : list Row) : Prop :=
  (forall r, r ∈ l <-> within_keys start stop r /\ m (key r) = Some (sequence r, value r)) /\
  forall k, length (of_key k l) <= 1.

Lemma once_per_key (l : list Row) : NoDup (stamp <$> l) -> (forall r, r ∈ l -> exists v, m (key r) = Some (sequence r, v)) ->
  forall k, length (of_key k l) <= 1.
Proof.
  intros Hn Hl k. assert (Hsub : NoDup (stamp <$> of_key k l)).
  { eapply sublist_NoDup; [exact Hn|]. apply fmap_sublist, sublist_filter. }
  assert (Hin : forall r, r ∈ of_key k l -> exists v, m k = Some (sequence r, v)).
  { intros r [<- Hr]%elem_of_key. by apply Hl. }
  assert (Hkey : forall r, r ∈ of_key k l -> key r = k) by (by intros r [? _]%elem_of_key).
  destruct (of_key k l) as [|a [|b rest]]; cbn [length]; [lia|lia|]. exfalso.
  destruct (Hin a) as [va Ha]; [left|]. destruct (Hin b) as [vb Hb]; [right; left|]. rewrite Ha in Hb. injection Hb as Hs _.
  rewrite !fmap_cons in Hsub. apply NoDup_cons in Hsub as [Hx _]. apply Hx. unfold stamp at 1.
  rewrite (Hkey a) by left. rewrite Hs. rewrite <- (Hkey b) by (right; left). left.
Qed.

Lemma range_kept start stop : cmp_le start stop = true ->
  exists parts, mapM (between_keys start stop) (runs_of self) = Some parts /\
    kept start stop (filter (fun r => is_latest self r = true) (concat parts)).
Proof.
  intros Hle. destruct (range_parts start stop (runs_of self) Hle (fun _ H => H)) as (parts & Hparts & (out & Hout) & Hin).
  exists parts. split; [done|].
  assert (Hmem : forall r, r ∈ filter (fun r => is_latest self r = true) (concat parts) <->
                           within_keys start stop r /\ m (key r) = Some (sequence r, value r)).
  { intros r. rewrite list_elem_of_filter, Hin. fold (pile_of self). split.
    - intros (Hlat & Hr & Hw). split; [done|]. by apply is_latest_spec.
    - intros [Hw Hmr]. destruct (po_full _ _ (ro_pile _ _ Hok) _ _ _ Hmr) as (r' & Hr' & Hk & Hs).
      destruct (po_sound _ _ (ro_pile _ _ Hok) r' Hr') as (s & v & Hm' & _ & Hv). rewrite Hk, Hmr in Hm'. injection Hm' as <- <-.
      assert (r' = r) as ->.
      { specialize (Hv Hs). destruct r, r'. cbn in *. congruence. }
      split; [by apply is_latest_spec|done]. }
  split; [exact Hmem|]. apply once_per_key.
  - pose proof (po_once _ _ (ro_pile _ _ Hok)) as Hn. unfold pile_of in Hn. rewrite Hout, fmap_app in Hn. apply NoDup_app in Hn as [Hn _].
    eapply sublist_NoDup; [exact Hn|]. apply fmap_sublist, sublist_filter.
  - intros r [_ Hr]%Hmem. by exists (value r).
Qed.

Lemma by_key_newest_sorted (l : list Row) : StronglySorted keys_le (sort_by by_key_newest l).
Proof.
  assert (Hs : StronglySorted (fun a b => by_key_newest a b = true) (sort_by by_key_newest l)).
  { apply sort_total_sorted; unfold by_key_newest.
    - intros a b. rewrite (cmp_antisym (key a) (key b)). destruct (cmp (key a) (key b)); cbn; [|done..]. intros ?%N.leb_gt. apply N.leb_le. lia.
    - intros a b c. destruct (cmp (key a) (key b)) eqn:E1; [apply cmp_eq in E1| |done].
      + rewrite E1. destruct (cmp (key b) (key c)); [|done..]. intros ?%N.leb_le ?%N.leb_le. apply N.leb_le. lia.
      + intros _. destruct (cmp (key b) (key c)) eqn:E2; [apply cmp_eq in E2; rewrite <- E2, E1; done| |done].
        by rewrite (cmp_trans _ _ _ E1 E2). }
  induction Hs as [|x l' _ IH Hx]; constructor; [done|]. eapply Forall_impl; [exact Hx|].
  intros y. unfold by_key_newest, keys_le, cmp_le. by destruct (cmp (key x) (key y)).
Qed.

Lemma kept_ordered start stop l : kept start stop l -> newest_in start stop (dedup_rows (sort_by by_key_newest l)).
Proof.
  intros [Hin Hone]. destruct (dedup_rows_spec (sort_by by_key_newest l) (by_key_newest_sorted l)) as [Hs Hk]. split; [done|].
  intros r. rewrite <- Hin.
  assert (Hsame : of_key (key r) (sort_by by_key_newest l) = of_key (key r) l).
  { assert (Hp : of_key (key r) (sort_by by_key_newest l) ≡ₚ of_key (key r) l) by (unfold of_key; by rewrite sort_by_perm).
    specialize (Hone (key r)). destruct (of_key (key r) l) as [|x [|y t]]; [by apply Permutation_nil_r in Hp|by apply Permutation_singleton_r in Hp|cbn in Hone; lia]. }
  assert (Hiff : forall l', r ∈ l' <-> r ∈ of_key (key r) l') by (intros l'; rewrite elem_of_key; tauto).
  rewrite (Hiff l), (Hiff (dedup_rows _)), Hk, Hsame. specialize (Hone (key r)).
  destruct (of_key (key r) l) as [|x [|y t]]; [done|done|cbn in Hone; lia].
Qed.

Lemma latest_range_spec start stop : cmp_le start stop = true ->
  exists l, latest_range self start stop = Some l /\ newest_in start stop l.
Proof.
  intros Hle. destruct (range_kept start stop Hle) as (parts & Hparts & Hk). unfold latest_range, range. rewrite Hparts. cbn.
  eexists. split; [reflexivity|]. by apply kept_ordered.
Qed.

(** Under a cancellation: the same rows, or a reported stop. *)
Lemma read_rows_spec ck `{StopFlag ck} l acc c : exists r c', read_rows ck self l acc c = (r, c') /\
  match r with Some out => out = acc ++ filter (fun r => is_latest self r = true) l | None => stopped c' end.
Proof.
  revert acc c. induction l as [|x l IH]; intros acc c; cbn [read_rows]; [exists (Some acc), c; by rewrite app_nil_r|].
  destruct (ck_ask ck c) as [stop c1] eqn:Hask. destruct stop.
  - exists None, c1. split; [done|]. by apply (stopped_ask _ _ _ Hask); left.
  - destruct (IH (if is_latest self x then acc ++ [x] else acc) c1) as (r & c' & -> & Hr). exists r, c'. split; [done|].
    destruct r as [out|]; [|done]. rewrite filter_cons. destruct (is_latest self x); case_decide; try done.
    by rewrite <- app_assoc in Hr.
Qed.

Lemma read_runs_spec ck `{StopFlag ck} start stop l parts acc c : mapM (between_keys start stop) l = Some parts ->
  exists r c', read_runs ck self start stop l acc c = Some (r, c') /\
    match r with Some out => out = acc ++ filter (fun r => is_latest self r = true) (concat parts) | None => stopped c' end.
Proof.
  revert parts acc c. induction l as [|run l IH]; intros parts acc c; cbn.
  { intros [= <-]. exists (Some acc), c. by rewrite app_nil_r. }
  destruct (between_keys start stop run) as [part|]; [|done]. cbn. destruct (mapM _ l) as [ps|] eqn:Hps; [|done]. intros [= <-].
  destruct (read_rows_spec ck part acc c) as (r & c1 & -> & Hr). destruct r as [out|]; [|by exists None, c1].
  destruct (IH ps out c1 eq_refl) as (r & c2 & -> & Hr2). exists r, c2. split; [done|]. destruct r as [out2|]; [|done].
  cbn [concat]. by rewrite filter_app, app_assoc, <- Hr.
Qed.

Lemma latest_range_until_spec ck `{StopFlag ck} start stop c : cmp_le start stop = true ->
  exists r c', latest_range_until ck self start stop c = Some (r, c') /\
    match r with Some l => latest_range self start stop = Some l | None => stopped c' end.
Proof.
  intros Hle. destruct (range_kept start stop Hle) as (parts & Hparts & Hk). unfold latest_range_until, latest_range, range.
  destruct (read_runs_spec ck start stop (runs_of self) parts [] c Hparts) as (r & c1 & -> & Hr). cbn [mbind option_bind].
  destruct r as [l|]; [|by exists None, c1]. destruct (ck_ask ck c1) as [stop' c2] eqn:Hask. destruct stop'.
  - exists None, c2. split; [done|]. by apply (stopped_ask _ _ _ Hask); left.
  - eexists _, _. split; [reflexivity|]. rewrite Hparts. cbn. by rewrite Hr.
Qed.
End reads.

(** ** Histories *)

Section history.
Context {K V : Type} `{OrdLaws K}.
#[local] Abbreviation Runs := (list (option (Run K V))) (only parsing).
#[local] Abbreviation Map := (K -> option (u64 * V)).

(** Transactions: a sequence, and the keys and values it writes in order. *)
Abbreviation Transactions := (list (u64 * list (K * V))) (only parsing).

Definition tx_rows (tx : u64 * list (K * V)) : list (Row K V) := (fun kv => mkRow kv.1 tx.1 kv.2) <$> tx.2.
Fixpoint replay (self : Runs) (txs : Transactions) : option Runs :=
  match txs with [] => Some self | tx :: txs => self ← insert_rows self (tx_rows tx); replay self txs end.

(** What a key maps to: the value written last. *)
Definition writes_to (k : K) (writes : list (K * V)) : list V := snd <$> filter (fun kv => key_eq kv.1 k = true) writes.
Definition last_written (txs : Transactions) (k : K) : option V := last (writes_to k (concat (snd <$> txs))).

Definition put_all (m : Map) (txs : Transactions) : Map := fold_left (fun m tx => put_rows m (tx_rows tx)) txs m.

Lemma put_rows_written m tx k : snd <$> put_rows m (tx_rows tx) k = match last (writes_to k tx.2) with Some v => Some v | None => snd <$> m k end.
Proof.
  unfold put_rows. assert (Hr : value <$> of_key k (tx_rows tx) = writes_to k tx.2).
  { unfold tx_rows, writes_to. induction tx.2 as [|[x v] l IH]; [done|]. rewrite fmap_cons, of_key_cons, filter_cons. cbn [key fst].
    destruct (key_eq x k); case_decide; try done. cbn. f_equal. exact IH. }
  rewrite <- Hr, fmap_last. by destruct (last (of_key k (tx_rows tx))).
Qed.

Lemma put_all_written m txs k : snd <$> put_all m txs k = match last_written txs k with Some v => Some v | None => snd <$> m k end.
Proof.
  revert m. induction txs as [|tx txs IH]; intros m; [done|]. unfold put_all. cbn [fold_left]. fold (put_all (put_rows m (tx_rows tx)) txs).
  rewrite IH, put_rows_written. unfold last_written. cbn [fmap list_fmap concat].
  assert (Happ : writes_to k (tx.2 ++ concat (snd <$> txs)) = writes_to k tx.2 ++ writes_to k (concat (snd <$> txs))) by (unfold writes_to; by rewrite filter_app, fmap_app).
  rewrite Happ, last_app. by destruct (last (writes_to k (concat (snd <$> txs)))).
Qed.

Lemma replay_spec self m txs : runs_ok self m -> StronglySorted N.lt (fst <$> txs) ->
  (forall k s v tx, m k = Some (s, v) -> tx ∈ txs -> (s < tx.1)%N) ->
  exists self', replay self txs = Some self' /\ runs_ok self' (put_all m txs) /\ total self' = length (concat (snd <$> txs)) + total self.
Proof.
  revert self m. induction txs as [|tx txs IH]; intros self m Hok Hs Hm; [by exists self|]. cbn [replay].
  apply StronglySorted_inv in Hs as [Hs Htx].
  destruct (insert_spec self m (tx_rows tx) tx.1 Hok) as (self1 & -> & Hok1 & Ht1).
  - apply Forall_fmap, Forall_forall. by intros [k v] _.
  - intros k s v Hk. apply (Hm k s v tx Hk). left.
  - cbn [mbind option_bind]. destruct (IH self1 (put_rows m (tx_rows tx)) Hok1 Hs) as (self' & Hr & Hok' & Ht').
    + intros k s v tx' Hk Hin. unfold put_rows in Hk. destruct (last (of_key k (tx_rows tx))) as [r|] eqn:Hl.
      * injection Hk as <- <-. apply last_of_key in Hl as [_ Hr]. unfold tx_rows in Hr. apply list_elem_of_fmap in Hr as (kv & -> & _).
        cbn [sequence]. rewrite Forall_forall in Htx. by apply Htx, (list_elem_of_fmap_2 fst).
      * apply (Hm k s v tx' Hk). by right.
    + exists self'. split; [done|]. split; [done|]. rewrite Ht', Ht1. cbn [fmap list_fmap concat]. rewrite length_app.
      unfold tx_rows. rewrite length_fmap. lia.
Qed.
End history.

(** ** The paged set of ids *)

Definition PAGE_IDS : N := 4096.

(** [Ids]: a page is [PAGE_IDS / 64] words, so a word's index is never out of
    its range. *)
Abbreviation Ids := (list (option (list u64))) (only parsing).
Definition page_word (id : u32) : nat := N.to_nat (id mod PAGE_IDS / 64).

(** [Ids::contains] and [Ids::insert]. *)
Definition ids_contains (self : Ids) (id : u32) : bool :=
  match mjoin (self !! N.to_nat (id / PAGE_IDS)) with
  | Some page => (N.land (N.shiftr (default 0 (page !! page_word id)) (id mod 64)) 1 =? 1)%N
  | None => false
  end.
Definition ids_insert (self : Ids) (id : u32) : Ids :=
  let at_ := N.to_nat (id / PAGE_IDS) in
  let pages := if length self <=? at_ then self ++ replicate (S at_ - length self) None else self in
  let page := default (replicate (N.to_nat (PAGE_IDS / 64)) 0%N) (mjoin (pages !! at_)) in
  <[at_ := Some (alter (fun w => N.lor w (N.shiftl 1 (id mod 64))) (page_word id) page)]> pages.

Definition ids_ok (self : Ids) : Prop := forall i page, self !! i = Some (Some page) -> length page = N.to_nat (PAGE_IDS / 64).

Lemma page_word_lt id : page_word id < N.to_nat (PAGE_IDS / 64).
Proof.
  unfold page_word. assert (id mod PAGE_IDS / 64 < PAGE_IDS / 64)%N; [|lia]. change (PAGE_IDS / 64)%N with 64%N.
  apply N.Div0.div_lt_upper_bound. change (64 * 64)%N with PAGE_IDS. by apply N.mod_lt.
Qed.

Lemma same_bit id id' : (id / PAGE_IDS = id' / PAGE_IDS)%N -> (id mod PAGE_IDS / 64 = id' mod PAGE_IDS / 64)%N -> (id mod 64 = id' mod 64)%N -> id = id'.
Proof.
  intros H1 H2 H3. assert (Hd : forall x, (x = PAGE_IDS * (x / PAGE_IDS) + (64 * (x mod PAGE_IDS / 64) + x mod 64))%N).
  { intros x. rewrite (N.div_mod x PAGE_IDS) at 1 by done. f_equal. rewrite (N.div_mod (x mod PAGE_IDS) 64) at 1 by done. f_equal.
    change PAGE_IDS with (64 * 64)%N. rewrite N.Div0.mod_mul_r, (N.mul_comm 64 (_ mod _)), N.Div0.mod_add. by rewrite N.Div0.mod_mod. }
  rewrite (Hd id), (Hd id'). congruence.
Qed.

Lemma ids_insert_spec self id : ids_ok self -> ids_ok (ids_insert self id) /\
  forall id', ids_contains (ids_insert self id) id' = bool_decide (id' = id) || ids_contains self id'.
Proof.
  intros Hok. unfold ids_insert. set (at_ := N.to_nat (id / PAGE_IDS)).
  set (pages := if length self <=? at_ then self ++ replicate (S at_ - length self) None else self).
  assert (Hlen : at_ < length pages) by (subst pages; destruct (Nat.leb_spec (length self) at_); rewrite ?length_app, ?length_replicate; lia).
  assert (Hpages : forall i, mjoin (pages !! i) = mjoin (self !! i)).
  { intros i. subst pages. destruct (Nat.leb_spec (length self) at_); [|done]. destruct (decide (i < length self)) as [Hi|Hi].
    - by rewrite lookup_app_l.
    - rewrite lookup_app_r by lia. rewrite (lookup_ge_None_2 self) by lia. destruct (decide (i - length self < S at_ - length self)).
      + by rewrite lookup_replicate_2.
      + by rewrite lookup_ge_None_2 by (rewrite length_replicate; lia). }
  assert (Hpok : forall i page, mjoin (pages !! i) = Some page -> length page = N.to_nat (PAGE_IDS / 64)).
  { intros i page. rewrite Hpages. intros Hi. apply (Hok i). destruct (self !! i) as [[p|]|]; by simplify_eq/=. }
  set (page := default (replicate (N.to_nat (PAGE_IDS / 64)) 0%N) (mjoin (pages !! at_))).
  assert (Hpl : length page = N.to_nat (PAGE_IDS / 64)).
  { subst page. destruct (mjoin (pages !! at_)) as [p|] eqn:Hp; [by apply (Hpok at_)|cbn [from_option]; by rewrite length_replicate]. }
  split.
  - intros i p Hi. apply list_lookup_insert_Some in Hi as [(_ & [= <-] & _)|[_ Hi]]; [by rewrite length_alter|]. apply (Hpok i). by rewrite Hi.
  - intros id'. unfold ids_contains. destruct (decide (N.to_nat (id' / PAGE_IDS) = at_)) as [Heq|Hne].
    + rewrite Heq, list_lookup_insert_eq by done. cbn [mjoin option_join].
      assert (Hpage : default 0%N (page !! page_word id') = match mjoin (self !! at_) with Some p => default 0%N (p !! page_word id') | None => 0%N end).
      { subst page. rewrite Hpages. destruct (mjoin (self !! at_)); [done|]. cbn. by rewrite lookup_replicate_2 by apply page_word_lt. }
      assert (Hold : match mjoin (self !! at_) with Some p => (N.land (N.shiftr (default 0 (p !! page_word id')) (id' mod 64)) 1 =? 1)%N | None => false end
                     = N.testbit (default 0%N (page !! page_word id')) (id' mod 64)).
      { rewrite Hpage. destruct (mjoin (self !! at_)); [apply land_shiftr_1|]. by rewrite N.bits_0. }
      rewrite Hold. destruct (decide (page_word id' = page_word id)) as [Hw|Hw].
      * rewrite Hw, list_lookup_alter_eq. destruct (lookup_lt_is_Some_2 page (page_word id)) as [w Hww]; [rewrite Hpl; apply page_word_lt|].
        rewrite Hww. cbn. rewrite land_shiftr_1, N.lor_spec, N.shiftl_1_l, N.pow2_bits_eqb, orb_comm. f_equal.
        apply eq_true_iff_eq. rewrite N.eqb_eq, bool_decide_eq_true. split; [|by intros ->]. intros Hb.
        unfold page_word in Hw. subst at_. symmetry. apply same_bit; [lia|lia|done].
      * rewrite list_lookup_alter_ne by done. rewrite land_shiftr_1, bool_decide_eq_false_2 by (by intros ->). done.
    + rewrite list_lookup_insert_ne, Hpages by done. rewrite bool_decide_eq_false_2 by (by intros ->). done.
Qed.

(** ** Properties *)

(** C35: the newest row wins.  Transactions of ascending sequences, replayed
    into empty runs, never panic; a lookup by any comparator that stands for
    a key gives the value written to it last; the latest rows of a range are
    in strict key order and are exactly the last writes of its keys; under a
    cancellation the same rows are read, or the stop is reported; and a
    lookup probes at most one run for each binary digit of the rows. *)
Theorem newest_row_wins {K V : Type} `{OrdLaws K} (txs : list (u64 * list (K * V))) (Hseq : StronglySorted N.lt (fst <$> txs)) :
  exists self, replay [] txs = Some self /\
    (forall f k, agrees f k -> get_by self f = last_written txs k) /\
    (forall start stop, cmp_le start stop = true -> exists l, latest_range self start stop = Some l /\ ordered_rows l /\
       (forall k v, (exists q, mkRow k q v ∈ l) <-> cmp_le start k = true /\ cmp k stop = Lt /\ last_written txs k = Some v) /\
       forall ck (HF : StopFlag ck) c, exists r c', latest_range_until ck self start stop c = Some (r, c') /\
         match r with Some l' => l' = l | None => stopped c' end) /\
    run_count self <= S (Nat.log2 (length (concat (snd <$> txs)))).
Proof.
  destruct (replay_spec [] (fun _ => None) txs runs_ok_empty Hseq ltac:(done)) as (self & Hr & Hok & Ht). exists self. split; [done|].
  assert (Hm : forall k, snd <$> put_all (fun _ => None) txs k = last_written txs k).
  { intros k. rewrite put_all_written. by destruct (last_written txs k). }
  split; [|split].
  - intros f k Hf. by rewrite (get_by_spec self _ Hok f k Hf).
  - intros start stop Hle. destruct (latest_range_spec self _ Hok start stop Hle) as (l & Hl & Hs & Hin). exists l. split_and!; [done..| |].
    + intros k v. rewrite <- Hm. split.
      * intros (q & Hq). apply Hin in Hq as [[H1 H2] Hq]. cbn in *. by rewrite Hq.
      * intros (H1 & H2 & Hv). apply fmap_Some in Hv as ([q v'] & Hq & ->). exists q. by apply Hin.
    + intros ck HF c. destruct (latest_range_until_spec self _ Hok ck start stop c Hle) as (r & c' & Hu & Hr'). exists r, c'.
      split; [done|]. destruct r as [l'|]; [|done]. rewrite Hl in Hr'. by injection Hr'.
  - unfold run_count. etransitivity; [|etransitivity; [apply (ro_few _ _ Hok)|]].
    + unfold runs_of. clear. induction self as [|[o|] l IH]; cbn; lia.
    + rewrite Ht. cbn. by rewrite Nat.add_0_r.
Qed.

(** ** A small history

    Bursts of one, three and two writes: the third is carried past the first,
    whose row for key 2 stays in a lower level. *)
Definition sample_txs : list (u64 * list (N * N)) := [(1, [(2, 20)]); (5, [(7, 70); (2, 21); (7, 71)]); (9, [(4, 40); (2, 22)])]%N.

Example sample_levels :
  (fun self => (map (fun o => match o with Some run => Some (map (fun r => (key r, value r)) (rows run)) | None => None end) self,
                get self 2%N, get self 7%N, get self 3%N)) <$> replay [] sample_txs =
  Some ([Some [(2, 20)]; None; Some [(2, 22); (4, 40); (7, 71)]]%N, Some 22%N, Some 71%N, None).
Proof. vm_compute. reflexivity. Qed.

Lemma newest_row_wins_witness :
  exists self, replay [] sample_txs = Some self /\
    (forall f k, agrees f k -> get_by self f = last_written sample_txs k) /\
    (forall start stop, cmp_le start stop = true -> exists l, latest_range self start stop = Some l /\ ordered_rows l /\
       (forall k v, (exists q, mkRow k q v ∈ l) <-> cmp_le start k = true /\ cmp k stop = Lt /\ last_written sample_txs k = Some v) /\
       forall ck (HF : StopFlag ck) c, exists r c', latest_range_until ck self start stop c = Some (r, c') /\
         match r with Some l' => l' = l | None => stopped c' end) /\
    run_count self <= S (Nat.log2 6).
Proof. apply (newest_row_wins sample_txs). repeat constructor. Defined.
