(* ===== verification/Dormant.v ===== *)
(** * Dormant: retained document identities

    Models [crates/ferret-catalog/src/dormant.rs] and [dormant/state.rs].  A
    document that lost its last reference may keep its id, dormant, for its
    hash to be found again.  A checkpoint stores the dormant rows as two
    columns; [State] finds a row by hash and carries each transaction's
    changes in runs; [prepare] turns the deaths of a transaction into dormant
    rows, under a cap.

    A read of a column that would be out of range is [None] around the
    result.  The rows of a section are numbered by [nat]; [check] bounds them
    far below [u32]'s bound. *)
From S2P Require Import Prelude Word Bytes DocSet Trigrams LogRecords BTree Runs.
#[local] Open Scope ferret_scope.

Abbreviation DocId := N (only parsing).
Abbreviation Hash := (list N) (only parsing).

Definition CAP : N := 1000000.

(** ** Coverage and the canonical table *)

Record Coverage := mkCoverage { frontier : u32; unreadable : list u32 }.

(** [Coverage::new] and [covers]; [binary_search] of the sorted exceptions. *)
Definition coverage_new (frontier : u32) (unreadable : list u32) : Coverage :=
  mkCoverage frontier (dedup (sort_by cmp_le unreadable)).
Definition covers (self : Coverage) (id : DocId) : bool :=
  (id <? frontier self)%N && negb (existsb (N.eqb id) (unreadable self)).

(** [canonicalize]: [a.1.cmp(&b.1).then(b.0.cmp(&a.0))], the rows with
    another hash than the last one kept, by id, without the lowest. *)
Definition by_hash_newest (a b : DocId * Hash) : bool :=
  match cmp a.2 b.2 with Lt => true | Gt => false | Eq => (b.1 <=? a.1)%N end.
Definition by_id (a b : DocId * Hash) : bool := (a.1 <=? b.1)%N.
Fixpoint dedup_hash_from (last : Hash) (l : list (DocId * Hash)) : list (DocId * Hash) :=
  match l with
  | [] => []
  | x :: l => if bool_decide (x.2 = last) then dedup_hash_from last l else x :: dedup_hash_from x.2 l
  end.
Definition dedup_hash (l : list (DocId * Hash)) : list (DocId * Hash) :=
  match l with [] => [] | x :: l => x :: dedup_hash_from x.2 l end.
Definition canonicalize (rows : list (DocId * Hash)) (cap : N) : list (DocId * Hash) :=
  let rows := sort_by by_id (dedup_hash (sort_by by_hash_newest rows)) in
  if (cap <? N.of_nat (length rows))%N then drop (length rows - N.to_nat cap) rows else rows.

(** ** The section *)

(** [write]: the ids, then the hashes. *)
Definition dormant_write (rows : list (DocId * Hash)) : bytes :=
  concat (map (fun r => le_bytes 4 r.1) rows) ++ concat (map snd rows).

(** [rows]. *)
Definition dormant_row (bytes : bytes) (count row : nat) : option (DocId * Hash) :=
  hash ← sub_bytes bytes (count * 4 + row * 16) (count * 4 + (row + 1) * 16);
  id ← u32_at bytes (row * 4);
  Some (id, hash).
Definition dormant_rows (bytes : bytes) : option (list (DocId * Hash)) :=
  let count := length bytes / 20 in mapM (dormant_row bytes count) (seq 0 count).

(** [check_hashes]. *)
Definition check_hashes (hashes : list Hash) : result unit DecodeError :=
  if (CAP <? N.of_nat (length hashes))%N then Err (Corrupt "dormant cap")
  else
    let hashes := sort_by cmp_le hashes in
    if existsb (fun pair => bool_decide (pair !! 0 = pair !! 1)) (windows 2 hashes) then Err (Corrupt "duplicate dormant hash")
    else Ok tt.

(** [check]: the layout is its [next_doc] and the live row of an id. *)
Section check.
Context (next_doc : u32) (sequence_row : u64 -> option nat).

Fixpoint check_rows (last : option DocId) (l : list (DocId * Hash)) (hashes : list Hash) : result (list Hash) DecodeError :=
  match l with
  | [] => Ok hashes
  | (id, hash) :: l =>
      if (next_doc <=? id)%N || is_some_and last (fun last => id <=? last)%N || bool_decide (is_Some (sequence_row id))
      then Err (Corrupt "dormant documents")
      else check_rows (Some id) l (hashes ++ [hash])
  end.
Definition dormant_check (bytes : bytes) : option (result unit DecodeError) :=
  if (CAP <? N.of_nat (length bytes / 20))%N then Some (Err (Corrupt "dormant cap"))
  else
    rows ← dormant_rows bytes;
    Some (hashes <~ check_rows None rows []; check_hashes hashes).
End check.

(** ** The state *)

(** [Base]: a section and its rows ordered by hash. *)
Record Base := mkBase { b_bytes : bytes; by_hash : list nat }.

(** [Base::hash]; its panic is [None]. *)
Definition base_hash (self : Base) (row : nat) : option Hash :=
  let start := length (by_hash self) * 4 + row * 16 in sub_bytes (b_bytes self) start (start + 16).

(** [Base::find]: the binary search answers with the row of the hash. *)
Fixpoint search_hash (self : Base) (hash : Hash) (l : list nat) : option (option nat) :=
  match l with
  | [] => Some None
  | row :: l =>
      h ← base_hash self row;
      match cmp h hash with Eq => Some (Some row) | _ => search_hash self hash l end
  end.
Definition base_find (self : Base) (hash : Hash) : option (option DocId) :=
  found ← search_hash self hash (by_hash self);
  match found with
  | None => Some None
  | Some row => id ← u32_at (b_bytes self) (row * 4); Some (Some id)
  end.

Record State := mkState { st_base : Base; changes : Runs Hash (option DocId); st_count : nat }.

(** [State::new]. *)
Definition hash_le (hashes : bytes) (a b : nat) : bool :=
  cmp_le (slice hashes (a * 16) ((a + 1) * 16)) (slice hashes (b * 16) ((b + 1) * 16)).
Definition state_new (bytes : bytes) : State :=
  let count := length bytes / 20 in
  let hashes := drop (count * 4) bytes in
  let rows := seq 0 (N.to_nat (N.of_nat count mod 2 ^ 32)) in
  mkState (mkBase bytes (sort_by (hash_le hashes) rows)) [] count.

(** [State::find]. *)
Definition find (self : State) (hash : Hash) : option (option DocId) :=
  match get (changes self) hash with
  | Some id => Some id
  | None => base_find (st_base self) hash
  end.

(** [State::advance]. *)
Section advance.
Context (self : State).

Fixpoint revoke_all (removed : list (DocId * Hash)) (changes : list (Hash * option DocId)) :
  option (result (list (Hash * option DocId)) DecodeError) :=
  match removed with
  | [] => Some (Ok changes)
  | (id, hash) :: removed =>
      found ← find self hash;
      if bool_decide (found <> Some id) then Some (Err (Corrupt "dormant documents"))
      else revoke_all removed (bt_insert hash None changes)
  end.
Fixpoint retain_all (added : list (DocId * Hash)) (changes : list (Hash * option DocId)) :
  option (result (list (Hash * option DocId)) DecodeError) :=
  match added with
  | [] => Some (Ok changes)
  | (id, hash) :: added =>
      prior ← match bt_get hash changes with Some prior => Some prior | None => find self hash end;
      if bool_decide (prior <> None) then Some (Err (Corrupt "duplicate dormant hash"))
      else retain_all added (bt_insert hash (Some id) changes)
  end.
Definition advance (sequence : u64) (removed added : list (DocId * Hash)) : option (result State DecodeError) :=
  r ← revoke_all removed [];
  match r with
  | Err e => Some (Err e)
  | Ok changed =>
      r ← retain_all added changed;
      match r with
      | Err e => Some (Err e)
      | Ok changed =>
          if st_count self <? length removed then Some (Err (Corrupt "dormant cap"))
          else
            let count := st_count self - length removed + length added in
            if (CAP <? N.of_nat count)%N then Some (Err (Corrupt "dormant cap"))
            else
              changes ← insert_rows (changes self) (map (fun e => mkRow e.1 sequence e.2) changed);
              Some (Ok (mkState (st_base self) changes count))
      end
  end.
End advance.

(** ** Preparing a transaction *)

(** What [prepare] asks of a view, and a transaction's records. *)
Record View := mkView { doc_hash : DocId -> option Hash; dormant_hash : DocId -> option Hash; dormant_state : State }.

(** The document a record replaces. *)
Definition doc_row (r : Record_) : option DocId :=
  match r with DocPut id _ _ | DocDelete id | DocDormant id _ | DocForget id => Some id | _ => None end.

(** [final_rows]. *)
Definition final_docs (records : list Record_) : list (DocId * Record_) :=
  bt_collect (omap (fun r => id ← doc_row r; Some (id, r)) records).

(** [eligible]: the covered deaths. *)
Definition dying (view : View) (coverage : option Coverage) (final : list (DocId * Record_)) : list (DocId * Hash) :=
  omap (fun e =>
    match e.2 with
    | DocDelete _ =>
        if is_some_and coverage (fun c => covers c e.1) then hash ← doc_hash view e.1; Some (e.1, hash) else None
    | _ => None
    end) final.

(** [eligible.retain(..)]: against the retained holder of the hash. *)
Fixpoint retain_newer (view : View) (final : list (DocId * Record_)) (l : list (DocId * Hash)) (revoked : list DocId) :
  option (list (DocId * Hash) * list DocId) :=
  match l with
  | [] => Some ([], revoked)
  | (id, hash) :: l =>
      found ← find (dormant_state view) hash;
      match found with
      | Some prior =>
          if bool_decide (bt_get prior final = None) then
            if (id <? prior)%N then retain_newer view final l revoked
            else '(l, revoked) ← retain_newer view final l (bs_add revoked prior); Some ((id, hash) :: l, revoked)
          else '(l, revoked) ← retain_newer view final l revoked; Some ((id, hash) :: l, revoked)
      | None => '(l, revoked) ← retain_newer view final l revoked; Some ((id, hash) :: l, revoked)
      end
  end.

(** The [peek] loop over the retained ids. *)
Fixpoint skip_old (final : list (DocId * Record_)) (revoked : list DocId) (old : list DocId) : list DocId :=
  match old with
  | [] => []
  | id :: old' => if bool_decide (bt_get id final <> None) || bool_decide (id ∈ revoked) then skip_old final revoked old' else old
  end.

(** [while count > cap.min(CAP)]: evicts the lowest id, [excess] times. *)
Fixpoint evict (final : list (DocId * Record_)) (excess : nat) (old new revoked evicted : list DocId) :
  option (list DocId * list DocId) :=
  match excess with
  | 0 => Some (revoked, evicted)
  | S excess =>
      let old := skip_old final revoked old in
      if is_some_and (head new) (fun id => is_none_or (head old) (fun old => id <? old)%N) then
        match new with
        | [] => None
        | id :: new => evict final excess old new revoked (bs_add evicted id)
        end
      else
        match old with
        | [] => None
        | id :: old => evict final excess old new (bs_add revoked id) evicted
        end
  end.

(** [prepare]; an underflow of [count] would be a panic. *)
Definition to_dormant (eligible : list (DocId * Hash)) (evicted : list DocId) (r : Record_) : Record_ :=
  match r with
  | DocDelete id =>
      match bt_get id eligible with
      | Some hash => if bool_decide (id ∈ evicted) then r else DocDormant id hash
      | None => r
      end
  | _ => r
  end.
Definition prepare (view : View) (records : list Record_) (coverage : option Coverage) (cap : N) (retained_ids : list DocId) :
  option (list Record_) :=
  let final := final_docs records in
  let eligible := dying view coverage final in
  if is_empty eligible then Some records
  else
    '(eligible, revoked) ← retain_newer view final (canonicalize eligible (2 ^ 64 - 1)) [];
    let eligible := bt_collect eligible in
    let removed := length (filter (fun id => is_Some (dormant_hash view id)) final.*1) in
    let total := st_count (dormant_state view) in
    if total <? removed + length revoked then None
    else
      let count := N.of_nat (total - removed - length revoked + length eligible) in
      let bound := N.min cap CAP in
      '(revoked, evicted) ← evict final (N.to_nat (count - bound)) retained_ids eligible.*1 revoked [];
      Some (map (to_dormant eligible evicted) records ++ map DocForget revoked).

(** ** The canonical table, specified *)

(** The newest holder of its hash. *)
Definition holder (rows : list (DocId * Hash)) (r : DocId * Hash) : Prop :=
  r ∈ rows /\ forall id, (id, r.2) ∈ rows -> (id <= r.1)%N.

Definition newest_first (l : list (DocId * Hash)) : Prop := StronglySorted (fun a b => by_hash_newest a b = true) l.
Definition hashes_ascend (l : list (DocId * Hash)) : Prop := StronglySorted (fun a b => cmp a.2 b.2 = Lt) l.

Lemma by_hash_total a b : by_hash_newest a b = false -> by_hash_newest b a = true.
Proof.
  unfold by_hash_newest. rewrite (cmp_antisym a.2 b.2). destruct (cmp a.2 b.2); cbn; [|done..]. intros ?%N.leb_gt. apply N.leb_le. lia.
Qed.
Lemma by_hash_trans a b c : by_hash_newest a b = true -> by_hash_newest b c = true -> by_hash_newest a c = true.
Proof.
  unfold by_hash_newest. destruct (cmp a.2 b.2) eqn:E1; [apply cmp_eq in E1 as ->| |done].
  - destruct (cmp b.2 c.2); [|done..]. intros ?%N.leb_le ?%N.leb_le. apply N.leb_le. lia.
  - destruct (cmp b.2 c.2) eqn:E2; [apply cmp_eq in E2 as <-; by rewrite E1| |done]. by rewrite (cmp_trans _ _ _ E1 E2).
Qed.

Lemma by_hash_newest_le a b : by_hash_newest a b = true -> cmp_le a.2 b.2 = true /\ (a.2 = b.2 -> (b.1 <= a.1)%N).
Proof.
  unfold by_hash_newest, cmp_le. destruct (cmp a.2 b.2) eqn:E; [|split; [done|intros Hab; by rewrite Hab, cmp_refl in E]|done].
  intros ?%N.leb_le. by split.
Qed.

Lemma holder_exists rows r : r ∈ rows -> exists j, holder rows (j, r.2) /\ (r.1 <= j)%N.
Proof.
  destruct r as [i h]. cbn [fst snd]. intros Hr. assert (Hex : exists j, holder rows (j, h)).
  { assert (Hin : h ∈ rows.*2) by (by apply (list_elem_of_fmap_2 snd) in Hr). clear Hr. unfold holder. induction rows as [|[i0 h0] rows IH]; [by apply not_elem_of_nil in Hin|].
    cbn [fst snd] in *. destruct (decide (h ∈ rows.*2)) as [Hh|Hh].
    - destruct (IH Hh) as (j & Hj & Hmax). destruct (decide (h0 = h /\ (j < i0)%N)) as [[-> Hlt]|Hn].
      + exists i0. split; [by left|]. intros id [[= ->]|Hid]%elem_of_cons; [done|]. specialize (Hmax id Hid). lia.
      + exists j. split; [by right|]. intros id [[= -> ->]|Hid]%elem_of_cons; [|by apply Hmax]. destruct (N.le_gt_cases i0 j); [done|]. by destruct Hn.
    - rewrite fmap_cons in Hin. apply elem_of_cons in Hin as [Heq|?]; [|done]. cbn in Heq. subst h0. exists i0. split; [by left|].
      intros id [[= ->]|Hid]%elem_of_cons; [done|]. by apply (list_elem_of_fmap_2 snd) in Hid. }
  destruct Hex as (j & Hj). exists j. split; [done|]. by apply Hj.
Qed.

(** A head kept before what is kept after it. *)
Lemma holder_head x (l d : list (DocId * Hash)) : Forall (fun r => by_hash_newest x r = true) l ->
  (forall r, r ∈ d <-> r.2 <> x.2 /\ holder l r) -> hashes_ascend d ->
  (forall r, r ∈ x :: d <-> holder (x :: l) r) /\ hashes_ascend (x :: d).
Proof.
  intros Hx Hd Hs. rewrite Forall_forall in Hx. split.
  - intros r. rewrite elem_of_cons, Hd. unfold holder. split.
    + intros [->|(Hne & Hin & Hmax)].
      * split; [by left|]. intros id [[= <-]|Hid]%elem_of_cons; [done|]. by apply (by_hash_newest_le _ _ (Hx _ Hid)).
      * split; [by right|]. intros id [[= <-]|?]%elem_of_cons; [done|by apply Hmax].
    + intros [[->|Hin]%elem_of_cons Hmax]; [by left|]. destruct (decide (r = x)) as [->|Hrx]; [by left|]. right.
      split_and!; [|done|intros id Hid; apply Hmax; by right]. intros Hh. apply Hrx.
      assert (Hle : (x.1 <= r.1)%N) by (apply Hmax; rewrite Hh; destruct x; by left).
      pose proof (proj2 (by_hash_newest_le _ _ (Hx _ Hin)) (eq_sym Hh)) as Hle'. destruct r, x; cbn in *. f_equal; [lia|done].
  - constructor; [done|]. apply Forall_forall. intros r (Hne & Hin & _)%Hd. destruct (by_hash_newest_le _ _ (Hx _ Hin)) as [Hle _].
    unfold cmp_le in Hle. destruct (cmp x.2 r.2) eqn:E; try done. apply cmp_eq in E. by rewrite E in Hne.
Qed.

Lemma dedup_hash_from_spec last (l : list (DocId * Hash)) : newest_first l -> Forall (fun r => cmp_le last r.2 = true) l ->
  (forall r, r ∈ dedup_hash_from last l <-> r.2 <> last /\ holder l r) /\ hashes_ascend (dedup_hash_from last l).
Proof.
  intros Hs. revert last. induction Hs as [|x l Hl IH Hx]; intros last Hlast; cbn [dedup_hash_from].
  { split; [|constructor]. intros r. unfold holder. set_solver. }
  apply Forall_cons in Hlast as [Hlx Hlast].
  assert (Hxl : Forall (fun r => cmp_le x.2 r.2 = true) l) by (eapply Forall_impl; [exact Hx|]; by intros r [? _]%by_hash_newest_le).
  case_bool_decide as Heq.
  - destruct (IH last Hlast) as [I1 I2]. split; [|done]. intros r. rewrite I1. unfold holder. split.
    + intros (Hne & Hin & Hmax). split_and!; [done|by right|]. intros id [[= <-]|?]%elem_of_cons; [done|by apply Hmax].
    + intros (Hne & [->|Hin]%elem_of_cons & Hmax); [done|]. split_and!; [done..|]. intros id Hid. apply Hmax. by right.
  - destruct (IH x.2 Hxl) as [I1 I2]. destruct (holder_head x l _ Hx I1 I2) as [K1 K2]. split; [|done].
    intros r. rewrite K1. split; [|tauto]. intros Hr. split; [|done]. destruct Hr as [[->|Hin]%elem_of_cons _]; [done|].
    intros Hr. rewrite Forall_forall in Hxl. specialize (Hxl _ Hin). unfold cmp_le in *. rewrite Hr, (cmp_antisym last x.2) in Hxl.
    destruct (cmp last x.2) eqn:E; try done. apply cmp_eq in E. congruence.
Qed.

Lemma dedup_hash_spec (l : list (DocId * Hash)) : newest_first l ->
  (forall r, r ∈ dedup_hash l <-> holder l r) /\ hashes_ascend (dedup_hash l).
Proof.
  intros [|x l' Hl Hx]; [split; [|constructor]; intros r; unfold holder; set_solver|]. cbn [dedup_hash].
  destruct (dedup_hash_from_spec x.2 l' Hl) as [I1 I2]; [eapply Forall_impl; [exact Hx|]; by intros r [? _]%by_hash_newest_le|].
  by apply holder_head.
Qed.

Lemma ascend_nodup (l : list (DocId * Hash)) : hashes_ascend l -> NoDup l.*2.
Proof.
  induction 1 as [|x l _ IH Hx]; [constructor|]. rewrite fmap_cons. constructor; [|done]. intros (y & Hy & Hin)%list_elem_of_fmap.
  rewrite Forall_forall in Hx. specialize (Hx _ Hin). by rewrite Hy, cmp_refl in Hx.
Qed.

(** The table before the cap. *)
Definition canonical (rows : list (DocId * Hash)) : list (DocId * Hash) := sort_by by_id (dedup_hash (sort_by by_hash_newest rows)).

Lemma canonicalize_cap rows cap : canonicalize rows cap = drop (length (canonical rows) - N.to_nat cap) (canonical rows).
Proof. unfold canonicalize. fold (canonical rows). destruct (N.ltb_spec cap (N.of_nat (length (canonical rows)))); [done|].
  replace (length (canonical rows) - N.to_nat cap) with 0 by lia. done. Qed.

(** Each hash's newest holder, by id. *)
Lemma canonical_spec rows : (forall r, r ∈ canonical rows <-> holder rows r) /\ NoDup (canonical rows).*2 /\
  StronglySorted (fun a b => by_id a b = true) (canonical rows).
Proof.
  destruct (dedup_hash_spec (sort_by by_hash_newest rows)) as [I1 I2].
  { apply sort_total_sorted; [apply by_hash_total|apply by_hash_trans]. }
  unfold canonical. split_and!.
  - intros r. rewrite sort_by_perm, I1. unfold holder. by setoid_rewrite sort_by_perm.
  - rewrite sort_by_perm. by apply ascend_nodup.
  - apply sort_total_sorted; unfold by_id; [intros a b ?%N.leb_gt; apply N.leb_le; lia|].
    intros a b c ?%N.leb_le ?%N.leb_le. apply N.leb_le. lia.
Qed.

(** Rows with one hash per id are left in strict id order. *)
Lemma canonical_ascending rows : (forall id h h', (id, h) ∈ rows -> (id, h') ∈ rows -> h = h') -> StronglySorted N.lt (canonical rows).*1.
Proof.
  intros Honce. destruct (canonical_spec rows) as (Hin & Hn & Hs). assert (Hp : Forall (fun r => r ∈ rows) (canonical rows)).
  { apply Forall_forall. intros r Hr. by apply Hin in Hr as [? _]. } revert Hs Hp Hn. clear Hin. generalize (canonical rows) as c.
  induction 1 as [|x c _ IH Hx]; intros Hp Hn; [constructor|]. apply Forall_cons in Hp as [Hxp Hp]. rewrite fmap_cons in Hn. rewrite fmap_cons.
  apply NoDup_cons in Hn as [Hni Hn]. constructor; [by apply IH|]. rewrite Forall_fmap. rewrite Forall_forall in Hx, Hp |- *. intros r Hr. cbn.
  specialize (Hx r Hr). unfold by_id in Hx. apply N.leb_le in Hx. destruct (decide (x.1 = r.1)) as [Heq|?]; [|lia]. exfalso. apply Hni.
  apply list_elem_of_fmap. exists r. split; [|done]. destruct x as [i h], r as [j h']. cbn in *. subst. eapply Honce; [exact Hxp|by apply Hp].
Qed.

Lemma length_dedup_hash_from last l : length (dedup_hash_from last l) <= length l.
Proof. revert last. induction l as [|x l IH]; intros last; cbn [dedup_hash_from]; [done|]. case_bool_decide; cbn [length]; [rewrite IH; lia|specialize (IH x.2); lia]. Qed.

Lemma length_canonical rows : length (canonical rows) <= length rows.
Proof.
  unfold canonical. rewrite (sort_by_perm by_id). rewrite <- (Permutation_length (sort_by_perm by_hash_newest rows)).
  destruct (sort_by by_hash_newest rows) as [|x l]; [done|]. cbn [dedup_hash length]. pose proof (length_dedup_hash_from x.2 l). lia.
Qed.

(** ** The section, read *)

Definition stored (r : DocId * Hash) : Prop := (r.1 < 2 ^ 32)%N /\ length r.2 = 16.

(** Reading a section never leaves it. *)
Lemma dormant_rows_total bytes : exists l, dormant_rows bytes = Some l /\ length l = length bytes / 20 /\
  forall row r, l !! row = Some r -> dormant_row bytes (length bytes / 20) row = Some r.
Proof.
  unfold dormant_rows. set (count := length bytes / 20). assert (Hc : count * 20 <= length bytes) by (subst count; rewrite Nat.mul_comm; apply Nat.Div0.mul_div_le).
  destruct (mapM (dormant_row bytes count) (seq 0 count)) as [l|] eqn:E.
  - exists l. split; [done|]. apply mapM_Some_1 in E. split; [by rewrite <- (Forall2_length _ _ _ E), length_seq|].
    intros row r Hr. destruct (Forall2_lookup_r _ _ _ _ _ E Hr) as (i & Hi & Hd). by apply lookup_seq in Hi as [-> _].
  - exfalso. assert (Hs : is_Some (mapM (dormant_row bytes count) (seq 0 count))); [|rewrite E in Hs; by destruct Hs].
    apply mapM_is_Some_2, Forall_forall. intros row Hrow%elem_of_seq. cbn. unfold dormant_row.
    rewrite sub_bytes_in by lia. cbn [mbind option_bind]. rewrite u32_at_in by lia. by eexists.
Qed.

Lemma dormant_rows_write l : Forall stored l -> dormant_rows (dormant_write l) = Some l.
Proof.
  intros Hl. unfold dormant_write. rewrite <- concat_app. set (ids := map (fun r => le_bytes 4 r.1) l).
  assert (Hids : forall n, length (concat (take n ids)) = length (take n ids) * 4).
  { intros n. apply length_concat_same, Forall_take. subst ids. apply Forall_forall. intros x (r & -> & _)%list_elem_of_fmap. apply length_le_bytes. }
  assert (Hhs : forall n, length (concat (take n (map snd l))) = length (take n (map snd l)) * 16).
  { intros n. apply length_concat_same, Forall_take. apply Forall_forall. intros x (r & -> & Hr)%list_elem_of_fmap. rewrite Forall_forall in Hl. apply Hl, Hr. }
  assert (Hli : length ids = length l) by apply length_map.
  assert (Hlen : length (concat (ids ++ map snd l)) = length l * 20).
  { rewrite concat_app, length_app. rewrite <- (firstn_all ids), <- (firstn_all (map snd l)), Hids, Hhs, !firstn_all, length_map. lia. }
  unfold dormant_rows. rewrite Hlen, Nat.div_mul by done. apply mapM_Some_2, Forall2_same_length_lookup. split; [by rewrite length_seq|].
  intros i x [id hash] [-> Hi]%lookup_seq Hr. cbn [Nat.add]. unfold dormant_row. rewrite Forall_lookup in Hl. destruct (Hl i _ Hr) as [Hid Hh]. cbn in Hid, Hh.
  rewrite (sub_concat _ (length l + i) hash).
  - cbn [mbind option_bind]. rewrite (u32_concat _ i id); [done| |rewrite take_app_le by lia; rewrite Hids, length_take; lia|done].
    rewrite lookup_app_l by lia. subst ids. by rewrite list_lookup_fmap, Hr.
  - rewrite lookup_app_r by lia. rewrite Hli, Nat.add_comm, Nat.add_sub, list_lookup_fmap, Hr. done.
  - rewrite <- Hli, take_app_add', concat_app, length_app by done. rewrite Hhs, length_take, length_map.
    rewrite <- (firstn_all ids), Hids, firstn_all. lia.
  - lia.
Qed.

(** ** Checking *)

Definition checked_rows (next_doc : u32) (live : u64 -> option nat) (l : list (DocId * Hash)) : Prop :=
  StronglySorted N.lt l.*1 /\ Forall (fun r => r.1 < next_doc /\ live r.1 = None)%N l.

Lemma check_rows_spec next_doc live last l hashes :
  match check_rows next_doc live last l hashes with
  | Ok hs => hs = hashes ++ l.*2 /\ checked_rows next_doc live l /\ forall i, last = Some i -> Forall (fun r => i < r.1)%N l
  | Err _ => ~ (checked_rows next_doc live l /\ forall i, last = Some i -> Forall (fun r => i < r.1)%N l)
  end.
Proof.
  revert last hashes. induction l as [|[id hash] l IH]; intros last hashes; cbn [check_rows].
  { rewrite app_nil_r. split; [done|]. split; [by repeat constructor|by constructor]. }
  destruct ((next_doc <=? id)%N || is_some_and last (fun last => id <=? last)%N || bool_decide (is_Some (live id))) eqn:E.
  - intros [[Hs Hf] Hlast]. apply Forall_cons in Hf as [[H1 H2] Hf]. cbn in *. apply orb_true_iff in E as [[E%N.leb_le|E]%orb_true_iff|E%bool_decide_eq_true].
    + lia.
    + destruct last as [i|]; [|done]. cbn in E. apply N.leb_le in E. specialize (Hlast i eq_refl). apply Forall_cons in Hlast as [? _]. cbn in *. lia.
    + rewrite H2 in E. by destruct E.
  - apply orb_false_iff in E as [[E1%N.leb_gt E2]%orb_false_iff E3%bool_decide_eq_false].
    assert (Hlive : live id = None) by (destruct (live id); [by destruct E3|done]).
    assert (Hi : forall i, last = Some i -> (i < id)%N) by (intros i ->; cbn in E2; by apply N.leb_gt in E2).
    specialize (IH (Some id) (hashes ++ [hash])). unfold checked_rows in *.
    assert (Hiff : (StronglySorted N.lt ((id, hash) :: l).*1 /\ Forall (fun r => r.1 < next_doc /\ live r.1 = None)%N ((id, hash) :: l)) /\
                   (forall i, last = Some i -> Forall (fun r => i < r.1)%N ((id, hash) :: l)) <->
                   (StronglySorted N.lt l.*1 /\ Forall (fun r => r.1 < next_doc /\ live r.1 = None)%N l) /\
                   (forall i, Some id = Some i -> Forall (fun r => i < r.1)%N l)).
    { rewrite fmap_cons. split.
      - intros [[Hs Hf] _]. apply StronglySorted_inv in Hs as [Hs Hx]. apply Forall_cons in Hf as [_ Hf]. split; [done|]. intros i [= <-]. by rewrite Forall_fmap in Hx.
      - intros [[Hs Hf] Hx]. specialize (Hx id eq_refl). split; [split; [constructor; [done|by rewrite Forall_fmap]|by constructor]|].
        intros i Hl. specialize (Hi i Hl). constructor; [done|]. eapply Forall_impl; [exact Hx|]. cbn. intros r Hr. lia. }
    destruct (check_rows next_doc live (Some id) l (hashes ++ [hash])) as [hs|e].
    + destruct IH as [-> IH]. apply Hiff in IH. split; [by rewrite fmap_cons, <- app_assoc|done].
    + by rewrite Hiff.
Qed.

Lemma check_hashes_spec hashes :
  match check_hashes hashes with
  | Ok _ => (N.of_nat (length hashes) <= CAP)%N /\ NoDup hashes
  | Err _ => ~ ((N.of_nat (length hashes) <= CAP)%N /\ NoDup hashes)
  end.
Proof.
  unfold check_hashes. destruct (N.ltb_spec CAP (N.of_nat (length hashes))); [intros [? _]; lia|].
  pose proof (neighbours_nodup (sort_by cmp_le hashes) (sort_by_sorted hashes)) as Hn. rewrite sort_by_perm in Hn at 1.
  destruct (existsb _ _) eqn:E.
  - intros [_ Hd]. apply existsb_elem in E as (w & (i & a & b & Ha & Hb & ->)%elem_of_windows & Heq%bool_decide_eq_true).
    cbn in Heq. injection Heq as ->. by apply (proj1 Hn Hd i b).
  - split; [done|]. apply Hn. intros i a Ha Hb. rewrite <- not_true_iff_false in E. apply E, existsb_elem.
    exists [a; a]. split; [apply elem_of_windows; by exists i, a, a|]. by apply bool_decide_eq_true.
Qed.

(** What a checked section is. *)
Definition valid_rows (next_doc : u32) (live : u64 -> option nat) (l : list (DocId * Hash)) : Prop :=
  (N.of_nat (length l) <= CAP)%N /\ checked_rows next_doc live l /\ NoDup l.*2.

Lemma dormant_check_spec next_doc live bytes : exists r l, dormant_check next_doc live bytes = Some r /\ dormant_rows bytes = Some l /\
  match r with Ok _ => valid_rows next_doc live l | Err _ => ~ valid_rows next_doc live l end.
Proof.
  destruct (dormant_rows_total bytes) as (l & Hl & Hlen & _). unfold dormant_check, valid_rows. rewrite <- Hlen, Hl.
  destruct (N.ltb_spec CAP (N.of_nat (length l))) as [Hc|Hc].
  { eexists _, l. split_and!; [done..|]. cbn. intros [? _]. lia. }
  cbn [mbind option_bind]. eexists _, l. split_and!; [done..|]. pose proof (check_rows_spec next_doc live None l []) as Hr.
  destruct (check_rows next_doc live None l []) as [hs|e]; cbn [result_bind].
  - destruct Hr as (-> & Hr & _). cbn [app]. pose proof (check_hashes_spec l.*2) as Hh. rewrite length_fmap in Hh.
    destruct (check_hashes l.*2); [by destruct Hh|]. intros (? & _ & ?). by apply Hh.
  - intros (_ & Hk & _). by apply Hr.
Qed.

(** ** A checkpoint's state *)

Section base.
Context (bytes : list N) (l : list (DocId * Hash)) (Hrows : dormant_rows bytes = Some l) (Hcap : (N.of_nat (length l) <= CAP)%N).

Lemma rows_count : length bytes / 20 = length l.
Proof. destruct (dormant_rows_total bytes) as (l' & Hl' & Hlen & _). congruence. Qed.

Lemma stored_row row r : l !! row = Some r -> dormant_row bytes (length l) row = Some r.
Proof. destruct (dormant_rows_total bytes) as (l' & Hl' & _ & Hr). rewrite rows_count in Hr. simplify_eq. apply Hr. Qed.

Lemma rows_numbered : seq 0 (N.to_nat (N.of_nat (length l) mod 2 ^ 32)) = seq 0 (length l).
Proof. rewrite N.mod_small, Nat2N.id; [done|]. unfold CAP in Hcap. lia. Qed.

Lemma elem_of_by_hash row : row ∈ by_hash (st_base (state_new bytes)) <-> row < length l.
Proof. cbn [state_new st_base by_hash]. rewrite rows_count, rows_numbered, sort_by_perm, elem_of_seq. lia. Qed.

Lemma length_by_hash : length (by_hash (st_base (state_new bytes))) = length l.
Proof. cbn [state_new st_base by_hash]. by rewrite rows_count, rows_numbered, (sort_by_perm _ (seq 0 (length l))), length_seq. Qed.

Lemma base_hash_row row r : l !! row = Some r -> base_hash (st_base (state_new bytes)) row = Some r.2.
Proof.
  intros Hr. apply stored_row in Hr as Hd. unfold base_hash. rewrite length_by_hash. cbn [state_new st_base b_bytes]. unfold dormant_row in Hd.
  replace (length l * 4 + row * 16 + 16) with (length l * 4 + (row + 1) * 16) by lia.
  destruct (sub_bytes bytes (length l * 4 + row * 16) (length l * 4 + (row + 1) * 16)) as [h|]; [|done]. cbn [mbind option_bind] in Hd.
  destruct (u32_at bytes (row * 4)); [|done]. by injection Hd as <-.
Qed.

Lemma search_hash_spec h ks : (forall row, row ∈ ks -> row < length l) ->
  exists o, search_hash (st_base (state_new bytes)) h ks = Some o /\
    match o with Some row => row ∈ ks /\ (snd <$> l !! row) = Some h | None => forall row, row ∈ ks -> (snd <$> l !! row) <> Some h end.
Proof.
  induction ks as [|row ks IH]; intros Hks; cbn [search_hash]; [exists None; split; [done|]; intros row; by intros ?%not_elem_of_nil|].
  destruct (lookup_lt_is_Some_2 l row) as [r Hr]; [apply Hks; by left|]. rewrite (base_hash_row row r Hr). cbn [mbind option_bind].
  destruct (cmp r.2 h) eqn:E.
  - apply cmp_eq in E. exists (Some row). split; [done|]. split; [by left|]. rewrite Hr. cbn. by rewrite E.
  - destruct IH as (o & Ho & Hs); [intros; apply Hks; by right|]. exists o. split; [done|]. destruct o as [row'|].
    + destruct Hs. split; [by right|done].
    + intros row' [->|Hin]%elem_of_cons; [|by apply Hs]. rewrite Hr. cbn. intros [= <-]. by rewrite cmp_refl in E.
  - destruct IH as (o & Ho & Hs); [intros; apply Hks; by right|]. exists o. split; [done|]. destruct o as [row'|].
    + destruct Hs. split; [by right|done].
    + intros row' [->|Hin]%elem_of_cons; [|by apply Hs]. rewrite Hr. cbn. intros [= <-]. by rewrite cmp_refl in E.
Qed.

(** The table of the rows, by hash. *)
Definition table (l : list (DocId * Hash)) : gmap Hash DocId := list_to_map ((fun r => (r.2, r.1)) <$> l).

Lemma table_keys (l' : list (DocId * Hash)) : ((fun r => (r.2, r.1)) <$> l').*1 = l'.*2.
Proof. induction l' as [|r l' IH]; [done|]. by rewrite !fmap_cons, IH. Qed.

Lemma table_lookup (l' : list (DocId * Hash)) h id : NoDup l'.*2 -> table l' !! h = Some id <-> (id, h) ∈ l'.
Proof.
  intros Hn. unfold table. rewrite <- elem_of_list_to_map by (by rewrite table_keys). rewrite list_elem_of_fmap. split.
  - by intros ([i x] & [= -> ->] & Hin).
  - intros Hin. by exists (id, h).
Qed.

Lemma table_none (l' : list (DocId * Hash)) h : table l' !! h = None <-> h ∉ l'.*2.
Proof. unfold table. by rewrite <- not_elem_of_list_to_map, table_keys. Qed.

Lemma base_find_spec h : NoDup l.*2 -> base_find (st_base (state_new bytes)) h = Some (table l !! h).
Proof.
  intros Hn. unfold base_find. destruct (search_hash_spec h (by_hash (st_base (state_new bytes)))) as (o & -> & Hs).
  { intros row. apply elem_of_by_hash. }
  cbn [mbind option_bind]. destruct o as [row|].
  - destruct Hs as [_ Hrow]. apply fmap_Some in Hrow as ([id hash] & Hr & ->). apply stored_row in Hr as Hd. unfold dormant_row in Hd.
    destruct (sub_bytes _ _ _); [|done]. cbn [mbind option_bind state_new st_base b_bytes snd] in *. destruct (u32_at bytes (row * 4)) as [id'|]; [|done].
    injection Hd as -> <-. cbn. f_equal. symmetry. apply table_lookup; [done|]. by eapply list_elem_of_lookup_2.
  - f_equal. symmetry. apply table_none. intros (r & -> & (row & Hr)%list_elem_of_lookup)%list_elem_of_fmap.
    apply (Hs row); [apply elem_of_by_hash; by eapply lookup_lt_Some|by rewrite Hr].
Qed.

(** The rows are in hash order, as the binary search wants them. *)
Lemma by_hash_sorted : exists hs, mapM (base_hash (st_base (state_new bytes))) (by_hash (st_base (state_new bytes))) = Some hs /\
  StronglySorted (fun a b => cmp_le a b = true) hs.
Proof.
  assert (Hs : StronglySorted (fun a b => hash_le (drop (length l * 4) bytes) a b = true) (by_hash (st_base (state_new bytes)))).
  { cbn [state_new st_base by_hash]. rewrite rows_count. apply sort_total_sorted; unfold hash_le; [|intros a b c; apply cmp_le_trans].
    intros a b Hab%cmp_le_total. unfold cmp_le. by rewrite Hab. }
  assert (Hh : forall row, row < length l -> base_hash (st_base (state_new bytes)) row = Some (slice (drop (length l * 4) bytes) (row * 16) ((row + 1) * 16))).
  { intros row Hrow. destruct (lookup_lt_is_Some_2 l row Hrow) as [r Hr]. rewrite (base_hash_row row r Hr). f_equal. apply stored_row in Hr. unfold dormant_row, sub_bytes in Hr.
    destruct ((_ <=? _) && (_ <=? _)); [|done]. cbn [mbind option_bind] in Hr. destruct (u32_at bytes (row * 4)); [|done]. injection Hr as <-. cbn.
    unfold slice. rewrite drop_drop. f_equal. lia. }
  assert (Hin : Forall (fun row => row < length l) (by_hash (st_base (state_new bytes)))) by (apply Forall_forall; intros row; apply elem_of_by_hash).
  induction Hs as [|x ks _ IH Hx]; [exists []; split; [done|constructor]|]. apply Forall_cons in Hin as [Hxl Hin]. destruct (IH Hin) as (hs & Hhs & Hss).
  eexists. cbn [mapM]. rewrite (Hh x Hxl), Hhs. cbn. split; [done|]. constructor; [done|]. apply mapM_Some_1 in Hhs. apply Forall_lookup. intros i h Hi.
  destruct (Forall2_lookup_r _ _ _ _ _ Hhs Hi) as (row & Hrow & Hb). rewrite Forall_lookup in Hx, Hin. specialize (Hx _ _ Hrow). rewrite Hh in Hb by (by eapply Hin).
  injection Hb as <-. done.
Qed.
End base.

(** ** A state is a table *)

(** Under every change up to [last]: a hash finds its id, and the count is
    the table's. *)
Record state_ok (st : State) (last : u64) (m : gmap Hash DocId) : Prop := {
  so_runs : exists mc, runs_ok (changes st) mc /\ (forall k s v, mc k = Some (s, v) -> s <= last)%N /\
    forall h, exists d, base_find (st_base st) h = Some d /\ m !! h = match mc h with Some (_, id) => id | None => d end;
  so_count : st_count st = base.size m
}.

Lemma state_new_ok bytes l last : dormant_rows bytes = Some l -> (N.of_nat (length l) <= CAP)%N -> NoDup l.*2 ->
  state_ok (state_new bytes) last (table l).
Proof.
  intros Hr Hc Hn. split.
  - exists (fun _ => None). split; [apply runs_ok_empty|]. split; [done|]. intros h. exists (table l !! h). split; [|done]. by apply base_find_spec.
  - cbn [state_new st_count]. rewrite (rows_count bytes l Hr). unfold table. rewrite map_size_list_to_map by (by rewrite table_keys). by rewrite length_fmap.
Qed.

Lemma find_ok st last m h : state_ok st last m -> find st h = Some (m !! h).
Proof.
  intros [(mc & Hr & _ & Hh) _]. destruct (Hh h) as (d & Hd & Hm). unfold find, get. rewrite (get_by_spec _ mc Hr _ h) by done.
  rewrite Hm. destruct (mc h) as [[s id]|]; [done|]. exact Hd.
Qed.

(** What a transaction may change, and the table after it. *)
Definition legal (m : gmap Hash DocId) (removed added : list (DocId * Hash)) : Prop :=
  Forall (fun r => m !! r.2 = Some r.1) removed /\ NoDup added.*2 /\ Forall (fun r => r.2 ∈ removed.*2 \/ m !! r.2 = None) added.
Definition after (m : gmap Hash DocId) (removed added : list (DocId * Hash)) : gmap Hash DocId := table added ∪ (m ∖ table removed).

Section advance.
Context (st : State) (last : u64) (m : gmap Hash DocId) (Hst : state_ok st last m).
Implicit Types (removed added : list (DocId * Hash)).

Lemma revoke_all_spec removed ch : bt_ok ch -> exists r, revoke_all st removed ch = Some r /\
  match r with
  | Ok ch' => Forall (fun r => m !! r.2 = Some r.1) removed /\ bt_ok ch' /\
      forall h, bt_get h ch' = if decide (h ∈ removed.*2) then Some None else bt_get h ch
  | Err _ => ~ Forall (fun r => m !! r.2 = Some r.1) removed
  end.
Proof.
  revert ch. induction removed as [|[id hash] removed IH]; intros ch Hch; cbn [revoke_all]; [by eexists|].
  rewrite (find_ok st last m hash Hst). cbn [mbind option_bind]. case_bool_decide as Hf.
  - eexists. split; [done|]. cbn. intros [Hm _]%Forall_cons. by apply Hf.
  - destruct (IH (bt_insert hash None ch)) as (r & Hr & Hs); [by apply bt_insert_ok|]. exists r. split; [done|].
    destruct r as [ch'|e]; [|by intros [_ ?]%Forall_cons]. destruct Hs as (H1 & H2 & H3). split_and!; [by constructor|done|].
    intros h. rewrite H3, bt_get_insert by done. rewrite fmap_cons. cbn [snd]. destruct (cmp h hash) eqn:E.
    + apply cmp_eq in E as ->. rewrite (decide_True (P := hash ∈ hash :: removed.*2)) by (by left). by case_decide.
    + assert (h <> hash) by (intros ->; by rewrite cmp_refl in E). do 2 case_decide; set_solver.
    + assert (h <> hash) by (intros ->; by rewrite cmp_refl in E). do 2 case_decide; set_solver.
Qed.

(** Whether a hash is free once the changes so far are made. *)
Definition free (ch : list (Hash * option DocId)) (h : Hash) : Prop := match bt_get h ch with Some prior => prior = None | None => m !! h = None end.

Lemma free_insert ch hash id h : bt_ok ch -> free (bt_insert hash (Some id) ch) h <-> h <> hash /\ free ch h.
Proof.
  intros Hch. unfold free. rewrite bt_get_insert by done. destruct (cmp h hash) eqn:E.
  - apply cmp_eq in E as ->. naive_solver.
  - split; [|tauto]. intros Hf. split; [|done]. intros ->. by rewrite cmp_refl in E.
  - split; [|tauto]. intros Hf. split; [|done]. intros ->. by rewrite cmp_refl in E.
Qed.

Lemma retain_all_spec added ch : bt_ok ch -> exists r, retain_all st added ch = Some r /\
  match r with
  | Ok ch' => (NoDup added.*2 /\ Forall (fun r => free ch r.2) added) /\ bt_ok ch' /\
      forall h, bt_get h ch' = match table added !! h with Some id => Some (Some id) | None => bt_get h ch end
  | Err _ => ~ (NoDup added.*2 /\ Forall (fun r => free ch r.2) added)
  end.
Proof.
  revert ch. induction added as [|[id hash] added IH]; intros ch Hch; cbn [retain_all].
  { eexists. split; [done|]. split_and!; [constructor|constructor|done|]. intros h. unfold table. rewrite fmap_nil. cbn [list_to_map foldr]. by rewrite lookup_empty. }
  assert (Hprior : exists prior, match bt_get hash ch with Some prior => Some prior | None => find st hash end = Some prior /\ (prior = None <-> free ch hash)).
  { unfold free. destruct (bt_get hash ch) as [p|]; [by exists p|]. exists (m !! hash). split; [by apply (find_ok st last)|done]. }
  destruct Hprior as (prior & -> & Hp). cbn [mbind option_bind]. case_bool_decide as Hf.
  - eexists. split; [done|]. cbn. intros [_ [Hh _]%Forall_cons]. by apply Hf, Hp.
  - apply Hp in Hf. destruct (IH (bt_insert hash (Some id) ch)) as (r & Hr & Hs); [by apply bt_insert_ok|]. exists r. split; [done|].
    assert (Hiff : NoDup added.*2 /\ Forall (fun r => free (bt_insert hash (Some id) ch) r.2) added <->
                   NoDup ((id, hash) :: added).*2 /\ Forall (fun r => free ch r.2) ((id, hash) :: added)).
    { rewrite fmap_cons, NoDup_cons, Forall_cons. cbn [snd]. setoid_rewrite (fun h => free_insert ch hash id h Hch). rewrite !Forall_forall.
      split.
      - intros [Hn Hall]. split_and!; [|done|done|by intros x Hx; apply Hall]. intros ([i h] & -> & Hx)%list_elem_of_fmap. by apply (Hall _ Hx).
      - intros [[Hni Hn] [_ Hall]]. split; [done|]. intros x Hx. split; [|by apply Hall]. intros Hh. apply Hni. rewrite <- Hh. by apply list_elem_of_fmap_2. }
    destruct r as [ch'|e]; [|by rewrite <- Hiff]. destruct Hs as (H1 & H2 & H3). apply Hiff in H1. split_and!; [apply H1..|done|].
    intros h. rewrite H3, bt_get_insert by done. unfold table at 2. rewrite fmap_cons. cbn [list_to_map foldr fst snd].
    destruct (decide (h = hash)) as [->|Hne].
    + rewrite lookup_insert_eq, (proj2 (cmp_eq hash hash) eq_refl). destruct H1 as [[Hni _]%NoDup_cons _]. by rewrite (proj2 (table_none added hash) Hni).
    + rewrite lookup_insert_ne by done. fold (table added). destruct (table added !! h); [done|]. destruct (cmp h hash) eqn:E; [by apply cmp_eq in E|done..].
Qed.
End advance.

Lemma after_size m removed added : legal m removed added -> NoDup removed.*1 ->
  length removed <= base.size m /\ base.size (after m removed added) = base.size m - length removed + length added.
Proof.
  intros (Hr & Ha & Hf) Hn. assert (Hnr : NoDup removed.*2).
  { rewrite Forall_forall in Hr. clear -Hr Hn. induction removed as [|[id h] removed IH]; [constructor|]. change (NoDup (id :: removed.*1)) in Hn. apply NoDup_cons in Hn as [Hni Hn].
    constructor; [|apply IH; [by intros r Hin; apply Hr; right|done]].
    intros ([id' h'] & Hh & Hin)%list_elem_of_fmap. cbn in *. subst h'. apply Hni. pose proof (Hr (id, h) ltac:(by left)) as E1.
    pose proof (Hr (id', h) ltac:(by right)) as E2. cbn in *. rewrite E1 in E2. injection E2 as ->. by apply (list_elem_of_fmap_2 fst) in Hin. }
  assert (Hsub : table removed ⊆ m).
  { apply map_subseteq_spec. intros h id Hh%table_lookup; [|done]. rewrite Forall_forall in Hr. by apply (Hr (id, h)). }
  assert (Hsr : base.size (table removed) = length removed) by (unfold table; rewrite map_size_list_to_map by (by rewrite table_keys); apply length_fmap).
  assert (Hsa : base.size (table added) = length added) by (unfold table; rewrite map_size_list_to_map by (by rewrite table_keys); apply length_fmap).
  assert (Hsm : base.size m = length removed + base.size (m ∖ table removed)).
  { rewrite <- Hsr, <- map_size_disj_union; [by rewrite map_difference_union|by apply map_disjoint_difference_r1]. }
  unfold after. rewrite map_size_disj_union, Hsa; [lia|]. apply map_disjoint_spec. intros h id id' Hh%table_lookup [Hm Hnone]%lookup_difference_Some; [|done].
  rewrite Forall_forall in Hf. destruct (Hf _ Hh) as [Hin|Hin]; cbn in Hin; [|by rewrite Hm in Hin]. apply table_none in Hnone. by apply Hnone.
Qed.

(** A transaction's changes are accepted exactly when they are legal and
    stay within the cap. *)
Lemma retained_advance_spec st last m sequence removed added : state_ok st last m -> (last < sequence)%N -> NoDup removed.*1 ->
  exists r, advance st sequence removed added = Some r /\
    match r with
    | Ok st' => legal m removed added /\ (N.of_nat (base.size (after m removed added)) <= CAP)%N /\ state_ok st' sequence (after m removed added)
    | Err _ => ~ (legal m removed added /\ (N.of_nat (base.size (after m removed added)) <= CAP)%N)
    end.
Proof.
  intros Hst Hq Hn. unfold advance. destruct (revoke_all_spec st last m Hst removed []) as (r1 & -> & H1); [constructor|]. cbn [mbind option_bind].
  destruct r1 as [ch1|e]; [|eexists; split; [done|]; intros [[? _] _]; by apply H1]. destruct H1 as (Hr & Hb1 & Hg1).
  destruct (retain_all_spec st last m Hst added ch1 Hb1) as (r2 & -> & H2). cbn [mbind option_bind].
  assert (Hfree : Forall (fun r => free m ch1 r.2) added <-> Forall (fun r => r.2 ∈ removed.*2 \/ m !! r.2 = None) added).
  { apply Forall_proper; [|done]. intros x. unfold free. rewrite Hg1. cbn. case_decide; naive_solver. }
  destruct r2 as [ch2|e]; [|eexists; split; [done|]; intros [(_ & ? & ?%Hfree) _]; by apply H2]. destruct H2 as ((Ha & Hf) & Hb2 & Hg2). apply Hfree in Hf.
  assert (Hlegal : legal m removed added) by done. destruct (after_size m removed added Hlegal Hn) as [Hle Hsize].
  rewrite (so_count _ _ _ Hst). destruct (Nat.ltb_spec (base.size m) (length removed)); [lia|]. rewrite <- Hsize.
  destruct (N.ltb_spec CAP (N.of_nat (base.size (after m removed added)))) as [Hc|Hc]; [eexists; split; [done|]; intros [_ ?]; lia|].
  destruct (so_runs _ _ _ Hst) as (mc & Hro & Hlast & Hh).
  destruct (insert_spec (changes st) mc (map (fun e => mkRow e.1 sequence e.2) ch2) sequence Hro) as (runs & -> & Hro' & _).
  { apply Forall_forall. intros r (e & -> & _)%list_elem_of_fmap. done. }
  { intros k s v Hk. specialize (Hlast _ _ _ Hk). lia. }
  cbn [mbind option_bind]. eexists. split; [done|]. split_and!; [done..|].
  assert (Hput : forall h, put_rows mc (map (fun e => mkRow e.1 sequence e.2) ch2) h = match bt_get h ch2 with Some v => Some (sequence, v) | None => mc h end).
  { intros h. by apply (put_rows_map mc sequence ch2 h). }
  split; [|done]. exists (put_rows mc (map (fun e => mkRow e.1 sequence e.2) ch2)). split_and!; [done| |].
  - intros k s v. rewrite Hput. destruct (bt_get k ch2); [by intros [= <- <-]|]. intros Hk. specialize (Hlast _ _ _ Hk). lia.
  - intros h. destruct (Hh h) as (d & Hd & Hm). exists d. split; [done|]. rewrite Hput, Hg2, Hg1. unfold after. destruct (table added !! h) as [id|] eqn:Et.
    + by rewrite (lookup_union_Some_l _ _ _ _ Et).
    + rewrite lookup_union_r by done. case_decide as Hin.
      * apply lookup_difference_None. right. destruct (table removed !! h) eqn:E; [by eexists|]. by apply table_none in E.
      * apply table_none in Hin. rewrite lookup_difference, Hin. cbn. exact Hm.
Qed.

(** ** Preparation, specified *)

Lemma N_ascending_bs (l : list N) : StronglySorted N.lt l <-> bs_ok l.
Proof. unfold bs_ok. split; induction 1; constructor; try done; eapply Forall_impl; try done; intros y; apply N.compare_lt_iff. Qed.

#[local] Abbreviation producer_row := (of_row doc_row).

Lemma final_docs_get records id : bt_get id (final_docs records) = last (filter (producer_row id) records).
Proof. exact (bt_rows_get doc_row records id). Qed.

Lemma final_docs_row records id r : bt_get id (final_docs records) = Some r -> doc_row r = Some id /\ r ∈ records.
Proof. exact (bt_rows_row doc_row records id r). Qed.

Lemma final_docs_ok records : bt_ok (final_docs records).
Proof. apply bt_collect_ok. Qed.

Lemma final_docs_keys records : NoDup (final_docs records).*1.
Proof. apply bt_keys_nodup, final_docs_ok. Qed.

Lemma final_docs_key records id : id ∈ (final_docs records).*1 <-> bt_get id (final_docs records) <> None.
Proof. exact (bt_rows_key doc_row records id). Qed.

(** ** Eviction *)

Section eviction.
Context (records : list Record_).
#[local] Abbreviation final := (final_docs records).

Definition skipped (revoked : list DocId) (id : DocId) : Prop := bt_get id final <> None \/ id ∈ revoked.

Lemma skip_old_spec revoked old : exists n, skip_old final revoked old = drop n old /\
  Forall (skipped revoked) (take n old) /\ match head (drop n old) with Some id => ~ skipped revoked id | None => True end.
Proof.
  induction old as [|id old IH]; [by exists 0|]. cbn [skip_old]. destruct (bool_decide (bt_get id final <> None) || bool_decide (id ∈ revoked)) eqn:E.
  - destruct IH as (n & He & Hf & Hh). exists (S n). split; [done|]. split; [|done]. rewrite firstn_cons. constructor; [|done].
    apply orb_true_iff in E as [?%bool_decide_eq_true|?%bool_decide_eq_true]; [by left|by right].
  - exists 0. split_and!; [done|constructor|]. cbn. apply orb_false_iff in E as [?%bool_decide_eq_false ?%bool_decide_eq_false]. intros [?|?]; tauto.
Qed.

Lemma ascending_min (x : N) l y : StronglySorted N.lt (x :: l) -> y ∈ x :: l -> (x <= y)%N.
Proof. intros [_ Hx]%StronglySorted_inv [->|Hy]%elem_of_cons; [done|]. rewrite Forall_forall in Hx. specialize (Hx y Hy). lia. Qed.

Lemma ascending_tail (x : N) l : StronglySorted N.lt (x :: l) -> StronglySorted N.lt l /\ x ∉ l.
Proof. intros [? Hx]%StronglySorted_inv. split; [done|]. intros Hin. rewrite Forall_forall in Hx. specialize (Hx x Hin). lia. Qed.

(** The ids two lists still offer, in order. *)
Record supply (M old new revoked : list DocId) : Prop := {
  su_all : StronglySorted N.lt M;
  su_old : StronglySorted N.lt old;
  su_new : StronglySorted N.lt new;
  su_revoked : bs_ok revoked;
  su_elem x : x ∈ M <-> x ∈ old /\ ~ skipped revoked x \/ x ∈ new;
  su_apart x : x ∈ old -> ~ skipped revoked x -> x ∉ new
}.

Lemma supply_skip M old new revoked : supply M old new revoked -> supply M (skip_old final revoked old) new revoked.
Proof.
  intros [H1 H2 H3 H4 H5 H6]. destruct (skip_old_spec revoked old) as (n & -> & Hsk & _). rewrite Forall_forall in Hsk.
  assert (Hod : forall y, y ∈ drop n old /\ ~ skipped revoked y <-> y ∈ old /\ ~ skipped revoked y).
  { intros y. rewrite <- (take_drop n old) at 2. rewrite elem_of_app. specialize (Hsk y). tauto. }
  split; try done.
  - rewrite <- (take_drop n old) in H2. by apply StronglySorted_app in H2 as (_ & _ & ?).
  - intros x. by rewrite Hod.
  - intros x Hx Hn. apply H6; [|done]. by apply Hod.
Qed.

Lemma supply_new x M old id new revoked : supply (x :: M) old (id :: new) revoked ->
  (forall o, head old = Some o -> id < o)%N -> id = x /\ (x ∉ new) /\ supply M old new revoked.
Proof.
  intros [H1 H2 H3 H4 H5 H6] Hid. assert (id = x) as ->.
  { assert (Hx : id ∈ x :: M) by (apply H5; right; by left). pose proof (ascending_min x M id H1 Hx) as Hge.
    assert (Hx' : x ∈ (x :: M)) by (by left). apply H5 in Hx' as [[Ho _]|Hn]; [|pose proof (ascending_min id new x H3 Hn); lia].
    destruct old as [|o old]; [by apply not_elem_of_nil in Ho|]. specialize (Hid o eq_refl). pose proof (ascending_min o old x H2 Ho). lia. }
  apply ascending_tail in H1 as [H1 Hx1], H3 as [H3 Hx3]. split; [done|]. split; [done|]. split; try done.
  - intros y. specialize (H5 y). specialize (H6 y). rewrite !elem_of_cons in *. destruct (decide (y = x)) as [->|Hne]; tauto.
  - intros y Ho Hn. specialize (H6 y Ho Hn). rewrite elem_of_cons in H6. tauto.
Qed.

Lemma supply_old x M o old new revoked : supply (x :: M) (o :: old) new revoked -> ~ skipped revoked o ->
  (forall id, head new = Some id -> o <= id)%N -> o = x /\ (x ∉ new) /\ supply M old new (bs_add revoked x).
Proof.
  intros [H1 H2 H3 H4 H5 H6] Ho Hid. assert (Hox : o ∈ x :: M) by (apply H5; left; split; [by left|done]). assert (o = x) as ->.
  { pose proof (ascending_min x M o H1 Hox) as Hge. assert (Hx' : x ∈ (x :: M)) by (by left).
    apply H5 in Hx' as [[Hin _]|Hn]; [pose proof (ascending_min o old x H2 Hin); lia|].
    destruct new as [|id new]; [by apply not_elem_of_nil in Hn|]. specialize (Hid id eq_refl). pose proof (ascending_min id new x H3 Hn). lia. }
  assert (Hnew : x ∉ new) by (apply H6; [by left|done]). apply ascending_tail in H1 as [H1 Hx1], H2 as [H2 Hx2].
  assert (Hsk : forall y, skipped (bs_add revoked x) y <-> y = x \/ skipped revoked y) by (intros y; unfold skipped; rewrite elem_of_bs_add by done; tauto).
  split; [done|]. split; [done|]. split; try done.
  - by apply bs_add_ok.
  - intros y. specialize (H5 y). rewrite Hsk. rewrite !elem_of_cons in *. destruct (decide (y = x)) as [->|Hne]; tauto.
  - intros y Hin. rewrite Hsk. intros Hn. apply H6; [by right|tauto].
Qed.

(** Eviction takes the lowest ids of what is left of both lists. *)
Lemma evict_spec M excess old new revoked evicted : supply M old new revoked -> bs_ok evicted -> excess <= length M ->
  exists rv ev, evict final excess old new revoked evicted = Some (rv, ev) /\
    (forall x, x ∈ rv <-> x ∈ revoked \/ x ∈ take excess M /\ x ∉ new) /\ (forall x, x ∈ ev <-> x ∈ evicted \/ x ∈ take excess M /\ x ∈ new).
Proof.
  revert excess old new revoked evicted. induction M as [|x M IH]; intros [|excess] old new revoked evicted Hs Hev Hle; try (cbn in Hle; lia).
  1, 2: exists revoked, evicted; split; [done|]; split; intros y; rewrite ?take_nil, ?take_0; set_solver.
  apply le_S_n in Hle. cbn [evict]. rewrite firstn_cons. destruct (skip_old_spec revoked old) as (n & Hn & _ & Hh).
  pose proof (supply_skip _ _ _ _ Hs) as Hs'. rewrite Hn in *. clear Hn Hs. revert Hs' Hh. generalize (drop n old) as dr. intros dr Hs Hh.
  assert (HxM : x ∉ take excess M).
  { intros Hin. apply elem_of_take in Hin as (i & Hin & _). apply list_elem_of_lookup_2 in Hin. by apply (ascending_tail x M (su_all _ _ _ _ Hs)). }
  destruct (is_some_and (head new) _) eqn:Ec.
  - destruct new as [|id new]; [done|]. destruct (supply_new x M dr id new revoked Hs) as (-> & Hxn & Hs').
    { intros o Ho. cbn [head is_some_and] in Ec. rewrite Ho in Ec. by apply N.ltb_lt in Ec. }
    destruct (IH excess dr new revoked (bs_add evicted x) Hs' (bs_add_ok _ _ Hev) Hle) as (rv & ev & He & H1 & H2). exists rv, ev. split; [done|]. split; intros y.
    + rewrite H1, !elem_of_cons. destruct (decide (y = x)) as [->|]; tauto.
    + rewrite H2, elem_of_bs_add, !elem_of_cons by done. destruct (decide (y = x)) as [->|]; tauto.
  - destruct dr as [|o dr].
    { exfalso. assert (Hx : x ∈ x :: M) by (by left). apply (su_elem _ _ _ _ Hs) in Hx as [[?%not_elem_of_nil _]|Hx]; [done|].
      destruct new as [|id new]; [by apply not_elem_of_nil in Hx|done]. }
    destruct (supply_old x M o dr new revoked Hs Hh) as (-> & Hxn & Hs').
    { intros id Hid. destruct new as [|id' new]; [done|]. cbn in Ec, Hid. injection Hid as ->. by apply N.ltb_ge in Ec. }
    destruct (IH excess dr new (bs_add revoked x) evicted Hs' Hev Hle) as (rv & ev & He & H1 & H2). exists rv, ev. split; [done|]. split; intros y.
    + rewrite H1, elem_of_bs_add, elem_of_cons by apply Hs. destruct (decide (y = x)) as [->|]; tauto.
    + rewrite H2, elem_of_cons. destruct (decide (y = x)) as [->|]; tauto.
Qed.
End eviction.

(** A view of a table. *)
Record view_ok (view : View) (retained_ids : list DocId) (last : u64) (m : gmap Hash DocId) : Prop := {
  vo_state : state_ok (dormant_state view) last m;
  vo_hash id h : m !! h = Some id <-> dormant_hash view id = Some h;
  vo_live id : doc_hash view id <> None -> dormant_hash view id = None;
  vo_ids : StronglySorted N.lt retained_ids;
  vo_retained id : id ∈ retained_ids <-> dormant_hash view id <> None
}.

Section prepared.
Context (view : View) (retained_ids : list DocId) (applied : u64) (m : gmap Hash DocId) (Hview : view_ok view retained_ids applied m).
Context (records : list Record_) (coverage : option Coverage).
#[local] Abbreviation final := (final_docs records).
#[local] Abbreviation D := (dying view coverage final).

(** The retained rows the transaction leaves alone. *)
Definition kept_rows : list (DocId * Hash) :=
  omap (fun id => if decide (bt_get id final = None) then h ← dormant_hash view id; Some (id, h) else None) retained_ids.

Lemma elem_of_kept id h : (id, h) ∈ kept_rows <-> bt_get id final = None /\ dormant_hash view id = Some h.
Proof.
  unfold kept_rows. rewrite list_elem_of_omap. split.
  - intros (i & _ & Hi). case_decide; [|done]. destruct (dormant_hash view i) eqn:E; [|done]. by injection Hi as -> ->.
  - intros [Hn Hd]. exists id. split; [apply (vo_retained _ _ _ _ Hview); by rewrite Hd|]. rewrite decide_True by done. by rewrite Hd.
Qed.

Lemma kept_ids : kept_rows.*1 = filter (fun id => bt_get id final = None) retained_ids.
Proof.
  unfold kept_rows. assert (Hin : Forall (fun id => dormant_hash view id <> None) retained_ids) by (apply Forall_forall; intros id; apply (vo_retained _ _ _ _ Hview)).
  clear Hview. induction Hin as [|id l Hid _ IH]; [done|]. rewrite filter_cons. cbn [omap list_omap]. repeat case_decide; try done.
  destruct (dormant_hash view id) as [h|]; [|done]. cbn [mbind option_bind]. rewrite fmap_cons. by f_equal.
Qed.

Lemma elem_of_dying id h : (id, h) ∈ D <->
  bt_get id final = Some (DocDelete id) /\ is_some_and coverage (fun c => covers c id) = true /\ doc_hash view id = Some h.
Proof.
  unfold dying. rewrite list_elem_of_omap. split.
  - intros ([i r] & Hin & Hr). cbn [fst snd] in Hr. apply bt_get_elem in Hin; [|apply final_docs_ok].
    destruct r; try done. destruct (is_some_and coverage _) eqn:Ec; [|done]. destruct (doc_hash view i) as [h'|] eqn:Eh; [|done].
    injection Hr as -> ->. apply final_docs_row in Hin as Hrow. destruct Hrow as [[= ->] _]. done.
  - intros (Hf & Hc & Hd). exists (id, DocDelete id). split; [by apply bt_get_elem; [apply final_docs_ok|]|]. cbn [fst snd]. by rewrite Hc, Hd.
Qed.

(** Everything that may be retained: each id with one hash. *)
Definition pool : list (DocId * Hash) := D ++ kept_rows.

Lemma elem_of_pool r : r ∈ pool <-> r ∈ D \/ r ∈ kept_rows.
Proof. unfold pool. apply elem_of_app. Qed.

Lemma pool_once id h h' : (id, h) ∈ pool -> (id, h') ∈ pool -> h = h'.
Proof. rewrite !elem_of_pool, !elem_of_dying, !elem_of_kept. intros [(F1 & _ & H1)|[F1 H1]] [(F2 & _ & H2)|[F2 H2]]; congruence. Qed.

Lemma canonical_ids : StronglySorted N.lt (canonical pool).*1.
Proof. apply canonical_ascending, pool_once. Qed.

(** A death is kept unless a newer id is retained for its hash. *)
Definition keeps (r : DocId * Hash) : Prop :=
  match m !! r.2 with Some p => bt_get p final = None -> (p <= r.1)%N | None => True end.
#[local] Instance keeps_dec r : Decision (keeps r).
Proof. unfold keeps. destruct (m !! r.2); apply _. Defined.

Lemma retain_newer_spec l revoked : bs_ok revoked -> exists rv, retain_newer view final l revoked = Some (filter keeps l, rv) /\ bs_ok rv /\
  forall p, p ∈ rv <-> p ∈ revoked \/ exists r, r ∈ l /\ keeps r /\ m !! r.2 = Some p /\ bt_get p final = None.
Proof.
  revert revoked. induction l as [|[id h] l IH]; intros rv0 Hrv; cbn [retain_newer].
  { exists rv0. split_and!; [done..|]. intros p. set_solver. }
  rewrite (find_ok _ applied m h (vo_state _ _ _ _ Hview)). cbn [mbind option_bind]. rewrite filter_cons.
  assert (Hstep : forall rv, bs_ok rv -> (forall p, p ∈ rv <-> p ∈ rv0 \/ keeps (id, h) /\ m !! h = Some p /\ bt_get p final = None) ->
    exists rv', retain_newer view final l rv = Some (filter keeps l, rv') /\ bs_ok rv' /\
    forall p, p ∈ rv' <-> p ∈ rv0 \/ exists r, r ∈ (id, h) :: l /\ keeps r /\ m !! r.2 = Some p /\ bt_get p final = None).
  { intros rv Hok Hin. destruct (IH rv Hok) as (rv' & He & Hok' & Hin'). exists rv'. split_and!; [done..|]. intros p. rewrite Hin', Hin.
    setoid_rewrite elem_of_cons. split.
    - intros [[?|(? & ? & ?)]|(r & ? & ?)]; [by left|right; exists (id, h); naive_solver|right; exists r; naive_solver].
    - intros [?|(r & [->|?] & ?)]; [by left; left|left; right; done|right; by exists r]. }
  destruct (m !! h) as [p|] eqn:Em.
  - case_bool_decide as Hb.
    + destruct (N.ltb_spec id p) as [Hlt|Hle].
      * assert (Hnk : ~ keeps (id, h)) by (unfold keeps; cbn; rewrite Em; intros Hk; specialize (Hk Hb); lia). rewrite decide_False by done.
        apply Hstep; [done|]. intros q. tauto.
      * assert (Hk : keeps (id, h)) by (unfold keeps; cbn; by rewrite Em). rewrite decide_True by done.
        destruct (Hstep (bs_add rv0 p)) as (rv' & -> & ?); [by apply bs_add_ok| |by exists rv'].
        intros q. rewrite elem_of_bs_add by done. naive_solver.
    + assert (Hk : keeps (id, h)) by (unfold keeps; cbn; by rewrite Em). rewrite decide_True by done.
      destruct (Hstep rv0) as (rv' & -> & ?); [done| |by exists rv']. intros q. naive_solver.
  - assert (Hk : keeps (id, h)) by (unfold keeps; cbn; by rewrite Em). rewrite decide_True by done.
    destruct (Hstep rv0) as (rv' & -> & ?); [done| |by exists rv']. intros q. naive_solver.
Qed.

(** What the pool's newest holders are: the deaths kept, and the retained
    rows no death revoked. *)
Definition heirs : list (DocId * Hash) := filter keeps (canonical D).
Definition revoked_by (p : DocId) : Prop := exists r, r ∈ heirs /\ m !! r.2 = Some p /\ bt_get p final = None.

Lemma held p h : m !! h = Some p <-> dormant_hash view p = Some h.
Proof. apply (vo_hash _ _ _ _ Hview). Qed.

Lemma elem_of_heirs r : r ∈ heirs <-> keeps r /\ holder D r.
Proof. unfold heirs. rewrite list_elem_of_filter. by rewrite (proj1 (canonical_spec D)). Qed.

Lemma holder_split r : holder pool r <-> r ∈ heirs \/ r ∈ kept_rows /\ ~ revoked_by r.1.
Proof.
  rewrite elem_of_heirs. destruct r as [id h]. split.
  - intros [[Hd|Hk]%elem_of_pool Hmax]; cbn [fst snd] in *.
    + left. split; [|split; [done|intros i Hi; apply Hmax; by apply elem_of_pool; left]]. unfold keeps. cbn. destruct (m !! h) as [p|] eqn:Em; [|done].
      intros Hp. apply Hmax, elem_of_pool. right. apply elem_of_kept. by rewrite <- held.
    + right. split; [done|]. intros ([i x] & [Hkeep [Hd Hmax']]%elem_of_heirs & Hm & Hp). cbn [fst snd] in *.
      apply elem_of_kept in Hk as [_ Hk]. apply held in Hm. assert (x = h) as -> by congruence. unfold keeps in Hkeep. cbn in Hkeep.
      rewrite (proj2 (held _ _) Hk) in Hkeep. specialize (Hkeep Hp). assert (Hle : (i <= id)%N) by (apply Hmax, elem_of_pool; by left).
      assert (i = id) as -> by lia. apply elem_of_dying in Hd as (Hf & _). congruence.
  - intros [[Hkeep [Hd Hmax]]|[Hk Hnr]]; cbn [fst snd] in *.
    + split; [by apply elem_of_pool; left|]. intros i [Hi|Hi]%elem_of_pool; [by apply Hmax|]. apply elem_of_kept in Hi as [Hf Hi]. apply held in Hi.
      unfold keeps in Hkeep. cbn in *. rewrite Hi in Hkeep. by apply Hkeep.
    + split; [by apply elem_of_pool; right|]. intros i Hi. apply elem_of_kept in Hk as [Hf Hm]. apply held in Hm. cbn [snd] in Hi. apply elem_of_pool in Hi as [Hi|Hi].
      * destruct (N.le_gt_cases i id) as [|Hgt]; [done|]. exfalso. destruct (holder_exists D (i, h) Hi) as (j & Hj & Hij). cbn [fst snd] in *.
        apply Hnr. exists (j, h). rewrite elem_of_heirs. split_and!; [|done..]. unfold keeps. cbn. rewrite Hm. intros _. lia.
      * apply elem_of_kept in Hi as [_ Hi]. apply held in Hi. assert (i = id) as -> by congruence. done.
Qed.

(** ** The counts *)

Lemma table_of_view : m = table (omap (fun id => h ← dormant_hash view id; Some (id, h)) retained_ids) /\ base.size m = length retained_ids.
Proof.
  set (R := omap (fun id => h ← dormant_hash view id; Some (id, h)) retained_ids).
  assert (HR : forall id h, (id, h) ∈ R <-> dormant_hash view id = Some h).
  { intros id h. unfold R. rewrite list_elem_of_omap. split.
    - intros (i & _ & Hi). destruct (dormant_hash view i) eqn:E; [|done]. by injection Hi as -> ->.
    - intros Hd. exists id. rewrite Hd. split; [|done]. apply (vo_retained _ _ _ _ Hview). by rewrite Hd. }
  assert (Hids : R.*1 = retained_ids).
  { unfold R. assert (Hin : Forall (fun id => dormant_hash view id <> None) retained_ids) by (apply Forall_forall; intros id; apply (vo_retained _ _ _ _ Hview)).
    clear -Hin. induction Hin as [|id l Hid _ IH]; [done|]. cbn [omap list_omap]. destruct (dormant_hash view id); [|done].
    cbn [mbind option_bind]. rewrite fmap_cons. by f_equal. }
  assert (Hn : NoDup R.*2).
  { pose proof (ascending_NoDup _ (vo_ids _ _ _ _ Hview)) as Hn. rewrite <- Hids in Hn. assert (HinR : Forall (fun r => r ∈ R) R) by by apply Forall_forall.
    revert Hn HinR. generalize R at 1 3 4 as l. induction l as [|[id h] l IH]; intros Hn HinR; [constructor|]. rewrite fmap_cons in Hn. rewrite fmap_cons.
    apply NoDup_cons in Hn as [Hni Hn]. apply Forall_cons in HinR as [Hr HinR]. constructor; [|by apply IH].
    intros ([id' h'] & Hh & Hin)%list_elem_of_fmap. cbn in Hh. subst h'. apply Hni. rewrite Forall_forall in HinR. specialize (HinR _ Hin).
    apply HR, held in Hr, HinR. assert (id' = id) as -> by congruence. by apply (list_elem_of_fmap_2 fst) in Hin. }
  assert (Hm : m = table R).
  { apply map_eq. intros h. apply option_eq. intros id. by rewrite table_lookup, HR, held by done. }
  split; [done|]. rewrite Hm. unfold table. rewrite map_size_list_to_map by (by rewrite table_keys). by rewrite length_fmap, <- Hids, length_fmap.
Qed.

(** The retained ids are those the transaction rewrites and those it leaves. *)
Lemma retained_split : length retained_ids = length (filter (fun id => is_Some (dormant_hash view id)) final.*1) + length kept_rows.
Proof.
  rewrite <- (length_fmap fst kept_rows), kept_ids. rewrite <- length_app. apply Permutation_length, NoDup_Permutation.
  - by apply ascending_NoDup, (vo_ids _ _ _ _ Hview).
  - apply NoDup_app. split_and!; [apply NoDup_filter, final_docs_keys| |apply NoDup_filter, ascending_NoDup, (vo_ids _ _ _ _ Hview)].
    intros id [_ Hf%final_docs_key]%list_elem_of_filter [Hn _]%list_elem_of_filter. done.
  - intros id. rewrite elem_of_app, !list_elem_of_filter, final_docs_key, (vo_retained _ _ _ _ Hview).
    rewrite <- not_eq_None_Some. destruct (bt_get id final); [|tauto]. naive_solver.
Qed.

(** The revoked ids are rows the transaction leaves, and the heirs with the
    others are the canonical pool. *)
Lemma counts_spec rv : bs_ok rv -> (forall p, p ∈ rv <-> revoked_by p) -> NoDup heirs.*1 ->
  length rv <= length kept_rows /\ length kept_rows - length rv + length heirs = length (canonical pool).
Proof.
  intros Hrv Hin Hn. apply N_ascending_bs, ascending_NoDup in Hrv.
  assert (Hk : NoDup kept_rows.*1) by (rewrite kept_ids; apply NoDup_filter, ascending_NoDup, (vo_ids _ _ _ _ Hview)).
  assert (Hkin : forall p, p ∈ kept_rows.*1 <-> bt_get p final = None /\ dormant_hash view p <> None).
  { intros p. rewrite kept_ids, list_elem_of_filter. by rewrite (vo_retained _ _ _ _ Hview). }
  assert (Hp : kept_rows.*1 ≡ₚ rv ++ filter (fun p => p ∉ rv) kept_rows.*1).
  { apply NoDup_Permutation; [done|apply NoDup_app; split_and!; [done| |by apply NoDup_filter]|].
    - intros p Hp [? _]%list_elem_of_filter. done.
    - intros p. rewrite elem_of_app, list_elem_of_filter. split; [intros; destruct (decide (p ∈ rv)); tauto|]. intros [Hr|[_ ?]]; [|done].
      apply Hin in Hr as (r & _ & Hm & Hf). apply Hkin. split; [done|]. apply held in Hm. by rewrite Hm. }
  assert (Hc : (canonical pool).*1 ≡ₚ filter (fun p => p ∉ rv) kept_rows.*1 ++ heirs.*1).
  { apply NoDup_Permutation; [apply ascending_NoDup, canonical_ids|apply NoDup_app; split_and!; [by apply NoDup_filter| |done]|].
    - intros p [_ [Hf _]%Hkin]%list_elem_of_filter ([i h] & -> & [_ [[Hd _]%elem_of_dying _]]%elem_of_heirs)%list_elem_of_fmap. cbn in Hf. congruence.
    - intros p. rewrite elem_of_app, list_elem_of_filter, !list_elem_of_fmap. setoid_rewrite (proj1 (canonical_spec pool)). setoid_rewrite holder_split. split.
      + intros (r & -> & [Hh|[Hk' Hnr]]); [right; by exists r|left]. split; [by rewrite Hin|by exists r].
      + intros [[Hnr (r & -> & Hr)]|(r & -> & Hr)]; exists r; [|by auto]. split; [done|right]. by rewrite Hin in Hnr. }
  apply Permutation_length in Hp, Hc. rewrite length_app, !length_fmap in Hp. rewrite length_app, !length_fmap in Hc. lia.
Qed.

(** ** The prepared transaction *)

Lemma heirs_ascending : StronglySorted N.lt heirs.*1.
Proof.
  assert (Hs : StronglySorted N.lt (canonical D).*1).
  { apply canonical_ascending. intros id h h'. rewrite !elem_of_dying. intros (_ & _ & H1) (_ & _ & H2). congruence. }
  unfold heirs. induction (canonical D) as [|r l IH]; [constructor|]. rewrite fmap_cons in Hs. apply StronglySorted_inv in Hs as [Hs Hx].
  rewrite filter_cons. case_decide; [|by apply IH]. rewrite fmap_cons. constructor; [by apply IH|]. rewrite Forall_forall in Hx |- *.
  intros i (r' & -> & [_ Hr']%list_elem_of_filter)%list_elem_of_fmap. apply Hx. by apply list_elem_of_fmap_2.
Qed.

Lemma heirs_map : bt_ok heirs /\ bt_collect heirs = heirs.
Proof.
  assert (Hok : bt_ok heirs); [|split; [done|by apply bt_collect_sorted]]. pose proof heirs_ascending as Hs. unfold bt_ok.
  induction heirs as [|r l IH]; [constructor|]. rewrite fmap_cons in Hs. apply StronglySorted_inv in Hs as [Hs Hx]. constructor; [by apply IH|].
  rewrite Forall_fmap in Hx. eapply Forall_impl; [exact Hx|]. cbn. intros r'. apply N.compare_lt_iff.
Qed.

Lemma length_dying : length D <= length records.
Proof.
  transitivity (length final.*1); [|transitivity (length (omap doc_row records))].
  - rewrite length_fmap. unfold dying. clear. induction final as [|e l IH]; cbn; [done|]. destruct (match e.2 with DocDelete _ => _ | _ => _ end); cbn; lia.
  - apply submseteq_length, NoDup_submseteq; [apply final_docs_keys|].
    intros id ([i r] & -> & Hin)%list_elem_of_fmap. apply bt_get_elem, final_docs_row in Hin; [|apply final_docs_ok]. cbn. apply list_elem_of_omap. exists r. naive_solver.
  - clear. induction records as [|r l IH]; cbn; [done|]. destruct (doc_row r); cbn; lia.
Qed.

(** The last row of a document in the prepared transaction. *)
Lemma prepared_get E ev rv id : bt_get id (final_docs (map (to_dormant E ev) records ++ map DocForget rv)) =
  if decide (id ∈ rv) then Some (DocForget id) else to_dormant E ev <$> bt_get id final.
Proof.
  rewrite !final_docs_get, filter_app, last_app.
  assert (Hf : filter (producer_row id) (map DocForget rv) = map DocForget (filter (fun i => i = id) rv)).
  { clear. induction rv as [|i rv IH]; [done|]. cbn [map]. rewrite !filter_cons, IH. repeat case_decide; unfold of_row in *; cbn in *; naive_solver. }
  rewrite Hf. case_decide as Hin.
  - destruct (last (map DocForget (filter (fun i => i = id) rv))) as [r|] eqn:El.
    + apply last_Some_elem_of in El as (i & -> & [-> _]%list_elem_of_filter)%list_elem_of_fmap. done.
    + apply last_None in El. apply (f_equal length) in El. rewrite length_map in El.
      assert (Hm : id ∈ filter (fun i => i = id) rv) by (by apply list_elem_of_filter). destruct (filter _ rv); [by apply not_elem_of_nil in Hm|done].
  - replace (filter (fun i => i = id) rv) with (@nil N).
    2:{ symmetry. apply filter_all_out. intros i Hi ->. done. }
    cbn [map last]. clear. induction records as [|r l IH] using rev_ind; [done|]. rewrite map_app, !filter_app. cbn [map]. rewrite !filter_cons, !filter_nil.
    assert (Hrow : doc_row (to_dormant E ev r) = doc_row r).
    { destruct r; try done. cbn. destruct (bt_get id0 E); [|done]. by case_bool_decide. }
    repeat case_decide; unfold of_row in *; rewrite ?Hrow in *; try done; [by rewrite !last_snoc|by rewrite !app_nil_r].
Qed.

(** The identities retained once a transaction is applied. *)
Definition dormant_after (records : list Record_) (id : DocId) : option Hash :=
  match bt_get id (final_docs records) with
  | Some (DocDormant _ h) => Some h
  | Some _ => None
  | None => dormant_hash view id
  end.

Lemma elem_of_suffix k r : r ∈ drop k (canonical pool) <-> r ∈ canonical pool /\ r.1 ∉ take k (canonical pool).*1.
Proof.
  pose proof (ascending_NoDup _ canonical_ids) as Hn. rewrite <- fmap_take. rewrite <- (take_drop k (canonical pool)) in Hn. rewrite fmap_app in Hn.
  apply NoDup_app in Hn as (_ & Hd & _). rewrite <- (take_drop k (canonical pool)) at 2. rewrite elem_of_app. split.
  - intros Hr. split; [by right|]. intros Ht. apply (Hd _ Ht). by apply list_elem_of_fmap_2.
  - intros [[Hr|Hr] Hn]; [|done]. exfalso. apply Hn. by apply list_elem_of_fmap_2.
Qed.

Lemma elem_of_canonical id h : (id, h) ∈ canonical pool <-> (id, h) ∈ heirs \/ (id, h) ∈ kept_rows /\ ~ revoked_by id.
Proof. by rewrite (proj1 (canonical_spec pool)), holder_split. Qed.

Lemma heir_dies id h : (id, h) ∈ heirs -> bt_get id final = Some (DocDelete id).
Proof. rewrite elem_of_heirs. intros [_ [Hd _]]. by apply elem_of_dying in Hd as [? _]. Qed.

(** Who is retained, when the lowest [k] of the canonical pool are evicted. *)
Lemma retained_after k rv ev : (forall r, r ∈ records -> forall id h, r <> DocDormant id h) ->
  (forall p, p ∈ rv <-> revoked_by p \/ p ∈ take k (canonical pool).*1 /\ p ∉ heirs.*1) ->
  (forall p, p ∈ ev <-> p ∈ take k (canonical pool).*1 /\ p ∈ heirs.*1) ->
  forall id h, dormant_after (map (to_dormant heirs ev) records ++ map DocForget rv) id = Some h <-> (id, h) ∈ drop k (canonical pool).
Proof.
  intros Hproducer Hrv Hev id h. rewrite elem_of_suffix, elem_of_canonical. unfold dormant_after. rewrite prepared_get. cbn [fst]. case_decide as Hin.
  { split; [done|]. intros [Hc Ht]. exfalso. apply Hrv in Hin as [Hr|[? _]]; [|done]. destruct Hc as [Hh|[_ ?]]; [|done].
    apply heir_dies in Hh. destruct Hr as (_ & _ & _ & Hf). congruence. }
  assert (Hnr : ~ revoked_by id) by (intros Hr; apply Hin, Hrv; by left).
  destruct (bt_get id final) as [r|] eqn:Ef; cbn [fmap option_fmap option_map].
  - assert (Hnk : (id, h) ∉ kept_rows) by (rewrite elem_of_kept; intros [? _]; congruence).
    apply final_docs_row in Ef as Hrow. destruct Hrow as [Hrow Hrec].
    assert (Hnh : r <> DocDelete id -> ((id, h) ∈ heirs \/ (id, h) ∈ kept_rows /\ ~ revoked_by id) /\ id ∉ take k (canonical pool).*1 <-> None = Some h).
    { intros Hne. split; [|done]. intros [[Hh%heir_dies|[? _]] _]; [congruence|done]. }
    destruct r; try done; try (symmetry; by apply Hnh). cbn in Hrow. injection Hrow as ->.
    + clear Hnh. cbn [to_dormant]. destruct (bt_get id heirs) as [h'|] eqn:Eh.
      * apply bt_get_elem in Eh; [|apply heirs_map]. assert (Hid : id ∈ heirs.*1) by (by apply (list_elem_of_fmap_2 fst) in Eh).
        case_bool_decide as Hb; [split; [done|]; intros [_ Ht]; by apply Hev in Hb as [? _]|].
        assert (Ht : id ∉ take k (canonical pool).*1) by (intros Ht; by apply Hb, Hev). split.
        -- intros [= ->]. split; [by left|done].
        -- intros [[Hh|[? _]] _]; [|done]. f_equal. pose proof (proj2 (elem_of_canonical id h) (or_introl Hh)) as H1.
           pose proof (proj2 (elem_of_canonical id h') (or_introl Eh)) as H2. apply (proj1 (canonical_spec pool)) in H1 as [H1 _], H2 as [H2 _].
           by eapply pool_once.
      * split; [done|]. intros [[Hh|[? _]] _]; [|done]. apply bt_get_elem in Hh; [congruence|apply heirs_map].
    + exfalso. by eapply Hproducer.
  - assert (Hni : id ∉ heirs.*1) by (intros ([i h'] & -> & Hh%heir_dies)%list_elem_of_fmap; cbn in Ef; congruence).
    rewrite elem_of_kept. split.
    + intros Hd. split; [by right|]. intros Ht. apply Hin, Hrv. by right.
    + intros [[Hh|[[_ ?] _]] _]; [|done]. apply heir_dies in Hh. congruence.
Qed.
(** How many ids are past the cap. *)
Definition excess (cap : N) : nat := N.to_nat (N.of_nat (length (canonical pool)) - N.min cap CAP).

Lemma prepare_evicts cap : (N.of_nat (length records) < 2 ^ 64)%N -> D <> [] -> exists rv ev,
  prepare view records coverage cap retained_ids = Some (map (to_dormant heirs ev) records ++ map DocForget rv) /\
  (forall p, p ∈ rv <-> revoked_by p \/ p ∈ take (excess cap) (canonical pool).*1 /\ p ∉ heirs.*1) /\
  (forall p, p ∈ ev <-> p ∈ take (excess cap) (canonical pool).*1 /\ p ∈ heirs.*1).
Proof.
  intros Hlen HD. unfold prepare. destruct (is_empty D) eqn:Ee; [by destruct D|].
  assert (Hcan : canonicalize D (2 ^ 64 - 1) = canonical D).
  { rewrite canonicalize_cap. pose proof (length_canonical D). pose proof length_dying as Hd.
    replace (length (canonical D) - N.to_nat (2 ^ 64 - 1)) with 0 by lia. done. }
  rewrite Hcan. destruct (retain_newer_spec (canonical D) []) as (rv & -> & Hrv & Hrvin); [constructor|].
  fold heirs. cbn [mbind option_bind]. rewrite (proj2 heirs_map).
  assert (Hrvby : forall p, p ∈ rv <-> revoked_by p).
  { intros p. rewrite Hrvin. unfold revoked_by, heirs. setoid_rewrite list_elem_of_filter. split; [intros [?%not_elem_of_nil|(r & ? & ? & ?)]; [done|exists r; tauto]|].
    intros (r & [? ?] & ?). right. exists r. tauto. }
  destruct (counts_spec rv Hrv Hrvby) as [Hle Hcount]; [apply ascending_NoDup, heirs_ascending|]. pose proof retained_split as Hsplit.
  rewrite (so_count _ _ _ (vo_state _ _ _ _ Hview)), (proj2 table_of_view).
  destruct (Nat.ltb_spec (length retained_ids) (length (filter (fun id => is_Some (dormant_hash view id)) final.*1) + length rv)); [lia|].
  replace (length retained_ids - length (filter (fun id => is_Some (dormant_hash view id)) final.*1) - length rv + length heirs) with (length (canonical pool)) by lia.
  fold (excess cap). destruct (evict_spec records (canonical pool).*1 (excess cap) retained_ids heirs.*1 rv []) as (rv' & ev & -> & H1 & H2).
  - split; try done; [apply canonical_ids|apply Hview|apply heirs_ascending| |].
    + intros x. unfold skipped. rewrite !list_elem_of_fmap, Hrvby. split.
      * intros ([i h] & -> & [Hh|[[Hf Hd]%elem_of_kept Hr]]%elem_of_canonical); [right; by exists (i, h)|left]. cbn in *.
        split; [apply (vo_retained _ _ _ _ Hview); by rewrite Hd|]. intros [?|?]; [congruence|done].
      * intros [[Hx Hn]|([i h] & -> & Hh)]; [|exists (i, h); split; [done|]; apply elem_of_canonical; by left]. apply (vo_retained _ _ _ _ Hview) in Hx.
        destruct (dormant_hash view x) as [h|] eqn:Ex; [|done]. exists (x, h). split; [done|]. apply elem_of_canonical. right.
        rewrite elem_of_kept. destruct (decide (bt_get x final = None)); tauto.
    + intros x Hx Hs ([i h] & -> & Hh)%list_elem_of_fmap. apply heir_dies in Hh. apply Hs. left. cbn. congruence.
  - constructor.
  - rewrite length_fmap. unfold excess. lia.
  - exists rv', ev. split; [done|]. split; intros p; [by rewrite H1, Hrvby|rewrite H2; set_solver].
Qed.

(** A revoked or evicted retained row is one the transaction leaves alone. *)
Lemma revoked_free k p : revoked_by p \/ p ∈ take k (canonical pool).*1 /\ p ∉ heirs.*1 -> bt_get p final = None.
Proof.
  intros [(_ & _ & _ & Hf)|[Ht Hn]]; [done|]. apply elem_of_take in Ht as (i & Ht & _). apply list_elem_of_lookup_2 in Ht.
  apply list_elem_of_fmap in Ht as ([j h] & -> & [Hh|[[Hf _]%elem_of_kept _]]%elem_of_canonical); [|done].
  exfalso. apply Hn. by apply (list_elem_of_fmap_2 fst) in Hh.
Qed.

Lemma prepared_others E ev rv : filter (fun r => doc_row r = None) (map (to_dormant E ev) records ++ map DocForget rv) = filter (fun r => doc_row r = None) records.
Proof.
  rewrite filter_app, (filter_all_out _ (map DocForget rv)), app_nil_r.
  - clear. induction records as [|r l IH]; [done|]. cbn [map]. rewrite !filter_cons, IH. destruct r; try done. cbn. destruct (bt_get id E); [|done]. by case_bool_decide.
  - intros r (i & -> & _)%list_elem_of_fmap. done.
Qed.
End prepared.

(** ** Replaying transactions *)

(** Sequences of transactions: each its sequence, its removed and its added
    rows. *)
Abbreviation Changes := (list (u64 * list (DocId * Hash) * list (DocId * Hash))) (only parsing).
Fixpoint advance_all (st : State) (txs : Changes) : option (result State DecodeError) :=
  match txs with
  | [] => Some (Ok st)
  | (q, removed, added) :: txs =>
      r ← advance st q removed added;
      match r with Ok st => advance_all st txs | Err e => Some (Err e) end
  end.

#[export] Instance legal_dec m removed added : Decision (legal m removed added).
Proof. unfold legal. apply _. Defined.
Fixpoint table_all (m : gmap Hash DocId) (txs : Changes) : option (gmap Hash DocId) :=
  match txs with
  | [] => Some m
  | (_, removed, added) :: txs =>
      if decide (legal m removed added /\ (N.of_nat (base.size (after m removed added)) <= CAP)%N)
      then table_all (after m removed added) txs else None
  end.

Lemma advance_all_spec st last m (txs : Changes) : state_ok st last m -> StronglySorted N.lt (last :: txs.*1.*1) -> Forall (fun tx => NoDup tx.1.2.*1) txs ->
  exists r, advance_all st txs = Some r /\
    match r, table_all m txs with
    | Ok st', Some m' => (forall h, find st' h = Some (m' !! h)) /\ st_count st' = base.size m'
    | Err _, None => True
    | _, _ => False
    end.
Proof.
  revert st last m. induction txs as [|[[q removed] added] txs IH]; intros st last m Hst Hs Hn; cbn [advance_all table_all].
  { eexists. split; [done|]. split; [|apply Hst]. intros h. by eapply find_ok. }
  apply Forall_cons in Hn as [Hn1 Hn]. cbn in Hn1. rewrite !fmap_cons in Hs. apply StronglySorted_inv in Hs as [Hs Hlt]. apply Forall_cons in Hlt as [Hlt _]. cbn in Hlt.
  destruct (retained_advance_spec st last m q removed added Hst Hlt Hn1) as (r & -> & Hr). cbn [mbind option_bind]. destruct r as [st'|e].
  - destruct Hr as (H1 & H2 & H3). rewrite decide_True by done. by apply (IH st' q).
  - eexists. split; [done|]. by rewrite decide_False.
Qed.

(** ** Properties *)

(** C36: the retained table.  The rows of a section are read back as they were
    written, and [check] accepts a section exactly when its ids ascend below
    the next id, none is live, its hashes are distinct and they are at most
    [CAP].  From a checked section, transactions of ascending sequences are
    accepted exactly while each revokes what is held, adds hashes that are
    then free and stays within [CAP]; the state then answers every hash, and
    counts, as the finite map does.  Nothing panics. *)
Theorem retained_table_refines next_doc live l (txs : list (u64 * list (DocId * Hash) * list (DocId * Hash)))
    (Hstored : Forall stored l) (Hseq : StronglySorted N.lt txs.*1.*1) (Hids : Forall (fun tx => NoDup tx.1.2.*1) txs) (Hpos : Forall (N.lt 0) txs.*1.*1) :
  dormant_rows (dormant_write l) = Some l /\
  exists r, dormant_check next_doc live (dormant_write l) = Some r /\ (r = Ok tt <-> valid_rows next_doc live l) /\
  (r = Ok tt -> exists a, advance_all (state_new (dormant_write l)) txs = Some a /\
    match a, table_all (table l) txs with
    | Ok st, Some m => (forall h, find st h = Some (m !! h)) /\ st_count st = base.size m
    | Err _, None => True
    | _, _ => False
    end).
Proof.
  pose proof (dormant_rows_write l Hstored) as Hw. split; [done|]. destruct (dormant_check_spec next_doc live (dormant_write l)) as (r & l' & Hr & Hl' & Hs).
  rewrite Hw in Hl'. injection Hl' as <-. exists r. split; [done|]. assert (Hiff : r = Ok tt <-> valid_rows next_doc live l).
  { destruct r as [[]|e]; [done|]. split; [done|]. intros Hv. by destruct Hs. }
  split; [done|]. intros (Hc & _ & Hn)%Hiff. apply (advance_all_spec _ 0%N); [by apply state_new_ok| |done]. by constructor.
Qed.

(** C37: preparing is canonicalizing.  For a consistent view and a
    transaction that forgets no hash by itself, [prepare] never panics; with
    no covered death it changes nothing; otherwise the identities retained
    once its transaction is applied are exactly the canonical table of the
    covered deaths and the retained rows the transaction leaves alone: the
    newest id of each hash, without the lowest ids past the cap.  The last
    row of any other document, and every other record, is as it was. *)
Theorem prepare_is_canonical view retained_ids applied m records coverage cap (Hview : view_ok view retained_ids applied m)
    (Hproducer : forall r, r ∈ records -> forall id h, r <> DocDormant id h) (Hlen : (N.of_nat (length records) < 2 ^ 64)%N) :
  exists prepared, prepare view records coverage cap retained_ids = Some prepared /\
  (dying view coverage (final_docs records) = [] -> prepared = records) /\
  (dying view coverage (final_docs records) <> [] -> forall id h, dormant_after view prepared id = Some h <->
     (id, h) ∈ canonicalize (dying view coverage (final_docs records) ++ kept_rows view retained_ids records) (N.min cap CAP)) /\
  (forall id r, bt_get id (final_docs records) = Some r -> r <> DocDelete id -> bt_get id (final_docs prepared) = Some r) /\
  filter (fun r => doc_row r = None) prepared = filter (fun r => doc_row r = None) records.
Proof.
  destruct (decide (dying view coverage (final_docs records) = [])) as [Hd|Hd].
  { exists records. unfold prepare. rewrite Hd. done. }
  destruct (prepare_evicts view retained_ids applied m Hview records coverage cap Hlen Hd) as (rv & ev & -> & Hrv & Hev).
  assert (Hfree : forall p, p ∈ rv -> bt_get p (final_docs records) = None) by (intros p Hp; by eapply revoked_free, Hrv).
  eexists. split; [done|]. split_and!; [done| | |].
  - intros _ id h. rewrite canonicalize_cap. fold (pool view retained_ids records coverage).
    rewrite (retained_after view retained_ids applied m Hview records coverage (excess view retained_ids records coverage cap) rv ev Hproducer Hrv Hev).
    unfold excess. by replace (N.to_nat _) with (length (canonical (pool view retained_ids records coverage)) - N.to_nat (N.min cap CAP)) by lia.
  - intros id r Hf Hr. rewrite prepared_get, Hf, decide_False.
    + cbn. f_equal. apply final_docs_row in Hf as [Hrow _]. destruct r; try done. cbn in Hrow. congruence.
    + intros Hin%Hfree. congruence.
  - apply prepared_others.
Qed.

(** ** A small history

    Three retained rows; the transaction revives the first, kills a document
    with the second's hash, two others, of which the last is not covered. *)
Definition sample_hash (n : N) : Hash := replicate 16 n.
Definition sample_rows : list (DocId * Hash) := [(3, sample_hash 30); (5, sample_hash 50); (9, sample_hash 90)]%N.
Definition sample_live : list (DocId * Hash) := [(20, sample_hash 50); (21, sample_hash 7); (22, sample_hash 8)]%N.
Definition sample_view : View :=
  mkView (fun id => bt_get id sample_live) (fun id => bt_get id sample_rows) (state_new (dormant_write sample_rows)).
Definition sample_records : list Record_ :=
  [DocDelete 20; DocPut 3 1 (sample_hash 30); DocDelete 21; NameDelete 4; DocDelete 22]%N.

Lemma sample_stored : Forall stored sample_rows.
Proof. repeat constructor. Qed.

Lemma sample_view_ok : view_ok sample_view [3; 5; 9]%N 0 (table sample_rows).
Proof.
  split.
  - apply state_new_ok; [apply dormant_rows_write, sample_stored|by vm_compute|]. by apply (bool_decide_unpack (NoDup sample_rows.*2)); vm_compute.
  - intros id h. cbn [dormant_hash sample_view]. rewrite bt_get_elem by repeat constructor. apply table_lookup.
    by apply (bool_decide_unpack (NoDup sample_rows.*2)); vm_compute.
  - intros id. cbn [doc_hash dormant_hash sample_view]. intros Hl. destruct (bt_get id sample_live) as [h|] eqn:E; [|done].
    apply bt_get_elem in E; [|repeat constructor]. unfold sample_live in E. rewrite !elem_of_cons in E. by destruct E as [[= -> _]|[[= -> _]|[[= -> _]|?%not_elem_of_nil]]].
  - repeat constructor.
  - intros id. cbn [dormant_hash sample_view]. change [3; 5; 9]%N with sample_rows.*1. rewrite list_elem_of_fmap. split.
    + intros ([i h] & -> & Hin). cbn [fst]. by rewrite (proj2 (bt_get_elem sample_rows i h ltac:(repeat constructor)) Hin).
    + intros Hn. destruct (bt_get id sample_rows) as [h|] eqn:E; [|done]. apply bt_get_elem in E; [|repeat constructor]. by exists (id, h).
Qed.

Example sample_dormant_prepared :
  prepare sample_view sample_records (Some (coverage_new 22 [4; 4; 1]%N)) 2 [3; 5; 9]%N =
  Some [DocDormant 20 (sample_hash 50); DocPut 3 1 (sample_hash 30); DocDormant 21 (sample_hash 7); NameDelete 4; DocDelete 22;
        DocForget 5; DocForget 9]%N.
Proof. vm_compute. reflexivity. Qed.

Lemma prepare_is_canonical_witness : exists prepared,
  prepare sample_view sample_records (Some (coverage_new 22 [4; 4; 1]%N)) 2 [3; 5; 9]%N = Some prepared /\
  dormant_after sample_view prepared 20 = Some (sample_hash 50) /\ dormant_after sample_view prepared 9 = None.
Proof.
  destruct (prepare_is_canonical sample_view [3; 5; 9]%N 0 (table sample_rows) sample_records (Some (coverage_new 22 [4; 4; 1]%N)) 2 sample_view_ok)
    as (prepared & Hp & _ & Hd & _).
  - unfold sample_records. intros r. rewrite !elem_of_cons. intros [->|[->|[->|[->|[->|?%not_elem_of_nil]]]]] id h; done.
  - by vm_compute.
  - exists prepared. split; [exact Hp|]. assert (Hne : dying sample_view (Some (coverage_new 22 [4; 4; 1]%N)) (final_docs sample_records) <> []) by by vm_compute.
    split.
    + apply (Hd Hne). apply (bool_decide_unpack _). vm_compute. exact I.
    + destruct (dormant_after sample_view prepared 9) as [h|] eqn:E; [|reflexivity]. exfalso. apply (Hd Hne) in E. revert E.
      match goal with |- context [canonicalize ?x ?c] => let y := eval vm_compute in (canonicalize x c) in change (canonicalize x c) with y end.
      rewrite !elem_of_cons. intros [[= ?]|[[= ?]|?%not_elem_of_nil]]; done.
Defined.

(** The second transaction adds a hash the first revoked; a third would add
    one that is held. *)
Definition sample_changes : list (u64 * list (DocId * Hash) * list (DocId * Hash)) :=
  [(4, [(5, sample_hash 50)], [(20, sample_hash 7)]); (6, [(3, sample_hash 30)], [(21, sample_hash 50); (22, sample_hash 30)])]%N.

Lemma retained_table_refines_witness :
  dormant_rows (dormant_write sample_rows) = Some sample_rows /\
  exists r, dormant_check 30 (fun _ => None) (dormant_write sample_rows) = Some r /\ (r = Ok tt <-> valid_rows 30 (fun _ => None) sample_rows) /\
  (r = Ok tt -> exists a, advance_all (state_new (dormant_write sample_rows)) sample_changes = Some a /\
    match a, table_all (table sample_rows) sample_changes with
    | Ok st, Some m => (forall h, find st h = Some (m !! h)) /\ st_count st = base.size m
    | Err _, None => True
    | _, _ => False
    end).
Proof. apply (retained_table_refines 30 (fun _ => None) sample_rows sample_changes sample_stored); repeat constructor; set_solver. Defined.

Example sample_changes_accepted :
  (fun r => match r with Ok st => (find st (sample_hash 50), find st (sample_hash 30), st_count st) | Err _ => (None, None, 0) end) <$>
    advance_all (state_new (dormant_write sample_rows)) sample_changes = Some (Some (Some 21%N), Some (Some 22%N), 4) /\
  advance_all (state_new (dormant_write sample_rows)) [(4, [], [(20, sample_hash 90)])]%N = Some (Err (Corrupt "duplicate dormant hash")).
Proof. vm_compute. split; reflexivity. Qed.
