(* ===== verification/Generation.v ===== *)
(** * Generation: checkpoint identity and the published manifest

    Models [crates/ferret-catalog/src/generation.rs]: the generation of a
    view and its successors, and the fixed [current] manifest with its
    codec and its check against a checkpoint.  BLAKE3-128 ([checksum]) is a
    parameter.  A read out of range is [None]. *)
From S2P Require Import Prelude Word Bytes LogRecords.
#[local] Open Scope ferret_scope.

(** [Generation]. *)
Record Generation := mkGeneration { g_incarnation : bytes; g_checkpoint : u64; g_sequence : u64 }.
#[export] Instance Generation_eq_dec : EqDecision Generation.
Proof. solve_decision. Defined.

(** [n.checked_add(1).filter(|&n| n != u64::MAX)]. *)
Definition next_number (n : u64) : option u64 :=
  n ← checked_add n 1;
  if (n =? 2 ^ 64 - 1)%N then None else Some n.

(** [Generation::successor] and [check], whose error holds the current view. *)
Definition successor (self : Generation) : result Generation DecodeError :=
  checkpoint <~ ok_or (next_number (g_checkpoint self)) (Corrupt "checkpoint exhausted");
  sequence <~ ok_or (next_number (g_sequence self)) (Corrupt "sequence exhausted");
  Ok (mkGeneration (g_incarnation self) checkpoint sequence).
Definition check_generation (self expected : Generation) : result unit Generation :=
  if bool_decide (self = expected) then Ok tt else Err self.

(** The live rows a manifest counts: inodes, names, directories, documents. *)
Record Counts := mkCounts { n_inodes : u32; n_names : u32; n_dirs : u32; n_docs : u32 }.
#[export] Instance Counters_eq_dec : EqDecision Counters.
Proof. solve_decision. Defined.
#[export] Instance Counts_eq_dec : EqDecision Counts.
Proof. solve_decision. Defined.

Definition MANIFEST_LEN : nat := 128.
Definition CURRENT_MAGIC : bytes := ascii_bytes "FERRETC6".
Definition LEGACY_MAGIC : bytes := ascii_bytes "FERRETCR".
Definition VERSION : u32 := 6.

(** [Manifest]. *)
Record Manifest := mkManifest {
  generation : Generation; log_end : u64; checkpoint_sequence : u64; sniffer : u32; counters : Counters; counts : Counts
}.
#[export] Instance Manifest_eq_dec : EqDecision Manifest.
Proof. solve_decision. Defined.

(** The facts of a checkpoint's layout. *)
Record Layout := mkLayout {
  l_generation : Generation; l_sniffer : u32; l_next_doc : u32; l_dirs : N; l_inodes : N; l_names : N; l_docs : N
}.

(** [n as u32]. *)
Definition as_u32 (n : N) : u32 := (n mod 2 ^ 32)%N.

(** [Manifest::from_layout]. *)
Definition from_layout (l : Layout) : Manifest :=
  mkManifest (l_generation l) 0 (g_sequence (l_generation l)) (l_sniffer l)
    (mkCounters (as_u32 (l_inodes l)) (as_u32 (l_names l)) (l_next_doc l))
    (mkCounts (as_u32 (l_inodes l)) (as_u32 (l_names l)) (as_u32 (l_dirs l)) (as_u32 (l_docs l))).

(** [iter().zip(..).any(|(a, b)| *a < b)]: a counter went down. *)
Definition decreased (a b : Counters) : bool := ((inodes a <? inodes b) || (names a <? names b) || (docs a <? docs b))%N.

(** [Manifest::check]. *)
Definition check_layout (m : Manifest) (l : Layout) : result unit DecodeError :=
  let expected := from_layout l in
  let g := generation m in
  if bool_decide (g_incarnation g <> g_incarnation (l_generation l)) || negb (g_checkpoint g =? g_checkpoint (l_generation l))%N
     || negb (checkpoint_sequence m =? g_sequence (l_generation l))%N
     || ((g_sequence g =? checkpoint_sequence m)%N && negb (sniffer m =? l_sniffer l)%N)
     || decreased (counters m) (counters expected)
     || ((g_sequence g =? checkpoint_sequence m)%N && (bool_decide (counters m <> counters expected) || bool_decide (counts m <> counts expected)))
     || ((log_end m =? 0)%N && negb (g_sequence g =? checkpoint_sequence m)%N)
  then Err (Corrupt "checkpoint identity") else Ok tt.

(** ** The codec *)

Section codec.
Context (checksum : bytes -> bytes).

(** The fields of a manifest, in the order they lie. *)
Definition body_fields (magic : bytes) (version : u32) (m : Manifest) : list bytes :=
  [magic; le_bytes 4 version; zeros 4; g_incarnation (generation m);
   le_bytes 8 (g_checkpoint (generation m)); le_bytes 8 (g_sequence (generation m)); le_bytes 8 (log_end m); le_bytes 8 (checkpoint_sequence m);
   le_bytes 4 (sniffer m); le_bytes 4 (inodes (counters m)); le_bytes 4 (names (counters m)); le_bytes 4 (docs (counters m));
   le_bytes 4 (n_inodes (counts m)); le_bytes 4 (n_names (counts m)); le_bytes 4 (n_dirs (counts m)); le_bytes 4 (n_docs (counts m)); zeros 16].
Definition sealed (body : bytes) : bytes := body ++ checksum body.

(** [Manifest::encode]. *)
Definition encode_current (m : Manifest) : bytes := sealed (concat (body_fields CURRENT_MAGIC VERSION m)).

(** [Manifest::decode]. *)
Definition decode_current (b : bytes) : option (result Manifest DecodeError) :=
  if negb (length b =? MANIFEST_LEN) then Some (Err (Corrupt "manifest"))
  else
    magic ← sub_bytes b 0 8;
    if bool_decide (magic <> CURRENT_MAGIC) && bool_decide (magic <> LEGACY_MAGIC) then Some (Err (Corrupt "manifest"))
    else
      body ← sub_bytes b 0 112;
      digest ← sub_bytes b 112 128;
      if bool_decide (checksum body <> digest) then Some (Err (Corrupt "manifest"))
      else
        version ← u32_at b 8;
        if negb (version =? VERSION)%N && negb (version =? 5)%N then Some (Err (Version version))
        else if negb (eqb (bool_decide (magic = LEGACY_MAGIC)) (version =? 5)%N) then Some (Err (Corrupt "manifest version/magic"))
        else
          incarnation ← sub_bytes b 16 32;
          checkpoint ← u64_at b 32;
          sequence ← u64_at b 40;
          i ← u32_at b 68; n ← u32_at b 72; d ← u32_at b 76;
          ci ← u32_at b 80; cn ← u32_at b 84; cd ← u32_at b 88; cx ← u32_at b 92;
          pad ← sub_bytes b 12 16;
          pad2 ← sub_bytes b 96 112;
          checkpoint_sequence ← u64_at b 56;
          log_end ← u64_at b 48;
          sniffer ← u32_at b 64;
          if bool_decide (pad <> zeros 4) || bool_decide (pad2 <> zeros 16) || bool_decide (incarnation = zeros 16)
             || (checkpoint =? NONE64)%N || (sequence =? NONE64)%N || (NONE - 16 <? i)%N || (n =? NONE)%N
             || (i <? ci)%N || (n <? cn)%N || (ci <? cd)%N || (d <? cx)%N || (sequence <? checkpoint_sequence)%N
          then Some (Err (Corrupt "manifest"))
          else Some (Ok (mkManifest (mkGeneration incarnation checkpoint sequence) log_end checkpoint_sequence sniffer
                           (mkCounters i n d) (mkCounts ci cn cd cx))).
End codec.

(** ** Properties of the codec *)

(** A manifest that may be published. *)
Record manifest_ok (m : Manifest) : Prop := {
  mo_u32 : Forall u32_ok [sniffer m; inodes (counters m); names (counters m); docs (counters m);
                          n_inodes (counts m); n_names (counts m); n_dirs (counts m); n_docs (counts m)];
  mo_u64 : Forall u64_ok [g_checkpoint (generation m); g_sequence (generation m); log_end m; checkpoint_sequence m];
  mo_incarnation : digest_ok (g_incarnation (generation m)) /\ g_incarnation (generation m) <> zeros 16;
  mo_generation : g_checkpoint (generation m) <> NONE64 /\ g_sequence (generation m) <> NONE64;
  mo_counters : (inodes (counters m) <= NONE - 16)%N /\ names (counters m) <> NONE;
  mo_counts : (n_inodes (counts m) <= inodes (counters m) /\ n_names (counts m) <= names (counters m) /\
               n_dirs (counts m) <= n_inodes (counts m) /\ n_docs (counts m) <= docs (counters m))%N;
  mo_sequence : (checkpoint_sequence m <= g_sequence (generation m))%N
}.

Section codec_laws.
Context (checksum : bytes -> bytes) (Hsum : forall l, length (checksum l) = 16).

Ltac fields_unfold ::= unfold body_fields.

Lemma sealed_fields (body : list bytes) : sealed checksum (concat body) = concat (body ++ [checksum (concat body)]).
Proof. unfold sealed. rewrite concat_app. cbn [concat]. by rewrite app_nil_r. Qed.

Lemma length_body magic version m : length magic = 8 -> digest_ok (g_incarnation (generation m)) -> length (concat (body_fields magic version m)) = 112.
Proof. intros Hm Hi. unfold body_fields. cbn [concat]. rewrite !length_app, Hm, (proj1 Hi), !length_le_bytes. done. Qed.

Lemma decode_sealed magic version m : manifest_ok m -> magic = CURRENT_MAGIC /\ version = VERSION \/ magic = LEGACY_MAGIC /\ version = 5%N ->
  decode_current checksum (sealed checksum (concat (body_fields magic version m))) = Some (Ok m).
Proof.
  intros [H32 H64 [Hi Hi0] [Hg1 Hg2] [Hc1 Hc2] (Hn1 & Hn2 & Hn3 & Hn4) Hs] Hmv.
  assert (Hml : length magic = 8) by (destruct Hmv as [[-> _]|[-> _]]; done).
  pose proof (length_body magic version m Hml Hi) as Hl. unfold decode_current.
  assert (Hlen : length (sealed checksum (concat (body_fields magic version m))) = 128) by (unfold sealed; rewrite length_app, Hl, Hsum; done).
  rewrite Hlen. cbn [Nat.eqb negb MANIFEST_LEN].
  assert (Hb : sub_bytes (sealed checksum (concat (body_fields magic version m))) 0 112 = Some (concat (body_fields magic version m))).
  { rewrite sub_bytes_in by lia. f_equal. unfold sealed, slice. rewrite drop_0, Nat.sub_0_r. rewrite take_app_le by lia. apply take_ge. lia. }
  assert (Hd : sub_bytes (sealed checksum (concat (body_fields magic version m))) 112 128 = Some (checksum (concat (body_fields magic version m)))).
  { rewrite sub_bytes_in by lia. f_equal. unfold sealed, slice. rewrite drop_app_length' by lia. apply take_ge. by rewrite Hsum. }
  rewrite sealed_fields in *. set (dg := checksum (concat (body_fields magic version m))) in *. fields_in. read 0.
  replace (bool_decide (magic <> CURRENT_MAGIC) && bool_decide (magic <> LEGACY_MAGIC)) with false by (destruct Hmv as [[-> _]|[-> _]]; by vm_compute).
  rewrite Hb, Hd. cbn [mbind option_bind]. rewrite bool_decide_false by (by intros Hne; apply Hne).
  assert (Hv : u32_ok version) by (destruct Hmv as [[_ ->]|[_ ->]]; by vm_compute). read 1.
  replace (negb (version =? VERSION)%N && negb (version =? 5)%N) with false by (destruct Hmv as [[_ ->]|[_ ->]]; by vm_compute).
  replace (negb (eqb (bool_decide (magic = LEGACY_MAGIC)) (version =? 5)%N)) with false by (destruct Hmv as [[-> ->]|[-> ->]]; by vm_compute).
  read 3. read 4. read 5. read 9. read 10. read 11. read 12. read 13. read 14. read 15. read 2. read 16. read 7. read 6. read 8.
  rewrite !bool_decide_false by (first [done|by intros Hne; apply Hne]). cbn [orb].
  repeat match goal with
  | |- context [(?a =? ?b)%N] => destruct (N.eqb_spec a b); [first [contradiction|lia]|]
  | |- context [(?a <? ?b)%N] => destruct (N.ltb_spec a b); [lia|]
  end. cbn [orb]. by destruct m as [[] ? ? ? [] []].
Qed.

(** The condition an [if] tests. *)
Ltac test_as H := lazymatch goal with |- exists _, (if ?c then _ else _) = _ /\ _ => destruct c eqn:H end.

Lemma rejoin_body b magic version m : length b = 128 -> bytes_ok b -> magic = slice b 0 8 -> version = le_num (slice b 8 12) ->
  slice b 12 16 = zeros 4 -> slice b 96 112 = zeros 16 ->
  m = mkManifest (mkGeneration (slice b 16 32) (le_num (slice b 32 40)) (le_num (slice b 40 48))) (le_num (slice b 48 56)) (le_num (slice b 56 64))
        (le_num (slice b 64 68)) (mkCounters (le_num (slice b 68 72)) (le_num (slice b 72 76)) (le_num (slice b 76 80)))
        (mkCounts (le_num (slice b 80 84)) (le_num (slice b 84 88)) (le_num (slice b 88 92)) (le_num (slice b 92 96))) ->
  checksum (slice b 0 112) = slice b 112 128 -> b = sealed checksum (concat (body_fields magic version m)).
Proof.
  intros Hl Hok -> -> Hp Hp2 -> Hs. assert (Hb : concat (body_fields (slice b 0 8) (le_num (slice b 8 12))
    (mkManifest (mkGeneration (slice b 16 32) (le_num (slice b 32 40)) (le_num (slice b 40 48))) (le_num (slice b 48 56)) (le_num (slice b 56 64))
        (le_num (slice b 64 68)) (mkCounters (le_num (slice b 68 72)) (le_num (slice b 72 76)) (le_num (slice b 76 80)))
        (mkCounts (le_num (slice b 80 84)) (le_num (slice b 84 88)) (le_num (slice b 88 92)) (le_num (slice b 92 96))))) = slice b 0 112).
  { unfold body_fields. cbn [concat generation g_incarnation g_checkpoint g_sequence log_end checkpoint_sequence sniffer counters inodes names docs
      counts n_inodes n_names n_dirs n_docs]. rewrite <- Hp, <- Hp2. rejoin. }
  rewrite Hb. unfold sealed. rewrite Hs, slice_join by lia. symmetry. apply slice_all. lia.
Qed.

(** Any bytes are answered, and only the bytes of a manifest with one. *)
Lemma decode_current_total b : exists r, decode_current checksum b = Some r /\
  forall m, r = Ok m -> bytes_ok b -> manifest_ok m /\
    (b = sealed checksum (concat (body_fields CURRENT_MAGIC VERSION m)) \/ b = sealed checksum (concat (body_fields LEGACY_MAGIC 5 m))).
Proof.
  unfold decode_current, MANIFEST_LEN. destruct (Nat.eqb_spec (length b) 128) as [Hl|Hl]; cbn [negb]; [|by eexists].
  in_range. cbn [Nat.add]. test_as Hmagic; [by eexists|]. test_as Hs; [by eexists|]. test_as Hversion; [by eexists|]. test_as Hpair; [by eexists|].
  test_as Hbad; [by eexists|]. eexists. split; [done|]. intros m [= <-] Hok.
  repeat match type of Hbad with _ || _ = false => let H := fresh "H" in apply orb_false_iff in Hbad as [Hbad H] end.
  repeat match goal with
  | H : (_ <? _)%N = false |- _ => apply N.ltb_ge in H
  | H : (_ =? _)%N = false |- _ => apply N.eqb_neq in H
  | H : bool_decide _ = false |- _ => apply bool_decide_eq_false in H
  end.
  apply dec_stable in Hs.
  assert (Hkind : slice b 0 8 = CURRENT_MAGIC /\ le_num (slice b 8 12) = VERSION \/ slice b 0 8 = LEGACY_MAGIC /\ le_num (slice b 8 12) = 5%N).
  { apply negb_false_iff, eqb_prop in Hpair. destruct (decide (slice b 0 8 = LEGACY_MAGIC)) as [HL|HL].
    - right. split; [done|]. rewrite bool_decide_true in Hpair by done. symmetry in Hpair. by apply N.eqb_eq in Hpair.
    - left. rewrite bool_decide_false in Hpair by done. rewrite <- Hpair in Hversion. rewrite (bool_decide_true (slice b 0 8 <> LEGACY_MAGIC)) in Hmagic by done.
      rewrite andb_true_r in Hmagic, Hversion. apply bool_decide_eq_false, dec_stable in Hmagic. split; [done|].
      apply negb_false_iff in Hversion. by apply N.eqb_eq in Hversion. }
  split.
  - split; cbn [generation g_incarnation g_checkpoint g_sequence log_end checkpoint_sequence sniffer counters inodes names docs counts n_inodes n_names n_dirs n_docs];
      field_bounds; try (split_and!; assumption); [split; [field_bounds|assumption]|assumption].
  - destruct Hkind as [[Hk1 Hk2]|[Hk1 Hk2]]; [left|right]; (eapply rejoin_body; [done|done|by symmetry|by symmetry|by apply dec_stable|by apply dec_stable|done|done]).
Qed.
End codec_laws.

(** The codec of the published manifest: a valid manifest is read back as it
    was written; any bytes are answered, and a manifest is read only from its
    own encoding, current or legacy. *)
Lemma current_codec checksum (Hsum : forall l, length (checksum l) = 16) :
  (forall m, manifest_ok m -> decode_current checksum (encode_current checksum m) = Some (Ok m)) /\
  (forall b, exists r, decode_current checksum b = Some r /\
     forall m, r = Ok m -> bytes_ok b -> manifest_ok m /\
       (b = encode_current checksum m \/ b = sealed checksum (concat (body_fields LEGACY_MAGIC 5 m)))).
Proof.
  split.
  - intros m Hm. apply decode_sealed; [done|done|by left].
  - intros b. by apply decode_current_total.
Qed.

(** A fresh checkpoint's manifest passes its own check. *)
Lemma from_layout_checks l : check_layout (from_layout l) l = Ok tt.
Proof.
  unfold check_layout, from_layout, decreased. cbn [generation sniffer counters counts checkpoint_sequence log_end inodes names docs].
  rewrite !bool_decide_false by (by intros Hn; apply Hn). rewrite !N.eqb_refl, !N.ltb_irrefl. done.
Qed.
