(* ===== verification/LogFrames.v ===== *)
(** * LogFrames: transactions of the change log

    Models [crates/ferret-catalog/src/log.rs] and the encoding half of
    [log/writer.rs]: the header, the envelope of a transaction with its block
    descriptors and footer, opening a published prefix, loading a family's
    blocks, and what a commit appends.

    A file is its bytes: a read past its end is [UnexpectedEof]; other
    failures of the device are not modelled.  Offsets stay below the file's
    length, so their additions do not wrap.  A block's [OnceLock] is a cell
    that [load] fills.  A panic is [None]. *)
From S2P Require Import Prelude Word Bytes LogRecords Generation.
#[local] Open Scope ferret_scope.

(** [io::ErrorKind] and [OpenError]. *)
Inductive IoKind := NotFound | UnexpectedEof.
Inductive OpenError :=
| Io (kind : IoKind)
| Decode (e : DecodeError)
| LogFault (checkpoint : u64) (sequence : option u64) (family : option Family) (cause : OpenError).

(** [corrupt]. *)
Definition corrupt (label : string) : OpenError := Decode (Corrupt label).

Abbreviation outcome A := (option (result A OpenError)).
Definition oe_bind {A B} (m : outcome A) (k : A -> outcome B) : outcome B :=
  match m with Some (Ok a) => k a | Some (Err e) => Some (Err e) | None => None end.
#[local] Notation "x <~! m ; k" := (oe_bind m (fun x => k)) (at level 100, m at next level, right associativity).
Definition lift_decode {A} (m : option (result A DecodeError)) : outcome A :=
  r ← m; Some (match r with Ok a => Ok a | Err e => Err (Decode e) end).

Definition HEADER : N := 64.
Definition LOG_MAGIC : bytes := ascii_bytes "FERRETCL".
Definition TX_MAGIC : bytes := ascii_bytes "FERRETTX".
Definition FAMILIES : list Family := [Namespace; Inodes; Aux; Docs].
(** [family as u16]. *)
Definition family_index (f : Family) : nat := match f with Namespace => 0 | Inodes => 1 | Aux => 2 | Docs => 3 end.

(** [ChangeSet]. *)
Record ChangeSet := mkChangeSet { cs_records : list Record_; cs_counters : Counters; cs_counts : Counts }.

(** [Block], [Envelope] and [Log]. *)
Record Block := mkBlock {
  b_family : Family; b_count : u32; b_offset : N; b_length : N; b_digest : bytes; b_records : option (list Record_)
}.
Record Envelope := mkEnvelope { e_sequence : u64; e_counters : Counters; e_blocks : list Block }.
Record Log := mkLog { lg_file : option bytes; transactions : list Envelope; lg_end : N; lg_read : N; lg_checkpoint : u64 }.

(** [file.read_exact_at(&mut [0; n], at)]. *)
Definition read_exact_at (file : bytes) (n : nat) (at_ : N) : result bytes OpenError :=
  if (at_ + N.of_nat n <=? N.of_nat (length file))%N then Ok (slice file (N.to_nat at_) (N.to_nat at_ + n)) else Err (Io UnexpectedEof).

Section log.
Context (checksum : bytes -> bytes).

(** [header], of a version. *)
Definition header_fields (version : u32) (g : Generation) : list bytes :=
  [LOG_MAGIC; le_bytes 4 version; zeros 4; g_incarnation g; le_bytes 8 (g_checkpoint g); le_bytes 8 (g_sequence g)].
Definition header (g : Generation) : bytes := sealed checksum (concat (header_fields VERSION g)).

(** ** Reading an envelope *)

(** [read_blocks]' loop over the descriptors. *)
Fixpoint blocks_loop (ds : list bytes) (at_ length_ cursor : N) (seen : list bool) (blocks : list Block) : outcome (N * list Block) :=
  match ds with
  | [] => Some (Ok (cursor, blocks))
  | d :: ds =>
      family ← sub_bytes d 0 2;
      let family := N.to_nat (le_num family) in
      offset ← u64_at d 8;
      size ← u64_at d 16;
      records ← u32_at d 4;
      pad ← sub_bytes d 2 4;
      pad2 ← sub_bytes d 40 48;
      if (4 <=? family) || default false (seen !! family) || bool_decide (pad <> zeros 2) || bool_decide (pad2 <> zeros 8)
         || negb (offset =? cursor)%N || (size =? 0)%N || negb (size mod 8 =? 0)%N || (records =? 0)%N
         || (size / 16 <? records)%N || (length_ - 32 - cursor <? size)%N
      then Some (Err (corrupt "log block descriptor"))
      else
        digest ← sub_bytes d 24 40;
        f ← FAMILIES !! family;
        blocks_loop ds at_ length_ (cursor + size)%N (<[family := true]> seen)
          (blocks ++ [mkBlock f records (at_ + offset) size digest None])
  end.
(** [framing[64..].chunks_exact(48)]. *)
Definition descriptors (framing : bytes) : list bytes :=
  map (fun i => slice framing (64 + i * 48) (64 + (i + 1) * 48)) (seq 0 ((length framing - 64) / 48)).
Definition read_blocks (framing : bytes) (at_ length_ : N) : outcome (list Block) :=
  answer <~! blocks_loop (descriptors framing) at_ length_ (N.of_nat (length framing)) (replicate 4 false) [];
  let '(cursor, blocks) := answer in
  if negb (cursor =? length_ - 32)%N then Some (Err (corrupt "log block tiling")) else Some (Ok blocks).

(** [read_envelope]. *)
Definition read_envelope (file : bytes) (at_ room : N) (sequence : u64) (before : Counters) : outcome (Envelope * N * N) :=
  if (room <? 96)%N then Some (Err (corrupt "log transaction truncated"))
  else
    head <~! Some (read_exact_at file 64 at_);
    magic ← sub_bytes head 0 8;
    version ← u32_at head 8;
    pad ← sub_bytes head 52 64;
    if bool_decide (magic <> TX_MAGIC) || negb ((version =? 5)%N || (version =? VERSION)%N) || bool_decide (pad <> zeros 12)
    then Some (Err (corrupt "log transaction header"))
    else
      count ← u32_at head 12;
      length_ ← u64_at head 16;
      next ← u64_at head 24;
      previous ← u64_at head 32;
      if (count =? 0)%N || (4 <? count)%N || (length_ <? 96 + 48 * count)%N || negb (length_ mod 8 =? 0)%N || (room <? length_)%N
         || bool_decide (checked_add sequence 1 <> Some next) || (next =? NONE64)%N || negb (previous =? sequence)%N
      then Some (Err (corrupt "log transaction framing/sequence"))
      else
        i ← u32_at head 40; n ← u32_at head 44; d ← u32_at head 48;
        let after := mkCounters i n d in
        if (NONE - 16 <? i)%N || (n =? NONE)%N || decreased after before then Some (Err (corrupt "log allocation counters"))
        else
          let framed := 64 + N.to_nat count * 48 in
          rest <~! Some (read_exact_at file (framed - 64) (at_ + 64));
          let framing := head ++ rest in
          footer <~! Some (read_exact_at file 32 (at_ + length_ - 32));
          seal ← u64_at footer 0;
          total ← u64_at footer 8;
          digest ← sub_bytes footer 16 32;
          if negb (seal =? next)%N || negb (total =? length_)%N || bool_decide (digest <> checksum framing)
          then Some (Err (corrupt "log transaction footer/checksum"))
          else
            blocks <~! read_blocks framing at_ length_;
            Some (Ok (mkEnvelope next after blocks, length_, (N.of_nat framed + 32)%N)).

(** ** Opening *)

(** The loop of [Log::open]: an envelope is not empty, so the length of the
    file is fuel enough. *)
Fixpoint open_loop (fuel : nat) (file : bytes) (log_end at_ : N) (sequence : u64) (counters : Counters) (txs : list Envelope) (read : N) :
  outcome (u64 * Counters * list Envelope * N) :=
  match fuel with
  | 0 => None
  | S fuel =>
      if (at_ <? log_end)%N then
        answer <~! read_envelope file at_ (log_end - at_) sequence counters;
        let '(envelope, length_, framed) := answer in
        open_loop fuel file log_end (at_ + length_)%N (e_sequence envelope) (e_counters envelope) (txs ++ [envelope]) (read + framed)%N
      else Some (Ok (sequence, counters, txs, read))
  end.

(** [Log::open]. *)
Definition log_open (file : option bytes) (m : Manifest) (base_counters : Counters) : outcome Log :=
  match file with
  | None =>
      if negb (log_end m =? 0)%N || negb (g_sequence (generation m) =? checkpoint_sequence m)%N then Some (Err (corrupt "log prefix"))
      else Some (Ok (mkLog None [] 0 0 (g_checkpoint (generation m))))
  | Some file =>
      if (log_end m <? HEADER)%N || (N.of_nat (length file) <? log_end m)%N then Some (Err (corrupt "log prefix truncated"))
      else
        bytes <~! Some (read_exact_at file 64 0);
        let base := mkGeneration (g_incarnation (generation m)) (g_checkpoint (generation m)) (checkpoint_sequence m) in
        version ← u32_at bytes 8;
        let expected := if (version =? 5)%N then sealed checksum (concat (header_fields 5 base)) else header base in
        if bool_decide (bytes <> expected) then Some (Err (corrupt "log header identity/checksum"))
        else
          answer <~! open_loop (S (length file)) file (log_end m) HEADER (checkpoint_sequence m) base_counters [] HEADER;
          let '(sequence, counters_, txs, read) := answer in
          if negb (sequence =? g_sequence (generation m))%N || bool_decide (counters_ <> counters m)
          then Some (Err (corrupt "log manifest sequence/counters"))
          else Some (Ok (mkLog (Some file) txs (log_end m) read (g_checkpoint (generation m))))
  end.

(** [Log::frames], [record_count] and [transaction_count]. *)
Definition frames (self : Log) : list (u64 * Counters) := map (fun t => (e_sequence t, e_counters t)) (transactions self).
Definition record_count (self : Log) : N :=
  foldr (fun b n => b_count b + n)%N 0%N (concat (map e_blocks (transactions self))).
Definition transaction_count (self : Log) : nat := length (transactions self).

(** ** Loading a family *)

(** The closure [checked] of [Log::load], with the bytes it has read. *)
Definition load_block (file : option bytes) (t : Envelope) (b : Block) (family : Family) : outcome (list Record_) :=
  match file with
  | None => Some (Err (corrupt "missing log descriptor"))
  | Some file =>
      bytes <~! Some (read_exact_at file (N.to_nat (b_length b)) (b_offset b));
      if bool_decide (checksum bytes <> b_digest b) then Some (Err (corrupt "log payload checksum"))
      else lift_decode (decode (e_counters t) (e_sequence t) bytes (b_count b) family)
  end.
(** Whether a block that fails was read: the counter grows before the digest
    is compared. *)
Definition block_read (file : option bytes) (b : Block) : N :=
  match file with
  | Some file => match read_exact_at file (N.to_nat (b_length b)) (b_offset b) with Ok _ => b_length b | Err _ => 0%N end
  | None => 0%N
  end.

(** [Log::load]'s loops: the log as far as it was loaded, and the result. *)
Fixpoint load_blocks (file : option bytes) (checkpoint : u64) (t : Envelope) (family : Family) (bs : list Block) (read : N) :
  option (list Block * N * result unit OpenError) :=
  match bs with
  | [] => Some ([], read, Ok tt)
  | b :: bs =>
      if bool_decide (b_family b = family) && bool_decide (b_records b = None) then
        r ← load_block file t b family;
        let read := (read + block_read file b)%N in
        match r with
        | Err e =>
            let cause := match file with None => e | Some _ => LogFault checkpoint (Some (e_sequence t)) (Some family) e end in
            Some (b :: bs, read, Err cause)
        | Ok rs =>
            '(bs, read, r) ← load_blocks file checkpoint t family bs read;
            Some (mkBlock (b_family b) (b_count b) (b_offset b) (b_length b) (b_digest b) (Some rs) :: bs, read, r)
        end
      else
        '(bs, read, r) ← load_blocks file checkpoint t family bs read;
        Some (b :: bs, read, r)
  end.
Fixpoint load_transactions (file : option bytes) (checkpoint : u64) (family : Family) (ts : list Envelope) (read : N) :
  option (list Envelope * N * result unit OpenError) :=
  match ts with
  | [] => Some ([], read, Ok tt)
  | t :: ts =>
      '(bs, read, r) ← load_blocks file checkpoint t family (e_blocks t) read;
      let t := mkEnvelope (e_sequence t) (e_counters t) bs in
      match r with
      | Err e => Some (t :: ts, read, Err e)
      | Ok _ => '(ts, read, r) ← load_transactions file checkpoint family ts read; Some (t :: ts, read, r)
      end
  end.
Definition load_log (self : Log) (family : Family) : option (Log * result unit OpenError) :=
  '(ts, read, r) ← load_transactions (lg_file self) (lg_checkpoint self) family (transactions self) (lg_read self);
  Some (mkLog (lg_file self) ts (lg_end self) read (lg_checkpoint self), r).

(** [Log::load_all]: families one after another, up to the first that
    fails. *)
Fixpoint load_each (self : Log) (families : list Family) : option (Log * result unit OpenError) :=
  match families with
  | [] => Some (self, Ok tt)
  | f :: families =>
      '(self, r) ← load_log self f;
      match r with Err e => Some (self, Err e) | Ok _ => load_each self families end
  end.
Definition load_all (self : Log) : option (Log * result unit OpenError) := load_each self FAMILIES.

(** [Log::records]: a family that was not loaded is a panic. *)
Definition block_rows (t : Envelope) (b : Block) : option (list (u64 * Record_)) :=
  rs ← b_records b; Some (map (fun r => (e_sequence t, r)) rs).
Definition tx_log_rows (family : Family) (t : Envelope) : option (list (u64 * Record_)) :=
  rows ← mapM (block_rows t) (filter (fun b => b_family b = family) (e_blocks t));
  Some (concat rows).
Definition log_records (self : Log) (family : Family) : option (list (u64 * Record_)) :=
  rows ← mapM (tx_log_rows family) (transactions self);
  Some (concat rows).

(** ** Encoding a transaction *)

(** The loop over the records of one family. *)
Fixpoint encode_block (rs : list Record_) (bytes : bytes) (count : u32) : result (list u8 * u32) DecodeError :=
  match rs with
  | [] => Ok (bytes, count)
  | r :: rs =>
      b <~ LogRecords.encode r;
      if (count + 1 <? 2 ^ 32)%N then encode_block rs (bytes ++ b) (count + 1) else Err (Corrupt "log record count")
  end.
(** The loop over [FAMILIES], with its check of what it wrote. *)
Fixpoint encode_blocks (changes : ChangeSet) (sequence : u64) (families : list Family) :
  option (result (list (Family * u32 * bytes)) DecodeError) :=
  match families with
  | [] => Some (Ok [])
  | f :: families =>
      match encode_block (filter (fun r => family r = f) (cs_records changes)) [] 0 with
      | Err e => Some (Err e)
      | Ok (bytes, count) =>
          if (count =? 0)%N then encode_blocks changes sequence families
          else
            r ← LogRecords.decode (cs_counters changes) sequence bytes count f;
            match r with
            | Err e => Some (Err e)
            | Ok _ =>
                r ← encode_blocks changes sequence families;
                Some (match r with Ok blocks => Ok ((f, count, bytes) :: blocks) | Err e => Err e end)
            end
      end
  end.

(** The fields of the header and of a descriptor, and the descriptors of
    consecutive blocks. *)
Definition tx_fields (count : nat) (length_ : N) (sequence previous : u64) (c : Counters) : list bytes :=
  [TX_MAGIC; le_bytes 4 VERSION; le_bytes 4 (N.of_nat count); le_bytes 8 length_; le_bytes 8 sequence; le_bytes 8 previous;
   le_bytes 4 (inodes c); le_bytes 4 (names c); le_bytes 4 (docs c); zeros 12].
Definition descriptor (f : Family) (count : u32) (offset : nat) (bytes : bytes) : list (list u8) :=
  [le_bytes 2 (N.of_nat (family_index f)); zeros 2; le_bytes 4 count; le_bytes 8 (N.of_nat offset); le_bytes 8 (N.of_nat (length bytes));
   checksum bytes; zeros 8].
Fixpoint descriptors_of (blocks : list (Family * u32 * bytes)) (offset : nat) : list (list u8) :=
  match blocks with
  | [] => []
  | (f, count, bytes) :: blocks => concat (descriptor f count offset bytes) :: descriptors_of blocks (offset + length bytes)
  end.

(** [encode]. *)
Definition encode_tx (changes : ChangeSet) (sequence previous : u64) : option (result bytes DecodeError) :=
  r ← encode_blocks changes sequence FAMILIES;
  match r with
  | Err e => Some (Err e)
  | Ok blocks =>
      let framed := 64 + length blocks * 48 in
      let body := concat (map snd blocks) in
      let length_ := N.of_nat (framed + length body + 32) in
      let framing := concat (tx_fields (length blocks) length_ sequence previous (cs_counters changes)) ++ concat (descriptors_of blocks framed) in
      Some (Ok (framing ++ body ++ concat [le_bytes 8 sequence; le_bytes 8 length_; checksum framing]))
  end.

(** [checked_size]'s loop, with the records of each family counted. *)
Fixpoint checked_loop (rs : list Record_) (c : Counters) (sequence : u64) (counts : list u32) (length_ : u64) :
  option (result (list u32 * u64) DecodeError) :=
  match rs with
  | [] => Some (Ok (counts, length_))
  | r :: rs =>
      match LogRecords.encode r with
      | Err e => Some (Err e)
      | Ok scratch =>
          d ← LogRecords.decode c sequence scratch 1 (family r);
          match d with
          | Err e => Some (Err e)
          | Ok _ =>
              n ← counts !! family_index (family r);
              if (n + 1 <? 2 ^ 32)%N then
                match checked_add length_ (N.of_nat (length scratch)) with
                | None => Some (Err (Corrupt "log exhausted"))
                | Some length_ => checked_loop rs c sequence (<[family_index (family r) := (n + 1)%N]> counts) length_
                end
              else Some (Err (Corrupt "log record count"))
          end
      end
  end.
Definition checked_size (changes : ChangeSet) (sequence : u64) : option (result u64 DecodeError) :=
  r ← checked_loop (cs_records changes) (cs_counters changes) sequence (replicate 4 0%N) 96;
  Some (match r with
        | Ok (counts, length_) => Ok (length_ + N.of_nat (length (filter (fun n => n <> 0%N) counts)) * 48)%N
        | Err e => Err e
        end).
End log.

(** ** Reading, specified *)

Lemma read_exact_in file n at_ : (at_ + N.of_nat n <= N.of_nat (length file))%N ->
  read_exact_at file n at_ = Ok (slice file (N.to_nat at_) (N.to_nat at_ + n)).
Proof. intros H. unfold read_exact_at. by rewrite (proj2 (N.leb_le _ _) H). Qed.

Lemma read_exact_ok file n at_ b : read_exact_at file n at_ = Ok b ->
  (at_ + N.of_nat n <= N.of_nat (length file))%N /\ b = slice file (N.to_nat at_) (N.to_nat at_ + n) /\ length b = n.
Proof.
  unfold read_exact_at. destruct (N.leb_spec (at_ + N.of_nat n) (N.of_nat (length file))); [|done]. intros [= <-].
  split_and!; [done..|]. rewrite length_slice; lia.
Qed.

(** What a transaction's header may say after another. *)
Record follows (before after : u64 * Counters) : Prop := {
  fo_next : after.1 = (before.1 + 1)%N;
  fo_u64 : u64_ok after.1 /\ after.1 <> NONE64;
  fo_u32 : counters_ok after.2;
  fo_limits : (inodes after.2 <= NONE - 16)%N /\ names after.2 <> NONE;
  fo_grow : decreased after.2 before.2 = false
}.
Fixpoint chain (before : u64 * Counters) (ts : list (u64 * Counters)) : Prop :=
  match ts with [] => True | t :: ts => follows before t /\ chain t ts end.

Lemma chain_app before ts us : chain before (ts ++ us) <-> chain before ts /\ chain (default before (last ts)) us.
Proof.
  revert before. induction ts as [|t ts IH]; intros before; cbn [chain app]; [tauto|]. rewrite IH. destruct ts as [|t' ts]; [cbn; tauto|].
  change (last (t :: t' :: ts)) with (last (t' :: ts)). destruct (last_is_Some (t' :: ts)) as [_ Hl].
  destruct Hl as [x Hx]; [done|]. rewrite Hx. cbn. tauto.
Qed.

(** A block placed within a transaction, not loaded. *)
Record placed (at_ length_ : N) (b : Block) : Prop := {
  pl_from : (at_ <= b_offset b)%N;
  pl_to : (b_offset b + b_length b + 32 <= at_ + length_)%N;
  pl_cell : b_records b = None
}.

Lemma blocks_loop_spec ds at_ length_ cursor seen blocks : Forall (fun d => length d = 48) ds -> (cursor + 32 <= length_)%N ->
  length seen = 4 -> Forall (placed at_ length_) blocks -> NoDup (b_family <$> blocks) ->
  (forall i, seen !! i = Some false -> forall b, b ∈ blocks -> family_index (b_family b) <> i) ->
  exists r, blocks_loop ds at_ length_ cursor seen blocks = Some r /\
    forall c bs, r = Ok (c, bs) -> Forall (placed at_ length_) bs /\ NoDup (b_family <$> bs).
Proof.
  intros Hds. revert cursor seen blocks. induction Hds as [|d ds Hd _ IH]; intros cursor seen blocks Hc Hs Hp Hn Hf; cbn [blocks_loop].
  { eexists. split; [done|]. by intros c bs [= <- <-]. }
  in_range. match goal with |- exists _, (if ?c then _ else _) = _ /\ _ => destruct c eqn:Hbad end; [by eexists|].
  repeat match type of Hbad with _ || _ = false => let H := fresh "H" in apply orb_false_iff in Hbad as [Hbad H] end.
  apply Nat.leb_gt in Hbad. set (k := N.to_nat (le_num (slice d 0 2))) in *. destruct (lookup_lt_is_Some_2 FAMILIES k Hbad) as [f Hk].
  assert (Hfk : family_index f = k) by (do 4 (destruct k as [|k]; [by injection Hk as <-|]); done).
  rewrite Hk. cbn [mbind option_bind]. destruct (lookup_lt_is_Some_2 seen k) as [s Hsk]; [lia|]. rewrite Hsk in *. cbn in *. subst s.
  repeat match goal with H : (_ <? _)%N = false |- _ => apply N.ltb_ge in H | H : negb _ = false |- _ => apply negb_false_iff in H | H : (_ =? _)%N = true |- _ => apply N.eqb_eq in H end.
  apply IH; [lia|by rewrite length_insert| | |].
  - apply Forall_app. split; [done|]. apply Forall_singleton. split; cbn; [lia|lia|done].
  - rewrite fmap_app. apply NoDup_app. split_and!; [done| |apply NoDup_singleton].
    intros g (b & -> & Hb)%list_elem_of_fmap Hg. apply list_elem_of_singleton in Hg. cbn in Hg. apply (Hf k Hsk b Hb). by rewrite Hg.
  - intros i Hi b [Hb|Hb%list_elem_of_singleton]%elem_of_app.
    + destruct (decide (i = k)) as [->|Hne]; [rewrite list_lookup_insert_eq in Hi by lia; done|]. rewrite list_lookup_insert_ne in Hi by done. by apply Hf.
    + subst b. cbn. rewrite Hfk. intros <-. rewrite list_lookup_insert_eq in Hi by lia. done.
Qed.

Section reading.
Context (checksum : bytes -> bytes).

Lemma read_envelope_spec file at_ room sequence before : (at_ + room <= N.of_nat (length file))%N -> bytes_ok file ->
  exists r, read_envelope checksum file at_ room sequence before = Some r /\
    forall e len fr, r = Ok (e, len, fr) -> (96 <= len <= room)%N /\ follows (sequence, before) (e_sequence e, e_counters e) /\
      Forall (placed at_ len) (e_blocks e) /\ NoDup (b_family <$> e_blocks e).
Proof.
  intros Hroom Hok. unfold read_envelope. destruct (N.ltb_spec room 96) as [|Hr]; [by eexists|].
  rewrite read_exact_in by lia. cbn [oe_bind]. set (head := slice file (N.to_nat at_) (N.to_nat at_ + 64)).
  assert (Hh : length head = 64) by (unfold head; rewrite length_slice; lia). assert (Hho : bytes_ok head) by by apply bytes_ok_slice.
  in_range. cbn [Nat.add]. match goal with |- exists _, (if ?c then _ else _) = _ /\ _ => destruct c end; [by eexists|]. in_range. cbn [Nat.add].
  set (count := le_num (slice head 12 16)). set (len := le_num (slice head 16 24)). set (next := le_num (slice head 24 32)).
  match goal with |- exists _, (if ?c then _ else _) = _ /\ _ => destruct c eqn:Hbad end; [by eexists|]. in_range. cbn [Nat.add].
  repeat match type of Hbad with _ || _ = false => let H := fresh "B" in apply orb_false_iff in Hbad as [Hbad H] end.
  match goal with |- exists _, (if ?c then _ else _) = _ /\ _ => destruct c eqn:Hcnt end; [by eexists|].
  repeat match type of Hcnt with _ || _ = false => let H := fresh "B" in apply orb_false_iff in Hcnt as [Hcnt H] end.
  repeat match goal with H : (_ <? _)%N = false |- _ => apply N.ltb_ge in H | H : negb _ = false |- _ => apply negb_false_iff in H
    | H : (_ =? _)%N = true |- _ => apply N.eqb_eq in H | H : (_ =? _)%N = false |- _ => apply N.eqb_neq in H | H : bool_decide _ = false |- _ => apply bool_decide_eq_false in H end.
  replace (64 + N.to_nat count * 48 - 64) with (N.to_nat count * 48) by lia.
  rewrite read_exact_in by lia. cbn [oe_bind]. set (rest := slice file _ _). assert (Hrest : length rest = N.to_nat count * 48) by (unfold rest; rewrite length_slice; lia).
  rewrite read_exact_in by lia. cbn [oe_bind]. set (footer := slice file (N.to_nat (at_ + len - 32)) _). assert (Hft : length footer = 32) by (unfold footer; rewrite length_slice; lia).
  in_range. match goal with |- exists _, (if ?c then _ else _) = _ /\ _ => destruct c end; [by eexists|].
  unfold read_blocks. assert (Hfl : length (head ++ rest) = 64 + N.to_nat count * 48) by (rewrite length_app; lia).
  destruct (blocks_loop_spec (descriptors (head ++ rest)) at_ len (N.of_nat (length (head ++ rest))) (replicate 4 false) []) as (r & Hbl & Hbs).
  { unfold descriptors. rewrite Hfl. replace (64 + N.to_nat count * 48 - 64) with (N.to_nat count * 48) by lia. rewrite Nat.div_mul by done.
    apply Forall_forall. intros d (i & -> & Hi%elem_of_seq)%list_elem_of_fmap. rewrite length_slice; lia. }
  { lia. }
  { done. }
  { constructor. }
  { constructor. }
  { intros i _ b Hb. by apply not_elem_of_nil in Hb. }
  rewrite Hbl. destruct r as [[c bs]|e]; cbn [oe_bind]; [|by eexists]. destruct (Hbs c bs eq_refl) as [Hp Hn].
  match goal with |- context [if ?c then Some (Err _) else _] => destruct c end; cbn [oe_bind]; [by eexists|].
  eexists. split; [done|]. intros e len' fr [= <- <- <-]. split; [lia|]. cbn [e_sequence e_counters e_blocks]. split; [|done].
  assert (Hnext : next = (sequence + 1)%N).
  { match goal with H : ~ checked_add _ _ <> _ |- _ => apply dec_stable in H; unfold checked_add in H; destruct (_ <? _)%N; [|done]; by injection H as <- end. }
  split; cbn [fst snd inodes names docs]; [done|split; [field_bounds|done]|unfold counters_ok; cbn [inodes names docs]; field_bounds|split; [lia|done]|done].
Qed.

Lemma open_loop_spec fuel file log_end at_ sequence before txs rd : bytes_ok file -> (log_end <= N.of_nat (length file))%N ->
  (log_end < at_ + N.of_nat fuel * 96)%N -> (at_ <= log_end)%N ->
  exists r, open_loop checksum fuel file log_end at_ sequence before txs rd = Some r /\
    forall q c ts rd', r = Ok (q, c, ts, rd') -> exists new, ts = txs ++ new /\
      chain (sequence, before) (map (fun t => (e_sequence t, e_counters t)) new) /\
      (q, c) = default (sequence, before) (last (map (fun t => (e_sequence t, e_counters t)) new)) /\
      Forall (fun t => exists a len, (a + len <= log_end)%N /\ Forall (placed a len) (e_blocks t) /\ NoDup (b_family <$> e_blocks t)) new.
Proof.
  intros Hok Hend. revert at_ sequence before txs rd. induction fuel as [|fuel IH]; intros at_ sequence before txs rd Hfuel Hat; cbn [open_loop]; [lia|].
  destruct (N.ltb_spec at_ log_end) as [Hlt|Hge].
  - destruct (read_envelope_spec file at_ (log_end - at_) sequence before ltac:(lia) Hok) as (r & -> & Hr).
    destruct r as [[[e len] fr]|e]; cbn [oe_bind]; [|by eexists]. destruct (Hr e len fr eq_refl) as (Hlen & Hf & Hp & Hn).
    destruct (IH (at_ + len)%N (e_sequence e) (e_counters e) (txs ++ [e]) (rd + fr)%N ltac:(lia) ltac:(lia)) as (r & -> & Hres). exists r. split; [done|].
    intros q c ts rd' ->. destruct (Hres q c ts rd' eq_refl) as (new & -> & Hc & Hl & Hfa). exists (e :: new). split_and!.
    + by rewrite <- app_assoc.
    + by split.
    + rewrite Hl. cbn [map]. destruct new as [|t new]; [done|]. cbn [map]. set (x := (e_sequence t, e_counters t)). change (last ((e_sequence e, e_counters e) :: x :: ?l)) with (last (x :: l)).
      destruct (proj2 (last_is_Some (x :: map (fun t => (e_sequence t, e_counters t)) new)) ltac:(done)) as [y ->]. done.
    + constructor; [|done]. exists at_, len. split_and!; [lia|done..].
  - eexists. split; [done|]. intros q c ts rd' [= <- <- <- <-]. exists []. rewrite app_nil_r. by repeat constructor.
Qed.
End reading.

(** ** An opened log *)

(** A transaction whose counters are in bounds, whose families are apart,
    and whose blocks lie in the file, or hold valid records. *)
Definition cell_ok (t : Envelope) (b : Block) : Prop :=
  match b_records b with Some rs => Forall (valid (e_counters t) (e_sequence t) (b_family b)) rs | None => True end.
Record envelope_ok (t : Envelope) : Prop := {
  eo_u64 : u64_ok (e_sequence t);
  eo_u32 : counters_ok (e_counters t);
  eo_apart : NoDup (b_family <$> e_blocks t);
  eo_cells : Forall (cell_ok t) (e_blocks t)
}.
Record log_ok (self : Log) : Prop := {
  lo_bytes : forall file, lg_file self = Some file -> bytes_ok file;
  lo_transactions : Forall envelope_ok (transactions self)
}.

Section opening.
Context (checksum : bytes -> bytes).

(** Opening answers on any file, and an opened log runs from the
    checkpoint's sequence and counters to the manifest's. *)
Lemma log_open_spec file m base : (forall f, file = Some f -> bytes_ok f) ->
  exists r, log_open checksum file m base = Some r /\ forall log, r = Ok log ->
    log_ok log /\ lg_file log = file /\ chain (checkpoint_sequence m, base) (frames log) /\
    (transactions log <> [] -> last (frames log) = Some (g_sequence (generation m), counters m)) /\
    (transactions log = [] -> g_sequence (generation m) = checkpoint_sequence m /\ (file <> None -> counters m = base)).
Proof.
  intros Hbytes. unfold log_open. destruct file as [file|].
  - specialize (Hbytes file eq_refl). destruct ((log_end m <? HEADER)%N || (N.of_nat (length file) <? log_end m)%N) eqn:Hb; [by eexists|].
    apply orb_false_iff in Hb as [Hb1%N.ltb_ge Hb2%N.ltb_ge]. unfold HEADER in *. rewrite read_exact_in by lia. cbn [oe_bind].
    set (head := slice file _ _). assert (Hh : length head = 64) by (unfold head; rewrite length_slice; lia). in_range.
    match goal with |- exists _, (if ?c then _ else _) = _ /\ _ => destruct c end; [by eexists|].
    destruct (open_loop_spec checksum (S (length file)) file (log_end m) 64 (checkpoint_sequence m) base [] 64 Hbytes Hb2 ltac:(lia) ltac:(lia)) as (r & -> & Hr).
    destruct r as [[[[q c] ts] rd]|e]; cbn [oe_bind]; [|by eexists]. destruct (Hr q c ts rd eq_refl) as (new & -> & Hc & Hl & Hf). cbn [app].
    match goal with |- exists _, (if ?c then _ else _) = _ /\ _ => destruct c eqn:Hd end; [by eexists|].
    apply orb_false_iff in Hd as [Hd1%negb_false_iff%N.eqb_eq Hd2%bool_decide_eq_false%dec_stable]. subst q c.
    eexists. split; [done|]. intros log [= <-]. unfold frames. cbn [transactions lg_file]. split_and!; [|done|done| |].
    + split; cbn [lg_file transactions]; [by intros ? [= <-]|]. clear -Hc Hf. revert Hc. generalize (checkpoint_sequence m, base) as before.
      induction Hf as [|t new (a & len & _ & Hp & Hn) _ IH]; intros before Hc; [constructor|]. cbn [map chain] in Hc. destruct Hc as [[H1 [H2 _] H3 _ _] Hc].
      constructor; [|by eapply IH]. split; [done..|]. eapply Forall_impl; [exact Hp|]. intros b [_ _ Hcell]. unfold cell_ok. by rewrite Hcell.
    + intros Hne. destruct new as [|t new]; [done|]. destruct (proj2 (last_is_Some (map (fun t => (e_sequence t, e_counters t)) (t :: new))) ltac:(done)) as [y Hy].
      rewrite Hy in *. cbn in Hl. by rewrite Hl.
    + intros ->. cbn in Hl. by injection Hl.
  - destruct (negb (log_end m =? 0)%N || negb (g_sequence (generation m) =? checkpoint_sequence m)%N) eqn:Hb; [by eexists|].
    apply orb_false_iff in Hb as [_ Hb%negb_false_iff%N.eqb_eq]. eexists. split; [done|]. intros log [= <-]. cbn.
    split_and!; [by split|done..|]. intros _. split; [done|]. done.
Qed.

(** ** Loading *)

Definition loaded (family : Family) (self : Log) : Prop :=
  Forall (fun t => Forall (fun b => b_family b = family -> b_records b <> None) (e_blocks t)) (transactions self).

Definition same_block (b b' : Block) : Prop := b_family b' = b_family b /\ (b_records b <> None -> b_records b' = b_records b).

Lemma load_block_spec file t b family : (forall f, file = Some f -> bytes_ok f) -> u64_ok (e_sequence t) -> counters_ok (e_counters t) ->
  exists r, load_block checksum file t b family = Some r /\ forall rs, r = Ok rs -> Forall (valid (e_counters t) (e_sequence t) family) rs.
Proof.
  intros Hb Hq Hc. unfold load_block. destruct file as [file|]; [|by eexists]. destruct (read_exact_at file _ _) as [bs|] eqn:Er; cbn [oe_bind]; [|by eexists].
  apply read_exact_ok in Er as (_ & -> & _). match goal with |- exists _, (if ?c then _ else _) = _ /\ _ => destruct c end; [by eexists|].
  unfold decode. destruct (decode_loop_total _ _ Hc Hq family (S (length (slice file (N.to_nat (b_offset b)) (N.to_nat (b_offset b) + N.to_nat (b_length b)))))
    (slice file (N.to_nat (b_offset b)) (N.to_nat (b_offset b) + N.to_nat (b_length b))) (b_count b) []) as (res & -> & Hr); [by apply bytes_ok_slice, Hb|lia|].
  unfold lift_decode. cbn [mbind option_bind]. eexists. split; [done|]. intros rs Hrs. destruct res as [l|e]; [|done]. injection Hrs as ->.
  destruct (Hr rs eq_refl) as (l & -> & Hv & _). done.
Qed.

Lemma load_blocks_spec file checkpoint t family bs rd : (forall f, file = Some f -> bytes_ok f) -> u64_ok (e_sequence t) -> counters_ok (e_counters t) ->
  Forall (cell_ok t) bs -> exists bs' rd' r, load_blocks checksum file checkpoint t family bs rd = Some (bs', rd', r) /\
    Forall2 same_block bs bs' /\ Forall (cell_ok t) bs' /\ (r = Ok tt -> Forall (fun b => b_family b = family -> b_records b <> None) bs').
Proof.
  intros Hb Hq Hc. intros Hbs. revert rd. induction Hbs as [|b bs Hcell Hbs IH]; intros rd; cbn [load_blocks]; [by eexists [], rd, _|].
  assert (Hrefl : forall l, Forall2 same_block l l) by (intros l; by apply Forall2_same_length_lookup; split; [|intros i x y Hx Hy; rewrite Hx in Hy; injection Hy as <-]).
  destruct (bool_decide (b_family b = family) && bool_decide (b_records b = None)) eqn:E.
  - apply andb_true_iff in E as [E1%bool_decide_eq_true E2%bool_decide_eq_true].
    destruct (load_block_spec file t b family Hb Hq Hc) as (r & -> & Hr). cbn [mbind option_bind]. destruct r as [rs|e].
    + destruct (IH (rd + block_read file b)%N) as (bs' & rd' & r & -> & H1 & H2 & H3). cbn [mbind option_bind]. eexists _, rd', r. split; [done|]. split_and!.
      * constructor; [|done]. split; [done|]. cbn. intros Hn. by rewrite E2 in Hn.
      * constructor; [|done]. unfold cell_ok. cbn. rewrite E1. by apply Hr.
      * intros Hok. constructor; [done|]. by apply H3.
    + eexists _, _, _. split; [done|]. split_and!; [by apply Hrefl|by constructor|done].
  - destruct (IH rd) as (bs' & rd' & r & -> & H1 & H2 & H3). cbn [mbind option_bind]. eexists _, rd', r. split; [done|]. split_and!.
    + by constructor.
    + by constructor.
    + intros Hok. constructor; [|by apply H3]. intros Hf. apply andb_false_iff in E as [E%bool_decide_eq_false|E%bool_decide_eq_false]; [by rewrite Hf in E|done].
Qed.

Lemma load_transactions_spec file checkpoint family ts rd : (forall f, file = Some f -> bytes_ok f) -> Forall envelope_ok ts ->
  exists ts' rd' r, load_transactions checksum file checkpoint family ts rd = Some (ts', rd', r) /\
    Forall2 (fun t t' => e_sequence t' = e_sequence t /\ e_counters t' = e_counters t /\ Forall2 same_block (e_blocks t) (e_blocks t')) ts ts' /\
    Forall envelope_ok ts' /\ (r = Ok tt -> Forall (fun t => Forall (fun b => b_family b = family -> b_records b <> None) (e_blocks t)) ts').
Proof.
  intros Hb Hts. revert rd. induction Hts as [|t ts Ht Hts IH]; intros rd; cbn [load_transactions]; [by eexists [], rd, _|].
  pose proof Ht as [Hq Hc Ha Hcells]. destruct (load_blocks_spec file checkpoint t family (e_blocks t) rd Hb Hq Hc Hcells) as (bs & rd1 & r & -> & H1 & H2 & H3).
  cbn [mbind option_bind]. assert (Ht' : envelope_ok (mkEnvelope (e_sequence t) (e_counters t) bs)).
  { split; cbn; [done..| |done]. assert (Hfam : b_family <$> bs = b_family <$> e_blocks t); [|by rewrite Hfam].
    clear -H1. induction H1 as [|b b' l l' [Hf _] _ IH]; [done|]. rewrite !fmap_cons. by f_equal. }
  destruct r as [[]|e].
  - destruct (IH rd1) as (ts' & rd' & r & -> & K1 & K2 & K3). cbn [mbind option_bind]. eexists _, rd', r. split; [done|]. split_and!; [by constructor|by constructor|].
    intros Hr. constructor; [by apply H3|by apply K3].
  - eexists _, rd1, _. split; [done|]. split_and!; [|by constructor|done]. constructor; [done|].
    apply Forall2_same_length_lookup. split; [done|]. intros i x y Hx Hy. rewrite Hx in Hy. injection Hy as <-. split_and!; [done..|].
    apply Forall2_same_length_lookup. split; [done|]. intros j b b' Hbx Hby. rewrite Hbx in Hby. by injection Hby as <-.
Qed.

Lemma load_log_spec self family : log_ok self -> exists self' r, load_log checksum self family = Some (self', r) /\
  log_ok self' /\ frames self' = frames self /\ (forall f, loaded f self -> loaded f self') /\ (r = Ok tt -> loaded family self').
Proof.
  intros [Hb Hts]. unfold load_log. destruct (load_transactions_spec (lg_file self) (lg_checkpoint self) family (transactions self) (lg_read self) Hb Hts)
    as (ts & rd & r & -> & H1 & H2 & H3). cbn [mbind option_bind]. eexists _, r. split; [done|]. split_and!.
  - by split.
  - unfold frames. cbn [transactions]. clear -H1. induction H1 as [|t t' ts ts' (H1 & H2 & _) _ IH]; [done|]. cbn [map]. by rewrite H1, H2, IH.
  - intros f Hf. unfold loaded in *. cbn [transactions]. clear -H1 Hf. induction H1 as [|t t' ts ts' (_ & _ & Hbs) _ IH]; [constructor|].
    apply Forall_cons in Hf as [Hft Hf]. constructor; [|by apply IH]. clear -Hbs Hft. induction Hbs as [|b b' l l' [Hfam Hcell] _ IH]; [constructor|].
    apply Forall_cons in Hft as [Hfb Hft]. constructor; [|by apply IH]. intros Hf'. rewrite Hfam in Hf'. rewrite Hcell by (by apply Hfb). by apply Hfb.
  - done.
Qed.

Lemma load_each_spec self families : log_ok self -> exists self' r, load_each checksum self families = Some (self', r) /\
  log_ok self' /\ frames self' = frames self /\ (forall f, loaded f self -> loaded f self') /\ (r = Ok tt -> forall f, f ∈ families -> loaded f self').
Proof.
  revert self. induction families as [|f families IH]; intros self Hok; cbn [load_each].
  { eexists self, _. split; [done|]. split_and!; [done..|]. intros _ f Hf. by apply not_elem_of_nil in Hf. }
  destruct (load_log_spec self f Hok) as (self1 & r & -> & H1 & H2 & H3 & H4). cbn [mbind option_bind]. destruct r as [[]|e].
  - destruct (IH self1 H1) as (self' & r & -> & K1 & K2 & K3 & K4). exists self', r. split; [done|]. split_and!; [done|by rewrite K2|auto|].
    intros Hr g [->|Hg]%elem_of_cons; [by apply K3, H4|by apply K4].
  - eexists self1, _. split; [done|]. by split_and!.
Qed.

(** A loaded family's rows are valid records of their transactions. *)
Lemma log_records_spec self family : log_ok self -> loaded family self -> exists rows, log_records self family = Some rows /\
  Forall (fun row => exists c, (row.1, c) ∈ frames self /\ valid c row.1 family row.2) rows.
Proof.
  intros [_ Hts] Hl. unfold log_records, loaded, frames in *. induction Hts as [|t ts [_ _ _ Hcells] _ IH]; [by exists []|].
  apply Forall_cons in Hl as [Ht Hl]. destruct (IH Hl) as (rows & Hrows & Hv). cbn [mapM].
  assert (Htx : exists l, tx_log_rows family t = Some l /\ Forall (fun row => row.1 = e_sequence t /\ valid (e_counters t) row.1 family row.2) l).
  { clear -Hcells Ht. unfold tx_log_rows. induction (e_blocks t) as [|b bs IH]; [by exists []|]. apply Forall_cons in Hcells as [Hc Hcells], Ht as [Hb Ht].
    destruct (IH Hcells Ht) as (l & Hl & Hv). rewrite filter_cons. case_decide as Hf; [|by exists l]. cbn [mapM]. specialize (Hb Hf). unfold cell_ok in Hc.
    destruct (b_records b) as [rs|] eqn:Er; [|done]. replace (block_rows t b) with (Some (map (fun r => (e_sequence t, r)) rs)) by (unfold block_rows; by rewrite Er). cbn [mbind option_bind]. destruct (mapM (block_rows t) _) as [lr|]; [|done]. injection Hl as <-.
    eexists. split; [done|]. cbn [concat]. apply Forall_app. split; [|done]. apply Forall_forall. intros row (r & -> & Hr)%list_elem_of_fmap. cbn.
    split; [done|]. rewrite Forall_forall in Hc. subst family. by apply Hc. }
  destruct Htx as (l & -> & Hvl). cbn [mbind option_bind]. destruct (mapM (tx_log_rows family) ts) as [lr|]; [|done]. injection Hrows as <-.
  eexists. split; [done|]. cbn [concat map]. apply Forall_app. split.
  - eapply Forall_impl; [exact Hvl|]. intros row [Hq Hvr]. exists (e_counters t). split; [|done]. rewrite Hq. by left.
  - eapply Forall_impl; [exact Hv|]. intros row (c & Hin & Hvr). exists c. split; [by right|done].
Qed.
End opening.

(** ** What the writer wrote *)

Lemma slice_mid {A} (pre l suf : list A) a b : b <= length l -> slice (pre ++ l ++ suf) (length pre + a) (length pre + b) = slice l a b.
Proof.
  intros Hb. unfold slice. rewrite drop_app_add. replace (length pre + b - (length pre + a)) with (b - a) by lia.
  destruct (decide (a <= b)); [|by replace (b - a) with 0 by lia]. rewrite drop_app_le by lia. apply take_app_le. rewrite length_drop. lia.
Qed.

Lemma slice_whole {A} (l : list A) : slice l 0 (length l) = l.
Proof. unfold slice. rewrite drop_0, Nat.sub_0_r. by apply take_ge. Qed.

Lemma encode_size c q r b : checked c q r -> LogRecords.encode r = Ok b -> 16 <= length b /\ length b mod 8 = 0.
Proof.
  intros Hr (_ & fields & Hp & _ & ->)%encode_wire. rewrite length_wire. pose proof (payload_length c q r fields Hp Hr).
  pose proof (next_multiple_spec (8 + length (concat fields))). split; [lia|tauto].
Qed.

Lemma mod8_add a b : a mod 8 = 0 -> b mod 8 = 0 -> (a + b) mod 8 = 0.
Proof. intros Ha Hb. by rewrite Nat.Div0.add_mod, Ha, Hb. Qed.

Lemma encode_all_size c q rs b : Forall (checked c q) rs -> encode_all rs = Ok b -> 16 * length rs <= length b /\ length b mod 8 = 0.
Proof.
  intros Hrs. revert b. induction Hrs as [|r rs Hr _ IH]; intros b; [by intros [= <-]|]. intros (x & y & Hx & Hy & ->)%encode_all_cons.
  destruct (encode_size c q r x Hr Hx) as [H1 H2], (IH y Hy) as [H3 H4]. rewrite length_app. cbn [length]. split; [lia|by apply mod8_add].
Qed.

Lemma encode_block_spec rs acc n bs count : encode_block rs acc n = Ok (bs, count) ->
  exists b, encode_all rs = Ok b /\ bs = acc ++ b /\ count = (n + N.of_nat (length rs))%N /\ (rs <> [] -> (count < 2 ^ 32)%N).
Proof.
  revert acc n. induction rs as [|r rs IH]; intros acc n; cbn [encode_block].
  - intros [= <- <-]. exists []. rewrite app_nil_r. cbn. by rewrite N.add_0_r.
  - destruct (LogRecords.encode r) as [x|] eqn:Ex; cbn [result_bind]; [|done]. destruct (N.ltb_spec (n + 1) (2 ^ 32)) as [Hlt|]; [|done].
    intros (b & Hb & -> & -> & Hc)%IH. exists (x ++ b). split_and!; [apply encode_all_cons; by exists x, b|by rewrite app_assoc|cbn [length]; lia|].
    intros _. destruct rs as [|r' rs]; [cbn in *; lia|by apply Hc].
Qed.

Section written.
Context (checksum : bytes -> bytes) (Hsum : forall l, length (checksum l) = 16).

Definition rows_of (f : Family) (cs : ChangeSet) : list Record_ := filter (fun r => family r = f) (cs_records cs).

(** A block the writer made of a family. *)
Definition made (cs : ChangeSet) (x : Family * u32 * bytes) : Prop :=
  encode_all (rows_of x.1.1 cs) = Ok x.2 /\ x.1.2 = N.of_nat (length (rows_of x.1.1 cs)) /\ rows_of x.1.1 cs <> [] /\ (x.1.2 < 2 ^ 32)%N.

Lemma encode_blocks_spec cs q fs blocks : encode_blocks cs q fs = Some (Ok blocks) ->
  (fun x => x.1.1) <$> blocks = filter (fun f => rows_of f cs <> []) fs /\ Forall (made cs) blocks.
Proof.
  revert blocks. induction fs as [|f fs IH]; intros blocks; cbn [encode_blocks]; [by intros [= <-]|].
  destruct (encode_block (filter (fun r => family r = f) (cs_records cs)) [] 0) as [[bs count]|] eqn:Eb; [|done].
  apply encode_block_spec in Eb as (b & Hb & -> & -> & Hc). fold (rows_of f cs) in *. rewrite filter_cons. cbn [app].
  destruct (N.eqb_spec (0 + N.of_nat (length (rows_of f cs))) 0) as [E|E].
  - rewrite decide_False; [apply IH|]. intros Hn. apply Hn. by destruct (rows_of f cs).
  - assert (Hne : rows_of f cs <> []) by (intros He; rewrite He in E; by apply E). rewrite decide_True by done.
    destruct (decode _ _ _ _ _) as [[?|]|]; cbn [mbind option_bind]; [|done..].
    destruct (encode_blocks cs q fs) as [[rest|]|] eqn:Er; cbn [mbind option_bind]; [|done..]. intros [= <-].
    destruct (IH rest eq_refl) as [H1 H2]. rewrite fmap_cons, H1. split; [done|]. constructor; [|done]. split_and!; cbn; try done; [by apply Hc].
Qed.

(** The blocks as a reader places them. *)
Fixpoint placed_blocks (at_ : N) (blocks : list (Family * u32 * bytes)) (offset : nat) : list Block :=
  match blocks with
  | [] => []
  | (f, n, b) :: blocks => mkBlock f n (at_ + N.of_nat offset) (N.of_nat (length b)) (checksum b) None :: placed_blocks at_ blocks (offset + length b)
  end.

Lemma length_descriptor f n offset b : length (concat (descriptor checksum f n offset b)) = 48.
Proof. unfold descriptor, zeros. cbn [concat]. rewrite !length_app, Hsum, !length_le_bytes, !length_replicate. done. Qed.

Lemma lookup_family f : FAMILIES !! family_index f = Some f.
Proof. by destruct f. Qed.

Ltac fields_unfold ::= unfold descriptor, tx_fields, header_fields.

Lemma blocks_loop_written cs c q at_ len blocks offset seen done_ :
  Forall (made cs) blocks -> Forall (checked c q) (cs_records cs) -> length seen = 4 -> NoDup ((fun x => x.1.1) <$> blocks) ->
  (forall f, f ∈ (fun x => x.1.1) <$> blocks -> seen !! family_index f = Some false) ->
  offset + length (concat (map snd blocks)) + 32 <= N.to_nat len -> (len < 2 ^ 64)%N ->
  blocks_loop (descriptors_of checksum blocks offset) at_ len (N.of_nat offset) seen done_ =
  Some (Ok (N.of_nat (offset + length (concat (map snd blocks))), done_ ++ placed_blocks at_ blocks offset)).
Proof.
  intros Hm Hc. revert offset seen done_. induction Hm as [|[[f n] b] blocks (He & Hn & Hne & H32) Hm IH]; intros offset seen acc Hs Hd Hseen Hlen H64; cbn [descriptors_of blocks_loop placed_blocks map concat snd fst] in *.
  { cbn. by rewrite Nat.add_0_r, app_nil_r. }
  rewrite length_app in *. assert (Hrows : Forall (checked c q) (rows_of f cs)) by (apply Forall_forall; intros r [_ Hr]%list_elem_of_filter; rewrite Forall_forall in Hc; by apply Hc).
  destruct (encode_all_size c q _ b Hrows He) as [H16 H8]. assert (Hpos : 0 < length (rows_of f cs)) by (destruct (rows_of f cs); [done|cbn; lia]).
  set (d := descriptor checksum f n offset b).
  assert (Hk : family_index f < 4) by (destruct f; cbn; lia).
  assert (Hfam : sub_bytes (concat d) 0 2 = Some (le_bytes 2 (N.of_nat (family_index f)))) by (apply (sub_concat _ 0); [done|done|by rewrite length_le_bytes]).
  rewrite Hfam. cbn [mbind option_bind]. rewrite le_num_bytes by (change (256 ^ N.of_nat 2)%N with 65536%N; lia). rewrite Nat2N.id.
  assert (Ho64 : u64_ok (N.of_nat offset)) by (unfold u64_ok; lia). assert (Hb64 : u64_ok (N.of_nat (length b))) by (unfold u64_ok; lia).
  subst d. read 3. read 4. read 2. read 1. pose proof (Hsum b) as Hsb. read 6.
  rewrite (Hseen f) by (rewrite fmap_cons; by left). rewrite !bool_decide_false by (by intros Hx; apply Hx). cbn [default from_option id].
  assert (Hmod : (N.of_nat (length b) mod 8 = 0)%N) by (change 8%N with (N.of_nat 8); rewrite <- Nat2N.inj_mod, H8; done).
  assert (Hdiv : (n <= N.of_nat (length b) / 16)%N) by (apply N.div_le_lower_bound; lia).
  rewrite (proj2 (Nat.leb_gt 4 _)) by lia. rewrite N.eqb_refl, Hmod. change (0 =? 0)%N with true. cbn [orb negb].
  rewrite (proj2 (N.eqb_neq (N.of_nat (length b)) 0)), (proj2 (N.eqb_neq n 0)), (proj2 (N.ltb_ge _ _) Hdiv) by lia. cbn [orb].
  rewrite (proj2 (N.ltb_ge (len - 32 - N.of_nat offset) (N.of_nat (length b)))) by lia.
  read 5. rewrite lookup_family. cbn [mbind option_bind]. rewrite fmap_cons in Hd. apply NoDup_cons in Hd as [Hnf Hd].
  rewrite <- Nat2N.inj_add. rewrite IH; [| |done| |lia|done].
  - by rewrite <- app_assoc, Nat.add_assoc.
  - by rewrite length_insert.
  - intros g Hg. rewrite list_lookup_insert_ne; [apply Hseen; rewrite fmap_cons; by right|]. intros Hfg. apply Hnf.
    assert (f = g) as <- by (pose proof (lookup_family f) as E1; rewrite Hfg, lookup_family in E1; by injection E1). done.
Qed.

Lemma descriptors_concat head ds : length head = 64 -> Forall (fun d => length d = 48) ds -> descriptors (head ++ concat ds) = ds.
Proof.
  intros Hh Hds. unfold descriptors. pose proof (length_concat_same 48 ds Hds) as Hl.
  rewrite length_app, Hh, Hl. replace (64 + length ds * 48 - 64) with (length ds * 48) by lia. rewrite Nat.div_mul by done.
  apply list_eq. intros i. change (map ?f ?l) with (f <$> l). rewrite list_lookup_fmap. destruct (decide (i < length ds)) as [Hi|Hi].
  - rewrite lookup_seq_lt by done. destruct (lookup_lt_is_Some_2 ds i Hi) as [d Hd]. rewrite Hd. cbn [fmap option_fmap option_map]. f_equal. rewrite Nat.add_0_l, <- Hh.
    replace (length head + (i + 1) * 48) with (length head + (i * 48 + 48)) by lia.
    pose proof (slice_mid head (concat ds) [] (i * 48) (i * 48 + 48)) as Hs. rewrite app_nil_r in Hs. rewrite Hs by lia.
    rewrite Forall_lookup in Hds. apply (slice_concat ds i d); [done| |by rewrite (Hds i d Hd)].
    rewrite (length_concat_same 48); [rewrite length_take; lia|by apply Forall_take, Forall_lookup].
  - rewrite lookup_seq_ge by lia. symmetry. apply lookup_ge_None_2. lia.
Qed.

Lemma descriptors_of_lengths blocks offset : Forall (fun d => length d = 48) (descriptors_of checksum blocks offset).
Proof. revert offset. induction blocks as [|[[f n] b] blocks IH]; intros offset; constructor; [apply length_descriptor|apply IH]. Qed.

Lemma length_descriptors_of blocks offset : length (descriptors_of checksum blocks offset) = length blocks.
Proof. revert offset. induction blocks as [|[[f n] b] blocks IH]; intros offset; cbn; [done|]. by rewrite IH. Qed.

(** The parts of a transaction's bytes. *)
Definition tx_head (cs : ChangeSet) (q prev : u64) (blocks : list (Family * u32 * bytes)) : bytes :=
  concat (tx_fields (length blocks) (N.of_nat (64 + length blocks * 48 + length (concat (map snd blocks)) + 32)) q prev (cs_counters cs)).
Definition tx_framing (cs : ChangeSet) (q prev : u64) (blocks : list (Family * u32 * bytes)) : bytes :=
  tx_head cs q prev blocks ++ concat (descriptors_of checksum blocks (64 + length blocks * 48)).
Definition tx_footer (cs : ChangeSet) (q prev : u64) (blocks : list (Family * u32 * bytes)) : list bytes :=
  [le_bytes 8 q; le_bytes 8 (N.of_nat (64 + length blocks * 48 + length (concat (map snd blocks)) + 32)); checksum (tx_framing cs q prev blocks)].

Lemma encode_tx_spec cs q prev t : encode_tx checksum cs q prev = Some (Ok t) -> exists blocks,
  (fun x => x.1.1) <$> blocks = filter (fun f => rows_of f cs <> []) FAMILIES /\ Forall (made cs) blocks /\
  t = tx_framing cs q prev blocks ++ concat (map snd blocks) ++ concat (tx_footer cs q prev blocks).
Proof.
  unfold encode_tx. destruct (encode_blocks cs q FAMILIES) as [[blocks|]|] eqn:Eb; cbn [mbind option_bind]; [|done..].
  intros [= <-]. destruct (encode_blocks_spec cs q FAMILIES blocks Eb) as [H1 H2]. by exists blocks.
Qed.

Section one.
Context (cs : ChangeSet) (q prev : u64) (blocks : list (Family * u32 * bytes)) (before : Counters).
Context (Hfam : (fun x => x.1.1) <$> blocks = filter (fun f => rows_of f cs <> []) FAMILIES) (Hmade : Forall (made cs) blocks).
Context (Hne : cs_records cs <> []) (Hvalid : Forall (fun r => valid (cs_counters cs) q (family r) r) (cs_records cs)).
Context (Hf : follows (prev, before) (q, cs_counters cs)) (Hprev : u64_ok prev).
#[local] Abbreviation T := (tx_framing cs q prev blocks ++ concat (map snd blocks) ++ concat (tx_footer cs q prev blocks)).

Lemma length_tx_head : length (tx_head cs q prev blocks) = 64.
Proof. unfold tx_head, tx_fields, zeros. cbn [concat]. rewrite !length_app, !length_le_bytes, !length_replicate. done. Qed.
Lemma length_tx_framing : length (tx_framing cs q prev blocks) = 64 + length blocks * 48.
Proof.
  unfold tx_framing. rewrite length_app, length_tx_head. f_equal. rewrite (length_concat_same 48) by apply descriptors_of_lengths.
  by rewrite length_descriptors_of.
Qed.
Lemma length_tx_footer : length (concat (tx_footer cs q prev blocks)) = 32.
Proof. unfold tx_footer. cbn [concat]. rewrite !length_app, !length_le_bytes, Hsum. done. Qed.
Lemma length_tx : length T = 64 + length blocks * 48 + length (concat (map snd blocks)) + 32.
Proof. rewrite !length_app, length_tx_framing, length_tx_footer. lia. Qed.

Lemma blocks_count : 0 < length blocks <= 4.
Proof.
  rewrite <- (length_fmap (fun x => x.1.1) blocks), Hfam. split; [|apply (length_filter _ FAMILIES)].
  destruct (cs_records cs) as [|r rs] eqn:Er; [by destruct Hne|]. assert (Hin : family r ∈ filter (fun f => rows_of f cs <> []) FAMILIES).
  { apply list_elem_of_filter. split; [|by destruct (family r); repeat constructor]. intros Hx. assert (Hr : r ∈ rows_of (family r) cs).
    { unfold rows_of. apply list_elem_of_filter. split; [done|]. rewrite Er. by left. } rewrite Hx in Hr. by apply not_elem_of_nil in Hr. }
  destruct (filter _ FAMILIES); [by apply not_elem_of_nil in Hin|cbn; lia].
Qed.

Lemma blocks_multiple : length (concat (map snd blocks)) mod 8 = 0.
Proof.
  clear -Hmade Hvalid. induction Hmade as [|[[f n] b] bl (He & _) _ IH]; [done|]. cbn [map concat snd]. rewrite length_app. apply mod8_add; [|apply IH; by apply Forall_cons in Hmade as [_ ?]].
  apply (encode_all_size (cs_counters cs) q (rows_of f cs) b); [|exact He]. apply Forall_forall. intros r [_ Hr]%list_elem_of_filter. rewrite Forall_forall in Hvalid. by apply (v_checked _ _ _ _ (Hvalid r Hr)).
Qed.

(** Where a reader finds them in a file. *)
Lemma tx_parts pre suf (file := pre ++ T ++ suf) :
  slice file (length pre) (length pre + 64) = tx_head cs q prev blocks /\
  read_exact_at file (64 + N.to_nat (N.of_nat (length blocks)) * 48 - 64) (N.of_nat (length pre) + 64) =
    Ok (concat (descriptors_of checksum blocks (64 + length blocks * 48))) /\
  read_exact_at file 32 (N.of_nat (length pre) + N.of_nat (length T) - 32) = Ok (concat (tx_footer cs q prev blocks)).
Proof.
  pose proof length_tx as HT. assert (Hfile : length file = length pre + length T + length suf) by (unfold file; rewrite !length_app; lia).
  assert (Hslice : forall a b, b <= length T -> slice file (length pre + a) (length pre + b) = slice T a b) by (intros a b; apply slice_mid).
  split_and!.
  - rewrite <- (Nat.add_0_r (length pre)) at 1. rewrite Hslice by lia. unfold slice, tx_framing. rewrite drop_0, Nat.sub_0_r, <- app_assoc.
    rewrite take_app_le by (rewrite length_tx_head; lia). apply take_ge. by rewrite length_tx_head.
  - rewrite Nat2N.id. rewrite read_exact_in by lia. f_equal. replace (N.to_nat (N.of_nat (length pre) + 64)) with (length pre + 64) by lia.
    replace (length pre + 64 + (64 + length blocks * 48 - 64)) with (length pre + (64 + length blocks * 48)) by lia. rewrite Hslice by lia.
    set (ds := concat (descriptors_of checksum blocks (64 + length blocks * 48))).
    assert (Hds : length ds = length blocks * 48) by (pose proof length_tx_framing as Hl; unfold tx_framing in Hl; rewrite length_app, length_tx_head in Hl; fold ds in Hl; lia).
    pose proof (slice_mid (tx_head cs q prev blocks) ds (concat (map snd blocks) ++ concat (tx_footer cs q prev blocks)) 0 (length ds) ltac:(done)) as Hs.
    rewrite length_tx_head, Nat.add_0_r, slice_whole, Hds in Hs. unfold tx_framing. fold ds. by rewrite <- app_assoc.
  - rewrite read_exact_in by lia. f_equal. replace (N.to_nat (N.of_nat (length pre) + N.of_nat (length T) - 32)) with (length pre + (length T - 32)) by lia.
    rewrite <- Nat.add_assoc, Hslice by lia. set (k := length T - 32).
    assert (Hk : k = length (tx_framing cs q prev blocks ++ concat (map snd blocks))) by (unfold k; rewrite HT, length_app, length_tx_framing; lia).
    rewrite app_assoc. unfold slice. rewrite drop_app_length' by done. apply take_ge. rewrite length_tx_footer. lia.
Qed.

Lemma read_envelope_written pre suf room : (N.of_nat (length (pre ++ T ++ suf)) < 2 ^ 64)%N -> (N.of_nat (length T) <= room)%N ->
  read_envelope checksum (pre ++ T ++ suf) (N.of_nat (length pre)) room prev before =
  Some (Ok (mkEnvelope q (cs_counters cs) (placed_blocks (N.of_nat (length pre)) blocks (64 + length blocks * 48)), N.of_nat (length T), N.of_nat (64 + length blocks * 48) + 32))%N.
Proof.
  intros H64 Hroom. pose proof length_tx as HT. pose proof blocks_count as Hcount. pose proof blocks_multiple as Hmul.
  set (file := pre ++ T ++ suf) in *. assert (Hfile : length file = length pre + length T + length suf) by (unfold file; rewrite !length_app; lia).
  unfold read_envelope. rewrite (proj2 (N.ltb_ge room 96)) by lia. rewrite read_exact_in by lia. cbn [oe_bind]. rewrite Nat2N.id.
  destruct (tx_parts pre suf) as (Hhead & Hfr & Hft). fold file in Hhead, Hfr, Hft.
  rewrite Hhead. destruct Hf as [Hnext [Hq64 Hqn] H32 [Hl1 Hl2] Hgrow]. cbn [fst snd] in *. unfold counters_ok in H32. fields_in.
  set (len := N.of_nat (length T)) in *. assert (Hlen : N.of_nat (64 + length blocks * 48 + length (concat (map snd blocks)) + 32) = len) by (unfold len; by rewrite HT).
  assert (Hlen64 : u64_ok len) by (unfold u64_ok, len; lia). assert (Hc32 : u32_ok (N.of_nat (length blocks))) by (unfold u32_ok; lia).
  fold len in Hft.
  unfold tx_head. rewrite Hlen. read 0. read 1. read 9. rewrite !bool_decide_false by (by intros Hx; apply Hx).
  change ((VERSION =? 5)%N || (VERSION =? VERSION)%N) with true. cbn [orb negb]. read 2. read 3. read 4. read 5.
  assert (Hmod : (len mod 8 = 0)%N).
  { unfold len. change 8%N with (N.of_nat 8). rewrite <- Nat2N.inj_mod, HT. replace (64 + length blocks * 48 + length (concat (map snd blocks)) + 32)
      with (length (concat (map snd blocks)) + (12 + length blocks * 6) * 8) by lia. by rewrite Nat.Div0.mod_add, Hmul. }
  rewrite (proj2 (N.eqb_neq (N.of_nat (length blocks)) 0)), (proj2 (N.ltb_ge 4 (N.of_nat (length blocks)))) by lia.
  rewrite (proj2 (N.ltb_ge len (96 + 48 * N.of_nat (length blocks)))), Hmod, (proj2 (N.ltb_ge room len) Hroom) by lia.
  assert (Hnx : checked_add prev 1 = Some q) by (unfold checked_add; rewrite <- Hnext; unfold u64_ok in Hq64; by rewrite (proj2 (N.ltb_lt _ _) Hq64)).
  rewrite Hnx, bool_decide_false by (by intros Hx; apply Hx). rewrite (proj2 (N.eqb_neq q NONE64) Hqn), !N.eqb_refl. cbn [orb negb].
  read 6. read 7. read 8. rewrite (proj2 (N.ltb_ge (NONE - 16) _) Hl1), (proj2 (N.eqb_neq _ NONE) Hl2).
  replace (mkCounters (inodes (cs_counters cs)) (names (cs_counters cs)) (docs (cs_counters cs))) with (cs_counters cs) by (by destruct (cs_counters cs)).
  rewrite Hgrow. cbn [orb]. rewrite Hfr, Hft. cbn [oe_bind].
  assert (Hf0 : u64_at (concat (tx_footer cs q prev blocks)) 0 = Some q) by (apply (u64_concat _ 0); done).
  assert (Hf1 : u64_at (concat (tx_footer cs q prev blocks)) 8 = Some len) by (rewrite <- Hlen; apply (u64_concat _ 1); [done|done|by rewrite Hlen]).
  assert (Hf2 : sub_bytes (concat (tx_footer cs q prev blocks)) 16 32 = Some (checksum (tx_framing cs q prev blocks))) by (apply (sub_concat _ 2); [done|done|by rewrite Hsum]).
  rewrite Hf0, Hf1, Hf2. cbn [mbind option_bind]. rewrite !N.eqb_refl. cbn [negb orb].
  assert (Hframing : concat (tx_fields (length blocks) len q prev (cs_counters cs)) ++ concat (descriptors_of checksum blocks (64 + length blocks * 48)) = tx_framing cs q prev blocks).
  { unfold tx_framing, tx_head. by rewrite Hlen. }
  rewrite Hframing, bool_decide_false by (by intros Hx; apply Hx). unfold read_blocks. rewrite length_tx_framing.
  unfold tx_framing at 1. rewrite descriptors_concat by (first [apply length_tx_head|apply descriptors_of_lengths]).
  rewrite (blocks_loop_written cs (cs_counters cs) q _ len blocks); [|done| |done| | |lia|done].
  - cbn [oe_bind app]. rewrite (proj2 (N.eqb_eq _ _)) by lia. cbn [negb oe_bind]. by rewrite Nat2N.id.
  - eapply Forall_impl; [exact Hvalid|]. intros r Hr. apply Hr.
  - rewrite Hfam. apply NoDup_filter. by apply (bool_decide_unpack (NoDup FAMILIES)).
  - intros f _. by destruct f.
Qed.
End one.

(** ** The rows of what was written *)

(** A transaction that holds a change set: each of its blocks loads as the
    set's records of its family, and holds no others. *)
Definition holds_rows (file : bytes) (t : Envelope) (cs : ChangeSet) (b : Block) : Prop :=
  load_block checksum (Some file) t b (b_family b) = Some (Ok (rows_of (b_family b) cs)) /\
  (b_records b = None \/ b_records b = Some (rows_of (b_family b) cs)).
Record stores (file : bytes) (t : Envelope) (x : u64 * ChangeSet) : Prop := {
  sr_frame : (e_sequence t, e_counters t) = (x.1, cs_counters x.2);
  sr_families : b_family <$> e_blocks t = filter (fun f => rows_of f x.2 <> []) FAMILIES;
  sr_blocks : Forall (holds_rows file t x.2) (e_blocks t)
}.

Lemma placed_families at_ blocks offset : b_family <$> placed_blocks at_ blocks offset = (fun x => x.1.1) <$> blocks.
Proof. revert offset. induction blocks as [|[[f n] b] blocks IH]; intros offset; [done|]. cbn [placed_blocks]. by rewrite !fmap_cons, IH. Qed.

Lemma placed_load q cs t at_ blocks offset pre suf (file := pre ++ concat (map snd blocks) ++ suf) :
  e_sequence t = q -> e_counters t = cs_counters cs -> u64_ok q -> counters_ok (cs_counters cs) ->
  Forall (made cs) blocks -> Forall (fun r => valid (cs_counters cs) q (family r) r) (cs_records cs) ->
  (at_ + N.of_nat offset)%N = N.of_nat (length pre) ->
  Forall (holds_rows file t cs) (placed_blocks at_ blocks offset).
Proof.
  intros Hq Hc Hq64 Hc32 Hm Hv. subst file. revert pre offset. induction Hm as [|[[f n] b] blocks (He & Hn & Hne & H32) Hm IH]; intros pre offset Hat; [constructor|].
  cbn [placed_blocks map snd concat fst] in *. constructor.
  - split; [|by left]. cbn [b_family]. unfold load_block. cbn [b_length b_offset b_digest b_count]. rewrite Hat.
    rewrite read_exact_in by (rewrite !length_app; lia). cbn [oe_bind]. rewrite !Nat2N.id.
    assert (Hb : slice (pre ++ (b ++ concat (map snd blocks)) ++ suf) (length pre) (length pre + length b) = b).
    { rewrite <- (Nat.add_0_r (length pre)) at 1. rewrite <- app_assoc. pose proof (slice_mid pre b (concat (map snd blocks) ++ suf) 0 (length b) ltac:(done)) as Hs.
      by rewrite slice_whole in Hs. }
    rewrite Hb, bool_decide_false by (by intros Hx; apply Hx). unfold decode. rewrite Hq, Hc, (decode_loop_encoded (cs_counters cs) q Hc32 Hq64 f (rows_of f cs) b _ _ []); [done| |done|lia|done].
    apply Forall_forall. intros r [Hf Hr]%list_elem_of_filter. rewrite Forall_forall in Hv. rewrite <- Hf. by apply Hv.
  - rewrite <- app_assoc, (app_assoc pre). apply IH. rewrite length_app. lia.
Qed.

(** Transactions appended one after another. *)
Inductive appended : u64 * Counters -> list (u64 * ChangeSet) -> bytes -> Prop :=
| appended_nil before : appended before [] []
| appended_cons before q cs txs t rest :
    follows before (q, cs_counters cs) -> cs_records cs <> [] ->
    Forall (fun r => valid (cs_counters cs) q (family r) r) (cs_records cs) ->
    encode_tx checksum cs q before.1 = Some (Ok t) -> appended (q, cs_counters cs) txs rest ->
    appended before ((q, cs) :: txs) (t ++ rest).

Definition frame_of (x : u64 * ChangeSet) : u64 * Counters := (x.1, cs_counters x.2).

Lemma open_loop_written before txs b fuel pre suf (file := pre ++ b ++ suf) done_ rd :
  appended before txs b -> u64_ok before.1 -> (N.of_nat (length file) < 2 ^ 64)%N -> length b < fuel ->
  exists new rd', open_loop checksum fuel file (N.of_nat (length (pre ++ b))) (N.of_nat (length pre)) before.1 before.2 done_ rd =
    Some (Ok (default before (last (map frame_of txs)), done_ ++ new, rd')) /\ Forall2 (stores file) new txs.
Proof.
  intros Ha. subst file. revert fuel pre done_ rd. induction Ha as [before|before q cs txs t rest Hf Hne Hv He Ha IH]; intros fuel pre acc rd Hb H64 Hfuel.
  - destruct fuel as [|fuel]; [lia|]. cbn [open_loop]. rewrite app_nil_r, N.ltb_irrefl. eexists [], rd. rewrite app_nil_r. cbn. by destruct before.
  - destruct (encode_tx_spec cs q before.1 t He) as (blocks & Hfam & Hmade & ->).
    pose proof (fo_u64 _ _ Hf) as [Hq64 _]. pose proof (fo_u32 _ _ Hf) as Hc32. cbn [fst snd] in *.
    set (T := tx_framing cs q before.1 blocks ++ concat (map snd blocks) ++ concat (tx_footer cs q before.1 blocks)) in *.
    pose proof (length_tx cs q before.1 blocks) as HT. fold T in HT. rewrite length_app in Hfuel. destruct fuel as [|fuel]; [lia|]. cbn [open_loop].
    rewrite (proj2 (N.ltb_lt _ _)) by (rewrite !length_app; lia). rewrite <- app_assoc.
    replace (N.of_nat (length (pre ++ T ++ rest)) - N.of_nat (length pre))%N with (N.of_nat (length (T ++ rest))) by (rewrite !length_app; lia).
    assert (Hre := read_envelope_written cs q before.1 blocks before.2 Hfam Hmade Hne Hv). fold T in Hre.
    rewrite Hre; [|by destruct before|done|by rewrite <- app_assoc in H64|rewrite length_app; lia]. cbn [oe_bind e_sequence e_counters].
    replace (N.of_nat (length pre) + N.of_nat (length T))%N with (N.of_nat (length (pre ++ T))) by (rewrite length_app; lia).
    set (e := mkEnvelope q (cs_counters cs) _). replace (pre ++ T ++ rest ++ suf) with ((pre ++ T) ++ rest ++ suf) by (by rewrite <- app_assoc).
    destruct (IH fuel (pre ++ T) (acc ++ [e]) (rd + (N.of_nat (64 + length blocks * 48) + 32))%N) as (new & rd' & Hopen & Hst); [done| |lia|].
    { rewrite <- !app_assoc in *. done. }
    cbn [fst snd] in Hopen. rewrite (app_assoc pre T rest), Hopen. exists (e :: new), rd'. split.
    + cbn [map]. rewrite <- app_assoc. do 3 f_equal. destruct (map frame_of txs) as [|y l]; [done|].
      destruct (proj2 (last_is_Some (y :: l)) ltac:(done)) as [z Hz]. change (last (frame_of (q, cs) :: y :: l)) with (last (y :: l)). by rewrite Hz.
    + constructor; [|done]. subst e. split; cbn [e_sequence e_counters e_blocks fst snd]; [done|by rewrite placed_families|].
      replace ((pre ++ T) ++ rest ++ suf) with ((pre ++ tx_framing cs q before.1 blocks) ++ concat (map snd blocks) ++ (concat (tx_footer cs q before.1 blocks) ++ rest ++ suf))
        by (unfold T; by rewrite <- !app_assoc).
      apply (placed_load q); [done..|]. rewrite length_app, length_tx_framing. lia.
Qed.

(** Families that are loaded in a block. *)
Definition has_families (fs : list Family) (b : Block) : Prop := b_family b ∈ fs -> b_records b <> None.
Definition log_stores (file : bytes) (txs : list (u64 * ChangeSet)) (fs : list Family) (self : Log) : Prop :=
  lg_file self = Some file /\ Forall2 (stores file) (transactions self) txs /\
  Forall (fun t => Forall (has_families fs) (e_blocks t)) (transactions self).

Lemma load_blocks_stored file checkpoint t cs f fs bs rd : Forall (holds_rows file t cs) bs -> Forall (has_families fs) bs ->
  exists bs' rd', load_blocks checksum (Some file) checkpoint t f bs rd = Some (bs', rd', Ok tt) /\
    Forall (holds_rows file t cs) bs' /\ Forall (has_families (f :: fs)) bs' /\ b_family <$> bs' = b_family <$> bs.
Proof.
  intros Hbs. revert rd. induction Hbs as [|b bs [Hb Hc] Hbs IH]; intros rd Hfs; cbn [load_blocks]; [by eexists [], rd|].
  apply Forall_cons in Hfs as [Hfb Hfs]. destruct (bool_decide (b_family b = f) && bool_decide (b_records b = None)) eqn:E.
  - apply andb_true_iff in E as [<-%bool_decide_eq_true _]. rewrite Hb. cbn [mbind option_bind].
    destruct (IH (rd + block_read (Some file) b)%N Hfs) as (bs' & rd' & -> & H1 & H2 & H3). cbn [mbind option_bind]. eexists _, rd'. split; [done|].
    split_and!; [constructor; [|done]; by split; [|right]|by constructor|]. rewrite !fmap_cons. by rewrite H3.
  - destruct (IH rd Hfs) as (bs' & rd' & -> & H1 & H2 & H3). cbn [mbind option_bind]. eexists _, rd'. split; [done|].
    split_and!; [by constructor| |rewrite !fmap_cons; by rewrite H3]. constructor; [|done].
    intros [Hf|Hf]%elem_of_cons; [|by apply Hfb]. apply andb_false_iff in E as [E%bool_decide_eq_false|E%bool_decide_eq_false]; [by rewrite Hf in E|done].
Qed.

Lemma load_stored file txs fs f self : log_stores file txs fs self ->
  exists self', load_log checksum self f = Some (self', Ok tt) /\ log_stores file txs (f :: fs) self' /\ frames self' = frames self.
Proof.
  intros (Hfile & Hts & Hfs). unfold load_log. rewrite Hfile.
  assert (H : exists ts rd, load_transactions checksum (Some file) (lg_checkpoint self) f (transactions self) (lg_read self) = Some (ts, rd, Ok tt) /\
    Forall2 (stores file) ts txs /\ Forall (fun t => Forall (has_families (f :: fs)) (e_blocks t)) ts /\
    map (fun t => (e_sequence t, e_counters t)) ts = map (fun t => (e_sequence t, e_counters t)) (transactions self)).
  { generalize (lg_read self) as rd. clear Hfile. induction Hts as [|t [q cs] ts txs [Hfr Hfa Hbl] Hts IH]; intros rd; cbn [load_transactions]; [by eexists [], rd|].
    apply Forall_cons in Hfs as [Hft Hfs]. destruct (load_blocks_stored file (lg_checkpoint self) t cs f fs (e_blocks t) rd Hbl Hft) as (bs & rd1 & -> & H1 & H2 & H3).
    cbn [mbind option_bind]. destruct (IH Hfs rd1) as (ts' & rd' & -> & K1 & K2 & K3). cbn [mbind option_bind]. eexists _, rd'. split; [done|]. split_and!.
    - constructor; [|done]. split; cbn [e_sequence e_counters e_blocks]; [done|by rewrite H3|exact H1].
    - by constructor.
    - cbn [map]. by rewrite K3. }
  destruct H as (ts & rd & -> & H1 & H2 & H3). cbn [mbind option_bind]. eexists. split; [done|]. split; [|exact H3]. by split.
Qed.

Lemma load_each_stored file txs fs0 fs self : log_stores file txs fs0 self ->
  exists self', load_each checksum self fs = Some (self', Ok tt) /\ log_stores file txs (fs ++ fs0) self' /\ frames self' = frames self.
Proof.
  revert fs0 self. induction fs as [|f fs IH]; intros fs0 self Hs; cbn [load_each]; [by eexists|].
  destruct (load_stored file txs fs0 f self Hs) as (self1 & -> & Hs1 & Hfr). cbn [mbind option_bind].
  destruct (IH (f :: fs0) self1 Hs1) as (self' & -> & Hs' & Hfr'). exists self'. split; [done|]. split; [|by rewrite Hfr'].
  destruct Hs' as (H1 & H2 & H3). split_and!; [done..|]. eapply Forall_impl; [exact H3|]. intros t Ht. eapply Forall_impl; [exact Ht|].
  intros b Hb Hin. apply Hb. set_solver.
Qed.

(** The rows of a family the transactions wrote, in commit order. *)
Definition rows_written (f : Family) (txs : list (u64 * ChangeSet)) : list (u64 * Record_) :=
  concat (map (fun x => map (fun r => (x.1, r)) (rows_of f x.2)) txs).

Lemma stored_rows file f fs t x : stores file t x -> Forall (has_families fs) (e_blocks t) -> f ∈ fs ->
  tx_log_rows f t = Some (map (fun r => (x.1, r)) (rows_of f x.2)).
Proof.
  intros [[= Hq _] Hfa Hbl] Hfs Hin. unfold tx_log_rows. destruct x as [q cs]. cbn [fst snd] in *.
  assert (Hap : NoDup (b_family <$> e_blocks t)) by (rewrite Hfa; apply NoDup_filter; by apply (bool_decide_unpack (NoDup FAMILIES))).
  assert (Hmem : rows_of f cs <> [] -> f ∈ b_family <$> e_blocks t).
  { intros Hne. rewrite Hfa. apply list_elem_of_filter. split; [done|]. by destruct f; repeat constructor. }
  clear Hfa. induction (e_blocks t) as [|b bs IH].
  - destruct (rows_of f cs); [done|]. by destruct (not_elem_of_nil f (Hmem ltac:(done))).
  - apply Forall_cons in Hbl as [[_ Hb] Hbl], Hfs as [Hf Hfs]. rewrite fmap_cons in Hap, Hmem. apply NoDup_cons in Hap as [Hni Hap]. rewrite filter_cons. case_decide as Hbf.
    + assert (Hr : block_rows t b = Some (map (fun r => (q, r)) (rows_of f cs))).
      { unfold block_rows. rewrite Hbf in *. destruct Hb as [Hb|Hb]; [by destruct (Hf ltac:(by rewrite Hbf))|]. rewrite Hb. cbn [mbind option_bind]. by rewrite Hq. }
      replace (filter (fun b => b_family b = f) bs) with (@nil Block); [cbn [mapM]; rewrite Hr; cbn [mbind option_bind mret option_ret concat]; by rewrite app_nil_r|].
      symmetry. apply elem_of_nil_inv. intros c Hc%list_elem_of_filter. destruct Hc as [Hcf Hc]. apply Hni. rewrite Hbf, <- Hcf. by apply list_elem_of_fmap_2.
    + apply IH; [done..|]. intros Hne. apply Hmem, elem_of_cons in Hne as [->|Hne]; done.
Qed.

Lemma log_records_stored file txs fs f self : log_stores file txs fs self -> f ∈ fs -> log_records self f = Some (rows_written f txs).
Proof.
  intros (_ & Hts & Hfs) Hin. unfold log_records, rows_written. induction Hts as [|t x ts txs Ht Hts IH]; [done|].
  apply Forall_cons in Hfs as [Hft Hfs]. cbn [mapM map concat]. rewrite (stored_rows file f fs t x Ht Hft Hin). cbn [mbind option_bind].
  specialize (IH Hfs). destruct (mapM (tx_log_rows f) ts); cbn [mbind option_bind mret option_ret] in *; [|done]. injection IH as <-. done.
Qed.

Lemma header_read v g : length (g_incarnation g) = 16 -> v = 5%N \/ v = VERSION ->
  length (sealed checksum (concat (header_fields v g))) = 64 /\ u32_at (sealed checksum (concat (header_fields v g))) 8 = Some v.
Proof.
  intros Hi Hv. split.
  - unfold sealed, header_fields, zeros. cbn [concat]. rewrite !length_app, !length_le_bytes, length_replicate, Hsum, Hi. done.
  - rewrite sealed_fields. apply (u32_concat _ 1); [done|done|]. by destruct Hv as [->| ->].
Qed.

Lemma log_open_written m base txs b torn v (file := sealed checksum (concat (header_fields v (mkGeneration (g_incarnation (generation m)) (g_checkpoint (generation m)) (checkpoint_sequence m)))) ++ b ++ torn) :
  appended (checkpoint_sequence m, base) txs b -> length (g_incarnation (generation m)) = 16 -> v = 5%N \/ v = VERSION ->
  log_end m = (64 + N.of_nat (length b))%N -> u64_ok (checkpoint_sequence m) -> (N.of_nat (length file) < 2 ^ 64)%N ->
  (g_sequence (generation m), counters m) = default (checkpoint_sequence m, base) (last (map frame_of txs)) ->
  exists log, log_open checksum (Some file) m base = Some (Ok log) /\ log_stores file txs [] log /\ frames log = map frame_of txs.
Proof.
  intros Ha Hi Hv Hend Hq H64 Hlast. unfold log_open. set (g := mkGeneration _ _ _) in *. set (h := sealed checksum _) in *.
  destruct (header_read v g Hi Hv) as [Hh Hhv]. fold h in Hh, Hhv. assert (Hfl : length file = 64 + length b + length torn) by (unfold file; rewrite !length_app; lia).
  rewrite Hend. unfold HEADER. rewrite (proj2 (N.ltb_ge _ 64)), (proj2 (N.ltb_ge (N.of_nat (length file)) _)) by lia. cbn [orb].
  rewrite read_exact_in by lia. cbn [oe_bind].
  assert (Hhead : slice file (N.to_nat 0) (N.to_nat 0 + 64) = h) by (unfold slice, file; cbn [N.to_nat Nat.add]; rewrite drop_0, take_app_le by lia; apply take_ge; lia).
  rewrite Hhead, Hhv. cbn [mbind option_bind].
  assert (Hexp : (if (v =? 5)%N then sealed checksum (concat (header_fields 5 g)) else header checksum g) = h) by (by destruct Hv as [->| ->]).
  rewrite Hexp, bool_decide_false by (by intros Hx; apply Hx).
  destruct (open_loop_written (checkpoint_sequence m, base) txs b (S (length file)) h torn [] 64 Ha Hq H64 ltac:(lia)) as (new & rd & Hopen & Hst).
  cbn [fst snd] in Hopen. fold file in Hopen, Hst. rewrite length_app, Hh, <- Hlast in Hopen. replace (N.of_nat (64 + length b)) with (64 + N.of_nat (length b))%N in Hopen by lia.
  change (N.of_nat 64) with 64%N in Hopen. rewrite Hopen. cbn [oe_bind]. rewrite N.eqb_refl, bool_decide_false by (by intros Hx; apply Hx). cbn [negb orb app].
  eexists. split; [done|]. split; [split_and!; cbn [lg_file transactions]; [done|done|]|].
  - apply Forall_forall. intros t _. apply Forall_forall. intros x _ Hx. by apply not_elem_of_nil in Hx.
  - unfold frames. cbn [transactions]. clear -Hst. induction Hst as [|t x ts txs [H1 _ _] _ IH]; [done|]. cbn [map]. by rewrite IH, H1.
Qed.
End written.

(** ** The size a transaction will have *)

Section size.
Context (checksum : bytes -> bytes) (Hsum : forall l, length (checksum l) = 16).

(** The bytes of one record, and of many. *)
Definition row_size (r : Record_) : nat := match LogRecords.encode r with Ok b => length b | Err _ => 0 end.
Definition sum_of {A} (size : A -> nat) : list A -> nat := foldr (fun x n => size x + n) 0.
Definition rows_size (rs : list Record_) : nat := sum_of row_size rs.

Lemma sum_cons {A} (size : A -> nat) x l : sum_of size (x :: l) = size x + sum_of size l.
Proof. done. Qed.

Lemma encode_all_length rs b : encode_all rs = Ok b -> length b = rows_size rs /\ forall r, r ∈ rs -> exists x, LogRecords.encode r = Ok x.
Proof.
  revert b. induction rs as [|r rs IH]; intros b; [intros [= <-]; split; [done|by intros r Hr%not_elem_of_nil]|].
  intros (x & y & Hx & Hy & ->)%encode_all_cons. destruct (IH y Hy) as [H1 H2]. rewrite length_app. unfold rows_size in *. rewrite sum_cons.
  split; [unfold row_size at 1; rewrite Hx; lia|]. intros z [->|Hz]%elem_of_cons; [by exists x|by apply H2].
Qed.

Lemma rows_size_families cs : sum_of (fun f => rows_size (rows_of f cs)) FAMILIES = rows_size (cs_records cs).
Proof.
  unfold rows_of. unfold FAMILIES, rows_size. rewrite !sum_cons. cbn [sum_of foldr]. induction (cs_records cs) as [|r rs IH]; [done|]. rewrite !filter_cons, sum_cons, <- IH.
  destruct (family r); repeat case_decide; try done; rewrite sum_cons; lia.
Qed.

Lemma made_size cs fs blocks : (fun x => x.1.1) <$> blocks = filter (fun f => rows_of f cs <> []) fs -> Forall (made cs) blocks ->
  length (concat (map snd blocks)) = sum_of (fun f => rows_size (rows_of f cs)) fs.
Proof.
  revert blocks. induction fs as [|f fs IH]; intros blocks Hf Hm; [by destruct blocks|]. rewrite filter_cons in Hf. rewrite sum_cons.
  case_decide as Hne.
  - destruct blocks as [|[[g n] b] blocks]; [done|]. rewrite fmap_cons in Hf. injection Hf as -> Hf. apply Forall_cons in Hm as [(He & _) Hm].
    cbn [map concat snd fst] in *. rewrite length_app, (IH blocks Hf Hm). by rewrite (proj1 (encode_all_length _ b He)).
  - rewrite (IH blocks Hf Hm). by rewrite Hne.
Qed.

(** The counts of [checked_size], by family. *)
Definition count_more (c : Family -> N) (rs : list Record_) (f : Family) : N := (c f + N.of_nat (length (filter (fun r => family r = f) rs)))%N.

Lemma count_insert (c : Family -> N) f n :
  <[family_index f := n]> (map c FAMILIES) = map (fun g => if decide (g = f) then n else c g) FAMILIES.
Proof. by destruct f. Qed.

Lemma checked_loop_spec cs q rs c (len : N) : counters_ok (cs_counters cs) -> u64_ok q ->
  Forall (fun r => valid (cs_counters cs) q (family r) r) rs -> (forall r, r ∈ rs -> exists x, LogRecords.encode r = Ok x) ->
  (forall f, count_more c rs f < 2 ^ 32)%N -> (len + N.of_nat (rows_size rs) < 2 ^ 64)%N ->
  checked_loop rs (cs_counters cs) q (map c FAMILIES) len = Some (Ok (map (count_more c rs) FAMILIES, (len + N.of_nat (rows_size rs))%N)).
Proof.
  intros Hc Hq Hv. revert c len. induction Hv as [|r rs Hr Hv IH]; intros c len He Hn Hl; cbn [checked_loop].
  { unfold count_more. cbn. by rewrite !N.add_0_r. }
  destruct (He r ltac:(by left)) as [x Hx]. rewrite Hx. unfold decode.
  rewrite (decode_loop_encoded (cs_counters cs) q Hc Hq (family r) [r] x _ _ []); [|by constructor|by apply encode_all_cons; exists x, []; rewrite app_nil_r|lia|done].
  cbn [mbind option_bind]. change (map c FAMILIES) with (c <$> FAMILIES). rewrite list_lookup_fmap, lookup_family. cbn [fmap option_fmap option_map mbind option_bind].
  assert (Hsz : rows_size (r :: rs) = length x + rows_size rs) by (unfold rows_size; rewrite sum_cons; unfold row_size at 1; by rewrite Hx).
  pose proof (Hn (family r)) as Hnr. unfold count_more in Hnr. rewrite filter_cons, decide_True in Hnr by done. cbn [length] in Hnr.
  rewrite (proj2 (N.ltb_lt _ _)) by lia. unfold checked_add. rewrite (proj2 (N.ltb_lt _ _)) by lia.
  change (c <$> FAMILIES) with (map c FAMILIES). rewrite count_insert, IH.
  - rewrite Hsz. do 3 f_equal; [|lia]. apply map_ext. intros g. unfold count_more. rewrite filter_cons. case_decide as Hg.
    + subst g. rewrite decide_True by done. cbn [length]. lia.
    + by rewrite decide_False by done.
  - intros y Hy. apply He. by right.
  - intros f. specialize (Hn f). unfold count_more in *. rewrite filter_cons in Hn. repeat case_decide; cbn [length] in *; subst; try done; lia.
  - lia.
Qed.

Lemma length_filter_map {A B} (P : B -> Prop) `{!forall x, Decision (P x)} (f : A -> B) l : length (filter P (map f l)) = length (filter (fun x => P (f x)) l).
Proof. induction l as [|x l IH]; [done|]. cbn [map]. rewrite !filter_cons. case_decide; cbn [length]; by rewrite IH. Qed.

(** The size computed without serialising is the size of what is
    serialised. *)
Lemma checked_size_exact cs q prev t : counters_ok (cs_counters cs) -> u64_ok q ->
  Forall (fun r => valid (cs_counters cs) q (family r) r) (cs_records cs) -> (N.of_nat (length t) < 2 ^ 64)%N ->
  encode_tx checksum cs q prev = Some (Ok t) -> checked_size cs q = Some (Ok (N.of_nat (length t))).
Proof.
  intros Hc Hq Hv H64 He. destruct (encode_tx_spec checksum cs q prev t He) as (blocks & Hfam & Hmade & Ht). pose proof (length_tx checksum Hsum cs q prev blocks) as Hl.
  rewrite <- Ht in Hl. pose proof (made_size cs FAMILIES blocks Hfam Hmade) as Hsz. rewrite rows_size_families in Hsz. unfold checked_size.
  assert (Hb : forall f, rows_of f cs <> [] -> exists x, x ∈ blocks /\ x.1.1 = f).
  { intros f Hf. assert (Hin : f ∈ (fun x => x.1.1) <$> blocks) by (rewrite Hfam; apply list_elem_of_filter; split; [done|by destruct f; repeat constructor]).
    apply list_elem_of_fmap in Hin as (x & -> & Hx). by exists x. }
  rewrite Forall_forall in Hmade. replace (replicate 4 0%N) with (map (fun _ => 0%N) FAMILIES) by done.
  rewrite (checked_loop_spec cs q); [|done|done|done| | |lia].
  - cbn [mbind option_bind]. do 2 f_equal. rewrite length_filter_map.
    replace (filter _ FAMILIES) with (filter (fun f => rows_of f cs <> []) FAMILIES); [rewrite <- Hfam, length_fmap; lia|].
    apply list_filter_iff. intros f. unfold count_more. fold (rows_of f cs). cbn. destruct (rows_of f cs); cbn; split; intros Hn; try done; lia.
  - intros r Hr. destruct (Hb (family r)) as (x & Hx & Hxf).
    + intros Hn. assert (Hrr : r ∈ rows_of (family r) cs) by (by apply list_elem_of_filter). rewrite Hn in Hrr. by apply not_elem_of_nil in Hrr.
    + destruct (Hmade x Hx) as (Hex & _). apply (proj2 (encode_all_length _ _ Hex)). rewrite Hxf. by apply list_elem_of_filter.
  - intros f. unfold count_more. fold (rows_of f cs). destruct (decide (rows_of f cs = [])) as [->|Hf]; [done|].
    destruct (Hb f Hf) as (x & Hx & <-). destruct (Hmade x Hx) as (_ & Hn & _ & H32). cbn. lia.
Qed.
End size.

(** ** Properties *)

(** The file a writer leaves: the header of its checkpoint, in this format or
    the one before, the transactions, and whatever an append left behind that
    was never published. *)
Definition log_file (checksum : bytes -> bytes) (version : u32) (m : Manifest) (b torn : bytes) : bytes :=
  sealed checksum (concat (header_fields version (mkGeneration (g_incarnation (generation m)) (g_checkpoint (generation m)) (checkpoint_sequence m)))) ++ b ++ torn.

(** C38: What was committed is what is read.  A log that holds the header of
    the manifest's checkpoint and the transactions a writer encoded, one
    after another, opens up to the manifest's end, whatever bytes follow it;
    its frames are the sequences and counters of the commits; and once a
    family is loaded, alone or with others, in any order, its records are
    those of the commits, in commit order, with their sequences. *)
Theorem log_round_trip (checksum : bytes -> bytes) (version : u32) (m : Manifest) (base : Counters) (txs : list (u64 * ChangeSet)) (b torn : bytes)
    (Hsum : forall l, length (checksum l) = 16)
    (Hversion : version = 5%N \/ version = VERSION)
    (Hincarnation : length (g_incarnation (generation m)) = 16) (Hsequence : u64_ok (checkpoint_sequence m))
    (Hsize : (N.of_nat (length (log_file checksum version m b torn)) < 2 ^ 64)%N)
    (Htxs : appended checksum (checkpoint_sequence m, base) txs b)
    (Hend : log_end m = (64 + N.of_nat (length b))%N)
    (Hlast : (g_sequence (generation m), counters m) = default (checkpoint_sequence m, base) (last (map frame_of txs))) :
  exists log, log_open checksum (Some (log_file checksum version m b torn)) m base = Some (Ok log) /\
    frames log = map frame_of txs /\
    forall families family, family ∈ families ->
      exists log', load_each checksum log families = Some (log', Ok tt) /\ log_records log' family = Some (rows_written family txs).
Proof.
  destruct (log_open_written checksum Hsum m base txs b torn version Htxs Hincarnation Hversion Hend Hsequence Hsize Hlast) as (log & Ho & Hs & Hf).
  exists log. split; [exact Ho|]. split; [exact Hf|]. intros families family Hin.
  destruct (load_each_stored checksum Hsum _ txs [] families log Hs) as (log' & Hl & Hs' & _). exists log'. split; [exact Hl|].
  apply (log_records_stored checksum _ txs _ family log' Hs'). rewrite app_nil_r. exact Hin.
Qed.

(** C39: Reading a log is safe on any file.  Whatever its bytes, the manifest
    and the base's counters, opening it answers; an opened log's frames follow
    one another from the checkpoint, with sequences one apart and counters
    that never go down, to the manifest's sequence; loading any families, in
    any order, answers and changes no frame; and once they are loaded without
    an error, reading them does not panic and gives only valid records of the
    transaction they stand in. *)
Theorem log_read_safe (checksum : bytes -> bytes) (file : bytes) (m : Manifest) (base : Counters) (Hfile : bytes_ok file) :
  exists opened, log_open checksum (Some file) m base = Some opened /\ forall log, opened = Ok log ->
    chain (checkpoint_sequence m, base) (frames log) /\
    (g_sequence (generation m), counters m) = default (checkpoint_sequence m, base) (last (frames log)) /\
    forall families, exists log' r, load_each checksum log families = Some (log', r) /\ frames log' = frames log /\
      (r = Ok tt -> forall family, family ∈ families -> exists rows, log_records log' family = Some rows /\
         Forall (fun row => exists c, (row.1, c) ∈ frames log' /\ valid c row.1 family row.2) rows).
Proof.
  destruct (log_open_spec checksum (Some file) m base ltac:(by intros ? [= <-])) as (opened & Ho & Hspec). exists opened. split; [exact Ho|].
  intros log Hlog. destruct (Hspec log Hlog) as (Hok & _ & Hchain & Hlast & Hnone). split; [exact Hchain|]. split.
  - destruct (decide (transactions log = [])) as [Hn|Hn]; [|by rewrite (Hlast Hn)]. destruct (Hnone Hn) as [-> Hc]. unfold frames. rewrite Hn, Hc by done. done.
  - intros families. destruct (load_each_spec checksum log families Hok) as (log' & r & Hl & Hok' & Hf & _ & Hloaded). exists log', r. split; [exact Hl|].
    split; [exact Hf|]. intros Hr family Hin. by apply log_records_spec; [|apply Hloaded].
Qed.

(** Two commits: namespace records, then a document beside a deleted name;
    a torn append follows them. *)
Definition sample_sum (l : bytes) : bytes := le_bytes 16 (foldl (fun h b => (h * 31 + b + 1) mod 2 ^ 64)%N 7%N l).
Definition sample_txs : list (u64 * ChangeSet) :=
  [(12, mkChangeSet sample_records sample_counters (mkCounts 3 2 2 0));
   (13, mkChangeSet [DocPut 4 1 (le_bytes 16 99); NameDelete 7] (mkCounters 20 30 6) (mkCounts 3 1 2 1))]%N.
Definition encoded (q prev : u64) (cs : ChangeSet) : bytes :=
  match encode_tx sample_sum cs q prev with Some (Ok b) => b | _ => [] end.
Definition sample_log : bytes := concat (map (fun x => encoded x.1 (x.1 - 1) x.2) sample_txs).
Definition sample_manifest : Manifest :=
  mkManifest (mkGeneration (le_bytes 16 1) 3 13) (64 + N.of_nat (length sample_log)) 11 1 (mkCounters 20 30 6) (mkCounts 3 1 2 1).

Lemma sample_appended : appended sample_sum (11%N, mkCounters 18 28 5) sample_txs sample_log.
Proof.
  change sample_log with (encoded 12 11 (mkChangeSet sample_records sample_counters (mkCounts 3 2 2 0)) ++
    encoded 13 12 (mkChangeSet [DocPut 4 1 (le_bytes 16 99); NameDelete 7] (mkCounters 20 30 6) (mkCounts 3 1 2 1)) ++ []).
  constructor; [|done| |vm_compute; reflexivity|constructor; [|done| |vm_compute; reflexivity|constructor]].
  - split; [done..|repeat constructor|done|done].
  - eapply Forall_impl; [exact sample_valid|]. intros r Hr. by rewrite (v_family _ _ _ _ Hr).
  - split; [done..|repeat constructor|done|done].
  - repeat constructor; try done; try (by intros ? ? [= <-] [= <-]); try (by apply le_bytes_ok); by intros ? [= <-].
Qed.

Lemma log_round_trip_witness :
  exists log, log_open sample_sum (Some (log_file sample_sum VERSION sample_manifest sample_log [1; 2; 3]%N)) sample_manifest (mkCounters 18 28 5) = Some (Ok log) /\
    frames log = map frame_of sample_txs /\
    forall families family, family ∈ families ->
      exists log', load_each sample_sum log families = Some (log', Ok tt) /\ log_records log' family = Some (rows_written family sample_txs).
Proof.
  exact (log_round_trip sample_sum VERSION sample_manifest (mkCounters 18 28 5) sample_txs sample_log [1; 2; 3]%N
    (fun l => length_le_bytes 16 _) (or_intror eq_refl) eq_refl ltac:(by apply (bool_decide_unpack _)) ltac:(vm_compute; reflexivity) sample_appended eq_refl ltac:(vm_compute; reflexivity)).
Defined.

Lemma log_read_safe_witness :
  exists opened, log_open sample_sum (Some (replicate 80 7%N)) sample_manifest (mkCounters 18 28 5) = Some opened /\ forall log, opened = Ok log ->
    chain (11%N, mkCounters 18 28 5) (frames log) /\
    (13%N, mkCounters 20 30 6) = default (11%N, mkCounters 18 28 5) (last (frames log)) /\
    forall families, exists log' r, load_each sample_sum log families = Some (log', r) /\ frames log' = frames log /\
      (r = Ok tt -> forall family, family ∈ families -> exists rows, log_records log' family = Some rows /\
         Forall (fun row => exists c, (row.1, c) ∈ frames log' /\ valid c row.1 family row.2) rows).
Proof.
  exact (log_read_safe sample_sum (replicate 80 7%N) sample_manifest (mkCounters 18 28 5) ltac:(apply (bool_decide_unpack _); vm_compute; exact I)).
Defined.
