(* ===== verification/Projection.v ===== *)
(** * Projection: the rows a family replaces

    Models the constants and [Projection] of
    [crates/ferret-catalog/src/overlay.rs]: a record's key, the runs a family
    keeps its records in, and the paged set that says which ids of a category
    have a row.  A projection is specified by its history, the records
    applied to it in order: every read gives the record written last.

    An [Arc] is its record.  A category out of range would be a panic, and is
    [None] around the result. *)
From S2P Require Import Prelude Word Bytes DocSet Trigrams LogRecords BTree Runs Dormant.
#[local] Open Scope ferret_scope.

(** The categories of rows. *)
Definition LIFE : N := 0.
Definition NAME : N := 1.
Definition DIR : N := 2.
Definition ROOT : N := 3.
Definition POLICY : N := 4.
Definition INODE : N := 5.
Definition LINK : N := 6.
Definition WORKTREE : N := 7.
Definition DOC : N := 8.
Definition CATEGORIES : nat := 9.

(** [key] and [record_key]. *)
Definition row_key (category : N) (id : u32) : u64 := N.lor (N.shiftl category 32) id.
Definition record_row (r : Record_) : N * u32 :=
  match r with
  | LifePut id _ _ _ | InodeDelete id => (LIFE, id)
  | NamePut id _ _ _ _ | NameDelete id => (NAME, id)
  | DirPut id _ _ _ _ => (DIR, id)
  | RootPut id _ | RootDelete id => (ROOT, id)
  | PolicyPut _ => (POLICY, 0%N)
  | InodePut id _ _ _ _ => (INODE, id)
  | LinkPut id _ | LinkDelete id => (LINK, id)
  | WorkTreePut id _ _ _ | WorkTreeDelete id => (WORKTREE, id)
  | DocPut id _ _ | DocDelete id | DocDormant id _ | DocForget id => (DOC, id)
  end.
Definition record_key (r : Record_) : u64 := let '(category, id) := record_row r in row_key category id.

(** [Projection]. *)
Record Projection := mkProjection { p_rows : Runs u64 Record_; present : list Ids; dormant : option State }.
Definition projection_default : Projection := mkProjection [] (replicate CATEGORIES []) None.

(** [Projection::get]. *)
Definition projection_get (self : Projection) (category : N) (id : u32) : option (option Record_) :=
  ids ← present self !! N.to_nat category;
  Some (if ids_contains ids id then get (p_rows self) (row_key category id) else None).

(** The rows of a category, by their key. *)
Definition in_category (category : N) (r : Row u64 Record_) : Prop := N.shiftr (key r) 32 = category.
#[export] Instance in_category_dec category r : Decision (in_category category r).
Proof. unfold in_category. apply _. Defined.

(** [records], [records_until] and [range]. *)
Definition records (self : Projection) (category : N) : option (list Record_) :=
  rows ← latest_range (p_rows self) (row_key category 0) (row_key (category + 1) 0);
  Some (map value (filter (in_category category) (rows : list (Row u64 Record_)))).
Definition records_until (ck : Checkpoint) (self : Projection) (category : N) (c : ck_state ck) : option (option (list Record_) * ck_state ck) :=
  '(rows, c) ← latest_range_until ck (p_rows self) (row_key category 0) (row_key (category + 1) 0) c;
  Some (match rows with Some rows => Some (map value (filter (in_category category) rows)) | None => None end, c).
Definition records_range (self : Projection) (category : N) (start stop : u32) : option (list Record_) :=
  rows ← range (p_rows self) (row_key category start) (row_key category stop);
  Some (map value (rows : list (Row u64 Record_))).

(** [apply]: each record's id joins its category's, and the rows are
    inserted. *)
Definition mark (present : list Ids) (r : Record_) : option (list Ids) :=
  let k := record_key r in
  let category := N.to_nat (N.shiftr k 32) in
  ids ← present !! category;
  Some (<[category := ids_insert ids (k mod 2 ^ 32)%N]> present).
Fixpoint mark_all (present : list Ids) (rs : list Record_) : option (list Ids) :=
  match rs with [] => Some present | r :: rs => present ← mark present r; mark_all present rs end.
Definition apply_rows (self : Projection) (sequence : u64) (rs : list Record_) : option Projection :=
  present ← mark_all (present self) rs;
  rows ← insert_rows (p_rows self) (map (fun r => mkRow (record_key r) sequence r) rs);
  Some (mkProjection rows present (dormant self)).

(** ** Keys *)

Lemma row_key_sum c id : u32_ok id -> row_key c id = (c * 2 ^ 32 + id)%N.
Proof.
  intros Hid. unfold row_key. rewrite N.shiftl_mul_pow2, N.lor_comm.
  rewrite <- N.lxor_lor, <- N.add_nocarry_lxor; [lia| |]; apply N.bits_inj; intros i; rewrite N.land_spec, N.bits_0;
    (destruct (N.lt_ge_cases i 32) as [Hi|Hi]; [rewrite (N.mul_pow2_bits_low c) by done; by rewrite andb_false_r|]);
    (destruct (N.eq_dec id 0%N) as [->|H0]; [by rewrite N.bits_0|]); rewrite N.bits_above_log2; try done;
    apply N.log2_lt_pow2; try lia; apply (N.lt_le_trans _ (2 ^ 32)); try done; by apply N.pow_le_mono_r.
Qed.

Lemma row_key_parts c id : u32_ok id -> N.shiftr (row_key c id) 32 = c /\ (row_key c id mod 2 ^ 32)%N = id.
Proof.
  intros Hid. rewrite row_key_sum by done. unfold u32_ok in Hid. split.
  - rewrite N.shiftr_div_pow2, N.add_comm, N.div_add by done. rewrite N.div_small by done. lia.
  - rewrite N.add_comm, N.Div0.mod_add. by apply N.mod_small.
Qed.

Lemma row_key_inj c c' id id' : u32_ok id -> u32_ok id' -> row_key c id = row_key c' id' -> c = c' /\ id = id'.
Proof.
  intros Hid Hid' Hk. destruct (row_key_parts c id Hid) as [H1 H2], (row_key_parts c' id' Hid') as [H1' H2'].
  rewrite Hk in H1, H2. split; congruence.
Qed.

(** A record of [u32] fields. *)
Definition row_ok (r : Record_) : Prop := u32_ok (record_row r).2.

Lemma record_category r : N.to_nat (record_row r).1 < CATEGORIES.
Proof. apply Nat.ltb_lt. by destruct r. Qed.

Lemma record_key_row r : record_key r = row_key (record_row r).1 (record_row r).2.
Proof. unfold record_key. by destruct (record_row r). Qed.

(** ** The history of a projection *)

(** The record of a key that was written last. *)
Definition newest_row (H : list Record_) (k : u64) : option Record_ := last (filter (fun r => record_key r = k) H).

Lemma newest_row_app H rs k : newest_row (H ++ rs) k = match newest_row rs k with Some r => Some r | None => newest_row H k end.
Proof. unfold newest_row. rewrite filter_app, last_app. by destruct (last (filter _ rs)). Qed.

Lemma newest_row_key H k r : newest_row H k = Some r -> record_key r = k /\ r ∈ H.
Proof. intros Hr%last_Some_elem_of. by apply list_elem_of_filter in Hr. Qed.

Lemma newest_row_None H k : newest_row H k = None <-> forall r, r ∈ H -> record_key r <> k.
Proof.
  unfold newest_row. rewrite last_None. split.
  - intros Hf r Hr Hk. assert (Hin : r ∈ filter (fun r => record_key r = k) H) by (by apply list_elem_of_filter). rewrite Hf in Hin. by apply not_elem_of_nil in Hin.
  - intros Hr. apply elem_of_nil_inv. intros r [Hk Hin]%list_elem_of_filter. by apply (Hr r).
Qed.

(** A projection after the records of [H], up to the sequence [last]. *)
Record projection_ok (self : Projection) (last : u64) (H : list Record_) : Prop := {
  pj_rows : exists m, runs_ok (p_rows self) m /\ (forall k s r, m k = Some (s, r) -> (s <= last)%N) /\
    forall k, snd <$> m k = newest_row H k;
  pj_history : Forall row_ok H;
  pj_length : length (present self) = CATEGORIES;
  pj_ids : Forall ids_ok (present self);
  pj_present c ids id : present self !! N.to_nat c = Some ids -> u32_ok id ->
    ids_contains ids id = true <-> exists r, r ∈ H /\ record_key r = row_key c id
}.

Lemma projection_default_ok last : projection_ok projection_default last [].
Proof.
  split; cbn [projection_default p_rows present].
  - exists (fun _ => None). split; [apply runs_ok_empty|]. by split.
  - constructor.
  - apply length_replicate.
  - apply Forall_replicate. intros i page Hi. done.
  - intros c ids id [-> _]%lookup_replicate Hid. split; [done|]. by intros (r & Hr%not_elem_of_nil & _).
Qed.

Lemma projection_get_spec self last H c id : projection_ok self last H -> N.to_nat c < CATEGORIES -> u32_ok id ->
  projection_get self c id = Some (newest_row H (row_key c id)).
Proof.
  intros [(m & Hm & _ & Hv) _ Hl _ Hp] Hc Hid. unfold projection_get. destruct (lookup_lt_is_Some_2 (present self) (N.to_nat c)) as [ids Hids]; [lia|].
  rewrite Hids. cbn [mbind option_bind]. f_equal. specialize (Hp c ids id Hids Hid). destruct (ids_contains ids id).
  - unfold get. rewrite (get_by_spec (p_rows self) m Hm _ (row_key c id)) by done. apply Hv.
  - symmetry. apply newest_row_None. intros r Hr Hk. assert (false = true) by (apply Hp; by exists r). done.
Qed.

Lemma mark_spec (ps : list Ids) r : length ps = CATEGORIES -> Forall ids_ok ps -> row_ok r ->
  exists ps', mark ps r = Some ps' /\ length ps' = CATEGORIES /\ Forall ids_ok ps' /\
    forall c ids id, ps' !! N.to_nat c = Some ids -> u32_ok id ->
      exists ids0, ps !! N.to_nat c = Some ids0 /\ (ids_contains ids id = true <-> ids_contains ids0 id = true \/ record_key r = row_key c id).
Proof.
  intros Hl Hok Hr. unfold mark. rewrite record_key_row. destruct (row_key_parts (record_row r).1 (record_row r).2 Hr) as [-> ->].
  set (at_ := N.to_nat (record_row r).1). destruct (lookup_lt_is_Some_2 ps at_) as [ids0 Hids0]; [rewrite Hl; apply record_category|].
  rewrite Hids0. cbn [mbind option_bind]. destruct (ids_insert_spec ids0 (record_row r).2) as [Hi Hc].
  { rewrite Forall_lookup in Hok. by apply (Hok at_). }
  eexists. split; [done|]. split_and!; [by rewrite length_insert|by apply Forall_insert|].
  intros c ids id Hids Hid. destruct (decide (N.to_nat c = at_)) as [Heq|Hne].
  - rewrite Heq, list_lookup_insert_eq in Hids by (by eapply lookup_lt_Some). injection Hids as <-. exists ids0. rewrite Heq. split; [done|].
    rewrite Hc, orb_true_iff, bool_decide_eq_true. assert (c = (record_row r).1) as -> by (apply N2Nat.inj; done).
    split; [intros [->|?]; [by right|by left]|]. intros [?|Hk]; [by right|]. apply row_key_inj in Hk as [_ ->]; [by left|done|done].
  - rewrite list_lookup_insert_ne in Hids by done. exists ids. split; [done|]. split; [by left|]. intros [?|Hk]; [done|].
    apply row_key_inj in Hk as [<- _]; [done|done|done].
Qed.

Lemma mark_all_spec (ps : list Ids) rs : length ps = CATEGORIES -> Forall ids_ok ps -> Forall row_ok rs ->
  exists ps', mark_all ps rs = Some ps' /\ length ps' = CATEGORIES /\ Forall ids_ok ps' /\
    forall c ids id, ps' !! N.to_nat c = Some ids -> u32_ok id -> exists ids0, ps !! N.to_nat c = Some ids0 /\
      (ids_contains ids id = true <-> ids_contains ids0 id = true \/ exists r, r ∈ rs /\ record_key r = row_key c id).
Proof.
  intros Hl Hok Hrs. revert ps Hl Hok. induction Hrs as [|r rs Hr _ IH]; intros ps Hl Hok; cbn [mark_all].
  { exists ps. split_and!; [done..|]. intros c ids id Hids Hid. exists ids. split; [done|]. split; [by left|]. intros [?|(r & Hr%not_elem_of_nil & _)]; done. }
  destruct (mark_spec ps r Hl Hok Hr) as (ps1 & -> & Hl1 & Hok1 & H1). cbn [mbind option_bind].
  destruct (IH ps1 Hl1 Hok1) as (ps' & -> & Hl' & Hok' & H'). exists ps'. split_and!; [done..|].
  intros c ids id Hids Hid. destruct (H' c ids id Hids Hid) as (ids1 & Hids1 & Hc'). destruct (H1 c ids1 id Hids1 Hid) as (ids0 & Hids0 & Hc).
  exists ids0. split; [done|]. rewrite Hc', Hc. split.
  - intros [[?|?]|(x & ? & ?)]; [by left|right; exists r; by split; [left|]|right; exists x; by split; [right|]].
  - intros [?|(x & [->|?]%elem_of_cons & ?)]; [by left; left|by left; right|right; by exists x].
Qed.

Lemma newest_written rs q k : snd <$> put_rows (fun _ => None) (map (fun r => mkRow (record_key r) q r) rs) k = newest_row rs k.
Proof.
  change (map ?f rs) with (f <$> rs). unfold put_rows, newest_row.
  assert (Hv : value <$> of_key k ((fun r => mkRow (record_key r) q r) <$> rs) = filter (fun r => record_key r = k) rs).
  { induction rs as [|r rs IH]; [done|]. rewrite fmap_cons, of_key_cons, filter_cons. cbn [key]. pose proof (key_eq_iff (record_key r) k) as Hk.
    destruct (key_eq (record_key r) k); case_decide as Hd; try (by rewrite fmap_cons, IH); try done; exfalso; [by apply Hd, Hk|by apply Hk in Hd]. }
  rewrite <- Hv, fmap_last. by destruct (last (of_key k _)).
Qed.

(** Applying records extends the history. *)
Lemma apply_rows_spec self last H q rs : projection_ok self last H -> (last < q)%N -> Forall row_ok rs ->
  exists self', apply_rows self q rs = Some self' /\ projection_ok self' q (H ++ rs) /\ dormant self' = dormant self.
Proof.
  intros [(m & Hm & Hlast & Hv) Hh Hl Hi Hp] Hq Hrs. unfold apply_rows.
  destruct (mark_all_spec (present self) rs Hl Hi Hrs) as (ps & -> & Hl' & Hi' & Hp'). cbn [mbind option_bind].
  set (rows := map (fun r => mkRow (record_key r) q r) rs). assert (Hrq : Forall (fun x => sequence x = q) rows) by (apply Forall_fmap, Forall_forall; by intros r _).
  destruct (insert_spec (p_rows self) m rows q Hm Hrq) as (runs & -> & Hruns & _).
  { intros k s v Hk. specialize (Hlast k s v Hk). lia. }
  cbn [mbind option_bind]. eexists. split; [done|]. split; [|done]. split; cbn [p_rows present].
  - exists (put_rows m rows). split_and!; [done| |].
    + intros k s r. unfold put_rows. destruct (list.last (of_key k rows)) as [x|] eqn:E; [|intros Hk; specialize (Hlast k s r Hk); lia].
      intros [= <- <-]. apply last_of_key in E as [_ Hx]. rewrite Forall_forall in Hrq. by rewrite (Hrq x Hx).
    + intros k. rewrite newest_row_app, <- (newest_written rs q k). fold rows. unfold put_rows. destruct (list.last (of_key k rows)); [done|]. apply Hv.
  - by apply Forall_app.
  - done.
  - done.
  - intros c ids id Hids Hid. destruct (Hp' c ids id Hids Hid) as (ids0 & Hids0 & ->). rewrite (Hp c ids0 id Hids0 Hid). set_solver.
Qed.

(** The records of a category: the newest of each row, by id. *)
Definition newest_of (H : list Record_) (category : N) (l : list Record_) : Prop :=
  StronglySorted (fun a b => (record_key a < record_key b)%N) l /\
  forall r, r ∈ l <-> (record_row r).1 = category /\ newest_row H (record_key r) = Some r.

Lemma category_range c r : row_ok r -> cmp_le (row_key c 0) (record_key r) = true /\ cmp (record_key r) (row_key (c + 1) 0) = Lt <-> (record_row r).1 = c.
Proof.
  intros Hr. assert (Hle : cmp_le (row_key c 0) (record_key r) = true <-> (row_key c 0 <= record_key r)%N).
  { unfold cmp_le, cmp, N_ord. rewrite <- N.compare_le_iff. by destruct (N.compare _ _). }
  rewrite Hle. unfold cmp, N_ord. rewrite N.compare_lt_iff, record_key_row, !row_key_sum by done. unfold row_ok, u32_ok in Hr.
  split; [|intros <-; lia]. intros [H1 H2]. nia.
Qed.

Lemma keys_ascending (l : list (Row u64 Record_)) : ordered_rows l -> Forall (fun x => key x = record_key (value x)) l ->
  StronglySorted (fun a b => (record_key a < record_key b)%N) (value <$> l).
Proof.
  induction 1 as [|x l _ IH Hx]; intros Hk; [constructor|]. apply Forall_cons in Hk as [Hxk Hk]. rewrite fmap_cons. constructor; [by apply IH|].
  apply Forall_fmap, Forall_forall. intros y Hy. rewrite Forall_forall in Hx, Hk. cbn. rewrite <- Hxk, <- (Hk y Hy). apply N.compare_lt_iff, (Hx y Hy).
Qed.

Section reads.
Context (self : Projection) (last : u64) (H : list Record_) (Hok : projection_ok self last H).

Lemma newest_in_records start stop (m : u64 -> option (u64 * Record_)) l (P : Row u64 Record_ -> Prop) `{!forall x, Decision (P x)} (Q : Record_ -> Prop) :
  (forall k, snd <$> m k = newest_row H k) -> newest_in m start stop l ->
  (forall x, key x = record_key (value x) -> row_ok (value x) -> cmp_le start (key x) = true /\ cmp (key x) stop = Lt /\ P x <-> Q (value x)) ->
  StronglySorted (fun a b => (record_key a < record_key b)%N) (value <$> filter P l) /\
  forall r, r ∈ value <$> filter P l <-> Q r /\ newest_row H (record_key r) = Some r.
Proof.
  intros Hv [Hs Hin] HQ. assert (Hkey : forall x, m (key x) = Some (sequence x, value x) -> key x = record_key (value x) /\ row_ok (value x)).
  { intros x Hx. pose proof (Hv (key x)) as Hk. rewrite Hx in Hk. symmetry in Hk. apply newest_row_key in Hk as [Hk Hr]. split; [done|].
    pose proof (pj_history _ _ _ Hok) as Hh. rewrite Forall_forall in Hh. by apply Hh. }
  split.
  - apply keys_ascending.
    + clear -Hs. induction Hs as [|x l _ IH Hx]; [constructor|]. rewrite filter_cons. case_decide; [|done]. constructor; [done|].
      apply Forall_forall. intros y [_ Hy]%list_elem_of_filter. rewrite Forall_forall in Hx. by apply Hx.
    + apply Forall_forall. intros x [_ [_ Hx]%Hin]%list_elem_of_filter. by apply Hkey.
  - intros r. rewrite list_elem_of_fmap. split.
    + intros (x & -> & [HP [[H1 H2] Hx]%Hin]%list_elem_of_filter). destruct (Hkey x Hx) as [Hk Hr]. rewrite <- Hk. split.
      * by apply HQ.
      * rewrite <- Hv, Hx. done.
    + intros [HQr Hr]. rewrite <- Hv in Hr. apply fmap_Some in Hr as ([s r0] & Hm & ->). cbn [snd] in *. set (x := mkRow (record_key r0) s r0).
      destruct (Hkey x Hm) as [Hk Hro]. destruct (proj2 (HQ x Hk Hro) HQr) as (H1 & H2 & HP). exists x. split; [done|]. apply list_elem_of_filter. split; [done|]. apply Hin. by split.
Qed.

Lemma start_stop c : cmp_le (row_key c 0) (row_key (c + 1) 0) = true.
Proof.
  unfold cmp_le, cmp, N_ord. rewrite !row_key_sum by done. destruct (N.compare_spec (c * 2 ^ 32 + 0) ((c + 1) * 2 ^ 32 + 0)); [done..|lia].
Qed.

Lemma records_spec c : exists l, records self c = Some l /\ newest_of H c l.
Proof.
  destruct (pj_rows _ _ _ Hok) as (m & Hm & _ & Hv). unfold records.
  destruct (latest_range_spec (p_rows self) m Hm (row_key c 0) (row_key (c + 1) 0) (start_stop c)) as (l & -> & Hl). cbn [mbind option_bind].
  eexists. split; [done|]. apply (newest_in_records _ _ m l (in_category c) (fun r => (record_row r).1 = c) Hv Hl).
  intros x Hk Hr. unfold in_category. rewrite Hk. pose proof (category_range c (value x) Hr) as Hc.
  rewrite (record_key_row (value x)) in *. rewrite (proj1 (row_key_parts _ _ Hr)). tauto.
Qed.
End reads.
