(* ===== verification/Overlay.v ===== *)
(** * Overlay: a log's families over a checkpoint

    Models [crates/ferret-catalog/src/overlay.rs]: the transactions an overlay
    adds to its predecessor, the checks of inode and document lifetimes that
    loading a family makes, the retained identities it carries forward, and
    the reads that answer from a projection before the checkpoint.

    The checkpoint is [Base], a record of what its sections answer, with
    [BaseLaws] (in [OverlaySpec]) what a checked checkpoint promises.  A family's [OnceLock] is a
    cell of the overlay; a parent is shared, and its cells are filled where
    they are loaded.  [u32] additions wrap, as in a release build.  A panic is
    [None]. *)
From S2P Require Import Prelude Word Bytes DocSet Trigrams LogRecords BTree Runs Dormant Generation LogFrames Projection.
#[local] Open Scope ferret_scope.

(** The [Section]s an overlay loads of its checkpoint. *)
Inductive Section_ := SNames | SDirNames | SRoots | SLinks | SDocs | SDocRefs | SDormant.

(** [Name]. *)
Record Name := mkName { n_parent : u32; n_child : u32; n_bytes : bytes }.

(** The checkpoint: its layout, and what its sections answer. *)
Record Base := mkBase {
  layout : Layout;
  load_sections : list Section_ -> result unit OpenError;
  base_doc_hash : DocId -> option Hash;
  base_dormant_hash : DocId -> option Hash;
  base_dormant_state : State;
  base_name : u32 -> Name;
  base_lookup : u32 -> bytes -> option u32;
  base_children : u32 -> list u32;
  base_dir_name : u32 -> option u32;
  base_roots : list (u32 * bytes);
  name_references : list u32
}.

(** [base_inode_count], [base_dir_count], [base_name_count] and
    [manifest]. *)
Definition base_inode_count (base : Base) : u32 := as_u32 (l_inodes (layout base)).
Definition base_dir_count (base : Base) : u32 := as_u32 (l_dirs (layout base)).
Definition base_name_count (base : Base) : u32 := as_u32 (l_names (layout base)).
Definition base_manifest (base : Base) : Manifest := from_layout (layout base).

(** [bad]. *)
Definition obad (label : string) : OpenError := LogFrames.Decode (Corrupt label).
#[local] Notation "x <~! m ; k" := (oe_bind m (fun x => k)) (at level 100, m at next level, right associativity).

(** [u32]'s [+=] and [checked_sub]. *)
Definition add32 (a b : u32) : u32 := ((a + b) mod 2 ^ 32)%N.
Definition sub32 (a b : u32) : option u32 := if (b <=? a)%N then Some (a - b)%N else None.

(** The ids of a range, ascending. *)
Definition ids_from (start stop : u32) : list u32 := N.of_nat <$> seq (N.to_nat start) (N.to_nat (stop - start)).

(** [check_births]; the length of the range wraps, and a range that ends
    before it starts is empty. *)
Definition check_births (births : list u32) (start stop : u32) (label : string) : outcome unit :=
  if negb (N.of_nat (length births) =? (stop + 2 ^ 32 - start) mod 2 ^ 32)%N || bool_decide (births <> ids_from start stop)
  then Some (Err (obad label)) else Some (Ok tt).

(** [ChildKeys]: the keys of the names a log changes, [None] for a removal. *)
Abbreviation ChildRow := (Row (u32 * bytes) (option u32)) (only parsing).
Abbreviation ChildKeys := (Runs (u32 * bytes) (option u32)) (only parsing).

(** [Namespace]. *)
Record Names := mkNames {
  ns_rows : Projection; ns_keys : ChildKeys; ns_touched : list u32; ns_suppressed : list u32; ns_names : list u32; ns_heap : bytes;
  ns_spans : list (nat * u32); ns_references : list (u32 * Z)
}.

(** [Overlay]. *)
Inductive Overlay := mkOverlay {
  o_manifest : Manifest; o_log : option Log; o_parent : option Overlay; o_delta : list Record_; o_families : list (option Projection);
  o_namespace : option Names
}.

(** [empty], [new], [advance] and [detach]. *)
Definition overlay_empty (m : Manifest) : Overlay := mkOverlay m None None [] (replicate 4 None) None.
Definition overlay_new (m : Manifest) (log : Log) : Overlay := mkOverlay m (Some log) None [] (replicate 4 None) None.
Definition overlay_advance (parent : Overlay) (m : Manifest) (rs : list Record_) : Overlay := mkOverlay m None (Some parent) rs (replicate 4 None) None.
Definition detach (self : Overlay) : Overlay := mkOverlay (o_manifest self) (o_log self) None [] (o_families self) (o_namespace self).

(** A family's cell, and [projection], which panics on an empty one. *)
Definition cell (families : list (option Projection)) (f : Family) : option Projection := mjoin (families !! family_index f).
Definition projection (self : Overlay) (f : Family) : option Projection := cell (o_families self) f.

(** A transaction: its sequence, its counters and its records. *)
Abbreviation Tx := (u64 * Counters * list Record_)%type (only parsing).

(** [transactions]. *)
Definition group (groups : list (u64 * list Record_)) (row : u64 * Record_) : list (u64 * list Record_) :=
  bt_insert row.1 (default [] (bt_get row.1 groups) ++ [row.2]) groups.
Fixpoint framed (frames : list (u64 * Counters)) (groups : list (u64 * list Record_)) : list Tx :=
  match frames with
  | [] => []
  | (seq, counters) :: frames => (seq, counters, default [] (bt_get seq groups)) :: framed frames (bt_remove seq groups)
  end.
Definition own_transactions (m : Manifest) (log : option Log) (delta : list Record_) (f : Family) : option (list Tx) :=
  match log with
  | Some log => rows ← log_records log f; Some (framed (frames log) (fold_left group rows []))
  | None => Some [(g_sequence (generation m), counters m, filter (fun r => family r = f) delta)]
  end.

Section overlay.
Context (checksum : bytes -> bytes) (base : Base).

(** ** Inode lifetimes *)

(** [final_rows] of [check_inodes]. *)
Definition life_row (r : Record_) : option u32 := match r with LifePut id _ _ _ | InodeDelete id => Some id | _ => None end.
Definition final_life (rs : list Record_) : list (u32 * Record_) := bt_collect (omap (fun r => id ← life_row r; Some (id, r)) rs).

(** [u32::from(kind == Kind::Dir)]. *)
Definition one_if (b : bool) : u32 := if b then 1 else 0.
Definition is_dir (k : Kind) : bool := bool_decide (k = Dir).
Definition is_deleted (row : option Record_) : bool := match row with Some (InodeDelete _) => true | _ => false end.
Definition add_counts (c : Counts) (dir : bool) : Counts :=
  mkCounts (add32 (n_inodes c) 1) (n_names c) (add32 (n_dirs c) (one_if dir)) (n_docs c).

(** The loop of [check_inodes]. *)
Fixpoint life_loop (p : Projection) (used : u32) (final : list (u32 * Record_)) (births : list u32) (c : Counts) : outcome (list u32 * Counts) :=
  match final with
  | [] => Some (Ok (births, c))
  | (id, r) :: final =>
      row ← projection_get p LIFE id;
      match r with
      | LifePut _ k _ _ =>
          if is_deleted row then Some (Err (obad "retired inode reused"))
          else if (used <=? id)%N then life_loop p used final (bs_add births id) (add_counts c (is_dir k))
          else
            match row with
            | Some (LifePut _ old _ _) =>
                if bool_decide (old <> k) then Some (Err (obad "inode lifetime type changed")) else life_loop p used final births c
            | _ =>
                if negb (eqb (id <? base_dir_count base)%N (is_dir k)) then Some (Err (obad "base directory type changed"))
                else life_loop p used final births c
            end
      | InodeDelete _ =>
          if (used <=? id)%N || is_deleted row then Some (Err (obad "delete absent inode"))
          else
            let dir := match row with Some (LifePut _ k _ _) => is_dir k | _ => (id <? base_dir_count base)%N end in
            match sub32 (n_inodes c) 1 with
            | None => Some (Err (obad "inode counts"))
            | Some n =>
                match sub32 (n_dirs c) (one_if dir) with
                | None => Some (Err (obad "directory counts"))
                | Some d => life_loop p used final births (mkCounts n (n_names c) d (n_docs c))
                end
            end
      | _ => life_loop p used final births c
      end
  end.

(** [check_inodes]. *)
Definition check_inodes (p : Projection) (rs : list Record_) (before next : Counters) (c : Counts) : outcome Counts :=
  answer <~! life_loop p (inodes before) (final_life rs) [] c;
  let '(births, c) := answer in
  _ <~! check_births births (inodes before) (inodes next) "inode allocation gaps";
  Some (Ok c).

(** ** Document lifetimes *)

(** [final_rows] of [check_docs], by key. *)
Definition final_keys (rs : list Record_) : list (u64 * Record_) := bt_collect (map (fun r => (record_key r, r)) rs).

(** The live and the retained hash of a document. *)
Definition doc_state (p : Projection) (id : DocId) : option (option Hash * option Hash) :=
  row ← projection_get p DOC id;
  Some (match row with
        | Some (DocPut _ _ hash) => (Some hash, None)
        | Some (DocDormant _ hash) => (None, Some hash)
        | Some _ => (None, None)
        | None => (base_doc_hash base id, base_dormant_hash base id)
        end).
Definition set_docs (c : Counts) (n : u32) : Counts := mkCounts (n_inodes c) (n_names c) (n_dirs c) n.

(** The loop of [check_docs]. *)
Fixpoint docs_loop (p : Projection) (used : u32) (final : list (u64 * Record_)) (births : list u32) (c : Counts) : outcome (list u32 * Counts) :=
  match final with
  | [] => Some (Ok (births, c))
  | (_, r) :: final =>
      match r with
      | DocPut id _ hash =>
          '(live, dormant) ← doc_state p id;
          if (used <=? id)%N then docs_loop p used final (bs_add births id) (set_docs c (add32 (n_docs c) 1))
          else
            match (match live with Some h => Some h | None => dormant end) with
            | None => Some (Err (obad "unassigned/forgotten document reused"))
            | Some old =>
                if bool_decide (old <> hash) then Some (Err (obad "document hash changed"))
                else docs_loop p used final births (set_docs c (add32 (n_docs c) (one_if (bool_decide (live = None)))))
            end
      | DocDelete id | DocDormant id _ =>
          '(live, dormant) ← doc_state p id;
          match live with
          | None => Some (Err (obad "delete absent document"))
          | Some hash =>
              if match r with DocDormant _ retained => bool_decide (hash <> retained) | _ => false end
              then Some (Err (obad "dormant hash changed"))
              else
                match sub32 (n_docs c) 1 with
                | None => Some (Err (obad "document counts"))
                | Some n => docs_loop p used final births (set_docs c n)
                end
          end
      | DocForget id =>
          '(live, dormant) ← doc_state p id;
          if bool_decide (dormant = None) then Some (Err (obad "forget absent dormant document")) else docs_loop p used final births c
      | _ => docs_loop p used final births c
      end
  end.

(** [check_docs]. *)
Definition check_docs (p : Projection) (rs : list Record_) (before next : Counters) (c : Counts) : outcome Counts :=
  match load_sections base [SDocs; SDormant] with
  | Err e => Some (Err e)
  | Ok _ =>
      answer <~! docs_loop p (docs before) (final_keys rs) [] c;
      let '(births, c) := answer in
      _ <~! check_births births (docs before) (docs next) "document allocation gaps";
      Some (Ok c)
  end.

(** [advance_dormant]: the permissions a transaction removes and adds. *)
Fixpoint permissions (p : Projection) (final : list (DocId * Record_)) (removed added : list (DocId * Hash)) :
  option (list (DocId * Hash) * list (DocId * Hash)) :=
  match final with
  | [] => Some (removed, added)
  | (id, r) :: final =>
      row ← projection_get p DOC id;
      let prior := match row with Some (DocDormant _ hash) => Some hash | Some _ => None | None => base_dormant_hash base id end in
      let removed := match prior with Some hash => removed ++ [(id, hash)] | None => removed end in
      permissions p final removed (match r with DocDormant _ hash => added ++ [(id, hash)] | _ => added end)
  end.
Definition advance_dormant (p : Projection) (rs : list Record_) (sequence : u64) : outcome Projection :=
  '(removed, added) ← permissions p (final_docs rs) [] [];
  state ← dormant p;
  state <~! lift_decode (advance state sequence removed added);
  Some (Ok (mkProjection (p_rows p) (present p) (Some state))).

(** ** Loading a family *)

(** The loop of [load] over the transactions. *)
Fixpoint replay_family (f : Family) (txs : list Tx) (p : Projection) (before : Counters) (c : Counts) : outcome (Projection * Counts) :=
  match txs with
  | [] => Some (Ok (p, c))
  | (seq, next, rs) :: txs =>
      c <~! match f with
            | Namespace => check_inodes p rs before next c
            | Docs => check_docs p rs before next c
            | _ => Some (Ok c)
            end;
      p <~! match f with Docs => advance_dormant p rs seq | _ => Some (Ok p) end;
      p ← apply_rows p seq rs;
      replay_family f txs p next c
  end.

(** The counts a load ends with. *)
Definition check_counts (f : Family) (c m : Counts) : outcome unit :=
  match f with
  | Namespace =>
      if negb (n_inodes c =? n_inodes m)%N || negb (n_dirs c =? n_dirs m)%N then Some (Err (obad "live inode/directory counts")) else Some (Ok tt)
  | Docs => if negb (n_docs c =? n_docs m)%N then Some (Err (obad "live document count")) else Some (Ok tt)
  | _ => Some (Ok tt)
  end.

(** The retained state a Docs projection starts from. *)
Definition init_dormant (f : Family) (p : Projection) : outcome Projection :=
  if bool_decide (f = Docs) && match dormant p with None => true | Some _ => false end then
    match load_sections base [SDormant] with
    | Err e => Some (Err e)
    | Ok _ => Some (Ok (mkProjection (p_rows p) (present p) (Some (base_dormant_state base))))
    end
  else Some (Ok p).

(** [load]: the overlay with the cells it filled, and the result. *)
Definition load_own (m : Manifest) (log : option Log) (delta : list Record_) (f : Family) (p : Projection) (before : Counters) (c : Counts) : outcome Projection :=
  p <~! init_dormant f p;
  txs ← own_transactions m log delta f;
  answer <~! replay_family f txs p before c;
  let '(p, c) := answer in
  _ <~! check_counts f c (counts m);
  Some (Ok p).
Fixpoint load (self : Overlay) (f : Family) : option (Overlay * result unit OpenError) :=
  let '(mkOverlay m log parent delta families ns) := self in
  match cell families f with
  | Some _ => Some (self, Ok tt)
  | None =>
      '(parent, started) ← match parent with
        | None => Some (None, Ok (projection_default, counters (base_manifest base), counts (base_manifest base)))
        | Some q =>
            '(q, r) ← load q f;
            match r with
            | Err e => Some (Some q, Err e)
            | Ok _ => p ← projection q f; Some (Some q, Ok (p, counters (o_manifest q), counts (o_manifest q)))
            end
        end;
      match started with
      | Err e => Some (mkOverlay m log parent delta families ns, Err e)
      | Ok (p, before, c) =>
          '(log, loaded) ← match log with
            | None => Some (None, Ok tt)
            | Some log => '(log, r) ← load_log checksum log f; Some (Some log, r)
            end;
          match loaded with
          | Err e => Some (mkOverlay m log parent delta families ns, Err e)
          | Ok _ =>
              r ← load_own m log delta f p before c;
              match r with
              | Err e => Some (mkOverlay m log parent delta families ns, Err e)
              | Ok p => Some (mkOverlay m log parent delta (<[family_index f := Some p]> families) ns, Ok tt)
              end
          end
      end
  end.

(** ** Reads *)

(** [life], [live_inode], [kind] and [inode]. *)
Definition life (self : Overlay) (id : u32) : option (option Record_) := p ← projection self Namespace; projection_get p LIFE id.
Definition live_inode (self : Overlay) (id : u32) : option bool :=
  if (id <? inodes (counters (o_manifest self)))%N then
    row ← life self id;
    Some (match row with Some (InodeDelete _) => false | Some (LifePut _ _ _ _) => true | _ => (id <? base_inode_count base)%N end)
  else Some false.
Definition overlay_kind (self : Overlay) (id : u32) : option (option Kind) :=
  row ← life self id;
  match row with Some (LifePut _ k _ _) => Some (Some k) | Some (InodeDelete _) => None | _ => Some None end.
Definition inode (self : Overlay) (id : u32) : option (option Record_) := p ← projection self Inodes; projection_get p INODE id.

(** [Catalog::is_directory], [doc_hash], [dormant_hash] and
    [doc_references] of a view with this overlay. *)
Definition is_directory (self : Overlay) (id : u32) : option bool :=
  k ← overlay_kind self id;
  Some (match k with Some k => is_dir k | None => (id <? base_dir_count base)%N end).
Definition doc_record (self : Overlay) (id : DocId) : option (option Record_) := p ← projection self Docs; projection_get p DOC id.
Definition view_doc_hash (self : Overlay) (id : DocId) : option (option Hash) :=
  row ← doc_record self id;
  Some (match row with
        | Some (DocPut _ _ hash) => Some hash
        | Some (DocDelete _) | Some (DocDormant _ _) | Some (DocForget _) => None
        | _ => base_doc_hash base id
        end).
Definition view_dormant_hash (self : Overlay) (id : DocId) : option (option Hash) :=
  row ← doc_record self id;
  Some (match row with Some (DocDormant _ hash) => Some hash | Some _ => None | None => base_dormant_hash base id end).
Definition view_dormant_state (self : Overlay) : option State := p ← projection self Docs; dormant p.
End overlay.
