(* ===== verification/OverlayLife.v ===== *)
(** * OverlayLife: the lifetimes of inodes

    The check of a transaction's inode lifetimes ([check_inodes] in
    [Overlay]), specified: a table of live inodes, the change each record
    makes to it, and which changes are legal.  The check accepts exactly the
    legal transactions, and counts the table's inodes and directories. *)
From S2P Require Import Prelude Word Bytes DocSet Trigrams LogRecords BTree Runs Dormant Generation LogFrames Projection Overlay.
#[local] Open Scope ferret_scope.

(** ** The table *)

(** A live inode: a directory or another inode of the checkpoint, or one
    whose kind a record of the log gives. *)
Inductive Life := BaseDir | BaseOther | Logged (k : Kind).
Definition life_dir (l : Life) : bool := match l with BaseDir => true | BaseOther => false | Logged k => is_dir k end.

(** A record may not change what is known of an inode's kind. *)
Definition keeps (old : Life) (k : Kind) : Prop := match old with BaseDir => k = Dir | BaseOther => k <> Dir | Logged k0 => k0 = k end.

(** The table after records. *)
Definition put_life (T : gmap N Life) (r : Record_) : gmap N Life :=
  match r with LifePut id k _ _ => <[id := Logged k]> T | InodeDelete id => delete id T | _ => T end.
Definition after_life (T : gmap N Life) (rs : list Record_) : gmap N Life := foldl put_life T rs.

(** What a transaction's last word on an inode may say, and which inodes it
    must give birth to. *)
Definition life_legal (T : gmap N Life) (used : u32) (r : Record_) : Prop :=
  match r with
  | LifePut id k _ _ => (used <= id)%N \/ exists old, T !! id = Some old /\ keeps old k
  | InodeDelete id => T !! id <> None
  | _ => True
  end.
Definition legal_inodes (T : gmap N Life) (used next : u32) (rs : list Record_) : Prop :=
  Forall (life_legal T used) (bt_rows life_row rs).*2 /\ filter (N.le used) (bt_rows life_row rs).*1 = ids_from used next.

Definition count_dirs (T : gmap N Life) : N := N.of_nat (base.size (filter (fun e => life_dir e.2 = true) T)).
Definition counts_life (T : gmap N Life) (c : Counts) : Prop := n_inodes c = N.of_nat (base.size T) /\ n_dirs c = count_dirs T.

Lemma after_life_lookup T rs id : after_life T rs !! id =
  match list.last (filter (of_row life_row id) rs) with Some (LifePut _ k _ _) => Some (Logged k) | Some _ => None | None => T !! id end.
Proof.
  unfold after_life. induction rs as [|r rs IH] using rev_ind; [done|]. rewrite foldl_app, filter_app, filter_cons, filter_nil. cbn [foldl].
  case_decide as Hr; unfold of_row in Hr.
  - rewrite last_snoc. destruct r; try done; injection Hr as <-; cbn; by simplify_map_eq.
  - rewrite app_nil_r, <- IH. destruct r; try done; cbn in *; simplify_map_eq; [|]; by rewrite ?lookup_insert_ne, ?lookup_delete_ne by congruence.
Qed.

(** One record at a time. *)
Lemma size_put {A} (T : gmap N A) id l : base.size (<[id := l]> T) = match T !! id with Some _ => base.size T | None => S (base.size T) end.
Proof. destruct (T !! id) eqn:E; [by apply map_size_insert_Some; eexists|by apply map_size_insert_None]. Qed.

Lemma size_drop {A} (T : gmap N A) id : base.size (delete id T) = match T !! id with Some _ => base.size T - 1 | None => base.size T end.
Proof. destruct (T !! id) eqn:E; [rewrite map_size_delete_Some; [lia|by eexists]|by rewrite map_size_delete_None]. Qed.

Lemma dirs_put (T : gmap N Life) id l : count_dirs (<[id := l]> T) =
  (count_dirs (delete id T) + (if life_dir l then 1 else 0))%N.
Proof.
  unfold count_dirs. rewrite <- insert_delete_eq. destruct (life_dir l) eqn:E.
  - rewrite map_filter_insert_True by done. rewrite size_put. rewrite map_lookup_filter, lookup_delete_eq. cbn. lia.
  - rewrite map_filter_insert_False by (cbn; by rewrite E). rewrite delete_delete_eq. lia.
Qed.

Lemma dirs_drop T id : count_dirs T = (count_dirs (delete id T) + (if default false (life_dir <$> T !! id) then 1 else 0))%N.
Proof.
  destruct (T !! id) as [l|] eqn:E; cbn.
  - rewrite <- (insert_id T id l E) at 1. by apply dirs_put.
  - rewrite delete_id by done. lia.
Qed.

Lemma dirs_le T : (count_dirs T <= N.of_nat (base.size T))%N.
Proof.
  unfold count_dirs. pose proof (map_filter_subseteq (fun e => life_dir e.2 = true) T) as Hs. apply map_subseteq_size in Hs. lia.
Qed.

Lemma map_size_below {A} (m : gmap N A) b : (forall k, m !! k <> None -> (k < b)%N) -> (N.of_nat (base.size m) <= b)%N.
Proof.
  intros Hm. rewrite <- (size_dom (D := gset N)). assert (Hs : (dom m : gset N) ⊆ list_to_set (ids_below b)).
  { intros k Hk%elem_of_dom. apply elem_of_list_to_set, elem_of_ids, Hm. by destruct Hk as [? ->]. }
  apply subseteq_size in Hs. rewrite size_list_to_set in Hs; [|unfold ids_below; apply NoDup_fmap_2; [apply _|apply NoDup_seq]].
  unfold ids_below in Hs. rewrite length_fmap, length_seq in Hs. lia.
Qed.

(** ** The table of a projection *)

Section lives.
Context (base : Base).

(** What the records of a history and the checkpoint say of an inode. *)
Definition life_at (H : list Record_) (id : u32) : option Life :=
  match newest_row H (row_key LIFE id) with
  | Some (LifePut _ k _ _) => Some (Logged k)
  | Some _ => None
  | None => if (id <? base_dir_count base)%N then Some BaseDir else if (id <? base_inode_count base)%N then Some BaseOther else None
  end.

(** A table of the inodes allocated below [used]. *)
Record lives (H : list Record_) (used : u32) (T : gmap N Life) : Prop := {
  lv_at id : u32_ok id -> T !! id = life_at H id;
  lv_below id : T !! id <> None -> (id < used)%N;
  lv_rows id : u32_ok id -> newest_row H (row_key LIFE id) <> None -> (id < used)%N;
  lv_alloc id : (base_inode_count base <= id < used)%N -> newest_row H (row_key LIFE id) <> None;
  lv_base : (base_dir_count base <= base_inode_count base <= used)%N;
  lv_used : u32_ok used
}.

Lemma life_key r id : row_ok r -> u32_ok id -> record_key r = row_key LIFE id <-> life_row r = Some id.
Proof.
  intros Hr Hid. rewrite record_key_row. split.
  - intros Hk. apply row_key_inj in Hk as [H1 H2]; [|done|done]. by destruct r; cbn in *; simplify_eq.
  - intros Hl. by destruct r; cbn in *; simplify_eq.
Qed.

Lemma newest_life rs id : Forall row_ok rs -> u32_ok id -> newest_row rs (row_key LIFE id) = list.last (filter (of_row life_row id) rs).
Proof.
  intros Hrs Hid. unfold newest_row. f_equal. induction Hrs as [|r rs Hr _ IH]; [done|]. rewrite !filter_cons, IH.
  pose proof (life_key r id Hr Hid). repeat case_decide; unfold of_row in *; tauto.
Qed.

Lemma newest_life_row H id r : Forall row_ok H -> u32_ok id -> newest_row H (row_key LIFE id) = Some r -> life_row r = Some id.
Proof. intros Hh Hid Hr. rewrite newest_life in Hr by done. apply last_Some_elem_of in Hr. by apply list_elem_of_filter in Hr as [Hr _]. Qed.

(** What the checks read of an inode's row. *)
Lemma lives_row H used T id : lives H used T -> Forall row_ok H -> u32_ok id -> (id < used)%N ->
  match newest_row H (row_key LIFE id) with
  | Some (LifePut _ k _ _) => T !! id = Some (Logged k)
  | Some (InodeDelete _) => T !! id = None
  | Some _ => False
  | None => T !! id = Some (if (id <? base_dir_count base)%N then BaseDir else BaseOther)
  end.
Proof.
  intros [Hat _ _ Hal _ _] Hh Hid Hu. specialize (Hat id Hid). unfold life_at in Hat. specialize (Hal id).
  destruct (newest_row H (row_key LIFE id)) as [r|] eqn:Er.
  - pose proof (newest_life_row H id r Hh Hid Er). by destruct r.
  - rewrite Hat. destruct (N.ltb_spec id (base_dir_count base)); [done|]. destruct (N.ltb_spec id (base_inode_count base)); [done|].
    exfalso. by apply Hal.
Qed.

Section check.
Context (p : Projection) (last : u64) (H : list Record_) (used : u32) (T : gmap N Life).
Context (Hp : projection_ok p last H) (HT : lives H used T) (bound : u32) (Hbound : (bound < 2 ^ 32)%N).

(** The counts while the rows of a transaction are checked one by one. *)
Record checking (Tc : gmap N Life) (final : list (u32 * Record_)) (births : list u32) (c : Counts) : Prop := {
  ck_rows : Forall (fun e => life_row e.2 = Some e.1 /\ (e.1 < bound)%N) final;
  ck_keys : StronglySorted N.lt final.*1;
  ck_same : Forall (fun e => Tc !! e.1 = T !! e.1) final;
  ck_below id : Tc !! id <> None -> (id < bound)%N;
  ck_births : Forall (fun b => Forall (fun e => (b < e.1)%N) final) births;
  ck_counts : counts_life Tc c
}.

Lemma checking_step Tc id r final births births' c c' : checking Tc ((id, r) :: final) births c ->
  (births' = births \/ births' = births ++ [id]) -> counts_life (put_life Tc r) c' -> checking (put_life Tc r) final births' c'.
Proof.
  intros [Hr Hk Hs Hb Hbi _] Hbs Hc. apply Forall_cons in Hr as [[Hid Hlt] Hr], Hs as [_ Hs]. cbn [fst snd] in *. rewrite fmap_cons in Hk. apply StronglySorted_inv in Hk as [Hk Hkx].
  rewrite Forall_fmap in Hkx. split; [done|done| | | |done].
  - apply Forall_forall. intros [i x] Hin. rewrite Forall_forall in Hs, Hkx. specialize (Hs _ Hin). specialize (Hkx _ Hin). cbn in *.
    destruct r; cbn in *; try done; injection Hid as ->; [rewrite lookup_insert_ne by lia|rewrite lookup_delete_ne by lia]; done.
  - intros i Hi. destruct r; cbn in *; try done; injection Hid as ->; destruct (decide (i = id)) as [->|Hne]; try done; apply Hb;
      [rewrite lookup_insert_ne in Hi|rewrite lookup_delete_ne in Hi]; done.
  - assert (Hall : Forall (fun b => Forall (fun e => (b < e.1)%N) final) births) by (eapply Forall_impl; [exact Hbi|]; by intros b [_ ?]%Forall_cons).
    destruct Hbs as [->| ->]; [done|]. apply Forall_app. split; [done|]. by constructor.
Qed.

Lemma checking_birth Tc id r final births c : checking Tc ((id, r) :: final) births c -> bs_add births id = births ++ [id].
Proof.
  intros [_ _ _ _ Hb _]. apply bs_add_last. eapply Forall_impl; [exact Hb|]. intros b [Hlt _]%Forall_cons. by apply N.compare_lt_iff.
Qed.

Lemma sizes_fit Tc final births c : checking Tc final births c -> (N.of_nat (base.size Tc) <= bound)%N /\ (count_dirs Tc <= bound)%N.
Proof. intros Hc. pose proof (map_size_below Tc bound (ck_below _ _ _ _ Hc)). pose proof (dirs_le Tc). lia. Qed.

(** The counts of a birth, of a death, and of a row kept. *)
Lemma count_birth Tc id k final births c r : checking Tc ((id, r) :: final) births c -> life_row r = Some id -> T !! id = None ->
  counts_life (<[id := Logged k]> Tc) (add_counts c (is_dir k)).
Proof.
  intros Hc Hr Hn. pose proof (ck_same _ _ _ _ Hc) as [Hs _]%Forall_cons. cbn in Hs. rewrite Hn in Hs.
  pose proof (ck_rows _ _ _ _ Hc) as [[_ Hlt] _]%Forall_cons. cbn in Hlt.
  destruct (ck_counts _ _ _ _ Hc) as [H1 H2]. assert (Hsz : (N.of_nat (base.size (<[id := Logged k]> Tc)) <= bound)%N).
  { apply map_size_below. intros i Hi. destruct (decide (i = id)) as [->|]; [done|]. rewrite lookup_insert_ne in Hi by done. by apply (ck_below _ _ _ _ Hc). }
  pose proof (dirs_le (<[id := Logged k]> Tc)) as Hd. unfold counts_life, add_counts, add32. cbn [n_inodes n_dirs]. rewrite H1, H2.
  rewrite dirs_put, delete_id in * by done. rewrite size_put, Hs in *. cbn [life_dir] in *. unfold one_if.
  rewrite !N.mod_small; [split; [lia|done]|destruct (is_dir k); lia|lia].
Qed.

Lemma count_death Tc id final births c l : checking Tc ((id, InodeDelete id) :: final) births c -> T !! id = Some l ->
  exists n d, sub32 (n_inodes c) 1 = Some n /\ sub32 (n_dirs c) (one_if (life_dir l)) = Some d /\
    counts_life (delete id Tc) (mkCounts n (n_names c) d (n_docs c)).
Proof.
  intros Hc Hl. pose proof (ck_same _ _ _ _ Hc) as [Hs _]%Forall_cons. cbn in Hs. rewrite Hl in Hs. destruct (ck_counts _ _ _ _ Hc) as [H1 H2].
  pose proof (dirs_drop Tc id) as Hd. rewrite Hs in Hd. cbn in Hd. pose proof (size_drop Tc id) as Hz. rewrite Hs in Hz.
  assert (Hpos : 0 < base.size Tc) by (destruct (base.size Tc) eqn:E; [apply map_size_empty_inv in E; by rewrite E in Hs|lia]).
  unfold sub32, one_if. rewrite H1, H2. rewrite (proj2 (N.leb_le _ _)) by lia. rewrite (proj2 (N.leb_le _ _)) by (destruct (life_dir l); lia).
  eexists _, _. split; [done|]. split; [done|]. unfold counts_life. cbn [n_inodes n_dirs]. destruct (life_dir l); lia.
Qed.

Lemma count_kept Tc id k final births c r old : checking Tc ((id, r) :: final) births c -> T !! id = Some old -> keeps old k ->
  counts_life (<[id := Logged k]> Tc) c.
Proof.
  intros Hc Ho Hk. pose proof (ck_same _ _ _ _ Hc) as [Hs _]%Forall_cons. cbn in Hs. rewrite Ho in Hs. destruct (ck_counts _ _ _ _ Hc) as [H1 H2].
  pose proof (dirs_drop Tc id) as Hd. rewrite Hs in Hd. cbn in Hd. unfold counts_life. rewrite size_put, Hs, H1, H2, dirs_put, Hd. split; [done|].
  f_equal. cbn. unfold is_dir. destruct old as [| |k0]; cbn in *; [subst k; by rewrite bool_decide_true|by rewrite bool_decide_false|by subst k0].
Qed.

Lemma life_loop_spec final Tc births c : checking Tc final births c ->
  exists r, life_loop base p used final births c = Some r /\
    match r with
    | Ok (bs, c') => Forall (life_legal T used) final.*2 /\ bs = births ++ filter (N.le used) final.*1 /\
        counts_life (foldl put_life Tc final.*2) c' /\ n_names c' = n_names c /\ n_docs c' = n_docs c
    | Err _ => ~ Forall (life_legal T used) final.*2
    end.
Proof.
  revert Tc births c. induction final as [|[id r] final IH]; intros Tc births c Hc; cbn [life_loop].
  { eexists. split; [done|]. cbn. rewrite app_nil_r. split_and!; try done. apply Hc. }
  pose proof (ck_rows _ _ _ _ Hc) as [[Hid Hlt] _]%Forall_cons. cbn [fst snd] in Hid, Hlt.
  assert (Hu32 : u32_ok id) by (unfold u32_ok; lia). rewrite (projection_get_spec p last H LIFE id Hp) by (try done; apply Nat.ltb_lt; done).
  cbn [mbind option_bind]. pose proof (pj_history _ _ _ Hp) as Hh. pose proof (lives_row H used T id HT Hh Hu32) as Hrow. rewrite !fmap_cons. cbn [fst snd foldl].
  assert (Hnone : (used <= id)%N -> T !! id = None /\ newest_row H (row_key LIFE id) = None).
  { intros Hge. split; [destruct (T !! id) eqn:E|destruct (newest_row H _) eqn:E]; try done; exfalso;
      [assert (id < used)%N by (apply (lv_below _ _ _ HT); by rewrite E)|assert (id < used)%N by (apply (lv_rows _ _ _ HT); [done|by rewrite E])]; lia. }
  (* Each way on. *)
  assert (Hgo : forall births' c' old, (used <=? id)%N = old -> life_legal T used r -> (births' = if old then births ++ [id] else births) ->
    counts_life (put_life Tc r) c' -> n_names c' = n_names c -> n_docs c' = n_docs c ->
    exists res, life_loop base p used final births' c' = Some res /\
      match res with
      | Ok (bs, c'') => Forall (life_legal T used) (r :: final.*2) /\ bs = births ++ filter (N.le used) (id :: final.*1) /\
          counts_life (foldl put_life (put_life Tc r) final.*2) c'' /\ n_names c'' = n_names c /\ n_docs c'' = n_docs c
      | Err _ => ~ Forall (life_legal T used) (r :: final.*2)
      end).
  { intros births' c' old Hold Hlegal Hb Hcn Hnm Hdc. destruct (IH (put_life Tc r) births' c') as (res & Hres & Hr).
    { eapply checking_step; [exact Hc| |exact Hcn]. destruct old; [by right|by left]. }
    exists res. split; [done|]. destruct res as [[bs c'']|e]; [|intros [_ ?]%Forall_cons; by apply Hr].
    destruct Hr as (H1 & H2 & H3 & H4 & H5). split; [by constructor|]. split; [|split; [done|split; congruence]]. rewrite H2, Hb, filter_cons.
    destruct old; [apply N.leb_le in Hold; rewrite decide_True by done; by rewrite <- app_assoc|apply N.leb_gt in Hold; rewrite decide_False by lia; done]. }
  destruct r; try done; injection Hid as ->.
  - destruct (N.leb_spec used id) as [Hge|Hlt'].
    + destruct (Hnone Hge) as [Hn Hnr]. rewrite Hnr. cbn [is_deleted]. apply (Hgo _ _ true); [done|by left|by eapply checking_birth| |done|done].
      by eapply count_birth.
    + specialize (Hrow Hlt').
      assert (Hkept : forall old, T !! id = Some old -> keeps old k -> counts_life (<[id := Logged k]> Tc) c) by (intros; by eapply count_kept).
      destruct (newest_row H (row_key LIFE id)) as [[]|] eqn:En; try done; cbn [is_deleted].
      * case_bool_decide as Hk; [eexists; split; [done|]; intros [[?|(old & Ho & Hko)] _]%Forall_cons; [lia|]; rewrite Hrow in Ho; injection Ho as <-; by apply Hk|].
        apply (Hgo _ _ false); [done|right; by eexists|done|by apply (Hkept (Logged k0))|done|done].
      * eexists. split; [done|]. intros [[?|(old & Ho & _)] _]%Forall_cons; [lia|congruence].
      * destruct (eqb _ _) eqn:Eb; cbn [negb].
        -- apply eqb_prop in Eb. assert (Hk : keeps (if (id <? base_dir_count base)%N then BaseDir else BaseOther) k).
           { unfold is_dir in Eb. rewrite Eb. case_bool_decide; done. }
           apply (Hgo _ _ false); [done|right; by eexists|done|by eapply Hkept|done|done].
        -- eexists. split; [done|]. intros [[?|(old & Ho & Hko)] _]%Forall_cons; [lia|]. rewrite Hrow in Ho. injection Ho as <-. apply eqb_false_iff in Eb.
           apply Eb. unfold is_dir. destruct (id <? base_dir_count base)%N; cbn in Hko; case_bool_decide; done.
  - destruct (N.leb_spec used id) as [Hge|Hlt']; cbn [orb].
    { eexists. split; [done|]. intros [Hl _]%Forall_cons. cbn in Hl. by destruct (Hnone Hge). }
    specialize (Hrow Hlt').
    destruct (T !! id) as [l|] eqn:El.
    + assert (Hdir : is_deleted (newest_row H (row_key LIFE id)) = false /\
        match newest_row H (row_key LIFE id) with Some (LifePut _ k _ _) => is_dir k | _ => (id <? base_dir_count base)%N end = life_dir l).
      { destruct (newest_row H _) as [[]|]; try done; injection Hrow as ->; [done|]. by destruct (id <? base_dir_count base)%N. }
      destruct Hdir as [-> ->]. destruct (count_death Tc id final births c l Hc El) as (n & d & -> & -> & Hcn).
      apply (Hgo _ _ false); [done|cbn; by rewrite El|done|done|done|done].
    + destruct (newest_row H _) as [[]|]; try done. cbn [is_deleted]. eexists. split; [done|]. intros [Hl _]%Forall_cons. cbn in Hl. by rewrite El in Hl.
Qed.
End check.

Lemma check_births_spec births start stop label : (start <= stop)%N -> u32_ok stop ->
  check_births births start stop label = Some (if decide (births = ids_from start stop) then Ok tt else Err (obad label)).
Proof.
  intros Hle Hs. unfold check_births. assert (Hm : ((stop + 2 ^ 32 - start) mod 2 ^ 32 = stop - start)%N).
  { replace (stop + 2 ^ 32 - start)%N with (stop - start + 1 * 2 ^ 32)%N by lia. rewrite N.Div0.mod_add. apply N.mod_small. unfold u32_ok in Hs. lia. }
  rewrite Hm. destruct (decide (births = ids_from start stop)) as [->|Hne].
  - unfold ids_from at 1. rewrite length_fmap, length_seq, N2Nat.id, N.eqb_refl, bool_decide_false by (by intros Hn; apply Hn). done.
  - rewrite (bool_decide_true (births <> _)) by done. by rewrite orb_true_r.
Qed.

Lemma elem_of_ids_from start stop id : id ∈ ids_from start stop <-> (start <= id < stop)%N.
Proof.
  unfold ids_from. rewrite list_elem_of_fmap. setoid_rewrite elem_of_seq. split; [intros (k & -> & Hk); lia|]. intros Hid. exists (N.to_nat id). lia.
Qed.

(** The final rows are what the records come to. *)
Lemma after_life_final T rs : after_life T (bt_rows life_row rs).*2 = after_life T rs.
Proof. apply map_eq. intros id. by rewrite !after_life_lookup, bt_rows_last. Qed.

Section transaction.
Context (p : Projection) (last : u64) (H : list Record_) (T : gmap N Life) (before next : Counters) (rs : list Record_).
Context (Hp : projection_ok p last H) (HT : lives H (inodes before) T).
Context (Hle : (inodes before <= inodes next)%N) (Hnext : u32_ok (inodes next)) (Hrs : Forall row_ok rs).
Context (Hlimit : Forall (fun r => forall id, life_row r = Some id -> (id < inodes next)%N) rs).

Lemma check_inodes_spec c : counts_life T c -> exists r, check_inodes base p rs before next c = Some r /\
  match r with
  | Ok c' => legal_inodes T (inodes before) (inodes next) rs /\ counts_life (after_life T rs) c' /\ n_names c' = n_names c /\ n_docs c' = n_docs c
  | Err _ => ~ legal_inodes T (inodes before) (inodes next) rs
  end.
Proof.
  intros Hc. unfold check_inodes. change (final_life rs) with (bt_rows life_row rs). rewrite Forall_forall in Hlimit.
  destruct (life_loop_spec p last H (inodes before) T Hp HT (inodes next) Hnext (bt_rows life_row rs) T [] c) as (r & -> & Hr).
  { split; [| |by apply Forall_forall| |constructor|done].
    - apply Forall_forall. intros [id r] [Hid Hin]%bt_rows_elem. cbn. split; [done|]. by apply (Hlimit r).
    - apply N_ascending_bs. pose proof (bt_rows_ok life_row rs) as Hok. unfold bt_ok in Hok. unfold bs_ok. clear -Hok.
      induction Hok as [|e l _ IH He]; [constructor|]. rewrite fmap_cons. constructor; [done|]. by apply Forall_fmap.
    - intros id Hid. pose proof (lv_below _ _ _ HT id Hid). lia. }
  destruct r as [[bs c']|e]; cbn [oe_bind].
  - destruct Hr as (H1 & -> & H3 & H4 & H5). cbn [app]. rewrite check_births_spec by done. destruct (decide _) as [Hb|Hb]; cbn [oe_bind].
    + eexists. split; [done|]. split; [by split|]. split; [|done]. fold (after_life T (bt_rows life_row rs).*2) in H3. by rewrite after_life_final in H3.
    + eexists. split; [done|]. by intros [_ ?].
  - eexists. split; [done|]. intros [? _]. by apply Hr.
Qed.

Lemma lives_step : legal_inodes T (inodes before) (inodes next) rs -> lives (H ++ rs) (inodes next) (after_life T rs).
Proof.
  intros [Hlegal Hborn]. pose proof HT as [Hat Hbelow Hrows Halloc Hbase Hused].
  assert (Hlast : forall id r, list.last (filter (of_row life_row id) rs) = Some r -> r ∈ rs /\ life_row r = Some id /\ life_legal T (inodes before) r).
  { intros id r Hr. rewrite <- bt_rows_get in Hr. pose proof (bt_rows_row life_row rs id r Hr) as [H1 H2]. split_and!; [done..|].
    rewrite Forall_forall in Hlegal. apply Hlegal, list_elem_of_fmap. exists (id, r). split; [done|]. apply bt_get_elem; [apply bt_rows_ok|done]. }
  assert (Hlim : forall id r, list.last (filter (of_row life_row id) rs) = Some r -> (id < inodes next)%N).
  { intros id r Hr. destruct (Hlast id r Hr) as (Hin & Hid & _). rewrite Forall_forall in Hlimit. by apply (Hlimit r). }
  split; [| | | |lia|done].
  - intros id Hid. rewrite after_life_lookup. unfold life_at. rewrite newest_row_app, (newest_life rs id Hrs Hid).
    destruct (list.last (filter (of_row life_row id) rs)) as [r|] eqn:Er; [|by apply Hat].
    destruct (Hlast id r Er) as (_ & Hlr & _). by destruct r.
  - intros id. rewrite after_life_lookup. destruct (list.last (filter (of_row life_row id) rs)) as [r|] eqn:Er; [intros _; by eapply Hlim|].
    intros Hid. specialize (Hbelow id Hid). lia.
  - intros id Hid. rewrite newest_row_app, (newest_life rs id Hrs Hid). destruct (list.last (filter _ rs)) as [r|] eqn:Er; [intros _; by eapply Hlim|].
    intros Hn. specialize (Hrows id Hid Hn). lia.
  - intros id [H1 H2]. assert (Hid : u32_ok id) by (unfold u32_ok in *; lia). rewrite newest_row_app, (newest_life rs id Hrs Hid).
    destruct (list.last (filter _ rs)) as [r|] eqn:Er; [done|]. destruct (N.lt_ge_cases id (inodes before)) as [Hlt|Hge]; [by apply Halloc|].
    exfalso. assert (Hin : id ∈ ids_from (inodes before) (inodes next)) by (by apply elem_of_ids_from). rewrite <- Hborn in Hin.
    apply list_elem_of_filter in Hin as [_ Hin]. apply bt_rows_key in Hin. by rewrite bt_rows_get, Er in Hin.
Qed.
End transaction.
End lives.
