(* ===== verification/OverlayDocs.v ===== *)
(** * OverlayDocs: the lifetimes of documents

    The checks of a transaction's documents ([check_docs]) and of the
    permissions it retains ([advance_dormant]), specified: a table of live
    documents and one of retained identities, the change each record makes to
    them, and which changes are legal.  Both checks together accept exactly
    the legal transactions, count the live documents, and carry a retained
    state that is the inverse of the second table. *)
From S2P Require Import Prelude Word Bytes DocSet Trigrams LogRecords BTree Runs Dormant Generation LogFrames Projection Overlay OverlayLife.
#[local] Open Scope ferret_scope.

(** ** The tables *)

Record Documents := mkDocuments { d_live : gmap N Hash; d_kept : gmap N Hash }.

Definition put_doc (D : Documents) (r : Record_) : Documents :=
  match r with
  | DocPut id _ hash => mkDocuments (<[id := hash]> (d_live D)) (delete id (d_kept D))
  | DocDormant id hash => mkDocuments (delete id (d_live D)) (<[id := hash]> (d_kept D))
  | DocDelete id | DocForget id => mkDocuments (delete id (d_live D)) (delete id (d_kept D))
  | _ => D
  end.
Definition after_docs (D : Documents) (rs : list Record_) : Documents := foldl put_doc D rs.

Definition doc_legal (D : Documents) (used : u32) (r : Record_) : Prop :=
  match r with
  | DocPut id _ hash => (used <= id)%N \/ match d_live D !! id with Some old => Some old | None => d_kept D !! id end = Some hash
  | DocDelete id => d_live D !! id <> None
  | DocDormant id hash => d_live D !! id = Some hash
  | DocForget id => d_kept D !! id <> None
  | _ => True
  end.

(** Retained identities: one per hash, within the cap. *)
Definition kept_ok (K : gmap N Hash) : Prop :=
  (forall i j h, K !! i = Some h -> K !! j = Some h -> i = j) /\ (N.of_nat (base.size K) <= CAP)%N.
Definition legal_docs (D : Documents) (used next : u32) (rs : list Record_) : Prop :=
  Forall (doc_legal D used) (final_docs rs).*2 /\ filter (N.le used) (final_docs rs).*1 = ids_from used next /\
  kept_ok (d_kept (after_docs D rs)).

(** What records leave of a document. *)
Definition doc_fate (r : Record_) : option Hash * option Hash :=
  match r with DocPut _ _ h => (Some h, None) | DocDormant _ h => (None, Some h) | _ => (None, None) end.

Lemma after_docs_lookup D rs id : (d_live (after_docs D rs) !! id, d_kept (after_docs D rs) !! id) =
  match list.last (filter (of_row doc_row id) rs) with Some r => doc_fate r | None => (d_live D !! id, d_kept D !! id) end.
Proof.
  unfold after_docs. induction rs as [|r rs IH] using rev_ind; [done|]. rewrite foldl_app, filter_app, filter_cons, filter_nil. cbn [foldl].
  case_decide as Hr; unfold of_row in Hr.
  - rewrite last_snoc. destruct r; try done; injection Hr as <-; cbn; by simplify_map_eq.
  - rewrite app_nil_r, <- IH. destruct r; try done; cbn in *; by rewrite ?lookup_insert_ne, ?lookup_delete_ne by congruence.
Qed.

Lemma documents_eq D D' : (forall id, (d_live D !! id, d_kept D !! id) = (d_live D' !! id, d_kept D' !! id)) -> D = D'.
Proof. intros H. destruct D, D'. f_equal; apply map_eq; intros id; by injection (H id). Qed.

Lemma after_docs_final D rs : after_docs D (final_docs rs).*2 = after_docs D rs.
Proof.
  apply documents_eq. intros id. rewrite !after_docs_lookup. change (final_docs rs) with (bt_rows doc_row rs). by rewrite (bt_rows_last doc_row).
Qed.

(** Documents' rows, by key and by id. *)
Lemma doc_key r : family r = Docs -> exists id, doc_row r = Some id /\ record_row r = (DOC, id).
Proof. destruct r; intros Hf; try done; by eexists. Qed.

Lemma doc_key_cmp i j : u32_ok i -> u32_ok j -> cmp (row_key DOC i) (row_key DOC j) = cmp i j.
Proof. intros Hi Hj. unfold cmp, N_ord. rewrite !row_key_sum by done. destruct (N.compare_spec i j); [apply N.compare_eq_iff|apply N.compare_lt_iff|apply N.compare_gt_iff]; lia. Qed.

Lemma final_keys_docs rs : Forall (fun r => family r = Docs /\ row_ok r) rs -> final_keys rs = (fun e => (row_key DOC e.1, e.2)) <$> final_docs rs.
Proof.
  unfold final_keys, final_docs.
  induction rs as [|r rs IH] using rev_ind; intros Hrs; [done|]. apply Forall_app in Hrs as [Hrs [[Hf Hr] _]%Forall_cons].
  rewrite map_app, omap_app. cbn [map omap list_omap]. destruct (doc_key r Hf) as (id & Hid & Hrow). rewrite Hid. cbn [mbind option_bind].
  rewrite !bt_collect_snoc, IH by done. cbn [fst snd]. unfold record_key. rewrite Hrow. unfold row_ok in Hr. rewrite Hrow in Hr. apply bt_insert_map.
  intros [j x] Hin. cbn. apply doc_key_cmp; [done|]. apply (bt_rows_elem doc_row) in Hin as [Hj Hx]. rewrite Forall_forall in Hrs.
  destruct (Hrs x Hx) as [Hxf Hxr]. destruct (doc_key x Hxf) as (j' & Hj' & Hxrow). unfold row_ok in Hxr. rewrite Hxrow in Hxr. cbn in Hxr. congruence.
Qed.

(** ** Retained identities by hash and by id *)

Definition inverse (m : gmap Hash DocId) (K : gmap N Hash) : Prop := forall h id, m !! h = Some id <-> K !! id = Some h.

Lemma inverse_size m K : inverse m K -> base.size m = base.size K.
Proof.
  intros Hi. rewrite <- !length_map_to_list. rewrite <- (length_fmap (fun e => (e.2, e.1)) (map_to_list m)). apply Permutation_length, NoDup_Permutation.
  - apply NoDup_fmap_2; [|apply NoDup_map_to_list]. intros [a b] [c d] [= -> ->]. done.
  - apply NoDup_map_to_list.
  - intros [id h]. rewrite elem_of_map_to_list, <- (Hi h id), list_elem_of_fmap. split.
    + intros ([h' id'] & [= -> ->] & Hin). by apply elem_of_map_to_list.
    + intros Hm. exists (h, id). split; [done|]. by apply elem_of_map_to_list.
Qed.

(** What a transaction removes of the retained identities, and adds. *)
Section permissions.
Context (m : gmap Hash DocId) (K : gmap N Hash) (Hinv : inverse m K) (final : list (DocId * Record_)) (Hkeys : NoDup final.*1).

Definition removed_of : list (DocId * Hash) := omap (fun e => h ← K !! e.1; Some (e.1, h)) final.
Definition added_of : list (DocId * Hash) := omap (fun e => match e.2 with DocDormant _ h => Some (e.1, h) | _ => None end) final.

Lemma elem_of_removed id h : (id, h) ∈ removed_of <-> id ∈ final.*1 /\ K !! id = Some h.
Proof.
  unfold removed_of. rewrite list_elem_of_omap, list_elem_of_fmap. split.
  - intros ([i r] & Hin & Hk). cbn in Hk. destruct (K !! i) eqn:E; [|done]. injection Hk as -> ->. split; [|done]. by exists (id, r).
  - intros [([i r] & -> & Hin) Hk]. exists (i, r). split; [done|]. cbn in *. by rewrite Hk.
Qed.

Lemma elem_of_added id h : (id, h) ∈ added_of <-> exists i, (id, DocDormant i h) ∈ final.
Proof.
  unfold added_of. rewrite list_elem_of_omap. split.
  - intros ([i r] & Hin & Hk). cbn in Hk. destruct r; try done. injection Hk as -> ->. by eexists.
  - intros (i & Hin). by exists (id, DocDormant i h).
Qed.

Lemma omap_keys (f : DocId * Record_ -> option (DocId * Hash)) : (forall e x, f e = Some x -> x.1 = e.1) -> NoDup (omap f final).*1.
Proof.
  intros Hf. clear Hinv. induction final as [|e l IH]; [constructor|]. rewrite fmap_cons in Hkeys. apply NoDup_cons in Hkeys as [Hn Hl]. cbn [omap list_omap].
  destruct (f e) as [x|] eqn:E; [|by apply IH]. rewrite fmap_cons. constructor; [|by apply IH]. rewrite (Hf e x E).
  intros ([i h] & Hi & (e' & He' & Hfe)%list_elem_of_omap)%list_elem_of_fmap. apply Hn. rewrite Hi. rewrite (Hf e' _ Hfe). by apply list_elem_of_fmap_2.
Qed.

Lemma removed_keys : NoDup removed_of.*1.
Proof. apply omap_keys. intros e x He. destruct (K !! e.1); [|done]. by injection He as <-. Qed.
Lemma added_keys : NoDup added_of.*1.
Proof. apply omap_keys. intros e x He. destruct e.2; try done. by injection He as <-. Qed.

Lemma hashes_once (l : list (DocId * Hash)) : NoDup l.*1 -> (forall i j h, (i, h) ∈ l -> (j, h) ∈ l -> i = j) -> NoDup l.*2.
Proof.
  intros Hk Hi. induction l as [|[i h] l IH]; [constructor|]. rewrite fmap_cons in *. apply NoDup_cons in Hk as [Hn Hl]. constructor.
  - intros ([j h'] & Hh & Hin)%list_elem_of_fmap. cbn in *. subst h'. apply Hn. rewrite (Hi i j h); [by apply (list_elem_of_fmap_2 fst) in Hin|by left|by right].
  - apply IH; [done|]. intros a b x Ha Hb. eapply Hi; by right.
Qed.

Lemma removed_hashes : NoDup removed_of.*2.
Proof. apply hashes_once; [apply removed_keys|]. intros i j h [_ Hi]%elem_of_removed [_ Hj]%elem_of_removed. apply Hinv in Hi, Hj. congruence. Qed.

(** The table after: the last word on each document, and the rest of [K]. *)
Context (K' : gmap N Hash) (HK' : forall id h, K' !! id = Some h <-> (id, h) ∈ added_of \/ K !! id = Some h /\ id ∉ final.*1).

Lemma added_key id h : (id, h) ∈ added_of -> id ∈ final.*1.
Proof. intros (i & Hin)%elem_of_added. by apply (list_elem_of_fmap_2 fst) in Hin. Qed.

Lemma legal_injective : legal m removed_of added_of <-> forall i j h, K' !! i = Some h -> K' !! j = Some h -> i = j.
Proof.
  assert (Hinj : forall i j h, K !! i = Some h -> K !! j = Some h -> i = j) by (intros i j h Hi Hj; apply Hinv in Hi, Hj; congruence).
  split.
  - intros (_ & Hd & Hfree). rewrite Forall_forall in Hfree. assert (Hmix : forall i j h, (i, h) ∈ added_of -> K !! j = Some h -> j ∉ final.*1 -> False).
    { intros i j h Hi Hj Hn. destruct (Hfree _ Hi) as [Hr|Hm]; cbn in *; [|apply Hinv in Hj; congruence].
      apply list_elem_of_fmap in Hr as ([j' h'] & -> & Hr). apply elem_of_removed in Hr as [Hin Hj']. by rewrite (Hinj _ _ _ Hj Hj') in Hn. }
    intros i j h [Hi|[Hi Hni]]%HK' [Hj|[Hj Hnj]]%HK'; [|by destruct (Hmix i j h)|by destruct (Hmix j i h)|by eapply Hinj].
    apply list_elem_of_lookup in Hi as [a Ha], Hj as [b Hb]. assert (a = b) as ->.
    { apply (NoDup_lookup _ _ _ h Hd); rewrite list_lookup_fmap; [by rewrite Ha|by rewrite Hb]. } rewrite Ha in Hb. by injection Hb.
  - intros Hi. split_and!.
    + apply Forall_forall. intros [id h] [_ Hk]%elem_of_removed. by apply Hinv.
    + apply hashes_once; [apply added_keys|]. intros i j h Ha Hb. apply (Hi i j h); apply HK'; by left.
    + apply Forall_forall. intros [i h] Ha. cbn. destruct (m !! h) as [j|] eqn:Em; [|by right]. left. apply Hinv in Em.
      destruct (decide (j ∈ final.*1)) as [Hj|Hj].
      * apply list_elem_of_fmap. exists (j, h). split; [done|]. by apply elem_of_removed.
      * exfalso. apply Hj. rewrite (Hi j i h); [by eapply added_key|apply HK'; by right|apply HK'; by left].
Qed.

Lemma after_inverse : legal m removed_of added_of -> inverse (after m removed_of added_of) K'.
Proof.
  intros Hl h id. pose proof Hl as (_ & Hd & _). unfold after. rewrite lookup_union_Some_raw, (table_lookup added_of h id Hd), lookup_difference_Some, table_none, table_none, HK', (Hinv h id).
  split.
  - intros [Ha|(_ & Hk & Hn)]; [by left|]. right. split; [done|]. intros Hin. apply Hn, list_elem_of_fmap. exists (id, h). split; [done|]. by apply elem_of_removed.
  - intros [Ha|[Hk Hn]]; [by left|]. right. split_and!; [|done|].
    + intros ([j h'] & -> & Ha)%list_elem_of_fmap. cbn in *. apply Hn. assert (Hi : K' !! j = Some h') by (apply HK'; by left).
      assert (Hk' : K' !! id = Some h') by (apply HK'; by right). rewrite (proj1 legal_injective Hl _ _ _ Hk' Hi). by eapply added_key.
    + intros ([j h'] & -> & [Hin Hj]%elem_of_removed)%list_elem_of_fmap. cbn in *. apply Hn. apply Hinv in Hk, Hj. by replace id with j by congruence.
Qed.
End permissions.

(** ** The tables of a projection *)

Section documents.
Context (base : Base).

(** What the records of a history and the checkpoint say of a document. *)
Definition docs_at (H : list Record_) (id : u32) : option Hash * option Hash :=
  match newest_row H (row_key DOC id) with Some r => doc_fate r | None => (base_doc_hash base id, base_dormant_hash base id) end.

Record documents (H : list Record_) (used : u32) (D : Documents) : Prop := {
  dc_at id : u32_ok id -> (d_live D !! id, d_kept D !! id) = docs_at H id;
  dc_below id : d_live D !! id <> None \/ d_kept D !! id <> None -> (id < used)%N;
  dc_apart id : d_live D !! id <> None -> d_kept D !! id = None;
  dc_used : u32_ok used
}.

Lemma doc_row_key r id : row_ok r -> u32_ok id -> record_key r = row_key DOC id <-> doc_row r = Some id.
Proof.
  intros Hr Hid. rewrite record_key_row. split.
  - intros Hk. apply row_key_inj in Hk as [H1 H2]; [|done|done]. by destruct r; cbn in *; simplify_eq.
  - intros Hl. by destruct r; cbn in *; simplify_eq.
Qed.

Lemma newest_doc rs id : Forall row_ok rs -> u32_ok id -> newest_row rs (row_key DOC id) = list.last (filter (of_row doc_row id) rs).
Proof.
  intros Hrs Hid. unfold newest_row. f_equal. induction Hrs as [|r rs Hr _ IH]; [done|]. rewrite !filter_cons, IH.
  pose proof (doc_row_key r id Hr Hid). repeat case_decide; unfold of_row in *; tauto.
Qed.

Lemma newest_doc_row H id r : Forall row_ok H -> u32_ok id -> newest_row H (row_key DOC id) = Some r -> doc_row r = Some id.
Proof. intros Hh Hid Hr. rewrite newest_doc in Hr by done. apply last_Some_elem_of in Hr. by apply list_elem_of_filter in Hr as [Hr _]. Qed.

Section check.
Context (p : Projection) (last : u64) (H : list Record_) (used : u32) (D : Documents).
Context (Hp : projection_ok p last H) (HD : documents H used D) (bound : u32) (Hbound : (bound < 2 ^ 32)%N).

Lemma doc_state_spec id : u32_ok id -> doc_state base p id = Some (d_live D !! id, d_kept D !! id).
Proof.
  intros Hid. unfold doc_state. rewrite (projection_get_spec p last H DOC id Hp) by (try done; apply Nat.ltb_lt; done). cbn [mbind option_bind].
  rewrite (dc_at _ _ _ HD id Hid). unfold docs_at. destruct (newest_row H (row_key DOC id)) as [r|]; [|done]. by destruct r.
Qed.

(** The tables and the count while the rows of a transaction are checked. *)
Record tallying (Dc : Documents) (final : list (u32 * Record_)) (births : list u32) (c : Counts) : Prop := {
  ta_rows : Forall (fun e => doc_row e.2 = Some e.1 /\ (e.1 < bound)%N) final;
  ta_keys : StronglySorted N.lt final.*1;
  ta_same : Forall (fun e => d_live Dc !! e.1 = d_live D !! e.1) final;
  ta_below id : d_live Dc !! id <> None -> (id < bound)%N;
  ta_births : Forall (fun b => Forall (fun e => (b < e.1)%N) final) births;
  ta_count : n_docs c = N.of_nat (base.size (d_live Dc))
}.

Lemma tallying_step Dc id r final births births' c c' : tallying Dc ((id, r) :: final) births c ->
  (births' = births \/ births' = births ++ [id]) -> n_docs c' = N.of_nat (base.size (d_live (put_doc Dc r))) ->
  tallying (put_doc Dc r) final births' c'.
Proof.
  intros [Hr Hk Hs Hb Hbi _] Hbs Hc. apply Forall_cons in Hr as [[Hid Hlt] Hr], Hs as [_ Hs]. cbn [fst snd] in *. rewrite fmap_cons in Hk. apply StronglySorted_inv in Hk as [Hk Hkx].
  rewrite Forall_fmap in Hkx. split; [done|done| | | |done].
  - apply Forall_forall. intros [i x] Hin. rewrite Forall_forall in Hs, Hkx. specialize (Hs _ Hin). specialize (Hkx _ Hin). cbn in *.
    destruct r; cbn in *; try done; injection Hid as ->; rewrite ?lookup_insert_ne, ?lookup_delete_ne by lia; done.
  - intros i Hi. destruct r; cbn in *; try done; injection Hid as ->; destruct (decide (i = id)) as [->|Hne]; try done; apply Hb;
      rewrite ?lookup_insert_ne, ?lookup_delete_ne in Hi by done; done.
  - assert (Hall : Forall (fun b => Forall (fun e => (b < e.1)%N) final) births) by (eapply Forall_impl; [exact Hbi|]; by intros b [_ ?]%Forall_cons).
    destruct Hbs as [->| ->]; [done|]. apply Forall_app. split; [done|]. by constructor.
Qed.

Lemma tallying_birth Dc id r final births c : tallying Dc ((id, r) :: final) births c -> bs_add births id = births ++ [id].
Proof.
  intros [_ _ _ _ Hb _]. apply bs_add_last. eapply Forall_impl; [exact Hb|]. intros b [Hlt _]%Forall_cons. by apply N.compare_lt_iff.
Qed.

(** The count of a document put, and of one that dies. *)
Lemma tally_put Dc id n h final births c : tallying Dc ((id, DocPut id n h) :: final) births c ->
  add32 (n_docs c) (one_if (bool_decide (d_live D !! id = None))) = N.of_nat (base.size (<[id := h]> (d_live Dc))).
Proof.
  intros Ht. pose proof (ta_same _ _ _ _ Ht) as [Hs _]%Forall_cons. pose proof (ta_rows _ _ _ _ Ht) as [[_ Hlt] _]%Forall_cons. cbn in Hs, Hlt.
  assert (Hsz : (N.of_nat (base.size (<[id := h]> (d_live Dc))) <= bound)%N).
  { apply map_size_below. intros i Hi. destruct (decide (i = id)) as [->|]; [done|]. rewrite lookup_insert_ne in Hi by done. by apply (ta_below _ _ _ _ Ht). }
  unfold add32. rewrite (ta_count _ _ _ _ Ht), <- Hs. rewrite size_put in *. destruct (d_live Dc !! id); cbn [one_if].
  - rewrite bool_decide_false by done. cbn [one_if]. rewrite N.mod_small; lia.
  - rewrite bool_decide_true by done. cbn [one_if]. rewrite N.mod_small; lia.
Qed.

Lemma tally_death Dc id r final births c h : tallying Dc ((id, r) :: final) births c -> d_live D !! id = Some h ->
  sub32 (n_docs c) 1 = Some (N.of_nat (base.size (delete id (d_live Dc)))).
Proof.
  intros Ht Hl. pose proof (ta_same _ _ _ _ Ht) as [Hs _]%Forall_cons. cbn in Hs. rewrite Hl in Hs. unfold sub32. rewrite (ta_count _ _ _ _ Ht).
  pose proof (size_drop (d_live Dc) id) as Hz. rewrite Hs in Hz.
  assert (Hpos : 0 < base.size (d_live Dc)) by (destruct (base.size (d_live Dc)) eqn:E; [apply map_size_empty_inv in E; by rewrite E in Hs|lia]).
  rewrite (proj2 (N.leb_le _ _)) by lia. f_equal. lia.
Qed.

Lemma docs_loop_spec final Dc births c : tallying Dc final births c ->
  exists r, docs_loop base p used ((fun e => (row_key DOC e.1, e.2)) <$> final) births c = Some r /\
    match r with
    | Ok (bs, c') => Forall (doc_legal D used) final.*2 /\ bs = births ++ filter (N.le used) final.*1 /\
        n_docs c' = N.of_nat (base.size (d_live (foldl put_doc Dc final.*2))) /\ c' = set_docs c (n_docs c')
    | Err _ => ~ Forall (doc_legal D used) final.*2
    end.
Proof.
  revert Dc births c. induction final as [|[id r] final IH]; intros Dc births c Hc; rewrite ?fmap_cons; cbn [docs_loop fst snd].
  { eexists. split; [done|]. cbn. rewrite app_nil_r. split_and!; try done; [apply Hc|by destruct c]. }
  pose proof (ta_rows _ _ _ _ Hc) as [[Hid Hlt] _]%Forall_cons. cbn [fst snd] in Hid, Hlt.
  assert (Hu32 : u32_ok id) by (unfold u32_ok; lia). pose proof (doc_state_spec id Hu32) as Hst. cbn [foldl].
  assert (Hbelow : d_live D !! id <> None \/ d_kept D !! id <> None -> (id < used)%N) by apply (dc_below _ _ _ HD).
  assert (Hgo : forall births' n old, (used <=? id)%N = old -> doc_legal D used r -> (births' = if old then births ++ [id] else births) ->
    n = N.of_nat (base.size (d_live (put_doc Dc r))) ->
    exists res, docs_loop base p used ((fun e => (row_key DOC e.1, e.2)) <$> final) births' (set_docs c n) = Some res /\
      match res with
      | Ok (bs, c'') => Forall (doc_legal D used) (r :: final.*2) /\ bs = births ++ filter (N.le used) (id :: final.*1) /\
          n_docs c'' = N.of_nat (base.size (d_live (foldl put_doc (put_doc Dc r) final.*2))) /\ c'' = set_docs c (n_docs c'')
      | Err _ => ~ Forall (doc_legal D used) (r :: final.*2)
      end).
  { intros births' n old Hold Hlegal Hb Hn. destruct (IH (put_doc Dc r) births' (set_docs c n)) as (res & Hres & Hr).
    { eapply tallying_step; [exact Hc| |exact Hn]. destruct old; [by right|by left]. }
    exists res. split; [done|]. destruct res as [[bs c'']|e]; [|intros [_ ?]%Forall_cons; by apply Hr].
    destruct Hr as (H1 & H2 & H3 & H4). split; [by constructor|]. split; [|by split]. rewrite H2, Hb, filter_cons.
    destruct old; [apply N.leb_le in Hold; rewrite decide_True by done; by rewrite <- app_assoc|apply N.leb_gt in Hold; rewrite decide_False by lia; done]. }
  destruct r; try done; injection Hid as ->; rewrite Hst; cbn [mbind option_bind].
  - pose proof (tally_put Dc id references hash final births c Hc) as Hput. destruct (N.leb_spec used id) as [Hge|Hlt'].
    + apply (Hgo _ _ true); [done|by left|by eapply tallying_birth|]. cbn [put_doc d_live]. rewrite <- Hput. f_equal.
      destruct (d_live D !! id) eqn:E; [|done]. assert (id < used)%N by (apply Hbelow; by left). lia.
    + destruct (match d_live D !! id with Some h => Some h | None => d_kept D !! id end) as [old|] eqn:Eo.
      * destruct (decide (old = hash)) as [->|Hh].
        -- rewrite (bool_decide_false (hash <> hash)) by (by intros Hn; apply Hn). apply (Hgo _ _ false); [done|by right|done|exact Hput].
        -- rewrite (bool_decide_true (old <> hash)) by done. eexists. split; [done|]. intros [[?|Ho] _]%Forall_cons; [lia|]. rewrite Eo in Ho. by injection Ho.
      * eexists. split; [done|]. intros [[?|Ho] _]%Forall_cons; [lia|]. by rewrite Eo in Ho.
  - destruct (d_live D !! id) as [h|] eqn:El; [|eexists; split; [done|]; intros [Hl _]%Forall_cons; cbn in Hl; by rewrite El in Hl].
    rewrite (tally_death Dc id _ final births c h Hc El).
    assert (Hu : (id < used)%N) by (apply Hbelow; by left). apply (Hgo _ _ false); [by apply N.leb_gt|cbn; by rewrite El|done|done].
  - destruct (d_live D !! id) as [h|] eqn:El; [|eexists; split; [done|]; intros [Hl _]%Forall_cons; cbn in Hl; by rewrite El in Hl].
    case_bool_decide as Hh; [eexists; split; [done|]; intros [Hl _]%Forall_cons; cbn in Hl; rewrite El in Hl; injection Hl as ->; by apply Hh|].
    rewrite (tally_death Dc id _ final births c h Hc El).
    assert (Hu : (id < used)%N) by (apply Hbelow; by left). apply (Hgo _ _ false); [by apply N.leb_gt|cbn; by rewrite El, Hh|done|done].
  - case_bool_decide as Hk; [eexists; split; [done|]; intros [Hl _]%Forall_cons; by apply Hl|].
    assert (Hu : (id < used)%N) by (apply Hbelow; by right). destruct (Hgo births (n_docs c) false) as (res & Hres & Hr); [by apply N.leb_gt|done|done| |].
    + cbn [put_doc d_live]. rewrite (ta_count _ _ _ _ Hc), delete_id; [done|]. pose proof (ta_same _ _ _ _ Hc) as [Hs _]%Forall_cons. cbn in Hs. rewrite Hs.
      destruct (d_live D !! id) eqn:E; [|done]. by rewrite (dc_apart _ _ _ HD id) in Hk by (by rewrite E).
    + replace (set_docs c (n_docs c)) with c in Hres by (by destruct c). by exists res.
Qed.
End check.

Section transaction.
Context (p : Projection) (last : u64) (H : list Record_) (D : Documents) (before next : Counters) (rs : list Record_) (seq : u64).
Context (Hp : projection_ok p last H) (HD : documents H (docs before) D) (Hload : forall ss, load_sections base ss = Ok tt).
Context (Hle : (docs before <= docs next)%N) (Hnext : u32_ok (docs next)) (Hrs : Forall (fun r => family r = Docs /\ row_ok r) rs).
Context (Hlimit : Forall (fun r => forall id, doc_row r = Some id -> (id < docs next)%N) rs).

(** The first two parts of what is legal are what [check_docs] checks. *)
Definition legal_rows : Prop :=
  Forall (doc_legal D (docs before)) (final_docs rs).*2 /\ filter (N.le (docs before)) (final_docs rs).*1 = ids_from (docs before) (docs next).

Lemma check_docs_spec c : n_docs c = N.of_nat (base.size (d_live D)) -> exists r, check_docs base p rs before next c = Some r /\
  match r with
  | Ok c' => legal_rows /\ c' = set_docs c (N.of_nat (base.size (d_live (after_docs D rs))))
  | Err _ => ~ legal_rows
  end.
Proof.
  intros Hc. unfold check_docs. rewrite Hload, (final_keys_docs rs Hrs). rewrite Forall_forall in Hlimit.
  destruct (docs_loop_spec p last H (docs before) D Hp HD (docs next) Hnext (final_docs rs) D [] c) as (r & -> & Hr).
  { split; [| |by apply Forall_forall| |constructor|done].
    - apply Forall_forall. intros [id r] [Hid Hin]%(bt_rows_elem doc_row). cbn. split; [done|]. by apply (Hlimit r).
    - apply N_ascending_bs. pose proof (final_docs_ok rs) as Hok. unfold bt_ok in Hok. unfold bs_ok. clear -Hok.
      induction Hok as [|e l _ IH He]; [constructor|]. rewrite fmap_cons. constructor; [done|]. by apply Forall_fmap.
    - intros id Hid. pose proof (dc_below _ _ _ HD id (or_introl Hid)). lia. }
  destruct r as [[bs c']|e]; cbn [oe_bind].
  - destruct Hr as (H1 & -> & H3 & H4). cbn [app]. rewrite check_births_spec by done. destruct (decide _) as [Hb|Hb]; cbn [oe_bind].
    + eexists. split; [done|]. split; [by split|]. rewrite H4, H3. fold (after_docs D (final_docs rs).*2). by rewrite after_docs_final.
    + eexists. split; [done|]. by intros [_ ?].
  - eexists. split; [done|]. intros [? _]. by apply Hr.
Qed.

Lemma permissions_spec final removed added : Forall (fun e => u32_ok e.1) final ->
  permissions base p final removed added = Some (removed ++ removed_of (d_kept D) final, added ++ added_of final).
Proof.
  intros Hf. revert removed added. induction Hf as [|[id r] final Hid _ IH]; intros removed added; cbn [permissions]; [by rewrite !app_nil_r|].
  cbn [fst] in Hid. rewrite (projection_get_spec p last H DOC id Hp) by (try done; apply Nat.ltb_lt; done). cbn [mbind option_bind].
  assert (Hk : match newest_row H (row_key DOC id) with Some (DocDormant _ hash) => Some hash | Some _ => None | None => base_dormant_hash base id end = d_kept D !! id).
  { pose proof (dc_at _ _ _ HD id Hid) as Hat. unfold docs_at in Hat. apply (f_equal snd) in Hat. cbn [snd] in Hat. rewrite Hat.
    by destruct (newest_row H _) as [[]|]. }
  rewrite Hk, IH. f_equal. unfold removed_of, added_of. cbn [omap list_omap fst snd]. f_equal.
  - destruct (d_kept D !! id); cbn [mbind option_bind]; [|done]. by rewrite <- app_assoc.
  - destruct r; try done. by rewrite <- app_assoc.
Qed.

(** The retained state stands for the table of retained identities. *)
Definition retained (q : Projection) (at_ : u64) (K : gmap N Hash) : Prop := exists st m, dormant q = Some st /\ state_ok st at_ m /\ inverse m K.

Lemma kept_after id h : d_kept (after_docs D rs) !! id = Some h <->
  (id, h) ∈ added_of (final_docs rs) \/ d_kept D !! id = Some h /\ id ∉ (final_docs rs).*1.
Proof.
  pose proof (after_docs_lookup D rs id) as Ha. rewrite <- (bt_rows_get doc_row) in Ha. change (bt_rows doc_row rs) with (final_docs rs) in Ha.
  assert (Hnone : bt_get id (final_docs rs) = None <-> id ∉ (final_docs rs).*1) by (rewrite final_docs_key; destruct (bt_get id _); naive_solver).
  rewrite elem_of_added. destruct (bt_get id (final_docs rs)) as [r|] eqn:Er.
  - assert (Hin : id ∈ (final_docs rs).*1) by (apply final_docs_key; by rewrite Er). apply (f_equal snd) in Ha. cbn [snd] in Ha. rewrite Ha. split.
    + intros Hf. left. destruct r as [| | | | | | | | | | | | | | |i h'|]; try done. injection Hf as ->. exists i. by apply bt_get_elem; [apply final_docs_ok|].
    + intros [(i & Hi)|[_ ?]]; [|done]. apply bt_get_elem in Hi; [|apply final_docs_ok]. rewrite Er in Hi. by injection Hi as ->.
  - apply (f_equal snd) in Ha. cbn [snd] in Ha. rewrite Ha. split; [intros Hk; right; split; [done|by apply Hnone]|]. intros [(i & Hi)|[? _]]; [|done].
    apply bt_get_elem in Hi; [|apply final_docs_ok]. by rewrite Er in Hi.
Qed.

Lemma advance_dormant_spec : (last < seq)%N -> retained p last (d_kept D) -> exists r, advance_dormant base p rs seq = Some r /\
  match r with
  | Ok q => kept_ok (d_kept (after_docs D rs)) /\ retained q seq (d_kept (after_docs D rs)) /\ p_rows q = p_rows p /\ present q = present p
  | Err _ => ~ kept_ok (d_kept (after_docs D rs))
  end.
Proof.
  intros Hq (st & m & Hst & Hok & Hinv). unfold advance_dormant. rewrite permissions_spec.
  2: { apply Forall_forall. intros [id r] [Hid Hin]%(bt_rows_elem doc_row). rewrite Forall_forall in Hlimit. specialize (Hlimit r Hin id Hid). cbn. unfold u32_ok in *. lia. }
  cbn [mbind option_bind app]. rewrite Hst. cbn [mbind option_bind]. pose proof (final_docs_keys rs) as Hkeys.
  destruct (retained_advance_spec st last m seq (removed_of (d_kept D) (final_docs rs)) (added_of (final_docs rs)) Hok Hq (removed_keys _ _ Hkeys)) as (r & -> & Hr).
  unfold lift_decode. cbn [mbind option_bind]. pose proof (legal_injective m (d_kept D) Hinv (final_docs rs) Hkeys _ kept_after) as Hleg.
  pose proof (after_inverse m (d_kept D) Hinv (final_docs rs) Hkeys _ kept_after) as Hai.
  destruct r as [st'|e]; cbn [oe_bind].
  - destruct Hr as (Hl & Hsz & Hok'). eexists. split; [done|]. split; [|split; [|done]].
    + split; [by apply Hleg|]. by rewrite <- (inverse_size _ _ (Hai Hl)).
    + exists st', (after m (removed_of (d_kept D) (final_docs rs)) (added_of (final_docs rs))). split_and!; [done|done|by apply Hai].
  - eexists. split; [done|]. intros [Hi Hsz]. apply Hr. assert (Hl : legal m (removed_of (d_kept D) (final_docs rs)) (added_of (final_docs rs))) by (by apply Hleg).
    split; [done|]. by rewrite (inverse_size _ _ (Hai Hl)).
Qed.

Lemma documents_step : legal_rows -> documents (H ++ rs) (docs next) (after_docs D rs).
Proof.
  intros _. assert (Hro : Forall row_ok rs) by (eapply Forall_impl; [exact Hrs|]; by intros r [_ ?]). pose proof HD as [Hat Hbelow Hapart Hused].
  assert (Hlim : forall id r, list.last (filter (of_row doc_row id) rs) = Some r -> (id < docs next)%N).
  { intros id r Hr%last_Some_elem_of. apply list_elem_of_filter in Hr as [Hid Hin]. rewrite Forall_forall in Hlimit. by apply (Hlimit r). }
  split; [| | |done].
  - intros id Hid. rewrite after_docs_lookup. unfold docs_at. rewrite newest_row_app, (newest_doc rs id Hro Hid).
    destruct (list.last (filter (of_row doc_row id) rs)) as [r|]; [done|]. by apply Hat.
  - intros id Hid. pose proof (after_docs_lookup D rs id) as Ha. destruct (list.last (filter (of_row doc_row id) rs)) as [r|] eqn:Er; [by eapply Hlim|].
    injection Ha as Ha1 Ha2. rewrite Ha1, Ha2 in Hid. specialize (Hbelow id Hid). lia.
  - intros id. pose proof (after_docs_lookup D rs id) as Ha. destruct (list.last (filter (of_row doc_row id) rs)) as [r|] eqn:Er.
    + destruct r; cbn in Ha; injection Ha as -> ->; done.
    + injection Ha as -> ->. apply Hapart.
Qed.
End transaction.
End documents.
