(* ===== verification/OverlaySpec.v ===== *)
(** * OverlaySpec: what an overlay promises

    Loading a family of an overlay, specified once for every family: a family
    has a table ([FamilyTable]), which a legal transaction changes and a
    manifest counts, and its loading accepts exactly the transactions that are
    legal one after another and end with the manifest's counts.  The tables of
    inode lifetimes and of documents are the two that are checked; a view
    answers from them. *)
From S2P Require Import Prelude Word Bytes DocSet Trigrams LogRecords BTree Runs Dormant Generation LogFrames Projection Overlay OverlayLife OverlayDocs.
#[local] Open Scope ferret_scope.

(** A transaction's place: its sequence and counters. *)
Abbreviation Frame := (u64 * Counters)%type (only parsing).

(** A batch of transactions, with the counts of the manifest they end in. *)
Record Batch := mkBatch { bt_txs : list Tx; bt_counts : Counts }.

Definition end_of (at_ : Frame) (txs : list Tx) : Frame := default at_ (last (map fst txs)).

Lemma end_of_cons at_ tx txs : end_of at_ (tx :: txs) = end_of tx.1 txs.
Proof. destruct txs as [|tx' txs]; [done|]. unfold end_of. cbn [map]. change (last (tx.1 :: tx'.1 :: map fst txs)) with (last (tx'.1 :: map fst txs)).
  destruct (last_is_Some (tx'.1 :: map fst txs)) as [_ Hl]. destruct Hl as [x Hx]; [done|]. by rewrite Hx. Qed.

(** The rows of a transaction are its family's, in bounds and allocated. *)
Definition tx_valid (f : Family) (tx : Tx) : Prop := Forall (valid tx.1.2 tx.1.1 f) tx.2.

Lemma valid_row_ok c q f r : counters_ok c -> valid c q f r -> row_ok r.
Proof.
  intros Hc [_ Hrow _]. assert (Hlt : forall id n, row r = Some id -> limit c r = Some n -> u32_ok n -> u32_ok id).
  { intros id n Hid Hn Hok. specialize (Hrow id n Hid Hn). unfold u32_ok in *. lia. }
  unfold counters_ok in Hc. rewrite !Forall_cons in Hc. destruct Hc as (H1 & H2 & H3 & _).
  destruct r; try (by eapply Hlt); done.
Qed.

Lemma valid_limits c q f rs : Forall (valid c q f) rs ->
  Forall (fun r => forall id, life_row r = Some id -> (id < inodes c)%N) rs /\ Forall (fun r => forall id, doc_row r = Some id -> (id < docs c)%N) rs.
Proof.
  intros Hv. split; (eapply Forall_impl; [exact Hv|]); intros r [_ Hrow _] id Hid; (apply Hrow; [|by destruct r]); destruct r; try done; by injection Hid as ->.
Qed.

(** ** Tables *)

(** One transaction of [replay_family]. *)
Definition replay_one (base : Base) (f : Family) (tx : Tx) (p : Projection) (before : Counters) (c : Counts) : outcome (Projection * Counts) :=
  replay_family base f [tx] p before c.

(** The frame of the checkpoint. *)
Definition base_frame (base : Base) : Frame := (g_sequence (l_generation (layout base)), counters (base_manifest base)).

Class FamilyTable (base : Base) (f : Family) (table : Type) := {
  ft_start : table;
  ft_legal : table -> Counters -> Counters -> list Record_ -> Prop;
  ft_after : table -> list Record_ -> table;
  ft_counts : table -> Counts -> Prop;
  ft_shows : Projection -> u64 -> list Record_ -> Counters -> table -> Prop
}.
Arguments ft_start {base} f {table _}.
Arguments ft_legal {base} f {table _}.
Arguments ft_after {base} f {table _}.
Arguments ft_counts {base} f {table _}.
Arguments ft_shows {base} f {table _}.

Class TableLaws (base : Base) (f : Family) (table : Type) `{!FamilyTable base f table} : Prop := {
  ft_init : exists p, init_dormant base f projection_default = Some (Ok p) /\ ft_shows f p (base_frame base).1 [] (base_frame base).2 (ft_start f);
  ft_base : ft_counts f (ft_start f) (counts (base_manifest base));
  ft_again p last H before T : ft_shows f p last H before T -> init_dormant base f p = Some (Ok p);
  ft_step p last H before T c q next rs : ft_shows f p last H before T -> ft_counts f T c -> follows (last, before) (q, next) -> tx_valid f (q, next, rs) ->
    exists r, replay_one base f (q, next, rs) p before c = Some r /\
      match r with
      | Ok (p', c') => ft_legal f T before next rs /\ ft_shows f p' q (H ++ rs) next (ft_after f T rs) /\ ft_counts f (ft_after f T rs) c'
      | Err _ => ~ ft_legal f T before next rs
      end;
  ft_check T c m : ft_counts f T c -> exists r, check_counts f c m = Some r /\ (r = Ok tt <-> ft_counts f T m)
}.

Section tables.
Context (base : Base) (f : Family) {table : Type} `{Htable : !FamilyTable base f table} `{Hlaws : !TableLaws base f table}.

Definition table_after (T : table) (txs : list Tx) : table := foldl (fun T tx => ft_after f T tx.2) T txs.
Fixpoint legal_txs (T : table) (before : Counters) (txs : list Tx) : Prop :=
  match txs with
  | [] => True
  | tx :: txs => ft_legal f T before tx.1.2 tx.2 /\ legal_txs (ft_after f T tx.2) tx.1.2 txs
  end.
Definition records_of (txs : list Tx) : list Record_ := concat (map snd txs).

Lemma replay_cons tx txs p before c : replay_family base f (tx :: txs) p before c =
  oe_bind (replay_one base f tx p before c) (fun pc => replay_family base f txs pc.1 tx.1.2 pc.2).
Proof.
  destruct tx as [[q next] rs]. unfold replay_one. cbn [replay_family fst snd].
  destruct (match f with Namespace => _ | _ => _ end) as [[c'|e]|]; cbn [oe_bind]; try done.
  destruct (match f with Docs => _ | _ => _ end) as [[p'|e]|]; cbn [oe_bind]; try done.
  by destruct (apply_rows p' q rs).
Qed.

(** Replaying transactions accepts those that are legal one after another. *)
Lemma replay_txs_spec txs p at_ Hs T c : ft_shows f p at_.1 Hs at_.2 T -> ft_counts f T c -> chain at_ (map fst txs) -> Forall (tx_valid f) txs ->
  exists r, replay_family base f txs p at_.2 c = Some r /\
    match r with
    | Ok (p', c') => legal_txs T at_.2 txs /\ ft_shows f p' (end_of at_ txs).1 (Hs ++ records_of txs) (end_of at_ txs).2 (table_after T txs) /\
        ft_counts f (table_after T txs) c'
    | Err _ => ~ legal_txs T at_.2 txs
    end.
Proof.
  revert p at_ Hs T c. induction txs as [|[[q next] rs] txs IH]; intros p [lst before] Hs T c Hp Hc Hch Hv.
  { exists (Ok (p, c)). split; [done|]. unfold records_of. cbn. by rewrite app_nil_r. }
  cbn [map chain fst snd] in *. destruct Hch as [Hf Hch]. apply Forall_cons in Hv as [Hv1 Hv]. rewrite replay_cons, end_of_cons. cbn [fst snd].
  destruct (ft_step p lst Hs before T c q next rs Hp Hc Hf Hv1) as (r & -> & Hr). destruct r as [[p' c']|e]; cbn [oe_bind fst snd].
  - destruct Hr as (H1 & H2 & H3). destruct (IH p' (q, next) (Hs ++ rs) _ c' H2 H3 Hch Hv) as (r & Hr & Hspec). cbn [snd] in Hr. rewrite Hr. exists r. split; [done|].
    unfold records_of in *. cbn [map concat fst snd]. rewrite app_assoc. cbn [legal_txs table_after foldl fst snd].
    destruct r as [[p2 c2]|e]; [by destruct Hspec as (? & ? & ?)|]. intros [_ Hl]. by apply Hspec.
  - eexists. split; [done|]. cbn [legal_txs fst snd]. tauto.
Qed.

Lemma load_own_spec m log delta p p0 at_ Hs T c txs : init_dormant base f p = Some (Ok p0) -> ft_shows f p0 at_.1 Hs at_.2 T -> ft_counts f T c ->
  own_transactions m log delta f = Some txs -> chain at_ (map fst txs) -> Forall (tx_valid f) txs ->
  exists r, load_own base m log delta f p at_.2 c = Some r /\
    match r with
    | Ok p' => legal_txs T at_.2 txs /\ ft_shows f p' (end_of at_ txs).1 (Hs ++ records_of txs) (end_of at_ txs).2 (table_after T txs) /\
        ft_counts f (table_after T txs) (counts m)
    | Err _ => ~ (legal_txs T at_.2 txs /\ ft_counts f (table_after T txs) (counts m))
    end.
Proof.
  intros Hi Hp Hc Ho Hch Hv. unfold load_own. rewrite Hi. cbn [oe_bind]. rewrite Ho. cbn [mbind option_bind].
  destruct (replay_txs_spec txs p0 at_ Hs T c Hp Hc Hch Hv) as (r & -> & Hr). destruct r as [[p' c']|e]; cbn [oe_bind].
  - destruct Hr as (H1 & H2 & H3). destruct (ft_check _ c' (counts m) H3) as (r & -> & Hr). destruct r as [[]|e]; cbn [oe_bind].
    + eexists. split; [done|]. split_and!; [done..|]. by apply Hr.
    + eexists. split; [done|]. intros [_ Hm]. by apply Hr in Hm.
  - eexists. split; [done|]. intros [? _]. by apply Hr.
Qed.

(** ** Overlays *)

Definition all_txs (bs : list Batch) : list Tx := concat (map bt_txs bs).
Fixpoint legal_batches (T : table) (at_ : Frame) (bs : list Batch) : Prop :=
  match bs with
  | [] => True
  | b :: bs => legal_txs T at_.2 (bt_txs b) /\ ft_counts f (table_after T (bt_txs b)) (bt_counts b) /\
      legal_batches (table_after T (bt_txs b)) (end_of at_ (bt_txs b)) bs
  end.

Lemma end_of_app at_ xs ys : end_of at_ (xs ++ ys) = end_of (end_of at_ xs) ys.
Proof. revert at_. induction xs as [|x xs IH]; intros at_; [done|]. cbn [app]. by rewrite !end_of_cons, IH. Qed.

Lemma all_txs_snoc bs b : all_txs (bs ++ [b]) = all_txs bs ++ bt_txs b.
Proof. unfold all_txs. rewrite map_app, concat_app. cbn. by rewrite app_nil_r. Qed.

Lemma table_after_app T xs ys : table_after T (xs ++ ys) = table_after (table_after T xs) ys.
Proof. apply foldl_app. Qed.

Lemma records_of_app xs ys : records_of (xs ++ ys) = records_of xs ++ records_of ys.
Proof. unfold records_of. by rewrite map_app, concat_app. Qed.

Lemma legal_batches_snoc T at_ bs b : legal_batches T at_ (bs ++ [b]) <->
  legal_batches T at_ bs /\ legal_txs (table_after T (all_txs bs)) (end_of at_ (all_txs bs)).2 (bt_txs b) /\
    ft_counts f (table_after T (all_txs (bs ++ [b]))) (bt_counts b).
Proof.
  rewrite all_txs_snoc, table_after_app. revert T at_. induction bs as [|a bs IH]; intros T at_; cbn [app legal_batches]; [cbn; tauto|].
  unfold all_txs in *. cbn [map concat]. rewrite IH, end_of_app, table_after_app. tauto.
Qed.

(** The manifest's own frame. *)
Definition frame (m : Manifest) : Frame := (g_sequence (generation m), counters m).

(** A family that is loaded: its projection shows the table. *)
Definition total (bs : list Batch) : table := table_after (ft_start f) (all_txs bs).
Record stands (o : Overlay) (bs : list Batch) : Prop := {
  st_projection : exists p, projection o f = Some p /\
    ft_shows f p (frame (o_manifest o)).1 (records_of (all_txs bs)) (frame (o_manifest o)).2 (total bs);
  st_legal : legal_batches (ft_start f) (base_frame base) bs;
  st_counts : ft_counts f (total bs) (counts (o_manifest o));
  st_manifest : frame (o_manifest o) = end_of (base_frame base) (all_txs bs)
}.

(** The transactions of a log's rows: each frame with the rows of its
    sequence, in order. *)
Definition log_txs (fs : list Frame) (rows : list (u64 * Record_)) : list Tx :=
  map (fun fr => (fr, (filter (fun row => row.1 = fr.1) rows).*2)) fs.

(** What an overlay is made of: a log that reads, and transactions on it. *)
Inductive views (checksum : bytes -> bytes) : Overlay -> list Batch -> Prop :=
| views_loaded o bs : stands o bs -> views checksum o bs
| views_log m log log' rows families ns :
    length families = 4 -> cell families f = None ->
    load_log checksum log f = Some (log', Ok tt) -> frames log' = frames log -> log_records log' f = Some rows ->
    chain (base_frame base) (frames log) -> Forall (tx_valid f) (log_txs (frames log) rows) ->
    frame m = end_of (base_frame base) (log_txs (frames log) rows) ->
    views checksum (mkOverlay m (Some log) None [] families ns) [mkBatch (log_txs (frames log) rows) (counts m)]
| views_next m q delta families ns bs :
    length families = 4 -> cell families f = None -> views checksum q bs ->
    follows (frame (o_manifest q)) (frame m) -> tx_valid f (frame m, filter (fun r => family r = f) delta) ->
    views checksum (mkOverlay m None (Some q) delta families ns) (bs ++ [mkBatch [(frame m, filter (fun r => family r = f) delta)] (counts m)]).

Lemma views_manifest checksum o bs : views checksum o bs -> frame (o_manifest o) = end_of (base_frame base) (all_txs bs).
Proof.
  intros [o' bs' Hs|m log log' rows families ns _ _ _ _ _ _ _ Hm|m q delta families ns bs' _ _ _ _ _]; [apply Hs| |].
  - unfold all_txs. cbn [map concat bt_txs]. by rewrite app_nil_r.
  - rewrite all_txs_snoc, end_of_app. done.
Qed.

Lemma group_get rows groups q : bt_ok groups -> bt_ok (fold_left group rows groups) /\
  default [] (bt_get q (fold_left group rows groups)) = default [] (bt_get q groups) ++ (filter (fun row => row.1 = q) rows).*2.
Proof.
  revert groups. induction rows as [|[q' r] rows IH]; intros groups Hg; [cbn; by rewrite app_nil_r|]. cbn [fold_left]. rewrite filter_cons. cbn [fst].
  destruct (IH (group groups (q', r))) as [H1 H2]; [by apply bt_insert_ok|]. split; [done|]. rewrite H2. unfold group. cbn [fst snd]. rewrite bt_get_insert by done.
  pose proof (cmp_eq q q') as Hc. destruct (decide (q' = q)) as [->|Hne].
  - rewrite (proj2 Hc eq_refl), fmap_cons. cbn [default snd]. unfold id. by rewrite <- app_assoc.
  - destruct (cmp q q'); [by destruct Hne; symmetry; apply Hc|done..].
Qed.

Lemma framed_groups fs groups : NoDup fs.*1 -> bt_ok groups -> framed fs groups = map (fun fr => (fr, default [] (bt_get fr.1 groups))) fs.
Proof.
  revert groups. induction fs as [|[q c] fs IH]; intros groups Hn Hg; [done|]. rewrite fmap_cons in Hn. apply NoDup_cons in Hn as [Hq Hn].
  cbn [framed map fst]. rewrite IH by (try done; by apply bt_remove_ok). f_equal. apply map_ext_in. intros [q' c'] Hin%list_elem_of_In. cbn [fst]. do 2 f_equal.
  rewrite bt_get_remove. pose proof (cmp_eq q' q) as Hc. destruct (cmp q' q); [|done..]. rewrite (proj1 Hc eq_refl) in Hin. by apply (list_elem_of_fmap_2 fst) in Hin.
Qed.

Lemma chain_above at_ fs : chain at_ fs -> Forall (fun fr => (at_.1 < fr.1)%N) fs /\ NoDup fs.*1.
Proof.
  revert at_. induction fs as [|fr fs IH]; intros at_; [by repeat constructor|]. intros [Hf Hc]. apply IH in Hc as [H1 H2]. pose proof (fo_next _ _ Hf) as Hn. split.
  - constructor; [lia|]. eapply Forall_impl; [exact H1|]. cbn. intros x. lia.
  - rewrite fmap_cons. constructor; [|done]. intros (x & Hx & Hin)%list_elem_of_fmap. rewrite Forall_forall in H1. specialize (H1 x Hin). lia.
Qed.

Lemma own_log_txs m log delta rows at_ : log_records log f = Some rows -> chain at_ (frames log) ->
  own_transactions m (Some log) delta f = Some (log_txs (frames log) rows).
Proof.
  intros Hr [_ Hn]%chain_above. unfold own_transactions. rewrite Hr. cbn [mbind option_bind]. rewrite framed_groups; [|done|apply (group_get rows [] 0%N); constructor].
  f_equal. apply map_ext. intros fr. f_equal. destruct (group_get rows [] fr.1) as [_ ->]; [constructor|]. done.
Qed.

Lemma log_txs_frames fs rows : map fst (log_txs fs rows) = fs.
Proof. unfold log_txs. rewrite map_map. apply map_id. Qed.

Lemma cell_insert families p : length families = 4 -> cell (<[family_index f := Some p]> families) f = Some p.
Proof. intros Hl. unfold cell. rewrite list_lookup_insert_eq; [done|]. rewrite Hl. destruct f; cbn; lia. Qed.

(** Loading a family accepts exactly the legal batches. *)
Lemma load_views checksum o bs : views checksum o bs -> exists o' r, load checksum base o f = Some (o', r) /\ o_manifest o' = o_manifest o /\
  match r with Ok _ => stands o' bs | Err _ => ~ legal_batches (ft_start f) (base_frame base) bs end.
Proof.
  induction 1 as [o bs Hs|m log log' rows families ns Hl Hcell Hlog Hframes Hrows Hch Hv Hm|m q delta families ns bs Hl Hcell Hq IH Hf Hv].
  - exists o, (Ok tt). destruct (st_projection _ _ Hs) as (p & Hp & _). destruct o as [m log parent delta families ns]. cbn [load]. unfold projection in Hp.
    cbn [o_families] in Hp. by rewrite Hp.
  - cbn [load]. rewrite Hcell. cbn [mbind option_bind]. rewrite Hlog. cbn [mbind option_bind]. destruct ft_init as (p0 & Hi & Hp0).
    change (counters (base_manifest base)) with (base_frame base).2. rewrite <- Hframes in Hch, Hv, Hm |- *.
    destruct (load_own_spec m (Some log') [] projection_default p0 (base_frame base) [] (ft_start f) _ _ Hi Hp0 ft_base (own_log_txs m log' [] rows _ Hrows Hch))
      as (r & -> & Hr); [by rewrite log_txs_frames|done|]. cbn [mbind option_bind]. destruct r as [p'|e]; eexists _, _; (split; [done|]); (split; [done|]).
    + destruct Hr as (H1 & H2 & H3). cbn [app] in H2. rewrite <- Hm in H2. split; cbn [o_manifest]; unfold total, all_txs; cbn [map concat bt_txs]; rewrite ?app_nil_r.
      * exists p'. split; [by apply cell_insert|done].
      * by cbn [legal_batches bt_txs bt_counts].
      * done.
      * done.
    + cbn [legal_batches bt_txs bt_counts]. tauto.
  - cbn [load]. rewrite Hcell. destruct IH as (q' & r & Hload & Hm & Hr). cbn [load] in Hload. rewrite Hload. cbn [mbind option_bind].
    destruct r as [[]|e]; [|eexists _, _; split; [done|]; split; [done|]; rewrite legal_batches_snoc; tauto].
    destruct (st_projection _ _ Hr) as (p & Hp & Hshow). rewrite Hp. cbn [mbind option_bind]. pose proof (st_manifest _ _ Hr) as Hend.
    destruct (load_own_spec m None delta p p _ _ _ _ _ (ft_again _ _ _ _ _ Hshow) Hshow (st_counts _ _ Hr) (eq_refl : own_transactions m None delta f = Some [(frame m, _)]))
      as (r & Hrun & Hspec); [split; [by rewrite Hm|done]|by constructor|]. change (frame (o_manifest q')).2 with (counters (o_manifest q')) in Hrun. rewrite Hrun.
    cbn [mbind option_bind]. pose proof (legal_batches_snoc (ft_start f) (base_frame base) bs (mkBatch [(frame m, filter (fun r => family r = f) delta)] (counts m))) as Hsn.
    rewrite <- Hend, all_txs_snoc, table_after_app in Hsn. fold (total bs) in Hsn. cbn [bt_txs bt_counts] in Hsn.
    destruct r as [p'|e]; eexists _, _; (split; [done|]); (split; [done|]).
    + destruct Hspec as (H1 & H2 & H3). split; cbn [o_manifest]; unfold total; rewrite ?all_txs_snoc, ?table_after_app, ?records_of_app; cbn [bt_txs].
      * exists p'. split; [by apply cell_insert|exact H2].
      * apply Hsn. split; [apply Hr|by split].
      * exact H3.
      * by rewrite end_of_app.
    + intros Hbad. apply Hsn in Hbad as (_ & H1 & H2). apply Hspec. by split.
Qed.
End tables.

(** ** The two tables *)

(** What a checked checkpoint promises: directories come first among its
    inodes, its documents are the table [D0], and its retained state is the
    inverse of its retained identities. *)
Class BaseLaws (base : Base) (D0 : Documents) : Prop := {
  bl_inodes : (l_dirs (layout base) <= l_inodes (layout base))%N /\ (l_inodes (layout base) < 2 ^ 32)%N;
  bl_next_doc : u32_ok (l_next_doc (layout base));
  bl_sections ss : load_sections base ss = Ok tt;
  bl_hashes id : u32_ok id -> (d_live D0 !! id, d_kept D0 !! id) = (base_doc_hash base id, base_dormant_hash base id);
  bl_below id : d_live D0 !! id <> None \/ d_kept D0 !! id <> None -> (id < l_next_doc (layout base))%N;
  bl_apart id : d_live D0 !! id <> None -> d_kept D0 !! id = None;
  bl_docs : l_docs (layout base) = N.of_nat (base.size (d_live D0));
  bl_retained : exists m, state_ok (base_dormant_state base) (g_sequence (l_generation (layout base))) m /\ inverse m (d_kept D0)
}.

(** A range of ids with the same entry. *)
Definition ids_map (start stop : u32) (l : Life) : gmap N Life := list_to_map ((fun id => (id, l)) <$> ids_from start stop).

Lemma ids_map_keys start stop (l : Life) : ((fun id => (id, l)) <$> ids_from start stop).*1 = ids_from start stop.
Proof. rewrite <- list_fmap_compose. by apply list_fmap_id. Qed.

Lemma ids_from_nodup start stop : NoDup (ids_from start stop).
Proof. unfold ids_from. apply NoDup_fmap_2; [apply _|apply NoDup_seq]. Qed.

Lemma ids_map_lookup start stop l id : ids_map start stop l !! id = if decide (start <= id < stop)%N then Some l else None.
Proof.
  unfold ids_map. case_decide as Hid.
  - apply elem_of_list_to_map_1; [rewrite ids_map_keys; apply ids_from_nodup|]. apply list_elem_of_fmap. exists id. split; [done|]. by apply elem_of_ids_from.
  - apply not_elem_of_list_to_map_1. by rewrite ids_map_keys, elem_of_ids_from.
Qed.

Lemma ids_map_size start stop l : base.size (ids_map start stop l) = N.to_nat (stop - start).
Proof.
  unfold ids_map. rewrite map_size_list_to_map by (rewrite ids_map_keys; apply ids_from_nodup). unfold ids_from. by rewrite !length_fmap, length_seq.
Qed.

Section checked.
Context (base : Base) (D0 : Documents) `{Hbase : !BaseLaws base D0}.

(** The checkpoint's inodes. *)
Definition base_lives : gmap N Life := ids_map 0 (base_dir_count base) BaseDir ∪ ids_map (base_dir_count base) (base_inode_count base) BaseOther.

Lemma base_counts_u32 : base_dir_count base = l_dirs (layout base) /\ base_inode_count base = l_inodes (layout base).
Proof. destruct bl_inodes as [H1 H2]. unfold base_dir_count, base_inode_count, as_u32. by rewrite !N.mod_small by lia. Qed.

Lemma base_lives_lookup id : base_lives !! id =
  if (id <? base_dir_count base)%N then Some BaseDir else if (id <? base_inode_count base)%N then Some BaseOther else None.
Proof.
  destruct base_counts_u32 as [H1 H2]. destruct bl_inodes as [H3 H4]. unfold base_lives. rewrite lookup_union, !ids_map_lookup.
  destruct (N.ltb_spec id (base_dir_count base)); [rewrite decide_True by lia; by destruct (decide _)|]. rewrite decide_False by lia.
  destruct (N.ltb_spec id (base_inode_count base)); [by rewrite decide_True by lia|by rewrite decide_False by lia].
Qed.

Lemma base_lives_counts : counts_life base_lives (counts (base_manifest base)).
Proof.
  destruct base_counts_u32 as [H1 H2]. destruct bl_inodes as [H3 H4]. unfold counts_life. cbn [base_manifest from_layout counts n_inodes n_dirs].
  fold (base_inode_count base) (base_dir_count base). split.
  - unfold base_lives. rewrite map_size_disj_union, !ids_map_size; [lia|]. apply map_disjoint_spec. intros id x y. rewrite !ids_map_lookup.
    repeat case_decide; try done. lia.
  - unfold count_dirs. transitivity (N.of_nat (base.size (ids_map 0 (base_dir_count base) BaseDir))); [rewrite ids_map_size; lia|]. do 2 f_equal. apply map_eq. intros id.
    apply option_eq. intros l. rewrite map_lookup_filter_Some. cbn. rewrite base_lives_lookup, ids_map_lookup.
    destruct (N.ltb_spec id (base_dir_count base)); [rewrite decide_True by lia; split; [intros [= <-]; by split|by intros [? _]]|]. rewrite decide_False by lia.
    split; [done|]. destruct (id <? base_inode_count base)%N; [|by intros [? _]]. by intros [[= <-] ?].
Qed.

#[export] Instance namespace_table : FamilyTable base Namespace (gmap N Life) := {|
  ft_start := base_lives;
  ft_legal T before next rs := legal_inodes T (inodes before) (inodes next) rs;
  ft_after := after_life;
  ft_counts := counts_life;
  ft_shows p last H before T := projection_ok p last H /\ lives base H (inodes before) T
|}.

#[export] Instance docs_table : FamilyTable base Docs Documents := {|
  ft_start := D0;
  ft_legal D before next rs := legal_docs D (docs before) (docs next) rs;
  ft_after := after_docs;
  ft_counts D c := n_docs c = N.of_nat (base.size (d_live D));
  ft_shows p last H before D := projection_ok p last H /\ documents base H (docs before) D /\ retained p last (d_kept D)
|}.

Lemma decreased_false a b : decreased a b = false -> (inodes b <= inodes a)%N /\ (docs b <= docs a)%N.
Proof. unfold decreased. rewrite !orb_false_iff, !N.ltb_ge. tauto. Qed.

#[export] Instance namespace_laws : TableLaws base Namespace (gmap N Life).
Proof.
  split.
  - eexists. split; [done|]. split; [apply projection_default_ok|]. destruct base_counts_u32 as [H1 H2]. destruct bl_inodes as [H3 H4].
    split; cbn [base_frame snd base_manifest from_layout counters inodes]; fold (base_inode_count base).
    + intros id _. apply base_lives_lookup.
    + intros id. cbn. rewrite base_lives_lookup. destruct (N.ltb_spec id (base_dir_count base)); [lia|]. by destruct (N.ltb_spec id (base_inode_count base)).
    + done.
    + lia.
    + lia.
    + unfold u32_ok. lia.
  - apply base_lives_counts.
  - done.
  - intros p last H before T c q next rs [Hp HT] Hc Hf Hv. unfold replay_one. cbn [replay_family]. destruct (decreased_false _ _ (fo_grow _ _ Hf)) as [Hle _].
    pose proof (fo_u32 _ _ Hf) as Hu. cbn [snd] in Hle, Hu. assert (Hi : u32_ok (inodes next)) by (unfold counters_ok in Hu; by apply Forall_cons in Hu as [? _]).
    unfold tx_valid in Hv. cbn [fst snd] in Hv. destruct (valid_limits _ _ _ _ Hv) as [Hlim _].
    assert (Hrs : Forall row_ok rs) by (eapply Forall_impl; [exact Hv|]; intros r; by apply valid_row_ok).
    destruct (check_inodes_spec base p last H T before next rs Hp HT Hle Hi Hlim c Hc) as (r & -> & Hr). destruct r as [c'|e]; cbn [oe_bind]; [|by eexists].
    destruct Hr as (H1 & H2 & _). destruct (apply_rows_spec p last H q rs Hp) as (p' & -> & Hp' & _); [pose proof (fo_next _ _ Hf); cbn in *; lia|done|]. cbn [mbind option_bind].
    eexists. split; [done|]. split; [done|]. split; [|done]. split; [done|]. by apply (lives_step base H T before next rs HT Hle Hi Hrs Hlim).
  - intros T c m [H1 H2]. cbn [ft_counts namespace_table]. unfold counts_life. cbn [check_counts]. rewrite H1, H2.
    destruct (N.eqb_spec (N.of_nat (base.size T)) (n_inodes m)) as [E1|E1]; cbn [negb orb]; [|eexists; split; [done|]; split; [done|]; by intros [? _]].
    destruct (N.eqb_spec (count_dirs T) (n_dirs m)) as [E2|E2]; cbn [negb]; eexists; (split; [done|]); [by split|]. split; [done|]. by intros [_ ?].
Qed.

#[export] Instance docs_laws : TableLaws base Docs Documents.
Proof.
  split.
  - eexists. split; [unfold init_dormant; cbn [bool_decide decide projection_default dormant andb]; by rewrite bl_sections|]. cbn [base_frame fst snd].
    pose proof (projection_default_ok (g_sequence (l_generation (layout base)))) as Hp. split; [|split].
    + destruct Hp as [H1 H2 H3 H4 H5]. by split.
    + split; cbn [base_manifest from_layout counters docs]; [|apply bl_below|apply bl_apart|apply bl_next_doc].
      intros id Hid. unfold docs_at. cbn. by apply bl_hashes.
    + destruct bl_retained as (m & H1 & H2). by eexists _, m.
  - cbn [ft_counts docs_table ft_start base_manifest from_layout counts n_docs]. unfold as_u32. rewrite bl_docs. apply N.mod_small. rewrite <- bl_docs.
    assert (Hsz : (l_docs (layout base) <= l_next_doc (layout base))%N); [|pose proof bl_next_doc as Hn; unfold u32_ok in Hn; lia].
    rewrite bl_docs. apply map_size_below. intros id Hid. apply bl_below. by left.
  - intros p last H before T (_ & _ & st & m & Hst & _). unfold init_dormant. by rewrite Hst.
  - intros p last H before T c q next rs (Hp & HD & HK) Hc Hf Hv. unfold replay_one. cbn [replay_family]. destruct (decreased_false _ _ (fo_grow _ _ Hf)) as [_ Hle].
    pose proof (fo_u32 _ _ Hf) as Hu. cbn [snd] in Hle, Hu. assert (Hi : u32_ok (docs next)) by (unfold counters_ok in Hu; rewrite !Forall_cons in Hu; tauto).
    assert (Hq : (last < q)%N) by (pose proof (fo_next _ _ Hf); cbn in *; lia).
    unfold tx_valid in Hv. cbn [fst snd] in Hv. destruct (valid_limits _ _ _ _ Hv) as [_ Hlim].
    assert (Hrs : Forall (fun r => family r = Docs /\ row_ok r) rs).
    { eapply Forall_impl; [exact Hv|]. intros r Hr. split; [apply (v_family _ _ _ _ Hr)|by eapply valid_row_ok]. }
    assert (Hro : Forall row_ok rs) by (eapply Forall_impl; [exact Hrs|]; by intros r [_ ?]).
    destruct (check_docs_spec base p last H T before next rs Hp HD bl_sections Hle Hi Hrs Hlim c Hc) as (r & -> & Hr). destruct r as [c'|e]; cbn [oe_bind].
    2: { eexists. split; [done|]. intros (H1 & H2 & _). apply Hr. by split. }
    destruct Hr as [H1 ->]. destruct (advance_dormant_spec base p last H T before next rs q Hp HD Hle Hi Hlim Hq HK) as (r & -> & Hr). destruct r as [p1|e]; cbn [oe_bind].
    2: { eexists. split; [done|]. intros (_ & _ & ?). by apply Hr. }
    destruct Hr as (H2 & HK1 & Hrows & Hpres). assert (Hp1 : projection_ok p1 last H) by (destruct Hp as [P1 P2 P3 P4 P5]; split; by rewrite ?Hrows, ?Hpres).
    destruct (apply_rows_spec p1 last H q rs Hp1 Hq Hro) as (p' & -> & Hp' & Hd). cbn [mbind option_bind].
    eexists. split; [done|]. split; [by destruct H1|]. split; [|done]. split; [done|]. split; [by apply (documents_step base H T before next rs HD Hle Hi Hrs Hlim)|].
    destruct HK1 as (st & m & Hst & Hrest). exists st, m. by rewrite Hd.
  - intros T c m Hc. cbn [ft_counts docs_table check_counts] in *. rewrite Hc.
    destruct (N.eqb_spec (N.of_nat (base.size (d_live T))) (n_docs m)) as [E|E]; cbn [negb]; eexists; (split; [done|]); done.
Qed.
End checked.

(** ** Opened logs *)

Section opened.
Context (base : Base) (f : Family) {table : Type} `{Htable : !FamilyTable base f table} `{Hlaws : !TableLaws base f table} (checksum : bytes -> bytes).

Lemma valid_log_txs at_ fs rows : chain at_ fs -> Forall (fun row => exists c, (row.1, c) ∈ fs /\ valid c row.1 f row.2) rows ->
  Forall (tx_valid f) (log_txs fs rows).
Proof.
  intros [_ Hn]%chain_above Hv. unfold log_txs. apply Forall_fmap, Forall_forall. intros [q c] Hin. unfold tx_valid. cbn [fst snd].
  apply Forall_fmap, Forall_forall. intros row [Hq Hr]%list_elem_of_filter. rewrite Forall_forall in Hv. destruct (Hv row Hr) as (c' & Hc' & Hrow). cbn in *. rewrite Hq in *.
  assert (c' = c) as <-; [|done]. apply list_elem_of_lookup in Hin as [i Hi], Hc' as [j Hj].
  assert (i = j) as -> by (apply (NoDup_lookup _ _ _ q Hn); rewrite list_lookup_fmap; [by rewrite Hi|by rewrite Hj]). rewrite Hi in Hj. by injection Hj.
Qed.

(** An overlay over a log that opened, once the family's blocks read. *)
Lemma opened_views file m log log' : bytes_ok file -> checkpoint_sequence m = (base_frame base).1 ->
  log_open checksum (Some file) m (counters (base_manifest base)) = Some (Ok log) -> load_log checksum log f = Some (log', Ok tt) ->
  exists rows, log_records log' f = Some rows /\ views base f checksum (overlay_new m log) [mkBatch (log_txs (frames log) rows) (counts m)].
Proof.
  intros Hb Hq Ho Hl. destruct (log_open_spec checksum (Some file) m (counters (base_manifest base))) as (r & Hr & Hspec); [by intros ? [= <-]|].
  rewrite Ho in Hr. injection Hr as <-. destruct (Hspec log eq_refl) as (Hok & _ & Hch & Hlast & Hnone). rewrite Hq in Hch. change (chain (base_frame base) (frames log)) in Hch.
  destruct (load_log_spec checksum log f Hok) as (log2 & r & Hl2 & Hok2 & Hf2 & _ & Hld). rewrite Hl in Hl2. injection Hl2 as <- <-.
  destruct (log_records_spec log' f Hok2 (Hld eq_refl)) as (rows & Hrows & Hv). exists rows. split; [done|]. rewrite Hf2 in Hv.
  eapply views_log; [done|by destruct f|exact Hl|done|done|done|by eapply valid_log_txs|].
  unfold end_of. rewrite log_txs_frames. destruct (decide (transactions log = [])) as [Hn|Hn].
  - destruct (Hnone Hn) as [H1 H2]. unfold frames. rewrite Hn. cbn. unfold frame, base_frame in *. rewrite H1, Hq, H2 by done. done.
  - by rewrite (Hlast Hn).
Qed.
End opened.

(** ** Reads *)

Section reads.
Context (base : Base) (o : Overlay) (bs : list Batch).

(** The inodes of a view: alive exactly when in the table, and of the kind
    it gives. *)
Lemma inode_reads : stands base Namespace o bs -> let T := total base Namespace bs in forall id,
  live_inode base o id = Some (bool_decide (T !! id <> None)) /\
  forall l, T !! id = Some l ->
    overlay_kind o id = Some (match l with Logged k => Some k | _ => None end) /\ is_directory base o id = Some (life_dir l).
Proof.
  intros [(p & Hp & Hok & HT) _ _ _] T id. fold T in HT. cbn [frame snd] in HT.
  assert (Hrow : u32_ok id -> life o id = Some (newest_row (records_of (all_txs bs)) (row_key LIFE id))).
  { intros Hid. unfold life. rewrite Hp. cbn [mbind option_bind]. eapply projection_get_spec; [exact Hok|by apply Nat.ltb_lt|done]. }
  pose proof (fun Hid => lives_row base _ _ T id HT (pj_history _ _ _ Hok) Hid) as Hread. pose proof (lv_used _ _ _ _ HT) as Hu.
  assert (Hin : (id < inodes (counters (o_manifest o)))%N -> u32_ok id) by (unfold u32_ok in *; lia).
  pose proof (lv_below _ _ _ _ HT id) as Hbelow. pose proof (lv_base _ _ _ _ HT) as Hbase. split.
  - unfold live_inode. destruct (N.ltb_spec id (inodes (counters (o_manifest o)))) as [Hlt|Hge].
    + rewrite Hrow by auto. cbn [mbind option_bind]. specialize (Hread (Hin Hlt) Hlt). f_equal.
      pose proof (lv_at _ _ _ _ HT id (Hin Hlt)) as Hat. unfold life_at in Hat.
      destruct (newest_row _ _) as [[]|]; try done; try (by rewrite Hread).
      rewrite Hread. destruct (N.ltb_spec id (base_inode_count base)); [by rewrite bool_decide_true|]. rewrite Hread in Hat.
      destruct (N.ltb_spec id (base_dir_count base)); [lia|done].
    + rewrite bool_decide_false; [done|]. intros Hn. specialize (Hbelow Hn). lia.
  - intros l Hl. assert (Hlt : (id < inodes (counters (o_manifest o)))%N) by (apply Hbelow; by rewrite Hl). specialize (Hread (Hin Hlt) Hlt).
    unfold is_directory, overlay_kind. rewrite Hrow by auto. cbn [mbind option_bind]. destruct (newest_row _ _) as [[]|]; try done; rewrite Hl in Hread; try done.
    + by injection Hread as ->.
    + injection Hread as ->. by destruct (id <? base_dir_count base)%N.
Qed.

(** The documents of a view: the live hash, the retained hash, and the
    retained state, by hash. *)
Lemma document_reads (D0 : Documents) : stands base Docs (Htable := docs_table base D0) o bs -> let D := total base Docs (Htable := docs_table base D0) bs in
  (forall id, u32_ok id -> view_doc_hash base o id = Some (d_live D !! id) /\ view_dormant_hash base o id = Some (d_kept D !! id)) /\
  exists st, view_dormant_state o = Some st /\ forall h, exists found, find st h = Some found /\ forall id, found = Some id <-> d_kept D !! id = Some h.
Proof.
  intros [(p & Hp & Hok & HD & HK) _ _ _] D. fold D in HD, HK. split.
  - intros id Hid. assert (Hrow : doc_record o id = Some (newest_row (records_of (all_txs bs)) (row_key DOC id))).
    { unfold doc_record. rewrite Hp. cbn [mbind option_bind]. eapply projection_get_spec; [exact Hok|by apply Nat.ltb_lt|done]. }
    pose proof (dc_at _ _ _ _ HD id Hid) as Hat. unfold docs_at in Hat. pose proof (f_equal fst Hat) as H1. pose proof (f_equal snd Hat) as H2. cbn [fst snd] in H1, H2.
    unfold view_doc_hash, view_dormant_hash. rewrite Hrow. cbn [mbind option_bind]. rewrite H1, H2.
    destruct (newest_row _ _) as [r|] eqn:En; [|done]. pose proof (newest_doc_row _ _ _ (pj_history _ _ _ Hok) Hid En). by destruct r.
  - destruct HK as (st & m & Hst & Hso & Hinv). exists st. split; [unfold view_dormant_state; by rewrite Hp|].
    intros h. exists (m !! h). split; [by eapply find_ok|]. intros id. apply Hinv.
Qed.
End reads.

(** ** Properties *)

(** C9: The namespace of a view is its transactions, one legal step after
    another.  Over a checked checkpoint, loading the namespace of an overlay,
    whether of a log or of transactions on a predecessor, answers, and it is
    accepted exactly when every transaction's inode lifetimes are legal after
    those before it (no retired inode comes back, no inode changes its kind,
    only live inodes die, births leave no gap in the ids allocated) and every
    manifest counts the inodes and directories then alive.  Afterwards an
    inode is alive in the view exactly when it is in the table of the
    lifetimes, with the kind the table gives. *)
Theorem load_namespace_exact (checksum : bytes -> bytes) (base : Base) (D0 : Documents) (o : Overlay) (bs : list Batch)
    (Hbase : BaseLaws base D0) (Hviews : views base Namespace checksum o bs) :
  exists o' r, load checksum base o Namespace = Some (o', r) /\
    (r = Ok tt <-> legal_batches base Namespace (base_lives base) (base_frame base) bs) /\
    (r = Ok tt -> let T := table_after base Namespace (base_lives base) (all_txs bs) in
       (n_inodes (counts (o_manifest o')) = N.of_nat (base.size T) /\ n_dirs (counts (o_manifest o')) = count_dirs T) /\
       forall id, live_inode base o' id = Some (bool_decide (T !! id <> None)) /\
         forall l, T !! id = Some l ->
           overlay_kind o' id = Some (match l with Logged k => Some k | _ => None end) /\ is_directory base o' id = Some (life_dir l)).
Proof.
  destruct (load_views base Namespace (Hlaws := namespace_laws base D0) checksum o bs Hviews) as (o' & r & Hl & _ & Hr). exists o', r.
  split; [exact Hl|]. destruct r as [[]|e]; [|split; [split; [done|intros Hg; by destruct (Hr Hg)]|done]].
  split; [split; [intros _; apply (st_legal _ _ _ _ Hr)|done]|]. intros _. split; [apply (st_counts _ _ _ _ Hr)|]. exact (inode_reads base o' bs Hr).
Qed.

(** C10: The documents of a view are its transactions, one legal step after
    another.  Over a checked checkpoint, loading the documents of an overlay
    answers, and it is accepted exactly when every transaction is legal after
    those before it (a document never changes its hash, comes back only from
    the retained ones, is retained under the hash it had, births leave no gap,
    retained hashes stay unique and within the cap) and every manifest counts
    the documents then live.  Afterwards the view gives the live and the
    retained hash of every document, and finds each retained hash's one
    document. *)
Theorem load_docs_exact (checksum : bytes -> bytes) (base : Base) (D0 : Documents) (o : Overlay) (bs : list Batch)
    (Hbase : BaseLaws base D0) (Hviews : views base Docs (Htable := docs_table base D0) checksum o bs) :
  exists o' r, load checksum base o Docs = Some (o', r) /\
    (r = Ok tt <-> legal_batches base Docs (Htable := docs_table base D0) D0 (base_frame base) bs) /\
    (r = Ok tt -> let D := table_after base Docs (Htable := docs_table base D0) D0 (all_txs bs) in
       n_docs (counts (o_manifest o')) = N.of_nat (base.size (d_live D)) /\
       (forall id, u32_ok id -> view_doc_hash base o' id = Some (d_live D !! id) /\ view_dormant_hash base o' id = Some (d_kept D !! id)) /\
       exists st, view_dormant_state o' = Some st /\
         forall h, exists found, find st h = Some found /\ forall id, found = Some id <-> d_kept D !! id = Some h).
Proof.
  destruct (load_views base Docs (Htable := docs_table base D0) (Hlaws := docs_laws base D0) checksum o bs Hviews) as (o' & r & Hl & _ & Hr). exists o', r.
  split; [exact Hl|]. destruct r as [[]|e]; [|split; [split; [done|intros Hg; by destruct (Hr Hg)]|done]].
  split; [split; [intros _; apply (st_legal _ _ _ _ Hr)|done]|]. intros _. split; [apply (st_counts _ _ _ _ Hr)|]. exact (document_reads base o' bs D0 Hr).
Qed.

(** No bytes on disk make reading a view panic.  Over a checked
    checkpoint, whatever the log file holds, opening it at a manifest answers;
    if it opens, loading the namespace or the documents of the overlay over it
    answers; and if that is accepted, the transactions replayed run from the
    checkpoint's sequence and counters to the manifest's, each record valid in
    its transaction. *)
Theorem opened_overlay_safe (checksum : bytes -> bytes) (base : Base) (D0 : Documents) (file : bytes) (m : Manifest)
    (Hbase : BaseLaws base D0) (Hfile : bytes_ok file) (Hm : checkpoint_sequence m = g_sequence (l_generation (layout base))) :
  exists opened, log_open checksum (Some file) m (counters (base_manifest base)) = Some opened /\ forall log, opened = Ok log ->
    forall f, f = Namespace \/ f = Docs -> exists o r, load checksum base (overlay_new m log) f = Some (o, r) /\
      (r = Ok tt -> exists txs, chain (base_frame base) (map fst txs) /\ frame m = end_of (base_frame base) txs /\ Forall (tx_valid f) txs /\
         exists p, projection o f = Some p /\ projection_ok p (g_sequence (generation m)) (records_of txs)).
Proof.
  destruct (log_open_spec checksum (Some file) m (counters (base_manifest base))) as (opened & Ho & Hspec); [by intros ? [= <-]|]. exists opened. split; [exact Ho|].
  intros log Hlog. subst opened. destruct (Hspec log eq_refl) as (Hok & _ & Hch & _).
  assert (Hgo : forall f (table : Type) (Htable : FamilyTable base f table) (Hlaws : TableLaws base f table),
    (forall p last H before T, ft_shows f p last H before T -> projection_ok p last H) -> exists o r, load checksum base (overlay_new m log) f = Some (o, r) /\
      (r = Ok tt -> exists txs, chain (base_frame base) (map fst txs) /\ frame m = end_of (base_frame base) txs /\ Forall (tx_valid f) txs /\
         exists p, projection o f = Some p /\ projection_ok p (g_sequence (generation m)) (records_of txs))).
  { intros f table Htable Hlaws Hshow. destruct (load_log_spec checksum log f Hok) as (log' & r & Hl & _). destruct r as [[]|e].
    - destruct (opened_views base f checksum file m log log' Hfile Hm Ho Hl) as (rows & Hrows & Hv).
      destruct (load_views base f checksum _ _ Hv) as (o & r & Hload & Hman & Hr). exists o, r. split; [exact Hload|]. intros ->.
      inversion Hv as [o' bs' Hst|m' log1 log2 rows2 fams ns Hlen Hcell Hl2 Hfr Hrows2 Hc2 Hval Hfm|]; subst.
      + destruct (st_projection _ _ _ _ Hst) as (p & Hp & _). by destruct f.
      + eexists. split; [rewrite log_txs_frames; exact Hc2|]. split_and!; [done|done|]. destruct (st_projection _ _ _ _ Hr) as (p & Hp & Hs).
        exists p. split; [exact Hp|]. match goal with E : log_txs _ rows2 = _ |- _ => rewrite E end. rewrite Hman in Hs. unfold all_txs in Hs. cbn [map concat bt_txs] in Hs. rewrite app_nil_r in Hs. by eapply Hshow.
    - unfold overlay_new. cbn [load].
      assert (Hcell : cell (replicate 4 None) f = None) by (by clear; destruct f). rewrite Hcell. cbn [mbind option_bind]. rewrite Hl. by eexists _, _. }
  intros f [-> | ->].
  - apply (Hgo Namespace _ (namespace_table base) (namespace_laws base D0)). by intros p last H before T [? _].
  - apply (Hgo Docs _ (docs_table base D0) (docs_laws base D0)). by intros p last H before T [? _].
Qed.

(** A checkpoint of two directories, a file and one document, and a
    transaction on it: the file dies and a directory is born, the document is
    retained and another takes its place. *)
Definition sample_hash (n : N) : Hash := le_bytes 16 n.
Definition sample_documents : Documents := mkDocuments {[0%N := sample_hash 5]} ∅.
Definition sample_layout : Layout := mkLayout (mkGeneration (le_bytes 16 1) 3 11) 1 1 2 3 3 1.
Definition sample_base : Base := {|
  layout := sample_layout; load_sections _ := Ok tt;
  base_doc_hash id := if (id =? 0)%N then Some (sample_hash 5) else None;
  base_dormant_hash _ := None; base_dormant_state := state_new [];
  base_name _ := mkName 0 0 []; base_lookup _ _ := None; base_children _ := []; base_dir_name _ := None; base_roots := []; name_references := []
|}.
Definition sample_delta : list Record_ := [InodeDelete 2; LifePut 3 Dir 0 0; DocDormant 0 (sample_hash 5); DocPut 1 2 (sample_hash 6)].
Definition sample_first : Manifest := from_layout sample_layout.
Definition sample_next : Manifest := mkManifest (mkGeneration (le_bytes 16 1) 3 12) 0 11 1 (mkCounters 4 3 2) (mkCounts 3 3 3 1).
Definition sample_overlay : Overlay := overlay_advance (overlay_new sample_first (mkLog None [] 0 0 3)) sample_next sample_delta.
Definition sample_batches (f : Family) : list Batch :=
  [mkBatch [] (counts sample_first); mkBatch [(frame sample_next, filter (fun r => family r = f) sample_delta)] (counts sample_next)].

Lemma sample_base_laws : BaseLaws sample_base sample_documents.
Proof.
  assert (Hlook : forall id, d_live sample_documents !! id = if (id =? 0)%N then Some (sample_hash 5) else None).
  { intros id. cbn [sample_documents d_live]. destruct (N.eqb_spec id 0) as [->|]; [by rewrite lookup_singleton_eq|by rewrite lookup_singleton_ne]. }
  split; cbn [sample_base layout sample_layout l_dirs l_inodes l_next_doc l_docs load_sections base_doc_hash base_dormant_hash base_dormant_state l_generation g_sequence].
  - by split.
  - done.
  - done.
  - intros id _. rewrite Hlook. cbn [sample_documents d_kept]. by rewrite lookup_empty.
  - intros id. rewrite Hlook. cbn [sample_documents d_kept]. rewrite lookup_empty. destruct (N.eqb_spec id 0); [lia|]. by intros [?|?].
  - intros id _. apply lookup_empty.
  - cbn [sample_documents d_live]. by rewrite map_size_singleton.
  - exists (table []). split; [by apply (state_new_ok [] [] 11); [|done|constructor]|]. intros h id. unfold table. cbn. rewrite !lookup_empty. done.
Qed.

Lemma sample_views f {table : Type} {Htable : FamilyTable sample_base f table} checksum :
  tx_valid f (frame sample_next, filter (fun r => family r = f) sample_delta) -> views sample_base f checksum sample_overlay (sample_batches f).
Proof.
  intros Hv. unfold sample_overlay, overlay_advance, sample_batches.
  change [mkBatch [] (counts sample_first); mkBatch [(frame sample_next, filter (fun r => family r = f) sample_delta)] (counts sample_next)]
    with ([mkBatch (log_txs (frames (mkLog None [] 0 0 3)) []) (counts sample_first)] ++
          [mkBatch [(frame sample_next, filter (fun r => family r = f) sample_delta)] (counts sample_next)]).
  apply views_next; [done|by destruct f| | |done].
  - eapply views_log; [done|by destruct f|reflexivity|done|reflexivity|done|constructor|done].
  - split; [done|done|repeat constructor|done|done].
Qed.

Lemma sample_valid_delta : tx_valid Namespace (frame sample_next, filter (fun r => family r = Namespace) sample_delta) /\
  tx_valid Docs (frame sample_next, filter (fun r => family r = Docs) sample_delta).
Proof.
  split; repeat apply Forall_cons_2; try apply Forall_nil_2; (split; [|intros id n [= <-] [= <-]; done|done]); cbn [checked]; try done.
  - split; [done|apply le_bytes_ok].
  - split; [done|]. split; [done|apply le_bytes_ok].
Qed.

Lemma load_namespace_exact_witness :
  (exists o', load sample_sum sample_base sample_overlay Namespace = Some (o', Ok tt)) /\
  exists o' r, load sample_sum sample_base sample_overlay Namespace = Some (o', r) /\
    (r = Ok tt <-> legal_batches sample_base Namespace (base_lives sample_base) (base_frame sample_base) (sample_batches Namespace)) /\
    (r = Ok tt -> let T := table_after sample_base Namespace (base_lives sample_base) (all_txs (sample_batches Namespace)) in
       (n_inodes (counts (o_manifest o')) = N.of_nat (base.size T) /\ n_dirs (counts (o_manifest o')) = count_dirs T) /\
       forall id, live_inode sample_base o' id = Some (bool_decide (T !! id <> None)) /\
         forall l, T !! id = Some l ->
           overlay_kind o' id = Some (match l with Logged k => Some k | _ => None end) /\ is_directory sample_base o' id = Some (life_dir l)).
Proof.
  split; [eexists; vm_compute; reflexivity|].
  exact (load_namespace_exact sample_sum sample_base sample_documents sample_overlay (sample_batches Namespace) sample_base_laws
    (sample_views Namespace sample_sum (proj1 sample_valid_delta))).
Defined.

Lemma load_docs_exact_witness :
  (exists o', load sample_sum sample_base sample_overlay Docs = Some (o', Ok tt)) /\
  exists o' r, load sample_sum sample_base sample_overlay Docs = Some (o', r) /\
    (r = Ok tt <-> legal_batches sample_base Docs (Htable := docs_table sample_base sample_documents) sample_documents (base_frame sample_base) (sample_batches Docs)) /\
    (r = Ok tt -> let D := table_after sample_base Docs (Htable := docs_table sample_base sample_documents) sample_documents (all_txs (sample_batches Docs)) in
       n_docs (counts (o_manifest o')) = N.of_nat (base.size (d_live D)) /\
       (forall id, u32_ok id -> view_doc_hash sample_base o' id = Some (d_live D !! id) /\ view_dormant_hash sample_base o' id = Some (d_kept D !! id)) /\
       exists st, view_dormant_state o' = Some st /\
         forall h, exists found, find st h = Some found /\ forall id, found = Some id <-> d_kept D !! id = Some h).
Proof.
  split; [eexists; vm_compute; reflexivity|].
  exact (load_docs_exact sample_sum sample_base sample_documents sample_overlay (sample_batches Docs) sample_base_laws
    (sample_views Docs sample_sum (proj2 sample_valid_delta))).
Defined.

Lemma opened_overlay_safe_witness :
  exists opened, log_open sample_sum (Some (replicate 80 7%N)) sample_next (counters (base_manifest sample_base)) = Some opened /\ forall log, opened = Ok log ->
    forall f, f = Namespace \/ f = Docs -> exists o r, load sample_sum sample_base (overlay_new sample_next log) f = Some (o, r) /\
      (r = Ok tt -> exists txs, chain (base_frame sample_base) (map fst txs) /\ frame sample_next = end_of (base_frame sample_base) txs /\ Forall (tx_valid f) txs /\
         exists p, projection o f = Some p /\ projection_ok p 12 (records_of txs)).
Proof.
  exact (opened_overlay_safe sample_sum sample_base sample_documents (replicate 80 7%N) sample_next sample_base_laws
    ltac:(apply (bool_decide_unpack _); vm_compute; exact I) eq_refl).
Defined.
