(* ===== verification/NameGraph.v ===== *)
(** * NameGraph: the names of an overlay and their graph

    Models [crates/ferret-catalog/src/overlay/namespace.rs]: replaying a
    transaction's names over a checkpoint, with its child keys, the paths of
    the directories it touches and the reference counts of the inodes it
    affects, and what a namespace then answers.

    A [BTreeMap] and a [BTreeSet] are [BTree]'s.  The [i64] counters count
    names, of which there are fewer than [2 ^ 32], and are integers here.
    Following a directory's edges needs one step per directory with a row or
    of the checkpoint, and one more.  A panic is [None]. *)
From S2P Require Import Prelude Word Bytes DocSet Trigrams LogRecords BTree Runs Dormant Generation LogFrames Projection Overlay.
#[local] Open Scope ferret_scope.
#[local] Notation "x <~! m ; k" := (oe_bind m (fun x => k)) (at level 100, m at next level, right associativity).

(** [Target::from_child]: whether a child is an inode. *)
Definition is_inode (child : u32) : bool := bool_decide (from_ignored_child child = None).

(** [*map.entry(id).or_default() += d]. *)
Definition bump (m : list (u32 * Z)) (id : u32) (d : Z) : list (u32 * Z) := bt_insert id (default 0%Z (bt_get id m) + d)%Z m.

(** [NameReplay]. *)
Record NameReplay := mkReplay {
  nr_rows : Projection; nr_keys : ChildKeys; nr_touched : list u32; nr_references : list (u32 * Z); nr_counter : u32; nr_count : u32
}.

Section graph.
Context (base : Base).

(** ** Reads of the rows *)

(** [sparse_name] and [name]. *)
Definition sparse_name (rows : Projection) (id : u32) : option (option (option Name)) :=
  row ← projection_get rows NAME id;
  Some (match row with
        | Some (NamePut _ parent child name _) => Some (Some (mkName parent child name))
        | Some (NameDelete _) => Some None
        | _ => None
        end).
Definition name_in (rows : Projection) (id : u32) : option (option Name) :=
  s ← sparse_name rows id;
  Some (match s with Some n => n | None => if (id <? base_name_count base)%N then Some (base_name base id) else None end).

(** [lookup]. *)
Definition lookup_in (rows : Projection) (keys : ChildKeys) (parent : u32) (bytes : bytes) : option (option u32) :=
  match get_by keys (fun k => match cmp k.1 parent with Eq => cmp k.2 bytes | c => c end) with
  | Some value => Some value
  | None =>
      match base_lookup base parent bytes with
      | Some id => row ← projection_get rows NAME id; Some (match row with None => Some id | Some _ => None end)
      | None => Some None
      end
  end.

(** [live], [kind], [own] and [root]. *)
Definition live_in (rows : Projection) (id : u32) : option bool :=
  row ← projection_get rows LIFE id;
  Some (match row with Some (LifePut _ _ _ _) => true | Some (InodeDelete _) => false | _ => (id <? base_inode_count base)%N end).
Definition kind_in (rows : Projection) (id : u32) : option (option Kind) :=
  row ← projection_get rows LIFE id;
  Some (match row with
        | Some (LifePut _ k _ _) => Some k
        | Some (InodeDelete _) => None
        | _ => if (id <? base_dir_count base)%N then Some Dir else None
        end).
Definition own_in (rows : Projection) (id : u32) : option (option u32) :=
  row ← projection_get rows DIR id;
  Some (match row with
        | Some (DirPut _ name _ _ _) => name
        | _ => if (id <? base_dir_count base)%N then base_dir_name base id else None
        end).
Definition root_in (rows : Projection) (id : u32) : option bool :=
  row ← projection_get rows ROOT id;
  Some (match row with Some (RootPut _ _) => true | Some (RootDelete _) => false | _ => existsb (fun r => (r.1 =? id)%N) (base_roots base) end).

(** [live(..) && kind(..) == Some(Kind::Dir)]. *)
Definition live_dir_in (rows : Projection) (id : u32) : option bool :=
  l ← live_in rows id; k ← kind_in rows id; Some (l && bool_decide (k = Some Dir)).

(** ** Child keys *)

(** The loop of [added_keys]. *)
Fixpoint additions (rows : Projection) (removed : ChildKeys) (changed : list Record_) (seq : u64) (acc : list ChildRow) : outcome (list ChildRow) :=
  match changed with
  | [] => Some (Ok acc)
  | r :: changed =>
      match r with
      | NamePut id parent child bytes _ =>
          dir ← live_dir_in rows parent;
          alive ← live_in rows child;
          if negb dir || (is_inode child && negb alive) then Some (Err (obad "name references dead/non-directory inode"))
          else
            other ← lookup_in rows removed parent bytes;
            if match other with Some other => negb (other =? id)%N | None => false end then Some (Err (obad "duplicate child key"))
            else
              k ← kind_in rows child;
              own ← own_in rows child;
              root ← root_in rows child;
              if bool_decide (k = Some Dir) && (bool_decide (own <> Some id) || root) then Some (Err (obad "directory has multiple incoming edges"))
              else additions rows removed changed seq (acc ++ [mkRow (parent, bytes) seq (Some id)])
      | _ => additions rows removed changed seq acc
      end
  end.

(** [added_keys]. *)
Definition added_keys (rows : Projection) (removed : ChildKeys) (changed : list Record_) (seq : u64) : outcome (list ChildRow) :=
  added <~! additions rows removed changed seq [];
  let added := sort_by by_key added in
  if existsb (fun w => bool_decide (key <$> w !! 0 = key <$> w !! 1)) (windows 2 added) then Some (Err (obad "duplicate changed child key"))
  else Some (Ok added).

(** ** Reference counts *)

(** The children of a dead directory: those of the checkpoint whose name has
    no row, and those of the log. *)
Fixpoint count_free (rows : Projection) (ids : list u32) : option nat :=
  match ids with
  | [] => Some 0
  | id :: ids => row ← projection_get rows NAME id; n ← count_free rows ids; Some (match row with None => S n | Some _ => n end)
  end.
Definition children_rows (keys : ChildKeys) (parent : u32) : option (list ChildRow) := latest_range keys (parent, []) (add32 parent 1, []).
Definition children_left (rows : Projection) (keys : ChildKeys) (id : u32) : option nat :=
  base_children ← if (id <? base_inode_count base)%N then count_free rows (base_children base id) else Some 0;
  delta ← children_rows keys id;
  Some (base_children + length (filter (fun r => value r <> None) delta)).

(** The loop of [check_references], and the whole. *)
Fixpoint references_loop (rows : Projection) (keys : ChildKeys) (references : list (u32 * Z)) (base_refs : list u32) (affected : list u32) : outcome unit :=
  match affected with
  | [] => Some (Ok tt)
  | id :: affected =>
      let actual := (Z.of_N (default 0%N (base_refs !! N.to_nat id)) + default 0 (bt_get id references))%Z in
      row ← projection_get rows LIFE id;
      let declared := match row with Some (LifePut _ _ _ n) => Some (Z.of_N n) | Some (InodeDelete _) => Some 0%Z | _ => None end in
      alive ← live_in rows id;
      k ← kind_in rows id;
      if (actual <? 0)%Z || match declared with Some n => negb (n =? actual)%Z | None => false end || (negb alive && negb (actual =? 0)%Z)
         || (alive && bool_decide (k <> Some Dir) && (actual =? 0)%Z)
      then Some (Err (obad "namespace inode reference count"))
      else if alive : bool then references_loop rows keys references base_refs affected
      else
        left ← children_left rows keys id;
        if negb (left =? 0) then Some (Err (obad "deleted directory retains children"))
        else references_loop rows keys references base_refs affected
  end.
Definition check_references (rows : Projection) (keys : ChildKeys) (references : list (u32 * Z)) (affected : list u32) : outcome unit :=
  if is_empty affected then Some (Ok tt)
  else references_loop rows keys references (if existsb (fun id => id <? base_inode_count base)%N affected then name_references base else []) affected.

(** ** The graph *)

(** [check_roots]: the roots of the checkpoint without a row, then those of
    the log. *)
Fixpoint base_roots_kept (rows : Projection) (roots : list (u32 * bytes)) : option (list (u32 * bytes)) :=
  match roots with
  | [] => Some []
  | r :: roots => row ← projection_get rows ROOT r.1; kept ← base_roots_kept rows roots; Some (match row with None => r :: kept | Some _ => kept end)
  end.
Definition root_of (r : Record_) : option (u32 * bytes) := match r with RootPut id path => Some (id, path) | _ => None end.
Fixpoint roots_loop (rows : Projection) (roots : list (u32 * bytes)) (paths : list bytes) : outcome unit :=
  match roots with
  | [] => Some (Ok tt)
  | (id, path) :: roots =>
      dir ← live_dir_in rows id;
      own ← own_in rows id;
      let '(fresh, paths) := bs_insert path paths in
      if negb dir || bool_decide (own <> None) || negb fresh then Some (Err (obad "root liveness/incoming edge/duplicate path"))
      else roots_loop rows roots paths
  end.
Definition check_roots (rows : Projection) : outcome unit :=
  kept ← base_roots_kept rows (base_roots base);
  delta ← records rows ROOT;
  roots_loop rows (kept ++ omap root_of delta) [].

(** [touched_dirs]: its three loops. *)
Fixpoint live_only (rows : Projection) (ids dirs : list u32) : option (list u32) :=
  match ids with
  | [] => Some dirs
  | id :: ids => l ← live_in rows id; live_only rows ids (if l : bool then bs_add dirs id else dirs)
  end.
Fixpoint named_dirs (rows : Projection) (changed : list Record_) (dirs : list u32) : option (list u32) :=
  match changed with
  | [] => Some dirs
  | NamePut _ parent child _ _ :: changed =>
      k ← kind_in rows child;
      let dirs := bs_add dirs parent in
      named_dirs rows changed (if bool_decide (k = Some Dir) then bs_add dirs child else dirs)
  | _ :: changed => named_dirs rows changed dirs
  end.
Definition dir_row (r : Record_) : option u32 :=
  match r with LifePut id Dir _ _ | DirPut id _ _ _ _ | RootPut id _ | RootDelete id => Some id | _ => None end.
Fixpoint changed_dirs (rows : Projection) (changed : list Record_) (dirs : list u32) : option (list u32) :=
  match changed with
  | [] => Some dirs
  | r :: changed =>
      match dir_row r with
      | Some id => l ← live_in rows id; changed_dirs rows changed (if l : bool then bs_add dirs id else dirs)
      | None => changed_dirs rows changed dirs
      end
  end.
Definition touched_dirs (rows : Projection) (changed : list Record_) (old_dirs : list u32) : option (list u32) :=
  dirs ← live_only rows old_dirs [];
  dirs ← named_dirs rows changed dirs;
  changed_dirs rows changed dirs.

(** [reaches_root]. *)
Fixpoint reaches_root (fuel : nat) (rows : Projection) (at_ : u32) (seen : list u32) : outcome unit :=
  match fuel with
  | 0 => None
  | S fuel =>
      dir ← live_dir_in rows at_;
      let '(fresh, seen) := bs_insert at_ seen in
      if negb dir || negb fresh then Some (Err (obad "directory cycle/dead parent"))
      else
        own ← own_in rows at_;
        root ← root_in rows at_;
        match own with
        | None => if root : bool then Some (Ok tt) else Some (Err (obad "directory has no root"))
        | Some edge =>
            n ← name_in rows edge;
            match n with
            | None => Some (Err (obad "missing directory incoming edge"))
            | Some n =>
                if negb (is_inode (n_child n) && (n_child n =? at_)%N) || root then Some (Err (obad "directory incoming edge/root"))
                else reaches_root fuel rows (n_parent n) seen
            end
        end
  end.
(** The directories that can have an edge: those of the checkpoint, and those
    with a row. *)
Definition edge_fuel (rows : Projection) : option nat :=
  dirs ← records rows DIR; Some (N.to_nat (base_dir_count base) + length dirs + 2).

(** [validate_graph]. *)
Fixpoint all_reach (rows : Projection) (dirs : list u32) : outcome unit :=
  match dirs with
  | [] => Some (Ok tt)
  | dir :: dirs =>
      fuel ← edge_fuel rows;
      _ <~! reaches_root fuel rows dir [];
      all_reach rows dirs
  end.
Definition validate_graph (rows : Projection) (changed : list Record_) (old_dirs : list u32) : outcome unit :=
  _ <~! check_roots rows;
  dirs ← touched_dirs rows changed old_dirs;
  all_reach rows dirs.

(** ** A transaction *)

(** The first loop of [NameReplay::apply]. *)
Record Retired := mkRetired {
  rt_count : u32; rt_references : list (u32 * Z); rt_changes : list (u32 * Z); rt_keys : list ChildRow; rt_dirs : list u32; rt_births : list u32
}.
Definition name_row (r : Record_) : option u32 := match r with NamePut id _ _ _ _ | NameDelete id => Some id | _ => None end.
Definition is_put (r : Record_) : bool := match r with NamePut _ _ _ _ _ => true | _ => false end.
Definition drop_reference (rows : Projection) (child : u32) (acc : Retired) : option Retired :=
  if is_inode child then
    k ← kind_in rows child;
    Some (mkRetired (rt_count acc) (bump (rt_references acc) child (-1)) (bump (rt_changes acc) child (-1)) (rt_keys acc)
            (if bool_decide (k = Some Dir) then bs_add (rt_dirs acc) child else rt_dirs acc) (rt_births acc))
  else Some acc.
Fixpoint retire (rows : Projection) (counter : u32) (seq : u64) (changed : list Record_) (acc : Retired) : outcome Retired :=
  match changed with
  | [] => Some (Ok acc)
  | r :: changed =>
      match name_row r with
      | None => retire rows counter seq changed acc
      | Some id =>
          if (counter <=? id)%N then
            if negb (is_put r) then Some (Err (obad "delete unassigned name"))
            else retire rows counter seq changed
              (mkRetired (add32 (rt_count acc) 1) (rt_references acc) (rt_changes acc) (rt_keys acc) (rt_dirs acc) (bs_add (rt_births acc) id))
          else
            old ← name_in rows id;
            match old with
            | None => Some (Err (obad "retired name reused"))
            | Some old =>
                acc ← drop_reference rows (n_child old) acc;
                let keys := rt_keys acc ++ [mkRow (n_parent old, n_bytes old) seq None] in
                if is_put r then
                  retire rows counter seq changed (mkRetired (rt_count acc) (rt_references acc) (rt_changes acc) keys (rt_dirs acc) (rt_births acc))
                else
                  match sub32 (rt_count acc) 1 with
                  | None => Some (Err (obad "name counts"))
                  | Some n => retire rows counter seq changed (mkRetired n (rt_references acc) (rt_changes acc) keys (rt_dirs acc) (rt_births acc))
                  end
            end
      end
  end.

(** Its second loop. *)
Definition add_reference (m : list (u32 * Z)) (r : Record_) : list (u32 * Z) :=
  match r with NamePut _ _ child _ _ => if is_inode child then bump m child 1 else m | _ => m end.

(** What its last checks look at. *)
Definition affected_by (changes : list (u32 * Z)) (changed : list Record_) : list u32 :=
  fold_left (fun s r => match life_row r with Some id => bs_add s id | None => s end) changed
    (fold_left bs_add (filter (fun e => e.2 <> 0%Z) changes).*1 []).

(** [NameReplay::apply]. *)
Definition apply_names (self : NameReplay) (seq : u64) (next : Counters) (rs : list Record_) : outcome NameReplay :=
  let changed := (final_keys rs).*2 in
  retired <~! retire (nr_rows self) (nr_counter self) seq changed (mkRetired (nr_count self) (nr_references self) [] [] [] []);
  _ <~! check_births (rt_births retired) (nr_counter self) (names next) "name allocation gaps";
  let references := fold_left add_reference changed (rt_references retired) in
  let changes := fold_left add_reference changed (rt_changes retired) in
  rows ← apply_rows (nr_rows self) seq changed;
  removed ← insert_rows (nr_keys self) (rt_keys retired);
  added <~! added_keys rows removed changed seq;
  let key_rows := rt_keys retired ++ added in
  keys ← insert_rows (nr_keys self) key_rows;
  let touched := fold_left bs_add (map (fun r => (key r).1) key_rows) (nr_touched self) in
  _ <~! validate_graph rows changed (rt_dirs retired);
  _ <~! check_references rows keys references (affected_by changes changed);
  Some (Ok (mkReplay rows keys touched (filter (fun e => e.2 <> 0%Z) references) (names next) (rt_count retired))).

(** ** The namespace *)

(** [Namespace::new]. *)
Definition suppressed_name (r : Record_) : option u32 := id ← name_row r; if (id <? base_name_count base)%N then Some id else None.
Definition put_bytes (r : Record_) : option (u32 * bytes) := match r with NamePut id _ _ name _ => Some (id, name) | _ => None end.
Definition add_span (acc : list u32 * bytes * list (nat * u32)) (n : u32 * bytes) : list u32 * bytes * list (nat * u32) :=
  let '(ids, heap, spans) := acc in (ids ++ [n.1], heap ++ n.2 ++ [0%N], spans ++ [(length heap, n.1)]).
Definition namespace_new (rows : Projection) (keys : ChildKeys) (touched : list u32) (references : list (u32 * Z)) : option Names :=
  rs ← records rows NAME;
  let '(ids, heap, spans) := fold_left add_span (omap put_bytes rs) ([], [], []) in
  Some (mkNames rows keys touched (omap suppressed_name rs) ids heap spans references).

(** [Namespace::name], [sparse_name], [lookup], [children], [touches] and
    [suppresses]. *)
Definition ns_name (self : Names) (id : u32) : option (option Name) := name_in (ns_rows self) id.
Definition ns_sparse_name (self : Names) (id : u32) : option (option (option Name)) := sparse_name (ns_rows self) id.
Definition ns_lookup (self : Names) (parent : u32) (bytes : bytes) : option (option u32) := lookup_in (ns_rows self) (ns_keys self) parent bytes.
Definition ns_children (self : Names) (parent : u32) : option (list u32) := rows ← children_rows (ns_keys self) parent; Some (omap value (rows : list ChildRow)).
Definition ns_touches (self : Names) (dir : u32) : bool := bool_decide (dir ∈ ns_touched self).
Definition ns_suppresses (self : Names) (id : u32) : bool := bool_decide (id ∈ ns_suppressed self).
End graph.
