(* ===== verification/NameRows.v ===== *)
(** * NameRows: what a namespace's rows say

    The reads of [NameGraph] over a projection, as functions of the records
    applied to it; what a transaction's last words change of them; and the
    walk along a directory's edges, which answers whether the directory
    reaches a root. *)
From S2P Require Import Prelude Word Bytes DocSet Trigrams LogRecords BTree Runs Dormant Generation LogFrames Projection Overlay OverlayLife NameGraph.
#[local] Open Scope ferret_scope.

(** A set has no repeats, and grows by one. *)
Lemma bs_nodup {A} `{OrdLaws A} (s : list A) : bs_ok s -> NoDup s.
Proof.
  induction 1 as [|x s _ IH Hx]; [constructor|]. constructor; [|done]. intros Hin. rewrite Forall_forall in Hx. specialize (Hx x Hin). by rewrite cmp_refl in Hx.
Qed.

Lemma bs_add_length {A} `{OrdLaws A} (s : list A) x : bs_ok s -> x ∉ s -> length (bs_add s x) = S (length s).
Proof.
  unfold bs_add. induction 1 as [|y s _ IH _]; intros Hx; [done|]. cbn [bs_insert]. apply not_elem_of_cons in Hx as [Hxy Hx]. destruct (cmp x y) eqn:E.
  - by apply cmp_eq in E.
  - done.
  - specialize (IH Hx). destruct (bs_insert x s). cbn [snd length] in *. by rewrite IH.
Qed.

(** The bytes of a name: a component of a path. *)
Record component (bs : bytes) : Prop := { cp_some : bs <> []; cp_slash : 47%N ∉ bs; cp_dot : bs <> [46]%N; cp_dots : bs <> [46; 46]%N }.

(** A record whose ids are [u32]s. *)
Definition rec_ok (r : Record_) : Prop :=
  row_ok r /\ match r with
              | NamePut _ parent child _ _ => u32_ok parent /\ u32_ok child
              | DirPut _ name _ _ _ => forall n, name = Some n -> u32_ok n
              | _ => True
              end.

(** What a checked checkpoint promises of its names: their ids are [u32]s, a
    lookup finds the one name of a directory with those bytes, and the
    children of a directory are its names. *)
Class NameLaws (base : Base) : Prop := {
  nl_count : u32_ok (base_name_count base) /\ u32_ok (base_inode_count base);
  nl_name id : (id < base_name_count base)%N -> (n_parent (base_name base id) < base_inode_count base)%N /\ u32_ok (n_child (base_name base id)) /\
    (is_inode (n_child (base_name base id)) = true -> (n_child (base_name base id) < base_inode_count base)%N);
  nl_lookup p b id : base_lookup base p b = Some id <->
    (id < base_name_count base)%N /\ n_parent (base_name base id) = p /\ n_bytes (base_name base id) = b;
  nl_children p id : id ∈ base_children base p <-> (id < base_name_count base)%N /\ n_parent (base_name base id) = p;
  nl_references i : is_inode i = true -> default 0%N (name_references base !! N.to_nat i) =
    N.of_nat (length (filter (fun id => n_child (base_name base id) = i) (ids_below (base_name_count base))));
  nl_dir_name d n : base_dir_name base d = Some n -> u32_ok n;
  nl_roots : Forall (fun r => u32_ok r.1) (base_roots base)
}.

Section rows.
Context (base : Base) `{Hbase : !NameLaws base}.

(** ** The reads of a history *)

Definition name_at (H : list Record_) (id : u32) : option Name :=
  match newest_row H (row_key NAME id) with
  | Some (NamePut _ parent child name _) => Some (mkName parent child name)
  | Some (NameDelete _) => None
  | _ => if (id <? base_name_count base)%N then Some (base_name base id) else None
  end.
Definition live_at (H : list Record_) (id : u32) : bool :=
  match newest_row H (row_key LIFE id) with Some (LifePut _ _ _ _) => true | Some (InodeDelete _) => false | _ => (id <? base_inode_count base)%N end.
Definition kind_at (H : list Record_) (id : u32) : option Kind :=
  match newest_row H (row_key LIFE id) with
  | Some (LifePut _ k _ _) => Some k
  | Some (InodeDelete _) => None
  | _ => if (id <? base_dir_count base)%N then Some Dir else None
  end.
Definition dir_at (H : list Record_) (id : u32) : bool := live_at H id && match kind_at H id with Some Dir => true | _ => false end.
Lemma dir_at_iff H id : dir_at H id = true <-> live_at H id = true /\ kind_at H id = Some Dir.
Proof. unfold dir_at. rewrite andb_true_iff. destruct (kind_at H id) as [[]|]; naive_solver. Qed.
Definition own_at (H : list Record_) (id : u32) : option u32 :=
  match newest_row H (row_key DIR id) with
  | Some (DirPut _ name _ _ _) => name
  | _ => if (id <? base_dir_count base)%N then base_dir_name base id else None
  end.
Definition root_at (H : list Record_) (id : u32) : bool :=
  match newest_row H (row_key ROOT id) with
  | Some (RootPut _ _) => true
  | Some (RootDelete _) => false
  | _ => existsb (fun r => (r.1 =? id)%N) (base_roots base)
  end.

Section reads.
Context (p : Projection) (last : u64) (H : list Record_) (Hp : projection_ok p last H).

Lemma row_read c id : N.to_nat c < CATEGORIES -> u32_ok id -> projection_get p c id = Some (newest_row H (row_key c id)).
Proof. by apply (projection_get_spec p last). Qed.

Ltac read_row := intros Hid; match goal with |- ?f _ _ = _ => unfold f | |- ?f _ _ _ = _ => unfold f end;
  rewrite row_read by (try done; apply Nat.ltb_lt; done); cbn [mbind option_bind].

Lemma sparse_name_spec id : u32_ok id -> sparse_name p id =
  Some (match newest_row H (row_key NAME id) with
        | Some (NamePut _ parent child name _) => Some (Some (mkName parent child name)) | Some (NameDelete _) => Some None | _ => None end).
Proof. by read_row. Qed.
Lemma name_in_spec id : u32_ok id -> name_in base p id = Some (name_at H id).
Proof. intros Hid. unfold name_in, name_at. rewrite sparse_name_spec by done. cbn [mbind option_bind]. by destruct (newest_row H _) as [[]|]. Qed.
Lemma live_in_spec id : u32_ok id -> live_in base p id = Some (live_at H id).
Proof. by read_row. Qed.
Lemma kind_in_spec id : u32_ok id -> kind_in base p id = Some (kind_at H id).
Proof. by read_row. Qed.
Lemma live_dir_spec id : u32_ok id -> live_dir_in base p id = Some (dir_at H id).
Proof. intros Hid. unfold live_dir_in. rewrite live_in_spec, kind_in_spec by done. unfold dir_at. by destruct (kind_at H id) as [[]|]. Qed.
Lemma own_in_spec id : u32_ok id -> own_in base p id = Some (own_at H id).
Proof. by read_row. Qed.
Lemma root_in_spec id : u32_ok id -> root_in base p id = Some (root_at H id).
Proof. by read_row. Qed.
End reads.

(** ** What records change *)

Lemma newest_in_elem H k r : newest_row H k = Some r -> r ∈ H /\ record_key r = k.
Proof. intros Hr. by apply newest_row_key in Hr as [? ?]. Qed.

Section changes.
Context (H C : list Record_) (HC : Forall rec_ok C).

(** A row without a word in the transaction keeps its record. *)
Definition unchanged (c : N) (id : u32) : Prop := newest_row C (row_key c id) = None.

Lemma unchanged_row c id : unchanged c id -> newest_row (H ++ C) (row_key c id) = newest_row H (row_key c id).
Proof. unfold unchanged. intros Hn. by rewrite newest_row_app, Hn. Qed.

Lemma unchanged_name id : unchanged NAME id -> name_at (H ++ C) id = name_at H id.
Proof. intros Hn. unfold name_at. by rewrite unchanged_row. Qed.
Lemma unchanged_live id : unchanged LIFE id -> live_at (H ++ C) id = live_at H id /\ kind_at (H ++ C) id = kind_at H id.
Proof. intros Hn. unfold live_at, kind_at. by rewrite unchanged_row. Qed.
Lemma unchanged_own id : unchanged DIR id -> own_at (H ++ C) id = own_at H id.
Proof. intros Hn. unfold own_at. by rewrite unchanged_row. Qed.
Lemma unchanged_root id : unchanged ROOT id -> root_at (H ++ C) id = root_at H id.
Proof. intros Hn. unfold root_at. by rewrite unchanged_row. Qed.

(** The word on a row, by its category. *)
Lemma word_row c id r : u32_ok id -> newest_row C (row_key c id) = Some r -> r ∈ C /\ record_row r = (c, id).
Proof.
  intros Hid [Hin Hk]%newest_in_elem. split; [done|]. rewrite Forall_forall in HC. destruct (HC r Hin) as [Hr _]. rewrite record_key_row in Hk.
  apply row_key_inj in Hk as [H1 H2]; [|done|done]. destruct (record_row r). cbn in *. by subst.
Qed.
End changes.

(** Ids in a history's records and in the checkpoint are [u32]s. *)
Section ids.
Context (H : list Record_) (HH : Forall rec_ok H).

Lemma own_u32 d e : own_at H d = Some e -> u32_ok e.
Proof.
  unfold own_at. intros He. destruct (newest_row H (row_key DIR d)) as [r|] eqn:Er.
  - apply newest_in_elem in Er as [Hin _]. rewrite Forall_forall in HH. destruct (HH r Hin) as [_ Hr].
    destruct r; try (by apply Hr); (destruct (d <? base_dir_count base)%N; [by apply nl_dir_name in He|done]).
  - destruct (d <? base_dir_count base)%N; [by apply nl_dir_name in He|done].
Qed.

Lemma name_u32 id n : name_at H id = Some n -> u32_ok (n_parent n) /\ u32_ok (n_child n).
Proof.
  assert (Hb : (if (id <? base_name_count base)%N then Some (base_name base id) else None) = Some n -> u32_ok (n_parent n) /\ u32_ok (n_child n)).
  { destruct (N.ltb_spec id (base_name_count base)); [|done]. intros [= <-]. destruct (nl_name id) as (H1 & H2 & _); [done|]. split; [|done]. destruct nl_count as [_ Hc]. unfold u32_ok in *. lia. }
  unfold name_at. intros Hn. destruct (newest_row H (row_key NAME id)) as [r|] eqn:Er; [|by apply Hb].
  apply newest_in_elem in Er as [Hin _]. rewrite Forall_forall in HH. destruct (HH r Hin) as [_ Hr].
  destruct r; try (by apply Hb); try done. by injection Hn as <-.
Qed.
End ids.

(** ** The walk to a root *)

Inductive reach (H : list Record_) : u32 -> Prop :=
| reach_root d : dir_at H d = true -> own_at H d = None -> root_at H d = true -> reach H d
| reach_edge d e n : dir_at H d = true -> own_at H d = Some e -> name_at H e = Some n -> is_inode (n_child n) = true -> n_child n = d ->
    root_at H d = false -> reach H (n_parent n) -> reach H d.

(** The length of a directory's path. *)
Inductive reach_in (H : list Record_) : nat -> u32 -> Prop :=
| reach_in_root d : own_at H d = None -> reach_in H 0 d
| reach_in_edge d e n k : own_at H d = Some e -> name_at H e = Some n -> reach_in H k (n_parent n) -> reach_in H (S k) d.

Lemma reach_length H d : reach H d -> exists k, reach_in H k d.
Proof. induction 1 as [d _ Ho _|d e n _ Ho Hn _ _ _ _ [k IH]]; [exists 0; by constructor|exists (S k); by econstructor]. Qed.

Lemma reach_in_unique H j k d : reach_in H j d -> reach_in H k d -> j = k.
Proof.
  intros Hj. revert k. induction Hj as [d Ho|d e n j Ho Hn _ IH]; intros k Hk; inversion Hk as [d' Ho'|d' e' n' k' Ho' Hn' Hk']; subst; try congruence.
  f_equal. apply IH. rewrite Ho in Ho'. injection Ho' as <-. rewrite Hn in Hn'. by injection Hn' as <-.
Qed.

Section walk.
Context (p : Projection) (last : u64) (H : list Record_) (Hp : projection_ok p last H) (HH : Forall rec_ok H).

(** The directories that can have an edge. *)
Definition may_edge (dirs : list Record_) : list u32 := ids_below (base_dir_count base) ++ ((fun r => (record_row r).2) <$> dirs).

Lemma own_may_edge dirs d : newest_of H DIR dirs -> u32_ok d -> own_at H d <> None -> d ∈ may_edge dirs.
Proof.
  intros [_ Hdirs] Hd Ho. unfold may_edge. apply elem_of_app. unfold own_at in Ho.
  destruct (newest_row H (row_key DIR d)) as [r|] eqn:Er.
  - right. assert (Hok : Forall rec_ok H) by done. destruct (word_row H Hok DIR d r Hd Er) as [Hin Hrow].
    apply list_elem_of_fmap. exists r. rewrite Hrow. split; [done|]. apply Hdirs. rewrite Hrow. split; [done|]. by rewrite record_key_row, Hrow.
  - left. destruct (N.ltb_spec d (base_dir_count base)); [|done]. by apply elem_of_ids.
Qed.

Lemma reach_dir d : reach H d -> dir_at H d = true.
Proof. by destruct 1. Qed.

Lemma reaches_root_spec dirs fuel d seen : newest_of H DIR dirs -> u32_ok d -> bs_ok seen -> Forall (fun s => s ∈ may_edge dirs) seen ->
  length (may_edge dirs) < fuel + length seen ->
  (forall k, reach_in H k d -> forall s, s ∈ seen -> exists j, k < j /\ reach_in H j s) ->
  exists r, reaches_root base fuel p d seen = Some r /\ (r = Ok tt <-> reach H d).
Proof.
  intros Hdirs. revert d seen. induction fuel as [|fuel IH]; intros d seen Hd Hs Hmay Hfuel Hlong.
  { exfalso. rewrite Forall_forall in Hmay. pose proof (submseteq_length _ _ (NoDup_submseteq seen (may_edge dirs) (bs_nodup seen Hs) Hmay)). lia. }
  cbn [reaches_root]. rewrite (live_dir_spec p last H Hp d Hd). cbn [mbind option_bind]. pose proof (bs_insert_new seen d Hs) as Hnew.
  pose proof (elem_of_bs_add seen d) as Hadd. pose proof (bs_add_ok seen d Hs) as Hs'. pose proof (bs_add_length seen d Hs) as Hlen. unfold bs_add in *.
  destruct (bs_insert d seen) as [fresh seen']. cbn [fst snd] in *.
  destruct (dir_at H d) eqn:Edir; cbn [negb orb]; [|eexists; split; [done|]; split; [done|]; intros Hr%reach_dir; congruence].
  destruct fresh; cbn [negb].
  2: { eexists. split; [done|]. split; [done|]. intros [k Hk]%reach_length. exfalso. destruct (decide (d ∈ seen)) as [Hin|Hn]; [|by apply Hnew in Hn].
       destruct (Hlong k Hk d Hin) as (j & Hj & Hk'). pose proof (reach_in_unique _ _ _ _ Hk Hk'). lia. }
  assert (Hn : d ∉ seen) by (by apply Hnew). rewrite (own_in_spec p last H Hp d Hd), (root_in_spec p last H Hp d Hd). cbn [mbind option_bind].
  destruct (own_at H d) as [e|] eqn:Eo.
  2: { destruct (root_at H d) eqn:Er; eexists; (split; [done|]); [split; [intros _; by constructor|done]|]. split; [done|]. intros Hr. inversion Hr; subst; congruence. }
  pose proof (own_u32 H HH d e Eo) as He. rewrite (name_in_spec p last H Hp e He). cbn [mbind option_bind]. destruct (name_at H e) as [n|] eqn:En.
  2: { eexists. split; [done|]. split; [done|]. intros Hr. inversion Hr; subst; congruence. }
  destruct (is_inode (n_child n)) eqn:E1; cbn [andb negb orb].
  2: { eexists. split; [done|]. split; [done|]. intros Hr. inversion Hr; subst; congruence. }
  destruct (N.eqb_spec (n_child n) d) as [E2|E2]; cbn [andb negb orb].
  2: { eexists. split; [done|]. split; [done|]. intros Hr. inversion Hr; subst; congruence. }
  destruct (root_at H d) eqn:E3.
  { eexists. split; [done|]. split; [done|]. intros Hr. inversion Hr; subst; congruence. }
  destruct (name_u32 H HH e n En) as [Hpar _]. destruct (IH (n_parent n) seen' Hpar Hs') as (r & -> & Hr).
  - apply Forall_forall. intros s [->|Hin]%Hadd; [by apply own_may_edge; [..|rewrite Eo]| |done]. rewrite Forall_forall in Hmay. by apply Hmay.
  - rewrite Hlen by done. lia.
  - intros k Hk s [->|Hin]%Hadd; [|  |done].
    + exists (S k). split; [lia|]. by econstructor.
    + destruct (Hlong (S k) ltac:(by econstructor) s Hin) as (j & Hj & Hs2). exists j. split; [lia|done].
  - exists r. split; [done|]. rewrite Hr. split; [intros Hrp; by eapply reach_edge|]. intros Hrd. inversion Hrd as [|d' e' n' _ Ho' Hn' _ _ _ Hp']; subst; [congruence|].
    rewrite Eo in Ho'. injection Ho' as <-. rewrite En in Hn'. by injection Hn' as <-.
Qed.

(** Every directory walked to reaches a root. *)
Lemma all_reach_spec ds : Forall u32_ok ds -> exists r, all_reach base p ds = Some r /\ (r = Ok tt <-> Forall (reach H) ds).
Proof.
  destruct (records_spec p last H Hp DIR) as (dirs & Hd & Hnew). induction 1 as [|d ds Hdu _ IH]; cbn [all_reach]; [by eexists|].
  unfold edge_fuel. rewrite Hd. cbn [mbind option_bind].
  destruct (reaches_root_spec dirs (N.to_nat (base_dir_count base) + length dirs + 2) d [] Hnew Hdu) as (r & -> & Hr).
  - constructor.
  - constructor.
  - unfold may_edge, ids_below. rewrite length_app, !length_fmap, length_seq. cbn. lia.
  - intros k _ s Hin. by apply not_elem_of_nil in Hin.
  - destruct r as [[]|e]; cbn [oe_bind].
    + destruct IH as (r & -> & Hrs). exists r. split; [done|]. rewrite Forall_cons, Hrs. split; [intros ?; split; [by apply Hr|done]|by intros [_ ?]].
    + eexists. split; [done|]. split; [done|]. rewrite Forall_cons. intros [Hrd _]. by apply Hr in Hrd.
Qed.
End walk.
End rows.
