(* ===== verification/NameCheck.v ===== *)
(** * NameCheck: the checks of a transaction's names

    What each check of [NameGraph.apply_names] does: the names a transaction
    retires, the child keys it adds, the directories it touches and the
    reference counts it affects.  Every check answers; what an accepted
    transaction satisfies is stated over the reads of the history. *)
From S2P Require Import Prelude Word Bytes DocSet Trigrams LogRecords BTree Runs Dormant Generation LogFrames Projection Overlay OverlayLife NameGraph NameRows.
#[local] Open Scope ferret_scope.

(** ** A transaction's last words *)

Definition by_record_key (r : Record_) : option u64 := Some (record_key r).

Lemma final_keys_rows rs : final_keys rs = bt_rows by_record_key rs.
Proof. unfold final_keys, bt_rows. done. Qed.

Lemma newest_by_key rs k : newest_row rs k = last (filter (of_row by_record_key k) rs).
Proof. unfold newest_row. f_equal. apply list_filter_iff. intros r. unfold of_row, by_record_key. split; [by intros ->|by intros [= ->]]. Qed.

Section final.
Context (rs : list Record_).
#[local] Abbreviation C := (final_keys rs).*2.

Lemma final_newest k : newest_row C k = newest_row rs k.
Proof. by rewrite !newest_by_key, final_keys_rows, bt_rows_last. Qed.

Lemma final_elem r : r ∈ C -> r ∈ rs /\ newest_row C (record_key r) = Some r.
Proof.
  intros ([k r'] & -> & Hin)%list_elem_of_fmap. cbn [snd]. rewrite final_newest, newest_by_key, <- bt_rows_get, <- final_keys_rows.
  rewrite final_keys_rows in Hin. pose proof (bt_rows_elem by_record_key rs k r' Hin) as [[= <-] Hr]. split; [done|].
  rewrite final_keys_rows. by apply bt_get_elem; [apply bt_rows_ok|].
Qed.

Lemma final_ascending : StronglySorted (fun a b => (record_key a < record_key b)%N) C.
Proof.
  rewrite final_keys_rows. pose proof (bt_rows_ok by_record_key rs) as Hok. pose proof (bt_rows_elem by_record_key rs) as He. unfold bt_ok in Hok.
  induction Hok as [|[k r] l _ IH Hx]; [constructor|]. rewrite fmap_cons. constructor; [apply IH; intros k' r' Hin; apply He; by right|].
  apply Forall_fmap, Forall_forall. intros [k' r'] Hin. rewrite Forall_forall in Hx. specialize (Hx _ Hin). cbn in *.
  destruct (He k r ltac:(by left)) as [[= <-] _]. destruct (He k' r' ltac:(by right)) as [[= <-] _]. by apply N.compare_lt_iff.
Qed.
End final.

(** A list of last words: one per row, in order. *)
Record words (C : list Record_) : Prop := {
  w_ok : Forall rec_ok C;
  w_sorted : StronglySorted (fun a b => (record_key a < record_key b)%N) C
}.

Lemma sorted_newest C r : StronglySorted (fun a b => (record_key a < record_key b)%N) C -> r ∈ C -> newest_row C (record_key r) = Some r.
Proof.
  intros Hs. induction Hs as [|x C _ IH Hx]; intros Hin; [by apply not_elem_of_nil in Hin|]. rewrite Forall_forall in Hx.
  unfold newest_row in *. rewrite filter_cons. case_decide as Hk.
  - assert (Hnone : filter (fun r0 => record_key r0 = record_key r) C = []).
    { apply elem_of_nil_inv. intros y [Hy Hyin]%list_elem_of_filter. specialize (Hx y Hyin). lia. }
    rewrite Hnone. apply elem_of_cons in Hin as [->|Hin]; [done|]. specialize (Hx r Hin). lia.
  - apply elem_of_cons in Hin as [->|Hin]; [done|]. by apply IH.
Qed.

Lemma words_newest C c id r : words C -> u32_ok id -> newest_row C (row_key c id) = Some r <-> r ∈ C /\ record_row r = (c, id).
Proof.
  intros [Hok Hs] Hid. split; [by apply word_row|]. intros [Hin Hr]. rewrite <- (sorted_newest C r Hs Hin). by rewrite record_key_row, Hr.
Qed.

Lemma words_unchanged C c id : words C -> u32_ok id -> (forall r, r ∈ C -> record_row r <> (c, id)) -> unchanged C c id.
Proof. intros HC Hid Hn. unfold unchanged. destruct (newest_row C (row_key c id)) as [r|] eqn:E; [|done]. apply words_newest in E as [Hin Hr]; [|done..]. by apply Hn in Hin. Qed.

Lemma name_row_row r id : name_row r = Some id <-> record_row r = (NAME, id).
Proof. split; [|intros Hr]; destruct r; cbn in *; try done; try (by intros [= ->]); by injection Hr as ->. Qed.

Lemma words_u32 C r id c : words C -> r ∈ C -> record_row r = (c, id) -> u32_ok id.
Proof. intros [Hok _] Hin Hr. rewrite Forall_forall in Hok. destruct (Hok r Hin) as [Hrow _]. unfold row_ok in Hrow. by rewrite Hr in Hrow. Qed.

(** ** Retiring names *)

Definition opt_nat (b : bool) : Z := if b then 1%Z else 0%Z.

(** How many of a list satisfy a test, as an integer. *)
Definition tally {A} (f : A -> bool) (l : list A) : Z := foldr (fun x n => opt_nat (f x) + n)%Z 0%Z l.

Lemma tally_cons {A} (f : A -> bool) x l : tally f (x :: l) = (opt_nat (f x) + tally f l)%Z.
Proof. done. Qed.

Lemma tally_app {A} (f : A -> bool) k l : tally f (k ++ l) = (tally f k + tally f l)%Z.
Proof. induction k as [|x k IH]; [done|]. cbn [app]. rewrite !tally_cons, IH. lia. Qed.

Lemma bump_get m id d i : bt_ok m -> default 0%Z (bt_get i (bump m id d)) = (default 0 (bt_get i m) + (if (i =? id)%N then d else 0))%Z.
Proof.
  intros Hm. unfold bump. rewrite bt_get_insert by done. unfold cmp, N_ord. destruct (N.compare_spec i id) as [->|Hl|Hg].
  - by rewrite N.eqb_refl.
  - rewrite (proj2 (N.eqb_neq i id)) by lia. lia.
  - rewrite (proj2 (N.eqb_neq i id)) by lia. lia.
Qed.

Lemma bump_ok m id d : bt_ok m -> bt_ok (bump m id d).
Proof. apply bt_insert_ok. Qed.

Section retire.
Context (base : Base) `{Hbase : !NameLaws base}.
Context (p : Projection) (last : u64) (H : list Record_) (Hp : projection_ok p last H) (HH : Forall rec_ok H) (counter : u32) (seq : u64).

(** The name a word replaces, and whether a word is one of a new name. *)
Definition old_of (r : Record_) : option Name := id ← name_row r; if (counter <=? id)%N then None else name_at base H id.
Definition is_birth (r : Record_) : bool := match name_row r with Some id => (counter <=? id)%N | None => false end.
Definition is_death (r : Record_) : bool := match name_row r with Some id => negb (counter <=? id)%N && negb (is_put r) | None => false end.
Definition may_word (r : Record_) : Prop :=
  match name_row r with Some id => if (counter <=? id)%N then is_put r = true else name_at base H id <> None | None => True end.
Definition points_to (i : u32) (n : Name) : bool := is_inode (n_child n) && (n_child n =? i)%N.
Definition retired_key (n : Name) : ChildRow := mkRow (n_parent n, n_bytes n) seq None.

Record retired (C : list Record_) (acc acc' : Retired) : Prop := {
  re_may : Forall may_word C;
  re_keys : rt_keys acc' = rt_keys acc ++ (retired_key <$> omap old_of C);
  re_refs i : default 0%Z (bt_get i (rt_references acc')) = (default 0 (bt_get i (rt_references acc)) - tally (points_to i) (omap old_of C))%Z;
  re_changes i : default 0%Z (bt_get i (rt_changes acc')) = (default 0 (bt_get i (rt_changes acc)) - tally (points_to i) (omap old_of C))%Z;
  re_ok : bt_ok (rt_references acc') /\ bt_ok (rt_changes acc') /\ bs_ok (rt_dirs acc');
  re_dirs d : d ∈ rt_dirs acc' <-> d ∈ rt_dirs acc \/ exists n, n ∈ omap old_of C /\ points_to d n = true /\ kind_at base H d = Some Dir;
  re_births : rt_births acc' = rt_births acc ++ filter (N.le counter) (omap name_row C);
  re_count : (Z.of_N (rt_count acc) + tally is_birth C < 2 ^ 32)%Z -> Z.of_N (rt_count acc') = (Z.of_N (rt_count acc) + tally is_birth C - tally is_death C)%Z
}.

Definition acc_ok (acc : Retired) : Prop := bt_ok (rt_references acc) /\ bt_ok (rt_changes acc) /\ bs_ok (rt_dirs acc).

Lemma drop_reference_spec n acc : u32_ok (n_child n) -> acc_ok acc -> exists acc', drop_reference base p (n_child n) acc = Some acc' /\ acc_ok acc' /\
  rt_keys acc' = rt_keys acc /\ rt_births acc' = rt_births acc /\ rt_count acc' = rt_count acc /\
  (forall i, default 0%Z (bt_get i (rt_references acc')) = (default 0 (bt_get i (rt_references acc)) - opt_nat (points_to i n))%Z) /\
  (forall i, default 0%Z (bt_get i (rt_changes acc')) = (default 0 (bt_get i (rt_changes acc)) - opt_nat (points_to i n))%Z) /\
  (forall d, d ∈ rt_dirs acc' <-> d ∈ rt_dirs acc \/ points_to d n = true /\ kind_at base H d = Some Dir).
Proof.
  intros Hc (H1 & H2 & H3). unfold drop_reference, points_to. destruct (is_inode (n_child n)); cbn [andb].
  2: { exists acc. split; [done|]. split; [done|]. split_and!; try done; intros i; cbn [opt_nat]; [lia..|]. naive_solver. }
  rewrite (kind_in_spec base p last H Hp) by done. cbn [mbind option_bind]. eexists. split; [done|]. cbn [rt_references rt_changes rt_dirs rt_keys rt_births rt_count].
  split; [|split_and!; try done].
  - split_and!; [by apply bump_ok..|]. case_bool_decide; [by apply bs_add_ok|done].
  - intros i. rewrite bump_get by done. rewrite (N.eqb_sym i). destruct (n_child n =? i)%N; cbn [opt_nat]; lia.
  - intros i. rewrite bump_get by done. rewrite (N.eqb_sym i). destruct (n_child n =? i)%N; cbn [opt_nat]; lia.
  - intros d. case_bool_decide as Hk; [rewrite elem_of_bs_add by done|].
    + destruct (N.eqb_spec (n_child n) d) as [<-|Hne]; [split; [intros [_|?]; [by right|by left]|intros [?|_]; [by right|by left]]|].
      split; [intros [->|?]; [done|by left]|intros [?|[? _]]; [by right|done]].
    + split; [by left|]. destruct (N.eqb_spec (n_child n) d) as [<-|Hne]; [by intros [?|[_ ?]]|by intros [?|[? _]]].
Qed.

Lemma tally_nonneg {A} (f : A -> bool) l : (0 <= tally f l)%Z.
Proof. induction l as [|x l IH]; [done|]. rewrite tally_cons. destruct (f x); cbn [opt_nat]; lia. Qed.

Lemma retired_cons r C acc acc1 acc' : retired [r] acc acc1 -> retired C acc1 acc' -> retired (r :: C) acc acc'.
Proof.
  intros [A1 A2 A3 A4 A5 A6 A7 A8] [B1 B2 B3 B4 B5 B6 B7 B8].
  assert (Ho : omap old_of (r :: C) = omap old_of [r] ++ omap old_of C) by (change (r :: C) with ([r] ++ C); by rewrite omap_app).
  assert (Hn : omap name_row (r :: C) = omap name_row [r] ++ omap name_row C) by (change (r :: C) with ([r] ++ C); by rewrite omap_app).
  split.
  - change (r :: C) with ([r] ++ C). by apply Forall_app.
  - by rewrite Ho, B2, A2, fmap_app, <- app_assoc.
  - intros i. rewrite Ho, B3, A3, tally_app. lia.
  - intros i. rewrite Ho, B4, A4, tally_app. lia.
  - done.
  - intros d. rewrite Ho, B6, A6. setoid_rewrite elem_of_app. naive_solver.
  - by rewrite Hn, B7, A7, filter_app, <- app_assoc.
  - change (r :: C) with ([r] ++ C). rewrite !tally_app. intros Hfit. pose proof (tally_nonneg is_birth C). pose proof (tally_nonneg is_death [r]).
    rewrite A8 in B8 by lia. rewrite B8; lia.
Qed.

Lemma retire_spec C acc : acc_ok acc -> Forall rec_ok C ->
  StronglySorted (fun a b => (record_key a < record_key b)%N) C -> Forall (fun b => Forall (fun id => (b < id)%N) (omap name_row C)) (rt_births acc) ->
  exists r, retire base p counter seq C acc = Some r /\ forall acc', r = Ok acc' -> retired C acc acc'.
Proof.
  intros Hacc HC. revert acc Hacc. induction HC as [|r C Hr HC IH]; intros acc Hacc Hs Hb; cbn [retire].
  { eexists. split; [done|]. intros acc' [= <-]. destruct Hacc as (H1 & H2 & H3). split; cbn; rewrite ?app_nil_r; try done; try (by intros; lia); try lia; try (by constructor).
    intros d. split; [by left|]. intros [?|(n & Hin%not_elem_of_nil & _)]; done. }
  apply StronglySorted_inv in Hs as [Hs Hrs].
  (* A word that retires nothing more, and goes on. *)
  assert (Hgo : forall acc1, acc_ok acc1 -> retired [r] acc acc1 -> exists res, retire base p counter seq C acc1 = Some res /\
    forall acc', res = Ok acc' -> retired (r :: C) acc acc').
  { intros acc1 Hok1 Hret. destruct (IH acc1 Hok1 Hs) as (res & -> & Hres).
    - rewrite (re_births _ _ _ Hret). apply Forall_app. split.
      + eapply Forall_impl; [exact Hb|]. intros b Hbb. cbn [omap list_omap] in Hbb. destruct (name_row r); [by apply Forall_cons in Hbb as [_ ?]|done].
      + cbn [omap list_omap]. destruct (name_row r) as [id|] eqn:Er; [|constructor]. rewrite filter_cons. case_decide; [|by constructor]. constructor; [|constructor].
        apply Forall_forall. intros id' (y & Hy & Hid')%list_elem_of_omap. rewrite Forall_forall in Hrs, HC. specialize (Hrs y Hy). destruct (HC y Hy) as [Hyo _], Hr as [Hro _].
        apply name_row_row in Er, Hid'. unfold row_ok in *. rewrite !record_key_row, Er, Hid', !row_key_sum in Hrs by (by rewrite ?Er, ?Hid' in * ). cbn [fst snd] in Hrs. lia.
    - exists res. split; [done|]. intros acc' Ha. eapply retired_cons; [exact Hret|by apply Hres]. }
  destruct (name_row r) as [id|] eqn:Er.
  2: { apply Hgo; [done|]. destruct Hacc as (H1 & H2 & H3). assert (Ho : old_of r = None) by (unfold old_of; by rewrite Er).
       split; cbn [omap list_omap tally foldr]; rewrite ?Ho, ?Er; cbn [tally foldr]; rewrite ?app_nil_r; try done; try (by intros; lia).
       - constructor; [|constructor]. unfold may_word. by rewrite Er.
       - intros d. split; [by left|]. intros [?|(n & Hin%not_elem_of_nil & _)]; done.
       - unfold is_birth, is_death. rewrite Er. cbn [opt_nat]. lia. }
  pose proof (proj1 (name_row_row r id) Er) as Hrow. assert (Hid : u32_ok id) by (destruct Hr as [Hro _]; unfold row_ok in Hro; by rewrite Hrow in Hro).
  destruct (N.leb_spec counter id) as [Hge|Hlt].
  - destruct (is_put r) eqn:Ep; cbn [negb]; [|by eexists]. apply Hgo; [by destruct Hacc as (H1 & H2 & H3)|]. destruct Hacc as (H1 & H2 & H3).
    assert (Ho : old_of r = None) by (unfold old_of; rewrite Er; cbn; by rewrite (proj2 (N.leb_le _ _) Hge)).
    assert (Hbirth : is_birth r = true) by (unfold is_birth; rewrite Er; by apply N.leb_le). assert (Hdeath : is_death r = false) by (unfold is_death; by rewrite Er, (proj2 (N.leb_le _ _) Hge)).
    split; cbn [omap list_omap tally foldr rt_references rt_changes rt_keys rt_dirs rt_births rt_count]; rewrite ?Ho, ?Er, ?Hbirth, ?Hdeath; cbn [tally foldr opt_nat]; rewrite ?app_nil_r; try done; try (by intros; lia).
    + constructor; [|constructor]. unfold may_word. by rewrite Er, (proj2 (N.leb_le _ _) Hge).
    + intros d. split; [by left|]. intros [?|(n & Hin%not_elem_of_nil & _)]; done.
    + rewrite filter_cons, decide_True by done. rewrite filter_nil. apply bs_add_last. eapply Forall_impl; [exact Hb|]. intros b Hbb. cbn [omap list_omap] in Hbb. rewrite Er in Hbb.
      apply Forall_cons in Hbb as [? _]. by apply N.compare_lt_iff.
    + intros Hn. unfold add32. rewrite N.mod_small by lia. lia.
  - rewrite (name_in_spec base p last H Hp id Hid). cbn [mbind option_bind]. destruct (name_at base H id) as [n|] eqn:En; [|by eexists].
    destruct (name_u32 base H HH id n En) as [_ Hch]. destruct (drop_reference_spec n acc Hch Hacc) as (acc1 & -> & Hok1 & D1 & D2 & D3 & D4 & D5 & D6). cbn [mbind option_bind].
    assert (Ho : old_of r = Some n) by (unfold old_of; rewrite Er; cbn; by rewrite (proj2 (N.leb_gt _ _) Hlt)).
    assert (Hbirth : is_birth r = false) by (unfold is_birth; rewrite Er; by apply N.leb_gt).
    assert (Hdeath : is_death r = negb (is_put r)) by (unfold is_death; by rewrite Er, (proj2 (N.leb_gt _ _) Hlt)).
    assert (Hret : forall n', (Z.of_N n' = Z.of_N (rt_count acc) - opt_nat (negb (is_put r)))%Z ->
      retired [r] acc (mkRetired n' (rt_references acc1) (rt_changes acc1) (rt_keys acc1 ++ [mkRow (n_parent n, n_bytes n) seq None]) (rt_dirs acc1) (rt_births acc1))).
    { intros n' Hn'. destruct Hok1 as (K1 & K2 & K3).
      split; cbn [omap list_omap tally foldr rt_references rt_changes rt_keys rt_dirs rt_births rt_count]; rewrite ?Ho, ?Er, ?Hbirth, ?Hdeath; cbn [tally foldr opt_nat]; try done.
      - constructor; [|constructor]. unfold may_word. by rewrite Er, (proj2 (N.leb_gt _ _) Hlt), En.
      - by rewrite D1.
      - intros i. rewrite D4. lia.
      - intros i. rewrite D5. lia.
      - intros d. rewrite D6. split; [intros [?|[? ?]]; [by left|right; exists n; by split; [left|]]|].
        intros [?|(n1 & Hin%list_elem_of_singleton & ?)]; [by left|right; by subst].
      - rewrite filter_cons, decide_False by lia. by rewrite filter_nil, app_nil_r, D2.
      - lia. }
    destruct (is_put r) eqn:Ep.
    + apply Hgo; [done|]. apply Hret. rewrite D3. cbn. lia.
    + unfold sub32. destruct (N.leb_spec 1 (rt_count acc1)) as [H1|H1]; [|by eexists]. apply Hgo; [done|]. apply Hret. rewrite D3 in *. cbn. lia.
Qed.
End retire.

(** ** Child keys *)

(** A lookup, by the map of the keys. *)
Definition key_lookup (base : Base) (m : u32 * bytes -> option (u64 * option u32)) (H : list Record_) (parent : u32) (bs : bytes) : option u32 :=
  match m (parent, bs) with
  | Some (_, value) => value
  | None =>
      match base_lookup base parent bs with
      | Some id => match newest_row H (row_key NAME id) with None => Some id | Some _ => None end
      | None => None
      end
  end.

Section keys.
Context (base : Base) `{Hbase : !NameLaws base}.
Context (p : Projection) (last : u64) (H : list Record_) (Hp : projection_ok p last H) (HH : Forall rec_ok H).

Lemma base_id_u32 parent bs id : base_lookup base parent bs = Some id -> u32_ok id.
Proof. intros [Hid _]%nl_lookup. pose proof nl_count as [Hc _]. unfold u32_ok in *. lia. Qed.

Lemma lookup_in_spec keys m parent bs : runs_ok keys m -> lookup_in base p keys parent bs = Some (key_lookup base m H parent bs).
Proof.
  intros Hm. unfold lookup_in, key_lookup. rewrite (get_by_spec keys m Hm _ (parent, bs)) by (intros [a b]; done).
  destruct (m (parent, bs)) as [[s v]|]; cbn [fmap option_fmap option_map snd]; [done|].
  destruct (base_lookup base parent bs) as [id|] eqn:E; [|done]. rewrite (row_read p last H Hp NAME id) by (try (by apply Nat.ltb_lt); by eapply base_id_u32). done.
Qed.

(** What the checks ask of a new name. *)
Definition put_legal (m : u32 * bytes -> option (u64 * option u32)) (r : Record_) : Prop :=
  match r with
  | NamePut id parent child bs _ =>
      dir_at base H parent = true /\ (is_inode child = true -> live_at base H child = true) /\
      (forall other, key_lookup base m H parent bs = Some other -> other = id) /\
      (kind_at base H child = Some Dir -> own_at base H child = Some id /\ root_at base H child = false)
  | _ => True
  end.
Definition added_row (seq : u64) (r : Record_) : option ChildRow :=
  match r with NamePut id parent child bs _ => Some (mkRow (parent, bs) seq (Some id)) | _ => None end.

Lemma additions_spec removed m seq C acc : runs_ok removed m -> Forall rec_ok C -> exists r, additions base p removed C seq acc = Some r /\
  forall rows, r = Ok rows -> Forall (put_legal m) C /\ rows = acc ++ omap (added_row seq) C.
Proof.
  intros Hm HC. revert acc. induction HC as [|r C [Hr Hids] _ IH]; intros acc; cbn [additions].
  { eexists. split; [done|]. intros rows [= <-]. split; [constructor|]. by rewrite app_nil_r. }
  destruct r; cbn [omap list_omap added_row];
    try (destruct (IH acc) as (res & -> & Hres); exists res; split; [done|]; intros rows Hrows; destruct (Hres rows Hrows) as [H1 H2]; split; [by constructor|done]).
  destruct Hids as [Hpar Hch]. rewrite (live_dir_spec base p last H Hp parent Hpar), (live_in_spec base p last H Hp child Hch). cbn [mbind option_bind].
  destruct (dir_at base H parent) eqn:Ed; cbn [negb orb]; [|by eexists].
  destruct (is_inode child && negb (live_at base H child)) eqn:Ea; [by eexists|]. rewrite (lookup_in_spec removed m parent name Hm). cbn [mbind option_bind].
  destruct (match key_lookup base m H parent name with Some other => negb (other =? id)%N | None => false end) eqn:Eo; [by eexists|].
  rewrite (kind_in_spec base p last H Hp child Hch), (own_in_spec base p last H Hp child Hch), (root_in_spec base p last H Hp child Hch). cbn [mbind option_bind].
  destruct (bool_decide (kind_at base H child = Some Dir) && (bool_decide (own_at base H child <> Some id) || root_at base H child)) eqn:Ek; [by eexists|].
  destruct (IH (acc ++ [mkRow (parent, name) seq (Some id)])) as (res & -> & Hres). exists res. split; [done|]. intros rows Hrows. destruct (Hres rows Hrows) as [H1 ->].
  split; [constructor; [|done]|by rewrite <- app_assoc]. cbn [put_legal]. split_and!; [done| | |].
  - intros Hi. rewrite Hi in Ea. by destruct (live_at base H child).
  - intros other Ho. rewrite Ho in Eo. by apply negb_false_iff, N.eqb_eq in Eo.
  - intros Hk. rewrite bool_decide_true in Ek by done. cbn [andb] in Ek. apply orb_false_iff in Ek as [E1%bool_decide_eq_false%dec_stable E2]. done.
Qed.

Lemma by_key_order : (forall a b : ChildRow, by_key a b = false -> by_key b a = true) /\
  (forall a b c : ChildRow, by_key a b = true -> by_key b c = true -> by_key a c = true).
Proof.
  unfold by_key. split.
  - intros a b Hab. apply cmp_le_not. intros Hlt. unfold cmp_le in Hab. by rewrite Hlt in Hab.
  - intros a b c Hab Hbc. unfold cmp_le in *. destruct (cmp (key a) (key b)) eqn:E1; [apply cmp_eq in E1 as ->; done| |done].
    destruct (cmp (key b) (key c)) eqn:E2; [apply cmp_eq in E2 as <-; by rewrite E1| |done]. by rewrite (cmp_trans (key a) (key b) (key c)).
Qed.

Lemma added_keys_spec removed m seq C : runs_ok removed m -> Forall rec_ok C -> exists r, added_keys base p removed C seq = Some r /\
  forall rows, r = Ok rows -> Forall (put_legal m) C /\ rows ≡ₚ omap (added_row seq) C /\ NoDup (key <$> omap (added_row seq) C).
Proof.
  intros Hm HC. unfold added_keys. destruct (additions_spec removed m seq C [] Hm HC) as (r & -> & Hr). destruct r as [rows|e]; cbn [oe_bind]; [|by eexists].
  destruct (Hr rows eq_refl) as [H1 ->]. cbn [app]. set (rows := omap (added_row seq) C) in *.
  destruct (existsb _ (windows 2 (sort_by by_key rows))) eqn:Ew; [by eexists|]. eexists. split; [done|]. intros rows' [= <-]. split; [done|].
  pose proof (sort_by_perm by_key rows) as Hperm. split; [done|]. rewrite <- Hperm. destruct by_key_order as [Ht Htr].
  pose proof (sort_total_sorted by_key Ht Htr rows) as Hs. apply (neighbours_nodup (key <$> sort_by by_key rows)).
  - clear -Hs. induction Hs as [|x l _ IH Hx]; [constructor|]. rewrite fmap_cons. constructor; [done|]. by apply Forall_fmap.
  - intros i k Hi Hi'. rewrite list_lookup_fmap in Hi, Hi'. apply fmap_Some in Hi as (a & Ha & ->), Hi' as (b & Hb & Hk).
    assert (Hex : existsb (fun w => bool_decide (key <$> w !! 0 = key <$> w !! 1)) (windows 2 (sort_by by_key rows)) = true); [|congruence].
    apply existsb_exists. exists [a; b]. split; [apply list_elem_of_In, elem_of_windows; by exists i, a, b|]. cbn. apply bool_decide_eq_true. by rewrite Hk.
Qed.
End keys.
