(* ===== verification/NameKeys.v ===== *)
(** * NameKeys: the child keys of a namespace

    The keys find exactly the live names: a directory has one name with given
    bytes, and a lookup gives it.  A transaction whose removals and additions
    were checked keeps this, although its rows are one run in which they share
    a sequence. *)
From S2P Require Import Prelude Word Bytes DocSet Trigrams LogRecords BTree Runs Dormant Generation LogFrames Projection Overlay OverlayLife NameGraph NameRows NameCheck.
#[local] Open Scope ferret_scope.

Section keys.
Context (base : Base) `{Hbase : !NameLaws base}.
#[local] Abbreviation Keys := (u32 * bytes -> option (u64 * option u32)) (only parsing).

Definition keys_hold (m : Keys) (H : list Record_) : Prop := forall parent bs id,
  key_lookup base m H parent bs = Some id <-> u32_ok id /\ exists child, name_at base H id = Some (mkName parent child bs).

(** What the keys and the touched directories tell: an added key is a name's
    with a row, and a name of the checkpoint with a row, as any key, is below a
    touched directory. *)
Record keys_told (m : Keys) (H : list Record_) (touched : u32 -> Prop) : Prop := {
  kt_put k s id : m k = Some (s, Some id) -> newest_row H (row_key NAME id) <> None;
  kt_moved id : (id < base_name_count base)%N -> newest_row H (row_key NAME id) <> None -> touched (n_parent (base_name base id));
  kt_key parent bs : m (parent, bs) <> None -> touched parent
}.

Lemma told_base touched : keys_told (fun _ => None) [] touched.
Proof. by split. Qed.

Lemma told_more m H (touched touched' : u32 -> Prop) : (forall d, touched d -> touched' d) -> keys_told m H touched -> keys_told m H touched'.
Proof. intros Ht [H1 H2 H3]. split; eauto. Qed.

(** The names of the checkpoint alone. *)
Lemma keys_base : keys_hold (fun _ => None) [].
Proof.
  intros parent bs id. unfold key_lookup, name_at. change (newest_row [] ?k) with (@None Record_). cbn. split.
  - destruct (base_lookup base parent bs) as [i|] eqn:E; [|done]. intros [= <-]. pose proof (base_id_u32 base parent bs i E) as Hi. apply nl_lookup in E as (Hid & H1 & H2).
    split; [done|]. rewrite (proj2 (N.ltb_lt _ _) Hid). exists (n_child (base_name base i)). by destruct (base_name base i) as [? ? ?]; cbn in *; subst.
  - intros (_ & child & Hn). destruct (N.ltb_spec id (base_name_count base)) as [Hid|]; [|done]. injection Hn as Hn.
    rewrite (proj2 (nl_lookup parent bs id)); [done|]. by rewrite Hn.
Qed.

Section step.
Context (H C : list Record_) (HC : words C) (counter : u32) (seq : u64) (m : Keys) (Hm : keys_hold m H).
Context (Hfresh : forall id, u32_ok id -> name_at base H id <> None -> (id < counter)%N).
Context (added : list ChildRow) (Hperm : added ≡ₚ omap (added_row seq) C) (Hdup : NoDup (key <$> omap (added_row seq) C)).

#[local] Abbreviation H' := (H ++ C).
#[local] Abbreviation olds := (omap (old_of base H counter) C).
#[local] Abbreviation removed := (put_rows m (retired_key seq <$> olds)).
#[local] Abbreviation m' := (put_rows m ((retired_key seq <$> olds) ++ added)).

Lemma elem_of_olds n : n ∈ olds <-> exists r id, r ∈ C /\ name_row r = Some id /\ (id < counter)%N /\ name_at base H id = Some n.
Proof.
  rewrite list_elem_of_omap. unfold old_of. split.
  - intros (r & Hr & Hn). destruct (name_row r) as [id|] eqn:Er; cbn [mbind option_bind] in Hn; [|done]. destruct (N.leb_spec counter id); [done|]. by exists r, id.
  - intros (r & id & Hr & Er & Hlt & Hn). exists r. split; [done|]. rewrite Er. cbn. by rewrite (proj2 (N.leb_gt _ _) Hlt).
Qed.

Lemma elem_of_key_rows k v s : mkRow k s v ∈ omap (added_row seq) C <-> exists id child revealed, NamePut id k.1 child k.2 revealed ∈ C /\ v = Some id /\ s = seq.
Proof.
  rewrite list_elem_of_omap. split.
  - intros (r & Hr & Hrow). destruct r; try done. injection Hrow as <- <- <-. cbn. by eexists _, _, _.
  - intros (id & child & revealed & Hr & -> & ->). exists (NamePut id k.1 child k.2 revealed). split; [done|]. by destruct k.
Qed.

Lemma removed_at k : (exists n, n ∈ olds /\ (n_parent n, n_bytes n) = k) /\ removed k = Some (seq, None) \/
  (forall n, n ∈ olds -> (n_parent n, n_bytes n) <> k) /\ removed k = m k.
Proof.
  unfold put_rows. destruct (last (of_key k (retired_key seq <$> olds))) as [r|] eqn:El.
  - left. apply last_Some_elem_of, elem_of_key in El as [Hk (n & -> & Hn)%list_elem_of_fmap]. split; [by exists n|done].
  - right. split; [|done]. intros n Hn Hk. apply last_None in El. assert (Hin : retired_key seq n ∈ of_key k (retired_key seq <$> olds)).
    { apply elem_of_key. split; [done|]. by apply list_elem_of_fmap_2. } rewrite El in Hin. by apply not_elem_of_nil in Hin.
Qed.

Lemma keys_at k : (exists id child revealed, NamePut id k.1 child k.2 revealed ∈ C /\ m' k = Some (seq, Some id)) \/
  (forall id child revealed, NamePut id k.1 child k.2 revealed ∉ C) /\ m' k = removed k.
Proof.
  assert (Hlast : m' k = match last (of_key k added) with Some r => Some (sequence r, value r) | None => removed k end).
  { unfold put_rows. unfold of_key. rewrite filter_app, last_app. fold (of_key k added). by destruct (last (of_key k added)). }
  rewrite Hlast. destruct (last (of_key k added)) as [[k' s v]|] eqn:El.
  - left. apply last_Some_elem_of, elem_of_key in El as [Hk Hin]. cbn in Hk. subst k'. rewrite Hperm in Hin. apply elem_of_key_rows in Hin as (id & child & revealed & Hin & -> & ->).
    by exists id, child, revealed.
  - right. split; [|done]. intros id child revealed Hin. apply last_None in El. assert (Hx : mkRow k seq (Some id) ∈ of_key k added).
    { apply elem_of_key. split; [done|]. rewrite Hperm. apply elem_of_key_rows. by exists id, child, revealed. } rewrite El in Hx. by apply not_elem_of_nil in Hx.
Qed.

(** The name of a row with a word, and of one without. *)
Lemma name_word r id : r ∈ C -> name_row r = Some id ->
  name_at base H' id = match r with NamePut _ parent child bs _ => Some (mkName parent child bs) | _ => None end.
Proof.
  intros Hin Hr. pose proof (proj1 (name_row_row r id) Hr) as Hrow. pose proof (words_u32 C r id NAME HC Hin Hrow) as Hid.
  unfold name_at. rewrite newest_row_app, (proj2 (words_newest C NAME id r HC Hid)) by done. by destruct r.
Qed.

Lemma changed_or id : u32_ok id -> (exists r, r ∈ C /\ name_row r = Some id) \/ unchanged C NAME id.
Proof.
  intros Hid. unfold unchanged. destruct (newest_row C (row_key NAME id)) as [r|] eqn:E; [left|by right]. apply words_newest in E as [Hin Hr]; [|done..].
  exists r. split; [done|]. by apply name_row_row.
Qed.

Lemma unchanged_not r id : u32_ok id -> unchanged C NAME id -> r ∈ C -> name_row r <> Some id.
Proof. intros Hid Hn Hin Hr%name_row_row. unfold unchanged in Hn. by rewrite (proj2 (words_newest C NAME id r HC Hid)) in Hn. Qed.

Lemma lookup_kept (mm : Keys) parent bs id : mm (parent, bs) = m (parent, bs) ->
  key_lookup base mm H' parent bs = Some id <-> key_lookup base m H parent bs = Some id /\ (m (parent, bs) = None -> unchanged C NAME id).
Proof.
  intros Hmm. unfold key_lookup. rewrite Hmm. destruct (m (parent, bs)) as [[s v]|]; [by intuition|].
  destruct (base_lookup base parent bs) as [i|]; [|by intuition]. unfold unchanged. rewrite newest_row_app.
  destruct (newest_row C (row_key NAME i)) eqn:E; [|destruct (newest_row H (row_key NAME i)); [by intuition|]].
  - split; [done|]. destruct (newest_row H (row_key NAME i)); [by intuition|]. intros [[= ->] Hn]. specialize (Hn eq_refl). congruence.
  - split; [intros [= ->]; by split|by intros [? _]].
Qed.

(** A name that stays is not a retired one. *)
Lemma kept_apart parent child bs id : u32_ok id -> unchanged C NAME id -> name_at base H id = Some (mkName parent child bs) ->
  forall n, n ∈ olds -> (n_parent n, n_bytes n) <> (parent, bs).
Proof.
  intros Hid Hn Hname n (r & id' & Hr & Er & _ & Hn')%elem_of_olds [= Hp Hb]. pose proof (proj1 (name_row_row r id') Er) as Hrow.
  pose proof (words_u32 C r id' NAME HC Hr Hrow) as Hid'. assert (key_lookup base m H parent bs = Some id) by (apply Hm; split; [done|by exists child]).
  assert (key_lookup base m H parent bs = Some id') by (apply Hm; split; [done|exists (n_child n); rewrite Hn'; destruct n; cbn in *; by subst]).
  assert (id' = id) as -> by congruence. by apply (unchanged_not r id Hid Hn Hr).
Qed.

Lemma put_unique id child revealed id' child' revealed' parent bs :
  NamePut id parent child bs revealed ∈ C -> NamePut id' parent child' bs revealed' ∈ C -> id = id'.
Proof.
  intros H1 H2. assert (E1 : mkRow (parent, bs) seq (Some id) ∈ omap (added_row seq) C) by (apply elem_of_key_rows; by exists id, child, revealed).
  assert (E2 : mkRow (parent, bs) seq (Some id') ∈ omap (added_row seq) C) by (apply elem_of_key_rows; by exists id', child', revealed').
  apply list_elem_of_lookup in E1 as [i Hi], E2 as [j Hj]. assert (i = j) as ->.
  { apply (NoDup_lookup _ _ _ (parent, bs) Hdup); rewrite list_lookup_fmap; [by rewrite Hi|by rewrite Hj]. } rewrite Hi in Hj. by injection Hj.
Qed.

Lemma keys_step : Forall (put_legal base H' removed) C -> keys_hold m' H'.
Proof.
  intros Hlegal parent bs id. rewrite Forall_forall in Hlegal. split.
  - intros Hl. destruct (keys_at (parent, bs)) as [(i & child & revealed & Hin & Hk)|[Hno Hk]]; cbn [fst snd] in *.
    + unfold key_lookup in Hl. rewrite Hk in Hl. injection Hl as <-.
      split; [by eapply (words_u32 C _ i NAME HC Hin)|]. exists child. by rewrite (name_word _ i Hin).
    + destruct (removed_at (parent, bs)) as [[_ Hrm]|[Hnot Hrm]]; [unfold key_lookup in Hl; by rewrite Hk, Hrm in Hl|].
      apply (lookup_kept m' parent bs id) in Hl as [Hl Hu]; [|congruence]. apply Hm in Hl as (Hid & child & Hn). split; [done|]. exists child.
      destruct (changed_or id Hid) as [(r & Hr & Er)|Hun]; [|by rewrite unchanged_name]. exfalso. apply (Hnot (mkName parent child bs)); [|done].
      apply elem_of_olds. exists r, id. split_and!; [done|done| |done]. apply Hfresh; [done|by rewrite Hn].
  - intros (Hid & child & Hn). destruct (changed_or id Hid) as [(r & Hr & Er)|Hun].
    + rewrite (name_word r id Hr Er) in Hn. destruct r; try done. injection Hn as -> -> ->. injection Er as ->.
      destruct (keys_at (parent, bs)) as [(i & c & rv' & Hin & Hk)|[Hno _]]; cbn [fst snd] in *; [|by apply Hno in Hr].
      rewrite (put_unique id child revealed i c rv' parent bs Hr Hin). unfold key_lookup. by rewrite Hk.
    + rewrite unchanged_name in Hn by done. assert (Hl : key_lookup base m H parent bs = Some id) by (apply Hm; split; [done|by exists child]).
      destruct (removed_at (parent, bs)) as [[(n & Hin & Hkey) _]|[_ Hrm]]; [by apply (kept_apart parent child bs id Hid Hun Hn n) in Hkey|].
      destruct (keys_at (parent, bs)) as [(i & c & rv' & Hin & Hk)|[_ Hk]]; cbn [fst snd] in *.
      * exfalso. pose proof (Hlegal _ Hin) as (_ & _ & Hother & _). assert (id = i) as <-.
        { apply Hother, (lookup_kept removed parent bs id Hrm). by split. } by apply (unchanged_not _ id Hid Hun Hin).
      * apply (lookup_kept m' parent bs id); [congruence|]. by split.
Qed.

Lemma told_step touched : keys_told m H touched ->
  keys_told m' H' (fun d => touched d \/ exists r, r ∈ (retired_key seq <$> olds) ++ added /\ (key r).1 = d).
Proof.
  intros [T1 T2 T3]. assert (Hput : forall id p child bs rv, NamePut id p child bs rv ∈ C -> mkRow (p, bs) seq (Some id) ∈ added).
  { intros id p child bs rv Hin. rewrite Hperm. apply elem_of_key_rows. by exists id, child, rv. } split.
  - intros k s id Hk. destruct (keys_at k) as [(i & child & rv & Hin & Hi)|[_ Hi]]; rewrite Hi in Hk.
    + injection Hk as <- <-. rewrite newest_row_app. assert (Hrow : name_row (NamePut i k.1 child k.2 rv) = Some i) by done. apply name_row_row in Hrow.
      pose proof (words_u32 C _ i NAME HC Hin Hrow) as Hid. by rewrite (proj2 (words_newest C NAME i _ HC Hid) (conj Hin Hrow)).
    + destruct (removed_at k) as [[_ Hr]|[_ Hr]]; rewrite Hr in Hk; [done|]. rewrite newest_row_app. destruct (newest_row C _); [done|]. by eapply T1.
  - intros id Hid Hn. destruct (newest_row H (row_key NAME id)) as [r0|] eqn:E0; [left; apply T2; [done|by rewrite E0]|]. right.
    assert (Hu : u32_ok id) by (pose proof nl_count as [Hc _]; unfold u32_ok in *; lia). rewrite newest_row_app, E0 in Hn. destruct (newest_row C (row_key NAME id)) as [r|] eqn:E; [|done].
    apply words_newest in E as [Hin Hr%name_row_row]; [|done..]. exists (retired_key seq (base_name base id)). split; [|done]. apply elem_of_app. left. apply list_elem_of_fmap_2.
    assert (Hname : name_at base H id = Some (base_name base id)) by (unfold name_at; by rewrite E0, (proj2 (N.ltb_lt _ _) Hid)).
    apply elem_of_olds. exists r, id. split_and!; [done|done| |done]. apply Hfresh; [done|by rewrite Hname].
  - intros parent bs Hk. destruct (keys_at (parent, bs)) as [(i & child & rv & Hin & _)|[_ Hi]].
    + right. exists (mkRow (parent, bs) seq (Some i)). split; [|done]. apply elem_of_app. right. by eapply Hput.
    + rewrite Hi in Hk. destruct (removed_at (parent, bs)) as [[(n & Hn & [= <- <-]) _]|[_ Hr]]; [|left; rewrite Hr in Hk; by eapply T3].
      right. exists (retired_key seq n). split; [|done]. apply elem_of_app. left. by apply list_elem_of_fmap_2.
Qed.
End step.
End keys.
