(* ===== verification/NameForest.v ===== *)
(** * NameForest: every directory reaches a root

    A transaction is checked only where it touches the graph: the roots, the
    directories whose path may have changed, and the inodes whose references
    did.  That is enough: the checks of the touched directories and of the
    dead ones carry the forest, the edges and the counts of the whole
    namespace across the transaction. *)
From S2P Require Import Prelude Word Bytes DocSet Trigrams LogRecords BTree Runs Dormant Generation LogFrames Projection Overlay OverlayLife NameGraph NameRows NameCheck NameKeys.
#[local] Open Scope ferret_scope.

Section checks.
Context (base : Base) `{Hbase : !NameLaws base}.
Context (p : Projection) (last : u64) (H : list Record_) (Hp : projection_ok p last H) (HH : Forall rec_ok H).

(** ** Touched directories *)

Lemma live_only_spec ids dirs : Forall u32_ok ids -> bs_ok dirs -> exists ds, live_only base p ids dirs = Some ds /\ bs_ok ds /\
  forall d, d ∈ ds <-> d ∈ dirs \/ d ∈ ids /\ live_at base H d = true.
Proof.
  intros Hids. revert dirs. induction Hids as [|id ids Hid _ IH]; intros dirs Hd; cbn [live_only].
  { exists dirs. split; [done|]. split; [done|]. intros d. split; [by left|]. intros [?|[Hn%not_elem_of_nil _]]; done. }
  rewrite (live_in_spec base p last H Hp id Hid). cbn [mbind option_bind]. destruct (live_at base H id) eqn:El.
  - destruct (IH (bs_add dirs id)) as (ds & Hds & Hok & Hin); [by apply bs_add_ok|]. exists ds. split; [exact Hds|]. split; [done|]. intros d. rewrite Hin, elem_of_bs_add, elem_of_cons by done.
    split; [intros [[->|?]|[? ?]]; [by right; split; [left|]|by left|by right; split; [right|]]|intros [?|[[->|?] ?]]; [by left; right|by left; left|by right]].
  - destruct (IH dirs Hd) as (ds & Hds & Hok & Hin). exists ds. split; [exact Hds|]. split; [done|]. intros d. rewrite Hin, elem_of_cons.
    split; [intros [?|[? ?]]; [by left|by right; split; [right|]]|intros [?|[[->|?] ?]]; [by left|congruence|by right]].
Qed.

Lemma named_dirs_spec C dirs : Forall rec_ok C -> bs_ok dirs -> exists ds, named_dirs base p C dirs = Some ds /\ bs_ok ds /\
  (forall d, d ∈ dirs -> d ∈ ds) /\
  (forall id parent child bs revealed, NamePut id parent child bs revealed ∈ C -> parent ∈ ds /\ (kind_at base H child = Some Dir -> child ∈ ds)) /\
  forall d, d ∈ ds -> d ∈ dirs \/ u32_ok d.
Proof.
  intros HC. revert dirs. induction HC as [|r C [_ Hr] _ IH]; intros dirs Hd; cbn [named_dirs].
  { exists dirs. split; [done|]. split; [done|]. split; [done|]. split; [by intros ????? ?%not_elem_of_nil|by left]. }
  destruct r; try (destruct (IH dirs Hd) as (ds & Hds & H1 & H2 & H3 & H4); exists ds; split; [exact Hds|]; split; [done|]; split; [done|]; split;
    [intros i q ch bs rv [?|Hin]%elem_of_cons; [done|by apply (H3 i q ch bs rv)]|done]).
  destruct Hr as [Hpar Hch]. rewrite (kind_in_spec base p last H Hp child Hch). cbn [mbind option_bind]. set (dirs1 := bs_add dirs parent). assert (Hd1 : bs_ok dirs1) by by apply bs_add_ok.
  set (dirs2 := if bool_decide (kind_at base H child = Some Dir) then bs_add dirs1 child else dirs1). assert (Hd2 : bs_ok dirs2) by (unfold dirs2; case_bool_decide; [by apply bs_add_ok|done]).
  assert (Hsub : forall d, d ∈ dirs1 -> d ∈ dirs2) by (intros d Hin; unfold dirs2; case_bool_decide; [apply elem_of_bs_add; [done|by right]|done]).
  destruct (IH dirs2 Hd2) as (ds & Hds & H1 & H2 & H3 & H4). exists ds. split; [exact Hds|]. split; [done|]. split; [|split].
  - intros d Hin. apply H2, Hsub. unfold dirs1. apply elem_of_bs_add; [done|by right].
  - intros i q ch bs rv [[= -> -> -> -> ->]|Hin]%elem_of_cons; [|by apply (H3 i q ch bs rv)]. split.
    + apply H2, Hsub. unfold dirs1. apply elem_of_bs_add; [done|by left].
    + intros Hk. apply H2. unfold dirs2. rewrite bool_decide_true by done. apply elem_of_bs_add; [done|by left].
  - intros d [Hin|?]%H4; [|by right]. assert (Hin1 : d = child \/ d ∈ dirs1) by (unfold dirs2 in Hin; case_bool_decide; [by apply elem_of_bs_add in Hin|by right]).
    destruct Hin1 as [->|Hin1]; [by right|]. unfold dirs1 in Hin1. apply elem_of_bs_add in Hin1 as [->|?]; [by right|by left|done].
Qed.

Lemma dir_row_u32 r id : row_ok r -> dir_row r = Some id -> u32_ok id.
Proof. intros Hr Hd. destruct r as [? [] ? ?| | | | | | | | | | | | | | | |]; try done; by injection Hd as <-. Qed.

Lemma changed_dirs_spec C dirs : Forall rec_ok C -> bs_ok dirs -> exists ds, changed_dirs base p C dirs = Some ds /\ bs_ok ds /\
  (forall d, d ∈ dirs -> d ∈ ds) /\ (forall r d, r ∈ C -> dir_row r = Some d -> live_at base H d = true -> d ∈ ds) /\
  forall d, d ∈ ds -> d ∈ dirs \/ u32_ok d.
Proof.
  intros HC. revert dirs. induction HC as [|r C [Hr _] _ IH]; intros dirs Hd; cbn [changed_dirs].
  { exists dirs. split; [done|]. split; [done|]. split; [done|]. split; [by intros ?? ?%not_elem_of_nil|by left]. }
  destruct (dir_row r) as [id|] eqn:Er.
  2: { destruct (IH dirs Hd) as (ds & Hds & H1 & H2 & H3 & H4). exists ds. split; [exact Hds|]. split; [done|]. split; [done|]. split; [|done].
       intros r' d [->|Hin]%elem_of_cons Hrow Hl; [congruence|by eapply H3]. }
  pose proof (dir_row_u32 r id Hr Er) as Hid. rewrite (live_in_spec base p last H Hp id Hid). cbn [mbind option_bind].
  set (dirs1 := if live_at base H id then bs_add dirs id else dirs). assert (Hd1 : bs_ok dirs1) by (unfold dirs1; destruct (live_at base H id); [by apply bs_add_ok|done]).
  assert (Hsub : forall d, d ∈ dirs -> d ∈ dirs1) by (intros d Hin; unfold dirs1; destruct (live_at base H id); [apply elem_of_bs_add; [done|by right]|done]).
  destruct (IH dirs1 Hd1) as (ds & Hds & H1 & H2 & H3 & H4). exists ds. split; [exact Hds|]. split; [done|]. split; [auto|]. split.
  - intros r' d [->|Hin]%elem_of_cons Hrow Hl; [|by eapply H3]. rewrite Er in Hrow. injection Hrow as <-. apply H2. unfold dirs1. rewrite Hl. apply elem_of_bs_add; [done|by left].
  - intros d [Hin|?]%H4; [|by right]. unfold dirs1 in Hin. destruct (live_at base H id); [apply elem_of_bs_add in Hin as [->|?]; [by right|by left|done]|by left].
Qed.

(** What a transaction's touched directories cover. *)
Record touches (C : list Record_) (old_dirs ds : list u32) : Prop := {
  to_u32 : Forall u32_ok ds;
  to_old d : d ∈ old_dirs -> live_at base H d = true -> d ∈ ds;
  to_put id parent child bs revealed : NamePut id parent child bs revealed ∈ C -> parent ∈ ds /\ (kind_at base H child = Some Dir -> child ∈ ds);
  to_row r d : r ∈ C -> dir_row r = Some d -> live_at base H d = true -> d ∈ ds
}.

Lemma touched_dirs_spec C old_dirs : Forall rec_ok C -> Forall u32_ok old_dirs -> exists ds, touched_dirs base p C old_dirs = Some ds /\ touches C old_dirs ds.
Proof.
  intros HC Hold. unfold touched_dirs. destruct (live_only_spec old_dirs [] Hold) as (d1 & -> & K1 & E1); [constructor|]. cbn [mbind option_bind].
  destruct (named_dirs_spec C d1 HC K1) as (d2 & -> & K2 & S2 & E2 & U2). cbn [mbind option_bind].
  destruct (changed_dirs_spec C d2 HC K2) as (d3 & -> & K3 & S3 & E3 & U3). exists d3. split; [done|]. split.
  - apply Forall_forall. intros d [[Hin|?]%U2|?]%U3; [|done..]. apply E1 in Hin as [Hn%not_elem_of_nil|[Hin _]]; [done|]. rewrite Forall_forall in Hold. by apply Hold.
  - intros d Hin Hl. apply S3, S2, E1. by right.
  - intros id parent child bs rv Hin. destruct (E2 id parent child bs rv Hin) as [? Hc]. split; [by apply S3|]. intros Hk. by apply S3, Hc.
  - done.
Qed.

(** ** Roots *)

Lemma base_roots_kept_spec roots : Forall (fun r => u32_ok r.1) roots -> exists kept, base_roots_kept p roots = Some kept /\
  (forall r, r ∈ kept <-> r ∈ roots /\ newest_row H (row_key ROOT r.1) = None).
Proof.
  induction 1 as [|r roots Hr _ (kept & Hk & IH)]; cbn [base_roots_kept]; [exists []; split; [done|]; intros r; split; [by intros ?%not_elem_of_nil|by intros [?%not_elem_of_nil _]]|].
  rewrite (row_read p last H Hp ROOT r.1) by (try done; apply Nat.ltb_lt; done). cbn [mbind option_bind]. rewrite Hk. cbn [mbind option_bind].
  destruct (newest_row H (row_key ROOT r.1)) eqn:E; eexists; (split; [done|]); intros x; rewrite ?elem_of_cons, IH.
  - split; [intros [? ?]; split; [by right|done]|]. intros [[->|?] ?]; [congruence|done].
  - split; [intros [->|[? ?]]; [by split; [left|]|by split; [right|]]|]. intros [[->|?] ?]; [by left|by right].
Qed.

Lemma roots_loop_spec roots paths : Forall (fun r => u32_ok r.1) roots -> bs_ok paths -> exists r, roots_loop base p roots paths = Some r /\
  (r = Ok tt -> Forall (fun r => dir_at base H r.1 = true /\ own_at base H r.1 = None /\ r.2 ∉ paths) roots /\ NoDup roots.*2).
Proof.
  intros Hr. revert paths. induction Hr as [|[id path] roots Hid _ IH]; intros paths Hps; cbn [roots_loop]; [exists (Ok tt); split; [done|]; split; constructor|].
  cbn [fst] in Hid. rewrite (live_dir_spec base p last H Hp id Hid), (own_in_spec base p last H Hp id Hid). cbn [mbind option_bind].
  pose proof (bs_insert_new paths path Hps) as Hnew. pose proof (elem_of_bs_add paths path) as Hadd. pose proof (bs_add_ok paths path Hps) as Hok. unfold bs_add in *.
  destruct (bs_insert path paths) as [fresh paths']. cbn [fst snd] in *.
  destruct (negb (dir_at base H id) || bool_decide (own_at base H id <> None) || negb fresh) eqn:E; [by eexists|].
  apply orb_false_iff in E as [[E1%negb_false_iff E2%bool_decide_eq_false%dec_stable]%orb_false_iff E3%negb_false_iff].
  destruct (IH paths' Hok) as (r & -> & Hspec). exists r. split; [done|]. intros Hres. destruct (Hspec Hres) as [H1 H2]. split.
  - constructor; [cbn [fst snd]; split_and!; [done|done|by apply Hnew]|]. eapply Forall_impl; [exact H1|]. intros x (? & ? & Hx). split_and!; [done..|]. intros Hin. apply Hx, Hadd; [done|by right].
  - rewrite fmap_cons. constructor; [|done]. intros ([id' path'] & Hpath & Hin)%list_elem_of_fmap. cbn [snd] in Hpath. subst path'. rewrite Forall_forall in H1. destruct (H1 _ Hin) as (_ & _ & Hx).
    apply Hx, Hadd; [done|by left].
Qed.

Lemma check_roots_spec : exists r, check_roots base p = Some r /\
  (r = Ok tt -> forall d, u32_ok d -> root_at base H d = true -> dir_at base H d = true /\ own_at base H d = None).
Proof.
  unfold check_roots. destruct (base_roots_kept_spec (base_roots base) nl_roots) as (kept & -> & Hkept). cbn [mbind option_bind].
  destruct (records_spec p last H Hp ROOT) as (delta & -> & _ & Hdelta). cbn [mbind option_bind].
  assert (Hrow : forall r, r ∈ delta -> row_ok r). { intros r [_ [Hin _]%newest_in_elem]%Hdelta. rewrite Forall_forall in HH. by apply (HH r Hin). }
  destruct (roots_loop_spec (kept ++ omap root_of delta) []) as (r & -> & Hr); [|constructor|].
  { apply Forall_app. split.
    - apply Forall_forall. intros x [Hx _]%Hkept. pose proof nl_roots as Hroots. rewrite Forall_forall in Hroots. by apply Hroots.
    - apply Forall_forall. intros x (y & Hy & Hx)%list_elem_of_omap. specialize (Hrow y Hy). by destruct y; try done; injection Hx as <-. }
  exists r. split; [done|]. intros Hres d Hd Hroot. destruct (Hr Hres) as [Hall _]. rewrite Forall_forall in Hall.
  assert (Hin : exists path, (d, path) ∈ kept ++ omap root_of delta); [|destruct Hin as [path Hin]; destruct (Hall _ Hin) as (? & ? & _); done].
  unfold root_at in Hroot. destruct (newest_row H (row_key ROOT d)) as [x|] eqn:E.
  - pose proof (word_row H HH ROOT d x Hd E) as [_ Hx]. destruct x; try done. injection Hx as ->. exists path. apply elem_of_app. right. apply list_elem_of_omap.
    exists (RootPut d path). split; [|done]. apply Hdelta. by split.
  - apply existsb_exists in Hroot as ([d' path] & Hin%list_elem_of_In & Heq%N.eqb_eq). cbn in Heq. subst d'. exists path. apply elem_of_app. left. apply Hkept. by split.
Qed.

Lemma validate_graph_spec C old_dirs : Forall rec_ok C -> Forall u32_ok old_dirs -> exists r, validate_graph base p C old_dirs = Some r /\
  (r = Ok tt -> (forall d, u32_ok d -> root_at base H d = true -> dir_at base H d = true /\ own_at base H d = None) /\
     exists ds, touches C old_dirs ds /\ Forall (reach base H) ds).
Proof.
  intros HC Hold. unfold validate_graph. destruct check_roots_spec as (r & -> & Hroots). destruct r as [[]|e]; cbn [oe_bind]; [|by eexists].
  destruct (touched_dirs_spec C old_dirs HC Hold) as (ds & -> & Hds). cbn [mbind option_bind].
  destruct (all_reach_spec base p last H Hp HH ds (to_u32 _ _ _ Hds)) as (r & -> & Hr). exists r. split; [done|]. intros Hres. split; [by apply Hroots|]. exists ds. split; [done|]. by apply Hr.
Qed.
End checks.

(** ** References *)

Lemma N_lt (a b : N) : (a < b)%N -> cmp a b = Lt.
Proof. apply N.compare_lt_iff. Qed.

(** The references of an inode, as the check counts them, and what it asks. *)
Definition refs_of (base : Base) (references : list (u32 * Z)) (i : u32) : Z :=
  (Z.of_N (default 0%N (name_references base !! N.to_nat i)) + default 0 (bt_get i references))%Z.
Record ref_legal (base : Base) (H : list Record_) (keys : u32 * bytes -> option (u64 * option u32)) (references : list (u32 * Z)) (i : u32) : Prop := {
  rl_declared id k flags n : newest_row H (row_key LIFE i) = Some (LifePut id k flags n) -> Z.of_N n = refs_of base references i;
  rl_dead : live_at base H i = false -> refs_of base references i = 0%Z;
  rl_used : live_at base H i = true -> kind_at base H i <> Some Dir -> refs_of base references i <> 0%Z;
  rl_childless : live_at base H i = false -> forall bs v s, keys (i, bs) = Some (s, v) -> v = None;
  rl_base_childless : live_at base H i = false -> (i < base_inode_count base)%N -> Forall (fun id => newest_row H (row_key NAME id) <> None) (base_children base i)
}.

Section references.
Context (base : Base) `{Hbase : !NameLaws base}.
Context (p : Projection) (last : u64) (H : list Record_) (Hp : projection_ok p last H).
Context (keys : ChildKeys) (m : u32 * bytes -> option (u64 * option u32)) (Hkeys : runs_ok keys m).

Lemma count_free_spec ids : Forall u32_ok ids -> exists n, count_free p ids = Some n /\ (n = 0 -> Forall (fun id => newest_row H (row_key NAME id) <> None) ids).
Proof.
  induction 1 as [|id ids Hid _ (n & Hn & IH)]; cbn [count_free]; [exists 0; by split|].
  rewrite (row_read p last H Hp NAME id) by (try done; apply Nat.ltb_lt; done). cbn [mbind option_bind]. rewrite Hn. cbn [mbind option_bind].
  eexists. split; [done|]. destruct (newest_row H (row_key NAME id)) eqn:E; [|done]. intros ->. constructor; [by rewrite E|by apply IH].
Qed.

Lemma ordered_nodup {K V} `{OrdLaws K} (l : list (Row K V)) : ordered_rows l -> NoDup (key <$> l).
Proof.
  induction 1 as [|r l _ IH Hr]; [constructor|]. rewrite fmap_cons. constructor; [|done]. intros (r' & Hk & Hin)%list_elem_of_fmap. rewrite Forall_forall in Hr.
  specialize (Hr r' Hin). unfold key_lt in Hr. by rewrite Hk, cmp_refl in Hr.
Qed.

Lemma children_rows_spec i : (i + 1 < 2 ^ 32)%N -> exists rows, children_rows keys i = Some rows /\ NoDup (key <$> rows) /\
  forall r, r ∈ rows <-> (key r).1 = i /\ m (key r) = Some (sequence r, value r).
Proof.
  intros Hi. unfold children_rows, add32. rewrite N.mod_small by done.
  assert (Hle : cmp_le ((i, []) : u32 * bytes) ((i + 1)%N, []) = true).
  { unfold cmp_le. rewrite cmp_pair. by rewrite (N_lt i (i + 1)) by lia. }
  destruct (latest_range_spec keys m Hkeys (i, []) ((i + 1)%N, []) Hle) as (rows & -> & Ho & Hin). exists rows. split; [done|]. split; [by apply ordered_nodup|]. intros r. rewrite Hin.
  assert (Hw : within_keys ((i, []) : u32 * bytes) ((i + 1)%N, []) r <-> (key r).1 = i); [|tauto].
  unfold within_keys. destruct (key r) as [a b]. cbn [fst]. unfold cmp_le. rewrite !cmp_pair. destruct (N.lt_trichotomy a i) as [Hl|[->|Hg]].
  - rewrite (proj2 (cmp_gt_lt i a)) by (by apply N_lt). split; [by intros [? _]|lia].
  - rewrite cmp_refl, (N_lt i (i + 1)) by lia. split; [done|]. intros _. by destruct b.
  - rewrite (N_lt i a) by done. split; [|lia]. intros [_ Hc]. exfalso. destruct (N.lt_trichotomy a (i + 1)) as [?|[->|Hg2]]; [lia| |].
    + rewrite cmp_refl in Hc. by destruct b.
    + by rewrite (proj2 (cmp_gt_lt a (i + 1)%N)) in Hc by (by apply N_lt).
Qed.

Lemma children_left_spec i : (i + 1 < 2 ^ 32)%N -> exists n, children_left base p keys i = Some n /\
  (n = 0 -> (forall bs v s, m (i, bs) = Some (s, v) -> v = None) /\
    ((i < base_inode_count base)%N -> Forall (fun id => newest_row H (row_key NAME id) <> None) (base_children base i))).
Proof.
  intros Hi. unfold children_left. destruct (children_rows_spec i Hi) as (rows & Hrows & _ & Hin).
  assert (Hbc : exists n, (if (i <? base_inode_count base)%N then count_free p (base_children base i) else Some 0) = Some n /\
    (n = 0 -> (i < base_inode_count base)%N -> Forall (fun id => newest_row H (row_key NAME id) <> None) (base_children base i))).
  { destruct (N.ltb_spec i (base_inode_count base)); [|exists 0; split; [done|lia]].
    destruct (count_free_spec (base_children base i)) as (n & Hn & Hf); [|exists n; split; [done|auto]].
    apply Forall_forall. intros id [Hid _]%nl_children. pose proof nl_count as [Hc _]. unfold u32_ok in *. lia. }
  destruct Hbc as (nb & -> & Hnb). cbn [mbind option_bind]. rewrite Hrows. cbn [mbind option_bind]. eexists. split; [done|]. intros Hz. split; [|apply Hnb; lia].
  intros bs v s Hm. destruct v as [v|]; [|done]. exfalso.
  assert (Hx : mkRow (i, bs) s (Some v) ∈ filter (fun r => value r <> None) rows) by (apply list_elem_of_filter; split; [done|]; by apply Hin).
  destruct (filter (fun r => value r <> None) rows); [by apply not_elem_of_nil in Hx|cbn in Hz; lia].
Qed.

Lemma references_loop_spec references base_refs affected : Forall (fun i => (i + 1 < 2 ^ 32)%N) affected ->
  Forall (fun i => default 0%N (base_refs !! N.to_nat i) = default 0%N (name_references base !! N.to_nat i)) affected ->
  exists r, references_loop base p keys references base_refs affected = Some r /\ (r = Ok tt -> Forall (ref_legal base H m references) affected).
Proof.
  intros Ha. induction Ha as [|i affected Hi _ IH]; intros Hrefs; cbn [references_loop]; [by eexists|]. apply Forall_cons in Hrefs as [Href Hrefs].
  assert (Hid : u32_ok i) by (unfold u32_ok; lia). rewrite (row_read p last H Hp LIFE i) by (try done; apply Nat.ltb_lt; done). cbn [mbind option_bind].
  rewrite (live_in_spec base p last H Hp i Hid), (kind_in_spec base p last H Hp i Hid). cbn [mbind option_bind]. rewrite Href. fold (refs_of base references i).
  match goal with |- exists r, (if ?c then _ else _) = _ /\ _ => destruct c eqn:E end; [by eexists|].
  apply orb_false_iff in E as [[[E1 E2]%orb_false_iff E3]%orb_false_iff E4]. destruct (IH Hrefs) as (r & Hr & Hspec).
  assert (Hdecl : forall id k flags n, newest_row H (row_key LIFE i) = Some (LifePut id k flags n) -> Z.of_N n = refs_of base references i).
  { intros id k flags n Hrow. rewrite Hrow in E2. by apply negb_false_iff, Z.eqb_eq in E2. }
  destruct (live_at base H i) eqn:El.
  - rewrite Hr. exists r. split; [done|]. intros Hres. constructor; [|by apply Hspec]. split; try done; rewrite ?El; try done.
    intros _ Hk. rewrite bool_decide_true in E4 by done. cbn [andb] in E4. by apply Z.eqb_neq in E4.
  - destruct (children_left_spec i Hi) as (n & -> & Hn). cbn [mbind option_bind]. destruct (Nat.eqb_spec n 0) as [->|]; cbn [negb]; [|by eexists].
    rewrite Hr. exists r. split; [done|]. intros Hres. constructor; [|by apply Hspec]. destruct (Hn eq_refl) as [K1 K2]. split; try done; rewrite ?El; try done.
    cbn [andb negb] in E3. by apply negb_false_iff, Z.eqb_eq in E3.
Qed.

Lemma check_references_spec references affected : Forall (fun i => (i + 1 < 2 ^ 32)%N /\ is_inode i = true) affected ->
  exists r, check_references base p keys references affected = Some r /\ (r = Ok tt -> Forall (ref_legal base H m references) affected).
Proof.
  intros Ha. unfold check_references. destruct affected as [|i0 rest] eqn:Eaff; [by eexists|]. rewrite <- Eaff in *. replace (is_empty affected) with false by (by subst).
  apply references_loop_spec; [by eapply Forall_impl; [exact Ha|]; intros i [? _]|].
  destruct (existsb (fun id => id <? base_inode_count base)%N affected) eqn:Eb; [by apply Forall_forall|].
  apply Forall_forall. intros i Hi. rewrite Forall_forall in Ha. destruct (Ha i Hi) as [_ Hin]. rewrite (nl_references i Hin). cbn.
  assert (Hge : (base_inode_count base <= i)%N).
  { apply N.ltb_ge. destruct (i <? base_inode_count base)%N eqn:El; [|done]. assert (existsb (fun id => id <? base_inode_count base)%N affected = true); [|congruence].
    apply existsb_exists. exists i. split; [by apply list_elem_of_In|done]. }
  assert (Hnil : filter (fun id => n_child (base_name base id) = i) (ids_below (base_name_count base)) = []); [|by rewrite Hnil].
  apply elem_of_nil_inv. intros id [Hc Hid%elem_of_ids]%list_elem_of_filter. destruct (nl_name id Hid) as (_ & _ & Hlt). rewrite Hc in Hlt. specialize (Hlt Hin). lia.
Qed.
End references.
