(* ===== verification/NameCount.v ===== *)
(** * NameCount: the names and the references of a namespace, counted

    How many live names satisfy a test, and what a transaction changes of it:
    the names it retires are counted out and those it puts are counted in.
    The replay's number of names and its reference counts are such counts. *)
From S2P Require Import Prelude Word Bytes DocSet Trigrams LogRecords BTree Runs Dormant Generation LogFrames Projection Overlay OverlayLife NameGraph NameRows NameCheck NameKeys.
#[local] Open Scope ferret_scope.

(** ** Tallies *)

Lemma tally_ext {A} (f g : A -> bool) l : (forall x, x ∈ l -> f x = g x) -> tally f l = tally g l.
Proof.
  induction l as [|x l IH]; intros Hfg; [done|]. rewrite !tally_cons, (Hfg x) by (by left). rewrite IH; [done|]. intros y Hy. apply Hfg. by right.
Qed.

Lemma tally_perm {A} (f : A -> bool) k l : k ≡ₚ l -> tally f k = tally f l.
Proof. induction 1 as [|x k l _ IH|x y l|k l l' _ IH1 _ IH2]; rewrite ?tally_cons; [done|lia|lia|congruence]. Qed.

Lemma tally_omap {A B} (f : B -> bool) (g : A -> option B) l : tally f (omap g l) = tally (fun x => match g x with Some y => f y | None => false end) l.
Proof. induction l as [|x l IH]; [done|]. cbn [omap list_omap]. rewrite tally_cons, <- IH. by destruct (g x). Qed.

Lemma tally_filter {A} (f : A -> bool) l : tally f l = Z.of_nat (length (filter (fun x => f x = true) l)).
Proof. induction l as [|x l IH]; [done|]. rewrite tally_cons, filter_cons, IH. destruct (f x); case_decide; try done; cbn [length opt_nat]; lia. Qed.

Lemma tally_none {A} (l : list A) : tally (fun _ => false) l = 0%Z.
Proof. induction l as [|x l IH]; [done|]. exact IH. Qed.

Lemma tally_zero {A} (f : A -> bool) l : tally f l = 0%Z -> forall x, x ∈ l -> f x = false.
Proof.
  induction l as [|y l IH]; intros Hz x Hx; [by apply not_elem_of_nil in Hx|]. rewrite tally_cons in Hz. pose proof (tally_nonneg f l).
  apply elem_of_cons in Hx as [->|Hx]; [destruct (f y); [cbn in Hz; lia|done]|]. apply IH; [destruct (f y); cbn in Hz; lia|done].
Qed.

(** Two tests that agree outside a sublist differ as they do on it. *)
Lemma tally_sublist (f g : N -> bool) l s : NoDup l -> NoDup s -> (forall x, x ∈ s -> x ∈ l) -> (forall x, x ∈ l -> x ∉ s -> f x = g x) ->
  (tally f l - tally g l = tally f s - tally g s)%Z.
Proof.
  intros Hl Hs Hsub Hout. assert (Hp : l ≡ₚ s ++ filter (fun x => x ∉ s) l).
  { apply NoDup_Permutation; [done| |].
    - apply NoDup_app. split; [done|]. split; [|by apply NoDup_filter]. intros x Hx [Hn _]%list_elem_of_filter. done.
    - intros x. rewrite elem_of_app, list_elem_of_filter. split; [intros Hx; destruct (decide (x ∈ s)); [by left|by right]|]. intros [?|[_ ?]]; [by apply Hsub|done]. }
  rewrite (tally_perm f _ _ Hp), (tally_perm g _ _ Hp), !tally_app.
  rewrite (tally_ext f g (filter _ l)); [lia|]. intros x [Hx Hin]%list_elem_of_filter. by apply Hout.
Qed.

Lemma ids_below_nodup n : NoDup (ids_below n).
Proof. unfold ids_below. apply NoDup_fmap_2; [apply _|apply NoDup_seq]. Qed.

(** ** Live names *)

Section count.
Context (base : Base) `{Hbase : !NameLaws base}.

Definition name_test (f : Name -> bool) (H : list Record_) (id : u32) : bool := match name_at base H id with Some n => f n | None => false end.
Definition count_at (f : Name -> bool) (H : list Record_) (counter : u32) : Z := tally (name_test f H) (ids_below counter).
Definition new_name (r : Record_) : option Name := match r with NamePut _ parent child bs _ => Some (mkName parent child bs) | _ => None end.

Section step.
Context (H C : list Record_) (HC : words C) (counter next : u32) (Hle : (counter <= next)%N) (Hnext : u32_ok next).
Context (Hfresh : forall id, u32_ok id -> name_at base H id <> None -> (id < counter)%N).
Context (Hlimit : forall r id, r ∈ C -> name_row r = Some id -> (id < next)%N).

Lemma name_ids_nodup : NoDup (omap name_row C).
Proof.
  destruct HC as [Hok Hs]. clear Hlimit HC. induction Hs as [|r C0 _ IH Hr]; [constructor|]. apply Forall_cons in Hok as [[Hro _] Hok]. cbn [omap list_omap].
  destruct (name_row r) as [id|] eqn:Er; [|by apply IH]. constructor; [|by apply IH]. intros (y & Hy & Hid)%list_elem_of_omap. rewrite Forall_forall in Hr. specialize (Hr y Hy).
  apply name_row_row in Er, Hid. rewrite !record_key_row, Er, Hid in Hr. lia.
Qed.

Lemma count_fresh f : count_at f H next = count_at f H counter.
Proof.
  unfold count_at. pose proof (tally_sublist (name_test f H) (fun _ => false) (ids_below next) (ids_below counter) (ids_below_nodup _) (ids_below_nodup _)) as Hs.
  rewrite !tally_none in Hs.
  rewrite !Z.sub_0_r in Hs. apply Hs.
  - intros x Hx%elem_of_ids. apply elem_of_ids. lia.
  - intros x Hx%elem_of_ids Hn. rewrite elem_of_ids in Hn. unfold name_test. destruct (name_at base H x) eqn:E; [|done]. exfalso.
    apply Hn, Hfresh; [unfold u32_ok in *; lia|by rewrite E].
Qed.

Lemma count_step f : count_at f (H ++ C) next =
  (count_at f H counter - tally f (omap (old_of base H counter) C) + tally f (omap new_name C))%Z.
Proof.
  rewrite <- count_fresh. unfold count_at.
  pose proof (tally_sublist (name_test f (H ++ C)) (name_test f H) (ids_below next) (omap name_row C) (ids_below_nodup _) name_ids_nodup) as Hs.
  rewrite (tally_omap (name_test f (H ++ C))), (tally_omap (name_test f H)) in Hs. rewrite (tally_omap f), (tally_omap f).
  rewrite (tally_ext (fun x => match name_row x with Some y => name_test f (H ++ C) y | None => false end) (fun x => match new_name x with Some y => f y | None => false end)) in Hs.
  2: { intros r Hr. destruct (name_row r) as [id|] eqn:Er; [|by destruct r]. unfold name_test. rewrite (name_word base H C HC r id Hr Er). by destruct r. }
  rewrite (tally_ext (fun x => match name_row x with Some y => name_test f H y | None => false end) (fun x => match old_of base H counter x with Some y => f y | None => false end)) in Hs.
  2: { intros r Hr. unfold old_of, name_test. destruct (name_row r) as [id|] eqn:Er; cbn [mbind option_bind]; [|done]. destruct (N.leb_spec counter id) as [Hge|]; [|done].
       destruct (name_at base H id) eqn:En; [|done]. exfalso. pose proof (Hlimit r id Hr Er). assert (id < counter)%N; [|lia]. apply Hfresh; [unfold u32_ok in *; lia|by rewrite En]. }
  assert (Hd := Hs ltac:(intros x (r & Hr & Hx)%list_elem_of_omap; apply elem_of_ids; by eapply Hlimit)). clear Hs. lapply Hd; [lia|].
  intros x Hx%elem_of_ids Hn. unfold name_test. rewrite unchanged_name; [done|]. assert (Hid : u32_ok x) by (unfold u32_ok in *; lia).
  destruct (changed_or C HC x Hid) as [(r & Hr & Er)|Hu]; [|done]. exfalso. apply Hn, list_elem_of_omap. by exists r.
Qed.

(** Births less deaths are the names put less those retired. *)
Lemma births_deaths : Forall (may_word base H counter) C ->
  (tally (is_birth counter) C - tally (is_death counter) C = tally (fun _ => true) (omap new_name C) - tally (fun _ => true) (omap (old_of base H counter) C))%Z.
Proof.
  clear. induction 1 as [|r C Hr _ IH]; [done|]. rewrite !tally_omap in *. rewrite !tally_cons. unfold may_word, is_birth, is_death, old_of in *.
  destruct (name_row r) as [id|] eqn:Er; cbn [mbind option_bind] in *; [|destruct r; try done; cbn [opt_nat]; lia].
  destruct (N.leb_spec counter id); cbn [negb andb] in *.
  - destruct r; try done; cbn [opt_nat new_name]; lia.
  - destruct (name_at base H id); [|done]. destruct r; try done; cbn [opt_nat new_name is_put negb]; lia.
Qed.
End step.

(** ** Reference maps *)

Lemma add_reference_get m r i : bt_ok m -> bt_ok (add_reference m r) /\
  default 0%Z (bt_get i (add_reference m r)) = (default 0 (bt_get i m) + tally (points_to i) (omap new_name [r]))%Z.
Proof.
  intros Hm. unfold add_reference, points_to. destruct r; cbn [omap list_omap new_name tally foldr]; try (split; [done|lia]). cbn [n_child].
  destruct (is_inode child); cbn [andb opt_nat]; [|split; [done|lia]]. split; [by apply bump_ok|]. rewrite bump_get by done. rewrite (N.eqb_sym i).
  destruct (child =? i)%N; cbn [opt_nat]; lia.
Qed.

Lemma add_references_get C m i : bt_ok m -> bt_ok (fold_left add_reference C m) /\
  default 0%Z (bt_get i (fold_left add_reference C m)) = (default 0 (bt_get i m) + tally (points_to i) (omap new_name C))%Z.
Proof.
  revert m. induction C as [|r C IH]; intros m Hm; [cbn; split; [done|lia]|]. cbn [fold_left]. destruct (add_reference_get m r i Hm) as [H1 H2].
  destruct (IH _ H1) as [H3 H4]. split; [done|]. rewrite H4, H2. change (r :: C) with ([r] ++ C). rewrite omap_app, tally_app. lia.
Qed.

Lemma nonzero_ok (m : list (u32 * Z)) : bt_ok m -> bt_ok (filter (fun e => e.2 <> 0%Z) m).
Proof.
  unfold bt_ok. induction 1 as [|e m _ IH Hx]; [constructor|]. rewrite filter_cons. case_decide; [|done]. constructor; [done|].
  apply Forall_forall. intros x [_ Hin]%list_elem_of_filter. rewrite Forall_forall in Hx. by apply Hx.
Qed.

Lemma nonzero_get (m : list (u32 * Z)) i : bt_ok m -> default 0%Z (bt_get i (filter (fun e => e.2 <> 0%Z) m)) = default 0%Z (bt_get i m).
Proof.
  intros Hm. pose proof (nonzero_ok m Hm) as Hf. destruct (bt_get i m) as [d|] eqn:E.
  - apply bt_get_elem in E; [|done]. destruct (decide (d = 0%Z)) as [->|Hd].
    + destruct (bt_get i (filter _ m)) as [d'|] eqn:E'; [|done]. apply bt_get_elem in E'; [|done]. apply list_elem_of_filter in E' as [Hn Hin].
      apply bt_get_elem in E, Hin; [|done..]. rewrite E in Hin. injection Hin as <-. by cbn in Hn.
    + rewrite (proj2 (bt_get_elem _ i d Hf)); [done|]. by apply list_elem_of_filter.
  - destruct (bt_get i (filter _ m)) as [d'|] eqn:E'; [|done]. apply bt_get_elem in E'; [|done]. apply list_elem_of_filter in E' as [_ Hin].
    apply bt_get_elem in Hin; [|done]. by rewrite E in Hin.
Qed.

Lemma nonzero_elem (m : list (u32 * Z)) i : bt_ok m -> i ∈ (filter (fun e => e.2 <> 0%Z) m).*1 <-> default 0%Z (bt_get i m) <> 0%Z.
Proof.
  intros Hm. rewrite list_elem_of_fmap. split.
  - intros ([j d] & -> & [Hd Hin]%list_elem_of_filter). apply bt_get_elem in Hin; [|done]. cbn in *. by rewrite Hin.
  - intros Hd. destruct (bt_get i m) as [d|] eqn:E; [|done]. exists (i, d). split; [done|]. apply list_elem_of_filter. split; [done|]. by apply bt_get_elem.
Qed.

Lemma add_all_elem {A} (f : A -> option u32) l s i : bs_ok s ->
  bs_ok (fold_left (fun s x => match f x with Some id => bs_add s id | None => s end) l s) /\
  (i ∈ fold_left (fun s x => match f x with Some id => bs_add s id | None => s end) l s <-> i ∈ s \/ exists x, x ∈ l /\ f x = Some i).
Proof.
  revert s. induction l as [|x l IH]; intros s Hs; cbn [fold_left].
  { split; [done|]. split; [by left|]. intros [?|(x & Hx%not_elem_of_nil & _)]; done. }
  destruct (f x) as [id|] eqn:E.
  - destruct (IH (bs_add s id) (bs_add_ok s id Hs)) as [H1 H2]. split; [done|]. rewrite H2, elem_of_bs_add by done. split.
    + intros [[->|?]|(y & ? & ?)]; [right; by exists x; split; [left|]|by left|right; exists y; by split; [right|]].
    + intros [?|(y & [->|Hy]%elem_of_cons & Hf)]; [by left; right|left; left; congruence|right; by exists y].
  - destruct (IH s Hs) as [H1 H2]. split; [done|]. rewrite H2. split.
    + intros [?|(y & ? & ?)]; [by left|right; exists y; by split; [right|]].
    + intros [?|(y & [->|Hy]%elem_of_cons & Hf)]; [by left|congruence|right; by exists y].
Qed.

(** The inodes a transaction's references and lifetimes affect. *)
Lemma affected_elem changes C i : bt_ok changes -> i ∈ affected_by changes C <-> default 0%Z (bt_get i changes) <> 0%Z \/ exists r, r ∈ C /\ life_row r = Some i.
Proof.
  intros Hm. unfold affected_by. pose proof (add_all_elem (fun id : u32 => Some id) (filter (fun e => e.2 <> 0%Z) changes).*1 [] i) as [H1 H2]; [constructor|].
  destruct (add_all_elem life_row C _ i H1) as [_ ->]. rewrite H2. rewrite <- (nonzero_elem changes i Hm). split.
  - intros [[Hn%not_elem_of_nil|(x & Hx & [= ->])]|?]; [done|by left|by right].
  - intros [Hx|?]; [left; right; by exists i|by right].
Qed.
End count.
