(* ===== verification/NameSpec.v ===== *)
(** * NameSpec: what a namespace promises

    The invariant of a replayed namespace ([names_ok]): its child keys find
    exactly the live names, its references are counts of them, every name stands
    between a live directory and a live inode, and every live directory
    reaches a root.  A transaction that passes the checks of
    [NameGraph.apply_names], which look only at what it touches, keeps all of
    it; and the number of names it keeps stays the number of live names
    ([counted]). *)
From S2P Require Import Prelude Word Bytes DocSet Trigrams LogRecords BTree Runs Dormant Generation LogFrames Projection Overlay OverlayLife OverlaySpec.
From S2P Require Import NameGraph NameRows NameCheck NameKeys NameForest NameCount.
#[local] Open Scope ferret_scope.

Section spec.
Context (base : Base) `{Hbase : !NameLaws base}.

Record names_ok (self : NameReplay) (last : u64) (H : list Record_) (used : u32) (T : gmap N Life) : Prop := {
  no_rows : projection_ok (nr_rows self) last H;
  no_fields : Forall rec_ok H;
  no_lives : lives base H used T;
  no_small : (used <= NONE - 16)%N;
  no_counter : u32_ok (nr_counter self);
  no_fresh id : u32_ok id -> name_at base H id <> None -> (id < nr_counter self)%N;
  no_keys : exists m, runs_ok (nr_keys self) m /\ (forall k s v, m k = Some (s, v) -> (s <= last)%N) /\ keys_hold base m H /\
    keys_told base m H (fun d => d ∈ nr_touched self);
  no_component id n : u32_ok id -> name_at base H id = Some n -> component (n_bytes n);
  no_touched : bs_ok (nr_touched self);
  no_refs_ok : bt_ok (nr_references self);
  no_references i : is_inode i = true -> refs_of base (nr_references self) i = count_at base (points_to i) H (nr_counter self);
  no_edges id n : u32_ok id -> name_at base H id = Some n ->
    dir_at base H (n_parent n) = true /\ (is_inode (n_child n) = true -> live_at base H (n_child n) = true);
  no_declared i id k flags n : u32_ok i -> newest_row H (row_key LIFE i) = Some (LifePut id k flags n) -> Z.of_N n = refs_of base (nr_references self) i;
  no_used i : u32_ok i -> live_at base H i = true -> kind_at base H i <> Some Dir -> refs_of base (nr_references self) i <> 0%Z;
  no_roots d : u32_ok d -> root_at base H d = true -> dir_at base H d = true /\ own_at base H d = None;
  no_forest d : u32_ok d -> dir_at base H d = true -> reach base H d
}.

(** The replay's number of names is the number of live names. *)
Definition counted (self : NameReplay) (H : list Record_) : Prop := Z.of_N (nr_count self) = count_at base (fun _ => true) H (nr_counter self).

(** ** Lifetimes *)

Lemma lives_ext H1 H2 used T : (forall k, newest_row H1 k = newest_row H2 k) -> lives base H1 used T -> lives base H2 used T.
Proof.
  intros He [L1 L2 L3 L4 L5 L6]. split; [|done| | |done|done].
  - intros id Hid. rewrite L1 by done. unfold life_at. by rewrite He.
  - intros id Hid. rewrite <- He. by apply L3.
  - intros id Hid. rewrite <- He. by apply L4.
Qed.

Lemma lives_reads H used T id : lives base H used T -> Forall row_ok H -> u32_ok id ->
  live_at base H id = bool_decide (T !! id <> None) /\ dir_at base H id = default false (life_dir <$> T !! id).
Proof.
  intros HT Hh Hid. pose proof (lv_at _ _ _ _ HT id Hid) as Hat. pose proof (lv_base _ _ _ _ HT) as [Hb _]. unfold life_at in Hat.
  assert (Hlive : live_at base H id = bool_decide (T !! id <> None) /\ (T !! id <> None -> kind_at base H id = Some Dir <-> default false (life_dir <$> T !! id) = true)).
  { unfold live_at, kind_at. destruct (newest_row H (row_key LIFE id)) as [r|] eqn:Er.
    - pose proof (newest_life_row H id r Hh Hid Er) as Hr. rewrite Hat. destruct r; try done. split; [done|]. intros _. cbn. unfold is_dir. rewrite bool_decide_eq_true. split; [by intros [= ->]|by intros ->].
    - rewrite Hat. destruct (N.ltb_spec id (base_dir_count base)); destruct (N.ltb_spec id (base_inode_count base)); try lia; done. }
  destruct Hlive as [H1 H2]. split; [done|]. apply eq_bool_prop_intro. rewrite !Is_true_true, dir_at_iff, H1, bool_decide_eq_true.
  destruct (T !! id) as [l|]; [|split; [by intros [? _]|done]]. specialize (H2 ltac:(done)). cbn in *. rewrite <- H2. by split; [intros [_ ?]|].
Qed.

Lemma small_inode i : (i <= NONE - 16)%N -> is_inode i = true.
Proof.
  intros Hi. unfold is_inode. apply bool_decide_eq_true. unfold from_ignored_child. unfold NONE in *.
  repeat match goal with |- (if (?a =? ?b)%N then _ else _) = _ => destruct (N.eqb_spec a b); [lia|] end. done.
Qed.

(** A directory keeps its kind as long as it lives. *)
Lemma dirs_keep H T used next rs d : lives base H used T -> legal_inodes T used next rs ->
  forall l, T !! d = Some l -> life_dir l = true -> forall l', after_life T rs !! d = Some l' -> life_dir l' = true.
Proof.
  intros HT [Hlegal _] l Hl Hdir l'. rewrite after_life_lookup. destruct (last (filter (of_row life_row d) rs)) as [r|] eqn:Er; [|rewrite Hl; by intros [= <-]].
  rewrite <- (bt_rows_get life_row) in Er. pose proof (bt_rows_row life_row rs d r Er) as [Hrow _]. apply bt_get_elem in Er; [|apply bt_rows_ok].
  rewrite Forall_forall in Hlegal. assert (Hr : life_legal T used r) by (apply Hlegal, list_elem_of_fmap; by exists (d, r)).
  destruct r; try done. injection Hrow as ->. intros [= <-]. destruct Hr as [Hge|(old & Ho & Hk)].
  - assert (d < used)%N by (apply (lv_below _ _ _ _ HT); by rewrite Hl). lia.
  - rewrite Hl in Ho. injection Ho as <-. destruct l; cbn in *; subst; done.
Qed.

(** ** A transaction *)

Lemma valid_rec_ok c q f r : counters_ok c -> valid c q f r -> rec_ok r.
Proof.
  intros Hc Hv. split; [by eapply valid_row_ok|]. destruct Hv as [Hch _ _]. unfold counters_ok in Hc. rewrite !Forall_cons in Hc. destruct Hc as (H1 & H2 & H3 & _).
  unfold u32_ok in *. destruct r; try done.
  - destruct Hch as (Hp & Hchild & _). split; [lia|done].
  - destruct Hch as (Hn & _). intros n Hname. specialize (Hn n Hname). lia.
Qed.

Section transaction.
Context (self : NameReplay) (last : u64) (H : list Record_) (before next : Counters) (T : gmap N Life) (q : u64) (rs : list Record_).
Context (Hok : names_ok self last H (inodes before) T) (Hcounter : nr_counter self = names before).
Context (Hf : follows (last, before) (q, next)) (Hv : Forall (valid next q Namespace) rs) (Hlegal : legal_inodes T (inodes before) (inodes next) rs).

#[local] Abbreviation C := (final_keys rs).*2.
#[local] Abbreviation T' := (after_life T rs).
#[local] Abbreviation H' := (H ++ C).
#[local] Abbreviation olds := (omap (old_of base H (names before)) C).

Lemma next_counters : (inodes before <= inodes next)%N /\ (names before <= names next)%N /\ u32_ok (inodes next) /\ u32_ok (names next) /\ (inodes next <= NONE - 16)%N.
Proof.
  destruct Hf as [_ _ Hc [Hl _] Hg]. cbn [snd] in *. unfold decreased in Hg. rewrite !orb_false_iff, !N.ltb_ge in Hg. destruct Hg as [[? ?] _].
  unfold counters_ok in Hc. rewrite !Forall_cons in Hc. tauto.
Qed.

Lemma transaction_words : words C.
Proof.
  split; [|apply final_ascending]. apply Forall_forall. intros r [Hin _]%final_elem. rewrite Forall_forall in Hv. eapply valid_rec_ok; [apply (fo_u32 _ _ Hf)|by apply Hv].
Qed.

Lemma word_valid r : r ∈ C -> valid next q Namespace r.
Proof. intros [Hin _]%final_elem. rewrite Forall_forall in Hv. by apply Hv. Qed.

Lemma transaction_lives : lives base H' (inodes next) T'.
Proof.
  destruct next_counters as (H1 & _ & H2 & _). apply (lives_ext (H ++ rs)); [intros k; by rewrite !newest_row_app, final_newest|].
  apply (lives_step base H T before next rs (no_lives _ _ _ _ _ Hok) H1 H2); [|by destruct (valid_limits _ _ _ _ Hv)|done].
  eapply Forall_impl; [exact Hv|]. intros r. apply valid_row_ok, (fo_u32 _ _ Hf).
Qed.

Lemma fields_after : Forall rec_ok H'.
Proof. apply Forall_app. split; [apply (no_fields _ _ _ _ _ Hok)|apply (w_ok _ transaction_words)]. Qed.

Lemma rows_of_fields l : Forall rec_ok l -> Forall row_ok l.
Proof. intros Hl. eapply Forall_impl; [exact Hl|]. by intros r [? _]. Qed.

Lemma reads_before id : u32_ok id -> live_at base H id = bool_decide (T !! id <> None) /\ dir_at base H id = default false (life_dir <$> T !! id).
Proof. apply (lives_reads H _ T id (no_lives _ _ _ _ _ Hok)), rows_of_fields, (no_fields _ _ _ _ _ Hok). Qed.
Lemma reads_after id : u32_ok id -> live_at base H' id = bool_decide (T' !! id <> None) /\ dir_at base H' id = default false (life_dir <$> T' !! id).
Proof. apply (lives_reads H' _ T' id transaction_lives), rows_of_fields, fields_after. Qed.

Lemma dir_kept d : u32_ok d -> dir_at base H d = true -> live_at base H' d = true -> dir_at base H' d = true.
Proof.
  intros Hd Hdir Hlive. destruct (reads_before d Hd) as [_ H1]. destruct (reads_after d Hd) as [H2 H3]. rewrite H1 in Hdir. rewrite H2 in Hlive. apply bool_decide_eq_true in Hlive. rewrite H3.
  destruct (T !! d) as [l|] eqn:El; [|done]. destruct (T' !! d) as [l'|] eqn:El'; [|done]. cbn in *. by apply (dirs_keep H T _ _ rs d (no_lives _ _ _ _ _ Hok) Hlegal l El Hdir).
Qed.

Lemma live_small id : u32_ok id -> live_at base H' id = true -> (id < inodes next)%N.
Proof. intros Hid Hl. rewrite (proj1 (reads_after id Hid)) in Hl. apply bool_decide_eq_true in Hl. by apply (lv_below _ _ _ _ transaction_lives). Qed.

(** An inode that dies, or whose kind is told again, has a word. *)
Lemma life_word i : u32_ok i -> (exists r, r ∈ C /\ life_row r = Some i) \/ unchanged C LIFE i.
Proof.
  intros Hi. unfold unchanged. destruct (newest_row C (row_key LIFE i)) as [r|] eqn:E; [|by right]. left. apply words_newest in E as [Hin Hr]; [|apply transaction_words|done].
  exists r. split; [done|]. destruct r; try done; by injection Hr as ->.
Qed.

Lemma fresh_after id : u32_ok id -> name_at base H' id <> None -> (id < names next)%N.
Proof.
  intros Hid Hn. destruct (changed_or C transaction_words id Hid) as [(r & Hr & Er)|Hu].
  - destruct (word_valid r Hr) as [_ Hrow _]. apply Hrow; destruct r; try done; by injection Er as ->.
  - rewrite unchanged_name in Hn by done. pose proof (no_fresh _ _ _ _ _ Hok id Hid Hn) as Hlt. destruct next_counters as (_ & ? & _). lia.
Qed.

Lemma name_limit r id : r ∈ C -> name_row r = Some id -> (id < names next)%N.
Proof. intros Hr Er. destruct (word_valid r Hr) as [_ Hrow _]. apply Hrow; destruct r; try done; by injection Er as ->. Qed.

(** ** The forest *)

Section forest.
Context (old_dirs ds : list u32) (Hds : touches base H' C old_dirs ds) (Hreach : Forall (reach base H') ds).
Context (Hold : forall d, d ∈ old_dirs <-> exists n, n ∈ olds /\ points_to d n = true /\ kind_at base H d = Some Dir).
Context (Hdead : forall i id n, u32_ok i -> live_at base H' i = false -> (exists r, r ∈ C /\ life_row r = Some i) -> u32_ok id -> name_at base H' id = Some n -> n_parent n <> i).

Lemma reach_touched d : d ∈ ds -> reach base H' d.
Proof. rewrite Forall_forall in Hreach. apply Hreach. Qed.

Lemma dir_word c d r : u32_ok d -> live_at base H' d = true -> d ∉ ds -> (forall id, record_row r = (c, id) -> dir_row r = Some id) -> newest_row C (row_key c d) <> Some r.
Proof.
  intros Hd Hl Hn Hrow E. apply words_newest in E as [Hin Hr]; [|apply transaction_words|done]. apply Hn. by eapply to_row; [exact Hds|exact Hin|by apply Hrow|].
Qed.

(** An untouched directory keeps its life, its edge and its root. *)
Lemma untouched d : u32_ok d -> dir_at base H' d = true -> d ∉ ds -> dir_at base H d = true /\ unchanged C DIR d /\ unchanged C ROOT d.
Proof.
  intros Hd Hdir Hn. pose proof (proj1 (dir_at_iff base H' d) Hdir) as [Hlive Hkind]. split; [|split].
  - destruct (newest_row C (row_key LIFE d)) as [r|] eqn:E.
    + exfalso. pose proof E as E'. apply words_newest in E' as [Hin Hr]; [|apply transaction_words|done].
      unfold kind_at in Hkind. unfold live_at in Hlive. rewrite newest_row_app, E in Hkind, Hlive. destruct r; try done. injection Hkind as ->. injection Hr as ->.
      apply Hn. by eapply to_row; [exact Hds|exact Hin|done|unfold live_at; by rewrite newest_row_app, E].
    + apply dir_at_iff. destruct (unchanged_live base H C d E) as [<- <-]. done.
  - unfold unchanged. destruct (newest_row C (row_key DIR d)) as [r|] eqn:E; [|done]. exfalso. pose proof E as E'. apply words_newest in E' as [_ Hr]; [|apply transaction_words|done].
    apply (dir_word DIR d r Hd Hlive Hn) in E; [done|]. intros id Hid. rewrite Hr in Hid. injection Hid as <-. by destruct r; try done; injection Hr as ->.
  - unfold unchanged. destruct (newest_row C (row_key ROOT d)) as [r|] eqn:E; [|done]. exfalso. pose proof E as E'. apply words_newest in E' as [_ Hr]; [|apply transaction_words|done].
    apply (dir_word ROOT d r Hd Hlive Hn) in E; [done|]. intros id Hid. rewrite Hr in Hid. injection Hid as <-. by destruct r; try done; injection Hr as ->.
Qed.

Lemma forest_step d : u32_ok d -> dir_at base H' d = true -> reach base H' d.
Proof.
  intros Hd Hdir. destruct (decide (d ∈ ds)) as [Hin|Hn]; [by apply reach_touched|]. destruct (untouched d Hd Hdir Hn) as (Hbefore & _).
  pose proof (no_forest _ _ _ _ _ Hok d Hd Hbefore) as Hr. clear Hbefore Hn. induction Hr as [d _ Ho Hroot|d e n Hdir0 Ho Hname Hino Hchild Hroot Hrp IH].
  - destruct (decide (d ∈ ds)) as [Hin|Hn]; [by apply reach_touched|]. destruct (untouched d Hd Hdir Hn) as (_ & H1 & H2).
    apply reach_root; [done|by rewrite unchanged_own|by rewrite unchanged_root].
  - destruct (decide (d ∈ ds)) as [Hin|Hn]; [by apply reach_touched|]. destruct (untouched d Hd Hdir Hn) as (_ & H1 & H2).
    pose proof (own_u32 base H (no_fields _ _ _ _ _ Hok) d e Ho) as He. destruct (name_u32 base H (no_fields _ _ _ _ _ Hok) e n Hname) as [Hpar _].
    assert (Hu : unchanged C NAME e).
    { destruct (changed_or C transaction_words e He) as [(r & Hr & Er)|Hu]; [|done]. exfalso. apply Hn. eapply to_old; [exact Hds| |by apply dir_at_iff in Hdir as [? _]].
      apply Hold. exists n. split.
      - apply elem_of_olds. exists r, e. split_and!; [done|done| |done]. rewrite <- Hcounter. apply (no_fresh _ _ _ _ _ Hok); [done|by rewrite Hname].
      - unfold points_to. rewrite Hino, Hchild, N.eqb_refl. split; [done|]. by apply dir_at_iff in Hdir0 as [_ ?]. }
    assert (Hname' : name_at base H' e = Some n) by (by rewrite unchanged_name).
    assert (Hp0 : dir_at base H (n_parent n) = true) by (by eapply reach_dir).
    assert (Hlive : live_at base H' (n_parent n) = true).
    { destruct (live_at base H' (n_parent n)) eqn:El; [done|]. exfalso. destruct (life_word (n_parent n) Hpar) as [Hw|Hw].
      - by apply (Hdead (n_parent n) e n Hpar El Hw He Hname').
      - destruct (unchanged_live base H C _ Hw) as [Hsame _]. rewrite Hsame in El. apply dir_at_iff in Hp0 as [Hp0 _]. congruence. }
    eapply reach_edge; [done|by rewrite unchanged_own|exact Hname'|done|done|by rewrite unchanged_root|]. apply IH; [done|]. by apply dir_kept.
Qed.
End forest.

(** ** References and edges *)

Section accepted.
Context (ret : Retired) (Hret : retired base H (names before) q C (mkRetired (nr_count self) (nr_references self) [] [] [] []) ret).
#[local] Abbreviation references := (fold_left add_reference C (rt_references ret)).
#[local] Abbreviation changes := (fold_left add_reference C (rt_changes ret)).
#[local] Abbreviation news := (omap new_name C).

Lemma fresh_before id : u32_ok id -> name_at base H id <> None -> (id < names before)%N.
Proof. rewrite <- Hcounter. apply (no_fresh _ _ _ _ _ Hok). Qed.

Lemma count_after f : count_at base f H' (names next) = (count_at base f H (names before) - tally f olds + tally f news)%Z.
Proof. destruct next_counters as (_ & Hle & _ & Hu & _). apply count_step; [apply transaction_words|done|done|apply fresh_before|apply name_limit]. Qed.

Lemma references_after i : bt_ok references /\ bt_ok changes /\
  refs_of base references i = (refs_of base (nr_references self) i + default 0 (bt_get i changes))%Z /\
  default 0%Z (bt_get i changes) = (tally (points_to i) news - tally (points_to i) olds)%Z.
Proof.
  destruct (re_ok _ _ _ _ _ _ _ Hret) as (K1 & K2 & _). destruct (add_references_get C (rt_references ret) i K1) as [R1 R2]. destruct (add_references_get C (rt_changes ret) i K2) as [R3 R4].
  split; [done|]. split; [done|]. pose proof (re_refs _ _ _ _ _ _ _ Hret i) as E1. pose proof (re_changes _ _ _ _ _ _ _ Hret i) as E2. cbn in E1, E2.
  unfold refs_of. rewrite R2, R4, E1, E2. split; lia.
Qed.

Lemma references_count i : is_inode i = true -> refs_of base references i = count_at base (points_to i) H' (names next).
Proof.
  intros Hi. destruct (references_after i) as (_ & _ & -> & ->). rewrite (no_references _ _ _ _ _ Hok i Hi), Hcounter, count_after. lia.
Qed.

Lemma affected_iff i : i ∈ affected_by changes C <-> default 0%Z (bt_get i changes) <> 0%Z \/ exists r, r ∈ C /\ life_row r = Some i.
Proof. apply affected_elem. by destruct (references_after i) as (_ & ? & _). Qed.

(** Names the transaction puts or retires stand between inodes. *)
Lemma old_inode n i : n ∈ olds -> points_to i n = true -> u32_ok i /\ is_inode i = true /\ (i < inodes before)%N.
Proof.
  intros (r & id & Hr & Er & _ & Hn)%elem_of_olds [Hino Heq%N.eqb_eq]%andb_true_iff. pose proof (proj1 (name_row_row r id) Er) as Hrow.
  pose proof (words_u32 C r id NAME transaction_words Hr Hrow) as Hid. destruct (no_edges _ _ _ _ _ Hok id n Hid Hn) as [_ Hlive].
  destruct (name_u32 base H (no_fields _ _ _ _ _ Hok) id n Hn) as [_ Hc]. rewrite Heq in *. specialize (Hlive Hino). split; [done|]. split; [done|].
  rewrite (proj1 (reads_before i Hc)) in Hlive. apply bool_decide_eq_true in Hlive. by apply (lv_below _ _ _ _ (no_lives _ _ _ _ _ Hok)).
Qed.

Context (m1 m2 : u32 * bytes -> option (u64 * option u32)) (Hput : Forall (put_legal base H' m1) C).

Lemma new_inode n i : n ∈ news -> points_to i n = true -> u32_ok i /\ is_inode i = true /\ (i < inodes next)%N.
Proof.
  intros (r & Hr & Hn)%list_elem_of_omap [Hino Heq%N.eqb_eq]%andb_true_iff. rewrite Forall_forall in Hput. specialize (Hput r Hr).
  destruct transaction_words as [Hrec _]. rewrite Forall_forall in Hrec. destruct (Hrec r Hr) as [_ Hids]. destruct r; try done. injection Hn as <-. cbn [n_child] in *. subst.
  destruct Hput as (_ & Hlive & _). destruct Hids as [_ Hc]. split; [done|]. split; [done|]. apply live_small; [done|]. by apply Hlive.
Qed.

Lemma affected_small : Forall (fun i => (i + 1 < 2 ^ 32)%N /\ is_inode i = true) (affected_by changes C).
Proof.
  destruct next_counters as (Hi & _ & _ & _ & Hs). apply Forall_forall. intros i [Hd|(r & Hr & Er)]%affected_iff.
  - destruct (references_after i) as (_ & _ & _ & Hc). rewrite Hc in Hd.
    assert (Hex : (exists n, n ∈ news /\ points_to i n = true) \/ exists n, n ∈ olds /\ points_to i n = true).
    { destruct (decide (Exists (fun n => points_to i n = true) news)) as [He|Hn1]; [left; by apply Exists_exists in He as (n & ? & ?); exists n|].
      destruct (decide (Exists (fun n => points_to i n = true) olds)) as [He|Hn2]; [right; by apply Exists_exists in He as (n & ? & ?); exists n|]. exfalso. apply Hd.
      rewrite (tally_ext (points_to i) (fun _ => false) news), (tally_ext (points_to i) (fun _ => false) olds).
      - by rewrite !tally_none.
      - intros n Hin. destruct (points_to i n) eqn:E; [|done]. destruct Hn2. apply Exists_exists. by exists n.
      - intros n Hin. destruct (points_to i n) eqn:E; [|done]. destruct Hn1. apply Exists_exists. by exists n. }
    destruct Hex as [(n & Hin & Hp)|(n & Hin & Hp)]; [destruct (new_inode n i Hin Hp) as (_ & ? & ?)|destruct (old_inode n i Hin Hp) as (_ & ? & ?)];
      (split; [unfold NONE in *; lia|done]).
  - destruct (word_valid r Hr) as [_ Hrow _]. assert (Hlt : (i < inodes next)%N) by (apply Hrow; destruct r; try done; by injection Er as ->).
    split; [unfold NONE in *; lia|]. apply small_inode. lia.
Qed.

Context (Hkeys : keys_hold base m2 H') (Hrefs : Forall (ref_legal base H' m2 references) (affected_by changes C)).

Lemma ref_at i : default 0%Z (bt_get i changes) <> 0%Z \/ (exists r, r ∈ C /\ life_row r = Some i) -> ref_legal base H' m2 references i.
Proof. intros Hi%affected_iff. rewrite Forall_forall in Hrefs. by apply Hrefs. Qed.

(** A dead directory has no children left. *)
Lemma dead_childless i id n : u32_ok i -> live_at base H' i = false -> (exists r, r ∈ C /\ life_row r = Some i) -> u32_ok id ->
  name_at base H' id = Some n -> n_parent n <> i.
Proof.
  intros Hi Hdead Hw Hid Hn <-. pose proof (ref_at _ (or_intror Hw)) as [_ _ _ Hc Hbc]. assert (Hl : key_lookup base m2 H' (n_parent n) (n_bytes n) = Some id).
  { apply Hkeys. split; [done|]. exists (n_child n). rewrite Hn. by destruct n. }
  unfold key_lookup in Hl. destruct (m2 (n_parent n, n_bytes n)) as [[s v]|] eqn:Em; [rewrite (Hc Hdead _ _ _ Em) in Hl; done|].
  destruct (base_lookup base (n_parent n) (n_bytes n)) as [id'|] eqn:Eb; [|done]. destruct (newest_row H' (row_key NAME id')) eqn:Er; [done|]. injection Hl as ->.
  apply nl_lookup in Eb as (Hlt & Hp & _). destruct (nl_name id Hlt) as [Hpar _]. rewrite Hp in Hpar. specialize (Hbc Hdead Hpar). rewrite Forall_forall in Hbc.
  apply (Hbc id); [by apply nl_children|done].
Qed.

Lemma edges_after id n : u32_ok id -> name_at base H' id = Some n ->
  dir_at base H' (n_parent n) = true /\ (is_inode (n_child n) = true -> live_at base H' (n_child n) = true).
Proof.
  intros Hid Hn. pose proof (name_u32 base H' fields_after id n Hn) as [Hpar Hchild]. destruct (changed_or C transaction_words id Hid) as [(r & Hr & Er)|Hu].
  - rewrite (name_word base H C transaction_words r id Hr Er) in Hn. rewrite Forall_forall in Hput. specialize (Hput r Hr). destruct r; try done. injection Hn as <-.
    by destruct Hput as (? & ? & _).
  - pose proof Hn as Hn0. rewrite unchanged_name in Hn0 by done. destruct (no_edges _ _ _ _ _ Hok id n Hid Hn0) as [Hd Hl]. split.
    + apply dir_kept; [done|done|]. destruct (live_at base H' (n_parent n)) eqn:El; [done|]. exfalso. destruct (life_word (n_parent n) Hpar) as [Hw|Hw].
      * by apply (dead_childless _ id n Hpar El Hw Hid Hn).
      * destruct (unchanged_live base H C _ Hw) as [Hs _]. apply dir_at_iff in Hd as [Hd _]. congruence.
    + intros Hino. specialize (Hl Hino). destruct (live_at base H' (n_child n)) eqn:El; [done|]. exfalso. destruct (life_word (n_child n) Hchild) as [Hw|Hw].
      * pose proof (rl_dead _ _ _ _ _ (ref_at _ (or_intror Hw)) El) as Hz. rewrite (references_count _ Hino) in Hz.
        assert (Hin : id ∈ ids_below (names next)) by (apply elem_of_ids, fresh_after; [done|by rewrite Hn]). pose proof (tally_zero _ _ Hz id Hin) as Hf0.
        unfold name_test, points_to in Hf0. by rewrite Hn, Hino, N.eqb_refl in Hf0.
      * destruct (unchanged_live base H C _ Hw) as [Hs _]. congruence.
Qed.

Lemma unaffected i : u32_ok i -> i ∉ affected_by changes C ->
  unchanged C LIFE i /\ refs_of base references i = refs_of base (nr_references self) i.
Proof.
  intros Hi Hn. split.
  - destruct (life_word i Hi) as [Hw|Hu]; [|done]. destruct Hn. apply affected_iff. by right.
  - destruct (references_after i) as (_ & _ & -> & _). destruct (decide (default 0%Z (bt_get i changes) = 0%Z)) as [->|Hc]; [lia|]. destruct Hn. apply affected_iff. by left.
Qed.

Lemma declared_after i id k flags n : u32_ok i -> newest_row H' (row_key LIFE i) = Some (LifePut id k flags n) -> Z.of_N n = refs_of base references i.
Proof.
  intros Hi Hrow. destruct (decide (i ∈ affected_by changes C)) as [Hin|Hn].
  - rewrite Forall_forall in Hrefs. by eapply rl_declared; [apply Hrefs|].
  - destruct (unaffected i Hi Hn) as [Hu ->]. rewrite unchanged_row in Hrow by done. by eapply (no_declared _ _ _ _ _ Hok).
Qed.

Lemma used_after i : u32_ok i -> live_at base H' i = true -> kind_at base H' i <> Some Dir -> refs_of base references i <> 0%Z.
Proof.
  intros Hi Hl Hk. destruct (decide (i ∈ affected_by changes C)) as [Hin|Hn].
  - rewrite Forall_forall in Hrefs. by eapply rl_used; [apply Hrefs|..].
  - destruct (unaffected i Hi Hn) as [Hu ->]. destruct (unchanged_live base H C i Hu) as [H1 H2]. rewrite H1 in Hl. rewrite H2 in Hk. by apply (no_used _ _ _ _ _ Hok).
Qed.
End accepted.

(** ** The whole transaction *)

Lemma tally_length {A} (f : A -> bool) l : (tally f l <= Z.of_nat (length l))%Z.
Proof. induction l as [|x l IH]; [done|]. rewrite tally_cons. cbn [length]. destruct (f x); cbn [opt_nat]; lia. Qed.

Lemma births_fit : counted self H -> (Z.of_N (nr_count self) + tally (is_birth (names before)) C < 2 ^ 32)%Z.
Proof.
  intros Hcount. destruct next_counters as (_ & Hle & _ & Hu & _). unfold counted in Hcount. rewrite Hcount, Hcounter. pose proof (tally_length (name_test base (fun _ => true) H) (ids_below (names before))) as H1.
  unfold ids_below in H1 at 2. rewrite length_fmap, length_seq in H1. fold (count_at base (fun _ => true) H (names before)) in H1.
  assert (H2 : (tally (is_birth (names before)) C <= Z.of_N (names next - names before))%Z); [|unfold u32_ok in Hu; lia].
  assert (Heq : tally (is_birth (names before)) C = tally (fun id => (names before <=? id)%N) (omap name_row C)).
  { rewrite tally_omap. apply tally_ext. intros r _. unfold is_birth. done. }
  rewrite Heq, tally_filter. assert (Hsub : filter (fun id => (names before <=? id)%N = true) (omap name_row C) ⊆+ ids_from (names before) (names next)).
  { apply NoDup_submseteq; [apply NoDup_filter, (name_ids_nodup C transaction_words (names before) (names next) Hle)|]. intros id [Hge%N.leb_le (r & Hr & Er)%list_elem_of_omap]%list_elem_of_filter.
    apply elem_of_ids_from. split; [done|]. by eapply name_limit. }
  apply submseteq_length in Hsub. unfold ids_from in Hsub. rewrite length_fmap, length_seq in Hsub. lia.
Qed.

Lemma names_count_kept (ret : Retired) : retired base H (names before) q C (mkRetired (nr_count self) (nr_references self) [] [] [] []) ret -> counted self H ->
  Z.of_N (rt_count ret) = count_at base (fun _ => true) H' (names next).
Proof.
  intros Hret Hcount. pose proof (re_count _ _ _ _ _ _ _ Hret) as Hc. cbn [rt_count] in Hc. rewrite Hc by (by apply births_fit). unfold counted in Hcount. rewrite (count_after (fun _ => true)), Hcount, Hcounter.
  pose proof (births_deaths base H C (names before) (re_may _ _ _ _ _ _ _ Hret)). lia.
Qed.

Lemma keys_after m (added : list ChildRow) (ret : Retired) : (forall k s v, m k = Some (s, v) -> (s <= last)%N) ->
  let touched := fold_left bs_add (map (fun r => (key r).1) (rt_keys ret ++ added)) (nr_touched self) in
  Forall (fun r => sequence r = q) (rt_keys ret ++ added) ->
  (forall k s v, put_rows m (rt_keys ret ++ added) k = Some (s, v) -> (s <= q)%N) /\
  bs_ok touched /\ forall d, d ∈ nr_touched self \/ (exists r, r ∈ rt_keys ret ++ added /\ (key r).1 = d) -> d ∈ touched.
Proof.
  intros Hs touched Hq. assert (Hlast : (last < q)%N) by (pose proof (fo_next _ _ Hf); cbn in *; lia). rewrite Forall_forall in Hq. split.
  - intros k s v. unfold put_rows. destruct (list.last (of_key k (rt_keys ret ++ added))) as [r|] eqn:E; [|intros Hk; specialize (Hs k s v Hk); lia].
    apply last_Some_elem_of, elem_of_key in E as [_ Hin]. intros [= <- _]. by rewrite (Hq r Hin).
  - pose proof (fun i => add_all_elem (fun id : u32 => Some id) (map (fun r => (key r).1) (rt_keys ret ++ added)) (nr_touched self) i (no_touched _ _ _ _ _ Hok)) as Hadd.
    fold touched in Hadd. split; [apply (Hadd 0%N)|]. intros d Hd. apply Hadd. destruct Hd as [Hd|(r & Hr & <-)]; [by left|]. right. exists (key r).1. split; [|done].
    apply list_elem_of_fmap. by exists r.
Qed.

(** Names stay components. *)
Lemma components_after id n : u32_ok id -> name_at base H' id = Some n -> component (n_bytes n).
Proof.
  intros Hid Hn. destruct (changed_or C transaction_words id Hid) as [(r & Hr & Er)|Hu]; [|rewrite unchanged_name in Hn by done; by eapply (no_component _ _ _ _ _ Hok)].
  rewrite (name_word base H C transaction_words r id Hr Er) in Hn. destruct (word_valid r Hr) as [Hch _ _]. destruct r; try done. injection Hn as <-.
  destruct Hch as (_ & _ & _ & Hs & H1 & H2 & H3). split; [apply (so_some _ Hs)|done..].
Qed.

Lemma names_step : exists r, apply_names base self q next rs = Some r /\
  forall self', r = Ok self' -> names_ok self' q H' (inodes next) T' /\ nr_counter self' = names next /\ (counted self H -> counted self' H').
Proof.
  destruct next_counters as (_ & Hnames & Hin32 & Hn32 & Hsmall). pose proof transaction_words as HC. pose proof (no_rows _ _ _ _ _ Hok) as Hp. pose proof (no_fields _ _ _ _ _ Hok) as HH.
  assert (Hlast : (last < q)%N) by (pose proof (fo_next _ _ Hf); cbn in *; lia). unfold apply_names. rewrite Hcounter.
  destruct (retire_spec base (nr_rows self) last H Hp HH (names before) q C (mkRetired (nr_count self) (nr_references self) [] [] [] [])) as (r & -> & Hret);
    [split; [apply (no_refs_ok _ _ _ _ _ Hok)|split; constructor]|apply HC|apply HC|constructor|].
  destruct r as [ret|e]; cbn [oe_bind]; [|by eexists]. specialize (Hret ret eq_refl).
  rewrite check_births_spec by done. destruct (decide _) as [Hborn|_]; cbn [oe_bind]; [|by eexists].
  destruct (apply_rows_spec (nr_rows self) last H q C Hp Hlast (rows_of_fields _ (w_ok _ HC))) as (rows & -> & Hrows & _). cbn [mbind option_bind].
  destruct (no_keys _ _ _ _ _ Hok) as (m & Hm & Hms & Hkeys & Htouched). assert (Hmq : forall k s v, m k = Some (s, v) -> (s < q)%N) by (intros k s v Hk; specialize (Hms k s v Hk); lia).
  pose proof (re_keys _ _ _ _ _ _ _ Hret) as Hrk. cbn [rt_keys app] in Hrk.
  assert (Hrq : Forall (fun r => sequence r = q) (rt_keys ret)) by (rewrite Hrk; apply Forall_fmap, Forall_forall; by intros).
  destruct (insert_spec (nr_keys self) m (rt_keys ret) q Hm Hrq Hmq) as (removed & -> & Hrem & _). cbn [mbind option_bind].
  destruct (added_keys_spec base rows q H' Hrows removed _ q C Hrem (w_ok _ HC)) as (r & -> & Hadd). destruct r as [added|err]; cbn [oe_bind]; [|by eexists].
  destruct (Hadd added eq_refl) as (Hput & Hperm & Hdup). rewrite Hrk in Hput.
  assert (Haq : Forall (fun r => sequence r = q) added).
  { rewrite Hperm. apply Forall_forall. intros [k s v] (i & c & rv & _ & _ & ->)%elem_of_key_rows. done. }
  destruct (insert_spec (nr_keys self) m (rt_keys ret ++ added) q Hm (proj2 (Forall_app _ _ _) (conj Hrq Haq)) Hmq) as (keys & -> & Hkk & _). cbn [mbind option_bind].
  assert (Hold : forall d, d ∈ rt_dirs ret <-> exists n, n ∈ olds /\ points_to d n = true /\ kind_at base H d = Some Dir).
  { intros d. rewrite (re_dirs _ _ _ _ _ _ _ Hret d). cbn [rt_dirs]. split; [by intros [Hn%not_elem_of_nil|?]|by right]. }
  destruct (validate_graph_spec base rows q H' Hrows fields_after C (rt_dirs ret) (w_ok _ HC)) as (r & -> & Hgraph).
  { apply Forall_forall. intros d (n & Hn & Hd & _)%Hold. by destruct (old_inode n d Hn Hd). }
  destruct r as [[]|err]; cbn [oe_bind]; [|by eexists]. destruct (Hgraph eq_refl) as (Hroots & ds & Hds & Hreach).
  destruct (check_references_spec base rows q H' Hrows keys _ Hkk (fold_left add_reference C (rt_references ret))
    (affected_by (fold_left add_reference C (rt_changes ret)) C)) as (r & -> & Hrefs); [by eapply affected_small|].
  destruct r as [[]|err]; cbn [oe_bind]; [|by eexists]. specialize (Hrefs eq_refl). eexists. split; [done|]. intros self' [= <-]. split; [|split; [done|by apply names_count_kept]].
  assert (Hheld : keys_hold base (put_rows m (rt_keys ret ++ added)) H').
  { rewrite Hrk. by apply (keys_step base H C HC (names before) q m Hkeys fresh_before added Hperm Hdup). }
  destruct (keys_after m added ret Hms (proj2 (Forall_app _ _ _) (conj Hrq Haq))) as (Hsq & Htok & Htin).
  destruct (references_after ret Hret 0%N) as (Hrok & _).
  assert (Hnz : forall i, refs_of base (filter (fun e => e.2 <> 0%Z) (fold_left add_reference C (rt_references ret))) i = refs_of base (fold_left add_reference C (rt_references ret)) i).
  { intros i. unfold refs_of. by rewrite nonzero_get. }
  split; cbn [nr_rows nr_keys nr_touched nr_references nr_counter nr_count].
  - done.
  - apply fields_after.
  - apply transaction_lives.
  - done.
  - done.
  - apply fresh_after.
  - exists (put_rows m (rt_keys ret ++ added)). split_and!; [done..|]. apply (told_more base _ _ _ _ Htin). rewrite Hrk.
    by apply (told_step base H C HC (names before) q m fresh_before added Hperm).
  - by apply components_after.
  - done.
  - by apply nonzero_ok.
  - intros i Hi. rewrite Hnz. by apply references_count.
  - by eapply edges_after.
  - intros i id k flags n Hi. rewrite Hnz. by eapply declared_after.
  - intros i Hi. rewrite Hnz. by eapply used_after.
  - done.
  - apply (forest_step (rt_dirs ret) ds Hds Hreach Hold). intros i id n. by eapply dead_childless.
Qed.
End transaction.
End spec.
