(* ===== verification/NameLoad.v ===== *)
(** * NameLoad: loading a namespace

    Models [Overlay::load_namespace] of
    [crates/ferret-catalog/src/overlay/namespace.rs]: the namespace of an
    overlay is its predecessor's, with the overlay's transactions replayed
    over it, or the checkpoint's when there is no predecessor.  Over a checked
    checkpoint a namespace that loads satisfies [NameSpec.names_ok].

    The predecessors of an overlay are a chain, one per transaction since the
    log was read; the fuel is its length. *)
From S2P Require Import Prelude Word Bytes DocSet Trigrams LogRecords BTree Runs Dormant Generation LogFrames Projection Overlay OverlayLife OverlayDocs OverlaySpec.
From S2P Require Import NameGraph NameRows NameCheck NameKeys NameForest NameCount NameSpec.
#[local] Open Scope ferret_scope.
#[local] Notation "x <~! m ; k" := (oe_bind m (fun x => k)) (at level 100, m at next level, right associativity).

(** The number of overlays in a chain. *)
Fixpoint chain_length (o : Overlay) : nat :=
  let '(mkOverlay _ _ parent _ _ _) := o in match parent with None => 1 | Some q => S (chain_length q) end.

Section model.
Context (checksum : bytes -> bytes) (base : Base).

(** The replay over the checkpoint alone, and over a loaded namespace. *)
Definition replay_base : NameReplay := mkReplay projection_default [] [] [] (names (counters (base_manifest base))) (n_names (counts (base_manifest base))).
Definition replay_over (ns : Names) (m : Manifest) : NameReplay :=
  mkReplay (ns_rows ns) (ns_keys ns) (ns_touched ns) (ns_references ns) (names (counters m)) (n_names (counts m)).

(** The loop over the transactions. *)
Fixpoint replay_names (txs : list Tx) (self : NameReplay) : outcome NameReplay :=
  match txs with
  | [] => Some (Ok self)
  | (seq, next, rs) :: txs => self <~! apply_names base self seq next rs; replay_names txs self
  end.

(** The namespace of an overlay whose family and predecessor are loaded. *)
Definition own_namespace (m : Manifest) (log : option Log) (delta : list Record_) (self : NameReplay) : outcome Names :=
  txs ← own_transactions m log delta Namespace;
  self <~! replay_names txs self;
  if negb (nr_count self =? n_names (counts m))%N then Some (Err (obad "live name count"))
  else ns ← namespace_new base (nr_rows self) (nr_keys self) (nr_touched self) (nr_references self); Some (Ok ns).
Definition set_namespace (o : Overlay) (parent : option Overlay) (ns : option Names) : Overlay :=
  mkOverlay (o_manifest o) (o_log o) parent (o_delta o) (o_families o) ns.

(** [load_namespace]. *)
Fixpoint load_namespace (fuel : nat) (self : Overlay) : option (Overlay * result unit OpenError) :=
  match fuel with
  | 0 => None
  | S fuel =>
      match o_namespace self, o_parent self with
      | Some _, _ => Some (self, Ok tt)
      | None, parent =>
          if match parent with Some _ => negb (existsb (fun r => bool_decide (family r = Namespace)) (o_delta self)) | None => false end then
            q ← parent;
            '(q, r) ← load_namespace fuel q;
            match r with
            | Err e => Some (set_namespace self (Some q) None, Err e)
            | Ok _ => ns ← o_namespace q; Some (set_namespace self (Some q) (Some ns), Ok tt)
            end
          else
            '(self, r) ← load checksum base self Namespace;
            match (match r with Ok _ => load_sections base [SNames; SDirNames; SRoots] | Err e => Err e end) with
            | Err e => Some (self, Err e)
            | Ok _ =>
                '(parent, started) ← match o_parent self with
                  | None => Some (None, Ok replay_base)
                  | Some q =>
                      '(q, r) ← load_namespace fuel q;
                      match r with
                      | Err e => Some (Some q, Err e)
                      | Ok _ => ns ← o_namespace q; Some (Some q, Ok (replay_over ns (o_manifest q)))
                      end
                  end;
                match started with
                | Err e => Some (set_namespace self parent None, Err e)
                | Ok start =>
                    r ← own_namespace (o_manifest self) (o_log self) (o_delta self) start;
                    match r with
                    | Err e => Some (set_namespace self parent None, Err e)
                    | Ok ns => Some (set_namespace self parent (Some ns), Ok tt)
                    end
                end
            end
      end
  end.
End model.

(** What a checked checkpoint promises of its directories: parents of names
    are directories, roots have no edge, every directory reaches a root, and
    every other inode has a name. *)
Class ForestLaws (base : Base) : Prop := {
  fl_component id : (id < base_name_count base)%N -> component (n_bytes (base_name base id));
  fl_small : (base_inode_count base <= NONE - 16)%N;
  fl_parent id : (id < base_name_count base)%N -> (n_parent (base_name base id) < base_dir_count base)%N;
  fl_root r : r ∈ base_roots base -> (r.1 < base_dir_count base)%N /\ base_dir_name base r.1 = None;
  fl_reach d : (d < base_dir_count base)%N -> reach base [] d;
  fl_used i : (base_dir_count base <= i < base_inode_count base)%N -> default 0%N (name_references base !! N.to_nat i) <> 0%N
}.

Section spec.
Context (checksum : bytes -> bytes) (base : Base) (D0 : Documents) `{Hbase : !BaseLaws base D0} `{Hnames : !NameLaws base} `{Hforest : !ForestLaws base}.

#[local] Abbreviation start := (base_lives base).
#[local] Abbreviation after := (table_after base Namespace start).

Lemma count_base f : count_at base f [] (base_name_count base) =
  Z.of_nat (length (filter (fun id => f (base_name base id) = true) (ids_below (base_name_count base)))).
Proof.
  unfold count_at. rewrite (tally_ext _ (fun id => f (base_name base id))); [apply tally_filter|]. intros id Hid%elem_of_ids. unfold name_test, name_at. cbn.
  by rewrite (proj2 (N.ltb_lt _ _) Hid).
Qed.

Lemma root_base d : root_at base [] d = true -> exists r, r ∈ base_roots base /\ r.1 = d.
Proof. unfold root_at. cbn. intros (r & Hr & Hd%N.eqb_eq)%existsb_exists. exists r. by rewrite list_elem_of_In. Qed.

Lemma dir_base d : dir_at base [] d = true <-> (d < base_dir_count base)%N.
Proof.
  destruct (base_counts_u32 base D0) as [H1 H2]. destruct (bl_inodes (base := base)) as [H3 _]. unfold dir_at, live_at, kind_at. cbn.
  destruct (N.ltb_spec d (base_dir_count base)), (N.ltb_spec d (base_inode_count base)); cbn; split; try done; lia.
Qed.

Lemma names_start : names_ok base (replay_base base) (base_frame base).1 [] (base_inode_count base) start.
Proof.
  destruct (@ft_init base Namespace _ _ (namespace_laws base D0)) as (p & _ & _ & HT).
  assert (Hcount : forall n, (n < base_name_count base)%N -> u32_ok n) by (intros n Hn; destruct (nl_count (base := base)) as [Hc _]; unfold u32_ok in *; lia).
  split; cbn [replay_base nr_rows nr_keys nr_touched nr_references nr_counter nr_count].
  - apply projection_default_ok.
  - constructor.
  - exact HT.
  - apply fl_small.
  - apply nl_count.
  - intros id _. unfold name_at. cbn. by destruct (N.ltb_spec id (base_name_count base)).
  - exists (fun _ => None). split_and!; [apply runs_ok_empty|done|by apply keys_base|apply told_base].
  - intros id n _. unfold name_at. cbn. destruct (N.ltb_spec id (base_name_count base)); [|done]. intros [= <-]. by apply fl_component.
  - constructor.
  - constructor.
  - intros i Hi. rewrite count_base. unfold refs_of. cbn. rewrite nl_references, nat_N_Z, Z.add_0_r by done. do 2 f_equal. apply list_filter_iff.
    intros id. unfold points_to. split; [intros <-; by rewrite Hi, N.eqb_refl|by intros [_ ?%N.eqb_eq]%andb_true_iff].
  - intros id n _. unfold name_at. cbn. destruct (N.ltb_spec id (base_name_count base)) as [Hid|]; [|done]. intros [= <-]. split; [by apply dir_base, fl_parent|].
    intros Hino. destruct (nl_name id Hid) as (_ & _ & Hc). unfold live_at. cbn. by apply N.ltb_lt, Hc.
  - done.
  - intros i _. unfold live_at, kind_at, refs_of. cbn. intros Hl%N.ltb_lt Hk. destruct (N.ltb_spec i (base_dir_count base)); [done|].
    pose proof (fl_used i (conj ltac:(done) Hl)). lia.
  - intros d _ (r & Hr & <-)%root_base. destruct (fl_root r Hr) as [H1 H2]. split; [by apply dir_base|]. unfold own_at. cbn. by rewrite (proj2 (N.ltb_lt _ _) H1).
  - intros d _ Hd%dir_base. by apply fl_reach.
Qed.

Lemma counted_start : counted base (replay_base base) [].
Proof.
  unfold counted. cbn [replay_base nr_counter nr_count]. rewrite count_base. assert (Hall : forall l : list u32, filter (fun _ => true = true) l = l) by (induction l as [|x l IH]; [done|by rewrite filter_cons_True, IH]).
  rewrite Hall. unfold ids_below. rewrite length_fmap, length_seq. by rewrite N_nat_Z.
Qed.

(** ** Replaying transactions *)

(** The manifests after the first count as many names as the one before, where
    the transaction has no rows of names: such a transaction is not checked. *)
Fixpoint counts_kept (bs : list Batch) : Prop :=
  match bs with
  | a :: ((b :: _) as rest) => (records_of (bt_txs b) = [] -> n_names (bt_counts b) = n_names (bt_counts a)) /\ counts_kept rest
  | _ => True
  end.

(** A namespace shows the batches of its overlay: the rows it has replayed,
    and the inodes allocated by them; those its manifest counts where the
    lifetimes are legal too, and its number of names where it is kept. *)
Record shown_by (ns : Names) (m : Manifest) (bs : list Batch) (H : list Record_) (used : u32) : Prop := {
  sb_newest k : newest_row H k = newest_row (records_of (all_txs bs)) k;
  sb_used : (used <= inodes (counters m))%N /\ (legal_batches base Namespace start (base_frame base) bs -> used = inodes (counters m));
  sb_names : names_ok base (replay_over ns m) (frame m).1 H used (after (all_txs bs));
  sb_count : counts_kept bs -> counted base (replay_over ns m) H
}.
Record shown (ns : Names) (m : Manifest) (bs : list Batch) : Prop := {
  sh_new : namespace_new base (ns_rows ns) (ns_keys ns) (ns_touched ns) (ns_references ns) = Some ns;
  sh_last : exists b, last bs = Some b /\ bt_counts b = counts m;
  sh_by : exists H used, shown_by ns m bs H used
}.

Lemma replay_names_spec txs : forall self at_ H T, names_ok base self at_.1 H (inodes at_.2) T -> nr_counter self = names at_.2 ->
  chain at_ (map fst txs) -> Forall (tx_valid Namespace) txs -> legal_txs base Namespace T at_.2 txs ->
  exists r, replay_names base txs self = Some r /\ forall self', r = Ok self' -> exists H', (forall k, newest_row H' k = newest_row (H ++ records_of txs) k) /\
    names_ok base self' (end_of at_ txs).1 H' (inodes (end_of at_ txs).2) (table_after base Namespace T txs) /\ nr_counter self' = names (end_of at_ txs).2 /\
    (counted base self H -> counted base self' H').
Proof.
  induction txs as [|[[q next] rs] txs IH]; intros self [lst before] H T Hok Hc Hch Hv Hl.
  { eexists. split; [done|]. intros self' [= <-]. exists H. unfold records_of. cbn. by rewrite app_nil_r. }
  cbn [map chain fst snd] in *. destruct Hch as [Hf Hch]. apply Forall_cons in Hv as [Hv1 Hv]. destruct Hl as [Hl1 Hl]. rewrite end_of_cons. cbn [replay_names fst snd] in *.
  destruct (names_step base self lst H before next T q rs Hok Hc Hf Hv1 Hl1) as (r & -> & Hr). destruct r as [self1|e]; cbn [oe_bind]; [|by eexists].
  destruct (Hr self1 eq_refl) as (Hok1 & Hc1 & Hn1). destruct (IH self1 (q, next) _ _ Hok1 Hc1 Hch Hv Hl) as (r & -> & Hr2). exists r. split; [done|]. intros self' Hs.
  destruct (Hr2 self' Hs) as (H' & He & Hok' & Hc' & Hn'). exists H'. split; [|split_and!; [done|done|auto]]. intros k. rewrite He. unfold records_of. cbn [map concat]. rewrite !newest_row_app, final_newest. by destruct (newest_row (concat (map snd txs)) k).
Qed.

(** The transactions of one overlay of a chain, after those before it. *)
Record own_ok (at_ : Frame) (m : Manifest) (txs : list Tx) : Prop := {
  ow_chain : chain at_ (map fst txs);
  ow_valid : Forall (tx_valid Namespace) txs;
  ow_end : frame m = end_of at_ txs
}.

Lemma counts_kept_prefix bs b : counts_kept (bs ++ [b]) -> counts_kept bs.
Proof. induction bs as [|a [|a' bs] IH]; [done|done|]. intros [H1 H2]. split; [exact H1|by apply IH]. Qed.

Lemma counts_kept_last bs a b : last bs = Some a -> counts_kept (bs ++ [b]) -> records_of (bt_txs b) = [] -> n_names (bt_counts b) = n_names (bt_counts a).
Proof. induction bs as [|x [|y bs] IH]; [done| |]. - intros [= ->] [H _]. exact H. - intros Hl [_ H]. by apply IH. Qed.

Lemma own_namespace_spec m log delta self at_ H bs b : own_transactions m log delta Namespace = Some (bt_txs b) -> own_ok at_ m (bt_txs b) -> bt_counts b = counts m ->
  names_ok base self at_.1 H (inodes at_.2) (after (all_txs bs)) -> (forall k, newest_row H k = newest_row (records_of (all_txs bs)) k) ->
  nr_counter self = names at_.2 -> (counts_kept bs -> counted base self H) -> legal_txs base Namespace (after (all_txs bs)) at_.2 (bt_txs b) ->
  exists r, own_namespace base m log delta self = Some r /\ forall ns, r = Ok ns -> shown ns m (bs ++ [b]).
Proof.
  intros Ho [Hch Hv Hend] Hb Hok He Hc Hn Hl. unfold own_namespace. rewrite Ho. cbn [mbind option_bind].
  destruct (replay_names_spec (bt_txs b) self at_ H _ Hok Hc Hch Hv Hl) as (r & -> & Hr). destruct r as [self'|e]; cbn [oe_bind]; [|by eexists].
  destruct (Hr self' eq_refl) as (H' & He' & Hok' & Hc' & Hn'). destruct (N.eqb_spec (nr_count self') (n_names (counts m))) as [En|]; cbn [negb]; [|by eexists].
  pose proof (no_rows _ _ _ _ _ _ Hok') as Hp. destruct (records_spec (nr_rows self') _ _ Hp NAME) as (names & Hrec & _). unfold namespace_new. rewrite Hrec. cbn [mbind option_bind].
  destruct (fold_left add_span _ _) as [[ids heap] spans] eqn:Ef. eexists. split; [done|]. intros ns [= <-].
  assert (Hself : replay_over (mkNames (nr_rows self') (nr_keys self') (nr_touched self') (omap (suppressed_name base) names) ids heap spans (nr_references self')) m = self').
  { unfold replay_over. cbn [ns_rows ns_keys ns_touched ns_references]. change (counters m) with (frame m).2. rewrite Hend, <- Hc', <- En. by destruct self'. }
  split; [unfold namespace_new; cbn [ns_rows ns_keys ns_touched ns_references]; rewrite Hrec; cbn [mbind option_bind]; by rewrite Ef|exists b; split; [apply last_snoc|done]|].
  exists H', (inodes (end_of at_ (bt_txs b)).2). split; rewrite ?Hself, ?Hend.
  - intros k. by rewrite all_txs_snoc, He', records_of_app, !newest_row_app, He.
  - change (counters m) with (frame m).2. rewrite Hend. by split.
  - by rewrite all_txs_snoc, table_after_app.
  - intros Hk%counts_kept_prefix. auto.
Qed.

(** ** Chains of overlays *)

(** A chain whose namespaces can be loaded: each overlay has its namespace, or
    is a log that reads, or one transaction after its predecessor.  Frames
    follow one another and records are valid in theirs ([own_ok]), as opening
    a log checks of its file and encoding a transaction of its changes; what
    the transactions do to the graph and to the counts is not assumed. *)
Inductive named : Overlay -> list Batch -> Prop :=
| named_shown o bs ns : o_namespace o = Some ns -> shown ns (o_manifest o) bs -> views base Namespace checksum o bs -> named o bs
| named_log m log log' rows families : length families = 4 -> cell families Namespace = None ->
    load_log checksum log Namespace = Some (log', Ok tt) -> frames log' = frames log -> log_records log' Namespace = Some rows ->
    own_ok (base_frame base) m (log_txs (frames log) rows) ->
    named (mkOverlay m (Some log) None [] families None) [mkBatch (log_txs (frames log) rows) (counts m)]
| named_log_loaded m log b families : stands base Namespace (mkOverlay m (Some log) None [] families None) [b] ->
    own_transactions m (Some log) [] Namespace = Some (bt_txs b) -> own_ok (base_frame base) m (bt_txs b) -> bt_counts b = counts m ->
    named (mkOverlay m (Some log) None [] families None) [b]
| named_next m q delta families bs (b := mkBatch [(frame m, filter (fun r => family r = Namespace) delta)] (counts m)) :
    named q bs -> (length families = 4 /\ cell families Namespace = None) \/ stands base Namespace (mkOverlay m None (Some q) delta families None) (bs ++ [b]) ->
    own_ok (frame (o_manifest q)) m (bt_txs b) ->
    named (mkOverlay m None (Some q) delta families None) (bs ++ [b]).

Lemma named_views o bs : named o bs -> views base Namespace checksum o bs.
Proof.
  induction 1 as [o bs ns _ _ Hv|m log log' rows families Hlen Hcell Hload Hf Hrows Ho|m log b families Hs _ _ _|m q delta families bs b Hq IH Hs Ho].
  - done.
  - destruct Ho as [Hch Hval Hend]. rewrite log_txs_frames in Hch. by eapply views_log.
  - by apply views_loaded.
  - destruct Hs as [[Hlen Hcell]|Hs]; [|by apply views_loaded]. destruct Ho as [[Hf _] Hv _]. apply views_next; try done. by apply Forall_cons in Hv as [Hv _].
Qed.

(** Loading a family keeps everything of an overlay but its cells. *)
Lemma load_keeps f n : forall o o' r, chain_length o <= n -> load checksum base o f = Some (o', r) ->
  o_manifest o' = o_manifest o /\ o_namespace o' = o_namespace o /\ chain_length o' = chain_length o.
Proof.
  induction n as [|n IH]; intros [m log parent delta families ns] o' r Hn; [destruct parent; cbn in Hn; lia|]. cbn [load]. destruct (cell families f); [by intros [= <- <-]|].
  intros Hl. apply bind_Some in Hl as ([parent' started] & Hp & Hl).
  assert (Hlen : chain_length (mkOverlay m log parent' delta families ns) = chain_length (mkOverlay m log parent delta families ns)).
  { destruct parent as [q|]; [|by injection Hp as <- <-]. apply bind_Some in Hp as ([q' r'] & Hq & Hp). destruct (IH q q' r') as (_ & _ & Hc); [cbn in Hn; lia|done|].
    destruct r' as [[]|e]; [apply bind_Some in Hp as (p & _ & Hp)|]; injection Hp as <- <-; cbn; by rewrite Hc. }
  destruct started as [[[p before] c]|e]; [|by injection Hl as <- <-]. apply bind_Some in Hl as ([log' loaded] & _ & Hl). destruct loaded as [[]|e]; [|by injection Hl as <- <-].
  apply bind_Some in Hl as (r' & _ & Hl). by destruct r' as [p'|e]; injection Hl as <- <-.
Qed.

Lemma load_stands o bs o' : views base Namespace checksum o bs -> load checksum base o Namespace = Some (o', Ok tt) -> stands base Namespace o' bs.
Proof.
  intros Hv Hl. destruct (load_views base Namespace (Hlaws := namespace_laws base D0) checksum o bs Hv) as (o1 & r & Hl1 & _ & Hr). rewrite Hl in Hl1. by injection Hl1 as <- <-.
Qed.

Lemma stands_cell o bs : stands base Namespace o bs -> cell (o_families o) Namespace <> None.
Proof. intros [(p & Hp & _) _ _ _]. unfold projection in Hp. by rewrite Hp. Qed.

Lemma load_named o bs : named o bs -> forall o', load checksum base o Namespace = Some (o', Ok tt) -> named o' bs /\ stands base Namespace o' bs.
Proof.
  intros Hn. assert (Hst : forall o', load checksum base o Namespace = Some (o', Ok tt) -> stands base Namespace o' bs) by (intros o'; by apply load_stands, named_views).
  induction Hn as [o bs ns Hns Hs Hv|m log log' rows families Hlen Hcell Hload Hf Hrows Ho|m log b families Hs Ho Hown Hcb|m q delta families bs b Hq IH Hs Ho];
    intros o' Hl; (split; [|by apply Hst]); specialize (Hst o' Hl).
  - destruct (load_keeps _ _ _ _ _ (le_n _) Hl) as (Hm & Hn & _). apply (named_shown o' bs ns); [by rewrite Hn|by rewrite Hm|by apply views_loaded].
  - cbn [load] in Hl. rewrite Hcell in Hl. cbn [mbind option_bind] in Hl. rewrite Hload in Hl. cbn [mbind option_bind] in Hl. apply bind_Some in Hl as (r & _ & Hl).
    destruct r as [p|e]; [|by injection Hl]. injection Hl as <-. apply named_log_loaded; [done| |done|done]. rewrite <- Hf. eapply own_log_txs; [done|]. rewrite Hf.
    destruct Ho as [Hch _ _]. rewrite log_txs_frames in Hch. exact Hch.
  - pose proof (stands_cell _ _ Hs) as Hc. cbn [o_families] in Hc. cbn [load] in Hl. destruct (cell families Namespace) eqn:E; [|done]. injection Hl as <-. by apply named_log_loaded.
  - cbn [load] in Hl. destruct (cell families Namespace) eqn:E.
    + injection Hl as <-. apply named_next; try done. right. done.
    + apply bind_Some in Hl as ([parent' started] & Hp & Hl). apply bind_Some in Hp as ([q' r] & Hload & Hp). destruct r as [[]|e]; [|injection Hp as <- <-; by injection Hl].
      apply bind_Some in Hp as (p & Hp & [= <- <-]). cbn [mbind option_bind] in Hl. apply bind_Some in Hl as (r & _ & Hl). destruct r as [p'|e]; [|by injection Hl]. injection Hl as <-.
      destruct (IH (fun o' => load_stands _ _ _ (named_views _ _ Hq)) q' Hload) as [Hq' _]. destruct (load_keeps _ _ _ _ _ (le_n _) Hload) as (Hm & _).
      apply named_next; [done|by right|by rewrite Hm].
Qed.

(** ** Loading a chain *)

Lemma names_later self last last' H used T : (last <= last')%N -> names_ok base self last H used T -> names_ok base self last' H used T.
Proof.
  intros Hle [[[m0 (M1 & M2 & M3)] P2 P3 P4 P5] N2 N3 N4 N5 N6 (m & K1 & K2 & K3) N8 N9 N11 N12 N13 N14 N15 N16 N17]. split; try done.
  - split; [|done..]. exists m0. split_and!; [done| |done]. intros k s r Hk. specialize (M2 k s r Hk). lia.
  - exists m. split; [done|]. split; [|exact K3]. intros k s v Hk. specialize (K2 k s v Hk). lia.
Qed.

Lemma names_grow ns m c n H last used T : (names (counters m) <= c)%N -> u32_ok c -> names_ok base (replay_over ns m) last H used T ->
  names_ok base (mkReplay (ns_rows ns) (ns_keys ns) (ns_touched ns) (ns_references ns) c n) last H used T.
Proof.
  intros Hle Hc [N1 N2 N3 N4 N5 N6 N7 N8 N9 N10 N11 N12 N13 N14 N15 N16]. cbn [replay_over nr_rows nr_keys nr_touched nr_references nr_counter] in *. split; try done.
  - intros id Hid Hn. specialize (N6 id Hid Hn). cbn [nr_counter] in *. lia.
  - intros i Hi. cbn [nr_references nr_counter]. rewrite (N11 i Hi). symmetry. by apply count_fresh.
Qed.

(** A transaction without rows of names leaves the namespace as it was, with
    the counters and the counts of its own manifest. *)
Lemma shown_quiet ns mq m bs : shown ns mq bs -> own_ok (frame mq) m [(frame m, [])] -> frame mq = end_of (base_frame base) (all_txs bs) ->
  shown ns m (bs ++ [mkBatch [(frame m, [])] (counts m)]).
Proof.
  intros [Hnew (b & Hb & Hbc) (H & used & Hby)] [[Hf _] _ _] Hat. pose proof (fo_grow _ _ Hf) as Hg. pose proof (fo_u32 _ _ Hf) as Hu. pose proof (fo_next _ _ Hf) as Hnext.
  unfold decreased in Hg. rewrite !orb_false_iff, !N.ltb_ge in Hg. unfold counters_ok in Hu. rewrite !Forall_cons in Hu. cbn [frame fst snd] in *. destruct Hg as [[Hgi Hgn] _]. destruct Hu as (_ & Hun & _).
  destruct Hby as [He [Hle Hused] Hok Hcount]. split; [done|eexists; split; [apply last_snoc|done]|]. exists H, used. split.
  - intros k. by rewrite all_txs_snoc, records_of_app, newest_row_app, He.
  - split; [lia|]. intros (Hlb & [Hl _] & _)%legal_batches_snoc. rewrite (Hused Hlb). rewrite <- Hat in Hl. destruct Hl as [_ Hl]. cbn [fst snd frame] in Hl. unfold ids_from in Hl. cbn in Hl.
    symmetry in Hl. apply (f_equal length) in Hl. rewrite length_fmap, length_seq in Hl. cbn in Hl. lia.
  - rewrite all_txs_snoc, table_after_app. apply (names_later _ (g_sequence (generation mq))); [cbn; lia|]. by apply (names_grow ns mq).
  - intros Hk. pose proof (counts_kept_last _ _ _ Hb Hk eq_refl) as Hsame. cbn [bt_counts] in Hsame. rewrite Hbc in Hsame. specialize (Hcount (counts_kept_prefix _ _ Hk)).
    unfold counted in *. cbn [replay_over nr_count nr_counter] in *. rewrite Hsame, Hcount. symmetry. apply count_fresh; [done|done|]. apply (no_fresh _ _ _ _ _ _ Hok).
Qed.

Lemma quiet_delta delta : existsb (fun r => bool_decide (family r = Namespace)) delta = false -> filter (fun r => family r = Namespace) delta = [].
Proof. intros He. induction delta as [|r delta IH]; [done|]. cbn in He. apply orb_false_iff in He as [H1%bool_decide_eq_false H2]. rewrite filter_cons_False by done. auto. Qed.

(** Where the lifetimes are legal, as they are when the family stands. *)
Lemma shown_names ns m bs : shown ns m bs -> legal_batches base Namespace start (base_frame base) bs -> exists H, (forall k, newest_row H k = newest_row (records_of (all_txs bs)) k) /\
  names_ok base (replay_over ns m) (frame m).1 H (inodes (frame m).2) (after (all_txs bs)) /\ (counts_kept bs -> counted base (replay_over ns m) H).
Proof. intros [_ _ (H & used & [He [_ Hused] Hok Hcount])] Hl. exists H. rewrite (Hused Hl) in Hok. done. Qed.

(** The overlay's own part, once its family and its predecessor are loaded. *)
Lemma own_loaded o bs b parent self at_ H : own_transactions (o_manifest o) (o_log o) (o_delta o) Namespace = Some (bt_txs b) ->
  own_ok at_ (o_manifest o) (bt_txs b) -> bt_counts b = counts (o_manifest o) -> stands base Namespace o (bs ++ [b]) -> at_ = end_of (base_frame base) (all_txs bs) ->
  names_ok base self at_.1 H (inodes at_.2) (after (all_txs bs)) -> (forall k, newest_row H k = newest_row (records_of (all_txs bs)) k) -> nr_counter self = names at_.2 -> (counts_kept bs -> counted base self H) ->
  exists r, own_namespace base (o_manifest o) (o_log o) (o_delta o) self = Some r /\ forall ns, r = Ok ns ->
    shown ns (o_manifest o) (bs ++ [b]) /\ views base Namespace checksum (set_namespace o parent (Some ns)) (bs ++ [b]).
Proof.
  intros Ho Hown Hb Hst Hat Hok He Hc Hn. pose proof (st_legal _ _ _ _ Hst) as Hl. apply legal_batches_snoc in Hl as (_ & Hl & _). rewrite <- Hat in Hl.
  destruct (own_namespace_spec _ _ _ self at_ H bs b Ho Hown Hb Hok He Hc Hn Hl) as (r & -> & Hr). exists r. split; [done|]. intros ns Hns. split; [by apply Hr|].
  apply views_loaded. destruct Hst as [H1 H2 H3 H4]. by split.
Qed.

Lemma load_chain fuel : forall o bs, named o bs -> chain_length o <= fuel -> exists o' r, load_namespace checksum base fuel o = Some (o', r) /\
  o_manifest o' = o_manifest o /\ (r = Ok tt -> exists ns, o_namespace o' = Some ns /\ shown ns (o_manifest o') bs /\ views base Namespace checksum o' bs).
Proof.
  induction fuel as [|fuel IH]; intros o bs Hn Hlen; [destruct o as [? ? [] ? ? ?]; cbn in Hlen; lia|]. cbn [load_namespace].
  destruct (o_namespace o) as [ns|] eqn:Ens.
  { exists o, (Ok tt). split; [done|]. split; [done|]. intros _. inversion Hn as [o1 bs1 ns1 E1 Hs Hv| | |]; subst; cbn in Ens; try done. rewrite Ens in E1. injection E1 as <-. by exists ns. }
  destruct (match o_parent o with Some _ => _ | None => false end) eqn:Equiet.
  - inversion Hn as [o1 bs1 ns1 E1| | |m q delta families bs0 b Hq Hs Ho]; subst; cbn in *; try congruence. apply negb_true_iff in Equiet. pose proof (quiet_delta _ Equiet) as Hd.
    destruct (IH q bs0 Hq) as (q' & r & -> & Hm & Hr); [lia|]. cbn [mbind option_bind]. destruct r as [[]|e]; [|by eexists _, _].
    destruct (Hr eq_refl) as (ns & Hns & Hs' & Hv'). rewrite Hns. cbn [mbind option_bind]. eexists _, _. split; [done|]. split; [done|]. intros _. exists ns. split; [done|].
    cbn [set_namespace o_manifest]. subst b. rewrite Hm in Hs'. split.
    + rewrite Hd in *. cbn [bt_txs] in Ho. apply (shown_quiet ns (o_manifest q)); [done|done|]. by apply (views_manifest _ _ _ _ _ (named_views _ _ Hq)).
    + destruct Hs as [[Hl Hc]|Hs]; [|apply views_loaded; destruct Hs as [H1 H2 H3 H4]; by split]. destruct Ho as [[Hf _] Hv _]. rewrite <- Hm in Hf.
      apply views_next; try done. by apply Forall_cons in Hv as [Hv _].
  - destruct (load_views base Namespace (Hlaws := namespace_laws base D0) checksum o bs (named_views o bs Hn)) as (o1 & r & Hl & Hm & Hr). rewrite Hl. cbn [mbind option_bind].
    destruct r as [[]|e]; [|by eexists _, _]. rewrite (bl_sections (BaseLaws := Hbase)). destruct (load_named o bs Hn o1 Hl) as [Hn1 Hst].
    destruct (load_keeps _ _ _ _ _ (le_n _) Hl) as (_ & Hns & Hlen1). rewrite Ens in Hns. rewrite <- Hm. rewrite <- Hlen1 in Hlen. clear Equiet Hn Hl Hm Hr Hlen1.
    inversion Hn1 as [o2 bs2 ns2 E2|m log log' rows families _ Hcell|m log b families _ Ho Hown Hcb|m q delta families bs0 b Hq Hs Ho]; subst; cbn [o_parent] in *; try congruence.
    + by destruct (stands_cell _ _ Hst).
    + destruct (own_loaded (mkOverlay m (Some log) None [] families None) [] b None (replay_base base) (base_frame base) [] Ho Hown Hcb Hst eq_refl names_start (fun k => eq_refl) eq_refl (fun _ => counted_start)) as (r & Hrun & Hr).
      cbn [mbind option_bind]. rewrite Hrun. cbn [mbind option_bind]. destruct r as [ns|e]; [|by eexists _, _]. eexists _, _. split; [done|]. split; [done|]. intros _. exists ns. split; [done|]. by apply Hr.
    + destruct (IH q bs0 Hq) as (q' & r & -> & Hm & Hr); [cbn in Hlen; lia|]. cbn [mbind option_bind]. destruct r as [[]|e]; [|by eexists _, _].
      destruct (Hr eq_refl) as (nsq & Hnsq & Hsq & Hvq). rewrite Hnsq. cbn [mbind option_bind]. pose proof (st_legal _ _ _ _ Hst) as Hlegal. apply legal_batches_snoc in Hlegal as [Hlegal _]. destruct (shown_names _ _ _ Hsq Hlegal) as (H & He & Hok & Hn).
      rewrite Hm in *. destruct (own_loaded (mkOverlay m None (Some q) delta families None) bs0 b (Some q') _ (frame (o_manifest q)) H eq_refl Ho eq_refl Hst (views_manifest _ _ _ _ _ (named_views _ _ Hq)) Hok He eq_refl Hn) as (r & Hrun & Hr2).
      rewrite Hrun. cbn [mbind option_bind]. destruct r as [ns|e]; [|by eexists _, _]. eexists _, _. split; [done|]. split; [done|]. intros _. exists ns. split; [done|]. by apply Hr2.
Qed.
End spec.

(** ** Histories with the same newest rows *)

Section alike.
Context (base : Base) (H1 H2 : list Record_) (He : forall k, newest_row H1 k = newest_row H2 k).

Lemma name_alike id : name_at base H1 id = name_at base H2 id.
Proof. unfold name_at. by rewrite He. Qed.
Lemma live_alike i : live_at base H1 i = live_at base H2 i.
Proof. unfold live_at. by rewrite He. Qed.
Lemma kind_alike i : kind_at base H1 i = kind_at base H2 i.
Proof. unfold kind_at. by rewrite He. Qed.
Lemma dir_alike d : dir_at base H1 d = dir_at base H2 d.
Proof. unfold dir_at. by rewrite live_alike, kind_alike. Qed.
Lemma own_alike d : own_at base H1 d = own_at base H2 d.
Proof. unfold own_at. by rewrite He. Qed.
Lemma root_alike d : root_at base H1 d = root_at base H2 d.
Proof. unfold root_at. by rewrite He. Qed.
Lemma count_alike f c : count_at base f H1 c = count_at base f H2 c.
Proof. apply tally_ext. intros id _. unfold name_test. by rewrite name_alike. Qed.
Lemma reach_alike d : reach base H1 d -> reach base H2 d.
Proof.
  induction 1 as [d Hd Ho Hr|d e n Hd Ho Hn Hi Hc Hr _ IH].
  - apply reach_root; by rewrite <- ?dir_alike, <- ?own_alike, <- ?root_alike.
  - apply (reach_edge base H2 d e n); by rewrite <- ?dir_alike, <- ?own_alike, <- ?name_alike, <- ?root_alike.
Qed.
End alike.

(** ** Properties *)

(** What the names of a view are, by its history: its reads, the references of
    its inodes, and the forest of its directories. *)
Record forest (base : Base) (o : Overlay) (ns : Names) (H : list Record_) : Prop := {
  fo_name id : u32_ok id -> ns_name base ns id = Some (name_at base H id);
  fo_lookup parent bs : exists found, ns_lookup base ns parent bs = Some found /\
    forall id, found = Some id <-> u32_ok id /\ exists child, name_at base H id = Some (mkName parent child bs);
  fo_edge id n : u32_ok id -> name_at base H id = Some n -> dir_at base H (n_parent n) = true /\ (is_inode (n_child n) = true -> live_at base H (n_child n) = true);
  fo_declared i id k flags n : u32_ok i -> is_inode i = true -> newest_row H (row_key LIFE i) = Some (LifePut id k flags n) ->
    Z.of_N n = count_at base (points_to i) H (names (counters (o_manifest o)));
  fo_used i : u32_ok i -> live_at base H i = true -> kind_at base H i <> Some Dir -> exists id n, u32_ok id /\ name_at base H id = Some n /\ n_child n = i;
  fo_root d : u32_ok d -> root_at base H d = true -> dir_at base H d = true /\ own_at base H d = None;
  fo_reach d : u32_ok d -> dir_at base H d = true -> reach base H d
}.

(** The manifest counts the live names. *)
Definition names_counted (base : Base) (o : Overlay) (H : list Record_) : Prop :=
  Z.of_N (n_names (counts (o_manifest o))) = count_at base (fun _ => true) H (names (counters (o_manifest o))).

Lemma live_is_inode (base : Base) H used T i : lives base H used T -> Forall rec_ok H -> (used <= NONE - 16)%N -> u32_ok i -> live_at base H i = true -> is_inode i = true.
Proof.
  intros HT Hf Hu Hi Hl. rewrite (proj1 (lives_reads base H used T i HT (rows_of_fields H Hf) Hi)) in Hl. apply bool_decide_eq_true in Hl.
  apply small_inode. pose proof (lv_below _ _ _ _ HT i Hl). lia.
Qed.

Lemma pointed_named (base : Base) H c i : u32_ok c -> count_at base (points_to i) H c <> 0%Z -> exists id n, u32_ok id /\ name_at base H id = Some n /\ n_child n = i.
Proof.
  intros Hc Hz. destruct (existsb (name_test base (points_to i) H) (ids_below c)) eqn:E.
  - apply existsb_exists in E as (id & Hin & Ht). apply list_elem_of_In, elem_of_ids in Hin. unfold name_test, points_to in Ht. destruct (name_at base H id) as [n|] eqn:En; [|done].
    apply andb_true_iff in Ht as [_ Ht%N.eqb_eq]. exists id, n. split; [unfold u32_ok in *; lia|done].
  - destruct Hz. unfold count_at. rewrite (tally_ext _ (fun _ => false)); [by apply tally_none|]. intros id Hin. apply not_true_iff_false. intros Ht.
    apply not_true_iff_false in E. apply E, existsb_exists. exists id. by rewrite <- list_elem_of_In.
Qed.

Lemma names_forest (base : Base) `{Hnames : !NameLaws base} o ns last H used T : names_ok base (replay_over ns (o_manifest o)) last H used T -> forest base o ns H.
Proof.
  intros Hok. destruct (no_keys _ _ _ _ _ _ Hok) as (m & K1 & _ & K2 & _). pose proof (no_rows _ _ _ _ _ _ Hok) as Hp. split.
  - intros id Hid. by apply (name_in_spec base _ _ _ Hp).
  - intros parent bytes. exists (key_lookup base m H parent bytes). split; [exact (lookup_in_spec base _ last H Hp _ m parent bytes K1)|]. intros id. apply K2.
  - apply (no_edges _ _ _ _ _ _ Hok).
  - intros i id k flags n Hi Hino Hrow. rewrite (no_declared _ _ _ _ _ _ Hok i id k flags n Hi Hrow). by apply (no_references _ _ _ _ _ _ Hok).
  - intros i Hi Hl Hk. apply (pointed_named base H _ i (no_counter _ _ _ _ _ _ Hok)). rewrite <- (no_references _ _ _ _ _ _ Hok); [by apply (no_used _ _ _ _ _ _ Hok)|].
    by eapply live_is_inode; [apply (no_lives _ _ _ _ _ _ Hok)|apply (no_fields _ _ _ _ _ _ Hok)|apply (no_small _ _ _ _ _ _ Hok)| |].
  - apply (no_roots _ _ _ _ _ _ Hok).
  - apply (no_forest _ _ _ _ _ _ Hok).
Qed.

Lemma forest_alike (base : Base) o ns H1 H2 : (forall k, newest_row H1 k = newest_row H2 k) -> forest base o ns H1 -> forest base o ns H2.
Proof.
  intros He [F1 F2 F3 F4 F5 F6 F7]. pose proof (name_alike base H1 H2 He) as Hn. pose proof (live_alike base H1 H2 He) as Hl. pose proof (kind_alike base H1 H2 He) as Hk. pose proof (dir_alike base H1 H2 He) as Hd. split.
  - intros id Hid. rewrite <- Hn. auto.
  - intros parent bytes. destruct (F2 parent bytes) as (found & Hf & Hin). exists found. split; [done|]. intros id. by rewrite Hin, Hn.
  - intros id n Hid. rewrite <- Hn, <- Hd, <- Hl. apply F3, Hid.
  - intros i id k flags n Hi Hino Hrow. rewrite <- (count_alike base H1 H2 He). apply (F4 i id k flags); [done|done|by rewrite He].
  - intros i Hi. rewrite <- Hl, <- Hk. intros H3 H4. destruct (F5 i Hi H3 H4) as (id & n & Hid & Hname & Hc). exists id, n. by rewrite <- Hn.
  - intros d Hu. rewrite <- (root_alike base H1 H2 He), <- Hd, <- (own_alike base H1 H2 He). apply F6, Hu.
  - intros d Hu Hdir. apply (reach_alike base H1 H2 He), F7; [done|]. by rewrite Hd.
Qed.

Lemma shown_forest (base : Base) `{Hnames : !NameLaws base} o ns bs (H := records_of (all_txs bs)) : shown base ns (o_manifest o) bs ->
  forest base o ns H /\ (counts_kept bs -> names_counted base o H).
Proof.
  intros [_ _ (H0 & used & [He _ Hok Hc])]. split.
  - apply (forest_alike base o ns H0 H He). by eapply names_forest.
  - intros Hk. unfold names_counted. rewrite <- (count_alike base H0 H He). exact (Hc Hk).
Qed.

(** C1: The namespace of a view is a forest.  Over a checked checkpoint,
    loading the namespace of an overlay, whether of a log or of a chain of
    transactions on it, answers; and when it accepts, by the checkpoint and
    the rows of the chain: looking a name up in a directory finds exactly the
    live name there, every live name stands between a live directory and a
    live inode, each lifetime row counts the names of its inode, every live
    inode but a directory has a name, a root is a live directory without an
    incoming edge, and every live directory reaches a root along its incoming
    edges.  The checks behind it look only at what each transaction touches.
    The manifest counts the live names if the chain keeps its counts where a
    transaction has no rows of names ([counts_kept]): the manifest of such a
    transaction is not compared with anything, and loading accepts it
    whatever it counts. *)
Theorem load_namespace_forest (checksum : bytes -> bytes) (base : Base) (D0 : Documents) (o : Overlay) (bs : list Batch)
    (Hbase : BaseLaws base D0) (Hlaws : NameLaws base) (Hforest : ForestLaws base) (Hnamed : named checksum base o bs)
    (H := records_of (all_txs bs)) :
  exists o' r, load_namespace checksum base (chain_length o) o = Some (o', r) /\
    (r = Ok tt -> exists ns, o_namespace o' = Some ns /\ forest base o' ns H /\ (counts_kept bs -> names_counted base o' H)).
Proof.
  destruct (load_chain checksum base D0 (chain_length o) o bs Hnamed (le_n _)) as (o' & r & Hl & _ & Hr). exists o', r. split; [exact Hl|]. intros Hok.
  destruct (Hr Hok) as (ns & Hns & Hs & _). exists ns. split; [done|]. by apply shown_forest.
Qed.
(** C40: No bytes on disk make loading a namespace panic or loop, and none pass
    with a broken one: over a checked checkpoint, whatever the log file holds,
    opening it at a manifest answers; if it opens, loading the namespace over
    it answers; and if that is accepted, the log's rows of names, lifetimes,
    directories and roots over the checkpoint make a forest, which the
    namespace reads, and the manifest counts its names. *)
Theorem opened_namespace_safe (checksum : bytes -> bytes) (base : Base) (D0 : Documents) (file : bytes) (m : Manifest)
    (Hbase : BaseLaws base D0) (Hlaws : NameLaws base) (Hforest : ForestLaws base)
    (Hfile : bytes_ok file) (Hm : checkpoint_sequence m = g_sequence (l_generation (layout base))) :
  exists opened, log_open checksum (Some file) m (counters (base_manifest base)) = Some opened /\ forall log, opened = Ok log ->
    exists o r, load_namespace checksum base 1 (overlay_new m log) = Some (o, r) /\
      (r = Ok tt -> exists ns log' rows, o_namespace o = Some ns /\
         load_log checksum log Namespace = Some (log', Ok tt) /\ log_records log' Namespace = Some rows /\
         forest base o ns (records_of (log_txs (frames log) rows)) /\ names_counted base o (records_of (log_txs (frames log) rows))).
Proof.
  destruct (log_open_spec checksum (Some file) m (counters (base_manifest base))) as (opened & Ho & Hspec); [by intros ? [= <-]|]. exists opened. split; [exact Ho|].
  intros log Hlog. subst opened. destruct (Hspec log eq_refl) as (Hok & _). destruct (load_log_spec checksum log Namespace Hok) as (log' & r & Hl & _ & Hfr & _).
  destruct r as [[]|e].
  - destruct (opened_views base Namespace (Htable := namespace_table base) checksum file m log log' Hfile Hm Ho Hl) as (rows & Hrows & Hv).
    assert (Hn : named checksum base (overlay_new m log) [mkBatch (log_txs (frames log) rows) (counts m)]).
    { inversion Hv as [o' bs' Hs|m' log1 log2 rows2 fams ns Hlen Hcell Hl2 Hfr2 Hrows2 Hc2 Hval Hfm|]; subst; [by destruct (stands_cell _ _ _ Hs)|].
      match goal with E : log_txs _ rows2 = _ |- _ => rewrite E in * end. apply (named_log checksum base m log log' rows); try done. split; rewrite ?log_txs_frames; done. }
    destruct (load_chain checksum base D0 1 _ _ Hn (le_n _)) as (o & r & Hload & _ & Hr). exists o, r. split; [exact Hload|]. intros Hr1.
    destruct (Hr Hr1) as (ns & Hns & Hs & _). pose proof (shown_forest base o ns _ Hs) as [Hf Hc].
    unfold all_txs in Hf, Hc. cbn [map concat bt_txs] in Hf, Hc. rewrite app_nil_r in Hf, Hc. exists ns, log', rows. by split_and!; [..|apply Hc].
  - eexists _, (Err e). split; [|done]. cbn [load_namespace overlay_new o_namespace o_parent load]. change (cell (replicate 4 None) Namespace) with (@None Projection).
    cbn [mbind option_bind]. rewrite Hl. done.
Qed.
(** A checkpoint of a root with a directory with a file, and a transaction on
    it: the file moves up to the root, and a directory is born in the other. *)
Definition forest_layout : Layout := mkLayout (mkGeneration (le_bytes 16 1) 3 11) 1 1 2 3 2 1.
Definition forest_base : Base := {|
  layout := forest_layout; load_sections _ := Ok tt;
  base_doc_hash id := if (id =? 0)%N then Some (sample_hash 5) else None;
  base_dormant_hash _ := None; base_dormant_state := state_new [];
  base_name id := if (id =? 0)%N then mkName 0 1 [97%N] else mkName 1 2 [98%N];
  base_lookup p b := if bool_decide (p = 0%N /\ b = [97%N]) then Some 0%N else if bool_decide (p = 1%N /\ b = [98%N]) then Some 1%N else None;
  base_children p := if (p =? 0)%N then [0%N] else if (p =? 1)%N then [1%N] else [];
  base_dir_name d := if (d =? 1)%N then Some 0%N else None;
  base_roots := [(0%N, [47; 114]%N)]; name_references := [0; 1; 1]%N
|}.
Definition forest_delta : list Record_ := [NamePut 1 0 2 [98%N] false; LifePut 3 Dir 0 1; NamePut 2 1 3 [99%N] false; DirPut 3 (Some 2%N) (Some 0%N) 0 None].
Definition forest_first : Manifest := from_layout forest_layout.
Definition forest_next : Manifest := mkManifest (mkGeneration (le_bytes 16 1) 3 12) 0 11 1 (mkCounters 4 3 1) (mkCounts 4 3 3 1).
Definition forest_log : Overlay := overlay_new forest_first (mkLog None [] 0 0 3).
Definition forest_overlay : Overlay := overlay_advance forest_log forest_next forest_delta.
Definition forest_batches : list Batch :=
  [mkBatch [] (counts forest_first)] ++ [mkBatch [(frame forest_next, filter (fun r => family r = Namespace) forest_delta)] (counts forest_next)].

Lemma forest_names id : (id < base_name_count forest_base)%N -> id = 0%N \/ id = 1%N.
Proof. change (base_name_count forest_base) with 2%N. lia. Qed.

Lemma forest_base_laws : BaseLaws forest_base sample_documents.
Proof.
  destruct sample_base_laws as [_ _ _ L4 L5 L6 L7 L8]. by split.
Qed.

Lemma forest_name_laws : NameLaws forest_base.
Proof.
  split.
  - done.
  - by intros id [-> | ->]%forest_names.
  - intros p b id. cbn [forest_base base_lookup]. split.
    + repeat case_bool_decide; intros [= <-]; naive_solver.
    + intros ([-> | ->]%forest_names & <- & <-); done.
  - intros p id. cbn [forest_base base_children]. destruct (N.eqb_spec p 0) as [->|H0]; [|destruct (N.eqb_spec p 1) as [->|H1]]; rewrite ?list_elem_of_singleton, ?elem_of_nil.
    + split; [by intros ->|]. by intros ([-> | ->]%forest_names & ?).
    + split; [by intros ->|]. by intros ([-> | ->]%forest_names & ?).
    + split; [done|]. intros ([-> | ->]%forest_names & Hp); by subst.
  - intros i _. change (ids_below (base_name_count forest_base)) with [0; 1]%N. cbn [forest_base name_references base_name filter list_filter N.eqb n_child].
    destruct (N.to_nat i) as [|[|[|n]]] eqn:E; [replace i with 0%N by lia|replace i with 1%N by lia|replace i with 2%N by lia|]; try done. cbn. repeat case_decide; subst; try done; exfalso; vm_compute in E; congruence.
  - intros d n. cbn. by destruct (d =? 1)%N; [intros [= <-]|].
  - by repeat constructor.
Qed.

Lemma forest_forest_laws : ForestLaws forest_base.
Proof.
  split.
  - intros id [-> | ->]%forest_names; (split; [done| |done..]); by intros [?|?%not_elem_of_nil]%elem_of_cons.
  - done.
  - by intros id [-> | ->]%forest_names.
  - by intros r [->|?%not_elem_of_nil]%elem_of_cons.
  - assert (Hr : reach forest_base [] 0) by (by apply reach_root). intros d Hd. change (d < 2)%N in Hd. assert (Hd' : d = 0%N \/ d = 1%N) by lia.
    destruct Hd' as [-> | ->]; [done|]. by apply (reach_edge forest_base [] 1%N 0%N (mkName 0 1 [97%N])).
  - intros i Hi. change (2 <= i < 3)%N in Hi. assert (i = 2%N) as -> by lia. done.
Qed.

Lemma forest_string b : (0 < b < 256)%N -> string_ok [b].
Proof. intros Hb. split; [done|apply Forall_singleton; unfold byte_ok; lia|]. intros [?|?%not_elem_of_nil]%elem_of_cons; [lia|done]. Qed.

Lemma forest_log_named checksum : named checksum forest_base forest_log [mkBatch [] (counts forest_first)].
Proof.
  change [mkBatch [] (counts forest_first)] with [mkBatch (log_txs (frames (mkLog None [] 0 0 3)) []) (counts forest_first)].
  unfold forest_log, overlay_new. eapply named_log; [done|done|reflexivity|done|reflexivity|]. by split.
Qed.

Lemma forest_own : own_ok (frame forest_first) forest_next [(frame forest_next, filter (fun r => family r = Namespace) forest_delta)].
Proof.
  split; [|constructor; [|constructor]|done].
  - split; [|done]. split; [done|done|repeat constructor|done|done].
  - repeat apply Forall_cons_2; try apply Forall_nil_2; (split; [|intros id n [= <-] [= <-]; done|done]); cbn [checked].
    + split_and!; try done; [by left|apply forest_string; lia|by intros [?|?%not_elem_of_nil]%elem_of_cons].
    + done.
    + split_and!; try done; [by left|apply forest_string; lia|by intros [?|?%not_elem_of_nil]%elem_of_cons].
    + split_and!; try done; by intros n [= <-].
Qed.

Lemma forest_named checksum : named checksum forest_base forest_overlay forest_batches.
Proof. apply (named_next checksum forest_base forest_next forest_log forest_delta); [apply forest_log_named|by left|exact forest_own]. Qed.

Lemma load_namespace_forest_witness :
  (exists o' ns, load_namespace sample_sum forest_base 2 forest_overlay = Some (o', Ok tt) /\ o_namespace o' = Some ns /\
     ns_lookup forest_base ns 0 [98%N] = Some (Some 1%N) /\ ns_lookup forest_base ns 1 [98%N] = Some None /\ ns_lookup forest_base ns 1 [99%N] = Some (Some 2%N)) /\
  counts_kept forest_batches /\
  exists o' r, load_namespace sample_sum forest_base (chain_length forest_overlay) forest_overlay = Some (o', r) /\
    (r = Ok tt -> exists ns, o_namespace o' = Some ns /\ forest forest_base o' ns (records_of (all_txs forest_batches)) /\
       (counts_kept forest_batches -> names_counted forest_base o' (records_of (all_txs forest_batches)))).
Proof.
  split; [eexists _, _; split; [vm_compute; reflexivity|]; split; [reflexivity|]; split_and!; vm_compute; reflexivity|]. split; [by split|].
  exact (load_namespace_forest sample_sum forest_base sample_documents forest_overlay forest_batches forest_base_laws forest_name_laws forest_forest_laws (forest_named sample_sum)).
Defined.

(** A log file that holds the sample's transaction, and half an append. *)
Definition forest_tx : bytes := encoded 12 11 (mkChangeSet forest_delta (counters forest_next) (counts forest_next)).
Definition forest_logged : Manifest := mkManifest (mkGeneration (le_bytes 16 1) 3 12) (64 + N.of_nat (length forest_tx)) 11 1 (counters forest_next) (counts forest_next).
Definition forest_file : bytes := log_file sample_sum VERSION forest_logged forest_tx [1; 2; 3]%N.

Lemma opened_namespace_safe_witness :
  (exists log o ns, log_open sample_sum (Some forest_file) forest_logged (counters (base_manifest forest_base)) = Some (Ok log) /\
     load_namespace sample_sum forest_base 1 (overlay_new forest_logged log) = Some (o, Ok tt) /\ o_namespace o = Some ns /\ ns_lookup forest_base ns 1 [99%N] = Some (Some 2%N)) /\
  exists opened, log_open sample_sum (Some forest_file) forest_logged (counters (base_manifest forest_base)) = Some opened /\ forall log, opened = Ok log ->
    exists o r, load_namespace sample_sum forest_base 1 (overlay_new forest_logged log) = Some (o, r) /\
      (r = Ok tt -> exists ns log' rows, o_namespace o = Some ns /\
         load_log sample_sum log Namespace = Some (log', Ok tt) /\ log_records log' Namespace = Some rows /\
         forest forest_base o ns (records_of (log_txs (frames log) rows)) /\ names_counted forest_base o (records_of (log_txs (frames log) rows))).
Proof.
  split; [eexists _, _, _; split; [vm_compute; reflexivity|]; split; [vm_compute; reflexivity|]; split; [reflexivity|vm_compute; reflexivity]|].
  exact (opened_namespace_safe sample_sum forest_base sample_documents forest_file forest_logged forest_base_laws forest_name_laws forest_forest_laws
    ltac:(apply (bool_decide_unpack _); vm_compute; exact I) eq_refl).
Defined.

(** A transaction without rows of names is not checked: here its manifest
    counts five names where two are live, and the namespace loads. *)
Definition quiet_delta_sample : list Record_ := [InodePut 2 File Unindexed None (mkStat 1 2 0 0 0 0 0 33188 0 0 1)].
Definition quiet_next : Manifest := mkManifest (mkGeneration (le_bytes 16 1) 3 12) 0 11 1 (mkCounters 3 7 1) (mkCounts 3 5 2 1).

Example quiet_count_accepted :
  match load_namespace sample_sum forest_base 2 (overlay_advance forest_log quiet_next quiet_delta_sample) with
  | Some (o, Ok _) => n_names (counts (o_manifest o)) = 5%N /\ count_at forest_base (fun _ => true) quiet_delta_sample (names (counters (o_manifest o))) = 2%Z
  | _ => False
  end.
Proof. vm_compute. by split. Qed.

(** A directory can be left with two live names: the check for a second
    incoming edge ([added_keys]) looks at the changed names only, so a
    transaction that names a directory again and makes the new name its own
    passes, with the old name still live. *)
Definition second_name_delta : list Record_ := [NamePut 2 0 1 [99%N] false; DirPut 1 (Some 2%N) None 0 None].

Example second_name_accepted :
  match apply_names forest_base (replay_base forest_base) 12 (mkCounters 3 3 1) second_name_delta with
  | Some (Ok self) => name_in forest_base (nr_rows self) 0 = Some (Some (mkName 0 1 [97%N])) /\ name_in forest_base (nr_rows self) 2 = Some (Some (mkName 0 1 [99%N]))
  | _ => False
  end.
Proof. vm_compute. by split. Qed.
