(* ===== verification/NameView.v ===== *)
(** * NameView: the names of a view

    Models [crates/ferret-catalog/src/read/names.rs] and [NameReader::get] of
    [read/cursors.rs]: a checkpoint, under the overlay of a log or alone, read
    name by name, directory by directory, by path and back.

    The columns of the checkpoint are [Overlay.Base]; [child_range] and the
    search of [lookup] in it are its [base_children] and [base_lookup].
    Reading a column past its rows is out of its contract and is [None] here,
    as a panic is.  Only names' own kind of view is modelled: the resident
    representation of the same names, and the sections that are loaded, are
    not.  Climbing to a root takes one step for each directory that can have
    an edge, and one more; resolving a path, one for each of its bytes. *)
From S2P Require Import Prelude Word Bytes DocSet DocNames Trigrams LogRecords BTree Runs Dormant Generation LogFrames Projection Overlay NameGraph.
#[local] Open Scope ferret_scope.

(** [Catalog]: a checkpoint and an overlay of it; [base_entries] is the
    checkpoint's column of entry counts. *)
Record View := mkView { v_base : Base; v_overlay : option Overlay; base_entries : u32 -> option u32 }.

(** [Resolved]. *)
Record Resolved := mkResolved { r_name : option u32; r_target : Target; r_remainder : bytes }.

Definition SLASH : u8 := 47%N.
Definition DOT : bytes := [46]%N.
Definition DOTDOT : bytes := [46; 46]%N.

Section model.
Context (v : View).
#[local] Abbreviation base := (v_base v).

(** ** Rows and names *)

(** The namespace of the overlay, which must be loaded. *)
Definition namespace : option (option Names) :=
  match v_overlay v with None => Some None | Some o => ns ← o_namespace o; Some (Some ns) end.

(** [ns_record]. *)
Definition ns_record (category : u64) (id : u32) : option (option Record_) :=
  match v_overlay v with None => Some None | Some o => p ← Overlay.projection o Namespace; projection_get p category id end.

(** [NameReader::get], and [Catalog::name]. *)
Definition reader_get (id : u32) : option Name :=
  ns ← namespace;
  match ns with
  | Some ns =>
      sparse ← ns_sparse_name ns id;
      match sparse with Some n => n | None => if (id <? base_name_count base)%N then Some (base_name base id) else None end
  | None => if (id <? base_name_count base)%N then Some (base_name base id) else None
  end.

(** [is_live_name] and [base_name_live]. *)
Definition is_live_name (id : u32) : option bool :=
  row ← ns_record NAME id;
  Some (match row with Some (NamePut _ _ _ _ _) => true | Some (NameDelete _) => false | _ => (id <? base_name_count base)%N end).
Definition base_name_live (id : u32) : option bool :=
  if (id <? base_name_count base)%N then ns ← namespace; Some (match ns with Some ns => negb (ns_suppresses ns id) | None => true end)
  else Some false.

(** ** Directories *)

(** [children]: an untouched directory lists its range of the checkpoint; one
    that is touched merges the overlay's names into it. *)
Fixpoint keep_live (ids : list u32) : option (list u32) :=
  match ids with
  | [] => Some []
  | id :: ids => l ← base_name_live id; kept ← keep_live ids; Some (if l : bool then id :: kept else kept)
  end.
Fixpoint with_bytes (ids : list u32) : option (list (bytes * u32)) :=
  match ids with
  | [] => Some []
  | id :: ids => n ← reader_get id; rest ← with_bytes ids; Some ((n_bytes n, id) :: rest)
  end.
Definition bytes_le (a b : bytes * u32) : bool := cmp_le a.1 b.1.
Definition view_children (dir : u32) : option (list u32) :=
  ns ← namespace;
  match ns with
  | Some ns =>
      if ns_touches ns dir then
        ids ← keep_live (base_children base dir);
        delta ← ns_children ns dir;
        named ← with_bytes (ids ++ delta);
        Some (sort_by bytes_le named).*2
      else Some (base_children base dir)
  | None => Some (base_children base dir)
  end.

(** [lookup]. *)
Definition view_lookup (dir : u32) (name : bytes) : option (option u32) :=
  ns ← namespace;
  match ns with Some ns => ns_lookup base ns dir name | None => Some (base_lookup base dir name) end.

(** [dir_name], [entry_count] and [is_directory]. *)
Definition dir_name (dir : u32) : option (option u32) :=
  row ← ns_record DIR dir;
  match row with
  | Some (DirPut _ name _ _ _) => Some name
  | _ => if (dir <? base_dir_count base)%N then Some (base_dir_name base dir) else None
  end.
Definition entry_count (dir : u32) : option (option u32) :=
  row ← ns_record DIR dir;
  match row with
  | Some (DirPut _ _ entries flags _) => Some (if negb (N.land flags 8 =? 0)%N then None else entries)
  | _ => if (dir <? base_dir_count base)%N then Some (base_entries v dir) else None
  end.
Definition view_directory (id : u32) : option bool :=
  match v_overlay v with Some o => is_directory base o id | None => Some (id <? base_dir_count base)%N end.

(** [roots] and [root_path]. *)
Definition roots : option (list (u32 * bytes)) :=
  match v_overlay v with
  | None => Some (base_roots base)
  | Some o => p ← Overlay.projection o Namespace; kept ← base_roots_kept p (base_roots base); delta ← Projection.records p ROOT; Some (kept ++ omap root_of delta)
  end.
Definition root_path (dir : u32) : option (option bytes) :=
  rs ← roots; Some (snd <$> List.find (fun r => (r.1 =? dir)%N) rs).

(** ** Paths *)

(** [push_component]. *)
Definition push_component (out name : bytes) : bytes := (if bool_decide (last out = Some SLASH) then out else out ++ [SLASH]) ++ name.

(** The loop of [dir_path]: the root above a directory and the names on the
    way up. *)
Fixpoint climb (fuel : nat) (at_ : u32) (up : list bytes) : option (u32 * list bytes) :=
  match fuel with
  | 0 => None
  | S fuel =>
      name ← dir_name at_;
      match name with
      | None => Some (at_, up)
      | Some name => n ← reader_get name; climb fuel (n_parent n) (up ++ [n_bytes n])
      end
  end.
Definition climb_fuel : option nat :=
  match v_overlay v with
  | None => Some (N.to_nat (base_dir_count base) + 2)
  | Some o => p ← Overlay.projection o Namespace; edge_fuel base p
  end.

(** [dir_path] and [path]. *)
Definition dir_path (dir : u32) (out : bytes) : option bytes :=
  fuel ← climb_fuel;
  '(top, up) ← climb fuel dir [];
  rp ← root_path top;
  Some (fold_left push_component (rev up) (out ++ default [] rp)).
Definition path (name : u32) (out : bytes) : option bytes :=
  n ← reader_get name;
  out ← dir_path (n_parent n) out;
  Some (push_component out (n_bytes n)).

(** ** Resolution *)

(** [starts_with] and [strip_prefix]. *)
Fixpoint strip_prefix (prefix l : bytes) : option bytes :=
  match prefix, l with
  | [], _ => Some l
  | a :: prefix, b :: l => if (a =? b)%N then strip_prefix prefix l else None
  | _ :: _, [] => None
  end.

(** The roots a path is in, and the innermost: [max_by_key] keeps the last of
    the longest. *)
Definition in_root (p : bytes) (r : u32 * bytes) : bool :=
  bool_decide (p = r.2) ||
  match strip_prefix r.2 p with Some rest => bool_decide (r.2 = [SLASH]) || bool_decide (head rest = Some SLASH) | None => false end.
Definition longer (best : option (u32 * bytes)) (r : u32 * bytes) : option (u32 * bytes) :=
  match best with Some b => if (length b.2 <=? length r.2) then Some r else best | None => Some r end.
Definition innermost (p : bytes) (rs : list (u32 * bytes)) : option (u32 * bytes) := fold_left longer (filter (fun r => in_root p r = true) rs) None.

(** The first component of a path without a leading separator, and what is
    after it. *)
Fixpoint span_part (l : bytes) : bytes * bytes :=
  match l with
  | [] => ([], [])
  | b :: l' => if (b =? SLASH)%N then ([], l) else let '(part, rest) := span_part l' in (b :: part, rest)
  end.
Fixpoint skip_slashes (l : bytes) : bytes :=
  match l with b :: l' => if (b =? SLASH)%N then skip_slashes l' else l | [] => [] end.

(** The loop of [resolve]; [None] is a panic, [Some None] a path that names
    nothing. *)
Fixpoint resolve_loop (fuel : nat) (target : Target) (name : option u32) (rest : bytes) : option (option Resolved) :=
  match fuel with
  | 0 => None
  | S fuel =>
      let separator := bool_decide (head rest = Some SLASH) in
      let rest := skip_slashes rest in
      opens ← match target with
        | TIgnored k => Some (bool_decide (k = Dir))
        | TInode dir => if separator then view_directory dir else Some true
        end;
      if separator && negb opens then Some None
      else if is_empty rest then Some (Some (mkResolved name target rest))
      else
        let '(part, after) := span_part rest in
        if bool_decide (part = DOTDOT) then Some None
        else if bool_decide (part = DOT) then resolve_loop fuel target name after
        else
          match target with
          | TIgnored _ => Some (Some (mkResolved name target rest))
          | TInode dir =>
              is_dir ← view_directory dir;
              if negb is_dir then Some None
              else
                entries ← entry_count dir;
                match entries with
                | None => Some (Some (mkResolved name target rest))
                | Some _ =>
                    found ← view_lookup dir part;
                    match found with
                    | None => Some None
                    | Some id => n ← reader_get id; resolve_loop fuel (from_child (n_child n)) (Some id) after
                    end
                end
          end
  end.

(** [resolve]. *)
Definition resolve (p : bytes) : option (option Resolved) :=
  rs ← roots;
  match innermost p rs with
  | None => Some None
  | Some (root, prefix) => resolve_loop (S (length p)) (TInode root) None (drop (length prefix) p)
  end.
End model.
