(* ===== verification/NameViewSpec.v ===== *)
(** * NameViewSpec: what the names of a view promise

    Over a loaded namespace ([NameLoad]), listing a directory gives exactly its
    live names in order, and the path of a live name leads to a root and
    resolves back to the name. *)
From S2P Require Import Prelude Word Bytes DocSet DocNames Trigrams LogRecords BTree Runs Dormant Generation LogFrames Projection Overlay OverlayLife OverlayDocs OverlaySpec.
From S2P Require Import NameGraph NameRows NameCheck NameKeys NameForest NameCount NameSpec NameLoad NameView.
#[local] Open Scope ferret_scope.

(** What a checked checkpoint promises of its listings: the children of a
    directory are in the order of their bytes. *)
Class OrderLaws (base : Base) : Prop := {
  ol_sorted dir : StronglySorted (fun a b => cmp (n_bytes (base_name base a)) (n_bytes (base_name base b)) = Lt) (base_children base dir)
}.

(** A view whose overlay is loaded: its namespace shows its batches, and its
    family stands. *)
Record view_loaded (v : View) (o : Overlay) (ns : Names) (bs : list Batch) : Prop := {
  vl_overlay : v_overlay v = Some o;
  vl_names : o_namespace o = Some ns;
  vl_shown : shown (v_base v) ns (o_manifest o) bs;
  vl_stands : stands (v_base v) Namespace o bs
}.

(** Its family stands, so the lifetimes are legal, and its invariant is that
    of its manifest. *)
Lemma view_names v o ns bs : view_loaded v o ns bs -> exists H, (forall k, newest_row H k = newest_row (records_of (all_txs bs)) k) /\
  names_ok (v_base v) (replay_over ns (o_manifest o)) (frame (o_manifest o)).1 H (inodes (frame (o_manifest o)).2) (table_after (v_base v) Namespace (base_lives (v_base v)) (all_txs bs)).
Proof.
  intros [_ _ Hs Hst]. destruct (shown_names (v_base v) ns _ bs Hs (st_legal _ _ _ _ Hst)) as (H & He & Hok & _). by exists H.
Qed.

Lemma nodup_omap {A B} (f : A -> option B) l : NoDup l -> (forall x y z, x ∈ l -> y ∈ l -> f x = Some z -> f y = Some z -> x = y) -> NoDup (omap f l).
Proof.
  induction 1 as [|x l Hx _ IH]; intros Hf; [constructor|]. cbn [omap list_omap]. assert (Hl : NoDup (omap f l)) by (apply IH; intros a b z Ha Hb; apply Hf; by right).
  destruct (f x) as [z|] eqn:Ex; [|done]. constructor; [|done]. intros (y & Hy & Ey)%list_elem_of_omap. assert (x = y) as -> by (apply (Hf x y z); [by left|by right|done..]). done.
Qed.

Lemma strict_keys {A B} `{OrdLaws A} (l : list (A * B)) : StronglySorted (fun a b => cmp_le a.1 b.1 = true) l -> NoDup l.*1 -> StronglySorted (fun a b => cmp a.1 b.1 = Lt) l.
Proof.
  induction 1 as [|x l _ IH Hx]; [constructor|]. rewrite fmap_cons. intros [Hn Hl]%NoDup_cons. constructor; [by apply IH|]. apply Forall_forall. intros y Hy.
  rewrite Forall_forall in Hx. specialize (Hx y Hy). unfold cmp_le in Hx. destruct (cmp x.1 y.1) eqn:E; [|done..]. apply cmp_eq in E. destruct Hn. rewrite E. by apply list_elem_of_fmap_2.
Qed.

Lemma sorted_on {A} (R R' : A -> A -> Prop) l : StronglySorted R l -> (forall x y, x ∈ l -> y ∈ l -> R x y -> R' x y) -> StronglySorted R' l.
Proof.
  induction 1 as [|x l _ IH Hx]; intros Hr; [constructor|]. constructor; [apply IH; intros a b Ha Hb; apply Hr; by right|]. apply Forall_forall. intros y Hy.
  rewrite Forall_forall in Hx. apply Hr; [by left|by right|by apply Hx].
Qed.

Lemma sorted_snd {A B} (R : B -> B -> Prop) (l : list (A * B)) : StronglySorted (fun a b => R a.2 b.2) l -> StronglySorted R l.*2.
Proof.
  induction 1 as [|x l _ IH Hx]; [constructor|]. rewrite fmap_cons. constructor; [done|]. by apply Forall_fmap.
Qed.

(** ** The children of a directory *)

Section spec.
Context (v : View) `{Hnames : !NameLaws (v_base v)} (o : Overlay) (ns : Names) (bs : list Batch) (Hview : view_loaded v o ns bs).
#[local] Abbreviation base := (v_base v).
#[local] Abbreviation last_ := (frame (o_manifest o)).1.
Context (H : list Record_) (Heq : forall k, newest_row H k = newest_row (records_of (all_txs bs)) k).
Context (Hok : names_ok base (replay_over ns (o_manifest o)) last_ H (inodes (frame (o_manifest o)).2) (table_after base Namespace (base_lives base) (all_txs bs))).

#[local] Abbreviation fields := (no_fields _ _ _ _ _ _ Hok).

Lemma view_namespace : namespace v = Some (Some ns).
Proof. destruct Hview as [H1 H2 _ _]. unfold namespace. by rewrite H1, H2. Qed.

Lemma ns_rows_ok : projection_ok (ns_rows ns) last_ H.
Proof. apply (no_rows _ _ _ _ _ _ Hok). Qed.

Lemma reader_spec id : u32_ok id -> reader_get v id = name_at base H id.
Proof.
  intros Hid. unfold reader_get. rewrite view_namespace. cbn [mbind option_bind]. unfold ns_sparse_name. rewrite (sparse_name_spec _ _ H ns_rows_ok id Hid). cbn [mbind option_bind].
  unfold name_at. by destruct (newest_row H (row_key NAME id)) as [[]|].
Qed.

(** A name of the checkpoint is suppressed exactly when the log has a row for
    it; the rows are in the order of their ids. *)
Lemma suppressed_spec : StronglySorted N.lt (ns_suppressed ns) /\ forall id, id ∈ ns_suppressed ns <-> (id < base_name_count base)%N /\ newest_row H (row_key NAME id) <> None.
Proof.
  pose proof (sh_new _ _ _ _ (vl_shown _ _ _ _ Hview)) as Hnew. destruct (records_spec (ns_rows ns) last_ H ns_rows_ok NAME) as (rs & Hrs & Hsorted & Hin).
  unfold namespace_new in Hnew. rewrite Hrs in Hnew. cbn [mbind option_bind] in Hnew. destruct (fold_left add_span _ _) as [[ids heap] spans]. injection Hnew as Hns.
  assert (Hsup : ns_suppressed ns = omap (suppressed_name base) rs) by (by rewrite <- Hns). rewrite Hsup. clear Hns Hsup.
  assert (Hrow : forall r id, r ∈ rs -> suppressed_name base r = Some id -> record_row r = (NAME, id) /\ (id < base_name_count base)%N /\ u32_ok id).
  { intros r id Hr Hs. unfold suppressed_name in Hs. destruct (name_row r) as [id'|] eqn:Er; cbn [mbind option_bind] in Hs; [|done]. apply name_row_row in Er.
    destruct (N.ltb_spec id' (base_name_count base)) as [Hlt|]; [|done]. injection Hs as <-. pose proof nl_count as [Hc _]. unfold u32_ok in *. split_and!; [done|done|lia]. }
  split.
  - clear Hin Hrs. induction Hsorted as [|r rs Hsorted IH Hr]; [constructor|]. cbn [omap list_omap]. specialize (IH (fun r' id' Hin => Hrow r' id' (list_elem_of_further _ _ _ Hin))).
    destruct (suppressed_name base r) as [id|] eqn:Es; [|exact IH]. constructor; [exact IH|]. apply Forall_forall. intros id' (r' & Hr' & Es')%list_elem_of_omap.
    rewrite Forall_forall in Hr. specialize (Hr r' Hr'). destruct (Hrow r id (list_elem_of_here _ _) Es) as (E1 & _ & U1). destruct (Hrow r' id' (list_elem_of_further _ _ _ Hr') Es') as (E2 & _ & U2).
    rewrite !record_key_row, E1, E2 in Hr. cbn [fst snd] in Hr. rewrite !row_key_sum in Hr by done. change (id < id')%N. lia.
  - intros id. rewrite list_elem_of_omap. split.
    + intros (r & Hr & Es). destruct (Hrow r id Hr Es) as (E & Hid & _). split; [done|]. apply Hin in Hr as [_ Hr]. by rewrite record_key_row, E in Hr; cbn [fst snd] in Hr; rewrite Hr.
    + intros [Hid Hn]. destruct (newest_row H (row_key NAME id)) as [r|] eqn:Er; [|done].
      assert (Hu : u32_ok id) by (pose proof nl_count as [Hc _]; unfold u32_ok in *; lia). destruct (word_row H fields NAME id r Hu Er) as [_ Hr].
      exists r. split; [apply Hin; rewrite Hr; split; [done|]; by rewrite record_key_row, Hr|]. unfold suppressed_name. rewrite (proj2 (name_row_row r id) Hr). cbn [mbind option_bind].
      by rewrite (proj2 (N.ltb_lt _ _) Hid).
Qed.
(** A directory's names. *)
Definition named_in (dir id : u32) : Prop := u32_ok id /\ exists n, name_at base H id = Some n /\ n_parent n = dir.
Definition bytes_of (id : u32) : bytes := default [] (n_bytes <$> name_at base H id).
#[local] Abbreviation rowless id := (newest_row H (row_key NAME id) = None).

Lemma rowless_name id : (id < base_name_count base)%N -> rowless id -> name_at base H id = Some (base_name base id).
Proof. intros Hid Hn. unfold name_at. by rewrite Hn, (proj2 (N.ltb_lt _ _) Hid). Qed.

Lemma base_u32 id : (id < base_name_count base)%N -> u32_ok id.
Proof. pose proof nl_count as [Hc _]. unfold u32_ok in *. lia. Qed.

Section keys.
Context (m : u32 * bytes -> option (u64 * option u32)) (Hm : runs_ok (ns_keys ns) m) (Hkeys : keys_hold base m H) (Htold : keys_told base m H (fun d => d ∈ ns_touched ns)).
Context (dir : u32) (Hdir : (dir + 1 < 2 ^ 32)%N).

Lemma keep_live_spec ids : Forall (fun id => (id < base_name_count base)%N) ids -> keep_live v ids = Some (filter (fun id => rowless id) ids).
Proof.
  induction 1 as [|id ids Hid _ IH]; [done|]. cbn [keep_live]. unfold base_name_live. rewrite (proj2 (N.ltb_lt _ _) Hid), view_namespace. cbn [mbind option_bind]. rewrite IH. cbn [mbind option_bind].
  rewrite filter_cons. unfold ns_suppresses. destruct suppressed_spec as [_ Hsup]. specialize (Hsup id). destruct (newest_row H (row_key NAME id)) as [r|] eqn:Er.
  - rewrite bool_decide_true by (by apply Hsup). by destruct (decide _).
  - rewrite bool_decide_false by (by intros [_ ?]%Hsup). by destruct (decide _).
Qed.

Lemma delta_spec : exists delta, ns_children ns dir = Some delta /\ NoDup delta /\ forall id, id ∈ delta <-> exists bs s, m (dir, bs) = Some (s, Some id).
Proof.
  unfold ns_children. destruct (children_rows_spec (ns_keys ns) m Hm dir Hdir) as (rows & -> & Hnd & Hin). cbn [mbind option_bind]. eexists. split; [done|]. split.
  - apply nodup_omap; [by apply (NoDup_fmap_1 key)|]. intros [[p1 b1] s1 x1] [[p2 b2] s2 x2] id [H1 K1]%Hin [H2 K2]%Hin E1 E2. cbn [key value sequence fst] in *. subst.
    assert (L1 : key_lookup base m H dir b1 = Some id) by (unfold key_lookup; by rewrite K1). assert (L2 : key_lookup base m H dir b2 = Some id) by (unfold key_lookup; by rewrite K2).
    apply Hkeys in L1 as (_ & c1 & N1), L2 as (_ & c2 & N2). rewrite N1 in N2. injection N2 as _ <-. rewrite K1 in K2. by injection K2 as <-.
  - intros id. rewrite list_elem_of_omap. split.
    + intros ([[p b] s x] & [Hp Hk]%Hin & Hx). cbn [key value sequence fst] in *. subst. by exists b, s.
    + intros (b & s & Hk). exists (mkRow (dir, b) s (Some id)). split; [|done]. by apply Hin.
Qed.

Lemma with_bytes_spec ids : Forall (fun id => u32_ok id /\ exists n, name_at base H id = Some n) ids -> with_bytes v ids = Some ((fun id => (bytes_of id, id)) <$> ids).
Proof.
  induction 1 as [|id ids [Hid (n & Hn)] _ IH]; [done|]. cbn [with_bytes]. rewrite reader_spec, Hn by done. cbn [mbind option_bind]. rewrite IH. cbn [mbind option_bind].
  rewrite fmap_cons. unfold bytes_of at 2. by rewrite Hn.
Qed.

Lemma bytes_once ids : NoDup ids -> Forall (named_in dir) ids -> NoDup (bytes_of <$> ids).
Proof.
  intros Hn Hi. rewrite Forall_forall in Hi. apply NoDup_fmap_2_strong; [|done]. intros a b Ha Hb He. destruct (Hi a Ha) as (Ua & na & Na & Pa). destruct (Hi b Hb) as (Ub & nb & Nb & Pb).
  unfold bytes_of in He. rewrite Na, Nb in He. cbn in He. destruct na as [pa ca ba], nb as [pb cb bb]. cbn in *. subst.
  assert (La : key_lookup base m H dir bb = Some a) by (apply Hkeys; split; [done|by exists ca]). assert (Lb : key_lookup base m H dir bb = Some b) by (apply Hkeys; split; [done|by exists cb]). congruence.
Qed.

(** The surviving names of the checkpoint and the overlay's are the names of
    the directory, each once. *)
Lemma merged_spec delta : NoDup delta -> (forall id, id ∈ delta <-> exists bs s, m (dir, bs) = Some (s, Some id)) -> NoDup (base_children base dir) ->
  let ids := filter (fun id => rowless id) (base_children base dir) ++ delta in NoDup ids /\ forall id, id ∈ ids <-> named_in dir id.
Proof.
  intros Hd Hin Hb ids. split.
  - apply NoDup_app. split_and!; [by apply NoDup_filter| |done]. intros id [Hr _]%list_elem_of_filter (b & s & Hk)%Hin. by apply (kt_put base _ _ _ Htold) in Hk.
  - intros id. unfold ids. rewrite elem_of_app, list_elem_of_filter, nl_children, Hin. split.
    + intros [[Hr [Hid Hp]]|(b & s & Hk)].
      * split; [by apply base_u32|]. exists (base_name base id). split; [by apply rowless_name|done].
      * assert (L : key_lookup base m H dir b = Some id) by (unfold key_lookup; by rewrite Hk). apply Hkeys in L as (Hid & c & Hn). split; [done|]. by exists (mkName dir c b).
    + intros (Hid & [p c b] & Hn & Hp). cbn in Hp. subst p. assert (L : key_lookup base m H dir b = Some id) by (apply Hkeys; split; [done|by exists c]).
      unfold key_lookup in L. destruct (m (dir, b)) as [[s x]|] eqn:Em; [right; subst x; by exists b, s|]. left. destruct (base_lookup base dir b) as [i|] eqn:Eb; [|done].
      destruct (newest_row H (row_key NAME i)) eqn:Er; [done|]. injection L as ->. apply nl_lookup in Eb as (H1 & H2 & _). done.
Qed.

(** Below a directory without keys the checkpoint's names are untouched. *)
Lemma untouched_spec : dir ∉ ns_touched ns -> forall id, id ∈ base_children base dir <-> named_in dir id.
Proof.
  intros Hn id. rewrite nl_children. split.
  - intros [Hid <-]. assert (Hr : rowless id).
    { destruct (newest_row H (row_key NAME id)) eqn:E; [|done]. destruct Hn. apply (kt_moved base _ _ _ Htold); [done|by rewrite E]. }
    split; [by apply base_u32|]. exists (base_name base id). split; [by apply rowless_name|done].
  - intros (Hid & [p c b] & Hname & Hp). cbn in Hp. subst p. assert (L : key_lookup base m H dir b = Some id) by (apply Hkeys; split; [done|by exists c]).
    unfold key_lookup in L. destruct (m (dir, b)) as [[s x]|] eqn:Em; [destruct Hn; apply (kt_key base _ _ _ Htold dir b); by rewrite Em|].
    destruct (base_lookup base dir b) as [i|] eqn:Eb; [|done]. destruct (newest_row H (row_key NAME i)) eqn:Er; [done|]. injection L as ->. by apply nl_lookup in Eb as (? & ? & _).
Qed.
End keys.

(** Listing a directory. *)
Lemma children_spec `{Horder : !OrderLaws base} dir : (dir + 1 < 2 ^ 32)%N -> exists l, view_children v dir = Some l /\ (forall id, id ∈ l <-> named_in dir id) /\
  StronglySorted (fun a b => cmp (bytes_of a) (bytes_of b) = Lt) l.
Proof.
  intros Hdir. destruct (no_keys _ _ _ _ _ _ Hok) as (m & Hm & _ & Hkeys & Htold). cbn [replay_over nr_keys nr_touched] in Hm, Htold.
  unfold view_children. rewrite view_namespace. cbn [mbind option_bind]. unfold ns_touches. case_bool_decide as Ht.
  - assert (Hbase : Forall (fun id => (id < base_name_count base)%N) (base_children base dir)) by (apply Forall_forall; by intros id [? _]%nl_children).
    rewrite (keep_live_spec _ Hbase). destruct (delta_spec m Hm Hkeys dir Hdir) as (delta & Hd & Hnd & Hin). rewrite Hd. cbn [mbind option_bind].
    assert (Hb : NoDup (base_children base dir)).
    { pose proof (ol_sorted dir) as Hs. induction Hs as [|x l _ IH Hx]; [constructor|]. constructor; [|by apply IH; apply Forall_cons in Hbase as [_ ?]]. intros Hxl.
      rewrite Forall_forall in Hx. specialize (Hx x Hxl). by rewrite cmp_refl in Hx. }
    destruct (merged_spec m Hkeys Htold dir delta Hnd Hin Hb) as [H1 H2]. set (ids := filter _ _ ++ delta) in *.
    assert (Hids : Forall (named_in dir) ids) by (apply Forall_forall; intros id; apply H2).
    rewrite with_bytes_spec by (eapply Forall_impl; [exact Hids|]; intros id (? & n & ? & _); split; [done|by exists n]). cbn [mbind option_bind].
    eexists. split; [done|]. set (l := sort_by bytes_le _). assert (Hp : l ≡ₚ (fun id => (bytes_of id, id)) <$> ids) by apply sort_by_perm.
    assert (Hpair : forall x, x ∈ l -> x.1 = bytes_of x.2) by (intros x; rewrite Hp; by intros (id & -> & _)%list_elem_of_fmap). split.
    + intros id. rewrite <- H2, list_elem_of_fmap. split; [intros (x & -> & Hx); rewrite Hp in Hx; by apply list_elem_of_fmap in Hx as (id & -> & ?)|].
      intros Hid. exists (bytes_of id, id). split; [done|]. rewrite Hp. apply list_elem_of_fmap. by exists id.
    + apply sorted_snd. assert (Hs : StronglySorted (fun a b => cmp a.1 b.1 = Lt) l).
      { apply strict_keys.
        - apply sort_total_sorted; unfold bytes_le; [intros a b Hab; unfold cmp_le; by rewrite (cmp_le_total _ _ Hab)|intros a b c; apply cmp_le_trans].
        - rewrite Hp, <- list_fmap_compose. by apply (bytes_once m Hkeys dir). }
      apply (sorted_on _ _ l Hs). intros x y Hx Hy. by rewrite (Hpair x Hx), (Hpair y Hy).
  - pose proof (untouched_spec m Hkeys Htold dir Hdir Ht) as Hin. eexists. split; [done|]. split; [exact Hin|].
    pose proof (ol_sorted dir) as Hs. assert (Hb : forall id, id ∈ base_children base dir -> bytes_of id = n_bytes (base_name base id)).
    { intros id Hid. pose proof Hid as [Hlt Hpar]%nl_children. destruct (proj1 (Hin id) Hid) as (Hu & n & Hn & Hp). destruct (newest_row H (row_key NAME id)) as [r|] eqn:Er.
      - destruct Ht. rewrite <- Hpar. apply (kt_moved base _ _ _ Htold); [done|by rewrite Er].
      - unfold bytes_of. by rewrite rowless_name. }
    apply (sorted_on _ _ _ Hs). intros x y Hx Hy. by rewrite (Hb x Hx), (Hb y Hy).
Qed.
End spec.
