(* ===== verification/NamePath.v ===== *)
(** * NamePath: paths lead to a root and resolve back

    The path of a live name is the path of the root above it and the names on
    the way down; climbing ends because the namespace is a forest, and walking
    the path down from that root finds the name again. *)
From S2P Require Import Prelude Word Bytes DocSet DocNames Trigrams LogRecords BTree Runs Dormant Generation LogFrames Projection Overlay OverlayLife OverlayDocs OverlaySpec.
From S2P Require Import NameGraph NameRows NameCheck NameKeys NameForest NameCount NameSpec NameLoad NameView NameViewSpec.
#[local] Open Scope ferret_scope.

(** The way up from a directory: the root above it and the names passed. *)
Inductive climbs (base : Base) (H : list Record_) : u32 -> u32 -> list bytes -> Prop :=
| climbs_root d : own_at base H d = None -> root_at base H d = true -> climbs base H d d []
| climbs_edge d e n top up : dir_at base H d = true -> own_at base H d = Some e -> name_at base H e = Some n -> is_inode (n_child n) = true -> n_child n = d ->
    climbs base H (n_parent n) top up -> climbs base H d top (n_bytes n :: up).

(** The way down from a directory along names. *)
Inductive descends (base : Base) (H : list Record_) : u32 -> list bytes -> u32 -> Prop :=
| descends_here d : descends base H d [] d
| descends_step d e c bs d' cs : u32_ok e -> name_at base H e = Some (mkName d c bs) -> is_inode c = true -> dir_at base H c = true -> descends base H c cs d' ->
    descends base H d (bs :: cs) d'.

Lemma descends_snoc base H a cs d e c bs : descends base H a cs d -> u32_ok e -> name_at base H e = Some (mkName d c bs) -> is_inode c = true -> dir_at base H c = true ->
  descends base H a (cs ++ [bs]) c.
Proof.
  induction 1 as [a|a e' c' b d cs He' Hn' Hi' Hd' _ IH]; intros He Hn Hino Hd; cbn [app].
  - eapply descends_step; [exact He|exact Hn|done|done|constructor].
  - eapply descends_step; [exact He'|exact Hn'|done|done|by apply IH].
Qed.

Lemma projection_alike p last H1 H2 : (forall k, newest_row H1 k = newest_row H2 k) -> Forall row_ok H2 -> projection_ok p last H1 -> projection_ok p last H2.
Proof.
  intros He Hr [(m & P1 & P2 & P3) _ P5 P6 P7]. split; [|done..|].
  - exists m. split_and!; [done..|]. intros k. by rewrite P3, He.
  - intros c ids id Hc Hid. rewrite (P7 c ids id Hc Hid). pose proof (He (row_key c id)) as Hk.
    assert (Hn : forall H, (exists r, r ∈ H /\ record_key r = row_key c id) <-> newest_row H (row_key c id) <> None).
    { intros H. split.
      - intros (r & Hin & Hkey) Hnone. by apply (proj1 (newest_row_None H _) Hnone r).
      - destruct (newest_row H (row_key c id)) as [r|] eqn:E; [|done]. intros _. exists r. apply newest_row_key in E as [? ?]. by split. }
    by rewrite !Hn, Hk.
Qed.

Section paths.
Context (v : View) `{Hnames : !NameLaws (v_base v)} (o : Overlay) (ns : Names) (bs : list Batch) (Hview : view_loaded v o ns bs).
#[local] Abbreviation base := (v_base v).
#[local] Abbreviation last_ := (frame (o_manifest o)).1.
Context (H : list Record_) (Heq : forall k, newest_row H k = newest_row (records_of (all_txs bs)) k).
Context (Hok : names_ok base (replay_over ns (o_manifest o)) last_ H (inodes (frame (o_manifest o)).2) (table_after base Namespace (base_lives base) (all_txs bs))).
Context (Hrows : forall d, u32_ok d -> dir_at base H d = true -> (d < base_dir_count base)%N \/ newest_row H (row_key DIR d) <> None).

Lemma view_projection : exists p, Overlay.projection o Namespace = Some p /\ projection_ok p last_ H.
Proof.
  destruct (vl_stands _ _ _ _ Hview) as [(p & Hp & Hshow & _) _ _ _]. exists p. split; [done|]. eapply projection_alike; [|apply rows_of_fields, (no_fields _ _ _ _ _ _ Hok)|exact Hshow].
  intros k. by rewrite Heq.
Qed.

Lemma record_spec c id : N.to_nat c < CATEGORIES -> u32_ok id -> ns_record v c id = Some (newest_row H (row_key c id)).
Proof.
  intros Hc Hid. destruct view_projection as (p & Hp & Hpok). unfold ns_record. rewrite (vl_overlay _ _ _ _ Hview), Hp. cbn [mbind option_bind]. by apply (projection_get_spec p last_).
Qed.

Lemma dir_name_spec d : u32_ok d -> dir_at base H d = true -> dir_name v d = Some (own_at base H d).
Proof.
  intros Hd Hdir. unfold dir_name. rewrite record_spec by (try done; by apply Nat.ltb_lt). cbn [mbind option_bind]. unfold own_at.
  destruct (Hrows d Hd Hdir) as [Hlt|Hn].
  - rewrite (proj2 (N.ltb_lt _ _) Hlt). by destruct (newest_row H (row_key DIR d)) as [[]|].
  - destruct (newest_row H (row_key DIR d)) as [r|] eqn:Er; [|done]. destruct (word_row H (no_fields _ _ _ _ _ _ Hok) DIR d r Hd Er) as [_ Hr]. by destruct r.
Qed.

Lemma directory_spec d : u32_ok d -> dir_at base H d = true -> view_directory v d = Some true.
Proof.
  intros Hd [_ Hkind]%dir_at_iff. unfold view_directory. rewrite (vl_overlay _ _ _ _ Hview). unfold is_directory, overlay_kind, life. destruct view_projection as (p & -> & Hp). cbn [mbind option_bind].
  rewrite (projection_get_spec p last_ H LIFE d Hp) by (try done; by apply Nat.ltb_lt). cbn [mbind option_bind]. unfold kind_at in Hkind.
  destruct (newest_row H (row_key LIFE d)) as [[]|]; cbn [mbind option_bind]; try (by injection Hkind as ->); try done; by destruct (d <? base_dir_count base)%N.
Qed.

(** ** Roots *)

Lemma roots_spec : exists rs, roots v = Some rs /\ forall d, u32_ok d -> root_at base H d = true -> exists rp, (d, rp) ∈ rs.
Proof.
  destruct view_projection as (p & Hp & Hpok). unfold roots. rewrite (vl_overlay _ _ _ _ Hview), Hp. cbn [mbind option_bind].
  destruct (base_roots_kept_spec p last_ H Hpok (base_roots base) nl_roots) as (kept & -> & Hkept). cbn [mbind option_bind].
  destruct (records_spec p last_ H Hpok ROOT) as (rows & -> & _ & Hin). cbn [mbind option_bind]. eexists. split; [done|]. intros d Hd Hroot.
  unfold root_at in Hroot. destruct (newest_row H (row_key ROOT d)) as [r|] eqn:Er.
  - destruct (word_row H (no_fields _ _ _ _ _ _ Hok) ROOT d r Hd Er) as [_ Hr].
    assert (Hr' : r ∈ rows) by (apply Hin; rewrite Hr; split; [done|]; by rewrite record_key_row, Hr). destruct r; try done. injection Hr as ->. eexists. apply elem_of_app. right.
    apply list_elem_of_omap. eexists. by split; [exact Hr'|].
  - apply existsb_exists in Hroot as (r & Hr%list_elem_of_In & <-%N.eqb_eq). exists r.2. apply elem_of_app. left. destruct r as [i rp]. apply Hkept. by split.
Qed.

Lemma root_path_spec d rs : roots v = Some rs -> (exists rp, (d, rp) ∈ rs) -> exists rp, root_path v d = Some (Some rp) /\ (d, rp) ∈ rs.
Proof.
  intros Hrs (rp & Hin). unfold root_path. rewrite Hrs. cbn [mbind option_bind]. destruct (List.find (fun r => (r.1 =? d)%N) rs) as [[i q]|] eqn:E.
  - apply find_some in E as [E1 <-%N.eqb_eq]. exists q. split; [done|]. by apply list_elem_of_In.
  - exfalso. apply list_elem_of_In, (find_none _ _ E (d, rp)) in Hin. cbn in Hin. by rewrite N.eqb_refl in Hin.
Qed.

(** ** Climbing *)

Lemma climb_reaches p fuel d seen up : projection_ok p last_ H -> u32_ok d -> reaches_root base fuel p d seen = Some (Ok tt) ->
  exists top names, climb v fuel d up = Some (top, up ++ names) /\ climbs base H d top names /\ u32_ok top.
Proof.
  intros Hp. revert d seen up. induction fuel as [|fuel IH]; intros d seen up Hd Hr; [done|]. cbn [reaches_root] in Hr. rewrite (live_dir_spec base p last_ H Hp d Hd) in Hr. cbn [mbind option_bind] in Hr.
  destruct (bs_insert d seen) as [fresh seen']. destruct (dir_at base H d) eqn:Edir; cbn [negb orb] in Hr; [|done]. destruct fresh; cbn [negb] in Hr; [|done].
  rewrite (own_in_spec base p last_ H Hp d Hd), (root_in_spec base p last_ H Hp d Hd) in Hr. cbn [mbind option_bind] in Hr. cbn [climb]. rewrite dir_name_spec by done. cbn [mbind option_bind].
  destruct (own_at base H d) as [e|] eqn:Eo.
  2: { destruct (root_at base H d) eqn:Er; [|done]. exists d, []. rewrite app_nil_r. split; [done|]. split; [by constructor|done]. }
  pose proof (own_u32 base H (no_fields _ _ _ _ _ _ Hok) d e Eo) as He. rewrite (name_in_spec base p last_ H Hp e He) in Hr. cbn [mbind option_bind] in Hr.
  rewrite (reader_spec v o ns bs Hview H Hok e He). destruct (name_at base H e) as [n|] eqn:En; [|done]. cbn [mbind option_bind].
  destruct (is_inode (n_child n)) eqn:E1; cbn [andb negb orb] in Hr; [|done]. destruct (N.eqb_spec (n_child n) d) as [E2|]; cbn [andb negb orb] in Hr; [|done].
  destruct (root_at base H d) eqn:E3; [done|]. destruct (name_u32 base H (no_fields _ _ _ _ _ _ Hok) e n En) as [Hpar _].
  destruct (IH (n_parent n) seen' (up ++ [n_bytes n]) Hpar Hr) as (top & names & Hc & Hcl & Ht). exists top, (n_bytes n :: names). rewrite Hc, <- app_assoc. split; [done|]. split; [|done].
  by eapply climbs_edge.
Qed.

Lemma climb_spec d : u32_ok d -> dir_at base H d = true -> exists fuel top names, climb_fuel v = Some fuel /\ climb v fuel d [] = Some (top, names) /\ climbs base H d top names /\ u32_ok top.
Proof.
  intros Hd Hdir. destruct view_projection as (p & Hp & Hpok). destruct (all_reach_spec base p last_ H Hpok (no_fields _ _ _ _ _ _ Hok) [d]) as (r & Hall & Hr); [by constructor|].
  assert (r = Ok tt) as -> by (apply Hr; constructor; [by apply (no_forest _ _ _ _ _ _ Hok)|constructor]). cbn [all_reach] in Hall. apply bind_Some in Hall as (fuel & Hfuel & Hall).
  unfold climb_fuel. rewrite (vl_overlay _ _ _ _ Hview), Hp. cbn [mbind option_bind]. rewrite Hfuel. destruct (reaches_root base fuel p d []) as [[[]|e]|] eqn:E; try done.
  destruct (climb_reaches p fuel d [] [] Hpok Hd E) as (top & names & ? & ? & ?). by exists fuel, top, names.
Qed.

Lemma climbs_facts d top names : climbs base H d top names -> dir_at base H d = true -> root_at base H top = true /\ Forall component names /\ descends base H top (rev names) d.
Proof.
  induction 1 as [d _ Hroot|d e n top up Hdir Ho Hn Hino Hc Hcl IH]; intros Hd; [split; [done|]; split; constructor|].
  pose proof (own_u32 base H (no_fields _ _ _ _ _ _ Hok) d e Ho) as He. destruct (no_edges _ _ _ _ _ _ Hok e n He Hn) as [Hpar _]. destruct (IH Hpar) as (H1 & H2 & H3).
  split; [done|]. split; [constructor; [by eapply (no_component _ _ _ _ _ _ Hok)|done]|]. cbn [rev]. subst d. apply (descends_snoc _ _ _ _ _ e _ _ H3 He); [by destruct n|done|done].
Qed.
End paths.

(** ** Paths as components *)

Definition joined (cs : list bytes) : bytes := concat (map (cons SLASH) cs).

Lemma component_last out c : component c -> last (out ++ c) <> Some SLASH.
Proof.
  intros [H1 H2 _ _]. rewrite last_app. destruct (last c) as [x|] eqn:E; [|by apply last_None in E]. intros [= ->]. by apply last_Some_elem_of in E.
Qed.

Lemma push_all cs out : Forall component cs ->
  fold_left push_component cs out = out ++ (if bool_decide (last out = Some SLASH) then drop 1 (joined cs) else joined cs).
Proof.
  intros Hcs. revert out. induction Hcs as [|c cs Hc _ IH]; intros out; [cbn; destruct (bool_decide _); by rewrite app_nil_r|]. cbn [fold_left]. rewrite IH.
  assert (Hl : last (push_component out c) <> Some SLASH) by (by apply component_last). rewrite (bool_decide_eq_false_2 _ Hl). unfold push_component, joined. cbn [map concat].
  destruct (bool_decide _); cbn [drop app]; by rewrite <- ?app_assoc.
Qed.

(** ** Reading a path back *)

Lemma skip_component c after : component c -> skip_slashes (c ++ after) = c ++ after.
Proof. intros [H1 H2 _ _]. destruct c as [|x c]; [done|]. cbn. destruct (N.eqb_spec x SLASH) as [->|]; [|done]. destruct H2. by left. Qed.

Lemma span_component c after : 47%N ∉ c -> after = [] \/ head after = Some SLASH -> span_part (c ++ after) = (c, after).
Proof.
  intros Hc Ha. induction c as [|x c IH]; cbn [app span_part].
  - destruct Ha as [->|Ha]; [done|]. destruct after as [|y after]; [done|]. injection Ha as ->. done.
  - apply not_elem_of_cons in Hc as [Hx Hc]. destruct (N.eqb_spec x SLASH) as [->|]; [done|]. by rewrite (IH Hc).
Qed.

Lemma strip_app (p l : bytes) : strip_prefix p (p ++ l) = Some l.
Proof. induction p as [|x p IH]; [done|]. cbn. by rewrite N.eqb_refl. Qed.

Lemma head_joined cs : joined cs = [] \/ head (joined cs) = Some SLASH.
Proof. destruct cs; [by left|by right]. Qed.

Lemma from_child_inode c : is_inode c = true -> from_child c = TInode c.
Proof. unfold is_inode, from_child. intros Hc%bool_decide_eq_true. by rewrite Hc. Qed.

(** The innermost root: the one at least as long as any the path is in. *)
Lemma longer_spec r rs acc : (acc = None \/ exists b, acc = Some b /\ (b = r \/ length b.2 < length r.2)) -> r ∈ rs \/ acc = Some r ->
  Forall (fun b => b = r \/ length b.2 < length r.2) rs -> fold_left longer rs acc = Some r.
Proof.
  intros Ha Hin Hrs. revert acc Ha Hin. induction Hrs as [|b rs Hb _ IH]; intros acc Ha Hin; cbn [fold_left]; [destruct Hin as [?%not_elem_of_nil|?]; done|]. apply IH.
  - right. unfold longer. destruct Ha as [->|(a & -> & Ha)]; [by exists b|]. destruct (length a.2 <=? length b.2); [by exists b|by exists a].
  - destruct Hin as [[->|Hin]%elem_of_cons|Hin]; [|by left|].
    + right. unfold longer. destruct Ha as [->|(a & -> & Ha)]; [done|]. destruct (Nat.leb_spec (length a.2) (length b.2)); [done|]. destruct Ha as [->|Ha]; [done|lia].
    + right. subst acc. unfold longer. destruct (Nat.leb_spec (length r.2) (length b.2)); [|done]. destruct Hb as [->|Hb]; [done|lia].
Qed.

Section resolving.
Context (v : View) `{Hnames : !NameLaws (v_base v)} (o : Overlay) (ns : Names) (bs : list Batch) (Hview : view_loaded v o ns bs).
#[local] Abbreviation base := (v_base v).
#[local] Abbreviation last_ := (frame (o_manifest o)).1.
Context (H : list Record_) (Heq : forall k, newest_row H k = newest_row (records_of (all_txs bs)) k).
Context (Hok : names_ok base (replay_over ns (o_manifest o)) last_ H (inodes (frame (o_manifest o)).2) (table_after base Namespace (base_lives base) (all_txs bs))).

Lemma view_lookup_spec d c e child : u32_ok e -> name_at base H e = Some (mkName d child c) -> view_lookup v d c = Some (Some e).
Proof.
  intros He Hn. destruct (no_keys _ _ _ _ _ _ Hok) as (m & Hm & _ & Hkeys & _). cbn [replay_over nr_keys] in Hm. unfold view_lookup. rewrite (view_namespace v o ns bs Hview). cbn [mbind option_bind]. unfold ns_lookup.
  rewrite (lookup_in_spec base (ns_rows ns) last_ H (ns_rows_ok v o ns bs H Hok) _ m d c Hm). f_equal. apply Hkeys. split; [done|by exists child].
Qed.

Lemma resolve_step fuel d entries name rest c after e child : u32_ok d -> dir_at base H d = true -> entry_count v d = Some (Some entries) -> u32_ok e -> name_at base H e = Some (mkName d child c) ->
  after = [] \/ head after = Some SLASH -> rest = c ++ after \/ rest = SLASH :: c ++ after ->
  resolve_loop v (S fuel) (TInode d) name rest = resolve_loop v fuel (from_child child) (Some e) after.
Proof.
  intros Hd Hdir Hentries He Hn Hafter Hrest. pose proof (no_component _ _ _ _ _ _ Hok e _ He Hn) as Hc. cbn [n_bytes] in Hc.
  assert (Hskip : skip_slashes rest = c ++ after) by (destruct Hrest as [-> | ->]; [by apply skip_component|]; cbn; by apply skip_component).
  pose proof (directory_spec v o ns bs Hview H Heq Hok d Hd Hdir) as Hdirectory. destruct Hc as [K1 K2 K3 K4].
  assert (Hempty : is_empty (c ++ after) = false) by (by destruct c).
  cbn [resolve_loop]. rewrite Hskip, Hempty, Hdirectory, Hentries, span_component by done. unfold DOTDOT, DOT. rewrite (bool_decide_eq_false_2 (c = _) K4), (bool_decide_eq_false_2 (c = _) K3).
  rewrite (view_lookup_spec d c e child He Hn). pose proof (reader_spec v o ns bs Hview H Hok e He) as Hread. rewrite Hn in Hread.
  destruct (bool_decide (head rest = Some SLASH)); cbn [mbind option_bind andb negb]; by rewrite Hread.
Qed.

(** Every directory a path goes through was listed. *)
Definition listed_along (top : u32) (cs : list bytes) : Prop :=
  forall k d, descends base H top (take k cs) d -> exists n, entry_count v d = Some (Some n).

Lemma resolve_walk d cs d' : descends base H d cs d' -> listed_along d cs -> forall fuel name rest id n, u32_ok d -> dir_at base H d = true -> u32_ok id -> name_at base H id = Some n -> n_parent n = d' ->
  rest = joined (cs ++ [n_bytes n]) \/ rest = drop 1 (joined (cs ++ [n_bytes n])) -> length cs + 2 <= fuel ->
  resolve_loop v fuel (TInode d) name rest = Some (Some (mkResolved (Some id) (from_child (n_child n)) [])).
Proof.
  induction 1 as [d|d e c b d' cs He Hname Hino Hdir' _ IH]; intros Hlisted fuel name rest id n Hd Hdir Hid Hn Hp Hrest Hfuel;
    destruct (Hlisted 0 d (descends_here _ _ d)) as (entries & Hentries).
  - destruct fuel as [|[|fuel]]; [cbn in Hfuel; lia..|]. rewrite (resolve_step _ d entries name rest (n_bytes n) [] id (n_child n)); [|done|done|done|done|by destruct n; cbn in *; subst|by left|].
    + cbn [resolve_loop]. by destruct (from_child (n_child n)).
    + unfold joined in Hrest. cbn in Hrest. destruct Hrest as [-> | ->]; [right|left]; by rewrite ?drop_0.
  - destruct fuel as [|fuel]; [cbn in Hfuel; lia|]. cbn [length] in Hfuel.
    rewrite (resolve_step fuel d entries name rest b (joined (cs ++ [n_bytes n])) e c); [|done|done|done|done|done|apply head_joined|].
    + rewrite from_child_inode by done. destruct (name_u32 base H (no_fields _ _ _ _ _ _ Hok) e _ Hname) as [_ Hc]. apply IH; try done; [|by left|lia].
      intros k d2 Hdown. apply (Hlisted (S k) d2). by apply (descends_step _ _ d e c).
    + unfold joined in Hrest. cbn [app map concat drop] in Hrest. fold (joined (cs ++ [n_bytes n])) in Hrest. destruct Hrest as [-> | ->]; [right|left]; done.
Qed.
End resolving.

(** ** Properties *)

(** Every directory beyond the checkpoint's has its row. *)
Definition rows_complete (base : Base) (H : list Record_) : Prop :=
  forall d, u32_ok d -> dir_at base H d = true -> (d < base_dir_count base)%N \/ newest_row H (row_key DIR d) <> None.
(** A root's path ends without a separator, or is one. *)
Definition roots_normal (v : View) : Prop := forall rs r, roots v = Some rs -> r ∈ rs -> r.2 = [SLASH] \/ last r.2 <> Some SLASH.

Lemma descends_alike base H1 H2 d cs d' : (forall k, newest_row H1 k = newest_row H2 k) -> descends base H1 d cs d' -> descends base H2 d cs d'.
Proof.
  intros He. induction 1 as [d|d e c b d' cs He' Hn Hi Hd _ IH]; [constructor|].
  eapply descends_step; [exact He'|by rewrite <- (name_alike base H1 H2 He)|done|by rewrite <- (dir_alike base H1 H2 He)|done].
Qed.

Lemma joined_length cs : Forall component cs -> 2 * length cs <= length (joined cs).
Proof.
  induction 1 as [|c cs [Hc _ _ _] _ IH]; [done|]. unfold joined in *. cbn [map concat length app]. rewrite length_app. destruct c; [done|]. cbn [length]. lia.
Qed.

Lemma in_root_pushed rp cs : cs <> [] -> rp = [SLASH] \/ last rp <> Some SLASH ->
  exists rest, rp ++ (if bool_decide (last rp = Some SLASH) then drop 1 (joined cs) else joined cs) = rp ++ rest /\ (rest = joined cs \/ rest = drop 1 (joined cs)) /\
    forall top, in_root (rp ++ rest) (top, rp) = true.
Proof.
  intros Hcs Hrp. eexists. split; [done|]. split; [destruct (bool_decide _); [by right|by left]|]. intros top. unfold in_root. cbn [snd]. rewrite strip_app. destruct Hrp as [->|Hrp].
  - by rewrite orb_true_r.
  - rewrite (bool_decide_eq_false_2 _ Hrp). destruct cs as [|c cs]; [done|]. by rewrite !orb_true_r.
Qed.

(** C3: Listing a directory of a view gives exactly its live names, each once
    and in the order of their bytes, and each is what looking its bytes up
    finds; a directory the log does not touch is listed from the checkpoint
    without a merge. *)
Theorem children_listed (v : View) (o : Overlay) (ns : Names) (bs : list Batch) (Hlaws : NameLaws (v_base v)) (Horder : OrderLaws (v_base v))
    (Hview : view_loaded v o ns bs) (H := records_of (all_txs bs)) (dir : u32) (Hdir : (dir + 1 < 2 ^ 32)%N) :
  exists l, view_children v dir = Some l /\
    (forall id, id ∈ l <-> u32_ok id /\ exists n, name_at (v_base v) H id = Some n /\ n_parent n = dir /\ view_lookup v dir (n_bytes n) = Some (Some id)) /\
    StronglySorted (fun a b => exists na nb, name_at (v_base v) H a = Some na /\ name_at (v_base v) H b = Some nb /\ cmp (n_bytes na) (n_bytes nb) = Lt) l.
Proof.
  destruct (view_names _ _ _ _ Hview) as (H0 & He & Hok). destruct (children_spec v o ns bs Hview H0 Hok dir Hdir) as (l & Hl & Hin & Hs). exists l. split; [done|].
  pose proof (name_alike (v_base v) H0 H He) as Hn. split.
  - intros id. rewrite Hin. unfold named_in. split.
    + intros (Hid & n & Hname & Hp). split; [done|]. exists n. rewrite <- Hn. split; [done|]. split; [done|].
      apply (view_lookup_spec v o ns bs Hview H0 Hok dir (n_bytes n) id (n_child n) Hid). rewrite Hname. destruct n; cbn in *; by subst.
    + intros (Hid & n & Hname & Hp & _). split; [done|]. exists n. by rewrite Hn.
  - apply (sorted_on _ _ l Hs). intros a b (_ & na & Ha & _)%Hin (_ & nb & Hb & _)%Hin. unfold bytes_of. rewrite Ha, Hb. cbn. intros Hc. exists na, nb. by rewrite <- !Hn.
Qed.

(** C2: Paths lead to a root, and back.  In a view whose directories have
    their rows and whose roots' paths end without a separator (or are one), the
    path of a live name is computed, without looping: it is the path of a
    configured root above the name and the names down from that root.  If the
    root is the innermost the path is in, and every directory on the way was
    listed, resolving the path gives the name and its target, with nothing left
    over. *)
Theorem path_resolves (v : View) (o : Overlay) (ns : Names) (bs : list Batch) (Hlaws : NameLaws (v_base v)) (Hview : view_loaded v o ns bs)
    (H := records_of (all_txs bs)) (Hrows : rows_complete (v_base v) H) (Hroots : roots_normal v)
    (id : u32) (n : Name) (Hid : u32_ok id) (Hname : name_at (v_base v) H id = Some n) :
  exists rs top rp cs p, roots v = Some rs /\ (top, rp) ∈ rs /\ descends (v_base v) H top cs (n_parent n) /\
    path v id [] = Some p /\ p = fold_left push_component (cs ++ [n_bytes n]) rp /\
    (listed_along v H top cs -> (forall r, r ∈ rs -> in_root p r = true -> r = (top, rp) \/ length r.2 < length rp) ->
     resolve v p = Some (Some (mkResolved (Some id) (from_child (n_child n)) []))).
Proof.
  destruct (view_names _ _ _ _ Hview) as (H0 & He & Hok). rewrite <- (name_alike _ _ _ He) in Hname. pose proof (dir_alike (v_base v) H0 H He) as Hd.
  assert (Hrows0 : forall d, u32_ok d -> dir_at (v_base v) H0 d = true -> (d < base_dir_count (v_base v))%N \/ newest_row H0 (row_key DIR d) <> None).
  { intros d Hdu Hdd. rewrite He. apply Hrows; [done|by rewrite <- Hd]. }
  destruct (name_u32 _ H0 (no_fields _ _ _ _ _ _ Hok) id n Hname) as [Hpar _]. destruct (no_edges _ _ _ _ _ _ Hok id n Hid Hname) as [Hdir _].
  destruct (climb_spec v o ns bs Hview H0 He Hok Hrows0 (n_parent n) Hpar Hdir) as (fuel & top & names & Hfuel & Hclimb & Hcl & Htop).
  destruct (climbs_facts v o ns bs H0 Hok (n_parent n) top names Hcl Hdir) as (Hroot & Hcomp & Hdown).
  destruct (roots_spec v o ns bs Hview H0 He Hok) as (rs & Hrs & Hhas). destruct (root_path_spec v top rs Hrs (Hhas top Htop Hroot)) as (rp & Hrp & Hin).
  pose proof (no_component _ _ _ _ _ _ Hok id n Hid Hname) as Hc. assert (Hall : Forall component (rev names ++ [n_bytes n])) by (apply Forall_app; split; [by apply Forall_rev|by constructor]).
  exists rs, top, rp, (rev names). eexists. split; [done|]. split; [done|]. split; [by apply (descends_alike _ H0)|]. split; [|split; [reflexivity|]].
  { unfold path. rewrite (reader_spec v o ns bs Hview H0 Hok id Hid), Hname. cbn [mbind option_bind]. unfold dir_path. rewrite Hfuel. cbn [mbind option_bind]. rewrite Hclimb. cbn [mbind option_bind].
    rewrite Hrp. cbn [mbind option_bind default app]. by rewrite fold_left_app. }
  intros Hlisted Hinner. rewrite push_all in Hinner |- * by done.
  destruct (in_root_pushed rp (rev names ++ [n_bytes n])) as (rest & Hp & Hrest & Hinr); [by destruct (rev names)|by apply (Hroots rs (top, rp))|].
  rewrite Hp in Hinner |- *.
  unfold resolve. rewrite Hrs. cbn [mbind option_bind]. unfold innermost. rewrite (longer_spec (top, rp) _ None); [|by left|left; apply list_elem_of_filter; by split|].
  - rewrite drop_app_length. apply (resolve_walk v o ns bs Hview H0 He Hok) with (cs := rev names) (d' := n_parent n); try done.
    + intros k d Hkd. apply (Hlisted k d). by apply (descends_alike _ H0).
    + by apply (no_roots _ _ _ _ _ _ Hok).
    + pose proof (joined_length _ Hall) as Hlen. rewrite length_app in Hlen |- *. cbn [length] in Hlen. destruct Hrest as [-> | ->]; rewrite ?length_drop; lia.
  - apply Forall_forall. intros r [Hr1 Hr2]%list_elem_of_filter. by apply Hinner.
Qed.

(** The view of [NameLoad]'s sample, loaded. *)
Definition loaded_sample : Overlay * Names :=
  match load_namespace sample_sum forest_base 2 forest_overlay with
  | Some (o, Ok _) => match o_namespace o with Some ns => (o, ns) | None => (o, mkNames projection_default [] [] [] [] [] [] []) end
  | _ => (forest_overlay, mkNames projection_default [] [] [] [] [] [] [])
  end.
Definition loaded_view : View := mkView forest_base (Some loaded_sample.1) (fun _ => Some 1%N).

Lemma views_stand base (D0 : Documents) checksum o bs : views base Namespace checksum o bs -> cell (o_families o) Namespace <> None -> stands base Namespace o bs.
Proof. by destruct 1 as [o bs Hs|m log log' rows families ns _ Hc|m q delta families ns bs _ Hc]; [|cbn [o_families]; rewrite Hc..]. Qed.

(** An overlay that loaded, with its family, is a loaded view. *)
Lemma view_of_load checksum base (D0 : Documents) entries o o' ns bs : BaseLaws base D0 -> NameLaws base -> ForestLaws base -> named checksum base o bs ->
  load_namespace checksum base (chain_length o) o = Some (o', Ok tt) -> o_namespace o' = Some ns -> cell (o_families o') Namespace <> None ->
  view_loaded (mkView base (Some o') entries) o' ns bs.
Proof.
  intros L1 L2 L3 Hn Hl Hns Hcell. destruct (load_chain checksum base D0 _ o bs Hn (le_n _)) as (o1 & r & Hl1 & _ & Hr).
  rewrite Hl in Hl1. injection Hl1 as <- <-. destruct (Hr eq_refl) as (ns1 & Hns1 & Hs & Hv). rewrite Hns in Hns1. injection Hns1 as <-.
  split; [done..|]. by apply (views_stand _ D0 _ _ _ Hv).
Qed.

Lemma loaded_sample_ok : view_loaded loaded_view loaded_sample.1 loaded_sample.2 forest_batches.
Proof.
  refine (view_of_load sample_sum forest_base sample_documents _ forest_overlay _ _ _ forest_base_laws forest_name_laws forest_forest_laws (forest_named _) _ _ _).
  - by vm_compute.
  - by vm_compute.
  - by vm_compute.
Qed.

Lemma forest_order_laws : OrderLaws forest_base.
Proof. split. intros dir. cbn [forest_base base_children]. destruct (dir =? 0)%N; [|destruct (dir =? 1)%N]; repeat constructor. Qed.

Lemma loaded_rows : rows_complete forest_base (records_of (all_txs forest_batches)).
Proof.
  intros d Hd Hdir. set (H := records_of _) in *. destruct (newest_row H (row_key LIFE d)) as [r|] eqn:Er.
  - apply newest_row_key in Er as [Hk Hin]. change H with forest_delta in Hin. rewrite record_key_row in Hk. unfold forest_delta in Hin.
    apply list_elem_of_In in Hin. cbn in Hin. destruct Hin as [<-|[<-|[<-|[<-|[]]]]]; cbn [record_row fst snd] in Hk; apply row_key_inj in Hk as [Hc Hi]; try done.
    subst d. right. by vm_compute.
  - left. apply dir_at_iff in Hdir as [_ Hk]. unfold kind_at in Hk. rewrite Er in Hk. by destruct (N.ltb_spec d (base_dir_count forest_base)).
Qed.

Lemma loaded_roots : roots_normal loaded_view.
Proof.
  assert (Hr : roots loaded_view = Some [(0%N, [47; 114]%N)]) by (by vm_compute). intros rs r Hrs Hin. rewrite Hr in Hrs. injection Hrs as <-.
  apply list_elem_of_singleton in Hin as ->. by right.
Qed.

Lemma children_listed_witness :
  view_children loaded_view 0 = Some [0; 1]%N /\ view_children loaded_view 1 = Some [2%N] /\
  exists l, view_children loaded_view 0 = Some l /\
    (forall id, id ∈ l <-> u32_ok id /\ exists n, name_at forest_base (records_of (all_txs forest_batches)) id = Some n /\ n_parent n = 0%N /\ view_lookup loaded_view 0 (n_bytes n) = Some (Some id)) /\
    StronglySorted (fun a b => exists na nb, name_at forest_base (records_of (all_txs forest_batches)) a = Some na /\
      name_at forest_base (records_of (all_txs forest_batches)) b = Some nb /\ cmp (n_bytes na) (n_bytes nb) = Lt) l.
Proof.
  split; [vm_compute; reflexivity|]. split; [vm_compute; reflexivity|].
  exact (children_listed loaded_view _ _ forest_batches forest_name_laws forest_order_laws loaded_sample_ok 0 eq_refl).
Defined.

(** The name [/r/a/c] of the sample. *)
Lemma path_resolves_witness :
  path loaded_view 2 [] = Some [47; 114; 47; 97; 47; 99]%N /\
  resolve loaded_view [47; 114; 47; 97; 47; 99]%N = Some (Some (mkResolved (Some 2%N) (TInode 3) [])) /\
  exists rs top rp cs p, roots loaded_view = Some rs /\ (top, rp) ∈ rs /\ descends forest_base (records_of (all_txs forest_batches)) top cs 1 /\
    path loaded_view 2 [] = Some p /\ p = fold_left push_component (cs ++ [[99%N]]) rp /\
    (listed_along loaded_view (records_of (all_txs forest_batches)) top cs -> (forall r, r ∈ rs -> in_root p r = true -> r = (top, rp) \/ length r.2 < length rp) ->
     resolve loaded_view p = Some (Some (mkResolved (Some 2%N) (from_child 3) []))).
Proof.
  split; [vm_compute; reflexivity|]. split; [vm_compute; reflexivity|].
  exact (path_resolves loaded_view _ _ forest_batches forest_name_laws loaded_sample_ok loaded_rows loaded_roots 2 (mkName 1 3 [99%N]) eq_refl eq_refl).
Defined.

(** A root directory the log gives birth to without a row of its own passes
    the checks of the namespace, whose [own] looks at the checkpoint's rows
    only; [dir_name] then reads a column past them. *)
Definition rowless_root : list Record_ := [LifePut 3 Dir 0 0; RootPut 3 [47; 122]%N].
Definition rowless_next : Manifest := mkManifest (mkGeneration (le_bytes 16 1) 3 12) 0 11 1 (mkCounters 4 2 1) (mkCounts 4 2 3 1).

Example rowless_root_accepted :
  match load_namespace sample_sum forest_base 2 (overlay_advance forest_log rowless_next rowless_root) with
  | Some (o, Ok _) => dir_name (mkView forest_base (Some o) (fun _ => Some 1%N)) 3 = None
  | _ => False
  end.
Proof. by vm_compute. Qed.
