(* ===== verification/NameCatalog.v ===== *)
(** * NameCatalog: a view serves the names of its documents

    Models the reads of a view that a content query's inverse is built from:
    [NameReader::child_ids] of [crates/ferret-catalog/src/read/cursors.rs], and
    of [read.rs], [read/inodes.rs] and [read/changes.rs] the liveness and the
    document of an inode, the names that refer to it, and what the log
    changed.  A loaded view and its checkpoint keep the promises
    [DocNames.CatalogLaws] and [DocNames.Kept] make of two views, so the view
    can adopt the inverse built from its checkpoint.

    A read out of the range of a column is [None], as in [NameView].  That
    every inode the log gives birth to has its fields is the check of
    [overlay/validate.rs], modelled here.  That a lifetime row follows every
    change of an inode's names is the writer's doing and not checked: it is
    [names_told], under which the counts are right ([DocNames.Counted]) and
    an adoption loses no name. *)
From S2P Require Import Prelude Word Bytes DocSet Cursor Union Until DocNames Trigrams LogRecords BTree Runs Dormant Generation LogFrames Projection Overlay OverlayLife OverlayDocs OverlaySpec.
From S2P Require Import NameGraph NameRows NameCheck NameKeys NameForest NameCount NameSpec NameLoad NameView NameViewSpec NamePath.
#[local] Open Scope ferret_scope.

Section model.
Context (v : View) (base_doc : u32 -> option u32).
#[local] Abbreviation base := (v_base v).

(** [NameReader::child_ids]: the checkpoint's names but the suppressed, whose
    list is walked along, then the overlay's. *)
Fixpoint skip_below (id : u32) (suppressed : list u32) : list u32 :=
  match suppressed with s :: rest => if (s <? id)%N then skip_below id rest else suppressed | [] => [] end.
Fixpoint scan_ids (ids suppressed : list u32) : list (u32 * u32) :=
  match ids with
  | [] => []
  | id :: ids =>
      match skip_below id suppressed with
      | s :: rest => if (s =? id)%N then scan_ids ids rest else (id, n_child (base_name base id)) :: scan_ids ids (s :: rest)
      | [] => (id, n_child (base_name base id)) :: scan_ids ids []
      end
  end.
Fixpoint delta_ids (ns : Names) (ids : list u32) : option (list (u32 * u32)) :=
  match ids with
  | [] => Some []
  | id :: ids => n ← ns_name base ns id; n ← n; rest ← delta_ids ns ids; Some ((id, n_child n) :: rest)
  end.
Definition view_child_ids : option (list (u32 * u32)) :=
  ns ← namespace v;
  match ns with
  | Some ns => delta ← delta_ids ns (ns_names ns); Some (scan_ids (ids_below (base_name_count base)) (ns_suppressed ns) ++ delta)
  | None => Some (scan_ids (ids_below (base_name_count base)) [])
  end.

(** [is_live_inode], [overlay_inode], [doc] and [indexed_name_count]. *)
Definition view_live_inode (id : u32) : option bool :=
  match v_overlay v with Some o => live_inode base o id | None => Some (id <? base_inode_count base)%N end.
Definition overlay_inode (id : u32) : option (option Record_) := match v_overlay v with Some o => Overlay.inode o id | None => Some None end.
Definition view_doc (id : u32) : option (option u32) :=
  row ← overlay_inode id;
  match row with
  | Some (InodePut _ _ _ doc _) => Some doc
  | _ => if (id <? base_inode_count base)%N then Some (base_doc id) else None
  end.
Definition view_name_count (id : u32) : option u32 :=
  live ← view_live_inode id;
  if negb live then Some 0%N
  else
    row ← match v_overlay v with Some o => Overlay.life o id | None => Some None end;
    Some (match row with Some (LifePut _ _ _ names) => names | _ => default 0%N (name_references base !! N.to_nat id) end).

(** [next_doc], [changed_names] and [changed_inodes]. *)
Definition view_next_doc : u32 := match v_overlay v with Some o => docs (counters (o_manifest o)) | None => l_next_doc (layout base) end.
Definition changed_name (r : Record_) : option (u32 * bool) :=
  match r with NamePut id _ _ _ _ => Some (id, true) | NameDelete id => Some (id, false) | _ => None end.
Definition view_changed_names : option (list (u32 * bool)) :=
  match v_overlay v with Some o => p ← Overlay.projection o Namespace; rs ← Projection.records p NAME; Some (omap changed_name (rs : list Record_)) | None => Some [] end.
Definition changed_inode (r : Record_) : option u32 := match r with InodePut id _ _ _ _ => Some id | _ => None end.
Definition view_changed_inodes : option (list u32) :=
  match v_overlay v with Some o => p ← Overlay.projection o Inodes; rs ← Projection.records p INODE; Some (omap changed_inode (rs : list Record_)) | None => Some [] end.

(** The loop of [check_fields] over the lifetimes. *)
Fixpoint fields_loop (fields : Projection) (lives : list Record_) : outcome unit :=
  match lives with
  | [] => Some (Ok tt)
  | LifePut id _ _ _ :: lives =>
      if (base_inode_count base <=? id)%N then
        row ← projection_get fields INODE id;
        match row with None => Some (Err (obad "new inode has no fields")) | Some _ => fields_loop fields lives end
      else fields_loop fields lives
  | _ :: lives => fields_loop fields lives
  end.

(** What a content query reads of the view: an id is a [u32], and a panic is
    shown not to occur. *)
Definition on_u32 {A} (d : A) (f : u32 -> option A) (id : u32) : A := if (id <? 2 ^ 32)%N then default d (f id) else d.
Definition catalog_of : Catalog OpenError := {|
  cat_load := Ok tt; next_doc := view_next_doc; child_ids := default [] view_child_ids;
  DocNames.is_live_name := on_u32 false (NameView.is_live_name v);
  name_child id := on_u32 None (fun id => Some (n_child <$> reader_get v id)) id;
  is_live_inode := on_u32 false view_live_inode; cat_doc := on_u32 None view_doc; indexed_name_count := on_u32 0%N view_name_count;
  changed_names := default [] view_changed_names; changed_inodes := default [] view_changed_inodes
|}.
End model.

(** ** The inodes of a view *)

Definition doc_bound (n : u32) (r : Record_) : Prop := match r with InodePut _ _ _ (Some d) _ => (d < n)%N | _ => True end.

Section inodes.
Context (base : Base).

#[export] Instance inodes_table : FamilyTable base Inodes unit := {|
  ft_start := tt; ft_legal _ _ _ _ := True; ft_after _ _ := tt; ft_counts _ _ := True;
  ft_shows p last H before _ := projection_ok p last H /\ Forall (doc_bound (docs before)) H /\ (l_next_doc (layout base) <= docs before)%N
|}.

Lemma doc_bound_mono n n' r : (n <= n')%N -> doc_bound n r -> doc_bound n' r.
Proof. destruct r as [| | | | | | | |id k st [d|] stat| | | | | | | |]; cbn; try done. lia. Qed.

#[export] Instance inodes_laws : TableLaws base Inodes unit.
Proof.
  split.
  - eexists. split; [done|]. split; [apply projection_default_ok|]. split; [constructor|done].
  - done.
  - done.
  - intros p last H before T c q next rs (Hp & HH & Hle) _ Hf Hv. unfold replay_one. cbn [replay_family oe_bind].
    destruct (decreased_false _ _ (fo_grow _ _ Hf)) as [_ Hg]. cbn [snd] in Hg. pose proof (fo_u32 _ _ Hf) as Hu. cbn [snd] in Hu. unfold tx_valid in Hv. cbn [fst snd] in Hv.
    destruct (apply_rows_spec p last H q rs Hp) as (p' & -> & Hp' & _); [pose proof (fo_next _ _ Hf); cbn in *; lia|eapply Forall_impl; [exact Hv|]; intros r; by apply valid_row_ok|].
    cbn [mbind option_bind]. eexists. split; [done|]. split; [done|]. split; [|done]. split; [done|]. split; [|cbn in *; lia]. apply Forall_app. split.
    + eapply Forall_impl; [exact HH|]. intros r. by apply doc_bound_mono.
    + eapply Forall_impl; [exact Hv|]. intros r [Hch _ _]. destruct r as [| | | | | | | |id k st [d|] stat| | | | | | | |]; cbn; try done. destruct Hch as (Hd & _). by apply Hd.
  - intros T c m _. by eexists.
Qed.
End inodes.

(** ** Listing the names *)

Lemma skip_below_spec id sup : StronglySorted N.lt sup -> StronglySorted N.lt (skip_below id sup) /\ Forall (fun s => (id <= s)%N) (skip_below id sup) /\
  forall s, (id <= s)%N -> s ∈ skip_below id sup <-> s ∈ sup.
Proof.
  induction 1 as [|s sup Hs IH Hx]; [by repeat constructor|]. cbn [skip_below]. destruct (N.ltb_spec s id) as [Hlt|Hge].
  - destruct IH as (H1 & H2 & H3). split; [done|]. split; [done|]. intros x Hxi. rewrite H3 by done. rewrite elem_of_cons. split; [by right|]. intros [->|?]; [lia|done].
  - split; [by constructor|]. split; [|done]. constructor; [done|]. eapply Forall_impl; [exact Hx|]. cbn. intros x Hsx. change (s < x)%N in Hsx. lia.
Qed.

Lemma scan_ids_spec (v : View) ids sup : StronglySorted N.lt ids -> StronglySorted N.lt sup ->
  scan_ids v ids sup = (fun id => (id, n_child (base_name (v_base v) id))) <$> filter (fun id => id ∉ sup) ids.
Proof.
  intros Hi. revert sup. induction Hi as [|id ids _ IH Hx]; intros sup Hs; [done|]. cbn [scan_ids]. destruct (skip_below_spec id sup Hs) as (H1 & H2 & H3).
  assert (Hrest : forall sup' : list u32, (forall s, (id < s)%N -> s ∈ sup' <-> s ∈ sup) -> filter (fun i => i ∉ sup') ids = filter (fun i => i ∉ sup) ids).
  { intros sup' Hsame. apply filter_same. intros i Hi. rewrite Forall_forall in Hx. by rewrite Hsame by (by apply Hx). }
  rewrite filter_cons. pose proof (H3 id (N.le_refl id)) as Hid. destruct (skip_below id sup) as [|s rest].
  - rewrite decide_True by (rewrite <- Hid; apply not_elem_of_nil). rewrite fmap_cons, IH by constructor. do 2 f_equal. apply Hrest. intros s Hlt. apply H3. lia.
  - apply Forall_cons in H2 as [Hle _]. pose proof (StronglySorted_inv H1) as [Hr Hall]. destruct (N.eqb_spec s id) as [->|Hne].
    + rewrite decide_False by (intros Hn; apply Hn, Hid; by left). rewrite IH by done. f_equal. apply Hrest. intros x Hlt. rewrite <- H3 by lia. rewrite elem_of_cons. split; [by right|]. intros [->|?]; [lia|done].
    + rewrite decide_True. 2: { rewrite <- Hid. intros [->|Hin]%elem_of_cons; [done|]. rewrite Forall_forall in Hall. specialize (Hall id Hin). change (s < id)%N in Hall. lia. }
      rewrite fmap_cons, IH by done. do 2 f_equal. apply Hrest. intros x Hlt. apply H3. lia.
Qed.

Lemma add_span_ids l ids heap spans : (fold_left add_span l (ids, heap, spans)).1.1 = ids ++ l.*1.
Proof.
  revert ids heap spans. induction l as [|x l IH]; intros ids heap spans; [by rewrite app_nil_r|]. cbn [fold_left add_span]. rewrite IH, fmap_cons, <- app_assoc. done.
Qed.

(** The rows of one category that carry a value, by their ids. *)
Lemma listed_rows {A} p last H c rs (f : Record_ -> option (u32 * A)) : projection_ok p last H -> Projection.records p c = Some rs ->
  (forall r id a, f r = Some (id, a) -> record_row r = (c, id)) ->
  NoDup (omap f rs).*1 /\ forall id a, (id, a) ∈ omap f rs <-> exists r, newest_row H (row_key c id) = Some r /\ f r = Some (id, a).
Proof.
  intros Hp Hrs Hf. destruct (records_spec p last H Hp c) as (rs' & Hrs' & Hsorted & Hin). rewrite Hrs in Hrs'. injection Hrs' as <-.
  assert (Hrow : forall r id a, r ∈ rs -> f r = Some (id, a) -> newest_row H (row_key c id) = Some r).
  { intros r id a [_ Hr]%Hin Hfr. by rewrite record_key_row, (Hf r id a Hfr) in Hr. }
  split.
  - assert (Hnd : NoDup rs).
    { clear -Hsorted. induction Hsorted as [|r l _ IH Hx]; constructor; [|done]. intros Hr. rewrite Forall_forall in Hx. specialize (Hx r Hr). lia. }
    assert (Hone : (omap f rs).*1 = omap (fun r => fst <$> f r) rs).
    { clear. induction rs as [|r rs IH]; [done|]. cbn [omap list_omap]. destruct (f r); cbn; by rewrite ?fmap_cons, IH. }
    rewrite Hone. apply nodup_omap; [done|]. intros a b id Ha Hb (x & Ex & ->)%fmap_Some (y & Ey & Hxy)%fmap_Some. destruct x as [i n], y as [j n']. cbn in Hxy. subst j.
    pose proof (Hrow a i n Ha Ex). pose proof (Hrow b i n' Hb Ey). congruence.
  - intros id a. rewrite list_elem_of_omap. split; [intros (r & Hr & Hfr); exists r; split; [by eapply Hrow|done]|].
    intros (r & Hr & Hfr). exists r. split; [|done]. apply Hin. rewrite (Hf r id a Hfr). split; [done|]. by rewrite record_key_row, (Hf r id a Hfr).
Qed.

(** What a view needs besides its namespace: its inodes are loaded, every
    inode born in the log has its fields, and the checkpoint's documents are
    below its next. *)
Record inodes_loaded (v : View) (base_doc : u32 -> option u32) (o : Overlay) (bsi : list Batch) : Prop := {
  il_stands : stands (v_base v) Inodes o bsi;
  il_fields : exists p f ls, Overlay.projection o Namespace = Some p /\ Overlay.projection o Inodes = Some f /\ Projection.records p LIFE = Some ls /\
    fields_loop v f ls = Some (Ok tt);
  il_docs i d : (i < base_inode_count (v_base v))%N -> base_doc i = Some d -> (d < l_next_doc (layout (v_base v)))%N
}.

(** The log tells the names of its inodes: a live inode without a lifetime row
    has as many as the checkpoint counts of it. *)
Definition names_told (base : Base) (o : Overlay) (H : list Record_) : Prop := forall i, u32_ok i -> live_at base H i = true ->
  newest_row H (row_key LIFE i) = None -> count_at base (points_to i) H (names (counters (o_manifest o))) = Z.of_N (default 0%N (name_references base !! N.to_nat i)).

Lemma names_told_alike base o H1 H2 : (forall k, newest_row H1 k = newest_row H2 k) -> names_told base o H2 -> names_told base o H1.
Proof. intros He Ht i. rewrite (live_alike base H1 H2 He), He, (count_alike base H1 H2 He). apply Ht. Qed.

Section loaded.
Context (v : View) `{Hnames : !NameLaws (v_base v)} (base_doc : u32 -> option u32) (o : Overlay) (ns : Names) (bs bsi : list Batch).
Context (Hview : view_loaded v o ns bs) (Hinodes : inodes_loaded v base_doc o bsi).
#[local] Abbreviation base := (v_base v).
#[local] Abbreviation last_ := (frame (o_manifest o)).1.
Context (H : list Record_) (Heq : forall k, newest_row H k = newest_row (records_of (all_txs bs)) k).
Context (Hok : names_ok base (replay_over ns (o_manifest o)) last_ H (inodes (frame (o_manifest o)).2) (table_after base Namespace (base_lives base) (all_txs bs))).

#[local] Abbreviation fields := (no_fields _ _ _ _ _ _ Hok).

(** A record of a name, and the rows of names in order. *)
Definition put_name (r : Record_) : option (u32 * Name) := match r with NamePut id parent child bs _ => Some (id, mkName parent child bs) | _ => None end.

Lemma name_row_u32 id r : newest_row H (row_key NAME id) = Some r -> record_row r = (NAME, id) -> u32_ok id.
Proof. intros [Hr _]%newest_in_elem Hrow. pose proof fields as Hf. rewrite Forall_forall in Hf. destruct (Hf r Hr) as [Hu _]. unfold row_ok in Hu. by rewrite Hrow in Hu. Qed.

Lemma name_rows : exists rs, Projection.records (ns_rows ns) NAME = Some rs /\ ns_names ns = (omap put_name rs).*1 /\ NoDup (omap put_name rs).*1 /\
  forall id n, (id, n) ∈ omap put_name rs <-> u32_ok id /\ newest_row H (row_key NAME id) <> None /\ name_at base H id = Some n.
Proof.
  pose proof (sh_new _ _ _ _ (vl_shown _ _ _ _ Hview)) as Hnew. pose proof (ns_rows_ok v o ns bs H Hok) as Hp. destruct (records_spec (ns_rows ns) last_ H Hp NAME) as (rs & Hrs & _).
  exists rs. split; [done|]. unfold namespace_new in Hnew. rewrite Hrs in Hnew. cbn [mbind option_bind] in Hnew.
  pose proof (add_span_ids (omap put_bytes rs) [] [] []) as Hspan. destruct (fold_left add_span _ _) as [[ids heap] spans]. cbn [fst app] in Hspan. injection Hnew as Hns.
  assert (Hput : forall r id n, put_name r = Some (id, n) -> record_row r = (NAME, id)) by (intros r i m Hr; destruct r; try done; by injection Hr as <- <-).
  destruct (listed_rows _ _ _ _ rs put_name Hp Hrs Hput) as [Hnd Hin]. split; [|split; [done|]].
  - rewrite <- Hns. cbn [ns_names]. rewrite Hspan. clear. induction rs as [|r rs IH]; [done|]. cbn [omap list_omap]. destruct r; cbn; by rewrite ?fmap_cons, IH.
  - intros id n. rewrite Hin. split.
    + intros (r & Hr & Hn). split; [by apply (name_row_u32 _ r Hr (Hput _ _ _ Hn))|]. split; [by rewrite Hr|]. unfold name_at. rewrite Hr. destruct r; try done. by injection Hn as <- <-.
    + intros (Hu & Hne & Hname). destruct (newest_row H (row_key NAME id)) as [r|] eqn:Er; [|done]. destruct (word_row H fields NAME id r Hu Er) as [_ Rr].
      exists r. split; [done|]. unfold name_at in Hname. rewrite Er in Hname. destruct r; try done. injection Rr as ->. by injection Hname as <-.
Qed.

Lemma delta_ids_spec ids : Forall (fun e => u32_ok e.1 /\ name_at base H e.1 = Some e.2) ids -> delta_ids v ns ids.*1 = Some ((fun e => (e.1, n_child e.2)) <$> ids).
Proof.
  induction 1 as [|[id n] ids [Hid Hn] _ IH]; [done|]. rewrite !fmap_cons. cbn [delta_ids fst snd] in *. unfold ns_name. rewrite (name_in_spec base _ last_ H (ns_rows_ok v o ns bs H Hok) id Hid).
  cbn [mbind option_bind]. rewrite Hn. cbn [mbind option_bind]. by rewrite IH.
Qed.

Lemma ids_below_sorted n : StronglySorted N.lt (ids_below n).
Proof.
  unfold ids_below. generalize 0. induction (N.to_nat n) as [|k IH]; intros s; [constructor|]. cbn [seq fmap list_fmap]. constructor; [apply IH|].
  apply Forall_forall. intros x (y & -> & Hy%elem_of_seq)%list_elem_of_fmap. change (N.of_nat s < N.of_nat y)%N. lia.
Qed.

(** Every live name once, with its child. *)
Lemma child_ids_spec : exists l, view_child_ids v = Some l /\ NoDup l.*1 /\
  forall id child, (id, child) ∈ l <-> u32_ok id /\ exists n, name_at base H id = Some n /\ n_child n = child.
Proof.
  destruct name_rows as (rs & Hrs & Hnames_ & Hnd & Hin). destruct (suppressed_spec v o ns bs Hview H Hok) as [Hsorted Hsup].
  unfold view_child_ids. rewrite (view_namespace v o ns bs Hview). cbn [mbind option_bind]. rewrite Hnames_, delta_ids_spec.
  2: { apply Forall_forall. intros [id n] (Hu & _ & Hn)%Hin. done. }
  cbn [mbind option_bind]. rewrite scan_ids_spec by (try done; apply ids_below_sorted). eexists. split; [done|]. set (kept := filter _ (ids_below _)).
  assert (Hkept : forall id, id ∈ kept <-> (id < base_name_count base)%N /\ newest_row H (row_key NAME id) = None).
  { intros id. unfold kept. rewrite list_elem_of_filter, elem_of_ids, Hsup. destruct (newest_row H (row_key NAME id)); intuition congruence. }
  split.
  - rewrite fmap_app, <- !list_fmap_compose. apply NoDup_app. split_and!.
    + rewrite (list_fmap_ext _ id) by done. rewrite list_fmap_id. apply NoDup_filter, ids_below_nodup.
    + intros x Hx Hd. rewrite (list_fmap_ext _ id) in Hx by done. rewrite list_fmap_id in Hx. apply Hkept in Hx as [_ Hnone].
      apply list_elem_of_fmap in Hd as ([id n] & -> & (_ & Hne & _)%Hin). done.
    + done.
  - intros id child. rewrite elem_of_app. split.
    + intros [(i & [= -> ->] & [Hi Hnone]%Hkept)%list_elem_of_fmap|([i n] & [= -> ->] & (Hu & _ & Hn)%Hin)%list_elem_of_fmap].
      * split; [by apply (base_u32 v)|]. exists (base_name base i). split; [by apply rowless_name|done].
      * split; [done|]. by exists n.
    + intros (Hu & n & Hn & <-). destruct (newest_row H (row_key NAME id)) as [r|] eqn:Er.
      * right. apply list_elem_of_fmap. exists (id, n). split; [done|]. apply Hin. by rewrite Er.
      * left. apply list_elem_of_fmap. exists id. unfold name_at in Hn. rewrite Er in Hn. destruct (N.ltb_spec id (base_name_count base)); [|done]. injection Hn as <-.
        split; [done|]. by apply Hkept.
Qed.

Lemma live_name_spec id : u32_ok id -> NameView.is_live_name v id = Some (match name_at base H id with Some _ => true | None => false end).
Proof.
  intros Hid. unfold NameView.is_live_name. rewrite (record_spec v o ns bs Hview H Heq Hok) by (try done; by apply Nat.ltb_lt). cbn [mbind option_bind]. unfold name_at.
  destruct (newest_row H (row_key NAME id)) as [[]|]; try done; by destruct (id <? base_name_count base)%N.
Qed.

Lemma live_inode_spec id : u32_ok id -> view_live_inode v id = Some (live_at base H id).
Proof.
  intros Hid. unfold view_live_inode. rewrite (vl_overlay _ _ _ _ Hview). destruct (inode_reads base o bs (vl_stands _ _ _ _ Hview) id) as [-> _]. f_equal.
  symmetry. apply (lives_reads base H _ _ id (no_lives _ _ _ _ _ _ Hok)); [apply rows_of_fields, fields|done].
Qed.

(** ** Inodes *)

Definition inode_records : list Record_ := records_of (all_txs bsi).

Lemma inodes_shown : exists f, Overlay.projection o Inodes = Some f /\ projection_ok f last_ inode_records /\
  Forall (doc_bound (docs (counters (o_manifest o)))) inode_records /\ (l_next_doc (layout base) <= docs (counters (o_manifest o)))%N.
Proof. destruct (il_stands _ _ _ _ Hinodes) as [(f & Hf & H1 & H2 & H3) _ _ _]. by exists f. Qed.

Lemma inode_row id : u32_ok id -> overlay_inode v id = Some (newest_row inode_records (row_key INODE id)).
Proof.
  intros Hid. destruct inodes_shown as (f & Hf & Hp & _). unfold overlay_inode, Overlay.inode. rewrite (vl_overlay _ _ _ _ Hview), Hf. cbn [mbind option_bind].
  rewrite (projection_get_spec f last_ inode_records INODE id Hp); [done|by apply Nat.ltb_lt|done].
Qed.

Lemma fields_loop_spec f ls : projection_ok f last_ inode_records -> Forall row_ok ls -> fields_loop v f ls = Some (Ok tt) ->
  forall id k flags n, LifePut id k flags n ∈ ls -> (base_inode_count base <= id)%N -> newest_row inode_records (row_key INODE id) <> None.
Proof.
  intros Hp Hls. induction Hls as [|r ls Hr _ IH]; intros Hl id k flags n Hin Hge; [by apply not_elem_of_nil in Hin|]. cbn [fields_loop] in Hl.
  assert (Htail : fields_loop v f ls = Some (Ok tt) /\ (forall i k0 fl m, r = LifePut i k0 fl m -> (base_inode_count base <= i)%N -> newest_row inode_records (row_key INODE i) <> None)).
  { destruct r; try done. destruct (N.leb_spec (base_inode_count base) id0) as [Hle|Hlt].
    - rewrite (projection_get_spec f last_ inode_records INODE id0 Hp) in Hl by (try done; by apply Nat.ltb_lt). cbn [mbind option_bind] in Hl.
      destruct (newest_row inode_records (row_key INODE id0)) eqn:E; [|done]. split; [done|]. intros i k1 fl m [= <- _ _ _] _. by rewrite E.
    - split; [done|]. intros i k1 fl m [= <- _ _ _] ?. lia. }
  destruct Htail as [Ht Hhead]. apply elem_of_cons in Hin as [<-|Hin]; [by eapply Hhead|by eapply IH].
Qed.

(** An inode of the view without fields of its own is the checkpoint's. *)
Lemma plain_inode id : u32_ok id -> live_at base H id = true -> newest_row inode_records (row_key INODE id) = None -> (id < base_inode_count base)%N.
Proof.
  intros Hid Hlive Hnone. destruct (N.lt_ge_cases id (base_inode_count base)) as [|Hge]; [done|]. exfalso. unfold live_at in Hlive.
  destruct (newest_row H (row_key LIFE id)) as [r|] eqn:Er; [|by apply N.ltb_lt in Hlive; lia]. destruct (word_row H fields LIFE id r Hid Er) as [_ Rr].
  destruct (il_fields _ _ _ _ Hinodes) as (p & f & ls & Hp & Hf & Hls & Hloop). destruct inodes_shown as (f' & Hf' & Hfok & _). rewrite Hf in Hf'. injection Hf' as <-.
  destruct (view_projection v o ns bs Hview H Heq Hok) as (p' & Hp' & Hpok). rewrite Hp in Hp'. injection Hp' as <-.
  destruct (records_spec p last_ H Hpok LIFE) as (ls' & Hls' & _ & Hin). rewrite Hls in Hls'. injection Hls' as <-.
  assert (Hrl : r ∈ ls) by (apply Hin; rewrite Rr; split; [done|]; by rewrite record_key_row, Rr).
  assert (Hrows : Forall row_ok ls).
  { apply Forall_forall. intros x [_ Hx]%Hin. apply newest_in_elem in Hx as [Hx _]. pose proof fields as Hfl. rewrite Forall_forall in Hfl. apply (Hfl x Hx). }
  destruct r; try done. injection Rr as ->. by apply (fields_loop_spec f ls Hfok Hrows Hloop _ _ _ _ Hrl).
Qed.

Lemma doc_spec id : u32_ok id -> live_at base H id = true -> exists d, view_doc v base_doc id = Some d /\ forall x, d = Some x -> (x < docs (counters (o_manifest o)))%N.
Proof.
  intros Hid Hlive. destruct inodes_shown as (f & _ & Hp & Hb & Hle). unfold view_doc. rewrite inode_row by done. cbn [mbind option_bind].
  assert (Hbase : (id < base_inode_count base)%N -> exists d, (if (id <? base_inode_count base)%N then Some (base_doc id) else None) = Some d /\ forall x, d = Some x -> (x < docs (counters (o_manifest o)))%N).
  { intros Hlt. rewrite (proj2 (N.ltb_lt _ _) Hlt). eexists. split; [done|]. intros x Hx. pose proof (il_docs _ _ _ _ Hinodes id x Hlt Hx). lia. }
  destruct (newest_row inode_records (row_key INODE id)) as [r|] eqn:Er; [|by apply Hbase, plain_inode].
  apply newest_in_elem in Er as [Hin Hk]. pose proof (pj_history _ _ _ Hp) as Hrows. rewrite Forall_forall in Hrows, Hb. specialize (Hrows r Hin). specialize (Hb r Hin).
  rewrite record_key_row in Hk. apply row_key_inj in Hk as [Hc Hi]; [|done..]. destruct r; try done. eexists. split; [done|]. intros x ->. done.
Qed.

(** ** What changed *)

Definition put_row (r : Record_) : bool := match r with NamePut _ _ _ _ _ => true | _ => false end.

Lemma changed_names_spec : exists l, view_changed_names v = Some l /\ NoDup l.*1 /\
  (forall id, id ∈ l.*1 <-> u32_ok id /\ newest_row H (row_key NAME id) <> None) /\
  forall id live, (id, live) ∈ l -> u32_ok id /\ live = match name_at base H id with Some _ => true | None => false end.
Proof.
  destruct (view_projection v o ns bs Hview H Heq Hok) as (p & Hp & Hpok). destruct (records_spec p last_ H Hpok NAME) as (rs & Hrs & _).
  assert (Hrow : forall r id live, changed_name r = Some (id, live) -> record_row r = (NAME, id)) by (intros r i l Hr; destruct r; try done; by injection Hr as <- <-).
  destruct (listed_rows _ _ _ _ rs changed_name Hpok Hrs Hrow) as [Hnd Hin]. exists (omap changed_name rs). unfold view_changed_names.
  rewrite (vl_overlay _ _ _ _ Hview), Hp. cbn [mbind option_bind]. rewrite Hrs. split; [done|]. split; [done|].
  assert (Hone : forall id live, (id, live) ∈ omap changed_name rs -> u32_ok id /\ newest_row H (row_key NAME id) <> None /\ live = match name_at base H id with Some _ => true | None => false end).
  { intros id live (r & Hr & Hc)%Hin. split; [by apply (name_row_u32 id r Hr (Hrow _ _ _ Hc))|]. split; [by rewrite Hr|]. unfold name_at. rewrite Hr.
    destruct r; try done; by injection Hc as _ <-. }
  split; [|intros id live Hi; by apply Hone in Hi as (? & _ & ?)]. intros id. rewrite list_elem_of_fmap. split.
  - intros ([i live] & -> & Hi). by apply Hone in Hi as (? & ? & _).
  - intros [Hu Hne]. destruct (newest_row H (row_key NAME id)) as [r|] eqn:Er; [|done]. destruct (word_row H fields NAME id r Hu Er) as [_ Rr].
    exists (id, put_row r). split; [done|]. apply Hin. exists r. split; [done|]. destruct r; try done; by injection Rr as ->.
Qed.

Lemma changed_inodes_spec : exists l, view_changed_inodes v = Some l /\ forall id, u32_ok id -> id ∉ l -> newest_row inode_records (row_key INODE id) = None.
Proof.
  destruct inodes_shown as (p & Hp & Hpok & _). destruct (records_spec p last_ inode_records Hpok INODE) as (rs & Hrs & _ & Hin).
  unfold view_changed_inodes. rewrite (vl_overlay _ _ _ _ Hview), Hp. cbn [mbind option_bind]. rewrite Hrs. cbn [mbind option_bind]. eexists. split; [done|].
  intros id Hid Hn. destruct (newest_row inode_records (row_key INODE id)) as [r|] eqn:Er; [|done]. exfalso. apply Hn, list_elem_of_omap.
  pose proof Er as [Hr Hk]%newest_in_elem. pose proof (pj_history _ _ _ Hpok) as Hrows. rewrite Forall_forall in Hrows. rewrite record_key_row in Hk.
  apply row_key_inj in Hk as [Hc Hi]; [|by apply Hrows|done]. exists r. split; [|destruct r; try done; by cbn in *; subst].
  apply Hin. split; [done|]. by rewrite record_key_row, Hc, Hi.
Qed.

(** ** The names of an inode *)

Lemma from_child_target c i : from_child c = TInode i <-> is_inode c = true /\ c = i.
Proof. unfold from_child, is_inode. rewrite bool_decide_eq_true. destruct (from_ignored_child c); naive_solver. Qed.

Lemma name_count_spec i l : u32_ok i -> is_inode i = true -> live_at base H i = true -> NoDup l.*1 ->
  (newest_row H (row_key LIFE i) = None -> count_at base (points_to i) H (names (counters (o_manifest o))) = Z.of_N (default 0%N (name_references base !! N.to_nat i))) ->
  (forall id child, (id, child) ∈ l <-> u32_ok id /\ exists n, name_at base H id = Some n /\ n_child n = child) ->
  view_name_count v i = Some (N.of_nat (length (filter (fun e => from_child e.2 = TInode i) l))).
Proof.
  intros Hi Hin Hlive Hnd Htold Hl. set (counter := names (counters (o_manifest o))).
  assert (Hcount : count_at base (points_to i) H counter = Z.of_nat (length (filter (fun e => from_child e.2 = TInode i) l))).
  { unfold count_at. rewrite tally_filter. f_equal. rewrite <- (length_fmap fst (filter _ l)). apply Permutation_length, NoDup_Permutation.
    - apply NoDup_filter, ids_below_nodup.
    - eapply sublist_NoDup; [exact Hnd|]. apply sublist_fmap, sublist_filter.
    - intros id. rewrite list_elem_of_filter, list_elem_of_fmap, elem_of_ids. unfold name_test, points_to. split.
      + intros [Ht Hlt]. destruct (name_at base H id) as [n|] eqn:Hn; [|done]. apply andb_true_iff in Ht as [Hino Hc%N.eqb_eq]. exists (id, n_child n). split; [done|].
        apply list_elem_of_filter. split; [by apply from_child_target|]. apply Hl. split; [|by exists n]. pose proof (no_counter _ _ _ _ _ _ Hok) as Hc2. unfold u32_ok in *. cbn [replay_over nr_counter] in Hc2. lia.
      + intros ([j c] & -> & [Hc (Hu & n & Hn & Hcn)%Hl]%list_elem_of_filter). cbn in *. subst c. apply from_child_target in Hc as [Hino <-]. rewrite Hn, Hino, N.eqb_refl. split; [done|].
        apply (no_fresh _ _ _ _ _ _ Hok j Hu). by rewrite Hn. }
  unfold view_name_count. rewrite live_inode_spec, Hlive by done. cbn [mbind option_bind negb]. rewrite (vl_overlay _ _ _ _ Hview).
  assert (Hrow : Overlay.life o i = Some (newest_row H (row_key LIFE i))).
  { destruct (view_projection v o ns bs Hview H Heq Hok) as (p & Hp & Hpok). unfold Overlay.life. rewrite Hp. cbn [mbind option_bind]. by rewrite (projection_get_spec p last_ H LIFE i Hpok) by (try done; by apply Nat.ltb_lt). }
  assert (Hrefs : refs_of base (ns_references ns) i = count_at base (points_to i) H counter) by apply (no_references _ _ _ _ _ _ Hok i Hin).
  rewrite Hrow. cbn [mbind option_bind]. f_equal. apply N2Z.inj. rewrite nat_N_Z, <- Hcount, <- Hrefs.
  destruct (newest_row H (row_key LIFE i)) as [r|] eqn:Er.
  - destruct (word_row H fields LIFE i r Hi Er) as [_ Rr]. unfold live_at in Hlive. rewrite Er in Hlive. destruct r; try done. by apply (no_declared _ _ _ _ _ _ Hok i _ _ _ _ Hi Er).
  - rewrite Hrefs. by rewrite <- Htold.
Qed.
End loaded.

(** ** A view as a catalog *)

(** What the reads of a view show of a history. *)
Record shows_history (v : View) (base_doc : u32 -> option u32) (H : list Record_) : Prop := {
  sh_listed : exists l, view_child_ids v = Some l /\ NoDup l.*1 /\
    forall id child, (id, child) ∈ l <-> u32_ok id /\ exists n, name_at (v_base v) H id = Some n /\ n_child n = child;
  sh_live_name id : u32_ok id -> NameView.is_live_name v id = Some (match name_at (v_base v) H id with Some _ => true | None => false end);
  sh_name id : u32_ok id -> reader_get v id = name_at (v_base v) H id;
  sh_live_inode id : u32_ok id -> view_live_inode v id = Some (live_at (v_base v) H id);
  sh_doc id : u32_ok id -> live_at (v_base v) H id = true -> exists d, view_doc v base_doc id = Some d /\ forall x, d = Some x -> (x < view_next_doc v)%N;
  sh_few : exists bound, u32_ok bound /\ forall id, u32_ok id -> name_at (v_base v) H id <> None -> (id < bound)%N;
  sh_target id n : u32_ok id -> name_at (v_base v) H id = Some n -> u32_ok (n_child n) /\ (is_inode (n_child n) = true -> live_at (v_base v) H (n_child n) = true)
}.

Lemma on_u32_in {A} (d : A) f id a : u32_ok id -> f id = Some a -> on_u32 d f id = a.
Proof. unfold on_u32, u32_ok. intros Hid ->. by rewrite (proj2 (N.ltb_lt _ _) Hid). Qed.
Lemma on_u32_out {A} (d : A) f id : ~ u32_ok id -> on_u32 d f id = d.
Proof. unfold on_u32, u32_ok. intros Hid. by destruct (N.ltb_spec id (2 ^ 32)). Qed.

Section shows.
Context (v : View) (base_doc : u32 -> option u32) (H : list Record_) (Hs : shows_history v base_doc H).
#[local] Abbreviation base := (v_base v).
#[local] Abbreviation cat := (catalog_of v base_doc).

Lemma cat_live_name id : DocNames.is_live_name cat id = true <-> u32_ok id /\ name_at base H id <> None.
Proof.
  cbn [catalog_of DocNames.is_live_name]. destruct (decide (u32_ok id)) as [Hu|Hu]; [|rewrite on_u32_out by done; naive_solver].
  erewrite on_u32_in by (try done; by apply (sh_live_name _ _ _ Hs)). destruct (name_at base H id); naive_solver.
Qed.

Lemma cat_child id child : u32_ok id -> name_child cat id = Some child <-> exists n, name_at base H id = Some n /\ n_child n = child.
Proof. intros Hu. cbn [catalog_of name_child]. erewrite on_u32_in by done. rewrite (sh_name _ _ _ Hs id Hu). destruct (name_at base H id); naive_solver. Qed.

Lemma cat_live_inode i : DocNames.is_live_inode cat i = true <-> u32_ok i /\ live_at base H i = true.
Proof.
  cbn [catalog_of DocNames.is_live_inode]. destruct (decide (u32_ok i)) as [Hu|Hu]; [|rewrite on_u32_out by done; naive_solver].
  erewrite on_u32_in by (try done; by apply (sh_live_inode _ _ _ Hs)). naive_solver.
Qed.

Lemma cat_doc_of i : u32_ok i -> cat_doc cat i = default None (view_doc v base_doc i).
Proof. intros Hu. cbn [catalog_of cat_doc]. unfold on_u32. by rewrite (proj2 (N.ltb_lt _ _) Hu). Qed.

Lemma shows_laws : CatalogLaws cat.
Proof.
  destruct (sh_listed _ _ _ Hs) as (l & Hl & Hnd & Hin). assert (Hids : child_ids cat = l) by (cbn [catalog_of child_ids]; by rewrite Hl). split; rewrite ?Hids.
  - done.
  - intros id child. rewrite Hin, cat_live_name. split.
    + intros (Hu & n & Hn & Hc). split; [by rewrite Hn|]. apply cat_child; [done|]. by exists n.
    + intros [[Hu _] Hc]. split; [done|]. by apply cat_child in Hc.
  - intros id [Hu Hn]%cat_live_name. destruct (name_at base H id) as [n|] eqn:E; [|done]. exists (n_child n). apply cat_child; [done|]. by exists n.
  - destruct (sh_few _ _ _ Hs) as (bound & Hb & Hlt). rewrite <- (length_fmap fst l). enough (length l.*1 <= length (ids_below bound)) as Hle.
    { unfold ids_below in Hle. rewrite (length_fmap N.of_nat), length_seq in Hle. unfold u32_ok in Hb. lia. }
    apply submseteq_length, NoDup_submseteq; [done|]. intros id ([i c] & -> & (Hu & n & Hn & _)%Hin)%list_elem_of_fmap. cbn [fst]. apply elem_of_ids, Hlt; [done|]. by rewrite Hn.
  - intros id child inode [Hu _]%cat_live_name (n & Hn & Hc)%cat_child [Hi ->]%from_child_target; [|done]. subst inode. destruct (sh_target _ _ _ Hs id n Hu Hn) as [Hcu Hlive].
    apply cat_live_inode. split; [done|]. by apply Hlive.
  - intros i d [Hu Hlive]%cat_live_inode. rewrite cat_doc_of by done. destruct (sh_doc _ _ _ Hs i Hu Hlive) as (x & -> & Hx). intros Hd. by apply Hx.
Qed.

(** What a served document is, read from the view. *)
Lemma owner_shown id d : owner cat id = Some (Some d) <->
  u32_ok id /\ exists n, reader_get v id = Some n /\ is_inode (n_child n) = true /\ view_doc v base_doc (n_child n) = Some (Some d).
Proof.
  pose proof shows_laws as Hlaws. rewrite owner_cases by done. split.
  - intros (child & i & [Hu _]%cat_live_name & (n & Hn & Hc)%cat_child & [Hi Hci]%from_child_target & Hd); [|done]. subst child i. split; [done|]. exists n.
    rewrite (sh_name _ _ _ Hs id Hu). split; [done|]. split; [done|]. unfold live_doc in Hd. destruct (DocNames.is_live_inode cat (n_child n)) eqn:El; [|done].
    apply cat_live_inode in El as [Hcu Hlive]. rewrite cat_doc_of in Hd by done. destruct (sh_doc _ _ _ Hs _ Hcu Hlive) as (x & Hx & _). rewrite Hx in Hd. cbn in Hd. by subst.
  - intros (Hu & n & Hn & Hi & Hd). rewrite (sh_name _ _ _ Hs id Hu) in Hn. destruct (sh_target _ _ _ Hs id n Hu Hn) as [Hcu Hlive]. exists (n_child n), (n_child n).
    split; [apply cat_live_name; by rewrite Hn|]. split; [apply cat_child; [done|]; by exists n|]. split; [by apply from_child_target|].
    unfold live_doc. rewrite (proj2 (cat_live_inode _)) by (split; [done|by apply Hlive]). by rewrite cat_doc_of, Hd by done.
Qed.
End shows.

(** The checkpoint of a view, without its log. *)
Definition checkpoint_of (v : View) : View := mkView (v_base v) None (base_entries v).

Section adopted.
Context (v : View) `{Hnames : !NameLaws (v_base v)} (base_doc : u32 -> option u32) (o : Overlay) (ns : Names) (bs bsi : list Batch).
Context (Hview : view_loaded v o ns bs) (Hinodes : inodes_loaded v base_doc o bsi).
#[local] Abbreviation base := (v_base v).
#[local] Abbreviation last_ := (frame (o_manifest o)).1.
Context (H : list Record_) (Heq : forall k, newest_row H k = newest_row (records_of (all_txs bs)) k).
Context (Hok : names_ok base (replay_over ns (o_manifest o)) last_ H (inodes (frame (o_manifest o)).2) (table_after base Namespace (base_lives base) (all_txs bs))).
#[local] Abbreviation cat := (catalog_of v base_doc).
#[local] Abbreviation old := (catalog_of (checkpoint_of v) base_doc).

Lemma loaded_shows : shows_history v base_doc H.
Proof.
  split.
  - by eapply child_ids_spec.
  - intros id Hid. by eapply live_name_spec.
  - intros id Hid. by eapply reader_spec.
  - intros id Hid. by eapply live_inode_spec.
  - intros id Hid Hlive. destruct (doc_spec v base_doc o ns bs bsi Hview Hinodes H Heq Hok id Hid Hlive) as (d & Hd & Hx). exists d. split; [exact Hd|].
    intros x Hdx. unfold view_next_doc. rewrite (vl_overlay _ _ _ _ Hview). by apply Hx.
  - exists (names (counters (o_manifest o))). split; [apply (no_counter _ _ _ _ _ _ Hok)|]. apply (no_fresh _ _ _ _ _ _ Hok).
  - intros id n Hid Hn. split; [apply (name_u32 base H (no_fields _ _ _ _ _ _ Hok) id n Hn)|]. apply (no_edges _ _ _ _ _ _ Hok id n Hid Hn).
Qed.

Lemma checkpoint_shows : shows_history (checkpoint_of v) base_doc [].
Proof.
  assert (Hname : forall id, name_at base [] id = if (id <? base_name_count base)%N then Some (base_name base id) else None) by done.
  split; cbn [checkpoint_of v_base].
  - unfold view_child_ids, namespace. cbn [v_overlay checkpoint_of mbind option_bind v_base]. rewrite scan_ids_spec by (try constructor; apply ids_below_sorted). eexists. split; [done|]. split.
    + rewrite <- list_fmap_compose, (list_fmap_ext _ id) by done. rewrite list_fmap_id. apply NoDup_filter, ids_below_nodup.
    + intros id child. rewrite list_elem_of_fmap. setoid_rewrite list_elem_of_filter. setoid_rewrite elem_of_ids. rewrite Hname. split.
      * intros (i & [= -> ->] & _ & Hi). rewrite (proj2 (N.ltb_lt _ _) Hi). split; [|by eexists]. pose proof (nl_count (base := base)) as [Hc _]. unfold u32_ok in *. lia.
      * intros (_ & n & Hn & <-). destruct (N.ltb_spec id (base_name_count base)); [|done]. injection Hn as <-. exists id. split; [done|]. split; [apply not_elem_of_nil|done].
  - intros id _. unfold NameView.is_live_name, ns_record. cbn [v_overlay checkpoint_of mbind option_bind v_base]. rewrite Hname. by destruct (id <? base_name_count base)%N.
  - intros id _. unfold reader_get, namespace. cbn [v_overlay checkpoint_of mbind option_bind v_base]. by rewrite Hname.
  - intros id _. done.
  - intros id _ Hlive. unfold live_at in Hlive. cbn in Hlive. unfold view_doc, overlay_inode. cbn [v_overlay checkpoint_of mbind option_bind v_base]. rewrite Hlive. eexists. split; [done|].
    intros x Hx. unfold view_next_doc. cbn. apply N.ltb_lt in Hlive. by apply (il_docs _ _ _ _ Hinodes id).
  - exists (base_name_count base). split; [apply nl_count|]. intros id _. rewrite Hname. by destruct (N.ltb_spec id (base_name_count base)).
  - intros id n _. rewrite Hname. destruct (N.ltb_spec id (base_name_count base)) as [Hlt|]; [|done]. intros [= <-]. destruct (nl_name id Hlt) as (_ & Hc & Hi). split; [done|].
    intros Hino. apply N.ltb_lt. by apply Hi.
Qed.

Lemma view_kept : Kept old cat.
Proof.
  pose proof loaded_shows as Hn. pose proof checkpoint_shows as Hc. destruct (changed_names_spec v o ns bs Hview H Heq Hok) as (l & Hl & Hnd & Hrows & Hflag).
  assert (Hchanged : changed_names cat = l) by (cbn [catalog_of changed_names]; by rewrite Hl).
  assert (Hsame : forall id, u32_ok id -> id ∉ l.*1 -> name_at base H id = name_at base [] id).
  { intros id Hu Hid. unfold name_at. destruct (newest_row H (row_key NAME id)) as [r|] eqn:E; [|done]. exfalso. apply Hid, Hrows. by rewrite E. }
  split; rewrite ?Hchanged.
  - intros id Hid. cbn [catalog_of DocNames.is_live_name name_child]. destruct (decide (u32_ok id)) as [Hu|Hu]; [|by rewrite !on_u32_out].
    specialize (Hsame id Hu Hid). split.
    + rewrite (on_u32_in _ _ _ _ Hu (sh_live_name _ _ _ Hn id Hu)), (on_u32_in _ _ _ _ Hu (sh_live_name _ _ _ Hc id Hu)). cbn [checkpoint_of v_base]. by rewrite Hsame.
    + unfold on_u32. rewrite (proj2 (N.ltb_lt _ _) Hu). cbn [default from_option]. rewrite (sh_name _ _ _ Hn id Hu), (sh_name _ _ _ Hc id Hu). cbn [checkpoint_of v_base]. by rewrite Hsame.
  - intros id live Hi. destruct (Hflag id live Hi) as [Hu ->]. cbn [catalog_of DocNames.is_live_name]. by rewrite (on_u32_in _ _ _ _ Hu (sh_live_name _ _ _ Hn id Hu)).
  - done.
  - intros i Hi [Hu Hlive]%(cat_live_inode v base_doc H Hn). destruct (changed_inodes_spec v base_doc o ns bs bsi Hview Hinodes) as (li & Hli & Hnone).
    assert (Hrow : newest_row (inode_records bsi) (row_key INODE i) = None) by (apply Hnone; [done|]; cbn [catalog_of changed_inodes] in Hi; by rewrite Hli in Hi).
    pose proof (plain_inode v base_doc o ns bs bsi Hview Hinodes H Heq Hok i Hu Hlive Hrow) as Hlt. split; [apply (cat_live_inode _ _ _ Hc); split; [done|]; by apply N.ltb_lt|].
    rewrite !(cat_doc_of _ _) by done. f_equal. unfold view_doc. rewrite (inode_row v base_doc o ns bs bsi Hview Hinodes) by done. cbn [mbind option_bind]. rewrite Hrow.
    unfold overlay_inode. cbn [checkpoint_of v_overlay v_base mbind option_bind]. done.
Qed.

Lemma view_counted : names_told base o H -> Counted cat.
Proof.
  intros Htold. pose proof loaded_shows as Hn. split.
  intros i [Hu Hlive]%(cat_live_inode v base_doc H Hn). destruct (sh_listed _ _ _ Hn) as (li & Hli & Hnd2 & Hin). cbn [catalog_of indexed_name_count child_ids]. rewrite Hli.
  apply on_u32_in; [done|]. eapply name_count_spec; try done; [|by apply Htold].
  by eapply live_is_inode; [apply (no_lives _ _ _ _ _ _ Hok)|apply (no_fields _ _ _ _ _ _ Hok)|apply (no_small _ _ _ _ _ _ Hok)| |].
Qed.
End adopted.

(** ** Properties *)

(** The rows hold every document's live names in order, as the view reads
    them; or live names of it in order, if not all. *)
Definition answers (v : View) (base_doc : u32 -> option u32) (names : DocNames) : Prop :=
  forall d, exists l, names_of names d = Some l /\ StronglySorted N.lt l /\
    forall id, id ∈ l <-> u32_ok id /\ exists n, reader_get v id = Some n /\ is_inode (n_child n) = true /\ view_doc v base_doc (n_child n) = Some (Some d).

Definition answers_within (v : View) (base_doc : u32 -> option u32) (names : DocNames) : Prop :=
  forall d, exists l, names_of names d = Some l /\ StronglySorted N.lt l /\
    forall id, id ∈ l -> u32_ok id /\ exists n, reader_get v id = Some n /\ is_inode (n_child n) = true /\ view_doc v base_doc (n_child n) = Some (Some d).

Lemma serves_answers v base_doc H names : shows_history v base_doc H -> serves (catalog_of v base_doc) names -> answers v base_doc names.
Proof.
  intros Hs Hn d. destruct (Hn d) as (l & Hl & Hsorted & Hin). exists l. split; [done|]. split; [done|]. intros id. rewrite Hin. by eapply owner_shown.
Qed.

Lemma serves_within_answers v base_doc H names : shows_history v base_doc H -> serves_within (catalog_of v base_doc) names -> answers_within v base_doc names.
Proof.
  intros Hs Hn d. destruct (Hn d) as (l & Hl & Hsorted & Hin). exists l. split; [done|]. split; [done|]. intros id Hid. apply (owner_shown v base_doc H Hs). auto.
Qed.

(** C4: The inverse of a checkpoint can be carried over its log.  Over a
    checked checkpoint whose log is loaded, building the inverse from the
    checkpoint answers, unless stopped, with the checkpoint's live names of
    every document; and carrying it over the log never panics: it is refused,
    or answers with live names of every document, as the view has them, found
    or lost by rewritten names and by rewritten inodes alike.  Those are all
    of the view's live names if the log tells the names of its inodes
    ([names_told]): a live inode without a lifetime row has as many names as
    in the checkpoint.  A writer promises that, with a lifetime row wherever
    the number of an inode's names changes; loading does not check it, and
    without it the carried rows can miss names. *)
Theorem view_adopts (v : View) (base_doc : u32 -> option u32) (o : Overlay) (ns : Names) (bs bsi : list Batch) (Hlaws : NameLaws (v_base v))
    (Hview : view_loaded v o ns bs) (Hinodes : inodes_loaded v base_doc o bsi) (ck : Checkpoint) (HF : StopFlag ck) (c : ck_state ck) :
  exists built c', new_until ck (catalog_of (checkpoint_of v) base_doc) c = Some (Ok built, c') /\
    match built with
    | None => stopped c'
    | Some names => answers (checkpoint_of v) base_doc names /\
        exists carried, adopt (catalog_of v base_doc) (catalog_of (checkpoint_of v) base_doc) names = Some (Ok carried) /\
          forall names', carried = Some names' -> answers_within v base_doc names' /\
            (names_told (v_base v) o (records_of (all_txs bs)) -> answers v base_doc names')
    end.
Proof.
  destruct (view_names _ _ _ _ Hview) as (H & Heq & Hok).
  pose proof (loaded_shows v base_doc o ns bs bsi Hview Hinodes H Heq Hok) as Hnew. pose proof (checkpoint_shows v base_doc o bsi Hinodes) as Hold.
  pose proof (shows_laws _ _ _ Hnew) as HV. pose proof (shows_laws _ _ _ Hold) as HP. pose proof (view_kept v base_doc o ns bs bsi Hview Hinodes H Heq Hok) as HC.
  destruct (new_until_spec (catalog_of (checkpoint_of v) base_doc) (ck := ck) c) as (r & c' & Hb & Hr). destruct r as [built|e]; [|done]. exists built, c'. split; [done|].
  destruct built as [names|]; [|done]. split; [by eapply serves_answers|].
  destruct (adopt_spec _ (catalog_of v base_doc) names Hr) as (r & Ha & Hs). destruct r as [carried|e]; [|done]. exists carried. split; [done|].
  intros names' ->. destruct Hs as [Hwithin Hall]. split; [by eapply serves_within_answers|]. intros Htold. eapply serves_answers; [exact Hnew|]. apply Hall.
  apply (view_counted v base_doc o ns bs bsi Hview Hinodes H Heq Hok). by apply (names_told_alike _ _ _ _ Heq).
Qed.

(** ** A sample *)

(** The transaction of [NameLoad]'s sample, with the fields of the directory
    born in it and of the file, which gains its document. *)
Definition field_stat (m : u32) : Stat := mkStat 1 2 3 4 5 6 7 m 0 0 1.
Definition field_rows : list Record_ := [InodePut 3 Dir Unindexed None (field_stat 16877); InodePut 2 File Hashed (Some 0%N) (field_stat 33188)].
Definition field_overlay : Overlay := overlay_advance forest_log forest_next (forest_delta ++ field_rows).
Definition field_batches : list Batch :=
  [mkBatch [] (counts forest_first)] ++ [mkBatch [(frame forest_next, filter (fun r => family r = Inodes) (forest_delta ++ field_rows))] (counts forest_next)].
Definition loaded_or (r : option (Overlay * result unit OpenError)) (o : Overlay) : Overlay := match r with Some (o, Ok _) => o | _ => o end.
Definition field_named : Overlay := loaded_or (load_namespace sample_sum forest_base 2 field_overlay) field_overlay.
Definition field_loaded : Overlay := loaded_or (load sample_sum forest_base field_named Inodes) field_named.
Definition field_inodes : Overlay := loaded_or (load sample_sum forest_base field_overlay Inodes) field_overlay.
Definition field_names : Names := default (mkNames projection_default [] [] [] [] [] [] []) (o_namespace field_loaded).
Definition field_view : View := mkView forest_base (Some field_loaded) (fun _ => Some 1%N).

Lemma field_stat_ok m : u32_ok m -> stat_ok (field_stat m).
Proof. intros Hm. split; cbn [field_stat dev ino LogRecords.size nlink mode uid gid]; [repeat constructor; done|by repeat constructor|done|done]. Qed.

(** A family stands by its cell. *)
Lemma stands_alike base f `{FamilyTable base f X} o o' bs : Overlay.projection o' f = Overlay.projection o f -> o_manifest o' = o_manifest o -> stands base f o bs -> stands base f o' bs.
Proof. intros Hp Hm [H1 H2 H3 H4]. split; rewrite ?Hp, ?Hm; done. Qed.

Lemma field_chain checksum : named checksum forest_base field_overlay forest_batches.
Proof. apply (named_next checksum forest_base forest_next forest_log (forest_delta ++ field_rows)); [apply forest_log_named|by left|exact forest_own]. Qed.

Lemma field_view_loaded : view_loaded field_view field_loaded field_names forest_batches.
Proof.
  assert (Hm : o_manifest field_loaded = o_manifest field_named) by (by vm_compute). assert (Hp : Overlay.projection field_loaded Namespace = Overlay.projection field_named Namespace) by (by vm_compute).
  assert (Hv : view_loaded (mkView forest_base (Some field_named) (fun _ => Some 1%N)) field_named field_names forest_batches).
  { refine (view_of_load sample_sum forest_base sample_documents _ field_overlay _ _ _ forest_base_laws forest_name_laws forest_forest_laws (field_chain _) _ _ _); by vm_compute. }
  destruct Hv as [_ _ Hshown Hst]. split; [done| |by rewrite Hm|by eapply stands_alike]. by vm_compute.
Qed.

Lemma field_rows_valid : tx_valid Inodes (frame forest_next, field_rows).
Proof.
  assert (Hd : from_mode 16877 = Dir) by reflexivity. assert (Hf : from_mode 33188 = File) by reflexivity.
  repeat apply Forall_cons_2; try apply Forall_nil_2; (split; [|intros id n [= <-] [= <-]; reflexivity|reflexivity]); cbn [checked].
  - split; [discriminate|]. split; [split; [discriminate|congruence]|]. split; [exact Hd|]. split; [reflexivity|]. apply field_stat_ok. reflexivity.
  - split; [intros n [= <-]; reflexivity|]. split; [split; [discriminate|reflexivity]|]. split; [exact Hf|]. split; [congruence|]. apply field_stat_ok. reflexivity.
Qed.

Lemma field_views checksum : views forest_base Inodes checksum field_overlay field_batches.
Proof.
  refine (views_next forest_base Inodes checksum forest_next forest_log (forest_delta ++ field_rows) (replicate 4 None) None [mkBatch (log_txs (frames (mkLog None [] 0 0 3)) []) (counts forest_first)] eq_refl eq_refl _ _ field_rows_valid).
  - eapply views_log; [reflexivity|reflexivity|reflexivity|reflexivity|reflexivity|exact I|apply Forall_nil_2|reflexivity].
  - split; [done|done|repeat constructor|done|done].
Qed.

Lemma field_inodes_stand : stands forest_base Inodes field_loaded field_batches.
Proof.
  assert (Hm : o_manifest field_loaded = o_manifest field_inodes) by (by vm_compute). assert (Hp : Overlay.projection field_loaded Inodes = Overlay.projection field_inodes Inodes) by (by vm_compute).
  assert (Hl : load sample_sum forest_base field_overlay Inodes = Some (field_inodes, Ok tt)) by (by vm_compute).
  eapply stands_alike; [exact Hp|exact Hm|]. destruct (load_views forest_base Inodes (Hlaws := inodes_laws forest_base) sample_sum field_overlay field_batches (field_views _)) as (o & r & Ho & _ & Hr).
  rewrite Hl in Ho. injection Ho as <- <-. exact Hr.
Qed.

(** The checkpoint has hashed no file. *)
Definition no_docs (_ : u32) : option u32 := None.

Lemma field_fields : exists p f ls, Overlay.projection field_loaded Namespace = Some p /\ Overlay.projection field_loaded Inodes = Some f /\ Projection.records p LIFE = Some ls /\
  fields_loop field_view f ls = Some (Ok tt).
Proof. eexists _, _, _. split; [vm_compute; reflexivity|]. split; [vm_compute; reflexivity|]. split; [vm_compute; reflexivity|]. vm_compute. reflexivity. Qed.

Lemma field_told : names_told forest_base field_loaded (records_of (all_txs forest_batches)).
Proof.
  intros i _ Hl Hnone. unfold live_at in Hl. rewrite Hnone in Hl. apply N.ltb_lt in Hl. change (i < 3)%N in Hl.
  assert (Hi : i = 0%N \/ i = 1%N \/ i = 2%N) by lia. by destruct Hi as [-> | [-> | ->]]; vm_compute.
Qed.

Lemma field_inodes_loaded : inodes_loaded field_view no_docs field_loaded field_batches.
Proof. split; [exact field_inodes_stand|exact field_fields|discriminate]. Qed.

Lemma view_adopts_witness :
  (exists names, adopt (catalog_of field_view no_docs) (catalog_of (checkpoint_of field_view) no_docs) (mkDocNames (DocNames.mkBase [0; 0]%N []) ∅) = Some (Ok (Some names)) /\ names_of names 0 = Some [1%N]) /\
  names_told forest_base field_loaded (records_of (all_txs forest_batches)) /\
  exists built c', new_until never (catalog_of (checkpoint_of field_view) no_docs) tt = Some (Ok built, c') /\
    match built with
    | None => stopped c'
    | Some names => answers (checkpoint_of field_view) no_docs names /\
        exists carried, adopt (catalog_of field_view no_docs) (catalog_of (checkpoint_of field_view) no_docs) names = Some (Ok carried) /\
          forall names', carried = Some names' -> answers_within field_view no_docs names' /\
            (names_told forest_base field_loaded (records_of (all_txs forest_batches)) -> answers field_view no_docs names')
    end.
Proof.
  split; [eexists; split; vm_compute; reflexivity|]. split; [exact field_told|].
  exact (view_adopts field_view no_docs field_loaded field_names forest_batches field_batches forest_name_laws field_view_loaded field_inodes_loaded never never_flag tt).
Defined.

(** A name the log adds to an inode of the checkpoint without a lifetime row
    passes the checks, which compare a declared count only where there is one;
    the count of the inode's names is then the checkpoint's. *)
Definition untold_next : Manifest := mkManifest (mkGeneration (le_bytes 16 1) 3 12) 0 11 1 (mkCounters 3 3 1) (mkCounts 3 3 2 1).

Example untold_count_accepted :
  match load_namespace sample_sum forest_base 2 (overlay_advance forest_log untold_next [NamePut 2 0 2 [99%N] false]) with
  | Some (o, Ok _) => let v := mkView forest_base (Some o) (fun _ => Some 1%N) in view_name_count v 2 = Some 1%N /\ view_child_ids v = Some [(0, 1); (1, 2); (2, 2)]%N
  | _ => False
  end.
Proof. vm_compute. by split. Qed.

(** An adoption of such a view loses a name: the inode gains its document, its
    new name was rewritten, and its count is the checkpoint's one name. *)
Definition untold_overlay : Overlay :=
  overlay_advance forest_log untold_next [NamePut 2 0 2 [99%N] false; InodePut 2 File Hashed (Some 0%N) (field_stat 33188)].
Definition untold_view : View :=
  mkView forest_base (Some (loaded_or (load sample_sum forest_base (loaded_or (load_namespace sample_sum forest_base 2 untold_overlay) untold_overlay) Inodes) untold_overlay)) (fun _ => Some 1%N).

Example untold_adoption_misses :
  match new_until never (catalog_of (checkpoint_of untold_view) no_docs) tt with
  | Some (Ok (Some names), _) =>
      match adopt (catalog_of untold_view no_docs) (catalog_of (checkpoint_of untold_view) no_docs) names with
      | Some (Ok (Some names')) => names_of names' 0 = Some [2%N]
      | _ => False
      end
  | _ => False
  end /\ view_child_ids untold_view = Some [(0, 1); (1, 2); (2, 2)]%N /\ view_doc untold_view no_docs 2 = Some (Some 0%N).
Proof. vm_compute. by split_and!. Qed.
